(* ===== verification/_CoqProject ===== *)
-Q . S2P
Prelude.v
HostUtils.v
TcgOp.v
TcgOpt.v
TcgRing.v
TcgArith.v
TcgSem.v
TcgBits.v
TcgSound.v
TcgStep.v
TcgProg.v
TcgShape.v
TcgLive.v
TcgGen.v
TcgReg.v
TcgHost.v
TcgMeaning.v
TcgPlace.v
TcgMove.v
TcgAlloc.v
TcgSim.v
TcgSimOp.v
TcgSimMov.v
TcgSimCall.v
TcgMarks.v
TcgFit.v
TcgKeep.v
TcgCode.v
TcgTarget.v
TcgX86.v
TcgMain.v
TcgTemp.v
TcgFront.v
TcgEmit.v
TcgDenote.v
TcgFrontOk.v
TcgFrontSeq.v
TcgFrontWide.v
TcgFrontMixed.v
TcgFrontMain.v
TcgGuest.v
ArmCpu.v
Stream.v
QemuFile.v
Interrupt.v
Pic8259.v
QemuTimer.v
Bus.v
Timer.v
Tty.v
Events.v
Battery.v
Pipe.v
Nand.v
Ps2.v
Pit.v
