(* ===== verification/Prelude.v ===== *)
(** * The emulator's device models, snapshots, timers and translator

    This library models parts of an Android/x86 emulator derived from QEMU and
    proves them correct.  File names below are under src/.

    ** The program

    A machine is a set of devices whose register accesses come from the guest
    CPU.  Its code is translated block by block: a front end emits intermediate
    operations (tcg/tcg-op.h), the optimiser (tcg/optimize.c) and the liveness
    pass (tcg/tcg.c) rewrite them, a register allocator and a back end emit host
    code.  Devices raise interrupts through an interrupt controller (the
    Goldfish controller on ARM and MIPS, a pair of 8259s on the PC), arm timers
    on the timer lists that the main loop runs (qemu-timer.c), exchange bytes
    with the host, and are saved to and restored from snapshot streams
    (savevm.c).  The Goldfish devices are found by the guest by enumerating
    their bus (hw/android/goldfish/device.c).

    ** The library

    - [Prelude] (this file): fixed-width integers and bits, the monad of device
      code with faults and a trace of effects, lists, guest memory, tactics.
    - [Stream], [QemuFile]: savevm.c.  [Stream] has the encoders over the
      classes [Sink] and [Source]; [Snapshot] is the contract of a device's save
      and load functions, proved by each device against those classes;
      [QemuFile] proves that the buffered file is such a sink and source.
    - [Interrupt]: hw/android/goldfish/interrupt.c; the class [IrqController] is
      what it promises to devices.
    - [Pic8259]: hw/intc/i8259.c, with and without the targets that lower the
      parent line.
    - [ArmCpu]: the processor modes and the status register of target-arm/cpu.h
      and target-arm/helper.c.
    - [QemuTimer]: qemu-timer.c; the class [AlarmClock] is what one timer of a
      list promises to the device that owns it.
    - [Bus], [Timer], [Tty], [Events], [Battery], [Pipe], [Nand]: device.c,
      timer.c, tty.c, events_device.c, battery.c, pipe.c and nand.c of
      hw/android/goldfish.
    - [Ps2], [Pit]: hw/input/ps2.c and hw/timer/i8254.c.
    - [HostUtils]: util/host-utils.c, include/qemu/host-utils.h and
      include/qemu/bitops.h.
    - [TcgOp]: the intermediate code (tcg/tcg-opc.h, tcg/tcg.h) and its meaning
      as tcg/README gives it, on a 64-bit host.  [TcgOpt]: tcg/optimize.c.
      [TcgRing], [TcgArith], [TcgBits], [TcgSem], [TcgSound], [TcgStep] and
      [TcgProg] prove it correct, from the array of facts up to whole blocks.
      [TcgShape]: what it writes back, without regard to values.  [TcgLive]: the
      liveness pass of tcg/tcg.c.  [TcgGen]: the two passes in the order of
      [tcg_gen_code_common].
    - [TcgReg]: the register allocator of tcg/tcg.c, over the record [Target] of
      a back end; its output is a list of host instructions, and [TcgHost] says
      what these do to registers and memory.  [TcgMeaning]: an operation means
      on its places what it means on temporaries.  [TcgPlace]: the invariant of
      the allocator's tables and the relation of a host to a state of the
      intermediate code.  [TcgMove], [TcgAlloc], [TcgSim], [TcgSimOp],
      [TcgSimMov], [TcgSimCall]: each step, and each kind of operation, keeps
      both.  [TcgMarks]: what the marks of the liveness pass promise the
      allocator.  [TcgFit]: the decidable check of a block; [TcgKeep]: the
      optimiser keeps it.  [TcgCode]: whole blocks, jumps included.
    - [TcgTarget]: the constraint strings of a back end, and a decision procedure
      for what the allocator asks of them.  [TcgX86]: the tables of
      tcg/i386/tcg-target.c for x86-64.  [TcgMain]: the code generator composed,
      and its theorems.
    - [TcgTemp]: the translation context while a block is translated (tcg/tcg.c:
      globals, temporaries and their free lists, labels, calls of helpers).
      [TcgFront]: the generators of tcg/tcg-op.h, which front ends call, over the
      record [TargetHas] of the host's optional operations; the [_i32] and [_i64]
      versions of a generator are one definition over the width.  [TcgEmit]: what
      a generator promises ([denotes]).  [TcgDenote]: what each emitted operation
      denotes.  [TcgFrontOk], [TcgFrontSeq], [TcgFrontWide], [TcgFrontMixed]: the
      generators one by one: arithmetic and constants; sequences that stand in for
      an operation; comparisons, divisions and double words; mixed widths,
      branches and memory.  [TcgFrontMain]: what generators emit passes the checks
      of the later passes, down to host code.  [TcgGuest]: the theorems.

    Definitions keep the names of the C code.  A register access of a device is
    a function from its state to an outcome, a new state and a trace of effects
    (interrupt lines driven, bytes sent, calls to other components); a fault
    stands for what the code cannot survive (an access outside an array, a
    failed assertion, a division that traps).  Host services are arguments.

    ** What is proved

    Each theorem's comment states its conditions; the chief ones are given here.

    - Front end.  [TcgGuest.TcgGuest.front_end_correct]: generator calls that
      denote a change of the guest's state become, through all later passes, host
      code that makes that change.  The other theorems of [TcgGuest] give the
      denotations, for a host with any set of optional operations: a sequence of
      shifts and masks computes what the operation it stands in for does (but a
      rotation by a variable that is zero).
      Denotations compose ([TcgEmit.TcgEmit.denotes_seq] and the rules beside it):
      a front end's translation of an instruction is proved by them.
    - Translator.  [TcgMain.TcgMain.tcg_gen_code_correct]: optimiser, liveness
      pass and register allocator return, and the host code they leave runs as
      the block does, for blocks that write no fixed global and widen no 32-bit
      temporary, but that folding a signed division may stop the optimiser;
      [TcgMain.TcgMain.x86_gen_code_correct] for the tables of
      x86-64, which [TcgMain.TcgMain.x86_table_complete] shows to have a register
      for every operand.  [TcgProg.TcgProg.tcg_optimize_correct]: the optimised
      block runs in step with the block, with the same effects and the same value in
      every temporary (no [muluh_i64], [mulsh_i64], nor [or] of a temporary with itself);
      [TcgLive.TcgLive.tcg_liveness_correct]: so does what the
      liveness pass leaves, as far as globals and the world go, and
      [TcgGen.TcgGen.tcg_gen_code_passes_correct] composes the two;
      [TcgMain.TcgMain.tcg_reg_alloc_correct] is the allocator's.  The parts:
      the search of the circular lists of copies ends, folding is exact, the
      masks of known-zero bits are sound, the rewritings keep typing, the marks
      for the register allocator are exact, the buffers may be rewritten in
      place.
    - Interrupts.  The hand-kept counter of the Goldfish controller is right in
      every reachable state; the 8259 pair faults only on a level-triggered ICW1,
      grants the best unmasked request, nests and rotates as specified, and drives
      its output.
    - Processor.  A write of the ARM status register changes the bits of its mask
      and no others, and a change of mode loses no register.
    - Time.  A pass over a timer list ends and fires exactly what expired, in
      order, if callbacks arm timers only for the future; arming keeps the list sorted; deadlines are right; the alarm of the
      Goldfish timer and the counters of the 8254 interrupt when they should (the
      rate generator up to the first edge on a whole nanosecond).
    - Queues.  The bytes or events that the event device, the serial port and
      the PS/2 devices hand out are those they took, in order (events as long as
      none arrives at the one bad fill level of the ring); a wake of a pipe
      is delivered.
    - Storage.  NAND writes and erases store exactly the addressed range, and
      reading returns it, when the host's file system does not fail; when it
      does, the guest is told that all is well.
    - Snapshots.  Encoders, files and devices restore what was saved.
    - Defects.  Theorems that describe where the code loses events, interrupts
      or data say so in their comments.

    ** Bounds and fuel

    A division is C's: it has no value for a zero divisor, nor for the most
    negative value by -1 ([HostUtils.c_quot] and the definitions beside it).  A
    shift by the width or more, which C leaves undefined too, takes the count
    modulo the width, as the hosts do.

    Loops are structural on what they walk, or take fuel that a theorem shows to
    be enough: [ring_fuel] of the copy lists is the number of temporaries, the
    pass over a timer list takes one step for each timer its callbacks leave
    armed, the file loops one step for each byte and refill, the priority search
    of the 8259 eight.  [Tcg.run] executes as many operations as it is given;
    the theorems about it hold for every number.  [TcgHost.hrun] executes as
    many host instructions, and the theorems give a number that is enough for a
    run of the block.

    ** Not modelled

    The decoders of guest instructions and the encoding of host instructions;
    generators for hosts of 32 bits and for hosts that extend call arguments
    ([TCG_TARGET_EXTEND_ARGS]); the composition down to host code is for
    straight-line code, whose labels are the exits of the block (a block with
    labels inside is covered from its intermediate code on), and for operations
    that do not widen a temporary ([strict]; see the end of this list);
    the passes of builds without liveness analysis; a call without
    [TCG_CALL_NO_WRITE_GLOBALS] but with [TCG_CALL_NO_SIDE_EFFECTS] (the
    condition-code helpers of the i386 target)
    is outside the liveness theorem.  Old guest loads and stores and [nop1] to
    [nop3] are not in the intermediate code modelled; the argument buffer is
    kept as one list for each operation.  Files with [writev_buffer], the
    console, user interface, audio, video, block and network back ends, user
    networking and the remaining devices (APIC, keyboard controller, CMOS clock,
    serial port, DMA) are left out, as are pure host I/O and vendored code.
    Of target-arm only the status register and the modes are modelled.  The host
    service of a pipe makes its upcalls between register accesses.  The partial
    register writes of the x86 byte and word deposits are below the model's host
    instructions, which leave 32-bit results with a cleared upper half; the check
    of the last paragraph keeps them from being observed.
    The theorems about the code generator check the block the front end gives:
    an operation of 64 bits reads no temporary of 32 bits.  Front ends do widen
    one (they pass it to [ext32u_i64] and [ext32s_i64]); the host's upper half is
    then what the back end left there, and
    [TcgMain.TcgMain.widened_word_diverges] shows that the optimiser relies on
    more than the back end gives. *)
From Stdlib Require Import ZArith Lia Bool Btauto.
From stdpp Require Import base numbers list.
Local Open Scope Z_scope.

(** * Machine integers

    A C integer is a [Z]; an object of a [w]-bit unsigned type holds
    [uwrap w x], one of a signed type [swrap w x] (two's complement, which is what
    the compilers this program is built with do on conversion). *)

Definition uwrap (w x : Z) : Z := x mod 2 ^ w.
Definition swrap (w x : Z) : Z :=
  if uwrap w x <? 2 ^ (w - 1) then uwrap w x else uwrap w x - 2 ^ w.

Notation u8 := (uwrap 8).
Notation u16 := (uwrap 16).
Notation u32 := (uwrap 32).
Notation u64 := (uwrap 64).
Notation s8 := (swrap 8).
Notation s32 := (swrap 32).
Notation s64 := (swrap 64).

(** The range predicate of a [w]-bit unsigned object. *)
Definition fits (w x : Z) : Prop := 0 <= x < 2 ^ w.

(** [nz x] is the value of [x] used as a C condition, [bit i] is [1U << i]. *)
Definition nz (x : Z) : bool := negb (x =? 0).
Definition bit (i : Z) : Z := Z.shiftl 1 i.
(** [!!x], [x != 0] and the other 0/1 results of C conditions. *)
Definition cbool (b : bool) : Z := if b then 1 else 0.

(** * Faults and outcomes

    [cpu_abort], [hw_error] and [tcg_abort] print and call [abort]: control does not come
    back.  An access outside a C array, a division by zero and a null
    dereference are [Fault]s as well, so that a handler proved to return
    [Ok] performs none of them. *)

Inductive fault :=
| CpuAbort (arg : Z)
| HwError
| ProcessExit
| OutOfBounds
| DivByZero
| NullDeref
| AssertFailed
| TcgAbort
| DivOverflow
| FuelExhausted.

Inductive outcome (A : Type) :=
| Ok (a : A)
| Fault (f : fault).
Arguments Ok {A} a.
Arguments Fault {A} f.

Definition obind {A B} (x : outcome A) (k : A -> outcome B) : outcome B :=
  match x with Ok a => k a | Fault f => Fault f end.

Definition is_ok {A} (x : outcome A) : bool :=
  match x with Ok _ => true | Fault _ => false end.

(** * The device monad

    A register handler runs on the state [S] of its device, may fault, and
    leaves a trace of the effects [E] it had on the rest of the machine, in
    the order it had them. *)

Definition prog (S E A : Type) : Type := S -> outcome (A * S * list E).

Section prog.
Context {S E : Type}.

Definition ret {A} (a : A) : prog S E A := fun st => Ok (a, st, []).
Definition bind {A B} (m : prog S E A) (k : A -> prog S E B) : prog S E B :=
  fun st =>
    match m st with
    | Fault f => Fault f
    | Ok (a, st1, es1) =>
        match k a st1 with
        | Fault f => Fault f
        | Ok (b, st2, es2) => Ok (b, st2, es1 ++ es2)
        end
    end.
Definition gets {A} (f : S -> A) : prog S E A := fun st => Ok (f st, st, []).
Definition modify (f : S -> S) : prog S E unit := fun st => Ok (tt, f st, []).
Definition emit (e : E) : prog S E unit := fun st => Ok (tt, st, [e]).
Definition abort {A} (f : fault) : prog S E A := fun _ => Fault f.
Definition of_outcome {A} (x : outcome A) : prog S E A :=
  match x with Ok a => ret a | Fault f => abort f end.
Definition when (c : bool) (m : prog S E unit) : prog S E unit :=
  if c then m else ret tt.
Definition of_option {A} (f : fault) (o : option A) : prog S E A :=
  match o with Some a => ret a | None => abort f end.
End prog.

Declare Scope prog_scope.
Delimit Scope prog_scope with prog.
Notation "x <- m ;; k" := (bind m (fun x => k))
  (at level 100, m at next level, right associativity) : prog_scope.
Notation "m ;;; k" := (bind m (fun _ => k))
  (at level 100, k at level 200, right associativity) : prog_scope.

Definition run_state {S E A} (m : prog S E A) (st : S) : option S :=
  match m st with Ok (_, st', _) => Some st' | Fault _ => None end.

(** * Assignment to a member

    A struct is a record; [st <| m := v |>] is the struct after [st->m = v],
    [st <| m ::= f |>] after [st->m = f(st->m)].  [Settable] gives the
    struct's constructor applied to its own members; the update of a member
    abstracts that member in it. *)

Class Settable (R : Type) := settable_eta : R -> R.
Class Setter {R T : Type} (proj : R -> T) := setter : (T -> T) -> R -> R.
Arguments setter {R T} proj {_} f r.

Ltac solve_setter :=
  lazymatch goal with
  | |- @Setter ?R ?T ?proj =>
      let i := constr:(_ : Settable R) in
      let f := fresh "f" in
      let r := fresh "r" in
      intros f r;
      let i := eval red in i in
      let e := eval cbv beta in (i r) in
      let e := eval pattern (proj r) in e in
      lazymatch e with
      | ?k _ => let t := eval cbv beta in (k (f (proj r))) in exact t
      end
  end.
#[export] Hint Extern 1 (Setter _) => solve_setter : typeclass_instances.

Declare Scope record_scope.
Delimit Scope record_scope with record.
Open Scope record_scope.
Notation "r <| m := v |>" := (setter m (fun _ => v) r)
  (at level 12, left associativity, m at level 20, v at level 200,
   format "r <| m  :=  v |>") : record_scope.
Notation "r <| m ::= f |>" := (setter m f r)
  (at level 12, left associativity, m at level 20, f at level 200,
   format "r <| m  ::=  f |>") : record_scope.

Lemma bind_ok {S E A B} (m : prog S E A) (k : A -> prog S E B) st a st1 es1 b st2 es2 :
  m st = Ok (a, st1, es1) -> k a st1 = Ok (b, st2, es2) ->
  bind m k st = Ok (b, st2, es1 ++ es2).
Proof. intros E1 E2. unfold bind. by rewrite E1, E2. Qed.

(** * Integer lemmas *)

Create HintDb words discriminated.

Lemma pow2_pos w : 0 <= w -> 0 < 2 ^ w.
Proof. intros. apply Z.pow_pos_nonneg; lia. Qed.

Lemma uwrap_range w x : 0 <= w -> 0 <= uwrap w x < 2 ^ w.
Proof. intros. apply Z.mod_pos_bound, pow2_pos; lia. Qed.

Lemma uwrap_fits w x : 0 <= w -> fits w (uwrap w x).
Proof. apply uwrap_range. Qed.

Lemma uwrap_id w x : fits w x -> uwrap w x = x.
Proof. apply Z.mod_small. Qed.

Lemma uwrap_idem w x : 0 <= w -> uwrap w (uwrap w x) = uwrap w x.
Proof. intros. apply uwrap_id, uwrap_fits; lia. Qed.

Lemma uwrap_spec w x i :
  0 <= w -> 0 <= i -> Z.testbit (uwrap w x) i = (i <? w) && Z.testbit x i.
Proof.
  intros Hw Hi. unfold uwrap. destruct (Z.ltb_spec i w).
  - by rewrite Z.mod_pow2_bits_low by lia.
  - by rewrite Z.mod_pow2_bits_high by lia.
Qed.

Lemma swrap_range w x : 1 <= w -> - 2 ^ (w - 1) <= swrap w x < 2 ^ (w - 1).
Proof.
  intros Hw. unfold swrap. pose proof (uwrap_range w x ltac:(lia)).
  assert (2 ^ w = 2 * 2 ^ (w - 1)) as E.
  { rewrite <- Z.pow_succ_r by lia. f_equal. lia. }
  destruct (Z.ltb_spec (uwrap w x) (2 ^ (w - 1))); lia.
Qed.

Lemma swrap_id w x : 1 <= w -> - 2 ^ (w - 1) <= x < 2 ^ (w - 1) -> swrap w x = x.
Proof.
  intros Hw Hx. unfold swrap, uwrap.
  assert (2 ^ w = 2 * 2 ^ (w - 1)) as E.
  { rewrite <- Z.pow_succ_r by lia. f_equal. lia. }
  destruct (Z.ltb_spec x 0).
  - rewrite <- (Z_mod_plus_full x 1 (2 ^ w)), Z.mod_small by lia.
    destruct (Z.ltb_spec (x + 1 * 2 ^ w) (2 ^ (w - 1))); lia.
  - rewrite Z.mod_small by lia.
    destruct (Z.ltb_spec x (2 ^ (w - 1))); lia.
Qed.

(** Two values congruent modulo [2 ^ w] convert to the same signed object. *)
Lemma swrap_uwrap w x : 0 <= w -> swrap w (uwrap w x) = swrap w x.
Proof. intros. unfold swrap. by rewrite uwrap_idem. Qed.

Lemma uwrap_swrap w x : 0 <= w -> uwrap w (swrap w x) = uwrap w x.
Proof.
  intros. unfold swrap. destruct (_ <? _).
  - by apply uwrap_idem.
  - unfold uwrap. replace (x mod 2 ^ w - 2 ^ w) with (x mod 2 ^ w + (-1) * 2 ^ w) by lia.
    rewrite Z_mod_plus_full. apply Z.mod_mod.
    pose proof (pow2_pos w ltac:(lia)). lia.
Qed.

Lemma fits_testbit w x i : 0 <= w -> fits w x -> w <= i -> Z.testbit x i = false.
Proof.
  intros Hw Hx Hi. rewrite <- (uwrap_id w x Hx). rewrite uwrap_spec by lia.
  by destruct (Z.ltb_spec i w); [lia|].
Qed.

(** Bit-extensionality for [w]-bit objects. *)
Lemma fits_bits_inj w x y :
  0 <= w -> fits w x -> fits w y ->
  (forall i, 0 <= i < w -> Z.testbit x i = Z.testbit y i) -> x = y.
Proof.
  intros Hw Hx Hy H. apply Z.bits_inj'. intros i Hi.
  destruct (Z.ltb_spec i w); [apply H; lia|].
  by rewrite !(fits_testbit w) by (done || lia).
Qed.

Lemma fits_of_bits w x :
  0 <= w -> 0 <= x -> (forall i, w <= i -> Z.testbit x i = false) -> fits w x.
Proof.
  intros Hw Hx H. assert (x = uwrap w x) as ->.
  { apply Z.bits_inj'. intros i Hi. rewrite uwrap_spec by lia.
    destruct (Z.ltb_spec i w); [done|]. by rewrite H by lia. }
  by apply uwrap_fits.
Qed.

(** A word assembled from a low part and a shifted high part. *)
Lemma lor_shiftl_add n lo hi :
  0 <= n -> fits n lo -> Z.lor lo (Z.shiftl hi n) = hi * 2 ^ n + lo.
Proof.
  intros Hn Hlo. assert (Z.land lo (Z.shiftl hi n) = 0) as E.
  { apply Z.bits_inj'. intros i Hi. rewrite Z.land_spec, Z.bits_0, Z.shiftl_spec by lia.
    destruct (Z.ltb_spec i n).
    - by rewrite (Z.testbit_neg_r hi), andb_false_r by lia.
    - by rewrite (fits_testbit n lo i). }
  rewrite <- Z.lxor_lor, <- Z.add_nocarry_lxor by done.
  rewrite Z.shiftl_mul_pow2 by lia. lia.
Qed.

(** A signed object repeats its sign bit. *)
Lemma swrap_spec w x i :
  1 <= w -> 0 <= i -> Z.testbit (swrap w x) i = Z.testbit x (Z.min i (w - 1)).
Proof.
  intros Hw Hi. pose proof (uwrap_fits w x ltac:(lia)) as Hf.
  assert (Z.testbit x (w - 1) = negb (uwrap w x <? 2 ^ (w - 1))) as Hs.
  { transitivity (Z.testbit (uwrap w x) (w - 1)).
    - rewrite uwrap_spec by lia. by rewrite (proj2 (Z.ltb_lt _ _)) by lia.
    - unfold fits in Hf. assert (2 ^ w = 2 * 2 ^ (w - 1)) as E.
      { rewrite <- Z.pow_succ_r by lia. f_equal. lia. }
      rewrite Z.testbit_odd, Z.shiftr_div_pow2 by lia. pose proof (pow2_pos (w - 1) ltac:(lia)).
      destruct (Z.ltb_spec (uwrap w x) (2 ^ (w - 1))).
      + by rewrite Z.div_small by lia.
      + by rewrite <- (Z.div_unique (uwrap w x) (2 ^ (w - 1)) 1 (uwrap w x - 2 ^ (w - 1))) by lia. }
  unfold swrap. destruct (Z.ltb_spec i w) as [Hiw|Hiw]; destruct (uwrap w x <? _) eqn:E.
  - rewrite uwrap_spec, (proj2 (Z.ltb_lt _ _)), Z.min_l by lia. done.
  - replace (uwrap w x - 2 ^ w) with (-1 * 2 ^ w + uwrap w x) by lia.
    rewrite <- lor_shiftl_add, Z.lor_spec, Z.shiftl_spec by (done || lia).
    rewrite (Z.testbit_neg_r (-1)), orb_false_r, uwrap_spec, (proj2 (Z.ltb_lt _ _)), Z.min_l by lia. done.
  - rewrite uwrap_spec, (proj2 (Z.ltb_ge _ _)), Z.min_r, Hs by lia. done.
  - replace (uwrap w x - 2 ^ w) with (-1 * 2 ^ w + uwrap w x) by lia.
    rewrite <- lor_shiftl_add, Z.lor_spec, Z.shiftl_spec by (done || lia).
    rewrite Z.bits_m1, orb_true_r, Z.min_r, Hs by lia. done.
Qed.

Lemma fits_land_l w x y : 0 <= w -> fits w x -> fits w (Z.land x y).
Proof.
  intros Hw Hx. apply fits_of_bits; [done| |].
  - apply Z.land_nonneg. left. apply Hx.
  - intros i Hi. rewrite Z.land_spec, (fits_testbit w) by (done || lia). done.
Qed.

Lemma fits_land_r w x y : 0 <= w -> fits w y -> fits w (Z.land x y).
Proof. intros. rewrite Z.land_comm. by apply fits_land_l. Qed.

Lemma fits_lor w x y : 0 <= w -> fits w x -> fits w y -> fits w (Z.lor x y).
Proof.
  intros Hw Hx Hy. apply fits_of_bits; [done| |].
  - apply Z.lor_nonneg. split; [apply Hx|apply Hy].
  - intros i Hi. rewrite Z.lor_spec, !(fits_testbit w) by (done || lia). done.
Qed.

Lemma fits_weaken v w x : 0 <= v <= w -> fits v x -> fits w x.
Proof. unfold fits. intros Hv Hx. assert (2 ^ v <= 2 ^ w) by (apply Z.pow_le_mono_r; lia). lia. Qed.

Lemma fits_shiftl w n x : 0 <= w -> 0 <= n -> fits w x -> fits (w + n) (Z.shiftl x n).
Proof.
  intros Hw Hn [H0 H1]. unfold fits. rewrite Z.shiftl_mul_pow2, Z.pow_add_r by lia.
  pose proof (pow2_pos n Hn). nia.
Qed.

Lemma fits_shiftr w x n : fits w x -> 0 <= n -> fits w (Z.shiftr x n).
Proof.
  intros [H0 H1] Hn. unfold fits. rewrite Z.shiftr_div_pow2 by lia.
  pose proof (pow2_pos n Hn). split; [by apply Z.div_pos|]. apply Z.div_lt_upper_bound; nia.
Qed.

Lemma fits_0 w : 0 <= w -> fits w 0.
Proof. intros. pose proof (pow2_pos w ltac:(lia)). split; lia. Qed.

Lemma bit_spec i j : 0 <= i -> Z.testbit (bit i) j = (i =? j).
Proof.
  intros Hi. unfold bit. rewrite Z.shiftl_1_l.
  destruct (Z.eqb_spec i j) as [->|]; [by apply Z.pow2_bits_true|].
  by apply Z.pow2_bits_false.
Qed.

Lemma fits_bit w i : 0 <= i < w -> fits w (bit i).
Proof.
  intros. unfold bit, fits. rewrite Z.shiftl_1_l. split.
  - apply Z.pow_nonneg. lia.
  - apply Z.pow_lt_mono_r; lia.
Qed.

Lemma nz_true x : nz x = true <-> x <> 0.
Proof. unfold nz. destruct (Z.eqb_spec x 0); naive_solver. Qed.

Lemma nz_false x : nz x = false <-> x = 0.
Proof. unfold nz. destruct (Z.eqb_spec x 0); naive_solver. Qed.

Lemma nz_cbool b : nz (cbool b) = b.
Proof. by destruct b. Qed.

(** [x & (1 << i)] used as a condition is bit [i] of [x]. *)
Lemma nz_land_bit x i : 0 <= i -> nz (Z.land x (bit i)) = Z.testbit x i.
Proof.
  intros Hi. destruct (Z.testbit x i) eqn:E.
  - apply nz_true. intros H.
    assert (Z.testbit (Z.land x (bit i)) i = false) as H'
      by (rewrite H; apply Z.bits_0).
    rewrite Z.land_spec, bit_spec, E, Z.eqb_refl in H' by lia. done.
  - apply nz_false. apply Z.bits_inj'. intros j Hj.
    rewrite Z.land_spec, bit_spec, Z.bits_0 by lia.
    destruct (Z.eqb_spec i j) as [->|]; [by rewrite E|by rewrite andb_false_r].
Qed.

Lemma lor_bit_spec x i j :
  0 <= i -> 0 <= j -> Z.testbit (Z.lor x (bit i)) j = Z.testbit x j || (i =? j).
Proof. intros. by rewrite Z.lor_spec, bit_spec by lia. Qed.

Lemma clear_bit_spec x i j :
  0 <= i -> 0 <= j ->
  Z.testbit (Z.land x (Z.lnot (bit i))) j = Z.testbit x j && negb (i =? j).
Proof. intros. by rewrite Z.land_spec, Z.lnot_spec, bit_spec by lia. Qed.

Lemma nz_exists_bit x : 0 <= x -> nz x = true <-> exists i, 0 <= i /\ Z.testbit x i = true.
Proof.
  intros Hx. rewrite nz_true. split.
  - intros Hn. exists (Z.log2 x). split; [apply Z.log2_nonneg|apply Z.bit_log2; lia].
  - intros (i & Hi & H) ->. by rewrite Z.bits_0 in H.
Qed.

#[export] Hint Resolve uwrap_fits fits_land_l fits_land_r fits_lor fits_bit fits_0 : words.
#[export] Hint Extern 1 (_ <= _) => lia : words.
#[export] Hint Extern 1 (_ < _) => lia : words.
#[export] Hint Extern 1 (_ <= _ < _) => lia : words.

Create HintDb bits.
#[export] Hint Rewrite Z.land_spec Z.lor_spec Z.lxor_spec Z.bits_0 andb_true_r
  andb_false_r andb_true_l andb_false_l orb_true_r orb_false_r orb_true_l orb_false_l : bits.
#[export] Hint Rewrite Z.lnot_spec bit_spec uwrap_spec Z.shiftl_spec Z.shiftr_spec
  using lia : bits.
#[export] Hint Rewrite swrap_spec using lia : bits.

(** Prove an equation between bit-level expressions bit by bit. *)
Ltac bitwise :=
  apply Z.bits_inj'; let i := fresh "i" in let Hi := fresh "Hi" in
  intros i Hi; autorewrite with bits; try btauto.

(** Boolean equations between comparisons, by cases on the comparisons. *)
Ltac zbool :=
  repeat match goal with
  | |- context [?a <=? ?b] => destruct (Z.leb_spec a b)
  | |- context [?a <? ?b] => destruct (Z.ltb_spec a b)
  | |- context [?a =? ?b] => destruct (Z.eqb_spec a b)
  end; try reflexivity; try lia.

(** Split the leading conditional of the goal and clear absurd branches. *)
Ltac case_cond :=
  match goal with
  | |- context [if ?b then _ else _] => destruct b eqn:?
  end.

Ltac case_cond_in H :=
  match type of H with
  | context [if ?b then _ else _] => destruct b eqn:?
  end.

Lemma s64_id x : - 2 ^ 63 <= x < 2 ^ 63 -> s64 x = x.
Proof. intros. apply swrap_id; [lia|done]. Qed.
Lemma s32_id x : - 2 ^ 31 <= x < 2 ^ 31 -> s32 x = x.
Proof. intros. apply swrap_id; [lia|done]. Qed.

(** * Filtering lists *)

Lemma filter_ext_elem {A} (P Q : A -> Prop) `{!forall x, Decision (P x), !forall x, Decision (Q x)}
  (l : list A) :
  (forall x, x ∈ l -> P x <-> Q x) -> filter P l = filter Q l.
Proof.
  induction l as [|x l IH]; intros Hl; [done|].
  rewrite !filter_cons, IH by (intros y Hy; apply Hl; by right).
  specialize (Hl x (list_elem_of_here x l)). by repeat case_decide; try tauto.
Qed.

Lemma filter_none {A} (P : A -> Prop) `{!forall x, Decision (P x)} (l : list A) :
  (forall x, x ∈ l -> ~ P x) -> filter P l = [].
Proof.
  induction l as [|x l IH]; intros Hl; [done|].
  rewrite filter_cons, decide_False by (apply Hl; by left). apply IH. intros y Hy. apply Hl. by right.
Qed.

(** * Counting bits *)

Fixpoint popcount (n : nat) (x : Z) : Z :=
  match n with
  | O => 0
  | S n' => Z.b2z (Z.testbit x (Z.of_nat n')) + popcount n' x
  end.

Lemma popcount_ext n x y :
  (forall i, 0 <= i < Z.of_nat n -> Z.testbit x i = Z.testbit y i) ->
  popcount n x = popcount n y.
Proof.
  induction n as [|n IH]; intros H; [done|]. cbn [popcount].
  rewrite IH by (intros; apply H; lia). by rewrite H by lia.
Qed.

Lemma popcount_range n x : 0 <= popcount n x <= Z.of_nat n.
Proof.
  induction n as [|n IH]; [done|]. cbn [popcount].
  destruct (Z.testbit x (Z.of_nat n)); cbn [Z.b2z]; lia.
Qed.

(** Changing one bit changes the count by that bit. *)
Lemma popcount_update n x y i :
  0 <= i < Z.of_nat n ->
  (forall j, 0 <= j < Z.of_nat n -> j <> i -> Z.testbit x j = Z.testbit y j) ->
  popcount n y = popcount n x - Z.b2z (Z.testbit x i) + Z.b2z (Z.testbit y i).
Proof.
  induction n as [|n IH]; intros Hi H; [lia|]. cbn [popcount].
  destruct (decide (i = Z.of_nat n)) as [->|Hne].
  - rewrite (popcount_ext n y x); [lia|]. intros j Hj. symmetry. apply H; lia.
  - rewrite IH by (try (intros; apply H); lia).
    rewrite (H (Z.of_nat n)) by lia. lia.
Qed.

Lemma popcount_0 n : popcount n 0 = 0.
Proof. induction n as [|n IH]; [done|]. cbn [popcount]. by rewrite Z.bits_0, IH. Qed.

Lemma popcount_zero_iff n x :
  0 <= x < 2 ^ Z.of_nat n -> popcount n x = 0 <-> x = 0.
Proof.
  intros Hx. split; [|intros ->; apply popcount_0]. intros H.
  apply (fits_bits_inj (Z.of_nat n)); [lia|done|apply fits_0; lia|].
  clear Hx. intros i Hi. rewrite Z.bits_0. revert H Hi.
  induction n as [|n IH]; intros H Hi; [lia|]. cbn [popcount] in H.
  pose proof (popcount_range n x).
  destruct (Z.testbit x (Z.of_nat n)) eqn:E; cbn [Z.b2z] in H; [lia|].
  destruct (decide (i = Z.of_nat n)) as [->|]; [done|]. apply IH; lia.
Qed.

#[global] Arguments popcount : simpl never.
#[global] Arguments uwrap : simpl never.
#[global] Arguments swrap : simpl never.

(** ** Setting and clearing one bit *)

Definition upd_bit (b : bool) (i x : Z) : Z :=
  if b then Z.lor x (bit i) else Z.land x (Z.lnot (bit i)).

#[global] Arguments upd_bit : simpl never.

Lemma upd_bit_spec b i x j :
  0 <= i -> 0 <= j -> Z.testbit (upd_bit b i x) j = if i =? j then b else Z.testbit x j.
Proof.
  intros Hi Hj. unfold upd_bit.
  destruct b; rewrite ?lor_bit_spec, ?clear_bit_spec by lia;
    destruct (i =? j); by rewrite ?orb_true_r, ?orb_false_r, ?andb_false_r, ?andb_true_r.
Qed.

Lemma upd_bit_same b i x : 0 <= i -> Z.testbit x i = b -> upd_bit b i x = x.
Proof.
  intros Hi <-. apply Z.bits_inj'. intros j Hj. rewrite upd_bit_spec by lia.
  by destruct (Z.eqb_spec i j) as [->|].
Qed.

Lemma upd_bit_fits w b i x : 0 <= i < w -> fits w x -> fits w (upd_bit b i x).
Proof. intros. unfold upd_bit. destruct b; auto with words. Qed.

Lemma upd_bit_land b i x y :
  0 <= i -> Z.land (upd_bit b i x) y = upd_bit (b && Z.testbit y i) i (Z.land x y).
Proof.
  intros Hi. apply Z.bits_inj'. intros j Hj.
  rewrite Z.land_spec, !upd_bit_spec, Z.land_spec by lia.
  by destruct (Z.eqb_spec i j) as [->|].
Qed.

Lemma popcount_upd_bit n b i x :
  0 <= i < Z.of_nat n ->
  popcount n (upd_bit b i x) = popcount n x - Z.b2z (Z.testbit x i) + Z.b2z b.
Proof.
  intros Hi. rewrite (popcount_update n x _ i) by
    (try (intros j Hj Hne; rewrite upd_bit_spec by lia;
          destruct (Z.eqb_spec i j)); congruence || lia).
  by rewrite upd_bit_spec, Z.eqb_refl by lia.
Qed.

Lemma uwrap_bit w i : 0 <= i < w -> uwrap w (bit i) = bit i.
Proof. intros. by apply uwrap_id, fits_bit. Qed.

(** ** Guest memory

    The bytes a debug access of the guest's memory at [addr] sees; [mem] is
    the map from virtual addresses to bytes, [bits] the width of
    [target_ulong]. *)
Definition guest_read (bits : Z) (mem : Z -> Z) (addr len : Z) : list Z :=
  map (fun i => mem (uwrap bits (addr + i))) (seqZ 0 len).

Lemma guest_read_split bits mem addr n m :
  0 <= bits -> 0 <= n -> 0 <= m ->
  guest_read bits mem addr (n + m) =
    guest_read bits mem addr n ++ guest_read bits mem (uwrap bits (addr + n)) m.
Proof.
  intros. unfold guest_read. rewrite seqZ_app, map_app by lia. f_equal.
  replace (0 + n) with n by lia. rewrite <- (Z.add_0_r n) at 1. rewrite <- fmap_add_seqZ.
  rewrite <- list_fmap_compose. apply list_fmap_ext. intros i x _. cbn. f_equal.
  unfold uwrap. rewrite Zplus_mod_idemp_l. f_equal. lia.
Qed.

Lemma guest_read_length bits mem addr n :
  0 <= n -> Z.of_nat (length (guest_read bits mem addr n)) = n.
Proof. intros. unfold guest_read. rewrite length_map, length_seqZ. lia. Qed.

(** [uint64_set_low] and [uint64_set_high] of hw/android/goldfish/device.h. *)
Definition uint64_set_low (addr value : Z) : Z :=
  Z.lor (Z.land addr (u64 (Z.lnot 0xFFFFFFFF))) value.
Definition uint64_set_high (addr value : Z) : Z :=
  Z.lor (Z.land addr 0xFFFFFFFF) (u64 (Z.shiftl value 32)).

(** ** Running a handler

    [run_prog] reduces the monad's operations at the head of the goal; the
    conditions of the code are left to the proof. *)
Ltac run_prog :=
  cbv beta iota zeta delta [bind gets modify emit ret when abort of_option id];
  cbn [app fst snd].

(** ** Total correctness from a state

    [runs m st Q]: from [st], [m] returns, and [Q] holds of its result, the state
    it leaves and its trace. *)
Section runs.
Context {S E : Type}.

Definition runs {A} (m : prog S E A) (st : S) (Q : A -> S -> list E -> Prop) : Prop :=
  exists a st' es, m st = Ok (a, st', es) /\ Q a st' es.

Lemma runs_ret {A} (a : A) st Q : Q a st [] -> runs (ret a) st Q.
Proof. intros. by exists a, st, []. Qed.

Lemma runs_bind {A B} (m : prog S E A) (k : A -> prog S E B) st (Q : B -> S -> list E -> Prop) :
  runs m st (fun a st1 es1 => runs (k a) st1 (fun b st2 es2 => Q b st2 (es1 ++ es2))) -> runs (bind m k) st Q.
Proof.
  intros (a & st1 & es1 & E1 & b & st2 & es2 & E2 & H). exists b, st2, (es1 ++ es2). split; [|done].
  by apply (bind_ok m k st a st1 es1).
Qed.

(** A first part that ends in its value, as a part of the whole. *)
Lemma runs_split {A B} (m : prog S E A) (f : A -> prog S E unit) (k : A -> prog S E B) st (Q : B -> S -> list E -> Prop) :
  runs (x <- m ;; f x ;;; ret x)%prog st (fun x st1 es1 => runs (k x) st1 (fun y st2 es2 => Q y st2 (es1 ++ es2))) ->
  runs (x <- m ;; f x ;;; k x)%prog st Q.
Proof.
  intros (x & st1 & es1 & E1 & y & st2 & es2 & E2 & HQ). unfold bind in E1.
  destruct (m st) as [[[x0 s0] e0]|] eqn:Em; [|done]. destruct (f x0 s0) as [[[[] s1] e1]|] eqn:Ef; [|done].
  cbn in E1. injection E1 as -> -> <-. exists y, st2, (e0 ++ (e1 ++ es2)). rewrite app_nil_r in HQ. split; [|by rewrite app_assoc].
  apply (bind_ok m _ _ x s0); [done|]. by apply (bind_ok (f x) _ _ tt st1).
Qed.

(** A first part that hands its value on. *)
Lemma runs_assoc {A B C} (m : prog S E A) (f : A -> prog S E B) (k : B -> prog S E C) st (Q : C -> S -> list E -> Prop) :
  runs (y <- (x <- m ;; f x) ;; k y)%prog st Q -> runs (x <- m ;; y <- f x ;; k y)%prog st Q.
Proof.
  intros (z & st' & es & E1 & HQ). unfold bind in E1. destruct (m st) as [[[x s0] e0]|] eqn:Em; [|done].
  destruct (f x s0) as [[[y s1] e1]|] eqn:Ef; [|done]. destruct (k y s1) as [[[z' s2] e2]|] eqn:Ek; [|done].
  injection E1 as -> -> <-. exists z, st', ((e0 ++ e1) ++ e2). split; [|done]. rewrite <- app_assoc.
  apply (bind_ok m _ _ x s0); [done|]. by apply (bind_ok (f x) _ _ y s1).
Qed.

Lemma runs_gets {A} (f : S -> A) st (Q : A -> S -> list E -> Prop) : Q (f st) st [] -> runs (gets f) st Q.
Proof. intros. by exists (f st), st, []. Qed.

Lemma runs_modify f st (Q : unit -> S -> list E -> Prop) : Q tt (f st) [] -> runs (modify f) st Q.
Proof. intros. by exists tt, (f st), []. Qed.

Lemma runs_emit (e : E) st (Q : unit -> S -> list E -> Prop) : Q tt st [e] -> runs (emit e) st Q.
Proof. intros. by exists tt, st, [e]. Qed.

Lemma runs_mono {A} (m : prog S E A) st (Q R : A -> S -> list E -> Prop) :
  runs m st Q -> (forall a st' es, Q a st' es -> R a st' es) -> runs m st R.
Proof. intros (a & st' & es & E1 & H) HQ. exists a, st', es. auto. Qed.

Lemma runs_and {A} (m : prog S E A) st (Q R : A -> S -> list E -> Prop) :
  runs m st Q -> runs m st R -> runs m st (fun a st' es => Q a st' es /\ R a st' es).
Proof. intros (a & st1 & es & E1 & HQ) (b & st2 & es' & E2 & HR). rewrite E1 in E2. injection E2 as <- <- <-. by exists a, st1, es. Qed.

Lemma runs_when c m st (Q : unit -> S -> list E -> Prop) :
  (c = true -> runs m st Q) -> (c = false -> Q tt st []) -> runs (when c m) st Q.
Proof. intros H1 H2. destruct c; cbn [when]; [by apply H1|by apply runs_ret, H2]. Qed.
End runs.

(** ** Total correctness of handlers

    [keeps I Q m]: from a state satisfying [I], [m] returns (no fault), its
    result satisfies [Q] and the state it leaves satisfies [I] again. *)
Section keeps.
Context {S E : Type} (I : S -> Prop).

Definition keeps {A} (Q : A -> Prop) (m : prog S E A) : Prop :=
  forall st, I st -> exists a st' es, m st = Ok (a, st', es) /\ Q a /\ I st'.

Lemma keeps_ret {A} (Q : A -> Prop) a : Q a -> keeps Q (ret a).
Proof. intros HQ st HI. by exists a, st, []. Qed.

Lemma keeps_bind {A B} (Q : A -> Prop) (R : B -> Prop) m k :
  keeps Q m -> (forall a, Q a -> keeps R (k a)) -> keeps R (bind m k).
Proof.
  intros Hm Hk st HI. destruct (Hm st HI) as (a & st1 & es1 & E1 & HQ & HI1).
  destruct (Hk a HQ st1 HI1) as (b & st2 & es2 & E2 & HR & HI2).
  exists b, st2, (es1 ++ es2). unfold bind. by rewrite E1, E2.
Qed.

Lemma keeps_gets {A} (Q : A -> Prop) f : (forall st, I st -> Q (f st)) -> keeps Q (gets f).
Proof. intros H st HI. exists (f st), st, []. auto. Qed.

Lemma keeps_modify f : (forall st, I st -> I (f st)) -> keeps (fun _ => True) (modify f).
Proof. intros H st HI. exists tt, (f st), []. auto. Qed.

Lemma keeps_emit e : keeps (fun _ => True) (emit e).
Proof. intros st HI. by exists tt, st, [e]. Qed.

Lemma keeps_of_outcome {A} (Q : A -> Prop) (x : outcome A) :
  (exists a, x = Ok a /\ Q a) -> keeps Q (of_outcome x).
Proof. intros (a & -> & HQ). by apply keeps_ret. Qed.

Lemma keeps_when c m :
  (c = true -> keeps (fun _ => True) m) -> keeps (fun _ => True) (when c m).
Proof. intros H. destruct c; [by apply H|by apply keeps_ret]. Qed.

Lemma keeps_if {A} (c : bool) (Q : A -> Prop) m1 m2 :
  (c = true -> keeps Q m1) -> (c = false -> keeps Q m2) -> keeps Q (if c then m1 else m2).
Proof. destruct c; auto. Qed.

Lemma keeps_weaken {A} (Q R : A -> Prop) m :
  keeps Q m -> (forall a, Q a -> R a) -> keeps R m.
Proof.
  intros H HQR st HI. destruct (H st HI) as (a & st' & es & E1 & HQ & HI').
  exists a, st', es. auto.
Qed.
End keeps.

(** Walk through a handler, leaving the assignments of the state and the
    computations that may fault. *)
Ltac keeps_step :=
  match goal with
  | |- keeps ?I _ (bind (gets id) _) =>
      apply (keeps_bind I I); [apply keeps_gets; by intros ? ?|intros ? ?]
  | |- keeps ?I _ (bind (of_outcome _) _) => fail 1
  | |- keeps ?I _ (bind ?m _) => apply (keeps_bind I (fun _ => True)); [|intros ? _]
  | |- keeps _ _ (emit _) => apply keeps_emit
  | |- keeps _ _ (ret _) => apply keeps_ret
  | |- keeps _ _ (modify _) => apply keeps_modify; intros ? ?
  | |- keeps _ _ (when _ _) => apply keeps_when; intros ?
  | |- keeps _ _ (if _ then _ else _) => apply keeps_if; intros ?
  end.
Ltac keeps_walk := repeat keeps_step; try exact I.
