(* ===== verification/HostUtils.v ===== *)
(** Host arithmetic: the portable versions of the long multiplications
    (util/host-utils.c), the bit counts (include/qemu/host-utils.h) and the
    rotations and bit fields (include/qemu/bitops.h).

    A 32- or 64-bit shift by the width or more is undefined in C; [shl] and
    [shr] take the count modulo the width, as the shift instructions of the
    hosts do ([rol32] by 0 shifts by 32 in one half). *)
From Stdlib Require Import ZArith Lia Bool Btauto.
From stdpp Require Import base numbers list.
From S2P Require Import Prelude.
Local Open Scope Z_scope.

Module HostUtils.

Definition shl (w x n : Z) : Z := uwrap w (Z.shiftl x (n mod w)).
Definition shr (w x n : Z) : Z := Z.shiftr x (n mod w).

(** [/] and [%] of C on signed and unsigned objects of [w] bits: no value for a
    zero divisor, and none for a quotient the type does not have (the x86 hosts
    trap on both). *)
Definition c_signed (op : Z -> Z -> Z) (w x y : Z) : outcome Z :=
  if y =? 0 then Fault DivByZero
  else if (x =? - 2 ^ (w - 1)) && (y =? -1) then Fault DivOverflow
  else Ok (op x y).
Definition c_quot : Z -> Z -> Z -> outcome Z := c_signed Z.quot.
Definition c_rem : Z -> Z -> Z -> outcome Z := c_signed Z.rem.
Definition c_unsigned (op : Z -> Z -> Z) (x y : Z) : outcome Z :=
  if y =? 0 then Fault DivByZero else Ok (op x y).
Definition c_div : Z -> Z -> outcome Z := c_unsigned Z.div.
Definition c_mod : Z -> Z -> outcome Z := c_unsigned Z.modulo.

(** A divisor that is never zero: [y ? : 1]. *)
Lemma c_signed_guarded op w x y :
  c_signed op w x (if y =? 0 then 1 else y) =
    if (x =? - 2 ^ (w - 1)) && ((if y =? 0 then 1 else y) =? -1) then Fault DivOverflow else Ok (op x (if y =? 0 then 1 else y)).
Proof. unfold c_signed. destruct (Z.eqb_spec y 0); [done|]. by rewrite (proj2 (Z.eqb_neq y 0)). Qed.
Lemma c_unsigned_guarded op x y :
  c_unsigned op x (if y =? 0 then 1 else y) = Ok (op x (if y =? 0 then 1 else y)).
Proof. unfold c_unsigned. destruct (Z.eqb_spec y 0); [done|]. by rewrite (proj2 (Z.eqb_neq y 0)). Qed.

(** ** Long multiplication: the low and the high word of [a * b] *)
Definition lo32 (x : Z) : Z := u32 x.
Definition hi32 (x : Z) : Z := Z.shiftr x 32.
Definition mk64 (low high : Z) : Z := Z.lor low (Z.shiftl high 32).

Definition mul64 (a b : Z) : Z * Z :=
  let rl := u64 (lo32 a * lo32 b) in
  let rm := u64 (lo32 a * hi32 b) in
  let rn := u64 (hi32 a * lo32 b) in
  let rh := u64 (hi32 a * hi32 b) in
  let c := u64 (u64 (hi32 rl + lo32 rm) + lo32 rn) in
  let rl := mk64 (lo32 rl) (lo32 c) in
  let c := Z.shiftr c 32 in
  let c := u64 (u64 (u64 (c + hi32 rm) + hi32 rn) + lo32 rh) in
  let rh := mk64 (lo32 c) (u32 (hi32 rh + lo32 (Z.shiftr c 32))) in
  (rl, rh).

Definition mulu64 (a b : Z) : Z * Z := mul64 a b.

Definition muls64 (a b : Z) : Z * Z :=
  let '(rl, rh) := mul64 (u64 a) (u64 b) in
  let rh := if b <? 0 then u64 (rh - a) else rh in
  let rh := if a <? 0 then u64 (rh - b) else rh in
  (rl, rh).

(** ** Counting leading and trailing bits *)
Definition clz_step (mask k : Z) (st : Z * Z) : Z * Z :=
  let '(cnt, val) := st in
  if negb (nz (Z.land val mask)) then (cnt + k, u32 (Z.shiftl val k)) else (cnt, val).

Definition clz32 (val : Z) : Z :=
  let st := clz_step 0xFFFF0000 16 (0, val) in
  let st := clz_step 0xFF000000 8 st in
  let st := clz_step 0xF0000000 4 st in
  let st := clz_step 0xC0000000 2 st in
  let '(cnt, val) := clz_step 0x80000000 1 st in
  if negb (nz (Z.land val 0x80000000)) then cnt + 1 else cnt.

Definition clo32 (val : Z) : Z := clz32 (u32 (Z.lnot val)).

Definition clz64 (val : Z) : Z :=
  if negb (nz (Z.shiftr val 32)) then 32 + clz32 (u32 val)
  else 0 + clz32 (u32 (Z.shiftr val 32)).

Definition clo64 (val : Z) : Z := clz64 (u64 (Z.lnot val)).

Definition ctz_step (mask k : Z) (st : Z * Z) : Z * Z :=
  let '(cnt, val) := st in
  if negb (nz (Z.land val mask)) then (cnt + k, Z.shiftr val k) else (cnt, val).

Definition ctz32 (val : Z) : Z :=
  let st := ctz_step 0x0000FFFF 16 (0, val) in
  let st := ctz_step 0x000000FF 8 st in
  let st := ctz_step 0x0000000F 4 st in
  let st := ctz_step 0x00000003 2 st in
  let '(cnt, val) := ctz_step 0x00000001 1 st in
  if negb (nz (Z.land val 0x00000001)) then cnt + 1 else cnt.

Definition cto32 (val : Z) : Z := ctz32 (u32 (Z.lnot val)).

Definition ctz64 (val : Z) : Z :=
  if negb (nz (u32 val)) then 32 + ctz32 (u32 (Z.shiftr val 32))
  else 0 + ctz32 (u32 val).

Definition cto64 (val : Z) : Z := ctz64 (u64 (Z.lnot val)).

(** ** Rotations *)
Definition rol (w word shift : Z) : Z := Z.lor (shl w word shift) (shr w word (w - shift)).
Definition ror (w word shift : Z) : Z := Z.lor (shr w word shift) (shl w word (w - shift)).
Definition rol32 (word shift : Z) : Z := rol 32 word shift.
Definition ror32 (word shift : Z) : Z := ror 32 word shift.
Definition rol64 (word shift : Z) : Z := rol 64 word shift.
Definition ror64 (word shift : Z) : Z := ror 64 word shift.

(** ** Bit fields *)
Definition field_ok (w start length : Z) : bool :=
  (0 <=? start) && (0 <? length) && (length <=? w - start).

Definition extract (w value start length : Z) : outcome Z :=
  if field_ok w start length
  then Ok (Z.land (Z.shiftr value start) (Z.shiftr (2 ^ w - 1) (w - length)))
  else Fault AssertFailed.
Definition extract32 (value start length : Z) : outcome Z := extract 32 value start length.
Definition extract64 (value start length : Z) : outcome Z := extract 64 value start length.

Definition sextract (w value start length : Z) : outcome Z :=
  if field_ok w start length
  then Ok (Z.shiftr (swrap w (uwrap w (Z.shiftl value (w - length - start)))) (w - length))
  else Fault AssertFailed.
Definition sextract32 (value start length : Z) : outcome Z := sextract 32 value start length.
Definition sextract64 (value start length : Z) : outcome Z :=
  obind (sextract 64 value start length) (fun r => Ok (u64 r)).

Definition deposit (w value start length fieldval : Z) : outcome Z :=
  if field_ok w start length
  then let mask := uwrap w (Z.shiftl (Z.shiftr (2 ^ w - 1) (w - length)) start) in
       Ok (Z.lor (Z.land value (Z.lnot mask)) (Z.land (uwrap w (Z.shiftl fieldval start)) mask))
  else Fault AssertFailed.
Definition deposit32 (value start length fieldval : Z) : outcome Z :=
  deposit 32 value start length fieldval.
Definition deposit64 (value start length fieldval : Z) : outcome Z :=
  deposit 64 value start length fieldval.

(** ** The product *)

Lemma halves x : fits 64 x -> x = hi32 x * 2 ^ 32 + lo32 x /\ fits 32 (lo32 x) /\ fits 32 (hi32 x).
Proof.
  intros Hx. unfold hi32, lo32, fits, uwrap in *. rewrite Z.shiftr_div_pow2 by lia.
  Z.div_mod_to_equations. lia.
Qed.

Lemma mk64_add low high : fits 32 low -> mk64 low high = high * 2 ^ 32 + low.
Proof. intros Hl. by apply lor_shiftl_add. Qed.

Lemma mul64_exact a b :
  fits 64 a -> fits 64 b ->
  let '(rl, rh) := mul64 a b in rh * 2 ^ 64 + rl = a * b /\ fits 64 rl /\ fits 64 rh.
Proof.
  intros Ha Hb. destruct (halves a Ha) as (Ea & Hal & Hah), (halves b Hb) as (Eb & Hbl & Hbh).
  unfold mul64. set (al := lo32 a) in *. set (ah := hi32 a) in *.
  set (bl := lo32 b) in *. set (bh := hi32 b) in *. unfold fits in *.
  assert (forall x y, 0 <= x < 2 ^ 32 -> 0 <= y < 2 ^ 32 -> fits 64 (x * y)) as Hp
    by (unfold fits; nia).
  rewrite !(uwrap_id 64 (_ * _)) by (apply Hp; lia).
  assert (a * b = ah * bh * 2 ^ 64 + (al * bh + ah * bl) * 2 ^ 32 + al * bl) as E by nia.
  assert (a * b < 2 ^ 128) as Hab by nia. rewrite E in *. clear E Ea Eb.
  pose proof (Hp al bl Hal Hbl) as H1. pose proof (Hp al bh Hal Hbh) as H2.
  pose proof (Hp ah bl Hah Hbl) as H3. pose proof (Hp ah bh Hah Hbh) as H4.
  set (rl := al * bl) in *. set (rm := al * bh) in *. set (rn := ah * bl) in *. set (rh := ah * bh) in *.
  clearbody rl rm rn rh. clear Hp al ah bl bh Hal Hah Hbl Hbh.
  destruct (halves rl H1) as (El & Hll & Hlh), (halves rm H2) as (Em & Hml & Hmh),
    (halves rn H3) as (En & Hnl & Hnh), (halves rh H4) as (Eh & Hhl & Hhh). unfold fits in *.
  rewrite (uwrap_id 64 (hi32 rl + _)), (uwrap_id 64 (_ + lo32 rn)) by (unfold fits; lia).
  set (c := hi32 rl + lo32 rm + lo32 rn).
  assert (0 <= c < 2 ^ 64) as Hc by (subst c; lia).
  destruct (halves c Hc) as (Ec & Hcl & Hch). unfold fits in *. fold (hi32 c).
  rewrite (uwrap_id 64 (hi32 c + hi32 rm)), (uwrap_id 64 (_ + hi32 rn)), (uwrap_id 64 (_ + lo32 rh))
    by (unfold fits; lia).
  set (c2 := hi32 c + hi32 rm + hi32 rn + lo32 rh).
  assert (0 <= c2 < 2 ^ 64) as Hc2 by (subst c2; lia).
  destruct (halves c2 Hc2) as (Ec2 & Hcl2 & Hch2). unfold fits in *. fold (hi32 c2).
  change (lo32 (hi32 c2)) with (u32 (hi32 c2)). rewrite (uwrap_id 32 (hi32 c2)) by done.
  assert (rh * 2 ^ 64 + (rm + rn) * 2 ^ 32 + rl
          = (hi32 rh + hi32 c2) * 2 ^ 96 + lo32 c2 * 2 ^ 64 + lo32 c * 2 ^ 32 + lo32 rl) as E.
  { assert (c2 - (hi32 c + hi32 rm + hi32 rn + lo32 rh) = 0) by (subst c2; lia).
    assert (c - (hi32 rl + lo32 rm + lo32 rn) = 0) by (subst c; lia). lia. }
  rewrite E in *. clearbody c c2.
  rewrite (uwrap_id 32 (hi32 rh + hi32 c2)) by (unfold fits; lia).
  rewrite !mk64_add by done. lia.
Qed.

Lemma mul64_div a b :
  fits 64 a -> fits 64 b -> mul64 a b = ((a * b) mod 2 ^ 64, a * b / 2 ^ 64).
Proof.
  intros Ha Hb. pose proof (mul64_exact a b Ha Hb) as H. destruct (mul64 a b) as [rl rh].
  destruct H as (E & Hl & _). unfold fits in Hl. rewrite <- E. f_equal.
  - rewrite Z.add_comm, Z_mod_plus_full. by rewrite Z.mod_small by lia.
  - rewrite Z.div_add_l by lia. rewrite Z.div_small by lia. lia.
Qed.

Lemma muls64_div a b :
  - 2 ^ 63 <= a < 2 ^ 63 -> - 2 ^ 63 <= b < 2 ^ 63 ->
  muls64 a b = (u64 (a * b), u64 (a * b / 2 ^ 64)).
Proof.
  intros Ha Hb. unfold muls64. rewrite mul64_div by (apply uwrap_fits; lia).
  set (sa := if a <? 0 then 1 else 0). set (sb := if b <? 0 then 1 else 0).
  assert (forall x s, (s = if x <? 0 then 1 else 0) -> - 2 ^ 63 <= x < 2 ^ 63 ->
    u64 x = x + s * 2 ^ 64) as Hu.
  { intros x s -> Hx. unfold uwrap. destruct (Z.ltb_spec x 0).
    - rewrite <- (Z_mod_plus_full x 1), Z.mod_small; lia.
    - rewrite Z.mod_small; lia. }
  rewrite (Hu a sa eq_refl Ha), (Hu b sb eq_refl Hb).
  replace ((a + sa * 2 ^ 64) * (b + sb * 2 ^ 64))
    with (a * b + (sa * b + sb * a + sa * sb * 2 ^ 64) * 2 ^ 64) by lia.
  rewrite Z_mod_plus_full, Z.div_add by lia. set (q := a * b / 2 ^ 64). f_equal.
  assert (forall x y, u64 (u64 x - y) = u64 (x - y)) as Hm
    by (intros; unfold uwrap; by rewrite Zminus_mod_idemp_l).
  assert (forall x k, u64 (x + k * 2 ^ 64) = u64 x) as Hk by (intros; apply Z_mod_plus_full).
  destruct (Z.ltb_spec b 0), (Z.ltb_spec a 0); subst sa sb; rewrite ?Hm.
  - replace (q + (1 * b + 1 * a + 1 * 1 * 2 ^ 64) - a - b) with (q + 1 * 2 ^ 64) by lia. apply Hk.
  - f_equal. lia.
  - f_equal. lia.
  - rewrite uwrap_id; [lia|]. assert (0 <= a * b < 2 ^ 128) by nia.
    unfold fits. subst q. split; [apply Z.div_pos|apply Z.div_lt_upper_bound]; lia.
Qed.

(** ** The counts *)

Lemma land_high m v :
  0 <= m <= 32 -> fits 32 v -> Z.land v (2 ^ 32 - 2 ^ m) = Z.shiftl (Z.shiftr v m) m.
Proof.
  intros Hm Hv. assert (2 ^ 32 - 2 ^ m = Z.shiftl (Z.ones (32 - m)) m) as ->.
  { rewrite Z.shiftl_mul_pow2, Z.ones_equiv by lia.
    assert (2 ^ 32 = 2 ^ (32 - m) * 2 ^ m) by (rewrite <- Z.pow_add_r by lia; f_equal; lia). lia. }
  apply Z.bits_inj'. intros i Hi. rewrite Z.land_spec, !Z.shiftl_spec by lia.
  destruct (Z.ltb_spec i m); [by rewrite !(Z.testbit_neg_r _ (i - m)), andb_false_r by lia|].
  rewrite Z.shiftr_spec, Z.testbit_ones_nonneg by lia. replace (i - m + m) with i by lia.
  destruct (Z.ltb_spec (i - m) (32 - m)); [by rewrite andb_true_r|].
  by rewrite (fits_testbit 32 v i) by (done || lia).
Qed.

Lemma clz_step_spec k cnt v :
  1 <= k <= 16 -> fits 32 v -> 2 ^ (32 - 2 * k) <= v ->
  exists v', clz_step (2 ^ 32 - 2 ^ (32 - k)) k (cnt, v) = (cnt + Z.log2 v' - Z.log2 v, v')
    /\ fits 32 v' /\ 2 ^ (32 - k) <= v'.
Proof.
  intros Hk Hv Hlow. unfold clz_step. rewrite land_high by (done || lia).
  pose proof (pow2_pos (32 - k) ltac:(lia)). pose proof (pow2_pos (32 - 2 * k) ltac:(lia)).
  assert (2 ^ 32 = 2 ^ (32 - k) * 2 ^ k) as E1 by (rewrite <- Z.pow_add_r by lia; f_equal; lia).
  assert (2 ^ (32 - k) = 2 ^ (32 - 2 * k) * 2 ^ k) as E2 by (rewrite <- Z.pow_add_r by lia; f_equal; lia).
  rewrite Z.shiftl_mul_pow2, Z.shiftr_div_pow2 by lia. unfold fits in *.
  destruct (nz (v / 2 ^ (32 - k) * 2 ^ (32 - k))) eqn:E; cbn [negb].
  - exists v. split; [f_equal; lia|]. split; [done|]. apply nz_true in E.
    destruct (Z.ltb_spec v (2 ^ (32 - k))); [|lia]. rewrite Z.div_small in E by lia. done.
  - apply nz_false in E. pose proof (pow2_pos k ltac:(lia)).
    assert (v < 2 ^ (32 - k)) as Hlt.
    { destruct (Z.ltb_spec v (2 ^ (32 - k))) as [|Hge]; [done|].
      pose proof (Z.div_le_lower_bound v (2 ^ (32 - k)) 1 ltac:(lia) ltac:(lia)). nia. }
    assert (fits 32 (v * 2 ^ k)) as Hf by (unfold fits; nia).
    exists (v * 2 ^ k). rewrite Z.shiftl_mul_pow2, uwrap_id by (done || lia).
    rewrite Z.log2_mul_pow2 by lia. split; [f_equal; lia|]. split; [done|nia].
Qed.

(** The number of leading zeros is what lies above the highest set bit. *)
Lemma clz32_spec v : 0 < v < 2 ^ 32 -> clz32 v = 31 - Z.log2 v.
Proof.
  intros Hv. unfold clz32.
  destruct (clz_step_spec 16 0 v) as (v1 & E1 & H1 & L1); [lia|unfold fits; lia|cbn; lia|].
  destruct (clz_step_spec 8 (0 + Z.log2 v1 - Z.log2 v) v1) as (v2 & E2 & H2 & L2); [lia|done|done|].
  destruct (clz_step_spec 4 (0 + Z.log2 v1 - Z.log2 v + Z.log2 v2 - Z.log2 v1) v2)
    as (v3 & E3 & H3 & L3); [lia|done|done|].
  destruct (clz_step_spec 2 (0 + Z.log2 v1 - Z.log2 v + Z.log2 v2 - Z.log2 v1 + Z.log2 v3 - Z.log2 v2) v3)
    as (v4 & E4 & H4 & L4); [lia|done|done|].
  destruct (clz_step_spec 1 (0 + Z.log2 v1 - Z.log2 v + Z.log2 v2 - Z.log2 v1 + Z.log2 v3 - Z.log2 v2
    + Z.log2 v4 - Z.log2 v3) v4) as (v5 & E5 & H5 & L5); [lia|done|done|].
  cbn [Z.sub Z.pow Z.pow_pos Pos.iter Z.mul Pos.mul] in E1, E2, E3, E4, E5.
  change (2 ^ 32 - 2 ^ (32 - 16)) with 0xFFFF0000 in E1. rewrite E1.
  change (2 ^ 32 - 2 ^ (32 - 8)) with 0xFF000000 in E2. rewrite E2.
  change (2 ^ 32 - 2 ^ (32 - 4)) with 0xF0000000 in E3. rewrite E3.
  change (2 ^ 32 - 2 ^ (32 - 2)) with 0xC0000000 in E4. rewrite E4.
  change (2 ^ 32 - 2 ^ (32 - 1)) with 0x80000000 in E5. rewrite E5.
  assert (Z.log2 v5 = 31) as Hlog by (apply Z.log2_unique; unfold fits in H5; cbn in *; lia).
  assert (nz (Z.land v5 0x80000000) = true) as ->.
  { change 0x80000000 with (bit 31). rewrite nz_land_bit by lia. rewrite <- Hlog.
    apply Z.bit_log2. cbn in L5. lia. }
  cbn [negb]. lia.
Qed.

Lemma clz64_spec v : 0 < v < 2 ^ 64 -> clz64 v = 63 - Z.log2 v.
Proof.
  intros Hv. unfold clz64. rewrite Z.shiftr_div_pow2 by lia. destruct (nz (v / 2 ^ 32)) eqn:E; cbn [negb].
  - apply nz_true in E. pose proof (Z.div_pos v (2 ^ 32) ltac:(lia) ltac:(lia)).
    assert (v / 2 ^ 32 < 2 ^ 32) by (apply Z.div_lt_upper_bound; lia).
    rewrite uwrap_id, clz32_spec by (unfold fits; lia).
    rewrite <- Z.shiftr_div_pow2, Z.log2_shiftr by lia.
    assert (32 <= Z.log2 v); [|lia]. apply Z.log2_le_pow2; [lia|].
    destruct (Z.leb_spec (2 ^ 32) v); [done|]. rewrite Z.div_small in E by lia. done.
  - apply nz_false in E. assert (v < 2 ^ 32) by (apply Z.div_small_iff in E; lia).
    rewrite uwrap_id, clz32_spec by (unfold fits; lia). lia.
Qed.

(** [trailing v n]: the lowest set bit of [v] is bit [n]. *)
Definition trailing (v n : Z) : Prop :=
  0 <= n /\ Z.testbit v n = true /\ forall i, i < n -> Z.testbit v i = false.

Lemma trailing_shiftr v k n : 0 <= k -> trailing (Z.shiftr v k) n ->
  (forall i, i < k -> Z.testbit v i = false) -> trailing v (k + n).
Proof.
  intros Hk (Hn & Hb & Hz) Hlow. rewrite Z.shiftr_spec in Hb by lia. split; [lia|].
  rewrite Z.add_comm. split; [done|]. intros i Hi. destruct (Z.ltb_spec i k); [auto|].
  specialize (Hz (i - k) ltac:(lia)). rewrite Z.shiftr_spec in Hz by lia.
  by replace (i - k + k) with i in Hz by lia.
Qed.

Lemma ctz_step_spec k cnt v :
  0 < k -> 0 <= v -> Z.land v (Z.ones (2 * k)) <> 0 ->
  exists d v', ctz_step (Z.ones k) k (cnt, v) = (cnt + d, v')
    /\ 0 <= v' /\ Z.land v' (Z.ones k) <> 0 /\ (forall n, trailing v' n -> trailing v (d + n)).
Proof.
  intros Hk Hv Hne. unfold ctz_step. destruct (nz (Z.land v (Z.ones k))) eqn:E; cbn [negb].
  - exists 0, v. rewrite Z.add_0_r. apply nz_true in E. auto.
  - apply nz_false in E. exists k, (Z.shiftr v k). split; [done|].
    assert (forall i, 0 <= i < k -> Z.testbit v i = false) as Hlow.
    { intros i Hi. pose proof (Z.land_spec v (Z.ones k) i) as Hb.
      rewrite E, Z.bits_0, Z.testbit_ones_nonneg, (proj2 (Z.ltb_lt i k)), andb_true_r in Hb by lia. done. }
    split; [by apply Z.shiftr_nonneg|]. split.
    + intros H. apply Hne. apply Z.bits_inj'. intros i Hi.
      rewrite Z.land_spec, Z.bits_0, Z.testbit_ones_nonneg by lia.
      destruct (Z.ltb_spec i k); [by rewrite Hlow by lia|].
      pose proof (Z.land_spec (Z.shiftr v k) (Z.ones k) (i - k)) as Hb.
      rewrite H, Z.bits_0, Z.shiftr_spec, Z.testbit_ones_nonneg in Hb by lia.
      replace (i - k + k) with i in Hb by lia.
      destruct (Z.ltb_spec i (2 * k)); [|by rewrite andb_false_r].
      by rewrite (proj2 (Z.ltb_lt (i - k) k)) in Hb by lia.
    + intros n Hn. apply trailing_shiftr; [lia|done|]. intros i Hi.
      destruct (Z.ltb_spec i 0); [by apply Z.testbit_neg_r|apply Hlow; lia].
Qed.

Lemma ctz32_spec v : 0 < v < 2 ^ 32 -> trailing v (ctz32 v).
Proof.
  intros Hv. unfold ctz32.
  destruct (ctz_step_spec 16 0 v) as (d1 & v1 & E1 & P1 & N1 & T1); [lia|lia| |].
  { rewrite Z.land_ones, Z.mod_small by lia. lia. }
  destruct (ctz_step_spec 8 (0 + d1) v1) as (d2 & v2 & E2 & P2 & N2 & T2); [lia|done|done|].
  destruct (ctz_step_spec 4 (0 + d1 + d2) v2) as (d3 & v3 & E3 & P3 & N3 & T3); [lia|done|done|].
  destruct (ctz_step_spec 2 (0 + d1 + d2 + d3) v3) as (d4 & v4 & E4 & P4 & N4 & T4); [lia|done|done|].
  destruct (ctz_step_spec 1 (0 + d1 + d2 + d3 + d4) v4) as (d5 & v5 & E5 & P5 & N5 & T5); [lia|done|done|].
  change (Z.ones 16) with 0xFFFF in E1. change (Z.ones 8) with 0xFF in E2.
  change (Z.ones 4) with 0xF in E3. change (Z.ones 2) with 3 in E4. change (Z.ones 1) with 1 in E5, N5.
  rewrite E1, E2, E3, E4, E5, (proj2 (nz_true _)) by done. cbn [negb].
  replace (0 + d1 + d2 + d3 + d4 + d5) with (d1 + (d2 + (d3 + (d4 + (d5 + 0))))) by lia.
  apply T1, T2, T3, T4, T5. split; [done|]. split; [|intros; apply Z.testbit_neg_r; lia].
  destruct (Z.testbit v5 0) eqn:E; [done|]. exfalso. apply N5. apply Z.bits_inj'. intros i Hi.
  change 1 with (Z.ones 1). rewrite Z.land_spec, Z.bits_0, Z.testbit_ones_nonneg by lia.
  destruct (Z.ltb_spec i 1); [|by rewrite andb_false_r]. replace i with 0 by lia. by rewrite E.
Qed.

Lemma ctz64_spec v : 0 < v < 2 ^ 64 -> trailing v (ctz64 v).
Proof.
  intros Hv. destruct (halves v) as (E & Hl & Hh); [unfold fits; lia|]. unfold ctz64, lo32, hi32, fits in *.
  destruct (nz (u32 v)) eqn:En; cbn [negb].
  - apply nz_true in En. destruct (ctz32_spec (u32 v)) as (H0 & Hb & Hz); [lia|].
    rewrite Z.add_0_l. assert (ctz32 (u32 v) < 32).
    { destruct (Z.ltb_spec (ctz32 (u32 v)) 32); [done|]. by rewrite (fits_testbit 32) in Hb by (done || lia). }
    split; [done|]. rewrite uwrap_spec, (proj2 (Z.ltb_lt _ _)) in Hb by lia. split; [done|].
    intros i Hi. specialize (Hz i Hi). destruct (Z.ltb_spec i 0); [by apply Z.testbit_neg_r|].
    by rewrite uwrap_spec, (proj2 (Z.ltb_lt _ _)) in Hz by lia.
  - apply nz_false in En. rewrite uwrap_id by done. apply trailing_shiftr; [lia| |].
    + apply ctz32_spec. lia.
    + intros i Hi. destruct (Z.ltb_spec i 0); [by apply Z.testbit_neg_r|].
      assert (Z.testbit (u32 v) i = false) as Hb by (by rewrite En, Z.bits_0).
      by rewrite uwrap_spec, (proj2 (Z.ltb_lt _ _)) in Hb by lia.
Qed.

(** ** Rotations and fields, bit by bit *)

Lemma shl_spec w x n i :
  0 < w -> 0 <= n < w -> 0 <= i -> Z.testbit (shl w x n) i = (i <? w) && Z.testbit x (i - n).
Proof.
  intros. unfold shl. by rewrite Z.mod_small, uwrap_spec, Z.shiftl_spec by lia.
Qed.

Lemma shr_spec w x n i :
  0 < w -> 0 <= n < w -> 0 <= i -> Z.testbit (shr w x n) i = Z.testbit x (i + n).
Proof. intros. unfold shr. by rewrite Z.mod_small, Z.shiftr_spec by lia. Qed.

Lemma rol_spec w x n i :
  0 < w -> fits w x -> 0 <= n < w -> 0 <= i < w ->
  Z.testbit (rol w x n) i = Z.testbit x (if i <? n then i - n + w else i - n).
Proof.
  intros Hw Hx Hn Hi. unfold rol. rewrite Z.lor_spec, shl_spec by lia.
  rewrite (proj2 (Z.ltb_lt i w)), andb_true_l by lia. destruct (Z.eq_dec n 0) as [->|].
  - unfold shr. rewrite (Z.sub_0_r w), Z.mod_same, Z.shiftr_0_r by lia.
    rewrite (proj2 (Z.ltb_ge i 0)), Z.sub_0_r by lia. by rewrite orb_diag.
  - rewrite shr_spec by lia. destruct (Z.ltb_spec i n).
    + rewrite (Z.testbit_neg_r x (i - n)) by lia. rewrite orb_false_l. f_equal. lia.
    + by rewrite (fits_testbit w x (i + (w - n))), orb_false_r by (done || lia).
Qed.

Lemma ror_spec w x n i :
  0 < w -> fits w x -> 0 <= n < w -> 0 <= i < w ->
  Z.testbit (ror w x n) i = Z.testbit x (if i + n <? w then i + n else i + n - w).
Proof.
  intros Hw Hx Hn Hi. unfold ror. rewrite Z.lor_spec, shr_spec by lia. destruct (Z.eq_dec n 0) as [->|].
  - unfold shl. rewrite (Z.sub_0_r w), Z.mod_same, Z.shiftl_0_r, uwrap_id by (done || lia).
    rewrite Z.add_0_r, (proj2 (Z.ltb_lt i w)) by lia. by rewrite orb_diag.
  - rewrite shl_spec, (proj2 (Z.ltb_lt i w)), andb_true_l by lia. destruct (Z.ltb_spec (i + n) w).
    + by rewrite (Z.testbit_neg_r x (i - (w - n))), orb_false_r by lia.
    + rewrite (fits_testbit w x (i + n)), orb_false_l by (done || lia). f_equal. lia.
Qed.

Lemma rol_fits w x n : 0 < w -> fits w x -> 0 <= n <= w -> fits w (rol w x n).
Proof.
  intros Hw Hx Hn. unfold rol, shl, shr. apply fits_lor; [lia|apply uwrap_fits; lia|].
  pose proof (Z.mod_pos_bound (w - n) w Hw). unfold fits in *. rewrite Z.shiftr_div_pow2 by lia.
  pose proof (pow2_pos ((w - n) mod w) ltac:(lia)).
  split; [apply Z.div_pos; lia|]. apply Z.div_lt_upper_bound; nia.
Qed.

Lemma ror_rol w x n : 0 < w -> 0 <= n <= w -> ror w x n = rol w x (w - n).
Proof.
  intros. unfold ror, rol. rewrite Z.lor_comm. f_equal. f_equal. lia.
Qed.

Lemma field_mask_spec w start length i :
  field_ok w start length = true -> 0 <= i ->
  Z.testbit (uwrap w (Z.shiftl (Z.shiftr (2 ^ w - 1) (w - length)) start)) i
  = (start <=? i) && (i <? start + length).
Proof.
  unfold field_ok. intros Hok Hi. rewrite uwrap_spec, Z.shiftl_spec by lia.
  replace (2 ^ w - 1) with (Z.ones w) by (rewrite Z.ones_equiv; lia).
  destruct (Z.leb_spec start i).
  - rewrite Z.shiftr_spec, Z.testbit_ones_nonneg by lia. zbool.
  - rewrite Z.testbit_neg_r by lia. by rewrite andb_false_r.
Qed.

Lemma extract_spec w v start length :
  field_ok w start length = true -> fits w v ->
  extract w v start length = Ok (uwrap length (Z.shiftr v start)).
Proof.
  intros Hok Hv. unfold extract. rewrite Hok. f_equal. unfold field_ok in Hok.
  replace (2 ^ w - 1) with (Z.ones w) by (rewrite Z.ones_equiv; lia).
  apply Z.bits_inj'. intros i Hi.
  rewrite Z.land_spec, uwrap_spec, !Z.shiftr_spec, Z.testbit_ones_nonneg by lia.
  rewrite andb_comm. f_equal. zbool.
Qed.

Lemma sextract_spec w v start length :
  field_ok w start length = true ->
  sextract w v start length = Ok (swrap length (Z.shiftr v start)).
Proof.
  intros Hok. unfold sextract. rewrite Hok. f_equal. unfold field_ok in Hok.
  apply Z.bits_inj'. intros i Hi.
  rewrite Z.shiftr_spec, swrap_uwrap, !swrap_spec, Z.shiftr_spec, Z.shiftl_spec by lia. f_equal. lia.
Qed.

Lemma deposit_bits w v start length f :
  field_ok w start length = true -> fits w v ->
  exists d, deposit w v start length f = Ok d /\ fits w d /\
    forall i, 0 <= i -> Z.testbit d i =
      if (start <=? i) && (i <? start + length) then Z.testbit f (i - start) else Z.testbit v i.
Proof.
  intros Hok Hv. unfold deposit. rewrite Hok. eexists. split; [done|]. split.
  - assert (0 <= w) by (unfold field_ok in Hok; lia). auto with words.
  - intros i Hi. rewrite Z.lor_spec, !Z.land_spec, Z.lnot_spec, field_mask_spec by done.
    assert (0 <= w) by (unfold field_ok in Hok; lia). rewrite uwrap_spec, Z.shiftl_spec by lia.
    destruct ((start <=? i) && (i <? start + length)) eqn:E; cbn [negb]; rewrite ?andb_false_r, ?andb_true_r, ?orb_false_r; [|done].
    rewrite orb_false_l. unfold field_ok in Hok. by rewrite (proj2 (Z.ltb_lt i w)) by lia.
Qed.

(** ** The properties *)

(** C25: The 64x64 to 128-bit multiplications built from 32-bit halves are exact:
    [mulu64] returns the low and high words of the product of its unsigned
    operands, [muls64] those of the two's complement product of its signed
    ones. *)
Theorem mul128_exact a b :
  (fits 64 a -> fits 64 b -> mulu64 a b = ((a * b) mod 2 ^ 64, a * b / 2 ^ 64)) /\
  (- 2 ^ 63 <= a < 2 ^ 63 -> - 2 ^ 63 <= b < 2 ^ 63 ->
     muls64 a b = (u64 (a * b), u64 (a * b / 2 ^ 64))).
Proof. split; intros; [by apply mul64_div|by apply muls64_div]. Qed.

(** The binary searches count: [clz64] is the number of zeros above the
    highest set bit and [ctz64] the position of the lowest, their 32-bit
    versions likewise, all are the width at zero, and [clo]/[cto] count the ones by
    complement. *)
Theorem bit_counts v :
  0 < v < 2 ^ 64 ->
  clz64 v = 63 - Z.log2 v /\ trailing v (ctz64 v) /\
  (v < 2 ^ 32 -> clz32 v = 31 - Z.log2 v /\ trailing v (ctz32 v)) /\
  clz64 0 = 64 /\ ctz64 0 = 64 /\ clz32 0 = 32 /\ ctz32 0 = 32 /\
  clo64 (u64 (Z.lnot v)) = clz64 v /\ cto64 (u64 (Z.lnot v)) = ctz64 v.
Proof.
  intros Hv. assert (u64 (Z.lnot (u64 (Z.lnot v))) = v) as E.
  { apply (fits_bits_inj 64); [lia|apply uwrap_fits; lia|unfold fits; lia|]. intros i Hi.
    rewrite uwrap_spec, Z.lnot_spec, uwrap_spec, Z.lnot_spec, (proj2 (Z.ltb_lt i 64)) by lia.
    cbn. apply negb_involutive. }
  split; [by apply clz64_spec|]. split; [by apply ctz64_spec|].
  split; [intros; split; [apply clz32_spec|apply ctz32_spec]; lia|].
  do 4 (split; [reflexivity|]). unfold clo64, cto64. by rewrite E.
Qed.

(** A deposited field reads back, sign-extended or not, and every field
    disjoint from it reads as before; rotating right undoes rotating left. *)
Theorem bit_fields w v start length f start' length' n :
  w = 32 \/ w = 64 -> fits w v -> field_ok w start length = true -> field_ok w start' length' = true ->
  start' + length' <= start \/ start + length <= start' -> 0 <= n < w ->
  (exists d, deposit w v start length f = Ok d /\ fits w d /\
    extract w d start length = Ok (uwrap length f) /\
    sextract w d start length = Ok (swrap length f) /\
    extract w d start' length' = extract w v start' length') /\
  ror w (rol w v n) n = v.
Proof.
  intros Hw Hv Hok Hok' Hdis Hn. split.
  - destruct (deposit_bits w v start length f Hok Hv) as (d & E & Hd & Hbits).
    exists d. split; [done|]. split; [done|]. rewrite !extract_spec, sextract_spec by done.
    unfold field_ok in *. split; [|split]; f_equal; apply Z.bits_inj'; intros i Hi.
    + rewrite !uwrap_spec, Z.shiftr_spec by lia. destruct (Z.ltb_spec i length); [|done].
      rewrite Hbits by lia. replace (i + start - start) with i by lia. case_cond; [done|lia].
    + rewrite !swrap_spec, Z.shiftr_spec, Hbits by lia. case_cond; [f_equal; lia|lia].
    + rewrite !uwrap_spec, !Z.shiftr_spec by lia. destruct (Z.ltb_spec i length'); [|done].
      rewrite Hbits by lia. case_cond; [lia|done].
  - assert (0 < w) by lia. apply (fits_bits_inj w); [lia| |done|].
    + rewrite ror_rol by lia. apply rol_fits; [lia|apply rol_fits|]; done || lia.
    + intros i Hi. pose proof (rol_fits w v n ltac:(lia) Hv ltac:(lia)). rewrite ror_spec by (done || lia).
      destruct (Z.ltb_spec (i + n) w); rewrite rol_spec by (done || lia); case_cond; f_equal; lia.
Qed.

Lemma mul128_exact_witness :
  mulu64 0xFFFFFFFFFFFFFFFF 0xFFFFFFFFFFFFFFFF = (1, 0xFFFFFFFFFFFFFFFE) /\
  muls64 (-3) 5 = (u64 (-15), u64 (-1)).
Proof.
  split.
  - rewrite (proj1 (mul128_exact _ _)) by (unfold fits; lia). reflexivity.
  - rewrite (proj2 (mul128_exact _ _)) by lia. reflexivity.
Defined.

Lemma bit_counts_witness : clz64 0x00F0000000000000 = 63 - 55 /\ trailing 0x00F0000000000000 (ctz64 0x00F0000000000000).
Proof. split; apply (bit_counts 0x00F0000000000000); lia. Defined.

Lemma bit_fields_witness :
  (exists d, deposit 32 0xFFFFFFFF 8 4 0x5 = Ok d /\ fits 32 d /\
    extract 32 d 8 4 = Ok (uwrap 4 0x5) /\ sextract 32 d 8 4 = Ok (swrap 4 0x5) /\
    extract 32 d 12 20 = extract 32 0xFFFFFFFF 12 20) /\
  ror 32 (rol 32 0xFFFFFFFF 7) 7 = 0xFFFFFFFF.
Proof.
  apply bit_fields; [by left|unfold fits; lia|reflexivity|reflexivity|right; lia|lia].
Defined.

End HostUtils.
