(* ===== verification/TcgOp.v ===== *)
(** The intermediate code of the translator (tcg/tcg.h, tcg/tcg-opc.h) on a
    64-bit host: opcodes with the table that describes them, conditions, and
    what an operation does to the registers, as tcg/README specifies it.

    The opcodes come in 32- and 64-bit versions, written here with their width:
    [op_bin Badd W32] is [INDEX_op_add_i32].  The [nop1]..[nop3], [end] and the
    old guest loads and stores ([TCG_TARGET_HAS_new_ldst] is 1 on this host)
    are left out. *)
From Stdlib Require Import ZArith Lia Bool Btauto.
From stdpp Require Import base numbers list.
From S2P Require Import Prelude HostUtils.
Local Open Scope Z_scope.

Module Tcg.

Inductive width := W32 | W64.
Definition bits (w : width) : Z := match w with W32 => 32 | W64 => 64 end.

#[export] Instance width_eq_dec : EqDecision width.
Proof. solve_decision. Defined.

Inductive binop :=
| Badd | Bsub | Bmul | Bdiv | Bdivu | Brem | Bremu
| Band | Bor | Bxor | Bandc | Borc | Beqv | Bnand | Bnor
| Bshl | Bshr | Bsar | Brotl | Brotr | Bmuluh | Bmulsh.

Inductive unop :=
| Unot | Uneg | Uext8s | Uext8u | Uext16s | Uext16u | Uext32s | Uext32u
| Ubswap16 | Ubswap32 | Ubswap64.

Inductive memsize := M8u | M8s | M16u | M16s | M32u | M32s | Mfull.

Inductive TCGOpcode :=
| op_nop | op_nopn | op_discard | op_set_label | op_call | op_br
| op_mov (w : width) | op_movi (w : width)
| op_setcond (w : width) | op_movcond (w : width)
| op_ld (m : memsize) (w : width) | op_st (m : memsize) (w : width)
| op_bin (b : binop) (w : width) | op_un (u : unop) (w : width)
| op_deposit (w : width)
| op_brcond (w : width) | op_brcond2 | op_setcond2
| op_add2 (w : width) | op_sub2 (w : width) | op_mulu2 (w : width) | op_muls2 (w : width)
| op_div2 (w : width) | op_divu2 (w : width)
| op_debug_insn_start | op_exit_tb | op_goto_tb
| op_qemu_ld (w : width) | op_qemu_st (w : width).

#[export] Instance binop_eq_dec : EqDecision binop.
Proof. solve_decision. Defined.
#[export] Instance unop_eq_dec : EqDecision unop.
Proof. solve_decision. Defined.
#[export] Instance memsize_eq_dec : EqDecision memsize.
Proof. solve_decision. Defined.
#[export] Instance TCGOpcode_eq_dec : EqDecision TCGOpcode.
Proof. solve_decision. Defined.

(** ** tcg-opc.h *)
Record TCGOpDef := mkOpDef {
  nb_oargs : nat;
  nb_iargs : nat;
  nb_cargs : nat;
  TCG_OPF_BB_END : bool;
  TCG_OPF_CALL_CLOBBER : bool;
  TCG_OPF_SIDE_EFFECTS : bool;
  TCG_OPF_64BIT : bool;
}.
Definition nb_args (d : TCGOpDef) : nat := nb_iargs d + nb_oargs d + nb_cargs d.

Definition is64 (w : width) : bool := match w with W64 => true | W32 => false end.

(** [IMPL64] is [TCG_OPF_64BIT] here.  [muluh_i64] and [mulsh_i64] are declared
    without it. *)
Definition tcg_op_defs (op : TCGOpcode) : TCGOpDef :=
  match op with
  | op_nop => mkOpDef 0 0 0 false false false false
  | op_nopn => mkOpDef 0 0 1 false false false false
  | op_discard => mkOpDef 1 0 0 false false false false
  | op_set_label => mkOpDef 0 0 1 true false false false
  | op_call => mkOpDef 0 1 2 false true false false
  | op_br => mkOpDef 0 0 1 true false false false
  | op_mov w => mkOpDef 1 1 0 false false false (is64 w)
  | op_movi w => mkOpDef 1 0 1 false false false (is64 w)
  | op_setcond w => mkOpDef 1 2 1 false false false (is64 w)
  | op_movcond w => mkOpDef 1 4 1 false false false (is64 w)
  | op_ld _ w => mkOpDef 1 1 1 false false false (is64 w)
  | op_st _ w => mkOpDef 0 2 1 false false false (is64 w)
  | op_bin Bmuluh _ | op_bin Bmulsh _ => mkOpDef 1 2 0 false false false false
  | op_bin _ w => mkOpDef 1 2 0 false false false (is64 w)
  | op_un _ w => mkOpDef 1 1 0 false false false (is64 w)
  | op_deposit w => mkOpDef 1 2 2 false false false (is64 w)
  | op_brcond w => mkOpDef 0 2 2 true false false (is64 w)
  | op_brcond2 => mkOpDef 0 4 2 true false false false
  | op_setcond2 => mkOpDef 1 4 1 false false false false
  | op_add2 w | op_sub2 w => mkOpDef 2 4 0 false false false (is64 w)
  | op_mulu2 w | op_muls2 w => mkOpDef 2 2 0 false false false (is64 w)
  | op_div2 w | op_divu2 w => mkOpDef 2 3 0 false false false (is64 w)
  | op_debug_insn_start => mkOpDef 0 0 1 false false false false
  | op_exit_tb => mkOpDef 0 0 1 true false false false
  | op_goto_tb => mkOpDef 0 0 1 true false false false
  | op_qemu_ld w => mkOpDef 1 1 2 false true true (is64 w)
  | op_qemu_st w => mkOpDef 0 2 2 false true true (is64 w)
  end.

(** ** Conditions *)
Definition TCG_COND_NEVER : Z := 0.
Definition TCG_COND_ALWAYS : Z := 1.
Definition TCG_COND_EQ : Z := 8.
Definition TCG_COND_NE : Z := 9.
Definition TCG_COND_LT : Z := 2.
Definition TCG_COND_GE : Z := 3.
Definition TCG_COND_LE : Z := 10.
Definition TCG_COND_GT : Z := 11.
Definition TCG_COND_LTU : Z := 4.
Definition TCG_COND_GEU : Z := 5.
Definition TCG_COND_LEU : Z := 12.
Definition TCG_COND_GTU : Z := 13.

Definition tcg_invert_cond (c : Z) : Z := Z.lxor c 1.
Definition tcg_swap_cond (c : Z) : Z := if nz (Z.land c 6) then Z.lxor c 9 else c.
Definition tcg_unsigned_cond (c : Z) : Z := if nz (Z.land c 2) then Z.lxor c 6 else c.
Definition is_unsigned_cond (c : Z) : bool := negb (Z.land c 4 =? 0).
Definition tcg_high_cond (c : Z) : Z :=
  if (c =? TCG_COND_GE) || (c =? TCG_COND_LE) || (c =? TCG_COND_GEU) || (c =? TCG_COND_LEU)
  then Z.lxor c 8 else c.

(** The conditions a comparison may carry. *)
Definition tcg_conds : list Z :=
  [TCG_COND_EQ; TCG_COND_NE; TCG_COND_LT; TCG_COND_GE; TCG_COND_LE; TCG_COND_GT;
   TCG_COND_LTU; TCG_COND_GEU; TCG_COND_LEU; TCG_COND_GTU].

(** ** Flags of calls and of guest accesses *)
Definition TCG_CALL_NO_READ_GLOBALS : Z := 0x0010.
Definition TCG_CALL_NO_WRITE_GLOBALS : Z := 0x0020.
Definition TCG_CALL_NO_SIDE_EFFECTS : Z := 0x0040.
Definition MO_SIZE : Z := 3.
Definition MO_SIGN : Z := 4.

(** An operation and its arguments, outputs first. *)
Record TCGOp := mkOp { opc : TCGOpcode; args : list Z }.
Definition arg (l : list Z) (i : nat) : Z := nth i l 0.

(** The translation context: temporaries are numbered, the globals first. *)
Record TCGContext := mkContext {
  nb_globals : Z;
  nb_temps : Z;
  type : Z -> width;
  temp_local : Z -> bool;
}.

(** ** What the operations compute (tcg/README, section 3.4)

    Operands are [w]-bit values; [None] is behaviour the README leaves
    undefined. *)
Definition bin_sem (b : binop) (w : Z) (x y : Z) : option Z :=
  let sx := swrap w x in
  let sy := swrap w y in
  match b with
  | Badd => Some (uwrap w (x + y))
  | Bsub => Some (uwrap w (x - y))
  | Bmul => Some (uwrap w (x * y))
  | Bdiv => if (sy =? 0) || ((sx =? - 2 ^ (w - 1)) && (sy =? -1)) then None
            else Some (uwrap w (Z.quot sx sy))
  | Bdivu => if y =? 0 then None else Some (x / y)
  | Brem => if (sy =? 0) || ((sx =? - 2 ^ (w - 1)) && (sy =? -1)) then None
            else Some (uwrap w (Z.rem sx sy))
  | Bremu => if y =? 0 then None else Some (x mod y)
  | Band => Some (Z.land x y)
  | Bor => Some (Z.lor x y)
  | Bxor => Some (Z.lxor x y)
  | Bandc => Some (Z.land x (uwrap w (Z.lnot y)))
  | Borc => Some (Z.lor x (uwrap w (Z.lnot y)))
  | Beqv => Some (uwrap w (Z.lnot (Z.lxor x y)))
  | Bnand => Some (uwrap w (Z.lnot (Z.land x y)))
  | Bnor => Some (uwrap w (Z.lnot (Z.lor x y)))
  | Bshl => if y <? w then Some (uwrap w (Z.shiftl x y)) else None
  | Bshr => if y <? w then Some (Z.shiftr x y) else None
  | Bsar => if y <? w then Some (uwrap w (Z.shiftr sx y)) else None
  | Brotl => if y <? w then Some (Z.lor (uwrap w (Z.shiftl x y)) (Z.shiftr x (w - y))) else None
  | Brotr => if y <? w then Some (Z.lor (Z.shiftr x y) (uwrap w (Z.shiftl x (w - y)))) else None
  | Bmuluh => Some (x * y / 2 ^ w)
  | Bmulsh => Some (uwrap w (sx * sy / 2 ^ w))
  end.

Definition byte_of (i x : Z) : Z := u8 (Z.shiftr x (8 * i)).
Definition bswap (n : nat) (x : Z) : Z :=
  foldr (fun i acc => Z.lor acc (Z.shiftl (byte_of (Z.of_nat i) x) (8 * (Z.of_nat n - 1 - Z.of_nat i))))
    0 (seq 0 n).

Definition un_sem (u : unop) (w : Z) (x : Z) : option Z :=
  match u with
  | Unot => Some (uwrap w (Z.lnot x))
  | Uneg => Some (uwrap w (- x))
  | Uext8s => Some (uwrap w (s8 x))
  | Uext8u => Some (u8 x)
  | Uext16s => Some (uwrap w (swrap 16 x))
  | Uext16u => Some (u16 x)
  | Uext32s => Some (uwrap w (s32 x))
  | Uext32u => Some (u32 x)
  | Ubswap16 => if x <? 2 ^ 16 then Some (bswap 2 x) else None
  | Ubswap32 => if x <? 2 ^ 32 then Some (bswap 4 x) else None
  | Ubswap64 => Some (bswap 8 x)
  end.

Definition deposit_sem (w : Z) (x y pos len : Z) : option Z :=
  if (0 <=? pos) && (0 <? len) && (pos + len <=? w) then
    let m := Z.shiftl (Z.ones len) pos in
    Some (Z.lor (Z.land x (Z.lnot m)) (Z.land (Z.shiftl y pos) m))
  else None.

Definition cond_sem (c : Z) (w : Z) (x y : Z) : option bool :=
  let sx := swrap w x in
  let sy := swrap w y in
  if c =? TCG_COND_EQ then Some (x =? y)
  else if c =? TCG_COND_NE then Some (negb (x =? y))
  else if c =? TCG_COND_LT then Some (sx <? sy)
  else if c =? TCG_COND_GE then Some (sy <=? sx)
  else if c =? TCG_COND_LE then Some (sx <=? sy)
  else if c =? TCG_COND_GT then Some (sy <? sx)
  else if c =? TCG_COND_LTU then Some (x <? y)
  else if c =? TCG_COND_GEU then Some (y <=? x)
  else if c =? TCG_COND_LEU then Some (x <=? y)
  else if c =? TCG_COND_GTU then Some (y <? x)
  else None.

(** ** Machine states

    [regs] holds the 64-bit register or memory slot of every temporary, [world]
    everything else: guest and host memory, the CPU state outside the globals. *)
Record mstate (W : Type) := mkState { regs : Z -> Z; world : W }.
Arguments mkState {W}.
Arguments regs {W}.
Arguments world {W}.

(** What an access of memory or a helper leaves behind; [OLeave] is an exit
    from the translated block: [exit_tb], a taken [goto_tb], an exception. *)
Inductive effect (W : Type) :=
| OContinue (outs : list Z) (w : W)
| OLeave (w : W).
Arguments OContinue {W}.
Arguments OLeave {W}.

Inductive call_effect (W : Type) :=
| CReturn (outs : list Z) (globals : list Z) (w : W)
| CLeave (globals : list Z) (w : W).
Arguments CReturn {W}.
Arguments CLeave {W}.

(** The rest of the machine: what operations with effects do, from their
    constant arguments and the values of their inputs, and what helpers do, from
    their flags, inputs and the globals they may read. *)
Record Host (W : Type) := mkHost {
  h_op : TCGOpcode -> list Z -> list Z -> W -> effect W;
  h_call : Z -> list Z -> list Z -> W -> call_effect W;
}.
Arguments mkHost {W}.
Arguments h_op {W}.
Arguments h_call {W}.

Inductive next (W : Type) :=
| Fall (m : mstate W)
| Jump (label : Z) (m : mstate W)
| Leave (m : mstate W)
| Undef.
Arguments Fall {W}.
Arguments Jump {W}.
Arguments Leave {W}.
Arguments Undef {W}.

Section exec.
Context {W : Type} (s : TCGContext) (host : Host W).

Definition rset (r : Z -> Z) (t v : Z) : Z -> Z := fun i => if i =? t then v else r i.
Definition put (m : mstate W) (t v : Z) : mstate W := mkState (rset (regs m) t v) (world m).

Fixpoint puts (m : mstate W) (ts vs : list Z) : mstate W :=
  match ts, vs with
  | t :: ts, v :: vs => puts (put m t v) ts vs
  | t :: ts, [] => puts (put m t 0) ts []
  | [], _ => m
  end.

(** The operand of a [w]-bit operation, the value of a temporary of its type. *)
Definition opnd (w : width) (m : mstate W) (t : Z) : Z := uwrap (bits w) (regs m t).
Definition value (m : mstate W) (t : Z) : Z := opnd (type s t) m t.

Definition result (w : width) (m : mstate W) (t : Z) (v : option Z) : next W :=
  match v with Some v => Fall (put m t v) | None => Undef end.

(** A load extends what it reads; other results are cut to the width. *)
Definition loaded (op : TCGOpcode) (cargs : list Z) (raw : Z) : Z :=
  match op with
  | op_ld M8u w => u8 raw
  | op_ld M8s w => uwrap (bits w) (s8 raw)
  | op_ld M16u w => u16 raw
  | op_ld M16s w => uwrap (bits w) (swrap 16 raw)
  | op_ld M32u w => u32 raw
  | op_ld M32s w => uwrap (bits w) (s32 raw)
  | op_ld Mfull w => uwrap (bits w) raw
  | op_qemu_ld w =>
      let size := Z.shiftl 8 (Z.land (arg cargs 0) MO_SIZE) in
      uwrap (bits w) (if nz (Z.land (arg cargs 0) MO_SIGN) then swrap size raw else uwrap size raw)
  | op_div2 w | op_divu2 w => uwrap (bits w) raw
  | _ => u32 raw
  end.

Definition exec_opaque (i : TCGOp) (m : mstate W) : next W :=
  let d := tcg_op_defs (opc i) in
  let outs := take (nb_oargs d) (args i) in
  let ins := take (nb_iargs d) (drop (nb_oargs d) (args i)) in
  let cargs := drop (nb_oargs d + nb_iargs d) (args i) in
  match h_op host (opc i) cargs (map (value m) ins) (world m) with
  | OContinue vs w => Fall (puts (mkState (regs m) w) outs (map (loaded (opc i) cargs) (take (length outs) vs)))
  | OLeave w => Leave (mkState (regs m) w)
  end.

(** [call]: the counts, the outputs, the inputs with the function last, flags. *)
Definition call_outs (l : list Z) : list Z := take (Z.to_nat (Z.shiftr (arg l 0) 16)) (drop 1 l).
Definition call_ins (l : list Z) : list Z :=
  take (Z.to_nat (Z.land (arg l 0) 0xffff)) (drop (1 + Z.to_nat (Z.shiftr (arg l 0) 16)) l).
Definition call_flags (l : list Z) : Z :=
  arg l (1 + Z.to_nat (Z.shiftr (arg l 0) 16) + Z.to_nat (Z.land (arg l 0) 0xffff)).

Definition globals : list Z := seqZ 0 (nb_globals s).
Definition reads_globals (flags : Z) : bool := negb (nz (Z.land flags TCG_CALL_NO_READ_GLOBALS)).
Definition writes_globals (flags : Z) : bool :=
  reads_globals flags && negb (nz (Z.land flags TCG_CALL_NO_WRITE_GLOBALS)).

Definition typed (t v : Z) : Z := uwrap (bits (type s t)) v.
Definition puts_typed (m : mstate W) (ts vs : list Z) : mstate W :=
  puts m ts (imap (fun i v => typed (arg ts i) v) (take (length ts) vs)).

Definition exec_call (l : list Z) (m : mstate W) : next W :=
  let flags := call_flags l in
  let seen := if reads_globals flags then map (value m) globals else [] in
  let wr (m : mstate W) (g : list Z) := if writes_globals flags then puts_typed m globals g else m in
  match h_call host flags (map (value m) (call_ins l)) seen (world m) with
  | CReturn vs g w => Fall (puts_typed (wr (mkState (regs m) w) g) (call_outs l) vs)
  | CLeave g w => Leave (wr (mkState (regs m) w) g)
  end.

Definition pair_of (w : width) (lo hi : Z) : Z := hi * 2 ^ bits w + lo.

Definition put2 (w : width) (m : mstate W) (l : list Z) (r : Z) : mstate W :=
  put (put m (arg l 0) (uwrap (bits w) r)) (arg l 1) (uwrap (bits w) (r / 2 ^ bits w)).

(** One operation.  A 32-bit operation leaves its 32-bit result zero-extended in
    the register; [keep] says that the register allocator renamed the source
    of a [mov_i32] instead of moving it, which keeps its high half.  [discard]
    leaves a value the code promises not to use; here 0. *)
Definition exec_op (keep : bool) (i : TCGOp) (m : mstate W) : next W :=
  let l := args i in
  let a := arg l in
  match opc i with
  | op_nop | op_nopn | op_set_label => Fall m
  | op_discard => Fall (put m (a 0%nat) 0)
  | op_call => exec_call l m
  | op_br => Jump (a 0%nat) m
  | op_mov w =>
      Fall (put m (a 0%nat) (if keep then regs m (a 1%nat) else opnd w m (a 1%nat)))
  | op_movi w => Fall (put m (a 0%nat) (uwrap (bits w) (a 1%nat)))
  | op_setcond w =>
      result w m (a 0%nat) (option_map cbool (cond_sem (a 3%nat) (bits w) (opnd w m (a 1%nat)) (opnd w m (a 2%nat))))
  | op_movcond w =>
      result w m (a 0%nat)
        (option_map (fun c : bool => opnd w m (if c then a 3%nat else a 4%nat))
           (cond_sem (a 5%nat) (bits w) (opnd w m (a 1%nat)) (opnd w m (a 2%nat))))
  | op_bin b w => result w m (a 0%nat) (bin_sem b (bits w) (opnd w m (a 1%nat)) (opnd w m (a 2%nat)))
  | op_un u w => result w m (a 0%nat) (un_sem u (bits w) (opnd w m (a 1%nat)))
  | op_deposit w =>
      result w m (a 0%nat) (deposit_sem (bits w) (opnd w m (a 1%nat)) (opnd w m (a 2%nat)) (a 3%nat) (a 4%nat))
  | op_brcond w =>
      match cond_sem (a 2%nat) (bits w) (opnd w m (a 0%nat)) (opnd w m (a 1%nat)) with
      | Some true => Jump (a 3%nat) m | Some false => Fall m | None => Undef
      end
  | op_brcond2 =>
      match cond_sem (a 4%nat) 64 (pair_of W32 (opnd W32 m (a 0%nat)) (opnd W32 m (a 1%nat)))
              (pair_of W32 (opnd W32 m (a 2%nat)) (opnd W32 m (a 3%nat))) with
      | Some true => Jump (a 5%nat) m | Some false => Fall m | None => Undef
      end
  | op_setcond2 =>
      result W32 m (a 0%nat)
        (option_map cbool (cond_sem (a 5%nat) 64 (pair_of W32 (opnd W32 m (a 1%nat)) (opnd W32 m (a 2%nat)))
           (pair_of W32 (opnd W32 m (a 3%nat)) (opnd W32 m (a 4%nat)))))
  | op_add2 w =>
      Fall (put2 w m l (pair_of w (opnd w m (a 2%nat)) (opnd w m (a 3%nat))
                      + pair_of w (opnd w m (a 4%nat)) (opnd w m (a 5%nat))))
  | op_sub2 w =>
      Fall (put2 w m l (pair_of w (opnd w m (a 2%nat)) (opnd w m (a 3%nat))
                      - pair_of w (opnd w m (a 4%nat)) (opnd w m (a 5%nat))))
  | op_mulu2 w => Fall (put2 w m l (opnd w m (a 2%nat) * opnd w m (a 3%nat)))
  | op_muls2 w =>
      Fall (put2 w m l (swrap (bits w) (opnd w m (a 2%nat)) * swrap (bits w) (opnd w m (a 3%nat))))
  | op_ld _ _ | op_st _ _ | op_div2 _ | op_divu2 _ | op_debug_insn_start | op_exit_tb | op_goto_tb
  | op_qemu_ld _ | op_qemu_st _ => exec_opaque i m
  end.

(** ** Programs *)

(** The position behind the label. *)
Fixpoint label_pos (p : list TCGOp) (label : Z) : option nat :=
  match p with
  | [] => None
  | i :: p =>
      if decide (opc i = op_set_label /\ arg (args i) 0 = label) then Some 1%nat
      else option_map S (label_pos p label)
  end.

Inductive behaviour :=
| Left (m : mstate W)
| FellOff (m : mstate W)
| Running
| Undefined.

(** The first [fuel] operations executed from position [pc]. *)
Fixpoint run (fuel : nat) (keep : nat -> bool) (p : list TCGOp) (pc : nat) (m : mstate W) : behaviour :=
  match fuel with
  | O => Running
  | S fuel =>
      match nth_error p pc with
      | None => FellOff m
      | Some i =>
          match exec_op (keep pc) i m with
          | Fall m => run fuel keep p (S pc) m
          | Jump label m =>
              match label_pos p label with
              | Some pc => run fuel keep p pc m
              | None => Undefined
              end
          | Leave m => Left m
          | Undef => Undefined
          end
      end
  end.
End exec.

End Tcg.
