(* ===== verification/TcgOpt.v ===== *)
(** The optimiser of the intermediate code (tcg/optimize.c): constant and copy
    propagation, constant folding, known-zero bits and the simplifications
    built on them, over one array of facts about the temporaries.

    The code walks an opcode buffer and an argument buffer in step and rewrites
    both in place; here an operation carries its arguments, and what replaces
    one operation is a list: one operation, or two when the operation and the
    [nop] behind it become two [movi].  The C function is one loop whose
    body runs through a sequence of [switch]es; each is a definition, in order,
    that either emits (the [continue]s) or passes on. *)
From Stdlib Require Import ZArith Lia Bool Btauto.
From stdpp Require Import base numbers list.
From S2P Require Import Prelude HostUtils TcgOp.
Local Open Scope Z_scope.

Module TcgOpt.
Import HostUtils.HostUtils Tcg.

Notation "x <~ e ;; k" := (obind e (fun x => k))
  (at level 100, e at next level, right associativity).

Definition TCG_TARGET_HAS_neg : bool := true.
Definition TCG_TARGET_HAS_not : bool := true.

(** [(tcg_target_ulong)-1]. *)
Definition ones64 : Z := 0xffffffffffffffff.

Inductive tcg_temp_state := TCG_TEMP_UNDEF | TCG_TEMP_CONST | TCG_TEMP_COPY.

Record tcg_temp_info := mkInfo {
  state : tcg_temp_state;
  prev_copy : Z;
  next_copy : Z;
  val : Z;
  mask : Z;
}.
#[export] Instance tcg_temp_info_eta : Settable tcg_temp_info := fun i =>
  mkInfo (state i) (prev_copy i) (next_copy i) (val i) (mask i).

(** The array [temps]. *)
Definition temps_t := Z -> tcg_temp_info.
Definition upd (T : temps_t) (t : Z) (f : tcg_temp_info -> tcg_temp_info) : temps_t :=
  fun i => if i =? t then f (T i) else T i.

Definition is_const (i : tcg_temp_info) : bool :=
  match state i with TCG_TEMP_CONST => true | _ => false end.
Definition is_copy (i : tcg_temp_info) : bool :=
  match state i with TCG_TEMP_COPY => true | _ => false end.

Definition reset_temp (T : temps_t) (temp : Z) : temps_t :=
  let T :=
    if is_copy (T temp) then
      if prev_copy (T temp) =? next_copy (T temp) then
        upd T (next_copy (T temp)) (fun i => i <| state := TCG_TEMP_UNDEF |>)
      else
        let T := upd T (next_copy (T temp)) (fun i => i <| prev_copy := prev_copy (T temp) |>) in
        upd T (prev_copy (T temp)) (fun i => i <| next_copy := next_copy (T temp) |>)
    else T in
  upd T temp (fun i => i <| state := TCG_TEMP_UNDEF |> <| mask := ones64 |>).

Definition reset_all_temps (nb_temps : Z) (T : temps_t) : temps_t :=
  fun i => if (0 <=? i) && (i <? nb_temps)
           then T i <| state := TCG_TEMP_UNDEF |> <| mask := ones64 |> else T i.

Definition op_bits (op : TCGOpcode) : Z := if TCG_OPF_64BIT (tcg_op_defs op) then 64 else 32.
Definition op_width (op : TCGOpcode) : width := if TCG_OPF_64BIT (tcg_op_defs op) then W64 else W32.
Definition op_to_movi (op : TCGOpcode) : TCGOpcode := op_movi (op_width op).
Definition op_to_mov (op : TCGOpcode) : TCGOpcode := op_mov (op_width op).

(** ** Constant folding *)
Definition do_constant_folding_bin (b : binop) (w : width) (x y : Z) : outcome Z :=
  match b, w with
  | Badd, _ => Ok (u64 (x + y))
  | Bsub, _ => Ok (u64 (x - y))
  | Bmul, _ => Ok (u64 (x * y))
  | Band, _ => Ok (Z.land x y)
  | Bor, _ => Ok (Z.lor x y)
  | Bxor, _ => Ok (Z.lxor x y)
  | Bshl, W32 => Ok (shl 32 (u32 x) (u32 y))
  | Bshl, W64 => Ok (shl 64 x y)
  | Bshr, W32 => Ok (shr 32 (u32 x) (u32 y))
  | Bshr, W64 => Ok (shr 64 x y)
  | Bsar, W32 => Ok (u64 (shr 32 (s32 x) (s32 y)))
  | Bsar, W64 => Ok (u64 (shr 64 (s64 x) (s64 y)))
  | Brotr, W32 => Ok (ror32 (u32 x) (u32 y))
  | Brotr, W64 => Ok (ror64 x (u32 y))
  | Brotl, W32 => Ok (rol32 (u32 x) (u32 y))
  | Brotl, W64 => Ok (rol64 x (u32 y))
  | Bandc, _ => Ok (Z.land x (u64 (Z.lnot y)))
  | Borc, _ => Ok (Z.lor x (u64 (Z.lnot y)))
  | Beqv, _ => Ok (u64 (Z.lnot (Z.lxor x y)))
  | Bnand, _ => Ok (u64 (Z.lnot (Z.land x y)))
  | Bnor, _ => Ok (u64 (Z.lnot (Z.lor x y)))
  | Bmuluh, W32 => Ok (Z.shiftr (u64 (u32 x * u32 y)) 32)
  | Bmulsh, W32 => Ok (u64 (Z.shiftr (s64 (s32 x * s32 y)) 32))
  | Bmuluh, W64 => Ok (snd (mulu64 x y))
  | Bmulsh, W64 => Ok (snd (muls64 (s64 x) (s64 y)))
  | Bdiv, _ =>
      res <~ c_quot (bits w) (swrap (bits w) x) (if swrap (bits w) y =? 0 then 1 else swrap (bits w) y) ;;
      Ok (u64 res)
  | Bdivu, _ => c_div (uwrap (bits w) x) (if uwrap (bits w) y =? 0 then 1 else uwrap (bits w) y)
  | Brem, _ =>
      res <~ c_rem (bits w) (swrap (bits w) x) (if swrap (bits w) y =? 0 then 1 else swrap (bits w) y) ;;
      Ok (u64 res)
  | Bremu, _ => c_mod (uwrap (bits w) x) (if uwrap (bits w) y =? 0 then 1 else uwrap (bits w) y)
  end.

Definition do_constant_folding_un (u : unop) (x : Z) : outcome Z :=
  match u with
  | Unot => Ok (u64 (Z.lnot x))
  | Uneg => Ok (u64 (- x))
  | Uext8s => Ok (u64 (s8 x))
  | Uext16s => Ok (u64 (swrap 16 x))
  | Uext8u => Ok (u8 x)
  | Uext16u => Ok (u16 x)
  | Uext32s => Ok (u64 (s32 x))
  | Uext32u => Ok (u32 x)
  | Ubswap16 | Ubswap32 | Ubswap64 => Fault AssertFailed
  end.

(** [tcg_abort] is [AssertFailed]. *)
Definition do_constant_folding_2 (op : TCGOpcode) (x y : Z) : outcome Z :=
  match op with
  | op_bin b w => do_constant_folding_bin b w x y
  | op_un u _ => do_constant_folding_un u x
  | _ => Fault AssertFailed
  end.

Definition do_constant_folding (op : TCGOpcode) (x y : Z) : outcome Z :=
  res <~ do_constant_folding_2 op x y ;;
  Ok (if op_bits op =? 32 then Z.land res 0xffffffff else res).

Definition do_constant_folding_cond_bits (w : Z) (x y c : Z) : outcome bool :=
  if c =? TCG_COND_EQ then Ok (x =? y)
  else if c =? TCG_COND_NE then Ok (negb (x =? y))
  else if c =? TCG_COND_LT then Ok (swrap w x <? swrap w y)
  else if c =? TCG_COND_GE then Ok (swrap w y <=? swrap w x)
  else if c =? TCG_COND_LE then Ok (swrap w x <=? swrap w y)
  else if c =? TCG_COND_GT then Ok (swrap w y <? swrap w x)
  else if c =? TCG_COND_LTU then Ok (x <? y)
  else if c =? TCG_COND_GEU then Ok (y <=? x)
  else if c =? TCG_COND_LEU then Ok (x <=? y)
  else if c =? TCG_COND_GTU then Ok (y <? x)
  else Fault AssertFailed.
Definition do_constant_folding_cond_32 (x y c : Z) : outcome bool :=
  do_constant_folding_cond_bits 32 (u32 x) (u32 y) c.
Definition do_constant_folding_cond_64 (x y c : Z) : outcome bool :=
  do_constant_folding_cond_bits 64 x y c.

Definition do_constant_folding_cond_eq (c : Z) : outcome bool :=
  if (c =? TCG_COND_GT) || (c =? TCG_COND_LTU) || (c =? TCG_COND_LT) || (c =? TCG_COND_GTU)
     || (c =? TCG_COND_NE) then Ok false
  else if (c =? TCG_COND_GE) || (c =? TCG_COND_GEU) || (c =? TCG_COND_LE) || (c =? TCG_COND_LEU)
          || (c =? TCG_COND_EQ) then Ok true
  else Fault AssertFailed.

Section opt.
Context (s : TCGContext).

(** The circular lists of copies are walked at most once around: there are
    [nb_temps] temporaries, and [ring_walk_total] shows that the fuel suffices. *)
Definition ring_fuel : nat := Z.to_nat (nb_temps s).

(** [for (i = next_copy; i != temp; i = next_copy) if (p(i)) return i;] *)
Fixpoint find_copy (fuel : nat) (T : temps_t) (p : Z -> bool) (temp i : Z) : outcome (option Z) :=
  if i =? temp then Ok None
  else if p i then Ok (Some i)
  else match fuel with
       | O => Fault FuelExhausted
       | S fuel => find_copy fuel T p temp (next_copy (T i))
       end.

Definition find_better_copy (T : temps_t) (temp : Z) : outcome Z :=
  if temp <? nb_globals s then Ok temp
  else
    g <~ find_copy ring_fuel T (fun i => i <? nb_globals s) temp (next_copy (T temp)) ;;
    match g with
    | Some i => Ok i
    | None =>
        if negb (temp_local s temp) then
          l <~ find_copy ring_fuel T (temp_local s) temp (next_copy (T temp)) ;;
          Ok (match l with Some i => i | None => temp end)
        else Ok temp
    end.

Definition temps_are_copies (T : temps_t) (arg1 arg2 : Z) : outcome bool :=
  if arg1 =? arg2 then Ok true
  else if negb (is_copy (T arg1)) || negb (is_copy (T arg2)) then Ok false
  else
    r <~ find_copy ring_fuel T (fun i => i =? arg2) arg1 (next_copy (T arg1)) ;;
    Ok (match r with Some _ => true | None => false end).

Definition tcg_opt_gen_mov (T : temps_t) (dst src : Z) : outcome (list Z * temps_t) :=
  let T := reset_temp T dst in
  let T := upd T dst (fun i => i <| mask := mask (T src) |>) in
  if is_const (T src) then Fault AssertFailed
  else
    let T :=
      if decide (type s src = type s dst) then
        let T := if is_copy (T src) then T
                 else upd T src (fun i => i <| state := TCG_TEMP_COPY |> <| next_copy := src |>
                                            <| prev_copy := src |>) in
        let T := upd T dst (fun i => i <| state := TCG_TEMP_COPY |> <| next_copy := next_copy (T src) |>
                                       <| prev_copy := src |>) in
        let T := upd T (next_copy (T dst)) (fun i => i <| prev_copy := dst |>) in
        upd T src (fun i => i <| next_copy := dst |>)
      else T in
    Ok ([dst; src], T).

Definition tcg_opt_gen_movi (T : temps_t) (dst v : Z) : list Z * temps_t :=
  let T := reset_temp T dst in
  ([dst; v], upd T dst (fun i => i <| state := TCG_TEMP_CONST |> <| val := v |> <| mask := v |>)).

(** Whether the condition is decided by the known facts. *)
Definition do_constant_folding_cond (T : temps_t) (op : TCGOpcode) (x y c : Z) : outcome (option bool) :=
  if is_const (T x) && is_const (T y) then
    r <~ (if op_bits op =? 32 then do_constant_folding_cond_32 (val (T x)) (val (T y)) c
          else do_constant_folding_cond_64 (val (T x)) (val (T y)) c) ;;
    Ok (Some r)
  else
    same <~ temps_are_copies T x y ;;
    if same : bool then r <~ do_constant_folding_cond_eq c ;; Ok (Some r)
    else if is_const (T y) && (val (T y) =? 0) then
      Ok (if c =? TCG_COND_LTU then Some false else if c =? TCG_COND_GEU then Some true else None)
    else Ok None.

Definition do_constant_folding_cond2 (T : temps_t) (al ah bl bh c : Z) : outcome (option bool) :=
  let b := Z.lor (u64 (Z.shiftl (val (T bh)) 32)) (u32 (val (T bl))) in
  let a := Z.lor (u64 (Z.shiftl (val (T ah)) 32)) (u32 (val (T al))) in
  let copies :=
    same_l <~ temps_are_copies T al bl ;;
    same_h <~ (if same_l : bool then temps_are_copies T ah bh else Ok false) ;;
    if same_h : bool then r <~ do_constant_folding_cond_eq c ;; Ok (Some r) else Ok None in
  if is_const (T bl) && is_const (T bh) then
    if is_const (T al) && is_const (T ah) then
      r <~ do_constant_folding_cond_64 a b c ;; Ok (Some r)
    else if (b =? 0) && (c =? TCG_COND_LTU) then Ok (Some false)
    else if (b =? 0) && (c =? TCG_COND_GEU) then Ok (Some true)
    else copies
  else copies.

(** [swap_commutative(dest, &args[i], &args[j])]. *)
Definition swap_args (l : list Z) (i j : nat) : list Z := <[i := arg l j]> (<[j := arg l i]> l).

Definition swap_commutative (T : temps_t) (dest : Z) (i j : nat) (l : list Z) : bool * list Z :=
  let a1 := arg l i in
  let a2 := arg l j in
  let sum := cbool (is_const (T a1)) - cbool (is_const (T a2)) in
  if (0 <? sum) || ((sum =? 0) && (dest =? a2)) then (true, swap_args l i j) else (false, l).

Definition swap_commutative2 (T : temps_t) (i j : nat) (l : list Z) : bool * list Z :=
  let sum := cbool (is_const (T (arg l i))) + cbool (is_const (T (arg l (S i))))
             - cbool (is_const (T (arg l j))) - cbool (is_const (T (arg l (S j)))) in
  if 0 <? sum then (true, swap_args (swap_args l i j) (S i) (S j)) else (false, l).

(** ** One operation

    The facts after it and the operations that replace it. *)
Definition emitted := (list TCGOp * temps_t)%type.
Definition emit_op (op : TCGOpcode) (r : list Z * temps_t) : emitted := ([mkOp op (fst r)], snd r).
Definition emit_nop (T : temps_t) : emitted := ([mkOp op_nop []], T).
Definition emit_movi (op : TCGOpcode) (T : temps_t) (dst v : Z) : emitted :=
  emit_op (op_to_movi op) (tcg_opt_gen_movi T dst v).
Definition emit_mov (op : TCGOpcode) (T : temps_t) (dst src : Z) : outcome emitted :=
  r <~ tcg_opt_gen_mov T dst src ;; Ok (emit_op (op_to_mov op) r).
(** [nop] when the source is already a copy of the destination. *)
Definition emit_copy (op : TCGOpcode) (T : temps_t) (dst src : Z) : outcome emitted :=
  same <~ temps_are_copies T dst src ;;
  if same : bool then Ok (emit_nop T) else emit_mov op T dst src.

(** A stage of the loop body: [Some] is [continue]. *)
Definition stage := outcome (option emitted).
Definition pass : stage := Ok None.
Definition continue (e : emitted) : stage := Ok (Some e).
Definition orelse (a : stage) (b : outcome emitted) : outcome emitted :=
  r <~ a ;; match r with Some e => Ok e | None => b end.

(** *** Copy propagation in the inputs *)
Fixpoint propagate (T : temps_t) (n i : nat) (l : list Z) : outcome (list Z) :=
  match n with
  | O => Ok l
  | S n =>
      x <~ (if is_copy (T (arg l i)) then find_better_copy T (arg l i) else Ok (arg l i)) ;;
      propagate T n (S i) (<[i := x]> l)
  end.

Definition copy_propagate (T : temps_t) (op : TCGOpcode) (l : list Z) : outcome (list Z) :=
  match op with
  | op_call =>
      let nb_oargs := Z.to_nat (Z.shiftr (arg l 0) 16) in
      let nb_iargs := Z.to_nat (Z.land (arg l 0) 0xffff) in
      propagate T nb_iargs (nb_oargs + 1) l
  | _ => propagate T (nb_iargs (tcg_op_defs op)) (nb_oargs (tcg_op_defs op)) l
  end.

(** *** Constants to the second argument *)
Definition set_arg (l : list Z) (i : nat) (f : Z -> Z) : list Z := <[i := f (arg l i)]> l.

Definition canonicalize (T : temps_t) (op : TCGOpcode) (l : list Z) : list Z :=
  match op with
  | op_bin (Badd | Bmul | Band | Bor | Bxor | Beqv | Bnand | Bnor | Bmuluh | Bmulsh) _ =>
      snd (swap_commutative T (arg l 0) 1 2 l)
  | op_brcond _ =>
      let '(sw, l) := swap_commutative T ones64 0 1 l in
      if sw then set_arg l 2 tcg_swap_cond else l
  | op_setcond _ =>
      let '(sw, l) := swap_commutative T (arg l 0) 1 2 l in
      if sw then set_arg l 3 tcg_swap_cond else l
  | op_movcond _ =>
      let '(sw, l) := swap_commutative T ones64 1 2 l in
      let l := if sw then set_arg l 5 tcg_swap_cond else l in
      let '(sw, l) := swap_commutative T (arg l 0) 4 3 l in
      if sw then set_arg l 5 tcg_invert_cond else l
  | op_add2 _ =>
      let l := snd (swap_commutative T (arg l 0) 2 4 l) in
      snd (swap_commutative T (arg l 1) 3 5 l)
  | op_mulu2 _ | op_muls2 _ => snd (swap_commutative T (arg l 0) 2 3 l)
  | op_brcond2 =>
      let '(sw, l) := swap_commutative2 T 0 2 l in
      if sw then set_arg l 4 tcg_swap_cond else l
  | op_setcond2 =>
      let '(sw, l) := swap_commutative2 T 1 3 l in
      if sw then set_arg l 5 tcg_swap_cond else l
  | _ => l
  end.

(** *** "shift/rot r, 0, a => movi r, 0", "sub r, 0, a => neg r, a" and the
    operations that are a [not] *)
Definition known (T : temps_t) (t v : Z) : bool := is_const (T t) && (val (T t) =? v).

Definition simplify_unary (T : temps_t) (op : TCGOpcode) (l : list Z) : stage :=
  let a := arg l in
  let unary (op : TCGOpcode) (i : nat) :=
    continue (emit_op op ([a 0%nat; a i], reset_temp T (a 0%nat))) in
  let try_not (i : nat) := if TCG_TARGET_HAS_not then unary (op_un Unot (op_width op)) i else pass in
  match op with
  | op_bin (Bshl | Bshr | Bsar | Brotl | Brotr) _ =>
      if known T (a 1%nat) 0 then continue (emit_movi op T (a 0%nat) 0) else pass
  | op_bin Bsub w =>
      if is_const (T (a 2%nat)) then pass
      else if negb TCG_TARGET_HAS_neg then pass
      else if known T (a 1%nat) 0 then unary (op_un Uneg w) 2%nat else pass
  | op_bin (Bxor | Bnand) _ =>
      if negb (is_const (T (a 1%nat))) && known T (a 2%nat) ones64 then try_not 1%nat else pass
  | op_bin Bnor _ =>
      if negb (is_const (T (a 1%nat))) && known T (a 2%nat) 0 then try_not 1%nat else pass
  | op_bin Bandc _ =>
      if negb (is_const (T (a 2%nat))) && known T (a 1%nat) ones64 then try_not 2%nat else pass
  | op_bin (Borc | Beqv) _ =>
      if negb (is_const (T (a 2%nat))) && known T (a 1%nat) 0 then try_not 2%nat else pass
  | _ => pass
  end.

(** *** "op r, a, const => mov r, a" *)
Definition simplify_const (T : temps_t) (op : TCGOpcode) (l : list Z) : stage :=
  let a := arg l in
  let do_mov3 := e <~ emit_copy op T (a 0%nat) (a 1%nat) ;; continue e in
  match op with
  | op_bin (Badd | Bsub | Bshl | Bshr | Bsar | Brotl | Brotr | Bor | Bxor | Bandc) _ =>
      if negb (is_const (T (a 1%nat))) && known T (a 2%nat) 0 then do_mov3 else pass
  | op_bin (Band | Borc | Beqv) _ =>
      if negb (is_const (T (a 1%nat))) && known T (a 2%nat) ones64 then do_mov3 else pass
  | _ => pass
  end.

(** *** Known-zero bits: a mask of the bits the first output can have, and the
    bits of the first input the operation can clear *)
Definition and_const (m1 m : Z) : Z * Z := (Z.land m1 m, Z.land m1 (u64 (Z.lnot m))).

Definition zero_bits (T : temps_t) (op : TCGOpcode) (l : list Z) : Z * Z :=
  let a := arg l in
  let m1 := mask (T (a 1%nat)) in
  let m2 := mask (T (a 2%nat)) in
  let c2 := is_const (T (a 2%nat)) in
  let v2 := val (T (a 2%nat)) in
  let no := (ones64, ones64) in
  match op with
  | op_un Uext8s _ => if nz (Z.land m1 0x80) then no else and_const m1 0xff
  | op_un Uext8u _ => and_const m1 0xff
  | op_un Uext16s _ => if nz (Z.land m1 0x8000) then no else and_const m1 0xffff
  | op_un Uext16u _ => and_const m1 0xffff
  | op_un Uext32s _ => if nz (Z.land m1 0x80000000) then no else and_const m1 0xffffffff
  | op_un Uext32u _ => and_const m1 0xffffffff
  | op_bin Band _ => if c2 then and_const m1 m2 else (Z.land m1 m2, ones64)
  | op_bin Bandc _ => if c2 then and_const m1 (u64 (Z.lnot m2)) else (m1, ones64)
  | op_bin Bsar W32 => if c2 then (u64 (shr 32 (s32 m1) v2), ones64) else no
  | op_bin Bsar W64 => if c2 then (u64 (shr 64 (s64 m1) v2), ones64) else no
  | op_bin Bshr W32 => if c2 then (shr 32 (u32 m1) v2, ones64) else no
  | op_bin Bshr W64 => if c2 then (shr 64 m1 v2, ones64) else no
  | op_bin Bshl _ => if c2 then (shl 64 m1 v2, ones64) else no
  | op_un Uneg _ => (u64 (- Z.land m1 (u64 (- m1))), ones64)
  | op_deposit _ =>
      let tmp := u64 (shl 64 1 (a 4%nat) - 1) in
      let f := shl 64 tmp (a 3%nat) in
      (Z.lor (Z.land m1 (u64 (Z.lnot f))) (shl 64 (Z.land m2 tmp) (a 3%nat)), ones64)
  | op_bin Bor _ | op_bin Bxor _ => (Z.lor m1 m2, ones64)
  | op_setcond _ => (1, ones64)
  | op_movcond _ => (Z.lor (mask (T (a 3%nat))) (mask (T (a 4%nat))), ones64)
  | op_ld M8u _ => (0xff, ones64)
  | op_ld M16u _ => (0xffff, ones64)
  | op_ld M32u W64 => (0xffffffff, ones64)
  | op_qemu_ld _ =>
      let mop := arg l (nb_oargs (tcg_op_defs op) + nb_iargs (tcg_op_defs op)) in
      if negb (nz (Z.land mop MO_SIGN))
      then (u64 (u64 (Z.shiftl 2 (Z.shiftl 8 (Z.land mop MO_SIZE) - 1)) - 1), ones64) else no
  | _ => no
  end.

Definition known_bits (T : temps_t) (op : TCGOpcode) (l : list Z) : Z * Z :=
  let '(m, affected) := zero_bits T op l in
  let d := tcg_op_defs op in
  (if negb (TCG_OPF_CALL_CLOBBER d || TCG_OPF_64BIT d) then Z.land m 0xffffffff else m, affected).

Definition simplify_bits (T : temps_t) (op : TCGOpcode) (l : list Z) : stage :=
  let a := arg l in
  let '(m, affected) := known_bits T op l in
  if m =? 0 then
    if (nb_oargs (tcg_op_defs op) =? 1)%nat then continue (emit_movi op T (a 0%nat) 0)
    else Fault AssertFailed
  else if affected =? 0 then
    if negb (nb_oargs (tcg_op_defs op) =? 1)%nat then Fault AssertFailed
    else
      same <~ temps_are_copies T (a 0%nat) (a 1%nat) ;;
      if same : bool then continue (emit_nop T)
      else if negb (is_const (T (a 1%nat))) then e <~ emit_mov op T (a 0%nat) (a 1%nat) ;; continue e
      else continue (emit_movi op T (a 0%nat) (val (T (a 1%nat))))
  else pass.

(** *** "op r, a, 0 => movi r, 0" *)
Definition simplify_zero (T : temps_t) (op : TCGOpcode) (l : list Z) : stage :=
  match op with
  | op_bin (Band | Bmul | Bmuluh | Bmulsh) _ =>
      if known T (arg l 2) 0 then continue (emit_movi op T (arg l 0) 0) else pass
  | _ => pass
  end.

(** *** "op r, a, a => mov r, a" and "op r, a, a => movi r, 0" *)
Definition simplify_same (T : temps_t) (op : TCGOpcode) (l : list Z) : stage :=
  match op with
  | op_bin (Bor | Band) _ =>
      same <~ temps_are_copies T (arg l 1) (arg l 2) ;;
      if same : bool then e <~ emit_copy op T (arg l 0) (arg l 1) ;; continue e else pass
  | op_bin (Bandc | Bsub | Bxor) _ =>
      same <~ temps_are_copies T (arg l 1) (arg l 2) ;;
      if same : bool then continue (emit_movi op T (arg l 0) 0) else pass
  | _ => pass
  end.

(** *** The operation is kept *)
Fixpoint reset_outs (T : temps_t) (m : Z) (i n : nat) (l : list Z) : temps_t :=
  match n with
  | O => T
  | S n =>
      let T := reset_temp T (arg l i) in
      let T := if (i =? 0)%nat then upd T (arg l i) (fun x => x <| mask := m |>) else T in
      reset_outs T m (S i) n l
  end.

Definition do_default (T : temps_t) (op : TCGOpcode) (l : list Z) : emitted :=
  let d := tcg_op_defs op in
  let T := if TCG_OPF_BB_END d then reset_all_temps (nb_temps s) T
           else reset_outs T (fst (known_bits T op l)) 0 (nb_oargs d) l in
  ([mkOp op (take (nb_args d) l)], T).

(** *** Folding *)
Definition emit_br (T : temps_t) (label : Z) : emitted :=
  ([mkOp op_br [label]], reset_all_temps (nb_temps s) T).

(** Both halves of a double-word result; the operation's [nop] is used up. *)
Definition emit_pair (T : temps_t) (next_op : option TCGOpcode) (rl rh lo hi : Z) : outcome emitted :=
  if decide (next_op = Some op_nop) then
    let '(l1, T) := tcg_opt_gen_movi T rl lo in
    let '(l2, T) := tcg_opt_gen_movi T rh hi in
    Ok ([mkOp (op_movi W32) l1; mkOp (op_movi W32) l2], T)
  else Fault AssertFailed.

Definition reset_range (T : temps_t) (ts : list Z) : temps_t := fold_left reset_temp ts T.

Definition fold_call (T : temps_t) (l : list Z) : emitted :=
  let flags := call_flags l in
  let T := if negb (nz (Z.land flags (Z.lor TCG_CALL_NO_READ_GLOBALS TCG_CALL_NO_WRITE_GLOBALS)))
           then reset_range T (globals s) else T in
  ([mkOp op_call l], reset_range T (call_outs l)).

Definition fold_op (T : temps_t) (next_op : option TCGOpcode) (op : TCGOpcode) (l : list Z) : outcome emitted :=
  let a := arg l in
  let c := fun i => is_const (T (a i)) in
  let v := fun i => val (T (a i)) in
  let default := Ok (do_default T op l) in
  match op with
  | op_mov w =>
      same <~ temps_are_copies T (a 0%nat) (a 1%nat) ;;
      if same : bool then Ok (emit_nop T)
      else if negb (c 1%nat) then
        r <~ tcg_opt_gen_mov T (a 0%nat) (a 1%nat) ;; Ok (emit_op op r)
      else Ok (emit_movi op T (a 0%nat) (v 1%nat))
  | op_movi w => Ok (emit_op op (tcg_opt_gen_movi T (a 0%nat) (a 1%nat)))
  | op_un (Unot | Uneg | Uext8s | Uext8u | Uext16s | Uext16u | Uext32s | Uext32u) _ =>
      if c 1%nat then
        tmp <~ do_constant_folding op (v 1%nat) 0 ;; Ok (emit_movi op T (a 0%nat) tmp)
      else default
  | op_bin _ _ =>
      if c 1%nat && c 2%nat then
        tmp <~ do_constant_folding op (v 1%nat) (v 2%nat) ;; Ok (emit_movi op T (a 0%nat) tmp)
      else default
  | op_deposit _ =>
      if c 1%nat && c 2%nat then
        let tmp := u64 (shl 64 1 (a 4%nat) - 1) in
        let tmp := Z.lor (Z.land (v 1%nat) (u64 (Z.lnot (shl 64 tmp (a 3%nat)))))
                         (shl 64 (Z.land (v 2%nat) tmp) (a 3%nat)) in
        Ok (emit_movi op T (a 0%nat) tmp)
      else default
  | op_setcond _ =>
      tmp <~ do_constant_folding_cond T op (a 1%nat) (a 2%nat) (a 3%nat) ;;
      match tmp with
      | Some r => Ok (emit_movi op T (a 0%nat) (cbool r))
      | None => default
      end
  | op_brcond _ =>
      tmp <~ do_constant_folding_cond T op (a 0%nat) (a 1%nat) (a 2%nat) ;;
      match tmp with
      | Some true => Ok (emit_br T (a 3%nat))
      | Some false => Ok (emit_nop T)
      | None => default
      end
  | op_movcond _ =>
      tmp <~ do_constant_folding_cond T op (a 1%nat) (a 2%nat) (a 5%nat) ;;
      match tmp with
      | Some r =>
          let src := if r : bool then a 3%nat else a 4%nat in
          same <~ temps_are_copies T (a 0%nat) src ;;
          if same : bool then Ok (emit_nop T)
          else if is_const (T src) then Ok (emit_movi op T (a 0%nat) (val (T src)))
          else emit_mov op T (a 0%nat) src
      | None => default
      end
  | op_add2 W32 | op_sub2 W32 =>
      if c 2%nat && c 3%nat && c 4%nat && c 5%nat then
        let a' := Z.lor (Z.shiftl (u32 (v 3%nat)) 32) (u32 (v 2%nat)) in
        let b' := Z.lor (Z.shiftl (u32 (v 5%nat)) 32) (u32 (v 4%nat)) in
        let r := match op with op_add2 _ => u64 (a' + b') | _ => u64 (a' - b') end in
        emit_pair T next_op (a 0%nat) (a 1%nat) (u32 r) (u32 (Z.shiftr r 32))
      else default
  | op_mulu2 W32 =>
      if c 2%nat && c 3%nat then
        let r := u64 (u32 (v 2%nat) * u32 (v 3%nat)) in
        emit_pair T next_op (a 0%nat) (a 1%nat) (u32 r) (u32 (Z.shiftr r 32))
      else default
  | op_brcond2 =>
      tmp <~ do_constant_folding_cond2 T (a 0%nat) (a 1%nat) (a 2%nat) (a 3%nat) (a 4%nat) ;;
      match tmp with
      | Some true => Ok (emit_br T (a 5%nat))
      | Some false => Ok (emit_nop T)
      | None =>
          if ((a 4%nat =? TCG_COND_LT) || (a 4%nat =? TCG_COND_GE))
             && known T (a 2%nat) 0 && known T (a 3%nat) 0
          then Ok ([mkOp (op_brcond W32) [a 1%nat; a 3%nat; a 4%nat; a 5%nat]],
                   reset_all_temps (nb_temps s) T)
          else default
      end
  | op_setcond2 =>
      tmp <~ do_constant_folding_cond2 T (a 1%nat) (a 2%nat) (a 3%nat) (a 4%nat) (a 5%nat) ;;
      match tmp with
      | Some r => Ok (emit_op (op_movi W32) (tcg_opt_gen_movi T (a 0%nat) (cbool r)))
      | None =>
          if ((a 5%nat =? TCG_COND_LT) || (a 5%nat =? TCG_COND_GE))
             && known T (a 3%nat) 0 && known T (a 4%nat) 0
          then Ok ([mkOp (op_setcond W32) [a 0%nat; a 2%nat; a 4%nat; a 5%nat]], reset_temp T (a 0%nat))
          else default
      end
  | op_call => Ok (fold_call T l)
  | _ => default
  end.

(** The body of the loop. *)
Definition optimize_op (T : temps_t) (next_op : option TCGOpcode) (i : TCGOp) : outcome emitted :=
  let op := opc i in
  l <~ copy_propagate T op (args i) ;;
  let l := canonicalize T op l in
  orelse (simplify_unary T op l)
    (orelse (simplify_const T op l)
      (orelse (simplify_bits T op l)
        (orelse (simplify_zero T op l)
          (orelse (simplify_same T op l)
            (fold_op T next_op op l))))).

(** The loop; an operation that became two has used up the [nop] behind it. *)
Fixpoint fold_ops (T : temps_t) (p : list TCGOp) : outcome (list TCGOp) :=
  match p with
  | [] => Ok []
  | i :: p =>
      r <~ optimize_op T (option_map opc (head p)) i ;;
      match fst r, p with
      | [i1], _ => p' <~ fold_ops (snd r) p ;; Ok (i1 :: p')
      | [i1; i2], _ :: p => p' <~ fold_ops (snd r) p ;; Ok (i1 :: i2 :: p')
      | _, _ => Fault AssertFailed
      end
  end.

(** The array is static: a run starts from what the last one left. *)
Definition tcg_constant_folding (T : temps_t) (p : list TCGOp) : outcome (list TCGOp) :=
  fold_ops (reset_all_temps (nb_temps s) T) p.

Definition tcg_optimize (T : temps_t) (p : list TCGOp) : outcome (list TCGOp) :=
  tcg_constant_folding T p.
End opt.
End TcgOpt.
