(* ===== verification/TcgRing.v ===== *)
(** The facts of the optimiser about the temporaries (tcg/optimize.c, [temps]):
    the circular lists of copies keep their shape, walking one ends, and every
    update keeps the facts true of the registers. *)
From Stdlib Require Import ZArith Lia Bool Btauto.
From stdpp Require Import base numbers list.
From S2P Require Import Prelude HostUtils TcgOp TcgOpt.
Local Open Scope Z_scope.

Module TcgRing.
Import Tcg TcgOpt.

(** [v] has no bit outside [m]. *)
Definition within (v m : Z) : Prop := forall i, 0 <= i -> Z.testbit v i = true -> Z.testbit m i = true.

Lemma within_refl v : within v v.
Proof. by intros i. Qed.
Lemma within_trans a b c : within a b -> within b c -> within a c.
Proof. intros H1 H2 i Hi H. auto. Qed.
Lemma within_uwrap w v : 0 <= w -> within (uwrap w v) v.
Proof. intros Hw i Hi H. rewrite uwrap_spec in H by lia. by apply andb_true_iff in H as [_ ?]. Qed.
Lemma within_fits w v m : 0 <= w -> 0 <= v -> within v m -> fits w m -> fits w v.
Proof.
  intros Hw Hv H Hm. apply fits_of_bits; [done|done|]. intros i Hi.
  destruct (Z.testbit v i) eqn:E; [|done]. apply H in E; [|lia].
  by rewrite (fits_testbit w) in E by (done || lia).
Qed.
Lemma within_0 v m : 0 <= v -> within v m -> m = 0 -> v = 0.
Proof.
  intros Hv H ->. apply Z.bits_inj'. intros i Hi. rewrite Z.bits_0.
  destruct (Z.testbit v i) eqn:E; [|done]. apply H in E; [|lia]. by rewrite Z.bits_0 in E.
Qed.
Lemma within_ones64 v : fits 64 v -> within v ones64.
Proof.
  intros Hv i Hi H. change ones64 with (Z.ones 64). rewrite Z.testbit_ones_nonneg by lia.
  apply Z.ltb_lt. destruct (Z.ltb_spec i 64); [done|]. by rewrite (fits_testbit 64) in H by (done || lia).
Qed.

Lemma bits_range w : bits w = 32 \/ bits w = 64.
Proof. destruct w; auto. Qed.
Lemma bits_pos w : 0 <= bits w <= 64.
Proof. destruct w; cbn; lia. Qed.
Lemma fits_bits w v : fits (bits w) v -> fits 64 v.
Proof. unfold fits. destruct w; cbn [bits]; lia. Qed.
Lemma uwrap_bits_64 w v : fits 64 (uwrap (bits w) v).
Proof. apply (fits_bits w), uwrap_fits. destruct w; cbn; lia. Qed.

Section ring.
Context (s : TCGContext).

Definition valid (t : Z) : Prop := 0 <= t < nb_temps s.
Definition ty (t : Z) : Z := bits (type s t).

Lemma ty_pos t : 0 <= ty t <= 64.
Proof. apply bits_pos. Qed.

(** The shape of the array. *)
Record wf (T : temps_t) : Prop := {
  wf_next : forall t, valid t -> is_copy (T t) = true ->
    valid (next_copy (T t)) /\ is_copy (T (next_copy (T t))) = true /\
    prev_copy (T (next_copy (T t))) = t /\ type s (next_copy (T t)) = type s t;
  wf_prev : forall t, valid t -> is_copy (T t) = true ->
    valid (prev_copy (T t)) /\ is_copy (T (prev_copy (T t))) = true /\
    next_copy (T (prev_copy (T t))) = t;
  wf_mask : forall t, valid t -> fits 64 (mask (T t));
  wf_const : forall t, valid t -> is_const (T t) = true -> fits 64 (val (T t)) /\ mask (T t) = val (T t);
}.

(** The facts hold of the registers [r]. *)
Record sound (T : temps_t) (r : Z -> Z) : Prop := {
  s_wf : wf T;
  s_fits : forall t, fits 64 (r t);
  s_mask : forall t, valid t -> within (r t) (mask (T t));
  s_const : forall t, valid t -> is_const (T t) = true -> uwrap (ty t) (r t) = uwrap (ty t) (val (T t));
  s_copy : forall t, valid t -> is_copy (T t) = true ->
    uwrap (ty t) (r (next_copy (T t))) = uwrap (ty t) (r t);
}.

(** *** What the updates assign *)

Lemma upd_same T t f : upd T t f t = f (T t).
Proof. unfold upd. by rewrite Z.eqb_refl. Qed.
Lemma upd_other T t f u : u <> t -> upd T t f u = T u.
Proof. intros H. unfold upd. by rewrite (proj2 (Z.eqb_neq _ _)). Qed.

Lemma is_copy_const i : is_copy i = true -> is_const i = false.
Proof. unfold is_copy, is_const. by destruct (state i). Qed.

(** The neighbours of a copy. *)
Lemma neighbours T t :
  wf T -> valid t -> is_copy (T t) = true ->
  exists p n, prev_copy (T t) = p /\ next_copy (T t) = n /\ valid p /\ valid n /\
    is_copy (T p) = true /\ is_copy (T n) = true /\ next_copy (T p) = t /\ prev_copy (T n) = t /\
    type s n = type s t /\ type s p = type s t.
Proof.
  intros HT Ht Hc. destruct (wf_next T HT t Ht Hc) as (N1 & N2 & N3 & N4).
  destruct (wf_prev T HT t Ht Hc) as (P1 & P2 & P3).
  destruct (wf_next T HT _ P1 P2) as (_ & _ & _ & P4). rewrite P3 in P4. eauto 20.
Qed.

Ltac eqbs := repeat match goal with
  | |- context [?a =? ?b] => destruct (Z.eqb_spec a b) as [?|?]; subst
  | H : context [?a =? ?b] |- _ => destruct (Z.eqb_spec a b) as [?|?]; subst
  end.

(** [reset_temp] is one of three updates: nothing to unlink, the last but one
    copy, a temporary between two others. *)
Lemma reset_temp_cases T t :
  wf T -> valid t ->
  let kill := fun i : tcg_temp_info => i <| state := TCG_TEMP_UNDEF |> <| mask := ones64 |> in
  (is_copy (T t) = false /\ forall u, reset_temp T t u = if u =? t then kill (T u) else T u) \/
  (exists n, is_copy (T t) = true /\ prev_copy (T t) = n /\ next_copy (T t) = n /\
     forall u, reset_temp T t u = if u =? t then kill (T u)
                                  else if u =? n then T u <| state := TCG_TEMP_UNDEF |> else T u) \/
  (exists p n, is_copy (T t) = true /\ prev_copy (T t) = p /\ next_copy (T t) = n /\
     p <> n /\ p <> t /\ n <> t /\
     forall u, reset_temp T t u = if u =? t then kill (T u) else if u =? p then T u <| next_copy := n |>
                                  else if u =? n then T u <| prev_copy := p |> else T u).
Proof.
  intros HT Ht kill. unfold reset_temp. destruct (is_copy (T t)) eqn:Ec; [right|by left].
  destruct (neighbours T t HT Ht Ec) as (p & n & Ep & En & Hp & Hn & Cp & Cn & Np & Pn & Tn & Tp).
  rewrite Ep, En. destruct (Z.eqb_spec p n) as [->|Hne]; [left|right].
  - exists n. split_and!; [done..|]. intros u. unfold upd. eqbs; done.
  - assert (n <> t) by congruence. assert (p <> t) by congruence.
    rewrite (upd_other T n _ t), Ep, En by done.
    exists p, n. split_and!; [done..|]. intros u. unfold upd. eqbs; done.
Qed.

(** What [reset_temp] does to the members that matter. *)
Lemma reset_temp_fields T t u :
  wf T -> valid t ->
  (u <> t -> mask (reset_temp T t u) = mask (T u)) /\ mask (reset_temp T t t) = ones64 /\
  val (reset_temp T t u) = val (T u) /\ state (reset_temp T t t) = TCG_TEMP_UNDEF /\
  (is_const (reset_temp T t u) = true -> u <> t /\ is_const (T u) = true) /\
  (u <> t -> is_const (T u) = true -> is_const (reset_temp T t u) = true).
Proof.
  intros HT Ht. destruct (reset_temp_cases T t HT Ht) as [[Hc H]|[(n & Hc & Hp & Hn & H)|(p & n & Hc & Hp & Hn & N1 & N2 & N3 & H)]];
    rewrite !H, Z.eqb_refl; eqbs; try done; split_and!; cbn; try done; intros; try done.
  destruct (neighbours T t HT Ht Hc) as (p & n & Ep & En & _ & _ & _ & Cn & _).
  rewrite En in *. by apply is_copy_const in Cn; congruence.
Qed.

Lemma reset_temp_wf T t : wf T -> valid t -> wf (reset_temp T t).
Proof.
  intros HT Ht. pose proof (fun u => reset_temp_fields T t u HT Ht) as Hf.
  assert (forall u, valid u -> is_copy (reset_temp T t u) = true ->
    exists p n, prev_copy (reset_temp T t u) = p /\ next_copy (reset_temp T t u) = n /\ valid p /\ valid n /\
    is_copy (reset_temp T t p) = true /\ is_copy (reset_temp T t n) = true /\
    next_copy (reset_temp T t p) = u /\ prev_copy (reset_temp T t n) = u /\ type s n = type s u) as Hn.
  { intros u Hu. destruct (reset_temp_cases T t HT Ht) as [[Hc H]|[(n & Hc & Hp & Hn & H)|(p & n & Hc & Hp & Hn & N1 & N2 & N3 & H)]].
    - rewrite !H. destruct (Z.eqb_spec u t); [done|]. intros Hcu.
      destruct (neighbours T u HT Hu Hcu) as (p' & n' & ? & ? & ? & ? & ? & ? & ? & ? & ? & ?).
      exists p', n'. rewrite !H, !(proj2 (Z.eqb_neq _ t)) by congruence. done.
    - destruct (neighbours T t HT Ht Hc) as (? & ? & ? & ? & ? & ? & ? & ? & ? & ? & ? & ?).
      rewrite !H. destruct (Z.eqb_spec u t), (Z.eqb_spec u n); try done. intros Hcu.
      destruct (neighbours T u HT Hu Hcu) as (p' & n' & ? & ? & ? & ? & ? & ? & ? & ? & ? & ?).
      exists p', n'. rewrite !H, !(proj2 (Z.eqb_neq _ _)) by congruence. done.
    - destruct (neighbours T t HT Ht Hc) as (? & ? & ? & ? & ? & ? & ? & ? & ? & ? & ? & ?).
      rewrite !H. destruct (Z.eqb_spec u t); [done|]. intros Hcu'.
      assert (is_copy (T u) = true) as Hcu by (revert Hcu'; eqbs; done).
      destruct (neighbours T u HT Hu Hcu) as (p' & n' & ? & ? & ? & ? & ? & ? & ? & ? & ? & ?).
      exists (if u =? n then p else p'), (if u =? p then n else n').
      rewrite !H. eqbs; cbn; split_and!; try done; try congruence. }
  split.
  - intros u Hu Hcu. destruct (Hn u Hu Hcu) as (p & n & Ep & En & ?). rewrite En. tauto.
  - intros u Hu Hcu. destruct (Hn u Hu Hcu) as (p & n & Ep & En & ?). rewrite Ep. tauto.
  - intros u Hu. destruct (Hf u) as (Hm & Hm' & _). destruct (Z.eq_dec u t) as [->|Hne].
    + by rewrite Hm'.
    + rewrite Hm by done. by apply wf_mask.
  - intros u Hu Hcu. destruct (Hf u) as (Hm & _ & -> & _ & Hc & _). destruct (Hc Hcu) as [Hne Hcu'].
    rewrite Hm by done. by apply wf_const.
Qed.

(** *** The facts after an assignment *)

Lemma rset_same r t v : rset r t v t = v.
Proof. unfold rset. by rewrite Z.eqb_refl. Qed.
Lemma rset_other r t v u : u <> t -> rset r t v u = r u.
Proof. intros. unfold rset. by rewrite (proj2 (Z.eqb_neq _ _)). Qed.

(** Nothing is known of a temporary that is assigned. *)
Lemma sound_reset T r t v :
  sound T r -> valid t -> fits 64 v -> sound (reset_temp T t) (rset r t v).
Proof.
  intros [HT Hf Hm Hk Hc] Ht Hv. pose proof (fun u => reset_temp_fields T t u HT Ht) as Hs.
  split; [by apply reset_temp_wf| | | |].
  - intros u. unfold rset. by destruct (u =? t).
  - intros u Hu. destruct (Hs u) as (Hmu & Hmt & _). destruct (Z.eq_dec u t) as [->|].
    + rewrite rset_same, Hmt. by apply within_ones64.
    + rewrite rset_other, Hmu by done. by apply Hm.
  - intros u Hu Hcu. destruct (Hs u) as (_ & _ & -> & _ & Hd & _). destruct (Hd Hcu).
    rewrite rset_other by done. by apply Hk.
  - intros u Hu.
    assert (forall x y z, valid x -> is_copy (T x) = true -> next_copy (T x) = y -> z = type s x ->
              uwrap (bits z) (r y) = uwrap (bits z) (r x)) as Hcp by (intros; subst; by apply Hc).
    destruct (reset_temp_cases T t HT Ht) as [[Ec H]|[(n & Ec & Ep & En & H)|(p & n & Ec & Ep & En & N1 & N2 & N3 & H)]].
    + rewrite !H. destruct (Z.eqb_spec u t); [done|]. intros Hcu.
      destruct (neighbours T u HT Hu Hcu) as (? & ? & ? & ? & ? & ? & ? & ? & ? & ? & ? & ?).
      rewrite !rset_other by congruence. by apply Hc.
    + destruct (neighbours T t HT Ht Ec) as (? & ? & ? & ? & ? & ? & ? & ? & ? & ? & ? & ?).
      rewrite !H. destruct (Z.eqb_spec u t), (Z.eqb_spec u n); try done. intros Hcu.
      destruct (neighbours T u HT Hu Hcu) as (? & ? & ? & ? & ? & ? & ? & ? & ? & ? & ? & ?).
      rewrite !rset_other by congruence. by apply Hc.
    + destruct (neighbours T t HT Ht Ec) as (? & ? & ? & ? & ? & ? & ? & ? & ? & ? & ? & ?).
      rewrite !H. destruct (Z.eqb_spec u t); [done|]. intros Hcu'.
      assert (is_copy (T u) = true) as Hcu by (revert Hcu'; eqbs; done).
      destruct (neighbours T u HT Hu Hcu) as (? & ? & ? & ? & ? & ? & ? & ? & ? & ? & ? & ?).
      assert (uwrap (bits (type s p)) (r n) = uwrap (bits (type s p)) (r p)) as Hpn.
      { transitivity (uwrap (bits (type s p)) (r t)); apply Hcp; congruence. }
      unfold ty. eqbs; cbn; rewrite !rset_other by congruence; done || by apply Hcp.
Qed.

(** A better mask for a temporary that is not a constant. *)
Lemma sound_mask T r t m :
  sound T r -> valid t -> is_const (T t) = false -> fits 64 m -> within (r t) m ->
  sound (upd T t (fun i => i <| mask := m |>)) r.
Proof.
  intros [HT Hf Hm Hk Hc] Ht Hnc Hm64 Hw. set (f := fun i : tcg_temp_info => _).
  assert (forall u, state (upd T t f u) = state (T u) /\ next_copy (upd T t f u) = next_copy (T u) /\
    prev_copy (upd T t f u) = prev_copy (T u) /\ val (upd T t f u) = val (T u)) as Hs
    by (intros u; unfold upd; by destruct (u =? t)).
  assert (forall u, is_copy (upd T t f u) = is_copy (T u)) as Ec.
  { intros u. unfold is_copy. by rewrite (proj1 (Hs u)). }
  assert (forall u, is_const (upd T t f u) = is_const (T u)) as Ek.
  { intros u. unfold is_const. by rewrite (proj1 (Hs u)). }
  split; [split|done|..]; intros u Hu; rewrite ?Ec, ?Ek; destruct (Hs u) as (_ & En & Ep & Ev);
    rewrite ?En, ?Ep, ?Ev.
  - intros Hcu. destruct (wf_next T HT u Hu Hcu) as (? & ? & ? & ?).
    by rewrite (proj1 (proj2 (proj2 (Hs _)))).
  - intros Hcu. destruct (wf_prev T HT u Hu Hcu) as (? & ? & ?).
    by rewrite (proj1 (proj2 (Hs _))).
  - unfold upd. destruct (u =? t); [done|by apply wf_mask].
  - intros Hcu. rewrite upd_other by congruence. by apply wf_const.
  - unfold upd. destruct (Z.eqb_spec u t) as [->|]; [done|by apply Hm].
  - by apply Hk.
  - by apply Hc.
Qed.

(** A temporary that is assigned a constant. *)
Lemma sound_movi T r t v :
  sound T r -> valid t -> fits 64 v ->
  sound (snd (tcg_opt_gen_movi T t v)) (rset r t (uwrap (ty t) v)).
Proof.
  intros Hs Ht Hv. pose proof (sound_reset T r t (uwrap (ty t) v) Hs Ht (uwrap_bits_64 _ _)) as [HT Hf Hm Hk Hc].
  cbn. set (T1 := reset_temp T t) in *. set (f := fun i : tcg_temp_info => _).
  destruct (reset_temp_fields T t t (s_wf _ _ Hs) Ht) as (_ & _ & _ & Hst & _). fold T1 in Hst.
  assert (forall u, is_copy (upd T1 t f u) = is_copy (T1 u)) as Ec.
  { intros u. unfold upd. destruct (Z.eqb_spec u t) as [->|]; [|done]. unfold is_copy. by rewrite Hst. }
  assert (forall u, is_copy (T1 u) = true -> u <> t) as Hne.
  { intros u H ->. unfold is_copy in H. by rewrite Hst in H. }
  split; [split|done|..]; intros u Hu; rewrite ?Ec.
  - intros Hcu. destruct (wf_next T1 HT u Hu Hcu) as (? & ? & ? & ?).
    rewrite (upd_other _ _ _ u) by auto. by rewrite upd_other by auto.
  - intros Hcu. destruct (wf_prev T1 HT u Hu Hcu) as (? & ? & ?).
    rewrite (upd_other _ _ _ u) by auto. by rewrite upd_other by auto.
  - unfold upd. destruct (u =? t); [done|by apply wf_mask].
  - unfold upd. destruct (u =? t); [done|by apply wf_const].
  - unfold upd. destruct (Z.eqb_spec u t) as [->|]; [|by apply Hm].
    rewrite rset_same. apply within_uwrap, ty_pos.
  - unfold upd. destruct (Z.eqb_spec u t) as [->|]; [|by apply Hk].
    rewrite rset_same. intros _. cbn. apply uwrap_idem, ty_pos.
  - intros Hcu. rewrite upd_other by auto. by apply Hc.
Qed.

(** Putting a temporary behind another in its list. *)
Lemma link_cases T dst src :
  wf T -> valid src -> dst <> src -> is_copy (T dst) = false -> is_const (T src) = false ->
  let n := if is_copy (T src) then next_copy (T src) else src in
  let T1 := if is_copy (T src) then T
            else upd T src (fun i => i <| state := TCG_TEMP_COPY |> <| next_copy := src |> <| prev_copy := src |>) in
  let T2 := upd T1 dst (fun i => i <| state := TCG_TEMP_COPY |> <| next_copy := next_copy (T1 src) |>
                                   <| prev_copy := src |>) in
  let T3 := upd T2 (next_copy (T2 dst)) (fun i => i <| prev_copy := dst |>) in
  let T4 := upd T3 src (fun i => i <| next_copy := dst |>) in
  n <> dst /\ valid n /\
  forall u, state (T4 u) = (if (u =? dst) || (u =? src) then TCG_TEMP_COPY else state (T u))
    /\ next_copy (T4 u) = (if u =? src then dst else if u =? dst then n else next_copy (T u))
    /\ prev_copy (T4 u) = (if u =? n then dst else if u =? dst then src else prev_copy (T u))
    /\ val (T4 u) = val (T u) /\ mask (T4 u) = mask (T u).
Proof.
  intros HT Hv Hne Hd Hk n T1 T2 T3 T4. subst n.
  destruct (is_copy (T src)) eqn:Ec.
  - destruct (neighbours T src HT Hv Ec) as (p & n & Ep & En & ? & ? & ? & Cn & ? & ? & ? & ?).
    rewrite En. assert (n <> dst) by congruence. split; [done|]. split; [done|]. intros u.
    subst T4 T3 T2 T1. rewrite upd_same. cbn. rewrite En. unfold upd.
    unfold is_copy in *. destruct (state (T src)) eqn:Es; try done.
    eqbs; cbn; split_and!; done || congruence.
  - split; [done|]. split; [done|]. intros u. subst T4 T3 T2 T1. rewrite upd_same. cbn.
    rewrite upd_same. cbn. unfold upd. eqbs; cbn; split_and!; done || congruence.
Qed.

(** [dst] is linked in behind [src], in front of [n]. *)
Definition linked (T T4 : temps_t) (dst src n : Z) : Prop :=
  forall u, state (T4 u) = (if (u =? dst) || (u =? src) then TCG_TEMP_COPY else state (T u))
    /\ next_copy (T4 u) = (if u =? src then dst else if u =? dst then n else next_copy (T u))
    /\ prev_copy (T4 u) = (if u =? n then dst else if u =? dst then src else prev_copy (T u))
    /\ val (T4 u) = val (T u) /\ mask (T4 u) = mask (T u).

Lemma linked_copy T T4 dst src n u :
  linked T T4 dst src n -> is_copy (T4 u) = (if (u =? dst) || (u =? src) then true else is_copy (T u)).
Proof. intros Hs. unfold is_copy. rewrite (proj1 (Hs u)). by destruct (_ || _). Qed.

Lemma linked_const T T4 dst src n u :
  linked T T4 dst src n -> is_const (T dst) = false -> is_const (T src) = false -> is_const (T4 u) = is_const (T u).
Proof. intros Hs Hd Hk. unfold is_const in *. rewrite (proj1 (Hs u)). eqbs; cbn; done. Qed.

(** What follows [src] before. *)
Lemma linked_next T src n :
  wf T -> valid src -> n = (if is_copy (T src) then next_copy (T src) else src) ->
  type s n = type s src /\
  (n <> src -> is_copy (T n) = true /\ prev_copy (T n) = src /\ is_copy (T src) = true /\ next_copy (T src) = n).
Proof.
  intros HT Hv ->. destruct (is_copy (T src)) eqn:Ec; [|naive_solver].
  destruct (neighbours T src HT Hv Ec) as (? & ? & ? & ? & ? & ? & ? & ? & ? & ? & ? & ?).
  split; [congruence|naive_solver congruence].
Qed.

(** The other copies keep away from the new link. *)
Lemma linked_away T dst src n u :
  wf T -> valid src -> is_copy (T dst) = false -> n = (if is_copy (T src) then next_copy (T src) else src) ->
  valid u -> is_copy (T u) = true -> u <> dst -> u <> src ->
  next_copy (T u) <> dst /\ next_copy (T u) <> n /\ prev_copy (T u) <> dst.
Proof.
  intros HT Hv Ncd En Hu Hcu H1 H2. pose proof (proj2 (linked_next T src n HT Hv En)) as Hns.
  destruct (neighbours T u HT Hu Hcu) as (p' & n' & -> & -> & ? & ? & ? & ? & ? & ? & ? & ?).
  split; [congruence|]. split; [|congruence]. intros ->. destruct (decide (n = src)) as [E|E]; [|naive_solver congruence].
  subst n. destruct (is_copy (T src)) eqn:Ecs; [|congruence].
  destruct (neighbours T src HT Hv Ecs) as (? & ? & ? & ? & ? & ? & ? & ? & ? & ? & ? & ?). congruence.
Qed.

Lemma wf_link T T4 dst src n :
  wf T -> valid dst -> valid src -> dst <> src -> n <> dst -> valid n ->
  is_copy (T dst) = false -> is_const (T dst) = false -> is_const (T src) = false -> type s src = type s dst ->
  n = (if is_copy (T src) then next_copy (T src) else src) -> linked T T4 dst src n -> wf T4.
Proof.
  intros HT Hd Hv Hne Hn1 Hn2 Ncd Nkd Nks Hty Edef Hs.
  pose proof (linked_next T src n HT Hv Edef) as [Htn Hns].
  pose proof (fun u => linked_away T dst src n u HT Hv Ncd Edef) as Hout.
  pose proof (fun u => linked_copy T T4 dst src n u Hs) as Ec.
  assert (forall u, next_copy (T4 u) = (if u =? src then dst else if u =? dst then n else next_copy (T u))) as En
    by (intros u; by destruct (Hs u) as (_ & ? & _)).
  assert (forall u, prev_copy (T4 u) = (if u =? n then dst else if u =? dst then src else prev_copy (T u))) as Ep
    by (intros u; by destruct (Hs u) as (_ & _ & ? & _)).
  assert (forall u, is_copy (T u) = true -> is_copy (T4 u) = true) as Hcc
    by (intros u Hcu; rewrite Ec; by destruct (_ || _)).
  assert (is_copy (T4 n) = true) as Hcn.
  { rewrite Ec. destruct (Z.eqb_spec n src); [by rewrite orb_true_r|]. destruct (n =? dst); naive_solver. }
  split.
  - intros u Hu. rewrite Ec, En. destruct (Z.eqb_spec u src) as [->|H1].
    + intros _. rewrite Ec, Ep, !Z.eqb_refl, (proj2 (Z.eqb_neq dst n)) by done. done.
    + destruct (Z.eqb_spec u dst) as [->|H2]; cbn [orb].
      * intros _. rewrite Ep, Z.eqb_refl. split; [done|]. split; [done|]. split; [done|congruence].
      * intros Hcu. destruct (Hout u Hu Hcu H2 H1) as (? & ? & _).
        destruct (wf_next T HT u Hu Hcu) as (? & ? & ? & ?).
        rewrite Ep, !(proj2 (Z.eqb_neq _ _)) by done. auto.
  - intros u Hu. rewrite Ec, Ep. destruct (Z.eqb_spec u n) as [->|H1].
    + intros _. rewrite Ec, En, !Z.eqb_refl, (proj2 (Z.eqb_neq dst src)) by done. done.
    + destruct (Z.eqb_spec u dst) as [->|H2]; cbn [orb].
      * intros _. rewrite Ec, En, !Z.eqb_refl, orb_true_r. done.
      * intros Hcu'. assert (is_copy (T u) = true) as Hcu.
        { destruct (Z.eqb_spec u src) as [->|]; [|done]. subst n. destruct (is_copy (T src)) eqn:E; [done|congruence]. }
        destruct (wf_prev T HT u Hu Hcu) as (? & ? & E3).
        assert (prev_copy (T u) <> dst) by congruence.
        assert (prev_copy (T u) <> src).
        { intros E. rewrite E in *. apply H1. subst n. rewrite H0. congruence. }
        rewrite En, !(proj2 (Z.eqb_neq _ _)) by done. auto.
  - intros u Hu. destruct (Hs u) as (_ & _ & _ & _ & ->). by apply wf_mask.
  - intros u Hu. rewrite (linked_const T T4 dst src n u) by done. destruct (Hs u) as (_ & _ & _ & -> & ->). by apply wf_const.
Qed.

Lemma sound_link T r dst src :
  sound T r -> valid dst -> valid src -> dst <> src -> is_copy (T dst) = false ->
  is_const (T dst) = false -> is_const (T src) = false -> type s src = type s dst ->
  uwrap (ty dst) (r dst) = uwrap (ty dst) (r src) ->
  let T1 := if is_copy (T src) then T
            else upd T src (fun i => i <| state := TCG_TEMP_COPY |> <| next_copy := src |> <| prev_copy := src |>) in
  let T2 := upd T1 dst (fun i => i <| state := TCG_TEMP_COPY |> <| next_copy := next_copy (T1 src) |>
                                   <| prev_copy := src |>) in
  let T3 := upd T2 (next_copy (T2 dst)) (fun i => i <| prev_copy := dst |>) in
  sound (upd T3 src (fun i => i <| next_copy := dst |>)) r.
Proof.
  intros [HT Hf Hm Hk Hc] Hd Hv Hne Ncd Nkd Nks Hty Heq T1 T2 T3.
  destruct (link_cases T dst src HT Hv Hne Ncd Nks) as (Hn1 & Hn2 & Hs).
  remember (if is_copy (T src) then next_copy (T src) else src) as n eqn:Edef.
  fold T1 T2 T3 in Hs. set (T4 := upd T3 src (fun i => i <| next_copy := dst |>)) in *.
  fold (linked T T4 dst src n) in Hs.
  assert (uwrap (ty dst) (r n) = uwrap (ty dst) (r src)) as Hrn.
  { subst n. destruct (is_copy (T src)) eqn:Ec; [|done]. unfold ty. rewrite <- Hty. by apply Hc. }
  split; [by apply (wf_link T T4 dst src n)|done|..].
  - intros u Hu. destruct (Hs u) as (_ & _ & _ & _ & ->). by apply Hm.
  - intros u Hu. rewrite (linked_const T T4 dst src n u) by done. destruct (Hs u) as (_ & _ & _ & -> & _). by apply Hk.
  - intros u Hu. rewrite (linked_copy T T4 dst src n u Hs). destruct (Hs u) as (_ & -> & _).
    destruct (Z.eqb_spec u src) as [->|H1].
    + intros _. unfold ty in *. rewrite Hty. congruence.
    + destruct (Z.eqb_spec u dst) as [->|H2]; cbn [orb]; [congruence|]. intros Hcu. by apply Hc.
Qed.

(** A temporary that is assigned another one. *)
Lemma sound_mov T r dst src v :
  sound T r -> valid dst -> valid src -> dst <> src -> fits 64 v -> within v (mask (T src)) ->
  is_const (T src) = false ->
  (type s src = type s dst -> uwrap (ty dst) v = uwrap (ty dst) (r src)) ->
  exists T', tcg_opt_gen_mov s T dst src = Ok ([dst; src], T') /\ sound T' (rset r dst v).
Proof.
  intros Hs Hd Hv Hne Hf Hw Hk Heq. unfold tcg_opt_gen_mov.
  pose proof (sound_reset T r dst v Hs Hd Hf) as Hs1. set (T1 := reset_temp T dst) in *.
  destruct (reset_temp_fields T dst src (s_wf _ _ Hs) Hd) as (Em & _ & _ & Est & Ek & _). fold T1 in Em, Est, Ek.
  destruct (reset_temp_fields T dst dst (s_wf _ _ Hs) Hd) as (_ & _ & _ & _ & Ekd & _). fold T1 in Ekd.
  assert (is_const (T1 dst) = false) as Nkd by (unfold is_const; by rewrite Est).
  pose proof (sound_mask T1 _ dst (mask (T1 src)) Hs1 Hd Nkd (wf_mask _ (s_wf _ _ Hs1) src Hv)) as Hs2.
  rewrite rset_same, (Em (not_eq_sym Hne)) in Hs2. specialize (Hs2 Hw).
  set (f := fun i : tcg_temp_info => i <| mask := mask (T1 src) |>).
  rewrite <- (Em (not_eq_sym Hne)) in Hs2. fold f in Hs2. set (T2 := upd T1 dst f) in *.
  assert (T2 src = T1 src) as E2 by (by apply upd_other; congruence).
  assert (is_const (T2 src) = false) as Nks.
  { rewrite E2. destruct (is_const (T1 src)) eqn:E; [|done]. destruct (Ek eq_refl). congruence. }
  rewrite Nks. assert (state (T2 dst) = TCG_TEMP_UNDEF) as Es2 by (subst T2; by rewrite upd_same).
  destruct (decide (type s src = type s dst)) as [Hty|]; [|eauto].
  eexists. split; [done|].
  apply sound_link; try done; try (unfold is_copy, is_const; by rewrite Es2).
  rewrite rset_same, rset_other by congruence. by apply Heq.
Qed.

(** *** Walking a list of copies *)

(** [k] steps from a temporary. *)
Definition walk (T : temps_t) (k : nat) (t : Z) : Z := Nat.iter k (fun i => next_copy (T i)) t.

Lemma walk_S T k t : walk T (S k) t = walk T k (next_copy (T t)).
Proof. unfold walk. induction k as [|k IH]; [done|]. cbn in *. by rewrite IH. Qed.

Lemma walk_ring T t k :
  wf T -> valid t -> is_copy (T t) = true -> valid (walk T k t) /\ is_copy (T (walk T k t)) = true.
Proof.
  intros HT Ht Hc. induction k as [|k [IH1 IH2]]; [done|].
  destruct (wf_next T HT _ IH1 IH2) as (? & ? & _). done.
Qed.

Lemma walk_inj T t i j :
  wf T -> valid t -> is_copy (T t) = true -> (i <= j)%nat -> walk T i t = walk T j t -> walk T (j - i) t = t.
Proof.
  intros HT Ht Hc. revert j. induction i as [|i IH]; intros j Hij E; [by rewrite Nat.sub_0_r|].
  destruct j as [|j]; [lia|]. apply IH; [lia|].
  destruct (walk_ring T t i HT Ht Hc) as [V1 C1], (walk_ring T t j HT Ht Hc) as [V2 C2].
  destruct (wf_next T HT _ V1 C1) as (_ & _ & P1 & _), (wf_next T HT _ V2 C2) as (_ & _ & P2 & _).
  change (next_copy (T (walk T i t)) = next_copy (T (walk T j t))) in E. rewrite E in P1. congruence.
Qed.

(** After at most [nb_temps] steps the walk is back. *)
Lemma walk_returns T t :
  wf T -> valid t -> is_copy (T t) = true ->
  exists k, (k < ring_fuel s)%nat /\ walk T (S k) t = t.
Proof.
  intros HT Ht Hc. unfold ring_fuel. set (n := Z.to_nat (nb_temps s)).
  destruct (decide (Exists (fun j => Exists (fun i => walk T i t = walk T j t) (seq 0 j)) (seq 0 (S n)))) as [He|Hno].
  - apply Exists_exists in He as (j & Hj%elem_of_seq & He). apply Exists_exists in He as (i & Hi%elem_of_seq & E).
    apply walk_inj in E; [|done..|lia]. exists (j - i - 1)%nat. split; [lia|].
    by replace (S (j - i - 1)) with (j - i)%nat by lia.
  - exfalso. assert (forall i j, (i < j < S n)%nat -> walk T i t <> walk T j t) as Hd.
    { intros i j Hij E. apply Hno, Exists_exists. exists j. split; [apply elem_of_seq; lia|].
      apply Exists_exists. exists i. split; [apply elem_of_seq; lia|done]. }
    set (l := map (fun i => walk T i t) (seq 0 (S n))). assert (List.NoDup l) as Hnd.
    { apply Finite.Injective_map_NoDup_in; [|apply seq_NoDup].
      intros a b Ha%in_seq Hb%in_seq E. destruct (Nat.lt_total a b) as [|[|]]; [|done|];
        exfalso; [apply (Hd a b)|apply (Hd b a)]; done || lia. }
    assert (length l <= length (seqZ 0 (nb_temps s)))%nat as Hlen.
    { apply NoDup_incl_length; [done|]. intros x Hx.
      apply list_elem_of_In, elem_of_seqZ. apply in_map_iff in Hx as (i & <- & _).
      destruct (walk_ring T t i HT Ht Hc) as [[? ?] _]. lia. }
    subst l. rewrite length_map, length_seq, length_seqZ in Hlen. subst n. lia.
Qed.

Lemma find_copy_walk T p t i m :
  wf T -> valid t -> is_copy (T t) = true -> walk T m i = t ->
  forall fuel, (m <= fuel)%nat ->
  (exists k, (k < m)%nat /\ p (walk T k i) = true /\ find_copy fuel T p t i = Ok (Some (walk T k i)) /\ walk T k i <> t) \/
  find_copy fuel T p t i = Ok None.
Proof.
  intros HT Ht Hc. revert i. induction m as [|m IH]; intros i Hw fuel Hf.
  - right. cbn in Hw. subst i. by destruct fuel; cbn; rewrite Z.eqb_refl.
  - assert (find_copy fuel T p t i = if i =? t then Ok None else if p i then Ok (Some i)
      else match fuel with O => Fault FuelExhausted | S fuel => find_copy fuel T p t (next_copy (T i)) end) as ->
      by (by destruct fuel).
    destruct (Z.eqb_spec i t); [by right|]. destruct (p i) eqn:Ep.
    + left. exists O. split; [lia|]. done.
    + destruct fuel as [|fuel]; [lia|]. rewrite walk_S in Hw.
      destruct (IH _ Hw fuel ltac:(lia)) as [(k & Hk & H1 & H2 & H3)|H]; [left|by right].
      exists (S k). rewrite walk_S. split; [lia|done].
Qed.

(** The search in a list ends and finds only copies of the temporary. *)
Lemma find_copy_total T p t :
  wf T -> valid t -> is_copy (T t) = true ->
  (exists k, p (walk T k t) = true /\ find_copy (ring_fuel s) T p t (next_copy (T t)) = Ok (Some (walk T k t))) \/
  find_copy (ring_fuel s) T p t (next_copy (T t)) = Ok None.
Proof.
  intros HT Ht Hc. destruct (walk_returns T t HT Ht Hc) as (m & Hm & Hw). rewrite walk_S in Hw.
  destruct (find_copy_walk T p t (next_copy (T t)) m HT Ht Hc Hw (ring_fuel s) ltac:(lia)) as [(k & _ & H1 & H2 & _)|]; [left|by right].
  exists (S k). by rewrite walk_S.
Qed.

(** What a list of copies says of the registers. *)
Lemma walk_sound T r t k :
  sound T r -> valid t -> is_copy (T t) = true ->
  valid (walk T k t) /\ type s (walk T k t) = type s t /\ uwrap (ty t) (r (walk T k t)) = uwrap (ty t) (r t).
Proof.
  intros Hs Ht Hc. induction k as [|k (IH1 & IH2 & IH3)]; [done|].
  destruct (walk_ring T t k (s_wf _ _ Hs) Ht Hc) as [_ C].
  destruct (wf_next T (s_wf _ _ Hs) _ IH1 C) as (V & _ & _ & Ety).
  change (walk T (S k) t) with (next_copy (T (walk T k t))).
  split; [done|]. split; [congruence|]. rewrite <- IH3. pose proof (s_copy T r Hs _ IH1 C) as E.
  unfold ty in *. by rewrite IH2 in E.
Qed.

Lemma find_better_copy_sound T r t :
  sound T r -> valid t -> is_copy (T t) = true ->
  exists c, find_better_copy s T t = Ok c /\ valid c /\ type s c = type s t /\
    uwrap (ty t) (r t) = uwrap (ty t) (r c) /\ is_copy (T c) = true.
Proof.
  intros Hs Ht Hc. unfold find_better_copy. destruct (t <? nb_globals s); [eauto 6|].
  assert (forall k, valid (walk T k t) /\ type s (walk T k t) = type s t /\
    uwrap (ty t) (r t) = uwrap (ty t) (r (walk T k t)) /\ is_copy (T (walk T k t)) = true) as Hw.
  { intros k. destruct (walk_sound T r t k Hs Ht Hc) as (? & ? & ?).
    destruct (walk_ring T t k (s_wf _ _ Hs) Ht Hc). done. }
  destruct (find_copy_total T (fun i => i <? nb_globals s) t (s_wf _ _ Hs) Ht Hc) as [(k & _ & ->)| ->]; cbn; [eauto|].
  destruct (temp_local s t); cbn; [eauto 6|].
  destruct (find_copy_total T (temp_local s) t (s_wf _ _ Hs) Ht Hc) as [(k & _ & ->)| ->]; cbn; eauto 6.
Qed.

Lemma temps_are_copies_sound T r a b :
  sound T r -> valid a -> valid b ->
  exists e, temps_are_copies s T a b = Ok e /\
    (e = true -> type s a = type s b /\ uwrap (ty a) (r a) = uwrap (ty a) (r b)) /\
    (a = b -> e = true) /\ (e = true -> a <> b -> is_const (T a) = false /\ is_const (T b) = false).
Proof.
  intros Hs Ha Hb. unfold temps_are_copies. destruct (Z.eqb_spec a b) as [->|Hne]; [by exists true|].
  destruct (is_copy (T a)) eqn:Ca; cbn; [|by exists false]. destruct (is_copy (T b)) eqn:Cb; cbn; [|by exists false].
  destruct (find_copy_total T (fun i => i =? b) a (s_wf _ _ Hs) Ha Ca) as [(k & Hk & ->)| ->]; cbn; [|by exists false].
  apply Z.eqb_eq in Hk. destruct (walk_sound T r a k Hs Ha Ca) as (_ & ? & ?). rewrite Hk in *.
  exists true. split; [done|]. split; [done|]. split; [done|]. intros _ _. split; by apply is_copy_const.
Qed.

(** *** Forgetting everything *)
Lemma sound_reset_all T r : (forall t, fits 64 (r t)) -> sound (reset_all_temps (nb_temps s) T) r.
Proof.
  intros Hf. assert (forall t, valid t -> state (reset_all_temps (nb_temps s) T t) = TCG_TEMP_UNDEF /\
    mask (reset_all_temps (nb_temps s) T t) = ones64) as Hr.
  { intros t Ht. unfold reset_all_temps, valid in *. case_cond; [done|lia]. }
  split; [split|done|..]; intros t Ht; destruct (Hr t Ht) as [E1 E2]; unfold is_copy, is_const; rewrite ?E1, ?E2; try done.
  by apply within_ones64.
Qed.

(** Forgetting one temporary without assigning it. *)
Lemma sound_forget T r t : sound T r -> valid t -> sound (reset_temp T t) r.
Proof.
  intros Hs Ht. pose proof (sound_reset T r t (r t) Hs Ht (s_fits _ _ Hs t)) as H.
  assert (forall u, rset r t (r t) u = r u) as Er
    by (intros u; unfold rset; by destruct (Z.eqb_spec u t); [subst|]).
  destruct H as [H1 H2 H3 H4 H5]. split; [done|apply Hs|..]; intros u Hu.
  - rewrite <- Er. by apply H3.
  - rewrite <- Er. by apply H4.
  - rewrite <- (Er u), <- (Er (next_copy _)). by apply H5.
Qed.
(** *** The whole list is searched *)

Lemma walk_add T i j t : walk T (i + j) t = walk T i (walk T j t).
Proof. unfold walk. by rewrite Nat.iter_add. Qed.

Lemma walk_period T t n k : walk T n t = t -> (n <> 0)%nat -> walk T k t = walk T (k mod n) t.
Proof.
  intros Hw Hn. assert (forall q, walk T (q * n) t = t) as Hq.
  { induction q as [|q IH]; [done|]. change (S q * n)%nat with (n + q * n)%nat. by rewrite walk_add, IH. }
  rewrite (Nat.div_mod_eq k n) at 1. by rewrite Nat.add_comm, walk_add, Nat.mul_comm, Hq.
Qed.

Lemma find_copy_none T p t i m fuel :
  walk T m i = t -> (m <= fuel)%nat -> find_copy fuel T p t i = Ok None ->
  (exists k, (k <= m)%nat /\ walk T k i = t /\ forall j, (j < k)%nat -> p (walk T j i) = false).
Proof.
  revert i fuel. induction m as [|m IH]; intros i fuel Hw Hf H.
  - exists O. split; [done|]. split; [done|lia].
  - assert (find_copy fuel T p t i = if i =? t then Ok None else if p i then Ok (Some i)
      else match fuel with O => Fault FuelExhausted | S fuel => find_copy fuel T p t (next_copy (T i)) end) as E
      by (by destruct fuel).
    rewrite E in H. destruct (Z.eqb_spec i t) as [->|]; [exists O; split; [lia|]; split; [done|lia]|].
    destruct (p i) eqn:Ep; [done|]. destruct fuel as [|fuel]; [done|]. rewrite walk_S in Hw.
    destruct (IH _ fuel Hw ltac:(lia) H) as (k & Hk & Hwk & Hj). exists (S k). rewrite walk_S.
    split; [lia|]. split; [done|]. intros [|j] Hlt; [done|]. rewrite walk_S. apply Hj. lia.
Qed.

(** The search misses no copy. *)
Lemma find_copy_complete T p t :
  wf T -> valid t -> is_copy (T t) = true ->
  find_copy (ring_fuel s) T p t (next_copy (T t)) = Ok None -> forall k, walk T k t <> t -> p (walk T k t) = false.
Proof.
  intros HT Ht Hc Hn k Hne. destruct (walk_returns T t HT Ht Hc) as (n & Hlt & Hw). rewrite walk_S in Hw.
  destruct (find_copy_none T p t _ n (ring_fuel s) Hw ltac:(lia) Hn) as (m & Hm & Hwm & Hj).
  assert (walk T (S m) t = t) as Hp by (by rewrite walk_S).
  rewrite (walk_period T t (S m) k Hp) in * by done.
  pose proof (Nat.mod_upper_bound k (S m) ltac:(done)) as Hb. destruct (k mod S m)%nat as [|j]; [done|].
  rewrite walk_S. apply Hj. lia.
Qed.

(** Looking for a better copy ends, whatever the lists, after at most one
    turn of the circular list: the temporary found is valid, of the same type
    and on the list of the one given; a global stands for itself; otherwise a
    global on the list is found if there is one, then a local temporary, and
    the temporary given only when the list holds neither. *)
Theorem find_better_copy_best (T : temps_t) (t : Z) :
  wf T -> valid t -> is_copy (T t) = true ->
  exists c k, find_better_copy s T t = Ok c /\ c = walk T k t /\ valid c /\ type s c = type s t /\
    (t < nb_globals s -> c = t) /\
    (forall j, walk T j t < nb_globals s -> c < nb_globals s) /\
    (forall j, temp_local s (walk T j t) = true -> c < nb_globals s \/ temp_local s c = true).
Proof.
  intros HT Ht Hc. assert (forall k, valid (walk T k t) /\ type s (walk T k t) = type s t) as Hw.
  { induction k as [|k [V Y]]; [done|]. destruct (walk_ring T t k HT Ht Hc) as [_ C].
    destruct (wf_next T HT _ V C) as (? & _ & _ & E).
    change (walk T (S k) t) with (next_copy (T (walk T k t))). split; [done|congruence]. }
  unfold find_better_copy. destruct (Z.ltb_spec t (nb_globals s)) as [Hg|Hng].
  { exists t, O. split; [done|]. split; [done|]. split; [done|]. split; [done|]. auto. }
  destruct (find_copy_total T (fun i => i <? nb_globals s) t HT Ht Hc) as [(k & Hk & ->)| En]; cbn.
  { apply Z.ltb_lt in Hk. exists (walk T k t), k. destruct (Hw k). split; [done|]. split; [done|].
    split; [done|]. split; [done|]. split; [lia|]. auto. }
  assert (forall j, ~ walk T j t < nb_globals s) as Hno.
  { intros j Hj. destruct (decide (walk T j t = t)) as [E|E]; [rewrite E in Hj; lia|].
    pose proof (find_copy_complete T _ t HT Ht Hc En j E) as H. apply Z.ltb_ge in H. lia. }
  rewrite En. cbn. destruct (temp_local s t) eqn:El; cbn.
  { exists t, O. split; [done|]. split; [done|]. split; [done|]. split; [done|]. split; [done|].
    split; [intros j Hj; by destruct (Hno j)|auto]. }
  destruct (find_copy_total T (temp_local s) t HT Ht Hc) as [(k & Hk & ->)| Enl]; cbn.
  - exists (walk T k t), k. destruct (Hw k). split; [done|]. split; [done|]. split; [done|]. split; [done|].
    split; [lia|]. split; [intros j Hj; by destruct (Hno j)|auto].
  - rewrite Enl. exists t, O. split; [done|]. split; [done|]. split; [done|]. split; [done|]. split; [done|].
    split; [intros j Hj; by destruct (Hno j)|]. intros j Hj.
    destruct (decide (walk T j t = t)) as [E|E]; [rewrite E in Hj; congruence|].
    rewrite (find_copy_complete T _ t HT Ht Hc Enl j E) in Hj. done.
Qed.

End ring.
(** 3 was copied from 2 and 2 from the global 0. *)
Definition ring_ctx : TCGContext := mkContext 1 4 (fun _ => W64) (fun t => t =? 2).
Definition ring_temps : temps_t := fun t =>
  if t =? 0 then mkInfo TCG_TEMP_COPY 2 3 0 ones64
  else if t =? 3 then mkInfo TCG_TEMP_COPY 0 2 0 ones64
  else if t =? 2 then mkInfo TCG_TEMP_COPY 3 0 0 ones64
  else mkInfo TCG_TEMP_UNDEF 0 0 0 ones64.

Lemma find_better_copy_best_witness :
  find_better_copy ring_ctx ring_temps 3 = Ok 0 /\
  exists c k, find_better_copy ring_ctx ring_temps 3 = Ok c /\ c = walk ring_temps k 3 /\
    valid ring_ctx c /\ type ring_ctx c = type ring_ctx 3 /\
    (3 < nb_globals ring_ctx -> c = 3) /\
    (forall j, walk ring_temps j 3 < nb_globals ring_ctx -> c < nb_globals ring_ctx) /\
    (forall j, temp_local ring_ctx (walk ring_temps j 3) = true ->
       c < nb_globals ring_ctx \/ temp_local ring_ctx c = true).
Proof.
  split; [by vm_compute|]. apply find_better_copy_best; [|by split|done].
  assert (forall t, valid ring_ctx t -> t = 0 \/ t = 1 \/ t = 2 \/ t = 3) as Hv
    by (unfold valid; cbn; intros; lia).
  split; intros t Ht; destruct (Hv t Ht) as [-> | [-> | [-> | ->]]]; cbn; try done;
    intros _; (split; [by split|]); done.
Defined.

End TcgRing.
