(* ===== verification/TcgArith.v ===== *)
(** The arithmetic behind the optimiser: constant folding computes what the
    operations are specified to compute, the simplifications are identities of
    the operations, and the masks of known-zero bits are right. *)
From Stdlib Require Import ZArith Lia Bool Btauto.
From stdpp Require Import base numbers list.
From S2P Require Import Prelude HostUtils TcgOp TcgOpt TcgRing.
Local Open Scope Z_scope.

Module TcgArith.
Import HostUtils.HostUtils Tcg TcgOpt TcgRing.

(** *** Values of a width *)

Lemma uwrap_min w v x : 0 <= w <= v -> uwrap w (uwrap v x) = uwrap w x.
Proof.
  intros Hw. apply Z.bits_inj'. intros i Hi. rewrite !uwrap_spec by lia.
  destruct (Z.ltb_spec i w), (Z.ltb_spec i v); done || lia.
Qed.

Lemma uwrap_64 w x : uwrap (bits w) (u64 x) = uwrap (bits w) x.
Proof. apply uwrap_min. pose proof (bits_pos w). lia. Qed.

Lemma swrap_64 w x : swrap (bits w) (u64 x) = swrap (bits w) x.
Proof. rewrite <- swrap_uwrap, uwrap_64, swrap_uwrap by (destruct w; cbn; lia). done. Qed.

Lemma uwrap_add w x y : uwrap w (uwrap w x + uwrap w y) = uwrap w (x + y).
Proof. unfold uwrap. by rewrite <- Zplus_mod. Qed.
Lemma uwrap_sub w x y : uwrap w (uwrap w x - uwrap w y) = uwrap w (x - y).
Proof. unfold uwrap. by rewrite <- Zminus_mod. Qed.
Lemma uwrap_mul w x y : uwrap w (uwrap w x * uwrap w y) = uwrap w (x * y).
Proof. unfold uwrap. by rewrite <- Zmult_mod. Qed.

(** Bit by bit, with the widths compared. *)
Ltac bitcases :=
  apply Z.bits_inj'; let i := fresh "i" in let Hi := fresh "Hi" in
  intros i Hi; autorewrite with bits;
  repeat match goal with
  | |- context [?a <? ?b] => destruct (Z.ltb_spec a b); try lia
  end; try btauto.

Lemma land_mask32 x : Z.land x 0xffffffff = u32 x.
Proof. change 0xffffffff with (Z.ones 32). by rewrite Z.land_ones by lia. Qed.

(** *** Results fit *)

Lemma swrap_bits_range w x : - 2 ^ (bits w - 1) <= swrap (bits w) x < 2 ^ (bits w - 1).
Proof. apply swrap_range. destruct w; cbn; lia. Qed.

Lemma fits_lxor w x y : 0 <= w -> fits w x -> fits w y -> fits w (Z.lxor x y).
Proof.
  intros Hw Hx Hy. apply fits_of_bits; [done| |].
  - apply Z.lxor_nonneg. unfold fits in *. lia.
  - intros i Hi. rewrite Z.lxor_spec, !(fits_testbit w) by (done || lia). done.
Qed.

Lemma bin_sem_fits b w x y v :
  fits (bits w) x -> fits (bits w) y -> bin_sem b (bits w) x y = Some v -> fits (bits w) v.
Proof.
  intros Hx Hy. pose proof (bits_pos w) as Hw.
  assert (forall z, fits (bits w) (uwrap (bits w) z)) as Hu by (intros; apply uwrap_fits; lia).
  destruct b; cbn; repeat case_match; try done; intros [= <-]; auto with words.
  - unfold fits in *. split; [apply Z.div_pos; lia|]. apply Z.div_lt_upper_bound; nia.
  - unfold fits in *. pose proof (Z.mod_pos_bound x y). lia.
  - apply fits_lxor; done || lia.
  - apply fits_shiftr; [done|]. apply Hy.
  - apply fits_lor; [lia|done|]. apply fits_shiftr; [done|]. lia.
  - apply fits_lor; [lia| |done]. apply fits_shiftr; [done|]. apply Hy.
  - unfold fits in *. split; [apply Z.div_pos; nia|]. apply Z.div_lt_upper_bound; nia.
Qed.

(** *** Folding two constants *)

(** The opcodes whose entry in the table lacks the 64-bit flag. *)
Definition misflagged (op : TCGOpcode) : bool :=
  match op with op_bin (Bmuluh | Bmulsh) W64 => true | _ => false end.

Lemma shl_in w x n : 0 <= n < w -> shl w x n = uwrap w (Z.shiftl x n).
Proof. intros. unfold shl. by rewrite Z.mod_small. Qed.
Lemma shr_in w x n : 0 <= n < w -> shr w x n = Z.shiftr x n.
Proof. intros. unfold shr. by rewrite Z.mod_small. Qed.

Lemma rol_sem w x y : 0 < w -> fits w x -> 0 <= y < w ->
  rol w x y = Z.lor (uwrap w (Z.shiftl x y)) (Z.shiftr x (w - y)).
Proof.
  intros Hw Hx Hy. unfold rol. rewrite shl_in by done. destruct (Z.eq_dec y 0) as [->|].
  - unfold shr. rewrite (Z.sub_0_r w), Z.mod_same, Z.shiftl_0_r, Z.shiftr_0_r, (uwrap_id w x) by (done || lia).
    rewrite Z.lor_diag, Z.shiftr_div_pow2, Z.div_small, Z.lor_0_r by (unfold fits in Hx; lia). done.
  - by rewrite shr_in by lia.
Qed.

Lemma ror_sem w x y : 0 < w -> fits w x -> 0 <= y < w ->
  ror w x y = Z.lor (Z.shiftr x y) (uwrap w (Z.shiftl x (w - y))).
Proof.
  intros Hw Hx Hy. unfold ror. rewrite shr_in by done. destruct (Z.eq_dec y 0) as [->|].
  - unfold shl. rewrite (Z.sub_0_r w), Z.mod_same, Z.shiftl_0_r, Z.shiftr_0_r, (uwrap_id w x) by (done || lia).
    rewrite Z.lor_diag, Z.shiftl_mul_pow2 by lia. unfold uwrap. by rewrite Z.mod_mul, Z.lor_0_r by lia.
  - by rewrite shl_in by lia.
Qed.

Lemma swrap_small w y : 1 < w -> 0 <= y < w -> swrap w y = y.
Proof.
  intros Hw Hy. apply swrap_id; [lia|]. assert (w <= 2 ^ (w - 1)); [|pose proof (pow2_pos (w - 1)); lia].
  pose proof (Z.pow_gt_lin_r 2 (w - 1)). lia.
Qed.

(** The count of a 32-bit shift. *)
Lemma count32 y : u32 y < 32 -> s32 y = u32 y /\ 0 <= u32 y < 32.
Proof.
  intros H. pose proof (uwrap_range 32 y ltac:(lia)). split; [|lia].
  rewrite <- swrap_uwrap by lia. apply swrap_small; lia.
Qed.

Lemma fold_shift b w x y v :
  b = Bshl \/ b = Bshr \/ b = Bsar \/ b = Brotl \/ b = Brotr -> fits 64 x -> fits 64 y ->
  bin_sem b (bits w) (uwrap (bits w) x) (uwrap (bits w) y) = Some v ->
  exists r, do_constant_folding_bin b w x y = Ok r /\ uwrap (bits w) r = v.
Proof.
  intros Hb Hx Hy. unfold fits in Hy. pose proof (uwrap_range 32 x ltac:(lia)) as Hx32.
  destruct w; cbn [bits].
  - destruct Hb as [-> | [-> | [-> | [-> | ->]]]]; cbn [bin_sem do_constant_folding_bin];
      destruct (Z.ltb_spec (u32 y) 32) as [Hlt|]; try done; intros [= <-];
      destruct (count32 y Hlt) as [Es Hc]; eexists; (split; [done|]).
    + rewrite shl_in by done. by rewrite uwrap_idem by lia.
    + rewrite shr_in by done. apply uwrap_id, fits_shiftr; [done|lia].
    + rewrite Es, shr_in, swrap_uwrap by (done || lia). apply uwrap_min. lia.
    + unfold rol32. rewrite rol_sem by (done || lia). apply uwrap_id, fits_lor; [lia|by apply uwrap_fits|].
      apply fits_shiftr; [done|lia].
    + unfold ror32. rewrite ror_sem by (done || lia). apply uwrap_id, fits_lor; [lia| |by apply uwrap_fits].
      apply fits_shiftr; [done|lia].
  - rewrite !(uwrap_id 64) by done.
    destruct Hb as [-> | [-> | [-> | [-> | ->]]]]; cbn [bin_sem do_constant_folding_bin];
      destruct (Z.ltb_spec y 64) as [Hlt|]; try done; intros [= <-]; eexists; (split; [done|]).
    + rewrite shl_in by lia. by rewrite uwrap_idem by lia.
    + rewrite shr_in by lia. apply uwrap_id, fits_shiftr; [done|lia].
    + rewrite (swrap_small 64 y), shr_in by lia. by rewrite uwrap_idem by lia.
    + unfold rol64. rewrite (uwrap_id 32) by (unfold fits; lia). rewrite rol_sem by (done || lia).
      apply uwrap_id, fits_lor; [lia|by apply uwrap_fits|]. apply fits_shiftr; [done|lia].
    + unfold ror64. rewrite (uwrap_id 32) by (unfold fits; lia). rewrite ror_sem by (done || lia).
      apply uwrap_id, fits_lor; [lia| |by apply uwrap_fits]. apply fits_shiftr; [done|lia].
Qed.

(** The divisions of folding, whose divisor is never zero. *)
Ltac guarded := unfold c_quot, c_rem, c_div, c_mod; rewrite ?c_signed_guarded, ?c_unsigned_guarded; cbn [obind].

Lemma fold_div b w x y v :
  b = Bdiv \/ b = Bdivu \/ b = Brem \/ b = Bremu ->
  bin_sem b (bits w) (uwrap (bits w) x) (uwrap (bits w) y) = Some v ->
  exists r, do_constant_folding_bin b w x y = Ok r /\ uwrap (bits w) r = v.
Proof.
  pose proof (bits_pos w) as Hw. pose proof (uwrap_range (bits w) x ltac:(lia)).
  pose proof (uwrap_range (bits w) y ltac:(lia)).
  assert (forall z, bin_sem Bdivu (bits w) (uwrap (bits w) x) (uwrap (bits w) y) = Some z \/
    bin_sem Bremu (bits w) (uwrap (bits w) x) (uwrap (bits w) y) = Some z -> fits (bits w) z) as Hf.
  { intros z [E|E]; [apply (bin_sem_fits Bdivu w _ _ z) in E|apply (bin_sem_fits Bremu w _ _ z) in E]; done. }
  intros [-> | [-> | [-> | ->]]]; cbn [bin_sem do_constant_folding_bin]; guarded; rewrite ?swrap_uwrap by lia.
  - destruct (swrap (bits w) y =? 0) eqn:Ey; cbn [orb]; [done|].
    destruct (_ && _); [done|]. intros [= <-]. eexists. split; [done|]. apply uwrap_64.
  - specialize (Hf v). cbn in Hf. destruct (uwrap (bits w) y =? 0) eqn:Ey; [done|]. intros [= <-].
    eexists. split; [done|]. apply uwrap_id. auto.
  - destruct (swrap (bits w) y =? 0) eqn:Ey; cbn [orb]; [done|].
    destruct (_ && _); [done|]. intros [= <-]. eexists. split; [done|]. apply uwrap_64.
  - specialize (Hf v). cbn in Hf. destruct (uwrap (bits w) y =? 0) eqn:Ey; [done|]. intros [= <-].
    eexists. split; [done|]. apply uwrap_id. auto.
Qed.

Lemma fold_mulh b w x y v :
  b = Bmuluh \/ b = Bmulsh -> fits 64 x -> fits 64 y ->
  bin_sem b (bits w) (uwrap (bits w) x) (uwrap (bits w) y) = Some v ->
  exists r, do_constant_folding_bin b w x y = Ok r /\ uwrap (bits w) r = v.
Proof.
  intros Hb Hx Hy. pose proof (uwrap_range 32 x ltac:(lia)). pose proof (uwrap_range 32 y ltac:(lia)).
  pose proof (swrap_range 32 x ltac:(lia)). pose proof (swrap_range 32 y ltac:(lia)).
  pose proof (swrap_range 64 x ltac:(lia)). pose proof (swrap_range 64 y ltac:(lia)).
  destruct w; cbn [bits]; destruct Hb as [-> | ->]; cbn [bin_sem do_constant_folding_bin]; intros [= <-];
    eexists; (split; [done|]); rewrite ?swrap_uwrap by lia.
  - rewrite (uwrap_id 64), Z.shiftr_div_pow2 by (unfold fits; nia || lia). apply uwrap_id. unfold fits.
    split; [apply Z.div_pos; nia|]. apply Z.div_lt_upper_bound; nia.
  - rewrite (swrap_id 64), Z.shiftr_div_pow2 by (nia || lia). apply uwrap_min. lia.
  - rewrite !(uwrap_id 64 x), !(uwrap_id 64 y) by done. unfold mulu64. rewrite mul64_div by done. cbn.
    apply uwrap_id. unfold fits in *. split; [apply Z.div_pos; nia|]. apply Z.div_lt_upper_bound; nia.
  - rewrite muls64_div by lia. cbn. by rewrite uwrap_idem by lia.
Qed.

(** Constant folding of a binary operation. *)
Lemma fold_bin b w x y v :
  fits 64 x -> fits 64 y ->
  bin_sem b (bits w) (uwrap (bits w) x) (uwrap (bits w) y) = Some v ->
  exists r, do_constant_folding_bin b w x y = Ok r /\ uwrap (bits w) r = v.
Proof.
  intros Hx Hy Hv. pose proof (bits_pos w) as Hw.
  assert (bits w <= 64) by lia.
  destruct b;
    try (apply fold_div; naive_solver); try (apply fold_shift; naive_solver);
    try (apply fold_mulh; naive_solver);
    cbn in Hv; injection Hv as <-; eexists; (split; [done|]); rewrite ?uwrap_64.
  - symmetry. apply uwrap_add.
  - symmetry. apply uwrap_sub.
  - symmetry. apply uwrap_mul.
  - bitcases.
  - bitcases.
  - bitcases.
  - bitcases.
  - bitcases.
  - bitcases.
  - bitcases.
  - bitcases.
Qed.

Lemma Ok_inj {A} (a b : A) : Ok a = Ok b -> a = b.
Proof. by intros [= ->]. Qed.

Lemma fits_div w a b : fits w a -> 0 < b -> fits w (a / b).
Proof. unfold fits. intros. split; [apply Z.div_pos; lia|]. apply Z.div_lt_upper_bound; nia. Qed.

Lemma fits_mod w a b : fits w a -> 0 < b -> fits w (a mod b).
Proof.
  unfold fits. intros. pose proof (Z.mod_pos_bound a b). pose proof (Z.mod_le a b). lia.
Qed.

(** A folded constant fits an argument. *)
Lemma fold_bin_fits b w x y r :
  fits 64 x -> fits 64 y -> do_constant_folding_bin b w x y = Ok r -> fits 64 r.
Proof.
  intros Hx Hy. assert (forall z, fits 64 (u64 z)) as Hu by (intros; apply uwrap_fits; lia).
  assert (forall w z, fits 64 (uwrap (bits w) z)) as Hub by (intros; apply uwrap_bits_64).
  pose proof (Hub W32) as Hu32. cbn [bits] in Hu32.
  assert (forall z, 0 <= z mod 32 /\ 0 <= z mod 64) as Hm.
  { intros z. pose proof (Z.mod_pos_bound z 32). pose proof (Z.mod_pos_bound z 64). lia. }
  assert (forall x n, fits 64 (shl 64 x n)) as Hl by (intros; apply uwrap_fits; lia).
  assert (forall x n, fits 64 (shl 32 x n)) as Hl32 by (intros; apply (fits_bits W32), uwrap_fits; cbn; lia).
  assert (forall x n, fits 64 x -> fits 64 (shr 32 x n) /\ fits 64 (shr 64 x n)) as Hr
    by (intros; split; apply fits_shiftr; done || apply Hm).
  assert (forall x n, fits 64 x -> fits 64 (shr 32 x n)) as Hr32 by (intros; by apply Hr).
  assert (forall x n, fits 64 x -> fits 64 (shr 64 x n)) as Hr64 by (intros; by apply Hr).
  assert (forall b z, 0 < (if uwrap (bits b) z =? 0 then 1 else uwrap (bits b) z)) as Hpos.
  { intros b' z. pose proof (uwrap_range (bits b') z (proj1 (bits_pos b'))).
    destruct (Z.eqb_spec (uwrap (bits b') z) 0); lia. }
  assert (fits 64 (snd (mulu64 x y)) /\ fits 64 (snd (muls64 (s64 x) (s64 y)))) as [Hmu Hms].
  { pose proof (swrap_range 64 x ltac:(lia)). pose proof (swrap_range 64 y ltac:(lia)).
    unfold mulu64. rewrite mul64_div, muls64_div by (done || lia). cbn.
    split; [|apply Hu]. unfold fits in *. split; [apply Z.div_pos; nia|]. apply Z.div_lt_upper_bound; nia. }
  destruct b, w; cbn [do_constant_folding_bin]; guarded; cbv zeta;
    try match goal with |- context [if ?c && ?d then _ else _] => destruct (c && d); [done|] end;
    intros E; apply Ok_inj in E; subst r; unfold rol32, ror32, rol64, ror64, rol, ror;
    repeat match goal with
    | |- fits 64 (u64 _) => apply Hu
    | |- fits 64 (snd _) => assumption
    | |- fits 64 (Z.lor _ _) => apply fits_lor; [lia| |]
    | |- fits 64 (Z.land _ _) => apply fits_land_l; [lia|assumption]
    | |- fits 64 (Z.lxor _ _) => apply fits_lxor; [lia|assumption|assumption]
    | |- fits 64 (shl 32 _ _) => apply Hl32
    | |- fits 64 (shl 64 _ _) => apply Hl
    | |- fits 64 (shr 32 _ _) => apply Hr32
    | |- fits 64 (shr 64 _ _) => apply Hr64
    | |- fits 64 (Z.shiftr _ _) => apply fits_shiftr; [|lia]
    | |- fits 64 (_ / _) => apply fits_div
    | |- fits 64 (_ mod _) => apply fits_mod
    | |- 0 < _ => apply Hpos
    | |- fits 64 (uwrap (bits _) _) => apply Hub
    | |- fits 64 (u32 _) => apply Hu32
    | |- fits 64 _ => assumption
    end.
Qed.

Lemma fold_un_fits u x r : do_constant_folding_un u x = Ok r -> fits 64 r.
Proof.
  assert (forall w z, 0 <= w <= 64 -> fits 64 (uwrap w z)) as Hu.
  { intros w z Hw. pose proof (uwrap_range w z ltac:(lia)). unfold fits.
    assert (2 ^ w <= 2 ^ 64) by (apply Z.pow_le_mono_r; lia). lia. }
  destruct u; cbn; intros [= <-]; apply Hu; lia.
Qed.

(** Constant folding of a unary operation. *)
Lemma fold_un u w x v :
  fits 64 x -> u <> Ubswap16 -> u <> Ubswap32 -> u <> Ubswap64 ->
  (w = W32 -> u <> Uext32s /\ u <> Uext32u) ->
  un_sem u (bits w) (uwrap (bits w) x) = Some v ->
  exists r, do_constant_folding_un u x = Ok r /\ uwrap (bits w) r = v.
Proof.
  intros Hx H1 H2 H3 Hw. assert (bits w = 32 \/ bits w = 64) as Hb by apply bits_range.
  destruct u; try done; cbn; intros [= <-]; eexists; (split; [done|]); rewrite ?uwrap_64.
  all: try (bitcases; done).
  unfold uwrap. rewrite <- (Z.sub_0_l x), <- (Z.sub_0_l (x mod _)). by rewrite Zminus_mod_idemp_r.
Qed.

(** *** Identities of the operations *)

Definition commutative (b : binop) : bool :=
  match b with
  | Badd | Bmul | Band | Bor | Bxor | Beqv | Bnand | Bnor | Bmuluh | Bmulsh => true
  | _ => false
  end.

Lemma bin_comm b w x y : commutative b = true -> bin_sem b w x y = bin_sem b w y x.
Proof.
  destruct b; try done; intros _; cbn;
    rewrite ?(Z.add_comm x), ?(Z.mul_comm x), ?(Z.land_comm x), ?(Z.lor_comm x), ?(Z.lxor_comm x),
      ?(Z.mul_comm (swrap w x)); done.
Qed.

Lemma W_pos w : 0 < bits w <= 64.
Proof. destruct w; cbn; lia. Qed.

Section identities.
Context (w : width) (x y : Z).
Hypothesis (Hx : fits (bits w) x) (Hy : fits (bits w) y).
Notation W := (bits w).

Lemma all_ones_spec i : 0 <= i -> Z.testbit (uwrap W ones64) i = (i <? W).
Proof.
  intros Hi. pose proof (W_pos w). rewrite uwrap_spec by lia. change ones64 with (Z.ones 64).
  rewrite Z.testbit_ones_nonneg by lia. destruct (Z.ltb_spec i W), (Z.ltb_spec i 64); done || lia.
Qed.

Ltac solve_bits :=
  pose proof (W_pos w); pose proof all_ones_spec as Ho;
  pose proof (uwrap_fits W ones64 ltac:(lia)) as Hof;
  set (o := uwrap W ones64) in *; clearbody o;
  apply (fits_bits_inj W); [lia|auto using fits_lxor with words..|];
  let i := fresh "i" in let Hi := fresh "Hi" in
  intros i Hi; autorewrite with bits; rewrite ?Ho by lia;
  rewrite ?(proj2 (Z.ltb_lt i W)) by lia; btauto.

Lemma shift_zero b v :
  (b = Bshl \/ b = Bshr \/ b = Bsar \/ b = Brotl \/ b = Brotr) -> bin_sem b W 0 y = Some v -> v = 0.
Proof.
  pose proof (W_pos w). intros [-> | [-> | [-> | [-> | ->]]]]; cbn; case_match; try done; intros [= <-];
    rewrite ?swrap_id, ?Z.shiftl_0_l, ?Z.shiftr_0_l by (pose proof (pow2_pos (W - 1)); lia); done.
Qed.

Lemma sub_from_zero : bin_sem Bsub W 0 y = un_sem Uneg W y.
Proof. done. Qed.

Lemma not_forms :
  bin_sem Bxor W x (uwrap W ones64) = un_sem Unot W x /\
  bin_sem Bnand W x (uwrap W ones64) = un_sem Unot W x /\
  bin_sem Bnor W x 0 = un_sem Unot W x /\
  bin_sem Bandc W (uwrap W ones64) y = un_sem Unot W y /\
  bin_sem Borc W 0 y = un_sem Unot W y /\
  bin_sem Beqv W 0 y = un_sem Unot W y.
Proof.
  cbn [bin_sem un_sem]. rewrite Z.lor_0_r, Z.lor_0_l, Z.lxor_0_l. pose proof (W_pos w).
  split_and!; f_equal; try done; try solve_bits.
Qed.

Lemma neutral_zero b :
  (b = Badd \/ b = Bsub \/ b = Bshl \/ b = Bshr \/ b = Bsar \/ b = Brotl \/ b = Brotr \/ b = Bor \/
   b = Bxor \/ b = Bandc) -> bin_sem b W x 0 = Some x.
Proof.
  pose proof (W_pos w). assert (uwrap W x = x) as Ex by (by apply uwrap_id).
  intros [-> | [-> | [-> | [-> | [-> | [-> | [-> | [-> | [-> | ->]]]]]]]]]; cbn [bin_sem];
    rewrite ?(proj2 (Z.ltb_lt 0 W)) by lia; f_equal;
    rewrite ?Z.add_0_r, ?(Z.sub_0_r x), ?Z.shiftl_0_r, ?Z.shiftr_0_r, ?uwrap_swrap, ?Ex, ?Z.lor_0_r, ?Z.lxor_0_r
      by lia; try done.
  - rewrite Z.sub_0_r, Z.shiftr_div_pow2, Z.div_small, Z.lor_0_r by (unfold fits in Hx; lia). done.
  - rewrite Z.sub_0_r, Z.shiftl_mul_pow2 by lia. unfold uwrap. pose proof (pow2_pos W ltac:(lia)).
    by rewrite Z.mod_mul, Z.lor_0_r by lia.
  - solve_bits.
Qed.

Lemma neutral_ones b :
  (b = Band \/ b = Borc \/ b = Beqv) -> bin_sem b W x (uwrap W ones64) = Some x.
Proof. intros [-> | [-> | ->]]; cbn [bin_sem]; f_equal; solve_bits. Qed.

Lemma absorb_zero b :
  (b = Band \/ b = Bmul \/ b = Bmuluh \/ b = Bmulsh) -> bin_sem b W x 0 = Some 0.
Proof.
  pose proof (W_pos w). pose proof (pow2_pos (W - 1) ltac:(lia)).
  intros [-> | [-> | [-> | ->]]]; cbn [bin_sem]; f_equal;
    rewrite ?Z.land_0_r, ?(swrap_id W 0), ?Z.mul_0_r by lia; try done.
Qed.

Lemma same_self b : (b = Bor \/ b = Band) -> bin_sem b W x x = Some x.
Proof. intros [-> | ->]; cbn [bin_sem]; f_equal; [apply Z.lor_diag|apply Z.land_diag]. Qed.

Lemma same_zero b : (b = Bandc \/ b = Bsub \/ b = Bxor) -> bin_sem b W x x = Some 0.
Proof.
  intros [-> | [-> | ->]]; cbn [bin_sem]; f_equal; [|by rewrite Z.sub_diag|by rewrite Z.lxor_nilpotent].
  solve_bits.
Qed.
End identities.

(** *** Conditions *)

Ltac conds Hc :=
  unfold tcg_conds in Hc;
  repeat (apply elem_of_cons in Hc as [->|Hc]); [..|by apply elem_of_nil in Hc].

Lemma swap_cond_sem c w x y : c ∈ tcg_conds -> cond_sem (tcg_swap_cond c) w x y = cond_sem c w y x.
Proof.
  intros Hc. conds Hc; cbn;
    done || by rewrite Z.eqb_sym.
Qed.

Lemma invert_cond_sem c w x y :
  c ∈ tcg_conds -> cond_sem (tcg_invert_cond c) w x y = option_map negb (cond_sem c w x y).
Proof.
  intros Hc. conds Hc; unfold cond_sem;
    match goal with |- context [tcg_invert_cond ?c] =>
      let v := eval vm_compute in (tcg_invert_cond c) in change (tcg_invert_cond c) with v
    end; cbn; f_equal; zbool.
Qed.

Lemma conds_closed c : c ∈ tcg_conds -> tcg_swap_cond c ∈ tcg_conds /\ tcg_invert_cond c ∈ tcg_conds.
Proof.
  intros Hc. conds Hc;
    split; apply (bool_decide_unpack _); by vm_compute.
Qed.

Lemma cond_sem_total c w x y : c ∈ tcg_conds -> exists b, cond_sem c w x y = Some b.
Proof.
  intros Hc. conds Hc; cbn; eauto.
Qed.

(** The folding of conditions computes them. *)
Lemma fold_cond_bits w x y c b :
  cond_sem c w x y = Some b -> do_constant_folding_cond_bits w x y c = Ok b.
Proof. unfold cond_sem, do_constant_folding_cond_bits. repeat case_match; congruence. Qed.

Lemma fold_cond_eq w x c b : cond_sem c w x x = Some b -> do_constant_folding_cond_eq c = Ok b.
Proof.
  unfold cond_sem, do_constant_folding_cond_eq. rewrite Z.eqb_refl, !Z.ltb_irrefl, !Z.leb_refl.
  repeat (case_match; [intros [= <-]; by match goal with H : (c =? _) = true |- _ => apply Z.eqb_eq in H as -> end|]).
  done.
Qed.

(** An unsigned comparison with zero. *)
Lemma fold_cond_zero w x c b :
  0 <= x -> cond_sem c w x 0 = Some b ->
  (c = TCG_COND_LTU -> b = false) /\ (c = TCG_COND_GEU -> b = true).
Proof.
  intros Hx Hc. split; intros ->; cbn in Hc; injection Hc as <-.
  - by apply Z.ltb_ge.
  - by apply Z.leb_le.
Qed.

(** A signed comparison of a double word with zero looks at the high word. *)
Lemma cond_high c xl xh :
  c = TCG_COND_LT \/ c = TCG_COND_GE -> fits 32 xl -> fits 32 xh ->
  cond_sem c 64 (pair_of W32 xl xh) (pair_of W32 0 0) = cond_sem c 32 xh 0.
Proof.
  intros Hc Hl Hh. unfold fits, pair_of in *. cbn [bits].
  assert (swrap 64 (xh * 2 ^ 32 + xl) = swrap 32 xh * 2 ^ 32 + xl) as E.
  { unfold swrap. rewrite !uwrap_id by (unfold fits; lia).
    destruct (Z.ltb_spec xh (2 ^ (32 - 1))), (Z.ltb_spec (xh * 2 ^ 32 + xl) (2 ^ (64 - 1))); lia. }
  destruct Hc as [-> | ->]; unfold cond_sem; cbn [Z.eqb Pos.eqb TCG_COND_LT TCG_COND_GE TCG_COND_EQ TCG_COND_NE];
    rewrite E; change (swrap 64 (0 * 2 ^ 32 + 0)) with 0; change (swrap 32 0) with 0; cbn; f_equal; zbool.
Qed.

(** *** Known-zero bits *)

Lemma within_bit x m k : within x m -> 0 <= k -> nz (Z.land m (bit k)) = false -> Z.testbit x k = false.
Proof.
  intros H Hk Hm. rewrite nz_land_bit in Hm by done. destruct (Z.testbit x k) eqn:E; [|done].
  apply H in E; [congruence|done].
Qed.

Lemma sext_zext k w x :
  1 <= k <= w -> Z.testbit x (k - 1) = false -> uwrap w (swrap k x) = uwrap k x.
Proof.
  intros Hk Hx. apply Z.bits_inj'. intros i Hi. rewrite !uwrap_spec, swrap_spec by lia.
  destruct (Z.ltb_spec i k).
  - rewrite (proj2 (Z.ltb_lt i w)), Z.min_l by lia. done.
  - rewrite Z.min_r, Hx by lia. apply andb_false_r.
Qed.

Lemma within_land x y m1 m2 : within x m1 -> within y m2 -> within (Z.land x y) (Z.land m1 m2).
Proof.
  intros H1 H2 i Hi. rewrite !Z.land_spec, !andb_true_iff. intros [? ?]. auto.
Qed.
Lemma within_land_l x y m : within x m -> within (Z.land x y) m.
Proof. intros H i Hi. rewrite Z.land_spec, andb_true_iff. intros [? ?]. auto. Qed.
Lemma within_lor x y m1 m2 : within x m1 -> within y m2 -> within (Z.lor x y) (Z.lor m1 m2).
Proof.
  intros H1 H2 i Hi. rewrite !Z.lor_spec, !orb_true_iff. intros [?|?]; auto.
Qed.
Lemma within_lxor x y m1 m2 : within x m1 -> within y m2 -> within (Z.lxor x y) (Z.lor m1 m2).
Proof.
  intros H1 H2 i Hi. rewrite Z.lor_spec, Z.lxor_spec, orb_true_iff.
  destruct (Z.testbit x i) eqn:E1, (Z.testbit y i) eqn:E2; try done; auto.
Qed.
Lemma within_ones k x : 0 <= k -> within (uwrap k x) (Z.ones k).
Proof.
  intros Hk i Hi. rewrite uwrap_spec, Z.testbit_ones_nonneg by lia. by intros [? _]%andb_true_iff.
Qed.
Lemma within_ones_id k x : 0 <= k -> 0 <= x -> within x (Z.ones k) -> uwrap k x = x.
Proof.
  intros Hk Hx H. apply uwrap_id, (within_fits k x (Z.ones k)); try done.
  unfold fits. rewrite Z.ones_equiv. pose proof (pow2_pos k Hk). lia.
Qed.
Lemma within_mask32 v m : fits 32 v -> within v m -> within v (Z.land m 0xffffffff).
Proof.
  intros Hv H. rewrite land_mask32. intros i Hi Hb. rewrite uwrap_spec by lia.
  rewrite (H i Hi Hb), andb_true_r. apply Z.ltb_lt. destruct (Z.ltb_spec i 32); [done|].
  by rewrite (fits_testbit 32) in Hb by (done || lia).
Qed.

(** The extension masks: [and_const] with all ones of the size. *)
Lemma ext_mask k x m1 : 0 <= k -> within x m1 -> within (uwrap k x) (fst (and_const m1 (Z.ones k))).
Proof.
  intros Hk H. cbn. intros i Hi Hb. rewrite Z.land_spec, Z.testbit_ones_nonneg by lia.
  rewrite uwrap_spec in Hb by lia. apply andb_true_iff in Hb as [-> Hb]. by rewrite (H i Hi Hb).
Qed.

(** No bit of the operand is affected. *)
Lemma affected_zero x m1 m : fits 64 x -> within x m1 -> snd (and_const m1 m) = 0 -> within x m.
Proof.
  cbn. intros Hx H E i Hi Hb. assert (i < 64).
  { destruct (Z.ltb_spec i 64); [done|]. by rewrite (fits_testbit 64) in Hb by (done || lia). }
  assert (Z.testbit (Z.land m1 (u64 (Z.lnot m))) i = false) as Hz by (by rewrite E, Z.bits_0).
  rewrite Z.land_spec, uwrap_spec, Z.lnot_spec, (H i Hi Hb), (proj2 (Z.ltb_lt i 64)) in Hz by lia.
  cbn in Hz. by apply negb_false_iff.
Qed.

(** The count of a shift by a known constant. *)
Lemma known_count w y :
  fits 64 y -> uwrap (bits w) y < bits w ->
  y mod 64 = uwrap (bits w) y /\ y mod bits w = uwrap (bits w) y.
Proof.
  intros Hy Hlt. unfold fits, uwrap in *. destruct w; cbn [bits] in *; Z.div_mod_to_equations; lia.
Qed.

Section masks.
Context (w : width) (x m1 : Z).
Hypothesis (Hx : fits (bits w) x) (Hm : fits 64 m1) (Hw : within x m1).
Notation W := (bits w).

Lemma shl_mask y v : fits 64 y -> bin_sem Bshl W x (uwrap W y) = Some v -> within v (shl 64 m1 y).
Proof.
  intros Hy. cbn [bin_sem]. destruct (Z.ltb_spec (uwrap W y) W) as [Hlt|]; [|done]. intros [= <-].
  pose proof (W_pos w). pose proof (uwrap_range W y ltac:(lia)).
  unfold shl. rewrite (proj1 (known_count w y Hy Hlt)). intros i Hi.
  rewrite !uwrap_spec, !Z.shiftl_spec by lia. intros [H1 H2]%andb_true_iff. apply Z.ltb_lt in H1.
  rewrite (proj2 (Z.ltb_lt i 64)) by lia. apply Hw; [|done].
  destruct (Z.ltb_spec (i - uwrap W y) 0); [by rewrite Z.testbit_neg_r in H2|done].
Qed.

Lemma shr_mask y v :
  fits 64 y -> bin_sem Bshr W x (uwrap W y) = Some v -> within v (shr W (uwrap W m1) y).
Proof.
  intros Hy. cbn [bin_sem]. destruct (Z.ltb_spec (uwrap W y) W) as [Hlt|]; [|done]. intros [= <-].
  pose proof (W_pos w). pose proof (uwrap_range W y ltac:(lia)).
  destruct (known_count w y Hy Hlt) as [_ Ec].
  unfold shr. rewrite Ec. intros i Hi. rewrite !Z.shiftr_spec, uwrap_spec by lia. intros Hb.
  rewrite (Hw (i + uwrap W y) ltac:(lia) Hb), andb_true_r. apply Z.ltb_lt.
  destruct (Z.ltb_spec (i + uwrap W y) W); [done|]. by rewrite (fits_testbit W) in Hb by (done || lia).
Qed.

Lemma sar_mask y v :
  fits 64 y -> bin_sem Bsar W x (uwrap W y) = Some v -> within v (u64 (shr W (swrap W m1) y)).
Proof.
  intros Hy. cbn [bin_sem]. destruct (Z.ltb_spec (uwrap W y) W) as [Hlt|]; [|done]. intros [= <-].
  pose proof (W_pos w). pose proof (uwrap_range W y ltac:(lia)).
  destruct (known_count w y Hy Hlt) as [_ Ec].
  unfold shr. rewrite Ec. intros i Hi. rewrite !uwrap_spec, !Z.shiftr_spec, !swrap_spec by lia.
  intros [H1 H2]%andb_true_iff. apply Z.ltb_lt in H1. rewrite (proj2 (Z.ltb_lt i 64)) by lia.
  apply Hw; [lia|done].
Qed.

(** Negation keeps the zeros below the lowest set bit. *)
Lemma low_bit k : trailing m1 k -> Z.land m1 (u64 (- m1)) = bit k.
Proof.
  intros (Hk & Hb & Hlow). assert (k < 64).
  { destruct (Z.ltb_spec k 64); [done|]. by rewrite (fits_testbit 64) in Hb by (done || lia). }
  set (h := Z.shiftr m1 (k + 1)).
  assert (m1 = h * 2 ^ (k + 1) + bit k) as Em.
  { rewrite <- lor_shiftl_add by (lia || apply fits_bit; lia). apply Z.bits_inj'. intros i Hi.
    rewrite Z.lor_spec, Z.shiftl_spec, bit_spec by lia. subst h. destruct (Z.ltb_spec i (k + 1)).
    - rewrite (Z.testbit_neg_r _ (i - (k + 1))), orb_false_r by lia.
      destruct (Z.eqb_spec k i) as [->|]; [done|]. apply Hlow. lia.
    - rewrite Z.shiftr_spec by lia. replace (i - (k + 1) + (k + 1)) with i by lia.
      by rewrite (proj2 (Z.eqb_neq k i)) by lia. }
  assert (- m1 = Z.lnot (Z.lor (Z.ones k) (Z.shiftl h (k + 1)))) as En.
  { assert (fits (k + 1) (Z.ones k)) as Hf.
    { unfold fits. rewrite Z.ones_equiv. pose proof (pow2_pos k Hk).
      assert (2 ^ k <= 2 ^ (k + 1)) by (apply Z.pow_le_mono_r; lia). lia. }
    rewrite lor_shiftl_add by (done || lia). unfold Z.lnot. rewrite Z.ones_equiv. unfold bit in Em.
    rewrite Z.shiftl_1_l in Em. lia. }
  apply Z.bits_inj'. intros i Hi.
  rewrite Z.land_spec, uwrap_spec, En, Z.lnot_spec, Z.lor_spec, Z.shiftl_spec, bit_spec,
    Z.testbit_ones_nonneg by lia.
  destruct (Z.eqb_spec k i) as [->|].
  - rewrite Hb, (proj2 (Z.ltb_lt i 64)), (proj2 (Z.ltb_ge i i)), Z.testbit_neg_r by lia. done.
  - destruct (Z.ltb_spec i k); [by rewrite Hlow by lia|]. subst h. rewrite Z.shiftr_spec by lia.
    replace (i - (k + 1) + (k + 1)) with i by lia. destruct (Z.testbit m1 i), (i <? 64); done.
Qed.

Lemma neg_mask : within (uwrap W (- x)) (u64 (- Z.land m1 (u64 (- m1)))).
Proof.
  pose proof (W_pos w). unfold fits in *. destruct (Z.eq_dec m1 0) as [->|Hne].
  - assert (x = 0) as -> by (apply (within_0 x 0); [lia|done|done]). intros i Hi. by rewrite uwrap_spec, Z.bits_0, andb_false_r by lia.
  - pose proof (ctz64_spec m1 ltac:(lia)) as Ht. set (k := ctz64 m1) in *. rewrite (low_bit k Ht).
    destruct Ht as (Hk & _ & Hlow). intros i Hi. rewrite !uwrap_spec by lia.
    intros [H1 H2]%andb_true_iff. apply Z.ltb_lt in H1. rewrite (proj2 (Z.ltb_lt i 64)) by lia.
    assert (x = Z.shiftr x k * 2 ^ k) as Ex.
    { rewrite <- Z.shiftl_mul_pow2 by lia. apply Z.bits_inj'. intros j Hj. rewrite Z.shiftl_spec by lia.
      destruct (Z.ltb_spec j k).
      - rewrite (Z.testbit_neg_r _ (j - k)) by lia. destruct (Z.testbit x j) eqn:E; [|done].
        apply Hw in E; [|done]. by rewrite Hlow in E by lia.
      - rewrite Z.shiftr_spec by lia. f_equal. lia. }
    assert (k <= i).
    { destruct (Z.leb_spec k i); [done|]. rewrite Ex, <- Z.mul_opp_l, Z.mul_pow2_bits_low in H2 by lia. done. }
    unfold bit. rewrite Z.shiftl_1_l. replace (- 2 ^ k) with (-1 * 2 ^ k) by lia.
    rewrite Z.mul_pow2_bits by lia. apply Z.bits_m1. lia.
Qed.

Lemma deposit_field pos len :
  0 <= pos -> 0 < len < 64 -> pos + len <= W ->
  u64 (shl 64 1 len - 1) = Z.ones len /\ shl 64 (Z.ones len) pos = Z.shiftl (Z.ones len) pos.
Proof.
  intros Hp Hl Hs. pose proof (W_pos w). pose proof (pow2_pos len ltac:(lia)). split.
  - rewrite shl_in by lia. rewrite Z.shiftl_1_l, Z.ones_equiv.
    assert (2 ^ len <= 2 ^ 63) by (apply Z.pow_le_mono_r; lia).
    rewrite (uwrap_id 64 (2 ^ len)) by (unfold fits; lia). apply uwrap_id. unfold fits. lia.
  - rewrite shl_in by lia. apply uwrap_id. rewrite Z.shiftl_mul_pow2, Z.ones_equiv by lia.
    assert (2 ^ len * 2 ^ pos <= 2 ^ 64) by (rewrite <- Z.pow_add_r by lia; apply Z.pow_le_mono_r; lia).
    pose proof (pow2_pos pos Hp). unfold fits. nia.
Qed.

Lemma deposit_mask y m2 pos len v :
  len < 64 -> within y m2 -> deposit_sem W x y pos len = Some v ->
  let tmp := u64 (shl 64 1 len - 1) in
  within v (Z.lor (Z.land m1 (u64 (Z.lnot (shl 64 tmp pos)))) (shl 64 (Z.land m2 tmp) pos)).
Proof.
  intros Hlen Hy. unfold deposit_sem. destruct (_ && _ && _) eqn:Eb; [|done]. intros [= <-].
  pose proof (W_pos w). destruct (deposit_field pos len) as [E1 E2]; try lia. cbv zeta. rewrite E1, E2.
  apply within_lor.
  - intros i Hi. rewrite !Z.land_spec, uwrap_spec by lia. intros [H1 H2]%andb_true_iff.
    rewrite (Hw i Hi H1), H2, andb_true_r. cbn. apply Z.ltb_lt.
    destruct (Z.ltb_spec i 64); [done|]. by rewrite (fits_testbit W) in H1 by (done || lia).
  - rewrite shl_in by lia. intros i Hi. rewrite uwrap_spec, Z.land_spec, !Z.shiftl_spec, Z.land_spec by lia.
    intros [H1 H2]%andb_true_iff.
    destruct (Z.ltb_spec (i - pos) 0); [by rewrite Z.testbit_neg_r in H1|].
    rewrite (Hy (i - pos) ltac:(lia) H1), H2. rewrite Z.testbit_ones_nonneg in H2 by lia.
    apply Z.ltb_lt in H2. by rewrite (proj2 (Z.ltb_lt i 64)) by lia.
Qed.
End masks.

(** The folding of [deposit]. *)
Lemma fold_deposit w x y pos len v :
  len < 64 -> deposit_sem (bits w) (uwrap (bits w) x) (uwrap (bits w) y) pos len = Some v ->
  let tmp := u64 (shl 64 1 len - 1) in
  uwrap (bits w) (Z.lor (Z.land x (u64 (Z.lnot (shl 64 tmp pos)))) (shl 64 (Z.land y tmp) pos)) = v.
Proof.
  intros Hlen. unfold deposit_sem. destruct (_ && _ && _) eqn:Eb; [|done]. intros [= <-].
  pose proof (W_pos w). destruct (deposit_field w pos len) as [E1 E2]; try lia. cbv zeta.
  rewrite E1, E2, shl_in by lia. apply Z.bits_inj'. intros i Hi.
  rewrite uwrap_spec, !Z.lor_spec, !Z.land_spec, !uwrap_spec, !Z.lnot_spec by lia.
  destruct (Z.ltb_spec i (bits w)) as [Hlt|Hge].
  - rewrite (proj2 (Z.ltb_lt i 64)), !Z.shiftl_spec, Z.land_spec by lia. cbn [andb].
    destruct (Z.ltb_spec (i - pos) 0); [by rewrite !(Z.testbit_neg_r _ (i - pos)) by lia|].
    rewrite uwrap_spec, (proj2 (Z.ltb_lt (i - pos) (bits w))) by lia. done.
  - cbn [andb orb]. rewrite !Z.shiftl_spec, Z.testbit_ones_nonneg, (proj2 (Z.ltb_ge (i - pos) len)) by lia.
    symmetry. apply andb_false_r.
Qed.

(** *** Folding, as a whole *)

Lemma op_bits_bin b w : misflagged (op_bin b w) = false -> op_bits (op_bin b w) = bits w.
Proof. by destruct b, w. Qed.

(** The last step of folding: the cut to the bits of the operation. *)
Lemma cut_exact op w r v :
  op_bits op = bits w -> fits 64 r -> uwrap (bits w) r = v ->
  (if op_bits op =? 32 then Z.land r 0xffffffff else r) = v.
Proof.
  intros -> Hr <-. destruct w; cbn [bits Z.eqb Pos.eqb]; [apply land_mask32|]. by rewrite uwrap_id.
Qed.

(** The table declares [muluh_i64] and [mulsh_i64] without the flag of a
    64-bit operation, and folding them cuts the high half of the product to
    its low 32 bits. *)
Theorem fold_mulh_i64 (b : binop) (x y v : Z) :
  b = Bmuluh \/ b = Bmulsh -> fits 64 x -> fits 64 y ->
  bin_sem b 64 x y = Some v -> do_constant_folding (op_bin b W64) x y = Ok (u32 v).
Proof.
  intros Hb Hx Hy Hv. destruct (fold_mulh b W64 x y v Hb Hx Hy) as (r & Er & <-).
  { cbn [bits]. by rewrite !uwrap_id. }
  unfold do_constant_folding. cbn [do_constant_folding_2]. rewrite Er. cbn [obind].
  assert (op_bits (op_bin b W64) = 32) as -> by (by destruct Hb as [-> | ->]).
  cbn [Z.eqb Pos.eqb bits]. by rewrite land_mask32, uwrap_min by lia.
Qed.

(** C22: Folding two constants, operation by operation.  For all but the
    operations named below it yields exactly the value tcg/README specifies, where
    it specifies one: the constants are cut to the operation's width, read as
    signed where it is signed, and the result has no bit beyond the width.  The
    two operations the table of opcodes declares without the flag of a 64-bit
    operation, [muluh_i64] and [mulsh_i64], are folded to the low 32 bits of their
    value; the byte swaps, which the optimiser does not know, stop it. *)
Theorem fold_exact (w : width) (x y : Z) :
  fits 64 x -> fits 64 y ->
  (forall b v, misflagged (op_bin b w) = false ->
     bin_sem b (bits w) (uwrap (bits w) x) (uwrap (bits w) y) = Some v ->
     do_constant_folding (op_bin b w) x y = Ok v /\ fits (bits w) v) /\
  (forall u v, u <> Ubswap16 -> u <> Ubswap32 -> u <> Ubswap64 ->
     (w = W32 -> u <> Uext32s /\ u <> Uext32u) ->
     un_sem u (bits w) (uwrap (bits w) x) = Some v ->
     do_constant_folding (op_un u w) x y = Ok v /\ fits (bits w) v) /\
  (forall b v, misflagged (op_bin b w) = true ->
     bin_sem b (bits w) (uwrap (bits w) x) (uwrap (bits w) y) = Some v ->
     do_constant_folding (op_bin b w) x y = Ok (u32 v)) /\
  (forall u, u = Ubswap16 \/ u = Ubswap32 \/ u = Ubswap64 -> do_constant_folding (op_un u w) x y = Fault AssertFailed).
Proof.
  intros Hx Hy. pose proof (W_pos w). split_and!; [..|by intros u [-> | [-> | ->]]].
  3: { intros b v Hm. assert (w = W64 /\ (b = Bmuluh \/ b = Bmulsh)) as [-> Hb] by (destruct b, w; try done; auto).
       cbn [bits]. rewrite !uwrap_id by done. intros Hv. by apply fold_mulh_i64. }
  all: unfold do_constant_folding.
  - intros b v Hm Hv. destruct (fold_bin b w x y v Hx Hy Hv) as (r & Er & Ew). cbn [do_constant_folding_2].
    rewrite Er. cbn [obind]. rewrite (cut_exact _ w r v); [|by apply op_bits_bin| |done].
    + split; [done|]. rewrite <- Ew. apply uwrap_fits. lia.
    + by apply (fold_bin_fits b w x y).
  - intros u v N1 N2 N3 N4 Hv. destruct (fold_un u w x v Hx N1 N2 N3 N4 Hv) as (r & Er & Ew).
    cbn [do_constant_folding_2]. rewrite Er. cbn [obind]. rewrite (cut_exact _ w r v); [| |by apply (fold_un_fits u x)|done].
    + split; [done|]. rewrite <- Ew. apply uwrap_fits. lia.
    + by destruct w.
Qed.

Lemma fold_exact_witness :
  fits 64 0x180000000 /\ fits 64 33 /\
  do_constant_folding (op_bin Bsar W32) 0x180000000 4 = Ok 0xf8000000 /\
  do_constant_folding (op_un Uext32s W64) 0x180000000 0 = Ok 0xffffffff80000000 /\
  (do_constant_folding (op_bin Bsub W32) 0x180000000 33 = Ok 0x7fffffdf /\ fits 32 0x7fffffdf).
Proof.
  split; [done|]. split; [done|]. split; [by vm_compute|]. split; [by vm_compute|].
  apply (proj1 (fold_exact W32 0x180000000 33 ltac:(done) ltac:(done)) Bsub 0x7fffffdf); by vm_compute.
Defined.

(** Folding performs C's own divisions, which have no value for a zero
    divisor nor for a quotient the type does not have.  Of these it reaches one:
    the most negative value of the operation's width divided by -1 in a signed
    division or remainder.  No zero divisor is reached, signed or unsigned, and no
    other binary operation faults. *)
Theorem fold_faults (b : binop) (w : width) (x y : Z) (f : fault) :
  do_constant_folding (op_bin b w) x y = Fault f <->
  f = DivOverflow /\ (b = Bdiv \/ b = Brem) /\
  swrap (bits w) x = - 2 ^ (bits w - 1) /\ swrap (bits w) y = -1.
Proof.
  assert (forall d q, obind (if (swrap (bits w) x =? - 2 ^ (bits w - 1)) && ((if d =? 0 then 1 else d) =? -1)
    then Fault DivOverflow else Ok q) (fun res => Ok (u64 res)) = Fault f <->
    f = DivOverflow /\ swrap (bits w) x = - 2 ^ (bits w - 1) /\ d = -1) as Hdiv.
  { intros d q. destruct (Z.eqb_spec (swrap (bits w) x) (- 2 ^ (bits w - 1))); cbn [andb obind]; [|naive_solver].
    destruct (Z.eqb_spec d 0) as [->|]; [naive_solver lia|]. destruct (Z.eqb_spec d (-1)); naive_solver. }
  assert (forall o, (res <~ o ;; Ok (if op_bits (op_bin b w) =? 32 then Z.land res 0xffffffff else res)) = Fault f
    <-> o = Fault f) as Hcut by (intros [?|?]; cbn; split; congruence).
  unfold do_constant_folding. rewrite Hcut. cbn [do_constant_folding_2]. clear Hcut.
  destruct b; cbn [do_constant_folding_bin]; unfold c_quot, c_rem, c_div, c_mod; rewrite ?c_signed_guarded, ?c_unsigned_guarded, ?Hdiv;
    try (by split; [destruct w|intros (_ & [?|?] & _)]).
  - split; [intros (? & ? & ?); auto|intros (? & _ & ? & ?); auto].
  - split; [intros (? & ? & ?); auto|intros (? & _ & ? & ?); auto].
Qed.

Lemma fold_faults_witness :
  swrap 32 0x80000000 = - 2 ^ 31 /\
  do_constant_folding (op_bin Bdiv W32) 0x80000000 0xffffffff = Fault DivOverflow /\
  do_constant_folding (op_bin Bdiv W32) 7 0 = Ok 7.
Proof.
  split; [done|]. split; [|by vm_compute]. apply (fold_faults Bdiv W32 0x80000000 0xffffffff DivOverflow).
  split; [done|]. split; [by left|]. by split.
Defined.

Lemma fold_mulh_i64_witness :
  bin_sem Bmuluh 64 (2 ^ 63) (2 ^ 63) = Some (2 ^ 62) /\
  do_constant_folding (op_bin Bmuluh W64) (2 ^ 63) (2 ^ 63) = Ok (u32 (2 ^ 62)) /\ u32 (2 ^ 62) = 0.
Proof.
  split; [by vm_compute|]. split; [|by vm_compute].
  apply fold_mulh_i64; [by left|done|done|by vm_compute].
Defined.

End TcgArith.
