(* ===== verification/TcgSem.v ===== *)
(** Well-typed operations: what the translator's front ends promise of the
    arguments they emit, the value a computing operation yields, and that
    exchanging operands for equal ones and putting constants second changes
    neither. *)
From Stdlib Require Import ZArith Lia Bool Btauto.
From stdpp Require Import base numbers list.
From S2P Require Import Prelude HostUtils TcgOp TcgOpt TcgRing TcgArith.
Local Open Scope Z_scope.

Module TcgSem.
Import HostUtils.HostUtils Tcg TcgOpt TcgRing TcgArith.

(** ** Typing

    The width of an operation's register inputs and outputs; [None]: any. *)
Definition in_type (op : TCGOpcode) : option width :=
  match op with
  | op_setcond w | op_movcond w | op_bin _ w | op_deposit w | op_brcond w
  | op_add2 w | op_sub2 w | op_mulu2 w | op_muls2 w => Some w
  | op_mov W64 => Some W64
  | op_un (Uext32s | Uext32u) _ => None
  | op_un _ w => Some w
  | op_brcond2 | op_setcond2 => Some W32
  | _ => None
  end.

Definition out_type (op : TCGOpcode) : option width :=
  match op with
  | op_mov w | op_movi w | op_setcond w | op_movcond w | op_bin _ w | op_un _ w | op_deposit w
  | op_add2 w | op_sub2 w | op_mulu2 w | op_muls2 w => Some w
  | op_setcond2 => Some W32
  | _ => None
  end.

(** The operations that front ends emit, less the two whose entry in the table
    lacks the 64-bit flag. *)
Definition present (op : TCGOpcode) : bool :=
  match op with
  | op_un (Uext32s | Uext32u | Ubswap64) W32 | op_nopn => false
  | _ => negb (misflagged op)
  end.

(** Constant arguments are in range.  A deposit of all 64 bits is a move, which
    is what the front end emits; the optimiser would compute [1ull << 64] for it. *)
Definition cargs_ok (op : TCGOpcode) (l : list Z) : Prop :=
  match op with
  | op_movi _ => fits 64 (arg l 1)
  | op_setcond _ => arg l 3 ∈ tcg_conds
  | op_movcond _ => arg l 5 ∈ tcg_conds
  | op_brcond _ => arg l 2 ∈ tcg_conds
  | op_brcond2 => arg l 4 ∈ tcg_conds
  | op_setcond2 => arg l 5 ∈ tcg_conds
  | op_deposit _ => arg l 4 < 64
  | _ => True
  end.

Definition oargs (op : TCGOpcode) : nat := nb_oargs (tcg_op_defs op).
Definition iargs (op : TCGOpcode) : nat := nb_iargs (tcg_op_defs op).
Definition is_input (op : TCGOpcode) (j : nat) : Prop := (oargs op <= j < oargs op + iargs op)%nat.

(** The computing operations: one output, no effect. *)
Definition pure (op : TCGOpcode) : bool :=
  match op with
  | op_mov _ | op_movi _ | op_setcond _ | op_movcond _ | op_bin _ _ | op_un _ _ | op_deposit _
  | op_setcond2 => true
  | _ => false
  end.

(** A list of known length, argument by argument. *)
Ltac args_of l E := repeat (destruct l as [|? l]; [done|]); destruct l; [|done]; clear E.

Section sem.
Context {W : Type} (s : TCGContext) (host : Host W).
Notation valid := (valid s).
Notation ty := (ty s).

Definition of_type (o : option width) (t : Z) : Prop :=
  valid t /\ match o with Some w => type s t = w | None => True end.

(** An operation other than [call] the optimiser can meet. *)
Record shaped (op : TCGOpcode) (l : list Z) : Prop := {
  sh_present : present op = true;
  sh_cargs : cargs_ok op l;
  sh_len : length l = nb_args (tcg_op_defs op);
  sh_out : forall j, (j < oargs op)%nat -> of_type (out_type op) (arg l j);
  sh_in : forall j, is_input op j -> of_type (in_type op) (arg l j);
}.

(** The value a computing operation yields. *)
Definition pure_value (op : TCGOpcode) (m : mstate W) (l : list Z) : option Z :=
  let a := arg l in
  match op with
  | op_mov w => Some (opnd w m (a 1%nat))
  | op_movi w => Some (uwrap (bits w) (a 1%nat))
  | op_setcond w =>
      option_map cbool (cond_sem (a 3%nat) (bits w) (opnd w m (a 1%nat)) (opnd w m (a 2%nat)))
  | op_movcond w =>
      option_map (fun c : bool => if c then opnd w m (a 3%nat) else opnd w m (a 4%nat))
        (cond_sem (a 5%nat) (bits w) (opnd w m (a 1%nat)) (opnd w m (a 2%nat)))
  | op_bin b w => bin_sem b (bits w) (opnd w m (a 1%nat)) (opnd w m (a 2%nat))
  | op_un u w => un_sem u (bits w) (opnd w m (a 1%nat))
  | op_deposit w =>
      deposit_sem (bits w) (opnd w m (a 1%nat)) (opnd w m (a 2%nat)) (a 3%nat) (a 4%nat)
  | op_setcond2 =>
      option_map cbool (cond_sem (a 5%nat) 64 (pair_of W32 (opnd W32 m (a 1%nat)) (opnd W32 m (a 2%nat)))
        (pair_of W32 (opnd W32 m (a 3%nat)) (opnd W32 m (a 4%nat))))
  | _ => None
  end.

Lemma exec_pure op l m keep :
  pure op = true -> (forall w, op <> op_mov w) ->
  exec_op s host keep (mkOp op l) m =
    match pure_value op m l with Some v => Fall (put m (arg l 0) v) | None => Undef end.
Proof.
  intros Hp Hm. destruct op; try done; cbn; unfold result; try done.
  - by destruct (Hm w).
  - by destruct (cond_sem _ _ _ _) as [[]|].
Qed.

Lemma opnd_fits w (m : mstate W) t : fits (bits w) (opnd w m t).
Proof. apply uwrap_fits. pose proof (W_pos w). lia. Qed.

(** *** The same inputs *)

(** [m2] holds at the places [l2] names what [m1] holds at those of [l1]. *)
Record same_args (op : TCGOpcode) (m1 : mstate W) (l1 : list Z) (m2 : mstate W) (l2 : list Z) : Prop := {
  sa_len : length l2 = length l1;
  sa_in : forall j, is_input op j -> type s (arg l2 j) = type s (arg l1 j) /\
    uwrap (ty (arg l1 j)) (regs m1 (arg l1 j)) = uwrap (ty (arg l1 j)) (regs m2 (arg l2 j));
  sa_rest : forall j, ~ is_input op j -> arg l2 j = arg l1 j;
}.

Lemma opnd_same op m1 l1 m2 l2 w j :
  shaped op l1 -> same_args op m1 l1 m2 l2 -> is_input op j -> in_type op = Some w ->
  opnd w m1 (arg l1 j) = opnd w m2 (arg l2 j).
Proof.
  intros Hs Ha Hj Hw. destruct (sh_in _ _ Hs j Hj) as [_ Ht]. rewrite Hw in Ht.
  destruct (sa_in _ _ _ _ _ Ha j Hj) as [_ E]. unfold ty in E. rewrite Ht in E. exact E.
Qed.

Lemma opnd_low op m1 l1 m2 l2 w j :
  same_args op m1 l1 m2 l2 -> is_input op j -> u32 (opnd w m1 (arg l1 j)) = u32 (opnd w m2 (arg l2 j)).
Proof.
  intros Ha Hj. destruct (sa_in _ _ _ _ _ Ha j Hj) as [_ E]. unfold opnd.
  rewrite !(uwrap_min 32) by (destruct w; cbn; lia).
  rewrite <- (uwrap_min 32 (ty (arg l1 j)) (regs m1 _)), E by (unfold ty; destruct (type s _); cbn; lia).
  apply uwrap_min. unfold ty. destruct (type s _); cbn; lia.
Qed.

Lemma ext32_low u w x y :
  u = Uext32s \/ u = Uext32u -> u32 x = u32 y -> un_sem u (bits w) x = un_sem u (bits w) y.
Proof.
  intros [-> | ->] E; cbn; [|by rewrite E]. by rewrite <- (swrap_uwrap 32 x), E, swrap_uwrap by lia.
Qed.

Lemma arity_bin b w :
  oargs (op_bin b w) = 1%nat /\ iargs (op_bin b w) = 2%nat /\ nb_args (tcg_op_defs (op_bin b w)) = 3%nat /\
  TCG_OPF_BB_END (tcg_op_defs (op_bin b w)) = false /\ TCG_OPF_CALL_CLOBBER (tcg_op_defs (op_bin b w)) = false.
Proof. by destruct b. Qed.

Lemma is_input_bin b w j : (1 <= j < 3)%nat -> is_input (op_bin b w) j.
Proof. unfold is_input. destruct (arity_bin b w) as (-> & -> & _). lia. Qed.

Ltac input := first [apply is_input_bin; lia | unfold is_input; cbn; lia].

Lemma pure_value_same op m1 l1 m2 l2 :
  pure op = true -> shaped op l1 -> same_args op m1 l1 m2 l2 ->
  pure_value op m1 l1 = pure_value op m2 l2.
Proof.
  intros Hp Hs Ha.
  assert (forall j, ~ is_input op j -> arg l2 j = arg l1 j) as Er by apply Ha.
  assert (forall j w, is_input op j -> in_type op = Some w -> opnd w m1 (arg l1 j) = opnd w m2 (arg l2 j)) as Ei
    by (intros; by apply (opnd_same op)).
  assert (forall j w, is_input op j -> u32 (opnd w m1 (arg l1 j)) = u32 (opnd w m2 (arg l2 j))) as El
    by (intros; by apply (opnd_low op)).
  destruct op; try done; cbn [pure_value].
  - destruct w; [|by rewrite Ei by (input || done)]. f_equal. specialize (El 1%nat W32 ltac:(input)).
    unfold opnd in *. cbn [bits] in *. by rewrite !uwrap_idem in El by lia.
  - by rewrite Er by input.
  - by rewrite (Er 3%nat), !Ei by (input || done).
  - by rewrite (Er 5%nat), !Ei by (input || done).
  - by rewrite !Ei by (input || done).
  - destruct u; try (by rewrite Ei by (input || done)); (apply ext32_low; [auto|]; apply El; input).
  - by rewrite (Er 3%nat), (Er 4%nat), !Ei by (input || done).
  - by rewrite (Er 5%nat), !Ei by (input || done).
Qed.

(** Typing depends on the types only. *)
Lemma shaped_same op m1 l1 m2 l2 :
  shaped op l1 -> same_args op m1 l1 m2 l2 -> (forall j, is_input op j -> valid (arg l2 j)) -> shaped op l2.
Proof.
  intros [Hp Hc Hl Ho Hi] [Sl Si Sr] Hv. split.
  - done.
  - unfold cargs_ok in *. destruct op; try done; rewrite Sr; try done; input.
  - congruence.
  - intros j Hj. rewrite Sr by (unfold is_input; lia). by apply Ho.
  - intros j Hj. split; [by apply Hv|]. destruct (Hi j Hj) as [_ Ht]. destruct (Si j Hj) as [-> _]. done.
Qed.

(** *** Constants second *)

Lemma swap_cases T dest i j l :
  exists sw : bool, swap_commutative T dest i j l = (sw, if sw then swap_args l i j else l).
Proof. unfold swap_commutative. case_match; [by exists true|by exists false]. Qed.

Lemma swap2_cases T i j l :
  exists sw : bool, swap_commutative2 T i j l =
    (sw, if sw then swap_args (swap_args l i j) (S i) (S j) else l).
Proof. unfold swap_commutative2. case_match; [by exists true|by exists false]. Qed.

Lemma shaped_perm op l l' :
  shaped op l -> length l' = length l -> cargs_ok op l' ->
  (forall j, (j < oargs op)%nat -> arg l' j = arg l j) ->
  (forall j, is_input op j -> exists k, is_input op k /\ arg l' j = arg l k) ->
  shaped op l'.
Proof.
  intros [Hp Hc Hl Ho Hi] El Hc' Eo Ei. split; [done|done|congruence|..]; intros j Hj.
  - rewrite Eo by done. by apply Ho.
  - destruct (Ei j Hj) as (k & Hk & ->). by apply Hi.
Qed.

(** What canonicalising keeps. *)
Record canon_ok (op : TCGOpcode) (l l' : list Z) : Prop := {
  co_shaped : shaped op l';
  co_out : forall j, (j < oargs op)%nat -> arg l' j = arg l j;
  co_in : forall j, is_input op j -> exists k, is_input op k /\ arg l' j = arg l k;
  co_value : forall m, pure_value op m l' = pure_value op m l;
  co_exec : forall keep m, exec_op s host keep (mkOp op l') m = exec_op s host keep (mkOp op l) m;
  co_or : forall w, op = op_bin Bor w -> arg l' 1 = arg l' 2 -> arg l 1 = arg l' 1 /\ arg l 2 = arg l' 1;
}.

Lemma canon_refl op l : shaped op l -> canon_ok op l l.
Proof. split; eauto. Qed.

Ltac explode l H := let E := fresh in pose proof (sh_len _ _ H) as E; args_of l E.

Ltac operand k := exists k; split; [input|done].
Ltac operands :=
  let j := fresh "j" in intros j; unfold is_input, oargs, iargs;
  cbn [nb_oargs nb_iargs tcg_op_defs]; intros;
  assert (j = 0 \/ j = 1 \/ j = 2 \/ j = 3 \/ j = 4 \/ j = 5)%nat as [-> | [-> | [-> | [-> | [-> | ->]]]]] by lia;
  try lia;
  first [operand 0%nat | operand 1%nat | operand 2%nat | operand 3%nat | operand 4%nat | operand 5%nat].

Lemma canon_pure op l l' :
  pure op = true -> (forall w, op <> op_mov w) -> shaped op l -> length l' = length l -> cargs_ok op l' ->
  (forall j, is_input op j -> exists k, is_input op k /\ arg l' j = arg l k) -> arg l' 0 = arg l 0 ->
  (forall m, pure_value op m l' = pure_value op m l) ->
  (forall w, op = op_bin Bor w -> arg l' 1 = arg l' 2 -> arg l 1 = arg l' 1 /\ arg l 2 = arg l' 1) ->
  canon_ok op l l'.
Proof.
  intros Hp Hm Hs Hl Hc Hi H0 Hv Hor. assert (oargs op = 1%nat) as Ho by (destruct op; try done; by destruct b).
  assert (forall j, (j < oargs op)%nat -> arg l' j = arg l j) as Hout
    by (intros j Hj; by replace j with 0%nat by lia).
  split; [by apply (shaped_perm _ l)|done|done|done| |done].
  intros keep m. by rewrite !exec_pure, Hv, H0 by done.
Qed.

Lemma canon_bin T b w l :
  commutative b = true -> shaped (op_bin b w) l ->
  canon_ok (op_bin b w) l (snd (swap_commutative T (arg l 0) 1 2 l)).
Proof.
  intros Hb Hs. destruct (swap_cases T (arg l 0) 1 2 l) as [[] ->]; [|by apply canon_refl].
  pose proof (sh_len _ _ Hs) as Hl. rewrite (proj1 (proj2 (proj2 (arity_bin b w)))) in Hl.
  destruct l as [|a [|x [|y [|]]]]; try done. cbn.
  apply canon_pure; try done.
  - intros j Hj. unfold is_input in Hj. destruct (arity_bin b w) as (E1 & E2 & _). rewrite E1, E2 in Hj.
    exists (3 - j)%nat. split; [apply is_input_bin; lia|].
    assert (j = 1 \/ j = 2)%nat as [-> | ->] by lia; done.
  - intros m. cbn. by apply bin_comm.
Qed.

Lemma canon_setcond T w l :
  shaped (op_setcond w) l -> canon_ok (op_setcond w) l (canonicalize T (op_setcond w) l).
Proof.
  intros Hs. cbn. destruct (swap_cases T (arg l 0) 1 2 l) as [[] ->]; [|by apply canon_refl].
  explode l Hs. cbn. pose proof (sh_cargs _ _ Hs) as Hc. cbn in Hc. apply canon_pure; try done.
  - by apply conds_closed.
  - operands.
  - intros m. cbn. by rewrite swap_cond_sem.
Qed.

Lemma canon_setcond2 T l : shaped op_setcond2 l -> canon_ok op_setcond2 l (canonicalize T op_setcond2 l).
Proof.
  intros Hs. cbn. destruct (swap2_cases T 1 3 l) as [[] ->]; [|by apply canon_refl].
  explode l Hs. cbn. pose proof (sh_cargs _ _ Hs) as Hc. cbn in Hc. apply canon_pure; try done.
  - by apply conds_closed.
  - operands.
  - intros m. cbn. by rewrite swap_cond_sem.
Qed.

Lemma canon_movcond T w l :
  shaped (op_movcond w) l -> canon_ok (op_movcond w) l (canonicalize T (op_movcond w) l).
Proof.
  intros Hs. pose proof (sh_cargs _ _ Hs) as Hc. cbn [cargs_ok] in Hc.
  cbn [canonicalize]. destruct (swap_cases T ones64 1 2 l) as [sw1 ->]. cbv beta iota zeta.
  match goal with |- context [swap_commutative T ?d 4 3 ?l] => destruct (swap_cases T d 4 3 l) as [sw2 ->] end.
  destruct (conds_closed _ Hc) as [Hs1 Hs2]. destruct (conds_closed _ Hs1) as [_ Hs3].
  explode l Hs. cbn in Hc, Hs1, Hs2, Hs3. destruct sw1, sw2; cbn; try (by apply canon_refl);
    (apply canon_pure; [done|done|done|done|done|operands|done| |done]);
    intros m; cbn; rewrite ?invert_cond_sem, ?swap_cond_sem by done; try done;
    by destruct (cond_sem _ _ _ _) as [[]|].
Qed.

(** The operations that do not only compute one value. *)
Lemma canon_effect op l l' :
  pure op = false -> shaped op l -> length l' = length l -> cargs_ok op l' ->
  (forall j, (j < oargs op)%nat -> arg l' j = arg l j) ->
  (forall j, is_input op j -> exists k, is_input op k /\ arg l' j = arg l k) ->
  (forall keep m, exec_op s host keep (mkOp op l') m = exec_op s host keep (mkOp op l) m) ->
  canon_ok op l l'.
Proof.
  intros Hp Hs Hl Hc Ho Hi He. split; [by apply (shaped_perm _ l)|done|done| |done|by intros w ->].
  intros m. by destruct op.
Qed.

Lemma canon_brcond T w l :
  shaped (op_brcond w) l -> canon_ok (op_brcond w) l (canonicalize T (op_brcond w) l).
Proof.
  intros Hs. cbn. destruct (swap_cases T ones64 0 1 l) as [[] ->]; [|by apply canon_refl].
  explode l Hs. cbn. pose proof (sh_cargs _ _ Hs) as Hc. cbn in Hc.
  apply canon_effect; [done|done|done|by apply conds_closed|by intros j Hj%Nat.nlt_0_r|operands|].
  intros keep m. cbn. by rewrite swap_cond_sem.
Qed.

Lemma canon_brcond2 T l : shaped op_brcond2 l -> canon_ok op_brcond2 l (canonicalize T op_brcond2 l).
Proof.
  intros Hs. cbn. destruct (swap2_cases T 0 2 l) as [[] ->]; [|by apply canon_refl].
  explode l Hs. cbn. pose proof (sh_cargs _ _ Hs) as Hc. cbn in Hc.
  apply canon_effect; [done|done|done|by apply conds_closed|by intros j Hj%Nat.nlt_0_r|operands|].
  intros keep m. cbn. by rewrite swap_cond_sem.
Qed.

Ltac outs2 := let j := fresh in intros j ?; assert (j = 0 \/ j = 1)%nat as [-> | ->] by (cbn in *; lia); done.

Lemma canon_add2 T w l : shaped (op_add2 w) l -> canon_ok (op_add2 w) l (canonicalize T (op_add2 w) l).
Proof.
  intros Hs. cbn [canonicalize]. destruct (swap_cases T (arg l 0) 2 4 l) as [sw1 ->]. cbn [snd].
  match goal with |- context [swap_commutative T ?d 3 5 ?l] => destruct (swap_cases T d 3 5 l) as [sw2 ->] end.
  cbn [snd]. explode l Hs.
  apply canon_effect; try done; try (by destruct sw1, sw2); [by destruct sw1, sw2; outs2|by destruct sw1, sw2; cbn; operands|].
  intros keep m. destruct sw1, sw2; cbn; unfold put2, pair_of; cbn; repeat (f_equal; try lia).
Qed.

Lemma canon_mul2 T op w l :
  op = op_mulu2 w \/ op = op_muls2 w -> shaped op l -> canon_ok op l (canonicalize T op l).
Proof.
  intros [-> | ->] Hs; cbn [canonicalize]; destruct (swap_cases T (arg l 0) 2 3 l) as [[] ->];
    cbn [snd]; try (by apply canon_refl); explode l Hs;
    (apply canon_effect; try done; [outs2|cbn; operands|]);
    intros keep m; cbn; unfold put2; cbn; repeat (f_equal; try lia).
Qed.

Lemma canonicalize_ok T op l : shaped op l -> canon_ok op l (canonicalize T op l).
Proof.
  intros Hs. destruct op; try (by apply canon_refl).
  - by apply canon_setcond.
  - by apply canon_movcond.
  - destruct b; try (by apply canon_refl); by apply canon_bin.
  - by apply canon_brcond.
  - by apply canon_brcond2.
  - by apply canon_setcond2.
  - by apply canon_add2.
  - apply (canon_mul2 _ _ w); auto.
  - apply (canon_mul2 _ _ w); auto.
Qed.

(** *** Copies in the inputs *)

(** [c] is [t] or a copy of it. *)
Definition better (T : temps_t) (m : mstate W) (t c : Z) : Prop :=
  valid c /\ type s c = type s t /\ uwrap (ty t) (regs m t) = uwrap (ty t) (regs m c) /\
  (c = t \/ (is_copy (T t) = true /\ is_copy (T c) = true)).

Lemma propagate_spec T m n i l :
  sound s T (regs m) -> (i + n <= length l)%nat -> (forall j, (i <= j < i + n)%nat -> valid (arg l j)) ->
  exists l', propagate s T n i l = Ok l' /\ length l' = length l /\
    (forall j, ~ (i <= j < i + n)%nat -> arg l' j = arg l j) /\
    (forall j, (i <= j < i + n)%nat -> better T m (arg l j) (arg l' j)).
Proof.
  intros Hs. revert i l. induction n as [|n IH]; intros i l Hl Hv; cbn.
  - exists l. split_and!; try done. intros j Hj. lia.
  - assert (exists c, (if is_copy (T (arg l i)) then find_better_copy s T (arg l i) else Ok (arg l i)) = Ok c /\
      better T m (arg l i) c) as (c & -> & Hc).
    { specialize (Hv i ltac:(lia)). destruct (is_copy (T (arg l i))) eqn:Ec.
      - destruct (find_better_copy_sound s T (regs m) _ Hs Hv Ec) as (c & -> & Vc & Tc & Rc & Cc).
        exists c. split; [done|]. split; [done|]. split; [done|]. split; [done|]. by right.
      - exists (arg l i). split; [done|]. split; [done|]. split_and!; auto. }
    cbn. assert (forall j, j <> i -> arg (<[i:=c]> l) j = arg l j) as Eo.
    { intros j Hj. unfold arg. by rewrite !nth_lookup, list_lookup_insert_ne by done. }
    assert (arg (<[i:=c]> l) i = c) as Ei.
    { unfold arg. by rewrite nth_lookup, list_lookup_insert_eq by lia. }
    destruct (IH (S i) (<[i:=c]> l)) as (l' & -> & L & O & I).
    { rewrite length_insert. lia. }
    { intros j Hj. rewrite Eo by lia. apply Hv. lia. }
    exists l'. rewrite length_insert in L. split; [done|]. split; [done|]. split; intros j Hj.
    + rewrite O, Eo by lia. done.
    + destruct (decide (j = i)) as [->|]; [by rewrite O, Ei by lia|].
      rewrite <- (Eo j) by done. apply I. lia.
Qed.

End sem.
End TcgSem.
