(* ===== verification/TcgBits.v ===== *)
(** The masks of known-zero bits (tcg/optimize.c, the fourth [switch] of the
    loop): the value of an operation has no bit outside its mask, and an
    operation that affects no bit its first input can have copies it. *)
From Stdlib Require Import ZArith Lia Bool Btauto.
From stdpp Require Import base numbers list.
From S2P Require Import Prelude HostUtils TcgOp TcgOpt TcgRing TcgArith TcgSem.
Local Open Scope Z_scope.

Module TcgBits.
Import HostUtils.HostUtils Tcg TcgOpt TcgRing TcgArith TcgSem.

(** *** Values fit their width *)

Lemma byte_fits i x : fits 8 (byte_of i x).
Proof. apply uwrap_fits. lia. Qed.

Lemma bswap_fits n x : fits (8 * Z.of_nat n) (bswap n x).
Proof.
  unfold bswap. assert (forall l, (forall i, i ∈ l -> (i < n)%nat) ->
    fits (8 * Z.of_nat n) (foldr (fun i acc => Z.lor acc (Z.shiftl (byte_of (Z.of_nat i) x)
      (8 * (Z.of_nat n - 1 - Z.of_nat i)))) 0 l)) as H.
  { induction l as [|i l IH]; intros Hl; cbn [foldr]; [split; [done|apply pow2_pos; lia]|].
    assert (i < n)%nat by (apply Hl; left).
    apply fits_lor; [lia|apply IH; intros j Hj; apply Hl; by right|].
    apply (fits_weaken (8 + 8 * (Z.of_nat n - 1 - Z.of_nat i))); [lia|].
    apply fits_shiftl; [lia|lia|apply byte_fits]. }
  apply H. intros i Hi. apply elem_of_seq in Hi. lia.
Qed.

Lemma un_sem_fits u w x v :
  fits (bits w) x -> present (op_un u w) = true -> un_sem u (bits w) x = Some v -> fits (bits w) v.
Proof.
  intros Hx Hp. pose proof (W_pos w) as Hw.
  assert (forall z, fits (bits w) (uwrap (bits w) z)) as Hu by (intros; apply uwrap_fits; lia).
  assert (forall k z, 0 <= k <= bits w -> fits (bits w) (uwrap k z)) as Hk
    by (intros; apply (fits_weaken k); [lia|apply uwrap_fits; lia]).
  assert (32 <= bits w) by (destruct w; cbn; lia).
  destruct u; cbn; try case_match; intros [= <-]; try apply Hu; try (apply Hk; lia).
  - apply (fits_weaken 16); [lia|apply (bswap_fits 2)].
  - apply (fits_weaken 32); [lia|apply (bswap_fits 4)].
  - destruct w; [done|]. apply (bswap_fits 8).
Qed.

Lemma deposit_sem_fits w x y pos len v :
  fits (bits w) x -> deposit_sem (bits w) x y pos len = Some v -> fits (bits w) v.
Proof.
  intros Hx. unfold deposit_sem. destruct (_ && _ && _) eqn:E; [|done]. intros [= <-].
  pose proof (W_pos w). apply fits_lor; [lia|apply fits_land_l; [lia|done]|].
  apply fits_land_r; [lia|]. apply (fits_weaken (len + pos)); [lia|]. apply fits_shiftl; [lia|lia|].
  unfold fits. rewrite Z.ones_equiv. pose proof (pow2_pos len). lia.
Qed.

Lemma cbool_fits w b : 0 < w -> fits w (cbool b).
Proof. intros Hw. pose proof (Z.pow_gt_1 2 w ltac:(lia)). unfold fits. destruct b; cbn; lia. Qed.

(** The width of a computing operation is that of its output. *)
Lemma op_width_pure op wd :
  present op = true -> pure op = true -> out_type op = Some wd -> op_width op = wd.
Proof.
  unfold op_width. intros Hp Hq Ho. destruct op; try done; injection Ho as <-; try (by destruct w).
  - by destruct b, w.
  - done.
Qed.

Lemma pure_out op : pure op = true -> exists w, out_type op = Some w /\ oargs op = 1%nat.
Proof. destruct op; try done; eauto. destruct b; eauto. Qed.

Ltac input := first [apply is_input_bin; lia | unfold is_input; cbn; lia].

Section bits.
Context {W : Type} (s : TCGContext).
Notation valid := (valid s).
Notation shaped := (shaped s).

Lemma pure_value_fits op (m : mstate W) l wd v :
  shaped op l -> out_type op = Some wd -> pure_value op m l = Some v -> fits (bits wd) v.
Proof.
  intros Hs Ho. pose proof (W_pos wd).
  assert (forall t, fits (bits wd) (opnd wd m t)) as Hf by (intros; apply opnd_fits).
  destruct op; try done; injection Ho as <-; cbn [pure_value].
  - intros [= <-]. apply Hf.
  - intros [= <-]. apply uwrap_fits. lia.
  - destruct (cond_sem _ _ _ _); [|done]. intros [= <-]. apply cbool_fits. lia.
  - destruct (cond_sem _ _ _ _) as [[]|]; [| |done]; intros [= <-]; apply Hf.
  - apply bin_sem_fits; apply Hf.
  - apply un_sem_fits; [apply Hf|apply Hs].
  - apply deposit_sem_fits, Hf.
  - destruct (cond_sem _ _ _ _); [|done]. intros [= <-]. apply cbool_fits. cbn; lia.
Qed.

Lemma shaped_arg op l w j :
  shaped op l -> is_input op j -> in_type op = Some w -> valid (arg l j) /\ type s (arg l j) = w.
Proof. intros Hs Hj Hw. pose proof (sh_in _ _ _ Hs j Hj) as [H1 H2]. by rewrite Hw in H2. Qed.

Lemma shaped_valid op l j : shaped op l -> is_input op j -> valid (arg l j).
Proof. intros Hs Hj. apply (sh_in _ _ _ Hs j Hj). Qed.

Lemma shaped_dst op l w :
  shaped op l -> pure op = true -> out_type op = Some w -> valid (arg l 0) /\ type s (arg l 0) = w.
Proof.
  intros Hs Hp Hw. destruct (pure_out op Hp) as (w' & E & Ho).
  destruct (sh_out _ _ _ Hs 0%nat ltac:(lia)) as [H1 H2]. by rewrite Hw in H2.
Qed.
(** *** What the facts say of an operand *)
Section facts.
Context (T : temps_t) (m : mstate W).
Hypothesis (Hs : sound s T (regs m)).

Lemma opnd_within w t : valid t -> within (opnd w m t) (mask (T t)).
Proof.
  intros Ht. apply (within_trans _ (regs m t)); [apply within_uwrap, bits_pos|]. by apply Hs.
Qed.

Lemma opnd_const w t :
  valid t -> type s t = w -> is_const (T t) = true ->
  opnd w m t = uwrap (bits w) (val (T t)) /\ mask (T t) = val (T t) /\ fits 64 (val (T t)).
Proof.
  intros Ht Hw Hc. destruct (wf_const _ _ (s_wf _ _ _ Hs) t Ht Hc) as [Hf Hm].
  split; [|done]. pose proof (s_const _ _ _ Hs t Ht Hc) as E. unfold ty in E. by rewrite Hw in E.
Qed.

Lemma mask_fits t : valid t -> fits 64 (mask (T t)).
Proof. apply (wf_mask _ _ (s_wf _ _ _ Hs)). Qed.

Lemma opnd_known w t v :
  valid t -> type s t = w -> known T t v = true -> opnd w m t = uwrap (bits w) v.
Proof.
  intros Ht Hw [Hc <-%Z.eqb_eq]%andb_true_iff. by apply opnd_const.
Qed.

Lemma land_within w x c : fits (bits w) x -> within x c -> Z.land x (uwrap (bits w) c) = x.
Proof.
  intros Hx H. pose proof (W_pos w). apply Z.bits_inj'. intros i Hi. rewrite Z.land_spec, uwrap_spec by lia.
  destruct (Z.testbit x i) eqn:E; [|done]. rewrite (H i Hi E).
  destruct (Z.ltb_spec i (bits w)); [done|]. by rewrite (fits_testbit (bits w)) in E by (done || lia).
Qed.

Lemma ext_affected k w t :
  0 <= k <= 32 -> valid t -> snd (and_const (mask (T t)) (Z.ones k)) = 0 ->
  uwrap k (opnd w m t) = opnd w m t /\
  (is_const (T t) = true -> uwrap (bits w) (val (T t)) = opnd w m t).
Proof.
  intros Hk Ht Ha. pose proof (W_pos w). pose proof (opnd_fits w m t) as Hf.
  assert (uwrap k (opnd w m t) = opnd w m t) as E.
  { apply within_ones_id; [lia|apply Hf|]. apply (affected_zero _ (mask (T t))); [|by apply opnd_within|done].
    by apply (fits_bits w). }
  split; [done|]. intros Hc. destruct (wf_const _ _ (s_wf _ _ _ Hs) t Ht Hc) as [Hv Em]. rewrite Em in Ha.
  assert (uwrap k (val (T t)) = val (T t)) as Ek.
  { apply within_ones_id; [lia|apply Hv|]. apply (affected_zero _ (val (T t))); [done|apply within_refl|done]. }
  assert (uwrap (bits w) (val (T t)) = val (T t)) as Ew.
  { apply uwrap_id, (fits_weaken k); [destruct w; cbn; lia|]. rewrite <- Ek. apply uwrap_fits. lia. }
  rewrite Ew, <- Ek, <- E. unfold opnd. rewrite uwrap_min by (destruct w; cbn; lia).
  pose proof (s_const _ _ _ Hs t Ht Hc) as E1. unfold ty in E1.
  rewrite <- (uwrap_min k (bits (type s t)) (regs m t)), E1 by (destruct (type s t); cbn; lia).
  symmetry. apply uwrap_min. destruct (type s t); cbn; lia.
Qed.
(** *** The masks *)
Lemma u64_fits x : fits 64 (u64 x).
Proof. apply uwrap_fits. lia. Qed.

Lemma shl64_fits x n : fits 64 (shl 64 x n).
Proof. apply uwrap_fits. lia. Qed.

Lemma shr_fits w x n : 0 < w -> fits w x -> fits w (shr w x n).
Proof. intros Hw Hx. apply fits_shiftr; [done|]. by apply Z.mod_pos_bound. Qed.

Lemma ones64_fits : fits 64 ones64.
Proof. done. Qed.

Lemma zero_bits_fits op l : shaped op l -> pure op = true -> fits 64 (fst (zero_bits T op l)).
Proof.
  intros Hsh Hp. pose proof ones64_fits.
  assert (forall j, is_input op j -> fits 64 (mask (T (arg l j)))) as Hm
    by (intros; apply mask_fits, (shaped_valid op); done).
  assert (forall x m, fits 64 x -> fits 64 (Z.land x m)) as Hl by (intros; by apply fits_land_l).
  assert (forall x y, fits 64 x -> fits 64 y -> fits 64 (Z.lor x y)) as Ho by (intros; by apply fits_lor).
  destruct op; try done; cbn [zero_bits].
  - apply Ho; apply Hm; input.
  - assert (fits 64 (mask (T (arg l 1))) /\ fits 64 (mask (T (arg l 2)))) as [H1 H2]
      by (split; apply Hm; input).
    assert (forall x, fits 64 (shr 32 (u32 x) (val (T (arg l 2))))) as Hr.
    { intros x. apply (fits_weaken 32); [lia|]. apply shr_fits; [lia|]. apply uwrap_fits. lia. }
    destruct b, w; try done; try (case_match; try done); cbn [fst and_const];
      first [by auto using u64_fits, shl64_fits | by apply shr_fits].
  - assert (fits 64 (mask (T (arg l 1)))) as H1 by (apply Hm; input).
    destruct u; cbn; try (case_match; try done); cbn; auto using u64_fits.
  - apply Ho; [apply Hl, Hm; input|apply u64_fits].
Qed.

(** A sign extension from a clear sign bit is a zero extension. *)
Lemma sext_known w t k :
  0 < k <= bits w -> valid t -> nz (Z.land (mask (T t)) (bit (k - 1))) = false ->
  uwrap (bits w) (swrap k (opnd w m t)) = uwrap k (opnd w m t).
Proof.
  intros Hk Ht Hm. apply sext_zext; [lia|].
  apply (within_bit _ (mask (T t))); [by apply opnd_within|lia|done].
Qed.

Lemma un_within u w l v :
  shaped (op_un u w) l -> un_sem u (bits w) (opnd w m (arg l 1)) = Some v ->
  within v (fst (zero_bits T (op_un u w) l)).
Proof.
  intros Hsh Hv. pose proof (W_pos w).
  assert (within v ones64) as Hone.
  { apply within_ones64, (fits_bits w), (un_sem_fits u w (opnd w m (arg l 1))); [apply opnd_fits|apply Hsh|done]. }
  assert (valid (arg l 1)) as V by (apply (shaped_valid (op_un u w)); [done|input]).
  pose proof (opnd_within w _ V) as Hw. assert (32 <= bits w) by (destruct w; cbn; lia).
  assert (forall k, 0 < k <= 32 -> nz (Z.land (mask (T (arg l 1))) (bit (k - 1))) = false ->
    within (uwrap (bits w) (swrap k (opnd w m (arg l 1)))) (fst (and_const (mask (T (arg l 1))) (Z.ones k)))) as Hse.
  { intros k Hk Hb. rewrite sext_known by (done || lia). apply ext_mask; [lia|done]. }
  assert (forall k, 0 < k <= 32 ->
    within (uwrap k (opnd w m (arg l 1))) (fst (and_const (mask (T (arg l 1))) (Z.ones k)))) as Hze
    by (intros; apply ext_mask; [lia|done]).
  destruct u; cbn [zero_bits]; try done; cbn [un_sem] in Hv; injection Hv as <-.
  - apply neg_mask; [apply opnd_fits|by apply mask_fits|done].
  - case_match eqn:E; [done|]. apply (Hse 8); [lia|done].
  - apply (Hze 8). lia.
  - case_match eqn:E; [done|]. apply (Hse 16); [lia|done].
  - apply (Hze 16). lia.
  - case_match eqn:E; [done|]. apply (Hse 32); [lia|done].
  - apply (Hze 32). lia.
Qed.

Lemma bin_within b w l v :
  shaped (op_bin b w) l -> bin_sem b (bits w) (opnd w m (arg l 1)) (opnd w m (arg l 2)) = Some v ->
  within v (fst (zero_bits T (op_bin b w) l)).
Proof.
  intros Hsh Hv. pose proof (W_pos w).
  assert (within v ones64) as Hone.
  { apply within_ones64, (fits_bits w). apply (bin_sem_fits b w) in Hv; [done|apply opnd_fits..]. }
  destruct (shaped_arg (op_bin b w) l w 1 Hsh ltac:(input) eq_refl) as [V1 Y1].
  destruct (shaped_arg (op_bin b w) l w 2 Hsh ltac:(input) eq_refl) as [V2 Y2].
  pose proof (opnd_within w _ V1) as Hw1. pose proof (opnd_within w _ V2) as Hw2.
  pose proof (opnd_const w _ V2 Y2) as Hc2. pose proof (opnd_fits w m (arg l 1)) as Hf1.
  destruct b; cbn [zero_bits]; try done;
    try (destruct w, (is_const (T (arg l 2))) eqn:Ec; try done;
         destruct (Hc2 eq_refl) as (E2 & _ & Hf2); rewrite E2 in Hv;
         first [by apply (shl_mask W32 _ _ Hw1) in Hv | by apply (shl_mask W64 _ _ Hw1) in Hv
               |by apply (shr_mask W32 _ _ Hf1 Hw1) in Hv
               |by apply (sar_mask W32 _ _ Hw1) in Hv | by apply (sar_mask W64 _ _ Hw1) in Hv
               |apply (shr_mask W64 _ _ Hf1 Hw1) in Hv; [|done];
                by rewrite (uwrap_id 64) in Hv by (by apply mask_fits)]);
    cbn [bin_sem] in Hv; injection Hv as <-.
  - destruct (is_const _) eqn:Ec; [|by apply within_land]. cbn. by apply within_land.
  - by apply within_lor.
  - by apply within_lxor.
  - destruct (is_const _) eqn:Ec; [|by apply within_land_l].
    destruct (Hc2 eq_refl) as (-> & -> & _). cbn. apply within_land; [done|].
    intros i Hi. rewrite !uwrap_spec, !Z.lnot_spec, uwrap_spec by lia.
    destruct (Z.ltb_spec i (bits w)), (Z.ltb_spec i 64); done || lia.
Qed.

(** The value of an operation has no bit outside its mask. *)
Lemma zero_bits_within op l v :
  shaped op l -> pure_value op m l = Some v -> within v (fst (zero_bits T op l)).
Proof.
  intros Hsh Hv. assert (pure op = true) as Hp by (by destruct op).
  assert (within v ones64) as Hone.
  { destruct (pure_out op Hp) as (w & Hw & _). apply within_ones64, (fits_bits w).
    by apply (pure_value_fits op m l). }
  destruct op; try done.
  - cbn in *. destruct (cond_sem _ _ _ _) as [[]|]; [| |done]; injection Hv as <-;
      [apply within_refl|]. intros i Hi. by rewrite Z.bits_0.
  - cbn in *. destruct (cond_sem _ _ _ _) as [[]|]; [| |done]; injection Hv as <-;
      intros i Hi Hb; rewrite Z.lor_spec, orb_true_iff; [left|right];
      (eapply opnd_within; [|done|done]); (apply (shaped_valid (op_movcond w)); [done|input]).
  - by apply bin_within.
  - by apply un_within.
  - apply deposit_mask with (x := opnd w m (arg l 1)) (y := opnd w m (arg l 2)) (w := w);
      [apply opnd_fits| |apply (sh_cargs _ _ _ Hsh)| |done]; apply opnd_within, (shaped_valid (op_deposit w)); done || input.
Qed.

(** An operation that affects no bit is a move. *)
Lemma affected_input op l : snd (zero_bits T op l) = 0 -> is_input op 1.
Proof.
  destruct op; cbn [zero_bits]; try done; try (by repeat case_match); intros _; input.
Qed.

Lemma un_affected u w l v :
  shaped (op_un u w) l -> un_sem u (bits w) (opnd w m (arg l 1)) = Some v ->
  snd (zero_bits T (op_un u w) l) = 0 ->
  v = opnd w m (arg l 1) /\ (is_const (T (arg l 1)) = true -> uwrap (bits w) (val (T (arg l 1))) = v).
Proof.
  intros Hsh Hv. assert (32 <= bits w) by (destruct w; cbn; lia).
  assert (valid (arg l 1)) as V by (apply (shaped_valid (op_un u w)); [done|input]).
  assert (forall k, 0 < k <= 32 -> v = uwrap k (opnd w m (arg l 1)) ->
    snd (and_const (mask (T (arg l 1))) (Z.ones k)) = 0 ->
    v = opnd w m (arg l 1) /\ (is_const (T (arg l 1)) = true -> uwrap (bits w) (val (T (arg l 1))) = v)) as Hk.
  { intros k Hk -> Ha. destruct (ext_affected k w _ ltac:(lia) V Ha) as [-> ?]. done. }
  destruct u; cbn [zero_bits]; try done; cbn [un_sem] in Hv; injection Hv as E; try case_match eqn:Em; try done.
  - apply (Hk 8); [lia|]. rewrite <- E. apply sext_known; [lia|done|done].
  - by apply (Hk 8).
  - apply (Hk 16); [lia|]. rewrite <- E. apply sext_known; [lia|done|done].
  - by apply (Hk 16).
  - apply (Hk 32); [lia|]. rewrite <- E. apply sext_known; [lia|done|done].
  - by apply (Hk 32).
Qed.

Lemma bin_affected b w l v :
  shaped (op_bin b w) l -> bin_sem b (bits w) (opnd w m (arg l 1)) (opnd w m (arg l 2)) = Some v ->
  snd (zero_bits T (op_bin b w) l) = 0 ->
  v = opnd w m (arg l 1) /\ (is_const (T (arg l 1)) = true -> uwrap (bits w) (val (T (arg l 1))) = v).
Proof.
  intros Hsh Hv Ha. pose proof (W_pos w).
  destruct (shaped_arg (op_bin b w) l w 1 Hsh ltac:(input) eq_refl) as [V1 Y1].
  destruct (shaped_arg (op_bin b w) l w 2 Hsh ltac:(input) eq_refl) as [V2 Y2].
  pose proof (opnd_within w _ V1) as Hw1. pose proof (opnd_fits w m (arg l 1)) as Hf1.
  assert (v = opnd w m (arg l 1)) as ->.
  { destruct b, (is_const (T (arg l 2))) eqn:Ec; cbn [zero_bits] in Ha; rewrite ?Ec in Ha; try done;
      try (by destruct w); destruct (opnd_const w _ V2 Y2 Ec) as (E2 & Em & _);
      apply (affected_zero (opnd w m (arg l 1))) in Ha; try done; try (by apply (fits_bits w));
      rewrite E2 in Hv; cbn [bin_sem] in Hv; injection Hv as <-.
    - apply land_within; [done|]. by rewrite <- Em.
    - rewrite Em in Ha. rewrite <- (land_within w (opnd w m (arg l 1)) (u64 (Z.lnot (val (T (arg l 2)))))) at 2 by done.
      f_equal. apply Z.bits_inj'. intros i Hi. rewrite !uwrap_spec, !Z.lnot_spec, uwrap_spec by lia.
      destruct (Z.ltb_spec i (bits w)), (Z.ltb_spec i 64); done || lia. }
  split; [done|]. intros Hc. symmetry. by apply opnd_const.
Qed.

Lemma zero_bits_affected op l v w :
  shaped op l -> pure_value op m l = Some v -> out_type op = Some w -> snd (zero_bits T op l) = 0 ->
  v = opnd w m (arg l 1) /\ (is_const (T (arg l 1)) = true -> uwrap (bits w) (val (T (arg l 1))) = v).
Proof.
  intros Hsh Hv Hw Ha. destruct op; try done; injection Hw as <-.
  - by apply (bin_affected b).
  - by apply (un_affected u).
Qed.

(** *** After the cut to 32 bits *)
Lemma known_bits_snd op l : snd (known_bits T op l) = snd (zero_bits T op l).
Proof. unfold known_bits. by destruct (zero_bits T op l). Qed.

Lemma known_bits_fits op l : shaped op l -> pure op = true -> fits 64 (fst (known_bits T op l)).
Proof.
  intros Hsh Hp. pose proof (zero_bits_fits op l Hsh Hp) as H. unfold known_bits.
  destruct (zero_bits T op l) as [mk a]. cbn in *. case_match; [by apply fits_land_l|done].
Qed.

Lemma known_bits_within op l v :
  shaped op l -> pure_value op m l = Some v -> within v (fst (known_bits T op l)).
Proof.
  intros Hsh Hv. pose proof (zero_bits_within op l v Hsh Hv) as H. unfold known_bits.
  destruct (zero_bits T op l) as [mk a]. cbn in *. case_match eqn:E; [|done].
  assert (pure op = true) as Hp by (by destruct op).
  destruct (pure_out op Hp) as (w & Hw & _). apply within_mask32; [|done].
  pose proof (pure_value_fits op m l w v Hsh Hw Hv) as Hf.
  pose proof (op_width_pure op w (sh_present _ _ _ Hsh) Hp Hw) as Ew. unfold op_width in Ew.
  apply negb_true_iff, orb_false_iff in E as [_ E]. rewrite E in Ew. by subst w.
Qed.

End facts.

End bits.
(** C21: The masks of known-zero bits are right: a computing operation of typed
    arguments, where it is defined, yields a value with no bit outside the mask
    computed from the facts about its inputs, cut to 32 bits for a 32-bit
    operation; and where the mask of affected bits is empty the value is the
    first input itself, and the constant recorded for that input if there is
    one, so that a move may replace the operation.  Excluded ([shaped]) are the two
    operations the table of opcodes gets wrong, [muluh_i64] and [mulsh_i64]:
    [known_bits_mulh_i64] shows that the mask is wrong for them. *)
Theorem known_bits_sound {W : Type} (s : TCGContext) (T : temps_t) (m : mstate W) op l v w :
  sound s T (regs m) -> shaped s op l -> out_type op = Some w -> pure_value op m l = Some v ->
  within v (fst (known_bits T op l)) /\ fits (bits w) v /\
  (snd (known_bits T op l) = 0 ->
     v = opnd w m (arg l 1) /\
     (is_const (T (arg l 1)) = true -> uwrap (bits w) (val (T (arg l 1))) = v)).
Proof.
  intros Hs Hsh Hw Hv. rewrite known_bits_snd. split; [by apply (known_bits_within s T m Hs)|].
  split; [by apply (pure_value_fits s op m l)|]. by apply (zero_bits_affected s T m Hs).
Qed.

(** The mask of a high product is cut to 32 bits, whatever is known about the
    factors, though the product has 64 bits: its table entry lacks the flag of
    a 64-bit operation. *)
Theorem known_bits_mulh_i64 (T : temps_t) l :
  fst (known_bits T (op_bin Bmuluh W64) l) = 0xffffffff /\ fst (known_bits T (op_bin Bmulsh W64) l) = 0xffffffff /\
  bin_sem Bmuluh 64 (2 ^ 63) (2 ^ 63) = Some (2 ^ 62) /\ ~ within (2 ^ 62) 0xffffffff.
Proof.
  split; [reflexivity|]. split; [reflexivity|]. split; [reflexivity|].
  intros H. by specialize (H 62 ltac:(lia) eq_refl).
Qed.

(** [and_i32] of a temporary holding 0x0f with 0xff. *)
Definition ex_masks : temps_t :=
  snd (tcg_opt_gen_movi (snd (tcg_opt_gen_movi (reset_all_temps 3 (fun _ => mkInfo TCG_TEMP_UNDEF 0 0 0 0)) 1 15)) 2 255).
Definition ex_regs : Z -> Z := rset (rset (fun _ => 0) 1 15) 2 255.

Lemma known_bits_sound_witness :
  let s := mkContext 1 3 (fun _ => W32) (fun _ => false) in
  let m := mkState ex_regs tt in
  known_bits ex_masks (op_bin Band W32) [0; 1; 2] = (15, 0) /\
  pure_value (op_bin Band W32) m [0; 1; 2] = Some 15 /\
  (within 15 15 /\ fits 32 15 /\ (0 = 0 -> 15 = opnd W32 m 1 /\ (true = true -> uwrap 32 15 = 15))).
Proof.
  cbv zeta. split; [by vm_compute|]. split; [by vm_compute|].
  apply (known_bits_sound (mkContext 1 3 (fun _ => W32) (fun _ => false)) ex_masks (mkState ex_regs tt)
    (op_bin Band W32) [0; 1; 2] 15 W32); [| |done|by vm_compute].
  - apply (sound_movi (mkContext 1 3 (fun _ => W32) (fun _ => false)) _ _ 2 255); [|split; done|done].
    apply (sound_movi (mkContext 1 3 (fun _ => W32) (fun _ => false)) _ _ 1 15); [|split; done|done].
    by apply sound_reset_all.
  - split; [done|done|done|..]; intros j Hj; unfold is_input in Hj; cbn in Hj.
    + replace j with 0%nat by lia. by split.
    + assert (j = 1 \/ j = 2)%nat as [-> | ->] by lia; by split.
Defined.

End TcgBits.
