(* ===== verification/TcgSound.v ===== *)
(** One computing operation through the optimiser: every way the loop body
    replaces it leaves a state the facts are true of, with the value the
    operation is specified to yield in its output. *)
From Stdlib Require Import ZArith Lia Bool Btauto.
From stdpp Require Import base numbers list.
From S2P Require Import Prelude HostUtils TcgOp TcgOpt TcgRing TcgArith TcgSem TcgBits.
Local Open Scope Z_scope.

Module TcgSound.
Import HostUtils.HostUtils Tcg TcgOpt TcgRing TcgArith TcgSem TcgBits.

Definition shift_op (b : binop) : bool :=
  match b with Bshl | Bshr | Bsar | Brotl | Brotr => true | _ => false end.

Definition signed_div (op : TCGOpcode) : bool :=
  match op with op_bin (Bdiv | Brem) _ => true | _ => false end.

Section sound.
Context {W : Type} (s : TCGContext) (host : Host W).
Notation valid := (valid s).
Notation ty := (ty s).
Notation shaped := (shaped s).
Notation sound := (sound s).
Notation wf := (wf s).

Section facts.
Context (T : temps_t) (m : mstate W).
Hypothesis (Hs : sound T (regs m)).
(** That the operation is a signed division. *)
Context (dv : Prop).

(** *** What an emission must do *)

(** [m'] is [m] with [v], of the type of [dst], in [dst]. *)
Definition assigned (m' : mstate W) (dst v : Z) : Prop :=
  world m' = world m /\ (forall t, t <> dst -> regs m' t = regs m t) /\
  uwrap (ty dst) (regs m' dst) = uwrap (ty dst) v.

Record emits (dst : Z) (ov : option Z) (e : emitted) : Prop := {
  em_wf : wf (snd e);
  em_op : exists i, fst e = [i] /\ opc i <> op_set_label /\
    forall v keep, ov = Some v ->
      exists m', exec_op s host keep i m = Fall m' /\ assigned m' dst v /\ sound (snd e) (regs m');
}.

(** A stage passes, emits, or divides [INT_MIN] by -1 in a signed division that
    is undefined. *)
Definition good (dst : Z) (ov : option Z) (f : stage) : Prop :=
  f = pass \/ (exists e, f = continue e /\ emits dst ov e) \/ (f = Fault DivOverflow /\ ov = None /\ dv).
Definition finished (dst : Z) (ov : option Z) (f : outcome emitted) : Prop :=
  (exists e, f = Ok e /\ emits dst ov e) \/ (f = Fault DivOverflow /\ ov = None /\ dv).

Lemma good_orelse dst ov f g : good dst ov f -> finished dst ov g -> finished dst ov (orelse f g).
Proof.
  intros [-> | [(e & -> & He)|[-> ?]]] Hg; [done|by left; exists e|by right].
Qed.

Lemma good_pass dst ov : good dst ov pass.
Proof. by left. Qed.

Lemma good_emit dst ov f : finished dst ov f -> good dst ov (e <~ f ;; continue e).
Proof. intros [(e & -> & He)|[-> ?]]; right; [left; by exists e|by right]. Qed.

Lemma finished_emit dst ov e : emits dst ov e -> finished dst ov (Ok e).
Proof. intros He. left. by exists e. Qed.

Lemma good_continue dst ov e : emits dst ov e -> good dst ov (continue e).
Proof. intros He. right. left. by exists e. Qed.

(** *** The four emissions *)

Lemma assigned_put dst v v' : uwrap (ty dst) v' = uwrap (ty dst) v -> assigned (put m dst v') dst v.
Proof.
  intros H. split; [done|]. split; cbn; [intros; by apply rset_other|by rewrite rset_same].
Qed.

Lemma emits_movi w dst v0 ov :
  valid dst -> type s dst = w -> fits 64 v0 ->
  (forall v, ov = Some v -> uwrap (bits w) v0 = uwrap (bits w) v) ->
  emits dst ov (emit_op (op_movi w) (tcg_opt_gen_movi T dst v0)).
Proof.
  intros Hd Ht Hf Hv. pose proof (sound_movi s T (regs m) dst v0 Hs Hd Hf) as H.
  unfold TcgRing.ty in H. rewrite Ht in H. split; [apply H|].
  eexists. split; [done|]. split; [done|]. intros v keep E. eexists. split; [done|]. split; [|done].
  apply assigned_put. unfold TcgRing.ty. rewrite Ht. cbn. rewrite uwrap_idem by apply bits_pos. auto.
Qed.

Lemma emits_nop dst ov :
  (forall v, ov = Some v -> uwrap (ty dst) (regs m dst) = uwrap (ty dst) v) -> emits dst ov (emit_nop T).
Proof.
  intros Hv. split; [apply Hs|]. eexists. split; [done|]. split; [done|]. intros v keep E.
  exists m. split; [done|]. split; [|done]. split; [done|]. split; [done|auto].
Qed.

Lemma emits_mov w dst src ov :
  valid dst -> type s dst = w -> valid src -> dst <> src -> is_const (T src) = false ->
  (forall v, ov = Some v -> uwrap (bits w) (regs m src) = uwrap (bits w) v) ->
  exists r, tcg_opt_gen_mov s T dst src = Ok r /\ emits dst ov (emit_op (op_mov w) r).
Proof.
  intros Hd Ht Hv Hne Hk Hov.
  assert (forall keep : bool, exists T', tcg_opt_gen_mov s T dst src = Ok ([dst; src], T') /\
    sound T' (rset (regs m) dst (if keep then regs m src else opnd w m src))) as H.
  { intros keep. apply sound_mov; try done.
    - destruct keep; [apply Hs|apply uwrap_bits_64].
    - destruct keep; [by apply Hs|by apply (opnd_within s T m Hs)].
    - intros E. unfold TcgRing.ty. rewrite Ht. destruct keep; [done|]. apply uwrap_idem, bits_pos. }
  destruct (H true) as (T' & E & HT'). exists ([dst; src], T'). split; [done|]. split; [apply HT'|].
  eexists. split; [done|]. split; [done|]. intros v keep Ev. eexists. split; [done|]. split.
  - apply assigned_put. unfold TcgRing.ty. rewrite Ht, <- (Hov v Ev). cbn.
    destruct keep; [done|]. apply uwrap_idem, bits_pos.
  - destruct (H keep) as (T2 & E2 & H2). rewrite E in E2. injection E2 as <-. done.
Qed.

(** An operation that stays, with what is recorded of its output. *)
Lemma emits_op op l T' w ov :
  shaped op l -> pure op = true -> (forall w, op <> op_mov w) -> out_type op = Some w ->
  ov = pure_value op m l -> wf T' ->
  (forall v, ov = Some v -> sound T' (rset (regs m) (arg l 0) v)) ->
  emits (arg l 0) ov ([mkOp op l], T').
Proof.
  intros Hsh Hp Hm Hw -> Hwf HT'. split; [done|]. eexists. split; [done|]. split; [by destruct op|].
  intros v keep E. exists (put m (arg l 0) v). rewrite exec_pure, E by done. split; [done|].
  split; [by apply assigned_put|]. by apply HT'.
Qed.

(** Copying one temporary to another, in whichever way. *)
Lemma emits_copies w dst src ov :
  valid dst -> type s dst = w -> valid src ->
  (forall v, ov = Some v -> uwrap (bits w) (regs m src) = uwrap (bits w) v /\
     (is_const (T src) = true -> uwrap (bits w) (val (T src)) = uwrap (bits w) v)) ->
  exists same, temps_are_copies s T dst src = Ok same /\
    (same = true -> emits dst ov (emit_nop T)) /\
    (same = false -> is_const (T src) = false ->
       exists r, tcg_opt_gen_mov s T dst src = Ok r /\ emits dst ov (emit_op (op_mov w) r)) /\
    (is_const (T src) = true -> emits dst ov (emit_op (op_movi w) (tcg_opt_gen_movi T dst (val (T src))))).
Proof.
  intros Hd Ht Hv Hov. destruct (temps_are_copies_sound s T (regs m) dst src Hs Hd Hv) as (same & E & H1 & H2 & _).
  exists same. split; [done|]. split_and!.
  - intros Es. destruct (H1 Es) as [_ Er]. apply emits_nop. intros v Ev. rewrite Er.
    unfold TcgRing.ty. rewrite Ht. by apply Hov.
  - intros Es Hk. apply emits_mov; try done; [intros ->; by rewrite H2 in Es|]. intros v Ev. by apply Hov.
  - intros Hk. apply emits_movi; try done; [by apply (wf_const _ _ (s_wf _ _ _ Hs))|].
    intros v Ev. by apply Hov.
Qed.

Lemma finished_copy op w dst src ov :
  op_width op = w -> valid dst -> type s dst = w -> valid src -> is_const (T src) = false ->
  (forall v, ov = Some v -> uwrap (bits w) (regs m src) = uwrap (bits w) v) ->
  finished dst ov (emit_copy s op T dst src).
Proof.
  intros Hop Hd Ht Hv Hk Hov.
  destruct (emits_copies w dst src ov Hd Ht Hv) as (same & E & H1 & H2 & _).
  { intros v Ev. split; [auto|congruence]. }
  unfold emit_copy, emit_mov, op_to_mov. rewrite E, Hop. cbn. destruct same; [by apply finished_emit, H1|].
  destruct (H2 eq_refl Hk) as (r & -> & He). by apply finished_emit.
Qed.

(** *** The stages

    [op] is the operation with its inputs replaced by copies and constants
    second; an [or] of one temporary with itself has no constant there. *)
Section stages.
Context (op : TCGOpcode) (l : list Z) (w : width).
Hypothesis (Hsh : shaped op l) (Hp : pure op = true) (Hw : out_type op = Some w).
Notation dst := (arg l 0).
Notation value := (pure_value op m l).

Lemma dst_ok : valid dst /\ type s dst = w.
Proof. by apply (shaped_dst s op). Qed.

Lemma width_ok : op_width op = w.
Proof. apply op_width_pure; [apply Hsh|done|done]. Qed.

Lemma good_movi v0 :
  fits 64 v0 -> (forall v, value = Some v -> uwrap (bits w) v0 = uwrap (bits w) v) ->
  good dst value (continue (emit_movi op T dst v0)).
Proof.
  intros Hf Hv. apply good_continue. unfold emit_movi, op_to_movi. rewrite width_ok.
  destruct dst_ok. by apply emits_movi.
Qed.

Lemma value_fits v : value = Some v -> fits 64 v /\ fits (bits w) v.
Proof.
  intros Hv. pose proof (pure_value_fits s op m l w v Hsh Hw Hv) as H. split; [by apply (fits_bits w)|done].
Qed.

Lemma input_ok j : is_input op j -> valid (arg l j).
Proof. apply (shaped_valid s op l j Hsh). Qed.
End stages.

Lemma bin_args b w l :
  shaped (op_bin b w) l ->
  (valid (arg l 0) /\ type s (arg l 0) = w) /\ (valid (arg l 1) /\ type s (arg l 1) = w) /\
  (valid (arg l 2) /\ type s (arg l 2) = w) /\ op_width (op_bin b w) = w.
Proof.
  intros Hsh. split; [by apply (dst_ok (op_bin b w))|].
  split; [by apply (shaped_arg s (op_bin b w) l w 1 Hsh ltac:(input))|].
  split; [by apply (shaped_arg s (op_bin b w) l w 2 Hsh ltac:(input))|].
  by apply (width_ok (op_bin b w) l).
Qed.

(** A unary operation on one of the inputs in place of a binary one. *)
Lemma good_unary b u w l j :
  shaped (op_bin b w) l -> present (op_un u w) = true -> in_type (op_un u w) = Some w ->
  (j = 1 \/ j = 2)%nat ->
  pure_value (op_bin b w) m l = un_sem u (bits w) (opnd w m (arg l j)) ->
  good (arg l 0) (pure_value (op_bin b w) m l)
    (continue (emit_op (op_un u w) ([arg l 0; arg l j], reset_temp T (arg l 0)))).
Proof.
  intros Hsh Hpr Hin Hj Hv. destruct (bin_args b w l Hsh) as ([Vd Yd] & [V1 Y1] & [V2 Y2] & _).
  assert (valid (arg l j) /\ type s (arg l j) = w) as [Vj Yj] by (destruct Hj as [-> | ->]; done).
  assert (shaped (op_un u w) [arg l 0; arg l j]) as Hsu.
  { split; [done|done|done|..].
    - intros i Hi. by replace i with 0%nat by (cbn in Hi; lia).
    - intros i Hi. rewrite Hin. by replace i with 1%nat by (unfold is_input in Hi; cbn in Hi; lia). }
  apply good_continue. apply (emits_op (op_un u w) [arg l 0; arg l j] (reset_temp T (arg l 0)) w); try done.
  - apply reset_temp_wf; [apply Hs|done].
  - intros v Ev. apply sound_reset; [done|done|]. apply (value_fits _ _ _ Hsh eq_refl v Ev).
Qed.

Lemma simplify_unary_good op l w :
  shaped op l -> pure op = true -> out_type op = Some w ->
  good (arg l 0) (pure_value op m l) (simplify_unary T op l).
Proof.
  intros Hsh Hp Hw. destruct op; try (by apply good_pass); injection Hw as ->.
  destruct (bin_args b w l Hsh) as (_ & [V1 Y1] & [V2 Y2] & Ew).
  pose proof (opnd_fits w m (arg l 1)) as F1. pose proof (opnd_fits w m (arg l 2)) as F2.
  destruct (not_forms w (opnd w m (arg l 1)) (opnd w m (arg l 2)) F1) as (Nxor & Nnand & Nnor & Nandc & Norc & Neqv).
  assert (uwrap (bits w) 0 = 0) as E0 by (by destruct w).
  assert (forall v, known T (arg l 1) v = true -> opnd w m (arg l 1) = uwrap (bits w) v) as K1
    by (intros; by apply (opnd_known s T m)).
  assert (forall v, known T (arg l 2) v = true -> opnd w m (arg l 2) = uwrap (bits w) v) as K2
    by (intros; by apply (opnd_known s T m)).
  assert (forall b', shift_op b' = true -> known T (arg l 1) 0 = true -> forall v,
    pure_value (op_bin b' w) m l = Some v -> uwrap (bits w) 0 = uwrap (bits w) v) as Hz.
  { intros b' Hb Hk v. cbn. rewrite (K1 0 Hk), E0. intros ->%shift_zero; [done|].
    destruct b'; try done; auto 6. }
  destruct b; cbn [simplify_unary]; try (by apply good_pass); rewrite ?Ew;
    repeat (case_match; try (by apply good_pass));
    try (apply (good_movi _ _ w); [done|done|done|done|by apply Hz]);
    repeat match goal with H : (_ && _) = true |- _ => apply andb_true_iff in H as [? ?] end;
    (apply good_unary; [done|by destruct w|by destruct w|auto|]; cbn [pure_value]).
  - rewrite (K1 0), E0 by done. apply sub_from_zero.
  - by rewrite (K2 ones64).
  - by rewrite (K1 ones64).
  - by rewrite (K1 0), E0.
  - by rewrite (K1 0), E0.
  - by rewrite (K2 ones64).
  - by rewrite (K2 0), E0.
Qed.

Lemma simplify_const_good op l w :
  shaped op l -> pure op = true -> out_type op = Some w ->
  good (arg l 0) (pure_value op m l) (simplify_const s T op l).
Proof.
  intros Hsh Hp Hw. destruct op; try (by apply good_pass); injection Hw as ->.
  destruct (bin_args b w l Hsh) as ([Vd Yd] & [V1 Y1] & [V2 Y2] & Ew).
  pose proof (opnd_fits w m (arg l 1)) as F1.
  assert (uwrap (bits w) 0 = 0) as E0 by (by destruct w).
  assert (forall v, known T (arg l 2) v = true -> opnd w m (arg l 2) = uwrap (bits w) v) as K2
    by (intros; by apply (opnd_known s T m)).
  assert (is_const (T (arg l 1)) = false ->
    pure_value (op_bin b w) m l = Some (opnd w m (arg l 1)) ->
    good (arg l 0) (pure_value (op_bin b w) m l)
      (e <~ emit_copy s (op_bin b w) T (arg l 0) (arg l 1) ;; continue e)) as Hmov.
  { intros Hk Hv. apply good_emit, (finished_copy _ w); try done. rewrite Hv. intros v [= <-].
    unfold opnd. symmetry. apply uwrap_idem, bits_pos. }
  destruct b; cbn [simplify_const]; try (by apply good_pass);
    case_match eqn:E; try (by apply good_pass); apply andb_true_iff in E as [Hk%negb_true_iff Hc];
    apply Hmov; try done; cbn [pure_value];
    first [rewrite (K2 0 Hc), E0; apply neutral_zero; [done|tauto]
          |rewrite (K2 ones64 Hc); apply neutral_ones; [done|tauto]].
Qed.

Lemma simplify_zero_good op l w :
  shaped op l -> pure op = true -> out_type op = Some w ->
  good (arg l 0) (pure_value op m l) (simplify_zero T op l).
Proof.
  intros Hsh Hp Hw. destruct op; try (by apply good_pass); injection Hw as ->.
  destruct (bin_args b w l Hsh) as (_ & _ & [V2 Y2] & Ew).
  destruct b; cbn [simplify_zero]; try (by apply good_pass);
    case_match eqn:E; try (by apply good_pass);
    (apply (good_movi _ _ w); [done|done|done|done|]); intros v; cbn [pure_value];
    rewrite (opnd_known s T m Hs w _ 0 V2 Y2 E); replace (uwrap (bits w) 0) with 0 by (by destruct w);
    rewrite absorb_zero by tauto; by intros [= <-].
Qed.

Lemma simplify_bits_good op l w :
  shaped op l -> pure op = true -> out_type op = Some w ->
  good (arg l 0) (pure_value op m l) (simplify_bits s T op l).
Proof.
  intros Hsh Hp Hw. destruct (dst_ok op l w Hsh Hp Hw) as [Vd Yd].
  pose proof (width_ok op l w Hsh Hp Hw) as Ew.
  destruct (pure_out op Hp) as (_ & _ & Ho). unfold oargs in Ho.
  pose proof (known_bits_within s T m Hs op l) as Hb. pose proof (known_bits_snd T op l) as Ha.
  unfold simplify_bits. destruct (known_bits T op l) as [mk aff]. cbn in Hb, Ha. subst aff.
  rewrite Ho, Nat.eqb_refl. cbn [negb].
  destruct (Z.eqb_spec mk 0) as [->|_].
  { apply (good_movi op l w); try done. intros v Ev.
    rewrite (within_0 v 0); [done|..|by apply Hb|done].
    apply (value_fits op l w Hsh Hw v Ev). }
  destruct (Z.eqb_spec (snd (zero_bits T op l)) 0) as [Ha|_]; [|apply good_pass].
  pose proof (shaped_valid s op l 1 Hsh (affected_input T op l Ha)) as V1.
  destruct (emits_copies w (arg l 0) (arg l 1) (pure_value op m l) Vd Yd V1) as (same & -> & H1 & H2 & H3).
  { intros v Ev. destruct (zero_bits_affected s T m Hs op l v w Hsh Ev Hw Ha) as [E Hc].
    destruct (value_fits op l w Hsh Hw v Ev) as [_ Hf]. rewrite (uwrap_id (bits w) v) by done. done. }
  cbn. destruct same; [by apply good_continue, H1|].
  unfold emit_mov, emit_movi, op_to_mov, op_to_movi. rewrite Ew. destruct (is_const _) eqn:Ek; cbn.
  - by apply good_continue, H3.
  - destruct (H2 eq_refl eq_refl) as (r & -> & He). by apply good_continue.
Qed.

Lemma simplify_same_good op l w :
  shaped op l -> pure op = true -> out_type op = Some w ->
  (forall w, op = op_bin Bor w -> arg l 1 = arg l 2 -> is_const (T (arg l 1)) = false) ->
  simplify_bits s T op l = pass ->
  good (arg l 0) (pure_value op m l) (simplify_same s T op l).
Proof.
  intros Hsh Hp Hw Hor Hbits. destruct op; try (by apply good_pass); injection Hw as ->.
  destruct (bin_args b w l Hsh) as ([Vd Yd] & [V1 Y1] & [V2 Y2] & Ew).
  destruct (temps_are_copies_sound s T (regs m) _ _ Hs V1 V2) as (same & E & H1 & H2 & H3).
  assert (same = true -> opnd w m (arg l 2) = opnd w m (arg l 1)) as Eo.
  { intros Es. destruct (H1 Es) as [_ Er]. unfold TcgRing.ty in Er. by rewrite Y1 in Er. }
  assert (b = Bor \/ b = Band -> same = true -> is_const (T (arg l 1)) = false) as Hk.
  { intros Hb Es. destruct (decide (arg l 1 = arg l 2)) as [Ea|Ha]; [|by apply H3].
    destruct Hb as [-> | ->]; [by apply (Hor w)|]. destruct (is_const (T (arg l 1))) eqn:Ek; [|done].
    exfalso. revert Hbits. unfold simplify_bits. pose proof (known_bits_snd T (op_bin Band w) l) as Es2.
    destruct (known_bits T (op_bin Band w) l) as [mk aff]. cbn in Es2. rewrite <- Ea, Ek in Es2. cbn in Es2.
    destruct (mk =? 0); [done|]. rewrite (proj2 (Z.eqb_eq aff 0)).
    - cbn. destruct (temps_are_copies_sound s T (regs m) _ _ Hs Vd V1) as (x & -> & _). cbn.
      destruct x; [done|]. by rewrite Ek.
    - rewrite Es2. apply Z.bits_inj'. intros i Hi. rewrite Z.land_spec, uwrap_spec, Z.lnot_spec, Z.bits_0 by lia.
      destruct (Z.testbit _ i), (i <? 64); done. }
  destruct b; cbn [simplify_same]; try (by apply good_pass); rewrite E; cbn [obind];
    (destruct same; [|by apply good_pass]).
  2,3: apply good_emit, (finished_copy _ w); try done; [by auto|]; cbn [pure_value]; rewrite Eo, same_self by auto;
    intros v [= <-]; unfold opnd; symmetry; apply uwrap_idem, bits_pos.
  all: apply (good_movi _ _ w); [done|done|done|done|]; intros v; cbn [pure_value]; rewrite Eo, same_zero by auto;
    by intros [= <-].
Qed.

(** *** The operation is kept *)
Lemma default_emits op l w :
  shaped op l -> pure op = true -> (forall w, op <> op_mov w) -> out_type op = Some w ->
  emits (arg l 0) (pure_value op m l) (do_default s T op l).
Proof.
  intros Hsh Hp Hm Hw. destruct (dst_ok op l w Hsh Hp Hw) as [Vd Yd].
  destruct (pure_out op Hp) as (_ & _ & Ho). unfold oargs in Ho.
  unfold do_default. rewrite Ho, <- (sh_len _ _ _ Hsh), firstn_all.
  replace (TCG_OPF_BB_END (tcg_op_defs op)) with false by (destruct op; try done; by destruct b).
  cbn [reset_outs Nat.eqb].
  set (T' := upd _ _ _). assert (forall v, fits 64 v -> within v (fst (known_bits T op l)) ->
    sound T' (rset (regs m) (arg l 0) v)) as HT'.
  { intros v Hf Hb. apply sound_mask; [by apply sound_reset|done| | |by rewrite rset_same].
    - destruct (reset_temp_fields s T _ (arg l 0) (s_wf _ _ _ Hs) Vd) as (_ & _ & _ & Es & _).
      unfold is_const. by rewrite Es.
    - by apply (known_bits_fits s T m Hs). }
  apply (emits_op op l T' w); try done.
  - apply (s_wf _ _ (rset (regs m) (arg l 0) 0)), HT'; [done|]. intros i Hi. by rewrite Z.bits_0.
  - intros v Ev. apply HT'; [by apply (value_fits op l w)|by apply (known_bits_within s T m Hs)].
Qed.

(** *** Conditions *)
Lemma const_low w t :
  valid t -> is_const (T t) = true -> bits w <= ty t -> uwrap (bits w) (val (T t)) = opnd w m t.
Proof.
  intros Ht Hc Hw. pose proof (s_const _ _ _ Hs t Ht Hc) as E. pose proof (W_pos w). unfold opnd.
  rewrite <- (uwrap_min (bits w) (ty t) (val (T t))), <- E by lia. apply uwrap_min. lia.
Qed.

Lemma fold_cond_good op x y c w :
  op_bits op = bits w -> of_type s (Some w) x -> of_type s (Some w) y -> c ∈ tcg_conds ->
  exists o, do_constant_folding_cond s T op x y c = Ok o /\
    forall b, o = Some b -> cond_sem c (bits w) (opnd w m x) (opnd w m y) = Some b.
Proof.
  intros Hop [Vx Yx] [Vy Yy] Hc. unfold do_constant_folding_cond. rewrite Hop.
  destruct (cond_sem_total c (bits w) (opnd w m x) (opnd w m y) Hc) as (b & Eb).
  pose proof (opnd_fits w m x) as Fx.
  destruct (temps_are_copies_sound s T (regs m) x y Hs Vx Vy) as (same & Es & H1 & _).
  destruct (is_const (T x) && is_const (T y)) eqn:Ek.
  - apply andb_true_iff in Ek as [Kx Ky]. exists (Some b). split; [|by intros b' [= <-]].
    destruct (opnd_const s T m Hs w x Vx Yx Kx) as (Ex & _ & F1).
    destruct (opnd_const s T m Hs w y Vy Yy Ky) as (Ey & _ & F2).
    rewrite Ex, Ey in Eb. apply fold_cond_bits in Eb. destruct w; cbn [bits Z.eqb Pos.eqb] in *.
    + unfold do_constant_folding_cond_32. by rewrite Eb.
    + unfold do_constant_folding_cond_64. rewrite !(uwrap_id 64) in Eb by done. by rewrite Eb.
  - rewrite Es. cbn. destruct same.
    + destruct (H1 eq_refl) as [_ Er]. unfold TcgRing.ty in Er. rewrite Yx in Er.
      assert (opnd w m y = opnd w m x) as Ey by (by unfold opnd). rewrite Ey in *.
      rewrite (fold_cond_eq _ _ _ _ Eb). cbn. exists (Some b). split; [done|]. by intros b' [= <-].
    + destruct (is_const (T y) && (val (T y) =? 0)) eqn:E0; [|by exists None].
      pose proof (opnd_known s T m Hs w y 0 Vy Yy E0) as Ey.
      replace (uwrap (bits w) 0) with 0 in Ey by (by destruct w). rewrite Ey in *.
      destruct (fold_cond_zero (bits w) _ c b (proj1 Fx) Eb) as [Z1 Z2].
      eexists. split; [done|]. intros b'. destruct (Z.eqb_spec c TCG_COND_LTU); [intros [= <-]; by rewrite Z1 in Eb|].
      destruct (Z.eqb_spec c TCG_COND_GEU); [intros [= <-]; by rewrite Z2 in Eb|done].
Qed.

Lemma pair_const lo hi :
  Z.lor (u64 (Z.shiftl hi 32)) (u32 lo) = pair_of W32 (u32 lo) (u32 hi).
Proof.
  unfold pair_of. cbn [bits].
  rewrite <- lor_shiftl_add by (lia || apply uwrap_fits; lia). rewrite Z.lor_comm. f_equal.
  apply Z.bits_inj'. intros i Hi. rewrite uwrap_spec, !Z.shiftl_spec by lia.
  destruct (Z.ltb_spec (i - 32) 0); [rewrite !Z.testbit_neg_r by lia; apply andb_false_r|].
  rewrite uwrap_spec by lia. destruct (Z.ltb_spec i 64), (Z.ltb_spec (i - 32) 32); done || lia.
Qed.

Definition pair (lo hi : Z) : Z := pair_of W32 (opnd W32 m lo) (opnd W32 m hi).

Lemma pair_nonneg lo hi : 0 <= pair lo hi.
Proof.
  unfold pair, pair_of. pose proof (opnd_fits W32 m lo) as [? _]. pose proof (opnd_fits W32 m hi) as [? _].
  cbn [bits] in *. lia.
Qed.

Lemma pair_known lo hi :
  of_type s (Some W32) lo -> of_type s (Some W32) hi -> is_const (T lo) && is_const (T hi) = true ->
  Z.lor (u64 (Z.shiftl (val (T hi)) 32)) (u32 (val (T lo))) = pair lo hi.
Proof.
  intros [Vl Yl] [Vh Yh] [Kl Kh]%andb_true_iff. rewrite pair_const. unfold pair.
  destruct (opnd_const s T m Hs W32 lo Vl Yl Kl) as [-> _].
  by destruct (opnd_const s T m Hs W32 hi Vh Yh Kh) as [-> _].
Qed.

Lemma fold_cond2_good al ah bl bh c :
  of_type s (Some W32) al -> of_type s (Some W32) ah -> of_type s (Some W32) bl -> of_type s (Some W32) bh ->
  c ∈ tcg_conds ->
  exists o, do_constant_folding_cond2 s T al ah bl bh c = Ok o /\
    forall b, o = Some b -> cond_sem c 64 (pair al ah) (pair bl bh) = Some b.
Proof.
  intros Yal Yah Ybl Ybh Hc. unfold do_constant_folding_cond2.
  destruct (cond_sem_total c 64 (pair al ah) (pair bl bh) Hc) as (b & Eb).
  cbv zeta. set (copies := obind (temps_are_copies s T al bl) _).
  assert (exists o, copies = Ok o /\ forall b, o = Some b -> cond_sem c 64 (pair al ah) (pair bl bh) = Some b) as Hcp.
  { subst copies. destruct (temps_are_copies_sound s T (regs m) al bl Hs (proj1 Yal) (proj1 Ybl)) as (e1 & -> & H1 & _).
    cbn. destruct e1; [|by exists None].
    destruct (temps_are_copies_sound s T (regs m) ah bh Hs (proj1 Yah) (proj1 Ybh)) as (e2 & -> & H2 & _).
    cbn. destruct e2; [|by exists None].
    destruct (H1 eq_refl) as [_ E1], (H2 eq_refl) as [_ E2]. unfold TcgRing.ty in *.
    rewrite (proj2 Yal) in E1. rewrite (proj2 Yah) in E2.
    assert (pair bl bh = pair al ah) as Ep by (unfold pair, opnd; by rewrite E1, E2). rewrite Ep in *.
    rewrite (fold_cond_eq _ _ _ _ Eb). cbn. exists (Some b). split; [done|]. by intros b' [= <-]. }
  destruct (is_const (T bl) && is_const (T bh)) eqn:Ekb; [|done].
  rewrite (pair_known bl bh Ybl Ybh Ekb).
  destruct (is_const (T al) && is_const (T ah)) eqn:Eka.
  - rewrite (pair_known al ah Yal Yah Eka). unfold do_constant_folding_cond_64.
    rewrite (fold_cond_bits _ _ _ _ _ Eb). cbn. exists (Some b). split; [done|]. by intros b' [= <-].
  - destruct (Z.eqb_spec (pair bl bh) 0) as [E0|]; [|done]. rewrite E0 in *.
    destruct (fold_cond_zero 64 _ c b (pair_nonneg al ah) Eb) as [Z1 Z2]. cbn [andb].
    destruct (Z.eqb_spec c TCG_COND_LTU); [exists (Some false); split; [done|intros b' [= <-]; by rewrite Z1 in Eb]|].
    destruct (Z.eqb_spec c TCG_COND_GEU); [exists (Some true); split; [done|intros b' [= <-]; by rewrite Z2 in Eb]|done].
Qed.

(** *** Folding *)
Lemma fold_bin_cases b w x y :
  (exists r, do_constant_folding_bin b w x y = Ok r) \/
  (do_constant_folding_bin b w x y = Fault DivOverflow /\ signed_div (op_bin b w) = true).
Proof. destruct b, w; cbn -[c_quot c_rem c_div c_mod]; guarded; try case_match; eauto. Qed.

Lemma cut_fold op w r :
  op_width op = w -> fits 64 r ->
  let r' := if op_bits op =? 32 then Z.land r 0xffffffff else r in
  fits 64 r' /\ uwrap (bits w) r' = uwrap (bits w) r.
Proof.
  intros Hw Hf. assert (op_bits op = bits w) as ->
    by (unfold op_bits, op_width in *; by destruct (TCG_OPF_64BIT _); subst w).
  destruct w; cbn [bits Z.eqb Pos.eqb]; [|done]. rewrite land_mask32. split.
  - apply (fits_weaken 32); [lia|]. apply uwrap_fits. lia.
  - apply uwrap_idem. lia.
Qed.

Lemma fold_const_good op l w r :
  shaped op l -> pure op = true -> out_type op = Some w ->
  do_constant_folding_2 op (val (T (arg l 1))) (val (T (arg l 2))) = Ok r -> fits 64 r ->
  (forall v, pure_value op m l = Some v -> uwrap (bits w) r = v) ->
  exists r', do_constant_folding op (val (T (arg l 1))) (val (T (arg l 2))) = Ok r' /\
    emits (arg l 0) (pure_value op m l) (emit_movi op T (arg l 0) r').
Proof.
  intros Hsh Hp Hw Hr Hf Hv. unfold do_constant_folding. rewrite Hr. cbn. eexists. split; [done|].
  destruct (dst_ok op l w Hsh Hp Hw) as [Vd Yd]. pose proof (width_ok op l w Hsh Hp Hw) as Ew.
  destruct (cut_fold op w r Ew Hf) as [Hf' Ec]. unfold emit_movi, op_to_movi. rewrite Ew.
  apply emits_movi; try done. intros v Ev. rewrite Ec.
  rewrite (uwrap_id (bits w) v); [by apply Hv|]. by apply (value_fits op l w).
Qed.

Lemma fold_bin_good b w l :
  (signed_div (op_bin b w) = true -> dv) ->
  shaped (op_bin b w) l -> is_const (T (arg l 1)) = true -> is_const (T (arg l 2)) = true ->
  finished (arg l 0) (pure_value (op_bin b w) m l)
    (tmp <~ do_constant_folding (op_bin b w) (val (T (arg l 1))) (val (T (arg l 2))) ;;
     Ok (emit_movi (op_bin b w) T (arg l 0) tmp)).
Proof.
  intros Hdv Hsh K1 K2. destruct (bin_args b w l Hsh) as (_ & [V1 Y1] & [V2 Y2] & _).
  destruct (opnd_const s T m Hs w _ V1 Y1 K1) as (E1 & _ & F1).
  destruct (opnd_const s T m Hs w _ V2 Y2 K2) as (E2 & _ & F2).
  assert (forall v, pure_value (op_bin b w) m l = Some v -> exists r,
    do_constant_folding_bin b w (val (T (arg l 1))) (val (T (arg l 2))) = Ok r /\ uwrap (bits w) r = v) as Hv.
  { intros v Ev. apply fold_bin; [done|done|]. by rewrite <- E1, <- E2. }
  destruct (fold_bin_cases b w (val (T (arg l 1))) (val (T (arg l 2)))) as [(r & Er)|[Er Hd]].
  - destruct (fold_const_good (op_bin b w) l w r) as (r' & Er' & He); try done.
    + by apply (fold_bin_fits b w _ _ r F1 F2).
    + intros v Ev. destruct (Hv v Ev) as (r0 & E0 & <-). rewrite Er in E0. by apply Ok_inj in E0 as ->.
    + rewrite Er'. by apply finished_emit.
  - right. unfold do_constant_folding. cbn [do_constant_folding_2]. rewrite Er. split; [done|].
    split; [|by apply Hdv]. destruct (pure_value (op_bin b w) m l) as [v|] eqn:Ev; [|done].
    destruct (Hv v eq_refl) as (r & Er2 & _). congruence.
Qed.

Lemma fold_un_cases u x :
  u <> Ubswap16 -> u <> Ubswap32 -> u <> Ubswap64 -> exists r, do_constant_folding_un u x = Ok r.
Proof. destruct u; cbn; eauto; done. Qed.

Lemma un_known u w l v :
  shaped (op_un u w) l -> is_const (T (arg l 1)) = true -> pure_value (op_un u w) m l = Some v ->
  un_sem u (bits w) (uwrap (bits w) (val (T (arg l 1)))) = Some v.
Proof.
  intros Hsh K Hv. rewrite <- Hv. cbn [pure_value].
  assert (u = Uext32s \/ u = Uext32u \/ in_type (op_un u w) = Some w) as [Hu|[Hu|Hin]] by (destruct u; auto).
  1,2: apply ext32_low; [by auto|]; pose proof (shaped_valid s _ l 1 Hsh ltac:(input)) as V;
    pose proof (const_low W32 _ V K) as E; cbn [bits] in E; unfold opnd in *;
    rewrite !(uwrap_min 32) by (destruct w; cbn; lia);
    by rewrite E by (unfold TcgRing.ty; destruct (type s _); cbn; lia).
  destruct (shaped_arg s _ l w 1 Hsh ltac:(input) Hin) as [V Y].
  by destruct (opnd_const s T m Hs w _ V Y K) as [-> _].
Qed.

Lemma fold_un_good u w l :
  shaped (op_un u w) l -> is_const (T (arg l 1)) = true ->
  u <> Ubswap16 -> u <> Ubswap32 -> u <> Ubswap64 ->
  finished (arg l 0) (pure_value (op_un u w) m l)
    (tmp <~ do_constant_folding (op_un u w) (val (T (arg l 1))) 0 ;;
     Ok (emit_movi (op_un u w) T (arg l 0) tmp)).
Proof.
  intros Hsh K N1 N2 N3. pose proof (shaped_valid s _ l 1 Hsh ltac:(input)) as V.
  destruct (wf_const _ _ (s_wf _ _ _ Hs) _ V K) as [F _].
  destruct (fold_un_cases u (val (T (arg l 1))) N1 N2 N3) as (r & Er).
  destruct (fold_const_good (op_un u w) l w r) as (r' & Er' & He); try done.
  - by apply (fold_un_fits u (val (T (arg l 1)))).
  - intros v Ev. apply (un_known u w l v Hsh K) in Ev. apply fold_un in Ev as (r0 & E0 & <-); try done.
    + rewrite Er in E0. by apply Ok_inj in E0 as ->.
    + intros ->. pose proof (sh_present _ _ _ Hsh). by split; intros ->.
  - change (do_constant_folding (op_un u w) (val (T (arg l 1))) 0)
      with (do_constant_folding (op_un u w) (val (T (arg l 1))) (val (T (arg l 2)))).
    rewrite Er'. by apply finished_emit.
Qed.

Lemma fold_deposit_good w l :
  shaped (op_deposit w) l -> is_const (T (arg l 1)) = true -> is_const (T (arg l 2)) = true ->
  let tmp := u64 (shl 64 1 (arg l 4) - 1) in
  emits (arg l 0) (pure_value (op_deposit w) m l) (emit_movi (op_deposit w) T (arg l 0)
    (Z.lor (Z.land (val (T (arg l 1))) (u64 (Z.lnot (shl 64 tmp (arg l 3)))))
           (shl 64 (Z.land (val (T (arg l 2))) tmp) (arg l 3)))).
Proof.
  intros Hsh K1 K2 tmp. destruct (dst_ok (op_deposit w) l w Hsh eq_refl eq_refl) as [Vd Yd].
  destruct (shaped_arg s _ l w 1 Hsh ltac:(input) eq_refl) as [V1 Y1].
  destruct (shaped_arg s _ l w 2 Hsh ltac:(input) eq_refl) as [V2 Y2].
  destruct (opnd_const s T m Hs w _ V1 Y1 K1) as (E1 & _ & F1).
  destruct (opnd_const s T m Hs w _ V2 Y2 K2) as (E2 & _ & F2).
  unfold emit_movi, op_to_movi. rewrite (width_ok (op_deposit w) l w Hsh eq_refl eq_refl).
  apply emits_movi; try done.
  - apply fits_lor; [lia|by apply fits_land_l|apply shl64_fits].
  - intros v Ev. rewrite (uwrap_id (bits w) v) by (by apply (value_fits (op_deposit w) l w)).
    apply fold_deposit; [apply (sh_cargs _ _ _ Hsh)|]. cbn [pure_value] in Ev. by rewrite <- E1, <- E2.
Qed.

Lemma fold_mov_good w l nx :
  shaped (op_mov w) l ->
  finished (arg l 0) (pure_value (op_mov w) m l) (fold_op s T nx (op_mov w) l).
Proof.
  intros Hsh. destruct (dst_ok (op_mov w) l w Hsh eq_refl eq_refl) as [Vd Yd].
  destruct (sh_in _ _ _ Hsh 1%nat ltac:(input)) as [V1 Y1].
  destruct (emits_copies w (arg l 0) (arg l 1) (pure_value (op_mov w) m l) Vd Yd V1) as (same & E & H1 & H2 & H3).
  { intros v [= <-]. assert (uwrap (bits w) (opnd w m (arg l 1)) = uwrap (bits w) (regs m (arg l 1))) as ->
      by apply uwrap_idem, bits_pos. split; [done|]. intros K. apply const_low; [done|done|].
    unfold TcgRing.ty. destruct w; cbn in Y1; [by destruct (type s (arg l 1)); cbn; lia|by rewrite Y1]. }
  cbn [fold_op]. rewrite E. cbn. destruct same; [by apply finished_emit, H1|].
  destruct (is_const (T (arg l 1))) eqn:K; cbn.
  - unfold emit_movi, op_to_movi. rewrite (width_ok (op_mov w) l w Hsh eq_refl eq_refl). by apply finished_emit, H3.
  - destruct (H2 eq_refl eq_refl) as (r & -> & He). by apply finished_emit.
Qed.

Lemma fold_movcond_good w l nx :
  shaped (op_movcond w) l ->
  finished (arg l 0) (pure_value (op_movcond w) m l) (fold_op s T nx (op_movcond w) l).
Proof.
  intros Hsh. destruct (dst_ok (op_movcond w) l w Hsh eq_refl eq_refl) as [Vd Yd].
  pose proof (width_ok (op_movcond w) l w Hsh eq_refl eq_refl) as Ew.
  destruct (fold_cond_good (op_movcond w) (arg l 1) (arg l 2) (arg l 5) w) as (o & E & Ho); try (by destruct w).
  1,2: apply (sh_in _ _ _ Hsh); input.
  1: apply Hsh.
  cbn [fold_op]. rewrite E. cbn [obind]. destruct o as [b|]; [|by apply finished_emit, (default_emits _ _ w)].
  specialize (Ho b eq_refl). set (src := if b then arg l 3 else arg l 4).
  assert (of_type s (Some w) src) as [Vs Ys] by (destruct b; apply (sh_in _ _ _ Hsh); input).
  destruct (emits_copies w (arg l 0) src (pure_value (op_movcond w) m l) Vd Yd Vs) as (same & Es & H1 & H2 & H3).
  { intros v Ev. cbn in Ev. rewrite Ho in Ev. cbn in Ev.
    assert (v = opnd w m src) as -> by (subst src; destruct b; congruence).
    assert (uwrap (bits w) (opnd w m src) = uwrap (bits w) (regs m src)) as -> by apply uwrap_idem, bits_pos.
    split; [done|]. intros K. apply const_low; [done|done|]. unfold TcgRing.ty. by rewrite Ys. }
  rewrite Es. cbn [obind]. destruct same; [by apply finished_emit, H1|].
  unfold emit_movi, op_to_movi, emit_mov, op_to_mov. rewrite Ew.
  destruct (is_const (T src)) eqn:K; cbn; [by apply finished_emit, H3|].
  destruct (H2 eq_refl eq_refl) as (r & -> & He). by apply finished_emit.
Qed.

Lemma fold_setcond_good w l nx :
  shaped (op_setcond w) l ->
  finished (arg l 0) (pure_value (op_setcond w) m l) (fold_op s T nx (op_setcond w) l).
Proof.
  intros Hsh. destruct (dst_ok (op_setcond w) l w Hsh eq_refl eq_refl) as [Vd Yd].
  destruct (fold_cond_good (op_setcond w) (arg l 1) (arg l 2) (arg l 3) w) as (o & E & Ho); try (by destruct w).
  1,2: apply (sh_in _ _ _ Hsh); input.
  1: apply Hsh.
  cbn [fold_op]. rewrite E. cbn [obind]. destruct o as [b|]; [|by apply finished_emit, (default_emits _ _ w)].
  apply finished_emit. unfold emit_movi, op_to_movi. rewrite (width_ok (op_setcond w) l w Hsh eq_refl eq_refl).
  apply emits_movi; [done|done|by apply cbool_fits|]. intros v. cbn. rewrite (Ho b) by done. by intros [= <-].
Qed.

Lemma fold_setcond2_good l nx :
  shaped op_setcond2 l -> finished (arg l 0) (pure_value op_setcond2 m l) (fold_op s T nx op_setcond2 l).
Proof.
  intros Hsh. destruct (dst_ok op_setcond2 l W32 Hsh eq_refl eq_refl) as [Vd Yd].
  assert (forall j, is_input op_setcond2 j -> of_type s (Some W32) (arg l j)) as Hin by apply (sh_in _ _ _ Hsh).
  destruct (fold_cond2_good (arg l 1) (arg l 2) (arg l 3) (arg l 4) (arg l 5)) as (o & E & Ho).
  1,2,3,4: apply Hin; input.
  1: apply Hsh.
  cbn [fold_op]. rewrite E. cbn [obind]. destruct o as [b|].
  { apply finished_emit, emits_movi; [done|done|by apply cbool_fits|].
    intros v. cbn. unfold pair in Ho. rewrite (Ho b) by done. by intros [= <-]. }
  case_match eqn:Ec; [|by apply finished_emit, (default_emits _ _ W32)].
  apply andb_true_iff in Ec as [[Ec K3]%andb_true_iff K4]. apply orb_true_iff in Ec.
  destruct (Hin 3%nat ltac:(input)) as [V3 Y3], (Hin 4%nat ltac:(input)) as [V4 Y4].
  pose proof (opnd_known s T m Hs W32 _ 0 V3 Y3 K3) as E3. pose proof (opnd_known s T m Hs W32 _ 0 V4 Y4 K4) as E4.
  change (uwrap (bits W32) 0) with 0 in E3, E4.
  apply finished_emit.
  apply (emits_op (op_setcond W32) [arg l 0; arg l 2; arg l 4; arg l 5] _ W32); try done.
  - split; [done|apply Hsh|done|..].
    + intros j Hj. by replace j with 0%nat by (cbn in Hj; lia).
    + intros j Hj. unfold is_input in Hj. cbn in Hj. assert (j = 1 \/ j = 2)%nat as [-> | ->] by lia; apply Hin; input.
  - cbn [pure_value]. rewrite E3, E4. f_equal.
    rewrite (cond_high (arg l 5)); [cbn; by rewrite E4| |apply (opnd_fits W32)..].
    destruct Ec as [->%Z.eqb_eq| ->%Z.eqb_eq]; auto.
  - apply reset_temp_wf; [apply Hs|done].
  - intros v Ev. apply sound_reset; [done|done|]. by apply (value_fits op_setcond2 l W32).
Qed.

Lemma fold_op_good op l w nx :
  (signed_div op = true -> dv) -> shaped op l -> pure op = true -> out_type op = Some w ->
  finished (arg l 0) (pure_value op m l) (fold_op s T nx op l).
Proof.
  intros Hdv Hsh Hp Hw.
  assert ((forall w, op <> op_mov w) -> finished (arg l 0) (pure_value op m l) (Ok (do_default s T op l))) as Hd
    by (intros; by apply finished_emit, (default_emits _ _ w)).
  destruct op; try done.
  - by apply fold_mov_good.
  - apply finished_emit. destruct (dst_ok _ l w Hsh eq_refl Hw). injection Hw as ->.
    apply emits_movi; [done|done|apply Hsh|]. intros v [= <-]. symmetry. apply uwrap_idem, bits_pos.
  - by apply fold_setcond_good.
  - by apply fold_movcond_good.
  - cbn [fold_op]. destruct (is_const (T (arg l 1)) && is_const (T (arg l 2))) eqn:K; [|by apply Hd].
    apply andb_true_iff in K as [K1 K2]. by apply fold_bin_good.
  - destruct u; cbn [fold_op]; try (by apply Hd);
      (destruct (is_const (T (arg l 1))) eqn:K; [by apply fold_un_good|by apply Hd]).
  - cbn [fold_op]. destruct (is_const (T (arg l 1)) && is_const (T (arg l 2))) eqn:K; [|by apply Hd].
    apply andb_true_iff in K as [K1 K2]. by apply finished_emit, fold_deposit_good.
  - by apply fold_setcond2_good.
Qed.

(** *** All stages *)
Lemma stages_good op l nx :
  (signed_div op = true -> dv) -> shaped op l -> pure op = true ->
  (forall w, op = op_bin Bor w -> arg l 1 = arg l 2 -> is_const (T (arg l 1)) = false) ->
  finished (arg l 0) (pure_value op m l)
    (orelse (simplify_unary T op l) (orelse (simplify_const s T op l) (orelse (simplify_bits s T op l)
      (orelse (simplify_zero T op l) (orelse (simplify_same s T op l) (fold_op s T nx op l)))))).
Proof.
  intros Hdv Hsh Hp Hor. destruct (pure_out op Hp) as (w & Hw & _).
  apply good_orelse; [by apply (simplify_unary_good op l w)|].
  apply good_orelse; [by apply (simplify_const_good op l w)|].
  pose proof (simplify_bits_good op l w Hsh Hp Hw) as Hb.
  destruct Hb as [Hb|[(e & -> & He)|[-> E]]]; [|by apply finished_emit|by right].
  rewrite Hb. change (orelse pass ?b) with b.
  apply good_orelse; [by apply (simplify_zero_good op l w)|].
  apply good_orelse; [by apply (simplify_same_good op l w)|].
  by apply (fold_op_good op l w).
Qed.

End facts.
End sound.
End TcgSound.
