(* ===== verification/TcgStep.v ===== *)
(** One operation of the program through the optimiser, effects included: what
    replaces it takes states that agree to states that agree, and leaves the
    facts true. *)
From Stdlib Require Import ZArith Lia Bool Btauto.
From stdpp Require Import base numbers list.
From S2P Require Import Prelude HostUtils TcgOp TcgOpt TcgRing TcgArith TcgSem TcgBits TcgSound.
Local Open Scope Z_scope.

Module TcgStep.
Import HostUtils.HostUtils Tcg TcgOpt TcgRing TcgArith TcgSem TcgBits TcgSound.

(** *** Argument lists *)

Lemma take_S_arg n k l : (n < length l)%nat -> take (S k) (drop n l) = arg l n :: take k (drop (S n) l).
Proof.
  intros Hn. destruct (lookup_lt_is_Some_2 l n Hn) as [x Hx].
  rewrite (drop_S _ _ _ Hx). cbn. unfold arg. rewrite nth_lookup, Hx. done.
Qed.

Lemma map_args {A} (f g : Z -> A) l1 l2 n k :
  (n + k <= length l1)%nat -> (n + k <= length l2)%nat ->
  (forall j, (n <= j < n + k)%nat -> f (arg l1 j) = g (arg l2 j)) ->
  map f (take k (drop n l1)) = map g (take k (drop n l2)).
Proof.
  revert n. induction k as [|k IH]; intros n H1 H2 Hj; [done|].
  rewrite !take_S_arg by lia. cbn [map]. rewrite Hj by lia. f_equal. apply IH; [lia..|].
  intros j ?. apply Hj. lia.
Qed.

Lemma args_eq l1 l2 n k :
  (n + k <= length l1)%nat -> (n + k <= length l2)%nat ->
  (forall j, (n <= j < n + k)%nat -> arg l1 j = arg l2 j) -> take k (drop n l1) = take k (drop n l2).
Proof.
  intros H1 H2 Hj. rewrite <- (map_id (take k (drop n l1))), <- (map_id (take k (drop n l2))).
  by apply map_args.
Qed.

Section step.
Context {W : Type} (s : TCGContext) (host : Host W).
Notation valid := (valid s).
Notation ty := (ty s).
Notation shaped := (shaped s).
Notation sound := (sound s).
Notation wf := (wf s).

(** *** States that agree: on the world, and on every temporary up to its type *)
Definition agree (m1 m2 : mstate W) : Prop :=
  world m1 = world m2 /\ forall t, valid t -> uwrap (ty t) (regs m1 t) = uwrap (ty t) (regs m2 t).

Definition next_sim (T : temps_t) (n1 n2 : next W) : Prop :=
  match n1, n2 with
  | Undef, _ => True
  | Fall m1, Fall m2 => agree m1 m2 /\ sound T (regs m2)
  | Jump l1 m1, Jump l2 m2 => l1 = l2 /\ agree m1 m2 /\ forall t, fits 64 (regs m2 t)
  | Leave m1, Leave m2 => agree m1 m2
  | _, _ => False
  end.

Lemma agree_refl m : agree m m.
Proof. done. Qed.

Lemma agree_put m1 m2 t v1 v2 :
  agree m1 m2 -> (valid t -> uwrap (ty t) v1 = uwrap (ty t) v2) -> agree (put m1 t v1) (put m2 t v2).
Proof.
  intros [Hw Hr] Hv. split; [done|]. intros u Hu. cbn. unfold rset.
  destruct (Z.eqb_spec u t) as [->|]; auto.
Qed.

Lemma agree_puts m1 m2 ts vs : agree m1 m2 -> agree (puts m1 ts vs) (puts m2 ts vs).
Proof.
  revert m1 m2 vs. induction ts as [|t ts IH]; intros m1 m2 vs H; [done|].
  destruct vs; cbn; apply IH, agree_put; done.
Qed.

Lemma agree_value m1 m2 t : agree m1 m2 -> valid t -> value s m1 t = value s m2 t.
Proof. intros [_ H] Ht. apply (H t Ht). Qed.

(** *** The facts after assignments *)
Lemma sound_puts T (m : mstate W) ts vs :
  sound T (regs m) -> Forall valid ts -> Forall (fits 64) vs ->
  sound (reset_range T ts) (regs (puts m ts vs)).
Proof.
  intros Hs Hts Hvs. revert T m vs Hs Hvs. induction Hts as [|t ts Ht _ IH]; intros T m vs Hs Hvs; [done|].
  destruct Hvs as [|v vs Hv Hvs]; cbn; (apply IH; [|done]); by apply sound_reset.
Qed.

Lemma puts_typed_fits ts vs : Forall (fits 64) (imap (fun i v => typed s (arg ts i) v) (take (length ts) vs)).
Proof.
  apply Forall_lookup. intros i x Hx. rewrite list_lookup_imap in Hx.
  destruct (_ !! i); [|done]. cbn in Hx. injection Hx as <-. apply uwrap_bits_64.
Qed.

Lemma sound_outs T r l mk v0 v1 n :
  sound T r -> (n <= 2)%nat -> (forall j, (j < n)%nat -> valid (arg l j)) -> fits 64 mk ->
  fits 64 v0 -> within v0 mk -> fits 64 v1 ->
  sound (reset_outs T mk 0 n l)
    (match n with
     | O => r | S O => rset r (arg l 0) v0 | _ => rset (rset r (arg l 0) v0) (arg l 1) v1
     end).
Proof.
  intros Hs Hn Hv Hm H0 Hw H1.
  assert (valid (arg l 0) -> sound (reset_outs T mk 0 1 l) (rset r (arg l 0) v0)) as Hone.
  { intros V0. cbn. apply sound_mask; [by apply sound_reset|done| |done|by rewrite rset_same].
    destruct (reset_temp_fields s T _ (arg l 0) (s_wf _ _ _ Hs) V0) as (_ & _ & _ & Es & _).
    unfold is_const. by rewrite Es. }
  destruct n as [|[|[|n]]]; [done|by apply Hone, Hv; lia| |lia].
  change (reset_outs T mk 0 2 l) with (reset_temp (reset_outs T mk 0 1 l) (arg l 1)).
  apply sound_reset; [apply Hone|..]; auto with lia.
Qed.

(** *** What an optimised operation must do *)
Definition label_rel (T : temps_t) (i i' : TCGOp) : Prop :=
  (opc i = op_set_label -> i' = i /\ exists T0, T = reset_all_temps (nb_temps s) T0) /\
  (opc i' = op_set_label -> opc i = op_set_label).

Definition replaces (m1 m2 : mstate W) (i : TCGOp) (nx : option TCGOpcode) (e : emitted) : Prop :=
  wf (snd e) /\
  ((exists i', fst e = [i'] /\ label_rel (snd e) i i' /\
      forall k1 k2, next_sim (snd e) (exec_op s host k1 i m1) (exec_op s host k2 i' m2)) \/
   (exists i1 i2, fst e = [i1; i2] /\ nx = Some op_nop /\
      opc i <> op_set_label /\ opc i1 <> op_set_label /\ opc i2 <> op_set_label /\
      forall k1 k2 k3, exists m1' m2' m2'', exec_op s host k1 i m1 = Fall m1' /\
        exec_op s host k2 i1 m2 = Fall m2' /\ exec_op s host k3 i2 m2' = Fall m2'' /\
        agree m1' m2'' /\ sound (snd e) (regs m2''))).

(** The calls the optimiser can meet: the arguments in front of the flags are
    temporaries. *)
Definition call_args (l : list Z) : nat * nat :=
  (Z.to_nat (Z.shiftr (arg l 0) 16), Z.to_nat (Z.land (arg l 0) 0xffff)).
Definition call_ok (l : list Z) : Prop :=
  (1 + fst (call_args l) + snd (call_args l) < length l)%nat /\
  forall j, (1 <= j < 1 + fst (call_args l) + snd (call_args l))%nat -> valid (arg l j).

(** The operations of a translated block: typed, and no [or] of a temporary
    with itself, for which [tcg_gen_or] emits a [mov]. *)
Definition op_ok (i : TCGOp) : Prop :=
  match opc i with
  | op_call => call_ok (args i)
  | op => shaped op (args i) /\ (forall w, op = op_bin Bor w -> arg (args i) 1 <> arg (args i) 2)
  end.

(** [add2_i32], [sub2_i32] and [mulu2_i32] are followed by a [nop]. *)
Definition needs_nop (op : TCGOpcode) : bool :=
  match op with op_add2 W32 | op_sub2 W32 | op_mulu2 W32 => true | _ => false end.

(** *** Operations with effects, calls apart *)
Definition opaque (op : TCGOpcode) : bool :=
  match op with
  | op_ld _ _ | op_st _ _ | op_div2 _ | op_divu2 _ | op_debug_insn_start | op_exit_tb | op_goto_tb
  | op_qemu_ld _ | op_qemu_st _ => true
  | _ => false
  end.

Lemma exec_opaque_eq op l m k :
  opaque op = true -> exec_op s host k (mkOp op l) m = exec_opaque s host (mkOp op l) m.
Proof. by destruct op. Qed.

Definition next_agree (n1 n2 : next W) : Prop :=
  match n1, n2 with
  | Undef, _ => True
  | Fall m1, Fall m2 => agree m1 m2
  | Jump l1 m1, Jump l2 m2 => l1 = l2 /\ agree m1 m2
  | Leave m1, Leave m2 => agree m1 m2
  | _, _ => False
  end.

Lemma arity_sum op l : shaped op l -> (oargs op + iargs op <= length l)%nat.
Proof. intros H. rewrite (sh_len _ _ _ H). unfold nb_args, oargs, iargs. lia. Qed.

Lemma opaque_agree op l1 l2 m1 m2 :
  opaque op = true -> agree m1 m2 -> shaped op l1 -> shaped op l2 -> same_args s op m1 l1 m2 l2 ->
  next_agree (exec_opaque s host (mkOp op l1) m1) (exec_opaque s host (mkOp op l2) m2).
Proof.
  intros Ho Ha H1 H2 Hsa. pose proof (arity_sum _ _ H1) as L1. pose proof (arity_sum _ _ H2) as L2.
  pose proof (sa_len _ _ _ _ _ _ Hsa) as Hlen. pose proof (sa_rest _ _ _ _ _ _ Hsa) as Hr.
  unfold exec_opaque. cbn [opc args]. change (nb_oargs (tcg_op_defs op)) with (oargs op).
  change (nb_iargs (tcg_op_defs op)) with (iargs op).
  assert (take (oargs op) l2 = take (oargs op) l1) as Eo.
  { apply (args_eq l2 l1 0 (oargs op)); [lia..|]. intros j Hj. apply Hr. unfold is_input. lia. }
  assert (map (value s m1) (take (iargs op) (drop (oargs op) l1)) =
          map (value s m2) (take (iargs op) (drop (oargs op) l2))) as Ei.
  { apply map_args; [lia..|]. intros j Hj. destruct (sa_in _ _ _ _ _ _ Hsa j Hj) as [Et Er].
    unfold value, opnd, TcgRing.ty in *. rewrite Et. exact Er. }
  assert (drop (oargs op + iargs op) l2 = drop (oargs op + iargs op) l1) as Ec.
  { rewrite <- (firstn_all (drop _ l2)), <- (firstn_all (drop _ l1)), !length_drop, Hlen.
    apply args_eq; [lia..|]. intros j Hj. apply Hr. unfold is_input. lia. }
  rewrite Eo, Ei, Ec, (proj1 Ha). destruct (h_op _ _ _ _ _) as [vs w|w]; [|split; [done|apply Ha]].
  apply agree_puts. split; [done|apply Ha].
Qed.

Lemma exec_agree op l1 l2 m1 m2 k1 k2 :
  pure op = false -> op <> op_call -> agree m1 m2 -> shaped op l1 -> shaped op l2 -> same_args s op m1 l1 m2 l2 ->
  next_agree (exec_op s host k1 (mkOp op l1) m1) (exec_op s host k2 (mkOp op l2) m2).
Proof.
  intros Hp Hc Ha H1 H2 Hsa.
  assert (forall j, ~ is_input op j -> arg l2 j = arg l1 j) as Er by apply Hsa.
  assert (forall j w, is_input op j -> in_type op = Some w -> opnd w m1 (arg l1 j) = opnd w m2 (arg l2 j)) as Ei
    by (intros; by apply (opnd_same s op)).
  destruct (opaque op) eqn:Ho.
  { rewrite !exec_opaque_eq by done. by apply opaque_agree. }
  destruct op; try done; unfold exec_op, put2; cbn [opc args next_agree].
  - rewrite Er by input. by apply agree_put.
  - rewrite Er by input. done.
  - rewrite (Er 2%nat), (Er 3%nat), !Ei by (input || done). by destruct (cond_sem _ _ _ _) as [[]|].
  - rewrite (Er 4%nat), (Er 5%nat), !Ei by (input || done). by destruct (cond_sem _ _ _ _) as [[]|].
  - rewrite (Er 0%nat), (Er 1%nat), !Ei by (input || done). by apply agree_put; [apply agree_put|].
  - rewrite (Er 0%nat), (Er 1%nat), !Ei by (input || done). by apply agree_put; [apply agree_put|].
  - rewrite (Er 0%nat), (Er 1%nat), !Ei by (input || done). by apply agree_put; [apply agree_put|].
  - rewrite (Er 0%nat), (Er 1%nat), !Ei by (input || done). by apply agree_put; [apply agree_put|].
Qed.

(** *** The stages in front of folding leave them alone *)
Lemma mem_ones_size mop :
  let size := Z.shiftl 8 (Z.land mop MO_SIZE) in
  u64 (u64 (Z.shiftl 2 (size - 1)) - 1) = Z.ones size /\ 8 <= size <= 64.
Proof.
  assert (Z.land mop MO_SIZE = 0 \/ Z.land mop MO_SIZE = 1 \/ Z.land mop MO_SIZE = 2 \/ Z.land mop MO_SIZE = 3)
    as [-> | [-> | [-> | ->]]]; [|by (split; [|split])..].
  change MO_SIZE with (Z.ones 2). rewrite Z.land_ones by lia. pose proof (Z.mod_pos_bound mop (2 ^ 2)). lia.
Qed.

Lemma known_other T op l :
  pure op = false -> fst (known_bits T op l) <> 0 /\ snd (known_bits T op l) = ones64 /\
  fits 64 (fst (known_bits T op l)).
Proof.
  intros Hp. destruct op; try done; try (by destruct w); [by destruct m, w|].
  unfold known_bits. cbn [zero_bits nb_oargs nb_iargs tcg_op_defs Nat.add TCG_OPF_CALL_CLOBBER orb negb].
  destruct (nz (Z.land (arg l 2) MO_SIGN)); [done|]. cbn [fst snd]. destruct (mem_ones_size (arg l 2)) as [-> Hz].
  pose proof (pow2_pos (Z.shiftl 8 (Z.land (arg l 2) MO_SIZE)) ltac:(lia)).
  assert (2 ^ 1 <= 2 ^ Z.shiftl 8 (Z.land (arg l 2) MO_SIZE) <= 2 ^ 64)
    by (split; apply Z.pow_le_mono_r; lia).
  rewrite Z.ones_equiv. unfold fits. cbn [negb fst snd]. split; [lia|]. split; [done|lia].
Qed.

Lemma stages_pass T op l nx :
  pure op = false ->
  orelse (simplify_unary T op l) (orelse (simplify_const s T op l) (orelse (simplify_bits s T op l)
    (orelse (simplify_zero T op l) (orelse (simplify_same s T op l) (fold_op s T nx op l))))) = fold_op s T nx op l.
Proof.
  intros Hp. assert (simplify_bits s T op l = pass) as Hb.
  { unfold simplify_bits. destruct (known_other T op l Hp) as (H1 & H2 & _).
    destruct (known_bits T op l) as [mk a]. cbn in *. subst a. by rewrite (proj2 (Z.eqb_neq _ _)). }
  rewrite Hb. by destruct op.
Qed.

(** What the first output of such an operation can be. *)
Lemma known_width T op l w v :
  (op = op_add2 w \/ op = op_sub2 w \/ op = op_mulu2 w \/ op = op_muls2 w) ->
  within (uwrap (bits w) v) (fst (known_bits T op l)).
Proof.
  intros Hop. apply (within_trans _ (if w then 0xffffffff else ones64)).
  - destruct w; [apply (within_ones 32); lia|apply (within_ones 64); lia].
  - destruct Hop as [-> | [-> | [-> | ->]]]; destruct w; apply within_refl.
Qed.

Lemma loaded_known T op l v :
  opaque op = true -> shaped op l ->
  let r := loaded op (drop (oargs op + iargs op) l) v in
  fits 64 r /\ ((0 < oargs op)%nat -> within r (fst (known_bits T op l))).
Proof.
  intros Ho Hsh. cbv zeta. assert (forall k x, 0 <= k <= 64 -> fits 64 (uwrap k x)) as Hf
    by (intros; apply (fits_weaken k); [lia|apply uwrap_fits; lia]).
  assert (forall x, within (u64 x) ones64) as H64 by (intros; apply (within_ones 64); lia).
  assert (forall x, within (u32 x) 0xffffffff) as H32 by (intros; apply (within_ones 32); lia).
  destruct op; try done; cbn [loaded oargs tcg_op_defs nb_oargs].
  - split; [destruct m, w; apply Hf; cbn; lia|]. intros _. destruct m, w; try apply H64; try apply H32;
      cbn; first [apply (within_ones 8); lia | apply (within_ones 16); lia].
  - split; [apply Hf; lia|]. lia.
  - split; [apply uwrap_bits_64|]. intros _. destruct w; [apply H32|apply H64].
  - split; [apply uwrap_bits_64|]. intros _. destruct w; [apply H32|apply H64].
  - split; [apply Hf; lia|]. lia.
  - split; [apply Hf; lia|]. lia.
  - split; [apply Hf; lia|]. lia.
  - split; [apply uwrap_bits_64|]. intros _. unfold known_bits.
    cbn [zero_bits nb_oargs nb_iargs tcg_op_defs Nat.add TCG_OPF_CALL_CLOBBER orb negb oargs iargs].
    pose proof (sh_len _ _ _ Hsh) as El. args_of l El. cbn -[Z.shiftl Z.land nz swrap uwrap within bits]. destruct (nz (Z.land z1 MO_SIGN)).
    + apply (within_trans _ (uwrap 64 (uwrap (bits w) (swrap (Z.shiftl 8 (Z.land z1 MO_SIZE)) v)))); [|apply H64].
      rewrite (uwrap_id 64); [apply within_refl|apply uwrap_bits_64].
    + cbn [fst]. destruct (mem_ones_size z1) as [-> Hz]. apply (within_trans _ (uwrap (Z.shiftl 8 (Z.land z1 MO_SIZE)) v)).
      * apply within_uwrap, bits_pos.
      * apply within_ones. lia.
  - split; [apply Hf; lia|]. lia.
Qed.

(** *** One step, at states that agree *)
Section states.
Context (T : temps_t) (m1 m2 : mstate W).
Hypothesis (Ha : agree m1 m2) (Hs : sound T (regs m2)).

Lemma copies_shaped op l :
  op <> op_call -> shaped op l ->
  exists l', copy_propagate s T op l = Ok l' /\ shaped op l' /\ same_args s op m1 l m2 l' /\
    (forall j, is_input op j -> arg l' j = arg l j \/
       (is_copy (T (arg l j)) = true /\ is_copy (T (arg l' j)) = true)).
Proof.
  intros Hc Hsh.
  assert (copy_propagate s T op l = propagate s T (iargs op) (oargs op) l) as -> by (by destruct op).
  destruct (propagate_spec s T m2 (iargs op) (oargs op) l Hs) as (l' & E & Hl & Ho & Hi).
  - rewrite (sh_len _ _ _ Hsh). unfold nb_args, iargs, oargs. lia.
  - intros j Hj. by apply (shaped_valid s op l j Hsh).
  - assert (same_args s op m1 l m2 l') as Hsa.
    { split; [done| |done]. intros j Hj. destruct (Hi j Hj) as (_ & Et & Er & _). split; [done|].
      rewrite (proj2 Ha (arg l j)) by (by apply (shaped_valid s op l j Hsh)). done. }
    exists l'. split; [done|]. split; [|split; [done|]].
    + apply (shaped_same s op m1 l m2 l' Hsh Hsa). intros j Hj. apply (Hi j Hj).
    + intros j Hj. destruct (Hi j Hj) as (_ & _ & _ & [?|?]); auto.
Qed.

Lemma optimize_unfold nx i l' :
  copy_propagate s T (opc i) (args i) = Ok l' ->
  let l := canonicalize T (opc i) l' in
  optimize_op s T nx i =
    orelse (simplify_unary T (opc i) l) (orelse (simplify_const s T (opc i) l) (orelse (simplify_bits s T (opc i) l)
      (orelse (simplify_zero T (opc i) l) (orelse (simplify_same s T (opc i) l) (fold_op s T nx (opc i) l))))).
Proof. intros E. unfold optimize_op. by rewrite E. Qed.

(** A state with one more value in both. *)
Lemma agree_assigned dst v1 v m2' :
  agree m1 m2 -> assigned s m2 m2' dst v -> uwrap (ty dst) v1 = uwrap (ty dst) v -> agree (put m1 dst v1) m2'.
Proof.
  intros [Hw Hr] (Hw' & Ho & Hd) Hv. split; [by rewrite Hw'|]. intros t Ht. cbn. unfold rset.
  destruct (Z.eqb_spec t dst) as [->|Hne]; [by rewrite Hd|]. rewrite Ho by done. auto.
Qed.

Lemma exec_pure_value op l m k :
  shaped op l -> pure op = true ->
  match pure_value op m l with
  | None => exec_op s host k (mkOp op l) m = Undef
  | Some v => exists v', exec_op s host k (mkOp op l) m = Fall (put m (arg l 0) v') /\
      uwrap (ty (arg l 0)) v' = uwrap (ty (arg l 0)) v
  end.
Proof.
  intros Hsh Hp. destruct (pure_out op Hp) as (w & Hw & _). destruct (shaped_dst s op l w Hsh Hp Hw) as [_ Yd].
  assert ((exists w, op = op_mov w) \/ forall w, op <> op_mov w) as [[w' ->]|Hm]
    by (destruct op; try (by right); left; eauto).
  - eexists. split; [done|]. unfold TcgRing.ty. rewrite Yd. injection Hw as ->. cbn.
    destruct k; [|done]. symmetry. apply uwrap_idem, bits_pos.
  - rewrite exec_pure by done. destruct (pure_value op m l) as [v|]; [by exists v|done].
Qed.

Lemma replaces_pure nx i :
  op_ok i -> pure (opc i) = true ->
  (optimize_op s T nx i = Fault DivOverflow /\ signed_div (opc i) = true) \/
  exists e, optimize_op s T nx i = Ok e /\ replaces m1 m2 i nx e.
Proof.
  intros Hok Hp. unfold op_ok in Hok. destruct i as [op l]. cbn [opc args] in *.
  assert (shaped op l /\ forall w, op = op_bin Bor w -> arg l 1 <> arg l 2) as [Hsh Hor] by (by destruct op).
  destruct (copies_shaped op l) as (l' & E & Hsh' & Hsa & Hin); [by intros ->|done|].
  pose proof (canonicalize_ok s host T op l' Hsh') as [C1 C2 _ C3 C4 C5].
  destruct (pure_out op Hp) as (w & Hw & Ho).
  assert (arg (canonicalize T op l') 0 = arg l 0) as E0.
  { rewrite C2 by lia. apply (sa_rest _ _ _ _ _ _ Hsa). unfold is_input. lia. }
  destruct (stages_good s host T m2 Hs (signed_div op = true) op (canonicalize T op l') nx id C1 Hp)
    as [(e & Ee & He)|(Ee & _ & Hd)].
  - intros w' -> Heq. destruct (C5 w' eq_refl Heq) as [H1 H2]. rewrite <- H1.
    destruct (Hin 1%nat ltac:(input)) as [I1|[_ I1]]; [|by apply is_copy_const].
    destruct (Hin 2%nat ltac:(input)) as [I2|[_ I2]].
    + exfalso. apply (Hor w' eq_refl). congruence.
    + rewrite H2, <- H1 in I2. by apply is_copy_const.
  - right. exists e. rewrite (optimize_unfold nx (mkOp op l) l' E). split; [done|].
    rewrite C3, E0 in He. rewrite <- (pure_value_same s op m1 l m2 l' Hp Hsh Hsa) in He.
    destruct He as [Hwf (i' & Ei & Hl & Hv)]. split; [done|]. left. exists i'. split; [done|].
    split; [split; [cbn; by intros ->|done]|]. intros k1 k2.
    pose proof (exec_pure_value op l m1 k1 Hsh Hp) as Hx.
    destruct (pure_value op m1 l) as [v|] eqn:Ev; [|by rewrite Hx].
    destruct Hx as (v' & -> & Hv'). destruct (Hv v k2 eq_refl) as (m2' & -> & Has & Hs').
    split; [|done]. by apply (agree_assigned _ _ v).
  - left. split; [|done]. by rewrite (optimize_unfold nx (mkOp op l) l' E).
Qed.

(** *** Such an operation, kept *)
Lemma default_facts op l :
  pure op = false -> shaped op l ->
  do_default s T op l = ([mkOp op l],
    if TCG_OPF_BB_END (tcg_op_defs op) then reset_all_temps (nb_temps s) T
    else reset_outs T (fst (known_bits T op l)) 0 (oargs op) l).
Proof. intros Hp Hsh. unfold do_default. by rewrite <- (sh_len _ _ _ Hsh), firstn_all. Qed.

Lemma oargs_le op : (oargs op <= 2)%nat.
Proof. destruct op; cbn; try lia. destruct b; cbn; lia. Qed.

Lemma opaque_oargs op : opaque op = true -> TCG_OPF_BB_END (tcg_op_defs op) = true -> oargs op = 0%nat.
Proof. by destruct op. Qed.

Lemma puts_regs (m : mstate W) l vs n :
  (n <= 2)%nat -> (n <= length l)%nat ->
  regs (puts m (take n l) vs) =
    match n with
    | O => regs m | S O => rset (regs m) (arg l 0) (arg vs 0)
    | _ => rset (rset (regs m) (arg l 0) (arg vs 0)) (arg l 1) (arg vs 1)
    end.
Proof.
  intros Hn Hl. destruct n as [|[|[|n]]]; [done|..|lia].
  - destruct l as [|a l]; [cbn in Hl; lia|]. by destruct vs.
  - destruct l as [|a [|b l]]; [cbn in Hl; lia..|]. by destruct vs as [|v [|v' vs]].
Qed.

Lemma default_opaque op l :
  opaque op = true -> shaped op l ->
  match exec_opaque s host (mkOp op l) m2 with
  | Fall m' => sound (snd (do_default s T op l)) (regs m')
  | _ => True
  end.
Proof.
  intros Ho Hsh. assert (pure op = false) as Hp by (by destruct op). rewrite (default_facts op l Hp Hsh).
  unfold exec_opaque. cbn [opc args snd]. change (nb_oargs (tcg_op_defs op)) with (oargs op).
  change (nb_iargs (tcg_op_defs op)) with (iargs op).
  destruct (h_op _ _ _ _ _) as [vs w|w]; [|done]. pose proof (arity_sum _ _ Hsh). pose proof (oargs_le op).
  rewrite puts_regs by lia. destruct (TCG_OPF_BB_END (tcg_op_defs op)) eqn:Eb.
  { rewrite (opaque_oargs op Ho Eb). apply sound_reset_all, Hs. }
  set (vs' := map _ _). assert (forall j, fits 64 (arg vs' j) /\
    ((0 < oargs op)%nat -> within (arg vs' j) (fst (known_bits T op l)))) as Hv.
  { intros j. assert (arg vs' j = 0 \/ exists v, arg vs' j = loaded op (drop (oargs op + iargs op) l) v)
      as [-> | [v ->]]; [|split; [done|intros _ i Hi; by rewrite Z.bits_0]|by apply loaded_known].
    subst vs'. unfold arg. rewrite nth_lookup, list_lookup_fmap. destruct (_ !! j); cbn; eauto. }
  destruct (decide (0 < oargs op)%nat) as [Hpos|]; [|by replace (oargs op) with 0%nat by lia].
  apply sound_outs; [done|done| |by apply known_other|..]; try (by apply Hv).
  intros j Hj. by apply (sh_out _ _ _ Hsh).
Qed.

Lemma default_sound op l k :
  pure op = false -> op <> op_call -> shaped op l ->
  match exec_op s host k (mkOp op l) m2 with
  | Fall m' => sound (snd (do_default s T op l)) (regs m')
  | Jump _ m' => forall t, fits 64 (regs m' t)
  | _ => True
  end.
Proof.
  intros Hp Hc Hsh. destruct (opaque op) eqn:Ho.
  { rewrite exec_opaque_eq by done. pose proof (default_opaque op l Ho Hsh) as H.
    unfold exec_opaque in *. by destruct (h_op _ _ _ _ _). }
  rewrite default_facts by done. cbn [snd].
  assert (forall w v0 v1, op = op_add2 w \/ op = op_sub2 w \/ op = op_mulu2 w \/ op = op_muls2 w ->
    sound (reset_outs T (fst (known_bits T op l)) 0 2 l)
      (rset (rset (regs m2) (arg l 0) (uwrap (bits w) v0)) (arg l 1) (uwrap (bits w) v1))) as H2.
  { intros w v0 v1 Hop. apply (sound_outs T (regs m2) l _ (uwrap (bits w) v0) (uwrap (bits w) v1) 2);
      [done|lia| |by apply known_other|apply uwrap_bits_64|by apply (known_width T op l w)|apply uwrap_bits_64].
    intros j Hj. apply (sh_out _ _ _ Hsh). by destruct Hop as [-> | [-> | [-> | ->]]]. }
  destruct op; try done; unfold exec_op; cbn [opc args].
  - apply (sound_outs T (regs m2) l _ 0 0 1); try done; [lia|by apply Hsh|].
    intros i Hi. by rewrite Z.bits_0.
  - apply sound_reset_all, Hs.
  - apply Hs.
  - destruct (cond_sem _ _ _ _) as [[]|]; [apply Hs|apply sound_reset_all, Hs|done].
  - destruct (cond_sem _ _ _ _) as [[]|]; [apply Hs|apply sound_reset_all, Hs|done].
  - apply H2. auto.
  - apply H2. auto.
  - apply H2. auto.
  - apply H2. auto.
Qed.

Lemma default_wf op l : pure op = false -> shaped op l -> wf (snd (do_default s T op l)).
Proof.
  intros Hp Hsh. rewrite default_facts by done. cbn. destruct (TCG_OPF_BB_END _).
  - apply (s_wf _ _ (regs m2)), sound_reset_all, Hs.
  - eapply s_wf, (sound_outs T (regs m2) l _ 0 0); [done|apply oargs_le|by apply Hsh|by apply known_other|done| |done].
    intros i Hi. by rewrite Z.bits_0.
Qed.

Lemma exec_keep op l m k :
  pure op = false -> exec_op s host k (mkOp op l) m = exec_op s host false (mkOp op l) m.
Proof. by destruct op. Qed.

(** *** Operations with effects, folded *)
Section other.
Context (op : TCGOpcode) (l0 l : list Z) (nx : option TCGOpcode).
Hypothesis (Hp : pure op = false) (Hc : op <> op_call) (Hsh : shaped op l).
Hypothesis (Hn : forall k1, next_agree (exec_op s host k1 (mkOp op l0) m1) (exec_op s host false (mkOp op l) m2)).

Lemma replaces_by i' T' :
  op <> op_set_label -> opc i' <> op_set_label -> wf T' ->
  (forall k, exec_op s host k i' m2 = exec_op s host false (mkOp op l) m2) ->
  match exec_op s host false (mkOp op l) m2 with Fall m' => sound T' (regs m') | _ => True end ->
  replaces m1 m2 (mkOp op l0) nx ([i'], T').
Proof.
  intros N1 N2 HT Hx Hf. pose proof (default_sound op l false Hp Hc Hsh) as Hd. split; [done|]. left.
  exists i'. split; [done|]. split; [done|]. intros k1 k2. rewrite Hx. specialize (Hn k1).
  destruct (exec_op s host k1 _ m1), (exec_op s host false _ m2); try done.
  destruct Hn as [? ?]. done.
Qed.

Lemma replaces_kept : (op = op_set_label -> l = l0) -> replaces m1 m2 (mkOp op l0) nx (do_default s T op l).
Proof.
  intros Hl. pose proof (default_sound op l false Hp Hc Hsh) as Hd. split; [by apply default_wf|]. left.
  rewrite default_facts in * by done. exists (mkOp op l). split; [done|]. split.
  - split; [|done]. cbn. intros E. rewrite Hl by done. split; [done|]. rewrite E. by exists T.
  - intros k1 k2. rewrite (exec_keep op l m2 k2) by done. specialize (Hn k1).
    destruct (exec_op s host k1 _ m1), (exec_op s host false _ m2); try done.
    destruct Hn as [? ?]. done.
Qed.

Lemma br_sound label :
  exec_op s host false (mkOp op l) m2 = Jump label m2 -> op <> op_set_label ->
  replaces m1 m2 (mkOp op l0) nx (emit_br s T label).
Proof.
  intros E N. apply replaces_by; [done|done| |by rewrite E|by rewrite E].
  apply (s_wf _ _ (regs m2)), sound_reset_all, Hs.
Qed.

Lemma nop_sound :
  exec_op s host false (mkOp op l) m2 = Fall m2 -> op <> op_set_label ->
  replaces m1 m2 (mkOp op l0) nx (emit_nop T).
Proof.
  intros E N. apply replaces_by; [done|done|apply Hs|by rewrite E|by rewrite E].
Qed.

Lemma pair_sound R lo hi :
  exec_op s host false (mkOp op l) m2 = Fall (put2 W32 m2 l R) -> op <> op_set_label ->
  (forall k1, exec_op s host k1 (mkOp op l0) m1 <> Undef) -> nx = Some op_nop -> out_type op = Some W32 -> oargs op = 2%nat ->
  lo = u32 (u64 R) -> hi = u32 (Z.shiftr (u64 R) 32) ->
  exists e, emit_pair T nx (arg l 0) (arg l 1) lo hi = Ok e /\ replaces m1 m2 (mkOp op l0) nx e.
Proof.
  intros E N Hu Hnx Ho H2 -> ->. unfold emit_pair. rewrite decide_True by done.
  destruct (sh_out _ _ _ Hsh 0%nat ltac:(lia)) as [V0 Y0], (sh_out _ _ _ Hsh 1%nat ltac:(lia)) as [V1 Y1].
  rewrite Ho in Y0, Y1.
  assert (forall x, fits 64 (u32 x)) as Hf by (intros; apply (fits_weaken 32); [lia|apply uwrap_fits; lia]).
  assert (u32 (u32 (u64 R)) = u32 R) as E1 by (rewrite uwrap_idem by lia; apply uwrap_min; lia).
  assert (u32 (u32 (Z.shiftr (u64 R) 32)) = u32 (R / 2 ^ 32)) as E2.
  { rewrite uwrap_idem by lia. rewrite <- Z.shiftr_div_pow2 by lia. apply Z.bits_inj'. intros i Hi.
    rewrite !uwrap_spec, !Z.shiftr_spec, uwrap_spec by lia.
    destruct (Z.ltb_spec i 32), (Z.ltb_spec (i + 32) 64); done || lia. }
  pose proof (sound_movi s T (regs m2) (arg l 0) (u32 (u64 R)) Hs V0 (Hf _)) as S1.
  pose proof (sound_movi s _ _ (arg l 1) (u32 (Z.shiftr (u64 R) 32)) S1 V1 (Hf _)) as S2.
  unfold TcgRing.ty in S2. rewrite Y0, Y1 in S2. cbn [bits] in S2. rewrite E1, E2 in S2.
  eexists. split; [done|]. split; [apply S2|]. right. eexists _, _. split; [done|]. split; [done|].
  split; [done|]. split; [done|]. split; [done|]. intros k1 k2 k3. specialize (Hn k1). specialize (Hu k1). rewrite E in Hn.
  cbn [exec_op opc args arg bits nth tcg_opt_gen_movi fst]. rewrite E1.
  destruct (exec_op s host k1 _ m1) eqn:E0; try done.
  exists m, (put m2 (arg l 0) (u32 R)), (put2 W32 m2 l R). split; [done|]. split; [done|]. split; [|done].
  unfold put2. cbn [bits]. by rewrite E2.
Qed.
End other.

Lemma canon_step op l0 nx :
  pure op = false -> op <> op_call -> shaped op l0 ->
  exists l, optimize_op s T nx (mkOp op l0) = fold_op s T nx op l /\ shaped op l /\
    (forall k1, next_agree (exec_op s host k1 (mkOp op l0) m1) (exec_op s host false (mkOp op l) m2)) /\
    (op = op_set_label -> l = l0).
Proof.
  intros Hp Hc Hsh. destruct (copies_shaped op l0 Hc Hsh) as (l' & E & Hsh' & Hsa & _).
  pose proof (canonicalize_ok s host T op l' Hsh') as [C1 _ _ _ C4 _].
  exists (canonicalize T op l'). rewrite (optimize_unfold nx (mkOp op l0) l' E). cbn [opc].
  split; [by apply stages_pass|]. split; [done|]. split.
  - intros k1. rewrite C4. by apply exec_agree.
  - intros ->. cbn. rewrite <- (firstn_all l'), <- (firstn_all l0), (sa_len _ _ _ _ _ _ Hsa).
    pose proof (sa_len _ _ _ _ _ _ Hsa). apply (args_eq l' l0 0 (length l0)); [lia|lia|].
    intros j Hj. apply Hsa. unfold is_input. cbn. lia.
Qed.

(** What a double-word operation computes from constants. *)
Lemma pair_lor lo hi : Z.lor (Z.shiftl (u32 hi) 32) (u32 lo) = pair_of W32 (u32 lo) (u32 hi).
Proof. rewrite Z.lor_comm. apply lor_shiftl_add; [lia|]. apply uwrap_fits. lia. Qed.

Lemma known_const op l j :
  shaped op l -> is_input op j -> in_type op = Some W32 -> is_const (T (arg l j)) = true ->
  opnd W32 m2 (arg l j) = u32 (val (T (arg l j))).
Proof.
  intros Hsh Hj Hi K. destruct (shaped_arg s op l W32 j Hsh Hj Hi) as [V Y].
  by apply (opnd_const s T m2 Hs W32 _ V Y K).
Qed.

Lemma replaces_brcond w l0 l nx :
  let op := op_brcond w in
  shaped op l -> (forall k1, next_agree (exec_op s host k1 (mkOp op l0) m1) (exec_op s host false (mkOp op l) m2)) ->
  exists e, fold_op s T nx op l = Ok e /\ replaces m1 m2 (mkOp op l0) nx e.
Proof.
  intros op Hsh Hn. destruct (fold_cond_good s T m2 Hs op (arg l 0) (arg l 1) (arg l 2) w) as (o & E & Ho).
  1: by destruct w.
  1,2: apply (sh_in _ _ _ Hsh); input.
  1: apply Hsh.
  cbn [fold_op op]. subst op. rewrite E. cbn [obind].
  destruct o as [[]|]; eexists; (split; [done|]).
  - apply (br_sound (op_brcond w) l0 l nx); try done. unfold exec_op. cbn [opc args]. by rewrite (Ho true).
  - apply (nop_sound (op_brcond w) l0 l nx); try done. unfold exec_op. cbn [opc args]. by rewrite (Ho false).
  - by apply replaces_kept.
Qed.

Lemma replaces_brcond2 l0 l nx :
  let op := op_brcond2 in
  shaped op l -> (forall k1, next_agree (exec_op s host k1 (mkOp op l0) m1) (exec_op s host false (mkOp op l) m2)) ->
  exists e, fold_op s T nx op l = Ok e /\ replaces m1 m2 (mkOp op l0) nx e.
Proof.
  intros op Hsh Hn.
  assert (forall j, is_input op j -> of_type s (Some W32) (arg l j)) as Hin by apply (sh_in _ _ _ Hsh).
  destruct (fold_cond2_good s T m2 Hs (arg l 0) (arg l 1) (arg l 2) (arg l 3) (arg l 4)) as (o & E & Ho).
  1,2,3,4: apply Hin; input.
  1: apply Hsh.
  subst op. cbn [fold_op]. rewrite E. cbn [obind]. unfold pair in Ho.
  destruct o as [[]|]; [eexists; split; [done|]..|].
  - apply (br_sound op_brcond2 l0 l nx); try done. unfold exec_op. cbn [opc args]. by rewrite (Ho true).
  - apply (nop_sound op_brcond2 l0 l nx); try done. unfold exec_op. cbn [opc args]. by rewrite (Ho false).
  - case_match eqn:Ec; eexists; (split; [done|]); [|by apply replaces_kept].
    apply andb_true_iff in Ec as [[Ec K3]%andb_true_iff K4]. apply orb_true_iff in Ec.
    destruct (Hin 2%nat ltac:(input)) as [V2 Y2], (Hin 3%nat ltac:(input)) as [V3 Y3].
    pose proof (opnd_known s T m2 Hs W32 _ 0 V2 Y2 K3) as E2. pose proof (opnd_known s T m2 Hs W32 _ 0 V3 Y3 K4) as E3.
    change (uwrap (bits W32) 0) with 0 in E2, E3.
    assert (forall k, exec_op s host k (mkOp (op_brcond W32) [arg l 1; arg l 3; arg l 4; arg l 5]) m2 =
      exec_op s host false (mkOp op_brcond2 l) m2) as Hx.
    { intros k. unfold exec_op. cbn [opc args]. rewrite E2, E3.
      rewrite (cond_high (arg l 4)); [cbn; by rewrite E3| |apply (opnd_fits W32)..].
      destruct Ec as [->%Z.eqb_eq| ->%Z.eqb_eq]; auto. }
    apply (replaces_by op_brcond2 l0 l nx); try done.
    + apply (s_wf _ _ (regs m2)), sound_reset_all, Hs.
    + unfold exec_op. cbn [opc args]. destruct (cond_sem _ _ _ _) as [[]|]; [done|apply sound_reset_all, Hs|done].
Qed.

Lemma replaces_pair op l0 l nx :
  needs_nop op = true -> nx = Some op_nop -> shaped op l ->
  (forall k1, next_agree (exec_op s host k1 (mkOp op l0) m1) (exec_op s host false (mkOp op l) m2)) ->
  exists e, fold_op s T nx op l = Ok e /\ replaces m1 m2 (mkOp op l0) nx e.
Proof.
  intros Hnn Hnx Hsh Hn. pose proof (known_const op l) as Hk.
  assert (forall k, exec_op s host k (mkOp op l0) m1 <> Undef) as Hu by (intros; by destruct op).
  assert (pure op = false /\ op <> op_call /\ op <> op_set_label) as (Hp & Hc & Hl) by (by destruct op).
  assert (forall R lo hi, exec_op s host false (mkOp op l) m2 = Fall (put2 W32 m2 l R) ->
    lo = u32 (u64 R) -> hi = u32 (Z.shiftr (u64 R) 32) ->
    exists e, emit_pair T nx (arg l 0) (arg l 1) lo hi = Ok e /\ replaces m1 m2 (mkOp op l0) nx e) as Hpair.
  { intros R lo hi HR -> ->. destruct op; try done; destruct w; try done;
      by eapply (pair_sound _ l0 l nx). }
  assert (exists e, Ok (do_default s T op l) = Ok e /\ replaces m1 m2 (mkOp op l0) nx e) as Hdef
    by (eexists; split; [done|by apply replaces_kept]).
  destruct op; try done; destruct w; try done; cbn [fold_op]; case_match eqn:Ek; try done;
    repeat match goal with H : (_ && _) = true |- _ => apply andb_true_iff in H as [H ?] end;
    rewrite ?pair_lor.
  - eapply Hpair; [|done..]. unfold exec_op. cbn [opc args].
    by rewrite !(Hk _ Hsh) by (input || done).
  - eapply Hpair; [|done..]. unfold exec_op. cbn [opc args].
    by rewrite !(Hk _ Hsh) by (input || done).
  - eapply Hpair; [|done..]. unfold exec_op. cbn [opc args].
    by rewrite !(Hk _ Hsh) by (input || done).
Qed.

Lemma replaces_other nx i :
  op_ok i -> pure (opc i) = false -> opc i <> op_call -> (needs_nop (opc i) = true -> nx = Some op_nop) ->
  exists e, optimize_op s T nx i = Ok e /\ replaces m1 m2 i nx e.
Proof.
  destruct i as [op l0]. cbn [opc]. intros Hok Hp Hc Hnx.
  assert (shaped op l0) as Hsh0 by (unfold op_ok in Hok; cbn in Hok; destruct op; try done; tauto).
  destruct (canon_step op l0 nx Hp Hc Hsh0) as (l & -> & Hsh & Hn & Hl).
  destruct (needs_nop op) eqn:En; [apply replaces_pair; auto|].
  assert (exists e, Ok (do_default s T op l) = Ok e /\ replaces m1 m2 (mkOp op l0) nx e) as Hdef
    by (eexists; split; [done|by apply replaces_kept]).
  destruct op; try done; try (by destruct w).
  - by apply replaces_brcond.
  - by apply replaces_brcond2.
Qed.

(** *** Calls *)
Lemma take_args_valid n k l :
  (n + k <= length l)%nat -> (forall j, (n <= j < n + k)%nat -> valid (arg l j)) ->
  Forall valid (take k (drop n l)).
Proof.
  revert n. induction k as [|k IH]; intros n Hl Hv; [constructor|].
  rewrite take_S_arg by lia. constructor; [apply Hv; lia|]. apply IH; [lia|]. intros j Hj. apply Hv. lia.
Qed.

Hypothesis (Hg : 0 <= nb_globals s <= nb_temps s).

Lemma globals_valid : Forall valid (globals s).
Proof. apply Forall_forall. intros t Ht%elem_of_seqZ. unfold TcgRing.valid. lia. Qed.

Lemma call_flag_bits flags :
  writes_globals flags = negb (nz (Z.land flags (Z.lor TCG_CALL_NO_READ_GLOBALS TCG_CALL_NO_WRITE_GLOBALS))).
Proof.
  unfold writes_globals, reads_globals. rewrite Z.land_lor_distr_r. unfold nz.
  rewrite <- negb_orb. f_equal.
  destruct (Z.eqb_spec (Z.land flags TCG_CALL_NO_READ_GLOBALS) 0) as [->|H1]; [by rewrite Z.lor_0_l|].
  cbn. symmetry. apply negb_true_iff, Z.eqb_neq. rewrite Z.lor_eq_0_iff. tauto.
Qed.

(** A call after copy propagation: the same call, of inputs that agree. *)
Lemma call_inputs nx l :
  call_ok l -> exists l', optimize_op s T nx (mkOp op_call l) = Ok (fold_call s T l') /\
    call_flags l' = call_flags l /\ call_outs l' = call_outs l /\
    map (value s m1) (call_ins l) = map (value s m2) (call_ins l') /\ Forall valid (call_outs l).
Proof.
  intros [Hlen Hv]. unfold call_args in *. cbn [fst snd] in *.
  destruct (propagate_spec s T m2 (Z.to_nat (Z.land (arg l 0) 0xffff)) (Z.to_nat (Z.shiftr (arg l 0) 16) + 1) l Hs)
    as (l' & E & El & Eo & Ei); [lia|intros j Hj; apply Hv; lia|].
  assert (arg l' 0 = arg l 0) as E0 by (apply Eo; lia). exists l'.
  unfold call_flags, call_outs, call_ins. rewrite E0.
  set (no := Z.to_nat (Z.shiftr (arg l 0) 16)) in *. set (ni := Z.to_nat (Z.land (arg l 0) 0xffff)) in *.
  split; [|split; [|split; [|split]]].
  - unfold optimize_op, copy_propagate. cbn [opc args]. fold no ni. rewrite E. cbn [obind].
    by rewrite stages_pass.
  - apply Eo. lia.
  - apply args_eq; [lia..|]. intros j Hj. apply Eo. lia.
  - apply map_args; [lia..|]. intros j Hj.
    destruct (Ei j ltac:(lia)) as (Vc & Tc & Rc & _). rewrite (agree_value m1 m2) by (done || apply Hv; lia).
    unfold value, opnd, TcgRing.ty in *. rewrite Tc. exact Rc.
  - apply take_args_valid; [lia|]. intros j Hj. apply Hv. lia.
Qed.

Lemma replaces_call nx l :
  call_ok l -> exists e, optimize_op s T nx (mkOp op_call l) = Ok e /\ replaces m1 m2 (mkOp op_call l) nx e.
Proof.
  intros Hok. destruct (call_inputs nx l Hok) as (l' & -> & Ef & Eout & Ein & Vout).
  eexists. split; [done|].
  assert (map (value s m1) (globals s) = map (value s m2) (globals s)) as Egl.
  { apply map_ext_Forall, (Forall_impl _ _ _ globals_valid). intros t Ht. by apply agree_value. }
  unfold fold_call. rewrite Ef, Eout, <- call_flag_bits.
  set (T1 := if writes_globals (call_flags l) then reset_range T (globals s) else T).
  set (wr := fun (w : W) g => if writes_globals (call_flags l)
    then puts_typed s (mkState (regs m2) w) (globals s) g else mkState (regs m2) w).
  assert (forall w g, sound T1 (regs (wr w g))) as HT1.
  { intros w g. subst T1 wr. cbn. destruct (writes_globals _); [|done].
    apply sound_puts; [done|apply globals_valid|apply puts_typed_fits]. }
  assert (forall w g vs, sound (reset_range T1 (call_outs l)) (regs (puts_typed s (wr w g) (call_outs l) vs))) as HT2
    by (intros; apply sound_puts; [apply HT1|done|apply puts_typed_fits]).
  split; [apply (s_wf _ _ _ (HT2 (world m2) [] []))|].
  left. eexists. split; [done|]. split; [done|]. intros k1 k2. cbn [snd]. unfold exec_op, exec_call. cbn [opc args].
  rewrite Ef, Eout, <- Ein, Egl, (proj1 Ha). destruct (h_call _ _ _ _ _) as [vs g w|g w].
  - split; [|apply HT2].
    apply agree_puts. destruct (writes_globals _); [apply agree_puts|]; (split; [done|apply Ha]).
  - destruct (writes_globals _); [apply agree_puts|]; (split; [done|apply Ha]).
Qed.

(** *** Any operation *)
Lemma replaces_ok nx i :
  op_ok i -> (needs_nop (opc i) = true -> nx = Some op_nop) ->
  (optimize_op s T nx i = Fault DivOverflow /\ signed_div (opc i) = true) \/
  exists e, optimize_op s T nx i = Ok e /\ replaces m1 m2 i nx e.
Proof.
  intros Hok Hnx. destruct (pure (opc i)) eqn:Hp; [by apply replaces_pure|]. right.
  destruct (decide (opc i = op_call)) as [E|]; [|by apply replaces_other].
  destruct i as [op l]. cbn in E. subst op. by apply replaces_call.
Qed.

End states.

End step.
(** C24: The two rewritings in front of the simplifications keep typing and
    meaning: with facts true of the registers, exchanging the inputs of a typed
    operation for better copies and putting constants second yields an
    operation that is typed again, with the same outputs, that computes the
    same value, and for an operation with effects does the same. *)
Theorem rewriting_keeps_types {W : Type} (s : TCGContext) (host : Host W) (T : temps_t) (m : mstate W) op l :
  sound s T (regs m) -> op <> op_call -> shaped s op l ->
  exists l', copy_propagate s T op l = Ok l' /\
    let l2 := canonicalize T op l' in
    shaped s op l2 /\ (forall j, (j < oargs op)%nat -> arg l2 j = arg l j) /\
    pure_value op m l2 = pure_value op m l /\
    (pure op = false -> forall k, next_agree s (exec_op s host k (mkOp op l) m) (exec_op s host k (mkOp op l2) m)).
Proof.
  intros Hs Hc Hsh. destruct (copies_shaped s T m m (agree_refl s m) Hs op l Hc Hsh) as (l' & E & Hsh' & Hsa & _).
  exists l'. split; [done|]. pose proof (canonicalize_ok s host T op l' Hsh') as [C1 C2 _ C3 C4 _].
  split; [done|]. split; [|split].
  - intros j Hj. rewrite C2 by done. apply Hsa. unfold is_input. lia.
  - rewrite C3. destruct (pure op) eqn:Hp; [|by destruct op].
    symmetry. by apply (pure_value_same s op m l m l').
  - intros Hp k. rewrite C4. by apply exec_agree.
Qed.

(** [setcond_i32 0, 2, 1, lt] where 2 holds a constant and 3 is a copy of 1. *)
Lemma rewriting_keeps_types_witness :
  let s := mkContext 2 4 (fun _ => W32) (fun _ => false) in
  let T0 := reset_all_temps 4 (fun _ => mkInfo TCG_TEMP_UNDEF 0 0 0 0) in
  let T := snd (tcg_opt_gen_movi T0 2 7) in
  let m := mkState (rset (fun _ => 0) 2 7) tt in
  exists l', copy_propagate s T (op_setcond W32) [0; 2; 1; TCG_COND_LT] = Ok l' /\
    let l2 := canonicalize T (op_setcond W32) l' in
    l2 = [0; 1; 2; TCG_COND_GT] /\ pure_value (op_setcond W32) m l2 = Some 0 /\ shaped s (op_setcond W32) l2.
Proof.
  cbv zeta. set (s := mkContext 2 4 (fun _ => W32) (fun _ => false)).
  destruct (rewriting_keeps_types s (mkHost (fun _ _ _ w => OLeave w) (fun _ _ _ w => CLeave [] w))
    (snd (tcg_opt_gen_movi (reset_all_temps 4 (fun _ => mkInfo TCG_TEMP_UNDEF 0 0 0 0)) 2 7))
    (mkState (rset (fun _ => 0) 2 7) tt) (op_setcond W32) [0; 2; 1; TCG_COND_LT]) as (l' & E & H1 & _ & H2 & _).
  - apply (sound_movi s _ _ 2 7); [by apply sound_reset_all|by split|done].
  - done.
  - split; [done| |done|..].
    + change (TCG_COND_LT ∈ tcg_conds). apply (bool_decide_unpack _). by vm_compute.
    + intros j Hj. replace j with 0%nat by (cbn in Hj; lia). by split.
    + intros j Hj. unfold is_input in Hj. cbn in Hj. assert (j = 1 \/ j = 2)%nat as [-> | ->] by lia; by split.
  - exists l'. split; [done|]. vm_compute in E. injection E as <-. split; [by vm_compute|].
    split; [by vm_compute|exact H1].
Defined.

End TcgStep.
