(* ===== verification/TcgProg.v ===== *)
(** A translated block through [tcg_optimize]: it returns, the block keeps its
    length and its labels, and from every state, under every choice of the
    register allocator, the optimised block behaves as the block does. *)
From Stdlib Require Import ZArith Lia Bool Btauto.
From stdpp Require Import base numbers list.
From S2P Require Import Prelude HostUtils TcgOp TcgOpt TcgRing TcgArith TcgSem TcgBits TcgSound TcgStep.
Local Open Scope Z_scope.

Module TcgProg.
Import HostUtils.HostUtils Tcg TcgOpt TcgRing TcgArith TcgSem TcgBits TcgSound TcgStep.

(** Every [add2_i32], [sub2_i32] and [mulu2_i32] has its [nop] behind it. *)
Fixpoint pairs_ok (p : list TCGOp) : bool :=
  match p with
  | [] => true
  | i :: p => implb (needs_nop (opc i)) (bool_decide (option_map opc (head p) = Some op_nop)) && pairs_ok p
  end.

(** A block as the front ends emit it. *)
Record block_ok (s : TCGContext) (p : list TCGOp) : Prop := {
  bo_globals : 0 <= nb_globals s <= nb_temps s;
  bo_ops : Forall (op_ok s) p;
  bo_pairs : pairs_ok p = true;
}.

Lemma block_tail s i p : block_ok s (i :: p) -> block_ok s p.
Proof. intros [Hg Ho Hp]. apply Forall_cons in Ho as [_ Ho]. apply andb_true_iff in Hp as [_ Hp]. done. Qed.

Lemma block_drop s p n : block_ok s p -> block_ok s (drop n p).
Proof.
  revert p. induction n as [|n IH]; intros [|i p] Hb; try done. apply IH. by apply block_tail in Hb.
Qed.

Lemma block_head s i p :
  block_ok s (i :: p) -> op_ok s i /\ (needs_nop (opc i) = true -> option_map opc (head p) = Some op_nop).
Proof.
  intros [_ Ho Hp]. apply Forall_cons in Ho as [Ho _]. apply andb_true_iff in Hp as [Hp _]. split; [done|].
  intros E. rewrite E in Hp. by apply bool_decide_eq_true in Hp.
Qed.

(** *** Without a state *)

(** Facts of the right shape are true of some registers. *)
Lemma wf_sound s T : wf s T -> exists r, sound s T r.
Proof.
  intros HT. exists (fun t => if (0 <=? t) && (t <? nb_temps s) && is_const (T t) then val (T t) else 0).
  assert (forall t, valid s t -> (0 <=? t) && (t <? nb_temps s) = true) as Hv.
  { unfold valid. intros t Ht. apply andb_true_iff. split; [apply Z.leb_le|apply Z.ltb_lt]; lia. }
  split; [done|..].
  - intros t. destruct (_ && _ && _) eqn:E; [|done]. apply andb_true_iff in E as [[H1 H2]%andb_true_iff H3].
    apply (wf_const s T HT t); [unfold valid; lia|done].
  - intros t Ht. rewrite Hv by done. cbn. destruct (is_const (T t)) eqn:E; [|intros i Hi; by rewrite Z.bits_0].
    destruct (wf_const s T HT t Ht E) as [_ ->]. apply within_refl.
  - intros t Ht Hc. by rewrite Hv, Hc by done.
  - intros t Ht Hc. destruct (wf_next s T HT t Ht Hc) as (Vn & Cn & _).
    rewrite !Hv by done. by rewrite (is_copy_const _ Hc), (is_copy_const _ Cn).
Qed.

Definition host0 : Host unit := mkHost (fun _ _ _ w => OLeave w) (fun _ _ _ w => CLeave [] w).

Lemma optimize_shape s T nx i :
  0 <= nb_globals s <= nb_temps s -> wf s T -> op_ok s i -> (needs_nop (opc i) = true -> nx = Some op_nop) ->
  (optimize_op s T nx i = Fault DivOverflow /\ signed_div (opc i) = true) \/
  exists e, optimize_op s T nx i = Ok e /\ wf s (snd e) /\
    ((exists i', fst e = [i'] /\ label_rel s (snd e) i i') \/
     (exists i1 i2, fst e = [i1; i2] /\ nx = Some op_nop /\
        opc i <> op_set_label /\ opc i1 <> op_set_label /\ opc i2 <> op_set_label)).
Proof.
  intros Hg HT Hi Hn. destruct (wf_sound s T HT) as (r & Hr). set (m := mkState r tt).
  destruct (replaces_ok s host0 T m m (agree_refl s m) Hr Hg nx i Hi Hn) as [H|(e & He & Hwf & Hs)]; [by left|right].
  exists e. split; [done|]. split; [done|]. destruct Hs as [(i' & ? & ? & _)|(i1 & i2 & ? & ? & ? & ? & ? & _)]; eauto 10.
Qed.

(** The loop goes through: at most a signed division of constants stops it. *)
Lemma fold_ops_total s T p :
  block_ok s p -> wf s T ->
  (exists p', fold_ops s T p = Ok p') \/
  (fold_ops s T p = Fault DivOverflow /\ Exists (fun i => signed_div (opc i) = true) p).
Proof.
  remember (length p) as n eqn:En. revert T p En. induction (lt_wf n) as [n _ IH]. intros T p -> Hb HT.
  destruct p as [|i p]; [by left; exists []|]. destruct (block_head s i p Hb) as [Hi Hn].
  destruct (optimize_shape s T _ i (bo_globals _ _ Hb) HT Hi Hn) as [[E Hd]|([l T'] & E & HT' & Hs)];
    cbn [fold_ops]; rewrite E; cbn [obind fst snd] in *.
  { right. split; [done|]. by left. }
  destruct Hs as [(i' & -> & _)|(i1 & i2 & -> & Hx & _)].
  - destruct (IH (length p) ltac:(cbn; lia) T' p eq_refl (block_tail _ _ _ Hb) HT') as [[p' ->]|[-> H]]; cbn.
    + left. eauto.
    + right. split; [done|]. by right.
  - destruct p as [|j p]; [done|].
    destruct (IH (length p) ltac:(cbn; lia) T' p eq_refl (block_drop _ _ 2 Hb) HT') as [[p' ->]|[-> H]]; cbn.
    + left. eauto.
    + right. split; [done|]. by right; right.
Qed.

(** One iteration of the loop, taken apart. *)
Lemma fold_ops_cons s T i p p' :
  block_ok s (i :: p) -> wf s T -> fold_ops s T (i :: p) = Ok p' ->
  exists e, optimize_op s T (option_map opc (head p)) i = Ok e /\ wf s (snd e) /\
    ((exists i' q, fst e = [i'] /\ p' = i' :: q /\ fold_ops s (snd e) p = Ok q /\ label_rel s (snd e) i i') \/
     (exists i1 i2 j p2 q, fst e = [i1; i2] /\ p = j :: p2 /\ opc j = op_nop /\ p' = i1 :: i2 :: q /\
        fold_ops s (snd e) p2 = Ok q /\
        opc i <> op_set_label /\ opc i1 <> op_set_label /\ opc i2 <> op_set_label)).
Proof.
  intros Hb HT. destruct (block_head s i p Hb) as [Hi Hn].
  destruct (optimize_shape s T _ i (bo_globals _ _ Hb) HT Hi Hn) as [[E Hd]|(e & E & HT' & Hs)];
    cbn [fold_ops]; rewrite E; cbn [obind]; [done|].
  intros H. exists e. split; [done|]. split; [done|]. destruct e as [l T']. cbn [fst snd] in *.
  destruct Hs as [(i' & -> & Hl)|(i1 & i2 & -> & Hx & L0 & L1 & L2)].
  - destruct (fold_ops s T' p) as [q|] eqn:Eq; [|done]. cbn in H. injection H as <-. left. eauto 6.
  - destruct p as [|j p]; [done|]. destruct (fold_ops s T' p) as [q|] eqn:Eq; [|done]. cbn in H.
    injection H as <-. injection Hx as Hj. right. eauto 15.
Qed.

Lemma fold_ops_length s T p p' :
  block_ok s p -> wf s T -> fold_ops s T p = Ok p' -> length p' = length p.
Proof.
  remember (length p) as n eqn:En. revert T p p' En. induction (lt_wf n) as [n _ IH]. intros T p p' -> Hb HT H.
  destruct p as [|i p]; [by injection H as <-|].
  destruct (fold_ops_cons s T i p p' Hb HT H) as (e & _ & HT' & [(i' & q & _ & -> & Eq & _)|
    (i1 & i2 & j & p2 & q & _ & -> & _ & -> & Eq & _)]); cbn; f_equal.
  - apply (IH (length p) ltac:(cbn; lia) _ p q eq_refl (block_tail _ _ _ Hb) HT' Eq).
  - f_equal. apply (IH (length p2) ltac:(cbn; lia) _ p2 q eq_refl (block_drop _ _ 2 Hb) HT' Eq).
Qed.
(** Labels stay where they are, and nothing is known behind one. *)
Lemma fold_ops_labels s T p p' label :
  block_ok s p -> wf s T -> fold_ops s T p = Ok p' ->
  label_pos p' label = label_pos p label /\
  forall k, label_pos p label = Some k ->
    exists T0, fold_ops s (reset_all_temps (nb_temps s) T0) (drop k p) = Ok (drop k p').
Proof.
  remember (length p) as n eqn:En. revert T p p' En. induction (lt_wf n) as [n _ IH]. intros T p p' -> Hb HT H.
  destruct p as [|i p]; [by injection H as <-|].
  destruct (fold_ops_cons s T i p p' Hb HT H) as (e & _ & HT' & [(i' & q & _ & -> & Eq & [L1 L2])|
    (i1 & i2 & j & p2 & q & _ & -> & Ej & -> & Eq & N0 & N1 & N2)]).
  - destruct (IH (length p) ltac:(cbn; lia) _ p q eq_refl (block_tail _ _ _ Hb) HT' Eq) as [El Ek]. cbn.
    destruct (decide (opc i = op_set_label /\ arg (args i) 0 = label)) as [[Hi Ha]|Hno].
    + destruct (L1 Hi) as [-> (T0 & ET)]. rewrite decide_True by done. split; [done|]. intros k [= <-].
      exists T0. by rewrite <- ET.
    + rewrite decide_False.
      * rewrite El. split; [done|]. intros k Hk. destruct (label_pos p label) as [k'|]; [|done].
        injection Hk as <-. by apply Ek.
      * intros [Hi' Ha]. specialize (L2 Hi'). destruct (L1 L2) as [-> _]. by apply Hno.
  - destruct (IH (length p2) ltac:(cbn; lia) _ p2 q eq_refl (block_drop _ _ 2 Hb) HT' Eq) as [El Ek]. cbn.
    rewrite !decide_False by (intros [? ?]; congruence). rewrite El. split; [done|].
    intros k Hk. destruct (label_pos p2 label) as [k'|]; [|done]. injection Hk as <-. by apply Ek.
Qed.

(** *** Behaviours *)
Section behaviour.
Context {W : Type} (s : TCGContext) (host : Host W).

(** What is seen of a run: undefined behaviour promises nothing. *)
Definition behaves (b1 b2 : behaviour (W := W)) : Prop :=
  match b1, b2 with
  | Undefined, _ => True
  | Left m1, Left m2 => agree s m1 m2
  | FellOff m1, FellOff m2 => agree s m1 m2
  | Running, Running => True
  | _, _ => False
  end.

Lemma drop_nth_error {A} (p : list A) pc :
  match drop pc p with
  | [] => nth_error p pc = None
  | i :: q => nth_error p pc = Some i /\ drop (S pc) p = q
  end.
Proof. revert pc. induction p as [|x p IH]; intros [|pc]; cbn; try done. apply IH. Qed.

Lemma run_nth fuel k (p : list TCGOp) pc m :
  run s host (S fuel) k p pc m =
    match drop pc p with
    | [] => FellOff m
    | i :: _ =>
        match exec_op s host (k pc) i m with
        | Fall m => run s host fuel k p (S pc) m
        | Jump label m =>
            match label_pos p label with Some pc => run s host fuel k p pc m | None => Undefined end
        | Leave m => Left m
        | Undef => Undefined
        end
    end.
Proof.
  pose proof (drop_nth_error p pc) as H. cbn. destruct (drop pc p) as [|i q]; [by rewrite H|].
  by destruct H as [-> _].
Qed.

Lemma drop_cons {A} pc (p : list A) i q : drop pc p = i :: q -> drop (S pc) p = q.
Proof. intros E. pose proof (drop_nth_error p pc) as H. rewrite E in H. apply H. Qed.

Lemma run_simulates p p' k1 k2 :
  block_ok s p ->
  (forall label, label_pos p' label = label_pos p label /\
     forall k, label_pos p label = Some k ->
       exists T0, fold_ops s (reset_all_temps (nb_temps s) T0) (drop k p) = Ok (drop k p')) ->
  forall fuel pc T m1 m2, agree s m1 m2 -> sound s T (regs m2) ->
    fold_ops s T (drop pc p) = Ok (drop pc p') ->
    behaves (run s host fuel k1 p pc m1) (run s host fuel k2 p' pc m2).
Proof.
  intros Hb Hl fuel. induction (lt_wf fuel) as [fuel _ IH]. intros pc T m1 m2 Ha Hs Hf.
  destruct fuel as [|fuel]; [done|]. rewrite !run_nth.
  pose proof (block_drop s p pc Hb) as Hbd. destruct (drop pc p) as [|i q] eqn:Ep.
  { injection Hf as <-. done. }
  destruct (fold_ops_cons s T i q _ Hbd (s_wf _ _ _ Hs) Hf) as (e & Ee & _ & He).
  destruct (block_head s i q Hbd) as [Hi Hn].
  destruct (replaces_ok s host T m1 m2 Ha Hs (bo_globals _ _ Hb) _ i Hi Hn) as [[? _]|(e' & Ee' & _ & Hr)];
    [congruence|]. rewrite Ee in Ee'. injection Ee' as <-.
  destruct He as [(i' & q' & E1 & Ep' & Eq & _)|(i1 & i2 & j & p2 & q' & E1 & -> & Ej & Ep' & Eq & _)];
    rewrite Ep'.
  - destruct Hr as [(i0 & E0 & _ & Hx)|(? & ? & E0 & _)]; [|congruence].
    assert (i0 = i') as -> by congruence. specialize (Hx (k1 pc) (k2 pc)).
    destruct (exec_op s host (k1 pc) i m1) as [n1|L1 n1|n1|], (exec_op s host (k2 pc) i' m2) as [n2|L2 n2|n2|];
      try done.
    + destruct Hx as [Ha' Hs']. apply (IH fuel ltac:(lia) _ (snd e)); try done.
      apply drop_cons in Ep, Ep'. by rewrite Ep, Ep'.
    + destruct Hx as (<- & Ha' & Hfit). destruct (Hl L1) as [-> Hk]. destruct (label_pos p L1) as [k|] eqn:Ek; [|done].
      destruct (Hk k eq_refl) as [T0 HT0]. apply (IH fuel ltac:(lia) k (reset_all_temps (nb_temps s) T0)); try done.
      by apply sound_reset_all.
  - destruct Hr as [(? & E0 & _)|(j1 & j2 & E0 & _ & _ & _ & _ & Hx)]; [congruence|].
    assert (j1 = i1 /\ j2 = i2) as [-> ->] by (split; congruence).
    destruct (Hx (k1 pc) (k2 pc) (k2 (S pc))) as (n1 & n2 & n3 & -> & -> & X2 & Ha' & Hs').
    apply drop_cons in Ep, Ep'. destruct fuel as [|fuel]; [done|]. rewrite !run_nth, Ep, Ep', X2.
    unfold exec_op. rewrite Ej. apply drop_cons in Ep, Ep'.
    apply (IH fuel ltac:(lia) _ (snd e)); try done. by rewrite Ep, Ep'.
Qed.
End behaviour.

(** *** Deciding that a block is well formed *)
Section decide.
Context (s : TCGContext).

Definition of_type_b (o : option width) (t : Z) : bool :=
  (0 <=? t) && (t <? nb_temps s) && match o with Some w => bool_decide (type s t = w) | None => true end.

Definition cargs_b (op : TCGOpcode) (l : list Z) : bool :=
  match op with
  | op_movi _ => (0 <=? arg l 1) && (arg l 1 <? 2 ^ 64)
  | op_setcond _ => bool_decide (arg l 3 ∈ tcg_conds)
  | op_movcond _ => bool_decide (arg l 5 ∈ tcg_conds)
  | op_brcond _ => bool_decide (arg l 2 ∈ tcg_conds)
  | op_brcond2 => bool_decide (arg l 4 ∈ tcg_conds)
  | op_setcond2 => bool_decide (arg l 5 ∈ tcg_conds)
  | op_deposit _ => arg l 4 <? 64
  | _ => true
  end.

Definition shaped_b (op : TCGOpcode) (l : list Z) : bool :=
  present op && cargs_b op l && (length l =? nb_args (tcg_op_defs op))%nat &&
  forallb (fun j => of_type_b (out_type op) (arg l j)) (seq 0 (oargs op)) &&
  forallb (fun j => of_type_b (in_type op) (arg l j)) (seq (oargs op) (iargs op)).

Definition call_b (l : list Z) : bool :=
  let '(no, ni) := call_args l in
  (1 + no + ni <? length l)%nat && forallb (fun j => of_type_b None (arg l j)) (seq 1 (no + ni)).

Definition op_okb (i : TCGOp) : bool :=
  match opc i with
  | op_call => call_b (args i)
  | op_bin Bor w => shaped_b (op_bin Bor w) (args i) && negb (arg (args i) 1 =? arg (args i) 2)
  | op => shaped_b op (args i)
  end.

Definition block_okb (p : list TCGOp) : bool :=
  (0 <=? nb_globals s) && (nb_globals s <=? nb_temps s) && forallb op_okb p && pairs_ok p.

Lemma of_type_b_ok o t : of_type_b o t = true -> of_type s o t.
Proof.
  intros [[H1%Z.leb_le H2%Z.ltb_lt]%andb_true_iff H3]%andb_true_iff. split; [done|].
  destruct o; [by apply bool_decide_eq_true in H3|done].
Qed.

Lemma shaped_b_ok op l : shaped_b op l = true -> shaped s op l.
Proof.
  intros [[[[Hp Hc]%andb_true_iff Hl]%andb_true_iff Ho]%andb_true_iff Hi]%andb_true_iff.
  pose proof (proj1 (forallb_forall _ _) Ho) as Ho'. pose proof (proj1 (forallb_forall _ _) Hi) as Hi'. split.
  - done.
  - destruct op; try done; cbn in *; try (by eapply bool_decide_eq_true_1).
    all: first [by apply Z.ltb_lt|match goal with E : (_ && _) = true |- _ => by apply andb_true_iff in E as [?%Z.leb_le ?%Z.ltb_lt] end].
  - by apply Nat.eqb_eq.
  - intros j Hj. apply of_type_b_ok, Ho', in_seq. lia.
  - intros j Hj. apply of_type_b_ok, Hi', in_seq. unfold is_input in Hj. lia.
Qed.

Lemma op_okb_ok i : op_okb i = true -> op_ok s i.
Proof.
  unfold op_okb, op_ok. destruct i as [op l]. cbn [opc args]. intros H.
  assert (op <> op_call -> (forall w, op <> op_bin Bor w) -> shaped_b op l = true) as Hb
    by (intros H1 H2; destruct op; try done; destruct b; try done; by destruct (H2 w)).
  destruct op; try (split; [by apply shaped_b_ok, Hb|done]).
  - unfold call_b in H. destruct (call_args l) as [no ni] eqn:E. apply andb_true_iff in H as [H1%Nat.ltb_lt H2].
    pose proof (proj1 (forallb_forall _ _) H2) as H2'.
    unfold call_ok. rewrite E. cbn. split; [lia|]. intros j Hj. apply (of_type_b_ok None), H2', in_seq. lia.
  - destruct b; try (split; [by apply shaped_b_ok, Hb|done]). apply andb_true_iff in H as [H1 H2%negb_true_iff%Z.eqb_neq].
    split; [by apply shaped_b_ok|done].
Qed.

Lemma block_okb_ok p : block_okb p = true -> block_ok s p.
Proof.
  intros [[[H1%Z.leb_le H2%Z.leb_le]%andb_true_iff H3]%andb_true_iff H4]%andb_true_iff. split; [done| |done].
  apply Forall_forall. intros i Hi%list_elem_of_In. by apply op_okb_ok, (proj1 (forallb_forall _ _) H3).
Qed.
End decide.

(** *** The theorem *)

(** C5: [tcg_optimize] returns for every block of typed operations without
    [muluh_i64] and [mulsh_i64] (whose table entries are wrong) and without an [or]
    of a temporary with itself (for which the front end emits a move), whatever the
    last run left in the array of facts; but that the folding of a signed
    division can stop it (the most negative value by -1), if the block has one.  The block it returns has the length of the
    block, and from every state of the registers, under every choice of the
    register allocator and for any memory and helpers, runs in step with it:
    it leaves, falls off the end or keeps running when the block does, with the
    same effects and the same value, of its type, in every temporary.  Nothing
    is claimed from where the block's behaviour is undefined. *)
Theorem tcg_optimize_correct (s : TCGContext) (T : temps_t) (p : list TCGOp) :
  block_ok s p ->
  (tcg_optimize s T p = Fault DivOverflow /\ Exists (fun i => signed_div (opc i) = true) p) \/
  exists p', tcg_optimize s T p = Ok p' /\ length p' = length p /\
    forall W (host : Host W) (m : mstate W) fuel k1 k2, (forall t, fits 64 (regs m t)) ->
      behaves s (run s host fuel k1 p 0 m) (run s host fuel k2 p' 0 m).
Proof.
  intros Hb. unfold tcg_optimize, tcg_constant_folding. set (T1 := reset_all_temps (nb_temps s) T).
  assert (wf s T1) as HT by (by apply (s_wf _ _ (fun _ => 0)), sound_reset_all).
  destruct (fold_ops_total s T1 p Hb HT) as [[p' E]|[E Hd]]; [right|by left].
  exists p'. split; [done|]. split; [by apply (fold_ops_length s T1)|].
  intros W host m fuel k1 k2 Hf.
  apply (run_simulates s host p p' k1 k2 Hb (fun label => fold_ops_labels s T1 p p' label Hb HT E) fuel 0 T1);
    [apply agree_refl|by apply sound_reset_all|done].
Qed.

(** A block with constants, a decided branch, a label and an exit. *)
Definition ex_ctx : TCGContext := mkContext 1 4 (fun _ => W32) (fun _ => false).
Definition ex_block : list TCGOp :=
  [mkOp (op_movi W32) [1; 5]; mkOp (op_movi W32) [2; 7]; mkOp (op_bin Badd W32) [0; 1; 2];
   mkOp (op_brcond W32) [0; 1; TCG_COND_LTU; 3]; mkOp (op_mov W32) [3; 0];
   mkOp op_set_label [3]; mkOp (op_bin Bxor W32) [3; 0; 0]; mkOp op_exit_tb [0]].

Lemma tcg_optimize_correct_witness :
  block_okb ex_ctx ex_block = true /\
  tcg_optimize ex_ctx (fun _ => mkInfo TCG_TEMP_COPY 9 9 9 9) ex_block =
    Ok [mkOp (op_movi W32) [1; 5]; mkOp (op_movi W32) [2; 7]; mkOp (op_movi W32) [0; 12];
        mkOp op_nop []; mkOp (op_movi W32) [3; 12];
        mkOp op_set_label [3]; mkOp (op_movi W32) [3; 0]; mkOp op_exit_tb [0]] /\
  ((tcg_optimize ex_ctx (fun _ => mkInfo TCG_TEMP_COPY 9 9 9 9) ex_block = Fault DivOverflow /\
      Exists (fun i => signed_div (opc i) = true) ex_block) \/
   exists p', tcg_optimize ex_ctx (fun _ => mkInfo TCG_TEMP_COPY 9 9 9 9) ex_block = Ok p' /\
     length p' = length ex_block /\
     forall W (host : Host W) (m : mstate W) fuel k1 k2, (forall t, fits 64 (regs m t)) ->
       behaves ex_ctx (run ex_ctx host fuel k1 ex_block 0 m) (run ex_ctx host fuel k2 p' 0 m)).
Proof.
  split; [by vm_compute|]. split; [by vm_compute|].
  apply tcg_optimize_correct, block_okb_ok. by vm_compute.
Defined.

End TcgProg.
