(* ===== verification/TcgShape.v ===== *)
(** What the optimiser writes back, by the shape of the operations alone: in
    place, no more arguments than were there, and reading only what the
    operation read or a copy of it. *)
From Stdlib Require Import ZArith Lia Bool Btauto.
From stdpp Require Import base numbers list.
From S2P Require Import Prelude HostUtils TcgOp TcgOpt TcgRing TcgArith TcgSem TcgBits TcgSound TcgStep TcgProg.
Local Open Scope Z_scope.

Module TcgShape.
Import HostUtils.HostUtils Tcg TcgOpt TcgRing TcgArith TcgSem TcgBits TcgSound TcgStep TcgProg.

(** The temporaries an operation reads and writes. *)
Definition inputs (i : TCGOp) : list Z :=
  match opc i with
  | op_call => call_ins (args i)
  | op => take (iargs op) (drop (oargs op) (args i))
  end.
Definition outputs (i : TCGOp) : list Z :=
  match opc i with
  | op_call => call_outs (args i)
  | op => take (oargs op) (args i)
  end.

Lemma inputs_eq op l : op <> op_call -> inputs (mkOp op l) = take (iargs op) (drop (oargs op) l).
Proof. by destruct op. Qed.
Lemma outputs_eq op l : op <> op_call -> outputs (mkOp op l) = take (oargs op) l.
Proof. by destruct op. Qed.

(** Arguments in number and in range; calls that may be suppressed write no
    globals. *)
Definition framed (s : TCGContext) (i : TCGOp) : Prop :=
  match opc i with
  | op_call => call_ok s (args i) /\
      (nz (Z.land (call_flags (args i)) TCG_CALL_NO_SIDE_EFFECTS) = true -> writes_globals (call_flags (args i)) = false)
  | op => length (args i) = nb_args (tcg_op_defs op) /\ Forall (valid s) (inputs i ++ outputs i)
  end.

Lemma framed_eq s op l : op <> op_call ->
  framed s (mkOp op l) <-> length l = nb_args (tcg_op_defs op) /\ Forall (valid s) (inputs (mkOp op l) ++ outputs (mkOp op l)).
Proof. by destruct op. Qed.

Definition doubles (op : TCGOpcode) : bool :=
  match op with op_add2 _ | op_sub2 _ | op_mulu2 _ | op_muls2 _ => true | _ => false end.

Section shape.
Context (s : TCGContext).

(** A copy and a constant never stay as they are written. *)
Definition assigns (op : TCGOpcode) : bool := match op with op_mov _ | op_movi _ => true | _ => false end.

(** The forms of what replaces a computing operation with arguments [l]. *)
Inductive form (T : temps_t) (op : TCGOpcode) (l : list Z) : emitted -> Prop :=
| form_movi v : form T op l (emit_movi op T (arg l 0) v)
| form_nop j : is_input op j -> temps_are_copies s T (arg l 0) (arg l j) = Ok true -> form T op l (emit_nop T)
| form_mov j r : is_input op j -> arg l 0 <> arg l j -> tcg_opt_gen_mov s T (arg l 0) (arg l j) = Ok r ->
    form T op l (emit_op (op_to_mov op) r)
| form_un b u w j : op = op_bin b w -> u = Uneg \/ u = Unot -> is_input op j ->
    form T op l ([mkOp (op_un u w) [arg l 0; arg l j]], reset_temp T (arg l 0))
| form_setcond c : op = op_setcond2 ->
    form T op l ([mkOp (op_setcond W32) [arg l 0; arg l 2; arg l 4; c]], reset_temp T (arg l 0))
| form_default : assigns op = false -> form T op l (do_default s T op l).

Definition formed (T : temps_t) (op : TCGOpcode) (l : list Z) (f : stage) : Prop :=
  forall e, f = Ok (Some e) -> form T op l e.
Definition ends_formed (T : temps_t) (op : TCGOpcode) (l : list Z) (f : outcome emitted) : Prop :=
  forall e, f = Ok e -> form T op l e.

Lemma formed_pass T op l : formed T op l pass.
Proof. by intros e [=]. Qed.
Lemma formed_fault T op l f : formed T op l (Fault f).
Proof. by intros e [=]. Qed.

Lemma formed_orelse T op l f g : formed T op l f -> ends_formed T op l g -> ends_formed T op l (orelse f g).
Proof.
  intros Hf Hg e. unfold orelse. destruct f as [[e'|]|]; cbn; [|by apply Hg|done].
  intros [= <-]. by apply Hf.
Qed.

Lemma formed_movi T op l v : formed T op l (continue (emit_movi op T (arg l 0) v)).
Proof. intros e [= <-]. apply form_movi. Qed.

Lemma copies_false T a b : temps_are_copies s T a b = Ok false -> a <> b.
Proof. unfold temps_are_copies. by destruct (Z.eqb_spec a b). Qed.

Lemma formed_copy T op l j :
  is_input op j -> formed T op l (e <~ emit_copy s op T (arg l 0) (arg l j) ;; continue e).
Proof.
  intros Hj e. unfold emit_copy, emit_mov. destruct (temps_are_copies s T (arg l 0) (arg l j)) as [[]|] eqn:E; cbn; try done.
  - intros [= <-]. by apply (form_nop T op l j).
  - destruct (tcg_opt_gen_mov s T (arg l 0) (arg l j)) as [r|] eqn:Er; cbn; [|done].
    intros [= <-]. apply (form_mov T op l j); [done|by apply (copies_false T)|done].
Qed.

Lemma formed_unary T b w l u j :
  u = Uneg \/ u = Unot -> is_input (op_bin b w) j ->
  formed T (op_bin b w) l (continue (emit_op (op_un u w) ([arg l 0; arg l j], reset_temp T (arg l 0)))).
Proof. intros Hu Hj e [= <-]. by apply (form_un T _ l b). Qed.

Lemma simplify_unary_formed T op l : present op = true -> formed T op l (simplify_unary T op l).
Proof.
  intros Hp. destruct op; try apply formed_pass. pose proof (op_width_pure _ w Hp eq_refl eq_refl) as Ew.
  cbn [simplify_unary]. rewrite Ew.
  destruct b; cbn [simplify_unary]; try apply formed_pass;
    repeat (case_match; try apply formed_pass); try apply formed_movi; (apply formed_unary; [auto|input]).
Qed.

Lemma simplify_const_formed T op l : formed T op l (simplify_const s T op l).
Proof.
  destruct op; try apply formed_pass. destruct b; cbn [simplify_const]; try apply formed_pass;
    (case_match; [apply formed_copy; input|apply formed_pass]).
Qed.

Lemma simplify_zero_formed T op l : formed T op l (simplify_zero T op l).
Proof.
  destruct op; try apply formed_pass. destruct b; cbn [simplify_zero]; try apply formed_pass;
    (case_match; [apply formed_movi|apply formed_pass]).
Qed.

Lemma simplify_same_formed T op l : formed T op l (simplify_same s T op l).
Proof.
  destruct op; try apply formed_pass. destruct b; cbn [simplify_same]; try apply formed_pass;
    (destruct (temps_are_copies s T (arg l 1) (arg l 2)) as [[]|]; cbn [obind];
     [|apply formed_pass|apply formed_fault]); first [apply formed_copy; input|apply formed_movi].
Qed.

Lemma simplify_bits_formed T op l : formed T op l (simplify_bits s T op l).
Proof.
  unfold simplify_bits. pose proof (affected_input T op l) as Ha. rewrite <- (known_bits_snd T op l) in Ha.
  destruct (known_bits T op l) as [mk af]. cbn [snd] in Ha.
  destruct (mk =? 0); [case_match; [apply formed_movi|apply formed_fault]|].
  destruct (Z.eqb_spec af 0) as [E|]; [|apply formed_pass]. case_match; [apply formed_fault|].
  destruct (temps_are_copies s T (arg l 0) (arg l 1)) as [[]|] eqn:Ec; cbn [obind]; [| |apply formed_fault].
  - intros e [= <-]. apply (form_nop T op l 1); auto.
  - case_match; [|apply formed_movi]. unfold emit_mov.
    destruct (tcg_opt_gen_mov s T (arg l 0) (arg l 1)) as [r|] eqn:Er; cbn; [|apply formed_fault].
    intros e [= <-]. apply (form_mov T op l 1); [by apply Ha|by apply (copies_false T)|done].
Qed.

Lemma fold_formed T op l nx : present op = true -> pure op = true -> ends_formed T op l (fold_op s T nx op l).
Proof.
  intros Hpr Hp e.
  assert (assigns op = false -> forall e, (Ok (do_default s T op l) : outcome emitted) = Ok e -> form T op l e) as Hd
    by (intros Ha e0 [= <-]; by apply form_default).
  assert (forall v, (Ok (emit_movi op T (arg l 0) v) : outcome emitted) = Ok e -> form T op l e) as Hm
    by (intros v [= <-]; apply form_movi).
  assert (forall j, is_input op j -> temps_are_copies s T (arg l 0) (arg l j) = Ok true ->
    (Ok (emit_nop T) : outcome emitted) = Ok e -> form T op l e) as Hn
    by (intros j Hj Ej [= <-]; by apply (form_nop T op l j)).
  assert (forall o, is_input op o -> temps_are_copies s T (arg l 0) (arg l o) = Ok false ->
    (r <~ tcg_opt_gen_mov s T (arg l 0) (arg l o) ;; Ok (emit_op (op_to_mov op) r)) = Ok e -> form T op l e) as Hmov.
  { intros j Hj Ej. destruct (tcg_opt_gen_mov s T (arg l 0) (arg l j)) as [r|] eqn:Er; cbn; [|done].
    intros [= <-]. apply (form_mov T op l j); [done|by apply (copies_false T)|done]. }
  destruct op; try done; cbn [fold_op].
  - destruct (temps_are_copies s T (arg l 0) (arg l 1)) as [[]|] eqn:Ec; cbn [obind]; [| |done].
    + apply (Hn 1%nat); [input|done].
    + case_match; [|apply Hm]. intros E. apply (Hmov 1%nat); [input|done|by destruct w].
  - intros [= <-]. pose proof (form_movi T (op_movi w) l (arg l 1)) as H. by destruct w.
  - destruct (do_constant_folding_cond _ _ _ _ _ _) as [[r|]|]; cbn [obind]; [apply Hm|exact (Hd eq_refl e)|done].
  - destruct (do_constant_folding_cond _ _ _ _ _ _) as [[r|]|]; cbn [obind]; [|exact (Hd eq_refl e)|done].
    assert (exists j, is_input (op_movcond w) j /\ (if r then arg l 3 else arg l 4) = arg l j) as (j & Hj & ->)
      by (destruct r; [exists 3%nat|exists 4%nat]; (split; [input|done])).
    destruct (temps_are_copies s T (arg l 0) (arg l j)) as [[]|] eqn:Ec; cbn [obind]; [by apply (Hn j)| |done].
    case_match; [apply Hm|by apply (Hmov j)].
  - case_match; [|exact (Hd eq_refl e)]. destruct (do_constant_folding _ _ _); cbn [obind]; [apply Hm|done].
  - destruct u; try exact (Hd eq_refl e); (case_match; [|exact (Hd eq_refl e)]); destruct (do_constant_folding _ _ _); cbn [obind]; apply Hm || done.
  - case_match; [apply Hm|exact (Hd eq_refl e)].
  - destruct (do_constant_folding_cond2 _ _ _ _ _ _ _) as [[r|]|]; cbn [obind]; [| |done].
    + apply Hm.
    + case_match; [|exact (Hd eq_refl e)]. intros [= <-]. by apply form_setcond.
Qed.

(** Every way a computing operation can go. *)
Lemma optimize_formed T nx i l' :
  present (opc i) = true -> pure (opc i) = true -> copy_propagate s T (opc i) (args i) = Ok l' ->
  ends_formed T (opc i) (canonicalize T (opc i) l') (optimize_op s T nx i).
Proof.
  intros Hpr Hp E. rewrite (optimize_unfold s T nx i l' E).
  repeat (apply formed_orelse; [|]); first [by apply simplify_unary_formed|apply simplify_const_formed
    |apply simplify_bits_formed|apply simplify_zero_formed|apply simplify_same_formed|by apply fold_formed].
Qed.
(** *** Which temporaries are copies afterwards *)
Lemma reset_copy T t u : is_copy (reset_temp T t u) = true -> is_copy (T u) = true.
Proof.
  unfold reset_temp, upd, is_copy. repeat case_match; cbn in *; try done; subst; congruence.
Qed.

Lemma movi_copy T t v u : is_copy (snd (tcg_opt_gen_movi T t v) u) = true -> is_copy (T u) = true.
Proof. cbn. unfold upd. destruct (u =? t); [done|]. apply reset_copy. Qed.

Lemma mov_copy T dst src r u :
  tcg_opt_gen_mov s T dst src = Ok r ->
  fst r = [dst; src] /\ (is_copy (snd r u) = true -> is_copy (T u) = true \/ u = dst \/ u = src).
Proof.
  unfold tcg_opt_gen_mov. destruct (is_const _); [done|]. intros [= <-]. cbn. split; [done|].
  destruct (Z.eq_dec u dst) as [->|N1]; [auto|]. destruct (Z.eq_dec u src) as [->|N2]; [auto|].
  assert (forall T' f, (forall i, state (f i) = state i) -> forall t, is_copy (upd T' t f u) = true -> is_copy (T' u) = true) as Hk
    by (intros T' f Hf t; unfold upd, is_copy; destruct (u =? t); [by rewrite Hf|done]).
  set (T1 := upd (reset_temp T dst) dst _).
  assert (is_copy (T1 u) = true -> is_copy (T u) = true) as H1
    by (subst T1; rewrite upd_other by done; apply reset_copy).
  destruct (decide _); [|auto]. intros H. left. apply H1.
  rewrite upd_other in H by done. apply Hk in H; [|done]. rewrite upd_other in H by done.
  destruct (is_copy (T1 src)); [done|]. by rewrite upd_other in H by done.
Qed.

Lemma outs_copy T mk i n l u : is_copy (reset_outs T mk i n l u) = true -> is_copy (T u) = true.
Proof.
  revert T i. induction n as [|n IH]; intros T i; cbn; [done|]. intros H%IH.
  destruct (i =? 0)%nat; [|by apply reset_copy in H]. revert H. unfold upd at 1.
  destruct (u =? arg l i); apply reset_copy.
Qed.

Lemma range_copy T ts u : is_copy (reset_range T ts u) = true -> is_copy (T u) = true.
Proof.
  revert T. induction ts as [|t ts IH]; intros T; cbn; [done|]. intros H%IH. by apply reset_copy in H.
Qed.

Lemma all_copy T u : valid s u -> is_copy (reset_all_temps (nb_temps s) T u) = false.
Proof. intros [H0 H1]. unfold reset_all_temps. by rewrite (proj2 (Z.leb_le 0 u)), (proj2 (Z.ltb_lt u _)). Qed.

(** *** Inputs and outputs by position *)
Lemma take_drop_arg n k l t :
  (n + k <= length l)%nat -> t ∈ take k (drop n l) <-> exists j, (n <= j < n + k)%nat /\ t = arg l j.
Proof.
  revert n. induction k as [|k IH]; intros n Hl.
  - cbn. split; [by intros ?%elem_of_nil|]. intros (j & ? & _). lia.
  - rewrite take_S_arg by lia. rewrite elem_of_cons, IH by lia. split.
    + intros [->|(j & ? & ->)]; [exists n|exists j]; (split; [lia|done]).
    + intros (j & ? & ->). destruct (decide (j = n)) as [->|]; [by left|right]. exists j. split; [lia|done].
Qed.

Lemma inputs_arg op l t :
  op <> op_call -> shaped s op l -> t ∈ inputs (mkOp op l) <-> exists j, is_input op j /\ t = arg l j.
Proof.
  intros Hc Hsh. rewrite inputs_eq by done. apply take_drop_arg, (arity_sum s op l Hsh).
Qed.

Lemma outputs_arg op l t :
  op <> op_call -> shaped s op l -> t ∈ outputs (mkOp op l) <-> exists j, (j < oargs op)%nat /\ t = arg l j.
Proof.
  intros Hc Hsh. rewrite outputs_eq by done. change l with (drop 0 l) at 1.
  pose proof (arity_sum s op l Hsh). rewrite take_drop_arg by lia. split; intros (j & ? & ->); exists j; (split; [lia|done]).
Qed.

(** *** What replaces one operation *)
Definition bb_end (i : TCGOp) : bool := TCG_OPF_BB_END (tcg_op_defs (opc i)).

Record tidy (T : temps_t) (i i' : TCGOp) (T' : temps_t) : Prop := {
  ti_len : (length (args i') <= length (args i))%nat;
  ti_in : forall t, t ∈ inputs i' -> t ∈ inputs i \/ is_copy (T t) = true;
  ti_out : forall t, t ∈ outputs i -> t ∈ outputs i' \/ t ∈ inputs i \/ is_copy (T t) = true;
  ti_end : bb_end i' = true -> bb_end i = true /\ forall t, valid s t -> is_copy (T' t) = false;
  ti_copy : forall t, is_copy (T' t) = true -> is_copy (T t) = true \/ t ∈ outputs i' \/ t ∈ inputs i';
}.

Lemma copies_true T a b : temps_are_copies s T a b = Ok true -> a = b \/ is_copy (T a) = true.
Proof.
  unfold temps_are_copies. destruct (Z.eqb_spec a b); [by left|]. destruct (is_copy (T a)); [by right|done].
Qed.

(** The operation after copy propagation and canonicalisation reads the
    operation's inputs or copies. *)
Lemma canon_reads T op l :
  wf s T -> op <> op_call -> shaped s op l ->
  exists l', copy_propagate s T op l = Ok l' /\
    let l2 := canonicalize T op l' in
    shaped s op l2 /\ (forall j, (j < oargs op)%nat -> arg l2 j = arg l j) /\
    (forall j, is_input op j -> arg l2 j ∈ inputs (mkOp op l) \/ is_copy (T (arg l2 j)) = true) /\
    (forall j, is_input op j -> exists k, is_input op k /\ type s (arg l2 j) = type s (arg l k)).
Proof.
  intros HT Hc Hsh. destruct (wf_sound s T HT) as (r & Hr). set (m := mkState r tt).
  destruct (copies_shaped s T m m (agree_refl s m) Hr op l Hc Hsh) as (l' & E & Hsh' & Hsa & Hin).
  pose proof (canonicalize_ok s host0 T op l' Hsh') as [C1 C2 C3 _ _ _]. exists l'.
  split; [done|]. split; [done|]. split.
  - intros j Hj. rewrite C2 by done. apply Hsa. unfold is_input. lia.
  - split; [|intros j Hj; destruct (C3 j Hj) as (k & Hk & ->); exists k; split; [done|by apply Hsa]]. intros j Hj. destruct (C3 j Hj) as (k & Hk & ->). destruct (Hin k Hk) as [->|[_ ?]]; [left|by right].
    apply (inputs_arg op l); eauto.
Qed.

Lemma shaped_min op l : shaped s op l -> pure op = true ->
  (2 <= length l)%nat /\ (op = op_setcond2 -> length l = 6%nat).
Proof.
  intros Hsh Hp. rewrite (sh_len _ _ _ Hsh). destruct op; try done; cbn; try (split; [lia|done]).
  destruct b; cbn; split; done || lia.
Qed.

Lemma tidy_default T op l l2 :
  op <> op_call -> shaped s op l -> shaped s op l2 ->
  (forall j, (j < oargs op)%nat -> arg l2 j = arg l j) ->
  (forall j, is_input op j -> arg l2 j ∈ inputs (mkOp op l) \/ is_copy (T (arg l2 j)) = true) ->
  exists i', fst (do_default s T op l2) = [i'] /\ tidy T (mkOp op l) i' (snd (do_default s T op l2)).
Proof.
  intros Hc Hsh Hsh2 Hout Hin. unfold do_default. cbn [fst snd].
  rewrite <- (sh_len _ _ _ Hsh2), firstn_all. eexists. split; [done|]. split.
  - cbn. rewrite (sh_len _ _ _ Hsh), (sh_len _ _ _ Hsh2). lia.
  - intros t Ht. apply inputs_arg in Ht as (j & Hj & ->); [|done..]. by apply Hin.
  - intros t Ht. left. apply outputs_arg in Ht as (j & Hj & ->); [|done..].
    apply (outputs_arg op l2); [done..|]. exists j. by rewrite Hout.
  - unfold bb_end. cbn. intros Eb. rewrite Eb. split; [done|]. intros t Ht. by apply all_copy.
  - intros t Ht. left. destruct (TCG_OPF_BB_END _); [|by apply outs_copy in Ht].
    revert Ht. unfold reset_all_temps. by destruct (_ && _).
Qed.

(** An assignment to the one output. *)
Lemma tidy_assign T i i' T' d :
  (length (args i') <= length (args i))%nat -> (forall t, t ∈ outputs i -> t = d) -> outputs i' = [d] -> bb_end i' = false ->
  (forall t, t ∈ inputs i' -> t ∈ inputs i \/ is_copy (T t) = true) ->
  (forall t, is_copy (T' t) = true -> is_copy (T t) = true \/ t ∈ outputs i' \/ t ∈ inputs i') -> tidy T i i' T'.
Proof.
  intros Hl Ho Ho' Hb Hi Hc. split; [done|done| |by rewrite Hb|done].
  intros t ->%Ho. left. rewrite Ho'. by left.
Qed.

Lemma tidy_pure T nx i e :
  wf s T -> op_ok s i -> pure (opc i) = true -> optimize_op s T nx i = Ok e ->
  exists i', fst e = [i'] /\ tidy T i i' (snd e).
Proof.
  intros HT Hok Hp He. destruct i as [op l]. unfold op_ok in Hok. cbn [opc args] in *.
  assert (shaped s op l) as Hsh by (destruct op; try done; apply Hok).
  assert (op <> op_call) as Hc by (by intros ->).
  destruct (canon_reads T op l HT Hc Hsh) as (l' & E & Hsh2 & Hout & Hin & _).
  clear Hok. pose proof (optimize_formed T nx (mkOp op l) l' (sh_present _ _ _ Hsh) Hp E e He) as Hf. cbn [opc] in Hf.
  set (l2 := canonicalize T op l') in *. destruct (pure_out op Hp) as (w & _ & Ho).
  destruct (shaped_min op l Hsh Hp) as [Hmin Hsc].
  assert (forall t, t ∈ outputs (mkOp op l) -> t = arg l2 0) as Hod.
  { intros t Ht. apply outputs_arg in Ht as (j & Hj & ->); [|done..]. rewrite Hout by lia. by replace j with 0%nat by lia. }
  destruct Hf as [v|j Hj Ec|j r Hj Hne Er|b u w' j Eb Hu Hj|c ->|_].
  - eexists. split; [done|]. apply (tidy_assign _ _ _ _ (arg l2 0)); try done; [by intros t ?%elem_of_nil|].
    intros t Ht. left. by apply movi_copy in Ht.
  - eexists. split; [done|]. split; [cbn; lia|by intros t ?%elem_of_nil| |done|by left].
    intros t ->%Hod. destruct (copies_true T _ _ Ec) as [->|?]; [right|by right; right]. by apply Hin.
  - destruct (mov_copy T _ _ r 0 Er) as [Ef _]. cbn. rewrite Ef. eexists. split; [done|].
    apply (tidy_assign _ _ _ _ (arg l2 0)); try done.
    + intros t Ht. cbn in Ht. apply list_elem_of_singleton in Ht as ->. by apply Hin.
    + intros t Ht. destruct (mov_copy T _ _ r t Er) as [_ H].
      destruct (H Ht) as [?|[->| ->]]; [by left|by right; left; left|by right; right; left].
  - eexists. split; [done|]. apply (tidy_assign _ _ _ _ (arg l2 0)); try done.
    + intros t Ht. cbn in Ht. apply list_elem_of_singleton in Ht as ->. by apply Hin.
    + intros t Ht. left. by apply reset_copy in Ht.
  - eexists. split; [done|]. apply (tidy_assign _ _ _ _ (arg l2 0)); try done; [cbn; rewrite Hsc by done; lia|..].
    + intros t Ht. cbn in Ht. apply elem_of_cons in Ht as [->|Ht]; [apply Hin; input|].
      apply list_elem_of_singleton in Ht as ->. apply Hin. input.
    + intros t Ht. left. by apply reset_copy in Ht.
  - by apply tidy_default.
Qed.

Lemma tidy_empty T i i' T' :
  outputs i = [] -> inputs i' = [] -> (length (args i') <= length (args i))%nat ->
  (bb_end i' = true -> bb_end i = true /\ forall t, valid s t -> is_copy (T' t) = false) ->
  (forall t, is_copy (T' t) = true -> is_copy (T t) = true) -> tidy T i i' T'.
Proof.
  intros Ho Hi Hl He Hc. split; [done| | |done|]; rewrite ?Ho, ?Hi.
  - by intros t ?%elem_of_nil.
  - by intros t ?%elem_of_nil.
  - intros t Ht. left. by apply Hc.
Qed.

Lemma br_copies T : forall t, is_copy (reset_all_temps (nb_temps s) T t) = true -> is_copy (T t) = true.
Proof. intros t. unfold reset_all_temps. by destruct (_ && _). Qed.

(** Both halves of a double-word result. *)
Definition split_in_two (T : temps_t) (i i1 i2 : TCGOp) (T' : temps_t) : Prop :=
  (4 <= length (args i))%nat /\ length (args i1) = 2%nat /\ length (args i2) = 2%nat /\
  opc i1 = op_movi W32 /\ opc i2 = op_movi W32 /\ outputs i1 ++ outputs i2 = outputs i /\
  bb_end i = false /\ (forall t, is_copy (T' t) = true -> is_copy (T t) = true).

Lemma split_pair T nx i rl rh lo hi e :
  (4 <= length (args i))%nat -> outputs i = [rl; rh] -> bb_end i = false ->
  emit_pair T nx rl rh lo hi = Ok e -> exists i1 i2, fst e = [i1; i2] /\ split_in_two T i i1 i2 (snd e).
Proof.
  intros Hl Ho Hb. unfold emit_pair. destruct (decide _); [|done]. intros [= <-].
  eexists _, _. split; [done|]. split_and!; try done.
  intros t H%movi_copy. by apply movi_copy in H.
Qed.

Definition tidy_or_split (T : temps_t) (i : TCGOp) (e : emitted) : Prop :=
  (exists i', fst e = [i'] /\ tidy T i i' (snd e)) \/
  exists i1 i2, fst e = [i1; i2] /\ split_in_two T i i1 i2 (snd e).

Lemma split_if T nx op l l2 (c : bool) lo hi e :
  shaped s op l -> oargs op = 2%nat -> (4 <= length l)%nat -> op <> op_call ->
  TCG_OPF_BB_END (tcg_op_defs op) = false -> arg l2 0 = arg l 0 -> arg l2 1 = arg l 1 ->
  tidy_or_split T (mkOp op l) (do_default s T op l2) ->
  (if c then emit_pair T nx (arg l2 0) (arg l2 1) lo hi else Ok (do_default s T op l2)) = Ok e ->
  tidy_or_split T (mkOp op l) e.
Proof.
  intros Hsh Ho Hl Hc Hb E0 E1 Hd. destruct c; [|by intros [= <-]]. rewrite E0, E1. intros He. right.
  apply (split_pair T nx (mkOp op l)) in He; [done..| |done].
  rewrite outputs_eq by done.
  destruct l as [|? [|? l]]; cbn in Hl; try lia. by rewrite Ho.
Qed.

(** A branch that is taken, is not, or compares the high halves alone. *)
Lemma tidy_branch T op l label e :
  outputs (mkOp op l) = [] -> bb_end (mkOp op l) = true -> (1 <= length l)%nat ->
  e = emit_br s T label \/ e = emit_nop T -> tidy_or_split T (mkOp op l) e.
Proof.
  intros Ho Hb Hl [-> | ->]; left; (eexists; split; [done|]);
    apply tidy_empty; try done; cbn; try lia; [|apply br_copies].
  intros _. split; [done|]. intros t. apply all_copy.
Qed.

Lemma tidy_high T l l2 c label :
  length l = 6%nat ->
  (forall j, is_input op_brcond2 j -> arg l2 j ∈ inputs (mkOp op_brcond2 l) \/ is_copy (T (arg l2 j)) = true) ->
  tidy_or_split T (mkOp op_brcond2 l)
    ([mkOp (op_brcond W32) [arg l2 1; arg l2 3; c; label]], reset_all_temps (nb_temps s) T).
Proof.
  intros Hl Hin. left. eexists. split; [done|]. split; [cbn; lia| |by intros t ?%elem_of_nil| |].
  - intros t Ht. cbn in Ht. apply elem_of_cons in Ht as [->|Ht]; [apply Hin; input|].
    apply list_elem_of_singleton in Ht as ->. apply Hin. input.
  - intros _. split; [done|]. intros t. apply all_copy.
  - intros t Ht. left. by apply br_copies in Ht.
Qed.

Lemma tidy_other T nx i e :
  wf s T -> op_ok s i -> pure (opc i) = false -> opc i <> op_call -> optimize_op s T nx i = Ok e ->
  tidy_or_split T i e.
Proof.
  intros HT Hok Hp Hc He. destruct i as [op l]. unfold op_ok in Hok. cbn [opc args] in *.
  assert (shaped s op l) as Hsh by (destruct op; try done; apply Hok). clear Hok.
  destruct (canon_reads T op l HT Hc Hsh) as (l' & E & Hsh2 & Hout & Hin & _).
  rewrite (optimize_unfold s T nx (mkOp op l) l' E) in He. cbn [opc] in He. rewrite stages_pass in He by done.
  set (l2 := canonicalize T op l') in *.
  assert (tidy_or_split T (mkOp op l) (do_default s T op l2)) as Hd by (left; by apply tidy_default).
  pose proof (sh_len _ _ _ Hsh) as El.
  assert (forall r, Ok r = Ok e -> e = r) as Hr by (by intros r [= ->]).
  destruct op; try done; cbn [fold_op] in He; try (apply Hr in He as ->; exact Hd);
    try (destruct w; [|apply Hr in He as ->; exact Hd]);
    try (refine (split_if T nx _ l l2 _ _ _ e _ _ _ _ _ _ _ Hd He);
      [done|done|rewrite El; cbn; lia|done|done|apply Hout; cbn; lia..]).
  - destruct (do_constant_folding_cond _ _ _ _ _ _) as [[[]|]|]; cbn [obind] in He; [..|done]; apply Hr in He as ->;
      [..|exact Hd]; (apply (tidy_branch T _ l (arg l2 3)); [done|done|rewrite El; cbn; lia|by auto]).
  - destruct (do_constant_folding_cond2 _ _ _ _ _ _ _) as [[[]|]|]; cbn [obind] in He; [..|done].
    1,2: apply Hr in He as ->; (apply (tidy_branch T _ l (arg l2 5)); [done|done|rewrite El; cbn; lia|by auto]).
    case_match; apply Hr in He as ->; [by apply tidy_high|exact Hd].
Qed.

(** *** What is emitted is as well formed as what was there *)
Definition sane (op : TCGOpcode) (i' : TCGOp) : Prop :=
  framed s i' /\ (doubles (opc i') = true -> doubles op = true) /\ (op = op_nop -> opc i' = op_nop).

Lemma sane_default T op l : op <> op_call -> shaped s op l -> Forall (sane op) (fst (do_default s T op l)).
Proof.
  intros Hc Hsh. unfold do_default. cbn [fst]. rewrite <- (sh_len _ _ _ Hsh), firstn_all. repeat constructor; try done.
  apply framed_eq; [done|]. split; [apply Hsh|]. rewrite Forall_app, !Forall_forall. split.
  - intros t (j & Hj & ->)%inputs_arg; [|done..]. apply (sh_in _ _ _ Hsh), Hj.
  - intros t (j & Hj & ->)%outputs_arg; [|done..]. by apply (sh_out _ _ _ Hsh).
Qed.

Lemma sane_pure T op l e :
  pure op = true -> shaped s op l -> form T op l e -> Forall (sane op) (fst e).
Proof.
  intros Hp Hsh Hf. destruct (pure_out op Hp) as (w & _ & Ho).
  assert (valid s (arg l 0)) as V0 by (apply (sh_out _ _ _ Hsh); lia).
  assert (forall j, is_input op j -> valid s (arg l j)) as Vi by (intros j Hj; apply (sh_in _ _ _ Hsh), Hj).
  assert (op <> op_nop) as Hn by (by intros ->).
  assert (forall i', framed s i' -> doubles (opc i') = false -> Forall (sane op) [i']) as H1.
  { intros i' Hi' Hd. constructor; [|done]. split; [done|]. by rewrite Hd. }
  destruct Hf as [v|j Hj Ec|j r Hj Hne Er|b u w' j Eb Hu Hj|c ->|_].
  - apply H1; [|done]. apply framed_eq; [done|]. split; [done|]. cbn. rewrite !Forall_cons. auto.
  - by apply H1.
  - destruct (mov_copy T _ _ r 0 Er) as [Ef _]. cbn. rewrite Ef. apply H1; [|done]. apply framed_eq; [done|].
    split; [done|]. cbn. rewrite !Forall_cons. auto.
  - apply H1; [|done]. apply framed_eq; [done|]. split; [done|]. cbn. rewrite !Forall_cons. auto.
  - apply H1; [|done]. apply framed_eq; [done|]. split; [done|]. cbn. rewrite !Forall_cons.
    repeat (split; [first [exact V0|apply Vi; input]|]). done.
  - apply sane_default; [by intros ->|done].
Qed.

(** Calls *)
Definition in_call (l : list Z) (j : nat) : Prop :=
  (S (fst (call_args l)) <= j < S (fst (call_args l)) + snd (call_args l))%nat.

Lemma call_emitted T nx l e :
  call_ok s l -> wf s T -> optimize_op s T nx (mkOp op_call l) = Ok e ->
  exists l', e = fold_call s T l' /\ length l' = length l /\ (forall j, ~ in_call l j -> arg l' j = arg l j) /\
    (forall j, in_call l j -> valid s (arg l' j) /\ (arg l' j = arg l j \/ is_copy (T (arg l' j)) = true)).
Proof.
  intros [Hlen Hv] HT. destruct (wf_sound s T HT) as (r & Hr). set (m := mkState r tt).
  unfold in_call, call_args in *. cbn [fst snd] in *.
  destruct (propagate_spec s T m (Z.to_nat (Z.land (arg l 0) 0xffff)) (Z.to_nat (Z.shiftr (arg l 0) 16) + 1) l Hr)
    as (l' & E & El & Eo & Ei); [lia|intros j Hj; apply Hv; lia|].
  unfold optimize_op, copy_propagate. cbn [opc args]. rewrite E. cbn [obind]. rewrite stages_pass by done.
  intros [= <-]. exists l'. split; [done|]. split; [done|]. split; [intros j Hj; apply Eo; lia|].
  intros j Hj. destruct (Ei j ltac:(lia)) as (Vc & _ & _ & Hc). split; [done|]. destruct Hc as [->|[_ ?]]; auto.
Qed.

(** The same call with the inputs exchanged. *)
Lemma call_same_shape l l' :
  call_ok s l -> length l' = length l -> (forall j, ~ in_call l j -> arg l' j = arg l j) ->
  call_args l' = call_args l /\ call_outs l' = call_outs l /\ call_flags l' = call_flags l /\
  forall t, t ∈ call_ins l' <-> exists j, in_call l j /\ t = arg l' j.
Proof.
  intros [Hlen Hv] El Eo. unfold in_call in *. assert (arg l' 0 = arg l 0) as E0 by (apply Eo; lia).
  unfold call_outs, call_ins, call_flags, call_args in *. rewrite E0. cbn [fst snd] in *.
  split; [done|]. split; [|split].
  - apply args_eq; [lia..|]. intros j Hj. apply Eo. lia.
  - apply Eo. lia.
  - intros t. rewrite take_drop_arg by lia. split; intros (j & Hj & ->); exists j; (split; [lia|done]).
Qed.

Lemma sane_call T nx l e :
  framed s (mkOp op_call l) -> wf s T -> optimize_op s T nx (mkOp op_call l) = Ok e -> Forall (sane op_call) (fst e).
Proof.
  intros [Hok Hf] HT He. cbn [args] in *. destruct (call_emitted T nx l e Hok HT He) as (l' & -> & El & Eo & Ei).
  destruct (call_same_shape l l' Hok El Eo) as (Ea & _ & Ef & _). unfold fold_call. cbn [fst].
  constructor; [|done]. split; [|done]. unfold framed. cbn [opc args]. rewrite Ef. split; [|done].
  destruct Hok as [Hlen Hv]. unfold call_ok. rewrite Ea, El. split; [done|]. intros j Hj.
  destruct (decide (in_call l j)) as [Hin|Hn]; [by apply Ei|]. rewrite Eo by done. by apply Hv.
Qed.

Lemma tidy_call T nx l e :
  call_ok s l -> wf s T -> optimize_op s T nx (mkOp op_call l) = Ok e ->
  exists i', fst e = [i'] /\ tidy T (mkOp op_call l) i' (snd e).
Proof.
  intros Hok HT He. destruct (call_emitted T nx l e Hok HT He) as (l' & -> & El & Eo & Ei).
  destruct (call_same_shape l l' Hok El Eo) as (_ & Eout & _ & Hin).
  destruct (call_same_shape l l Hok eq_refl (fun _ _ => eq_refl)) as (_ & _ & _ & Hin0).
  unfold fold_call. cbn [fst snd]. eexists. split; [done|]. split.
  - cbn. by rewrite El.
  - intros t (j & Hj & ->)%Hin. cbn. destruct (Ei j Hj) as [_ [->|?]]; [left; apply Hin0; eauto|by right].
  - intros t Ht. left. unfold outputs in *. cbn [opc args] in *. by rewrite Eout.
  - done.
  - intros t Ht. left. apply range_copy in Ht. destruct (negb _); [by apply range_copy in Ht|done].
Qed.

Lemma sane_emitted T nx i e :
  wf s T -> op_ok s i -> framed s i -> optimize_op s T nx i = Ok e -> Forall (sane (opc i)) (fst e).
Proof.
  intros HT Hok Hf He. destruct i as [op l]. cbn [opc]. destruct (decide (op = op_call)) as [->|Hc]; [by eapply sane_call|].
  unfold op_ok in Hok. cbn [opc args] in *.
  assert (shaped s op l) as Hsh by (destruct op; try done; apply Hok).
  destruct (canon_reads T op l HT Hc Hsh) as (l' & E & Hsh2 & Hout & Hin & _).
  set (l2 := canonicalize T op l') in *. destruct (pure op) eqn:Hp.
  { pose proof (optimize_formed T nx (mkOp op l) l' (sh_present _ _ _ Hsh) Hp E e He) as Hfm. by apply (sane_pure T op l2). }
  rewrite (optimize_unfold s T nx (mkOp op l) l' E) in He. cbn [opc] in He. rewrite stages_pass in He by done.
  fold l2 in He. pose proof (sane_default T op l2 Hc Hsh2) as Hd.
  assert (forall r, Ok r = Ok e -> e = r) as Hr by (by intros r [= ->]).
  assert (forall i', framed s i' -> doubles (opc i') = false -> op <> op_nop -> sane op i') as H1
    by (intros i' Hi' Hdb Hn; split; [done|]; by rewrite Hdb).
  assert (forall j, is_input op j -> valid s (arg l2 j)) as Vi by (intros j Hj; apply (sh_in _ _ _ Hsh2), Hj).
  assert (forall j, (j < oargs op)%nat -> valid s (arg l2 j)) as Vo by (intros j Hj; by apply (sh_out _ _ _ Hsh2)).
  assert (forall (c : bool) lo hi, (oargs op = 2)%nat -> op <> op_nop ->
    (if c then emit_pair T nx (arg l2 0) (arg l2 1) lo hi else Ok (do_default s T op l2)) = Ok e -> Forall (sane op) (fst e)) as Hpair.
  { intros c lo hi Ho Hn. destruct c; [|by intros [= <-]]. unfold emit_pair. destruct (decide _); [|done]. intros [= <-].
    cbn. rewrite !Forall_cons. split_and?; [..|done]; (apply H1; [|done..]); (apply framed_eq; [done|]); (split; [done|]);
      cbn; rewrite !Forall_cons; (split; [apply Vo; lia|done]). }
  destruct op; try done; cbn [fold_op] in He; try (apply Hr in He as ->; exact Hd);
    try (destruct w; [|apply Hr in He as ->; exact Hd]); try (by refine (Hpair _ _ _ _ _ He)).
  - destruct (do_constant_folding_cond _ _ _ _ _ _) as [[[]|]|]; cbn [obind] in He; [..|done]; apply Hr in He as ->;
      [..|exact Hd]; (constructor; [|done]); by apply H1.
  - destruct (do_constant_folding_cond2 _ _ _ _ _ _ _) as [[[]|]|]; cbn [obind] in He; [..|done].
    1,2: apply Hr in He as ->; (constructor; [|done]); by apply H1.
    case_match; apply Hr in He as ->; [|exact Hd]. constructor; [|done]. apply H1; [|done..]. apply framed_eq; [done|].
    split; [done|]. cbn. rewrite !Forall_cons. repeat (split; [apply Vi; input|]). done.
Qed.

Lemma tidy_emitted T nx i e :
  wf s T -> op_ok s i -> optimize_op s T nx i = Ok e -> tidy_or_split T i e.
Proof.
  intros HT Hok He. destruct (pure (opc i)) eqn:Hp; [left; by apply (tidy_pure T nx)|].
  destruct (decide (opc i = op_call)) as [E|]; [|by apply (tidy_other T nx)].
  destruct i as [op l]. cbn [opc] in E. subst op. left. by apply (tidy_call T nx).
Qed.

(** ** A block through the optimiser *)

End shape.
Definition is_global (s : TCGContext) (t : Z) : Prop := 0 <= t < nb_globals s.

(** What a basic block hands on: the globals and the local temporaries. *)
Definition carried (s : TCGContext) (t : Z) : Prop := is_global s t \/ temp_local s t = true.

Section block.
Context (s : TCGContext).
Notation carried := (carried s).

(** A temporary that is neither global nor local is written in the basic block
    that reads it. *)
Definition visible (D : list Z) (t : Z) : bool :=
  bool_decide (t ∈ D) || ((0 <=? t) && (t <? nb_globals s)) || temp_local s t.

Fixpoint scoped (D : list Z) (p : list TCGOp) : bool :=
  match p with
  | [] => true
  | i :: p => forallb (visible D) (inputs i) && scoped (if bb_end i then [] else outputs i ++ D) p
  end.

Lemma visible_spec D t : visible D t = true <-> t ∈ D \/ carried t.
Proof.
  unfold visible, carried, is_global. rewrite !orb_true_iff, bool_decide_eq_true, andb_true_iff, Z.leb_le, Z.ltb_lt. tauto.
Qed.

(** Every double-word operation has its [nop] behind it. *)
Fixpoint doubles_ok (p : list TCGOp) : bool :=
  match p with
  | [] => true
  | i :: p => implb (doubles (opc i)) (bool_decide (option_map opc (head p) = Some op_nop)) && doubles_ok p
  end.


Lemma visible_mono D D' t : (forall t, t ∈ D -> visible D' t = true) -> visible D t = true -> visible D' t = true.
Proof. intros H [?|?]%visible_spec; [auto|]. apply visible_spec. by right. Qed.

(** The operations in front of [k] take no more room than they did. *)
Fixpoint args_size (p : list TCGOp) : nat :=
  match p with [] => 0 | i :: p => length (args i) + args_size p end.

(** What the loop keeps of a block. *)
Record kept (D' : list Z) (p p' : list TCGOp) : Prop := {
  kp_framed : Forall (framed s) p';
  kp_doubles : doubles_ok p' = true;
  kp_scoped : scoped D' p' = true;
  kp_nop : option_map opc (head p) = Some op_nop -> option_map opc (head p') = Some op_nop;
  kp_size : forall k, (args_size (take k p') <= args_size (take k p))%nat;
}.

Definition covers (T : temps_t) (D D' : list Z) : Prop :=
  (forall t, t ∈ D -> visible D' t = true) /\ (forall t, valid s t -> is_copy (T t) = true -> visible D' t = true).

Lemma visible_app l D t : visible D t = true -> visible (l ++ D) t = true.
Proof. rewrite !visible_spec, elem_of_app. tauto. Qed.
Lemma visible_in l D t : t ∈ l -> visible (l ++ D) t = true.
Proof. rewrite visible_spec, elem_of_app. tauto. Qed.

Lemma framed_valid i t : framed s i -> t ∈ inputs i \/ t ∈ outputs i -> valid s t.
Proof.
  destruct i as [op l]. intros Hf Ht. destruct (decide (op = op_call)) as [->|Hc].
  - destruct Hf as [[Hlen Hv] _]. unfold call_args in *. cbn [fst snd args] in *.
    destruct Ht as [Ht|Ht]; unfold inputs, outputs, call_ins, call_outs in Ht; cbn [opc args] in Ht;
      apply take_drop_arg in Ht as (j & Hj & ->); (apply Hv || idtac); lia.
  - apply framed_eq in Hf as [_ Hf]; [|done]. apply (proj1 (Forall_forall _ _) Hf), elem_of_app. tauto.
Qed.

(** One operation replaced by one. *)
Lemma kept_cons T T' D D' i i' p q :
  framed s i -> sane s (opc i) i' -> tidy s T i i' T' ->
  forallb (visible D) (inputs i) = true -> covers T D D' ->
  (doubles (opc i) = true -> option_map opc (head p) = Some op_nop) ->
  (covers T' (if bb_end i then [] else outputs i ++ D) (if bb_end i' then [] else outputs i' ++ D') ->
    kept (if bb_end i' then [] else outputs i' ++ D') p q) ->
  kept D' (i :: p) (i' :: q).
Proof.
  intros Hf (Hf' & Hd & Hn) [Tl Ti To Te Tc] Hin [C1 C2] Hnop IH.
  assert (forall t, t ∈ inputs i -> visible D' t = true) as Hvi.
  { intros t Ht. apply (visible_mono D); [done|]. by apply (proj1 (forallb_forall _ _) Hin), list_elem_of_In. }
  assert (forall t, t ∈ inputs i' -> visible D' t = true) as Hvi'.
  { intros t Ht. destruct (Ti t Ht); [by apply Hvi|]. apply C2; [|done]. apply (framed_valid i'); auto. }
  destruct IH as [K1 K2 K3 K4 K5].
  { destruct (bb_end i') eqn:E'.
    - destruct (Te eq_refl) as [-> Hc]. split; [by intros t ?%elem_of_nil|]. intros t Ht Hct. by rewrite Hc in Hct.
    - split.
      + intros t Ht. destruct (bb_end i); [by apply elem_of_nil in Ht|]. apply elem_of_app in Ht as [Ht|Ht]; [|by apply visible_app, C1].
        destruct (To t Ht) as [?|[?|?]]; [by apply visible_in|by apply visible_app, Hvi|]. apply visible_app, C2; [|done].
        apply (framed_valid i); auto.
      + intros t Ht Hct. destruct (Tc t Hct) as [?|[?|?]]; [by apply visible_app, C2|by apply visible_in|by apply visible_app, Hvi']. }
  split.
  - by constructor.
  - cbn. apply andb_true_iff. split; [|done]. destruct (doubles (opc i')) eqn:Ed; [|done]. cbn.
    apply bool_decide_eq_true, K4, Hnop. by apply Hd.
  - cbn. apply andb_true_iff. split; [|done]. apply forallb_forall. intros t Ht. apply Hvi', list_elem_of_In, Ht.
  - cbn. intros [= E]. by rewrite Hn.
  - intros [|k]; cbn; [lia|]. specialize (K5 k). lia.
Qed.
(** One operation and its [nop] replaced by two. *)
Lemma kept_pair T T' D D' i j i1 i2 p q :
  framed s i -> framed s i1 -> framed s i2 -> split_in_two T i i1 i2 T' ->
  forallb (visible D) (inputs i) = true -> covers T D D' ->
  (covers T' (outputs i ++ D) (outputs i2 ++ outputs i1 ++ D') -> kept (outputs i2 ++ outputs i1 ++ D') p q) ->
  kept D' (i :: j :: p) (i1 :: i2 :: q).
Proof.
  destruct i1 as [? l1], i2 as [? l2]. intros Hf F1 F2 (Hl & L1 & L2 & I1 & I2 & Ho & _ & Hc) Hin [C1 C2] IH.
  cbn [opc args] in *. subst. destruct IH as [K1 K2 K3 K4 K5].
  { split.
    - intros t [Ht|Ht]%elem_of_app; [|by apply visible_app, visible_app, C1].
      rewrite <- Ho in Ht. apply elem_of_app in Ht as [?|?]; [by apply visible_app, visible_in|by apply visible_in].
    - intros t Ht Hct. by apply visible_app, visible_app, C2, Hc. }
  split.
  - by apply Forall_cons; split; [|by apply Forall_cons].
  - done.
  - done.
  - cbn. intros [= E]. destruct i as [op l]. cbn in E. subst op. apply framed_eq in Hf as [Hf _]; [|done]. cbn in *. lia.
  - intros [|[|k]]; cbn; [lia|lia|]. specialize (K5 k). lia.
Qed.

(** The loop keeps the arguments in range, the [nop]s and the scopes, and what it
    has written is never longer than what it has read. *)
Lemma fold_ops_kept T D D' p p' :
  block_ok s p -> Forall (framed s) p -> doubles_ok p = true -> scoped D p = true -> wf s T -> covers T D D' ->
  fold_ops s T p = Ok p' -> kept D' p p'.
Proof.
  remember (length p) as n eqn:En. revert T D D' p p' En.
  induction (lt_wf n) as [n _ IH]. intros T D D' p p' -> Hb Hf Hd Hs HT Hc H.
  destruct p as [|i p]; [injection H as <-; by split|].
  destruct (block_head s i p Hb) as [Hi _]. apply Forall_cons in Hf as [Fi Fp].
  cbn in Hd, Hs. apply andb_true_iff in Hd as [Hd1 Hd2], Hs as [Hs1 Hs2].
  destruct (fold_ops_cons s T i p p' Hb HT H) as (e & Ee & HT' & Hcase).
  pose proof (tidy_emitted s T _ i e HT Hi Ee) as Ht. pose proof (sane_emitted s T _ i e HT Hi Fi Ee) as Hsane.
  assert (doubles (opc i) = true -> option_map opc (head p) = Some op_nop) as Hnop.
  { intros E. rewrite E in Hd1. by apply bool_decide_eq_true in Hd1. }
  destruct Hcase as [(i' & q & E1 & -> & Eq & _)|(i1 & i2 & j & p2 & q & E1 & -> & Ej & -> & Eq & _)];
    rewrite E1 in Hsane.
  - destruct Ht as [(i0 & E0 & Ht)|(? & ? & E0 & _)]; [|congruence]. assert (i0 = i') as -> by congruence.
    apply Forall_cons in Hsane as [Hsane _].
    apply (kept_cons T (snd e) D D' i i' p q Fi Hsane Ht Hs1 Hc Hnop). intros Hc'.
    by apply (IH (length p) ltac:(cbn; lia) (snd e) _ _ p q eq_refl (block_tail _ _ _ Hb) Fp Hd2 Hs2 HT' Hc').
  - destruct Ht as [(? & E0 & _)|(j1 & j2 & E0 & Ht)]; [congruence|]. assert (j1 = i1 /\ j2 = i2) as [-> ->] by (split; congruence).
    apply Forall_cons in Hsane as [S1 Hsane]. apply Forall_cons in Hsane as [S2 _]. apply Forall_cons in Fp as [_ Fp].
    pose proof Ht as (_ & _ & _ & _ & _ & _ & Bi & _).
    rewrite Bi in Hs2. cbn in Hs2, Hd2. destruct j as [oj lj]. cbn in Ej. subst oj. cbn in Hs2, Hd2.
    apply (kept_pair T (snd e) D D' i _ i1 i2 p2 q Fi (proj1 S1) (proj1 S2) Ht Hs1 Hc). intros Hc'.
    apply (IH (length p2) ltac:(cbn; lia) (snd e) (outputs i ++ D) _ p2 q eq_refl (block_drop _ _ 2 Hb) Fp Hd2); try done.
Qed.
End block.
End TcgShape.
