(* ===== verification/TcgLive.v ===== *)
(** The liveness pass of the translator (tcg/tcg.c, [tcg_liveness_analysis]):
    backwards over a block it marks where a value is used last and where it has
    to be in memory, and removes or narrows the operations whose results nobody
    reads.  What it leaves runs as the block does, as far as the globals and
    the world go. *)
From Stdlib Require Import ZArith Lia Bool Btauto.
From stdpp Require Import base numbers list sets.
From S2P Require Import Prelude HostUtils TcgOp TcgOpt TcgRing TcgArith TcgSem TcgBits TcgSound TcgStep TcgProg TcgShape.
Local Open Scope Z_scope.

Module TcgLive.
Import HostUtils.HostUtils Tcg TcgOpt TcgRing TcgArith TcgSem TcgBits TcgSound TcgStep TcgProg TcgShape.

(** ** The pass *)

(** [dead_temps] and [mem_temps], arrays of [nb_temps] bytes. *)
Record live_state := mkLive { dead_temps : Z -> bool; mem_temps : Z -> bool }.

Definition memset (f : Z -> bool) (lo hi : Z) (v : bool) : Z -> bool :=
  fun t => if (lo <=? t) && (t <? hi) then v else f t.
Definition bset (f : Z -> bool) (t : Z) (v : bool) : Z -> bool := fun i => if i =? t then v else f i.

(** [args[0] = nb_args; args[nb_args - 1] = nb_args]. *)
Definition tcg_set_nop (args : list Z) (nb_args : nat) : TCGOp :=
  match nb_args with
  | O => mkOp op_nop []
  | S n => mkOp op_nopn (<[n := Z.of_nat nb_args]> (<[0%nat := Z.of_nat nb_args]> args))
  end.

(** An operation of the result with [op_dead_args] and [op_sync_args], which
    stay unset for what was removed or skipped. *)
Definition la_entry : Type := TCGOp * option (Z * Z).

Section pass.
Context (s : TCGContext).
(** [TCG_TARGET_HAS_muluh_i32] and the like: the host multiplies to the high
    word. *)
Context (has_high : binop -> width -> bool).

Definition tcg_la_func_end (st : live_state) : live_state :=
  mkLive (memset (dead_temps st) 0 (nb_temps s) true)
    (memset (memset (mem_temps st) 0 (nb_globals s) true) (nb_globals s) (nb_temps s) false).

Definition tcg_la_bb_end (st : live_state) : live_state :=
  mkLive (memset (dead_temps st) 0 (nb_temps s) true)
    (fun i => if (nb_globals s <=? i) && (i <? nb_temps s) then temp_local s i
              else memset (mem_temps st) 0 (nb_globals s) true i).

Definition sync_globals (st : live_state) : live_state :=
  mkLive (dead_temps st) (memset (mem_temps st) 0 (nb_globals s) true).
Definition kill_globals (st : live_state) : live_state :=
  mkLive (memset (dead_temps st) 0 (nb_globals s) true) (mem_temps st).

(** [1 << i] into a [uint16_t] and a [uint8_t]. *)
Definition mark16 (b : bool) (x : Z) (i : nat) : Z := if b then u16 (Z.lor x (bit (Z.of_nat i))) else x.
Definition mark8 (b : bool) (x : Z) (i : nat) : Z := if b then u8 (Z.lor x (bit (Z.of_nat i))) else x.

(** Output arguments are dead in front of the operation, ... *)
Fixpoint la_outs (i : nat) (ts : list Z) (da sa : Z) (st : live_state) : Z * Z * live_state :=
  match ts with
  | [] => (da, sa, st)
  | t :: ts =>
      la_outs (S i) ts (mark16 (dead_temps st t) da i) (mark8 (mem_temps st t) sa i)
        (mkLive (bset (dead_temps st) t true) (bset (mem_temps st) t false))
  end.

(** ... input arguments live. *)
Fixpoint la_ins (i : nat) (ts : list Z) (da : Z) (st : live_state) : Z * live_state :=
  match ts with
  | [] => (da, st)
  | t :: ts =>
      la_ins (S i) ts (mark16 (dead_temps st t) da i) (mkLive (bset (dead_temps st) t false) (mem_temps st))
  end.

Definition unused (st : live_state) (t : Z) : bool := dead_temps st t && negb (mem_temps st t).

(** [do_not_remove]: the operation [op] with [no] outputs and [ni] inputs, under
    the flags [def]. *)
Definition do_not_remove (op : TCGOpcode) (no ni : nat) (def : TCGOpDef) (l : list Z)
    (q : list la_entry) (st : live_state) : list la_entry * live_state :=
  let '(da, sa, st) := la_outs 0 (take no l) 0 0 st in
  let st := if TCG_OPF_BB_END def then tcg_la_bb_end st
            else if TCG_OPF_SIDE_EFFECTS def then sync_globals st else st in
  let '(da, st) := la_ins no (take ni (drop no l)) da st in
  ((mkOp op l, Some (da, sa)) :: q, st).

Definition do_remove (def : TCGOpDef) (l : list Z) (q : list la_entry) (st : live_state)
    : list la_entry * live_state :=
  ((tcg_set_nop l (nb_args def), None) :: q, st).

(** The single-word operation [op] of [l], and what is left of [rest] for the
    [nop] that must follow; behind the last operation is [end]. *)
Definition single_word (op : TCGOpcode) (def : TCGOpDef) (l rest : list Z) (q : list la_entry) (st : live_state)
    : outcome (list la_entry * live_state) :=
  match q with
  | (j, x) :: q =>
      if decide (opc j = op_nop)
      then Ok (do_not_remove op 1 2 def l ((tcg_set_nop rest (length rest), x) :: q) st)
      else Fault AssertFailed
  | [] => Fault AssertFailed
  end.

Definition la_addsub2 (op : TCGOpcode) (op_new : TCGOpcode) (l : list Z) (q : list la_entry) (st : live_state)
    : outcome (list la_entry * live_state) :=
  let def := tcg_op_defs op in
  let a := arg l in
  if unused st (a 1%nat) then
    if unused st (a 0%nat) then Ok (do_remove def l q st)
    else single_word op_new def [a 0%nat; a 2%nat; a 4%nat] (drop 3 l) q st
  else Ok (do_not_remove op 2 4 def l q st).

Definition la_mul2 (op : TCGOpcode) (b : binop) (w : width) (l : list Z) (q : list la_entry) (st : live_state)
    : outcome (list la_entry * live_state) :=
  let def := tcg_op_defs op in
  let a := arg l in
  if unused st (a 1%nat) then
    if unused st (a 0%nat) then Ok (do_remove def l q st)
    else single_word (op_bin Bmul w) def [a 0%nat; a 2%nat; a 3%nat] (drop 3 l) q st
  else if has_high b w && unused st (a 0%nat) then
    single_word (op_bin b w) def [a 1%nat; a 2%nat; a 3%nat] (drop 3 l) q st
  else Ok (do_not_remove op 2 2 def l q st).

Definition TCG_CALL_DUMMY_ARG : Z := ones64.

(** A call: its inputs follow the outputs, [TCG_CALL_DUMMY_ARG] pads. *)
Fixpoint la_call_ins (i : nat) (ts : list Z) (da : Z) (st : live_state) : Z * live_state :=
  match ts with
  | [] => (da, st)
  | t :: ts =>
      if t =? TCG_CALL_DUMMY_ARG then la_call_ins (S i) ts da st
      else la_call_ins (S i) ts (mark16 (dead_temps st t) da i) (mkLive (bset (dead_temps st) t false) (mem_temps st))
  end.

Definition la_call (l : list Z) (q : list la_entry) (st : live_state) : list la_entry * live_state :=
  let flags := call_flags l in
  if nz (Z.land flags TCG_CALL_NO_SIDE_EFFECTS) && forallb (unused st) (call_outs l)
  then ((tcg_set_nop l (length l), None) :: q, st)
  else
    let '(da, sa, st) := la_outs 0 (call_outs l) 0 0 st in
    let st := if negb (nz (Z.land flags TCG_CALL_NO_READ_GLOBALS)) then sync_globals st else st in
    let st := if negb (nz (Z.land flags (Z.lor TCG_CALL_NO_WRITE_GLOBALS TCG_CALL_NO_READ_GLOBALS)))
              then kill_globals st else st in
    let '(da, st) := la_call_ins (length (call_outs l)) (call_ins l) da st in
    ((mkOp op_call l, Some (da, sa)) :: q, st).

Definition la_default (op : TCGOpcode) (l : list Z) (q : list la_entry) (st : live_state)
    : list la_entry * live_state :=
  let def := tcg_op_defs op in
  if negb (TCG_OPF_SIDE_EFFECTS def) && negb (nb_oargs def =? 0)%nat
     && forallb (unused st) (take (nb_oargs def) l)
  then do_remove def l q st
  else do_not_remove op (nb_oargs def) (nb_iargs def) def l q st.

(** The body of the loop; [q] is what the operations behind have become. *)
Definition la_op (i : TCGOp) (q : list la_entry) (st : live_state) : outcome (list la_entry * live_state) :=
  let l := args i in
  match opc i with
  | op_call => Ok (la_call l q st)
  | op_debug_insn_start | op_nopn => Ok ((i, None) :: q, st)
  | op_discard =>
      Ok ((i, None) :: q, mkLive (bset (dead_temps st) (arg l 0) true) (bset (mem_temps st) (arg l 0) false))
  | op_add2 w => la_addsub2 (op_add2 w) (op_bin Badd w) l q st
  | op_sub2 w => la_addsub2 (op_sub2 w) (op_bin Bsub w) l q st
  | op_mulu2 w => la_mul2 (op_mulu2 w) Bmuluh w l q st
  | op_muls2 w => la_mul2 (op_muls2 w) Bmulsh w l q st
  | op => Ok (la_default op l q st)
  end.

(** [op_index] from the last operation down to the first. *)
Fixpoint la_loop (p : list TCGOp) (st : live_state) : outcome (list la_entry * live_state) :=
  match p with
  | [] => Ok ([], st)
  | i :: p => r <~ la_loop p st ;; la_op i (fst r) (snd r)
  end.

(** [st]: what [tcg_malloc] found in the arrays. *)
Definition tcg_liveness_analysis (st : live_state) (p : list TCGOp) : outcome (list la_entry) :=
  r <~ la_loop p (tcg_la_func_end st) ;; Ok (fst r).
End pass.

(** ** What an operation depends on *)

Section frame.
Context {W : Type} (s : TCGContext) (host : Host W).
Notation valid := (valid s).

(** The same world, and the same registers where [P] holds. *)
Definition agree_on (P : Z -> Prop) (m1 m2 : mstate W) : Prop :=
  world m1 = world m2 /\ forall t, valid t -> P t -> regs m1 t = regs m2 t.

Lemma agree_on_weaken (P Q : Z -> Prop) m1 m2 :
  agree_on P m1 m2 -> (forall t, valid t -> Q t -> P t) -> agree_on Q m1 m2.
Proof. intros [Hw Hr] H. split; auto. Qed.

Lemma agree_on_put (P : Z -> Prop) m1 m2 t v :
  agree_on P m1 m2 -> agree_on (fun u => P u \/ u = t) (put m1 t v) (put m2 t v).
Proof.
  intros [Hw Hr]. split; [done|]. intros u Hu Hp. cbn. unfold rset.
  destruct (Z.eqb_spec u t); [done|]. apply Hr; [done|]. by destruct Hp.
Qed.

Lemma agree_on_puts (P : Z -> Prop) m1 m2 ts vs :
  agree_on P m1 m2 -> agree_on (fun u => P u \/ u ∈ ts) (puts m1 ts vs) (puts m2 ts vs).
Proof.
  revert P m1 m2 vs. induction ts as [|t ts IH]; intros P m1 m2 vs H.
  - apply (agree_on_weaken P); [done|]. intros u _ [?|?%elem_of_nil]; done.
  - destruct vs as [|v vs]; cbn; (eapply agree_on_weaken; [apply IH, agree_on_put, H|]);
      intros u _ [?|[->|?]%elem_of_cons]; auto.
Qed.

Definition next_on (P : Z -> Prop) (Q : Z -> Prop) (n1 n2 : next W) : Prop :=
  match n1, n2 with
  | Undef, _ => True
  | Fall m1, Fall m2 => agree_on P m1 m2
  | Jump l1 m1, Jump l2 m2 => l1 = l2 /\ agree_on Q m1 m2
  | Leave m1, Leave m2 => agree_on Q m1 m2
  | _, _ => False
  end.

Lemma next_on_weaken P Q P' Q' n1 n2 :
  next_on P Q n1 n2 -> (forall t, valid t -> P' t -> P t) -> (forall t, valid t -> Q' t -> Q t) ->
  next_on P' Q' n1 n2.
Proof.
  intros H HP HQ. destruct n1, n2; try done; cbn in *; [by eapply agree_on_weaken| |by eapply agree_on_weaken].
  destruct H as [? H]. split; [done|]. by eapply agree_on_weaken.
Qed.

Lemma map_value_on (P : Z -> Prop) m1 m2 ts :
  agree_on P m1 m2 -> Forall valid ts -> (forall t, t ∈ ts -> P t) -> map (value s m1) ts = map (value s m2) ts.
Proof.
  intros [_ Hr] Hv Hp. apply map_ext_Forall, Forall_forall. intros t Ht. unfold value, opnd.
  rewrite Hr; [done| |by apply Hp]. by apply (proj1 (Forall_forall _ _) Hv).
Qed.

Lemma put_on (P Q : Z -> Prop) m1 m2 t v1 v2 :
  agree_on P m1 m2 -> v1 = v2 ->
  next_on (fun u => P u \/ u ∈ [t]) Q (Fall (put m1 t v1)) (Fall (put m2 t v2)).
Proof.
  intros Ha ->. refine (agree_on_weaken _ _ _ _ (agree_on_put P m1 m2 t v2 Ha) _). set_solver.
Qed.

Lemma result_on (P Q : Z -> Prop) m1 m2 w t v :
  agree_on P m1 m2 -> next_on (fun u => P u \/ u ∈ [t]) Q (result w m1 t v) (result w m2 t v).
Proof. intros Ha. destruct v; [by apply put_on|done]. Qed.

Lemma put2_on (P : Z -> Prop) m1 m2 w lo hi l r :
  agree_on P m1 m2 -> agree_on (fun u => P u \/ u ∈ [lo; hi]) (put2 w m1 (lo :: hi :: l) r) (put2 w m2 (lo :: hi :: l) r).
Proof.
  intros Ha. refine (agree_on_weaken _ _ _ _ (agree_on_put _ _ _ _ _ (agree_on_put P m1 m2 _ _ Ha)) _). set_solver.
Qed.

Lemma stay_on (P : Z -> Prop) m1 m2 : agree_on P m1 m2 -> agree_on (fun u => P u \/ u ∈ ([] : list Z)) m1 m2.
Proof. intros Ha. refine (agree_on_weaken _ _ _ _ Ha _). set_solver. Qed.

(** An operation reads its inputs and the world, and writes its outputs. *)
Lemma exec_frame (P : Z -> Prop) i k m1 m2 :
  opc i <> op_call -> framed s i -> agree_on P m1 m2 -> (forall t, t ∈ inputs i -> P t) ->
  next_on (fun t => P t \/ t ∈ outputs i) P (exec_op s host k i m1) (exec_op s host k i m2).
Proof.
  intros Hc Hf Ha Hi. destruct i as [op l].
  apply framed_eq in Hf as [El Hv]; [|done]. apply Forall_app in Hv as [Hv _]. destruct (opaque op) eqn:Ho.
  { rewrite !exec_opaque_eq by done. unfold exec_opaque. cbn [opc args].
    fold (iargs op) (oargs op). rewrite <- inputs_eq, <- outputs_eq by done.
    rewrite (map_value_on P m1 m2) by done. rewrite (proj1 Ha).
    destruct (h_op _ _ _ _ _) as [vs w|w]; cbn; [|split; [done|apply Ha]].
    apply agree_on_puts. split; [done|apply Ha]. }
  assert (forall t, t ∈ take (iargs op) (drop (oargs op) l) -> regs m1 t = regs m2 t) as Hr.
  { intros t Ht. apply Ha; [apply (proj1 (Forall_forall _ _) Hv)|apply Hi]; by destruct op. }
  assert (forall w t, t ∈ take (iargs op) (drop (oargs op) l) -> opnd w m1 t = opnd w m2 t) as Ho'
    by (intros w t Ht; unfold opnd; by rewrite Hr). clear Hi Hv.
  destruct op; try done; try (destruct b); args_of l El; cbn in Ho', Hr |- *;
    repeat (rewrite Ho' by set_solver); try (by apply stay_on); try (by apply result_on); try (by apply put2_on);
    try (by apply (put_on P P)).
  - apply (put_on P P); [done|]. destruct k; [apply Hr; set_solver|done].
  - destruct (cond_sem _ _ _ _) as [c|]; [|done]. apply put_on; [done|]. apply Ho'. destruct c; set_solver.
  - destruct (cond_sem _ _ _ _) as [[]|]; [done|by apply stay_on|done].
  - destruct (cond_sem _ _ _ _) as [[]|]; [done|by apply stay_on|done].
Qed.
Hypothesis (Hg : 0 <= nb_globals s <= nb_temps s).

(** A call also reads the globals, unless its flags say otherwise. *)
Lemma call_frame (P : Z -> Prop) l k m1 m2 :
  framed s (mkOp op_call l) -> agree_on P m1 m2 -> (forall t, t ∈ call_ins l -> P t) ->
  (reads_globals (call_flags l) = true -> forall t, t ∈ globals s -> P t) ->
  next_on (fun t => P t \/ t ∈ call_outs l) P
    (exec_op s host k (mkOp op_call l) m1) (exec_op s host k (mkOp op_call l) m2).
Proof.
  intros [[Hlen Hv] _] Ha Hi Hgl. unfold exec_op, exec_call. cbn [opc args] in *. unfold call_args in *. cbn [fst snd] in *.
  assert (Forall valid (call_ins l)) as Hin by (apply take_args_valid; [lia|intros j Hj; apply Hv; lia]).
  rewrite (map_value_on P m1 m2 (call_ins l)) by done.
  assert ((if reads_globals (call_flags l) then map (value s m1) (globals s) else []) =
          (if reads_globals (call_flags l) then map (value s m2) (globals s) else [])) as ->.
  { destruct (reads_globals _); [|done]. apply (map_value_on P); [done|by apply globals_valid|by apply Hgl]. }
  rewrite (proj1 Ha).
  assert (forall w g, agree_on P
    (if writes_globals (call_flags l) then puts_typed s (mkState (regs m1) w) (globals s) g else mkState (regs m1) w)
    (if writes_globals (call_flags l) then puts_typed s (mkState (regs m2) w) (globals s) g else mkState (regs m2) w)) as Hw.
  { intros w g. destruct (writes_globals _); [|split; [done|apply Ha]].
    refine (agree_on_weaken _ _ _ _ (agree_on_puts P (mkState (regs m1) w) (mkState (regs m2) w) (globals s) _ _) _);
      [split; [done|apply Ha]|by left]. }
  destruct (h_call _ _ _ _ _) as [vs g w|g w]; cbn; [by apply agree_on_puts|apply Hw].
Qed.

End frame.

(** ** What is live *)
Definition live (st : live_state) (t : Z) : Prop := dead_temps st t = false \/ mem_temps st t = true.
Lemma unused_live st t : unused st t = true <-> ~ live st t.
Proof. unfold unused, live. destruct (dead_temps st t), (mem_temps st t); cbn; intuition congruence. Qed.

Lemma unused_all st ts : forallb (unused st) ts = true -> forall t, live st t -> t ∉ ts.
Proof.
  intros H t Hl Ht. apply (unused_live st t); [|done]. apply (proj1 (forallb_forall _ _) H), list_elem_of_In, Ht.
Qed.

Lemma memset_in f lo hi v t : lo <= t < hi -> memset f lo hi v t = v.
Proof. intros H. unfold memset. by rewrite (proj2 (Z.leb_le lo t)), (proj2 (Z.ltb_lt t hi)) by lia. Qed.
Lemma memset_out f lo hi v t : ~ lo <= t < hi -> memset f lo hi v t = f t.
Proof. intros H. unfold memset. destruct (Z.leb_spec lo t), (Z.ltb_spec t hi); try done. lia. Qed.

Lemma la_outs_live i ts da sa st t :
  live (la_outs i ts da sa st).2 t <-> t ∉ ts /\ live st t.
Proof.
  revert i da sa st. induction ts as [|u ts IH]; intros i da sa st; cbn.
  - rewrite elem_of_nil. tauto.
  - rewrite IH. rewrite not_elem_of_cons. unfold live. cbn. unfold bset.
    destruct (Z.eqb_spec t u); [|tauto]. split; [intros [_ [|]]; done|tauto].
Qed.

Lemma la_ins_live i ts da st t : live (la_ins i ts da st).2 t <-> t ∈ ts \/ live st t.
Proof.
  revert i da st. induction ts as [|u ts IH]; intros i da st; cbn.
  - rewrite elem_of_nil. tauto.
  - rewrite IH. rewrite elem_of_cons. unfold live. cbn. unfold bset.
    destruct (Z.eqb_spec t u); [|tauto]. split; [tauto|]. intros _. right. by left.
Qed.

Section live.
Context (s : TCGContext) (has_high : binop -> width -> bool).
Hypothesis (Hg : 0 <= nb_globals s <= nb_temps s).
Notation valid := (valid s).
Notation is_global := (is_global s).
Notation carried := (carried s).

Lemma func_end_live st t : valid t -> live (tcg_la_func_end s st) t <-> is_global t.
Proof.
  intros [H0 H1]. unfold live, is_global. cbn. rewrite memset_in by lia.
  destruct (Z.lt_ge_cases t (nb_globals s)).
  - rewrite memset_out, memset_in by lia. intuition lia.
  - rewrite memset_in by lia. split; [intros [|]; done|lia].
Qed.

Lemma bb_end_live st t : valid t -> live (tcg_la_bb_end s st) t <-> carried t.
Proof.
  intros [H0 H1]. unfold live, carried, is_global. cbn. rewrite memset_in by lia.
  rewrite (proj2 (Z.ltb_lt t (nb_temps s))), andb_true_r by lia.
  destruct (Z.leb_spec (nb_globals s) t); [intuition (lia || congruence)|].
  rewrite memset_in by lia. intuition lia.
Qed.

Lemma sync_live st t : live (sync_globals s st) t <-> is_global t \/ live st t.
Proof.
  unfold live, is_global. cbn. destruct (decide (0 <= t < nb_globals s)).
  - rewrite memset_in by done. tauto.
  - rewrite memset_out by done. tauto.
Qed.

(** What is live in front of an operation that stays, behind its inputs. *)
Definition through (def : TCGOpDef) (outs : list Z) (st : live_state) (t : Z) : Prop :=
  if TCG_OPF_BB_END def then carried t
  else (TCG_OPF_SIDE_EFFECTS def = true /\ is_global t) \/ (t ∉ outs /\ live st t).

Lemma do_not_remove_spec op no ni def l q st :
  exists x st', do_not_remove s op no ni def l q st = ((mkOp op l, Some x) :: q, st') /\
    forall t, valid t -> live st' t <-> t ∈ take ni (drop no l) \/ through def (take no l) st t.
Proof.
  unfold do_not_remove. pose proof (la_outs_live 0 (take no l) 0 0 st) as Ho.
  destruct (la_outs 0 (take no l) 0 0 st) as [[da sa] st1]. cbn [snd] in Ho.
  set (st2 := if TCG_OPF_BB_END def then _ else _).
  pose proof (la_ins_live no (take ni (drop no l)) da st2) as Hi.
  destruct (la_ins no (take ni (drop no l)) da st2) as [da' st3]. cbn [snd] in Hi.
  exists (da', sa), st3. split; [done|]. intros t Ht. rewrite Hi. subst st2. unfold through.
  destruct (TCG_OPF_BB_END def); [by rewrite bb_end_live|].
  destruct (TCG_OPF_SIDE_EFFECTS def); [rewrite sync_live|]; rewrite Ho; intuition congruence.
Qed.
End live.

(** ** The host behind the operations

    What the pass takes for granted: only [exit_tb], [goto_tb], the guest's
    loads and stores and helpers that may read the globals leave a block; loads
    of host memory and divisions, and helpers flagged
    [TCG_CALL_NO_SIDE_EFFECTS], change nothing. *)
Definition effectless (op : TCGOpcode) : bool :=
  match op with op_ld _ _ | op_div2 _ | op_divu2 _ => true | _ => false end.
Definition stays (op : TCGOpcode) : bool :=
  match op with op_st _ _ | op_debug_insn_start => true | _ => false end.

Record host_ok {W} (host : Host W) : Prop := {
  ho_effectless : forall op cargs ins w, effectless op = true -> exists outs, h_op host op cargs ins w = OContinue outs w;
  ho_stays : forall op cargs ins w, stays op = true -> exists outs w', h_op host op cargs ins w = OContinue outs w';
  ho_returns : forall flags ins seen w, reads_globals flags = false -> exists outs g w', h_call host flags ins seen w = CReturn outs g w';
  ho_pure : forall flags ins seen w, nz (Z.land flags TCG_CALL_NO_SIDE_EFFECTS) = true ->
    exists outs g, h_call host flags ins seen w = CReturn outs g w;
}.

Definition TCG_MAX_TEMPS : Z := 1024.

Section step.
Context {W : Type} (s : TCGContext) (host : Host W) (has_high : binop -> width -> bool).
Hypothesis (Hg : 0 <= nb_globals s <= nb_temps s).
Hypothesis (Hm : nb_temps s <= TCG_MAX_TEMPS).
Hypothesis (Hh : host_ok host).
Notation valid := (valid s).
Notation is_global := (is_global s).
Notation carried := (carried s).
Notation agree_on := (agree_on s (W := W)).

Definition next_live (after : live_state) (n1 n2 : next W) : Prop :=
  match n1, n2 with
  | Undef, _ => True
  | Fall m1, Fall m2 => agree_on (live after) m1 m2
  | Jump l1 m1, Jump l2 m2 => l1 = l2 /\ agree_on carried m1 m2
  | Leave m1, Leave m2 => agree_on is_global m1 m2
  | _, _ => False
  end.

(** [i'] in the place of [i]. *)
Definition steps_to (i i' : TCGOp) (after before : live_state) : Prop :=
  forall k m1 m2, agree_on (live before) m1 m2 -> next_live after (exec_op s host k i m1) (exec_op s host k i' m2).

Lemma exec_jumps i k m L m' : exec_op s host k i m = Jump L m' -> bb_end i = true.
Proof.
  destruct i as [op l]. unfold bb_end, exec_op. cbn [opc args].
  destruct op; try done; unfold result, exec_call, exec_opaque; repeat (case_match; try done).
Qed.

Lemma exec_leaves op l k m m' :
  op <> op_call -> exec_op s host k (mkOp op l) m = Leave m' ->
  bb_end (mkOp op l) = true \/ TCG_OPF_SIDE_EFFECTS (tcg_op_defs op) = true.
Proof.
  intros Hc. destruct (opaque op) eqn:Ho.
  - rewrite exec_opaque_eq by done. unfold exec_opaque, bb_end. cbn [opc args]. set (ins := map _ _). set (cargs := drop _ _).
    destruct (effectless op) eqn:He; [by destruct (ho_effectless _ Hh op cargs ins (world m) He) as [? ->]|].
    destruct (stays op) eqn:Hs; [by destruct (ho_stays _ Hh op cargs ins (world m) Hs) as (? & ? & ->)|].
    destruct op; try done; cbn; auto.
  - unfold exec_op. cbn [opc args]. destruct op; try done; unfold result; repeat (case_match; try done).
Qed.

(** *** Operations that stay *)
Lemma steps_same op l after before :
  op <> op_call -> framed s (mkOp op l) ->
  (forall t, valid t -> live before t <->
     t ∈ inputs (mkOp op l) \/ through s (tcg_op_defs op) (outputs (mkOp op l)) after t) ->
  (bb_end (mkOp op l) = true -> forall t, valid t -> live after t -> carried t) ->
  steps_to (mkOp op l) (mkOp op l) after before.
Proof.
  intros Hc Hf Hl Hb k m1 m2 Ha. set (i := mkOp op l) in *.
  assert (forall t, t ∈ inputs i -> valid t) as Hv.
  { intros t Ht. apply framed_eq in Hf as [_ Hf]; [|done]. apply (proj1 (Forall_forall _ _) Hf). set_solver. }
  pose proof (exec_frame s host (live before) i k m1 m2 Hc Hf Ha) as Hn.
  specialize (Hn ltac:(intros t Ht; apply Hl; [by apply Hv|by left])).
  pose proof (exec_jumps i k m1) as Hj. pose proof (exec_leaves op l k m1) as Hlv. fold i in Hlv.
  assert (forall t, valid t -> live before t <-> t ∈ inputs i \/ through s (tcg_op_defs op) (outputs i) after t) as Hl' by exact Hl.
  unfold through in Hl'. fold (bb_end i) in Hl'. change (TCG_OPF_BB_END (tcg_op_defs op)) with (bb_end i) in Hl'.
  destruct (exec_op s host k i m1) as [n1|L n1|n1|], (exec_op s host k i m2) as [n2|L2 n2|n2|]; try done; cbn in Hn |- *.
  - refine (agree_on_weaken s _ _ _ _ Hn _). intros t Ht Hlt. destruct (bb_end i).
    + left. apply Hl'; [done|]. right. by apply Hb.
    + destruct (decide (t ∈ outputs i)); [by right|]. left. apply Hl'; [done|]. right. by right.
  - destruct Hn as [-> Hn]. split; [done|]. refine (agree_on_weaken s _ _ _ _ Hn _). intros t Ht Hc'.
    rewrite (Hj _ _ eq_refl) in Hl'. apply Hl'; [done|]. by right.
  - refine (agree_on_weaken s _ _ _ _ Hn _). intros t Ht Hgt. apply Hl'; [done|]. right.
    destruct (Hlv _ Hc eq_refl) as [->|E]; [by left|]. destruct (bb_end i); [by left|]. by left.
Qed.

(** *** Operations that go *)
Lemma puts_other (m : mstate W) ts vs t : t ∉ ts -> regs (puts m ts vs) t = regs m t.
Proof.
  revert m vs. induction ts as [|u ts IH]; intros m vs Ht; [done|]. apply not_elem_of_cons in Ht as [Hn Ht].
  destruct vs; cbn; rewrite IH by done; cbn; unfold rset; by destruct (Z.eqb_spec t u).
Qed.

Lemma puts_world (m : mstate W) ts vs : world (puts m ts vs) = world m.
Proof. revert m vs. induction ts as [|u ts IH]; intros m vs; [done|]. destruct vs; cbn; by rewrite IH. Qed.

(** A run over [i] that leaves everything but its outputs alone. *)
Definition only_outputs (i : TCGOp) : Prop :=
  forall k m, exec_op s host k i m = Undef \/
    exists m', exec_op s host k i m = Fall m' /\ world m' = world m /\ forall t, t ∉ outputs i -> regs m' t = regs m t.

Lemma only_put i t : outputs i = [t] -> forall m v, exists m', Fall (put m t v) = Fall m' /\ world m' = world (m : mstate W) /\
  forall u, u ∉ outputs i -> regs m' u = regs m u.
Proof.
  intros -> m v. eexists. split; [done|]. split; [done|]. intros u Hu. cbn. unfold rset.
  destruct (Z.eqb_spec u t); [set_solver|done].
Qed.

Lemma writes_only_outputs op l :
  op <> op_call -> framed s (mkOp op l) -> nb_oargs (tcg_op_defs op) <> 0%nat ->
  TCG_OPF_SIDE_EFFECTS (tcg_op_defs op) = false -> only_outputs (mkOp op l).
Proof.
  intros Hc Hf Ho Hs k m.
  apply framed_eq in Hf as [El _]; [|done].
  destruct (opaque op) eqn:Hop.
  { rewrite exec_opaque_eq by done. unfold exec_opaque. cbn [opc args]. right.
    assert (effectless op = true) as He by (by destruct op).
    match goal with |- context [h_op host op ?c ?i ?w] => destruct (ho_effectless _ Hh op c i w He) as [vs ->] end.
    eexists. split; [done|]. rewrite puts_world. split; [done|]. intros t Ht. rewrite puts_other; [done|].
    by destruct op. }
  assert (forall t w v, outputs (mkOp op l) = [t] -> result w m t v = Undef \/ exists m', result w m t v = Fall m' /\
    world m' = world m /\ forall t, t ∉ outputs (mkOp op l) -> regs m' t = regs m t) as Hres.
  { intros t w v Et. destruct v; [right; by apply only_put|by left]. }
  assert (forall w lo hi l' r, outputs (mkOp op l) = [lo; hi] -> exists m', Fall (put2 w m (lo :: hi :: l') r) = Fall m' /\
    world m' = world m /\ forall t, t ∉ outputs (mkOp op l) -> regs m' t = regs m t) as Hp2.
  { intros w lo hi l' r Et. eexists. split; [done|]. split; [done|]. rewrite Et. intros t Ht. cbn. unfold rset.
    destruct (Z.eqb_spec t hi), (Z.eqb_spec t lo); set_solver. }
  destruct op; try done; try (destruct b); args_of l El; cbn [exec_op opc args];
    first [by apply Hres|right; by apply Hp2|right; by apply only_put].
Qed.

Lemma steps_gone i i' st :
  only_outputs i -> opc i' = op_nop \/ opc i' = op_nopn -> (forall t, live st t -> t ∉ outputs i) ->
  steps_to i i' st st.
Proof.
  intros Hi Hn Hl k m1 m2 Ha. destruct (Hi k m1) as [->|(m' & -> & Hw & Hr)]; [done|].
  assert (exec_op s host k i' m2 = Fall m2) as -> by (unfold exec_op; by destruct Hn as [-> | ->]).
  destruct Ha as [Ew Er]. split; [congruence|]. intros t Ht Hlt. rewrite Hr by auto. by apply Er.
Qed.
(** *** Operations narrowed to one word *)
Definition narrows (i i' : TCGOp) (keep : Z) : Prop :=
  forall k m, exists m' n', exec_op s host k i m = Fall m' /\ exec_op s host k i' m = Fall n' /\
    world m' = world n' /\ forall t, (t ∈ outputs i -> t = keep) -> regs m' t = regs n' t.

Lemma steps_narrow i i' keep after before :
  steps_to i' i' after before -> narrows i i' keep -> (forall t, live after t -> t ∈ outputs i -> t = keep) ->
  steps_to i i' after before.
Proof.
  intros Hs Hn Hl k m1 m2 Ha. destruct (Hn k m1) as (m' & n' & -> & E & Hw & Hr). specialize (Hs k m1 m2 Ha).
  rewrite E in Hs. destruct (exec_op s host k i' m2) as [n2|L n2|n2|]; try done.
  destruct Hs as [Ew Er]. split; [congruence|]. intros t Ht Hlt. rewrite Hr by auto. by apply Er.
Qed.

Lemma put2_low w (m : mstate W) lo hi l r v :
  lo <> hi -> uwrap (bits w) r = v -> forall t, (t ∈ [lo; hi] -> t = lo) ->
  regs (put2 w m (lo :: hi :: l) r) t = regs (put m lo v) t.
Proof.
  intros Hn <- t Ht. cbn. unfold rset. destruct (Z.eqb_spec t hi) as [->|]; [|done].
  by destruct Hn; rewrite Ht by set_solver.
Qed.

Lemma put2_high w (m : mstate W) lo hi l r v :
  uwrap (bits w) (r / 2 ^ bits w) = v -> forall t, (t ∈ [lo; hi] -> t = hi) ->
  regs (put2 w m (lo :: hi :: l) r) t = regs (put m hi v) t.
Proof.
  intros <- t Ht. cbn. unfold rset. destruct (Z.eqb_spec t hi) as [->|]; [done|].
  destruct (Z.eqb_spec t lo) as [->|]; [|done]. exfalso. apply n, Ht. by left.
Qed.

Lemma narrows_by i i' keep w lo hi l r v :
  outputs i = [lo; hi] -> (forall k m, exec_op s host k i m = Fall (put2 w m (lo :: hi :: l) (r m))) ->
  (forall k m, exec_op s host k i' m = Fall (put m keep (v m))) ->
  (forall m t, (t ∈ [lo; hi] -> t = keep) -> regs (put2 w m (lo :: hi :: l) (r m)) t = regs (put m keep (v m)) t) ->
  narrows i i' keep.
Proof. intros Ho E E' Hr k m. eexists _, _. rewrite Ho. split; [apply E|]. split; [apply E'|]. split; [done|]. apply Hr. Qed.

Lemma narrows_addsub op b w lo hi al ah bl bh :
  op = op_add2 w /\ b = Badd \/ op = op_sub2 w /\ b = Bsub -> lo <> hi ->
  narrows (mkOp op [lo; hi; al; ah; bl; bh]) (mkOp (op_bin b w) [lo; al; bl]) lo.
Proof.
  intros [[-> ->]|[-> ->]] Hn.
  - apply (narrows_by _ _ lo w lo hi [al; ah; bl; bh]
      (fun m => pair_of w (opnd w m al) (opnd w m ah) + pair_of w (opnd w m bl) (opnd w m bh))
      (fun m => uwrap (bits w) (opnd w m al + opnd w m bl))); try done.
    intros m. apply put2_low; [done|]. unfold pair_of, uwrap.
    rewrite <- (Z_mod_plus_full (opnd w m al + opnd w m bl) (opnd w m ah + opnd w m bh)). f_equal. ring.
  - apply (narrows_by _ _ lo w lo hi [al; ah; bl; bh]
      (fun m => pair_of w (opnd w m al) (opnd w m ah) - pair_of w (opnd w m bl) (opnd w m bh))
      (fun m => uwrap (bits w) (opnd w m al - opnd w m bl))); try done.
    intros m. apply put2_low; [done|]. unfold pair_of, uwrap.
    rewrite <- (Z_mod_plus_full (opnd w m al - opnd w m bl) (opnd w m ah - opnd w m bh)). f_equal. ring.
Qed.

(** The product of [mulu2] and [muls2]. *)
Definition product (b : binop) (w : width) (m : mstate W) (x y : Z) : Z :=
  match b with
  | Bmulsh => swrap (bits w) (opnd w m x) * swrap (bits w) (opnd w m y)
  | _ => opnd w m x * opnd w m y
  end.

Lemma exec_mul2 op b w k m lo hi x y :
  op = op_mulu2 w /\ b = Bmuluh \/ op = op_muls2 w /\ b = Bmulsh ->
  exec_op s host k (mkOp op [lo; hi; x; y]) m = Fall (put2 w m [lo; hi; x; y] (product b w m x y)).
Proof. by intros [[-> ->]|[-> ->]]. Qed.

Lemma product_low b w m x y : uwrap (bits w) (product b w m x y) = uwrap (bits w) (opnd w m x * opnd w m y).
Proof.
  pose proof (W_pos w). destruct b; try done. cbn [product].
  by rewrite <- uwrap_mul, !uwrap_swrap, uwrap_mul by lia.
Qed.

Lemma narrows_low op b w lo hi x y :
  op = op_mulu2 w /\ b = Bmuluh \/ op = op_muls2 w /\ b = Bmulsh -> lo <> hi ->
  narrows (mkOp op [lo; hi; x; y]) (mkOp (op_bin Bmul w) [lo; x; y]) lo.
Proof.
  intros Hop Hn. apply (narrows_by _ _ lo w lo hi [x; y] (fun m => product b w m x y)
    (fun m => uwrap (bits w) (opnd w m x * opnd w m y))); [by destruct Hop as [[-> _]|[-> _]]|by intros; apply exec_mul2|done|].
  intros m. apply put2_low; [done|]. apply product_low.
Qed.

Lemma narrows_high op b w lo hi x y :
  op = op_mulu2 w /\ b = Bmuluh \/ op = op_muls2 w /\ b = Bmulsh ->
  narrows (mkOp op [lo; hi; x; y]) (mkOp (op_bin b w) [hi; x; y]) hi.
Proof.
  intros Hop. apply (narrows_by _ _ hi w lo hi [x; y] (fun m => product b w m x y)
    (fun m => uwrap (bits w) (product b w m x y / 2 ^ bits w))); [by destruct Hop as [[-> _]|[-> _]]|by intros; apply exec_mul2| |].
  - intros k m. destruct Hop as [[_ ->]|[_ ->]]; [|done]. cbn. do 2 f_equal. symmetry. apply uwrap_id.
    pose proof (opnd_fits w m x) as [X0 X1]. pose proof (opnd_fits w m y) as [Y0 Y1]. split; [apply Z.div_pos; nia|].
    apply Z.div_lt_upper_bound; nia.
  - intros m. by apply put2_high.
Qed.
(** *** The body of the loop *)

(** The [nop] behind a narrowed operation takes its spare arguments. *)
Definition renopped (q q' : list la_entry) : Prop :=
  q' = q \/ exists j j' x q0, q = (j, x) :: q0 /\ q' = (j', x) :: q0 /\ opc j = op_nop /\ (opc j' = op_nop \/ opc j' = op_nopn).

(** What becomes of the operation [i] in front of [q]. *)
Definition la_steps (i : TCGOp) (q : list la_entry) (after : live_state) (r : list la_entry * live_state) : Prop :=
  exists i' x q', fst r = (i', x) :: q' /\ renopped q q' /\ steps_to i i' after (snd r) /\
    (opc i = op_set_label -> i' = i) /\ (opc i' = op_set_label -> opc i = op_set_label) /\
    forall t, valid t -> live (snd r) t -> t ∈ inputs i \/ carried t \/ (bb_end i = false /\ t ∉ outputs i /\ live after t).

Lemma set_nop_opc l n : opc (tcg_set_nop l n) = op_nop \/ opc (tcg_set_nop l n) = op_nopn.
Proof. destruct n; auto. Qed.

Lemma through_scope op l after t :
  through s (tcg_op_defs op) (outputs (mkOp op l)) after t ->
  carried t \/ (bb_end (mkOp op l) = false /\ t ∉ outputs (mkOp op l) /\ live after t).
Proof.
  unfold through, bb_end. cbn [opc]. destruct (TCG_OPF_BB_END _); [by left|]. intros [[_ ?]|[? ?]]; [by left; left|by right].
Qed.

Lemma la_same op l q after x before :
  op <> op_call -> framed s (mkOp op l) ->
  (forall t, valid t -> live before t <->
     t ∈ inputs (mkOp op l) \/ through s (tcg_op_defs op) (outputs (mkOp op l)) after t) ->
  (bb_end (mkOp op l) = true -> forall t, valid t -> live after t -> carried t) ->
  la_steps (mkOp op l) q after ((mkOp op l, x) :: q, before).
Proof.
  intros Hc Hf Hl Hb. exists (mkOp op l), x, q. cbn [fst snd]. split; [done|]. split; [by left|].
  split; [by apply steps_same|]. split; [done|]. split; [done|].
  intros t Ht Hlt. apply Hl in Hlt as [?|Hlt%through_scope]; [by left|by right|done].
Qed.

Lemma la_kept op l q after :
  op <> op_call -> framed s (mkOp op l) ->
  (bb_end (mkOp op l) = true -> forall t, valid t -> live after t -> carried t) ->
  la_steps (mkOp op l) q after
    (do_not_remove s op (nb_oargs (tcg_op_defs op)) (nb_iargs (tcg_op_defs op)) (tcg_op_defs op) l q after).
Proof.
  intros Hc Hf Hb.
  destruct (do_not_remove_spec s Hg op (nb_oargs (tcg_op_defs op)) (nb_iargs (tcg_op_defs op)) (tcg_op_defs op) l q after)
    as (x & st & -> & Hl).
  apply la_same; try done. intros t Ht. rewrite Hl by done. by destruct op.
Qed.

Lemma la_removed op l q after l' n :
  only_outputs (mkOp op l) -> op <> op_set_label -> bb_end (mkOp op l) = false ->
  forallb (unused after) (outputs (mkOp op l)) = true ->
  la_steps (mkOp op l) q after ((tcg_set_nop l' n, None) :: q, after).
Proof.
  intros Ho Hn Hb Hu. pose proof (unused_all _ _ Hu) as Hl. exists (tcg_set_nop l' n), None, q. cbn [fst snd].
  split; [done|]. split; [by left|]. split; [apply steps_gone; [done|apply set_nop_opc|done]|].
  split; [done|]. split; [by destruct (set_nop_opc l' n) as [-> | ->]|].
  intros t Ht Hlt. right; right. auto.
Qed.

Lemma la_default_ok op l q after :
  op <> op_call -> framed s (mkOp op l) ->
  (bb_end (mkOp op l) = true -> forall t, valid t -> live after t -> carried t) ->
  la_steps (mkOp op l) q after (la_default s op l q after).
Proof.
  intros Hc Hf Hb. unfold la_default.
  destruct (_ && _ && _) eqn:E; [|by apply la_kept].
  apply andb_true_iff in E as [[Hs%negb_true_iff Ho%negb_true_iff%Nat.eqb_neq]%andb_true_iff Hu].
  apply la_removed.
  - by apply writes_only_outputs.
  - by intros ->.
  - destruct op; try done; by destruct b.
  - by destruct op.
Qed.

(** The narrowed operation [op] in the place of [i]. *)
Lemma la_single i op def keep x y rest q after :
  (exists j e q0, q = (j, e) :: q0 /\ opc j = op_nop) ->
  op <> op_call -> op <> op_set_label -> nb_oargs (tcg_op_defs op) = 1%nat -> nb_iargs (tcg_op_defs op) = 2%nat ->
  nb_cargs (tcg_op_defs op) = 0%nat -> bb_end (mkOp op []) = false -> TCG_OPF_SIDE_EFFECTS (tcg_op_defs op) = false ->
  TCG_OPF_BB_END def = false -> TCG_OPF_SIDE_EFFECTS def = false ->
  bb_end i = false -> opc i <> op_set_label -> Forall valid [keep; x; y] -> x ∈ inputs i -> y ∈ inputs i ->
  narrows i (mkOp op [keep; x; y]) keep -> (forall t, live after t -> t ∈ outputs i -> t = keep) ->
  exists r, single_word s op def [keep; x; y] rest q after = Ok r /\ la_steps i q after r.
Proof.
  intros (j & e & q0 & -> & Ej) Hc Hl No Ni Nc Nb Ns Db Ds Hb Hil Hv Hx Hy Hn Hk. unfold single_word.
  rewrite decide_True by done. eexists. split; [done|].
  destruct (do_not_remove_spec s Hg op 1 2 def [keep; x; y] ((tcg_set_nop rest (length rest), e) :: q0) after)
    as (d & before & -> & Hlive).
  assert (inputs (mkOp op [keep; x; y]) = [x; y] /\ outputs (mkOp op [keep; x; y]) = [keep]) as [Ei Eo].
  { rewrite inputs_eq, outputs_eq by done. unfold iargs, oargs. by rewrite Ni, No. }
  assert (framed s (mkOp op [keep; x; y])) as Hf.
  { assert (length [keep; x; y] = nb_args (tcg_op_defs op)) as El by (unfold nb_args; by rewrite Ni, No, Nc).
    apply framed_eq; [done|]. rewrite Ei, Eo. split; [done|]. cbn [app]. rewrite !Forall_cons in Hv |- *. tauto. }
  assert (forall t, valid t -> live before t <-> t ∈ [x; y] \/ (t ∉ [keep] /\ live after t)) as Hlive'.
  { intros t Ht. rewrite Hlive by done. unfold through. rewrite Db, Ds. cbn [take drop]. intuition congruence. }
  exists (mkOp op [keep; x; y]), (Some d), ((tcg_set_nop rest (length rest), e) :: q0). cbn [fst snd opc].
  split; [done|]. split; [right; exists j, (tcg_set_nop rest (length rest)), e, q0; auto using set_nop_opc|].
  split; [|split; [done|split; [done|]]].
  - apply (steps_narrow _ _ keep); [|done..]. apply steps_same; [done..| |by change (bb_end (mkOp op [])= true -> forall t, valid t -> live after t -> carried t); rewrite Nb].
    intros t Ht. rewrite Hlive' by done. rewrite Ei, Eo. unfold through. change (TCG_OPF_BB_END (tcg_op_defs op)) with (bb_end (mkOp op [])).
    rewrite Nb, Ns. intuition congruence.
  - intros t Ht [Ht'|[Hk' Hl']]%Hlive'; [|right; right; repeat split; try done|done].
    + left. apply elem_of_cons in Ht' as [->|Ht']; [done|]. by apply list_elem_of_singleton in Ht' as ->.
    + intros Hto. apply Hk'. rewrite (Hk t) by done. by left.
Qed.
Definition nop_next (q : list la_entry) : Prop := exists j e q0, q = (j, e) :: q0 /\ opc j = op_nop.

(** The two outputs of a double-word operation. *)
Lemma unused_pair after lo hi : unused after lo = true -> unused after hi = true ->
  forallb (unused after) [lo; hi] = true.
Proof. intros E1 E2. cbn. by rewrite E1, E2. Qed.

Lemma one_used after lo hi : unused after hi = true -> forall t, live after t -> t ∈ [lo; hi] -> t = lo.
Proof.
  intros E t Hl Ht. apply elem_of_cons in Ht as [?|Ht]; [done|]. apply list_elem_of_singleton in Ht as ->.
  by apply unused_live in E.
Qed.

Lemma used_neq after lo hi : unused after hi = true -> unused after lo = false -> lo <> hi.
Proof. congruence. Qed.

Lemma framed_in op l t : op <> op_call -> framed s (mkOp op l) -> t ∈ inputs (mkOp op l) ++ outputs (mkOp op l) -> valid t.
Proof. intros Hc [_ Hf]%framed_eq Ht; [|done]. by apply (proj1 (Forall_forall _ _) Hf). Qed.

Lemma la_addsub2_ok op b w l q after :
  op = op_add2 w /\ b = Badd \/ op = op_sub2 w /\ b = Bsub -> framed s (mkOp op l) -> nop_next q ->
  exists r, la_addsub2 s op (op_bin b w) l q after = Ok r /\ la_steps (mkOp op l) q after r.
Proof.
  intros Hop Hf Hq.
  assert (op <> op_call /\ nb_oargs (tcg_op_defs op) = 2%nat /\ nb_iargs (tcg_op_defs op) = 4%nat /\ bb_end (mkOp op l) = false /\
    nb_args (tcg_op_defs op) = 6%nat /\ TCG_OPF_SIDE_EFFECTS (tcg_op_defs op) = false /\ op <> op_set_label) as (Hc & No & Ni & Nb & El & Hs & Hl)
    by (by destruct Hop as [[-> _]|[-> _]]).
  unfold la_addsub2. destruct (unused after (arg l 1)) eqn:E1.
  2:{ eexists. split; [done|]. pose proof (la_kept op l q after Hc Hf) as Hk. rewrite No, Ni, Nb in Hk. by apply Hk. }
  pose proof (proj1 (framed_eq s op l Hc) Hf) as [El' _]. rewrite El in El'. args_of l El'.
  assert (forall x, outputs (mkOp op (z :: z0 :: x)) = [z; z0]) as Eo
    by (intros; rewrite outputs_eq by done; unfold oargs; by rewrite No).
  assert (inputs (mkOp op [z; z0; z1; z2; z3; z4]) = [z1; z2; z3; z4]) as Ei
    by (rewrite inputs_eq by done; unfold iargs, oargs; by rewrite Ni, No).
  change (arg _ 1) with z0 in E1. cbn [arg nth drop]. unfold arg. cbn [nth].
  destruct (unused after z) eqn:E0.
  { eexists. split; [done|]. apply la_removed; [|done..|rewrite Eo; by apply unused_pair].
    apply writes_only_outputs; [done..|by rewrite No|done]. }
  assert (forall t, t ∈ [z; z1; z3] -> valid t) as Hv
    by (intros t Ht; apply (framed_in op [z; z0; z1; z2; z3; z4]); [done..|]; rewrite Ei, Eo; set_solver).
  apply la_single; try done; try (by destruct Hop as [[-> ->]|[-> ->]]).
  - by apply Forall_forall.
  - rewrite Ei. set_solver.
  - rewrite Ei. set_solver.
  - apply narrows_addsub; [done|]. by apply (used_neq after).
  - rewrite Eo. by apply one_used.
Qed.

Lemma la_mul2_ok op b w l q after :
  op = op_mulu2 w /\ b = Bmuluh \/ op = op_muls2 w /\ b = Bmulsh -> framed s (mkOp op l) -> nop_next q ->
  exists r, la_mul2 s has_high op b w l q after = Ok r /\ la_steps (mkOp op l) q after r.
Proof.
  intros Hop Hf Hq.
  assert (op <> op_call /\ nb_oargs (tcg_op_defs op) = 2%nat /\ nb_iargs (tcg_op_defs op) = 2%nat /\ bb_end (mkOp op l) = false /\
    nb_args (tcg_op_defs op) = 4%nat /\ TCG_OPF_SIDE_EFFECTS (tcg_op_defs op) = false /\ op <> op_set_label) as (Hc & No & Ni & Nb & El & Hs & Hl)
    by (by destruct Hop as [[-> _]|[-> _]]).
  assert (la_steps (mkOp op l) q after (do_not_remove s op 2 2 (tcg_op_defs op) l q after)) as Hkeep.
  { pose proof (la_kept op l q after Hc Hf) as Hk. rewrite No, Ni, Nb in Hk. by apply Hk. }
  unfold la_mul2. pose proof (proj1 (framed_eq s op l Hc) Hf) as [El' _]. rewrite El in El'. args_of l El'.
  assert (outputs (mkOp op [z; z0; z1; z2]) = [z; z0]) as Eo
    by (rewrite outputs_eq by done; unfold oargs; by rewrite No).
  assert (inputs (mkOp op [z; z0; z1; z2]) = [z1; z2]) as Ei
    by (rewrite inputs_eq by done; unfold iargs, oargs; by rewrite Ni, No).
  assert (forall t, t ∈ [z; z0; z1; z2] -> valid t) as Hv
    by (intros t Ht; apply (framed_in op [z; z0; z1; z2]); [done..|]; rewrite Ei, Eo; set_solver).
  unfold arg. cbn [nth drop]. destruct (unused after z0) eqn:E1, (unused after z) eqn:E0.
  - eexists. split; [done|]. apply la_removed; [|done..|rewrite Eo; by apply unused_pair].
    apply writes_only_outputs; [done..|by rewrite No|done].
  - apply la_single; try done; try (by destruct Hop as [[-> ->]|[-> ->]]).
    + apply Forall_forall. set_solver.
    + rewrite Ei. set_solver.
    + rewrite Ei. set_solver.
    + apply (narrows_low op b); [done|]. by apply (used_neq after).
    + rewrite Eo. by apply one_used.
  - destruct (has_high b w); [|by eexists]. apply la_single; try done; try (by destruct Hop as [[-> ->]|[-> ->]]).
    + apply Forall_forall. set_solver.
    + rewrite Ei. set_solver.
    + rewrite Ei. set_solver.
    + by apply narrows_high.
    + rewrite Eo. intros t Hlt Ht. apply (one_used after z0 z); [done..|]. set_solver.
  - destruct (has_high b w); by eexists.
Qed.
(** *** Calls *)
Lemma la_call_ins_live i ts da st t :
  Forall valid ts -> live (la_call_ins i ts da st).2 t <-> t ∈ ts \/ live st t.
Proof.
  intros Hv. assert (la_call_ins i ts da st = la_ins i ts da st) as ->; [|apply la_ins_live].
  revert i da st. induction Hv as [|u ts Hu _ IH]; intros i da st; [done|]. cbn. rewrite <- IH.
  destruct (Z.eqb_spec u TCG_CALL_DUMMY_ARG) as [->|]; [|done].
  destruct Hu as [_ Hu]. unfold TCG_MAX_TEMPS in *. change TCG_CALL_DUMMY_ARG with (2 ^ 64 - 1) in Hu. lia.
Qed.

Lemma kill_live st t : live (kill_globals s (sync_globals s st)) t <-> live (sync_globals s st) t.
Proof.
  unfold live. cbn. destruct (decide (0 <= t < nb_globals s)).
  - rewrite !memset_in by done. intuition congruence.
  - by rewrite !memset_out by done.
Qed.

Lemma writes_reads flags : writes_globals flags = true -> reads_globals flags = true.
Proof. unfold writes_globals. by intros [? _]%andb_true_iff. Qed.

Lemma global_elem t : t ∈ globals s <-> is_global t.
Proof. unfold globals. rewrite elem_of_seqZ. unfold is_global. lia. Qed.

Lemma call_ins_valid l : framed s (mkOp op_call l) -> Forall valid (call_ins l).
Proof.
  intros [[Hlen Hv] _]. cbn [args] in *. unfold call_args in *. cbn [fst snd] in *.
  apply take_args_valid; [lia|]. intros j Hj. apply Hv. lia.
Qed.

(** A call that stays. *)
Definition call_live (l : list Z) (after before : live_state) : Prop :=
  forall t, valid t -> live before t <->
    t ∈ call_ins l \/ (reads_globals (call_flags l) = true /\ is_global t) \/ (t ∉ call_outs l /\ live after t).

Lemma steps_call l after before :
  framed s (mkOp op_call l) -> call_live l after before -> steps_to (mkOp op_call l) (mkOp op_call l) after before.
Proof.
  intros Hf Hl k m1 m2 Ha.
  pose proof (call_ins_valid l Hf) as Hin.
  pose proof (call_frame s host Hg (live before) l k m1 m2 Hf Ha) as Hn.
  specialize (Hn ltac:(intros t Ht; apply Hl; [by apply (proj1 (Forall_forall _ _) Hin)|by left])
    ltac:(intros Hr t Ht; apply Hl; [by apply (proj1 (Forall_forall _ _) (globals_valid s Hg))|];
          right; left; split; [done|by apply global_elem])).
  destruct (exec_op s host k (mkOp op_call l) m1) as [n1|L n1|n1|] eqn:E1, (exec_op s host k (mkOp op_call l) m2) as [n2|L2 n2|n2|];
    try done; cbn in Hn |- *.
  - refine (agree_on_weaken s _ _ _ _ Hn _). intros t Ht Hlt.
    destruct (decide (t ∈ call_outs l)); [by right|]. left. apply Hl; auto.
  - unfold exec_op, exec_call in E1. cbn [opc args] in E1. by case_match.
  - refine (agree_on_weaken s _ _ _ _ Hn _). intros t Ht Hgt. apply Hl; [done|]. right; left. split; [|done].
    unfold exec_op, exec_call in E1. cbn [opc args] in E1. destruct (reads_globals (call_flags l)) eqn:Er; [done|].
    match type of E1 with context [h_call host ?f ?i ?g ?w] => destruct (ho_returns _ Hh f i g w Er) as (? & ? & ? & E) end.
    by rewrite E in E1.
Qed.

Lemma call_only_outputs l :
  framed s (mkOp op_call l) -> nz (Z.land (call_flags l) TCG_CALL_NO_SIDE_EFFECTS) = true -> only_outputs (mkOp op_call l).
Proof.
  intros [_ Hf] Hp k m. cbn [args] in Hf. specialize (Hf Hp). right. unfold exec_op, exec_call. cbn [opc args].
  match goal with |- context [h_call host ?f ?i ?g ?w] => destruct (ho_pure _ Hh f i g w Hp) as (vs & gs & ->) end.
  rewrite Hf. eexists. split; [done|]. unfold puts_typed. rewrite puts_world. split; [done|].
  intros t Ht. by rewrite puts_other.
Qed.

Lemma la_call_ok l q after : framed s (mkOp op_call l) -> la_steps (mkOp op_call l) q after (la_call s l q after).
Proof.
  intros Hf. unfold la_call. destruct (_ && _) eqn:E.
  { apply andb_true_iff in E as [E1 E2]. apply la_removed; try done. by apply call_only_outputs. }
  pose proof (call_ins_valid l Hf) as Hin.
  pose proof (fun t => la_outs_live 0 (call_outs l) 0 0 after t) as Ho.
  destruct (la_outs 0 (call_outs l) 0 0 after) as [[da sa] st1]. cbn [snd] in Ho.
  set (st3 := if negb (nz (Z.land (call_flags l) (Z.lor _ _))) then _ else _).
  pose proof (fun t => la_call_ins_live (length (call_outs l)) (call_ins l) da st3 t Hin) as Hi.
  destruct (la_call_ins _ _ _ _) as [da' st4]. cbn [snd] in Hi.
  assert (forall t, live st3 t <-> (reads_globals (call_flags l) = true /\ is_global t) \/ live st1 t) as H3.
  { intros t. subst st3. rewrite (Z.lor_comm TCG_CALL_NO_WRITE_GLOBALS), <- (call_flag_bits s Hg).
    fold (reads_globals (call_flags l)). pose proof (writes_reads (call_flags l)) as Hwr.
    destruct (writes_globals _), (reads_globals _); try (by specialize (Hwr eq_refl)); rewrite ?kill_live, ?(sync_live s Hg); intuition congruence. }
  assert (call_live l after st4) as Hl by (intros t Ht; rewrite Hi, H3, Ho; tauto).
  exists (mkOp op_call l), (Some (da', sa)), q. cbn [fst snd]. split; [done|]. split; [by left|].
  split; [by apply steps_call|]. split; [done|]. split; [done|].
  intros t Ht [?|[[_ ?]|[? ?]]]%Hl; [by left|by right; left; left|by right; right|done].
Qed.

(** *** Any operation *)
Lemma la_skip i q after :
  i = mkOp op_debug_insn_start (args i) \/ i = mkOp op_nopn (args i) -> framed s i ->
  la_steps i q after ((i, None) :: q, after).
Proof.
  intros Hi Hf. destruct i as [op l]. cbn [args] in Hi.
  assert (op = op_debug_insn_start \/ op = op_nopn) as Ho by (destruct Hi as [[= ->]|[= ->]]; auto).
  apply la_same; [by destruct Ho as [-> | ->]|done| |by destruct Ho as [-> | ->]].
  intros t Ht. destruct Ho as [-> | ->]; unfold inputs, outputs, through; cbn;
    rewrite !elem_of_nil; intuition congruence.
Qed.

Lemma la_op_ok i q after :
  framed s i -> (doubles (opc i) = true -> nop_next q) ->
  (bb_end i = true -> forall t, valid t -> live after t -> carried t) ->
  exists r, la_op s has_high i q after = Ok r /\ la_steps i q after r.
Proof.
  intros Hf Hq Hb. destruct i as [op l]. cbn [opc args] in *. unfold la_op. cbn [opc args].
  assert (op <> op_call -> exists r, Ok (la_default s op l q after) = Ok r /\ la_steps (mkOp op l) q after r) as Hd
    by (intros Hc; eexists; split; [done|]; by apply la_default_ok).
  destruct op; try (by apply Hd); try (by apply la_addsub2_ok; auto); try (by apply la_mul2_ok; auto); eexists; (split; [done|]).
  - by apply la_skip; auto.
  - apply la_same; [done..| |done]. intros t Ht. unfold inputs, outputs, through. cbn.
    apply framed_eq in Hf as [El _]; [|done]. args_of l El. cbn. unfold live, bset. cbn. unfold arg. cbn.
    rewrite elem_of_nil, list_elem_of_singleton. destruct (Z.eqb_spec t z) as [->|]; intuition congruence.
  - by apply la_call_ok.
  - by apply la_skip; auto.
Qed.
(** *** The loop *)

(** A block and what the pass has made of it, position by position; the state
    in front of the block. *)
Inductive lives : list TCGOp -> list la_entry -> live_state -> Prop :=
| lives_end st : (forall t, valid t -> live st t <-> is_global t) -> lives [] [] st
| lives_cons i p i' x q after before :
    lives p q after -> steps_to i i' after before ->
    (opc i = op_set_label -> i' = i) -> (opc i' = op_set_label -> opc i = op_set_label) ->
    (bb_end i = true -> forall t, valid t -> live after t -> carried t) ->
    lives (i :: p) ((i', x) :: q) before.

Lemma exec_nops j j' k m :
  opc j = op_nop -> opc j' = op_nop \/ opc j' = op_nopn -> exec_op s host k j' m = exec_op s host k j m.
Proof. intros E [E' | E']; unfold exec_op; by rewrite E, E'. Qed.

Lemma lives_renopped p q q' st : lives p q st -> renopped q q' -> lives p q' st.
Proof.
  intros H [->|(j & j' & x & q0 & -> & -> & Ej & Ej')]; [done|].
  inversion H as [|i p0 ? ? ? after ? Hl Hs L1 L2 Hb]; subst. apply (lives_cons _ _ _ _ _ after); try done.
  - intros k m1 m2 Ha. rewrite (exec_nops j j' k m2 Ej Ej'). by apply Hs.
  - intros E. specialize (L1 E). congruence.
  - intros E. by destruct Ej' as [E' | E']; rewrite E' in E.
Qed.

Lemma lives_drop p q st n : lives p q st -> exists st', lives (drop n p) (drop n q) st'.
Proof. intros H. revert n. induction H; intros [|n]; cbn; eauto using lives. Qed.

(** Labels stay where they are; behind one only what a block hands on is live. *)
Lemma lives_label p q st label :
  lives p q st ->
  label_pos (map fst q) label = label_pos p label /\
  forall k, label_pos p label = Some k -> exists st', lives (drop k p) (drop k q) st' /\
    forall t, valid t -> live st' t -> carried t.
Proof.
  induction 1 as [|i p i' x q after before Hl [IH IHk] Hs L1 L2 Hb]; [done|]. cbn.
  destruct (decide (opc i = op_set_label /\ arg (args i) 0 = label)) as [[E1 E2]|Hn].
  - rewrite (L1 E1), decide_True by done. split; [done|]. intros k [= <-]. exists after. split; [done|].
    apply Hb. unfold bb_end. by rewrite E1.
  - rewrite decide_False.
    + rewrite IH. split; [done|]. intros k Hk. destruct (label_pos p label) as [k'|]; [|done].
      injection Hk as <-. by apply IHk.
    + intros [E1 E2]. specialize (L2 E1). rewrite (L1 L2) in E2. by apply Hn.
Qed.

(** What is seen of a run from outside the block. *)
Definition behaves_live (b1 b2 : behaviour (W := W)) : Prop :=
  match b1, b2 with
  | Undefined, _ => True
  | Left m1, Left m2 => agree_on is_global m1 m2
  | FellOff m1, FellOff m2 => agree_on is_global m1 m2
  | Running, Running => True
  | _, _ => False
  end.

Lemma run_lives p q st0 :
  lives p q st0 -> forall fuel k pc st m1 m2, lives (drop pc p) (drop pc q) st -> agree_on (live st) m1 m2 ->
    behaves_live (run s host fuel k p pc m1) (run s host fuel k (map fst q) pc m2).
Proof.
  intros H0 fuel. induction fuel as [|fuel IH]; intros k pc st m1 m2 Hl Ha; [done|].
  rewrite !run_nth. assert (drop pc (map fst q) = map fst (drop pc q)) as -> by apply skipn_map.
  destruct (drop pc p) as [|i p1] eqn:Ep.
  { destruct (drop pc q) as [|e q1]; inversion Hl as [? Hg'|]; subst. cbn. refine (agree_on_weaken s _ _ _ _ Ha _). intros t Ht ?. by apply Hg'. }
  destruct (drop pc q) as [|e q1] eqn:Eq; inversion Hl as [|? ? i' x ? after ? Hl1 Hs L1 L2 Hb]; subst. cbn [map fst].
  specialize (Hs (k pc) m1 m2 Ha). apply drop_cons in Ep, Eq.
  destruct (exec_op s host (k pc) i m1) as [n1|L n1|n1|], (exec_op s host (k pc) i' m2) as [n2|L' n2|n2|]; try done.
  - apply (IH k _ after); [by rewrite Ep, Eq|done].
  - destruct Hs as [<- Hs]. destruct (lives_label p q st0 L H0) as [-> Hk].
    destruct (label_pos p L) as [pc'|]; [|done]. destruct (Hk pc' eq_refl) as (st' & Hl' & Hc').
    apply (IH k _ st'); [done|]. by refine (agree_on_weaken s _ _ _ _ Hs _).
Qed.

Lemma la_op_nop i q st : opc i = op_nop -> la_op s has_high i q st = Ok ((mkOp op_nop (args i), Some (0, 0)) :: q, st).
Proof. intros E. unfold la_op. rewrite E. by destruct st. Qed.

Lemma la_loop_ok p st0 D :
  Forall (framed s) p -> doubles_ok p = true -> scoped s D p = true ->
  exists q st, la_loop s has_high p (tcg_la_func_end s st0) = Ok (q, st) /\ lives p q st /\
    (option_map opc (head p) = Some op_nop -> nop_next q) /\
    forall t, valid t -> live st t -> t ∈ D \/ carried t.
Proof.
  intros Hf. revert D. induction Hf as [|i p Hi Hf IH]; intros D Hd Hsc; cbn [la_loop].
  - eexists _, _. split; [done|]. split; [|split; [done|]].
    + apply lives_end. intros t Ht. by apply func_end_live.
    + intros t Ht Hl. right; left. by apply (func_end_live s Hg st0).
  - cbn in Hd, Hsc. apply andb_true_iff in Hd as [Hd1 Hd2], Hsc as [Hs1 Hs2].
    destruct (IH _ Hd2 Hs2) as (q & after & -> & Hl & Hq & Hlive). cbn [obind fst snd].
    assert (bb_end i = true -> forall t, valid t -> live after t -> carried t) as Hb.
    { intros Eb t Ht Hlt. rewrite Eb in Hlive. by destruct (Hlive t Ht Hlt) as [?%elem_of_nil|]. }
    assert (doubles (opc i) = true -> nop_next q) as Hnop.
    { intros E. rewrite E in Hd1. by apply bool_decide_eq_true in Hd1; apply Hq. }
    destruct (la_op_ok i q after Hi Hnop Hb) as ([r before] & E & (i' & x & q' & Er & Hr & Hst & L1 & L2 & Hscope)).
    cbn [fst snd] in *. subst r. exists ((i', x) :: q'), before. split; [done|]. split; [|split].
    + apply (lives_cons _ _ _ _ _ after); try done. by apply (lives_renopped p q).
    + cbn. intros [= Ei]. rewrite la_op_nop in E by done. injection E as <- _ <- _.
      by exists (mkOp op_nop (args i)), x, q.
    + intros t Ht Hlt. destruct (Hscope t Ht Hlt) as [Hin|[?|(Eb & Ho & Hla)]].
      * apply visible_spec, (proj1 (forallb_forall _ _) Hs1), list_elem_of_In, Hin.
      * by right.
      * rewrite Eb in Hlive. destruct (Hlive t Ht Hla) as [[?|?]%elem_of_app|?]; [done|by left|by right].
Qed.
End step.

(** ** The bits of [op_dead_args] and [op_sync_args] *)
Section bits.

Lemma mark_spec w (b : bool) x i :
  Z.of_nat i < w -> fits w x ->
  let x' := if b then uwrap w (Z.lor x (bit (Z.of_nat i))) else x in
  fits w x' /\ forall j, Z.testbit x' (Z.of_nat j) = (b && bool_decide (j = i)) || Z.testbit x (Z.of_nat j).
Proof.
  intros Hi Hx. destruct b; cbn zeta; [|done].
  assert (fits w (Z.lor x (bit (Z.of_nat i)))) as Hf by (apply fits_lor; [lia|done|apply fits_bit; lia]).
  rewrite uwrap_id by done. split; [done|]. intros j. rewrite Z.lor_spec, bit_spec, orb_comm by lia. f_equal. cbn.
  destruct (Z.eqb_spec (Z.of_nat i) (Z.of_nat j)); [by rewrite bool_decide_true by lia|by rewrite bool_decide_false by lia].
Qed.

Lemma arg_take n l j : (j < n)%nat -> arg (take n l) j = arg l j.
Proof. intros Hj. unfold arg. by rewrite !nth_lookup, lookup_take_lt. Qed.
Lemma arg_drop n l j : arg (drop n l) j = arg l (n + j).
Proof. unfold arg. rewrite !nth_lookup. by rewrite lookup_drop. Qed.

(** An input's bit: the first to name a temporary that is dead behind it. *)
Lemma la_ins_bits i ts da st :
  (i + length ts <= 16)%nat -> fits 16 da ->
  (forall j, (j < i)%nat -> Z.testbit (la_ins i ts da st).1 (Z.of_nat j) = Z.testbit da (Z.of_nat j)) /\
  forall k, (k < length ts)%nat -> Z.testbit (la_ins i ts da st).1 (Z.of_nat (i + k)) =
    Z.testbit da (Z.of_nat (i + k)) || (dead_temps st (arg ts k) && bool_decide (arg ts k ∉ take k ts)).
Proof.
  revert i da st. induction ts as [|t ts IH]; intros i da st Hl Hd; cbn [la_ins length] in *; [split; [done|lia]|].
  destruct (mark_spec 16 (dead_temps st t) da i ltac:(lia) Hd) as [Fd Md].
  fold (mark16 (dead_temps st t) da i) in Fd, Md.
  destruct (IH (S i) _ (mkLive (bset (dead_temps st) t false) (mem_temps st)) ltac:(lia) Fd) as [Ha Hb]. split.
  - intros j Hj. rewrite Ha, Md by lia. rewrite bool_decide_false by lia. by rewrite andb_false_r.
  - intros [|k] Hk.
    + rewrite Nat.add_0_r, Ha, Md by lia. rewrite bool_decide_true, andb_true_r by done. cbn.
      rewrite bool_decide_true by apply not_elem_of_nil. by rewrite andb_true_r, orb_comm.
    + replace (i + S k)%nat with (S i + k)%nat by lia. rewrite Hb, Md by lia.
      rewrite (bool_decide_false (S i + k = i)%nat), andb_false_r by lia. cbn [orb dead_temps]. f_equal.
      change (arg (t :: ts) (S k)) with (arg ts k). cbn [take].
      unfold bset. destruct (Z.eqb_spec (arg ts k) t) as [->|Hn].
      * rewrite (bool_decide_false (t ∉ t :: take k ts)); [by rewrite andb_false_r|]. intros H. apply H. by left.
      * f_equal. apply bool_decide_ext. rewrite not_elem_of_cons. tauto.
Qed.

(** An output's bits: dead behind, or written twice; wanted in memory behind. *)
Lemma la_outs_bits i ts da sa st :
  (i + length ts <= 8)%nat -> fits 16 da -> fits 8 sa ->
  fits 16 (la_outs i ts da sa st).1.1 /\
  (forall j, (j < i \/ i + length ts <= j)%nat -> Z.testbit (la_outs i ts da sa st).1.1 (Z.of_nat j) = Z.testbit da (Z.of_nat j) /\
     Z.testbit (la_outs i ts da sa st).1.2 (Z.of_nat j) = Z.testbit sa (Z.of_nat j)) /\
  (forall k, (k < length ts)%nat ->
     Z.testbit (la_outs i ts da sa st).1.1 (Z.of_nat (i + k)) =
       Z.testbit da (Z.of_nat (i + k)) || (dead_temps st (arg ts k) || bool_decide (arg ts k ∈ take k ts)) /\
     Z.testbit (la_outs i ts da sa st).1.2 (Z.of_nat (i + k)) =
       Z.testbit sa (Z.of_nat (i + k)) || (mem_temps st (arg ts k) && bool_decide (arg ts k ∉ take k ts))).
Proof.
  revert i da sa st. induction ts as [|t ts IH]; intros i da sa st Hl Hd Hs; cbn [la_outs length] in *; [split; [done|split; [done|lia]]|].
  destruct (mark_spec 16 (dead_temps st t) da i ltac:(lia) Hd) as [Fd Md].
  destruct (mark_spec 8 (mem_temps st t) sa i ltac:(lia) Hs) as [Fs Ms].
  fold (mark16 (dead_temps st t) da i) in Fd, Md. fold (mark8 (mem_temps st t) sa i) in Fs, Ms.
  destruct (IH (S i) _ _ (mkLive (bset (dead_temps st) t true) (bset (mem_temps st) t false)) ltac:(lia) Fd Fs) as (Hf & Ha & Hb).
  split; [done|]. split.
  - intros j Hj. destruct (Ha j ltac:(lia)) as [-> ->]. rewrite Md, Ms, !bool_decide_false by lia. by rewrite !andb_false_r.
  - intros [|k] Hk.
    + rewrite Nat.add_0_r. destruct (Ha i ltac:(lia)) as [-> ->]. rewrite Md, Ms, !(bool_decide_true (i = i)) by done.
      cbn. rewrite (bool_decide_false (t ∈ [])), (bool_decide_true (t ∉ [])) by apply not_elem_of_nil.
      by rewrite !andb_true_r, orb_false_r, !(orb_comm (Z.testbit _ _)).
    + replace (i + S k)%nat with (S i + k)%nat by lia. destruct (Hb k ltac:(lia)) as [-> ->]. rewrite Md, Ms.
      rewrite !(bool_decide_false (S i + k = i)%nat), !andb_false_r by lia. cbn [orb dead_temps mem_temps].
      change (arg (t :: ts) (S k)) with (arg ts k). cbn [take]. unfold bset. destruct (Z.eqb_spec (arg ts k) t) as [->|Hn].
      * assert (t ∈ t :: take k ts) by by left. rewrite (bool_decide_true (t ∈ t :: _)), (bool_decide_false (t ∉ t :: _)) by tauto.
        split; [by rewrite (orb_true_r (dead_temps st t))|by rewrite andb_false_r].
      * split; f_equal; f_equal; apply bool_decide_ext; [rewrite elem_of_cons|rewrite not_elem_of_cons]; tauto.
Qed.

Lemma la_outs_dead i ts da sa st t : dead_temps (la_outs i ts da sa st).2 t = bool_decide (t ∈ ts) || dead_temps st t.
Proof.
  revert i da sa st. induction ts as [|u ts IH]; intros i da sa st; cbn [la_outs]; [done|]. rewrite IH. cbn. unfold bset.
  destruct (Z.eqb_spec t u) as [->|].
  - rewrite (bool_decide_true (u ∈ u :: ts)) by (by left). by rewrite orb_true_r.
  - f_equal. apply bool_decide_ext. rewrite elem_of_cons. tauto.
Qed.
End bits.

(** ** The theorems *)

(** A block the pass may be given. *)
Record live_ok (s : TCGContext) (p : list TCGOp) : Prop := {
  lo_globals : 0 <= nb_globals s <= nb_temps s;
  lo_temps : nb_temps s <= TCG_MAX_TEMPS;
  lo_ops : Forall (framed s) p;
  lo_doubles : doubles_ok p = true;
  lo_scoped : scoped s [] p = true;
}.

Definition quiet_host : Host unit := mkHost (fun _ _ _ w => OContinue [] w) (fun _ _ _ w => CReturn [] [] w).
Lemma quiet_host_ok : host_ok quiet_host.
Proof. split; intros; eexists; eauto. Qed.

Lemma lives_length {W} s (host : Host W) p q st : lives s host p q st -> length q = length p.
Proof. induction 1; cbn; lia. Qed.

(** C7: The liveness pass goes through every block whose temporaries are
    written in the basic block that reads them and whose double-word operations
    have a [nop] behind them, and leaves a block as long.  That block runs in
    step with the given one: from states that agree on the globals, the local
    temporaries and the world, over every host that keeps its flags' promises
    and under every choice of the register allocator, it leaves, falls off or
    keeps running when the given block does, with the same world and the same
    globals. *)
Theorem tcg_liveness_correct (s : TCGContext) has_high st0 p :
  live_ok s p ->
  exists q, tcg_liveness_analysis s has_high st0 p = Ok q /\ length q = length p /\
    forall W (host : Host W) (m1 m2 : mstate W) fuel k, host_ok host -> agree_on s (carried s) m1 m2 ->
      behaves_live s (run s host fuel k p 0 m1) (run s host fuel k (map fst q) 0 m2).
Proof.
  intros [Hg Hm Hf Hd Hs].
  destruct (la_loop_ok s quiet_host has_high Hg Hm quiet_host_ok p st0 [] Hf Hd Hs) as (q & st & E & Hl & _).
  exists q. unfold tcg_liveness_analysis. rewrite E. split; [done|]. split; [by apply (lives_length s quiet_host p q st)|].
  intros W host m1 m2 fuel k Hh Ha.
  destruct (la_loop_ok s host has_high Hg Hm Hh p st0 [] Hf Hd Hs) as (q' & st' & E' & Hl' & _ & Hc).
  rewrite E in E'. injection E' as <- <-. apply (run_lives s host p q st Hl' fuel k 0 st m1 m2 Hl').
  refine (agree_on_weaken s _ _ _ _ Ha _). intros t Ht Hlt. by destruct (Hc t Ht Hlt) as [?%elem_of_nil|].
Qed.

Definition framed_b (s : TCGContext) (i : TCGOp) : bool :=
  match opc i with
  | op_call => call_b s (args i) && implb (nz (Z.land (call_flags (args i)) TCG_CALL_NO_SIDE_EFFECTS)) (negb (writes_globals (call_flags (args i))))
  | op => (length (args i) =? nb_args (tcg_op_defs op))%nat && forallb (of_type_b s None) (inputs i ++ outputs i)
  end.

Lemma call_b_ok s l : call_b s l = true -> call_ok s l.
Proof.
  unfold call_b, call_ok. destruct (call_args l) as [no ni]. intros [H1%Nat.ltb_lt H2]%andb_true_iff. cbn.
  split; [done|]. intros j Hj. apply (of_type_b_ok s None), (proj1 (forallb_forall _ _) H2), in_seq. lia.
Qed.

Lemma framed_b_ok s i : framed_b s i = true -> framed s i.
Proof.
  destruct i as [op l]. destruct (decide (op = op_call)) as [->|Hc].
  - unfold framed_b, framed. cbn [opc args]. intros [H1 H2]%andb_true_iff. split; [by apply call_b_ok|].
    intros E. rewrite E in H2. by apply negb_true_iff in H2.
  - intros H. apply framed_eq; [done|].
    assert ((length l =? nb_args (tcg_op_defs op))%nat && forallb (of_type_b s None) (inputs (mkOp op l) ++ outputs (mkOp op l)) = true) as H'
      by (by destruct op). apply andb_true_iff in H' as [H1%Nat.eqb_eq H2]. split; [done|].
    apply Forall_forall. intros t Ht%list_elem_of_In. apply (of_type_b_ok s None), (proj1 (forallb_forall _ _) H2), Ht.
Qed.

(** A dead double-word sum, one that loses its high word, a dead addition, and a
    product of which the host can compute the high word alone. *)
Definition ex_live_ctx : TCGContext := mkContext 2 6 (fun _ => W32) (fun _ => false).
Definition ex_live : list TCGOp :=
  [mkOp (op_movi W32) [2; 5]; mkOp (op_movi W32) [3; 7];
   mkOp (op_add2 W32) [4; 5; 2; 3; 0; 1]; mkOp op_nop [];
   mkOp (op_bin Badd W32) [5; 2; 3];
   mkOp (op_mov W32) [0; 4];
   mkOp (op_mulu2 W32) [4; 1; 2; 3]; mkOp op_nop [];
   mkOp op_exit_tb [0]].

Lemma tcg_liveness_correct_witness :
  let q := [(mkOp (op_movi W32) [2; 5], Some (0, 0)); (mkOp (op_movi W32) [3; 7], Some (0, 0));
            (mkOp (op_bin Badd W32) [4; 2; 0], Some (4, 0)); (mkOp op_nopn [3; 0; 3], Some (0, 0));
            (mkOp op_nopn [3; 2; 3], None);
            (mkOp (op_mov W32) [0; 4], Some (3, 1));
            (mkOp (op_bin Bmuluh W32) [1; 2; 3], Some (7, 1)); (mkOp op_nopn [1], Some (0, 0));
            (mkOp op_exit_tb [0], Some (0, 0))] in
  tcg_liveness_analysis ex_live_ctx (fun _ _ => true) (mkLive (fun _ => false) (fun _ => true)) ex_live = Ok q /\
  exists q', tcg_liveness_analysis ex_live_ctx (fun _ _ => true) (mkLive (fun _ => false) (fun _ => true)) ex_live = Ok q' /\
    length q' = length ex_live /\
    forall W (host : Host W) (m1 m2 : mstate W) fuel k, host_ok host -> agree_on ex_live_ctx (carried ex_live_ctx) m1 m2 ->
      behaves_live ex_live_ctx (run ex_live_ctx host fuel k ex_live 0 m1) (run ex_live_ctx host fuel k (map fst q') 0 m2).
Proof.
  split; [by vm_compute|]. apply tcg_liveness_correct. split; [by vm_compute|by vm_compute| |by vm_compute|by vm_compute].
  assert (forallb (framed_b ex_live_ctx) ex_live = true) as H by (by vm_compute).
  apply Forall_forall. intros i Hi%list_elem_of_In. by apply framed_b_ok, (proj1 (forallb_forall _ _) H).
Defined.

(** The marks of an operation that stays are exact: output [j] is marked
    dead when nothing behind reads it or a later output overwrites it, and to be
    synchronised when memory must hold it behind; input [j] is marked dead
    precisely when it is the first to name its temporary and the operation ends
    the block, writes the temporary, or finds it dead behind. *)
Theorem dead_args_exact (s : TCGContext) op no ni def l q st :
  (no <= 8)%nat -> (no + ni <= 16)%nat -> (no + ni <= length l)%nat -> (forall j, (j < no + ni)%nat -> valid s (arg l j)) ->
  exists da sa, fst (do_not_remove s op no ni def l q st) = (mkOp op l, Some (da, sa)) :: q /\
    forall j,
      ((j < no)%nat ->
         Z.testbit da (Z.of_nat j) = dead_temps st (arg l j) || bool_decide (arg l j ∈ take j l) /\
         Z.testbit sa (Z.of_nat j) = mem_temps st (arg l j) && bool_decide (arg l j ∉ take j l)) /\
      ((no <= j < no + ni)%nat ->
         Z.testbit da (Z.of_nat j) = bool_decide (arg l j ∉ take (j - no) (drop no l)) &&
           (TCG_OPF_BB_END def || bool_decide (arg l j ∈ take no l) || dead_temps st (arg l j))).
Proof.
  intros Hno Hni Hlen Hv. unfold do_not_remove.
  destruct (la_outs_bits 0 (take no l) 0 0 st) as (Fd & Hn & Hb); [rewrite length_take; lia|done..|].
  pose proof (la_outs_dead 0 (take no l) 0 0 st) as Hdead.
  destruct (la_outs 0 (take no l) 0 0 st) as [[da sa] st1]. cbn [fst snd] in *.
  set (st2 := if TCG_OPF_BB_END def then _ else _).
  destruct (la_ins_bits no (take ni (drop no l)) da st2) as [Ha Hi]; [rewrite length_take; lia|done|].
  destruct (la_ins no (take ni (drop no l)) da st2) as [da' st3]. cbn [fst] in *.
  exists da', sa. split; [done|]. intros j. split.
  - intros Hj. rewrite Ha by done. destruct (Hb j) as [H1 H2]; [rewrite length_take; lia|]. cbn [Nat.add] in H1, H2.
    rewrite take_take, Nat.min_l in H1, H2 by lia. rewrite H1, H2, Z.bits_0, arg_take by done. done.
  - intros Hj. specialize (Hi (j - no)%nat). replace (no + (j - no))%nat with j in Hi by lia.
    assert (arg (take ni (drop no l)) (j - no) = arg l j) as Earg.
    { rewrite arg_take, arg_drop by lia. f_equal. lia. }
    rewrite Hi by (rewrite length_take, length_drop; lia). rewrite Earg, take_take, Nat.min_l by lia.
    assert (Z.testbit da (Z.of_nat j) = false) as ->.
    { destruct (Hn j) as [-> _]; [rewrite length_take; lia|]. apply Z.bits_0. }
    cbn [orb]. rewrite andb_comm. f_equal. subst st2. specialize (Hv j ltac:(lia)). destruct Hv as [V0 V1].
    destruct (TCG_OPF_BB_END def); [cbn; rewrite memset_in by lia; done|].
    destruct (TCG_OPF_SIDE_EFFECTS def); cbn; by rewrite Hdead.
Qed.

Lemma dead_args_exact_witness :
  let st := tcg_la_func_end ex_live_ctx (mkLive (fun _ => false) (fun _ => true)) in
  let l := [0; 2; 2] in
  Z.testbit 3 1 = true /\ Z.testbit 3 2 = false /\
  exists da sa, fst (do_not_remove ex_live_ctx (op_bin Badd W32) 1 2 (tcg_op_defs (op_bin Badd W32)) l [] st) =
      [(mkOp (op_bin Badd W32) l, Some (da, sa))] /\ da = 3 /\ sa = 1 /\
    Z.testbit da 2 = bool_decide (2 ∉ [2]) && (bool_decide (2 ∈ [0]) || dead_temps st 2).
Proof.
  split; [done|]. split; [done|].
  destruct (dead_args_exact ex_live_ctx (op_bin Badd W32) 1 2 (tcg_op_defs (op_bin Badd W32)) [0; 2; 2] []
    (tcg_la_func_end ex_live_ctx (mkLive (fun _ => false) (fun _ => true)))) as (da & sa & E & H).
  - lia.
  - lia.
  - cbn. lia.
  - intros j Hj. assert (j = 0 \/ j = 1 \/ j = 2)%nat as [-> | [-> | ->]] by lia; by split.
  - exists da, sa. split; [exact E|]. vm_compute in E. injection E as <- <-. split; [done|]. split; [done|].
    apply (H 2%nat). lia.
Defined.

End TcgLive.
