(* ===== verification/TcgGen.v ===== *)
(** The passes over a translated block in front of register allocation
    (tcg/tcg.c, [tcg_gen_code_common]): the optimiser, then the liveness pass.
    The optimiser writes where it reads and keeps what the liveness pass needs;
    together they leave the globals and the world as the block leaves them. *)
From Stdlib Require Import ZArith Lia Bool.
From stdpp Require Import base numbers list.
From S2P Require Import Prelude HostUtils TcgOp TcgOpt TcgRing TcgArith TcgSem TcgBits TcgSound TcgStep TcgProg TcgShape TcgLive.
Local Open Scope Z_scope.

Module TcgGen.
Import HostUtils.HostUtils Tcg TcgOpt TcgRing TcgArith TcgSem TcgBits TcgSound TcgStep TcgProg TcgShape TcgLive.

Section gen.
Context (s : TCGContext) (has_high : binop -> width -> bool).

(** [T] and [st0]: what the static array of the optimiser and the memory of the
    liveness pass hold at the start. *)
Definition tcg_gen_code_passes (T : temps_t) (st0 : live_state) (p : list TCGOp) : outcome (list la_entry) :=
  p <~ tcg_optimize s T p ;; tcg_liveness_analysis s has_high st0 p.

(** A block for both passes. *)
Record gen_ok (p : list TCGOp) : Prop := {
  go_block : block_ok s p;
  go_live : live_ok s p;
}.

Lemma optimize_keeps T p p' : gen_ok p -> tcg_optimize s T p = Ok p' -> kept s [] p p'.
Proof.
  intros [Hb [Hg Hm Hf Hd Hs]] E. apply (fold_ops_kept s (reset_all_temps (nb_temps s) T) [] [] p p' Hb Hf Hd Hs).
  - by apply (s_wf _ _ (fun _ => 0)), sound_reset_all.
  - split; [by intros t ?%elem_of_nil|]. intros t Ht Hc. by rewrite all_copy in Hc.
  - done.
Qed.

Lemma kept_live p p' : gen_ok p -> kept s [] p p' -> live_ok s p'.
Proof. intros [_ [Hg Hm _ _ _]] [K1 K2 K3 _ _]. by split. Qed.

(** *** From the block to what the register allocator sees *)
Section behaviour.
Context {W : Type}.

(** The same world and the same globals, each up to its type. *)
Definition agree_globals (m1 m2 : mstate W) : Prop :=
  world m1 = world m2 /\ forall t, is_global s t -> uwrap (ty s t) (regs m1 t) = uwrap (ty s t) (regs m2 t).

Definition behaves_out (b1 b2 : behaviour (W := W)) : Prop :=
  match b1, b2 with
  | Undefined, _ => True
  | Left m1, Left m2 => agree_globals m1 m2
  | FellOff m1, FellOff m2 => agree_globals m1 m2
  | Running, Running => True
  | _, _ => False
  end.

Lemma agree_trans m1 m2 m3 :
  0 <= nb_globals s <= nb_temps s -> agree s m1 m2 -> agree_on s (is_global s) m2 m3 -> agree_globals m1 m3.
Proof.
  intros Hg [W1 R1] [W2 R2]. split; [congruence|]. intros t Ht. assert (valid s t) by (unfold valid, is_global in *; lia).
  by rewrite R1, R2.
Qed.

Lemma behaves_trans b1 b2 b3 :
  0 <= nb_globals s <= nb_temps s -> behaves s b1 b2 -> behaves_live s b2 b3 -> behaves_out b1 b3.
Proof. intros Hg. destruct b1, b2, b3; try done; cbn; intros; by eapply agree_trans. Qed.
End behaviour.
End gen.

(** *** The theorems *)

(** C6: What the optimiser and the liveness pass leave of a well-formed block
    has its length and runs in step with it: from every state, over every host
    that keeps its flags' promises and under every choice of the register
    allocator, it leaves, falls off or keeps running when the block does, with
    the same world and the same value in every global.  Only the folding of a
    signed division can stop the passes. *)
Theorem tcg_gen_code_passes_correct (s : TCGContext) has_high T st0 p :
  gen_ok s p ->
  (tcg_gen_code_passes s has_high T st0 p = Fault DivOverflow /\ Exists (fun i => signed_div (opc i) = true) p) \/
  exists q, tcg_gen_code_passes s has_high T st0 p = Ok q /\ length q = length p /\
    forall W (host : Host W) (m : mstate W) fuel k1 k2, host_ok host -> (forall t, fits 64 (regs m t)) ->
      behaves_out s (run s host fuel k1 p 0 m) (run s host fuel k2 (map fst q) 0 m).
Proof.
  intros Hok. pose proof (go_block _ _ Hok) as Hb. unfold tcg_gen_code_passes.
  set (T1 := reset_all_temps (nb_temps s) T).
  assert (wf s T1) as HT by (by apply (s_wf _ _ (fun _ => 0)), sound_reset_all).
  destruct (fold_ops_total s T1 p Hb HT) as [[p' E]|[E Hd]]; [right|left; split; [|done]];
    (assert (tcg_optimize s T p = fold_ops s T1 p) as E0 by done); rewrite E0, E; [|done]. cbn [obind].
  pose proof (kept_live s p p' Hok (optimize_keeps s T p p' Hok ltac:(by rewrite E0))) as [Hg Hm Hf Hdb Hs].
  destruct (la_loop_ok s quiet_host has_high Hg Hm quiet_host_ok p' st0 [] Hf Hdb Hs) as (q & st & El & Hl & _).
  exists q. unfold tcg_liveness_analysis. rewrite El. split; [done|]. split.
  { rewrite (lives_length s quiet_host p' q st Hl). by apply (fold_ops_length s T1). }
  intros W host m fuel k1 k2 Hh Hfit.
  destruct (la_loop_ok s host has_high Hg Hm Hh p' st0 [] Hf Hdb Hs) as (q' & st' & El' & Hl' & _).
  rewrite El in El'. injection El' as <- <-.
  apply (behaves_trans s _ (run s host fuel k2 p' 0 m)); [done| |by apply (run_lives s host p' q st Hl' fuel k2 0 st)].
  apply (run_simulates s host p p' k1 k2 Hb (fun label => fold_ops_labels s T1 p p' label Hb HT E) fuel 0 T1);
    [apply agree_refl|by apply sound_reset_all|done].
Qed.

(** C23: The optimiser may write its result where it reads the block: whatever
    prefix of the operations it has written, their arguments take no more room
    than the arguments of the operations it has read by then. *)
Theorem tcg_optimize_in_place (s : TCGContext) T p p' :
  gen_ok s p -> tcg_optimize s T p = Ok p' ->
  forall k, (args_size (take k p') <= args_size (take k p))%nat.
Proof. intros Hok E. exact (kp_size _ _ _ _ (optimize_keeps s T p p' Hok E)). Qed.

(** The block of the liveness pass, with an addition of constants in front. *)
Definition ex_gen : list TCGOp :=
  [mkOp (op_movi W32) [2; 5]; mkOp (op_movi W32) [3; 7]; mkOp (op_bin Badd W32) [3; 2; 3];
   mkOp (op_add2 W32) [4; 5; 2; 3; 0; 1]; mkOp op_nop [];
   mkOp (op_mov W32) [5; 4]; mkOp (op_bin Badd W32) [0; 5; 5];
   mkOp op_exit_tb [0]].

Lemma ex_gen_ok : gen_ok ex_live_ctx ex_gen.
Proof.
  split; [apply block_okb_ok; by vm_compute|]. split; [by vm_compute|by vm_compute| |by vm_compute|by vm_compute].
  assert (forallb (framed_b ex_live_ctx) ex_gen = true) as H by (by vm_compute).
  apply Forall_forall. intros i Hi%list_elem_of_In. by apply framed_b_ok, (proj1 (forallb_forall _ _) H).
Qed.

Lemma tcg_gen_code_passes_correct_witness :
  let T := fun _ => mkInfo TCG_TEMP_COPY 9 9 9 9 in
  let st0 := mkLive (fun _ => false) (fun _ => true) in
  tcg_gen_code_passes ex_live_ctx (fun _ _ => true) T st0 ex_gen =
    Ok [(mkOp (op_movi W32) [2; 5], Some (0, 0)); (mkOp op_nopn [2; 2], None); (mkOp op_nopn [2; 2], None);
        (mkOp (op_bin Badd W32) [4; 0; 2], Some (6, 0)); (mkOp op_nopn [3; 2; 3], Some (0, 0));
        (mkOp (op_mov W32) [5; 4], Some (2, 0)); (mkOp (op_bin Badd W32) [0; 5; 5], Some (3, 1));
        (mkOp op_exit_tb [0], Some (0, 0))] /\
  ((tcg_gen_code_passes ex_live_ctx (fun _ _ => true) T st0 ex_gen = Fault DivOverflow /\
      Exists (fun i => signed_div (opc i) = true) ex_gen) \/
   exists q, tcg_gen_code_passes ex_live_ctx (fun _ _ => true) T st0 ex_gen = Ok q /\ length q = length ex_gen /\
     forall W (host : Host W) (m : mstate W) fuel k1 k2, host_ok host -> (forall t, fits 64 (regs m t)) ->
       behaves_out ex_live_ctx (run ex_live_ctx host fuel k1 ex_gen 0 m) (run ex_live_ctx host fuel k2 (map fst q) 0 m)).
Proof.
  cbv zeta. split; [by vm_compute|by apply tcg_gen_code_passes_correct, ex_gen_ok].
Defined.

Lemma tcg_optimize_in_place_witness :
  exists p', tcg_optimize ex_live_ctx (fun _ => mkInfo TCG_TEMP_COPY 9 9 9 9) ex_gen = Ok p' /\
    (args_size (take 4 p') <= args_size (take 4 ex_gen))%nat.
Proof.
  eexists. split; [by vm_compute|]. apply (tcg_optimize_in_place ex_live_ctx (fun _ => mkInfo TCG_TEMP_COPY 9 9 9 9)); [apply ex_gen_ok|by vm_compute].
Defined.
End TcgGen.
