(* ===== verification/TcgReg.v ===== *)
(** The register allocator of the translator (tcg/tcg.c): where each temporary
    is (a register, its memory slot, a constant, nowhere), spilling and loading,
    and for every operation the host instructions that get its operands into
    place, over any back end.

    The build with liveness analysis; a stack that grows down.  [tcg_abort] is
    the fault [TcgAbort]. *)
From Stdlib Require Import ZArith Lia Bool.
From stdpp Require Import base numbers list.
From S2P Require Import Prelude HostUtils TcgOp TcgLive.
Local Open Scope Z_scope.
Local Open Scope prog_scope.

Module TcgReg.
Import Tcg TcgLive.

(** ** The back end

    [regs] is a register set, bit by bit. *)
Record TCGArgConstraint := mkConstraint {
  ct : Z;
  alias_index : nat;
  ct_regs : Z;
}.

Definition TCG_CT_ALIAS : Z := 0x80.
Definition TCG_CT_IALIAS : Z := 0x40.
Definition TCG_CT_REG : Z := 0x01.
Definition is_alias (c : TCGArgConstraint) : bool := nz (Z.land (ct c) TCG_CT_ALIAS).
Definition is_ialias (c : TCGArgConstraint) : bool := nz (Z.land (ct c) TCG_CT_IALIAS).

Record Target := mkTarget {
  TCG_TARGET_NB_REGS : Z;
  tcg_target_reg_alloc_order : list Z;
  tcg_target_available_regs : width -> Z;
  tcg_target_call_clobber_regs : Z;
  tcg_target_call_iarg_regs : list Z;
  tcg_target_call_oarg_regs : list Z;
  reserved_regs : Z;
  frame_reg : Z;
  frame_start : Z;
  frame_end : Z;
  TCG_REG_CALL_STACK : Z;
  TCG_TARGET_CALL_STACK_OFFSET : Z;
  TCG_TARGET_STACK_ALIGN : Z;
  TCG_STATIC_CALL_ARGS_SIZE : Z;
  args_ct : TCGOpcode -> nat -> TCGArgConstraint;
  tcg_target_const_match : Z -> TCGArgConstraint -> bool;
  TCG_OPF_NOT_PRESENT : TCGOpcode -> bool;
}.

Definition tcg_regset_test_reg (d r : Z) : bool := Z.testbit d r.
Definition tcg_regset_set_reg (d r : Z) : Z := Z.lor d (bit r).
Definition tcg_regset_andnot (a b : Z) : Z := Z.land a (Z.lnot b).

(** ** Temporaries *)
Inductive TCGTempVal := TEMP_VAL_DEAD | TEMP_VAL_REG | TEMP_VAL_MEM | TEMP_VAL_CONST.

#[export] Instance TCGTempVal_eq_dec : EqDecision TCGTempVal.
Proof. solve_decision. Defined.

Record TCGTemp := mkTemp {
  val_type : TCGTempVal;
  reg : Z;
  val : Z;
  mem_reg : Z;
  mem_offset : Z;
  mem_coherent : bool;
  mem_allocated : bool;
  fixed_reg : bool;
}.
#[export] Instance TCGTemp_eta : Settable TCGTemp := fun i =>
  mkTemp (val_type i) (reg i) (val i) (mem_reg i) (mem_offset i) (mem_coherent i) (mem_allocated i) (fixed_reg i).

Record alloc_state := mkAlloc {
  temps : Z -> TCGTemp;
  reg_to_temp : Z -> Z;
  current_frame_offset : Z;
}.
#[export] Instance alloc_state_eta : Settable alloc_state := fun st =>
  mkAlloc (temps st) (reg_to_temp st) (current_frame_offset st).

(** ** Host instructions

    [HOp] carries the types of the operands beside their places; a call the
    number of its arguments that are in registers. *)
Inductive hinsn :=
| HSt (ty : width) (r base ofs : Z)
| HLd (ty : width) (r base ofs : Z)
| HMovi (ty : width) (r v : Z)
| HMov (ty : width) (dst src : Z)
| HOp (op : TCGOpcode) (tys : list width) (new_args : list Z) (const_args : list bool) (cargs : list Z)
| HCall (flags : Z) (tys : list width) (nb_regs : nat) (nb_oargs : nat) (func : Z) (const_func : bool)
| HLabel (label : Z).

Notation M := (prog alloc_state hinsn).

Definition upd_temp (t : Z) (f : TCGTemp -> TCGTemp) (st : alloc_state) : alloc_state :=
  st <| temps ::= fun T i => if i =? t then f (T i) else T i |>.
Definition upd_map (r t : Z) (st : alloc_state) : alloc_state :=
  st <| reg_to_temp ::= fun R i => if i =? r then t else R i |>.
Definition set_temp (t : Z) (f : TCGTemp -> TCGTemp) : M unit := modify (upd_temp t f).
Definition set_reg_to_temp (r t : Z) : M unit := modify (upd_map r t).
Definition get_temp (t : Z) : M TCGTemp := gets (fun st => temps st t).
Definition assert_ (b : bool) : M unit := if b then ret tt else abort AssertFailed.

Fixpoint each {A} (f : A -> M unit) (l : list A) : M unit :=
  match l with [] => ret tt | x :: l => f x ;;; each f l end.

Section alloc.
Context (s : TCGContext) (tgt : Target).

Definition temp_allocate_frame (temp : Z) : M unit :=
  ofs <- gets current_frame_offset ;;
  let ofs := Z.land (ofs + 8 - 1) (Z.lnot (8 - 1)) in
  modify (fun st => st <| current_frame_offset := ofs |>) ;;;
  when (frame_end tgt <? ofs + 8) (abort TcgAbort) ;;;
  set_temp temp (fun ts => ts <| mem_offset := ofs |> <| mem_reg := frame_reg tgt |> <| mem_allocated := true |>) ;;;
  modify (fun st => st <| current_frame_offset := ofs + 8 |>).

(** A register without a temporary has index -1. *)
Definition tcg_reg_sync (r : Z) : M unit :=
  temp <- gets (fun st => reg_to_temp st r) ;;
  when (temp =? -1) (abort OutOfBounds) ;;;
  ts <- get_temp temp ;;
  assert_ (bool_decide (val_type ts = TEMP_VAL_REG)) ;;;
  when (negb (mem_coherent ts) && negb (fixed_reg ts))
    (when (negb (mem_allocated ts)) (temp_allocate_frame temp) ;;;
     ts <- get_temp temp ;;
     emit (HSt (type s temp) r (mem_reg ts) (mem_offset ts))) ;;;
  set_temp temp (fun ts => ts <| mem_coherent := true |>).

Definition tcg_reg_free (r : Z) : M unit :=
  temp <- gets (fun st => reg_to_temp st r) ;;
  when (negb (temp =? -1))
    (tcg_reg_sync r ;;;
     set_temp temp (fun ts => ts <| val_type := TEMP_VAL_MEM |>) ;;;
     set_reg_to_temp r (-1)).

Definition tcg_reg_alloc (reg1 reg2 : Z) : M Z :=
  let reg_ct := tcg_regset_andnot reg1 reg2 in
  R <- gets reg_to_temp ;;
  match find (fun r => tcg_regset_test_reg reg_ct r && (R r =? -1)) (tcg_target_reg_alloc_order tgt) with
  | Some r => ret r
  | None =>
      match find (tcg_regset_test_reg reg_ct) (tcg_target_reg_alloc_order tgt) with
      | Some r => tcg_reg_free r ;;; ret r
      | None => abort TcgAbort
      end
  end.

Definition temp_dead (temp : Z) : M unit :=
  ts <- get_temp temp ;;
  when (negb (fixed_reg ts))
    (when (bool_decide (val_type ts = TEMP_VAL_REG)) (set_reg_to_temp (reg ts) (-1)) ;;;
     set_temp temp (fun ts => ts <| val_type :=
       if (temp <? nb_globals s) || temp_local s temp then TEMP_VAL_MEM else TEMP_VAL_DEAD |>)).

Definition temp_sync (temp allocated_regs : Z) : M unit :=
  ts <- get_temp temp ;;
  when (negb (fixed_reg ts))
    match val_type ts with
    | TEMP_VAL_CONST =>
        r <- tcg_reg_alloc (tcg_target_available_regs tgt (type s temp)) allocated_regs ;;
        set_temp temp (fun ts => ts <| reg := r |> <| val_type := TEMP_VAL_REG |>) ;;;
        set_reg_to_temp r temp ;;;
        set_temp temp (fun ts => ts <| mem_coherent := false |>) ;;;
        emit (HMovi (type s temp) r (val ts)) ;;;
        tcg_reg_sync r
    | TEMP_VAL_REG => tcg_reg_sync (reg ts)
    | TEMP_VAL_DEAD | TEMP_VAL_MEM => ret tt
    end.

Definition temp_save (temp : Z) : M unit :=
  ts <- get_temp temp ;;
  assert_ (bool_decide (val_type ts = TEMP_VAL_MEM) || fixed_reg ts).

Definition save_globals : M unit := each temp_save (seqZ 0 (nb_globals s)).

Definition sync_globals : M unit :=
  each (fun i => ts <- get_temp i ;;
                 assert_ (negb (bool_decide (val_type ts = TEMP_VAL_REG)) || fixed_reg ts || mem_coherent ts))
    (seqZ 0 (nb_globals s)).

Definition tcg_reg_alloc_bb_end : M unit :=
  each (fun i => if temp_local s i then temp_save i
                 else ts <- get_temp i ;; assert_ (bool_decide (val_type ts = TEMP_VAL_DEAD)))
    (seqZ (nb_globals s) (nb_temps s - nb_globals s)) ;;;
  save_globals.

Definition IS_DEAD_ARG (dead_args : Z) (n : nat) : bool := Z.testbit dead_args (Z.of_nat n).
Definition NEED_SYNC_ARG (sync_args : Z) (n : nat) : bool := Z.testbit sync_args (Z.of_nat n).

Definition is_val (v : TCGTempVal) (ts : TCGTemp) : bool := bool_decide (val_type ts = v).

(** The register loses its temporary. *)
Definition forget_reg (ts : TCGTemp) : M unit :=
  when (is_val TEMP_VAL_REG ts) (set_reg_to_temp (reg ts) (-1)).

Definition tcg_reg_alloc_movi (l : list Z) (dead_args sync_args : Z) : M unit :=
  let o := arg l 0 in
  let v := arg l 1 in
  ots <- get_temp o ;;
  (if fixed_reg ots then emit (HMovi (type s o) (reg ots) v)
   else
     forget_reg ots ;;;
     set_temp o (fun ts => ts <| val_type := TEMP_VAL_CONST |> <| val := v |>)) ;;;
  when (NEED_SYNC_ARG sync_args 0) (temp_sync o (reserved_regs tgt)) ;;;
  when (IS_DEAD_ARG dead_args 0) (temp_dead o).

(** The source of a [mov] into a register of its own. *)
Definition mov_load (op : TCGOpcode) (i : Z) : M unit :=
  r <- tcg_reg_alloc (ct_regs (args_ct tgt op 1)) (reserved_regs tgt) ;;
  set_temp i (fun ts => ts <| reg := r |>) ;;;
  ts <- get_temp i ;;
  match val_type ts with
  | TEMP_VAL_MEM =>
      emit (HLd (type s i) r (mem_reg ts) (mem_offset ts)) ;;;
      set_temp i (fun ts => ts <| mem_coherent := true |>)
  | TEMP_VAL_CONST => emit (HMovi (type s i) r (val ts))
  | _ => ret tt
  end ;;;
  set_reg_to_temp r i ;;;
  set_temp i (fun ts => ts <| val_type := TEMP_VAL_REG |>).

(** A [mov] to a temporary that only memory needs: the source is stored. *)
Definition mov_store (l : list Z) (dead_args sync_args : Z) : M unit :=
  let o := arg l 0 in
  let i := arg l 1 in
  ots <- get_temp o ;;
  ts <- get_temp i ;;
  assert_ (NEED_SYNC_ARG sync_args 0) ;;;
  assert_ (is_val TEMP_VAL_REG ts) ;;;
  when (negb (mem_allocated ots)) (temp_allocate_frame o) ;;;
  ots <- get_temp o ;;
  emit (HSt (type s o) (reg ts) (mem_reg ots) (mem_offset ots)) ;;;
  when (IS_DEAD_ARG dead_args 1) (temp_dead i) ;;;
  temp_dead o.

(** A [mov] between registers, renamed when the source dies. *)
Definition mov_reg (op : TCGOpcode) (l : list Z) (dead_args sync_args : Z) : M unit :=
  let o := arg l 0 in
  let i := arg l 1 in
  ots <- get_temp o ;;
  ts <- get_temp i ;;
  assert_ (is_val TEMP_VAL_REG ts) ;;;
  (if IS_DEAD_ARG dead_args 1 && negb (fixed_reg ts) && negb (fixed_reg ots) then
     forget_reg ots ;;;
     set_temp o (fun t => t <| reg := reg ts |>) ;;;
     temp_dead i
   else
     when (negb (is_val TEMP_VAL_REG ots))
       (r <- tcg_reg_alloc (ct_regs (args_ct tgt op 0)) (tcg_regset_set_reg (reserved_regs tgt) (reg ts)) ;;
        set_temp o (fun t => t <| reg := r |>)) ;;;
     ots <- get_temp o ;;
     emit (HMov (type s o) (reg ots) (reg ts))) ;;;
  set_temp o (fun t => t <| val_type := TEMP_VAL_REG |> <| mem_coherent := false |>) ;;;
  ots <- get_temp o ;;
  set_reg_to_temp (reg ots) o ;;;
  when (NEED_SYNC_ARG sync_args 0) (tcg_reg_sync (reg ots)).

Definition tcg_reg_alloc_mov (op : TCGOpcode) (l : list Z) (dead_args sync_args : Z) : M unit :=
  let o := arg l 0 in
  let i := arg l 1 in
  ots <- get_temp o ;;
  ts <- get_temp i ;;
  when (((NEED_SYNC_ARG sync_args 0 || fixed_reg ots) && negb (is_val TEMP_VAL_REG ts)) || is_val TEMP_VAL_MEM ts)
    (mov_load op i) ;;;
  ots <- get_temp o ;;
  ts <- get_temp i ;;
  if IS_DEAD_ARG dead_args 0 && negb (fixed_reg ots) then mov_store l dead_args sync_args
  else if is_val TEMP_VAL_CONST ts then
    forget_reg ots ;;;
    set_temp o (fun t => t <| val_type := TEMP_VAL_CONST |> <| val := val ts |>)
  else mov_reg op l dead_args sync_args.

(** ** Operations with constraints *)

(** [sorted_args]: the arguments with the fewest registers first. *)
Definition get_constraint_priority (op : TCGOpcode) (k : nat) : Z :=
  let c := args_ct tgt op k in
  let n := if is_alias c then Some 1
           else if negb (nz (Z.land (ct c) TCG_CT_REG)) then None
           else Some (Z.of_nat (length (filter (fun i => tcg_regset_test_reg (ct_regs c) i = true) (seqZ 0 (TCG_TARGET_NB_REGS tgt))))) in
  match n with Some n => TCG_TARGET_NB_REGS tgt - n + 1 | None => 0 end.

Definition swap_sorted (a : list nat) (i j : nat) : list nat := <[i := nth j a 0%nat]> (<[j := nth i a 0%nat]> a).

Definition sort_constraints (op : TCGOpcode) (start n : nat) : list nat :=
  foldl (fun a i =>
    foldl (fun a j =>
      if get_constraint_priority op (nth i a 0%nat) <? get_constraint_priority op (nth j a 0%nat)
      then swap_sorted a i j else a) a (seq (S i) (n - S i)))
    (seq start n) (seq 0 (n - 1)).

(** [new_args] and [const_args], and the registers in use. *)
Record placement := mkPlacement {
  new_args : nat -> Z;
  const_args : nat -> bool;
  allocated_regs : Z;
}.
Definition place (i : nat) (v : Z) (c : bool) (regs : Z) (pl : placement) : placement :=
  mkPlacement (fun j => if (j =? i)%nat then v else new_args pl j)
    (fun j => if (j =? i)%nat then c else const_args pl j) regs.

(** A temporary into a register, unless it may stay the constant it is. *)
Definition load_arg (t : Z) (c : TCGArgConstraint) (allocated : Z) (const_ok : bool) : M unit :=
  ts <- get_temp t ;;
  match val_type ts with
  | TEMP_VAL_MEM =>
      r <- tcg_reg_alloc (ct_regs c) allocated ;;
      ts <- get_temp t ;;
      emit (HLd (type s t) r (mem_reg ts) (mem_offset ts)) ;;;
      set_temp t (fun ts => ts <| val_type := TEMP_VAL_REG |> <| reg := r |> <| mem_coherent := true |>) ;;;
      set_reg_to_temp r t
  | TEMP_VAL_CONST =>
      if const_ok then ret tt
      else
        r <- tcg_reg_alloc (ct_regs c) allocated ;;
        emit (HMovi (type s t) r (val ts)) ;;;
        set_temp t (fun ts => ts <| val_type := TEMP_VAL_REG |> <| reg := r |> <| mem_coherent := false |>) ;;;
        set_reg_to_temp r t
  | _ => ret tt
  end.

(** One input argument. *)
Definition alloc_input (op : TCGOpcode) (l : list Z) (dead_args : Z) (i : nat) (pl : placement) : M placement :=
  let t := arg l i in
  let c := args_ct tgt op i in
  ts0 <- get_temp t ;;
  let const_ok := tcg_target_const_match tgt (val ts0) c in
  load_arg t c (allocated_regs pl) const_ok ;;;
  ts <- get_temp t ;;
  if is_val TEMP_VAL_CONST ts then ret (place i (val ts) true (allocated_regs pl) pl)
  else
    assert_ (is_val TEMP_VAL_REG ts) ;;;
    let own := is_ialias c && (if fixed_reg ts then negb (t =? arg l (alias_index c)) else negb (IS_DEAD_ARG dead_args i)) in
    r <- (if negb own && tcg_regset_test_reg (ct_regs c) (reg ts) then ret (reg ts)
          else
            r <- tcg_reg_alloc (ct_regs c) (allocated_regs pl) ;;
            emit (HMov (type s t) r (reg ts)) ;;; ret r) ;;
    ret (place i r false (tcg_regset_set_reg (allocated_regs pl) r) pl).

Fixpoint alloc_inputs (op : TCGOpcode) (l : list Z) (dead_args : Z) (ks : list nat) (pl : placement) : M placement :=
  match ks with
  | [] => ret pl
  | i :: ks => pl <- alloc_input op l dead_args i pl ;; alloc_inputs op l dead_args ks pl
  end.

(** One output argument. *)
Definition alloc_output (op : TCGOpcode) (l : list Z) (i : nat) (pl : placement) : M placement :=
  let t := arg l i in
  let c := args_ct tgt op i in
  ts <- get_temp t ;;
  if negb (is_alias c) && fixed_reg ts && tcg_regset_test_reg (ct_regs c) (reg ts) then
    ret (place i (reg ts) (const_args pl i) (allocated_regs pl) pl)
  else
    r <- (if is_alias c then ret (new_args pl (alias_index c)) else tcg_reg_alloc (ct_regs c) (allocated_regs pl)) ;;
    ts <- get_temp t ;;
    when (negb (fixed_reg ts))
      (forget_reg ts ;;;
       set_temp t (fun ts => ts <| val_type := TEMP_VAL_REG |> <| reg := r |> <| mem_coherent := false |>) ;;;
       set_reg_to_temp r t) ;;;
    ret (place i r (const_args pl i) (tcg_regset_set_reg (allocated_regs pl) r) pl).

Fixpoint alloc_outputs (op : TCGOpcode) (l : list Z) (ks : list nat) (pl : placement) : M placement :=
  match ks with
  | [] => ret pl
  | i :: ks => pl <- alloc_output op l i pl ;; alloc_outputs op l ks pl
  end.

Definition free_clobbered : M unit :=
  each (fun r => when (tcg_regset_test_reg (tcg_target_call_clobber_regs tgt) r) (tcg_reg_free r))
    (seqZ 0 (TCG_TARGET_NB_REGS tgt)).

(** The temporaries that die at the positions [js] of [l]. *)
Definition kill_dead (l : list Z) (dead_args : Z) (js : list nat) : M unit :=
  each (fun i => when (IS_DEAD_ARG dead_args i) (temp_dead (arg l i))) js.

Definition finish_output (l : list Z) (dead_args sync_args : Z) (pl : placement) (i : nat) : M unit :=
  let t := arg l i in
  let r := new_args pl i in
  ts <- get_temp t ;;
  when (fixed_reg ts && negb (reg ts =? r)) (emit (HMov (type s t) (reg ts) r)) ;;;
  when (NEED_SYNC_ARG sync_args i) (tcg_reg_sync r) ;;;
  when (IS_DEAD_ARG dead_args i) (temp_dead t).

Definition tcg_reg_alloc_op (op : TCGOpcode) (l : list Z) (dead_args sync_args : Z) : M unit :=
  let def := tcg_op_defs op in
  let no := nb_oargs def in
  let ni := nb_iargs def in
  pl <- alloc_inputs op l dead_args (sort_constraints op no ni)
          (mkPlacement (fun _ => 0) (fun _ => false) (reserved_regs tgt)) ;;
  kill_dead l dead_args (seq no ni) ;;;
  pl <- (if TCG_OPF_BB_END def then tcg_reg_alloc_bb_end ;;; ret pl
         else
           when (TCG_OPF_CALL_CLOBBER def) free_clobbered ;;;
           when (TCG_OPF_SIDE_EFFECTS def) sync_globals ;;;
           alloc_outputs op l (sort_constraints op 0 no)
             (mkPlacement (new_args pl) (const_args pl) (reserved_regs tgt))) ;;
  emit (HOp op (map (type s) (take (no + ni) l)) (map (new_args pl) (seq 0 (no + ni)))
          (map (const_args pl) (seq 0 (no + ni))) (drop (no + ni) l)) ;;;
  each (finish_output l dead_args sync_args pl) (seq 0 (if TCG_OPF_BB_END def then 0 else no)).

(** ** Calls *)

(** A value for the stack or a register; [r] as a scratch register. *)
Definition stack_arg (ofs t : Z) : M unit :=
  when (negb (t =? TCG_CALL_DUMMY_ARG))
    (ts <- get_temp t ;;
     match val_type ts with
     | TEMP_VAL_REG => emit (HSt (type s t) (reg ts) (TCG_REG_CALL_STACK tgt) ofs)
     | TEMP_VAL_MEM =>
         r <- tcg_reg_alloc (tcg_target_available_regs tgt (type s t)) (reserved_regs tgt) ;;
         ts <- get_temp t ;;
         emit (HLd (type s t) r (mem_reg ts) (mem_offset ts)) ;;;
         emit (HSt (type s t) r (TCG_REG_CALL_STACK tgt) ofs)
     | TEMP_VAL_CONST =>
         r <- tcg_reg_alloc (tcg_target_available_regs tgt (type s t)) (reserved_regs tgt) ;;
         emit (HMovi (type s t) r (val ts)) ;;;
         emit (HSt (type s t) r (TCG_REG_CALL_STACK tgt) ofs)
     | TEMP_VAL_DEAD => abort TcgAbort
     end).

Fixpoint stack_args (ofs : Z) (ts : list Z) : M unit :=
  match ts with [] => ret tt | t :: ts => stack_arg ofs t ;;; stack_args (ofs + 8) ts end.

Definition reg_arg (r t allocated : Z) : M Z :=
  if t =? TCG_CALL_DUMMY_ARG then ret allocated
  else
    tcg_reg_free r ;;;
    ts <- get_temp t ;;
    match val_type ts with
    | TEMP_VAL_REG => when (negb (reg ts =? r)) (emit (HMov (type s t) r (reg ts)))
    | TEMP_VAL_MEM => emit (HLd (type s t) r (mem_reg ts) (mem_offset ts))
    | TEMP_VAL_CONST => emit (HMovi (type s t) r (val ts))
    | TEMP_VAL_DEAD => abort TcgAbort
    end ;;;
    ret (tcg_regset_set_reg allocated r).

Fixpoint reg_args (rs ts : list Z) (allocated : Z) : M Z :=
  match rs, ts with
  | r :: rs, t :: ts => allocated <- reg_arg r t allocated ;; reg_args rs ts allocated
  | _, _ => ret allocated
  end.

(** The function: a register or a constant. *)
Definition func_arg (op : TCGOpcode) (f allocated : Z) : M (Z * bool * Z) :=
  let c := args_ct tgt op 0 in
  ts <- get_temp f ;;
  match val_type ts with
  | TEMP_VAL_MEM =>
      r <- tcg_reg_alloc (ct_regs c) allocated ;;
      ts <- get_temp f ;;
      emit (HLd (type s f) r (mem_reg ts) (mem_offset ts)) ;;;
      ret (r, false, tcg_regset_set_reg allocated r)
  | TEMP_VAL_REG =>
      r <- (if tcg_regset_test_reg (ct_regs c) (reg ts) then ret (reg ts)
            else r <- tcg_reg_alloc (ct_regs c) allocated ;; emit (HMov (type s f) r (reg ts)) ;;; ret r) ;;
      ret (r, false, tcg_regset_set_reg allocated r)
  | TEMP_VAL_CONST =>
      if tcg_target_const_match tgt (val ts) c then ret (val ts, true, allocated)
      else
        r <- tcg_reg_alloc (ct_regs c) allocated ;;
        emit (HMovi (type s f) r (val ts)) ;;;
        ret (r, false, tcg_regset_set_reg allocated r)
  | TEMP_VAL_DEAD => abort TcgAbort
  end.

Definition call_output (l : list Z) (dead_args sync_args : Z) (i : nat) : M unit :=
  let t := arg (call_outs l) i in
  r <- of_option OutOfBounds (nth_error (tcg_target_call_oarg_regs tgt) i) ;;
  R <- gets reg_to_temp ;;
  assert_ (R r =? -1) ;;;
  ts <- get_temp t ;;
  if fixed_reg ts then when (negb (reg ts =? r)) (emit (HMov (type s t) (reg ts) r))
  else
    forget_reg ts ;;;
    set_temp t (fun ts => ts <| val_type := TEMP_VAL_REG |> <| reg := r |> <| mem_coherent := false |>) ;;;
    set_reg_to_temp r t ;;;
    when (NEED_SYNC_ARG sync_args i) (tcg_reg_sync r) ;;;
    when (IS_DEAD_ARG dead_args i) (temp_dead t).

Definition call_stack_size (nb_params nb_regs : nat) : Z :=
  Z.land (Z.of_nat (nb_params - nb_regs) * 8 + TCG_TARGET_STACK_ALIGN tgt - 1) (Z.lnot (TCG_TARGET_STACK_ALIGN tgt - 1)).

Definition tcg_reg_alloc_call (l : list Z) (dead_args sync_args : Z) : M unit :=
  let outs := call_outs l in
  let ins := call_ins l in
  let flags := call_flags l in
  let nb_params := (length ins - 1)%nat in
  let params := take nb_params ins in
  let nb_regs := Nat.min (length (tcg_target_call_iarg_regs tgt)) nb_params in
  when (TCG_STATIC_CALL_ARGS_SIZE tgt <? call_stack_size nb_params nb_regs) (abort TcgAbort) ;;;
  stack_args (TCG_TARGET_CALL_STACK_OFFSET tgt) (drop nb_regs params) ;;;
  allocated <- reg_args (tcg_target_call_iarg_regs tgt) (take nb_regs params) (reserved_regs tgt) ;;
  f <- func_arg op_call (arg ins nb_params) allocated ;;
  let '(func, const_func, _) := f in
  kill_dead (outs ++ ins) dead_args (seq (length outs) (length ins)) ;;;
  free_clobbered ;;;
  (if nz (Z.land flags TCG_CALL_NO_READ_GLOBALS) then ret tt
   else if nz (Z.land flags TCG_CALL_NO_WRITE_GLOBALS) then sync_globals
   else save_globals) ;;;
  emit (HCall flags (map (type s) ins) nb_regs (length outs) func const_func) ;;;
  each (call_output l dead_args sync_args) (seq 0 (length outs)).

(** ** The loop *)
Definition tcg_reg_alloc_start (T : Z -> TCGTemp) (frame : Z) : alloc_state :=
  mkAlloc (fun i =>
    if i <? nb_globals s then T i <| val_type := if fixed_reg (T i) then TEMP_VAL_REG else TEMP_VAL_MEM |>
    else if i <? nb_temps s then
      T i <| val_type := if temp_local s i then TEMP_VAL_MEM else TEMP_VAL_DEAD |> <| mem_allocated := false |> <| fixed_reg := false |>
    else T i) (fun _ => -1) frame.

(** The consistency check after every operation. *)
Definition check_regs : M unit :=
  st <- gets id ;;
  each (fun r =>
    let k := reg_to_temp st r in
    when (0 <=? k) (when (negb (is_val TEMP_VAL_REG (temps st k)) || negb (reg (temps st k) =? r)) (abort TcgAbort)))
    (seqZ 0 (TCG_TARGET_NB_REGS tgt)) ;;;
  each (fun k =>
    let ts := temps st k in
    when (is_val TEMP_VAL_REG ts && negb (fixed_reg ts) && negb (reg_to_temp st (reg ts) =? k)) (abort TcgAbort)) (seqZ 0 (nb_temps s)).

(** What the liveness pass did not mark has no marks that are read. *)
Definition tcg_reg_alloc_entry (e : la_entry) : M unit :=
  let l := args (fst e) in
  let '(da, sa) := default (0, 0) (snd e) in
  match opc (fst e) with
  | op_mov _ => tcg_reg_alloc_mov (opc (fst e)) l da sa
  | op_movi _ => tcg_reg_alloc_movi l da sa
  | op_debug_insn_start | op_nop | op_nopn => ret tt
  | op_discard => temp_dead (arg l 0)
  | op_set_label => tcg_reg_alloc_bb_end ;;; emit (HLabel (arg l 0))
  | op_call => tcg_reg_alloc_call l da sa
  | op =>
      when (TCG_OPF_NOT_PRESENT tgt op) (abort TcgAbort) ;;;
      tcg_reg_alloc_op op l da sa
  end.

Definition tcg_gen_code_loop (q : list la_entry) : M unit :=
  each (fun e => tcg_reg_alloc_entry e ;;; check_regs) q.
End alloc.
End TcgReg.
