(* ===== verification/TcgHost.v ===== *)
(** The host under the register allocator: registers, memory, and what the
    instructions of [TcgReg.hinsn] do there.  The back end is a parameter as far
    as [Tcg.exec_op] leaves it open: an operation means on its places what it
    means on temporaries. *)
From Stdlib Require Import ZArith Lia Bool.
From stdpp Require Import base numbers list.
From S2P Require Import Prelude HostUtils TcgOp TcgOpt TcgRing TcgArith TcgSem TcgBits TcgSound TcgStep TcgProg TcgShape TcgLive TcgReg.
Local Open Scope Z_scope.

Module TcgHost.
Import Tcg TcgOpt TcgSem TcgStep TcgShape TcgLive TcgReg.

(** ** States

    [cell h p o]: the eight bytes at offset [o] from the pointer [p].  A 32-bit
    store leaves the upper half of a cell; a 32-bit instruction may leave anything
    in the upper half of the register it writes (on x86-64 a word is extended by
    zeros, a byte move keeps what was there). *)
Record hstate (W : Type) := mkHState {
  hreg : Z -> Z;
  cell : Z -> Z -> Z;
  hworld : W;
}.
Arguments mkHState {W}.
Arguments hreg {W}.
Arguments cell {W}.
Arguments hworld {W}.

Inductive hnext (W : Type) :=
| HFall (h : hstate W)
| HJump (label : Z) (h : hstate W)
| HLeave (h : hstate W)
| HUndef.
Arguments HFall {W}.
Arguments HJump {W}.
Arguments HLeave {W}.
Arguments HUndef {W}.

Section host.
Context {W : Type} (s : TCGContext) (tgt : Target) (T : Z -> TCGTemp) (host : Host W).
(** What a call leaves in the registers and the argument area it may use, and an
    instruction on words in the upper half of the register it writes. *)
Context (junk : hstate W -> hstate W).

Definition set_hreg (h : hstate W) (r v : Z) : hstate W :=
  mkHState (fun i => if i =? r then v else hreg h i) (cell h) (hworld h).
Definition merge (ty : width) (old new : Z) : Z := old - uwrap (bits ty) old + uwrap (bits ty) new.
Definition half (h : hstate W) (ty : width) (r v : Z) : Z := merge ty (hreg (junk h) r) v.
Definition set_cell (h : hstate W) (ty : width) (p o v : Z) : hstate W :=
  mkHState (hreg h)
    (fun p' o' => if (p' =? p) && (o' =? o) then merge ty (cell h p' o') v else cell h p' o')
    (hworld h).
Definition set_world (h : hstate W) (w : W) : hstate W := mkHState (hreg h) (cell h) w.

Definition in_call_area (o : Z) : bool :=
  (TCG_TARGET_CALL_STACK_OFFSET tgt <=? o) &&
  (o <? TCG_TARGET_CALL_STACK_OFFSET tgt + TCG_STATIC_CALL_ARGS_SIZE tgt).

Definition clobber (h : hstate W) : hstate W :=
  mkHState
    (fun r => if tcg_regset_test_reg (tcg_target_call_clobber_regs tgt) r then hreg (junk h) r else hreg h r)
    (fun p o => if (p =? hreg h (TCG_REG_CALL_STACK tgt)) && in_call_area o then cell (junk h) p o else cell h p o)
    (hworld h).

(** ** Globals

    In their register or at their place in memory; helpers leave the registers. *)
Definition fixed (t : Z) : bool := (t <? nb_globals s) && fixed_reg (T t).

Definition hglobal (h : hstate W) (t : Z) : Z :=
  uwrap (bits (type s t)) (if fixed t then hreg h (reg (T t)) else cell h (hreg h (mem_reg (T t))) (mem_offset (T t))).

Fixpoint set_globals (h : hstate W) (ts vs : list Z) : hstate W :=
  match ts, vs with
  | [], _ => h
  | t :: ts, vs =>
      set_globals (if fixed t then h else set_cell h (type s t) (hreg h (mem_reg (T t))) (mem_offset (T t)) (nth 0 vs 0))
        ts (drop 1 vs)
  end.

(** ** Instructions *)

(** The places of an operation as its temporaries. *)
Definition pos_ctx (tys : list width) : TCGContext :=
  mkContext 0 (Z.of_nat (length tys)) (fun j => nth (Z.to_nat j) tys W32) (fun _ => false).
Definition pos_value (h : hstate W) (new_args : list Z) (const_args : list bool) (j : Z) : Z :=
  let v := nth (Z.to_nat j) new_args 0 in
  if nth (Z.to_nat j) const_args false then v else hreg h v.

Fixpoint set_hregs (h : hstate W) (rs vs : list Z) : hstate W :=
  match rs, vs with
  | r :: rs, v :: vs => set_hregs (set_hreg h r v) rs vs
  | _, _ => h
  end.

Definition exec_hop (op : TCGOpcode) (tys : list width) (new_args : list Z) (const_args : list bool) (cargs : list Z)
    (h : hstate W) : hnext W :=
  let no := nb_oargs (tcg_op_defs op) in
  match exec_op (pos_ctx tys) host false (mkOp op (seqZ 0 (Z.of_nat (length tys)) ++ cargs))
          (mkState (pos_value h new_args const_args) (hworld h)) with
  | Fall m =>
      let h := if TCG_OPF_CALL_CLOBBER (tcg_op_defs op) then clobber h else h in
      HFall (set_world (set_hregs h (take no new_args)
        (map (fun j => half h (nth j tys W32) (nth j new_args 0) (regs m (Z.of_nat j))) (seq 0 no))) (world m))
  | Jump label m => HJump label (set_world h (world m))
  | Leave m => HLeave (set_world h (world m))
  | Undef => HUndef
  end.

(** The arguments of a call: in registers, on the stack, the function last. *)
Definition call_values (tys : list width) (nb_regs : nat) (func : Z) (const_func : bool) (h : hstate W) : list Z :=
  let np := (length tys - 1)%nat in
  map (fun j => uwrap (bits (nth j tys W32))
         (if (j <? nb_regs)%nat then hreg h (nth j (tcg_target_call_iarg_regs tgt) 0)
          else if (j <? np)%nat then
            cell h (hreg h (TCG_REG_CALL_STACK tgt)) (TCG_TARGET_CALL_STACK_OFFSET tgt + 8 * Z.of_nat (j - nb_regs))
          else if const_func then func else hreg h func))
    (seq 0 (length tys)).

Definition exec_hcall (flags : Z) (tys : list width) (nb_regs nb_oargs : nat) (func : Z) (const_func : bool)
    (h : hstate W) : hnext W :=
  let seen := if reads_globals flags then map (hglobal h) (globals s) else [] in
  let wr (g : list Z) := if writes_globals flags then set_globals (clobber h) (globals s) g else clobber h in
  match h_call host flags (call_values tys nb_regs func const_func h) seen (hworld h) with
  | CReturn vs g w =>
      HFall (set_world (set_hregs (wr g) (take nb_oargs (tcg_target_call_oarg_regs tgt))
        (map (fun i => nth i vs 0) (seq 0 nb_oargs))) w)
  | CLeave g w => HLeave (set_world (wr g) w)
  end.

Definition hexec (i : hinsn) (h : hstate W) : hnext W :=
  match i with
  | HSt ty r base o => HFall (set_cell h ty (hreg h base) o (hreg h r))
  | HLd ty r base o => HFall (set_hreg h r (half h ty r (cell h (hreg h base) o)))
  | HMovi ty r v => HFall (set_hreg h r (half h ty r v))
  | HMov ty d r => HFall (set_hreg h d (half h ty d (hreg h r)))
  | HOp op tys new_args const_args cargs => exec_hop op tys new_args const_args cargs h
  | HCall flags tys nb_regs nb_oargs func const_func => exec_hcall flags tys nb_regs nb_oargs func const_func h
  | HLabel _ => HFall h
  end.

Fixpoint hexecs (l : list hinsn) (h : hstate W) : hnext W :=
  match l with
  | [] => HFall h
  | i :: l => match hexec i h with HFall h => hexecs l h | n => n end
  end.

(** ** Code

    One list of instructions; a label is a position in it. *)
Fixpoint hlabel_pos (code : list hinsn) (label : Z) : option nat :=
  match code with
  | [] => None
  | HLabel l :: code => if l =? label then Some 1%nat else option_map S (hlabel_pos code label)
  | _ :: code => option_map S (hlabel_pos code label)
  end.

Inductive hbehaviour :=
| HLeft (h : hstate W)
| HFellOff (h : hstate W)
| HRunning (pc : nat) (h : hstate W)
| HUndefined.

Fixpoint hrun (fuel : nat) (code : list hinsn) (pc : nat) (h : hstate W) : hbehaviour :=
  match fuel with
  | O => HRunning pc h
  | S fuel =>
      match nth_error code pc with
      | None => HFellOff h
      | Some i =>
          match hexec i h with
          | HFall h => hrun fuel code (S pc) h
          | HJump label h =>
              match hlabel_pos code label with Some pc => hrun fuel code pc h | None => HUndefined end
          | HLeave h => HLeft h
          | HUndef => HUndefined
          end
      end
  end.

Lemma hexecs_app l1 l2 h :
  hexecs (l1 ++ l2) h = match hexecs l1 h with HFall h => hexecs l2 h | n => n end.
Proof. revert h. induction l1 as [|i l1 IH]; intros h; [done|]. cbn. by destruct (hexec i h). Qed.
End host.
End TcgHost.
