(* ===== verification/TcgMeaning.v ===== *)
(** What an operation means on temporaries it means on the places of its
    arguments. *)
From Stdlib Require Import ZArith Lia Bool.
From stdpp Require Import base numbers list sets.
From S2P Require Import Prelude HostUtils TcgOp TcgOpt TcgRing TcgArith TcgSem TcgBits TcgSound TcgStep TcgProg TcgShape TcgLive TcgReg TcgHost.
Local Open Scope Z_scope.

Module TcgMeaning.
Import HostUtils.HostUtils Tcg TcgOpt TcgRing TcgArith TcgSem TcgBits TcgSound TcgStep TcgProg TcgShape TcgLive TcgReg TcgHost.

(** The operations that [tcg_reg_alloc_op] is for. *)
Definition by_constraints (op : TCGOpcode) : bool :=
  match op with
  | op_nop | op_nopn | op_discard | op_set_label | op_call | op_mov _ | op_movi _ | op_debug_insn_start => false
  | _ => true
  end.

(** Inputs of the type the operation reads. *)
Definition typed_inputs (s : TCGContext) (op : TCGOpcode) (l : list Z) : Prop :=
  forall j w, is_input op j -> in_type op = Some w -> type s (arg l j) = w.

Section places.
Context {W : Type} (s : TCGContext) (host : Host W).

Definition operands (op : TCGOpcode) : nat := oargs op + iargs op.
Definition pos_types (op : TCGOpcode) (l : list Z) : list width := map (type s) (take (operands op) l).
Definition pos_args (op : TCGOpcode) (l : list Z) : list Z := seqZ 0 (Z.of_nat (operands op)) ++ drop (operands op) l.

Definition same_operands (op : TCGOpcode) (l : list Z) (m m0 : mstate W) : Prop :=
  world m0 = world m /\
  forall j, is_input op j -> uwrap (bits (type s (arg l j))) (regs m (arg l j)) = uwrap (bits (type s (arg l j))) (regs m0 (Z.of_nat j)).

Definition unchanged (m m1 n1 : mstate W) : Prop := world n1 = world m1 /\ forall t, regs m1 t = regs m t.

Definition same_effect (op : TCGOpcode) (l : list Z) (m : mstate W) (n1 n2 : next W) : Prop :=
  match n1, n2 with
  | Undef, _ => True
  | Fall m1, Fall m2 => world m2 = world m1 /\
      (forall j, (j < oargs op)%nat -> regs m1 (arg l j) = regs m2 (Z.of_nat j)) /\
      (forall t, t ∉ outputs (mkOp op l) -> regs m1 t = regs m t)
  | Jump l1 m1, Jump l2 m2 => l1 = l2 /\ unchanged m m1 m2
  | Leave m1, Leave m2 => unchanged m m1 m2
  | _, _ => False
  end.

Lemma puts_nth (m : mstate W) ts vs j :
  NoDup ts -> (j < length ts)%nat -> regs (puts m ts vs) (nth j ts 0) = nth j vs 0.
Proof.
  revert m vs j. induction ts as [|t ts IH]; intros m vs j Hn Hj; cbn in Hj; [lia|].
  apply NoDup_cons in Hn as [Ht Hn].
  assert (forall x, regs (puts (put m t x) ts (drop 1 vs)) (nth j (t :: ts) 0) = nth j (x :: drop 1 vs) 0) as H.
  { intros x. destruct j as [|j]; cbn [nth].
    - rewrite puts_other by done. cbn. unfold rset. by rewrite Z.eqb_refl.
    - apply IH; [done|lia]. }
  destruct vs as [|v vs]; cbn [puts].
  - specialize (H 0). cbn [drop] in H. rewrite H. by destruct j as [|[|j]].
  - apply (H v).
Qed.

Lemma nth_seqZ n j : (j < n)%nat -> nth j (seqZ 0 (Z.of_nat n)) 0 = Z.of_nat j.
Proof. intros Hj. rewrite nth_lookup, lookup_seqZ_lt by lia. cbn. lia. Qed.

(** Two assignments of the same values. *)
Lemma same_fall op l (m m0 : mstate W) w vs :
  op <> op_call -> (oargs op <= length l)%nat -> NoDup (outputs (mkOp op l)) ->
  same_effect op l m (Fall (puts (mkState (regs m) w) (take (oargs op) l) vs))
    (Fall (puts (mkState (regs m0) w) (seqZ 0 (Z.of_nat (oargs op))) vs)).
Proof.
  intros Hc Hl Hn. rewrite outputs_eq in Hn by done. split; [by rewrite !puts_world|]. split.
  - intros j Hj. assert (arg l j = nth j (take (oargs op) l) 0) as ->.
    { unfold arg. rewrite !nth_lookup. by rewrite lookup_take_lt. }
    rewrite puts_nth by (rewrite ?length_take; done || lia).
    rewrite <- (nth_seqZ (oargs op) j) by done. rewrite puts_nth; [done| |rewrite length_seqZ; lia].
    apply NoDup_seqZ.
  - intros t Ht. rewrite outputs_eq in Ht by done. by rewrite puts_other.
Qed.

Lemma pos_type op l j :
  (j < operands op)%nat -> (operands op <= length l)%nat -> type (pos_ctx (pos_types op l)) (Z.of_nat j) = type s (arg l j).
Proof.
  intros Hj Hl. cbn. rewrite Nat2Z.id. unfold pos_types. rewrite nth_lookup, list_lookup_fmap, lookup_take_lt by done.
  unfold arg. rewrite nth_lookup. by destruct (lookup_lt_is_Some_2 l j) as [x ->]; [lia|].
Qed.

Lemma args_seq n k (l : list Z) : (n + k <= length l)%nat -> take k (drop n l) = map (arg l) (seq n k).
Proof.
  revert n. induction k as [|k IH]; intros n Hl; [done|]. rewrite take_S_arg by lia. cbn [seq map]. f_equal. apply IH. lia.
Qed.

Lemma arg_pos op l j : (j < operands op)%nat -> arg (pos_args op l) j = Z.of_nat j.
Proof.
  intros Hj. unfold arg, pos_args. rewrite app_nth1 by (rewrite length_seqZ; lia). by apply nth_seqZ.
Qed.

Lemma length_pos_args op l : (operands op <= length l)%nat -> length (pos_args op l) = length l.
Proof. intros Hl. unfold pos_args. rewrite length_app, length_seqZ, length_drop. lia. Qed.

Lemma outs_pos op l : (operands op <= length l)%nat -> take (oargs op) (pos_args op l) = seqZ 0 (Z.of_nat (oargs op)).
Proof.
  intros Hl. unfold pos_args, operands. rewrite take_app_le by (rewrite length_seqZ; lia).
  replace (Z.of_nat (oargs op + iargs op)) with (Z.of_nat (oargs op) + Z.of_nat (iargs op)) by lia.
  rewrite seqZ_app by lia. rewrite take_app_le by (rewrite length_seqZ; lia). apply take_ge. rewrite length_seqZ. lia.
Qed.

Lemma cargs_pos op l : drop (operands op) (pos_args op l) = drop (operands op) l.
Proof. unfold pos_args. rewrite drop_app_ge, length_seqZ by (rewrite length_seqZ; lia). by rewrite Nat2Z.id, Nat.sub_diag. Qed.

Section same.
Context (op : TCGOpcode) (l : list Z) (m m0 : mstate W).
Context (Hc : op <> op_call) (Hlen : length l = nb_args (tcg_op_defs op)) (Hnd : NoDup (outputs (mkOp op l))).
Context (Hty : typed_inputs s op l) (Hsame : same_operands op l m m0).

Lemma operands_le : (operands op <= length l)%nat.
Proof. rewrite Hlen. unfold nb_args, operands, oargs, iargs. lia. Qed.

Lemma same_opnd j w : is_input op j -> in_type op = Some w -> opnd w m (arg l j) = opnd w m0 (Z.of_nat j).
Proof. intros Hj Hw. destruct Hsame as [_ Hin]. specialize (Hin j Hj). rewrite (Hty j w Hj Hw) in Hin. exact Hin. Qed.

Lemma same_opnd32 j w : is_input op j -> u32 (opnd w m (arg l j)) = u32 (opnd w m0 (Z.of_nat j)).
Proof.
  intros Hj. destruct Hsame as [_ Hin]. specialize (Hin j Hj). unfold opnd.
  rewrite !(uwrap_min 32) by (destruct w; cbn; lia).
  rewrite <- (uwrap_min 32 (bits (type s (arg l j))) (regs m _)), Hin by (destruct (type s _); cbn; lia).
  apply uwrap_min. destruct (type s _); cbn; lia.
Qed.

Lemma exec_places_opaque k :
  opaque op = true -> same_effect op l m (exec_op s host k (mkOp op l) m)
    (exec_op (pos_ctx (pos_types op l)) host false (mkOp op (pos_args op l)) m0).
Proof.
  intros Ho. pose proof operands_le as Hl. rewrite !exec_opaque_eq by done. unfold exec_opaque. cbn [opc args].
  fold (oargs op) (iargs op). fold (operands op). rewrite cargs_pos, (outs_pos op l Hl), length_seqZ, length_take.
  rewrite !args_seq, !map_map by (rewrite ?length_pos_args; unfold operands in *; lia).
  assert (map (fun x => value (pos_ctx (pos_types op l)) m0 (arg (pos_args op l) x)) (seq (oargs op) (iargs op)) =
    map (fun x => value s m (arg l x)) (seq (oargs op) (iargs op))) as ->.
  { apply map_ext_in. intros j Hj%in_seq. assert (is_input op j) as Hin by (unfold is_input; lia).
    rewrite arg_pos by (unfold operands; lia). unfold value, opnd. rewrite pos_type by (unfold operands in *; lia).
    symmetry. by apply Hsame. }
  destruct Hsame as [-> _]. replace (Z.to_nat (Z.of_nat (oargs op))) with (oargs op) by lia.
  rewrite Nat.min_l by (unfold operands in Hl; lia).
  destruct (h_op _ _ _ _ _) as [vs w|w]; [|done]. apply same_fall; [done|unfold operands in Hl; lia|done].
Qed.
End same.

Ltac pos_explicit :=
  repeat match goal with
  | |- context [pos_args ?o ?l] => let v := eval cbv in (pos_args o l) in change (pos_args o l) with v
  end.
Ltac operand_at H j := let E := fresh "E" in pose proof (H j _ ltac:(input) eq_refl) as E; cbn in E; try rewrite E; clear E.

(** An operation on temporaries and on places. *)
Lemma exec_places op l k m m0 :
  by_constraints op = true -> length l = nb_args (tcg_op_defs op) -> NoDup (outputs (mkOp op l)) -> typed_inputs s op l ->
  same_operands op l m m0 ->
  same_effect op l m (exec_op s host k (mkOp op l) m)
    (exec_op (pos_ctx (pos_types op l)) host false (mkOp op (pos_args op l)) m0).
Proof.
  intros Hop Hlen Hnd Hty Hs. assert (op <> op_call) as Hc by (by intros ->).
  destruct (opaque op) eqn:Hopq; [by apply exec_places_opaque|].
  pose proof (same_opnd op l m m0 Hty Hs) as Ho. pose proof (same_opnd32 op l m m0 Hlen Hs) as Ho32.
  destruct Hs as [Hw _].
  assert (forall vs, same_effect op l m (Fall (puts m (take (oargs op) l) vs)) (Fall (puts m0 (seqZ 0 (Z.of_nat (oargs op))) vs))) as Hf.
  { intros vs. destruct m as [r w], m0 as [r0 w0]. cbn in Hw. subst w0. apply (same_fall op l (mkState r w) (mkState r0 w)); [done| |done].
    pose proof (operands_le op l Hlen). unfold operands in *. lia. }
  assert (unchanged m m m0) as Hsame by done. clear Hty Hnd.
  assert (forall w o x, take (oargs op) l = [o] -> same_effect op l m (result w m o x) (result w m0 0 x)) as Hres.
  { intros w o x Eo. destruct x as [x|]; [|done]. specialize (Hf [x]). rewrite Eo in Hf.
    assert (oargs op = 1)%nat as No; [|by rewrite No in Hf].
    assert (length (take (oargs op) l) = 1)%nat as E1 by (by rewrite Eo). rewrite length_take, Hlen in E1.
    unfold nb_args, oargs in *. lia. }
  destruct op; try done.
  all: try destruct b; args_of l Hlen; cbn [exec_op opc args]; pos_explicit; unfold arg in *; cbn [nth];
    try operand_at Ho 0%nat; try operand_at Ho 1%nat; try operand_at Ho 2%nat; try operand_at Ho 3%nat;
    try operand_at Ho 4%nat; try operand_at Ho 5%nat; try (by apply Hres).
  - assert (forall c : bool, opnd w m (if c then z2 else z3) = opnd w m0 (if c then 3 else 4)) as Ec.
    { intros []; [apply (Ho 3%nat)|apply (Ho 4%nat)]; (input || done). }
    change (Z.of_nat 1) with 1. change (Z.of_nat 2) with 2. destruct (cond_sem _ _ _ _) as [c|]; [|done]. cbn [option_map].
    rewrite Ec. by apply Hres.
  - assert (un_sem u (bits w) (opnd w m z0) = un_sem u (bits w) (opnd w m0 1)) as ->; [|by apply Hres].
    destruct u; first [by apply ext32_low; [auto|apply (Ho32 1%nat); input]|f_equal; apply (Ho 1%nat); (input || done)].
  - change (Z.of_nat 0) with 0. change (Z.of_nat 1) with 1. destruct (cond_sem _ _ _ _) as [[]|]; [done|apply (Hf [])|done].
  - change (Z.of_nat 0) with 0. change (Z.of_nat 1) with 1. change (Z.of_nat 2) with 2. change (Z.of_nat 3) with 3.
    destruct (cond_sem _ _ _ _) as [[]|]; [done|apply (Hf [])|done].
  - apply (Hf [_; _]).
  - apply (Hf [_; _]).
  - apply (Hf [_; _]).
  - apply (Hf [_; _]).
Qed.
End places.
End TcgMeaning.
