(* ===== verification/TcgPlace.v ===== *)
(** Where the temporaries are: the invariant of the register allocator's tables,
    the relation between them and the host, and what the steps that only move
    values keep of both. *)
From Stdlib Require Import ZArith Lia Bool.
From stdpp Require Import base numbers list.
From S2P Require Import Prelude HostUtils TcgOp TcgOpt TcgRing TcgArith TcgSem TcgBits TcgSound TcgStep TcgProg TcgShape TcgLive TcgReg TcgHost.
Local Open Scope Z_scope.

Module TcgPlace.
Import Tcg TcgOpt TcgRing TcgArith TcgSem TcgSound TcgStep TcgProg TcgShape TcgLive TcgReg TcgHost.

Section place.
Context (s : TCGContext) (tgt : Target) (T : Z -> TCGTemp).
Notation valid := (valid s).
Notation is_global := (is_global s).
Notation fixed := (fixed s T).
Notation in_call_area := (in_call_area tgt).

(** ** The layout of registers and memory *)
Definition reserved (r : Z) : bool := tcg_regset_test_reg (reserved_regs tgt) r.
Definition align8 (o : Z) : Z := Z.land (o + 8 - 1) (Z.lnot (8 - 1)).

Lemma align8_div o : align8 o = (o + 7) / 8 * 8.
Proof.
  unfold align8. change (Z.lnot (8 - 1)) with (Z.lnot (Z.ones 3)). rewrite <- Z.ldiff_land, Z.ldiff_ones_r by lia.
  rewrite Z.shiftl_mul_pow2, Z.shiftr_div_pow2 by lia. do 2 f_equal. lia.
Qed.

Lemma align8_bounds o : o <= align8 o < o + 8.
Proof. rewrite align8_div. pose proof (Z.div_mod (o + 7) 8). pose proof (Z.mod_pos_bound (o + 7) 8). lia. Qed.

Lemma align8_next o : align8 (align8 o + 8) = align8 o + 8.
Proof.
  rewrite !align8_div. set (q := (o + 7) / 8). replace (q * 8 + 8 + 7) with (7 + (q + 1) * 8) by lia.
  rewrite Z.div_add by lia. change (7 / 8) with 0. lia.
Qed.

(** The registers that point to memory. *)
Definition is_base (b : Z) : Prop :=
  b = frame_reg tgt \/ b = TCG_REG_CALL_STACK tgt \/ exists t, is_global t /\ fixed t = false /\ b = mem_reg (T t).
Definition in_frame (o : Z) : Prop := frame_start tgt <= o < frame_end tgt.

Record layout_ok : Prop := {
  ly_globals : 0 <= nb_globals s <= nb_temps s;
  ly_order : forall r, r ∈ tcg_target_reg_alloc_order tgt -> 0 <= r;
  ly_base : forall b, is_base b -> reserved b = true;
  ly_fixed : forall t, is_global t -> fixed t = true -> reserved (reg (T t)) = true;
  ly_allocated : forall t, is_global t -> fixed t = false -> mem_allocated (T t) = true;
  ly_apart : forall t u, is_global t -> is_global u -> fixed t = false -> fixed u = false ->
    mem_reg (T t) = mem_reg (T u) -> mem_offset (T t) = mem_offset (T u) -> t = u;
  ly_frame : forall t, is_global t -> fixed t = false -> mem_reg (T t) = frame_reg tgt -> ~ in_frame (mem_offset (T t));
  ly_stack : forall t, is_global t -> fixed t = false -> mem_reg (T t) = TCG_REG_CALL_STACK tgt ->
    in_call_area (mem_offset (T t)) = false;
  ly_frame_stack : forall o, frame_reg tgt = TCG_REG_CALL_STACK tgt -> in_frame o -> in_call_area o = false;
  ly_clobber : forall r, tcg_regset_test_reg (tcg_target_call_clobber_regs tgt) r = true ->
    0 <= r < TCG_TARGET_NB_REGS tgt /\ reserved r = false;
  ly_room : align8 (frame_start tgt) + 8 * (nb_temps s - nb_globals s) <= frame_end tgt;
}.
Hypothesis (HL : layout_ok).

(** ** The invariant *)
Definition slot (A : alloc_state) (t : Z) : option (Z * Z) :=
  if mem_allocated (temps A t) then Some (mem_reg (temps A t), mem_offset (temps A t)) else None.

Definition others : list Z := seqZ (nb_globals s) (nb_temps s - nb_globals s).
Definition unallocated (A : alloc_state) : Z :=
  Z.of_nat (length (filter (fun t => mem_allocated (temps A t) = false) others)).

Definition in_reg (ts : TCGTemp) : bool := is_val TEMP_VAL_REG ts.
Definition room_reg (r : Z) : Prop := 0 <= r /\ reserved r = false.

Record wf (A : alloc_state) : Prop := {
  wf_map : forall r, reg_to_temp A r <> -1 ->
    valid (reg_to_temp A r) /\ fixed (reg_to_temp A r) = false /\
    in_reg (temps A (reg_to_temp A r)) = true /\ reg (temps A (reg_to_temp A r)) = r;
  wf_reg : forall t, valid t -> fixed t = false -> in_reg (temps A t) = true ->
    reg_to_temp A (reg (temps A t)) = t /\ room_reg (reg (temps A t));
  wf_fixed : forall t, valid t -> fixed_reg (temps A t) = fixed t;
  wf_pinned : forall t, valid t -> fixed t = true -> in_reg (temps A t) = true /\ reg (temps A t) = reg (T t);
  wf_global : forall t, is_global t -> fixed t = false -> slot A t = Some (mem_reg (T t), mem_offset (T t));
  wf_local : forall t b o, valid t -> nb_globals s <= t -> slot A t = Some (b, o) ->
    b = frame_reg tgt /\ frame_start tgt <= o /\ o + 8 <= current_frame_offset A;
  wf_apart : forall t u b o, valid t -> valid u -> nb_globals s <= t -> nb_globals s <= u ->
    slot A t = Some (b, o) -> slot A u = Some (b, o) -> t = u;
  wf_room : frame_start tgt <= current_frame_offset A /\
    align8 (current_frame_offset A) + 8 * unallocated A <= frame_end tgt;
  wf_coherent : forall t, valid t -> fixed t = false -> in_reg (temps A t) = true -> mem_coherent (temps A t) = true ->
    slot A t <> None;
}.

(** Slots stay where they are. *)
Definition extends (A A' : alloc_state) : Prop :=
  forall t b, valid t -> fixed t = false -> slot A t = Some b -> slot A' t = Some b.

Lemma extends_refl A : extends A A.
Proof. by intros t b. Qed.
Lemma extends_trans A1 A2 A3 : extends A1 A2 -> extends A2 A3 -> extends A1 A3.
Proof. intros H1 H2 t b Ht Hf Hs. by apply H2, H1. Qed.

(** Two temporaries never share a slot. *)
Lemma slots_apart A t u b o :
  wf A -> valid t -> valid u -> fixed t = false -> fixed u = false ->
  slot A t = Some (b, o) -> slot A u = Some (b, o) -> t = u.
Proof.
  intros HA Ht Hu Ft Fu Et Eu.
  assert (forall x y, valid x -> valid y -> fixed x = false -> x < nb_globals s -> nb_globals s <= y ->
    slot A x = Some (b, o) -> slot A y = Some (b, o) -> False) as Hmix.
  { intros x y Hx Hy Fx Lx Ly Ex Ey. assert (is_global x) as Gx by (unfold is_global, valid in *; lia).
    rewrite (wf_global A HA x Gx Fx) in Ex. injection Ex as <- <-.
    destruct (wf_local A HA y _ _ Hy Ly Ey) as (Eb & Ho & Hc). apply (ly_frame HL x Gx Fx Eb). split; [done|].
    destruct (wf_room A HA) as [_ Hr]. unfold unallocated in Hr.
    pose proof (align8_bounds (current_frame_offset A)). lia. }
  destruct (Z.lt_ge_cases t (nb_globals s)) as [Lt|Gt], (Z.lt_ge_cases u (nb_globals s)) as [Lu|Gu].
  - assert (is_global t /\ is_global u) as [It Iu] by (unfold is_global, valid in *; lia).
    rewrite (wf_global A HA t It Ft) in Et. rewrite (wf_global A HA u Iu Fu) in Eu.
    apply (ly_apart HL); try done; congruence.
  - by destruct (Hmix t u).
  - by destruct (Hmix u t).
  - by apply (wf_apart A HA t u b o).
Qed.

(** *** A temporary moves *)
Record replaced (A : alloc_state) (t : Z) (ts : TCGTemp) (A' : alloc_state) : Prop := {
  rp_temp : forall u, temps A' u = if u =? t then ts else temps A u;
  rp_map : forall r, reg_to_temp A' r =
    if in_reg ts && (r =? reg ts) then t
    else if in_reg (temps A t) && (r =? reg (temps A t)) then -1 else reg_to_temp A r;
  rp_offset : current_frame_offset A' = current_frame_offset A;
}.

(** The same slot, no pinning. *)
Definition same_slot (ts ts' : TCGTemp) : Prop :=
  mem_allocated ts' = mem_allocated ts /\ mem_reg ts' = mem_reg ts /\ mem_offset ts' = mem_offset ts /\
  fixed_reg ts' = fixed_reg ts.

Lemma replaced_slot A t ts A' u : replaced A t ts A' -> same_slot (temps A t) ts -> slot A' u = slot A u.
Proof.
  intros HR (S1 & S2 & S3 & _). unfold slot. rewrite (rp_temp _ _ _ _ HR u).
  destruct (Z.eqb_spec u t) as [->|]; [|done]. by rewrite S1, S2, S3.
Qed.

Lemma replaced_extends A t ts A' : replaced A t ts A' -> same_slot (temps A t) ts -> extends A A'.
Proof. intros HR HS u b _ _ Hu. by rewrite (replaced_slot A t ts A'). Qed.

Lemma unallocated_ext A A' : (forall t, mem_allocated (temps A' t) = mem_allocated (temps A t)) -> unallocated A' = unallocated A.
Proof. intros H. unfold unallocated. do 2 f_equal. apply filter_ext_elem. intros t _. by rewrite H. Qed.

Lemma replaced_wf A t ts A' :
  wf A -> valid t -> fixed t = false -> replaced A t ts A' -> same_slot (temps A t) ts ->
  (in_reg ts = true -> room_reg (reg ts) /\ (reg_to_temp A (reg ts) = -1 \/ reg_to_temp A (reg ts) = t) /\
     (mem_coherent ts = true -> slot A t <> None)) ->
  wf A'.
Proof.
  intros HA Ht Ft HR HS Hr. pose proof (fun u => replaced_slot A t ts A' u HR HS) as Hs.
  pose proof (rp_temp _ _ _ _ HR) as Hu. pose proof (rp_map _ _ _ _ HR) as Hm. split.
  - intros r Hn. rewrite Hm in Hn |- *. destruct (in_reg ts && (r =? reg ts)) eqn:E1.
    { apply andb_true_iff in E1 as [E1 ->%Z.eqb_eq]. by rewrite Hu, Z.eqb_refl. }
    destruct (in_reg (temps A t) && (r =? reg (temps A t))) eqn:E2; [done|].
    destruct (wf_map A HA r Hn) as (V & F & R & Er). split; [done|]. split; [done|]. rewrite Hu.
    destruct (Z.eqb_spec (reg_to_temp A r) t) as [E|]; [|done].
    rewrite E in R, Er. by rewrite R, Er, Z.eqb_refl in E2.
  - intros u Vu Fu Ru. rewrite Hu in Ru |- *. destruct (Z.eqb_spec u t) as [->|Hn].
    { split; [|by apply Hr]. by rewrite Hm, Ru, Z.eqb_refl. }
    destruct (wf_reg A HA u Vu Fu Ru) as [Eu Ru']. split; [|done]. rewrite Hm.
    destruct (in_reg ts && _) eqn:E1.
    { apply andb_true_iff in E1 as [E1 E1'%Z.eqb_eq]. destruct (Hr E1) as (_ & [Em|Em] & _); rewrite <- E1', Eu in Em.
      - subst u. by destruct Vu.
      - done. }
    destruct (in_reg (temps A t) && _) eqn:E2; [|done].
    apply andb_true_iff in E2 as [E2 E2'%Z.eqb_eq]. destruct (wf_reg A HA t Ht Ft E2) as [Et _].
    rewrite <- E2', Eu in Et. by symmetry in Et.
  - intros u Vu. rewrite Hu. destruct (Z.eqb_spec u t) as [->|]; [|by apply wf_fixed].
    destruct HS as (_ & _ & _ & ->). by apply wf_fixed.
  - intros u Vu Fu. rewrite Hu. destruct (Z.eqb_spec u t) as [->|]; [congruence|by apply wf_pinned].
  - intros u Gu Fu. rewrite Hs. by apply wf_global.
  - intros u b o Vu Nu. rewrite Hs, (rp_offset _ _ _ _ HR). by apply wf_local.
  - intros u v b o. rewrite !Hs. by apply wf_apart.
  - rewrite (rp_offset _ _ _ _ HR), (unallocated_ext A A'); [by apply wf_room|].
    intros u. rewrite Hu. destruct (Z.eqb_spec u t) as [->|]; [|done]. by destruct HS as [-> _].
  - intros u Vu Fu Ru Cu. rewrite Hs. rewrite Hu in Ru, Cu. destruct (Z.eqb_spec u t) as [->|]; [by apply Hr|].
    by apply (wf_coherent A HA).
Qed.

(** *** A slot is taken *)
Record placed (A : alloc_state) (t : Z) (A' : alloc_state) : Prop := {
  pl_temp : forall u, temps A' u = if u =? t
    then (temps A t) <| mem_offset := align8 (current_frame_offset A) |> <| mem_reg := frame_reg tgt |> <| mem_allocated := true |>
    else temps A u;
  pl_map : forall r, reg_to_temp A' r = reg_to_temp A r;
  pl_offset : current_frame_offset A' = align8 (current_frame_offset A) + 8;
}.

Lemma filter_drop_one {X} (P Q : X -> Prop) `{!forall x, Decision (P x), !forall x, Decision (Q x)} (l : list X) x :
  x ∈ l -> P x -> ~ Q x -> (forall y, Q y -> P y) -> (length (filter Q l) < length (filter P l))%nat.
Proof.
  intros Hx HP HQ HPQ. assert (forall l, length (filter Q l) <= length (filter P l))%nat as Hle.
  { intros l'. induction l' as [|y l' IH]; [done|]. rewrite !filter_cons. repeat case_decide; cbn; try lia. naive_solver. }
  induction l as [|y l IH]; [by apply elem_of_nil in Hx|]. rewrite !filter_cons. apply elem_of_cons in Hx as [<-|Hx].
  - rewrite decide_False, decide_True by done. cbn. specialize (Hle l). lia.
  - specialize (IH Hx). repeat case_decide; cbn; try lia. naive_solver.
Qed.

Section placed.
Context (A A' : alloc_state) (t : Z) (HA : wf A) (Ht : valid t) (Gt : nb_globals s <= t) (Nt : slot A t = None) (HP : placed A t A').

Lemma placed_slot u : slot A' u = if u =? t then Some (frame_reg tgt, align8 (current_frame_offset A)) else slot A u.
Proof. unfold slot. rewrite (pl_temp _ _ _ HP). by destruct (u =? t). Qed.

Lemma placed_extends : extends A A'.
Proof. intros u b _ _ Hu. rewrite placed_slot. destruct (Z.eqb_spec u t) as [->|]; [congruence|done]. Qed.

Lemma placed_fewer : unallocated A' + 1 <= unallocated A.
Proof.
  unfold unallocated.
  assert (length (filter (fun u => mem_allocated (temps A' u) = false) others) <
          length (filter (fun u => mem_allocated (temps A u) = false) others))%nat; [|lia].
  apply (filter_drop_one _ _ others t).
  - apply elem_of_seqZ. unfold valid in Ht. lia.
  - revert Nt. unfold slot. by destruct (mem_allocated _).
  - rewrite (pl_temp _ _ _ HP), Z.eqb_refl. done.
  - intros u. rewrite (pl_temp _ _ _ HP). by destruct (u =? t).
Qed.

Lemma placed_wf : wf A'.
Proof.
  pose proof (pl_temp _ _ _ HP) as Hu. pose proof (align8_bounds (current_frame_offset A)) as Ha.
  assert (forall u, in_reg (temps A' u) = in_reg (temps A u) /\ reg (temps A' u) = reg (temps A u) /\
    fixed_reg (temps A' u) = fixed_reg (temps A u) /\ mem_coherent (temps A' u) = mem_coherent (temps A u)) as Hs.
  { intros u. rewrite Hu. by destruct (Z.eqb_spec u t) as [->|]. }
  destruct (wf_room A HA) as [R1 R2]. pose proof placed_fewer as Hf. unfold unallocated in Hf at 1. split.
  - intros r. rewrite (pl_map _ _ _ HP). destruct (Hs (reg_to_temp A r)) as (-> & -> & _). by apply wf_map.
  - intros u. rewrite (pl_map _ _ _ HP). destruct (Hs u) as (-> & -> & _). by apply wf_reg.
  - intros u. destruct (Hs u) as (_ & _ & -> & _). by apply wf_fixed.
  - intros u. destruct (Hs u) as (-> & -> & _). by apply wf_pinned.
  - intros u Gu Fu. rewrite placed_slot. destruct (Z.eqb_spec u t) as [->|]; [unfold is_global in Gu; lia|by apply wf_global].
  - intros u b o Vu Nu. rewrite placed_slot, (pl_offset _ _ _ HP). destruct (u =? t).
    + intros [= <- <-]. split; [done|]. lia.
    + intros Hb. destruct (wf_local A HA u b o Vu Nu Hb) as (-> & ? & ?). split; [done|]. lia.
  - assert (forall u b, valid u -> nb_globals s <= u -> slot A u <> Some (b, align8 (current_frame_offset A))) as Hnew.
    { intros u b Vu Gu Eu. destruct (wf_local A HA u _ _ Vu Gu Eu) as (_ & _ & ?). lia. }
    intros u v b o Vu Vv Gu Gv. rewrite !placed_slot.
    destruct (Z.eqb_spec u t) as [->|], (Z.eqb_spec v t) as [->|]; [done|..].
    + intros [= <- <-] E. by destruct (Hnew v _ Vv Gv E).
    + intros E [= <- <-]. by destruct (Hnew u _ Vu Gu E).
    + by apply wf_apart.
  - rewrite (pl_offset _ _ _ HP), align8_next. pose proof placed_fewer. lia.
  - intros u Vu Fu. destruct (Hs u) as (-> & _ & _ & ->). intros Ru Cu. rewrite placed_slot. destruct (u =? t); [done|].
    by apply wf_coherent.
Qed.

Lemma placed_room : align8 (current_frame_offset A) + 8 <= frame_end tgt.
Proof.
  destruct (wf_room A HA) as [_ R]. assert (1 <= unallocated A); [|lia]. pose proof placed_fewer.
  assert (0 <= unallocated A') by (unfold unallocated; lia). lia.
Qed.
End placed.

(** ** The allocator and the liveness pass

    [D]: temporaries that have been written; [K]: that may be constants. *)
Definition dead_type (t : Z) : TCGTempVal :=
  if (t <? nb_globals s) || temp_local s t then TEMP_VAL_MEM else TEMP_VAL_DEAD.

Record tok (L : live_state) (D K : list Z) (t : Z) (ts : TCGTemp) : Prop := {
  tk_dead : dead_temps L t = true -> val_type ts = dead_type t;
  tk_gone : val_type ts = TEMP_VAL_DEAD -> dead_temps L t = true;
  tk_mem : mem_temps L t = true -> val_type ts = TEMP_VAL_MEM \/ (in_reg ts = true /\ mem_coherent ts = true);
  tk_slot : val_type ts = TEMP_VAL_MEM -> live L t -> t ∈ D -> mem_allocated ts = true;
  tk_const : val_type ts = TEMP_VAL_CONST -> t ∈ K;
}.

Record inv (L : live_state) (D K : list Z) (A : alloc_state) : Prop := {
  inv_wf : wf A;
  inv_tok : forall t, valid t -> fixed t = false -> tok L D K t (temps A t);
}.

(** ** The allocator and the host

    [E]: the tables at the end, which know every slot; [B]: the pointers in the
    reserved registers; [X]: temporaries that are being assigned; [v]: the values
    of the temporaries, of which only the bits of their type count. *)
Definition veq (t x y : Z) : Prop := uwrap (bits (type s t)) x = uwrap (bits (type s t)) y.

Definition bases_apart (B : Z -> Z) : Prop := forall b b', is_base b -> is_base b' -> B b = B b' -> b = b'.

Section host.
Context {W : Type} (host : Host W) (junk : hstate W -> hstate W).
Notation hexecs := (hexecs s tgt T host junk).

Definition in_slot (E : alloc_state) (B : Z -> Z) (h : hstate W) (t x : Z) : Prop :=
  forall b o, slot E t = Some (b, o) -> veq t x (cell h (B b) o).

Definition holds (E : alloc_state) (B : Z -> Z) (L : live_state) (ts : TCGTemp) (x : Z) (h : hstate W) (t : Z) : Prop :=
  match val_type ts with
  | TEMP_VAL_REG => veq t x (hreg h (reg ts)) /\ (mem_coherent ts = true -> in_slot E B h t x)
  | TEMP_VAL_CONST => veq t x (val ts)
  | TEMP_VAL_MEM => live L t -> in_slot E B h t x
  | TEMP_VAL_DEAD => True
  end.

Record rel (E : alloc_state) (B : Z -> Z) (X : list Z) (L : live_state) (A : alloc_state) (v : Z -> Z) (h : hstate W)
    : Prop := {
  rel_base : forall r, reserved r = true -> hreg h r = B r;
  rel_fixed : forall t, valid t -> fixed t = true -> veq t (v t) (B (reg (T t)));
  rel_temp : forall t, valid t -> fixed t = false -> t ∉ X -> holds E B L (temps A t) (v t) h t;
}.

Lemma holds_frame E B L ts x h h' t :
  holds E B L ts x h t -> (in_reg ts = true -> hreg h' (reg ts) = hreg h (reg ts)) ->
  (forall b o, slot E t = Some (b, o) -> cell h' (B b) o = cell h (B b) o) -> holds E B L ts x h' t.
Proof.
  intros Hh Hr Hc. assert (in_slot E B h t x -> in_slot E B h' t x) as Hs.
  { intros H b o Eb. rewrite Hc by done. by apply H. }
  unfold holds in *. unfold in_reg, is_val in Hr. destruct (val_type ts); try (by auto).
  rewrite Hr by done. destruct Hh. auto.
Qed.

Lemma holds_live E B L L' ts x h t : holds E B L ts x h t -> (live L' t -> live L t) -> holds E B L' ts x h t.
Proof. unfold holds. destruct (val_type ts); auto. Qed.

(** A slot that is current stays current; the arguments on the stack stay. *)
Record slots_kept (E : alloc_state) (B : Z -> Z) (X : list Z) (v : Z -> Z) (h h' : hstate W) : Prop := {
  sk_slot : forall t, valid t -> fixed t = false -> t ∉ X -> in_slot E B h t (v t) -> in_slot E B h' t (v t);
  sk_area : forall o, in_call_area o = true -> cell h' (B (TCG_REG_CALL_STACK tgt)) o = cell h (B (TCG_REG_CALL_STACK tgt)) o;
}.

Lemma slots_kept_refl E B X v h : slots_kept E B X v h h.
Proof. split; [|done]. intros t _ _ _ H. exact H. Qed.
Lemma slots_kept_trans E B X v h1 h2 h3 : slots_kept E B X v h1 h2 -> slots_kept E B X v h2 h3 -> slots_kept E B X v h1 h3.
Proof. intros [S1 A1] [S2 A2]. split; [by auto|]. intros o Ho. by rewrite A2, A1. Qed.

(** From [A] to [A'] by instructions that only move values: the registers [keep]
    are left alone. *)
Record moved (L : live_state) (D K : list Z) (keep : Z -> Prop) (A A' : alloc_state) (es : list hinsn) : Prop := {
  mv_inv : inv L D K A';
  mv_extends : extends A A';
  mv_sim : forall E B X v h, wf E -> extends A' E -> bases_apart B -> rel E B X L A v h ->
    exists h', hexecs es h = HFall h' /\ rel E B X L A' v h' /\ hworld h' = hworld h /\
      (forall r, keep r -> hreg h' r = hreg h r) /\ slots_kept E B X v h h';
}.

Lemma moved_refl L D K keep A : inv L D K A -> moved L D K keep A A [].
Proof. intros HA. split; [done|apply extends_refl|]. intros E B X v h _ _ _ Hr. exists h. do 4 (split; [done|]). apply slots_kept_refl. Qed.

Lemma moved_trans L D K keep A1 A2 A3 es1 es2 :
  moved L D K keep A1 A2 es1 -> moved L D K keep A2 A3 es2 -> moved L D K keep A1 A3 (es1 ++ es2).
Proof.
  intros [I1 X1 S1] [I2 X2 S2]. split; [done|by apply (extends_trans _ A2)|].
  intros E B X v h HE HX HB Hr. destruct (S1 E B X v h HE) as (h1 & E1 & Hr1 & W1 & K1 & C1); [by apply (extends_trans _ A3)|done..|].
  destruct (S2 E B X v h1 HE HX HB Hr1) as (h2 & E2 & Hr2 & W2 & K2 & C2). exists h2. rewrite hexecs_app, E1.
  split; [done|]. split; [done|]. split; [congruence|]. split; [intros r Hk; by rewrite K2, K1|].
  by apply (slots_kept_trans E B X v h h1).
Qed.

Lemma moved_weaken L D K (keep keep' : Z -> Prop) A A' es :
  moved L D K keep A A' es -> (forall r, keep' r -> keep r) -> moved L D K keep' A A' es.
Proof.
  intros [I1 X1 S1] Hk. split; [done..|]. intros E B X v h HE HX HB Hr.
  destruct (S1 E B X v h HE HX HB Hr) as (h' & ? & ? & ? & Hr' & ?). exists h'. do 3 (split; [done|]).
  split; [|done]. intros r Hr0. by apply Hr', Hk.
Qed.

(** One temporary changes, one register or its slot. *)
Lemma inv_replaced L D K A t ts A' :
  inv L D K A -> valid t -> fixed t = false -> replaced A t ts A' -> same_slot (temps A t) ts ->
  (in_reg ts = true -> room_reg (reg ts) /\ (reg_to_temp A (reg ts) = -1 \/ reg_to_temp A (reg ts) = t) /\
     (mem_coherent ts = true -> slot A t <> None)) ->
  tok L D K t ts -> inv L D K A'.
Proof.
  intros [HA Htok] Ht Ft HR HS Hr Hts. split; [by apply (replaced_wf A t ts)|]. intros u Vu Fu.
  rewrite (rp_temp _ _ _ _ HR). destruct (Z.eqb_spec u t) as [->|]; [done|by apply Htok].
Qed.

(** The rest of the host: what belongs to the other temporaries. *)
Definition others_kept (E : alloc_state) (B : Z -> Z) (A : alloc_state) (t : Z) (h h' : hstate W) : Prop :=
  (forall r, reserved r = true -> hreg h' r = hreg h r) /\
  (forall r, reg_to_temp A r <> -1 -> reg_to_temp A r <> t -> hreg h' r = hreg h r) /\
  (forall u b o, valid u -> fixed u = false -> u <> t -> slot E u = Some (b, o) -> cell h' (B b) o = cell h (B b) o) /\
  (forall o, in_call_area o = true -> cell h' (B (TCG_REG_CALL_STACK tgt)) o = cell h (B (TCG_REG_CALL_STACK tgt)) o).

Lemma rel_replaced E B X X' L L' A t ts A' v v' h h' :
  wf A -> rel E B X L A v h -> valid t -> fixed t = false -> replaced A t ts A' -> others_kept E B A t h h' ->
  (t ∉ X' -> holds E B L' ts (v' t) h' t) -> (forall u, u <> t -> u ∉ X' -> u ∉ X) ->
  (forall u, u <> t -> valid u -> v' u = v u) -> (forall u, u <> t -> valid u -> live L' u -> live L u) ->
  rel E B X' L' A' v' h'.
Proof.
  intros HA [R1 R2 R3] Ht Ft HR (K1 & K2 & K3 & _) Hh HX Hv HL'. split.
  - intros r Hr. by rewrite K1, R1.
  - intros u Vu Fu. rewrite Hv; [by apply R2| |done]. congruence.
  - intros u Vu Fu Xu. rewrite (rp_temp _ _ _ _ HR). destruct (Z.eqb_spec u t) as [->|Hn]; [by apply Hh|].
    rewrite Hv by done. assert (holds E B L (temps A u) (v u) h u) as Hu by (apply R3; auto).
    apply (holds_frame E B L' _ _ h); [apply (holds_live E B L); auto| |by intros b o; apply K3].
    intros Ru. destruct (wf_reg A HA u Vu Fu Ru) as [Eu _]. apply K2; rewrite Eu; [|done].
    destruct Vu. lia.
Qed.

Lemma moved_replaced L D K keep A t ts A' es :
  inv L D K A -> valid t -> fixed t = false -> replaced A t ts A' -> same_slot (temps A t) ts ->
  (in_reg ts = true -> room_reg (reg ts) /\ (reg_to_temp A (reg ts) = -1 \/ reg_to_temp A (reg ts) = t) /\
     (mem_coherent ts = true -> slot A t <> None)) ->
  tok L D K t ts ->
  (forall E B X v h, wf E -> extends A' E -> bases_apart B -> rel E B X L A v h ->
     exists h', hexecs es h = HFall h' /\ hworld h' = hworld h /\ (forall r, keep r -> hreg h' r = hreg h r) /\
       others_kept E B A t h h' /\ (t ∉ X -> holds E B L ts (v t) h' t) /\
       (t ∉ X -> in_slot E B h t (v t) -> in_slot E B h' t (v t))) ->
  moved L D K keep A A' es.
Proof.
  intros HA Ht Ft HR HS Hr Hts Hsim. split; [by apply (inv_replaced L D K A t ts)|by apply (replaced_extends A t ts)|].
  intros E B X v h HE HX HB Hrel. destruct (Hsim E B X v h HE HX HB Hrel) as (h' & Eh & Ew & Ek & Ho & Hh & Hc).
  exists h'. split; [done|]. split; [|split; [done|split; [done|]]].
  2:{ destruct Ho as (_ & _ & Ho & Har). split; [|done]. intros u Hu Fu Xu Hs.
      destruct (Z.eq_dec u t) as [->|Hn]; [by apply Hc|]. intros b o Eb. rewrite (Ho u b o) by done. by apply Hs. }
  apply (rel_replaced E B X X L L A t ts A' v v h h'); try done. apply HA.
Qed.

Lemma moved_placed L D K keep A t A' :
  inv L D K A -> valid t -> fixed t = false -> nb_globals s <= t -> slot A t = None -> placed A t A' ->
  moved L D K keep A A' [].
Proof.
  intros [HA Htok] Ht Ft Gt Nt HP. split.
  - split; [by apply (placed_wf A A' t)|]. intros u Vu Fu. rewrite (pl_temp _ _ _ HP).
    destruct (Z.eqb_spec u t) as [->|]; [|by apply Htok]. destruct (Htok t Ht Ft) as [? ? ? ? ?]. by split.
  - by apply (placed_extends A A' t).
  - intros E B X v h _ _ _ [R1 R2 R3]. exists h. split; [done|]. split; [|split; [done|split; [done|apply slots_kept_refl]]]. split; [done..|].
    intros u Vu Fu Xu. rewrite (pl_temp _ _ _ HP). specialize (R3 u Vu Fu Xu).
    by destruct (Z.eqb_spec u t) as [->|].
Qed.

(** *** Stores *)
Lemma slot_base E t b o : wf E -> valid t -> fixed t = false -> slot E t = Some (b, o) -> is_base b.
Proof.
  intros HE Ht Ft Es. destruct (Z.lt_ge_cases t (nb_globals s)).
  - assert (is_global t) as Gt by (unfold is_global, valid in *; lia). rewrite (wf_global E HE t Gt Ft) in Es.
    injection Es as <- <-. right; right. eauto.
  - destruct (wf_local E HE t b o Ht) as (-> & _); [done..|]. by left.
Qed.

(** Slots are outside the argument area of calls. *)
Lemma slot_not_area E B t b o :
  wf E -> bases_apart B -> valid t -> fixed t = false -> slot E t = Some (b, o) -> B b = B (TCG_REG_CALL_STACK tgt) ->
  in_call_area o = false.
Proof.
  intros HE HB Ht Ft Es Eb. apply HB in Eb; [|by apply (slot_base E t b o)|by right; left].
  destruct (Z.lt_ge_cases t (nb_globals s)).
  - assert (is_global t) as Gt by (unfold is_global, valid in *; lia).
    rewrite (wf_global E HE t Gt Ft) in Es. injection Es as <- <-. by apply (ly_stack HL).
  - destruct (wf_local E HE t b o Ht) as (-> & Ho & Hc); [done..|]. apply (ly_frame_stack HL); [done|].
    destruct (wf_room E HE) as [_ Hr]. unfold unallocated in Hr. pose proof (align8_bounds (current_frame_offset E)).
    unfold in_frame. lia.
Qed.

Lemma merge_low ty old new : uwrap (bits ty) (merge ty old new) = uwrap (bits ty) new.
Proof.
  unfold merge, uwrap. replace (old - old mod 2 ^ bits ty) with (old / 2 ^ bits ty * 2 ^ bits ty).
  - rewrite Z.add_comm, Z_mod_plus_full. apply Z.mod_mod, Z.pow_nonzero; destruct ty; done.
  - pose proof (Z.div_mod old (2 ^ bits ty)) as H. rewrite Z.mul_comm. assert (2 ^ bits ty <> 0) by (apply Z.pow_nonzero; by destruct ty).
    specialize (H ltac:(done)). lia.
Qed.

(** A value stored to the slot of [t]. *)
Lemma store_slot E B A X L v h t b o x :
  wf E -> bases_apart B -> rel E B X L A v h -> valid t -> fixed t = false -> slot E t = Some (b, o) ->
  let h' := set_cell h (type s t) (hreg h b) o x in
  others_kept E B A t h h' /\ in_slot E B h' t x /\ (forall r, hreg h' r = hreg h r).
Proof.
  intros HE HB Hr Ht Ft Es h'. pose proof (slot_base E t b o HE Ht Ft Es) as Hb.
  assert (hreg h b = B b) as Eb by (apply (rel_base _ _ _ _ _ _ _ Hr), (ly_base HL), Hb).
  split; [|split; [|done]].
  - split; [done|]. split; [done|]. split.
    2:{ intros o' Ho. cbn. destruct (Z.eqb_spec (B (TCG_REG_CALL_STACK tgt)) (hreg h b)) as [E1|], (Z.eqb_spec o' o) as [->|]; try done.
        rewrite Eb in E1. by rewrite (slot_not_area E B t b o) in Ho. }
    intros u b' o' Vu Fu Hn Eu. cbn.
    destruct (Z.eqb_spec (B b') (hreg h b)) as [E1|], (Z.eqb_spec o' o) as [->|]; try done. exfalso. apply Hn.
    rewrite Eb in E1. apply HB in E1; [|by apply (slot_base E u b' o)|done]. subst b'.
    by apply (slots_apart E u t b o).
  - intros b' o'. rewrite Es. intros [= <- <-]. cbn. rewrite Eb, !Z.eqb_refl. cbn. unfold veq.
    by rewrite merge_low.
Qed.
End host.
End place.
End TcgPlace.
