(* ===== verification/TcgMove.v ===== *)
(** The steps of the register allocator that move values: a register is
    synchronised, freed, allocated; a temporary gets its slot, is loaded, dies. *)
From Stdlib Require Import ZArith Lia Bool.
From stdpp Require Import base numbers list.
From S2P Require Import Prelude HostUtils TcgOp TcgOpt TcgRing TcgArith TcgSem TcgBits TcgSound TcgStep TcgProg TcgShape TcgLive TcgReg TcgHost TcgPlace.
Local Open Scope Z_scope.

Module TcgMove.
Import Tcg TcgOpt TcgRing TcgArith TcgSem TcgSound TcgStep TcgProg TcgShape TcgLive TcgReg TcgHost TcgPlace.

(** Through a handler, one binding at a time. *)
Ltac go :=
  repeat first
    [ apply runs_ret
    | apply runs_bind, runs_gets; cbv beta
    | apply runs_bind, runs_modify; cbv beta
    | apply runs_bind, runs_emit; cbv beta
    | apply runs_bind, runs_ret; cbv beta
    | apply runs_gets | apply runs_modify | apply runs_emit ].

Section move.
Context (s : TCGContext) (tgt : Target) (T : Z -> TCGTemp).
Notation valid := (valid s).
Notation is_global := (is_global s).
Notation fixed := (fixed s T).
Notation slot := (slot).
Notation reserved := (reserved tgt).
Notation wf := (wf s tgt T).
Notation inv := (inv s tgt T).
Hypothesis (HL : layout_ok s tgt T).
Context {W : Type} (host : Host W) (junk : hstate W -> hstate W).
Notation moved := (moved s tgt T host junk).
Notation extends := (extends s T).

Definition anywhere (r : Z) : Prop := True.

Lemma valid_neq t : valid t -> t <> -1.
Proof. intros [? _]. lia. Qed.

Lemma slot_some A t : slot A t <> None <-> mem_allocated (temps A t) = true.
Proof. unfold slot. destruct (mem_allocated _); naive_solver. Qed.

(** *** Slots *)
Lemma temp_allocate_frame_ok L D K A t :
  inv L D K A -> valid t -> fixed t = false -> slot A t = None ->
  runs (temp_allocate_frame tgt t) A (fun _ A' es => es = [] /\ nb_globals s <= t /\ placed tgt A t A').
Proof.
  intros [HA _] Ht Ft Nt.
  assert (nb_globals s <= t) as Gt.
  { destruct (Z.le_gt_cases (nb_globals s) t); [done|]. unfold valid in Ht.
    assert (is_global t) as Ig by (unfold is_global; lia). by rewrite (wf_global _ _ _ A HA t Ig Ft) in Nt. }
  unfold temp_allocate_frame. go. fold (align8 (current_frame_offset A)). unfold when.
  assert (forall A', placed tgt A t A' -> (frame_end tgt <? align8 (current_frame_offset A) + 8) = false) as Hroom.
  { intros A' HP. apply Z.ltb_ge. by apply (placed_room s tgt T A A' t). }
  match goal with |- runs (bind ?m ?k) _ _ => assert (forall A', placed tgt A t A' -> m = ret tt) as Hr end.
  { intros A' HP. by rewrite (Hroom A' HP). }
  match goal with |- context [set_temp t ?f] =>
    set (A' := (upd_temp t f A) <| current_frame_offset := align8 (current_frame_offset A) + 8 |>) end.
  assert (placed tgt A t A') as HP.
  { split; [|done|done]. intros u. cbn. by destruct (Z.eqb_spec u t) as [->|]. }
  rewrite (Hr A' HP). go. split; [done|]. split; [done|]. by destruct HP.
Qed.

(** What a slot leaves alone. *)
Definition same_places (A A' : alloc_state) : Prop :=
  (forall r, reg_to_temp A' r = reg_to_temp A r) /\
  forall u, val_type (temps A' u) = val_type (temps A u) /\ reg (temps A' u) = reg (temps A u) /\
    val (temps A' u) = val (temps A u) /\ mem_coherent (temps A' u) = mem_coherent (temps A u).

Lemma ensure_slot L D K A t :
  inv L D K A -> valid t -> fixed t = false ->
  runs (when (negb (mem_allocated (temps A t))) (temp_allocate_frame tgt t)) A
    (fun _ A' es => es = [] /\ moved L D K anywhere A A' [] /\ slot A' t <> None /\ same_places A A' /\
       forall u, u <> t -> temps A' u = temps A u).
Proof.
  intros HI Ht Ft. apply runs_when; intros E.
  - apply negb_true_iff in E. assert (slot A t = None) as Nt by (unfold TcgPlace.slot; by rewrite E).
    refine (runs_mono _ _ _ _ (temp_allocate_frame_ok L D K A t HI Ht Ft Nt) _).
    intros _ A' es (-> & Gt & HP). split; [done|]. split; [by apply (moved_placed s tgt T host junk L D K anywhere A t)|].
    rewrite (placed_slot tgt A A' t HP t), Z.eqb_refl. split; [done|]. split.
    + split; [apply HP|]. intros u. rewrite (pl_temp _ _ _ _ HP). by destruct (Z.eqb_spec u t) as [->|].
    + intros u Hu. rewrite (pl_temp _ _ _ _ HP). by destruct (Z.eqb_spec u t).
  - apply negb_false_iff in E. split; [done|]. split; [by apply moved_refl|].
    split; [by apply slot_some|done].
Qed.

(** *** Synchronising a register *)
Record synced (A : alloc_state) (t : Z) (A' : alloc_state) : Prop := {
  sy_map : forall r, reg_to_temp A' r = reg_to_temp A r;
  sy_other : forall u, u <> t -> temps A' u = temps A u;
  sy_type : val_type (temps A' t) = val_type (temps A t);
  sy_reg : reg (temps A' t) = reg (temps A t);
  sy_val : val (temps A' t) = val (temps A t);
  sy_coherent : mem_coherent (temps A' t) = true;
}.

Definition coherent_temp (ts : TCGTemp) : TCGTemp := ts <| mem_coherent := true |>.

Lemma coherent_replaced A t :
  wf A -> valid t -> fixed t = false -> in_reg (temps A t) = true ->
  replaced A t (coherent_temp (temps A t)) (upd_temp t coherent_temp A).
Proof.
  intros HA Ht Ft Hr. destruct (wf_reg _ _ _ A HA t Ht Ft Hr) as [Em _]. split; [|intros r|done].
  - intros u. cbn. by destruct (Z.eqb_spec u t) as [->|].
  - change (in_reg (coherent_temp (temps A t))) with (in_reg (temps A t)).
    change (reg (coherent_temp (temps A t))) with (reg (temps A t)). rewrite Hr. cbn.
    by destruct (Z.eqb_spec r (reg (temps A t))) as [->|].
Qed.

Lemma tok_coherent L D K t ts : tok s L D K t ts -> in_reg ts = true -> tok s L D K t (coherent_temp ts).
Proof. intros [? ? ? ? ?] Hr. split; try done. intros _. by right. Qed.

(** The slot gets what the register holds. *)
Lemma moved_coherent L D K A t es :
  inv L D K A -> valid t -> fixed t = false -> in_reg (temps A t) = true -> slot A t <> None ->
  (es = [] /\ mem_coherent (temps A t) = true \/
   es = [HSt (type s t) (reg (temps A t)) (mem_reg (temps A t)) (mem_offset (temps A t))]) ->
  moved L D K anywhere A (upd_temp t coherent_temp A) es.
Proof.
  intros HI Ht Ft Hr Hs Hes. pose proof (inv_wf _ _ _ _ _ _ _ HI) as HA.
  pose proof (coherent_replaced A t HA Ht Ft Hr) as HR. destruct (wf_reg _ _ _ A HA t Ht Ft Hr) as [Em Rr].
  assert (same_slot (temps A t) (coherent_temp (temps A t))) as HS by done.
  apply (moved_replaced s tgt T host junk L D K anywhere A t (coherent_temp (temps A t))); try done.
  - intros _. split; [done|]. split; [by right|done].
  - apply tok_coherent; [|done]. by apply (inv_tok _ _ _ _ _ _ _ HI).
  - intros E B X v h HE HX HB Hrel.
    assert (val_type (temps A t) = TEMP_VAL_REG) as Et by (by apply bool_decide_eq_true in Hr).
    assert (t ∉ X -> veq s t (v t) (hreg h (reg (temps A t)))) as Hv.
    { intros Xt. pose proof (rel_temp _ _ _ _ _ _ _ _ _ _ Hrel t Ht Ft Xt) as Hh. unfold holds in Hh.
      rewrite Et in Hh. apply Hh. }
    assert (slot E t = Some (mem_reg (temps A t), mem_offset (temps A t))) as Es.
    { apply HX; [done..|]. rewrite (replaced_slot A t _ _ t HR HS).
      apply slot_some in Hs. unfold TcgPlace.slot. by rewrite Hs. }
    destruct Hes as [[-> Hc]| ->].
    + exists h. do 3 (split; [done|]). split; [done|]. split; [|done]. intros Xt. unfold holds. cbn. rewrite Et. split; [by apply Hv|].
      intros _. pose proof (rel_temp _ _ _ _ _ _ _ _ _ _ Hrel t Ht Ft Xt) as Hh. unfold holds in Hh.
      rewrite Et in Hh. by apply Hh.
    + destruct (store_slot s tgt T HL E B A X L v h t _ _ (hreg h (reg (temps A t))) HE HB Hrel Ht Ft Es) as (Ho & Hin & Hreg).
      eexists. split; [done|]. split; [done|]. split; [done|]. split; [done|].
      match goal with |- _ /\ (_ -> _ -> in_slot _ _ _ ?h' _ _) => assert (t ∉ X -> in_slot s E B h' t (v t)) as Hin' end.
      { intros Xt b o Eb. unfold veq. rewrite (Hv Xt). by apply Hin. }
      split; [|by intros Xt _; apply Hin']. intros Xt. unfold holds. cbn. rewrite Et. split; [by apply Hv|]. intros _. by apply Hin'.
Qed.

Lemma tcg_reg_sync_ok L D K A r :
  inv L D K A -> reg_to_temp A r <> -1 ->
  runs (tcg_reg_sync s tgt r) A (fun _ A' es => moved L D K anywhere A A' es /\ synced A (reg_to_temp A r) A').
Proof.
  intros HI Hn. pose proof (inv_wf _ _ _ _ _ _ _ HI) as HA. destruct (wf_map _ _ _ A HA r Hn) as (Vt & Ft & Hr & Er).
  set (t := reg_to_temp A r) in *. unfold tcg_reg_sync. go. fold t. rewrite (proj2 (Z.eqb_neq t (-1))) by done. cbn [when].
  unfold get_temp. go. assert (assert_ (bool_decide (val_type (temps A t) = TEMP_VAL_REG)) = ret tt) as ->
    by (unfold assert_; unfold in_reg, is_val in Hr; by rewrite Hr). go.
  rewrite (wf_fixed _ _ _ A HA t Vt), Ft, andb_true_r.
  assert (forall A1, same_places A A1 -> (forall u, u <> t -> temps A1 u = temps A u) ->
    synced A t (upd_temp t coherent_temp A1)) as Hsy.
  { intros A1 [M1 M2] Ho. destruct (M2 t) as (E1 & E2 & E3 & _). split; cbn; rewrite ?Z.eqb_refl; try done.
    intros u Hu. destruct (Z.eqb_spec u t); [done|by apply Ho]. }
  apply runs_bind, runs_when; intros Hc.
  - apply runs_bind. refine (runs_mono _ _ _ _ (ensure_slot L D K A t HI Vt Ft) _).
    intros _ A1 es (-> & HM & Hs & HP & Ho). go. destruct (proj2 HP t) as (E1 & E2 & E3 & E4). split; [|by apply Hsy].
    rewrite <- Er, <- E2. apply (moved_trans s tgt T host junk L D K anywhere A A1 _ [] _ HM).
    apply (moved_coherent L D K A1 t); try done; [apply HM| |by right].
    unfold in_reg, is_val. by rewrite E1.
  - apply negb_false_iff in Hc. go. split; [|by apply Hsy].
    apply (moved_coherent L D K A t); try done; [|by left]. by apply (wf_coherent _ _ _ A HA).
Qed.

(** *** Freeing a register *)
Record freed (A : alloc_state) (r : Z) (A' : alloc_state) : Prop := {
  fr_map : forall r', reg_to_temp A' r' = if r' =? r then -1 else reg_to_temp A r';
  fr_other : forall u, reg_to_temp A r <> u -> temps A' u = temps A u;
  fr_temp : forall t, reg_to_temp A r = t -> t <> -1 ->
    val_type (temps A' t) = TEMP_VAL_MEM /\ reg (temps A' t) = reg (temps A t);
}.

Definition in_memory (ts : TCGTemp) : TCGTemp := ts <| val_type := TEMP_VAL_MEM |>.

Lemma freed_none A r : reg_to_temp A r = -1 -> freed A r A.
Proof.
  intros E. split; [|done|congruence]. intros r'. by destruct (Z.eqb_spec r' r) as [->|].
Qed.

Lemma in_reg_type ts : in_reg ts = true -> val_type ts = TEMP_VAL_REG.
Proof. by intros H%bool_decide_eq_true. Qed.

(** A temporary in a register is not dead. *)
Lemma dead_type_not_reg t : dead_type s t <> TEMP_VAL_REG /\ dead_type s t <> TEMP_VAL_CONST.
Proof. unfold dead_type. by destruct (_ || _). Qed.

Lemma tok_reg_live L D K t ts : tok s L D K t ts -> in_reg ts = true -> dead_temps L t = false.
Proof.
  intros Hk Hr%in_reg_type. destruct (dead_temps L t) eqn:E; [|done]. pose proof (tk_dead _ _ _ _ _ _ Hk E) as H.
  destruct (dead_type_not_reg t) as [? _]. congruence.
Qed.

Lemma moved_in_memory L D K A t r :
  inv L D K A -> valid t -> fixed t = false -> in_reg (temps A t) = true -> reg (temps A t) = r ->
  mem_coherent (temps A t) = true ->
  moved L D K anywhere A (upd_map r (-1) (upd_temp t in_memory A)) [].
Proof.
  intros HI Ht Ft Hr <- Hc. pose proof (inv_wf _ _ _ _ _ _ _ HI) as HA.
  pose proof (inv_tok _ _ _ _ _ _ _ HI t Ht Ft) as Hk.
  apply (moved_replaced s tgt T host junk L D K anywhere A t (in_memory (temps A t))); try done.
  - split; [| |done].
    + intros u. cbn. by destruct (Z.eqb_spec u t) as [->|].
    + intros r. cbn. rewrite Hr. by destruct (r =? reg (temps A t)).
  - split; try done.
    + intros Hd. by rewrite (tok_reg_live L D K t _ Hk Hr) in Hd.
    + by left.
    + intros _ _ _. by apply slot_some, (wf_coherent _ _ _ A HA).
  - intros E B X v h HE HX HB Hrel. exists h. do 3 (split; [done|]). split; [done|]. split; [|done]. intros Xt.
    pose proof (rel_temp _ _ _ _ _ _ _ _ _ _ Hrel t Ht Ft Xt) as Hh. unfold holds in Hh.
    rewrite (in_reg_type _ Hr) in Hh. unfold holds. cbn. intros _. by apply Hh.
Qed.

Lemma tcg_reg_free_ok L D K A r :
  inv L D K A ->
  runs (tcg_reg_free s tgt r) A (fun _ A' es => moved L D K anywhere A A' es /\ freed A r A').
Proof.
  intros HI. pose proof (inv_wf _ _ _ _ _ _ _ HI) as HA. unfold tcg_reg_free. go. apply runs_when; intros E.
  - apply negb_true_iff, Z.eqb_neq in E. destruct (wf_map _ _ _ A HA r E) as (Vt & Ft & Hr & Er).
    apply runs_bind. refine (runs_mono _ _ _ _ (tcg_reg_sync_ok L D K A r HI E) _). intros _ A1 es [HM HS]. go.
    set (t := reg_to_temp A r) in *. split.
    + apply (moved_trans s tgt T host junk L D K anywhere A A1 _ es [] HM). apply (moved_in_memory L D K A1 t r); try done.
      * apply HM.
      * unfold in_reg, is_val. rewrite (sy_type _ _ _ HS). apply Hr.
      * by rewrite (sy_reg _ _ _ HS).
      * apply (sy_coherent _ _ _ HS).
    + split.
      * intros r'. cbn. rewrite (sy_map _ _ _ HS). done.
      * intros u Hu. cbn. destruct (Z.eqb_spec u t); [done|]. by apply (sy_other _ _ _ HS).
      * intros u <- _. cbn. fold t. rewrite Z.eqb_refl. cbn. by rewrite (sy_reg _ _ _ HS).
  - apply negb_false_iff, Z.eqb_eq in E. split; [by apply moved_refl|by apply freed_none].
Qed.

(** *** Allocating a register *)
Definition room_in (S R : Z) : Prop :=
  exists r, r ∈ tcg_target_reg_alloc_order tgt /\ Z.testbit S r = true /\ Z.testbit R r = false.

Definition chosen (S R r : Z) : Prop := 0 <= r /\ Z.testbit S r = true /\ Z.testbit R r = false.

Lemma andnot_spec a b r : 0 <= r ->
  tcg_regset_test_reg (tcg_regset_andnot a b) r = Z.testbit a r && negb (Z.testbit b r).
Proof. intros Hr. unfold tcg_regset_test_reg, tcg_regset_andnot. by rewrite Z.land_spec, Z.lnot_spec. Qed.

Lemma tcg_reg_alloc_ok L D K A S R :
  inv L D K A -> room_in S R ->
  runs (tcg_reg_alloc s tgt S R) A (fun r A' es => moved L D K anywhere A A' es /\ freed A r A' /\ chosen S R r).
Proof.
  intros HI (r0 & H0 & S0 & R0). unfold tcg_reg_alloc. go.
  assert (forall r, r ∈ tcg_target_reg_alloc_order tgt -> tcg_regset_test_reg (tcg_regset_andnot S R) r = true -> chosen S R r) as Hch.
  { intros r Hr Ht. pose proof (ly_order _ _ _ HL r Hr) as Hp. rewrite andnot_spec in Ht by done.
    apply andb_true_iff in Ht as [? ?%negb_true_iff]. done. }
  destruct (find _ _) as [r|] eqn:E1.
  - apply find_some in E1 as [Hin%list_elem_of_In [Ht He%Z.eqb_eq]%andb_true_iff]. go.
    split; [by apply moved_refl|]. split; [by apply freed_none|by apply Hch].
  - destruct (find (tcg_regset_test_reg (tcg_regset_andnot S R)) _) as [r|] eqn:E2.
    + apply find_some in E2 as [Hin%list_elem_of_In Ht]. apply runs_bind.
      refine (runs_mono _ _ _ _ (tcg_reg_free_ok L D K A r HI) _). intros _ A' es [HM HF]. go. rewrite app_nil_r.
      split; [done|]. split; [done|by apply Hch].
    + apply list_elem_of_In in H0. pose proof (find_none _ _ E2 r0 H0) as Hf. apply list_elem_of_In in H0.
      rewrite andnot_spec, S0, R0 in Hf by (by apply (ly_order _ _ _ HL)). done.
Qed.

(** *** Values in registers *)

(** The instructions leave [Q] of the values and the host. *)
Definition delivers (L : live_state) (A A' : alloc_state) (es : list hinsn) (Q : (Z -> Z) -> hstate W -> Prop) : Prop :=
  forall E B v h h', wf E -> extends A' E -> bases_apart s tgt T B -> rel s tgt T E B [] L A v h ->
    hexecs s tgt T host junk es h = HFall h' -> Q v h'.

Lemma delivers_after L D K keep A A1 A2 es1 es2 Q :
  moved L D K keep A A1 es1 -> extends A1 A2 -> delivers L A1 A2 es2 Q -> delivers L A A2 (es1 ++ es2) Q.
Proof.
  intros HM HX HD E B v h h' HE HE' HB Hr. rewrite hexecs_app.
  destruct (mv_sim _ _ _ _ _ _ _ _ _ _ _ _ HM E B [] v h HE) as (h1 & -> & Hr1 & _); [by apply (extends_trans s T _ A2)|done..|].
  by apply (HD E B v h1 h').
Qed.

Lemma delivers_kept L D K (keep : Z -> Prop) A A1 A2 es1 es2 (Q : (Z -> Z) -> hstate W -> Prop) :
  moved L D K keep A1 A2 es2 -> (exists keep1, moved L D K keep1 A A1 es1) -> delivers L A A1 es1 Q ->
  (forall v h h', (forall r, keep r -> hreg h' r = hreg h r) -> Q v h -> Q v h') -> delivers L A A2 (es1 ++ es2) Q.
Proof.
  intros HM [keep1 HM1] HD HQ E B v h h' HE HE' HB Hr. rewrite hexecs_app.
  assert (extends A1 E) as HX by (apply (extends_trans s T _ A2); [apply HM|done]).
  destruct (mv_sim _ _ _ _ _ _ _ _ _ _ _ _ HM1 E B [] v h HE HX HB Hr) as (h1 & E1 & Hr1 & _). rewrite E1.
  destruct (mv_sim _ _ _ _ _ _ _ _ _ _ _ _ HM E B [] v h1 HE HE' HB Hr1) as (h2 & -> & _ & _ & Hk & _). intros [= <-].
  apply (HQ v h1); [done|]. by apply (HD E B v h).
Qed.

(** The register of a temporary holds its value. *)
Lemma reg_value E B X L D K A v (h : hstate W) t :
  inv L D K A -> rel s tgt T E B X L A v h -> valid t -> t ∉ X -> in_reg (temps A t) = true ->
  veq s t (v t) (hreg h (reg (temps A t))).
Proof.
  intros HI Hr Ht Xt Rt. pose proof (inv_wf _ _ _ _ _ _ _ HI) as HA. destruct (fixed t) eqn:Ft.
  - destruct (wf_pinned _ _ _ A HA t Ht Ft) as [_ ->].
    assert (is_global t) as Gt by (unfold TcgHost.fixed in Ft; apply andb_true_iff in Ft as [Ft%Z.ltb_lt _]; destruct Ht; done).
    rewrite (rel_base _ _ _ _ _ _ _ _ _ _ Hr) by (by apply (ly_fixed _ _ _ HL)).
    by apply (rel_fixed _ _ _ _ _ _ _ _ _ _ Hr).
  - pose proof (rel_temp _ _ _ _ _ _ _ _ _ _ Hr t Ht Ft Xt) as Hh. unfold holds in Hh.
    rewrite (in_reg_type _ Rt) in Hh. apply Hh.
Qed.

(** A register without a temporary may hold anything. *)
Lemma moved_scratch L D K A i r :
  inv L D K A -> reg_to_temp A r = -1 -> room_reg tgt r ->
  (forall h : hstate W, exists x, hexec s tgt T host junk i h = HFall (set_hreg h r x)) ->
  moved L D K (fun x => x <> r) A A [i].
Proof.
  intros HI Er [R0 Rr] Hi. split; [done|apply extends_refl|]. intros E B X v h HE HX HB [R1 R2 R3].
  destruct (Hi h) as (x & Ex). cbn. rewrite Ex. eexists. split; [done|]. split; [|split; [done|split; [|by split]]].
  - split; [|done|].
    + intros b Hb. cbn. destruct (Z.eqb_spec b r) as [->|]; [congruence|by apply R1].
    + intros t Ht Ft Xt. apply (holds_frame s E B L _ _ h); [by apply R3| |done].
      intros Rt. cbn. destruct (Z.eqb_spec (reg (temps A t)) r) as [E1|]; [|done].
      destruct (wf_reg _ _ _ A (inv_wf _ _ _ _ _ _ _ HI) t Ht Ft Rt) as [E2 _]. rewrite E1, Er in E2. destruct Ht. lia.
  - intros y Hy. cbn. by destruct (Z.eqb_spec y r).
Qed.

Definition covers (R : Z) : Prop := forall r, reserved r = true -> Z.testbit R r = true.

Lemma chosen_room S R r : covers R -> chosen S R r -> room_reg tgt r.
Proof.
  intros HR (H0 & _ & H1). split; [done|]. destruct (reserved r) eqn:E; [|done]. apply HR in E. congruence.
Qed.

Lemma freed_self A r A' : freed A r A' -> reg_to_temp A' r = -1.
Proof. intros HF. by rewrite (fr_map _ _ _ HF), Z.eqb_refl. Qed.

(** A fresh register for the value in another register. *)
Lemma copy_to_ok L D K A S R t :
  inv L D K A -> valid t -> in_reg (temps A t) = true -> room_in S R -> covers R ->
  runs (r <- tcg_reg_alloc s tgt S R ;; emit (HMov (type s t) r (reg (temps A t))) ;;; ret r)%prog A
    (fun r A' es => moved L D K (fun x => Z.testbit R x = true) A A' es /\ freed A r A' /\ chosen S R r /\
       delivers L A A' es (fun v h => veq s t (v t) (hreg h r))).
Proof.
  intros HI Ht Rt Hroom HR. apply runs_bind. refine (runs_mono _ _ _ _ (tcg_reg_alloc_ok L D K A S R HI Hroom) _).
  intros r A' es (HM & HF & Hc). go. split; [|split; [done|split; [done|]]].
  - apply (moved_trans s tgt T host junk L D K _ A A').
    + by apply (moved_weaken s tgt T host junk L D K anywhere).
    + apply (moved_weaken s tgt T host junk L D K (fun x => x <> r)).
      * apply moved_scratch; [apply HM|by apply (freed_self A)|by apply (chosen_room S R)|]. intros h. by eexists.
      * intros x Hx ->. destruct Hc as (_ & _ & Hn). congruence.
  - intros E B v h h' HE HX HB Hr. rewrite hexecs_app.
    destruct (mv_sim _ _ _ _ _ _ _ _ _ _ _ _ HM E B [] v h HE HX HB Hr) as (h1 & -> & _ & _ & Hk & _).
    cbn. intros [= <-]. cbn. rewrite Z.eqb_refl, Hk by done. unfold veq, half. rewrite merge_low.
    apply (reg_value E B [] L D K A); try done. apply not_elem_of_nil.
Qed.

(** *** Loading a temporary *)
Definition in_register (r : Z) (c : bool) (ts : TCGTemp) : TCGTemp :=
  ts <| val_type := TEMP_VAL_REG |> <| reg := r |> <| mem_coherent := c |>.

(** What an operation may read. *)
Definition readable (L : live_state) (D : list Z) (t : Z) : Prop :=
  valid t /\ (fixed t = false -> dead_temps L t = false /\ (is_global t \/ t ∈ D)).

Lemma readable_slot L D K A t :
  inv L D K A -> readable L D t -> fixed t = false -> val_type (temps A t) = TEMP_VAL_MEM -> slot A t <> None.
Proof.
  intros HI [Ht HD] Ft Et. destruct (HD Ft) as [Hd [Gt|Hin]].
  - by rewrite (wf_global _ _ _ A (inv_wf _ _ _ _ _ _ _ HI) t Gt Ft).
  - apply slot_some, (tk_slot _ _ _ _ _ _ (inv_tok _ _ _ _ _ _ _ HI t Ht Ft)); try done. by left.
Qed.

(** The instruction that brings a temporary into register [r]. *)
Definition fetch (ts : TCGTemp) (ty : width) (r : Z) : hinsn :=
  match val_type ts with
  | TEMP_VAL_MEM => HLd ty r (mem_reg ts) (mem_offset ts)
  | TEMP_VAL_CONST => HMovi ty r (val ts)
  | _ => HMov ty r (reg ts)
  end.

Lemma fetch_hexec ts ty r (h : hstate W) : exists x, hexec s tgt T host junk (fetch ts ty r) h = HFall (set_hreg h r x).
Proof. unfold fetch. destruct (val_type ts); by eexists. Qed.

Lemma bits_nonneg w : 0 <= bits w.
Proof. by destruct w. Qed.

Lemma fetch_value L D K A t r E B X v h h' :
  inv L D K A -> readable L D t -> val_type (temps A t) <> TEMP_VAL_DEAD -> wf E -> extends A E ->
  rel s tgt T E B X L A v h -> t ∉ X -> hexec s tgt T host junk (fetch (temps A t) (type s t) r) h = HFall h' ->
  veq s t (v t) (hreg h' r).
Proof.
  intros HI HR Hn HE HX Hr Xt. unfold fetch. destruct (fixed t) eqn:Ft.
  { destruct (wf_pinned _ _ _ A (inv_wf _ _ _ _ _ _ _ HI) t (proj1 HR) Ft) as [Rt _]. rewrite (in_reg_type _ Rt).
    cbn. intros [= <-]. cbn. rewrite Z.eqb_refl. unfold veq, half. rewrite merge_low.
    apply (reg_value E B X L D K A); auto. apply HR. }
  pose proof (rel_temp _ _ _ _ _ _ _ _ _ _ Hr t (proj1 HR) Ft Xt) as Hh. unfold holds in Hh.
  destruct (val_type (temps A t)) eqn:Et; [done|..]; cbn; intros [= <-]; cbn; rewrite Z.eqb_refl; unfold veq, half;
    rewrite merge_low; [apply Hh| |apply Hh].
  pose proof (readable_slot L D K A t HI HR Ft Et) as Hs. apply slot_some in Hs.
  assert (slot A t = Some (mem_reg (temps A t), mem_offset (temps A t))) as Es by (unfold TcgPlace.slot; by rewrite Hs).
  assert (slot E t = Some (mem_reg (temps A t), mem_offset (temps A t))) as EE by (apply HX; [apply HR|done..]).
  rewrite (rel_base _ _ _ _ _ _ _ _ _ _ Hr).
  - apply Hh; [|done]. left. by apply HR.
  - apply (ly_base _ _ _ HL), (slot_base s tgt T E t _ _ HE (proj1 HR) Ft EE).
Qed.

(** A temporary outside the registers into a free one. *)
Lemma moved_load L D K A t r A' :
  inv L D K A -> readable L D t -> fixed t = false ->
  val_type (temps A t) = TEMP_VAL_MEM \/ val_type (temps A t) = TEMP_VAL_CONST ->
  reg_to_temp A r = -1 -> room_reg tgt r ->
  replaced A t (in_register r (bool_decide (val_type (temps A t) = TEMP_VAL_MEM)) (temps A t)) A' ->
  moved L D K (fun x => x <> r) A A' [fetch (temps A t) (type s t) r].
Proof.
  intros HI HR Ft Hty Er Rr Hrep. destruct HR as [Ht HD].
  pose proof (inv_tok _ _ _ _ _ _ _ HI t Ht Ft) as Hk. set (ts := in_register _ _ _) in *.
  assert (in_reg ts = true /\ reg ts = r) as [E1 E2] by done.
  apply (moved_replaced s tgt T host junk L D K _ A t ts); try done.
  - intros _. split; [by rewrite E2|]. split; [left; by rewrite E2|]. subst ts. cbn. intros Hm%bool_decide_eq_true.
    by apply (readable_slot L D K A t HI).
  - split; try done.
    + intros Hd. destruct (HD Ft) as [Hd' _]. congruence.
    + intros Hm. right. split; [done|]. subst ts. cbn. apply bool_decide_eq_true.
      destruct (tk_mem _ _ _ _ _ _ Hk Hm) as [?|[Hi _]]; [done|]. apply in_reg_type in Hi. destruct Hty; congruence.
  - intros E B X v h HE HX HB Hr. destruct (fetch_hexec (temps A t) (type s t) r h) as (x & Ex).
    exists (set_hreg h r x). cbn [TcgHost.hexecs]. rewrite Ex. split; [done|]. split; [done|]. split; [|split].
    + intros y Hy. cbn. by destruct (Z.eqb_spec y r).
    + split; [|split; [|done]].
      * intros y Hy. cbn. destruct (Z.eqb_spec y r) as [->|]; [|done]. destruct Rr. congruence.
      * intros y Hy1 _. cbn. destruct (Z.eqb_spec y r) as [->|]; [done|done].
    + split; [|done]. intros Xt. assert (extends A E) as HXA.
      { apply (extends_trans s T _ A'); [|done]. by apply (replaced_extends s T A t ts). }
      pose proof (fetch_value L D K A t r E B X v h _ HI (conj Ht HD) ltac:(destruct Hty; congruence) HE HXA Hr Xt Ex) as Hv.
      unfold holds. change (val_type ts) with TEMP_VAL_REG. rewrite E2. split; [done|]. subst ts. cbn.
      intros Hm%bool_decide_eq_true. pose proof (rel_temp _ _ _ _ _ _ _ _ _ _ Hr t Ht Ft Xt) as Hh. unfold holds in Hh.
      rewrite Hm in Hh. apply Hh. left. by apply HD.
Qed.

(** An input of an operation, in a register unless it may stay a constant. *)
Record loaded (const_ok : bool) (R : Z) (A : alloc_state) (t : Z) (A' : alloc_state) : Prop := {
  ld_map : forall r, Z.testbit R r = true -> reg_to_temp A' r = reg_to_temp A r;
  ld_place : in_reg (temps A' t) = true \/
    (const_ok = true /\ val_type (temps A' t) = TEMP_VAL_CONST /\ A' = A);
}.

Lemma readable_not_gone L D K A t : inv L D K A -> readable L D t -> val_type (temps A t) <> TEMP_VAL_DEAD.
Proof.
  intros HI [Ht HD] E. destruct (fixed t) eqn:Ft.
  - destruct (wf_pinned _ _ _ A (inv_wf _ _ _ _ _ _ _ HI) t Ht Ft) as [Rt%in_reg_type _]. congruence.
  - destruct (HD eq_refl) as [Hd _]. pose proof (tk_gone _ _ _ _ _ _ (inv_tok _ _ _ _ _ _ _ HI t Ht Ft) E). congruence.
Qed.

Lemma load_replaced L D K A A1 t r c :
  inv L D K A1 -> temps A1 t = temps A t -> in_reg (temps A t) = false ->
  replaced A1 t (in_register r c (temps A t)) (upd_map r t (upd_temp t (in_register r c) A1)).
Proof.
  intros HI Et Hr. split; [| |done].
  - intros u. cbn. by destruct (Z.eqb_spec u t) as [->|]; [rewrite Et|].
  - intros r'. rewrite Et, Hr. cbn. by destruct (r' =? r).
Qed.

Lemma unpinned L D K A t : inv L D K A -> valid t -> in_reg (temps A t) = false -> fixed t = false.
Proof.
  intros HI Ht Hr. destruct (fixed t) eqn:Ft; [|done].
  destruct (wf_pinned _ _ _ A (inv_wf _ _ _ _ _ _ _ HI) t Ht Ft) as [? _]. congruence.
Qed.

(** The temporary in the register found for it. *)
Lemma spilled_other L D K A t r A1 :
  inv L D K A -> valid t -> in_reg (temps A t) = false -> freed A r A1 -> temps A1 t = temps A t.
Proof.
  intros HI Ht Hr HF. apply (fr_other _ _ _ HF). intros Em. assert (t <> -1) as Hn by (by apply valid_neq).
  destruct (wf_map _ _ _ A (inv_wf _ _ _ _ _ _ _ HI) r) as (_ & _ & Hin & _); [congruence|]. rewrite Em in Hin. congruence.
Qed.

Lemma load_into L D K A S R t r A1 A' es :
  inv L D K A -> readable L D t -> covers R -> in_reg (temps A t) = false ->
  moved L D K anywhere A A1 es -> freed A r A1 -> chosen S R r ->
  replaced A1 t (in_register r (bool_decide (val_type (temps A t) = TEMP_VAL_MEM)) (temps A t)) A' ->
  moved L D K (fun x => Z.testbit R x = true) A A' (es ++ [fetch (temps A t) (type s t) r]) /\
  in_reg (temps A' t) = true /\ (forall x, Z.testbit R x = true -> reg_to_temp A' x = reg_to_temp A x).
Proof.
  intros HI HR Hcov Hr HM HF Hc Hrep. pose proof (unpinned L D K A t HI (proj1 HR) Hr) as Ft.
  pose proof (spilled_other L D K A t r A1 HI (proj1 HR) Hr HF) as Et. split; [|split].
  - apply (moved_trans s tgt T host junk L D K _ A A1).
    + by apply (moved_weaken s tgt T host junk L D K anywhere).
    + apply (moved_weaken s tgt T host junk L D K (fun x => x <> r)).
      * pose proof (readable_not_gone L D K A t HI HR) as Hgone. rewrite <- Et.
        apply moved_load; [apply HM|done|done| |by apply (freed_self A)|by apply (chosen_room S R)|rewrite Et; exact Hrep].
        rewrite Et. unfold in_reg, is_val in Hr. apply bool_decide_eq_false in Hr.
        destruct (val_type (temps A t)); auto; done.
      * intros x Hx ->. destruct Hc as (_ & _ & Hn). congruence.
  - by rewrite (rp_temp _ _ _ _ Hrep), Z.eqb_refl.
  - intros x Hx. rewrite (rp_map _ _ _ _ Hrep), Et, Hr. cbn.
    destruct (Z.eqb_spec x r) as [->|]; [destruct Hc as (_ & _ & ?); congruence|].
    rewrite (fr_map _ _ _ HF). by destruct (Z.eqb_spec x r).
Qed.

Lemma load_done L D K A S R t r A1 es :
  inv L D K A -> readable L D t -> covers R -> in_reg (temps A t) = false ->
  moved L D K anywhere A A1 es -> freed A r A1 -> chosen S R r ->
  let c := bool_decide (val_type (temps A t) = TEMP_VAL_MEM) in
  let A' := upd_map r t (upd_temp t (in_register r c) A1) in
  temps A1 t = temps A t /\
  moved L D K (fun x => Z.testbit R x = true) A A' (es ++ [fetch (temps A t) (type s t) r]) /\
  in_reg (temps A' t) = true /\ (forall x, Z.testbit R x = true -> reg_to_temp A' x = reg_to_temp A x).
Proof.
  intros HI HR Hcov Hr HM HF Hc c A'. pose proof (spilled_other L D K A t r A1 HI (proj1 HR) Hr HF) as Et. split; [done|].
  apply (load_into L D K A S R t r A1); try done.
  by apply (load_replaced L D K A A1 t r c (mv_inv _ _ _ _ _ _ _ _ _ _ _ _ HM) Et Hr).
Qed.

Lemma load_arg_ok L D K A t c R const_ok :
  inv L D K A -> readable L D t -> room_in (ct_regs c) R -> covers R ->
  runs (load_arg s tgt t c R const_ok) A
    (fun _ A' es => moved L D K (fun x => Z.testbit R x = true) A A' es /\ loaded const_ok R A t A').
Proof.
  intros HI HR Hroom Hcov. pose proof (readable_not_gone L D K A t HI HR) as Hgone.
  unfold load_arg, get_temp. go. destruct (val_type (temps A t)) eqn:Et; [done|..].
  - go. split; [by apply moved_refl|]. split; [done|left]. unfold in_reg, is_val. by rewrite Et.
  - assert (in_reg (temps A t) = false) as Hr by (unfold in_reg, is_val; by rewrite Et).
    apply runs_bind. refine (runs_mono _ _ _ _ (tcg_reg_alloc_ok L D K A _ R HI Hroom) _).
    intros r A1 es (HM & HF & Hc). destruct (load_done L D K A _ R t r A1 es HI HR Hcov Hr HM HF Hc) as (E1 & HM' & Hin & Hmap).
    unfold fetch in HM'. rewrite Et in HM', Hin, Hmap. go. rewrite E1. split; [done|]. split; [done|by left].
  - destruct const_ok.
    { go. split; [by apply moved_refl|]. split; [done|by right]. }
    assert (in_reg (temps A t) = false) as Hr by (unfold in_reg, is_val; by rewrite Et).
    apply runs_bind. refine (runs_mono _ _ _ _ (tcg_reg_alloc_ok L D K A _ R HI Hroom) _).
    intros r A1 es (HM & HF & Hc). destruct (load_done L D K A _ R t r A1 es HI HR Hcov Hr HM HF Hc) as (E1 & HM' & Hin & Hmap).
    unfold fetch in HM'. rewrite Et in HM', Hin, Hmap. go. split; [done|]. split; [done|by left].
Qed.

(** *** What the liveness pass knows changes *)

(** No instruction; the tables follow the liveness state. *)
Record shifted (L L' : live_state) (D K D' K' : list Z) (A A' : alloc_state) : Prop := {
  sh_inv : inv L' D' K' A';
  sh_extends : extends A A';
  sh_rel : forall E B X v (h : hstate W), rel s tgt T E B X L A v h -> rel s tgt T E B X L' A' v h;
}.

Lemma shifted_trans L1 L2 L3 D1 K1 D2 K2 D3 K3 A1 A2 A3 :
  shifted L1 L2 D1 K1 D2 K2 A1 A2 -> shifted L2 L3 D2 K2 D3 K3 A2 A3 -> shifted L1 L3 D1 K1 D3 K3 A1 A3.
Proof. intros [I1 X1 R1] [I2 X2 R2]. split; [done|by apply (extends_trans s T _ A2)|]. intros. by apply R2, R1. Qed.

(** The same tables under a liveness state that asks for less. *)
Record asks_less (L L' : live_state) (D K D' K' : list Z) (A : alloc_state) : Prop := {
  al_dead : forall t, valid t -> fixed t = false -> dead_temps L' t = true -> val_type (temps A t) = dead_type s t;
  al_gone : forall t, valid t -> fixed t = false -> val_type (temps A t) = TEMP_VAL_DEAD -> dead_temps L' t = true;
  al_mem : forall t, valid t -> fixed t = false -> mem_temps L' t = true ->
    val_type (temps A t) = TEMP_VAL_MEM \/ (in_reg (temps A t) = true /\ mem_coherent (temps A t) = true);
  al_live : forall t, valid t -> fixed t = false -> live L' t -> live L t;
  al_def : forall t, valid t -> fixed t = false -> live L' t -> t ∈ D' -> t ∈ D;
  al_const : forall t, valid t -> fixed t = false -> val_type (temps A t) = TEMP_VAL_CONST -> t ∈ K -> t ∈ K';
}.

Lemma asks_less_shifted L L' D K D' K' A :
  inv L D K A -> asks_less L L' D K D' K' A -> shifted L L' D K D' K' A A.
Proof.
  intros [HA Htok] [Hd Hg Hm Hl HD HK]. split; [split; [done|]|apply extends_refl|].
  - intros t Ht Ft. destruct (Htok t Ht Ft) as [K1 K2 K3 K4 K5]. split; eauto.
  - intros E B X v h [R1 R2 R3]. split; [done..|]. intros t Ht Ft Xt. apply (holds_live s E B L); eauto.
Qed.

Definition dead_at (t : Z) (L : live_state) : live_state := mkLive (bset (dead_temps L) t true) (mem_temps L).

Lemma dead_at_other t u L : u <> t -> dead_temps (dead_at t L) u = dead_temps L u.
Proof. intros Hn. cbn. unfold bset. by destruct (Z.eqb_spec u t). Qed.

Lemma dead_at_self t L : dead_temps (dead_at t L) t = true.
Proof. cbn. unfold bset. by rewrite Z.eqb_refl. Qed.

Lemma tok_same L L' D K t ts :
  tok s L D K t ts -> dead_temps L' t = dead_temps L t -> mem_temps L' t = mem_temps L t -> tok s L' D K t ts.
Proof.
  intros [K1 K2 K3 K4 K5] E1 E2. split; rewrite ?E1, ?E2; try done. intros Hv Hl. apply K4; [done|].
  unfold live in *. by rewrite E1, E2 in Hl.
Qed.

Definition dead_temp (t : Z) (ts : TCGTemp) : TCGTemp := ts <| val_type := dead_type s t |>.

Lemma dead_replaced A t :
  wf A -> valid t -> fixed t = false ->
  replaced A t (dead_temp t (temps A t))
    (upd_temp t (dead_temp t) (if in_reg (temps A t) then upd_map (reg (temps A t)) (-1) A else A)).
Proof.
  intros HA Ht Ft. assert (in_reg (dead_temp t (temps A t)) = false) as Hd.
  { unfold in_reg, is_val, dead_temp. cbn. apply bool_decide_eq_false. by destruct (dead_type_not_reg t). }
  split.
  - intros u. destruct (in_reg (temps A t)); cbn; by destruct (Z.eqb_spec u t) as [->|].
  - intros r. rewrite Hd. by destruct (in_reg (temps A t)).
  - by destruct (in_reg (temps A t)).
Qed.

Lemma tok_dead_at L D K A t :
  inv L D K A -> valid t -> fixed t = false -> (mem_temps L t = true -> carried s t) ->
  tok s (dead_at t L) D K t (dead_temp t (temps A t)).
Proof.
  intros HI Ht Ft Hm. pose proof (inv_tok _ _ _ _ _ _ _ HI t Ht Ft) as [K1 K2 K3 K4 K5].
  assert (carried s t -> dead_type s t = TEMP_VAL_MEM) as Hc.
  { unfold dead_type, carried, TcgShape.is_global. intros [[_ H]|H]; [by rewrite (proj2 (Z.ltb_lt _ _))|].
    rewrite H. by rewrite orb_true_r. }
  split; cbn.
  - done.
  - intros _. unfold bset. by rewrite Z.eqb_refl.
  - intros E. left. auto.
  - intros _ [Hd|E] HD; [cbn in Hd; unfold bset in Hd; by rewrite Z.eqb_refl in Hd|]. cbn in E.
    destruct (K3 E) as [Hv|[Hr Hcoh]]; [apply K4; [done|by right|done]|].
    apply slot_some. by apply (wf_coherent _ _ _ A (inv_wf _ _ _ _ _ _ _ HI)).
  - intros E. by destruct (dead_type_not_reg t) as [_ ?].
Qed.

Lemma temp_dead_ok L D K A t :
  inv L D K A -> valid t -> (mem_temps L t = true -> carried s t) ->
  runs (temp_dead s t) A (fun _ A' es => es = [] /\ shifted L (dead_at t L) D K D K A A' /\
    (forall r, reg_to_temp A' r = -1 \/ reg_to_temp A' r = reg_to_temp A r) /\
    (forall u, u <> t -> temps A' u = temps A u)).
Proof.
  intros HI Ht Hm. pose proof (inv_wf _ _ _ _ _ _ _ HI) as HA. unfold temp_dead, get_temp. go.
  rewrite (wf_fixed _ _ _ A HA t Ht). destruct (fixed t) eqn:Ft; cbn [negb when].
  { go. split; [done|]. split; [|split; [by right|done]]. apply asks_less_shifted; [done|].
    assert (forall u, fixed u = false -> u <> t) as Hn by congruence.
    destruct HI as [_ Htok]. split; intros u Hu Fu; specialize (Hn u Fu); destruct (Htok u Hu Fu);
      unfold live; rewrite ?dead_at_other by done; try done. }
  pose proof (dead_replaced A t HA Ht Ft) as HR. set (A' := upd_temp t (dead_temp t) _) in HR.
  assert (runs (when (bool_decide (val_type (temps A t) = TEMP_VAL_REG)) (set_reg_to_temp (reg (temps A t)) (-1)) ;;;
     set_temp t (dead_temp t))%prog A (fun _ A1 es => es = [] /\ A1 = A')) as Hrun.
  { apply runs_bind, runs_when; intros E; fold (is_val TEMP_VAL_REG (temps A t)) (in_reg (temps A t)) in E;
      subst A'; rewrite E; go; done. }
  refine (runs_mono _ _ _ _ Hrun _). intros _ A1 es [-> ->]. split; [done|].
  assert (same_slot (temps A t) (dead_temp t (temps A t))) as HS by done.
  assert (in_reg (dead_temp t (temps A t)) = false) as Hnr.
  { unfold in_reg, is_val, dead_temp. cbn. apply bool_decide_eq_false. by destruct (dead_type_not_reg t). }
  split; [split|split].
  - split; [apply (replaced_wf s tgt T A t (dead_temp t (temps A t))); try done; by rewrite Hnr|].
    intros u Vu Fu. rewrite (rp_temp _ _ _ _ HR). destruct (Z.eqb_spec u t) as [->|Hn]; [by apply tok_dead_at|].
    apply (tok_same L); [by apply (inv_tok _ _ _ _ _ _ _ HI)|by apply dead_at_other|done].
  - by apply (replaced_extends s T A t (dead_temp t (temps A t))).
  - intros E B X v h Hrel. apply (rel_replaced s tgt T E B X X L _ A t (dead_temp t (temps A t)) A' v v h h); try done.
    + intros Xt. unfold holds. cbn. pose proof (rel_temp _ _ _ _ _ _ _ _ _ _ Hrel t Ht Ft Xt) as Hh.
      destruct (dead_type s t) eqn:Ed; try done; [by destruct (dead_type_not_reg t)| |by destruct (dead_type_not_reg t)].
      intros [Hd|Em]; [by rewrite dead_at_self in Hd|]. cbn in Em.
      destruct (tk_mem _ _ _ _ _ _ (inv_tok _ _ _ _ _ _ _ HI t Ht Ft) Em) as [Hv|[Hr Hc]]; unfold holds in Hh.
      * rewrite Hv in Hh. apply Hh. by right.
      * rewrite (in_reg_type _ Hr) in Hh. by apply Hh.
    + intros u Hn _. unfold live. by rewrite dead_at_other.
  - intros r. rewrite (rp_map _ _ _ _ HR), Hnr. cbn. destruct (_ && _); auto.
  - intros u Hn. rewrite (rp_temp _ _ _ _ HR). by destruct (Z.eqb_spec u t).
Qed.

(** Instructions that move values, under a liveness state that changes. *)
Record walked (L L' : live_state) (D K D' K' : list Z) (keep : Z -> Prop) (A A' : alloc_state) (es : list hinsn) : Prop := {
  wk_inv : inv L' D' K' A';
  wk_extends : extends A A';
  wk_sim : forall E B X v h, wf E -> extends A' E -> bases_apart s tgt T B -> rel s tgt T E B X L A v h ->
    exists h', hexecs s tgt T host junk es h = HFall h' /\ rel s tgt T E B X L' A' v h' /\ hworld h' = hworld h /\
      (forall r, keep r -> hreg h' r = hreg h r) /\ slots_kept s tgt T E B X v h h';
}.

Lemma moved_walked L D K keep A A' es : moved L D K keep A A' es -> walked L L D K D K keep A A' es.
Proof. intros [I X S]. by split. Qed.

Lemma shifted_walked L L' D K D' K' (keep : Z -> Prop) A A' :
  shifted L L' D K D' K' A A' -> walked L L' D K D' K' keep A A' [].
Proof. intros [I X R]. split; [done..|]. intros E B Y v h HE HX HB Hr. exists h. do 4 (split; [by auto|]). apply slots_kept_refl. Qed.

Lemma walked_trans L1 L2 L3 D1 K1 D2 K2 D3 K3 keep A1 A2 A3 es1 es2 :
  walked L1 L2 D1 K1 D2 K2 keep A1 A2 es1 -> walked L2 L3 D2 K2 D3 K3 keep A2 A3 es2 ->
  walked L1 L3 D1 K1 D3 K3 keep A1 A3 (es1 ++ es2).
Proof.
  intros [I1 X1 S1] [I2 X2 S2]. split; [done|by apply (extends_trans s T _ A2)|].
  intros E B X v h HE HX HB Hr. destruct (S1 E B X v h HE) as (h1 & E1 & Hr1 & W1 & H1 & C1); [by apply (extends_trans s T _ A3)|done..|].
  destruct (S2 E B X v h1 HE HX HB Hr1) as (h2 & E2 & Hr2 & W2 & H2 & C2). exists h2. rewrite hexecs_app, E1.
  split; [done|]. split; [done|]. split; [congruence|]. split; [intros r Hk; by rewrite H2, H1|].
  by apply (slots_kept_trans s tgt T E B X v h h1).
Qed.

(** *** Assignments *)

(** What is written is not the constant it was. *)
Definition without (ts K : list Z) : list Z := filter (fun u => u ∉ ts) K.
Lemma without_in ts K u : u ∈ without ts K <-> u ∉ ts /\ u ∈ K.
Proof. unfold without. by rewrite list_elem_of_filter. Qed.

Lemma fewer_shifted L D D' K K' A :
  inv L D K A -> (forall t, t ∈ D' -> t ∈ D) -> (forall t, t ∈ K -> t ∈ K') -> shifted L L D K D' K' A A.
Proof.
  intros HI Hd Hk. apply asks_less_shifted; [done|].
  split; intros t Ht Ft; destruct (inv_tok _ _ _ _ _ _ _ HI t Ht Ft); auto.
Qed.

Lemma inv_fewer L D D' K K' A :
  inv L D K A -> (forall t, t ∈ D' -> t ∈ D) -> (forall t, t ∈ K -> t ∈ K') -> inv L D' K' A.
Proof. intros HI Hd Hk. apply (fewer_shifted L D D' K K' A HI Hd Hk). Qed.

Definition written_at (t : Z) (L : live_state) : live_state := mkLive (bset (dead_temps L) t false) (bset (mem_temps L) t false).

Lemma written_other t u L : u <> t ->
  dead_temps (written_at t L) u = dead_temps L u /\ mem_temps (written_at t L) u = mem_temps L u.
Proof. intros Hn. cbn. unfold bset. by destruct (Z.eqb_spec u t). Qed.
Lemma written_self t L : dead_temps (written_at t L) t = false /\ mem_temps (written_at t L) t = false.
Proof. cbn. unfold bset. by rewrite Z.eqb_refl. Qed.

(** The place of a new value. *)
Definition new_place (A : alloc_state) (t : Z) (K : list Z) (ts : TCGTemp) : Prop :=
  match val_type ts with
  | TEMP_VAL_REG => room_reg tgt (reg ts) /\ (reg_to_temp A (reg ts) = -1 \/ reg_to_temp A (reg ts) = t) /\
      mem_coherent ts = false
  | TEMP_VAL_CONST => t ∈ K
  | _ => False
  end.

Definition place_value (ts : TCGTemp) (h : hstate W) : Z :=
  match val_type ts with TEMP_VAL_REG => hreg h (reg ts) | _ => val ts end.

Lemma assigned_inv L D K K' A t ts A' :
  inv L D K A -> valid t -> fixed t = false -> replaced A t ts A' -> same_slot (temps A t) ts -> new_place A t K' ts ->
  (forall u, u ∈ K -> u <> t -> u ∈ K') -> inv (written_at t L) (t :: D) K' A'.
Proof.
  intros HI Ht Ft HR HS Hp HK. destruct (written_self t L) as [Ed Em]. split.
  - apply (replaced_wf s tgt T A t ts); try done; [apply HI|]. intros Hr%in_reg_type. unfold new_place in Hp. rewrite Hr in Hp.
    destruct Hp as (? & ? & ->). done.
  - intros u Vu Fu. rewrite (rp_temp _ _ _ _ HR). destruct (Z.eqb_spec u t) as [->|Hn].
    + unfold new_place in Hp. split; rewrite ?Ed, ?Em; try done.
      * intros E. by rewrite E in Hp.
      * intros E. by rewrite E in Hp.
      * intros E. by rewrite E in Hp.
    + destruct (written_other t u L Hn) as [E1 E2]. destruct (inv_tok _ _ _ _ _ _ _ HI u Vu Fu) as [K1 K2 K3 K4 K5].
      split; rewrite ?E1, ?E2; try done; [|by auto].
      intros Hv Hl HD. apply K4; [done|unfold live in *; by rewrite E1, E2 in Hl|].
      apply elem_of_cons in HD as [?|?]; done.
Qed.

Lemma assigned_rel E B X X' L A t ts A' v v' (h h' : hstate W) K :
  wf A -> rel s tgt T E B X L A v h -> valid t -> fixed t = false -> replaced A t ts A' -> new_place A t K ts ->
  others_kept s tgt T E B A t h h' -> (t ∉ X' -> veq s t (v' t) (place_value ts h')) ->
  (forall u, u <> t -> u ∉ X' -> u ∉ X) -> (forall u, u <> t -> valid u -> v' u = v u) ->
  rel s tgt T E B X' (written_at t L) A' v' h'.
Proof.
  intros HA Hrel Ht Ft HR Hp Hk Hv HX Hvs.
  apply (rel_replaced s tgt T E B X X' L (written_at t L) A t ts A' v v' h h'); try done.
  - intros Xt. specialize (Hv Xt). unfold holds, new_place, place_value in *.
    destruct (val_type ts); try done. destruct Hp as (_ & _ & ->). done.
  - intros u Hn _. unfold live. by destruct (written_other t u L Hn) as [-> ->].
Qed.

(** A new value where memory has to know it, or where nobody reads it again. *)
Definition settled_at (t : Z) (d m : bool) (L : live_state) : live_state := mkLive (bset (dead_temps L) t d) (bset (mem_temps L) t m).

Lemma mem_at_shifted L D K A t :
  inv L D K A -> dead_temps L t = false -> (in_reg (temps A t) = true /\ mem_coherent (temps A t) = true) ->
  shifted L (mkLive (dead_temps L) (bset (mem_temps L) t true)) D K D K A A.
Proof.
  intros HI Hd Hc. pose proof (inv_tok _ _ _ _ _ _ _ HI) as Htok. apply asks_less_shifted; [done|].
  split; intros u Hu Fu; destruct (Htok u Hu Fu) as [K1 K2 K3 K4 K5]; try done; unfold live; cbn; unfold bset;
    destruct (Z.eqb_spec u t) as [->|]; auto.
Qed.

Lemma pointwise_shifted L L' D K A :
  inv L D K A -> (forall t, valid t -> dead_temps L' t = dead_temps L t /\ mem_temps L' t = mem_temps L t) ->
  shifted L L' D K D K A A.
Proof.
  intros HI Heq. pose proof (inv_tok _ _ _ _ _ _ _ HI) as Htok. apply asks_less_shifted; [done|].
  split; intros u Hu Fu; destruct (Htok u Hu Fu) as [K1 K2 K3 K4 K5]; unfold live;
    destruct (Heq u Hu) as [E1 E2]; rewrite ?E1, ?E2; auto.
Qed.

Lemma finish_ok L D K A t r (sync dead : bool) :
  inv L D K A -> valid t -> fixed t = false -> in_reg (temps A t) = true -> reg (temps A t) = r ->
  dead_temps L t = false -> mem_temps L t = false -> (sync = true -> carried s t) ->
  runs (when sync (tcg_reg_sync s tgt r) ;;; when dead (temp_dead s t))%prog A
    (fun _ A' es => walked L (settled_at t dead sync L) D K D K anywhere A A' es /\
       (forall x, reg_to_temp A' x = -1 \/ reg_to_temp A' x = reg_to_temp A x) /\
       (forall u, u <> t -> temps A' u = temps A u)).
Proof.
  intros HI Ht Ft Rt Er Hd Hm Hc. pose proof (inv_wf _ _ _ _ _ _ _ HI) as HA.
  destruct (wf_reg _ _ _ A HA t Ht Ft Rt) as [Em _].
  set (L1 := if sync then mkLive (dead_temps L) (bset (mem_temps L) t true) else L).
  assert (dead_temps L1 = dead_temps L) as EL1 by (by subst L1; destruct sync).
  apply runs_bind. eapply (runs_mono _ _ (fun _ A1 es => walked L L1 D K D K anywhere A A1 es /\
    (forall x, reg_to_temp A1 x = reg_to_temp A x) /\ (forall u, u <> t -> temps A1 u = temps A u))).
  - subst L1. destruct sync; cbn [when].
    + refine (runs_mono _ _ _ _ (tcg_reg_sync_ok L D K A r HI _) _); [rewrite <- Er, Em; by apply valid_neq|].
      rewrite <- Er, Em. intros _ A1 es [HM HS]. split; [|split; apply HS].
      rewrite <- (app_nil_r es). apply (walked_trans L L _ D K D K D K _ A A1 A1).
      * by apply moved_walked.
      * apply shifted_walked, mem_at_shifted; [apply HM|done|]. split; [|apply HS].
        unfold in_reg, is_val. rewrite (sy_type _ _ _ HS). apply Rt.
    + go. split; [|done]. by apply moved_walked, moved_refl.
  - intros _ A1 es1 (HW & Hmap & Ho). pose proof (wk_inv _ _ _ _ _ _ _ _ _ _ HW) as HI1.
    assert (forall L2, (forall u, dead_temps L2 u = dead_temps (settled_at t dead sync L) u /\ mem_temps L2 u = mem_temps (settled_at t dead sync L) u) ->
      forall A2, inv L2 D K A2 -> shifted L2 (settled_at t dead sync L) D K D K A2 A2) as Heq.
    { intros L2 H2 A2 HI2. apply pointwise_shifted; [done|]. intros u _. by destruct (H2 u) as [-> ->]. }
    assert (forall u, mem_temps L1 u = bset (mem_temps L) t sync u) as Em1.
    { intros u. subst L1. unfold bset. destruct sync; cbn; [done|]. by destruct (Z.eqb_spec u t) as [->|]. }
    destruct dead; cbn [when].
    + refine (runs_mono _ _ _ _ (temp_dead_ok L1 D K A1 t HI1 Ht _) _).
      { rewrite Em1. unfold bset. by rewrite Z.eqb_refl. }
      intros _ A2 es (-> & HS & Hmap2 & Ho2). split; [|split].
      * rewrite <- (app_nil_r es1), <- app_assoc. apply (walked_trans L L1 _ D K D K D K _ A A1); [done|].
        apply (walked_trans L1 (dead_at t L1) _ D K D K D K _ A1 A2 A2); [by apply shifted_walked|].
        apply shifted_walked, Heq; [|apply HS]. intros u. cbn. by rewrite Em1, EL1.
      * intros x. rewrite <- Hmap. apply Hmap2.
      * intros u Hn. by rewrite Ho2, Ho.
    + go. split; [|split; [by right|done]].
      apply (walked_trans L L1 _ D K D K D K _ A A1 A1); [done|].
      apply shifted_walked, Heq; [|done]. intros u. cbn. rewrite Em1, EL1. split; [|done].
      unfold bset. by destruct (Z.eqb_spec u t) as [->|].
Qed.
End move.
End TcgMove.
