(* ===== verification/TcgAlloc.v ===== *)
(** The register allocator on one operation: its inputs into registers that
    satisfy the constraints, dead temporaries out of them, registers for its
    outputs; and around it the host instruction, with the meaning the operation
    has on temporaries. *)
From Stdlib Require Import ZArith Lia Bool.
From stdpp Require Import base numbers list.
From S2P Require Import Prelude HostUtils TcgOp TcgOpt TcgRing TcgArith TcgSem TcgBits TcgSound TcgStep TcgProg TcgShape TcgLive TcgReg TcgHost TcgPlace TcgMove.
Local Open Scope Z_scope.

Module TcgAlloc.
Import Tcg TcgOpt TcgRing TcgArith TcgSem TcgSound TcgStep TcgProg TcgShape TcgLive TcgReg TcgHost TcgPlace TcgMove.

Section alloc.
Context (s : TCGContext) (tgt : Target) (T : Z -> TCGTemp).
Notation valid := (valid s).
Notation is_global := (is_global s).
Notation fixed := (fixed s T).
Notation reserved := (reserved tgt).
Notation wf := (wf s tgt T).
Notation inv := (inv s tgt T).
Notation covers := (covers tgt).
Notation readable := (readable s T).
Notation room_in := (room_in tgt).
Hypothesis (HL : layout_ok s tgt T).
Context {W : Type} (host : Host W) (junk : hstate W -> hstate W).
Notation moved := (moved s tgt T host junk).
Notation extends := (extends s T).
Notation delivers := (delivers s tgt T host junk).

(** ** Inputs *)

Definition in_set (R : Z) (r : Z) : Prop := Z.testbit R r = true.

Lemma set_reg_spec R r x : 0 <= r -> in_set (tcg_regset_set_reg R r) x <-> in_set R x \/ x = r.
Proof.
  intros Hr. unfold in_set, tcg_regset_set_reg. destruct (Z.lt_ge_cases x 0).
  - rewrite !Z.testbit_neg_r by done. split; [done|]. intros [?|?]; [done|lia].
  - rewrite lor_bit_spec by done. destruct (Z.testbit R x), (Z.eqb_spec r x); cbn; naive_solver.
Qed.

Lemma covers_more R R' : covers R -> (forall r, in_set R r -> in_set R' r) -> covers R'.
Proof. intros HR H r Hr. by apply H, HR. Qed.

(** What the table promises of the constraint of an input. *)
Definition alias_ok (l : list Z) (c : TCGArgConstraint) : Prop :=
  is_ialias c = true -> (forall v, tcg_target_const_match tgt v c = false) /\ fixed (arg l (alias_index c)) = false.

(** One input put at [x]: a constant, or a register, for an aliased input one
    that the output may take. *)
Record input_at (L : live_state) (D K : list Z) (c : TCGArgConstraint) (dead : bool) (t : Z) (R R' : Z)
    (A A' : alloc_state) (es : list hinsn) (x : Z) (cst : bool) : Prop := {
  ia_moved : moved L D K (in_set R) A A' es;
  ia_map : forall r, in_set R r -> reg_to_temp A' r = reg_to_temp A r;
  ia_value : delivers L A A' es (fun v h => veq s t (v t) (if cst then x else hreg h x));
  ia_regs : if cst then R' = R else 0 <= x /\ in_set (ct_regs c) x /\ R' = tcg_regset_set_reg R x;
  ia_alias : is_ialias c = true -> cst = false /\ room_reg tgt x /\
    ((~ in_set R x /\ reg_to_temp A' x = -1) \/ (dead = true /\ fixed t = false /\ reg_to_temp A' x = t));
}.

Lemma in_reg_false ts : in_reg ts = false -> is_val TEMP_VAL_REG ts = false.
Proof. done. Qed.

Lemma reg_nonneg L D K A t : inv L D K A -> valid t -> in_reg (temps A t) = true -> 0 <= reg (temps A t).
Proof.
  intros HI Ht Rt. pose proof (inv_wf _ _ _ _ _ _ _ HI) as HA. destruct (fixed t) eqn:Ft.
  - destruct (wf_pinned _ _ _ A HA t Ht Ft) as [_ ->].
    assert (is_global t) as Gt by (unfold TcgHost.fixed in Ft; apply andb_true_iff in Ft as [Ft%Z.ltb_lt _]; destruct Ht; done).
    pose proof (ly_fixed _ _ _ HL t Gt Ft) as Hr. unfold TcgPlace.reserved, tcg_regset_test_reg in Hr.
    destruct (Z.le_gt_cases 0 (reg (T t))); [done|]. by rewrite Z.testbit_neg_r in Hr.
  - by destruct (wf_reg _ _ _ A HA t Ht Ft Rt) as [_ [? _]].
Qed.

Lemma alloc_input_ok L D K A op l dead_args i pl :
  let t := arg l i in
  let c := args_ct tgt op i in
  inv L D K A -> readable L D t -> covers (allocated_regs pl) -> room_in (ct_regs c) (allocated_regs pl) -> alias_ok l c ->
  runs (alloc_input s tgt op l dead_args i pl) A
    (fun pl' A' es => exists x cst R', pl' = place i x cst R' pl /\
       input_at L D K c (IS_DEAD_ARG dead_args i) t (allocated_regs pl) R' A A' es x cst).
Proof.
  intros t c HI HR Hcov Hroom Hal. unfold alloc_input, get_temp. fold t c. go. cbv zeta.
  apply runs_bind. refine (runs_mono _ _ _ _ (load_arg_ok s tgt T HL host junk L D K A t c _ _ HI HR Hroom Hcov) _).
  intros _ A1 es1 [HM [Hmap Hp]]. go.
  destruct (is_val TEMP_VAL_CONST (temps A1 t)) eqn:Ec.
  { go. assert (val_type (temps A1 t) = TEMP_VAL_CONST) as Et by (by apply bool_decide_eq_true in Ec).
    destruct Hp as [Hr%in_reg_type|(Hc & _ & ->)]; [congruence|]. rewrite app_nil_r. exists (val (temps A t)), true, (allocated_regs pl).
    split; [done|]. split; try done.
    - intros E B v h h' HE HX HB Hr Hex. destruct (mv_sim _ _ _ _ _ _ _ _ _ _ _ _ HM E B [] v h HE HX HB Hr) as (h2 & E2 & Hr2 & _).
      assert (fixed t = false) as Ft by (apply (unpinned s tgt T L D K A); [done|apply HR|unfold in_reg, is_val; by rewrite Et]).
      pose proof (rel_temp _ _ _ _ _ _ _ _ _ _ Hr2 t (proj1 HR) Ft (not_elem_of_nil t)) as Hh. unfold holds in Hh.
      by rewrite Et in Hh.
    - intros Ha. destruct (Hal Ha) as [Hcm _]. by rewrite Hcm in Hc. }
  assert (in_reg (temps A1 t) = true) as Rt.
  { destruct Hp as [?|(_ & E & _)]; [done|]. unfold is_val in Ec. apply bool_decide_eq_false in Ec. done. }
  assert (assert_ (is_val TEMP_VAL_REG (temps A1 t)) = ret tt) as -> by (unfold assert_; unfold in_reg in Rt; by rewrite Rt). go.
  pose proof (mv_inv _ _ _ _ _ _ _ _ _ _ _ _ HM) as HI1. pose proof (inv_wf _ _ _ _ _ _ _ HI1) as HA1.
  rewrite (wf_fixed _ _ _ A1 HA1 t (proj1 HR)).
  set (own := is_ialias c && _). apply runs_bind. destruct (negb own && _) eqn:Eo.
  - apply andb_true_iff in Eo as [Eo%negb_true_iff Hs]. go. rewrite !app_nil_r.
    exists (reg (temps A1 t)), false, (tcg_regset_set_reg (allocated_regs pl) (reg (temps A1 t))). split; [done|].
    assert (0 <= reg (temps A1 t)) by (apply (reg_nonneg L D K); [done|apply HR|done]). split; try done.
    + intros E B v h h' HE HX HB Hr Hex. destruct (mv_sim _ _ _ _ _ _ _ _ _ _ _ _ HM E B [] v h HE HX HB Hr) as (h2 & E2 & Hr2 & _).
      rewrite app_nil_l in Hex. rewrite Hex in E2. injection E2 as <-. cbn.
      apply (reg_value s tgt T HL E B [] L D K A1); [done..|apply HR|apply not_elem_of_nil|done].
    + intros Ha. subst own. rewrite Ha in Eo. cbn in Eo. destruct (fixed t) eqn:Ft.
      { destruct (Hal Ha) as [_ Hf]. apply negb_false_iff, Z.eqb_eq in Eo. rewrite <- Eo in Hf. congruence. }
      apply negb_false_iff in Eo. destruct (wf_reg _ _ _ A1 HA1 t (proj1 HR) Ft Rt) as [Em Rr]. split; [done|]. split; [done|]. by right.
  - refine (runs_mono _ _ _ _ (copy_to_ok s tgt T HL host junk L D K A1 (ct_regs c) (allocated_regs pl) t HI1 (proj1 HR) Rt Hroom Hcov) _).
    intros r A2 es2 (HM2 & HF & (Hr0 & Hrs & Hrn) & HD). go. rewrite app_nil_r, app_nil_l.
    exists r, false, (tcg_regset_set_reg (allocated_regs pl) r). split; [done|]. split.
    + by apply (moved_trans s tgt T host junk L D K _ A A1).
    + intros x Hx. rewrite (fr_map _ _ _ HF). destruct (Z.eqb_spec x r) as [->|]; [unfold in_set in Hx; congruence|by apply Hmap].
    + apply (delivers_after s tgt T host junk L D K (in_set (allocated_regs pl)) A A1); [done|apply HM2|done].
    + done.
    + intros Ha. split; [done|]. split; [by apply (chosen_room tgt (ct_regs c) (allocated_regs pl))|]. left.
      split; [unfold in_set; congruence|by apply (freed_self A1)].
Qed.

(** Whatever registers the first inputs take, there is one for the next. *)
Fixpoint rooms (cs : list Z) (R : Z) : Prop :=
  match cs with
  | [] => True
  | c :: cs => room_in c R /\ rooms cs R /\ forall r, 0 <= r -> in_set c r -> rooms cs (tcg_regset_set_reg R r)
  end.

Definition in_regs (op : TCGOpcode) (i : nat) : Z := ct_regs (args_ct tgt op i).
Definition alias_in (op : TCGOpcode) (i : nat) : bool := is_ialias (args_ct tgt op i).

(** The marks name each temporary once. *)
Definition marked_once (l : list Z) (dead_args : Z) (ks : list nat) : Prop :=
  forall i j, i ∈ ks -> j ∈ ks -> IS_DEAD_ARG dead_args i = true -> IS_DEAD_ARG dead_args j = true ->
    arg l i = arg l j -> i = j.

Record inputs_at (L : live_state) (D K : list Z) (op : TCGOpcode) (l : list Z) (dead_args : Z) (ks : list nat)
    (pl pl' : placement) (A A' : alloc_state) (es : list hinsn) : Prop := {
  ins_moved : moved L D K (in_set (allocated_regs pl)) A A' es;
  ins_map : forall r, in_set (allocated_regs pl) r -> reg_to_temp A' r = reg_to_temp A r;
  ins_other : forall i, i ∉ ks -> new_args pl' i = new_args pl i /\ const_args pl' i = const_args pl i;
  ins_value : forall i, i ∈ ks ->
    delivers L A A' es (fun v h => veq s (arg l i) (v (arg l i)) (if const_args pl' i then new_args pl' i else hreg h (new_args pl' i)));
  ins_alias : forall i, i ∈ ks -> alias_in op i = true -> const_args pl' i = false /\ room_reg tgt (new_args pl' i) /\
    in_set (in_regs op i) (new_args pl' i) /\
    ((~ in_set (allocated_regs pl) (new_args pl' i) /\ reg_to_temp A' (new_args pl' i) = -1) \/
     (IS_DEAD_ARG dead_args i = true /\ fixed (arg l i) = false /\ reg_to_temp A' (new_args pl' i) = arg l i));
  ins_distinct : forall i j, i ∈ ks -> j ∈ ks -> i <> j -> alias_in op i = true -> alias_in op j = true ->
    new_args pl' i <> new_args pl' j;
}.

(** One more input in front. *)
Lemma inputs_cons L D K op l dead_args i ks x cst R' pl pl' A A1 A' es1 es2 :
  i ∉ ks -> valid (arg l i) -> (forall j, j ∈ ks -> valid (arg l j)) -> marked_once l dead_args (i :: ks) ->
  input_at L D K (args_ct tgt op i) (IS_DEAD_ARG dead_args i) (arg l i) (allocated_regs pl) R' A A1 es1 x cst ->
  inputs_at L D K op l dead_args ks (place i x cst R' pl) pl' A1 A' es2 ->
  inputs_at L D K op l dead_args (i :: ks) pl pl' A A' (es1 ++ es2).
Proof.
  intros Hi Hv Hvs Hone [HM Hmap HV Hregs Hal] [HMs Hmaps Ho HVs Hals Hds]. cbn [allocated_regs place] in *.
  assert (forall r, in_set (allocated_regs pl) r -> in_set R' r) as HR.
  { intros r Hr. destruct cst; [by rewrite Hregs|]. destruct Hregs as (? & _ & ->). apply set_reg_spec; auto. }
  destruct (Ho i Hi) as [En Ec]. cbn in En, Ec. rewrite Nat.eqb_refl in En, Ec.
  assert (cst = false -> in_set R' x) as Hx by (intros ->; destruct Hregs as (? & _ & ->); apply set_reg_spec; auto).
  assert (alias_in op i = true -> forall j, j ∈ ks -> alias_in op j = true -> new_args pl' j <> x) as Hdis.
  { intros Ha j Hj Haj. destruct (Hal Ha) as (Hcst & _ & Hown). destruct (Hals j Hj Haj) as (_ & _ & _ & [[Hn _]|(Dj & _ & Ej)]).
    - intros E. apply Hn. rewrite E. auto.
    - intros E. rewrite E in Ej. rewrite Hmaps in Ej by auto. destruct Hown as [[_ E1]|(Di & _ & E1)].
      + rewrite E1 in Ej. by apply (valid_neq s (arg l j)); [apply Hvs|].
      + rewrite E1 in Ej. apply Hi. rewrite (Hone i j); [done|by left|by right|done..]. }
  split.
  - apply (moved_trans s tgt T host junk L D K _ A A1); [done|].
    by apply (moved_weaken s tgt T host junk L D K (in_set R')).
  - intros r Hr. rewrite Hmaps by auto. by apply Hmap.
  - intros j [Hn Hj]%not_elem_of_cons. destruct (Ho j Hj) as [-> ->]. cbn.
    by rewrite (proj2 (Nat.eqb_neq j i)).
  - intros j [->|Hj]%elem_of_cons.
    + rewrite En, Ec. apply (delivers_kept s tgt T host junk L D K (in_set R') A A1); [done|by eexists|done|].
      intros v h h' Hk. destruct cst; [done|]. by rewrite Hk by auto.
    + apply (delivers_after s tgt T host junk L D K (in_set (allocated_regs pl)) A A1); [done|apply HMs|by apply HVs].
  - intros j [->|Hj]%elem_of_cons Ha.
    + rewrite En, Ec. destruct (Hal Ha) as (-> & Hroom & Hown). split; [done|]. split; [done|]. split; [by apply Hregs|].
      by rewrite Hmaps by auto.
    + destruct (Hals j Hj Ha) as (-> & Hroom & Hset & Hown). split; [done|]. split; [done|]. split; [done|].
      destruct Hown as [[Hn ?]|?]; [left|by right]. split; [|done]. intros Hin. by apply Hn, HR.
  - intros j1 j2 [->|H1]%elem_of_cons [->|H2]%elem_of_cons Hne Ha1 Ha2; [done|..].
    + rewrite En. intros E. by apply (Hdis Ha1 j2).
    + rewrite En. by apply Hdis.
    + by apply Hds.
Qed.

Lemma alloc_inputs_ok L D K op l dead_args ks pl A :
  inv L D K A -> NoDup ks -> (forall i, i ∈ ks -> readable L D (arg l i) /\ alias_ok l (args_ct tgt op i)) ->
  marked_once l dead_args ks -> covers (allocated_regs pl) -> rooms (map (in_regs op) ks) (allocated_regs pl) ->
  runs (alloc_inputs s tgt op l dead_args ks pl) A
    (fun pl' A' es => inputs_at L D K op l dead_args ks pl pl' A A' es).
Proof.
  revert pl A. induction ks as [|i ks IH]; intros pl A HI Hnd Hin Hone Hcov Hroom; cbn [alloc_inputs].
  - go. split; try (by intros i Hi%elem_of_nil); try (by intros i j Hi%elem_of_nil); try done.
    by apply moved_refl.
  - apply NoDup_cons in Hnd as [Hi Hnd]. destruct Hroom as (Hr & Hr1 & Hr2). destruct (Hin i) as [HR Ha]; [by left|].
    apply runs_bind. refine (runs_mono _ _ _ _ (alloc_input_ok L D K A op l dead_args i pl HI HR Hcov Hr Ha) _).
    intros pl1 A1 es1 (x & cst & R' & -> & Hat).
    assert (covers R' /\ rooms (map (in_regs op) ks) R') as [Hcov' Hroom'].
    { pose proof (ia_regs _ _ _ _ _ _ _ _ _ _ _ _ _ Hat) as Hregs. destruct cst; [by rewrite Hregs|].
      destruct Hregs as (H0 & Hs & ->). split; [|by apply Hr2]. apply (covers_more (allocated_regs pl)); [done|].
      intros r Hr'. apply set_reg_spec; auto. }
    refine (runs_mono _ _ _ _ (IH (place i x cst R' pl) A1 _ Hnd _ _ Hcov' Hroom') _).
    + apply (ia_moved _ _ _ _ _ _ _ _ _ _ _ _ _ Hat).
    + intros j Hj. apply Hin. by right.
    + intros j1 j2 H1 H2. apply Hone; by right.
    + intros pl' A' es2 Hats. apply (inputs_cons L D K op l dead_args i ks x cst R' pl pl' A A1); try done.
      * apply HR.
      * intros j Hj. apply (Hin j). by right.
Qed.

(** ** Dead inputs, clobbered registers, globals in memory *)
Fixpoint kill_marks (l : list Z) (dead_args : Z) (js : list nat) (L : live_state) : live_state :=
  match js with
  | [] => L
  | j :: js => kill_marks l dead_args js (if IS_DEAD_ARG dead_args j then dead_at (arg l j) L else L)
  end.

Lemma kill_marks_spec l da js L t :
  mem_temps (kill_marks l da js L) t = mem_temps L t /\
  (dead_temps (kill_marks l da js L) t = true <->
   dead_temps L t = true \/ exists j, j ∈ js /\ IS_DEAD_ARG da j = true /\ arg l j = t).
Proof.
  revert L. induction js as [|j js IH]; intros L; cbn [kill_marks].
  - split; [done|]. split; [by left|]. intros [?|(j & ?%elem_of_nil & _)]; done.
  - destruct (IH (if IS_DEAD_ARG da j then dead_at (arg l j) L else L)) as [-> ->]. split; [by destruct (IS_DEAD_ARG da j)|].
    destruct (IS_DEAD_ARG da j) eqn:E.
    + destruct (Z.eq_dec (arg l j) t) as [<-|Hn].
      * rewrite dead_at_self. split; [|by left]. intros _. right. exists j. split; [by left|done].
      * rewrite dead_at_other by done. split; intros [?|(k & Hk & Ek & Et)]; auto; right; exists k.
        -- split; [by right|done].
        -- apply elem_of_cons in Hk as [->|Hk]; [done|]. done.
    + split; intros [?|(k & Hk & Ek & Et)]; auto; right; exists k.
      * split; [by right|done].
      * apply elem_of_cons in Hk as [->|Hk]; [congruence|]. done.
Qed.

Notation shifted := (TcgMove.shifted (W := W) s tgt T).

Definition maps_shrink (A A' : alloc_state) : Prop :=
  forall r, reg_to_temp A' r = -1 \/ reg_to_temp A' r = reg_to_temp A r.

Lemma maps_shrink_trans A1 A2 A3 : maps_shrink A1 A2 -> maps_shrink A2 A3 -> maps_shrink A1 A3.
Proof. intros H1 H2 r. destruct (H2 r) as [?|E]; [by left|]. rewrite E. apply H1. Qed.

Lemma kill_dead_ok L D K A l da js :
  inv L D K A -> (forall j, j ∈ js -> valid (arg l j)) -> (forall t, valid t -> mem_temps L t = true -> carried s t) ->
  runs (kill_dead s l da js) A (fun _ A' es => es = [] /\
    shifted L (kill_marks l da js L) D K D K A A' /\ maps_shrink A A').
Proof.
  revert L A. induction js as [|j js IH]; intros L A HI Hv Hc; unfold kill_dead; cbn [each kill_marks].
  - go. split; [done|]. split; [|by right]. split; [done|apply extends_refl|done].
  - apply runs_bind. assert (valid (arg l j)) as Vj by (apply Hv; by left).
    set (L1 := if IS_DEAD_ARG da j then dead_at (arg l j) L else L).
    eapply (runs_mono _ _ (fun _ A1 es => es = [] /\ shifted L L1 D K D K A A1 /\ maps_shrink A A1)).
    + subst L1. destruct (IS_DEAD_ARG da j); cbn [when].
      * refine (runs_mono _ _ _ _ (temp_dead_ok s tgt T L D K A (arg l j) HI Vj _) _); [by auto|].
        intros _ A1 es (-> & HS & Hm & _). done.
      * go. split; [done|]. split; [|by right]. split; [done|apply extends_refl|done].
    + intros _ A1 es (-> & HS & Hm). refine (runs_mono _ _ _ _ (IH L1 A1 _ _ _) _).
      * apply HS.
      * intros k Hk. apply Hv. by right.
      * intros t Ht. subst L1. destruct (IS_DEAD_ARG da j); by apply Hc.
      * intros _ A2 es (-> & HS2 & Hm2). split; [done|].
        split; [by apply (shifted_trans s tgt T L L1 _ D K D K D K A A1)|by apply (maps_shrink_trans A A1)].
Qed.

Lemma each_same {X} (f : X -> M unit) l st :
  (forall x, x ∈ l -> f x st = Ok (tt, st, [])) -> each f l st = Ok (tt, st, []).
Proof.
  induction l as [|x l IH]; intros H; [done|]. cbn. unfold bind. rewrite H by (by left).
  by rewrite IH by (intros y Hy; apply H; by right).
Qed.

Definition clobbered (r : Z) : bool := tcg_regset_test_reg (tcg_target_call_clobber_regs tgt) r.

Lemma free_each_ok L D K A rs :
  inv L D K A ->
  runs (each (fun r => when (clobbered r) (tcg_reg_free s tgt r)) rs) A
    (fun _ A' es => moved L D K anywhere A A' es /\ maps_shrink A A' /\
       forall r, r ∈ rs -> clobbered r = true -> reg_to_temp A' r = -1).
Proof.
  revert A. induction rs as [|r rs IH]; intros A HI; cbn [each].
  - go. split; [by apply moved_refl|]. split; [by right|]. by intros r ?%elem_of_nil.
  - apply runs_bind. eapply (runs_mono _ _ (fun _ A1 es => moved L D K anywhere A A1 es /\ maps_shrink A A1 /\
      (clobbered r = true -> reg_to_temp A1 r = -1))).
    + destruct (clobbered r) eqn:E; cbn [when].
      * refine (runs_mono _ _ _ _ (tcg_reg_free_ok s tgt T HL host junk L D K A r HI) _). intros _ A1 es [HM HF].
        split; [done|]. split; [|intros _; by apply (freed_self A)]. intros x. rewrite (fr_map _ _ _ HF). destruct (x =? r); auto.
      * go. split; [by apply moved_refl|]. split; [by right|done].
    + intros _ A1 es1 (HM1 & Hm1 & Hr). refine (runs_mono _ _ _ _ (IH A1 _) _); [apply HM1|]. intros _ A2 es2 (HM2 & Hm2 & Hrs).
      split; [by apply (moved_trans s tgt T host junk L D K _ A A1)|]. split; [by apply (maps_shrink_trans A A1)|].
      intros x [->|Hx]%elem_of_cons Ex; [|by apply Hrs]. destruct (Hm2 r) as [?|E]; [done|]. rewrite E. by apply Hr.
Qed.

Lemma free_clobbered_ok L D K A :
  inv L D K A ->
  runs (free_clobbered s tgt) A
    (fun _ A' es => moved L D K anywhere A A' es /\ maps_shrink A A' /\ forall r, clobbered r = true -> reg_to_temp A' r = -1).
Proof.
  intros HI. refine (runs_mono _ _ _ _ (free_each_ok L D K A _ HI) _). intros _ A' es (HM & Hm & Hr). do 2 (split; [done|]).
  intros r Hc. apply Hr; [|done]. apply elem_of_seqZ. pose proof (proj1 (ly_clobber _ _ _ HL r Hc)). lia.
Qed.

Lemma assert_true (b : bool) (A : alloc_state) : b = true -> assert_ b A = Ok (tt, A, []).
Proof. by intros ->. Qed.

Lemma get_then {X} t (k : TCGTemp -> M X) A r : k (temps A t) A = Ok r -> bind (get_temp t) k A = Ok r.
Proof. unfold bind, get_temp, gets. intros ->. by destruct r as [[? ?] ?]. Qed.

Lemma sync_globals_ok L D K A :
  inv L D K A -> (forall t, is_global t -> mem_temps L t = true) -> TcgReg.sync_globals s A = Ok (tt, A, []).
Proof.
  intros HI Hm. apply each_same. intros t Ht%elem_of_seqZ. assert (is_global t) as Gt by (unfold TcgShape.is_global; lia).
  assert (valid t) as Vt by (pose proof (ly_globals _ _ _ HL); unfold TcgRing.valid, TcgShape.is_global in *; lia).
  apply get_then, assert_true. rewrite (wf_fixed _ _ _ A (inv_wf _ _ _ _ _ _ _ HI) t Vt). destruct (fixed t) eqn:Ft.
  { by rewrite orb_true_r. }
  destruct (tk_mem _ _ _ _ _ _ (inv_tok _ _ _ _ _ _ _ HI t Vt Ft) (Hm t Gt)) as [->|[_ ->]]; [done|by rewrite !orb_true_r].
Qed.

Lemma temp_save_ok L D K A t :
  inv L D K A -> valid t -> dead_temps L t = true -> carried s t -> temp_save t A = Ok (tt, A, []).
Proof.
  intros HI Vt Hd Hc. apply get_then, assert_true. rewrite (wf_fixed _ _ _ A (inv_wf _ _ _ _ _ _ _ HI) t Vt).
  destruct (fixed t) eqn:Ft; [by rewrite orb_true_r|].
  rewrite (tk_dead _ _ _ _ _ _ (inv_tok _ _ _ _ _ _ _ HI t Vt Ft) Hd).
  rewrite bool_decide_true; [done|]. unfold dead_type. destruct Hc as [[_ H]|H]; [by rewrite (proj2 (Z.ltb_lt _ _))|].
  by rewrite H, orb_true_r.
Qed.

Lemma save_globals_ok L D K A :
  inv L D K A -> (forall t, is_global t -> dead_temps L t = true) -> save_globals s A = Ok (tt, A, []).
Proof.
  intros HI Hm. apply each_same. intros t Ht%elem_of_seqZ. assert (is_global t) as Gt by (unfold TcgShape.is_global; lia).
  apply (temp_save_ok L D K); auto; [|by left].
  pose proof (ly_globals _ _ _ HL); unfold TcgRing.valid, TcgShape.is_global in *; lia.
Qed.

Lemma bb_end_ok L D K A :
  inv L D K A -> (forall t, valid t -> dead_temps L t = true) -> tcg_reg_alloc_bb_end s A = Ok (tt, A, []).
Proof.
  intros HI Hd. pose proof (ly_globals _ _ _ HL) as Hg. unfold tcg_reg_alloc_bb_end, bind. rewrite each_same.
  - rewrite (save_globals_ok L D K); [done..|]. intros t Gt. apply Hd. unfold TcgRing.valid, TcgShape.is_global in *. lia.
  - intros t Ht%elem_of_seqZ. assert (valid t) as Vt by (unfold TcgRing.valid; lia).
    destruct (temp_local s t) eqn:El; [apply (temp_save_ok L D K); auto; by right|].
    apply get_then, assert_true, bool_decide_eq_true.
    assert (fixed t = false) as Ft by (unfold TcgHost.fixed; by rewrite (proj2 (Z.ltb_ge _ _)) by lia).
    rewrite (tk_dead _ _ _ _ _ _ (inv_tok _ _ _ _ _ _ _ HI t Vt Ft) (Hd t Vt)). unfold dead_type.
    by rewrite (proj2 (Z.ltb_ge _ _)), El by lia.
Qed.

(** ** Outputs *)
Definition forget (A : alloc_state) (t : Z) : alloc_state :=
  if in_reg (temps A t) then upd_map (reg (temps A t)) (-1) A else A.
Definition assign_in (A : alloc_state) (t r : Z) : alloc_state :=
  upd_map r t (upd_temp t (in_register r false) (forget A t)).

Lemma assign_replaced A t r : replaced A t (in_register r false (temps A t)) (assign_in A t r).
Proof.
  unfold assign_in, forget. split.
  - intros u. destruct (in_reg (temps A t)); cbn; by destruct (Z.eqb_spec u t) as [->|].
  - intros x. destruct (in_reg (temps A t)); cbn; by destruct (x =? r).
  - by destruct (in_reg (temps A t)).
Qed.

Lemma forget_run A t (Q : unit -> alloc_state -> list hinsn -> Prop) :
  Q tt (forget A t) [] -> runs (forget_reg (temps A t)) A Q.
Proof.
  intros H. unfold forget_reg, forget, in_reg in *. apply runs_when; intros E; rewrite E in H; [|done]. go. exact H.
Qed.

(** [t] now has [r], which nothing else had. *)
Record output_at (L : live_state) (D K : list Z) (R : Z) (t r : Z) (A A' : alloc_state) (es : list hinsn) : Prop := {
  oa_room : room_reg tgt r;
  oa_fresh : ~ in_set R r;
  oa_inv : inv (written_at t L) (t :: D) (without [t] K) A';
  oa_extends : extends A A';
  oa_temp : in_reg (temps A' t) = true /\ reg (temps A' t) = r /\ mem_coherent (temps A' t) = false;
  oa_other : forall u, u <> t -> reg_to_temp A r <> u -> temps A' u = temps A u;
  oa_map : forall x, reg_to_temp A' x = -1 \/ reg_to_temp A' x = reg_to_temp A x \/ (x = r /\ reg_to_temp A' x = t);
  oa_sim : forall E B X v h, wf E -> extends A' E -> bases_apart s tgt T B -> rel s tgt T E B X L A v h ->
    exists h', hexecs s tgt T host junk es h = HFall h' /\ rel s tgt T E B (t :: X) (written_at t L) A' v h' /\
      hworld h' = hworld h /\ (forall x, hreg h' x = hreg h x) /\ slots_kept s tgt T E B X v h h';
}.

Lemma others_kept_refl E B A t (h : hstate W) : others_kept s tgt T E B A t h h.
Proof. by split. Qed.

Lemma output_assigned L D K R A A1 t r es :
  inv L D K A -> moved L D K anywhere A A1 es -> valid t -> fixed t = false -> room_reg tgt r -> ~ in_set R r ->
  freed A r A1 -> output_at L D K R t r A (assign_in A1 t r) es.
Proof.
  intros HI HM Ht Ft Hr Hn HF. pose proof (assign_replaced A1 t r) as HR.
  assert (same_slot (temps A1 t) (in_register r false (temps A1 t))) as HS by done.
  assert (forall K0, new_place tgt A1 t K0 (in_register r false (temps A1 t))) as HP.
  { intros K0. unfold new_place. cbn. split; [done|]. split; [|done]. left. by apply (freed_self A). }
  pose proof (mv_inv _ _ _ _ _ _ _ _ _ _ _ _ HM) as HI1.
  assert (extends A1 (assign_in A1 t r)) as HX by (by apply (replaced_extends s T A1 t _ _ HR HS)).
  split; try done.
  - apply (assigned_inv s tgt T L D K _ A1 t _ _ HI1 Ht Ft HR HS (HP _)). intros u Hu Hut. apply without_in. by rewrite list_elem_of_singleton.
  - apply (extends_trans s T _ A1); [apply HM|done].
  - rewrite (rp_temp _ _ _ _ HR), Z.eqb_refl. done.
  - intros u Hu Hru. rewrite (rp_temp _ _ _ _ HR). destruct (Z.eqb_spec u t); [done|]. by apply (fr_other _ _ _ HF).
  - intros x. rewrite (rp_map _ _ _ _ HR), (fr_map _ _ _ HF).
    change (in_reg (in_register r false (temps A1 t))) with true. change (reg (in_register r false (temps A1 t))) with r.
    cbn [andb]. destruct (Z.eqb_spec x r); [by auto|]. destruct (in_reg (temps A1 t) && _); auto.
  - intros E B X v h HE HXE HB Hrel. assert (extends A1 E) as HXE1 by (by apply (extends_trans s T _ (assign_in A1 t r))).
    destruct (mv_sim _ _ _ _ _ _ _ _ _ _ _ _ HM E B X v h HE HXE1 HB Hrel) as (h' & Eh & Hrel' & Ew & Hk & Hc).
    exists h'. split; [done|]. split; [|split; [done|split; [|done]]]; [|intros x; by apply Hk].
    apply (assigned_rel s tgt T E B X (t :: X) L A1 t _ _ v v h' h' K (inv_wf _ _ _ _ _ _ _ HI1) Hrel' Ht Ft HR (HP K)); try done.
    + intros Xt. exfalso. apply Xt. by left.
    + intros u _ [_ ?]%not_elem_of_cons. done.
Qed.

Definition alias_out (op : TCGOpcode) (i : nat) : bool := is_alias (args_ct tgt op i).
Definition alias_of (op : TCGOpcode) (i : nat) : nat := alias_index (args_ct tgt op i).

Lemma alloc_output_ok L D K A op l i pl :
  let t := arg l i in
  inv L D K A -> valid t -> fixed t = false -> covers (allocated_regs pl) ->
  (if alias_out op i then room_reg tgt (new_args pl (alias_of op i)) /\ ~ in_set (allocated_regs pl) (new_args pl (alias_of op i)) /\
     reg_to_temp A (new_args pl (alias_of op i)) = -1
   else room_in (in_regs op i) (allocated_regs pl)) ->
  runs (alloc_output s tgt op l i pl) A
    (fun pl' A' es => exists r, pl' = place i r (const_args pl i) (tcg_regset_set_reg (allocated_regs pl) r) pl /\
       (if alias_out op i then r = new_args pl (alias_of op i) else in_set (in_regs op i) r) /\
       output_at L D K (allocated_regs pl) t r A A' es).
Proof.
  intros t HI Ht Ft Hcov Hc. pose proof (inv_wf _ _ _ _ _ _ _ HI) as HA. unfold alloc_output, get_temp, alias_out, alias_of, in_regs in *.
  fold t. set (c := args_ct tgt op i) in *. go. cbv zeta.
  rewrite (wf_fixed _ _ _ A HA t Ht), Ft, andb_false_r. cbn [andb].
  assert (forall A1 r es, inv L D K A1 -> fixed_reg (temps A1 t) = false ->
    output_at L D K (allocated_regs pl) t r A (assign_in A1 t r) es ->
    (if is_alias c then r = new_args pl (alias_index c) else in_set (ct_regs c) r) ->
    runs (when (negb (fixed_reg (temps A1 t))) (forget_reg (temps A1 t);;; set_temp t (in_register r false);;; set_reg_to_temp r t);;;
          ret (place i r (const_args pl i) (tcg_regset_set_reg (allocated_regs pl) r) pl))%prog A1
      (fun pl' A' es' => exists r, pl' = place i r (const_args pl i) (tcg_regset_set_reg (allocated_regs pl) r) pl /\
         (if is_alias c then r = new_args pl (alias_index c) else in_set (ct_regs c) r) /\
         output_at L D K (allocated_regs pl) t r A A' (es ++ es'))) as Hend.
  { intros A1 r es HI1 Hf Hout Hr. rewrite Hf. cbn [negb when]. apply runs_bind, runs_bind, forget_run. go. rewrite !app_nil_r.
    by exists r. }
  apply runs_bind. destruct (is_alias c).
  - destruct Hc as (Hr & Hn & Hm). go. eapply runs_mono; [apply (Hend A _ []); try done|].
    + by rewrite (wf_fixed _ _ _ A HA t Ht).
    + apply (output_assigned L D K _ A A); try done; [by apply moved_refl|by apply freed_none].
    + done.
  - refine (runs_mono _ _ _ _ (tcg_reg_alloc_ok s tgt T HL host junk L D K A _ _ HI Hc) _).
    intros r A1 es (HM & HF & Hch). pose proof (mv_inv _ _ _ _ _ _ _ _ _ _ _ _ HM) as HI1. go.
    eapply runs_mono; [apply (Hend A1 r es); try done|].
    + by rewrite (wf_fixed _ _ _ A1 (inv_wf _ _ _ _ _ _ _ HI1) t Ht).
    + apply (output_assigned L D K _ A A1); try done; [by apply (chosen_room tgt (ct_regs c) (allocated_regs pl))|].
      destruct Hch as (_ & _ & Hn). unfold in_set. congruence.
    + apply Hch.
    + intros pl' A' es' H. by rewrite !app_nil_l.
Qed.

(** Registers for the outputs in turn, the aliased ones first. *)
Fixpoint out_rooms (op : TCGOpcode) (ks : list nat) (R : Z) : Prop :=
  match ks with
  | [] => True
  | i :: ks =>
      (alias_out op i = false -> room_in (in_regs op i) R /\ forall j, j ∈ ks -> alias_out op j = false) /\
      forall r, 0 <= r -> in_set (in_regs op (if alias_out op i then alias_of op i else i)) r ->
        out_rooms op ks (tcg_regset_set_reg R r)
  end.

Fixpoint written_all (ts : list Z) (L : live_state) : live_state :=
  match ts with [] => L | t :: ts => written_all ts (written_at t L) end.

(** The registers aliased inputs keep for the outputs. *)
Record alias_ready (op : TCGOpcode) (ks : list nat) (pl : placement) (A : alloc_state) : Prop := {
  ar_reg : forall i, i ∈ ks -> alias_out op i = true ->
    room_reg tgt (new_args pl (alias_of op i)) /\ ~ in_set (allocated_regs pl) (new_args pl (alias_of op i)) /\
    reg_to_temp A (new_args pl (alias_of op i)) = -1 /\
    in_set (in_regs op (alias_of op i)) (new_args pl (alias_of op i)) /\ alias_of op i ∉ ks;
  ar_apart : forall i j, i ∈ ks -> j ∈ ks -> i <> j -> alias_out op i = true -> alias_out op j = true ->
    new_args pl (alias_of op i) <> new_args pl (alias_of op j);
}.

Record outputs_at (L : live_state) (D K : list Z) (l : list Z) (ks : list nat) (pl pl' : placement)
    (A A' : alloc_state) (es : list hinsn) : Prop := {
  oo_inv : inv (written_all (map (arg l) ks) L) (rev_append (map (arg l) ks) D) (without (map (arg l) ks) K) A';
  oo_extends : extends A A';
  oo_args : forall i, (i ∉ ks -> new_args pl' i = new_args pl i) /\ const_args pl' i = const_args pl i;
  oo_temp : forall i, i ∈ ks -> in_reg (temps A' (arg l i)) = true /\ reg (temps A' (arg l i)) = new_args pl' i /\
    mem_coherent (temps A' (arg l i)) = false;
  oo_kept : forall u, valid u -> fixed u = false -> u ∉ map (arg l) ks -> in_reg (temps A u) = true ->
    in_set (allocated_regs pl) (reg (temps A u)) -> temps A' u = temps A u;
  oo_map : forall x, reg_to_temp A' x = -1 \/ reg_to_temp A' x = reg_to_temp A x \/ reg_to_temp A' x ∈ map (arg l) ks;
  oo_nil : ks = [] -> es = [];
  oo_sim : forall E B X v h, wf E -> extends A' E -> bases_apart s tgt T B -> rel s tgt T E B X L A v h ->
    exists h', hexecs s tgt T host junk es h = HFall h' /\
      rel s tgt T E B (rev_append (map (arg l) ks) X) (written_all (map (arg l) ks) L) A' v h' /\
      hworld h' = hworld h /\ (forall x, hreg h' x = hreg h x) /\ ((length ks <= 1)%nat -> slots_kept s tgt T E B X v h h');
}.

Lemma elem_map_arg (l : list Z) ks i : i ∈ ks -> arg l i ∈ map (arg l) ks.
Proof. intros H. apply list_elem_of_fmap. eauto. Qed.

Lemma outputs_cons L D K l i ks x pl pl' A A1 A' es1 es2 :
  i ∉ ks -> inv L D K A -> arg l i ∉ map (arg l) ks -> valid (arg l i) -> fixed (arg l i) = false ->
  output_at L D K (allocated_regs pl) (arg l i) x A A1 es1 ->
  outputs_at (written_at (arg l i) L) (arg l i :: D) (without [arg l i] K) l ks
    (place i x (const_args pl i) (tcg_regset_set_reg (allocated_regs pl) x) pl) pl' A1 A' es2 ->
  outputs_at L D K l (i :: ks) pl pl' A A' (es1 ++ es2).
Proof.
  intros Hi HI Hni Vi Fi [Ra Rf I1 X1 (T1 & E1 & C1) Ho Hm S1] [I2 X2 Ha Ht Hk Hm2 Hnil S2].
  destruct Ra as [Rx0 _]. set (t := arg l i) in *.
  assert (in_set (tcg_regset_set_reg (allocated_regs pl) x) x) as Hx by (apply set_reg_spec; auto).
  assert (temps A' t = temps A1 t) as Et by (apply Hk; [done..|rewrite E1; exact Hx]).
  split.
  - refine (inv_fewer s tgt T (W := W) _ _ _ _ _ _ I2 (fun u H => H) _). intros u [H1 [H2 H3]%without_in]%without_in.
    apply without_in. cbn [map]. rewrite not_elem_of_cons. rewrite list_elem_of_singleton in H2. done.
  - by apply (extends_trans s T _ A1).
  - intros j. destruct (Ha j) as [H1 H2]. split.
    + intros [Hn Hj]%not_elem_of_cons. rewrite H1 by done. cbn. by rewrite (proj2 (Nat.eqb_neq j i)).
    + rewrite H2. cbn. by destruct (Nat.eqb_spec j i) as [->|].
  - intros j [->|Hj]%elem_of_cons; [|by apply Ht]. fold t. rewrite Et. split; [done|]. split; [|done].
    destruct (Ha i) as [-> _]; [|done]. cbn. by rewrite Nat.eqb_refl.
  - intros u Vu Fu Hu Ru Hs. cbn [map] in Hu. apply not_elem_of_cons in Hu as [Hn Hu].
    pose proof (wf_reg _ _ _ A (inv_wf _ _ _ _ _ _ _ HI) u Vu Fu Ru) as [Em _].
    assert (temps A1 u = temps A u) as Eu.
    { apply Ho; [done|]. intros Ex. assert (u <> -1) as Hu1 by (by apply (valid_neq s)).
      destruct (wf_map _ _ _ A (inv_wf _ _ _ _ _ _ _ HI) x) as (_ & _ & _ & Er); [congruence|]. rewrite Ex in Er.
      rewrite Er in Hs. by apply Rf. }
    rewrite Hk; rewrite ?Eu; try done. cbn. apply set_reg_spec; auto.
  - intros y. cbn [map]. destruct (Hm2 y) as [?|[E|?]]; [by left| |right; right; by right]. rewrite E.
    destruct (Hm y) as [?|[?|[_ ->]]]; auto. right; right. by left.
  - done.
  - intros E B X v h HE HXE HB Hrel. assert (extends A1 E) as HX1 by (by apply (extends_trans s T _ A')).
    destruct (S1 E B X v h HE HX1 HB Hrel) as (h1 & Eh1 & R1 & W1 & K1 & Cs1).
    destruct (S2 E B (t :: X) v h1 HE HXE HB R1) as (h2 & Eh2 & R2 & W2 & K2 & C2).
    exists h2. rewrite hexecs_app, Eh1. split; [done|]. split; [done|]. split; [congruence|].
    split; [intros y; by rewrite K2, K1|]. cbn [length]. intros Hl. destruct ks; cbn in Hl; [|lia].
    rewrite Hnil in Eh2 by done. by injection Eh2 as <-.
Qed.

Lemma alias_ready_next L D K op l i ks x R' pl A A1 es1 :
  let t := arg l i in
  i ∉ ks -> valid t -> alias_ready op (i :: ks) pl A -> (alias_out op i = false -> forall j, j ∈ ks -> alias_out op j = false) ->
  (alias_out op i = true -> x = new_args pl (alias_of op i)) -> R' = tcg_regset_set_reg (allocated_regs pl) x ->
  output_at L D K (allocated_regs pl) t x A A1 es1 -> alias_ready op ks (place i x (const_args pl i) R' pl) A1.
Proof.
  intros t Hi Vi [H1 H2] Hfirst Hx -> Ho. destruct (oa_room _ _ _ _ _ _ _ _ _ Ho) as [Rx0 _].
  assert (forall j, j ∈ ks -> alias_out op j = true -> new_args (place i x (const_args pl i) (tcg_regset_set_reg (allocated_regs pl) x) pl) (alias_of op j) =
    new_args pl (alias_of op j)) as En.
  { intros j Hj Aj. cbn. destruct (Nat.eqb_spec (alias_of op j) i) as [E|]; [|done].
    destruct (H1 j) as (_ & _ & _ & _ & Hn); [by right|done|]. destruct Hn. rewrite E. by left. }
  assert (forall j, j ∈ ks -> alias_out op j = true -> new_args pl (alias_of op j) <> x) as Hne.
  { intros j Hj Aj. destruct (alias_out op i) eqn:Ai; [|by rewrite Hfirst in Aj].
    rewrite Hx by done. apply H2; [by right|by left|by intros ->|done..]. }
  split.
  - intros j Hj Aj. rewrite En by done. destruct (H1 j) as (Hr & Hn & Hm & Hs & Ha); [by right|done|].
    split; [done|]. split; [|split; [|split; [done|]]].
    + cbn. intros [?|?]%set_reg_spec; [done| |done]. by apply (Hne j).
    + destruct (oa_map _ _ _ _ _ _ _ _ _ Ho (new_args pl (alias_of op j))) as [?|[->|[E _]]]; [done|done|].
      by destruct (Hne j).
    + intros ?. apply Ha. by right.
  - intros j1 j2 Hj1 Hj2 Hn A1' A2'. rewrite !En by done. apply H2; by try right.
Qed.

Lemma alloc_outputs_ok L D K op l ks pl A :
  inv L D K A -> NoDup ks -> NoDup (map (arg l) ks) -> (forall i, i ∈ ks -> valid (arg l i) /\ fixed (arg l i) = false) ->
  covers (allocated_regs pl) -> out_rooms op ks (allocated_regs pl) -> alias_ready op ks pl A ->
  runs (alloc_outputs s tgt op l ks pl) A (fun pl' A' es => outputs_at L D K l ks pl pl' A A' es).
Proof.
  revert L D K pl A. induction ks as [|i ks IH]; intros L D K pl A HI Hnd Hndl Hv Hcov Hroom Hal; cbn [alloc_outputs].
  - go. split; try done; [|apply extends_refl|by intros i ?%elem_of_nil|by auto|].
    { apply (inv_fewer s tgt T (W := W) L D D K); [done|done|]. intros u Hu. apply without_in. split; [apply not_elem_of_nil|done]. }
    intros E B X v h _ _ _ Hrel. exists h. do 4 (split; [done|]). intros _. apply slots_kept_refl.
  - apply NoDup_cons in Hnd as [Hi Hnd]. cbn [map] in Hndl. apply NoDup_cons in Hndl as [Hni Hndl].
    destruct (Hv i) as [Vi Fi]; [by left|]. destruct Hroom as [Hr1 Hr2]. apply runs_bind.
    refine (runs_mono _ _ _ _ (alloc_output_ok L D K A op l i pl HI Vi Fi Hcov _) _).
    { destruct (alias_out op i) eqn:Ai; [|by apply Hr1]. destruct (ar_reg _ _ _ _ Hal i) as (? & ? & ? & _); [by left|done|]. done. }
    intros pl1 A1 es1 (x & -> & Hx & Ho). destruct (oa_room _ _ _ _ _ _ _ _ _ Ho) as [Rx0 _].
    refine (runs_mono _ _ _ _ (IH (written_at (arg l i) L) (arg l i :: D) (without [arg l i] K) _ A1 _ Hnd Hndl _ _ _ _) _).
    + apply (oa_inv _ _ _ _ _ _ _ _ _ Ho).
    + intros j Hj. apply Hv. by right.
    + apply (covers_more (allocated_regs pl)); [done|]. intros r Hr. apply set_reg_spec; auto.
    + apply Hr2; [done|]. destruct (alias_out op i) eqn:Ai; [|done]. subst x.
      destruct (ar_reg _ _ _ _ Hal i) as (_ & _ & _ & ? & _); [by left|done|]. done.
    + apply (alias_ready_next L D K op l i ks x _ pl A A1 es1); try done.
      * intros Ai. by apply Hr1.
      * intros Ai. by rewrite Ai in Hx.
    + intros pl' A' es2 Hos. by apply (outputs_cons L D K l i ks x pl pl' A A1).
Qed.

(** ** The order of the constraints *)
Definition transpose (i j k : nat) : nat := if (k =? i)%nat then j else if (k =? j)%nat then i else k.

Lemma swap_perm (a : list nat) i j :
  (i < length a)%nat -> (j < length a)%nat -> swap_sorted a i j ≡ₚ a.
Proof.
  intros Hi Hj. apply Permutation_inj. split; [unfold swap_sorted; by rewrite !length_insert|].
  exists (transpose i j). split.
  - intros x y. unfold transpose. repeat case_match; rewrite ?Nat.eqb_eq, ?Nat.eqb_neq in *; lia.
  - intros k. unfold swap_sorted, transpose.
    destruct (lookup_lt_is_Some_2 a i Hi) as [x Hx], (lookup_lt_is_Some_2 a j Hj) as [y Hy].
    destruct (Nat.eqb_spec k i) as [->|N1].
    + rewrite list_lookup_insert_eq by (by rewrite length_insert). by rewrite nth_lookup, Hy.
    + rewrite list_lookup_insert_ne by done. destruct (Nat.eqb_spec k j) as [->|N2].
      * rewrite list_lookup_insert_eq by done. by rewrite nth_lookup, Hx.
      * by rewrite list_lookup_insert_ne.
Qed.

Lemma sort_constraints_perm op start n : sort_constraints tgt op start n ≡ₚ seq start n.
Proof.
  unfold sort_constraints.
  assert (forall js i a, (i < n)%nat -> Forall (fun j => j < n)%nat js -> a ≡ₚ seq start n ->
    foldl (fun a j => if get_constraint_priority tgt op (nth i a 0%nat) <? get_constraint_priority tgt op (nth j a 0%nat)
      then swap_sorted a i j else a) a js ≡ₚ seq start n) as Hin.
  { intros js i. induction js as [|j js IH]; intros a Hi Hjs Ha; cbn; [done|]. apply Forall_cons in Hjs as [Hj Hjs].
    apply IH; [done|done|]. destruct (_ <? _); [|done]. rewrite swap_perm; [done|..];
      rewrite (Permutation_length Ha), length_seq; done. }
  assert (forall ls a, Forall (fun i => i < n)%nat ls -> a ≡ₚ seq start n ->
    foldl (fun a i => foldl (fun a j => if get_constraint_priority tgt op (nth i a 0%nat) <? get_constraint_priority tgt op (nth j a 0%nat)
      then swap_sorted a i j else a) a (seq (S i) (n - S i))) a ls ≡ₚ seq start n) as Hout.
  { intros ls. induction ls as [|i ls IH]; intros a His Ha; cbn; [done|]. apply Forall_cons in His as [Hi His].
    apply IH; [done|]. apply Hin; [done| |done]. apply Forall_forall. intros j Hj%elem_of_seq. lia. }
  apply Hout; [|done]. apply Forall_forall. intros i Hi%elem_of_seq. lia.
Qed.

(** ** Behind the instruction *)
Fixpoint settle_all (l : list Z) (da sa : Z) (ks : list nat) (L : live_state) : live_state :=
  match ks with
  | [] => L
  | i :: ks => settle_all l da sa ks (settled_at (arg l i) (IS_DEAD_ARG da i) (NEED_SYNC_ARG sa i) L)
  end.

Notation walked := (walked s tgt T host junk).

Lemma finish_output_eq L D K A l da sa pl i :
  inv L D K A -> valid (arg l i) -> fixed (arg l i) = false ->
  forall Q, runs (when (NEED_SYNC_ARG sa i) (tcg_reg_sync s tgt (new_args pl i));;; when (IS_DEAD_ARG da i) (temp_dead s (arg l i)))%prog A Q ->
    runs (finish_output s tgt l da sa pl i) A Q.
Proof.
  intros HI Ht Ft Q H. unfold finish_output, get_temp. apply runs_bind, runs_gets. cbv beta.
  rewrite (wf_fixed _ _ _ A (inv_wf _ _ _ _ _ _ _ HI) _ Ht), Ft. cbn [andb when]. apply runs_bind, runs_ret. exact H.
Qed.

Lemma finish_all_ok L D K A l da sa pl ks :
  inv L D K A -> NoDup (map (arg l) ks) ->
  (forall i, i ∈ ks -> valid (arg l i) /\ fixed (arg l i) = false /\ in_reg (temps A (arg l i)) = true /\
     reg (temps A (arg l i)) = new_args pl i /\ dead_temps L (arg l i) = false /\ mem_temps L (arg l i) = false /\
     (NEED_SYNC_ARG sa i = true -> carried s (arg l i))) ->
  runs (each (finish_output s tgt l da sa pl) ks) A
    (fun _ A' es => walked L (settle_all l da sa ks L) D K D K anywhere A A' es /\
       (forall u, u ∉ map (arg l) ks -> temps A' u = temps A u)).
Proof.
  revert L A. induction ks as [|i ks IH]; intros L A HI Hnd Hks; cbn [each settle_all].
  - go. split; [by apply moved_walked, moved_refl|done].
  - cbn [map] in Hnd. apply NoDup_cons in Hnd as [Hni Hnd]. destruct (Hks i) as (Vi & Fi & Ri & Ei & Di & Mi & Ci); [by left|].
    apply runs_bind, (finish_output_eq L D K); [done..|].
    refine (runs_mono _ _ _ _ (finish_ok s tgt T HL host junk L D K A _ _ _ _ HI Vi Fi Ri Ei Di Mi Ci) _).
    intros _ A1 es1 (HW & _ & Ho). refine (runs_mono _ _ _ _ (IH _ A1 _ Hnd _) _).
    + apply (wk_inv _ _ _ _ _ _ _ _ _ _ _ _ _ _ _ HW).
    + intros j Hj. destruct (Hks j) as (? & ? & ? & ? & ? & ? & ?); [by right|].
      assert (arg l j <> arg l i) as Hn by (intros E; apply Hni; rewrite <- E; by apply elem_map_arg).
      rewrite Ho by done. cbn. unfold bset. destruct (Z.eqb_spec (arg l j) (arg l i)); done.
    + intros _ A2 es2 [HW2 Ho2]. split; [by eapply walked_trans|].
      cbn [map]. intros u [Hn Hu]%not_elem_of_cons. by rewrite Ho2, Ho.
Qed.
End alloc.
End TcgAlloc.
