(* ===== verification/TcgSim.v ===== *)
(** One operation through the register allocator: what the host instructions
    emitted for it do is what the operation does. *)
From Stdlib Require Import ZArith Lia Bool.
From stdpp Require Import base numbers list sets.
From S2P Require Import Prelude HostUtils TcgOp TcgOpt TcgRing TcgArith TcgSem TcgBits TcgSound TcgStep TcgProg TcgShape TcgLive TcgReg TcgHost TcgMeaning TcgPlace TcgMove TcgAlloc.
Local Open Scope Z_scope.

Module TcgSim.
Import Tcg TcgOpt TcgRing TcgArith TcgSem TcgSound TcgStep TcgProg TcgShape TcgLive TcgReg TcgHost TcgMeaning TcgPlace TcgMove TcgAlloc.

Section sim.
Context (s : TCGContext) (tgt : Target) (T : Z -> TCGTemp).
Notation valid := (valid s).
Notation is_global := (is_global s).
Notation carried := (carried s).
Notation fixed := (fixed s T).
Notation reserved := (reserved tgt).
Notation wf := (wf s tgt T).
Notation inv := (inv s tgt T).
Notation covers := (covers tgt).
Notation readable := (readable s T).
Notation extends := (extends s T).
Notation clobbered := (clobbered tgt).
Hypothesis (HL : layout_ok s tgt T).
Context {W : Type} (host : Host W) (junk : hstate W -> hstate W).
Notation moved := (moved s tgt T host junk).
Notation walked := (walked s tgt T host junk).
Notation shifted := (TcgMove.shifted (W := W) s tgt T).
Notation delivers := (delivers s tgt T host junk).
Notation rel := (TcgPlace.rel (W := W) s tgt T).
Notation in_slot := (TcgPlace.in_slot (W := W) s).
Notation hexecs := (hexecs s tgt T host junk).
Notation bases_apart := (bases_apart s tgt T).

(** ** Writing registers *)
Lemma set_hregs_other (h : hstate W) rs vs x : x ∉ rs -> hreg (set_hregs h rs vs) x = hreg h x.
Proof.
  revert h vs. induction rs as [|r rs IH]; intros h vs Hx; [done|]. apply not_elem_of_cons in Hx as [Hn Hx].
  destruct vs as [|v vs]; cbn; [done|]. rewrite IH by done. cbn. by destruct (Z.eqb_spec x r).
Qed.

Lemma set_hregs_nth (h : hstate W) rs vs j :
  NoDup rs -> (j < length rs)%nat -> length vs = length rs -> hreg (set_hregs h rs vs) (nth j rs 0) = nth j vs 0.
Proof.
  revert h vs j. induction rs as [|r rs IH]; intros h vs j Hn Hj Hl; cbn in Hj; [lia|].
  apply NoDup_cons in Hn as [Hr Hn]. destruct vs as [|v vs]; [done|]. injection Hl as Hl. destruct j as [|j]; cbn.
  - rewrite set_hregs_other by done. cbn. by rewrite Z.eqb_refl.
  - apply IH; [done|lia|done].
Qed.

Lemma set_hregs_cell (h : hstate W) rs vs : cell (set_hregs h rs vs) = cell h /\ hworld (set_hregs h rs vs) = hworld h.
Proof. revert h vs. induction rs as [|r rs IH]; intros h vs; [done|]. destruct vs as [|v vs]; cbn; [done|]. by destruct (IH (set_hreg h r v) vs) as [-> ->]. Qed.

(** What a call leaves of the host. *)
Lemma rel_clobber E B X L A v h :
  wf E -> bases_apart B -> wf A -> rel E B X L A v h ->
  (forall t, valid t -> fixed t = false -> t ∉ X -> in_reg (temps A t) = true -> clobbered (reg (temps A t)) = false) ->
  rel E B X L A v (clobber tgt junk h).
Proof.
  intros HE HB HA [R1 R2 R3] Hc. split; [|done|].
  - intros r Hr. cbn. destruct (tcg_regset_test_reg (tcg_target_call_clobber_regs tgt) r) eqn:E1; [|by apply R1].
    destruct (ly_clobber _ _ _ HL r E1). congruence.
  - intros t Ht Ft Xt. apply (holds_frame s E B L _ _ h); [by apply R3| |].
    + intros Rt. cbn. unfold TcgAlloc.clobbered in Hc. by rewrite Hc.
    + intros b o Es. cbn. destruct (Z.eqb_spec (B b) (hreg h (TCG_REG_CALL_STACK tgt))) as [E1|]; [|done].
      rewrite R1 in E1 by (apply (ly_base _ _ _ HL); by right; left).
      by rewrite (slot_not_area s tgt T HL E B t b o).
Qed.

(** The outputs of an instruction. *)
Lemma rel_outputs E B L A v v' h (ts : list Z) (rs vs : list Z) :
  wf A -> rel E B ts L A v h -> NoDup ts -> length rs = length ts -> length vs = length rs ->
  (forall j, (j < length ts)%nat -> valid (nth j ts 0) /\ fixed (nth j ts 0) = false /\ in_reg (temps A (nth j ts 0)) = true /\
     reg (temps A (nth j ts 0)) = nth j rs 0 /\ mem_coherent (temps A (nth j ts 0)) = false /\
     veq s (nth j ts 0) (v' (nth j ts 0)) (nth j vs 0)) ->
  (forall t, valid t -> t ∉ ts -> v' t = v t) -> rel E B [] L A v' (set_hregs h rs vs).
Proof.
  intros HA [R1 R2 R3] Hnd Hl1 Hl2 Hts Hv.
  assert (forall r, r ∈ rs -> exists j, (j < length ts)%nat /\ r = nth j rs 0) as Hin.
  { intros r (j & Hj)%list_elem_of_lookup. exists j. split; [rewrite <- Hl1; by eapply lookup_lt_Some|]. by rewrite nth_lookup, Hj. }
  assert (forall j, (j < length ts)%nat -> reg_to_temp A (nth j rs 0) = nth j ts 0 /\ room_reg tgt (nth j rs 0)) as Hm.
  { intros j Hj. destruct (Hts j Hj) as (V & F & R & <- & _). by apply (wf_reg _ _ _ A HA). }
  assert (NoDup rs) as Hndr.
  { apply NoDup_alt. intros i j r Hi Hj.
    assert (i < length ts /\ j < length ts)%nat as [Li Lj] by (rewrite <- Hl1; split; by eapply lookup_lt_Some).
    assert (r = nth i rs 0 /\ r = nth j rs 0) as [Ei Ej] by (by rewrite !nth_lookup, Hi, Hj).
    destruct (Hm i Li) as [Mi _], (Hm j Lj) as [Mj _]. rewrite <- Ei in Mi. rewrite <- Ej in Mj. rewrite Mi in Mj.
    apply (NoDup_nth ts 0); try done. by apply NoDup_ListNoDup. }
  assert (forall t, fixed t = true -> valid t -> t ∉ ts) as Hft.
  { intros t Ft Vt (j & Hj)%list_elem_of_lookup. destruct (Hts j) as (_ & F & _); [by eapply lookup_lt_Some|].
    rewrite nth_lookup, Hj in F. cbn in F. congruence. }
  split.
  - intros r Hr. rewrite set_hregs_other; [by apply R1|]. intros (j & Hj & ->)%Hin. destruct (Hm j Hj) as [_ [_ Hn]]. congruence.
  - intros t Ht Ft. rewrite Hv; [by apply R2|done|by apply Hft].
  - intros t Ht Ft _. destruct (decide (t ∈ ts)) as [Hint|Hout].
    + apply list_elem_of_lookup in Hint as (j & Hj). assert (j < length ts)%nat as Lj by (by eapply lookup_lt_Some).
      assert (t = nth j ts 0) as -> by (by rewrite nth_lookup, Hj).
      destruct (Hts j Lj) as (_ & _ & Rj & Ej & Cj & Vj). unfold holds. rewrite (in_reg_type _ Rj), Ej, Cj.
      split; [|done]. rewrite set_hregs_nth by (done || lia). done.
    + rewrite Hv by done. apply (holds_frame s E B L _ _ h); [by apply R3| |].
      * intros Rt. apply set_hregs_other. intros (j & Hj & Er)%Hin. destruct (Hm j Hj) as [Mj _].
        destruct (wf_reg _ _ _ A HA t Ht Ft Rt) as [Mt _]. rewrite Er, Mj in Mt. apply Hout. rewrite <- Mt.
        apply list_elem_of_In, nth_In. lia.
      * intros b o _. by destruct (set_hregs_cell h rs vs) as [-> _].
Qed.

Lemma rel_world E B X L A v h w : rel E B X L A v h -> rel E B X L A v (set_world h w).
Proof. intros [R1 R2 R3]. by split. Qed.

(** ** What the two machines agree on *)

(** Behind a label: what a basic block hands on is in memory. *)
Record home (E : alloc_state) (B : Z -> Z) (v : Z -> Z) (h : hstate W) : Prop := {
  hm_base : forall r, reserved r = true -> hreg h r = B r;
  hm_fixed : forall t, valid t -> fixed t = true -> veq s t (v t) (B (reg (T t)));
  hm_slot : forall t, valid t -> fixed t = false -> carried t -> in_slot E B h t (v t);
}.

(** Outside the block: the world and the globals. *)
Definition left_agree (m : mstate W) (h : hstate W) : Prop :=
  world m = hworld h /\ forall t, is_global t -> uwrap (bits (type s t)) (regs m t) = hglobal s T h t.

Definition outcome_ok (E : alloc_state) (B : Z -> Z) (L : live_state) (A : alloc_state) (n : next W) (hn : hnext W) : Prop :=
  match n, hn with
  | Undef, _ => True
  | Fall m, HFall h => world m = hworld h /\ rel E B [] L A (regs m) h
  | Jump l m, HJump l' h => l = l' /\ world m = hworld h /\ home E B (regs m) h
  | Leave m, HLeave h => left_agree m h
  | _, _ => False
  end.

Lemma global_valid t : is_global t -> valid t.
Proof. pose proof (ly_globals _ _ _ HL). unfold TcgShape.is_global, TcgRing.valid. lia. Qed.

Lemma globals_agree E B (m : mstate W) h :
  wf E -> world m = hworld h -> (forall r, reserved r = true -> hreg h r = B r) ->
  (forall t, valid t -> fixed t = true -> veq s t (regs m t) (B (reg (T t)))) ->
  (forall t, is_global t -> fixed t = false -> in_slot E B h t (regs m t)) -> left_agree m h.
Proof.
  intros HE Hw Hb Hf Hs. split; [done|]. intros t Gt. pose proof (global_valid t Gt) as Vt. unfold hglobal.
  destruct (fixed t) eqn:Ft.
  - rewrite Hb by (by apply (ly_fixed _ _ _ HL)). by apply Hf.
  - rewrite (Hb (mem_reg (T t))) by (apply (ly_base _ _ _ HL); right; right; eauto).
    apply Hs; [done..|]. by apply (wf_global _ _ _ E HE).
Qed.

(** Memory that has to be current is. *)
Lemma mem_in_slot E B X L D K A v (h : hstate W) t :
  inv L D K A -> rel E B X L A v h -> valid t -> fixed t = false -> t ∉ X -> mem_temps L t = true -> in_slot E B h t (v t).
Proof.
  intros HI Hr Ht Ft Xt Hm. pose proof (rel_temp _ _ _ _ _ _ _ _ _ _ Hr t Ht Ft Xt) as Hh. unfold holds in Hh.
  destruct (tk_mem _ _ _ _ _ _ (inv_tok _ _ _ _ _ _ _ HI t Ht Ft) Hm) as [E1|[R1 C1]].
  - rewrite E1 in Hh. apply Hh. by right.
  - rewrite (in_reg_type _ R1) in Hh. by apply Hh.
Qed.

Lemma rel_home E B L D K A v (h : hstate W) :
  inv L D K A -> rel E B [] L A v h -> (forall t, valid t -> carried t -> mem_temps L t = true) -> home E B v h.
Proof.
  intros HI Hr Hc. split; [apply Hr|apply Hr|]. intros t Ht Ft Ct.
  apply (mem_in_slot E B [] L D K A); auto. apply not_elem_of_nil.
Qed.

Lemma home_rel E B L A v (h : hstate W) :
  home E B v h -> (forall t, valid t -> fixed t = false -> val_type (temps A t) = dead_type s t) ->
  (forall t, valid t -> live L t -> carried t) -> rel E B [] L A v h.
Proof.
  intros [H1 H2 H3] Hd Hl. split; [done..|]. intros t Ht Ft _. unfold holds. rewrite (Hd t Ht Ft).
  destruct (dead_type s t) eqn:Et; try done; [by destruct (dead_type_not_reg s t)| |by destruct (dead_type_not_reg s t)].
  intros Hlt. auto.
Qed.

(** ** The marks of an operation *)
Record op_marks (outs ins : list Z) (after st2 before : live_state) (da sa : Z) : Prop := {
  om_before : forall t, valid t -> mem_temps before t = mem_temps st2 t /\
    (dead_temps before t = true <-> dead_temps st2 t = true /\ t ∉ ins);
  om_out : forall j, (j < length outs)%nat ->
    IS_DEAD_ARG da j = dead_temps after (arg outs j) /\ NEED_SYNC_ARG sa j = mem_temps after (arg outs j);
  om_in : forall j, (j < length ins)%nat ->
    IS_DEAD_ARG da (length outs + j) = bool_decide (arg ins j ∉ take j ins) && dead_temps st2 (arg ins j);
}.

(** In front of the outputs. *)
Definition outs_gone (outs : list Z) (L : live_state) : live_state :=
  mkLive (fun t => bool_decide (t ∈ outs) || dead_temps L t) (fun t => negb (bool_decide (t ∈ outs)) && mem_temps L t).

(** [st2] knows less of what is needed: what is dead there, or in memory. *)
Record weaker (st2 st1 : live_state) : Prop := {
  we_dead : forall t, valid t -> dead_temps st1 t = true -> dead_temps st2 t = true;
  we_gone : forall t, valid t -> dead_temps st2 t = true -> dead_temps st1 t = true \/ carried t;
  we_mem : forall t, valid t -> mem_temps st1 t = true -> mem_temps st2 t = true;
  we_live : forall t, valid t -> live st1 t -> live st2 t;
}.

Lemma dead_type_carried t : valid t -> carried t -> dead_type s t = TEMP_VAL_MEM.
Proof.
  intros _ [[_ H]|H]; unfold dead_type; [by rewrite (proj2 (Z.ltb_lt _ _))|]. by rewrite H, orb_true_r.
Qed.

Lemma weaker_shifted st2 st1 D K A : inv st2 D K A -> weaker st2 st1 -> shifted st2 st1 D K D K A A.
Proof.
  intros HI [H1 H2 H3 H4]. pose proof (inv_tok _ _ _ _ _ _ _ HI) as Htok. apply asks_less_shifted; [done|].
  split; intros t Ht Ft; destruct (Htok t Ht Ft) as [K1 K2 K3 K4 K5]; auto.
  intros E1. destruct (H2 t Ht (K2 E1)) as [?|Hc]; [done|]. pose proof (K1 (K2 E1)) as E2.
  rewrite (dead_type_carried t Ht Hc) in E2. congruence.
Qed.

(** Killing the marked inputs leads in front of them. *)
Lemma killed_shifted outs ins l after st2 before da sa D K A A' :
  (forall j, (j < length ins)%nat -> arg l (length outs + j) = arg ins j) -> op_marks outs ins after st2 before da sa ->
  shifted before (kill_marks l da (seq (length outs) (length ins)) before) D K D K A A' -> shifted before st2 D K D K A A'.
Proof.
  intros Harg [Hb _ Hi] HS.
  apply (shifted_trans s tgt T before (kill_marks l da (seq (length outs) (length ins)) before) st2 D K D K D K A A' A'); [done|].
  apply pointwise_shifted; [apply HS|]. intros t Ht.
  destruct (kill_marks_spec l da (seq (length outs) (length ins)) before t) as [-> Hd]. destruct (Hb t Ht) as [-> Hd2].
  split; [|done]. apply eq_true_iff_eq. rewrite Hd, Hd2.
  split.
  - intros Hdt. destruct (decide (t ∈ ins)) as [Hin|]; [right|by left].
    apply list_elem_of_lookup in Hin as (j & Hj).
    destruct (list_find (fun x => x = t) ins) as [[k x]|] eqn:Ef.
    2:{ apply list_find_None in Ef. rewrite Forall_forall in Ef. exfalso. by apply (Ef t); [eapply list_elem_of_lookup_2|]. }
    apply list_find_Some in Ef as (Hk & -> & Hmin). assert (k < length ins)%nat as Lk by (by eapply lookup_lt_Some).
    exists (length outs + k)%nat. split; [apply elem_of_seq; lia|]. rewrite Harg, Hi by done.
    assert (arg ins k = t) as -> by (unfold arg; by rewrite nth_lookup, Hk).
    split; [|done]. rewrite Hdt, andb_true_r. apply bool_decide_eq_true. intros (y & Hy)%list_elem_of_lookup.
    apply lookup_take_Some in Hy as [Hy Ly]. by apply (Hmin y t).
  - intros [[? _]|(j & Hj%elem_of_seq & Hbit & <-)]; [done|].
    replace j with (length outs + (j - length outs))%nat in Hbit |- * by lia. rewrite Hi in Hbit by lia.
    rewrite Harg by lia. by apply andb_true_iff in Hbit as [_ ?].
Qed.

(** ** The host instruction *)
Definition input_values (op : TCGOpcode) (l : list Z) (pl : placement) (v : Z -> Z) (h : hstate W) : Prop :=
  forall j, is_input op j -> veq s (arg l j) (v (arg l j)) (if const_args pl j then new_args pl j else hreg h (new_args pl j)).

Definition hop (op : TCGOpcode) (l : list Z) (pl : placement) : hinsn :=
  HOp op (map (type s) (take (operands op) l)) (map (new_args pl) (seq 0 (operands op)))
    (map (const_args pl) (seq 0 (operands op))) (drop (operands op) l).

Lemma nth_map_seq {X} (f : nat -> X) d n j : (j < n)%nat -> nth j (map f (seq 0 n)) d = f j.
Proof.
  intros Hj. rewrite nth_lookup, list_lookup_fmap, lookup_seq_lt by done. done.
Qed.

Lemma pos_operands op l pl (m : mstate W) h :
  world m = hworld h -> input_values op l pl (regs m) h ->
  same_operands s op l m (mkState (pos_value h (map (new_args pl) (seq 0 (operands op))) (map (const_args pl) (seq 0 (operands op)))) (hworld h)).
Proof.
  intros Hw Hi. split; [done|]. intros j Hj. cbn. unfold pos_value. rewrite Nat2Z.id.
  assert (j < operands op)%nat by (unfold is_input, operands in *; lia). rewrite !nth_map_seq by done.
  exact (Hi j Hj).
Qed.

(** The meaning of the instruction, for any operation by constraints. *)
Lemma hop_effect op l pl k (m : mstate W) h :
  by_constraints op = true -> length l = nb_args (tcg_op_defs op) -> NoDup (outputs (mkOp op l)) -> typed_inputs s op l ->
  world m = hworld h -> input_values op l pl (regs m) h ->
  match exec_op s host k (mkOp op l) m, hexec s tgt T host junk (hop op l pl) h with
  | Undef, _ => True
  | Fall m1, HFall h1 => world m1 = hworld h1 /\ (forall t, t ∉ outputs (mkOp op l) -> regs m1 t = regs m t) /\
      exists vs, length vs = oargs op /\ (forall j, (j < oargs op)%nat -> veq s (arg l j) (regs m1 (arg l j)) (nth j vs 0)) /\
        h1 = set_world (set_hregs (if TCG_OPF_CALL_CLOBBER (tcg_op_defs op) then clobber tgt junk h else h)
               (map (new_args pl) (seq 0 (oargs op))) vs) (world m1)
  | Jump lb m1, HJump lb' h1 => lb = lb' /\ h1 = set_world h (world m1) /\ forall t, regs m1 t = regs m t
  | Leave m1, HLeave h1 => h1 = set_world h (world m1) /\ forall t, regs m1 t = regs m t
  | _, _ => False
  end.
Proof.
  intros Hop Hlen Hnd Hty Hw Hi. pose proof (operands_le op l Hlen) as Hle.
  pose proof (exec_places s host op l k m _ Hop Hlen Hnd Hty (pos_operands op l pl m h Hw Hi)) as He.
  cbn [hexec hop]. unfold exec_hop. fold (pos_types s op l).
  assert (length (pos_types s op l) = operands op) as Ep by (unfold pos_types; rewrite length_map, length_take; lia).
  rewrite Ep. fold (pos_args op l).
  destruct (exec_op s host k (mkOp op l) m) as [m1|lb m1|m1|]; [| | |done];
    destruct (exec_op (pos_ctx _) host false _ _) as [n1|lb' n1|n1|]; try done; cbn in He.
  - destruct He as (Ew & Ho & Hr). cbn [hworld set_world]. split; [done|]. split; [done|].
    exists (map (fun j => half junk (if TCG_OPF_CALL_CLOBBER (tcg_op_defs op) then clobber tgt junk h else h) (nth j (pos_types s op l) W32) (nth j (map (new_args pl) (seq 0 (operands op))) 0)
      (regs n1 (Z.of_nat j))) (seq 0 (oargs op))). split; [by rewrite length_map, length_seq|]. split.
    + intros j Hj. rewrite Ho, nth_map_seq by done. unfold veq, half.
      rewrite <- (pos_type s op l j) by (done || (unfold operands; lia)). cbn. by rewrite Nat2Z.id, merge_low.
    + rewrite Ew. do 2 f_equal. change (nb_oargs (tcg_op_defs op)) with (oargs op). rewrite firstn_map. f_equal.
      unfold operands. rewrite seq_app, take_app_le by (rewrite length_seq; lia). apply take_ge. rewrite length_seq. lia.
  - destruct He as (-> & Ew & Hr). rewrite Ew. done.
  - destruct He as (Ew & Hr). rewrite Ew. done.
Qed.

(** ** What a handler establishes *)

(** From [before] to [after] the operation: the tables stay well formed and the
    instructions [es] do what the operation [i] does. *)
Record entry_ok (i : TCGOp) (before after : live_state) (D K D' K' : list Z) (A A' : alloc_state) (es : list hinsn) : Prop := {
  eo_inv : inv after D' K' A';
  eo_extends : extends A A';
  eo_sim : forall E B k m h, wf E -> extends A' E -> bases_apart B -> rel E B [] before A (regs m) h -> world m = hworld h ->
    outcome_ok E B after A' (exec_op s host k i m) (hexecs es h);
}.
End sim.
End TcgSim.
