(* ===== verification/TcgSimOp.v ===== *)
(** An operation by constraints through [tcg_reg_alloc_op]: the allocator finds
    a register for every operand, and the instructions it emits do what the
    operation does. *)
From Stdlib Require Import ZArith Lia Bool.
From stdpp Require Import base numbers list sets.
From S2P Require Import Prelude HostUtils TcgOp TcgOpt TcgRing TcgArith TcgSem TcgBits TcgSound TcgStep TcgProg TcgShape TcgLive TcgReg TcgHost TcgMeaning TcgPlace TcgMove TcgAlloc TcgSim.
Local Open Scope Z_scope.

Module TcgSimOp.
Import Tcg TcgOpt TcgRing TcgArith TcgSem TcgSound TcgStep TcgProg TcgShape TcgLive TcgReg TcgHost TcgMeaning TcgPlace TcgMove TcgAlloc TcgSim.

Section sim.
Context (s : TCGContext) (tgt : Target) (T : Z -> TCGTemp).
Notation valid := (valid s).
Notation is_global := (is_global s).
Notation carried := (carried s).
Notation fixed := (fixed s T).
Notation reserved := (reserved tgt).
Notation wf := (wf s tgt T).
Notation inv := (inv s tgt T).
Notation covers := (covers tgt).
Notation readable := (readable s T).
Notation extends := (extends s T).
Notation clobbered := (clobbered tgt).
Hypothesis (HL : layout_ok s tgt T).
Context {W : Type} (host : Host W) (junk : hstate W -> hstate W).
Notation moved := (moved s tgt T host junk).
Notation walked := (walked s tgt T host junk).
Notation shifted := (TcgMove.shifted (W := W) s tgt T).
Notation delivers := (delivers s tgt T host junk).
Notation rel := (TcgPlace.rel (W := W) s tgt T).
Notation in_slot := (TcgPlace.in_slot (W := W) s).
Notation hexecs := (hexecs s tgt T host junk).
Notation bases_apart := (bases_apart s tgt T).
Notation outcome_ok := (outcome_ok s tgt T).

(** What the table of the back end promises of an operation. *)
Record op_ready (op : TCGOpcode) : Prop := {
  rd_present : TCG_OPF_NOT_PRESENT tgt op = false;
  rd_in : rooms tgt (map (in_regs tgt op) (sort_constraints tgt op (oargs op) (iargs op))) (reserved_regs tgt);
  rd_out : out_rooms tgt op (sort_constraints tgt op 0 (oargs op)) (reserved_regs tgt);
  rd_alias_in : forall i, is_input op i -> alias_in tgt op i = true ->
    (forall v, tcg_target_const_match tgt v (args_ct tgt op i) = false) /\ (alias_of tgt op i < oargs op)%nat;
  rd_alias_out : forall i, (i < oargs op)%nat -> alias_out tgt op i = true ->
    is_input op (alias_of tgt op i) /\ alias_in tgt op (alias_of tgt op i) = true /\ alias_of tgt op (alias_of tgt op i) = i;
}.

(** What the block and the liveness pass promise. *)
Record op_case (op : TCGOpcode) (l : list Z) (after st2 before : live_state) (da sa : Z) (D : list Z) : Prop := {
  oc_op : by_constraints op = true;
  oc_length : length l = nb_args (tcg_op_defs op);
  oc_nodup : NoDup (outputs (mkOp op l));
  oc_typed : typed_inputs s op l;
  oc_out : forall j, (j < oargs op)%nat -> valid (arg l j) /\ fixed (arg l j) = false;
  oc_in : forall j, is_input op j -> readable before D (arg l j);
  oc_marks : op_marks s (outputs (mkOp op l)) (inputs (mkOp op l)) after st2 before da sa;
  oc_weaker : weaker s st2 (outs_gone (outputs (mkOp op l)) after);
  oc_mem : forall t, valid t -> mem_temps st2 t = true -> carried t;
  oc_mem_after : forall t, valid t -> mem_temps after t = true -> carried t;
  oc_end : TCG_OPF_BB_END (tcg_op_defs op) = true ->
    oargs op = 0%nat /\ forall t, valid t -> dead_temps st2 t = true /\ (carried t -> mem_temps st2 t = true);
  oc_effects : TCG_OPF_SIDE_EFFECTS (tcg_op_defs op) = true ->
    (oargs op <= 1)%nat /\ forall t, is_global t -> mem_temps st2 t = true;
}.

Lemma rel_more E B X X' L A v (h : hstate W) : rel E B X L A v h -> (forall t, t ∈ X -> t ∈ X') -> rel E B X' L A v h.
Proof. intros [R1 R2 R3] HX. split; [done..|]. intros t Ht Ft Xt. apply R3; auto. Qed.

Lemma end_no_clobber op : TCG_OPF_BB_END (tcg_op_defs op) = true -> TCG_OPF_CALL_CLOBBER (tcg_op_defs op) = false.
Proof. destruct op; try done; by destruct b. Qed.

Section one.
Context (op : TCGOpcode) (l : list Z) (after st2 before : live_state) (da sa : Z) (D K : list Z).
Context (HR : op_ready op) (HC : op_case op l after st2 before da sa D).

Notation outs := (outputs (mkOp op l)).
Notation ins := (inputs (mkOp op l)).

Lemma by_not_call : op <> op_call.
Proof. intros E. pose proof (oc_op _ _ _ _ _ _ _ _ HC) as H. by rewrite E in H. Qed.

Lemma outs_arg j : (j < oargs op)%nat -> arg outs j = arg l j.
Proof. intros Hj. rewrite outputs_eq by apply by_not_call. by apply arg_take. Qed.

Lemma outs_length : length outs = oargs op.
Proof.
  rewrite outputs_eq by apply by_not_call. rewrite length_take, (oc_length _ _ _ _ _ _ _ _ HC).
  unfold nb_args, oargs. lia.
Qed.

Lemma outs_map : outs = map (arg l) (seq 0 (oargs op)).
Proof.
  rewrite outputs_eq by apply by_not_call. rewrite <- (args_seq 0) by (rewrite (oc_length _ _ _ _ _ _ _ _ HC); unfold nb_args, oargs; lia).
  done.
Qed.

Lemma ins_map_arg : ins = map (arg l) (seq (oargs op) (iargs op)).
Proof.
  rewrite inputs_eq by apply by_not_call. apply args_seq. rewrite (oc_length _ _ _ _ _ _ _ _ HC).
  unfold nb_args, oargs, iargs. lia.
Qed.

Lemma ins_length : length ins = iargs op.
Proof. rewrite ins_map_arg. by rewrite length_map, length_seq. Qed.

Lemma ins_arg j : (j < iargs op)%nat -> arg ins j = arg l (oargs op + j).
Proof.
  intros Hj. rewrite inputs_eq by apply by_not_call. rewrite arg_take by done. by rewrite arg_drop.
Qed.

Lemma dead_input i : is_input op i -> IS_DEAD_ARG da i = true ->
  dead_temps st2 (arg l i) = true /\ arg l i ∉ map (arg l) (seq (oargs op) (i - oargs op)).
Proof.
  intros Hi Hd. pose proof (om_in _ _ _ _ _ _ _ _ (oc_marks _ _ _ _ _ _ _ _ HC) (i - oargs op)) as Hm.
  assert (oargs op <= i < oargs op + iargs op)%nat as Hr by (unfold is_input in Hi; lia).
  rewrite ins_length, outs_length in Hm. specialize (Hm ltac:(lia)). rewrite ins_arg in Hm by lia.
  replace (oargs op + (i - oargs op))%nat with i in Hm by lia. rewrite Hd in Hm. symmetry in Hm.
  apply andb_true_iff in Hm as [Hm%bool_decide_eq_true Hd2]. split; [done|]. revert Hm. rewrite ins_map_arg, firstn_map.
  replace (iargs op) with ((i - oargs op) + (iargs op - (i - oargs op)))%nat by lia. rewrite seq_app, take_app_length' by (by rewrite length_seq).
  done.
Qed.

Lemma once : marked_once l da (sort_constraints tgt op (oargs op) (iargs op)).
Proof.
  intros i j Hi Hj Di Dj E. rewrite sort_constraints_perm, elem_of_seq in Hi, Hj.
  assert (forall a b, is_input op a -> is_input op b -> IS_DEAD_ARG da b = true -> (a < b)%nat -> arg l a <> arg l b) as Hlt.
  { intros a b Ha Hb Db Hab Eab. destruct (dead_input b Hb Db) as [_ Hn]. apply Hn. rewrite <- Eab.
    apply elem_map_arg, elem_of_seq. unfold is_input in Ha, Hb. lia. }
  assert (is_input op i /\ is_input op j) as [Ii Ij] by (unfold is_input; lia).
  destruct (Nat.lt_trichotomy i j) as [H|[H|H]]; [by destruct (Hlt i j)|done|by destruct (Hlt j i)].
Qed.

(** *** Operands *)

(** In front of the instruction: the inputs are in place, what is dead behind
    them is out of the way. *)
Record operands_in (pl : placement) (A A' : alloc_state) (es : list hinsn) : Prop := {
  oi_walked : walked before st2 D K D K (in_set (reserved_regs tgt)) A A' es;
  oi_values : delivers before A A' es (input_values s op l pl);
  oi_alias : forall i, is_input op i -> alias_in tgt op i = true -> const_args pl i = false /\ room_reg tgt (new_args pl i) /\
    in_set (in_regs tgt op i) (new_args pl i) /\ reg_to_temp A' (new_args pl i) = -1;
  oi_distinct : forall i j, is_input op i -> is_input op j -> i <> j -> alias_in tgt op i = true -> alias_in tgt op j = true ->
    new_args pl i <> new_args pl j;
}.

Lemma sorted_input i : i ∈ sort_constraints tgt op (oargs op) (iargs op) <-> is_input op i.
Proof. rewrite sort_constraints_perm, elem_of_seq. done. Qed.

Lemma operands_in_ok A :
  inv before D K A ->
  runs (pl <- alloc_inputs s tgt op l da (sort_constraints tgt op (oargs op) (iargs op))
                (mkPlacement (fun _ => 0) (fun _ => false) (reserved_regs tgt)) ;;
        kill_dead s l da (seq (oargs op) (iargs op)) ;;; ret pl)%prog A
    (fun pl A' es => operands_in pl A A' es).
Proof.
  intros HI. apply runs_bind.
  refine (runs_mono _ _ _ _ (alloc_inputs_ok s tgt T HL host junk before D K op l da _ _ A HI _ _ once _ _) _).
  { rewrite sort_constraints_perm. apply NoDup_seq. }
  { intros i Hi%sorted_input. split; [by apply (oc_in _ _ _ _ _ _ _ _ HC)|]. intros Ha.
    destruct (rd_alias_in _ HR i Hi Ha) as [Hc Ho]. split; [done|]. by apply (oc_out _ _ _ _ _ _ _ _ HC). }
  { intros r Hr. exact Hr. }
  { apply (rd_in _ HR). }
  intros pl A1 es1 [IM Imap Ioth Ival Ial Idis]. cbn [allocated_regs] in *.
  pose proof (mv_inv _ _ _ _ _ _ _ _ _ _ _ _ IM) as HI1.
  apply runs_bind.
  refine (runs_mono _ _ _ _ (kill_dead_ok s tgt T (W := W) before D K A1 l da (seq (oargs op) (iargs op)) HI1 _ _) _).
  { intros j Hj. apply (oc_in _ _ _ _ _ _ _ _ HC). unfold is_input. apply elem_of_seq in Hj. lia. }
  { intros t Ht. rewrite (proj1 (om_before _ _ _ _ _ _ _ _ (oc_marks _ _ _ _ _ _ _ _ HC) t Ht)). by apply (oc_mem _ _ _ _ _ _ _ _ HC). }
  intros _ A2 es2 (-> & HS & Hmap). go. rewrite !app_nil_r.
  assert (shifted before st2 D K D K A1 A2) as HS2.
  { apply (killed_shifted s tgt T outs ins l after st2 before da sa); [|apply HC|by rewrite outs_length, ins_length].
    rewrite ins_length, outs_length. intros j Hj. by rewrite ins_arg. }
  split.
  - rewrite <- (app_nil_r es1). eapply walked_trans; [apply moved_walked|by apply shifted_walked].
    done.
  - intros E B v h h' HE HX HB Hr Eh i Hi. apply (Ival i (proj2 (sorted_input i) Hi) E B v h h'); try done.
    apply (extends_trans s T A1 A2); [apply HS|done].
  - intros i Hi Ha. destruct (Ial i (proj2 (sorted_input i) Hi) Ha) as (C1 & C2 & C3 & C4). do 3 (split; [done|]).
    destruct C4 as [[_ E1]|(Hd & Fi & E1)]; [destruct (Hmap (new_args pl i)); congruence|].
    apply (dead_input i Hi) in Hd as [Hd _]. destruct (Hmap (new_args pl i)) as [?|E2]; [done|]. rewrite E1 in E2.
    destruct (oc_in _ _ _ _ _ _ _ _ HC i Hi) as [Vi _]. pose proof (sh_inv _ _ _ _ _ _ _ _ _ _ _ HS2) as HI2.
    destruct (wf_map _ _ _ A2 (inv_wf _ _ _ _ _ _ _ HI2) (new_args pl i)) as (_ & _ & R2 & _); [rewrite E2; by apply (valid_neq s)|].
    rewrite E2 in R2. pose proof (tok_reg_live _ _ _ _ _ _ (inv_tok _ _ _ _ _ _ _ HI2 (arg l i) Vi Fi) R2). congruence.
  - intros i j Hi Hj. apply Idis; by apply sorted_input.
Qed.

(** *** The end of a basic block *)
Lemma hexecs_then es h h1 es2 : hexecs es h = HFall h1 -> hexecs (es ++ es2) h = hexecs es2 h1.
Proof. intros E. by rewrite hexecs_app, E. Qed.

Lemma all_dead_no_const D' A :
  inv st2 D K A -> (forall t, valid t -> dead_temps st2 t = true) -> (forall t, t ∈ D' -> t ∈ D) -> inv st2 D' [] A.
Proof.
  intros HI Hd HD. apply (sh_inv (W := W) s tgt T st2 st2 D K D' [] A A), asks_less_shifted; [done|].
  split; intros t Ht Ft; destruct (inv_tok _ _ _ _ _ _ _ HI t Ht Ft) as [K1 K2 K3 K4 K5]; auto.
  intros E1. rewrite K1 in E1 by auto. by destruct (dead_type_not_reg s t).
Qed.

Lemma no_outs_gone A D' K' :
  oargs op = 0%nat -> inv st2 D' K' A -> shifted st2 after D' K' D' K' A A.
Proof.
  intros No HI. pose proof (oc_weaker _ _ _ _ _ _ _ _ HC) as Hw.
  assert (outs = []) as Eo by (rewrite outs_map, No; done). rewrite Eo in Hw.
  apply (weaker_shifted s tgt T st2 after); [done|]. destruct Hw as [H1 H2 H3 H4]. split; intros t Ht.
  - intros E. apply H1; [done|]. cbn. by rewrite E, orb_true_r.
  - intros E. destruct (H2 t Ht E) as [E1|?]; [left|by right]. cbn in E1.
    rewrite bool_decide_false in E1 by apply not_elem_of_nil. done.
  - intros E. apply H3; [done|]. cbn. by rewrite bool_decide_false by apply not_elem_of_nil.
  - intros Hl. apply H4; [done|]. unfold live in *. cbn. by rewrite bool_decide_false by apply not_elem_of_nil.
Qed.

Lemma end_entry pl A A1 es :
  TCG_OPF_BB_END (tcg_op_defs op) = true -> operands_in pl A A1 es ->
  entry_ok s tgt T host junk (mkOp op l) before after D K (outs ++ D) [] A A1 (es ++ [hop s op l pl]).
Proof.
  intros Hb [[IW XW SW] Hv _ _]. destruct (oc_end _ _ _ _ _ _ _ _ HC Hb) as [No Hd].
  assert (outs = []) as Eo by (rewrite outs_map, No; done).
  pose proof (all_dead_no_const D A1 IW (fun t Ht => proj1 (Hd t Ht)) (fun t H => H)) as HI2.
  pose proof (no_outs_gone A1 D [] No HI2) as HS. split; [rewrite Eo; apply HS|done|].
  intros E B k m h HE HX HB Hr Hw. destruct (SW E B [] (regs m) h HE HX HB Hr) as (h1 & E1 & R1 & W1 & _ & _).
  rewrite (hexecs_then es h h1) by done. cbn [TcgHost.hexecs].
  pose proof (hop_effect s tgt T host junk op l pl k m h1) as He.
  specialize (He (oc_op _ _ _ _ _ _ _ _ HC) (oc_length _ _ _ _ _ _ _ _ HC) (oc_nodup _ _ _ _ _ _ _ _ HC) (oc_typed _ _ _ _ _ _ _ _ HC)).
  rewrite W1 in He. specialize (He Hw (Hv E B (regs m) h h1 HE HX HB Hr E1)).
  assert (TCG_OPF_CALL_CLOBBER (tcg_op_defs op) = false) as Hc by (by apply end_no_clobber).
  rewrite Hc, No in He. cbn [seq map] in He.
  assert (forall v v', (forall t, v' t = v t) -> rel E B [] st2 A1 v h1 -> rel E B [] st2 A1 v' h1) as Hext.
  { intros v v' Ev [Q1 Q2 Q3]. split; [done|..]; intros t; rewrite Ev; auto. }
  assert (forall m1, (forall t, regs m1 t = regs m t) -> home s tgt T E B (regs m1) (set_world h1 (world m1))) as Hhome.
  { intros m1 Em. apply (rel_home s tgt T E B st2 D [] A1); [done| |by intros; apply Hd].
    apply rel_world. apply (Hext (regs m)); done. }
  destruct (exec_op s host k (mkOp op l) m) as [m1|lb m1|m1|]; [| | |done];
    destruct (hexec s tgt T host junk (hop s op l pl) h1) as [h2|lb2 h2|h2|]; try done; cbn [outcome_ok].
  - destruct He as (Ew & Hreg & vs & _ & _ & ->). cbn [set_hregs]. split; [done|].
    apply rel_world, (sh_rel s tgt T _ _ _ _ _ _ _ _ HS). apply (Hext (regs m)); [|done].
    intros t. apply Hreg. rewrite Eo. apply not_elem_of_nil.
  - destruct He as (-> & -> & Hreg). split; [done|]. split; [done|]. by apply Hhome.
  - destruct He as (-> & Hreg). destruct (Hhome m1 Hreg) as [G1 G2 G3].
    apply (globals_agree s tgt T HL E B); try done. intros t Gt Ft. apply G3; [by apply (global_valid s tgt T HL)|done|by left].
Qed.

(** *** Results *)
Notation gone := (outs_gone outs after).
Notation ks := (sort_constraints tgt op 0 (oargs op)).
Notation fresh pl := (mkPlacement (new_args pl) (const_args pl) (reserved_regs tgt)).

Lemma sorted_output i : i ∈ ks <-> (i < oargs op)%nat.
Proof. rewrite sort_constraints_perm, elem_of_seq. lia. Qed.

Lemma aliases_ready pl A A1 A2 es1 :
  operands_in pl A A1 es1 -> maps_shrink A1 A2 -> alias_ready tgt op ks (fresh pl) A2.
Proof.
  intros [_ _ Ha Hd] Hm. split.
  - intros i Hi%sorted_output Hal. destruct (rd_alias_out _ HR i Hi Hal) as (Hin & Hia & _).
    destruct (Ha _ Hin Hia) as (_ & C1 & C2 & C3). cbn [new_args allocated_regs]. split; [done|].
    destruct C1 as [C0 C1]. split; [unfold in_set; unfold TcgPlace.reserved, tcg_regset_test_reg in C1; congruence|].
    split; [destruct (Hm (new_args pl (alias_of tgt op i))); congruence|]. split; [done|].
    rewrite sorted_output. unfold is_input in Hin. lia.
  - intros i j Hi%sorted_output Hj%sorted_output Hn Ai Aj. cbn [new_args].
    destruct (rd_alias_out _ HR i Hi Ai) as (Ii & Ji & Ei), (rd_alias_out _ HR j Hj Aj) as (Ij & Jj & Ej).
    apply Hd; try done. congruence.
Qed.

(** The registers of the outputs are theirs. *)
Record results_in (pl pl' : placement) (A1 A2 A3 : alloc_state) (es2 es3 : list hinsn) : Prop := {
  ri_moved : moved st2 D K anywhere A1 A2 es2;
  ri_clobbered : TCG_OPF_CALL_CLOBBER (tcg_op_defs op) = true -> forall r, clobbered r = true -> reg_to_temp A2 r = -1;
  ri_shifted : shifted st2 gone D K D K A2 A2;
  ri_outputs : outputs_at s tgt T host junk gone D K l ks (fresh pl) pl' A2 A3 es3;
}.

Lemma outputs_nodup : NoDup (map (arg l) ks).
Proof. rewrite sort_constraints_perm, <- outs_map. apply (oc_nodup _ _ _ _ _ _ _ _ HC). Qed.

Lemma results_in_ok pl A A1 es1 :
  operands_in pl A A1 es1 ->
  runs (when (TCG_OPF_CALL_CLOBBER (tcg_op_defs op)) (free_clobbered s tgt) ;;;
        when (TCG_OPF_SIDE_EFFECTS (tcg_op_defs op)) (TcgReg.sync_globals s) ;;;
        alloc_outputs s tgt op l ks (fresh pl))%prog A1
    (fun pl' A3 es => exists A2 es2 es3, es = es2 ++ es3 /\ results_in pl pl' A1 A2 A3 es2 es3).
Proof.
  intros HO. pose proof (wk_inv _ _ _ _ _ _ _ _ _ _ _ _ _ _ _ (oi_walked _ _ _ _ HO)) as HI1.
  apply runs_bind.
  apply (runs_mono _ _ (fun _ A2 es2 => moved st2 D K anywhere A1 A2 es2 /\ maps_shrink A1 A2 /\
    (TCG_OPF_CALL_CLOBBER (tcg_op_defs op) = true -> forall r, clobbered r = true -> reg_to_temp A2 r = -1))).
  { apply runs_when; intros Hc.
    - refine (runs_mono _ _ _ _ (free_clobbered_ok s tgt T HL host junk st2 D K A1 HI1) _). intros _ A2 es2 (? & ? & ?). done.
    - split; [by apply moved_refl|]. split; [intros r; by right|]. congruence. }
  intros _ A2 es2 (HM & Hmap & Hclob). pose proof (mv_inv _ _ _ _ _ _ _ _ _ _ _ _ HM) as HI2.
  assert (when (TCG_OPF_SIDE_EFFECTS (tcg_op_defs op)) (TcgReg.sync_globals s) A2 = Ok (tt, A2, [])) as Es.
  { destruct (TCG_OPF_SIDE_EFFECTS (tcg_op_defs op)) eqn:Hs; [|done]. destruct (oc_effects _ _ _ _ _ _ _ _ HC Hs) as [_ Hg].
    by apply (sync_globals_ok s tgt T HL st2 D K). }
  apply runs_bind. exists tt, A2, []. split; [done|].
  pose proof (weaker_shifted s tgt T (W := W) st2 gone D K A2 HI2 (oc_weaker _ _ _ _ _ _ _ _ HC)) as HS.
  refine (runs_mono _ _ _ _ (alloc_outputs_ok s tgt T HL host junk gone D K op l ks (fresh pl) A2 _ _ outputs_nodup _ _ _ _) _).
  - apply HS.
  - rewrite sort_constraints_perm. apply NoDup_seq.
  - intros i Hi%sorted_output. by apply (oc_out _ _ _ _ _ _ _ _ HC).
  - intros r Hr. exact Hr.
  - apply (rd_out _ HR).
  - by apply (aliases_ready pl A A1 A2 es1).
  - intros pl' A3 es3 HA. exists A2, es2, es3. rewrite app_nil_l. split; [done|]. by split.
Qed.

Lemma written_all_spec ts L t :
  dead_temps (written_all ts L) t = negb (bool_decide (t ∈ ts)) && dead_temps L t /\
  mem_temps (written_all ts L) t = negb (bool_decide (t ∈ ts)) && mem_temps L t.
Proof.
  revert L. induction ts as [|u ts IH]; intros L; cbn [written_all]; [done|].
  destruct (IH (written_at u L)) as [-> ->]. cbn. unfold bset.
  destruct (Z.eqb_spec t u) as [->|Hn].
  - rewrite (bool_decide_true (u ∈ u :: ts)) by (by left). by rewrite !andb_false_r.
  - assert (bool_decide (t ∈ u :: ts) = bool_decide (t ∈ ts)) as -> by (apply bool_decide_ext; rewrite elem_of_cons; tauto). done.
Qed.

Lemma settle_all_spec js L t :
  NoDup (map (arg l) js) ->
  (t ∉ map (arg l) js -> dead_temps (settle_all l da sa js L) t = dead_temps L t /\ mem_temps (settle_all l da sa js L) t = mem_temps L t) /\
  (forall i, i ∈ js -> t = arg l i -> dead_temps (settle_all l da sa js L) t = IS_DEAD_ARG da i /\
     mem_temps (settle_all l da sa js L) t = NEED_SYNC_ARG sa i).
Proof.
  revert L. induction js as [|j js IH]; intros L Hn; cbn [settle_all map].
  - split; [done|]. by intros i ?%elem_of_nil.
  - cbn [map] in Hn. apply NoDup_cons in Hn as [Hj Hn].
    destruct (IH (settled_at (arg l j) (IS_DEAD_ARG da j) (NEED_SYNC_ARG sa j) L) Hn) as [H1 H2]. split.
    + intros [Ht Hts]%not_elem_of_cons. destruct (H1 Hts) as [-> ->]. cbn. unfold bset. by rewrite (proj2 (Z.eqb_neq _ _) Ht).
    + intros i [->|Hi]%elem_of_cons Et; [|by apply H2].
      rewrite <- Et in Hj. destruct (H1 Hj) as [-> ->]. cbn. unfold bset. by rewrite Et, Z.eqb_refl.
Qed.

Lemma sorted_map t : t ∈ map (arg l) ks <-> t ∈ outs.
Proof. by rewrite sort_constraints_perm, outs_map. Qed.

Lemma settled t :
  let L := settle_all l da sa (seq 0 (oargs op)) (written_all (map (arg l) ks) gone) in
  dead_temps after t = dead_temps L t /\ mem_temps after t = mem_temps L t.
Proof.
  cbv zeta. assert (NoDup (map (arg l) (seq 0 (oargs op)))) as Hn by (rewrite <- outs_map; apply (oc_nodup _ _ _ _ _ _ _ _ HC)).
  destruct (settle_all_spec (seq 0 (oargs op)) (written_all (map (arg l) ks) gone) t Hn) as [H1 H2].
  destruct (decide (t ∈ map (arg l) (seq 0 (oargs op)))) as [Hin|Hout].
  - apply list_elem_of_fmap in Hin as (i & Et & Hi). destruct (H2 i Hi Et) as [-> ->].
    apply elem_of_seq in Hi. destruct (om_out _ _ _ _ _ _ _ _ (oc_marks _ _ _ _ _ _ _ _ HC) i) as [-> ->]; [rewrite outs_length; lia|].
    rewrite outs_arg by lia. by rewrite Et.
  - destruct (H1 Hout) as [-> ->]. destruct (written_all_spec (map (arg l) ks) gone t) as [-> ->].
    assert (bool_decide (t ∈ map (arg l) ks) = false /\ bool_decide (t ∈ outs) = false) as [-> E2].
    { split; apply bool_decide_false; [by rewrite sorted_map, outs_map|by rewrite outs_map]. }
    cbn. by rewrite E2.
Qed.

Lemma finish_in pl pl' A1 A2 A3 es2 es3 :
  results_in pl pl' A1 A2 A3 es2 es3 ->
  runs (each (finish_output s tgt l da sa pl') (seq 0 (oargs op))) A3
    (fun _ A4 es4 => walked (written_all (map (arg l) ks) gone) after (rev_append (map (arg l) ks) D) (without (map (arg l) ks) K) (outs ++ D) (without outs K) anywhere A3 A4 es4).
Proof.
  intros [_ _ _ HO]. pose proof (oo_inv _ _ _ _ _ _ _ _ _ _ _ _ _ _ _ HO) as HI.
  refine (runs_mono _ _ _ _ (finish_all_ok s tgt T HL host junk _ _ _ A3 l da sa pl' (seq 0 (oargs op)) HI _ _) _).
  - rewrite <- outs_map. apply (oc_nodup _ _ _ _ _ _ _ _ HC).
  - intros i Hi%elem_of_seq. assert (i < oargs op)%nat as Li by lia. destruct (oc_out _ _ _ _ _ _ _ _ HC i Li) as [Vi Fi].
    assert (i ∈ ks) as Hk by (by apply sorted_output). destruct (oo_temp _ _ _ _ _ _ _ _ _ _ _ _ _ _ _ HO i Hk) as (Ri & Ei & _).
    destruct (written_all_spec (map (arg l) ks) gone (arg l i)) as [-> ->].
    rewrite bool_decide_true by (by apply elem_map_arg). do 4 (split; [done|]). split; [done|]. split; [done|].
    destruct (om_out _ _ _ _ _ _ _ _ (oc_marks _ _ _ _ _ _ _ _ HC) i) as [_ ->]; [rewrite outs_length; lia|].
    rewrite outs_arg by done. by apply (oc_mem_after _ _ _ _ _ _ _ _ HC).
  - intros _ A4 es4 [HW _]. pose proof (wk_inv _ _ _ _ _ _ _ _ _ _ _ _ _ _ _ HW) as HI4.
    rewrite <- (app_nil_r es4). eapply walked_trans; [exact HW|]. apply shifted_walked.
    pose proof (pointwise_shifted s tgt T (W := W) _ after _ _ A4 HI4 (fun t _ => settled t)) as HS.
    eapply (shifted_trans s tgt T); [exact HS|]. apply fewer_shifted; [apply HS| |intros t; by rewrite !without_in, sorted_map].
    intros t Ht. rewrite rev_append_rev. apply elem_of_app. apply elem_of_app in Ht as [Ht|Ht]; [left|by right].
    apply list_elem_of_In, in_rev. rewrite rev_involutive. by apply list_elem_of_In, sorted_map.
Qed.

(** *** The instruction *)
Section effect.
Context (pl pl' : placement) (A A1 A2 A3 : alloc_state) (es1 es2 es3 : list hinsn).
Context (HO : operands_in pl A A1 es1) (HRes : results_in pl pl' A1 A2 A3 es2 es3).
Notation written := (written_all (map (arg l) ks) gone).

Lemma input_args i : is_input op i -> new_args pl' i = new_args pl i /\ const_args pl' i = const_args pl i.
Proof.
  intros Hi. destruct (oo_args _ _ _ _ _ _ _ _ _ _ _ _ _ _ _ (ri_outputs _ _ _ _ _ _ _ HRes) i) as [H1 H2].
  split; [|exact H2]. apply H1. rewrite sorted_output. unfold is_input in Hi. lia.
Qed.

Record in_front (E : alloc_state) (B : Z -> Z) (v : Z -> Z) (h h3 : hstate W) : Prop := {
  if_run : hexecs (es1 ++ es2 ++ es3) h = HFall h3;
  if_rel : rel E B outs written A3 v h3;
  if_world : hworld h3 = hworld h;
  if_values : input_values s op l pl' v h3;
  if_globals : TCG_OPF_SIDE_EFFECTS (tcg_op_defs op) = true ->
    forall t, is_global t -> fixed t = false -> in_slot E B h3 t (v t);
}.

Lemma front E B v h :
  wf E -> extends A3 E -> bases_apart B -> rel E B [] before A v h -> exists h3, in_front E B v h h3.
Proof.
  intros HE HX HB Hr. destruct HO as [[IW XW SW] Hv _ _]. destruct HRes as [[IM XM SM] _ HS HOut].
  pose proof (oo_extends _ _ _ _ _ _ _ _ _ _ _ _ _ _ _ HOut) as X3.
  assert (extends A2 E) as X2E by (by apply (extends_trans s T A2 A3)).
  assert (extends A1 E) as X1E by (by apply (extends_trans s T A1 A2)).
  destruct (SW E B [] v h HE X1E HB Hr) as (h1 & E1 & R1 & W1 & _ & _).
  destruct (SM E B [] v h1 HE X2E HB R1) as (h2 & E2 & R2 & W2 & K2 & _).
  destruct (oo_sim _ _ _ _ _ _ _ _ _ _ _ _ _ _ _ HOut E B [] v h2 HE HX HB (sh_rel s tgt T _ _ _ _ _ _ _ _ HS _ _ _ _ _ R2))
    as (h3 & E3 & R3 & W3 & K3 & C3).
  exists h3. split.
  - by rewrite (hexecs_then es1 h h1), (hexecs_then es2 h1 h2).
  - apply (rel_more E B _ outs) in R3; [done|]. intros t Ht. rewrite rev_append_rev, app_nil_r in Ht.
    apply sorted_map. by apply list_elem_of_In, in_rev, list_elem_of_In.
  - congruence.
  - intros i Hi. destruct (input_args i Hi) as [-> ->]. rewrite K3, K2 by done. by apply (Hv E B v h h1).
  - intros Hs t Gt Ft. destruct (oc_effects _ _ _ _ _ _ _ _ HC Hs) as [Hno Hg].
    assert (valid t) as Vt by (by apply (global_valid s tgt T HL)).
    apply (sk_slot _ _ _ _ _ _ _ _ _ (C3 ltac:(by rewrite sort_constraints_perm, length_seq))); [done|done|apply not_elem_of_nil|].
    apply (mem_in_slot s tgt T E B [] st2 D K A2); auto. apply not_elem_of_nil.
Qed.

(** Nothing that is still needed is in a register a call destroys. *)
Lemma spared t :
  TCG_OPF_CALL_CLOBBER (tcg_op_defs op) = true -> valid t -> fixed t = false -> t ∉ outs -> in_reg (temps A3 t) = true ->
  clobbered (reg (temps A3 t)) = false.
Proof.
  intros Hc Vt Ft Ht Rt. destruct HRes as [_ Hcl _ HOut]. apply not_true_is_false. intros Hr.
  pose proof (inv_wf _ _ _ _ _ _ _ (oo_inv _ _ _ _ _ _ _ _ _ _ _ _ _ _ _ HOut)) as H3.
  destruct (wf_reg _ _ _ A3 H3 t Vt Ft Rt) as [E3 _].
  destruct (oo_map _ _ _ _ _ _ _ _ _ _ _ _ _ _ _ HOut (reg (temps A3 t))) as [E|[E|E]]; rewrite E3 in E.
  - by apply (valid_neq s t Vt).
  - rewrite (Hcl Hc _ Hr) in E. by apply (valid_neq s t Vt).
  - by apply Ht, sorted_map.
Qed.

Lemma behind E B (m m1 : mstate W) h3 vs :
  wf E -> bases_apart B -> rel E B outs written A3 (regs m) h3 -> length vs = oargs op ->
  (forall j, (j < oargs op)%nat -> veq s (arg l j) (regs m1 (arg l j)) (nth j vs 0)) -> (forall t, t ∉ outs -> regs m1 t = regs m t) ->
  rel E B [] written A3 (regs m1)
    (set_world (set_hregs (if TCG_OPF_CALL_CLOBBER (tcg_op_defs op) then clobber tgt junk h3 else h3)
      (map (new_args pl') (seq 0 (oargs op))) vs) (world m1)).
Proof.
  intros HE HB Hr Hl Hvs Hm. pose proof (ri_outputs _ _ _ _ _ _ _ HRes) as HOut.
  pose proof (inv_wf _ _ _ _ _ _ _ (oo_inv _ _ _ _ _ _ _ _ _ _ _ _ _ _ _ HOut)) as H3.
  apply rel_world. apply (rel_outputs s tgt T E B written A3 (regs m) (regs m1) _ outs); [done| |apply HC|..].
  - destruct (TCG_OPF_CALL_CLOBBER _) eqn:Hc; [|done]. apply rel_clobber; [done..|]. intros t Vt Ft Xt Rt. by apply spared.
  - by rewrite outs_length, length_map, length_seq.
  - by rewrite length_map, length_seq.
  - intros j Hj. rewrite outs_length in Hj. change (nth j outs 0) with (arg outs j). rewrite outs_arg by done.
    destruct (oc_out _ _ _ _ _ _ _ _ HC j Hj) as [Vj Fj].
    destruct (oo_temp _ _ _ _ _ _ _ _ _ _ _ _ _ _ _ HOut j) as (Rj & Ej & Cj); [by apply sorted_output|].
    rewrite nth_map_seq by done. do 5 (split; [done|]). by apply Hvs.
  - intros t _. apply Hm.
Qed.
End effect.

Lemma op_entry pl pl' A A1 A2 A3 A4 es1 es2 es3 es4 :
  host_ok host -> TCG_OPF_BB_END (tcg_op_defs op) = false -> operands_in pl A A1 es1 -> results_in pl pl' A1 A2 A3 es2 es3 ->
  walked (written_all (map (arg l) ks) gone) after (rev_append (map (arg l) ks) D) (without (map (arg l) ks) K) (outs ++ D) (without outs K) anywhere A3 A4 es4 ->
  entry_ok s tgt T host junk (mkOp op l) before after D K (outs ++ D) (without outs K) A A4 ((es1 ++ es2 ++ es3) ++ hop s op l pl' :: es4).
Proof.
  intros Hh Hb HO HRes [I4 X4 S4].
  assert (extends A A3) as X3.
  { apply (extends_trans s T A A1); [apply HO|]. apply (extends_trans s T A1 A2); [apply HRes|].
    apply (oo_extends _ _ _ _ _ _ _ _ _ _ _ _ _ _ _ (ri_outputs _ _ _ _ _ _ _ HRes)). }
  split; [done|by apply (extends_trans s T A A3)|]. intros E B k m h HE HX HB Hr Hw.
  assert (extends A3 E) as X3E by (by apply (extends_trans s T A3 A4)).
  destruct (front pl pl' A A1 A2 A3 es1 es2 es3 HO HRes E B (regs m) h HE X3E HB Hr) as (h3 & [Er R3 W3 Hv Hg]).
  rewrite (hexecs_then _ h h3) by done. cbn [TcgHost.hexecs]. rewrite <- W3 in Hw.
  pose proof (hop_effect s tgt T host junk op l pl' k m h3 (oc_op _ _ _ _ _ _ _ _ HC) (oc_length _ _ _ _ _ _ _ _ HC)
    (oc_nodup _ _ _ _ _ _ _ _ HC) (oc_typed _ _ _ _ _ _ _ _ HC) Hw Hv) as He.
  pose proof (exec_jumps s host (mkOp op l) k m) as Hj. pose proof (exec_leaves s host Hh op l k m) as Hlv.
  destruct (exec_op s host k (mkOp op l) m) as [m1|lb m1|m1|]; [| | |done];
    destruct (hexec s tgt T host junk (hop s op l pl') h3) as [h4|lb4 h4|h4|]; try done.
  - destruct He as (Ew & Hreg & vs & Hvl & Hvs & ->).
    pose proof (behind pl pl' A1 A2 A3 es2 es3 HRes E B m m1 h3 vs HE HB R3 Hvl Hvs Hreg) as R4.
    destruct (S4 E B [] (regs m1) _ HE HX HB R4) as (h5 & E5 & R5 & W5 & _ & _). cbn [outcome_ok]. rewrite E5.
    split; [|done]. by rewrite W5, <- Ew.
  - specialize (Hj _ _ eq_refl). unfold bb_end in Hj. cbn [opc] in Hj. congruence.
  - destruct He as (-> & Hreg). destruct (Hlv m1 by_not_call eq_refl) as [Hb'|Hs]; [unfold bb_end in Hb'; cbn [opc] in Hb'; congruence|].
    destruct R3 as [Q1 Q2 _]. cbn [outcome_ok].
    apply (globals_agree s tgt T HL E B); [done|done|done| |].
    + intros t Vt Ft. rewrite Hreg. by apply Q2.
    + intros t Gt Ft. rewrite Hreg. by apply Hg.
Qed.
End one.

(** The whole handler. *)
Theorem tcg_reg_alloc_op_ok op l after st2 before da sa D K A :
  host_ok host -> op_ready op -> op_case op l after st2 before da sa D -> inv before D K A ->
  runs (tcg_reg_alloc_op s tgt op l da sa) A
    (fun _ A' es => entry_ok s tgt T host junk (mkOp op l) before after D K
       (outputs (mkOp op l) ++ D) (if TCG_OPF_BB_END (tcg_op_defs op) then [] else without (outputs (mkOp op l)) K) A A' es).
Proof.
  intros Hh HR HC HI. unfold tcg_reg_alloc_op. fold (oargs op) (iargs op).
  apply runs_split. refine (runs_mono _ _ _ _ (operands_in_ok op l after st2 before da sa D K HR HC A HI) _).
  intros pl A1 es1 HO. destruct (TCG_OPF_BB_END (tcg_op_defs op)) eqn:Hb.
  - destruct (oc_end _ _ _ _ _ _ _ _ HC Hb) as [No Hd]. pose proof (wk_inv _ _ _ _ _ _ _ _ _ _ _ _ _ _ _ (oi_walked _ _ _ _ _ _ _ _ _ _ HO)) as HI1.
    apply runs_bind. apply runs_bind. exists tt, A1, []. split.
    { apply (bb_end_ok s tgt T HL st2 D K); [done|]. intros t Ht. by apply Hd. }
    go. apply (end_entry op l after st2 before da sa D K HC pl A A1 es1 Hb HO).
  - apply runs_bind.
    refine (runs_mono _ _ _ _ (results_in_ok op l after st2 before da sa D K HR HC pl A A1 es1 HO) _).
    intros pl' A3 es (A2 & es2 & es3 & -> & HRes). go.
    refine (runs_mono _ _ _ _ (finish_in op l after st2 before da sa D K HC pl pl' A1 A2 A3 es2 es3 HRes) _).
    intros _ A4 es4 HW. 
    rewrite (app_assoc es1). 
    apply (op_entry op l after st2 before da sa D K HC pl pl' A A1 A2 A3 A4 es1 es2 es3 es4 Hh Hb HO HRes HW).
Qed.
End sim.
End TcgSimOp.
