(* ===== verification/TcgSimMov.v ===== *)
(** Copies, constants, discards and labels through the register allocator:
    [tcg_reg_alloc_mov], [tcg_reg_alloc_movi] and the short entries of the
    loop. *)
From Stdlib Require Import ZArith Lia Bool.
From stdpp Require Import base numbers list sets.
From S2P Require Import Prelude HostUtils TcgOp TcgOpt TcgRing TcgArith TcgSem TcgBits TcgSound TcgStep TcgProg TcgShape TcgLive TcgReg TcgHost TcgMeaning TcgPlace TcgMove TcgAlloc TcgSim TcgSimOp.
Local Open Scope Z_scope.

Module TcgSimMov.
Import Tcg TcgOpt TcgRing TcgArith TcgSem TcgSound TcgStep TcgProg TcgShape TcgLive TcgReg TcgHost TcgMeaning TcgPlace TcgMove TcgAlloc TcgSim TcgSimOp.

Section sim.
Context (s : TCGContext) (tgt : Target) (T : Z -> TCGTemp).
Notation valid := (valid s).
Notation is_global := (is_global s).
Notation carried := (carried s).
Notation fixed := (fixed s T).
Notation reserved := (reserved tgt).
Notation wf := (wf s tgt T).
Notation inv := (inv s tgt T).
Notation covers := (covers tgt).
Notation readable := (readable s T).
Notation extends := (extends s T).
Hypothesis (HL : layout_ok s tgt T).
Context {W : Type} (host : Host W) (junk : hstate W -> hstate W).
Notation moved := (moved s tgt T host junk).
Notation walked := (walked s tgt T host junk).
Notation shifted := (TcgMove.shifted (W := W) s tgt T).
Notation rel := (TcgPlace.rel (W := W) s tgt T).
Notation in_slot := (TcgPlace.in_slot (W := W) s).
Notation hexecs := (hexecs s tgt T host junk).
Notation bases_apart := (bases_apart s tgt T).
Notation entry_ok := (entry_ok s tgt T host junk).

(** ** Settling a new value *)

(** [P] brings the temporary into a register and memory. *)
Lemma settle_ok L D K (keep : Z -> Prop) A t (sync dead : bool) P :
  inv L D K A -> valid t -> dead_temps L t = false -> mem_temps L t = false -> (sync = true -> carried t) ->
  (sync = true -> runs P A (fun _ A1 es => moved L D K keep A A1 es /\ in_reg (temps A1 t) = true /\ mem_coherent (temps A1 t) = true)) ->
  runs (when sync P ;;; when dead (temp_dead s t))%prog A
    (fun _ A' es => walked L (settled_at t dead sync L) D K D K keep A A' es).
Proof.
  intros HI Ht Hd Hm Hc HP. set (L1 := settled_at t false sync L).
  apply runs_bind. eapply (runs_mono _ _ (fun _ A1 es => walked L L1 D K D K keep A A1 es)).
  - assert (forall L0 A0, inv L0 D K A0 -> (forall u, dead_temps L1 u = dead_temps L0 u /\ mem_temps L1 u = mem_temps L0 u) -> shifted L0 L1 D K D K A0 A0) as Hpw.
    { intros L0 A0 HI0 H0. apply pointwise_shifted; [done|]. intros u _. apply H0. }
    subst L1. destruct sync; cbn [when].
    + refine (runs_mono _ _ _ _ (HP eq_refl) _). intros _ A1 es (HM & Hr & Hco). rewrite <- (app_nil_r es).
      eapply walked_trans; [by apply moved_walked|]. apply shifted_walked.
      pose proof (mem_at_shifted s tgt T (W := W) L D K A1 t (mv_inv _ _ _ _ _ _ _ _ _ _ _ _ HM) Hd (conj Hr Hco)) as HS.
      eapply (shifted_trans s tgt T); [exact HS|]. apply Hpw; [apply HS|]. intros u. cbn. split; [|done].
      unfold bset. by destruct (Z.eqb_spec u t) as [->|].
    + go. apply shifted_walked, Hpw; [done|]. intros u. cbn. unfold bset. by destruct (Z.eqb_spec u t) as [->|].
  - intros _ A1 es1 HW. pose proof (wk_inv _ _ _ _ _ _ _ _ _ _ _ _ _ _ _ HW) as HI1.
    destruct dead; cbn [when].
    + refine (runs_mono _ _ _ _ (temp_dead_ok s tgt T (W := W) L1 D K A1 t HI1 Ht _) _).
      { subst L1. cbn. unfold bset. by rewrite Z.eqb_refl. }
      intros _ A2 es (-> & HS & _ & _). eapply walked_trans; [exact HW|]. apply shifted_walked.
      eapply (shifted_trans s tgt T); [exact HS|]. apply pointwise_shifted; [apply HS|]. intros u _. cbn. split; [|done].
      unfold bset. by destruct (u =? t).
    + go. rewrite app_nil_r. done.
Qed.

(** ** One output *)

(** What [tcg_reg_alloc_mov] and [tcg_reg_alloc_movi] need of their marks. *)
Record write_case (t : Z) (ins : list Z) (after st2 before : live_state) (da sa : Z) : Prop := {
  wc_valid : valid t;
  wc_free : fixed t = false;
  wc_marks : op_marks s [t] ins after st2 before da sa;
  wc_weaker : weaker s st2 (outs_gone [t] after);
  wc_mem : forall u, valid u -> mem_temps st2 u = true -> carried u;
  wc_mem_after : forall u, valid u -> mem_temps after u = true -> carried u;
}.

Section write.
Context (t : Z) (ins : list Z) (after st2 before : live_state) (da sa : Z).
Context (HC : write_case t ins after st2 before da sa).

Lemma write_marks : IS_DEAD_ARG da 0 = dead_temps after t /\ NEED_SYNC_ARG sa 0 = mem_temps after t.
Proof. apply (om_out _ _ _ _ _ _ _ _ (wc_marks _ _ _ _ _ _ _ HC) 0%nat). cbn. lia. Qed.

Lemma write_dead : t ∉ ins -> dead_temps before t = true.
Proof.
  intros Hn. apply (proj2 (om_before _ _ _ _ _ _ _ _ (wc_marks _ _ _ _ _ _ _ HC) t (wc_valid _ _ _ _ _ _ _ HC))).
  split; [|done]. apply (we_dead _ _ _ (wc_weaker _ _ _ _ _ _ _ HC)); [apply HC|]. cbn. by rewrite bool_decide_true by (by left).
Qed.

(** The output is where dead temporaries are. *)
Lemma write_type D K A : inv before D K A -> t ∉ ins -> val_type (temps A t) = dead_type s t.
Proof.
  intros HI Hn. destruct HC as [Vt Ft _ _ _ _]. apply (tk_dead _ _ _ _ _ _ (inv_tok _ _ _ _ _ _ _ HI t Vt Ft)). by apply write_dead.
Qed.

Lemma write_not_reg D K A : inv before D K A -> t ∉ ins -> in_reg (temps A t) = false.
Proof.
  intros HI Hn. unfold in_reg, is_val. apply bool_decide_eq_false. rewrite (write_type D K A HI Hn). apply dead_type_not_reg.
Qed.

(** The settled new value is what is wanted behind. *)
Lemma write_settled D K A :
  inv (settled_at t (IS_DEAD_ARG da 0) (NEED_SYNC_ARG sa 0) (written_at t (outs_gone [t] after))) D K A ->
  shifted (settled_at t (IS_DEAD_ARG da 0) (NEED_SYNC_ARG sa 0) (written_at t (outs_gone [t] after))) after D K D K A A.
Proof.
  intros HI. apply pointwise_shifted; [done|]. intros u _. destruct write_marks as [-> ->]. cbn. unfold bset.
  destruct (Z.eqb_spec u t) as [->|Hn]; [done|].
  rewrite bool_decide_false by (by rewrite list_elem_of_singleton). done.
Qed.
End write.

(** The last step alone. *)
Lemma runs_tail (p : M unit) A Q : runs (p ;;; ret tt)%prog A Q -> runs p A Q.
Proof.
  intros ([] & A' & es & E & HQ). exists tt, A', es. split; [|done]. unfold bind in E.
  destruct (p A) as [[[[] A1] es1]|]; [|done]. cbn in E. injection E as <- <-. by rewrite app_nil_r.
Qed.

(** ** Constants *)

Lemma runs_sync L D K (keep : Z -> Prop) A A1 t r es0 :
  moved L D K keep A A1 es0 -> reg_to_temp A1 r = t -> valid t -> in_reg (temps A1 t) = true ->
  runs (tcg_reg_sync s tgt r) A1 (fun _ A2 es => moved L D K keep A A2 (es0 ++ es) /\
    in_reg (temps A2 t) = true /\ mem_coherent (temps A2 t) = true).
Proof.
  intros HM Em Ht Rt. refine (runs_mono _ _ _ _ (tcg_reg_sync_ok s tgt T HL host junk L D K A1 r (mv_inv _ _ _ _ _ _ _ _ _ _ _ _ HM) _) _).
  - rewrite Em. by apply (valid_neq s).
  - intros _ A2 es [HM2 HS]. rewrite Em in HS. split; [|split; [|apply HS]].
    + eapply moved_trans; [exact HM|]. by apply (moved_weaken s tgt T host junk L D K anywhere).
    + unfold in_reg, is_val. rewrite (sy_type _ _ _ HS). apply Rt.
Qed.

(** A constant into memory, by way of a register. *)
Lemma temp_sync_const L D K A t R :
  inv L D K A -> readable L D t -> val_type (temps A t) = TEMP_VAL_CONST ->
  room_in tgt (tcg_target_available_regs tgt (type s t)) R -> covers R ->
  runs (temp_sync s tgt t R) A (fun _ A1 es => moved L D K (in_set R) A A1 es /\
    in_reg (temps A1 t) = true /\ mem_coherent (temps A1 t) = true).
Proof.
  intros HI HR Et Hroom Hcov. assert (in_reg (temps A t) = false) as Rt by (unfold in_reg, is_val; by rewrite Et).
  pose proof (unpinned s tgt T L D K A t HI (proj1 HR) Rt) as Ft.
  unfold temp_sync, get_temp. go. rewrite (wf_fixed _ _ _ A (inv_wf _ _ _ _ _ _ _ HI) t (proj1 HR)), Ft, Et. cbn [negb when].
  apply runs_bind. refine (runs_mono _ _ _ _ (tcg_reg_alloc_ok s tgt T HL host junk L D K A _ R HI Hroom) _).
  intros r A1 es (HM & HF & Hc). pose proof (spilled_other s tgt T L D K A t r A1 HI (proj1 HR) Rt HF) as E1.
  do 3 (apply runs_bind, runs_modify; cbv beta). apply runs_bind, runs_emit; cbv beta.
  match goal with |- runs _ ?A2 _ => set (A' := A2) end.
  assert (replaced A1 t (in_register r (bool_decide (val_type (temps A t) = TEMP_VAL_MEM)) (temps A t)) A') as Hrep.
  { rewrite Et. subst A'. split; [| |done].
    - intros u. cbn. destruct (Z.eqb_spec u t) as [->|]; [by rewrite E1|done].
    - intros x. rewrite E1, Rt. cbn. by destruct (x =? r). }
  destruct (load_into s tgt T HL host junk L D K A _ R t r A1 A' es HI HR Hcov Rt HM HF Hc Hrep) as (HM' & Rt' & _).
  unfold fetch in HM'. rewrite Et in HM'.
  assert (reg_to_temp A' r = t) as Em by (subst A'; cbn; by rewrite Z.eqb_refl).
  refine (runs_mono _ _ _ _ (runs_sync L D K _ A A' t r _ HM' Em (proj1 HR) Rt') _).
  intros _ A2 es2 (HM2 & R2 & C2). rewrite <- app_assoc in HM2. done.
Qed.

(** ** Writing one temporary *)

(** The value is in its place, not yet in memory. *)
Record put_ok (i : TCGOp) (t : Z) (after before : live_state) (D K K' : list Z) (A A1 : alloc_state) (es1 : list hinsn) : Prop := {
  po_inv : inv (written_at t (outs_gone [t] after)) (t :: D) K' A1;
  po_extends : extends A A1;
  po_sim : forall E B k (m : mstate W) h, wf E -> extends A1 E -> bases_apart B -> rel E B [] before A (regs m) h -> world m = hworld h ->
    exists m1 h1, exec_op s host k i m = Fall m1 /\ hexecs es1 h = HFall h1 /\ world m1 = hworld h1 /\
      rel E B [] (written_at t (outs_gone [t] after)) A1 (regs m1) h1;
}.

Lemma put_settled i t ins after st2 before da sa D K K' (keep : Z -> Prop) A A1 A2 es1 es2 :
  write_case t ins after st2 before da sa -> put_ok i t after before D K K' A A1 es1 ->
  walked (written_at t (outs_gone [t] after))
    (settled_at t (IS_DEAD_ARG da 0) (NEED_SYNC_ARG sa 0) (written_at t (outs_gone [t] after))) (t :: D) K' (t :: D) K' keep A1 A2 es2 ->
  entry_ok i before after D K (t :: D) K' A A2 (es1 ++ es2).
Proof.
  intros HC [IP XP SP] HW. pose proof (wk_inv _ _ _ _ _ _ _ _ _ _ _ _ _ _ _ HW) as HI2.
  pose proof (write_settled t ins after st2 before da sa HC _ _ _ HI2) as HS. destruct HW as [_ XW SW].
  split; [apply HS|by apply (extends_trans s T A A1)|]. intros E B k m h HE HX HB Hr Hw.
  assert (extends A1 E) as HX1 by (by apply (extends_trans s T A1 A2)).
  destruct (SP E B k m h HE HX1 HB Hr Hw) as (m1 & h1 & Em & Eh & Ew & R1).
  destruct (SW E B [] (regs m1) h1 HE HX HB R1) as (h2 & E2 & R2 & W2 & _).
  rewrite Em, (hexecs_then s tgt T host junk es1 h h1) by done. cbn [TcgSim.outcome_ok]. rewrite E2.
  split; [congruence|]. apply (sh_rel s tgt T _ _ _ _ _ _ _ _ HS _ _ _ _ _ R2).
Qed.

(** No input: in front of the write. *)
Lemma gone_shifted t ins after st2 before da sa D K A A1 :
  write_case t ins after st2 before da sa -> shifted before st2 D K D K A A1 -> shifted before (outs_gone [t] after) D K D K A A1.
Proof.
  intros HC HS. eapply (shifted_trans s tgt T); [exact HS|]. apply weaker_shifted; [apply HS|apply HC].
Qed.

Lemma same_before t after st2 before da sa D K A :
  write_case t [] after st2 before da sa -> inv before D K A -> shifted before st2 D K D K A A.
Proof.
  intros HC HI. apply pointwise_shifted; [done|]. intros u Hu.
  destruct (om_before _ _ _ _ _ _ _ _ (wc_marks _ _ _ _ _ _ _ HC) u Hu) as [-> Hd]. split; [|done].
  apply eq_true_iff_eq. rewrite Hd. split; [|by intros [? _]]. intros H. split; [done|apply not_elem_of_nil].
Qed.

Lemma constant_put w o v after st2 before da sa D K A A1 :
  let ts := temps A o <| val_type := TEMP_VAL_CONST |> <| val := v |> in
  write_case o [] after st2 before da sa -> type s o = w -> inv before D K A -> replaced A o ts A1 ->
  put_ok (mkOp (op_movi w) [o; v]) o after before D K (o :: K) A A1 [].
Proof.
  intros ts HC Hty HI Hrep. pose proof (gone_shifted o [] after st2 before da sa D K A A HC (same_before o after st2 before da sa D K A HC HI)) as HS.
  destruct HC as [Vo Fo _ _ _ _].
  assert (new_place tgt A o (o :: K) ts) as HP by (unfold new_place; cbn; by left).
  split.
  - apply (assigned_inv s tgt T _ D K (o :: K) A o ts A1); try done; [apply HS|]. intros u Hu _. by right.
  - by apply (replaced_extends s T A o ts).
  - intros E B k m h HE HX HB Hr Hw. exists (put m o (uwrap (bits w) v)), h. do 3 (split; [done|]).
    apply (assigned_rel s tgt T E B [] [] (outs_gone [o] after) A o ts A1 (regs m) _ h h (o :: K)); try done.
    + apply HI.
    + by apply (sh_rel s tgt T _ _ _ _ _ _ _ _ HS).
    + intros _. cbn. unfold rset, veq. rewrite Z.eqb_refl, Hty. apply uwrap_min. pose proof (bits_nonneg w). lia.
    + intros u Hn _. cbn. unfold rset. by rewrite (proj2 (Z.eqb_neq _ _) Hn).
Qed.

Theorem tcg_reg_alloc_movi_ok w o v after st2 before da sa D K A :
  write_case o [] after st2 before da sa -> type s o = w ->
  room_in tgt (tcg_target_available_regs tgt w) (reserved_regs tgt) -> inv before D K A ->
  runs (tcg_reg_alloc_movi s tgt [o; v] da sa) A
    (fun _ A' es => entry_ok (mkOp (op_movi w) [o; v]) before after D K (o :: D) (o :: K) A A' es).
Proof.
  intros HC Hty Hroom HI. unfold tcg_reg_alloc_movi, get_temp. cbn [arg nth]. go.
  rewrite (wf_fixed _ _ _ A (inv_wf _ _ _ _ _ _ _ HI) o (wc_valid _ _ _ _ _ _ _ HC)), (wc_free _ _ _ _ _ _ _ HC).
  apply runs_bind. apply runs_bind. apply forget_run. unfold forget.
  rewrite (write_not_reg o [] after st2 before da sa HC D K A HI) by apply not_elem_of_nil.
  apply runs_modify. match goal with |- runs _ ?A2 _ => set (A1 := A2) end.
  assert (put_ok (mkOp (op_movi w) [o; v]) o after before D K (o :: K) A A1 []) as HP.
  { apply (constant_put w o v after st2 before da sa); [done..|]. subst A1. split; [| |done].
    - intros u. cbn. by destruct (Z.eqb_spec u o) as [->|].
    - intros r. by rewrite (write_not_reg o [] after st2 before da sa HC D K A HI) by apply not_elem_of_nil. }
  pose proof (po_inv _ _ _ _ _ _ _ _ _ _ HP) as HI1.
  refine (runs_mono _ _ _ _ (settle_ok _ _ _ (in_set (reserved_regs tgt)) A1 o _ _ _ HI1 _ _ _ _ _) _).
  - apply HC.
  - apply written_self.
  - apply written_self.
  - destruct (write_marks o [] after st2 before da sa HC) as [_ ->]. apply HC, HC.
  - intros _. apply temp_sync_const; try done; subst A1; cbn; rewrite ?Z.eqb_refl, ?Hty; try done.
    + split; [apply HC|]. intros _. split; [apply written_self|right; by left].
    + intros r Hr. exact Hr.
  - intros _ A2 es2 HW. rewrite !app_nil_l in *. apply (put_settled _ o [] after st2 before da sa D K (o :: K) _ A A1 A2 [] es2 HC HP HW).
Qed.

(** ** Copies *)

Definition mov_ready (w : width) : Prop :=
  room_in tgt (ct_regs (args_ct tgt (op_mov w) 1)) (reserved_regs tgt) /\
  forall r, 0 <= r -> room_in tgt (ct_regs (args_ct tgt (op_mov w) 0)) (tcg_regset_set_reg (reserved_regs tgt) r).

Lemma set_reg_moved L D K A t r :
  inv L D K A -> valid t -> fixed t = false -> in_reg (temps A t) = false ->
  moved L D K anywhere A (upd_temp t (fun ts => ts <| reg := r |>) A) [].
Proof.
  intros HI Ht Ft Rt. set (ts := temps A t <| reg := r |>).
  assert (in_reg ts = false) as Rts by exact Rt.
  apply (moved_replaced s tgt T host junk L D K anywhere A t ts); try done.
  - split; [| |done].
    + intros u. cbn. by destruct (Z.eqb_spec u t) as [->|].
    + intros x. by rewrite Rts, Rt.
  - by rewrite Rts.
  - destruct (inv_tok _ _ _ _ _ _ _ HI t Ht Ft) as [K1 K2 K3 K4 K5]. by split.
  - intros E B X v h HE HX HB Hr. exists h. do 3 (split; [done|]). split; [by apply others_kept_refl|]. split; [|done].
    intros Xt. pose proof (rel_temp _ _ _ _ _ _ _ _ _ _ Hr t Ht Ft Xt) as Hh. unfold holds in *. cbn.
    unfold in_reg, is_val in Rt. apply bool_decide_eq_false in Rt. destruct (val_type (temps A t)); done.
Qed.

Lemma upd_temp_self t f A : temps (upd_temp t f A) t = f (temps A t).
Proof. cbn. by rewrite Z.eqb_refl. Qed.

Lemma mov_load_ok L D K A op i :
  inv L D K A -> readable L D i -> val_type (temps A i) = TEMP_VAL_MEM ->
  room_in tgt (ct_regs (args_ct tgt op 1)) (reserved_regs tgt) ->
  runs (mov_load s tgt op i) A (fun _ A1 es => moved L D K (in_set (reserved_regs tgt)) A A1 es /\ in_reg (temps A1 i) = true).
Proof.
  intros HI HR Et Hroom. assert (in_reg (temps A i) = false) as Rt by (unfold in_reg, is_val; by rewrite Et).
  apply runs_bind. refine (runs_mono _ _ _ _ (tcg_reg_alloc_ok s tgt T HL host junk L D K A _ _ HI Hroom) _).
  intros r A1 es (HM & HF & Hc). pose proof (spilled_other s tgt T L D K A i r A1 HI (proj1 HR) Rt HF) as E1.
  do 2 (apply runs_bind, runs_modify || apply runs_bind, runs_gets); cbv beta. rewrite !upd_temp_self, E1.
  change (val_type (temps A i <| reg := r |>)) with (val_type (temps A i)). rewrite Et.
  apply runs_bind, runs_bind, runs_emit. apply runs_modify. apply runs_bind, runs_modify. apply runs_modify.
  match goal with |- moved _ _ _ _ _ ?A2 _ /\ _ => set (A' := A2) end.
  assert (replaced A1 i (in_register r (bool_decide (val_type (temps A i) = TEMP_VAL_MEM)) (temps A i)) A') as Hrep.
  { rewrite Et. subst A'. split; [| |done].
    - intros u. cbn. destruct (Z.eqb_spec u i) as [->|]; [by rewrite E1|done].
    - intros x. rewrite E1, Rt. cbn. by destruct (x =? r). }
  assert (covers (reserved_regs tgt)) as Hcov by (intros x Hx; exact Hx).
  destruct (load_into s tgt T HL host junk L D K A _ _ i r A1 A' es HI HR Hcov Rt HM HF Hc Hrep) as (HM' & Rt' & _).
  unfold fetch in HM'. rewrite Et in HM'. done.
Qed.

Section mov.
Context (w : width) (o i : Z) (after st2 before : live_state) (da sa : Z) (D K : list Z).
Context (HC : write_case o [i] after st2 before da sa) (Hoi : o <> i) (Hto : type s o = w) (Hti : w = W64 -> type s i = W64).
Context (HR : readable before D i).
Notation gone := (outs_gone [o] after).
Notation l := [o; i].

Lemma mov_types : bits (type s o) <= bits (type s i).
Proof. rewrite Hto. destruct w; [destruct (type s i); cbn; lia|]. by rewrite Hti. Qed.

Lemma mov_value (k : bool) x y : veq s i x y -> veq s o (if k then x else uwrap (bits w) x) y.
Proof.
  intros H. pose proof mov_types as Hb. pose proof (bits_nonneg (type s o)). unfold veq in *.
  assert (uwrap (bits (type s o)) x = uwrap (bits (type s o)) y) as E.
  { rewrite <- (uwrap_min (bits (type s o)) (bits (type s i)) x), H by lia. apply uwrap_min. lia. }
  destruct k; [done|]. rewrite <- E, Hto. apply uwrap_min. pose proof (bits_nonneg w). lia.
Qed.

Lemma mov_not_in : o ∉ [i].
Proof. by rewrite list_elem_of_singleton. Qed.

Lemma mov_mem u : valid u -> mem_temps before u = true -> carried u.
Proof.
  intros Hu. rewrite (proj1 (om_before _ _ _ _ _ _ _ _ (wc_marks _ _ _ _ _ _ _ HC) u Hu)). by apply (wc_mem _ _ _ _ _ _ _ HC).
Qed.

(** The source dies, ... *)
Lemma kill_source A :
  inv before D K A ->
  runs (when (IS_DEAD_ARG da 1) (temp_dead s i)) A
    (fun _ A' es => es = [] /\ shifted before st2 D K D K A A' /\ maps_shrink A A' /\ forall u, u <> i -> temps A' u = temps A u).
Proof.
  intros HI.
  assert (forall A', shifted before (if IS_DEAD_ARG da 1 then dead_at i before else before) D K D K A A' -> shifted before st2 D K D K A A') as Hk.
  { intros A' HS. apply (killed_shifted s tgt T [o] [i] l after st2 before da sa); [|apply HC|exact HS].
    intros j Hj. cbn in Hj. by assert (j = 0)%nat as -> by lia. }
  apply runs_when; intros E; rewrite E in Hk.
  - refine (runs_mono _ _ _ _ (temp_dead_ok s tgt T (W := W) before D K A i HI (proj1 HR) _) _).
    + apply mov_mem, HR.
    + intros _ A' es (-> & HS & Hm & Ho). split; [done|]. split; [by apply Hk|]. split; [exact Hm|exact Ho].
  - split; [done|]. split; [|split; [intros r; by right|done]]. apply Hk. by apply pointwise_shifted.
Qed.

(** ... or it stays where it is. *)
Lemma source_stays A :
  inv before D K A -> IS_DEAD_ARG da 1 = false \/ fixed i = true -> shifted before st2 D K D K A A.
Proof.
  intros HI Hk. apply asks_less_shifted; [done|].
  assert (forall t, valid t -> fixed t = false -> dead_temps st2 t = dead_temps before t /\ mem_temps st2 t = mem_temps before t) as Heq.
  { intros t Ht Ft. destruct (om_before _ _ _ _ _ _ _ _ (wc_marks _ _ _ _ _ _ _ HC) t Ht) as [-> Hd]. split; [|done].
    apply eq_true_iff_eq. rewrite Hd. split; [|by intros [? _]]. intros H. split; [done|].
    intros ->%list_elem_of_singleton. destruct Hk as [Hk|]; [|congruence].
    pose proof (om_in _ _ _ _ _ _ _ _ (wc_marks _ _ _ _ _ _ _ HC) 0%nat ltac:(cbn; lia)) as Hin. cbn in Hin.
    rewrite Hk in Hin. rewrite bool_decide_true in Hin by apply not_elem_of_nil. cbn in Hin. congruence. }
  split; intros t Ht Ft; destruct (inv_tok _ _ _ _ _ _ _ HI t Ht Ft) as [K1 K2 K3 K4 K5];
    destruct (Heq t Ht Ft) as [E1 E2]; unfold live; rewrite ?E1, ?E2; auto.
Qed.

(** The source's value in a register of the output. *)
Lemma mov_put (keep : Z -> Prop) A A2 A3 es r :
  walked before gone D K D K keep A A2 es ->
  (forall E B v h h', wf E -> extends A2 E -> bases_apart B -> rel E B [] before A v h -> hexecs es h = HFall h' ->
     veq s o (uwrap (bits w) (v i)) (hreg h' r)) ->
  reg_to_temp A2 r = -1 -> room_reg tgt r -> replaced A2 o (in_register r false (temps A2 o)) A3 ->
  put_ok (mkOp (op_mov w) l) o after before D K (without [o] K) A A3 es.
Proof.
  intros [I2 X2 S2] Hv Hm Hroom Hrep. destruct HC as [Vo Fo _ _ _ _].
  assert (forall K0, new_place tgt A2 o K0 (in_register r false (temps A2 o))) as HP by (intros K0; unfold new_place; cbn; auto).
  assert (same_slot (temps A2 o) (in_register r false (temps A2 o))) as HSl by done.
  pose proof (replaced_extends s T A2 o _ A3 Hrep HSl) as X3. split.
  - apply (assigned_inv s tgt T _ D K _ A2 o (in_register r false (temps A2 o)) A3); try done.
    intros u Hu Hn. apply without_in. by rewrite list_elem_of_singleton.
  - by apply (extends_trans s T A A2).
  - intros E B k m h HE HX HB Hr Hw. assert (extends A2 E) as HX2 by (by apply (extends_trans s T A2 A3)).
    destruct (S2 E B [] (regs m) h HE HX2 HB Hr) as (h1 & E1 & R1 & W1 & _).
    specialize (Hv E B (regs m) h h1 HE HX2 HB Hr E1).
    exists (put m o (if k then regs m i else uwrap (bits w) (regs m i))), h1. split; [done|]. split; [done|].
    split; [cbn; congruence|].
    apply (assigned_rel s tgt T E B [] [] gone A2 o (in_register r false (temps A2 o)) A3 (regs m) _ h1 h1 K); try done.
    + apply I2.
    + intros _. cbn. unfold rset. rewrite Z.eqb_refl. destruct k; [|done].
      unfold veq in *. rewrite <- Hv, Hto. symmetry. apply uwrap_min. pose proof (bits_nonneg w). lia.
    + intros u Hn _. cbn. unfold rset. by rewrite (proj2 (Z.eqb_neq _ _) Hn).
Qed.

Lemma assert_run (b : bool) A (Q : unit -> alloc_state -> list hinsn -> Prop) : b = true -> Q tt A [] -> runs (assert_ b) A Q.
Proof. intros -> H. by apply runs_ret. Qed.

(** The output goes to memory only. *)
Lemma stored_inv A :
  inv gone D K A -> dead_temps after o = true -> mem_temps after o = true -> slot A o <> None -> inv after (o :: D) (without [o] K) A.
Proof.
  intros HI Hd Hm Hs. destruct HC as [Vo Fo _ _ _ Hca]. split; [apply HI|]. intros u Vu Fu.
  destruct (inv_tok _ _ _ _ _ _ _ HI u Vu Fu) as [K1 K2 K3 K4 K5]. cbn in K1, K2, K3, K4. unfold live in K4. cbn in K4.
  destruct (Z.eq_dec u o) as [->|Hn].
  - rewrite (bool_decide_true (o ∈ [o])) in K1 by (by left). specialize (K1 eq_refl).
    pose proof (dead_type_carried s o Vo (Hca o Vo Hm)) as Ec. split; try done.
    + intros _. left. congruence.
    + intros _ _ _. by apply slot_some.
    + congruence.
  - rewrite (bool_decide_false (u ∈ [o])) in K1, K2, K3, K4 by (by rewrite list_elem_of_singleton). cbn in K1, K2, K3, K4.
    split; try done.
    + intros Hv Hl [?|?]%elem_of_cons; [done|]. by apply K4.
    + intros Ec. apply without_in. rewrite list_elem_of_singleton. auto.
Qed.

Lemma stored_rel E B A v v' h r b ofs x :
  wf E -> extends A E -> bases_apart B -> inv gone D K A -> rel E B [] gone A v h -> slot A o = Some (b, ofs) ->
  in_reg (temps A o) = false -> val_type (temps A o) = TEMP_VAL_MEM -> x = hreg h r ->
  veq s o (v' o) x -> (forall u, u <> o -> v' u = v u) ->
  exists h', hexec s tgt T host junk (HSt (type s o) r b ofs) h = HFall h' /\ rel E B [] after A v' h' /\ hworld h' = hworld h.
Proof.
  intros HE HX HB HI Hr Hs Rt Et -> Hv Hvo. destruct HC as [Vo Fo _ _ _ _].
  assert (slot E o = Some (b, ofs)) as HsE by (by apply HX).
  destruct (store_slot s tgt T HL E B A [] gone v h o b ofs (hreg h r) HE HB Hr Vo Fo HsE) as (Hk & Hin & _).
  eexists. split; [done|]. split; [|done].
  assert (replaced A o (temps A o) A) as Hrep.
  { split; [|by intros x; rewrite Rt|done]. intros u. by destruct (Z.eqb_spec u o) as [->|]. }
  apply (rel_replaced s tgt T E B [] [] gone after A o (temps A o) A v v' h); try done.
  - apply HI.
  - intros _. unfold holds. rewrite Et. intros _ b' o' E'. unfold veq in *. rewrite Hv. by apply Hin.
  - intros u Hn _. by apply Hvo.
  - intros u Hn Vu. unfold live. cbn. rewrite bool_decide_false by (by rewrite list_elem_of_singleton). done.
Qed.

Lemma mov_store_ok A :
  inv before D K A -> in_reg (temps A i) = true -> dead_temps after o = true -> mem_temps after o = true ->
  runs (mov_store s tgt l da sa) A
    (fun _ A' es => entry_ok (mkOp (op_mov w) l) before after D K (o :: D) (without [o] K) A A' es).
Proof.
  intros HI Ri Hd Hm. pose proof HC as [Vo Fo _ _ _ Hca]. destruct (write_marks o [i] after st2 before da sa HC) as [_ Hs].
  unfold mov_store, get_temp. cbn [arg nth]. go. apply runs_bind, assert_run; [congruence|]. apply runs_bind, assert_run; [done|].
  apply runs_bind. refine (runs_mono _ _ _ _ (ensure_slot s tgt T host junk before D K A o HI Vo Fo) _).
  intros _ A1 es1 (-> & HM & Hso & HP & _). apply runs_bind, runs_gets. apply runs_bind, runs_emit.
  pose proof (mv_inv _ _ _ _ _ _ _ _ _ _ _ _ HM) as HI1. apply runs_bind.
  refine (runs_mono _ _ _ _ (kill_source A1 HI1) _). intros _ A2 es2 (-> & HS & _ & Ho).
  pose proof (gone_shifted o [i] after st2 before da sa D K A1 A2 HC HS) as HS2.
  refine (runs_mono _ _ _ _ (temp_dead_ok s tgt T (W := W) gone D K A2 o (sh_inv _ _ _ _ _ _ _ _ _ _ _ HS2) Vo _) _).
  { cbn. by rewrite bool_decide_true by (by left). }
  intros _ A3 es3 (-> & HS3 & _ & _).
  assert (shifted before gone D K D K A1 A3) as HST.
  { eapply (shifted_trans s tgt T); [exact HS2|]. eapply (shifted_trans s tgt T); [exact HS3|].
    apply pointwise_shifted; [apply HS3|]. intros u _. cbn. split; [|done]. unfold bset.
    destruct (Z.eqb_spec u o) as [->|]; [by rewrite bool_decide_true by (by left)|done]. }
  pose proof (sh_inv _ _ _ _ _ _ _ _ _ _ _ HST) as HI3. pose proof (sh_extends _ _ _ _ _ _ _ _ _ _ _ HST) as X3.
  assert (slot A3 o = Some (mem_reg (temps A1 o), mem_offset (temps A1 o))) as Es.
  { apply X3; [done|done|]. apply slot_some in Hso. unfold slot. by rewrite Hso. }
  assert (val_type (temps A3 o) = TEMP_VAL_MEM) as Et.
  { rewrite (tk_dead _ _ _ _ _ _ (inv_tok _ _ _ _ _ _ _ HI3 o Vo Fo)) by (cbn; by rewrite bool_decide_true by (by left)).
    by apply dead_type_carried, Hca. }
  rewrite !app_nil_l, !app_nil_r. split.
  - apply stored_inv; try done. by rewrite Es.
  - apply (extends_trans s T A A1); [apply HM|done].
  - intros E B k m h HE HX HB Hr Hw. assert (extends A1 E) as HX1 by (by apply (extends_trans s T A1 A3)).
    destruct (mv_sim _ _ _ _ _ _ _ _ _ _ _ _ HM E B [] (regs m) h HE HX1 HB Hr) as (h1 & [= <-] & R1 & _ & _).
    assert (in_reg (temps A1 i) = true /\ reg (temps A1 i) = reg (temps A i)) as [Ri1 Er].
    { destruct HP as [_ HP]. destruct (HP i) as (E1 & E2 & _). unfold in_reg, is_val in *. by rewrite E1. }
    pose proof (reg_value s tgt T HL E B [] before D K A1 (regs m) h i HI1 R1 (proj1 HR) (not_elem_of_nil _) Ri1) as Hv.
    pose proof (sh_rel _ _ _ _ _ _ _ _ _ _ _ HST E B [] (regs m) h R1) as R3.
    set (x := if k then regs m i else uwrap (bits w) (regs m i)).
    destruct (stored_rel E B A3 (regs m) (regs (put m o x)) h (reg (temps A i)) _ _ (hreg h (reg (temps A i))) HE HX HB HI3 R3 Es)
      as (h' & Eh & R' & W'); try done.
    + unfold in_reg, is_val. by rewrite Et.
    + cbn. unfold rset. rewrite Z.eqb_refl. subst x. rewrite <- Er. by apply mov_value.
    + intros u Hn. cbn. unfold rset. by rewrite (proj2 (Z.eqb_neq _ _) Hn).
    + cbn [TcgHost.hexecs]. rewrite Eh. cbn. split; [congruence|done].
Qed.

(** The output gets a register with the value: the source's own, ... *)
Record source_held (A A2 : alloc_state) (es : list hinsn) (r : Z) : Prop := {
  sd_walked : walked before gone D K D K (fun _ => False) A A2 es;
  sd_value : forall E B v h h', wf E -> extends A2 E -> bases_apart B -> rel E B [] before A v h -> hexecs es h = HFall h' ->
    veq s o (uwrap (bits w) (v i)) (hreg h' r);
  sd_reg : reg (temps A2 o) = r /\ in_reg (temps A2 o) = false;
  sd_free : reg_to_temp A2 r = -1 /\ room_reg tgt r;
}.

Lemma rename_ok A :
  inv before D K A -> in_reg (temps A i) = true -> IS_DEAD_ARG da 1 = true -> fixed i = false ->
  runs (set_temp o (fun t => t <| reg := reg (temps A i) |>) ;;; temp_dead s i)%prog A
    (fun _ A2 es => exists r, source_held A A2 es r).
Proof.
  intros HI Ri Hd Fi. pose proof HC as [Vo Fo _ _ _ _]. set (r := reg (temps A i)).
  pose proof (write_not_reg o [i] after st2 before da sa HC D K A HI mov_not_in) as Ro.
  destruct (wf_reg _ _ _ A (inv_wf _ _ _ _ _ _ _ HI) i (proj1 HR) Fi Ri) as [Em Hroom].
  apply runs_bind, runs_modify. pose proof (set_reg_moved before D K A o r HI Vo Fo Ro) as HM.
  pose proof (mv_inv _ _ _ _ _ _ _ _ _ _ _ _ HM) as HI1. set (A1 := upd_temp _ _ _) in *.
  pose proof (kill_source A1 HI1) as Hk. rewrite Hd in Hk.
  refine (runs_mono _ _ _ _ Hk _). intros _ A2 es2 (-> & HS & Hm & Ho). exists r. cbn [app].
  pose proof (sh_inv _ _ _ _ _ _ _ _ _ _ _ HS) as HI2.
  assert (temps A2 o = temps A o <| reg := r |>) as Eo by (rewrite Ho by done; apply upd_temp_self).
  split.
  - eapply (walked_trans s tgt T host junk _ _ _ _ _ _ _ _ _ _ _ _ _ [] []).
    + apply moved_walked. by apply (moved_weaken s tgt T host junk before D K anywhere).
    + apply shifted_walked. by apply (gone_shifted o [i] after st2 before da sa).
  - intros E B v h h' HE HX HB Hr [= <-]. apply (mov_value false).
    by apply (reg_value s tgt T HL E B [] before D K A v h i HI Hr (proj1 HR) (not_elem_of_nil _) Ri).
  - rewrite Eo. done.
  - split; [|done]. destruct (Hm r) as [?|E2]; [done|]. change (reg_to_temp A1 r) with (reg_to_temp A r) in E2.
    fold r in Em. rewrite Em in E2. destruct HR as [Vi _].
    destruct (wf_map _ _ _ A2 (inv_wf _ _ _ _ _ _ _ HI2) r) as (_ & _ & R2 & _); [rewrite E2; by apply (valid_neq s)|].
    rewrite E2 in R2. pose proof (tok_reg_live s _ _ _ _ _ (inv_tok _ _ _ _ _ _ _ HI2 i Vi Fi) R2) as Hl.
    pose proof (om_in _ _ _ _ _ _ _ _ (wc_marks _ _ _ _ _ _ _ HC) 0%nat ltac:(cbn; lia)) as Hin. cbn in Hin.
    rewrite Hd, Hl, andb_false_r in Hin. done.
Qed.

(** ... or a fresh one. *)
Lemma copied_ok A :
  mov_ready w -> inv before D K A -> in_reg (temps A i) = true -> IS_DEAD_ARG da 1 = false \/ fixed i = true ->
  runs ((r <- tcg_reg_alloc s tgt (ct_regs (args_ct tgt (op_mov w) 0)) (tcg_regset_set_reg (reserved_regs tgt) (reg (temps A i))) ;;
         set_temp o (fun t => t <| reg := r |>)) ;;;
        ots <- get_temp o ;; emit (HMov (type s o) (reg ots) (reg (temps A i))))%prog A
    (fun _ A2 es => exists r, source_held A A2 es r).
Proof.
  intros [_ Hroom] HI Ri Hk. pose proof HC as [Vo Fo _ _ _ _]. set (ri := reg (temps A i)) in *.
  assert (0 <= ri) as Hri by (by apply (reg_nonneg s tgt T HL before D K A i HI (proj1 HR))).
  pose proof (write_not_reg o [i] after st2 before da sa HC D K A HI mov_not_in) as Ro.
  apply runs_bind, runs_bind. refine (runs_mono _ _ _ _ (tcg_reg_alloc_ok s tgt T HL host junk before D K A _ _ HI (Hroom ri Hri)) _).
  intros r A1 es1 (HM1 & HF & Hc). pose proof (mv_inv _ _ _ _ _ _ _ _ _ _ _ _ HM1) as HI1.
  pose proof (spilled_other s tgt T before D K A o r A1 HI Vo Ro HF) as Eo.
  apply runs_modify. apply runs_bind, runs_gets. rewrite upd_temp_self. apply runs_emit. rewrite app_nil_r.
  change (reg (temps A1 o <| reg := r |>)) with r.
  assert (in_reg (temps A1 o) = false) as Ro1 by (by rewrite Eo).
  pose proof (set_reg_moved before D K A1 o r HI1 Vo Fo Ro1) as HM2. set (A2 := upd_temp _ _ A1) in *.
  pose proof (mv_inv _ _ _ _ _ _ _ _ _ _ _ _ HM2) as HI2.
  assert (room_reg tgt r) as Hrr.
  { apply (chosen_room tgt (ct_regs (args_ct tgt (op_mov w) 0)) (tcg_regset_set_reg (reserved_regs tgt) ri)); [|done].
    intros x Hx. apply (set_reg_spec _ _ x Hri). by left. }
  assert (reg_to_temp A2 r = -1) as Em by (apply (freed_self A r A1 HF)).
  assert (moved before D K (fun x => x <> r) A2 A2 [HMov (type s o) r ri]) as HM3.
  { apply (moved_scratch s tgt T host junk before D K A2 _ r HI2 Em Hrr). intros h. by eexists. }
  exists r. cbn [app]. split.
  - rewrite <- (app_nil_r (es1 ++ _)). eapply walked_trans.
    + apply moved_walked. eapply moved_trans; [by apply (moved_weaken s tgt T host junk before D K anywhere)|].
      eapply (moved_trans s tgt T host junk _ _ _ _ _ _ _ [] [HMov _ _ _]); [by apply (moved_weaken s tgt T host junk before D K anywhere)|].
      by apply (moved_weaken s tgt T host junk before D K (fun x => x <> r)).
    + apply shifted_walked. apply (gone_shifted o [i] after st2 before da sa); [done|]. by apply source_stays.
  - intros E B v h h' HE HX HB Hr Eh. rewrite hexecs_app in Eh.
    assert (extends A1 E) as HX1 by (apply (extends_trans s T A1 A2); [apply HM2|done]).
    destruct (mv_sim _ _ _ _ _ _ _ _ _ _ _ _ HM1 E B [] v h HE HX1 HB Hr) as (h1 & E1 & R1 & _ & K1 & _).
    rewrite E1 in Eh. cbn in Eh. injection Eh as <-. cbn. rewrite Z.eqb_refl. unfold veq, half. rewrite merge_low.
    rewrite <- Hto, (K1 ri), uwrap_idem by (done || apply bits_nonneg).
    pose proof (reg_value s tgt T HL E B [] before D K A v h i HI Hr (proj1 HR) (not_elem_of_nil _) Ri) as Hv.
    pose proof mov_types as Hb. pose proof (bits_nonneg (type s o)).
    rewrite <- (uwrap_min (bits (type s o)) (bits (type s i)) (v i)) by lia. unfold veq in Hv. rewrite Hv. apply uwrap_min. lia.
  - assert (temps A2 o = temps A1 o <| reg := r |>) as -> by apply upd_temp_self. by split.
  - done.
Qed.

Lemma mov_reg_ok A :
  mov_ready w -> inv before D K A -> in_reg (temps A i) = true -> dead_temps after o = false ->
  runs (mov_reg s tgt (op_mov w) l da sa) A
    (fun _ A' es => entry_ok (mkOp (op_mov w) l) before after D K (o :: D) (without [o] K) A A' es).
Proof.
  intros Hready HI Ri Hd. pose proof HC as [Vo Fo _ _ _ Hca]. destruct (write_marks o [i] after st2 before da sa HC) as [Hd0 Hs0].
  pose proof (inv_wf _ _ _ _ _ _ _ HI) as HA.
  pose proof (write_not_reg o [i] after st2 before da sa HC D K A HI mov_not_in) as Ro.
  unfold mov_reg, get_temp. cbn [arg nth]. go. apply runs_bind, assert_run; [done|].
  rewrite (wf_fixed _ _ _ A HA i (proj1 HR)), (wf_fixed _ _ _ A HA o Vo), Fo.
  apply runs_bind. apply (runs_mono _ _ (fun _ A2 es => exists r, source_held A A2 es r)).
  { destruct (IS_DEAD_ARG da 1 && negb (fixed i) && negb false) eqn:Eb.
    - apply andb_true_iff in Eb as [[E1 E2%negb_true_iff]%andb_true_iff _].
      apply runs_bind, forget_run. unfold forget. rewrite Ro. by apply rename_ok.
    - assert (is_val TEMP_VAL_REG (temps A o) = false) as -> by exact Ro. cbn [negb when].
      apply copied_ok; try done. destruct (IS_DEAD_ARG da 1), (fixed i); auto; done. }
  intros _ A2 es (r & [HW Hv [Er Ro2] [Em Hr]]). apply runs_bind, runs_modify. apply runs_bind, runs_gets.
  rewrite upd_temp_self. change (reg (temps A2 o <| val_type := TEMP_VAL_REG |> <| mem_coherent := false |>)) with (reg (temps A2 o)).
  rewrite Er. apply runs_bind, runs_modify. match goal with |- runs _ ?A4 _ => set (A3 := A4) end.
  assert (replaced A2 o (in_register r false (temps A2 o)) A3) as Hrep.
  { subst A3. split; [| |done].
    - intros u. cbn. destruct (Z.eqb_spec u o) as [->|]; [|done]. unfold in_register. rewrite <- Er. by destruct (temps A2 o).
    - intros x. rewrite Ro2. cbn. by destruct (x =? r). }
  pose proof (mov_put _ A A2 A3 es r HW Hv Em Hr Hrep) as HP. pose proof (po_inv _ _ _ _ _ _ _ _ _ _ HP) as HI3.
  assert (reg_to_temp A3 r = o) as Em3 by (rewrite (rp_map _ _ _ _ Hrep); cbn; by rewrite Z.eqb_refl).
  assert (in_reg (temps A3 o) = true) as Ro3 by (by rewrite (rp_temp _ _ _ _ Hrep), Z.eqb_refl).
  apply runs_tail. 
  refine (runs_mono _ _ _ _ (settle_ok _ _ _ anywhere A3 o (NEED_SYNC_ARG sa 0) false _ HI3 Vo _ _ _ _) _).
  - apply written_self.
  - apply written_self.
  - rewrite Hs0. by apply Hca.
  - intros _. apply (runs_sync _ _ _ anywhere A3 A3 o r []); [by apply moved_refl|done..].
  - intros _ A4 es4 HW4. rewrite !app_nil_l. replace false with (IS_DEAD_ARG da 0) in HW4 by congruence.
    apply (put_settled _ o [i] after st2 before da sa D K (without [o] K) _ A A3 A4 es es4 HC HP HW4).
Qed.

(** [tcg_reg_alloc_mov], of what is not a constant. *)
Lemma moved_entry (keep : Z -> Prop) A A1 A2 es1 es2 j D' K' :
  moved before D K keep A A1 es1 -> entry_ok j before after D K D' K' A1 A2 es2 -> entry_ok j before after D K D' K' A A2 (es1 ++ es2).
Proof.
  intros [I1 X1 S1] [I2 X2 S2]. split; [done|by apply (extends_trans s T A A1)|]. intros E B k m h HE HX HB Hr Hw.
  assert (extends A1 E) as HX1 by (by apply (extends_trans s T A1 A2)).
  destruct (S1 E B [] (regs m) h HE HX1 HB Hr) as (h1 & E1 & R1 & W1 & _).
  rewrite (hexecs_then s tgt T host junk es1 h h1) by done. apply S2; try done. congruence.
Qed.

Theorem tcg_reg_alloc_mov_ok A :
  mov_ready w -> inv before D K A -> i ∉ K -> live after o ->
  runs (tcg_reg_alloc_mov s tgt (op_mov w) l da sa) A
    (fun _ A' es => entry_ok (mkOp (op_mov w) l) before after D K (o :: D) (without [o] K) A A' es).
Proof.
  intros Hready HI HK Hlive. pose proof HC as [Vo Fo _ _ _ _]. destruct (write_marks o [i] after st2 before da sa HC) as [Hd0 Hs0].
  pose proof (readable_not_gone s tgt T before D K A i HI HR) as Hgone.
  assert (forall A0, inv before D K A0 -> val_type (temps A0 i) <> TEMP_VAL_CONST) as Hnc.
  { intros A0 HI0 Ec. assert (in_reg (temps A0 i) = false) as Ri by (unfold in_reg, is_val; by rewrite Ec).
    pose proof (unpinned s tgt T before D K A0 i HI0 (proj1 HR) Ri) as Fi.
    by apply HK, (tk_const _ _ _ _ _ _ (inv_tok _ _ _ _ _ _ _ HI0 i (proj1 HR) Fi)). }
  unfold tcg_reg_alloc_mov, get_temp. cbn [arg nth]. go.
  rewrite (wf_fixed _ _ _ A (inv_wf _ _ _ _ _ _ _ HI) o Vo), Fo, orb_false_r.
  apply runs_bind. apply (runs_mono _ _ (fun _ A1 es => moved before D K (in_set (reserved_regs tgt)) A A1 es /\ in_reg (temps A1 i) = true)).
  { specialize (Hnc A HI). apply runs_when; intros Eb.
    - apply mov_load_ok; [done|done| |apply Hready]. unfold is_val in Eb. destruct (val_type (temps A i)); try done.
      by rewrite andb_false_r in Eb.
    - split; [by apply moved_refl|]. apply orb_false_iff in Eb as [_ Eb]. unfold in_reg, is_val in *.
      destruct (val_type (temps A i)); done. }
  intros _ A1 es1 [HM Ri]. pose proof (mv_inv _ _ _ _ _ _ _ _ _ _ _ _ HM) as HI1. go.
  rewrite (wf_fixed _ _ _ A1 (inv_wf _ _ _ _ _ _ _ HI1) o Vo), Fo, andb_true_r, Hd0.
  assert (forall Q : alloc_state -> list hinsn -> Prop, (forall A2 es2, entry_ok (mkOp (op_mov w) l) before after D K (o :: D) (without [o] K) A1 A2 es2 -> Q A2 es2) ->
    runs (if dead_temps after o then mov_store s tgt l da sa else mov_reg s tgt (op_mov w) l da sa) A1 (fun _ A2 es2 => Q A2 es2)) as Hrun.
  { intros Q HQ. destruct (dead_temps after o) eqn:Hd.
    - refine (runs_mono _ _ _ _ (mov_store_ok A1 HI1 Ri Hd _) _); [destruct Hlive; congruence|intros _; apply HQ].
    - refine (runs_mono _ _ _ _ (mov_reg_ok A1 Hready HI1 Ri Hd) _). intros _. apply HQ. }
  destruct (dead_temps after o); [|assert (is_val TEMP_VAL_CONST (temps A1 i) = false) as -> by
    (apply bool_decide_eq_false; by apply Hnc)]; apply Hrun; intros A2 es2 He; exact (moved_entry _ A A1 A2 es1 es2 _ _ _ HM He).
Qed.
End mov.

(** ** The short entries *)

(** An entry without code. *)
Lemma skip_entry i after before D K A :
  inv before D K A -> (forall t, valid t -> dead_temps after t = dead_temps before t /\ mem_temps after t = mem_temps before t) ->
  (forall k m, exists m', exec_op s host k i m = Fall m' /\ world m' = world m /\ forall t, regs m' t = regs m t) ->
  entry_ok i before after D K D K A A [].
Proof.
  intros HI Heq Hx. pose proof (pointwise_shifted s tgt T (W := W) before after D K A HI Heq) as HS.
  split; [apply HS|apply extends_refl|]. intros E B k m h HE HX HB Hr Hw. destruct (Hx k m) as (m' & -> & Ew & Em). cbn.
  split; [congruence|]. destruct (sh_rel s tgt T _ _ _ _ _ _ _ _ HS _ _ _ _ _ Hr) as [R1 R2 R3].
  split; [done|..]; intros t; rewrite Em; auto.
Qed.

(** What is discarded is not read again. *)
Lemma discard_entry t after before D D' K A :
  valid t -> fixed t = false -> ~ carried t -> inv before D K A ->
  (forall u, dead_temps before u = bset (dead_temps after) t true u /\ mem_temps before u = bset (mem_temps after) t false u) ->
  ~ live after t -> (forall u, u ∈ D' -> u ∈ D) ->
  runs (temp_dead s t) A (fun _ A' es => entry_ok (mkOp op_discard [t]) before after D K D' K A A' es).
Proof.
  intros Vt Ft Ct HI Hb Hl HD. assert (dead_temps after t = true /\ mem_temps after t = false) as [Hd Hm].
  { unfold live in Hl. destruct (dead_temps after t), (mem_temps after t); try done; by destruct Hl; auto. }
  assert (forall u, dead_temps before u = dead_temps after u /\ mem_temps before u = mem_temps after u) as Heq.
  { intros u. destruct (Hb u) as [-> ->]. unfold bset. by destruct (Z.eqb_spec u t) as [->|]. }
  refine (runs_mono _ _ _ _ (temp_dead_ok s tgt T (W := W) before D K A t HI Vt _) _); [by rewrite (proj2 (Heq t)), Hm|].
  intros _ A' es (-> & HS & _ & _).
  assert (shifted before after D K D' K A A') as HS2.
  { assert (shifted (dead_at t before) after D K D K A' A') as HS1.
    { apply pointwise_shifted; [apply HS|]. intros u _. destruct (Heq u) as [E1 E2]. cbn. unfold bset.
      destruct (Z.eqb_spec u t) as [->|]; by split. }
    eapply (shifted_trans s tgt T); [exact HS|]. eapply (shifted_trans s tgt T); [exact HS1|].
    apply fewer_shifted; [apply HS1|done|done]. }
  pose proof (sh_inv _ _ _ _ _ _ _ _ _ _ _ HS2) as HI2.
  split; [done|apply HS2|]. intros E B k m h HE HX HB Hr Hw. cbn. split; [done|].
  destruct (sh_rel _ _ _ _ _ _ _ _ _ _ _ HS2 _ _ _ _ _ Hr) as [R1 R2 R3].
  split; [done|..]; intros u Vu Fu; unfold rset; destruct (Z.eqb_spec u t) as [->|]; [congruence|by apply R2| |by apply R3].
  intros _. unfold holds. rewrite (tk_dead _ _ _ _ _ _ (inv_tok _ _ _ _ _ _ _ HI2 t Vt Ft) Hd).
  unfold dead_type. destruct (Z.ltb_spec t (nb_globals s)).
  - exfalso. apply Ct. left. unfold TcgRing.valid in Vt. split; lia.
  - destruct (temp_local s t) eqn:El; [|done]. exfalso. apply Ct. by right.
Qed.

(** A label ends a basic block. *)
Lemma label_entry x after before D K A :
  inv before D K A -> (forall t, valid t -> dead_temps before t = true) -> weaker s before (outs_gone [] after) ->
  runs (tcg_reg_alloc_bb_end s ;;; emit (HLabel x))%prog A
    (fun _ A' es => entry_ok (mkOp op_set_label [x]) before after D K D [] A A' es).
Proof.
  intros HI Hd Hw. apply runs_bind. exists tt, A, []. split; [by apply (bb_end_ok s tgt T HL before D K)|]. go.
  pose proof (all_dead_no_const s tgt T (W := W) before D K D A HI Hd (fun t H => H)) as HI2.
  pose proof (weaker_shifted s tgt T (W := W) before (outs_gone [] after) D [] A HI2 Hw) as HS.
  assert (shifted before after D [] D [] A A) as HS2.
  { eapply (shifted_trans s tgt T); [exact HS|]. apply pointwise_shifted; [apply HS|]. intros t _. cbn.
    by rewrite (bool_decide_false (t ∈ [])) by apply not_elem_of_nil. }
  split; [apply HS2|apply extends_refl|]. intros E B k m h HE HX HB Hr Hwd. cbn. split; [done|].
  apply (sh_rel _ _ _ _ _ _ _ _ _ _ _ HS2 _ _ _ _ _ Hr).
Qed.
End sim.
End TcgSimMov.
