(* ===== verification/TcgSimCall.v ===== *)
(** Calls through the register allocator: [tcg_reg_alloc_call] puts the
    arguments into registers and onto the stack, keeps what the helper may
    destroy, and takes its results. *)
From Stdlib Require Import ZArith Lia Bool.
From stdpp Require Import base numbers list sets.
From S2P Require Import Prelude HostUtils TcgOp TcgOpt TcgRing TcgArith TcgSem TcgBits TcgSound TcgStep TcgProg TcgShape TcgLive TcgReg TcgHost TcgMeaning TcgPlace TcgMove TcgAlloc TcgSim TcgSimOp TcgSimMov.
Local Open Scope Z_scope.

Module TcgSimCall.
Import Tcg TcgOpt TcgRing TcgArith TcgSem TcgSound TcgStep TcgProg TcgShape TcgLive TcgReg TcgHost TcgMeaning TcgPlace TcgMove TcgAlloc TcgSim TcgSimOp TcgSimMov.

Section sim.
Context (s : TCGContext) (tgt : Target) (T : Z -> TCGTemp).
Notation valid := (valid s).
Notation is_global := (is_global s).
Notation carried := (carried s).
Notation fixed := (fixed s T).
Notation reserved := (reserved tgt).
Notation wf := (wf s tgt T).
Notation inv := (inv s tgt T).
Notation covers := (covers tgt).
Notation readable := (readable s T).
Notation extends := (extends s T).
Notation in_call_area := (in_call_area tgt).
Hypothesis (HL : layout_ok s tgt T).
Context {W : Type} (host : Host W) (junk : hstate W -> hstate W).
Notation moved := (moved s tgt T host junk).
Notation walked := (walked s tgt T host junk).
Notation shifted := (TcgMove.shifted (W := W) s tgt T).
Notation rel := (TcgPlace.rel (W := W) s tgt T).
Notation in_slot := (TcgPlace.in_slot (W := W) s).
Notation hexecs := (hexecs s tgt T host junk).
Notation bases_apart := (bases_apart s tgt T).
Notation entry_ok := (entry_ok s tgt T host junk).

(** ** Arguments *)

(** Where the callee looks for a value. *)
Inductive loc := LReg (r : Z) | LArea (o : Z) | LConst (v : Z).

Definition loc_value (B : Z -> Z) (h : hstate W) (x : loc) : Z :=
  match x with
  | LReg r => hreg h r
  | LArea o => cell h (B (TCG_REG_CALL_STACK tgt)) o
  | LConst v => v
  end.

(** From [A] to [A'] by instructions that leave the places [keep] and bring the
    temporaries of [ps] to theirs. *)
Record passed (L : live_state) (D K : list Z) (keep : loc -> Prop) (A A' : alloc_state) (es : list hinsn) (ps : list (Z * loc)) : Prop := {
  ps_inv : inv L D K A';
  ps_extends : extends A A';
  ps_sim : forall E B v h, wf E -> extends A' E -> bases_apart B -> rel E B [] L A v h ->
    exists h', hexecs es h = HFall h' /\ rel E B [] L A' v h' /\ hworld h' = hworld h /\
      (forall x, keep x -> loc_value B h' x = loc_value B h x) /\
      forall t x, (t, x) ∈ ps -> veq s t (v t) (loc_value B h' x);
}.

Lemma passed_trans L D K (k1 k2 : loc -> Prop) A1 A2 A3 es1 es2 ps1 ps2 :
  passed L D K k1 A1 A2 es1 ps1 -> passed L D K k2 A2 A3 es2 ps2 -> (forall x, k1 x -> k2 x) ->
  (forall t x, (t, x) ∈ ps1 -> k2 x) -> passed L D K k1 A1 A3 (es1 ++ es2) (ps1 ++ ps2).
Proof.
  intros [I1 X1 S1] [I2 X2 S2] Hk Hp. split; [done|by apply (extends_trans s T A1 A2)|].
  intros E B v h HE HX HB Hr. destruct (S1 E B v h HE) as (h1 & E1 & R1 & W1 & K1 & V1); [by apply (extends_trans s T A2 A3)|done..|].
  destruct (S2 E B v h1 HE HX HB R1) as (h2 & E2 & R2 & W2 & K2 & V2). exists h2.
  rewrite (hexecs_then s tgt T host junk es1 h h1) by done. split; [done|]. split; [done|]. split; [congruence|].
  split; [intros x Hx; rewrite K2, K1; auto|]. intros t x [Hx|Hx]%elem_of_app; [|by apply V2].
  rewrite K2 by (by apply (Hp t)). by apply V1.
Qed.

Lemma moved_passed L D K (keep : Z -> Prop) (k : loc -> Prop) A A' es :
  moved L D K keep A A' es -> (forall r, k (LReg r) -> keep r) -> (forall o, k (LArea o) -> in_call_area o = true) ->
  passed L D K k A A' es [].
Proof.
  intros [I X S] Hr Ho. split; [done..|]. intros E B v h HE HX HB Hrel.
  destruct (S E B [] v h HE HX HB Hrel) as (h' & Eh & R & Ew & Hk & Hc). exists h'. do 3 (split; [done|]).
  split; [|by intros t x ?%elem_of_nil]. intros [r|o|v0] Hx; cbn; [auto|by apply (sk_area _ _ _ _ _ _ _ _ _ Hc), Ho|done].
Qed.

(** A store into the argument area. *)
Lemma area_step L A E B v h t r o :
  in_call_area o = true -> wf E -> bases_apart B -> rel E B [] L A v h -> veq s t (v t) (hreg h r) ->
  exists h', hexec s tgt T host junk (HSt (type s t) r (TCG_REG_CALL_STACK tgt) o) h = HFall h' /\ rel E B [] L A v h' /\
    hworld h' = hworld h /\ (forall x, x <> LArea o -> loc_value B h' x = loc_value B h x) /\ veq s t (v t) (loc_value B h' (LArea o)).
Proof.
  intros Ho HE HB Hr Hv.
  pose proof (rel_base _ _ _ _ _ _ _ _ _ _ Hr (TCG_REG_CALL_STACK tgt) ltac:(apply (ly_base _ _ _ HL); by right; left)) as Eb.
  eexists. split; [done|]. rewrite Eb. split; [|split; [done|split]].
  - destruct Hr as [R1 R2 R3]. split; [done|done|]. intros u Vu Fu Xu.
    apply (holds_frame s E B L _ _ h); [by apply R3|done|]. intros b o' Es. cbn.
    destruct (Z.eqb_spec (B b) (B (TCG_REG_CALL_STACK tgt))) as [E1|], (Z.eqb_spec o' o) as [->|]; try done.
    by rewrite (slot_not_area s tgt T HL E B u b o) in Ho.
  - intros [r'|o'|v'] Hx; cbn; try done. rewrite Z.eqb_refl. destruct (Z.eqb_spec o' o) as [->|]; done.
  - cbn. rewrite !Z.eqb_refl. cbn. unfold veq. by rewrite merge_low.
Qed.

Definition keeps (R : Z) (x : loc) : Prop :=
  match x with LReg r => in_set R r | LArea o => in_call_area o = true | LConst _ => True end.

(** A value fetched into a register that nothing is in. *)
Lemma fetch_passed L D K A t r :
  inv L D K A -> readable L D t -> reg_to_temp A r = -1 -> room_reg tgt r ->
  passed L D K (fun x => match x with LReg y => y <> r | LArea o => in_call_area o = true | LConst _ => True end) A A
    [fetch (temps A t) (type s t) r] [(t, LReg r)].
Proof.
  intros HI HR Em Hr.
  assert (moved L D K (fun x => x <> r) A A [fetch (temps A t) (type s t) r]) as HM.
  { apply moved_scratch; try done. intros h. apply fetch_hexec. }
  destruct (moved_passed L D K _ (fun x => match x with LReg y => y <> r | LArea o => in_call_area o = true | LConst _ => True end)
    A A _ HM) as [I X S]; [done|done|]. split; [done..|].
  intros E B v h HE HX HB Hrel. destruct (S E B v h HE HX HB Hrel) as (h' & Eh & R & Ew & Hk & _).
  exists h'. do 4 (split; [done|]). intros u x [= -> ->]%list_elem_of_singleton. cbn.
  cbn [TcgHost.hexecs] in Eh. apply (fetch_value s tgt T HL host junk L D K A t r E B [] v h h'); try done.
  - by apply (readable_not_gone s tgt T L D K).
  - apply not_elem_of_nil.
  - by destruct (hexec s tgt T host junk (fetch (temps A t) (type s t) r) h).
Qed.

Lemma scratch_passed L D K A A1 S R t r es :
  inv L D K A -> readable L D t -> covers R -> in_reg (temps A t) = false -> moved L D K anywhere A A1 es -> freed A r A1 ->
  chosen S R r -> passed L D K (keeps R) A A1 (es ++ [fetch (temps A t) (type s t) r]) [(t, LReg r)].
Proof.
  intros HI HR Hcov Rt HM HF Hc. pose proof (mv_inv _ _ _ _ _ _ _ _ _ _ _ _ HM) as HI1.
  pose proof (spilled_other s tgt T L D K A t r A1 HI (proj1 HR) Rt HF) as Et.
  change [(t, LReg r)] with ([] ++ [(t, LReg r)]). rewrite <- Et.
  apply (passed_trans L D K (keeps R) (fun x => match x with LReg y => y <> r | LArea o => in_call_area o = true | LConst _ => True end) A A1 A1).
  - by apply (moved_passed L D K anywhere).
  - apply fetch_passed; [done|done|by apply (freed_self A)|by apply (chosen_room tgt S R)].
  - intros [y|o|v] Hx; [|done|done]. intros ->. destruct Hc as (_ & _ & Hn). unfold keeps, in_set in Hx. congruence.
  - by intros u x ?%elem_of_nil.
Qed.

Definition below (o : Z) (x : loc) : Prop :=
  match x with LReg r => reserved r = true | LArea o' => o' < o /\ in_call_area o' = true | LConst _ => True end.

Definition scratch_room : Prop := forall w, room_in tgt (tcg_target_available_regs tgt w) (reserved_regs tgt).

(** From a register onto the stack. *)
Lemma area_passed L D K A A1 es t r o (k : loc -> Prop) :
  passed L D K k A A1 es [(t, LReg r)] -> in_call_area o = true -> (forall x, below o x -> k x) ->
  passed L D K (below o) A A1 (es ++ [HSt (type s t) r (TCG_REG_CALL_STACK tgt) o]) [(t, LArea o)].
Proof.
  intros [I X S] Ho Hk. split; [done..|]. intros E B v h HE HX HB Hrel.
  destruct (S E B v h HE HX HB Hrel) as (h1 & E1 & R1 & W1 & K1 & V1).
  destruct (area_step L A1 E B v h1 t r o Ho HE HB R1) as (h2 & E2 & R2 & W2 & K2 & V2).
  { apply (V1 t (LReg r)). by left. }
  exists h2. rewrite (hexecs_then s tgt T host junk es h h1) by done. cbn [TcgHost.hexecs]. rewrite E2.
  split; [done|]. split; [done|]. split; [congruence|]. split.
  - intros x Hx. rewrite K2, K1; [done|by apply Hk|]. intros ->. cbn in Hx. lia.
  - by intros u x [= -> ->]%list_elem_of_singleton.
Qed.

Lemma stack_arg_ok L D K A o t :
  scratch_room -> inv L D K A -> readable L D t -> (t =? TCG_CALL_DUMMY_ARG) = false -> in_call_area o = true ->
  runs (stack_arg s tgt o t) A (fun _ A' es => passed L D K (below o) A A' es [(t, LArea o)]).
Proof.
  intros Hroom HI HR Hn Ho. unfold stack_arg, get_temp. rewrite Hn. cbn [negb when]. apply runs_bind, runs_gets.
  pose proof (readable_not_gone s tgt T L D K A t HI HR) as Hgone.
  assert (covers (reserved_regs tgt)) as Hcov by (intros r Hr; exact Hr).
  assert (forall x, below o x -> keeps (reserved_regs tgt) x) as Hk by (intros [r|o'|v] Hx; [exact Hx|apply Hx|done]).
  destruct (val_type (temps A t)) eqn:Et; [done|..].
  - assert (in_reg (temps A t) = true) as Rt by (unfold in_reg, is_val; by rewrite Et).
    apply runs_emit. change [HSt (type s t) (reg (temps A t)) (TCG_REG_CALL_STACK tgt) o] with
      ([] ++ [HSt (type s t) (reg (temps A t)) (TCG_REG_CALL_STACK tgt) o]).
    apply (area_passed L D K A A [] t (reg (temps A t)) o (keeps (reserved_regs tgt))); [|done|done].
    split; [done|apply extends_refl|]. intros E B v h HE HX HB Hr. exists h. do 4 (split; [done|]).
    intros u x [= -> ->]%list_elem_of_singleton. cbn.
    apply (reg_value s tgt T HL E B [] L D K A v h t); try done; [apply HR|apply not_elem_of_nil].
  - assert (in_reg (temps A t) = false) as Rt by (unfold in_reg, is_val; by rewrite Et).
    apply runs_bind. refine (runs_mono _ _ _ _ (tcg_reg_alloc_ok s tgt T HL host junk L D K A _ _ HI (Hroom _)) _).
    intros r A1 es (HM & HF & Hc). apply runs_bind, runs_gets. apply runs_bind, runs_emit. apply runs_emit.
    pose proof (scratch_passed L D K A A1 _ _ t r es HI HR Hcov Rt HM HF Hc) as HP. unfold fetch in HP. rewrite Et in HP.
    rewrite (spilled_other s tgt T L D K A t r A1 HI (proj1 HR) Rt HF). rewrite !app_nil_l.
    pose proof (area_passed L D K A A1 _ t r o _ HP Ho Hk) as HP2. by rewrite <- app_assoc in HP2.
  - assert (in_reg (temps A t) = false) as Rt by (unfold in_reg, is_val; by rewrite Et).
    apply runs_bind. refine (runs_mono _ _ _ _ (tcg_reg_alloc_ok s tgt T HL host junk L D K A _ _ HI (Hroom _)) _).
    intros r A1 es (HM & HF & Hc). apply runs_bind, runs_emit. apply runs_emit.
    pose proof (scratch_passed L D K A A1 _ _ t r es HI HR Hcov Rt HM HF Hc) as HP. unfold fetch in HP. rewrite Et in HP.
    pose proof (area_passed L D K A A1 _ t r o _ HP Ho Hk) as HP2. by rewrite <- app_assoc in HP2.
Qed.

Fixpoint stack_locs (o : Z) (ts : list Z) : list (Z * loc) :=
  match ts with [] => [] | t :: ts => (t, LArea o) :: stack_locs (o + 8) ts end.

Lemma stack_args_ok L D K A o ts :
  scratch_room -> inv L D K A -> (forall t, t ∈ ts -> readable L D t /\ (t =? TCG_CALL_DUMMY_ARG) = false) ->
  (forall k : nat, (k < length ts)%nat -> in_call_area (o + 8 * Z.of_nat k) = true) ->
  runs (stack_args s tgt o ts) A (fun _ A' es => passed L D K (below o) A A' es (stack_locs o ts)).
Proof.
  intros Hroom. revert A o. induction ts as [|t ts IH]; intros A o HI Hts Ho; cbn [stack_args stack_locs].
  - go. apply (moved_passed L D K anywhere); [by apply moved_refl|done|]. cbn. tauto.
  - destruct (Hts t) as [HR Hn]; [by left|]. apply runs_bind.
    assert (in_call_area o = true) as Ho0 by (rewrite <- (Ho 0%nat) by (cbn; lia); f_equal; lia).
    refine (runs_mono _ _ _ _ (stack_arg_ok L D K A o t Hroom HI HR Hn Ho0) _).
    intros _ A1 es1 HP. refine (runs_mono _ _ _ _ (IH A1 (o + 8) (ps_inv _ _ _ _ _ _ _ _ HP) _ _) _).
    + intros u Hu. apply Hts. by right.
    + intros k Hk. rewrite <- (Ho (S k)) by (cbn; lia). f_equal. lia.
    + intros _ A2 es2 HP2. change ((t, LArea o) :: stack_locs (o + 8) ts) with ([(t, LArea o)] ++ stack_locs (o + 8) ts).
      apply (passed_trans L D K (below o) (below (o + 8)) A A1 A2); try done.
      * intros [r|o'|v] Hx; [exact Hx| |done]. cbn in *. split; [lia|tauto].
      * intros u x [= -> ->]%list_elem_of_singleton. cbn. split; [lia|done].
Qed.

(** Arguments in registers. *)
Lemma keeps_more R r x : 0 <= r -> keeps R x -> keeps (tcg_regset_set_reg R r) x.
Proof. intros Hr. destruct x; cbn; [|done|done]. intros Hx. apply set_reg_spec; auto. Qed.

Lemma reg_arg_ok L D K A r t R :
  inv L D K A -> readable L D t -> (t =? TCG_CALL_DUMMY_ARG) = false -> room_reg tgt r -> ~ in_set R r ->
  runs (reg_arg s tgt r t R) A (fun R' A' es => R' = tcg_regset_set_reg R r /\ passed L D K (keeps R) A A' es [(t, LReg r)]).
Proof.
  intros HI HR Hn Hr HnR. unfold reg_arg, get_temp. rewrite Hn. apply runs_bind.
  refine (runs_mono _ _ _ _ (tcg_reg_free_ok s tgt T HL host junk L D K A r HI) _). intros _ A1 es1 [HM HF].
  pose proof (mv_inv _ _ _ _ _ _ _ _ _ _ _ _ HM) as HI1. apply runs_bind, runs_gets.
  pose proof (readable_not_gone s tgt T L D K A1 t HI1 HR) as Hgone. pose proof (freed_self A r A1 HF) as Em.
  assert (passed L D K (keeps R) A A1 (es1 ++ [fetch (temps A1 t) (type s t) r]) [(t, LReg r)]) as HP.
  { change [(t, LReg r)] with ([] ++ [(t, LReg r)]).
    apply (passed_trans L D K (keeps R) (fun x => match x with LReg y => y <> r | LArea o => in_call_area o = true | LConst _ => True end) A A1 A1).
    - by apply (moved_passed L D K anywhere).
    - by apply fetch_passed.
    - intros [y|o|v] Hx; [|done|done]. by intros ->.
    - by intros u x ?%elem_of_nil. }
  assert (forall e, e = fetch (temps A1 t) (type s t) r -> passed L D K (keeps R) A A1 (es1 ++ [] ++ [e] ++ []) [(t, LReg r)]) as HP2.
  { by intros e ->. }
  destruct (val_type (temps A1 t)) eqn:Et; [done|..].
  - assert (in_reg (temps A1 t) = true) as Rt by (unfold in_reg, is_val; by rewrite Et).
    rewrite (proj2 (Z.eqb_neq (reg (temps A1 t)) r)). 
    + cbn [negb when]. go. split; [done|]. apply HP2. unfold fetch. by rewrite Et.
    + intros E1. destruct (fixed t) eqn:Ft.
      * destruct (wf_pinned _ _ _ A1 (inv_wf _ _ _ _ _ _ _ HI1) t (proj1 HR) Ft) as [_ E2].
        assert (is_global t) as Gt by (unfold TcgHost.fixed in Ft; apply andb_true_iff in Ft as [Ft%Z.ltb_lt _];
          destruct HR as [Vt _]; unfold TcgRing.valid, TcgShape.is_global in *; lia).
        pose proof (ly_fixed _ _ _ HL t Gt Ft) as Hres. destruct Hr as [_ Hr]. rewrite <- E2, E1 in Hres. congruence.
      * destruct (wf_reg _ _ _ A1 (inv_wf _ _ _ _ _ _ _ HI1) t (proj1 HR) Ft Rt) as [E2 _]. rewrite E1, Em in E2.
        by apply (valid_neq s t (proj1 HR)).
  - go. split; [done|]. apply HP2. unfold fetch. by rewrite Et.
  - go. split; [done|]. apply HP2. unfold fetch. by rewrite Et.
Qed.

Fixpoint reg_locs (rs ts : list Z) : list (Z * loc) :=
  match rs, ts with r :: rs, t :: ts => (t, LReg r) :: reg_locs rs ts | _, _ => [] end.
Fixpoint set_regs (R : Z) (rs : list Z) : Z :=
  match rs with [] => R | r :: rs => set_regs (tcg_regset_set_reg R r) rs end.

Lemma reg_args_ok L D K A rs ts R :
  inv L D K A -> (length ts <= length rs)%nat -> (forall t, t ∈ ts -> readable L D t /\ (t =? TCG_CALL_DUMMY_ARG) = false) ->
  NoDup rs -> (forall r, r ∈ rs -> room_reg tgt r /\ ~ in_set R r) ->
  runs (reg_args s tgt rs ts R) A (fun R' A' es => R' = set_regs R (take (length ts) rs) /\
    passed L D K (keeps R) A A' es (reg_locs rs ts)).
Proof.
  revert ts A R. induction rs as [|r rs IH]; intros [|t ts] A R HI Hl Hts Hnd Hrs; cbn in Hl |- *; try lia.
  - go. split; [done|]. apply (moved_passed L D K anywhere); [by apply moved_refl|done|done].
  - go. split; [done|]. apply (moved_passed L D K anywhere); [by apply moved_refl|done|done].
  - destruct (Hts t) as [HR Hn]; [by left|]. destruct (Hrs r) as [Hr HnR]; [by left|]. apply NoDup_cons in Hnd as [Hni Hnd].
    apply runs_bind. refine (runs_mono _ _ _ _ (reg_arg_ok L D K A r t R HI HR Hn Hr HnR) _).
    intros R' A1 es1 [-> HP]. refine (runs_mono _ _ _ _ (IH ts A1 _ (ps_inv _ _ _ _ _ _ _ _ HP) _ _ Hnd _) _).
    + lia.
    + intros u Hu. apply Hts. by right.
    + intros x Hx. destruct (Hrs x) as [Hr1 Hx1]; [by right|]. split; [done|]. destruct Hr as [Hr0 _].
      intros [?| ->]%set_reg_spec; [done|done|done].
    + intros R2 A2 es2 [-> HP2]. split; [done|]. change ((t, LReg r) :: reg_locs rs ts) with ([(t, LReg r)] ++ reg_locs rs ts).
      destruct Hr as [Hr0 _]. eapply passed_trans; [exact HP|exact HP2| |].
      * intros x. by apply keeps_more.
      * intros u x [= -> ->]%list_elem_of_singleton. cbn. apply set_reg_spec; auto.
Qed.

(** The function. *)
Lemma func_arg_ok L D K A f R :
  inv L D K A -> readable L D f -> covers R -> room_in tgt (ct_regs (args_ct tgt op_call 0)) R ->
  runs (func_arg s tgt op_call f R) A (fun r A' es => exists x c R', r = (x, c, R') /\
    passed L D K (keeps R) A A' es [(f, if c then LConst x else LReg x)]).
Proof.
  intros HI HR Hcov Hroom. unfold func_arg, get_temp. apply runs_bind, runs_gets.
  pose proof (readable_not_gone s tgt T L D K A f HI HR) as Hgone.
  assert (forall x, (forall E B v h, wf E -> extends A E -> rel E B [] L A v h -> veq s f (v f) (loc_value B h x)) ->
    passed L D K (keeps R) A A [] [(f, x)]) as Hstay.
  { intros x Hx. split; [done|apply extends_refl|]. intros E B v h HE HX HB Hr. exists h. do 4 (split; [done|]).
    intros u y [= -> ->]%list_elem_of_singleton. by apply (Hx E). }
  destruct (val_type (temps A f)) eqn:Et; [done|..].
  - assert (in_reg (temps A f) = true) as Rt by (unfold in_reg, is_val; by rewrite Et).
    apply runs_bind. destruct (tcg_regset_test_reg _ _).
    + go. exists (reg (temps A f)), false. eexists. split; [done|]. apply Hstay. intros E B v h HE HX Hr. cbn.
      apply (reg_value s tgt T HL E B [] L D K A v h f); try done; [apply HR|apply not_elem_of_nil].
    + refine (runs_mono _ _ _ _ (copy_to_ok s tgt T HL host junk L D K A _ R f HI (proj1 HR) Rt Hroom Hcov) _).
      intros r A1 es1 (HM & HF & Hc & Hd). go. exists r, false. eexists. split; [done|]. rewrite app_nil_r.
      destruct (moved_passed L D K _ (keeps R) A A1 es1 HM) as [I X S]; [done|done|]. split; [done..|].
      intros E B v h HE HX HB Hr. destruct (S E B v h HE HX HB Hr) as (h' & Eh & R1 & W1 & K1 & _). exists h'.
      do 4 (split; [done|]). intros u x [= -> ->]%list_elem_of_singleton. cbn. by apply (Hd E B v h h').
  - assert (in_reg (temps A f) = false) as Rt by (unfold in_reg, is_val; by rewrite Et).
    apply runs_bind. refine (runs_mono _ _ _ _ (tcg_reg_alloc_ok s tgt T HL host junk L D K A _ _ HI Hroom) _).
    intros r A1 es (HM & HF & Hc). apply runs_bind, runs_gets. apply runs_bind, runs_emit. go.
    rewrite (spilled_other s tgt T L D K A f r A1 HI (proj1 HR) Rt HF).
    pose proof (scratch_passed L D K A A1 _ _ f r es HI HR Hcov Rt HM HF Hc) as HP. unfold fetch in HP. rewrite Et in HP.
    exists r, false. eexists. split; [done|exact HP].
  - destruct (tcg_target_const_match _ _ _).
    + go. exists (val (temps A f)), true. eexists. split; [done|]. apply Hstay. intros E B v h HE HX Hr. cbn.
      assert (in_reg (temps A f) = false) as Rt by (unfold in_reg, is_val; by rewrite Et).
      pose proof (unpinned s tgt T L D K A f HI (proj1 HR) Rt) as Ff.
      pose proof (rel_temp _ _ _ _ _ _ _ _ _ _ Hr f (proj1 HR) Ff (not_elem_of_nil _)) as Hh. unfold holds in Hh. by rewrite Et in Hh.
    + assert (in_reg (temps A f) = false) as Rt by (unfold in_reg, is_val; by rewrite Et).
      apply runs_bind. refine (runs_mono _ _ _ _ (tcg_reg_alloc_ok s tgt T HL host junk L D K A _ _ HI Hroom) _).
      intros r A1 es (HM & HF & Hc). apply runs_bind, runs_emit. go.
      pose proof (scratch_passed L D K A A1 _ _ f r es HI HR Hcov Rt HM HF Hc) as HP. unfold fetch in HP. rewrite Et in HP.
      exists r, false. eexists. split; [done|exact HP].
Qed.

(** ** In front of the call *)

(** What the back end promises of calls. *)
Record call_ready : Prop := {
  cl_iargs : NoDup (tcg_target_call_iarg_regs tgt) /\ forall r, r ∈ tcg_target_call_iarg_regs tgt -> room_reg tgt r;
  cl_oargs : NoDup (tcg_target_call_oarg_regs tgt) /\ forall r, r ∈ tcg_target_call_oarg_regs tgt -> clobbered tgt r = true;
  cl_scratch : scratch_room;
  cl_func : forall n, room_in tgt (ct_regs (args_ct tgt op_call 0)) (set_regs (reserved_regs tgt) (take n (tcg_target_call_iarg_regs tgt)));
  cl_align : 1 <= TCG_TARGET_STACK_ALIGN tgt;
}.

Definition call_params (l : list Z) : list Z := take (length (call_ins l) - 1) (call_ins l).
Definition call_regs (l : list Z) : nat := Nat.min (length (tcg_target_call_iarg_regs tgt)) (length (call_ins l) - 1).

(** What the block and the liveness pass promise. *)
Record call_case (l : list Z) (after st2 before : live_state) (da sa : Z) (D : list Z) : Prop := {
  cc_func : (0 < length (call_ins l))%nat;
  cc_in : forall t, t ∈ call_ins l -> readable before D t;
  cc_out : forall t, t ∈ call_outs l -> valid t /\ fixed t = false;
  cc_nodup : NoDup (call_outs l);
  cc_results : (length (call_outs l) <= length (tcg_target_call_oarg_regs tgt))%nat;
  cc_stack : call_stack_size tgt (length (call_ins l) - 1) (call_regs l) <= TCG_STATIC_CALL_ARGS_SIZE tgt;
  cc_marks : op_marks s (call_outs l) (call_ins l) after st2 before da sa;
  cc_weaker : weaker s st2 (outs_gone (call_outs l) after);
  cc_mem : forall t, valid t -> mem_temps st2 t = true -> carried t;
  cc_mem_after : forall t, valid t -> mem_temps after t = true -> carried t;
  cc_reads : reads_globals (call_flags l) = true -> forall t, is_global t -> mem_temps st2 t = true;
  cc_writes : writes_globals (call_flags l) = true -> forall t, is_global t -> dead_temps st2 t = true;
}.

Lemma reg_locs_elem rs ts j :
  (j < length ts)%nat -> (j < length rs)%nat -> (nth j ts 0, LReg (nth j rs 0)) ∈ reg_locs rs ts.
Proof.
  revert ts j. induction rs as [|r rs IH]; intros [|t ts] [|j] H1 H2; cbn in *; try lia; [by left|]. right. apply IH; lia.
Qed.

Lemma stack_locs_elem o ts j : (j < length ts)%nat -> (nth j ts 0, LArea (o + 8 * Z.of_nat j)) ∈ stack_locs o ts.
Proof.
  revert o j. induction ts as [|t ts IH]; intros o [|j] H; cbn [length] in H; try lia; cbn [stack_locs nth].
  - rewrite Z.add_0_r. by left.
  - right. replace (o + 8 * Z.of_nat (S j)) with (o + 8 + 8 * Z.of_nat j) by lia. apply IH. lia.
Qed.

Lemma stack_locs_in o ts t x : (t, x) ∈ stack_locs o ts -> exists k, (k < length ts)%nat /\ x = LArea (o + 8 * Z.of_nat k).
Proof.
  revert o. induction ts as [|u ts IH]; intros o; cbn [stack_locs length]; [by intros ?%elem_of_nil|].
  intros [[= -> ->]|H]%elem_of_cons; [exists 0%nat; split; [lia|f_equal; lia]|].
  destruct (IH _ H) as (k & Hk & ->). exists (S k). split; [lia|f_equal; lia].
Qed.

Lemma reg_locs_in rs ts t x : (t, x) ∈ reg_locs rs ts -> exists r, r ∈ take (length ts) rs /\ x = LReg r.
Proof.
  revert ts. induction rs as [|r rs IH]; intros [|u ts]; cbn [reg_locs length take]; try by intros ?%elem_of_nil.
  intros [[= -> ->]|H]%elem_of_cons; [exists r; split; [by left|done]|].
  destruct (IH _ H) as (r' & Hr & ->). exists r'. split; [by right|done].
Qed.

Lemma set_regs_spec R rs r : (forall x, x ∈ rs -> 0 <= x) -> in_set (set_regs R rs) r <-> in_set R r \/ r ∈ rs.
Proof.
  revert R. induction rs as [|x rs IH]; intros R Hrs; cbn [set_regs]; [by rewrite elem_of_nil; tauto|].
  rewrite IH by (intros y Hy; apply Hrs; by right). rewrite set_reg_spec by (apply Hrs; by left). rewrite elem_of_cons. tauto.
Qed.

Definition call_locs (l : list Z) (func : Z) (c : bool) : list (Z * loc) :=
  (stack_locs (TCG_TARGET_CALL_STACK_OFFSET tgt) (drop (call_regs l) (call_params l)) ++
   reg_locs (tcg_target_call_iarg_regs tgt) (take (call_regs l) (call_params l))) ++
  [(arg (call_ins l) (length (call_ins l) - 1), if c then LConst func else LReg func)].

Lemma nth_take n (l : list Z) j : (j < n)%nat -> nth j (take n l) 0 = nth j l 0.
Proof. apply arg_take. Qed.
Lemma nth_drop n (l : list Z) j : nth j (drop n l) 0 = nth (n + j) l 0.
Proof. apply arg_drop. Qed.

(** The callee finds its arguments. *)
Lemma call_values_eq l func c B v h :
  (0 < length (call_ins l))%nat -> hreg h (TCG_REG_CALL_STACK tgt) = B (TCG_REG_CALL_STACK tgt) ->
  (forall t x, (t, x) ∈ call_locs l func c -> veq s t (v t) (loc_value B h x)) ->
  call_values tgt (map (type s) (call_ins l)) (call_regs l) func c h = map (fun t => uwrap (bits (type s t)) (v t)) (call_ins l).
Proof.
  intros Hn Hb Hv. set (ins := call_ins l) in *. set (np := (length ins - 1)%nat).
  assert (call_regs l <= np)%nat as Hr by (unfold call_regs; fold ins; lia).
  assert (call_regs l <= length (tcg_target_call_iarg_regs tgt))%nat as Hr2 by (unfold call_regs; lia).
  assert (length (call_params l) = np) as Hp by (unfold call_params; fold ins; rewrite length_take; lia).
  unfold call_values. rewrite length_map. apply (nth_ext _ _ 0 0); [by rewrite !length_map, length_seq|].
  intros j Hj. rewrite length_map, length_seq in Hj. rewrite nth_map_seq by done.
  rewrite (nth_indep (map (fun t => uwrap (bits (type s t)) (v t)) ins) 0 (uwrap (bits (type s 0)) (v 0))) by (by rewrite length_map).
  rewrite (map_nth (fun t => uwrap (bits (type s t)) (v t))).
  rewrite (nth_indep (map (type s) ins) W32 (type s 0)) by (by rewrite length_map). rewrite map_nth.
  fold np. symmetry. destruct (Nat.ltb_spec j (call_regs l)) as [H1|H1]; [|destruct (Nat.ltb_spec j np) as [H2|H2]].
  - apply (Hv (nth j ins 0) (LReg (nth j (tcg_target_call_iarg_regs tgt) 0))). unfold call_locs. apply elem_of_app; left. apply elem_of_app; right.
    assert (nth j ins 0 = nth j (take (call_regs l) (call_params l)) 0) as -> by (rewrite nth_take by done; unfold call_params; fold ins; by rewrite nth_take by lia).
    apply reg_locs_elem; [rewrite length_take; lia|lia].
  - rewrite Hb.
    apply (Hv (nth j ins 0) (LArea (TCG_TARGET_CALL_STACK_OFFSET tgt + 8 * Z.of_nat (j - call_regs l)))). unfold call_locs.
    apply elem_of_app; left. apply elem_of_app; left.
    assert (nth j ins 0 = nth (j - call_regs l) (drop (call_regs l) (call_params l)) 0) as ->.
    { rewrite nth_drop. replace (call_regs l + (j - call_regs l))%nat with j by lia. unfold call_params. fold ins. by rewrite nth_take by lia. }
    apply stack_locs_elem. rewrite length_drop. lia.
  - assert (j = np) as -> by lia. pose proof (Hv (nth np ins 0) (if c then LConst func else LReg func)) as Hf.
    assert (nth np ins 0 = arg (call_ins l) (length (call_ins l) - 1)) as Ef by done.
    specialize (Hf ltac:(unfold call_locs; rewrite Ef; apply elem_of_app; right; by left)). by destruct c.
Qed.

Lemma minus_land y m : y - Z.land y m = Z.ldiff y m.
Proof.
  rewrite Z.sub_nocarry_ldiff; apply Z.bits_inj'; intros n Hn; rewrite ?Z.bits_0, !Z.ldiff_spec, !Z.land_spec;
    by destruct (Z.testbit y n), (Z.testbit m n).
Qed.

Lemma stack_size_le x a : 1 <= a -> x <= Z.land (x + a - 1) (Z.lnot (a - 1)).
Proof.
  intros Ha. rewrite <- Z.ldiff_land, <- minus_land. set (y := x + a - 1).
  pose proof (minus_land (a - 1) y) as E. assert (0 <= Z.ldiff (a - 1) y) by (apply Z.ldiff_nonneg; lia).
  rewrite (Z.land_comm (a - 1)) in E. subst y. lia.
Qed.

Section one.
Context (l : list Z) (after st2 before : live_state) (da sa : Z) (D K : list Z).
Context (HR : call_ready) (HC : call_case l after st2 before da sa D) (Hm : nb_temps s <= TCG_MAX_TEMPS).
Notation outs := (call_outs l).
Notation ins := (call_ins l).

Lemma call_area k : (k < length (drop (call_regs l) (call_params l)))%nat ->
  in_call_area (TCG_TARGET_CALL_STACK_OFFSET tgt + 8 * Z.of_nat k) = true.
Proof.
  rewrite length_drop. unfold call_params. rewrite length_take. intros Hk. pose proof (cc_stack _ _ _ _ _ _ _ HC) as Hs.
  unfold call_stack_size in Hs. set (n := Z.of_nat (length ins - 1 - call_regs l)) in *.
  pose proof (stack_size_le (n * 8) _ (cl_align HR)). unfold TcgHost.in_call_area.
  apply andb_true_iff. split; [apply Z.leb_le; lia|apply Z.ltb_lt; lia].
Qed.

Lemma param_ok t : t ∈ ins -> readable before D t /\ (t =? TCG_CALL_DUMMY_ARG) = false.
Proof.
  intros Ht. pose proof (cc_in _ _ _ _ _ _ _ HC t Ht) as Hr. split; [done|]. destruct Hr as [[_ Ht2] _].
  apply Z.eqb_neq. unfold TCG_MAX_TEMPS in Hm. change TCG_CALL_DUMMY_ARG with (2 ^ 64 - 1). lia.
Qed.

Lemma params_in t : t ∈ call_params l -> t ∈ ins.
Proof. unfold call_params. intros (j & Hj)%list_elem_of_lookup. apply lookup_take_Some in Hj as [Hj _]. by eapply list_elem_of_lookup_2. Qed.

Lemma taken_nonneg n r : r ∈ take n (tcg_target_call_iarg_regs tgt) -> 0 <= r.
Proof.
  intros (j & Hj)%list_elem_of_lookup. apply lookup_take_Some in Hj as [Hj _]. apply (cl_iargs HR). by eapply list_elem_of_lookup_2.
Qed.

Lemma covers_regs n : covers (set_regs (reserved_regs tgt) (take n (tcg_target_call_iarg_regs tgt))).
Proof. intros x Hx. apply set_regs_spec; [apply taken_nonneg|]. by left. Qed.

(** The arguments are in place. *)
Lemma arguments_ok A :
  inv before D K A ->
  runs (allocated <- (stack_args s tgt (TCG_TARGET_CALL_STACK_OFFSET tgt) (drop (call_regs l) (call_params l)) ;;;
                      reg_args s tgt (tcg_target_call_iarg_regs tgt) (take (call_regs l) (call_params l)) (reserved_regs tgt)) ;;
        func_arg s tgt op_call (arg ins (length ins - 1)) allocated)%prog A
    (fun r A' es => exists x c R', r = (x, c, R') /\
       passed before D K (below (TCG_TARGET_CALL_STACK_OFFSET tgt)) A A' es (call_locs l x c)).
Proof.
  intros HI. apply runs_bind, runs_bind. refine (runs_mono _ _ _ _ (stack_args_ok before D K A _ _ (cl_scratch HR) HI _ call_area) _).
  { intros t (j & Hj)%list_elem_of_lookup. apply param_ok, params_in. rewrite lookup_drop in Hj. by eapply list_elem_of_lookup_2. }
  intros _ A1 es1 HP1. destruct (cl_iargs HR) as [Hnd Hir].
  refine (runs_mono _ _ _ _ (reg_args_ok before D K A1 _ (take (call_regs l) (call_params l)) _ (ps_inv _ _ _ _ _ _ _ _ HP1) _ _ Hnd _) _).
  { rewrite length_take. unfold call_regs. lia. }
  { intros t (j & Hj)%list_elem_of_lookup. apply lookup_take_Some in Hj as [Hj _]. apply param_ok, params_in. by eapply list_elem_of_lookup_2. }
  { intros r Hr. split; [by apply Hir|]. destruct (Hir r Hr) as [_ Hn]. unfold in_set. unfold TcgPlace.reserved, tcg_regset_test_reg in Hn. congruence. }
  intros R A2 es2 [-> HP2].
  assert (arg ins (length ins - 1) ∈ ins) as Hf.
  { unfold arg. apply list_elem_of_In, nth_In. pose proof (cc_func _ _ _ _ _ _ _ HC). lia. }
  refine (runs_mono _ _ _ _ (func_arg_ok before D K A2 _ _ (ps_inv _ _ _ _ _ _ _ _ HP2) _ _ (cl_func HR _)) _).
  { by apply param_ok. }
  { apply covers_regs. }
  intros r A3 es3 (x & c & R' & -> & HP3). exists x, c, R'. split; [done|].
  apply (passed_trans before D K _ (keeps (set_regs (reserved_regs tgt) (take (length (take (call_regs l) (call_params l))) (tcg_target_call_iarg_regs tgt)))) A A2 A3).
  - apply (passed_trans before D K _ (keeps (reserved_regs tgt)) A A1 A2); [done|done| |].
    + intros [y|o|v] Hx; [exact Hx|apply Hx|done].
    + intros t y Hin. destruct (stack_locs_in _ _ _ _ Hin) as (k & Hk & ->). by apply call_area.
  - done.
  - intros [y|o|v] Hx; [|apply Hx|done]. apply set_regs_spec; [apply taken_nonneg|]. by left.
  - intros t y [Hin|Hin]%elem_of_app.
    + destruct (stack_locs_in _ _ _ _ Hin) as (k & Hk & ->). by apply call_area.
    + destruct (reg_locs_in _ _ _ _ Hin) as (r & Hr & ->). apply set_regs_spec; [apply taken_nonneg|]. by right.
Qed.

(** At the call: the arguments are in place, the inputs that die are gone, what
    the callee may destroy is saved. *)
Record at_call (func : Z) (c : bool) (A A' : alloc_state) (es : list hinsn) : Prop := {
  ac_inv : inv st2 D K A';
  ac_extends : extends A A';
  ac_free : forall r, clobbered tgt r = true -> reg_to_temp A' r = -1;
  ac_sim : forall E B v h, wf E -> extends A' E -> bases_apart B -> rel E B [] before A v h ->
    exists h', hexecs es h = HFall h' /\ rel E B [] st2 A' v h' /\ hworld h' = hworld h /\
      call_values tgt (map (type s) ins) (call_regs l) func c h' = map (fun t => uwrap (bits (type s t)) (v t)) ins;
}.

Lemma saved_ok func c A A3 es Q :
  passed before D K (below (TCG_TARGET_CALL_STACK_OFFSET tgt)) A A3 es (call_locs l func c) ->
  (forall A' es', at_call func c A A' (es ++ es') -> Q tt A' es') ->
  runs (kill_dead s (outs ++ ins) da (seq (length outs) (length ins)) ;;; free_clobbered s tgt)%prog A3 Q.
Proof.
  intros [I3 X3 S3] HQ. apply runs_bind.
  refine (runs_mono _ _ _ _ (kill_dead_ok s tgt T (W := W) before D K A3 (outs ++ ins) da (seq (length outs) (length ins)) I3 _ _) _).
  { intros j Hj%elem_of_seq. unfold arg. rewrite app_nth2 by lia. apply (cc_in _ _ _ _ _ _ _ HC). apply list_elem_of_In, nth_In. lia. }
  { intros t Ht. rewrite (proj1 (om_before _ _ _ _ _ _ _ _ (cc_marks _ _ _ _ _ _ _ HC) t Ht)). by apply (cc_mem _ _ _ _ _ _ _ HC). }
  intros _ A4 es4 (-> & HS & _).
  assert (shifted before st2 D K D K A3 A4) as HS2.
  { apply (killed_shifted s tgt T outs ins (outs ++ ins) after st2 before da sa); [|apply HC|exact HS].
    intros j Hj. unfold arg. rewrite app_nth2 by lia. f_equal. lia. }
  refine (runs_mono _ _ _ _ (free_clobbered_ok s tgt T HL host junk st2 D K A4 (sh_inv _ _ _ _ _ _ _ _ _ _ _ HS2)) _).
  intros [] A5 es5 (HM & _ & Hfree). apply HQ. cbn [app]. pose proof (sh_extends _ _ _ _ _ _ _ _ _ _ _ HS2) as X4. split.
  - apply HM.
  - apply (extends_trans s T A A3); [done|]. apply (extends_trans s T A3 A4); [done|apply HM].
  - exact Hfree.
  - intros E B v h HE HX HB Hr. assert (extends A4 E) as HX4 by (apply (extends_trans s T A4 A5); [apply HM|done]).
    assert (extends A3 E) as HX3 by (by apply (extends_trans s T A3 A4)).
    destruct (S3 E B v h HE HX3 HB Hr) as (h3 & E3 & R3 & W3 & _ & V3).
    pose proof (sh_rel _ _ _ _ _ _ _ _ _ _ _ HS2 E B [] v h3 R3) as R4.
    destruct (mv_sim _ _ _ _ _ _ _ _ _ _ _ _ HM E B [] v h3 HE HX HB R4) as (h5 & E5 & R5 & W5 & K5 & C5).
    exists h5. rewrite (hexecs_then s tgt T host junk es h h3) by done. split; [done|]. split; [done|]. split; [congruence|].
    apply (call_values_eq l func c B); [apply HC| |].
    + apply (rel_base _ _ _ _ _ _ _ _ _ _ R5), (ly_base _ _ _ HL). by right; left.
    + intros t x Hin. specialize (V3 t x Hin).
      assert (loc_value B h5 x = loc_value B h3 x) as ->; [|done].
      destruct x as [r|o|v0]; cbn; [by apply K5| |done]. apply (sk_area _ _ _ _ _ _ _ _ _ C5).
      unfold call_locs in Hin. apply elem_of_app in Hin as [[Hin|Hin]%elem_of_app|Hin].
      * destruct (stack_locs_in _ _ _ _ Hin) as (k & Hk & [= ->]). by apply call_area.
      * by destruct (reg_locs_in _ _ _ _ Hin) as (r & _ & [=]).
      * apply list_elem_of_singleton in Hin. by destruct c.
Qed.

(** The globals are where the callee looks for them. *)
Lemma globals_saved func c A A' es :
  at_call func c A A' es ->
  (if nz (Z.land (call_flags l) TCG_CALL_NO_READ_GLOBALS) then ret tt
   else if nz (Z.land (call_flags l) TCG_CALL_NO_WRITE_GLOBALS) then TcgReg.sync_globals s
   else save_globals s) A' = Ok (tt, A', []).
Proof.
  intros [I _ _ _]. pose proof (cc_reads _ _ _ _ _ _ _ HC) as Hr. pose proof (cc_writes _ _ _ _ _ _ _ HC) as Hw.
  unfold writes_globals, reads_globals in *. destruct (nz (Z.land _ TCG_CALL_NO_READ_GLOBALS)); [done|].
  specialize (Hr eq_refl). destruct (nz (Z.land _ TCG_CALL_NO_WRITE_GLOBALS)).
  - by apply (sync_globals_ok s tgt T HL st2 D K).
  - apply (save_globals_ok s tgt T HL st2 D K); [done|]. by apply Hw.
Qed.
End one.

(** ** The call *)

(** A helper leaves the registers that hold globals. *)
Definition helpers_keep_fixed : Prop := forall flags ins seen w, writes_globals flags = true ->
  match h_call host flags ins seen w with
  | CReturn _ g _ | CLeave g _ => forall t, is_global t -> fixed t = true -> veq s t (nth (Z.to_nat t) g 0) (nth (Z.to_nat t) seen 0)
  end.

Lemma nth_globals t : is_global t -> nth (Z.to_nat t) (globals s) 0 = t /\ (Z.to_nat t < length (globals s))%nat.
Proof.
  intros [H1 H2]. unfold globals. rewrite length_seqZ. split; [|lia]. rewrite nth_lookup, lookup_seqZ_lt by lia. cbn. lia.
Qed.

Lemma puts_typed_at (m : mstate W) ts vs j :
  NoDup ts -> (j < length ts)%nat -> regs (puts_typed s m ts vs) (nth j ts 0) = uwrap (bits (type s (nth j ts 0))) (nth j vs 0).
Proof.
  intros Hn Hj. unfold puts_typed. rewrite puts_nth by done. rewrite nth_lookup, list_lookup_imap, lookup_take_lt by done.
  rewrite (nth_lookup vs). destruct (vs !! j) as [x|]; cbn; [done|]. unfold uwrap. rewrite Z.mod_0_l; [done|].
  apply Z.pow_nonzero; [done|apply bits_nonneg].
Qed.

Lemma puts_typed_other (m : mstate W) ts vs t : t ∉ ts -> regs (puts_typed s m ts vs) t = regs m t.
Proof. intros Ht. unfold puts_typed. by rewrite puts_other. Qed.

(** *** Globals written by the callee *)
Definition home_of (h : hstate W) (t p o : Z) : Prop :=
  fixed t = false /\ p = hreg h (mem_reg (T t)) /\ o = mem_offset (T t).

Lemma set_globals_regs (h : hstate W) ts gs : hreg (set_globals s T h ts gs) = hreg h /\ hworld (set_globals s T h ts gs) = hworld h.
Proof.
  revert h gs. induction ts as [|t ts IH]; intros h gs; cbn [set_globals]; [done|].
  destruct (IH (if fixed t then h else set_cell h (type s t) (hreg h (mem_reg (T t))) (mem_offset (T t)) (nth 0 gs 0)) (drop 1 gs)) as [-> ->].
  by destruct (fixed t).
Qed.

Lemma set_globals_other (h : hstate W) ts gs p o :
  (forall t, t ∈ ts -> ~ home_of h t p o) -> cell (set_globals s T h ts gs) p o = cell h p o.
Proof.
  revert h gs. induction ts as [|t ts IH]; intros h gs Hn; cbn [set_globals]; [done|].
  rewrite IH.
  - destruct (fixed t) eqn:Ft; [done|]. cbn. destruct (Z.eqb_spec p (hreg h (mem_reg (T t)))) as [E1|], (Z.eqb_spec o (mem_offset (T t))) as [E2|]; try done.
    exfalso. apply (Hn t); [by left|done].
  - intros u Hu Hh. apply (Hn u); [by right|]. unfold home_of in *. by destruct (fixed t).
Qed.

Lemma set_globals_home (h : hstate W) ts gs j :
  (j < length ts)%nat -> fixed (nth j ts 0) = false ->
  (forall i, (i < length ts)%nat -> i <> j -> ~ home_of h (nth i ts 0) (hreg h (mem_reg (T (nth j ts 0)))) (mem_offset (T (nth j ts 0)))) ->
  veq s (nth j ts 0) (nth j gs 0) (cell (set_globals s T h ts gs) (hreg h (mem_reg (T (nth j ts 0)))) (mem_offset (T (nth j ts 0)))).
Proof.
  revert h gs j. induction ts as [|t ts IH]; intros h gs j Hj Fj Hn; cbn [length] in Hj; [lia|]. cbn [set_globals].
  destruct j as [|j]; cbn [nth] in *.
  - rewrite set_globals_other.
    + rewrite Fj. cbn. rewrite !Z.eqb_refl. cbn. unfold veq. rewrite merge_low. by destruct gs.
    + intros u (i & Hi)%list_elem_of_lookup Hh. assert (i < length ts)%nat by (by eapply lookup_lt_Some).
      apply (Hn (S i)); [cbn; lia|lia|]. cbn. rewrite nth_lookup, Hi. cbn. by rewrite Fj in Hh.
  - set (h1 := if fixed t then h else _). assert (hreg h1 = hreg h) as E1 by (subst h1; by destruct (fixed t)).
    rewrite <- E1. replace (nth (S j) gs 0) with (nth j (drop 1 gs) 0) by (by rewrite nth_drop).
    apply IH; [lia|done|]. intros i Hi Hij Hh. apply (Hn (S i)); [cbn; lia|lia|]. unfold home_of in *. cbn. by rewrite E1 in Hh.
Qed.

(** Two globals in memory are in different places. *)
Lemma homes_apart E B X L A v (h : hstate W) t u :
  bases_apart B -> rel E B X L A v h -> is_global t -> is_global u -> fixed t = false ->
  home_of h u (hreg h (mem_reg (T t))) (mem_offset (T t)) -> u = t.
Proof.
  intros HB Hr Gt Gu Ft (Fu & Ep & Eo).
  assert (forall x, is_global x -> fixed x = false -> is_base s tgt T (mem_reg (T x))) as Hb by (intros; right; right; eauto).
  rewrite !(rel_base _ _ _ _ _ _ _ _ _ _ Hr) in Ep by (apply (ly_base _ _ _ HL); auto).
  apply HB in Ep; [|by apply Hb..]. symmetry. by apply (ly_apart _ _ _ HL).
Qed.

Lemma global_index t : t ∈ globals s -> is_global t.
Proof. unfold globals. rewrite elem_of_seqZ. unfold TcgShape.is_global. lia. Qed.

Lemma rel_set_globals E B L D K A v v' (h : hstate W) gs :
  wf E -> bases_apart B -> inv L D K A -> rel E B [] L A v h -> (forall t, is_global t -> dead_temps L t = true) ->
  (forall t, is_global t -> fixed t = false -> veq s t (v' t) (nth (Z.to_nat t) gs 0)) ->
  (forall t, is_global t -> fixed t = true -> veq s t (v' t) (v t)) ->
  (forall t, valid t -> ~ is_global t -> v' t = v t) ->
  rel E B [] L A v' (set_globals s T h (globals s) gs).
Proof.
  intros HE HB HI Hr Hd Hg Hf Hv. destruct (set_globals_regs h (globals s) gs) as [Er _].
  assert (forall t, is_global t -> fixed t = false -> in_slot E B (set_globals s T h (globals s) gs) t (v' t)) as Hhome.
  { intros t Gt Ft b o Es. rewrite (wf_global _ _ _ E HE t Gt Ft) in Es. injection Es as <- <-.
    destruct (nth_globals t Gt) as [En Ln]. unfold veq in *. rewrite Hg by done.
    pose proof (set_globals_home h (globals s) gs (Z.to_nat t) Ln) as Hs. rewrite En in Hs.
    rewrite <- (rel_base _ _ _ _ _ _ _ _ _ _ Hr) by (apply (ly_base _ _ _ HL); right; right; eauto).
    apply Hs; [done|]. intros i Hi Hn Hh. apply Hn.
    assert (is_global (nth i (globals s) 0)) as Gi by (apply global_index, list_elem_of_In, nth_In; lia).
    apply (homes_apart E B [] L A v h t) in Hh; [|done..]. rewrite <- Hh.
    destruct (nth_globals _ Gi) as [E1 L1]. rewrite Hh. apply (NoDup_nth (globals s) 0); [apply NoDup_ListNoDup, NoDup_seqZ|done|done|congruence]. }
  split.
  - intros r Hres. rewrite Er. by apply (rel_base _ _ _ _ _ _ _ _ _ _ Hr).
  - intros t Vt Ft. assert (is_global t) as Gt.
    { unfold TcgHost.fixed in Ft. apply andb_true_iff in Ft as [Ft%Z.ltb_lt _]. unfold TcgRing.valid, TcgShape.is_global in *. lia. }
    unfold veq in *. rewrite Hf by done. by apply (rel_fixed _ _ _ _ _ _ _ _ _ _ Hr).
  - intros t Vt Ft _. destruct (decide (is_global t)) as [Gt|Gt].
    + unfold holds. rewrite (tk_dead _ _ _ _ _ _ (inv_tok _ _ _ _ _ _ _ HI t Vt Ft) (Hd t Gt)).
      rewrite dead_type_carried by (done || by left). intros _. by apply Hhome.
    + rewrite Hv by done. apply (holds_frame s E B L _ _ h).
      * apply (rel_temp _ _ _ _ _ _ _ _ _ _ Hr t Vt Ft). apply not_elem_of_nil.
      * by rewrite Er.
      * intros b o Es. apply set_globals_other. intros u Hu (Fu & Eb & Eo). pose proof (global_index u Hu) as Gu.
        rewrite (rel_base _ _ _ _ _ _ _ _ _ _ Hr) in Eb by (apply (ly_base _ _ _ HL); right; right; eauto).
        apply HB in Eb; [|by apply (slot_base s tgt T E t b o)|right; right; eauto]. subst b o.
        assert (valid u) as Vu by (by apply (global_valid s tgt T HL)). apply Gt.
        rewrite (slots_apart s tgt T HL E t u (mem_reg (T u)) (mem_offset (T u))); try done. by apply (wf_global _ _ _ E HE).
Qed.

(** *** What the call does *)
Lemma rel_call_results E B L A v v' (h : hstate W) outs rs xs :
  wf A -> rel E B [] L A v h -> (forall r, r ∈ rs -> reserved r = false /\ reg_to_temp A r = -1) ->
  (forall t, t ∈ outs -> fixed t = false) -> (forall t, t ∉ outs -> v' t = v t) -> rel E B outs L A v' (set_hregs h rs xs).
Proof.
  intros HA [R1 R2 R3] Hrs Hf Hv. split.
  - intros r Hr. rewrite (set_hregs_other h rs xs r); [by apply R1|]. intros Hin. destruct (Hrs r Hin). congruence.
  - intros t Vt Ft. rewrite Hv; [by apply R2|]. intros Hin. rewrite Hf in Ft by done. done.
  - intros t Vt Ft Xt. rewrite Hv by done. apply (holds_frame s E B L _ _ h); [apply R3; [done|done|apply not_elem_of_nil]| |].
    + intros Rt. apply (set_hregs_other h rs xs). intros Hin. destruct (Hrs _ Hin) as [_ Em].
      destruct (wf_reg _ _ _ A HA t Vt Ft Rt) as [E1 _]. rewrite Em in E1. by apply (valid_neq s t Vt).
    + intros b o _. by destruct (set_hregs_cell h rs xs) as [-> _].
Qed.

Section effect.
Context (l : list Z) (after st2 before : live_state) (da sa : Z) (D K : list Z) (A : alloc_state).
Context (HR : call_ready) (HC : call_case l after st2 before da sa D).
Context (Hh : host_ok host) (Hfix : helpers_keep_fixed).
Context (HI : inv st2 D K A) (Hfree : forall r, clobbered tgt r = true -> reg_to_temp A r = -1).
Context (E : alloc_state) (B : Z -> Z) (m : mstate W) (h : hstate W).
Context (HE : wf E) (HB : bases_apart B) (Hrel : rel E B [] st2 A (regs m) h) (Hw : world m = hworld h).
Notation outs := (call_outs l).
Notation flags := (call_flags l).

Definition called_m (g : list Z) (w : W) : mstate W :=
  if writes_globals flags then puts_typed s (mkState (regs m) w) (globals s) g else mkState (regs m) w.
Definition called_h (g : list Z) : hstate W :=
  if writes_globals flags then set_globals s T (clobber tgt junk h) (globals s) g else clobber tgt junk h.

Lemma clobbered_rel : rel E B [] st2 A (regs m) (clobber tgt junk h).
Proof.
  apply rel_clobber; [done|done|done|apply HI|done|]. intros t Vt Ft _ Rt. apply not_true_is_false. intros Hc.
  destruct (wf_reg _ _ _ A (inv_wf _ _ _ _ _ _ _ HI) t Vt Ft Rt) as [E1 _]. rewrite (Hfree _ Hc) in E1.
  by apply (valid_neq s t Vt).
Qed.

Lemma called_rel g w :
  (writes_globals flags = true -> forall t, is_global t -> fixed t = true -> veq s t (nth (Z.to_nat t) g 0) (regs m t)) ->
  rel E B [] st2 A (regs (called_m g w)) (called_h g).
Proof.
  intros Hf. unfold called_m, called_h. destruct (writes_globals flags) eqn:Hwr; [|apply clobbered_rel]. specialize (Hf eq_refl).
  assert (forall t, is_global t -> veq s t (regs (puts_typed s (mkState (regs m) w) (globals s) g) t) (nth (Z.to_nat t) g 0)) as Hg.
  { intros t Gt. destruct (nth_globals t Gt) as [En Ln].
    pose proof (puts_typed_at (mkState (regs m) w) (globals s) g (Z.to_nat t) (NoDup_seqZ _ _) Ln) as Hp. rewrite En in Hp.
    unfold veq. rewrite Hp. apply uwrap_min. pose proof (bits_nonneg (type s t)). lia. }
  apply (rel_set_globals E B st2 D K A (regs m)); try done.
  - apply clobbered_rel.
  - by apply (cc_writes _ _ _ _ _ _ _ HC).
  - auto.
  - intros t Gt Ft. unfold veq in *. by rewrite Hg, Hf.
  - intros t Vt Gt. rewrite puts_typed_other; [done|]. intros Hin. by apply Gt, global_index.
Qed.

Lemma seen_eq : reads_globals flags = true -> map (value s m) (globals s) = map (hglobal s T h) (globals s).
Proof.
  intros Hr. assert (left_agree s T m h) as [_ Ha].
  { apply (globals_agree s tgt T HL E B); [done|done|apply Hrel|apply Hrel|]. intros t Gt Ft.
    apply (mem_in_slot s tgt T E B [] st2 D K A); try done; [by apply (global_valid s tgt T HL)|apply not_elem_of_nil|].
    by apply (cc_reads _ _ _ _ _ _ _ HC). }
  apply map_ext_in. intros t Ht%list_elem_of_In. apply Ha. by apply global_index.
Qed.

Lemma call_effect_ok k func c :
  call_values tgt (map (type s) (call_ins l)) (call_regs l) func c h = map (fun t => uwrap (bits (type s t)) (regs m t)) (call_ins l) ->
  match exec_op s host k (mkOp op_call l) m,
    hexec s tgt T host junk (HCall flags (map (type s) (call_ins l)) (call_regs l) (length outs) func c) h with
  | Fall m1, HFall h1 => world m1 = hworld h1 /\ rel E B outs st2 A (regs m1) h1 /\
      forall j, (j < length outs)%nat -> veq s (nth j outs 0) (regs m1 (nth j outs 0)) (hreg h1 (nth j (tcg_target_call_oarg_regs tgt) 0))
  | Leave m1, HLeave h1 => left_agree s T m1 h1
  | _, _ => False
  end.
Proof.
  intros Hv. unfold exec_op, exec_call. cbn [opc args hexec]. unfold exec_hcall. rewrite Hv.
  change (map (fun t => uwrap (bits (type s t)) (regs m t)) (call_ins l)) with (map (value s m) (call_ins l)).
  assert ((if reads_globals flags then map (hglobal s T h) (globals s) else []) = if reads_globals flags then map (value s m) (globals s) else []) as ->.
  { pose proof seen_eq as Hs. destruct (reads_globals flags); [by rewrite Hs|done]. }
  rewrite <- Hw. set (seen := if reads_globals flags then _ else _). pose proof (Hfix flags (map (value s m) (call_ins l)) seen (world m)) as Hf.
  pose proof (ho_returns _ Hh flags (map (value s m) (call_ins l)) seen (world m)) as Hret.
  assert (forall g, (writes_globals flags = true -> forall t, is_global t -> fixed t = true -> veq s t (nth (Z.to_nat t) g 0) (nth (Z.to_nat t) seen 0)) ->
    writes_globals flags = true -> forall t, is_global t -> fixed t = true -> veq s t (nth (Z.to_nat t) g 0) (regs m t)) as Hfg.
  { intros g Hg Hwr t Gt Ft. specialize (Hg Hwr t Gt Ft). subst seen. rewrite (writes_reads flags Hwr) in Hg.
    destruct (nth_globals t Gt) as [En Ln]. unfold veq in *. rewrite Hg.
    rewrite (nth_indep _ 0 (value s m 0)) by (by rewrite length_map). rewrite map_nth.
    rewrite En. unfold value, opnd. apply uwrap_min. pose proof (bits_nonneg (type s t)). lia. }
  destruct (h_call host flags (map (value s m) (call_ins l)) seen (world m)) as [vs g w|g w] eqn:Eh.
  - fold (called_m g w) (called_h g). pose proof (called_rel g w (Hfg g (fun Hwr => Hf Hwr))) as R1.
    destruct (cl_oargs HR) as [Hnd Hor]. pose proof (cc_results _ _ _ _ _ _ _ HC) as Hlen.
    set (xs := map (fun i => nth i vs 0) (seq 0 (length outs))). set (rs := take (length outs) (tcg_target_call_oarg_regs tgt)).
    cbn [hworld set_world]. split; [|split].
    + unfold puts_typed. rewrite puts_world. unfold called_m. destruct (writes_globals flags); [|done]. unfold puts_typed. by rewrite puts_world.
    + apply rel_world, (rel_call_results E B st2 A (regs (called_m g w))); [apply HI|done| | |].
      * intros r (j & Hj)%list_elem_of_lookup. apply lookup_take_Some in Hj as [Hj _].
        assert (clobbered tgt r = true) as Hc by (apply Hor; by eapply list_elem_of_lookup_2).
        split; [by apply (ly_clobber _ _ _ HL)|by apply Hfree].
      * intros t Ht. by apply (cc_out _ _ _ _ _ _ _ HC).
      * intros t Ht. by apply puts_typed_other.
    + intros j Hj. change (hreg (set_world ?x ?y)) with (hreg x).
      rewrite puts_typed_at by (done || apply HC). unfold veq.
      assert (nth j (tcg_target_call_oarg_regs tgt) 0 = nth j rs 0) as -> by (subst rs; by rewrite nth_take).
      rewrite (set_hregs_nth (called_h g) rs xs j).
      * subst xs. rewrite nth_map_seq by done. apply uwrap_min. pose proof (bits_nonneg (type s (nth j outs 0))). lia.
      * subst rs. rewrite <- (take_drop (length outs) (tcg_target_call_oarg_regs tgt)) in Hnd. by apply NoDup_app in Hnd as [? _].
      * subst rs. rewrite length_take. lia.
      * subst rs xs. rewrite length_map, length_seq, length_take. lia.
  - fold (called_m g w) (called_h g). pose proof (called_rel g w (Hfg g (fun Hwr => Hf Hwr))) as R1.
    destruct (reads_globals flags) eqn:Hr; [|by destruct (Hret eq_refl) as (? & ? & ? & ?)].
    apply (globals_agree s tgt T HL E B); [done| |apply R1|apply R1|].
    + cbn. unfold called_m. destruct (writes_globals flags); [|done]. unfold puts_typed. by rewrite puts_world.
    + intros t Gt Ft. apply (mem_in_slot s tgt T E B [] st2 D K A (regs (called_m g w)) (called_h g)); try done.
      * by apply (global_valid s tgt T HL).
      * apply not_elem_of_nil.
      * by apply (cc_reads _ _ _ _ _ _ _ HC).
Qed.
End effect.

(** ** Behind the call *)
Section results.
Context (l : list Z) (da sa : Z).
Context (HR : call_ready).
Notation outs := (call_outs l).
Notation oreg j := (nth j (tcg_target_call_oarg_regs tgt) 0).
Context (Hnd : NoDup outs) (Hlen : (length outs <= length (tcg_target_call_oarg_regs tgt))%nat).
Context (Hout : forall t, t ∈ outs -> valid t /\ fixed t = false).

Definition step_state (j : nat) (L : live_state) : live_state := settled_at (arg outs j) (IS_DEAD_ARG da j) (NEED_SYNC_ARG sa j) L.

(** Results wait in their registers. *)
Record waiting (i : nat) (L : live_state) (A : alloc_state) : Prop := {
  wt_dead : forall j, (i <= j < length outs)%nat -> dead_temps L (arg outs j) = true /\ mem_temps L (arg outs j) = false;
  wt_free : forall j, (i <= j < length outs)%nat -> reg_to_temp A (oreg j) = -1;
}.
Definition delivered (i : nat) (v : Z -> Z) (h : hstate W) : Prop :=
  forall j, (i <= j < length outs)%nat -> veq s (arg outs j) (v (arg outs j)) (hreg h (oreg j)).

Record results_ok (i : nat) (L L' : live_state) (D' K' : list Z) (A A' : alloc_state) (es : list hinsn) (X X' : list Z) : Prop := {
  ro_inv : inv L' D' K' A';
  ro_extends : extends A A';
  ro_sim : forall E B v h, wf E -> extends A' E -> bases_apart B -> rel E B X L A v h -> delivered i v h ->
    exists h', hexecs es h = HFall h' /\ rel E B X' L' A' v h' /\ hworld h' = hworld h /\ forall r, hreg h' r = hreg h r;
}.

Lemma call_output_ok i L D K A :
  (i < length outs)%nat -> inv L D K A -> waiting i L A -> (NEED_SYNC_ARG sa i = true -> carried (arg outs i)) ->
  runs (call_output s tgt l da sa i) A (fun _ A' es =>
    results_ok i L (step_state i L) (arg outs i :: D) (without [arg outs i] K) A A' es (drop i outs) (drop (S i) outs) /\ waiting (S i) (step_state i L) A').
Proof.
  intros Hi HI [Hd Hf] Hs. set (t := arg outs i). set (r := oreg i).
  assert (t ∈ outs) as Hin by (apply list_elem_of_In, nth_In; done). destruct (Hout t Hin) as [Vt Ft].
  assert (drop i outs = t :: drop (S i) outs) as Ed.
  { apply drop_S. unfold t, arg. rewrite nth_lookup. by destruct (lookup_lt_is_Some_2 outs i Hi) as [x ->]. }
  destruct (cl_oargs HR) as [Hndr Hor].
  assert (forall j, (j < length outs)%nat -> clobbered tgt (oreg j) = true) as Hcl by (intros j Hj; apply Hor, list_elem_of_In, nth_In; lia).
  destruct (ly_clobber _ _ _ HL r (Hcl i Hi)) as [Hr1 Hr2].
  assert (room_reg tgt r) as Hroom by (split; [lia|done]).
  assert (reg_to_temp A r = -1) as Em by (apply Hf; lia).
  assert (forall j, (i < j < length outs)%nat -> arg outs j <> t /\ oreg j <> r) as Hne.
  { intros j Hj. split; intros E0.
    - assert (j = i); [|lia]. apply (proj1 (NoDup_nth outs 0)); [by apply NoDup_ListNoDup|lia|lia|exact E0].
    - assert (j = i); [|lia]. apply (proj1 (NoDup_nth (tcg_target_call_oarg_regs tgt) 0)); [by apply NoDup_ListNoDup|lia|lia|exact E0]. }
  unfold call_output, get_temp. fold t. apply runs_bind.
  assert (nth_error (tcg_target_call_oarg_regs tgt) i = Some r) as -> by (apply nth_error_nth'; lia).
  apply runs_ret. apply runs_bind, runs_gets. apply runs_bind, assert_run; [by apply Z.eqb_eq|]. apply runs_bind, runs_gets.
  rewrite (wf_fixed _ _ _ A (inv_wf _ _ _ _ _ _ _ HI) t Vt), Ft.
  apply runs_bind, forget_run. apply runs_bind, runs_modify. apply runs_bind, runs_modify.
  match goal with |- runs _ ?A2 _ => change A2 with (assign_in A t r); set (A1 := assign_in A t r) end.
  pose proof (assign_replaced A t r) as Hrep. fold A1 in Hrep.
  assert (forall K0, new_place tgt A t K0 (in_register r false (temps A t))) as HP by (intros K0; unfold new_place; cbn; auto).
  assert (same_slot (temps A t) (in_register r false (temps A t))) as HSl by done.
  assert (forall u, u ∈ K -> u <> t -> u ∈ without [t] K) as HK by (intros u Hu Hut; apply without_in; by rewrite list_elem_of_singleton).
  pose proof (assigned_inv s tgt T L D K _ A t _ A1 HI Vt Ft Hrep HSl (HP _) HK) as HI1.
  pose proof (replaced_extends s T A t _ A1 Hrep HSl) as X1.
  assert (temps A1 t = in_register r false (temps A t)) as Et by (by rewrite (rp_temp _ _ _ _ Hrep), Z.eqb_refl).
  destruct (written_self t L) as [Wd Wm].
  refine (runs_mono _ _ _ _ (finish_ok s tgt T HL host junk _ _ _ A1 t r _ _ HI1 Vt Ft _ _ Wd Wm Hs) _); [by rewrite Et|by rewrite Et|].
  intros _ A2 es2 (HW & Hmap & Ho). pose proof (wk_inv _ _ _ _ _ _ _ _ _ _ _ _ _ _ _ HW) as HI2.
  assert (shifted (settled_at t (IS_DEAD_ARG da i) (NEED_SYNC_ARG sa i) (written_at t L)) (step_state i L) (t :: D) (without [t] K) (t :: D) (without [t] K) A2 A2) as HS.
  { apply pointwise_shifted; [done|]. intros u _. unfold step_state. fold t. cbn. unfold bset. by destruct (Z.eqb_spec u t) as [->|]. }
  split; split.
  - apply HS.
  - apply (extends_trans s T A A1); [done|]. apply (extends_trans s T A1 A2); [apply HW|apply HS].
  - intros E B v h HE HX HB Hr Hdel. assert (extends A1 E) as HX1 by (apply (extends_trans s T A1 A2); [apply HW|done]).
    assert (rel E B (drop (S i) outs) (written_at t L) A1 v h) as R1.
    { apply (assigned_rel s tgt T E B (drop i outs) (drop (S i) outs) L A t _ A1 v v h h K (inv_wf _ _ _ _ _ _ _ HI) Hr Vt Ft Hrep (HP K)); try done.
      - intros _. unfold place_value. cbn. apply (Hdel i). lia.
      - intros u Hu Hn. rewrite Ed. by apply not_elem_of_cons. }
    destruct (wk_sim _ _ _ _ _ _ _ _ _ _ _ _ _ _ _ HW E B _ v h HE HX HB R1) as (h' & Eh & R2 & W2 & K2 & _).
    exists h'. split; [done|]. split; [by apply (sh_rel _ _ _ _ _ _ _ _ _ _ _ HS)|]. split; [done|]. intros x. by apply K2.
  - intros j Hj. destruct (Hne j) as [Hn _]; [lia|]. unfold step_state. fold t. cbn. unfold bset. rewrite (proj2 (Z.eqb_neq _ _) Hn). apply Hd. lia.
  - intros j Hj. destruct (Hne j) as [_ Hn]; [lia|]. destruct (Hmap (oreg j)) as [?| ->]; [done|].
    rewrite (rp_map _ _ _ _ Hrep). cbn [in_reg in_register]. change (reg (in_register r false (temps A t))) with r.
    rewrite (proj2 (Z.eqb_neq _ _) Hn), andb_false_r. rewrite Hf by lia. by destruct (in_reg _ && _).
Qed.

Lemma call_outputs_ok i n L D K A :
  (i + n = length outs)%nat -> inv L D K A -> waiting i L A ->
  (forall j, (i <= j < length outs)%nat -> NEED_SYNC_ARG sa j = true -> carried (arg outs j)) ->
  runs (each (call_output s tgt l da sa) (seq i n)) A (fun _ A' es =>
    results_ok i L (settle_all outs da sa (seq i n) L) (rev_append (drop i outs) D) (without (drop i outs) K) A A' es (drop i outs) []).
Proof.
  revert i L D K A. induction n as [|n IH]; intros i L D K A Hi HI Hwt Hs; cbn [seq each settle_all].
  - go. rewrite drop_ge by lia. split; [|apply extends_refl|].
    { apply (inv_fewer s tgt T (W := W) L D D K); [done|done|]. intros u Hu. apply without_in. split; [apply not_elem_of_nil|done]. }
    intros E B v h HE HX HB Hr _. by exists h.
  - apply runs_bind. refine (runs_mono _ _ _ _ (call_output_ok i L D K A _ HI Hwt _) _); [lia|apply Hs; lia|].
    intros _ A1 es1 [[I1 X1 S1] Hwt1].
    refine (runs_mono _ _ _ _ (IH (S i) (step_state i L) _ _ A1 _ I1 Hwt1 _) _); [lia|intros j Hj; apply Hs; lia|].
    intros _ A2 es2 [I2 X2 S2].
    assert (drop i outs = arg outs i :: drop (S i) outs) as Ed.
    { apply drop_S. unfold arg. rewrite nth_lookup. by destruct (lookup_lt_is_Some_2 outs i) as [x ->]; [lia|]. }
    split; [|by apply (extends_trans s T A A1)|].
    { rewrite Ed. refine (inv_fewer s tgt T (W := W) _ _ _ _ _ _ I2 (fun u H => H) _). intros u [H1 [H2 H3]%without_in]%without_in.
      apply without_in. rewrite not_elem_of_cons. rewrite list_elem_of_singleton in H2. done. }
    intros E B v h HE HX HB Hr Hdel.
    assert (extends A1 E) as HX1 by (by apply (extends_trans s T A1 A2)).
    destruct (S1 E B v h HE HX1 HB Hr Hdel) as (h1 & E1 & R1 & W1 & K1).
    destruct (S2 E B v h1 HE HX HB R1) as (h2 & E2 & R2 & W2 & K2).
    { intros j Hj. rewrite K1. apply Hdel. lia. }
    exists h2. rewrite (hexecs_then s tgt T host junk es1 h h1) by done. split; [done|]. split; [done|]. split; [congruence|].
    intros r. by rewrite K2, K1.
Qed.
End results.

(** *** From the arguments to the results *)
Section entry.
Context (l : list Z) (after st2 before : live_state) (da sa : Z) (D K : list Z).
Context (HR : call_ready) (HC : call_case l after st2 before da sa D).
Notation outs := (call_outs l).
Notation gone := (outs_gone outs after).

Lemma outs_seq : map (arg outs) (seq 0 (length outs)) = outs.
Proof. rewrite <- (args_seq 0) by lia. by rewrite firstn_all. Qed.

Lemma call_synced j : (j < length outs)%nat -> NEED_SYNC_ARG sa j = true -> carried (arg outs j).
Proof.
  intros Hj. destruct (om_out _ _ _ _ _ _ _ _ (cc_marks _ _ _ _ _ _ _ HC) j Hj) as [_ ->].
  apply (cc_mem_after _ _ _ _ _ _ _ HC). apply (cc_out _ _ _ _ _ _ _ HC). apply list_elem_of_In, nth_In. done.
Qed.

Lemma results_start A :
  inv st2 D K A -> (forall r, clobbered tgt r = true -> reg_to_temp A r = -1) ->
  shifted st2 gone D K D K A A /\ waiting l 0 gone A.
Proof.
  intros HI Hf. split; [apply weaker_shifted; [done|apply HC]|]. pose proof (cc_results _ _ _ _ _ _ _ HC) as Hlen. split.
  - intros j Hj. cbn. rewrite bool_decide_true; [done|]. apply list_elem_of_In, nth_In. lia.
  - intros j Hj. apply Hf. apply (cl_oargs HR). apply list_elem_of_In, nth_In. lia.
Qed.

Lemma call_settled t :
  dead_temps after t = dead_temps (settle_all outs da sa (seq 0 (length outs)) gone) t /\
  mem_temps after t = mem_temps (settle_all outs da sa (seq 0 (length outs)) gone) t.
Proof.
  assert (NoDup (map (arg outs) (seq 0 (length outs)))) as Hn by (rewrite outs_seq; apply HC).
  destruct (settle_all_spec outs da sa (seq 0 (length outs)) gone t Hn) as [H1 H2]. rewrite outs_seq in H1.
  destruct (decide (t ∈ outs)) as [Hin|Hout].
  - rewrite <- outs_seq in Hin. apply list_elem_of_fmap in Hin as (j & Et & Hj). destruct (H2 j Hj Et) as [-> ->].
    apply elem_of_seq in Hj. destruct (om_out _ _ _ _ _ _ _ _ (cc_marks _ _ _ _ _ _ _ HC) j) as [-> ->]; [lia|]. by rewrite Et.
  - destruct (H1 Hout) as [-> ->]. cbn. by rewrite bool_decide_false.
Qed.

Lemma call_entry func c A A5 A6 es es6 :
  host_ok host -> helpers_keep_fixed -> at_call l st2 before D K func c A A5 es ->
  results_ok l 0 gone (settle_all outs da sa (seq 0 (length outs)) gone) (rev_append outs D) (without outs K) A5 A6 es6 outs [] ->
  entry_ok (mkOp op_call l) before after D K (outs ++ D) (without outs K) A A6
    (es ++ HCall (call_flags l) (map (type s) (call_ins l)) (call_regs l) (length outs) func c :: es6).
Proof.
  intros Hh Hfix [I5 X5 Hfree S5] [I6 X6 S6].
  assert (shifted (settle_all outs da sa (seq 0 (length outs)) gone) after (rev_append outs D) (without outs K) (outs ++ D) (without outs K) A6 A6) as HSf.
  { pose proof (pointwise_shifted s tgt T (W := W) _ after _ _ A6 I6 (fun t _ => call_settled t)) as HS.
    eapply (shifted_trans s tgt T); [exact HS|]. apply fewer_shifted; [apply HS| |done].
    intros t Ht. rewrite rev_append_rev. apply elem_of_app. apply elem_of_app in Ht as [Ht|Ht]; [left|by right].
    apply list_elem_of_In, in_rev. rewrite rev_involutive. by apply list_elem_of_In. }
  destruct (results_start A5 I5 Hfree) as [HS _].
  split; [apply HSf|by apply (extends_trans s T A A5)|]. intros E B k m h HE HX HB Hr Hw.
  assert (extends A5 E) as HX5 by (by apply (extends_trans s T A5 A6)).
  destruct (S5 E B (regs m) h HE HX5 HB Hr) as (h5 & E5 & R5 & W5 & V5). rewrite <- W5 in Hw.
  pose proof (call_effect_ok l after st2 before da sa D K A5 HR HC Hh Hfix I5 Hfree E B m h5 HE HB R5 Hw k func c V5) as He.
  rewrite (hexecs_then s tgt T host junk es h h5) by done. cbn [TcgHost.hexecs].
  destruct (exec_op s host k (mkOp op_call l) m) as [m1|lb m1|m1|];
    destruct (hexec s tgt T host junk (HCall _ _ _ _ func c) h5) as [h1|lb1 h1|h1|]; try done.
  destruct He as (W1 & R1 & Hdel).
  assert (rel E B outs gone A5 (regs m1) h1) as R1' by (by apply (sh_rel _ _ _ _ _ _ _ _ _ _ _ HS)).
  destruct (S6 E B (regs m1) h1 HE HX HB R1') as (h6 & E6 & R6 & W6 & _).
  { intros j Hj. apply Hdel. lia. }
  cbn [TcgSim.outcome_ok]. rewrite E6. split; [congruence|]. by apply (sh_rel _ _ _ _ _ _ _ _ _ _ _ HSf).
Qed.
End entry.

(** A callee that may write the globals leaves none of them a constant. *)
Definition call_constants (l : list Z) (K : list Z) : list Z :=
  if writes_globals (call_flags l) then filter (fun t => ~ is_global t) K else K.

Lemma at_call_constants l after st2 before da sa D K func c A A' es :
  call_case l after st2 before da sa D -> at_call l st2 before D K func c A A' es ->
  at_call l st2 before D (call_constants l K) func c A A' es.
Proof.
  intros HC [HI ? ? ?]. split; try done. unfold call_constants. destruct (writes_globals (call_flags l)) eqn:Ew; [|done].
  split; [apply HI|]. intros t Vt Ft. destruct (inv_tok _ _ _ _ _ _ _ HI t Vt Ft) as [H1 H2 H3 H4 H5]. split; try done.
  intros Ec. apply list_elem_of_filter. split; [|by apply H5]. intros Gt.
  pose proof (H1 (cc_writes _ _ _ _ _ _ _ HC Ew t Gt)) as E. rewrite Ec in E. unfold dead_type in E. by destruct (_ || _).
Qed.

Theorem tcg_reg_alloc_call_ok l after st2 before da sa D K A :
  host_ok host -> helpers_keep_fixed -> nb_temps s <= TCG_MAX_TEMPS -> call_ready -> call_case l after st2 before da sa D ->
  inv before D K A ->
  runs (tcg_reg_alloc_call s tgt l da sa) A
    (fun _ A' es => entry_ok (mkOp op_call l) before after D K (call_outs l ++ D) (without (call_outs l) (call_constants l K)) A A' es).
Proof.
  intros Hh Hfix Hm HR HC HI. unfold tcg_reg_alloc_call. cbv zeta. fold (call_params l) (call_regs l).
  apply runs_bind. apply (runs_mono _ _ (fun _ A' es => A' = A /\ es = [])).
  { apply runs_when; intros Hs; [|done]. apply Z.ltb_lt in Hs. pose proof (cc_stack _ _ _ _ _ _ _ HC). lia. }
  intros _ A0 es0 [-> ->].
  apply (runs_assoc (stack_args s tgt (TCG_TARGET_CALL_STACK_OFFSET tgt) (drop (call_regs l) (call_params l)))).
  apply runs_assoc. apply runs_bind.
  refine (runs_mono _ _ _ _ (arguments_ok l after st2 before da sa D K HR HC Hm A HI) _). intros r A3 es3 (x & c & R' & -> & HP).
  apply (runs_assoc (kill_dead _ _ _ _)). apply runs_bind. apply (saved_ok l after st2 before da sa D K HR HC x c A A3 es3); [done|].
  intros A5 es5 HA0. pose proof (at_call_constants l after st2 before da sa D K x c A A5 _ HC HA0) as HA. pose proof (globals_saved l after st2 before da sa D (call_constants l K) HC x c A A5 _ HA) as Hg.
  apply runs_bind. exists tt, A5, []. split; [exact Hg|]. apply runs_bind, runs_emit.
  destruct (results_start l after st2 before da sa D (call_constants l K) HR HC A5 (ac_inv _ _ _ _ _ _ _ _ _ _ HA) (ac_free _ _ _ _ _ _ _ _ _ _ HA)) as [HS Hwt].
  refine (runs_mono _ _ _ _ (call_outputs_ok l da sa HR (cc_nodup _ _ _ _ _ _ _ HC) (cc_results _ _ _ _ _ _ _ HC)
    (cc_out _ _ _ _ _ _ _ HC) 0 (length (call_outs l)) (outs_gone (call_outs l) after) D (call_constants l K) A5 eq_refl (sh_inv _ _ _ _ _ _ _ _ _ _ _ HS) Hwt _) _).
  { intros j Hj Hs. apply (call_synced l after st2 before da sa D HC j); [lia|done]. }
  intros _ A6 es6 HO. rewrite !app_nil_l, (app_assoc es3).
  destruct (call_entry l after st2 before da sa D (call_constants l K) HR HC x c A A5 A6 (es3 ++ es5) es6 Hh Hfix HA HO). by split.
Qed.
End sim.
End TcgSimCall.
