(* ===== verification/TcgMarks.v ===== *)
(** What the liveness pass tells the register allocator: for every operation it
    leaves, the marks of its arguments and the states in front of and behind
    it. *)
From Stdlib Require Import ZArith Lia Bool.
From stdpp Require Import base numbers list sets.
From S2P Require Import Prelude HostUtils TcgOp TcgOpt TcgRing TcgArith TcgSem TcgBits TcgSound TcgStep TcgProg TcgShape TcgLive TcgReg TcgHost TcgMeaning TcgPlace TcgMove TcgAlloc TcgSim.
Local Open Scope Z_scope.

Module TcgMarks.
Import Tcg TcgOpt TcgRing TcgArith TcgSem TcgBits TcgSound TcgStep TcgProg TcgShape TcgLive TcgReg TcgHost TcgMeaning TcgPlace TcgMove TcgAlloc TcgSim.

Section marks.
Context (s : TCGContext) (has_high : binop -> width -> bool).
Hypothesis (Hg : 0 <= nb_globals s <= nb_temps s).
Hypothesis (Hm : nb_temps s <= TCG_MAX_TEMPS).
Notation valid := (valid s).
Notation is_global := (is_global s).
Notation carried := (carried s).

(** ** The states *)
Lemma la_outs_mem i ts da sa st t : mem_temps (la_outs i ts da sa st).2 t = negb (bool_decide (t ∈ ts)) && mem_temps st t.
Proof.
  revert i da sa st. induction ts as [|u ts IH]; intros i da sa st; cbn [la_outs]; [done|]. rewrite IH. cbn. unfold bset.
  destruct (Z.eqb_spec t u) as [->|].
  - rewrite (bool_decide_true (u ∈ u :: ts)) by (by left). by rewrite andb_false_r.
  - do 2 f_equal. apply bool_decide_ext. rewrite elem_of_cons. tauto.
Qed.

Lemma la_ins_state i ts da st t :
  dead_temps (la_ins i ts da st).2 t = negb (bool_decide (t ∈ ts)) && dead_temps st t /\
  mem_temps (la_ins i ts da st).2 t = mem_temps st t.
Proof.
  revert i da st. induction ts as [|u ts IH]; intros i da st; cbn [la_ins]; [done|].
  destruct (IH (S i) (mark16 (dead_temps st u) da i) (mkLive (bset (dead_temps st) u false) (mem_temps st))) as [-> ->]. split; [|done].
  cbn. unfold bset. destruct (Z.eqb_spec t u) as [->|].
  - rewrite (bool_decide_true (u ∈ u :: ts)) by (by left). by rewrite andb_false_r.
  - do 2 f_equal. apply bool_decide_ext. rewrite elem_of_cons. tauto.
Qed.

(** What is in memory is what a basic block hands on. *)
Definition mem_carried (st : live_state) : Prop := forall t, valid t -> mem_temps st t = true -> carried t.

Lemma outs_gone_state i ts da sa st t :
  dead_temps (la_outs i ts da sa st).2 t = dead_temps (outs_gone ts st) t /\
  mem_temps (la_outs i ts da sa st).2 t = mem_temps (outs_gone ts st) t.
Proof. rewrite la_outs_dead, la_outs_mem. done. Qed.

(** Behind the outputs: the end of a block, an effect, or nothing. *)
Definition staged (bb side : bool) (st : live_state) : live_state :=
  if bb then tcg_la_bb_end s st else if side then TcgLive.sync_globals s st else st.

Record stage_ok (bb side : bool) (outs : list Z) (after st2 : live_state) : Prop := {
  so_weaker : weaker s st2 (outs_gone outs after);
  so_mem : mem_carried st2;
  so_end : bb = true -> forall t, valid t -> dead_temps st2 t = true /\ (carried t -> mem_temps st2 t = true);
  so_side : side = true -> bb = false -> forall t, is_global t -> mem_temps st2 t = true;
}.

Lemma bb_end_state st t : valid t ->
  dead_temps (tcg_la_bb_end s st) t = true /\ (mem_temps (tcg_la_bb_end s st) t = true <-> carried t).
Proof.
  intros [H1 H2]. cbn. split; [by apply memset_in|]. unfold TcgShape.carried, TcgShape.is_global.
  destruct (Z.leb_spec (nb_globals s) t) as [H3|H3]; cbn [andb].
  - rewrite (proj2 (Z.ltb_lt t (nb_temps s))) by done. split; [by right|]. intros [?|?]; [lia|done].
  - rewrite memset_in by lia. split; [left; lia|done].
Qed.

Section stage.
Context (outs : list Z) (after st1 : live_state).
Context (Hs : forall t, dead_temps st1 t = dead_temps (outs_gone outs after) t /\ mem_temps st1 t = mem_temps (outs_gone outs after) t).

Lemma stage_end side : (forall t, valid t -> live after t -> carried t) -> stage_ok true side outs after (tcg_la_bb_end s st1).
Proof.
  intros Hl. pose proof (bb_end_state st1) as Hb. split; [split| | |done].
  - intros t Ht _. by apply Hb.
  - intros t Ht _. cbn. destruct (bool_decide (t ∈ outs)); [by left|]. cbn.
    destruct (dead_temps after t) eqn:E; [by left|]. right. apply Hl; [done|]. by left.
  - intros t Ht Hmt. apply Hb; [done|]. cbn in Hmt. apply andb_true_iff in Hmt as [_ Hmt]. apply Hl; [done|]. by right.
  - intros t Ht Hlt. right. apply Hb; [done|]. apply Hl; [done|]. unfold live in *. cbn in Hlt.
    destruct (bool_decide (t ∈ outs)); cbn in Hlt; intuition congruence.
  - intros t Ht Hmt. by apply (Hb t Ht).
  - intros _ t Ht. split; [by apply Hb|]. intros Hc. by apply Hb.
Qed.

Lemma stage_side : mem_carried after -> stage_ok false true outs after (TcgLive.sync_globals s st1).
Proof.
  intros Hc. assert (forall t, is_global t -> mem_temps (TcgLive.sync_globals s st1) t = true) as Hin
    by (intros t Ht; by apply memset_in).
  assert (forall t, ~ is_global t -> mem_temps (TcgLive.sync_globals s st1) t = mem_temps (outs_gone outs after) t) as Hout.
  { intros t Gt. cbn. rewrite memset_out by done. apply Hs. }
  split; [split| | |by auto]; try done.
  - intros t Ht Hd. cbn. destruct (Hs t) as [-> _]. done.
  - intros t Ht Hd. left. cbn in Hd. by destruct (Hs t) as [<- _].
  - intros t Ht Hmt. destruct (decide (is_global t)) as [Gt|Gt]; [by apply Hin|by rewrite Hout].
  - intros t Ht [Hd|Hmt]; [left; cbn; by destruct (Hs t) as [-> _]|]. right.
    destruct (decide (is_global t)) as [Gt|Gt]; [by apply Hin|by rewrite Hout].
  - intros t Ht Hmt. destruct (decide (is_global t)) as [Gt|Gt]; [by left|]. rewrite Hout in Hmt by done.
    apply Hc; [done|]. cbn in Hmt. by apply andb_true_iff in Hmt as [_ ?].
Qed.

Lemma stage_plain : mem_carried after -> stage_ok false false outs after st1.
Proof.
  intros Hc. split; [split|..]; try done.
  - intros t _. by destruct (Hs t) as [-> _].
  - intros t _. destruct (Hs t) as [-> _]. by left.
  - intros t _. by destruct (Hs t) as [_ ->].
  - intros t _. unfold live. by destruct (Hs t) as [-> ->].
  - intros t Ht Hmt. destruct (Hs t) as [_ E]. rewrite E in Hmt. cbn in Hmt. apply Hc; [done|]. by apply andb_true_iff in Hmt as [_ ?].
Qed.

Lemma staged_ok bb side :
  mem_carried after -> (bb = true -> forall t, valid t -> live after t -> carried t) -> stage_ok bb side outs after (staged bb side st1).
Proof.
  intros Hc Hl. unfold staged. destruct bb; [by apply stage_end, Hl|]. destruct side; [by apply stage_side|by apply stage_plain].
Qed.
End stage.

(** ** The marks *)
Lemma marks_of outs ins after (f : live_state -> live_state) st2 da sa before :
  (length outs <= 8)%nat -> (length outs + length ins <= 16)%nat -> NoDup outs ->
  let r1 := la_outs 0 outs 0 0 after in
  st2 = f r1.2 -> (da, before) = la_ins (length outs) ins r1.1.1 st2 -> sa = r1.1.2 ->
  op_marks s outs ins after st2 before da sa.
Proof.
  intros Ho Hi Hnd r1 E2 Ei ->.
  destruct (la_outs_bits 0 outs 0 0 after) as (F1 & _ & Hob); [lia|by apply fits_0; lia|by apply fits_0; lia|]. fold r1 in F1, Hob.
  destruct (la_ins_bits (length outs) ins r1.1.1 st2 Hi F1) as [Hlow Hib]. rewrite <- Ei in Hlow, Hib. cbn [fst] in Hlow, Hib.
  pose proof (fun t => la_ins_state (length outs) ins r1.1.1 st2 t) as Hst. rewrite <- Ei in Hst. cbn [snd] in Hst.
  split.
  - intros t Ht. destruct (Hst t) as [-> ->]. split; [done|]. rewrite andb_true_iff, negb_true_iff, bool_decide_eq_false. tauto.
  - intros j Hj. destruct (Hob j Hj) as [H1 H2]. cbn [Nat.add] in H1, H2. unfold IS_DEAD_ARG, NEED_SYNC_ARG.
    rewrite Hlow, H1, H2 by done. rewrite !Z.bits_0. cbn [orb].
    assert (arg outs j ∉ take j outs) as Hn.
    { intros (k & Hk)%list_elem_of_lookup. apply lookup_take_Some in Hk as [Hk Lk].
      assert (outs !! j = Some (arg outs j)) as Ej by (unfold arg; rewrite nth_lookup; by destruct (lookup_lt_is_Some_2 outs j Hj) as [x ->]).
      pose proof (NoDup_lookup outs k j _ Hnd Hk Ej). lia. }
    rewrite bool_decide_false, bool_decide_true, andb_true_r, orb_false_r by done. done.
  - intros j Hj. unfold IS_DEAD_ARG. rewrite Hib by done.
    assert (Z.testbit r1.1.1 (Z.of_nat (length outs + j)) = false) as ->.
    { destruct (la_outs_bits 0 outs 0 0 after) as (_ & Hout & _); [lia|by apply fits_0; lia|by apply fits_0; lia|]. fold r1 in Hout.
      destruct (Hout (length outs + j)%nat) as [-> _]; [lia|]. apply Z.bits_0. }
    cbn [orb]. by rewrite andb_comm.
Qed.

(** An operation that stays, with its marks. *)
Record marked_op (bb side : bool) (outs ins : list Z) (x : option (Z * Z)) (after before : live_state) : Prop := {
  mo_marks : exists da sa st2, x = Some (da, sa) /\ op_marks s outs ins after st2 before da sa /\ stage_ok bb side outs after st2;
}.

Lemma do_not_remove_marks op no ni def l q after :
  (no <= 8)%nat -> (no + ni <= 16)%nat -> (no + ni <= length l)%nat -> NoDup (take no l) -> mem_carried after ->
  (TCG_OPF_BB_END def = true -> forall t, valid t -> live after t -> carried t) ->
  exists x before, do_not_remove s op no ni def l q after = ((mkOp op l, x) :: q, before) /\
    marked_op (TCG_OPF_BB_END def) (TCG_OPF_SIDE_EFFECTS def) (take no l) (take ni (drop no l)) x after before.
Proof.
  intros Hno Hni Hl Hnd Hc Hb. unfold do_not_remove.
  assert (length (take no l) = no) as Lo by (rewrite length_take; lia).
  assert (length (take ni (drop no l)) = ni) as Li by (rewrite length_take, length_drop; lia).
  pose proof (marks_of (take no l) (take ni (drop no l)) after (staged (TCG_OPF_BB_END def) (TCG_OPF_SIDE_EFFECTS def))) as Hmk.
  pose proof (fun t => outs_gone_state 0 (take no l) 0 0 after t) as Hg1. rewrite Lo, Li in Hmk.
  destruct (la_outs 0 (take no l) 0 0 after) as [[da sa] st1] eqn:E1. cbn [fst snd] in *.
  change (if TCG_OPF_BB_END def then tcg_la_bb_end s st1 else if TCG_OPF_SIDE_EFFECTS def then TcgLive.sync_globals s st1 else st1)
    with (staged (TCG_OPF_BB_END def) (TCG_OPF_SIDE_EFFECTS def) st1).
  destruct (la_ins no (take ni (drop no l)) da (staged (TCG_OPF_BB_END def) (TCG_OPF_SIDE_EFFECTS def) st1)) as [da' before] eqn:E2.
  exists (Some (da', sa)), before. split; [done|]. split. exists da', sa, (staged (TCG_OPF_BB_END def) (TCG_OPF_SIDE_EFFECTS def) st1).
  split; [done|]. split.
  - by apply (Hmk _ da' sa before).
  - by apply (staged_ok (take no l) after st1).
Qed.

Record marked_call (l : list Z) (x : option (Z * Z)) (after before : live_state) : Prop := {
  mc_marks : exists da sa st2, x = Some (da, sa) /\ op_marks s (call_outs l) (call_ins l) after st2 before da sa /\
    weaker s st2 (outs_gone (call_outs l) after) /\ mem_carried st2 /\
    (reads_globals (call_flags l) = true -> forall t, is_global t -> mem_temps st2 t = true) /\
    (writes_globals (call_flags l) = true -> forall t, is_global t -> dead_temps st2 t = true);
}.

Lemma la_call_ins_eq i ts da st : Forall valid ts -> la_call_ins i ts da st = la_ins i ts da st.
Proof.
  intros Hv. revert i da st. induction Hv as [|u ts Hu _ IH]; intros i da st; [done|]. cbn. rewrite <- IH.
  destruct (Z.eqb_spec u TCG_CALL_DUMMY_ARG) as [->|]; [|done].
  destruct Hu as [_ Hu]. unfold TCG_MAX_TEMPS in *. change TCG_CALL_DUMMY_ARG with (2 ^ 64 - 1) in Hu. lia.
Qed.

(** Globals in front of a call. *)
Definition call_stage (flags : Z) (st : live_state) : live_state :=
  let st := if negb (nz (Z.land flags TCG_CALL_NO_READ_GLOBALS)) then TcgLive.sync_globals s st else st in
  if negb (nz (Z.land flags (Z.lor TCG_CALL_NO_WRITE_GLOBALS TCG_CALL_NO_READ_GLOBALS))) then kill_globals s st else st.

Lemma call_stage_ok flags outs after st1 :
  (forall t, dead_temps st1 t = dead_temps (outs_gone outs after) t /\ mem_temps st1 t = mem_temps (outs_gone outs after) t) ->
  mem_carried after ->
  weaker s (call_stage flags st1) (outs_gone outs after) /\ mem_carried (call_stage flags st1) /\
  (reads_globals flags = true -> forall t, is_global t -> mem_temps (call_stage flags st1) t = true) /\
  (writes_globals flags = true -> forall t, is_global t -> dead_temps (call_stage flags st1) t = true).
Proof.
  intros Hs Hc. unfold call_stage. rewrite (Z.lor_comm TCG_CALL_NO_WRITE_GLOBALS), <- (call_flag_bits s Hg).
  fold (reads_globals flags). pose proof (writes_reads flags) as Hwr.
  destruct (reads_globals flags) eqn:Hr.
  2:{ destruct (writes_globals flags); [by specialize (Hwr eq_refl)|]. pose proof (stage_plain outs after st1 Hs Hc) as [? ? _ _]. done. }
  pose proof (stage_side outs after st1 Hs Hc) as [[W1 W2 W3 W4] Hc2 _ Hm2]. specialize (Hm2 eq_refl eq_refl).
  destruct (writes_globals flags) eqn:Hw; [|by split].
  assert (forall t, is_global t -> dead_temps (kill_globals s (TcgLive.sync_globals s st1)) t = true) as Hin
    by (intros t Ht; by apply memset_in).
  assert (forall t, ~ is_global t -> dead_temps (kill_globals s (TcgLive.sync_globals s st1)) t = dead_temps (TcgLive.sync_globals s st1) t) as Hout
    by (intros t Gt; by apply memset_out).
  split; [split|]; try done.
  - intros t Ht Hd. destruct (decide (is_global t)) as [Gt|Gt]; [by apply Hin|]. rewrite Hout by done. by apply W1.
  - intros t Ht Hd. destruct (decide (is_global t)) as [Gt|Gt]; [right; by left|]. rewrite Hout in Hd by done. by apply W2.
  - intros t Ht Hlt. apply kill_live; [done|]. by apply W4.
Qed.

Lemma la_call_marks l q after :
  framed s (mkOp op_call l) -> NoDup (call_outs l) -> (length (call_outs l) <= 8)%nat ->
  (length (call_outs l) + length (call_ins l) <= 16)%nat -> mem_carried after ->
  (exists n, la_call s l q after = ((tcg_set_nop l n, None) :: q, after) /\ forallb (unused after) (call_outs l) = true /\
     writes_globals (call_flags l) = false) \/
  exists x before, la_call s l q after = ((mkOp op_call l, x) :: q, before) /\ marked_call l x after before.
Proof.
  intros Hf Hnd Hno Hni Hc. unfold la_call. destruct (_ && _) eqn:E.
  { left. apply andb_true_iff in E as [Es E]. eexists. split; [done|]. split; [done|]. by apply Hf. }
  right. pose proof (call_ins_valid s l Hf) as Hin.
  pose proof (marks_of (call_outs l) (call_ins l) after (call_stage (call_flags l))) as Hmk.
  pose proof (fun t => outs_gone_state 0 (call_outs l) 0 0 after t) as Hg1.
  destruct (la_outs 0 (call_outs l) 0 0 after) as [[da sa] st1] eqn:E1. cbn [fst snd] in *.
  change (if negb (nz (Z.land (call_flags l) (Z.lor _ _))) then _ else _) with (call_stage (call_flags l) st1).
  rewrite la_call_ins_eq by done.
  destruct (la_ins (length (call_outs l)) (call_ins l) da (call_stage (call_flags l) st1)) as [da' before] eqn:E2.
  exists (Some (da', sa)), before. split; [done|]. split. exists da', sa, (call_stage (call_flags l) st1).
  split; [done|]. split; [by apply (Hmk _ da' sa before)|]. by apply call_stage_ok.
Qed.

(** ** What is left of an operation *)

(** A double-word operation and its single word. *)
Inductive narrowed : TCGOpcode -> TCGOpcode -> Prop :=
| narrowed_add w : narrowed (op_add2 w) (op_bin Badd w)
| narrowed_sub w : narrowed (op_sub2 w) (op_bin Bsub w)
| narrowed_mulu w : narrowed (op_mulu2 w) (op_bin Bmul w)
| narrowed_muls w : narrowed (op_muls2 w) (op_bin Bmul w)
| narrowed_muluh w : has_high Bmuluh w = true -> narrowed (op_mulu2 w) (op_bin Bmuluh w)
| narrowed_mulsh w : has_high Bmulsh w = true -> narrowed (op_muls2 w) (op_bin Bmulsh w).

Definition kept_op (op : TCGOpcode) : bool :=
  match op with op_nop | op_nopn | op_debug_insn_start | op_discard | op_call => false | _ => true end.

Inductive left_of (i : TCGOp) (after before : live_state) : TCGOp -> option (Z * Z) -> Prop :=
| left_gone i' x :
    opc i' = op_nop \/ opc i' = op_nopn -> bb_end i = false -> opc i <> op_set_label -> before = after ->
    (forall t, t ∈ outputs i -> ~ live after t) ->
    (opc i = op_call -> writes_globals (call_flags (args i)) = false) -> left_of i after before i' x
| left_debug x : opc i = op_debug_insn_start -> before = after -> left_of i after before i x
| left_discard x :
    opc i = op_discard -> ~ live after (arg (args i) 0) ->
    before = mkLive (bset (dead_temps after) (arg (args i) 0) true) (bset (mem_temps after) (arg (args i) 0) false) ->
    left_of i after before i x
| left_call x : opc i = op_call -> marked_call (args i) x after before -> left_of i after before i x
| left_kept x :
    kept_op (opc i) = true ->
    marked_op (bb_end i) (TCG_OPF_SIDE_EFFECTS (tcg_op_defs (opc i))) (outputs i) (inputs i) x after before ->
    (TCG_OPF_SIDE_EFFECTS (tcg_op_defs (opc i)) = false -> outputs i <> [] -> exists t, t ∈ outputs i /\ live after t) ->
    left_of i after before i x
| left_narrow op keep u v x :
    narrowed (opc i) op -> keep ∈ outputs i -> u ∈ inputs i -> v ∈ inputs i ->
    (forall t, t ∈ outputs i -> live after t -> t = keep) -> live after keep ->
    marked_op false false [keep] [u; v] x after before -> left_of i after before (mkOp op [keep; u; v]) x.

(** An operation without effects whose outputs nobody reads goes. *)
Lemma not_unused after ts : forallb (unused after) ts = false -> exists t, t ∈ ts /\ live after t.
Proof.
  induction ts as [|u ts IH]; [done|]. cbn. destruct (unused after u) eqn:E; cbn.
  - intros (t & Ht & Hl)%IH. exists t. split; [by right|done].
  - intros _. exists u. split; [by left|]. unfold unused in E. unfold live. destruct (dead_temps after u); [|by left].
    right. by destruct (mem_temps after u).
Qed.

Lemma sizes op : (nb_oargs (tcg_op_defs op) <= 8)%nat /\ (nb_oargs (tcg_op_defs op) + nb_iargs (tcg_op_defs op) <= 16)%nat.
Proof. destruct op; cbn; try lia; destruct b; cbn; lia. Qed.

Lemma outputs_no_end op l : negb (nb_oargs (tcg_op_defs op) =? 0)%nat = true -> bb_end (mkOp op l) = false.
Proof. destruct op; try done. by destruct b. Qed.

Section one.
Context (after : live_state) (Hc : mem_carried after).

Lemma stays_marked op l q :
  op <> op_call -> length l = nb_args (tcg_op_defs op) -> NoDup (outputs (mkOp op l)) ->
  (bb_end (mkOp op l) = true -> forall t, valid t -> live after t -> carried t) ->
  exists x before,
    do_not_remove s op (nb_oargs (tcg_op_defs op)) (nb_iargs (tcg_op_defs op)) (tcg_op_defs op) l q after = ((mkOp op l, x) :: q, before) /\
    marked_op (bb_end (mkOp op l)) (TCG_OPF_SIDE_EFFECTS (tcg_op_defs op)) (outputs (mkOp op l)) (inputs (mkOp op l)) x after before.
Proof.
  intros Hn El Hnd Hb. destruct (sizes op). rewrite inputs_eq, outputs_eq in * by done.
  apply do_not_remove_marks; try done. rewrite El. unfold nb_args, oargs, iargs. lia.
Qed.

Lemma la_default_left op l q :
  kept_op op = true -> length l = nb_args (tcg_op_defs op) -> NoDup (outputs (mkOp op l)) ->
  (bb_end (mkOp op l) = true -> forall t, valid t -> live after t -> carried t) ->
  exists i' x before, la_default s op l q after = ((i', x) :: q, before) /\ left_of (mkOp op l) after before i' x.
Proof.
  intros Hk El Hnd Hb. assert (op <> op_call) as Hn by (by intros ->). unfold la_default.
  assert (outputs (mkOp op l) = take (nb_oargs (tcg_op_defs op)) l) as Eo by (by apply outputs_eq).
  destruct (_ && _ && _) eqn:E.
  - apply andb_true_iff in E as [[Hs Ho]%andb_true_iff Hu]. unfold do_remove. eexists _, _, _. split; [done|].
    apply left_gone; [apply set_nop_opc|by apply outputs_no_end| |done| |done].
    + by intros [= ->].
    + rewrite Eo. intros t Ht Hlt. by apply (unused_all _ _ Hu t).
  - destruct (stays_marked op l q Hn El Hnd Hb) as (x & before & -> & Hm'). exists (mkOp op l), x, before. split; [done|].
    apply left_kept; [done..|]. intros Hs Ho. cbn [opc] in Hs. rewrite Hs in E. cbn in E.
    rewrite Eo in Ho |- *. apply not_unused. destruct (forallb _ _); [|done]. rewrite andb_true_r in E.
    apply negb_false_iff, Nat.eqb_eq in E. by rewrite E in Ho.
Qed.

Lemma nop_left l q : exists x, la_op s has_high (mkOp op_nop l) q after = Ok ((mkOp op_nop l, x) :: q, after) /\
  left_of (mkOp op_nop l) after after (mkOp op_nop l) x.
Proof.
  exists (Some (0, 0)). split; [by apply la_op_nop|]. apply left_gone; try done; [by left|]. by intros t ?%elem_of_nil.
Qed.
End one.

(** Operations narrowed to one word. *)
Section narrow.
Context (after : live_state) (Hc : mem_carried after) (i : TCGOp) (q : list la_entry) (Hq : nop_next q).

Definition leaves (r : outcome (list la_entry * live_state)) : Prop :=
  exists i' x q' before, r = Ok ((i', x) :: q', before) /\ renopped q q' /\ left_of i after before i' x.

Lemma leaves_same x before i' : left_of i after before i' x -> leaves (Ok ((i', x) :: q, before)).
Proof. intros H. exists i', x, q, before. split; [done|]. split; [by left|done]. Qed.

Lemma single_left op def keep u v rest :
  TCG_OPF_BB_END def = false -> TCG_OPF_SIDE_EFFECTS def = false ->
  narrowed (opc i) op -> keep ∈ outputs i -> u ∈ inputs i -> v ∈ inputs i ->
  (forall t, t ∈ outputs i -> live after t -> t = keep) -> live after keep ->
  leaves (single_word s op def [keep; u; v] rest q after).
Proof.
  intros Db Ds Hn Hk Hu Hv Ho Hl. destruct Hq as (j & e & q0 & -> & Ej). unfold single_word. rewrite decide_True by done.
  destruct (do_not_remove_marks op 1 2 def [keep; u; v] ((tcg_set_nop rest (length rest), e) :: q0) after) as (x & before & E & Hm');
    try done; try (cbn; lia).
  - cbn. apply NoDup_singleton.
  - by rewrite Db.
  - rewrite E. eexists _, x, _, before. split; [done|]. rewrite Db, Ds in Hm'. split.
    + right. exists j, (tcg_set_nop rest (length rest)), e, q0. auto using set_nop_opc.
    + by apply (left_narrow i after before op keep u v).
Qed.

Lemma removed_left def l : bb_end i = false -> opc i <> op_set_label -> opc i <> op_call ->
  (forall t, t ∈ outputs i -> ~ live after t) -> leaves (Ok (do_remove def l q after)).
Proof. intros ? ? Hn ?. apply leaves_same, left_gone; auto using set_nop_opc. by intros E. Qed.
End narrow.

Section double.
Context (after : live_state) (Hc : mem_carried after).

Lemma none_live lo hi : unused after lo = true -> unused after hi = true -> forall t, t ∈ [lo; hi] -> ~ live after t.
Proof. intros E0 E1 t Ht Hl. by apply (unused_all after [lo; hi] (unused_pair _ _ _ E0 E1) t). Qed.

Lemma not_unused_live t : unused after t = false -> live after t.
Proof. intros E. destruct (not_unused after [t]) as (u & Hu & Hl); [cbn; by rewrite E|]. by apply list_elem_of_singleton in Hu as ->. Qed.

Lemma la_addsub2_left op b w l q :
  op = op_add2 w /\ b = Badd \/ op = op_sub2 w /\ b = Bsub -> length l = 6%nat -> NoDup (outputs (mkOp op l)) -> nop_next q ->
  leaves after (mkOp op l) q (la_addsub2 s op (op_bin b w) l q after).
Proof.
  intros Hop El Hnd Hq. set (i := mkOp op l).
  assert (op <> op_call /\ nb_oargs (tcg_op_defs op) = 2%nat /\ nb_iargs (tcg_op_defs op) = 4%nat /\ bb_end i = false /\
    nb_cargs (tcg_op_defs op) = 0%nat /\ TCG_OPF_SIDE_EFFECTS (tcg_op_defs op) = false /\ op <> op_set_label) as (Hn & No & Ni & Nb & Nc & Hs & Hl)
    by (by destruct Hop as [[-> _]|[-> _]]).
  assert (outputs i = [arg l 0; arg l 1] /\ inputs i = [arg l 2; arg l 3; arg l 4; arg l 5]) as [Eo Ei].
  { unfold i. rewrite inputs_eq, outputs_eq by done. unfold oargs, iargs. rewrite No, Ni.
    by rewrite <- (drop_0 l) at 1; rewrite !args_seq by lia. }
  unfold la_addsub2. destruct (unused after (arg l 1)) eqn:E1.
  2:{ destruct (stays_marked after Hc op l q) as (x & before & E & Hm'); try done.
      { unfold nb_args. by rewrite No, Ni, Nc. } { fold i. by rewrite Nb. }
      rewrite No, Ni in E. rewrite E. apply leaves_same, left_kept; [by destruct Hop as [[-> _]|[-> _]]|done|].
      intros _ _. exists (arg l 1). split; [fold i; rewrite Eo; set_solver|by apply not_unused_live]. }
  destruct (unused after (arg l 0)) eqn:E0.
  - apply removed_left; [done..|]. fold i; rewrite Eo. by apply none_live.
  - apply single_left; try done.
    + destruct Hop as [[-> ->]|[-> ->]]; constructor.
    + fold i; rewrite Eo. set_solver.
    + fold i; rewrite Ei. set_solver.
    + fold i; rewrite Ei. set_solver.
    + fold i; rewrite Eo. intros t Ht Hlt. by apply (one_used after (arg l 0) (arg l 1)).
    + by apply not_unused_live.
Qed.

Lemma la_mul2_left op b w l q :
  op = op_mulu2 w /\ b = Bmuluh \/ op = op_muls2 w /\ b = Bmulsh -> length l = 4%nat -> NoDup (outputs (mkOp op l)) -> nop_next q ->
  leaves after (mkOp op l) q (la_mul2 s has_high op b w l q after).
Proof.
  intros Hop El Hnd Hq. set (i := mkOp op l).
  assert (op <> op_call /\ nb_oargs (tcg_op_defs op) = 2%nat /\ nb_iargs (tcg_op_defs op) = 2%nat /\ bb_end i = false /\
    nb_cargs (tcg_op_defs op) = 0%nat /\ TCG_OPF_SIDE_EFFECTS (tcg_op_defs op) = false /\ op <> op_set_label /\ TCG_OPF_BB_END (tcg_op_defs op) = false)
    as (Hn & No & Ni & Nb & Nc & Hs & Hl & Nb') by (by destruct Hop as [[-> _]|[-> _]]).
  assert (outputs i = [arg l 0; arg l 1] /\ inputs i = [arg l 2; arg l 3]) as [Eo Ei].
  { unfold i. rewrite inputs_eq, outputs_eq by done. unfold oargs, iargs. rewrite No, Ni.
    by rewrite <- (drop_0 l) at 1; rewrite !args_seq by lia. }
  assert (forall t, t ∈ outputs i -> live after t -> leaves after i q (Ok (do_not_remove s op 2 2 (tcg_op_defs op) l q after))) as Hkeep.
  { intros t Ht Hlt. destruct (stays_marked after Hc op l q) as (x & before & E & Hm'); try done.
    { unfold nb_args. by rewrite No, Ni, Nc. } { fold i. by rewrite Nb. }
    rewrite No, Ni in E. rewrite E. apply leaves_same, left_kept; [by destruct Hop as [[-> _]|[-> _]]|done|].
    intros _ _. by exists t. }
  assert (forall keep b', keep ∈ outputs i -> narrowed op (op_bin b' w) -> live after keep -> (forall t, t ∈ outputs i -> live after t -> t = keep) ->
    leaves after i q (single_word s (op_bin b' w) (tcg_op_defs op) [keep; arg l 2; arg l 3] (drop 3 l) q after)) as Hone.
  { intros keep b' Hk Hnr Hlk Ho. apply single_left; try done; fold i; rewrite Ei; set_solver. }
  unfold la_mul2. destruct (unused after (arg l 1)) eqn:E1, (unused after (arg l 0)) eqn:E0.
  - apply removed_left; [done..|]. fold i; rewrite Eo. by apply none_live.
  - apply Hone; [fold i; rewrite Eo; set_solver|destruct Hop as [[-> ->]|[-> ->]]; constructor|by apply not_unused_live|].
    fold i; rewrite Eo. intros t Ht Hlt. by apply (one_used after (arg l 0) (arg l 1)).
  - destruct (has_high b w) eqn:Eh; cbn [andb]; [|apply (Hkeep (arg l 1)); [fold i; rewrite Eo; set_solver|by apply not_unused_live]].
    apply Hone; [fold i; rewrite Eo; set_solver|by destruct Hop as [[-> ->]|[-> ->]]; constructor|by apply not_unused_live|].
    fold i; rewrite Eo. intros t Ht Hlt. apply (one_used after (arg l 1) (arg l 0)); try done. set_solver.
  - rewrite andb_false_r. apply (Hkeep (arg l 0)); [fold i; rewrite Eo; set_solver|by apply not_unused_live].
Qed.
End double.

(** What the pass asks of a call. *)
Definition call_fits (l : list Z) : Prop :=
  (length (call_outs l) <= 8)%nat /\ (length (call_outs l) + length (call_ins l) <= 16)%nat.

Lemma la_op_left i q after :
  framed s i -> NoDup (outputs i) -> (doubles (opc i) = true -> nop_next q) ->
  (bb_end i = true -> forall t, valid t -> live after t -> carried t) -> mem_carried after ->
  (opc i = op_call -> call_fits (args i)) -> (opc i = op_discard -> ~ live after (arg (args i) 0)) ->
  leaves after i q (la_op s has_high i q after).
Proof.
  intros Hf Hnd Hq Hb Hc Hcall Hdis. destruct i as [op l]. cbn [opc args] in *. unfold la_op. cbn [opc args].
  assert (kept_op op = true -> leaves after (mkOp op l) q (Ok (la_default s op l q after))) as Hd.
  { intros Hk. assert (op <> op_call) as Hn by (by intros ->). apply framed_eq in Hf as [El _]; [|done].
    destruct (la_default_left after Hc op l q Hk El Hnd Hb) as (i' & x & before & -> & Hlo). by apply leaves_same. }
  destruct op; try (by apply Hd); try (apply framed_eq in Hf as [El _]; [|done]);
    try (by apply la_addsub2_left; auto); try (by apply la_mul2_left; auto).
  - destruct (nop_left after l q) as (x & E & Hlo). change (leaves after (mkOp op_nop l) q (la_op s has_high (mkOp op_nop l) q after)).
    rewrite E. by apply leaves_same.
  - apply leaves_same, left_gone; try done; [by right|by intros t ?%elem_of_nil].
  - by apply leaves_same, left_discard; auto.
  - destruct (Hcall eq_refl) as [Hno Hni].
    destruct (la_call_marks l q after Hf Hnd Hno Hni Hc) as [(n & -> & Hu & Hw)|(x & before & -> & Hmc)].
    + apply leaves_same, left_gone; [apply set_nop_opc|done..| |]; [intros t Ht Hl; by apply (unused_all _ _ Hu t)|by intros _].
    + by apply leaves_same, left_call.
  - by apply leaves_same, left_debug.
Qed.

(** In front of the operation only what a block hands on is in memory, ... *)
Lemma left_mem i after before i' x : left_of i after before i' x -> mem_carried after -> mem_carried before.
Proof.
  assert (forall outs ins st2 da sa, op_marks s outs ins after st2 before da sa -> mem_carried st2 -> mem_carried before) as Hmk.
  { intros outs ins st2 da sa [Hb _ _] H2 t Ht Hmt. apply H2; [done|]. by destruct (Hb t Ht) as [<- _]. }
  intros H Hc. destruct H as [i' x _ _ _ -> _|x _ ->|x _ _ ->|x _ [(da & sa & st2 & _ & Hk & _ & H2 & _)]
    |x _ [(da & sa & st2 & _ & Hk & [_ H2 _ _])] _|op keep u v x _ _ _ _ _ _ [(da & sa & st2 & _ & Hk & [_ H2 _ _])]]; try done; [|by eapply Hmk..].
  intros t Ht Hmt. apply Hc; [done|]. cbn in Hmt. unfold bset in Hmt. by destruct (t =? arg (args i) 0).
Qed.

(** ... and what is live was so behind it, or is read. *)
Definition passes (i : TCGOp) (after : live_state) (t : Z) : Prop := bb_end i = false /\ t ∉ outputs i /\ live after t.

Lemma marks_live outs ins after st2 before da sa t :
  op_marks s outs ins after st2 before da sa -> mem_carried st2 -> valid t -> live before t ->
  t ∈ ins \/ carried t \/ dead_temps st2 t = false.
Proof.
  intros [Hb _ _] H2 Ht. destruct (Hb t Ht) as [Em Ed]. intros [Hd|Hmt].
  - destruct (decide (t ∈ ins)) as [|Hn]; [by left|]. right; right. destruct (dead_temps st2 t) eqn:E; [|done].
    rewrite (proj2 Ed) in Hd by done. done.
  - right; left. apply H2; [done|]. by rewrite <- Em.
Qed.

Lemma weaker_live outs after st2 t : weaker s st2 (outs_gone outs after) -> valid t -> dead_temps st2 t = false -> t ∉ outs /\ live after t.
Proof.
  intros [H1 _ _ _] Ht Hd. assert (dead_temps (outs_gone outs after) t = false) as E.
  { destruct (dead_temps (outs_gone outs after) t) eqn:E; [|done]. by rewrite (H1 t Ht E) in Hd. }
  cbn in E. apply orb_false_iff in E as [E1%bool_decide_eq_false E2]. split; [done|by left].
Qed.

Lemma left_live i after before i' x t :
  framed s i -> left_of i after before i' x -> valid t -> live before t -> t ∈ inputs i \/ carried t \/ passes i after t.
Proof.
  intros Hf H Ht Hl. destruct H as [i' x Hi' Hb Hns -> Ho|x Ei ->|x Ei Hnl ->|x Ei [(da & sa & st2 & _ & Hk & Hw & H2 & _)]
    |x Hkeep [(da & sa & st2 & _ & Hk & [Hw H2 He _])] _|op keep u v x Hn Hk0 Hu Hv Ho _ [(da & sa & st2 & _ & Hk & [Hw H2 _ _])]].
  - right; right. split; [done|]. split; [intros Hin; by apply (Ho t)|done].
  - right; right. unfold passes, bb_end, outputs. rewrite Ei. split; [done|]. split; [apply not_elem_of_nil|done].
  - right; right. destruct i as [op l]. cbn [opc args] in *. subst op. apply framed_eq in Hf as [El _]; [|done]. args_of l El.
    unfold passes, outputs, bb_end. cbn. unfold live, bset, arg in Hl. cbn in Hl. destruct (Z.eqb_spec t z) as [->|Hn]; [by destruct Hl|].
    split; [done|]. split; [by intros ?%list_elem_of_singleton|done].
  - destruct (marks_live _ _ _ _ _ _ _ t Hk H2 Ht Hl) as [Hin|[?|Hd]].
    + left. unfold inputs. by rewrite Ei.
    + by right; left.
    + right; right. unfold passes, outputs, bb_end. rewrite Ei. split; [done|]. by apply (weaker_live _ _ st2).
  - destruct (marks_live _ _ _ _ _ _ _ t Hk H2 Ht Hl) as [Hin|[?|Hd]]; [by left|by right; left|].
    right; right. destruct (bb_end i) eqn:Eb; [by rewrite (proj1 (He eq_refl t Ht)) in Hd|].
    split; [done|]. by apply (weaker_live _ _ st2).
  - destruct (marks_live _ _ _ _ _ _ _ t Hk H2 Ht Hl) as [Hin|[?|Hd]].
    + left. apply elem_of_cons in Hin as [->|Hin]; [done|]. by apply list_elem_of_singleton in Hin as ->.
    + by right; left.
    + right; right. destruct (weaker_live _ _ st2 t Hw Ht Hd) as [Hnk Hla]. rewrite list_elem_of_singleton in Hnk.
      split; [|split; [intros Hin; by apply Hnk, Ho|done]]. unfold bb_end. by inversion Hn.
Qed.
End marks.
End TcgMarks.
