(* ===== verification/TcgFit.v ===== *)
(** The blocks the register allocator can place, and one entry of the list the
    liveness pass hands it: whatever the entry is, its handler returns and its
    instructions do what the operation does. *)
From Stdlib Require Import ZArith Lia Bool.
From stdpp Require Import base numbers list sets.
From S2P Require Import Prelude HostUtils TcgOp TcgOpt TcgRing TcgArith TcgSem TcgBits TcgSound TcgStep TcgProg TcgShape TcgLive TcgReg TcgHost TcgMeaning TcgPlace TcgMove TcgAlloc TcgSim TcgSimOp TcgSimMov TcgSimCall TcgMarks.
Local Open Scope Z_scope.

Module TcgFit.
Import Tcg TcgOpt TcgRing TcgArith TcgSem TcgBits TcgSound TcgStep TcgProg TcgShape TcgLive TcgReg TcgHost TcgMeaning TcgPlace TcgMove TcgAlloc TcgSim TcgSimOp TcgSimMov TcgSimCall TcgMarks.

Section fit.
Context (s : TCGContext) (tgt : Target) (T : Z -> TCGTemp) (has_high : binop -> width -> bool).
Notation valid := (valid s).
Notation is_global := (is_global s).
Notation carried := (carried s).
Notation fixed := (fixed s T).

(** ** What is asked of a block

    [D]: the temporaries written before, in the order of the code; [K]: those
    that may be constants still. *)
Definition known (D : list Z) (t : Z) : bool := (0 <=? t) && (t <? nb_globals s) || bool_decide (t ∈ D).
Definition is_carried (t : Z) : bool := (0 <=? t) && (t <? nb_globals s) || temp_local s t.

Definition typed_b (op : TCGOpcode) (l : list Z) : bool :=
  match in_type op with
  | Some w => forallb (fun j => bool_decide (type s (arg l j) = w)) (seq (oargs op) (iargs op))
  | None => true
  end.

Definition fit_call (l : list Z) : bool :=
  (length (call_outs l) <=? 8)%nat && (length (call_outs l) + length (call_ins l) <=? 16)%nat &&
  (0 <? length (call_ins l))%nat && (length (call_outs l) <=? length (tcg_target_call_oarg_regs tgt))%nat &&
  (call_stack_size tgt (length (call_ins l) - 1) (call_regs tgt l) <=? TCG_STATIC_CALL_ARGS_SIZE tgt).

Definition fit_args (K : list Z) (i : TCGOp) : bool :=
  let l := args i in
  match opc i with
  | op_nop | op_nopn | op_debug_insn_start | op_set_label => true
  | op_discard => negb (is_carried (arg l 0))
  | op_movi w => bool_decide (type s (arg l 0) = w)
  | op_mov w =>
      bool_decide (type s (arg l 0) = w) && bool_decide (arg l 0 <> arg l 1) &&
      bool_decide (w = W64 -> type s (arg l 1) = W64) && negb (bool_decide (arg l 1 ∈ K))
  | op_call => fit_call l
  | op => typed_b op l
  end.

Definition fit_op (D K : list Z) (i : TCGOp) : bool :=
  forallb (known D) (inputs i) && bool_decide (NoDup (outputs i)) &&
  forallb (fun t => negb (fixed t)) (outputs i) && fit_args K i.

Definition written (i : TCGOp) (D : list Z) : list Z :=
  match opc i with
  | op_discard => filter (fun t => t <> arg (args i) 0) D
  | _ => if bb_end i then filter (fun t => temp_local s t = true) D else outputs i ++ D
  end.

Definition constants (i : TCGOp) (K : list Z) : list Z :=
  match opc i with
  | op_movi _ => outputs i ++ K
  | op_call => without (outputs i) (call_constants s (args i) K)
  | _ => if bb_end i then [] else without (outputs i) K
  end.

Fixpoint fits_block (D K : list Z) (p : list TCGOp) : bool :=
  match p with [] => true | i :: p => fit_op D K i && fits_block (written i D) (constants i K) p end.

(** ** What is asked of the back end *)
Definition ready (op : TCGOpcode) : Prop :=
  match op with
  | op_nop | op_nopn | op_debug_insn_start | op_set_label | op_discard => True
  | op_movi w => room_in tgt (tcg_target_available_regs tgt w) (reserved_regs tgt)
  | op_mov w => mov_ready tgt w
  | op_call => call_ready tgt
  | op => op_ready tgt op /\ forall op', narrowed has_high op op' -> op_ready tgt op'
  end.

Lemma known_spec D t : known D t = true <-> is_global t \/ t ∈ D.
Proof. unfold known, TcgShape.is_global. rewrite orb_true_iff, andb_true_iff, Z.leb_le, Z.ltb_lt, bool_decide_eq_true. tauto. Qed.
Lemma is_carried_spec t : is_carried t = true <-> carried t.
Proof. unfold is_carried, TcgShape.carried, TcgShape.is_global. rewrite orb_true_iff, andb_true_iff, Z.leb_le, Z.ltb_lt. tauto. Qed.

Lemma typed_b_ok op l : typed_b op l = true -> typed_inputs s op l.
Proof.
  unfold typed_b. intros H j w Hj Ew. rewrite Ew in H. pose proof (proj1 (forallb_forall _ _) H j) as Hj'.
  refine (bool_decide_eq_true_1 _ (Hj' _)). apply in_seq. unfold is_input in Hj. lia.
Qed.

Record fit (D K : list Z) (i : TCGOp) : Prop := {
  ft_known : forall t, t ∈ inputs i -> is_global t \/ t ∈ D;
  ft_nodup : NoDup (outputs i);
  ft_free : forall t, t ∈ outputs i -> fixed t = false;
  ft_args : fit_args K i = true;
}.

Lemma fit_op_ok D K i : fit_op D K i = true -> fit D K i.
Proof.
  unfold fit_op. rewrite !andb_true_iff, bool_decide_eq_true. intros [[[H1 H2] H3] H4]. split; [|done| |done].
  - intros t Ht. apply known_spec, (proj1 (forallb_forall _ _) H1), list_elem_of_In, Ht.
  - intros t Ht. by apply negb_true_iff, (proj1 (forallb_forall _ _) H3), list_elem_of_In.
Qed.

(** A temporary that is read again was written, or comes with the basic block. *)
Definition covered (D : list Z) (L : live_state) : Prop := forall t, valid t -> live L t -> t ∈ D \/ carried t.

Lemma covered_before D K i after before i' x :
  framed s i -> fit D K i -> left_of s has_high i after before i' x -> covered (written i D) after -> covered D before.
Proof.
  intros Hf [Hk _ _ _] Hl Hc t Ht Hlt.
  destruct (left_live s has_high i after before i' x t Hf Hl Ht Hlt) as [Hin|[?|(Eb & Ho & Hla)]]; [|by right|].
  - destruct (Hk t Hin) as [?|?]; [by right; left|by left].
  - destruct (Hc t Ht Hla) as [Hin|?]; [left|by right]. unfold written in Hin. rewrite Eb in Hin.
    assert (t ∈ outputs i ++ D -> t ∈ D) as H by (rewrite elem_of_app; tauto).
    destruct (opc i); try (by apply H). by apply list_elem_of_filter in Hin as [_ ?].
Qed.

(** Behind the end of a basic block only what it hands on is read. *)
Lemma covered_end i D after : bb_end i = true -> covered (written i D) after -> forall t, valid t -> live after t -> carried t.
Proof.
  intros Eb Hc t Ht Hl. destruct (Hc t Ht Hl) as [Hin|]; [|done]. unfold written in Hin. rewrite Eb in Hin.
  destruct i as [op l]. unfold bb_end in Eb. cbn [opc] in *. right.
  destruct op; try done; try (by destruct b); by apply list_elem_of_filter in Hin as [? _].
Qed.

Lemma discard_dead i D K after :
  framed s i -> opc i = op_discard -> fit D K i -> covered (written i D) after -> ~ live after (arg (args i) 0).
Proof.
  intros Hf Ei [_ _ _ Ha] Hc Hl. unfold fit_args in Ha. rewrite Ei in Ha. apply negb_true_iff in Ha.
  assert (valid (arg (args i) 0)) as Hv.
  { destruct i as [op l]. cbn [opc] in Ei. subst op. apply framed_eq in Hf as [El Hv]; [|done]. args_of l El. cbn in Hv |- *.
    by apply Forall_cons in Hv as [? _]. }
  destruct (Hc _ Hv Hl) as [Hin|Hca%is_carried_spec]; [|congruence]. unfold written in Hin. rewrite Ei in Hin.
  by apply list_elem_of_filter in Hin as [? _].
Qed.

(** ** One entry *)
Section entry.
Notation inv := (inv s tgt T).
Hypothesis (HL : layout_ok s tgt T).
Hypothesis (Hm : nb_temps s <= TCG_MAX_TEMPS).
Context {W : Type} (host : Host W) (junk : hstate W -> hstate W).
Notation entry_ok := (entry_ok s tgt T host junk).

(** What the host keeps besides the promises of its flags: helpers leave the
    registers of globals, and the marks for the debugger change nothing. *)
Record host_fits : Prop := {
  hf_ok : host_ok host;
  hf_fixed : helpers_keep_fixed s T host;
  hf_debug : forall cargs w, h_op host op_debug_insn_start cargs [] w = OContinue [] w;
}.
Hypothesis (Hh : host_fits).

Lemma entry_fewer i before after D K D1 K1 D2 K2 A A' es :
  entry_ok i before after D K D1 K1 A A' es ->
  (forall t, valid t -> live after t -> t ∈ D2 -> t ∈ D1) ->
  (forall t, valid t -> dead_temps after t = false -> t ∈ K1 -> t ∈ K2) -> entry_ok i before after D K D2 K2 A A' es.
Proof.
  intros [HI HX HS] HD HK. split; [|done..].
  enough (TcgMove.shifted (W := W) s tgt T after after D1 K1 D2 K2 A' A') as H by apply H.
  pose proof (inv_tok _ _ _ _ _ _ _ HI) as Htok. apply asks_less_shifted; [done|]. split; intros t Ht Ft; destruct (Htok t Ht Ft) as [K1' K2' K3' K4' K5']; auto.
  intros E Hin. apply HK; [done| |done]. destruct (dead_temps after t) eqn:Ed; [|done].
  rewrite (K1' eq_refl) in E. unfold dead_type in E. by destruct (_ || _).
Qed.

Lemma same_state (L : live_state) t : valid t -> dead_temps L t = dead_temps L t /\ mem_temps L t = mem_temps L t.
Proof. done. Qed.

(** An entry that is passed over. *)
Lemma passed_entry i i' L D K A :
  inv L D K A -> bb_end i = false -> opc i <> op_set_label -> (forall t, t ∈ outputs i -> ~ live L t) ->
  (opc i = op_call -> writes_globals (call_flags (args i)) = false) ->
  (forall k (m : mstate W), exists m', exec_op s host k i' m = Fall m' /\ world m' = world m /\ forall t, regs m' t = regs m t) ->
  entry_ok i' L L D K (written i D) (constants i K) A A [].
Proof.
  intros HI Eb Hl Ho Hw Hx. apply (entry_fewer _ _ _ _ _ D K); [by apply skip_entry| |].
  - intros t Ht Hlt Hin. unfold written in Hin. rewrite Eb in Hin.
    assert (t ∈ outputs i ++ D -> t ∈ D) as H by (intros [Hin'|?]%elem_of_app; [by destruct (Ho t Hin')|done]).
    destruct (opc i); try (by apply H). by apply list_elem_of_filter in Hin as [_ ?].
  - intros t Ht Hd Hin. assert (t ∈ without (outputs i) K) as H.
    { apply without_in. split; [|done]. intros Hin'. apply (Ho t Hin'). by left. }
    unfold constants, call_constants. rewrite Eb. destruct (opc i); try done; [by rewrite Hw|]. apply elem_of_app. by right.
Qed.

(** The marks of an operation with one output. *)
Lemma kept_write i t ins x after before :
  outputs i = [t] -> valid t -> fixed t = false -> bb_end i = false -> mem_carried s after ->
  marked_op s false (TCG_OPF_SIDE_EFFECTS (tcg_op_defs (opc i))) (outputs i) ins x after before ->
  exists da sa st2, x = Some (da, sa) /\ write_case s T t ins after st2 before da sa.
Proof.
  intros Eo Ht Ft Eb Hc [(da & sa & st2 & -> & Hk & [Hw H2 _ _])]. rewrite Eo in *. exists da, sa, st2. split; [done|]. by split.
Qed.

Lemma marks_readable outs ins after st2 before da sa D t :
  op_marks s outs ins after st2 before da sa -> t ∈ ins -> valid t -> is_global t \/ t ∈ D -> readable s T before D t.
Proof.
  intros [Hb _ _] Hin Ht Hk. split; [done|]. intros _. split; [|done]. destruct (Hb t Ht) as [_ Hd].
  destruct (dead_temps before t); [|done]. by destruct (proj1 Hd eq_refl).
Qed.

Lemma framed_all op l t : op <> op_call -> framed s (mkOp op l) -> t ∈ inputs (mkOp op l) \/ t ∈ outputs (mkOp op l) -> valid t.
Proof. intros Hc Hf Ht. apply (framed_in s op l); [done..|]. by apply elem_of_app. Qed.

Lemma end_no_outs op : TCG_OPF_BB_END (tcg_op_defs op) = true -> oargs op = 0%nat.
Proof. destruct op; try done. by destruct b. Qed.
Lemma effects_few_outs op : TCG_OPF_SIDE_EFFECTS (tcg_op_defs op) = true -> (oargs op <= 1)%nat /\ TCG_OPF_BB_END (tcg_op_defs op) = false.
Proof. destruct op; try done; cbn; try (by split; [lia|]). by destruct b. Qed.

Lemma input_arg op l j : op <> op_call -> length l = nb_args (tcg_op_defs op) -> is_input op j -> arg l j ∈ inputs (mkOp op l).
Proof.
  intros Hn El Hj. rewrite inputs_eq by done. rewrite args_seq by (unfold iargs, oargs, nb_args in *; lia).
  apply list_elem_of_fmap. exists j. split; [done|]. apply elem_of_seq. unfold is_input in Hj. lia.
Qed.

Lemma constraint_case op l x after before D :
  by_constraints op = true -> framed s (mkOp op l) -> NoDup (outputs (mkOp op l)) ->
  (forall t, t ∈ outputs (mkOp op l) -> fixed t = false) -> (forall t, t ∈ inputs (mkOp op l) -> is_global t \/ t ∈ D) ->
  typed_inputs s op l -> mem_carried s after ->
  marked_op s (bb_end (mkOp op l)) (TCG_OPF_SIDE_EFFECTS (tcg_op_defs op)) (outputs (mkOp op l)) (inputs (mkOp op l)) x after before ->
  exists da sa st2, x = Some (da, sa) /\ op_case s T op l after st2 before da sa D.
Proof.
  intros Hop Hf Hnd Hfree Hk Hty Hc [(da & sa & st2 & -> & Hmk & [Hw H2 He Hs])]. exists da, sa, st2. split; [done|].
  assert (op <> op_call) as Hn by (by intros ->). pose proof Hf as [El _]%framed_eq; [|done].
  assert (forall j, (j < oargs op)%nat -> arg l j ∈ outputs (mkOp op l)) as Ho.
  { intros j Hj. rewrite outputs_eq by done. rewrite <- (drop_0 l), args_seq by (unfold oargs, nb_args in *; lia).
    rewrite (drop_0 l). apply list_elem_of_fmap. exists j. split; [done|]. apply elem_of_seq. lia. }
  pose proof (fun j => input_arg op l j Hn El) as Hi.
  split; try done.
  - intros j Hj. specialize (Ho j Hj). split; [|by apply Hfree]. apply (framed_all op l); auto.
  - intros j Hj. specialize (Hi j Hj). apply (marks_readable _ _ _ _ _ _ _ _ _ Hmk Hi); [|by apply Hk]. apply (framed_all op l); auto.
  - intros Eb. split; [by apply end_no_outs|by apply He].
  - intros Es. destruct (effects_few_outs op Es) as [Hle Eb]. split; [done|]. by apply Hs.
Qed.

Lemma constants_default i K t : opc i <> op_call -> t ∈ without (outputs i) K -> bb_end i = false -> t ∈ constants i K.
Proof. intros Hn Hin Eb. unfold constants. rewrite Eb. destruct (opc i); try done. apply without_in in Hin as [_ ?]. apply elem_of_app. by right. Qed.

Lemma written_from i D t : t ∈ written i D -> t ∈ outputs i ++ D.
Proof.
  assert (forall P (H : forall x, Decision (P x)), t ∈ filter P D -> t ∈ outputs i ++ D) as Hf
    by (intros P H [_ ?]%list_elem_of_filter; apply elem_of_app; by right).
  unfold written. destruct (opc i), (bb_end i); try done; apply Hf.
Qed.

Lemma constraint_entry op l x after before D K A :
  by_constraints op = true -> framed s (mkOp op l) -> fit D K (mkOp op l) -> op_ready tgt op -> inv before D K A -> mem_carried s after ->
  marked_op s (bb_end (mkOp op l)) (TCG_OPF_SIDE_EFFECTS (tcg_op_defs op)) (outputs (mkOp op l)) (inputs (mkOp op l)) x after before ->
  runs (tcg_reg_alloc_entry s tgt (mkOp op l, x)) A
    (fun _ A' es => entry_ok (mkOp op l) before after D K (written (mkOp op l) D) (constants (mkOp op l) K) A A' es).
Proof.
  intros Hop Hf [Hk Hnd Hfree Ha] HR HI Hc Hmk.
  assert (typed_inputs s op l) as Hty by (apply typed_b_ok; by destruct op).
  destruct (constraint_case op l x after before D Hop Hf Hnd Hfree Hk Hty Hc Hmk) as (da & sa & st2 & -> & HC).
  assert (forall Q, runs (tcg_reg_alloc_op s tgt op l da sa) A Q -> runs (tcg_reg_alloc_entry s tgt (mkOp op l, Some (da, sa))) A Q) as Hrun.
  { intros Q HQ. pose proof (rd_present _ _ HR) as Hp. unfold tcg_reg_alloc_entry. cbn [fst snd opc args default].
    destruct op; try done; cbn [opc]; rewrite Hp; apply runs_bind, runs_ret; by apply (runs_mono _ _ _ _ HQ). }
  apply Hrun. refine (runs_mono _ _ _ _ (tcg_reg_alloc_op_ok s tgt T HL host junk op l after st2 before da sa D K A (hf_ok Hh) HR HC HI) _).
  intros _ A' es He. apply (entry_fewer _ _ _ _ _ _ _ _ _ _ _ _ He).
  - intros t _ _. apply written_from.
  - intros t _ _ Hin. destruct (TCG_OPF_BB_END (tcg_op_defs op)) eqn:Eb; [by apply elem_of_nil in Hin|]. by apply constants_default; [intros [= ->]|..].
Qed.

Lemma narrow_entry i op keep u v x after before D K A :
  framed s i -> fit D K i -> narrowed has_high (opc i) op -> op_ready tgt op ->
  keep ∈ outputs i -> u ∈ inputs i -> v ∈ inputs i -> (forall t, t ∈ outputs i -> live after t -> t = keep) ->
  inv before D K A -> mem_carried s after -> marked_op s false false [keep] [u; v] x after before ->
  runs (tcg_reg_alloc_entry s tgt (mkOp op [keep; u; v], x)) A
    (fun _ A' es => entry_ok (mkOp op [keep; u; v]) before after D K (written i D) (constants i K) A A' es).
Proof.
  intros Hf [Hk Hnd Hfree Ha] Hn HR Hok Hu Hv Ho HI Hc Hmk.
  destruct i as [op0 l0]. cbn [opc args] in *.
  assert (exists b w, op = op_bin b w /\ TCG_OPF_BB_END (tcg_op_defs op) = false /\ TCG_OPF_SIDE_EFFECTS (tcg_op_defs op) = false /\
    outputs (mkOp op [keep; u; v]) = [keep] /\ inputs (mkOp op [keep; u; v]) = [u; v] /\ nb_args (tcg_op_defs op) = 3%nat /\
    (in_type op = None \/ in_type op = Some w /\ in_type op0 = Some w)) as (b & w & Eop & Eb & Es & Eo & Ei & Hlen & Hty)
    by (inversion Hn; subst; eexists _, _; split_and!; try done; cbn; auto).
  assert (op0 <> op_call /\ bb_end (mkOp op0 l0) = false /\ by_constraints op0 = true) as (Hn0 & Eb0 & Hc0)
    by (inversion Hn; subst; done).
  assert (forall t, t ∈ inputs (mkOp op0 l0) -> in_type op0 = Some w -> type s t = w) as Hin.
  { intros t Ht Ew. rewrite inputs_eq in Ht by done. pose proof Hf as [El _]%framed_eq; [|done].
    rewrite args_seq in Ht by (unfold iargs, oargs, nb_args in *; lia). apply list_elem_of_fmap in Ht as (j & -> & [Hj1 Hj2]%elem_of_seq).
    assert (typed_inputs s op0 l0) as Ht0 by (apply typed_b_ok; by destruct op0). apply Ht0; [|done]. unfold is_input. lia. }
  assert (forall t, t ∈ [u; v] -> t ∈ inputs (mkOp op0 l0)) as Huv.
  { intros t Ht. apply elem_of_cons in Ht as [->|Ht]; [done|]. by apply list_elem_of_singleton in Ht as ->. }
  destruct (constraint_case op [keep; u; v] x after before D) as (da & sa & st2 & -> & HC).
  - by rewrite Eop.
  - apply framed_eq; [by rewrite Eop|]. rewrite Eo, Ei. split; [done|]. apply Forall_forall. intros t Ht.
    apply elem_of_app in Ht as [Ht|Ht%list_elem_of_singleton]; apply (framed_all op0 l0); auto. subst t. by right.
  - rewrite Eo. apply NoDup_singleton.
  - rewrite Eo. intros t ->%list_elem_of_singleton. by apply Hfree.
  - rewrite Ei. intros t Ht. by apply Hk, Huv.
  - intros j w' Hj Ew. destruct Hty as [E|[E1 E2]]; [congruence|]. rewrite E1 in Ew. injection Ew as <-. apply Hin; [|done].
    apply Huv. pose proof (input_arg op [keep; u; v] j) as Hij. rewrite Ei in Hij. by apply Hij; [rewrite Eop|..].
  - done.
  - unfold bb_end. cbn [opc]. by rewrite Eb, Es, Eo, Ei.
  - pose proof (tcg_reg_alloc_op_ok s tgt T HL host junk op _ after st2 before da sa D K A (hf_ok Hh) HR HC HI) as Hrun.
    pose proof (rd_present _ _ HR) as Hp. unfold tcg_reg_alloc_entry. cbn [fst snd opc args default]. subst op.
    rewrite Hp. apply runs_bind, runs_ret. refine (runs_mono _ _ _ _ Hrun _). intros _ A' es He.
    rewrite Eb, Eo in He. apply (entry_fewer _ _ _ _ _ _ _ _ _ _ _ _ He).
    + intros t Ht Hlt Hin'. apply written_from in Hin'. apply elem_of_app in Hin' as [Hin'|?]; apply elem_of_app; [left|by right].
      rewrite (Ho t); [by left|done..].
    + intros t Ht Hd Hin'. apply constants_default; [done| |done]. apply without_in in Hin' as [Hn' ?]. apply without_in. split; [|done].
      intros Ht'. apply Hn'. rewrite (Ho t); [by left|done|by left].
Qed.

(** *** Moves, labels and what is discarded *)
Lemma movi_entry w o v x after before D K A :
  framed s (mkOp (op_movi w) [o; v]) -> fit D K (mkOp (op_movi w) [o; v]) -> ready (op_movi w) -> inv before D K A -> mem_carried s after ->
  marked_op s false false [o] [] x after before ->
  runs (tcg_reg_alloc_entry s tgt (mkOp (op_movi w) [o; v], x)) A
    (fun _ A' es => entry_ok (mkOp (op_movi w) [o; v]) before after D K (o :: D) (o :: K) A A' es).
Proof.
  intros Hf [_ _ Hfree Ha] HR HI Hc Hmk.
  destruct (kept_write (mkOp (op_movi w) [o; v]) o [] x after before) as (da & sa & st2 & -> & HC); try done.
  - apply (framed_all (op_movi w) [o; v]); [done..|]. right. by left.
  - apply Hfree. by left.
  - cbn [fit_args opc args] in Ha. apply bool_decide_eq_true in Ha.
    by apply (tcg_reg_alloc_movi_ok s tgt T HL host junk w o v after st2 before da sa D K A).
Qed.

Lemma mov_entry w o i x after before D K A :
  framed s (mkOp (op_mov w) [o; i]) -> fit D K (mkOp (op_mov w) [o; i]) -> ready (op_mov w) -> inv before D K A -> mem_carried s after ->
  marked_op s false false [o] [i] x after before -> live after o ->
  runs (tcg_reg_alloc_entry s tgt (mkOp (op_mov w) [o; i], x)) A
    (fun _ A' es => entry_ok (mkOp (op_mov w) [o; i]) before after D K (o :: D) (without [o] K) A A' es).
Proof.
  intros Hf [Hk _ Hfree Ha] HR HI Hc Hmk Hl.
  destruct (kept_write (mkOp (op_mov w) [o; i]) o [i] x after before) as (da & sa & st2 & -> & HC); try done.
  - apply (framed_all (op_mov w) [o; i]); [done..|]. right. by left.
  - apply Hfree. by left.
  - cbn [fit_args opc args] in Ha. rewrite !andb_true_iff, !bool_decide_eq_true, negb_true_iff, bool_decide_eq_false in Ha.
    destruct Ha as [[[H1 H2] H3] H4].
    apply (tcg_reg_alloc_mov_ok s tgt T HL host junk w o i after st2 before da sa D K HC); try done.
    assert (i ∈ [i]) as Hin by (by left). apply (marks_readable _ _ _ _ _ _ _ _ _ (wc_marks _ _ _ _ _ _ _ _ _ HC) Hin); [|by apply Hk].
    apply (framed_all (op_mov w) [o; i]); [done..|by left].
Qed.

Lemma label_before x after before :
  marked_op s true false [] [] x after before ->
  (forall t, valid t -> dead_temps before t = true) /\ weaker s before (outs_gone [] after).
Proof.
  intros [(da & sa & st2 & -> & [Hb _ _] & [[W1 W2 W3 W4] _ He _])].
  assert (forall t, valid t -> dead_temps before t = dead_temps st2 t /\ mem_temps before t = mem_temps st2 t) as Heq.
  { intros t Ht. destruct (Hb t Ht) as [-> Hd]. split; [|done]. apply eq_true_iff_eq. rewrite Hd. split; [by intros [? _]|].
    intros ?. split; [done|apply not_elem_of_nil]. }
  split.
  - intros t Ht. rewrite (proj1 (Heq t Ht)). by apply He.
  - split; intros t Ht; unfold live in *; destruct (Heq t Ht) as [E1 E2]; rewrite ?E1, ?E2; auto.
Qed.

Lemma framed_label l : framed s (mkOp op_set_label l) -> l = [arg l 0].
Proof. intros [El _]%framed_eq; [|done]. destruct l as [|z [|]]; done. Qed.

Lemma set_label_entry l x after before D K A :
  framed s (mkOp op_set_label l) -> inv before D K A -> marked_op s true false [] [] x after before ->
  runs (tcg_reg_alloc_entry s tgt (mkOp op_set_label l, x)) A
    (fun _ A' es => entry_ok (mkOp op_set_label l) before after D K (filter (fun t => temp_local s t = true) D) [] A A' es /\
       es = [HLabel (arg l 0)] /\ forall t, valid t -> fixed t = false -> val_type (temps A' t) = dead_type s t).
Proof.
  intros Hf HI Hmk. destruct (label_before x after before Hmk) as [Hd Hw]. rewrite (framed_label l Hf). set (y := arg l 0).
  destruct Hmk as [(da & sa & st2 & -> & _)]. unfold tcg_reg_alloc_entry. cbn [fst snd opc args default].
  refine (runs_mono _ _ _ _ (runs_and _ _ _ _ (label_entry s tgt T HL host junk y after before D K A HI Hd Hw)
    (_ : runs _ A (fun _ A' es => A' = A /\ es = [HLabel y]))) _).
  - apply runs_bind. exists tt, A, []. split; [by apply (bb_end_ok s tgt T HL before D K A HI)|]. by apply runs_emit.
  - intros _ A' es [He [-> ->]]. split; [|split; [done|]].
    + apply (entry_fewer _ _ _ _ _ _ _ _ _ _ _ _ He); [|done]. by intros t _ _ [_ ?]%list_elem_of_filter.
    + intros t Ht Ft. by apply (tk_dead _ _ _ _ _ _ (inv_tok _ _ _ _ _ _ _ HI t Ht Ft)), Hd.
Qed.

Lemma call_entry_ok l x after before D K A :
  framed s (mkOp op_call l) -> fit D K (mkOp op_call l) -> call_ready tgt -> inv before D K A -> mem_carried s after ->
  marked_call s l x after before ->
  runs (tcg_reg_alloc_entry s tgt (mkOp op_call l, x)) A
    (fun _ A' es => entry_ok (mkOp op_call l) before after D K (call_outs l ++ D) (without (call_outs l) (call_constants s l K)) A A' es).
Proof.
  intros Hf [Hk Hnd Hfree Ha] HR HI Hc [(da & sa & st2 & -> & Hmk & Hw & H2 & Hrd & Hwr)].
  cbn [fit_args opc args] in Ha. unfold fit_call in Ha. rewrite !andb_true_iff, !Nat.leb_le, Nat.ltb_lt, Z.leb_le in Ha.
  destruct Ha as [[[[Hno Hni] Hfn] Hres] Hst].
  assert (forall t, t ∈ call_ins l -> valid t) as Hiv by (apply Forall_forall, (call_ins_valid s l Hf)).
  assert (forall t, t ∈ call_outs l -> valid t) as Hov.
  { apply Forall_forall. destruct Hf as [[Hl Hv] _]. cbn [args] in *. unfold call_args in *. cbn [fst snd] in *.
    apply take_args_valid; [lia|]. intros j Hj. apply Hv. lia. }
  apply (tcg_reg_alloc_call_ok s tgt T HL host junk l after st2 before da sa D K A (hf_ok Hh) (hf_fixed Hh)); try done.
  split; try done.
  - intros t Ht. apply (marks_readable _ _ _ _ _ _ _ _ _ Hmk Ht); [by apply Hiv|by apply Hk].
  - intros t Ht. split; [by apply Hov|by apply Hfree].
Qed.

(** Passing an entry leaves the state. *)
Lemma nop_effect i' : opc i' = op_nop \/ opc i' = op_nopn ->
  forall k (m : mstate W), exists m', exec_op s host k i' m = Fall m' /\ world m' = world m /\ forall t, regs m' t = regs m t.
Proof. intros Hi k m. exists m. split; [|done]. unfold exec_op. by destruct Hi as [-> | ->]. Qed.

Lemma debug_effect i : opc i = op_debug_insn_start ->
  forall k (m : mstate W), exists m', exec_op s host k i m = Fall m' /\ world m' = world m /\ forall t, regs m' t = regs m t.
Proof.
  intros Ei k m. exists m. split; [|done]. destruct i as [op l]. cbn in Ei. subst op. rewrite exec_opaque_eq by done.
  unfold exec_opaque. cbn. rewrite (hf_debug Hh). by destruct m.
Qed.

Lemma pass_run i' x A : opc i' = op_nop \/ opc i' = op_nopn \/ opc i' = op_debug_insn_start ->
  forall Q : unit -> alloc_state -> list hinsn -> Prop, Q tt A [] -> runs (tcg_reg_alloc_entry s tgt (i', x)) A Q.
Proof.
  intros Hi Q HQ. unfold tcg_reg_alloc_entry. cbn [fst snd]. destruct (default (0, 0) x) as [da sa].
  destruct Hi as [-> | [-> | ->]]; by apply runs_ret.
Qed.

Lemma discarded_entry i x after before D K A :
  framed s i -> opc i = op_discard -> fit D K i -> inv before D K A -> ~ live after (arg (args i) 0) ->
  before = mkLive (bset (dead_temps after) (arg (args i) 0) true) (bset (mem_temps after) (arg (args i) 0) false) ->
  runs (tcg_reg_alloc_entry s tgt (i, x)) A
    (fun _ A' es => entry_ok i before after D K (written i D) (constants i K) A A' es).
Proof.
  intros Hf Ei [_ _ Hfree Ha] HI Hl ->. destruct i as [op l]. cbn [opc args] in *. subst op.
  assert (exists t, l = [t]) as [t ->] by (apply framed_eq in Hf as [El _]; [|done]; destruct l as [|t [|]]; try done; by exists t).
  change (arg [t] 0) with t in *. assert (valid t) as Vt by (apply (framed_all op_discard [t]); [done..|right; by left]).
  assert (fixed t = false) as Ft by (apply Hfree; by left).
  assert (~ carried t) as Ct by (rewrite <- is_carried_spec; cbn [fit_args opc args] in Ha; intros E; change (arg [t] 0) with t in Ha; by rewrite E in Ha).
  unfold tcg_reg_alloc_entry. cbn [fst snd opc args]. destruct (default (0, 0) x) as [da sa].
  refine (runs_mono _ _ _ _ (discard_entry s tgt T host junk t after _ D (written (mkOp op_discard [t]) D) K A Vt Ft Ct HI (fun u => conj eq_refl eq_refl) Hl _) _).
  - intros u Hu. by apply list_elem_of_filter in Hu as [_ ?].
  - intros _ A' es He. apply (entry_fewer _ _ _ _ _ _ _ _ _ _ _ _ He); [done|].
    intros u Hu Hd Hin. apply constants_default; [done| |done]. apply without_in. split; [|done].
    intros ->%list_elem_of_singleton. apply Hl. by left.
Qed.

(** The tables and the code behind an entry. *)
Record placed_entry (i' : TCGOp) (before after : live_state) (D K D' K' : list Z) (A A' : alloc_state) (es : list hinsn) : Prop := {
  pe_entry : entry_ok i' before after D K D' K' A A' es;
  pe_label : opc i' = op_set_label -> es = [HLabel (arg (args i') 0)] /\
    (forall t, valid t -> fixed t = false -> val_type (temps A' t) = dead_type s t) /\
    forall t, valid t -> live after t -> carried t;
}.

Lemma kept_entry op l x after before D K A :
  framed s (mkOp op l) -> fit D K (mkOp op l) -> ready op -> inv before D K A -> mem_carried s after -> covered (written (mkOp op l) D) after ->
  kept_op op = true ->
  marked_op s (bb_end (mkOp op l)) (TCG_OPF_SIDE_EFFECTS (tcg_op_defs op)) (outputs (mkOp op l)) (inputs (mkOp op l)) x after before ->
  (TCG_OPF_SIDE_EFFECTS (tcg_op_defs op) = false -> outputs (mkOp op l) <> [] -> exists t, t ∈ outputs (mkOp op l) /\ live after t) ->
  runs (tcg_reg_alloc_entry s tgt (mkOp op l, x)) A
    (fun _ A' es => placed_entry (mkOp op l) before after D K (written (mkOp op l) D) (constants (mkOp op l) K) A A' es).
Proof.
  intros Hf Hfit HR HI Hc Hcov Hk Hmk Hl.
  destruct (by_constraints op) eqn:Hop.
  { refine (runs_mono _ _ _ _ (constraint_entry op l x after before D K A Hop Hf Hfit _ HI Hc Hmk) _).
    - destruct op; try done; exact (proj1 HR).
    - intros _ A' es He. split; [done|]. intros [= E]. by rewrite E in Hop. }
  destruct op; try done.
  - refine (runs_mono _ _ _ _ (set_label_entry l x after before D K A Hf HI Hmk) _). intros _ A' es (He & Hes & Hv).
    split; [done|]. intros _. split; [done|]. split; [done|]. by apply (covered_end (mkOp op_set_label l) D).
  - pose proof (proj1 (framed_eq s (op_mov w) l ltac:(done)) Hf) as [El _]. destruct l as [|o [|i [|]]]; try done.
    refine (runs_mono _ _ _ _ (mov_entry w o i x after before D K A Hf Hfit HR HI Hc Hmk _) _); [|by split].
    destruct Hl as (t & Ht%list_elem_of_singleton & Hlt); [done..|]. by subst t.
  - pose proof (proj1 (framed_eq s (op_movi w) l ltac:(done)) Hf) as [El _]. destruct l as [|o [|v [|]]]; try done.
    refine (runs_mono _ _ _ _ (movi_entry w o v x after before D K A Hf Hfit HR HI Hc Hmk) _). by split.
Qed.

Lemma narrowed_ready op op' : narrowed has_high op op' -> ready op -> op_ready tgt op'.
Proof. intros Hn HR. destruct Hn; apply HR; by constructor. Qed.

Lemma entry_run i i' x after before D K A :
  framed s i -> fit D K i -> ready (opc i) -> left_of s has_high i after before i' x -> inv before D K A -> mem_carried s after ->
  covered (written i D) after ->
  runs (tcg_reg_alloc_entry s tgt (i', x)) A
    (fun _ A' es => placed_entry i' before after D K (written i D) (constants i K) A A' es).
Proof.
  intros Hf Hfit HR Hlo HI Hc Hcov.
  destruct Hlo as [i' x Hi' Hb Hns -> Ho Hw|x Ei ->|x Ei Hnl Eb|x Ei Hmk|x Hk Hmk Hl|op keep u v x Hn Hk Hu Hv Ho Hl Hmk].
  - apply pass_run; [tauto|]. split; [|by destruct Hi' as [-> | ->]].
    apply passed_entry; try done. by apply nop_effect.
  - apply pass_run; [tauto|]. split; [|by rewrite Ei]. apply passed_entry; try done; unfold bb_end, outputs; rewrite ?Ei; try done.
    + by intros t ?%elem_of_nil.
    + by apply debug_effect.
  - refine (runs_mono _ _ _ _ (discarded_entry i x after before D K A Hf Ei Hfit HI Hnl Eb) _). intros _ A' es He. split; [done|by rewrite Ei].
  - destruct i as [op l]. cbn [opc args] in *. subst op.
    refine (runs_mono _ _ _ _ (call_entry_ok l x after before D K A Hf Hfit HR HI Hc Hmk) _). by split.
  - destruct i as [op l]. by apply kept_entry.
  - pose proof (narrowed_ready _ _ Hn HR) as HRn.
    refine (runs_mono _ _ _ _ (narrow_entry i op keep u v x after before D K A Hf Hfit Hn HRn Hk Hu Hv Ho HI Hc Hmk) _).
    intros _ A' es He. split; [done|]. cbn [opc]. by inversion Hn; subst.
Qed.
End entry.
End fit.
End TcgFit.
