(* ===== verification/TcgKeep.v ===== *)
(** The optimiser in front of the register allocator: from a check of the block
    the front end wrote, the check [TcgFit.fits_block] of what the optimiser
    makes of it. *)
From Stdlib Require Import ZArith Lia Bool.
From stdpp Require Import base numbers list sets.
From S2P Require Import Prelude HostUtils TcgOp TcgOpt TcgRing TcgArith TcgSem TcgBits TcgSound TcgStep TcgProg TcgShape TcgLive TcgReg TcgHost TcgMeaning TcgPlace TcgMove TcgAlloc TcgSim TcgSimOp TcgSimMov TcgSimCall TcgMarks TcgFit.
Local Open Scope Z_scope.

Module TcgKeep.
Import Tcg TcgOpt TcgRing TcgArith TcgSem TcgBits TcgSound TcgStep TcgProg TcgShape TcgLive TcgReg TcgHost TcgMeaning TcgPlace TcgMove TcgAlloc TcgSim TcgSimOp TcgSimMov TcgSimCall TcgMarks TcgFit.

Section keep.
Context (s : TCGContext) (tgt : Target) (G : Z -> TCGTemp).
Notation valid := (valid s).
Notation wf := (TcgRing.wf s).
Notation known := (TcgFit.known s).
Notation constants := (TcgFit.constants s).
Notation written := (TcgFit.written s).
Notation shaped := (shaped s).

(** ** What is asked of the front end's block

    Beside what [TcgProg.op_ok] asks: an operand that is read has a value, the
    globals in registers are not written, calls fit the registers and the
    stack.  A sign or zero extension of a word to 64 bits is of a temporary of
    64 bits: with a temporary of 32 the optimiser may make it a [mov_i64], which
    takes the upper half of the host's register for zero. *)
Definition source_args (i : TCGOp) : bool :=
  match opc i with
  | op_discard => negb (is_carried s (arg (args i) 0))
  | op_call => fit_call tgt (args i)
  | op_un (Uext32s | Uext32u) W64 => bool_decide (type s (arg (args i) 1) = W64)
  | _ => true
  end.

Definition source_op (D : list Z) (i : TCGOp) : bool :=
  forallb (known D) (inputs i) && bool_decide (NoDup (outputs i)) &&
  forallb (fun t => negb (fixed s G t)) (outputs i) && source_args i.

Fixpoint source_block (D : list Z) (p : list TCGOp) : bool :=
  match p with [] => true | i :: p => source_op D i && source_block (written i D) p end.

(** What the optimiser can make of an operation. *)
Inductive rewritten : TCGOpcode -> TCGOpcode -> Prop :=
| rw_same op : rewritten op op
| rw_nop op : rewritten op op_nop
| rw_movi op w : rewritten op (op_movi w)
| rw_mov op w : rewritten op (op_mov w)
| rw_un b u w : u = Uneg \/ u = Unot -> rewritten (op_bin b w) (op_un u w)
| rw_setcond : rewritten op_setcond2 (op_setcond W32)
| rw_br op : rewritten op op_br
| rw_high : rewritten op_brcond2 (op_brcond W32).

(** ** Known constants stay known *)
Definition consts (T : temps_t) (K : list Z) : Prop := forall t, t ∈ K -> is_const (T t) = true.

Lemma reset_const T t u : wf T -> valid t -> u <> t -> is_const (T u) = true -> is_const (reset_temp T t u) = true.
Proof. intros HT Ht. by apply (reset_temp_fields s T t u HT Ht). Qed.

Lemma movi_const T t v u : wf T -> valid t -> u = t \/ is_const (T u) = true -> is_const (snd (tcg_opt_gen_movi T t v) u) = true.
Proof.
  intros HT Ht Hu. cbn. unfold upd. destruct (Z.eqb_spec u t) as [->|Hn]; [done|]. destruct Hu as [?|?]; [done|]. by apply reset_const.
Qed.

Lemma mov_const T dst src r :
  wf T -> valid dst -> valid src -> dst <> src -> tcg_opt_gen_mov s T dst src = Ok r ->
  is_const (T src) = false /\ forall u, u <> dst -> is_const (T u) = true -> is_const (snd r u) = true.
Proof.
  intros HT Hd Hv Hne. unfold tcg_opt_gen_mov. set (T1 := upd (reset_temp T dst) dst _).
  assert (forall u, u <> dst -> is_const (T u) = true -> is_const (T1 u) = true) as H1
    by (intros u Hu Hc; unfold T1; rewrite upd_other by done; by apply reset_const).
  destruct (is_const (T1 src)) eqn:Ek; [done|]. intros [= <-]. cbn [snd].
  assert (is_const (T src) = false) as Es by (destruct (is_const (T src)) eqn:E; [by rewrite H1 in Ek|done]). split; [done|].
  intros u Hu Hc. specialize (H1 u Hu Hc). assert (u <> src) as Hs by congruence. destruct (decide _); [|done].
  rewrite upd_other by done.
  assert (forall T2 n, is_const (T2 u) = true -> is_const (upd T2 n (fun i => i <| prev_copy := dst |>) u) = true) as Hp
    by (intros T2 n; unfold upd; by destruct (u =? n)).
  apply Hp. rewrite upd_other by done. destruct (is_copy (T1 src)); [done|]. by rewrite upd_other.
Qed.

Lemma mask_wf T t m : wf T -> valid t -> fits 64 m -> is_const (T t) = false -> wf (upd T t (fun i => i <| mask := m |>)).
Proof.
  intros [H1 H2 H3 H4] Ht Hm Hc. set (T' := upd T t _).
  assert (forall u, is_copy (T' u) = is_copy (T u) /\ is_const (T' u) = is_const (T u) /\ next_copy (T' u) = next_copy (T u) /\
    prev_copy (T' u) = prev_copy (T u) /\ TcgOpt.val (T' u) = TcgOpt.val (T u)) as He by (intros u; unfold T', upd; by destruct (u =? t)).
  split.
  - intros u Hu. destruct (He u) as (-> & _ & -> & _ & _). destruct (He (next_copy (T u))) as (-> & _ & _ & -> & _). by apply H1.
  - intros u Hu. destruct (He u) as (-> & _ & _ & -> & _). destruct (He (prev_copy (T u))) as (-> & _ & -> & _ & _). by apply H2.
  - intros u Hu. unfold T', upd. destruct (u =? t); [exact Hm|by apply H3].
  - intros u Hu. destruct (He u) as (_ & -> & _ & _ & ->). intros Hk. unfold T', upd. destruct (Z.eqb_spec u t) as [->|]; [congruence|by apply H4].
Qed.

Lemma outs_const n T m i l :
  wf T -> fits 64 m -> (forall j, (i <= j < i + n)%nat -> valid (arg l j)) ->
  forall u, (forall j, (i <= j < i + n)%nat -> arg l j <> u) -> is_const (T u) = true -> is_const (reset_outs T m i n l u) = true.
Proof.
  revert T i. induction n as [|n IH]; intros T i HT Hm Hv u Hu Hc; cbn [reset_outs]; [done|].
  assert (valid (arg l i)) as Vi by (apply Hv; lia).
  pose proof (reset_temp_wf s T (arg l i) HT Vi) as HT1. pose proof (reset_const T (arg l i) u HT Vi) as H1.
  assert (arg l i <> u) as Hne by (apply Hu; lia).
  assert (is_const (reset_temp T (arg l i) (arg l i)) = false) as Hf
    by (unfold is_const; by destruct (reset_temp_fields s T (arg l i) (arg l i) HT Vi) as (_ & _ & _ & -> & _)).
  apply IH; try done; try (intros j Hj; (apply Hv || apply Hu); lia); destruct (i =? 0)%nat; auto.
  - by apply mask_wf.
  - rewrite upd_other by done. auto.
Qed.

Lemma range_const ts T :
  wf T -> Forall valid ts -> wf (reset_range T ts) /\ forall u, u ∉ ts -> is_const (T u) = true -> is_const (reset_range T ts u) = true.
Proof.
  revert T. induction ts as [|t ts IH]; intros T HT Hv; [done|]. apply Forall_cons in Hv as [Vt Hv].
  destruct (IH (reset_temp T t) (reset_temp_wf s T t HT Vt) Hv) as [H1 H2]. split; [done|].
  intros u [Hu1 Hu2]%not_elem_of_cons Hc. apply H2; [done|]. by apply reset_const.
Qed.

(** ** One operation *)
Record fitted (T : temps_t) (i i' : TCGOp) (T' : temps_t) : Prop := {
  fd_args : forall K, consts T K -> fit_args s tgt K i' = true;
  fd_outs : outputs i' = outputs i \/ outputs i' = [];
  fd_const : forall K, consts T K -> consts T' (constants i' K);
  fd_discard : opc i' = op_discard ->
    opc i = op_discard /\ arg (args i') 0 = arg (args i) 0 /\ is_copy (T' (arg (args i') 0)) = false;
  fd_kept : opc i = op_discard -> opc i' = op_discard;
  fd_rewritten : rewritten (opc i) (opc i');
}.

Lemma consts_end T i K : bb_end i = true -> consts T (constants i K).
Proof. intros Eb t Ht. unfold TcgFit.constants in Ht. rewrite Eb in Ht. destruct i as [op l]. cbn [opc] in *. by destruct op; try (by apply elem_of_nil in Ht). Qed.

Lemma consts_other T T' i K :
  (bb_end i = false -> forall u, u ∉ outputs i -> is_const (T u) = true -> is_const (T' u) = true) ->
  opc i <> op_call -> (forall w, opc i <> op_movi w) -> consts T K -> consts T' (constants i K).
Proof.
  intros H Hn Ha HK. destruct (bb_end i) eqn:Eb; [by apply consts_end|]. intros t Ht. unfold TcgFit.constants in Ht. rewrite Eb in Ht.
  assert (t ∈ without (outputs i) K) as [Ho Hk]%without_in; [|by apply H; [..|apply HK]].
  destruct (opc i); try done. by destruct (Ha w).
Qed.

Lemma typed_shaped op l : shaped op l -> typed_b s op l = true.
Proof.
  intros Hsh. unfold typed_b. destruct (in_type op) as [w|] eqn:E; [|done]. apply forallb_forall. intros j [H1 H2]%in_seq.
  apply bool_decide_eq_true. destruct (sh_in _ _ _ Hsh j) as [_ H]; [unfold is_input; lia|]. by rewrite E in H.
Qed.

Lemma fit_default op l l2 K :
  op <> op_call -> assigns op = false -> shaped op l2 -> (op = op_discard -> arg l2 0 = arg l 0) ->
  source_args (mkOp op l) = true -> fit_args s tgt K (mkOp op l2) = true.
Proof.
  intros Hc Ha Hsh Hd Hs. pose proof (typed_shaped op l2 Hsh). destruct op; try done.
  cbn [fit_args opc args source_args] in *. by rewrite Hd.
Qed.

Lemma fitted_default T op l l2 :
  wf T -> op <> op_call -> assigns op = false -> shaped op l -> shaped op l2 ->
  (forall j, (j < oargs op)%nat -> arg l2 j = arg l j) -> source_args (mkOp op l) = true ->
  exists i', fst (do_default s T op l2) = [i'] /\ fitted T (mkOp op l) i' (snd (do_default s T op l2)).
Proof.
  intros HT Hc Ha Hsh Hsh2 Ho Hs. unfold do_default. cbn [fst snd]. rewrite <- (sh_len _ _ _ Hsh2), firstn_all. eexists. split; [done|].
  assert (outputs (mkOp op l2) = outputs (mkOp op l)) as Eo.
  { rewrite !outputs_eq by done. pose proof (arity_sum s op l Hsh). pose proof (arity_sum s op l2 Hsh2).
    apply (args_eq l2 l 0); [lia..|]. intros j Hj. apply Ho. lia. }
  assert (fits 64 (fst (known_bits T op l2))) as Hm.
  { destruct (pure op) eqn:Hp; [|by apply known_other].
    destruct (wf_sound s T HT) as (r & Hr). by apply (known_bits_fits s T (mkState r tt) Hr). }
  split; try done; [..|constructor].
  - intros K _. apply (fit_default op l); try done. intros ->. apply Ho. cbn. lia.
  - by left.
  - intros K HK. apply (consts_other T _ (mkOp op l2) K); try done; [|by intros w E; cbn in E; subst op]. unfold bb_end. cbn [opc]. intros -> u Hu Hk.
    apply outs_const; try done.
    + intros j Hj. apply (sh_out _ _ _ Hsh2). unfold oargs. lia.
    + intros j Hj <-. apply Hu. apply (outputs_arg s); [done..|]. exists j. split; [unfold oargs; lia|done].
  - intros [= ->]. split; [done|]. split; [apply Ho; cbn; lia|].
    set (m := fst (known_bits T op_discard l2)) in *.
    change (is_copy (upd (reset_temp T (arg l2 0)) (arg l2 0) (fun x => x <| mask := m |>) (arg l2 0)) = false). rewrite upd_same.
    change (is_copy (reset_temp T (arg l2 0) (arg l2 0)) = false). unfold is_copy.
    destruct (reset_temp_fields s T (arg l2 0) (arg l2 0)) as (_ & _ & _ & -> & _); [done| |done]. apply (sh_out _ _ _ Hsh2). cbn. lia.
Qed.

(** An operation without outputs, or whose outputs are what they were. *)
Lemma fitted_nop T i : opc i <> op_discard -> fitted T i (mkOp op_nop []) T.
Proof.
  intros Hd. split; try done; [by right| |constructor].
  intros K HK. by apply (consts_other T).
Qed.

Lemma fitted_br T T' i label : opc i <> op_discard -> fitted T i (mkOp op_br [label]) T'.
Proof. intros Hd. split; try done; [by right| |constructor]. intros K _. by apply consts_end. Qed.

(** The width of what is moved is that of the output, and no copy of 64 bits is
    of a word. *)
Lemma wide_input op l l2 j :
  pure op = true -> out_type op = Some W64 -> is_input op j -> shaped op l2 -> source_args (mkOp op l) = true ->
  (forall j, is_input op j -> exists k, is_input op k /\ type s (arg l2 j) = type s (arg l k)) -> type s (arg l2 j) = W64.
Proof.
  intros Hp Ho Hj Hsh Hs Ht. destruct (sh_in _ _ _ Hsh j Hj) as [_ H]. destruct (in_type op) as [w|] eqn:E.
  - rewrite H. destruct op; try done; cbn in *; try congruence; destruct w0; try congruence; destruct u; congruence.
  - destruct (Ht j Hj) as (k & Hk & ->). unfold is_input, oargs, iargs in Hj, Hk.
    destruct op; try done; cbn [tcg_op_defs nb_oargs nb_iargs] in *; try lia; [by destruct w|].
    destruct u; try done; injection Ho as ->; cbn [source_args opc args] in Hs; apply bool_decide_eq_true in Hs; by replace k with 1%nat by (cbn in Hk; lia).
Qed.

Lemma outputs_one op l d l' : pure op = true -> shaped op l -> arg l 0 = d -> outputs (mkOp op l) = take 1 (d :: l').
Proof.
  intros Hp Hsh <-. assert (op <> op_call) as Hc by (by intros ->). rewrite outputs_eq by done.
  destruct (pure_out op Hp) as (w & _ & ->). pose proof (shaped_min s op l Hsh Hp) as [Hl _]. destruct l; cbn in *; [lia|done].
Qed.

Lemma fitted_pure T nx i e :
  wf T -> op_ok s i -> pure (opc i) = true -> source_args i = true -> optimize_op s T nx i = Ok e ->
  exists i', fst e = [i'] /\ fitted T i i' (snd e).
Proof.
  intros HT Hok Hp Hs He. destruct i as [op l]. unfold op_ok in Hok. cbn [opc args] in *.
  assert (shaped op l) as Hsh by (destruct op; try done; apply Hok). assert (op <> op_call) as Hc by (by intros ->).
  destruct (canon_reads s T op l HT Hc Hsh) as (l' & E & Hsh2 & Hout & Hin & Hty).
  clear Hok. pose proof (optimize_formed s T nx (mkOp op l) l' (sh_present _ _ _ Hsh) Hp E e He) as Hf. cbn [opc] in Hf.
  set (l2 := canonicalize T op l') in *. destruct (pure_out op Hp) as (w & Hw & Ho).
  pose proof (op_width_pure op w (sh_present _ _ _ Hsh) Hp Hw) as Ew.
  destruct (sh_out _ _ _ Hsh2 0%nat) as [V0 T0]; [lia|]. rewrite Hw in T0.
  assert (forall j, is_input op j -> valid (arg l2 j)) as Vi by (intros j Hj; by apply (sh_in _ _ _ Hsh2)).
  assert (forall l', outputs (mkOp op l) = take 1 (arg l2 0 :: l')) as Eo by (intros l0; apply outputs_one; [done..|by rewrite Hout; [|lia]]).
  assert (op <> op_discard) as Hd by (by intros ->).
  destruct Hf as [v|j Hj Ec|j r Hj Hne Er|b u w' j Eb Hu Hj|c ->|Ha].
  - eexists. split; [done|]. split; try done; [..|constructor].
    + intros K _. change (bool_decide (type s (arg l2 0) = op_width op) = true). by rewrite bool_decide_eq_true, T0, Ew.
    + left. symmetry. apply Eo.
    + intros K HK t Ht. apply elem_of_app in Ht as [Ht%list_elem_of_singleton|Ht]; (apply movi_const; [done..|]); auto.
  - eexists. split; [done|]. by apply fitted_nop.
  - destruct (mov_const T _ _ r HT V0 (Vi j Hj) Hne Er) as [Es Hk]. destruct (mov_copy s T _ _ r 0 Er) as [Ef _].
    cbn [fst snd emit_op]. rewrite Ef. unfold op_to_mov. rewrite Ew. eexists. split; [done|]. split; try done; [..|constructor].
    + intros K HK. cbn [fit_args opc args]. change (arg [arg l2 0; arg l2 j] 0) with (arg l2 0). change (arg [arg l2 0; arg l2 j] 1) with (arg l2 j).
      rewrite !andb_true_iff, !bool_decide_eq_true, negb_true_iff, bool_decide_eq_false.
      split_and!; [done|done| |].
      * intros ->. by apply (wide_input op l).
      * intros Hkk. specialize (HK _ Hkk). congruence.
    + left. symmetry. apply Eo.
    + intros K HK. apply (consts_other T); try done. intros _ u Hu. apply Hk. intros ->. apply Hu. by left.
  - subst op. eexists. split; [done|]. split; try done; [..|by constructor].
    + intros K _. destruct (sh_in _ _ _ Hsh2 j Hj) as [_ Hin2]. cbn [in_type] in Hin2.
      assert (typed_b s (op_un u w') [arg l2 0; arg l2 j] = true) as Hb.
      { destruct Hu as [-> | ->]; cbn; by rewrite bool_decide_true. }
      by destruct Hu as [-> | ->].
    + left. symmetry. apply Eo.
    + intros K HK. apply (consts_other T); try done. intros _ v Hv. apply reset_const; [done..|]. intros ->. apply Hv. by left.
  - eexists. split; [done|]. split; try done; [..|by constructor].
    + intros K _. pose proof (fun j Hj => proj2 (sh_in _ _ _ Hsh2 j Hj)) as Hin2. cbn [in_type] in Hin2.
      cbn. rewrite !bool_decide_true; [done|apply Hin2; input..].
    + left. symmetry. apply Eo.
    + intros K HK. apply (consts_other T); try done. intros _ v Hv. apply reset_const; [done..|]. intros ->. apply Hv. by left.
  - by apply fitted_default.
Qed.

(** *** Branches and double words *)
Definition pair_fitted (T : temps_t) (i i1 i2 : TCGOp) (T' : temps_t) : Prop :=
  exists lo hi rl rh, i1 = mkOp (op_movi W32) [rl; lo] /\ i2 = mkOp (op_movi W32) [rh; hi] /\ outputs i = [rl; rh] /\
    type s rl = W32 /\ type s rh = W32 /\ forall K, consts T K -> consts T' (rh :: rl :: K).

Definition fitted_or_pair (T : temps_t) (i : TCGOp) (e : emitted) : Prop :=
  (exists i', fst e = [i'] /\ fitted T i i' (snd e)) \/ exists i1 i2, fst e = [i1; i2] /\ pair_fitted T i i1 i2 (snd e).

Lemma fitted_if T nx op l l2 (c : bool) lo hi e :
  wf T -> op <> op_call -> shaped op l -> oargs op = 2%nat -> out_type op = Some W32 ->
  (forall j, (j < oargs op)%nat -> arg l2 j = arg l j) -> fitted_or_pair T (mkOp op l) (do_default s T op l2) ->
  (if c then emit_pair T nx (arg l2 0) (arg l2 1) (u32 lo) hi else Ok (do_default s T op l2)) = Ok e ->
  fitted_or_pair T (mkOp op l) e.
Proof.
  intros HT Hc Hsh Ho Hw Hout Hd. destruct c; [|by intros [= <-]]. unfold emit_pair. destruct (decide _); [|done]. intros [= <-].
  rewrite !Hout by lia. right. eexists _, _. split; [done|]. exists (u32 lo), hi, (arg l 0), (arg l 1).
  destruct (sh_out _ _ _ Hsh 0%nat) as [V0 T0]; [lia|]. destruct (sh_out _ _ _ Hsh 1%nat) as [V1 T1]; [lia|]. rewrite Hw in T0, T1.
  split; [done|]. split; [done|]. split.
  { rewrite outputs_eq, Ho by done. pose proof (arity_sum s op l Hsh). rewrite Ho in *. by destruct l as [|? [|? l]]; cbn in *; [lia..|]. }
  split; [done|]. split; [done|]. intros K HK.
  assert (wf (snd (tcg_opt_gen_movi T (arg l 0) (u32 lo)))) as HT1.
  { destruct (wf_sound s T HT) as (r & Hr). apply (s_wf _ _ _ (sound_movi s T r (arg l 0) (u32 lo) Hr V0 (fits_weaken 32 64 _ ltac:(lia) (uwrap_fits 32 lo ltac:(lia))))). }
  intros t [->|[->|Ht]%elem_of_cons]%elem_of_cons; (apply (movi_const (snd (tcg_opt_gen_movi T (arg l 0) (u32 lo)))); [done..|]); [by left|right..];
    (apply movi_const; [done..|]); [by left|right; by apply HK].
Qed.

Lemma fitted_other T nx i e :
  wf T -> op_ok s i -> pure (opc i) = false -> opc i <> op_call -> source_args i = true -> optimize_op s T nx i = Ok e ->
  fitted_or_pair T i e.
Proof.
  intros HT Hok Hp Hc Hs He. destruct i as [op l]. unfold op_ok in Hok. cbn [opc args] in *.
  assert (shaped op l) as Hsh by (destruct op; try done; apply Hok). clear Hok.
  destruct (canon_reads s T op l HT Hc Hsh) as (l' & E & Hsh2 & Hout & Hin & _).
  rewrite (optimize_unfold s T nx (mkOp op l) l' E) in He. cbn [opc] in He. rewrite stages_pass in He by done.
  set (l2 := canonicalize T op l') in *.
  assert (fitted_or_pair T (mkOp op l) (do_default s T op l2)) as Hd by (left; apply fitted_default; try done; by destruct op).
  assert (forall r, Ok r = Ok e -> e = r) as Hr by (by intros r [= ->]).
  destruct op; try done; cbn [fold_op] in He; try (apply Hr in He as ->; exact Hd);
    try (destruct w; [|apply Hr in He as ->; exact Hd]);
    try (refine (fitted_if T nx _ l l2 _ _ _ e HT _ Hsh _ _ Hout Hd He); done).
  - destruct (do_constant_folding_cond _ _ _ _ _ _) as [[[]|]|]; cbn [obind] in He; [..|done]; apply Hr in He as ->;
      [..|exact Hd]; left; (eexists; split; [done|]); [by apply fitted_br|by apply fitted_nop].
  - destruct (do_constant_folding_cond2 _ _ _ _ _ _ _) as [[[]|]|]; cbn [obind] in He; [..|done].
    + apply Hr in He as ->. left. eexists. split; [done|by apply fitted_br].
    + apply Hr in He as ->. left. eexists. split; [done|by apply fitted_nop].
    + case_match; apply Hr in He as ->; [|exact Hd]. left. eexists. split; [done|]. split; try done; [|by left| |by constructor].
      * intros K _. pose proof (fun j Hj => proj2 (sh_in _ _ _ Hsh2 j Hj)) as Hin2. cbn [in_type] in Hin2.
        cbn. rewrite !bool_decide_true; [done|apply Hin2; input..].
      * intros K _. by apply consts_end.
Qed.

(** *** Calls *)
Lemma fitted_call T nx l e :
  call_ok s l -> wf T -> 0 <= nb_globals s <= nb_temps s -> source_args (mkOp op_call l) = true -> optimize_op s T nx (mkOp op_call l) = Ok e ->
  exists i', fst e = [i'] /\ fitted T (mkOp op_call l) i' (snd e).
Proof.
  intros Hok HT Hg Hs He. destruct (call_emitted s T nx l e Hok HT He) as (l' & -> & El & Eo & Ei).
  destruct (call_same_shape s l l' Hok El Eo) as (Ea & Eout & Ef & _). unfold fold_call. cbn [fst snd]. eexists. split; [done|].
  assert (Forall valid (call_outs l)) as Vo.
  { destruct Hok as [Hl Hv]. unfold call_outs, call_args in *. cbn [fst snd] in *. apply take_args_valid; [lia|]. intros j Hj. apply Hv. lia. }
  split; try done; [..|constructor].
  - intros K _. cbn [fit_args source_args opc args] in *. rewrite <- Hs.
    assert (length (call_ins l') = length (call_ins l)) as Hl.
    { unfold call_ins, call_args in *. injection Ea as -> ->. by rewrite !length_take, !length_drop, El. }
    unfold fit_call, call_regs. by rewrite Eout, Hl.
  - left. unfold outputs. cbn [opc args]. by rewrite Eout.
  - intros K HK t [Ho Ht]%without_in. change (t ∉ call_outs l') in Ho. change (t ∈ call_constants s l' K) in Ht.
    unfold call_constants in Ht. rewrite Ef in Ht. rewrite Eout in *. rewrite Ef, <- (call_flag_bits s) by done. destruct (writes_globals (call_flags l)).
    + apply list_elem_of_filter in Ht as [Hn Ht]. destruct (range_const (globals s) T HT) as [HT1 H1].
      { apply Forall_forall. intros u Hu%elem_of_seqZ. unfold TcgRing.valid. lia. }
      apply range_const; [done..|]. apply H1; [|by apply HK]. intros Hin%elem_of_seqZ. apply Hn. unfold is_global. lia.
    + apply range_const; [done..|by apply HK].
Qed.

Lemma fitted_emitted T nx i e :
  wf T -> op_ok s i -> 0 <= nb_globals s <= nb_temps s -> source_args i = true -> optimize_op s T nx i = Ok e -> fitted_or_pair T i e.
Proof.
  intros HT Hok Hg Hs He. destruct (pure (opc i)) eqn:Hp; [left; by apply (fitted_pure T nx)|].
  destruct (decide (opc i = op_call)) as [E|]; [|by apply (fitted_other T nx)].
  destruct i as [op l]. cbn [opc] in E. subst op. left. by apply (fitted_call T nx).
Qed.

(** ** A block *)
Definition covers_known (T : temps_t) (D D' : list Z) : Prop :=
  (forall t, t ∈ D -> known D' t = true) /\ forall t, valid t -> is_copy (T t) = true -> known D' t = true.

Lemma known_iff D t : known D t = true <-> is_global s t \/ t ∈ D.
Proof. apply (known_spec s G). Qed.
Lemma known_app l D t : known D t = true -> known (l ++ D) t = true.
Proof. rewrite !known_iff, elem_of_app. tauto. Qed.
Lemma known_in l D t : t ∈ l -> known (l ++ D) t = true.
Proof. rewrite known_iff, elem_of_app. tauto. Qed.

Lemma written_plain i D : opc i <> op_discard -> bb_end i = false -> written i D = outputs i ++ D.
Proof. intros Hd Eb. unfold TcgFit.written. rewrite Eb. by destruct (opc i). Qed.
Lemma written_end i D : bb_end i = true -> written i D = filter (fun t => temp_local s t = true) D.
Proof. intros Eb. unfold TcgFit.written. rewrite Eb. destruct i as [op l]. cbn [opc] in *. by destruct op. Qed.

Lemma covers_written T i i' T' D D' :
  framed s i -> framed s i' -> fitted T i i' T' -> tidy s T i i' T' -> (forall t, t ∈ inputs i -> known D' t = true) ->
  covers_known T D D' -> covers_known T' (written i D) (written i' D').
Proof.
  intros Hf Hf' [_ _ _ Fd Fk _] [_ Ti To Te Tc] Hin [C1 C2].
  assert (forall t, t ∈ inputs i' -> known D' t = true) as Hin'.
  { intros t Ht. destruct (Ti t Ht); [by apply Hin|]. apply C2; [|done]. apply (framed_valid s i'); auto. }
  assert (forall t, valid t -> is_copy (T' t) = true -> known D' t = true \/ t ∈ outputs i') as Hc.
  { intros t Vt Ht. destruct (Tc t Ht) as [?|[?|?]]; auto. }
  destruct (decide (opc i' = op_discard)) as [Ed|Nd].
  - destruct (Fd Ed) as (Ed0 & Ea & Hn). unfold TcgFit.written. rewrite Ed, Ed0, Ea in *.
    assert (forall t, t <> arg (args i) 0 -> known D' t = true -> known (filter (fun t => t <> arg (args i) 0) D') t = true) as Hfl.
    { intros t Hne [?|Ht]%known_iff; apply known_iff; [by left|right]. by apply list_elem_of_filter. }
    split.
    + intros t [Hne Ht]%list_elem_of_filter. by apply Hfl, C1.
    + intros t Vt Ht. assert (t <> arg (args i) 0) as Hne by congruence. apply Hfl; [done|]. destruct (Hc t Vt Ht) as [?|Ho]; [done|].
      destruct Hne. destruct i' as [op l']. cbn [opc] in Ed. subst op. apply framed_eq in Hf' as [El _]; [|done].
      destruct l' as [|x [|]]; try done. by apply list_elem_of_singleton in Ho as ->.
  - assert (opc i <> op_discard) as Nd0 by (intros E; by apply Nd, Fk).
    destruct (bb_end i') eqn:Eb'.
    + destruct (Te eq_refl) as [Eb Hn]. rewrite !written_end by done. split.
      * intros t [Hl Ht]%list_elem_of_filter. apply known_iff. specialize (C1 t Ht). apply known_iff in C1 as [?|?]; [by left|right].
        by apply list_elem_of_filter.
      * intros t Vt Ht. by rewrite Hn in Ht.
    + rewrite (written_plain i') by done. split.
      * intros t Ht. assert (t ∈ outputs i ++ D) as Ht' by (destruct (bb_end i) eqn:Eb;
          [rewrite written_end in Ht by done; apply list_elem_of_filter in Ht as [_ ?]; apply elem_of_app; by right|by rewrite written_plain in Ht]).
        apply elem_of_app in Ht' as [Ho|?]; [|by apply known_app, C1].
        destruct (To t Ho) as [?|[?|?]]; [by apply known_in|by apply known_app, Hin|]. apply known_app, C2; [|done]. apply (framed_valid s i); auto.
      * intros t Vt Ht. destruct (Hc t Vt Ht); [by apply known_app|by apply known_in].
Qed.

Lemma source_op_ok D i :
  source_op D i = true ->
  (forall t, t ∈ inputs i -> known D t = true) /\ NoDup (outputs i) /\ (forall t, t ∈ outputs i -> fixed s G t = false) /\ source_args i = true.
Proof.
  unfold source_op. rewrite !andb_true_iff, bool_decide_eq_true. intros [[[H1 H2] H3] H4]. split; [|split; [done|split; [|done]]].
  - intros t Ht. by apply (proj1 (forallb_forall _ _) H1), list_elem_of_In.
  - intros t Ht. by apply negb_true_iff, (proj1 (forallb_forall _ _) H3), list_elem_of_In.
Qed.

Lemma known_covered D D' t : (forall t, t ∈ D -> known D' t = true) -> known D t = true -> known D' t = true.
Proof. intros H [?|?]%known_iff; [apply known_iff; by left|by apply H]. Qed.

Lemma fit_emitted T T' D D' K' i i' :
  framed s i' -> source_op D i = true -> fitted T i i' T' -> tidy s T i i' T' -> covers_known T D D' -> consts T K' ->
  fit_op s tgt G D' K' i' = true.
Proof.
  intros Hf' (Hin & Hnd & Hfree & _)%source_op_ok [Fa Fo _ _ _ _] Ht [C1 C2] HK. unfold fit_op.
  rewrite !andb_true_iff, bool_decide_eq_true. split; [split; [split|]|by apply Fa].
  - apply forallb_forall. intros t Hi%list_elem_of_In. destruct (ti_in _ _ _ _ _ Ht t Hi); [by apply (known_covered D), Hin|].
    apply C2; [|done]. apply (framed_valid s i'); auto.
  - destruct Fo as [-> | ->]; [done|constructor].
  - apply forallb_forall. intros t Ho%list_elem_of_In. apply negb_true_iff, Hfree.
    destruct Fo as [E|E]; rewrite E in Ho; [done|by apply elem_of_nil in Ho].
Qed.

Lemma fit_pair T T' D D' K' i i1 i2 :
  framed s i -> source_op D i = true -> opc i <> op_discard -> bb_end i = false -> pair_fitted T i i1 i2 T' ->
  (forall t, is_copy (T' t) = true -> is_copy (T t) = true) -> covers_known T D D' -> consts T K' ->
  fit_op s tgt G D' K' i1 = true /\ fit_op s tgt G (written i1 D') (constants i1 K') i2 = true /\
  covers_known T' (written i D) (written i2 (written i1 D')) /\ consts T' (constants i2 (constants i1 K')) /\
  opc i1 = op_movi W32 /\ opc i2 = op_movi W32.
Proof.
  intros Hf (Hin & Hnd & Hfree & _)%source_op_ok Hd Eb (lo & hi & rl & rh & -> & -> & Eo & Tl & Th & Hk) Hc [C1 C2] HK.
  assert (fixed s G rl = false /\ fixed s G rh = false) as [Fl Fh] by (split; apply Hfree; rewrite Eo; set_solver).
  unfold fit_op. cbn. rewrite Fl, Fh, !bool_decide_true by (done || apply NoDup_singleton). split; [done|]. split; [done|].
  split; [|by split; [apply Hk|]]. rewrite written_plain, Eo by done. split.
  - intros t Ht. apply known_iff. cbn in Ht |- *. rewrite !elem_of_cons in *.
    destruct Ht as [->|[->|Ht]]; [auto..|]. specialize (C1 t Ht). apply known_iff in C1 as [?|?]; auto.
  - intros t Vt Ht. apply (known_app [rh; rl]), C2; auto.
Qed.

(** A block that passes the check becomes one that passes the allocator's. *)
Lemma fold_ops_fits T D D' K' p p' :
  block_ok s p -> Forall (framed s) p -> doubles_ok p = true -> source_block D p = true -> wf T -> covers_known T D D' -> consts T K' ->
  fold_ops s T p = Ok p' ->
  fits_block s tgt G D' K' p' = true /\ Forall (fun i' => exists i, i ∈ p /\ rewritten (opc i) (opc i')) p'.
Proof.
  remember (length p) as n eqn:En. revert T D D' K' p p' En.
  induction (lt_wf n) as [n _ IH]. intros T D D' K' p p' -> Hb Hf Hdb Hs HT HC HK H.
  destruct p as [|i p]; [by injection H as <-|].
  destruct (block_head s i p Hb) as [Hi _]. apply Forall_cons in Hf as [Fi Fp].
  cbn in Hdb, Hs. apply andb_true_iff in Hdb as [_ Hdb], Hs as [Hs1 Hs2]. pose proof (bo_globals _ _ Hb) as Hg.
  destruct (source_op_ok D i Hs1) as (Hin & _ & _ & Hsa).
  destruct (fold_ops_cons s T i p p' Hb HT H) as (e & Ee & HT' & Hcase).
  pose proof (tidy_emitted s T _ i e HT Hi Ee) as Ht. pose proof (sane_emitted s T _ i e HT Hi Fi Ee) as Hsane.
  pose proof (fitted_emitted T _ i e HT Hi Hg Hsa Ee) as Hfit.
  destruct Hcase as [(i' & q & E1 & -> & Eq & _)|(i1 & i2 & j & p2 & q & E1 & -> & Ej & -> & Eq & _)]; rewrite E1 in Hsane.
  - destruct Ht as [(i0 & E0 & Ht)|(? & ? & E0 & _)]; [|congruence]. assert (i0 = i') as -> by congruence.
    destruct Hfit as [(i0 & E2 & Hfit)|(? & ? & E2 & _)]; [|congruence]. assert (i0 = i') as -> by congruence.
    apply Forall_cons in Hsane as [[Fi' _] _].
    assert (forall t, t ∈ inputs i -> known D' t = true) as Hin' by (intros t Hti; by apply (known_covered D), Hin; [apply HC|]).
    pose proof (covers_written T i i' (snd e) D D' Fi Fi' Hfit Ht Hin' HC) as HC'.
    destruct (IH (length p) ltac:(cbn; lia) (snd e) _ _ _ p q eq_refl (block_tail _ _ _ Hb) Fp Hdb Hs2 HT' HC' (fd_const _ _ _ _ Hfit _ HK) Eq) as [IH1 IH2].
    split.
    + cbn. apply andb_true_iff. split; [by apply (fit_emitted T (snd e) D D' K' i i')|done].
    + apply Forall_cons. split; [exists i; split; [by left|apply Hfit]|].
      apply (Forall_impl _ _ _ IH2). intros x (y & Hy & Hr). exists y. split; [by right|done].
  - destruct Ht as [(? & E0 & _)|(j1 & j2 & E0 & Ht)]; [congruence|]. assert (j1 = i1 /\ j2 = i2) as [-> ->] by (split; congruence).
    destruct Hfit as [(? & E2 & _)|(j1 & j2 & E2 & Hfit)]; [congruence|]. assert (j1 = i1 /\ j2 = i2) as [-> ->] by (split; congruence).
    apply Forall_cons in Fp as [_ Fp]. pose proof Ht as (_ & _ & _ & _ & _ & _ & Bi & Hcp).
    cbn in Hs2, Hdb. apply andb_true_iff in Hs2 as [_ Hs2]. destruct j as [oj lj]. cbn in Ej. subst oj. cbn in Hdb.
    change (written (mkOp op_nop lj) (written i D)) with (written i D) in Hs2.
    assert (opc i <> op_discard) as Hnd.
    { intros E. destruct Hfit as (? & ? & rl & rh & _ & _ & Eo & _). destruct i as [op l]. cbn [opc] in E. subst op.
      apply framed_eq in Fi as [El _]; [|done]. by destruct l as [|? [|]]. }
    destruct (fit_pair T (snd e) D D' K' i i1 i2 Fi Hs1 Hnd Bi Hfit Hcp HC HK) as (H1 & H2 & HC' & HK' & O1 & O2).
    destruct (IH (length p2) ltac:(cbn; lia) (snd e) _ _ _ p2 q eq_refl (block_drop _ _ 2 Hb) Fp Hdb Hs2 HT' HC' HK' Eq) as [IH1 IH2].
    split; [cbn; by rewrite H1, H2|]. repeat apply Forall_cons; split; [|apply Forall_cons; split].
    + exists i. rewrite O1. split; [by left|constructor].
    + exists i. rewrite O2. split; [by left|constructor].
    + apply (Forall_impl _ _ _ IH2). intros x (y & Hy & Hr). exists y. split; [by right; right|done].
Qed.
End keep.
End TcgKeep.
