(* ===== verification/TcgCode.v ===== *)
(** The code of a block (tcg/tcg.c, [tcg_gen_code_common]): the register
    allocator goes through what the liveness pass leaves, and the host
    instructions it emits run as the block does. *)
From Stdlib Require Import ZArith Lia Bool.
From stdpp Require Import base numbers list sets.
From S2P Require Import Prelude HostUtils TcgOp TcgOpt TcgRing TcgArith TcgSem TcgBits TcgSound TcgStep TcgProg TcgShape TcgLive TcgReg TcgHost TcgMeaning TcgPlace TcgMove TcgAlloc TcgSim TcgSimOp TcgSimMov TcgSimCall TcgMarks TcgFit.
Local Open Scope Z_scope.
Local Open Scope prog_scope.

Module TcgCode.
Import Tcg TcgOpt TcgRing TcgArith TcgSem TcgBits TcgSound TcgStep TcgProg TcgShape TcgLive TcgReg TcgHost TcgMeaning TcgPlace TcgMove TcgAlloc TcgSim TcgSimOp TcgSimMov TcgSimCall TcgMarks TcgFit.

(** ** Only [set_label] emits a label *)
Section quiet.
Context (s : TCGContext) (tgt : Target).

Definition no_label (i : hinsn) : Prop := match i with HLabel _ => False | _ => True end.
Definition quiet {A} (m : M A) : Prop := forall st a st' es, m st = Ok (a, st', es) -> Forall no_label es.

Lemma quiet_ret {A} (a : A) : quiet (ret a).
Proof. by intros st a' st' es [= <- <- <-]. Qed.
Lemma quiet_bind {A B} (m : M A) (k : A -> M B) : quiet m -> (forall a, quiet (k a)) -> quiet (bind m k).
Proof.
  intros Hm Hk st b st' es. unfold bind. destruct (m st) as [[[a st1] es1]|] eqn:E1; [|done].
  destruct (k a st1) as [[[b' st2] es2]|] eqn:E2; [|done]. intros [= <- <- <-].
  apply Forall_app. split; [by eapply Hm|by eapply Hk].
Qed.
Lemma quiet_gets {A} (f : alloc_state -> A) : quiet (gets f).
Proof. by intros st a' st' es [= <- <- <-]. Qed.
Lemma quiet_modify f : quiet (modify f).
Proof. by intros st a' st' es [= <- <- <-]. Qed.
Lemma quiet_abort {A} f : quiet (abort f : M A).
Proof. by intros st a' st' es [=]. Qed.
Lemma quiet_emit i : no_label i -> quiet (emit i).
Proof. intros Hi st a' st' es [= <- <- <-]. by constructor. Qed.
Lemma quiet_when c m : quiet m -> quiet (when c m).
Proof. intros Hm. destruct c; [done|apply quiet_ret]. Qed.
Lemma quiet_each {X} (f : X -> M unit) l : (forall x, quiet (f x)) -> quiet (each f l).
Proof. intros Hf. induction l as [|x l IH]; [apply quiet_ret|]. by apply quiet_bind. Qed.
Lemma quiet_assert b : quiet (assert_ b).
Proof. destruct b; [apply quiet_ret|apply quiet_abort]. Qed.
Lemma quiet_option {A} f (o : option A) : quiet (of_option f o : M A).
Proof. destruct o; [apply quiet_ret|apply quiet_abort]. Qed.

Create HintDb quiet.
#[local] Hint Resolve quiet_ret quiet_gets quiet_modify quiet_abort quiet_assert quiet_option quiet_when quiet_each : quiet.
Ltac quiet :=
  repeat first
    [ progress auto with quiet
    | apply quiet_emit; exact I
    | apply quiet_bind; [|intros ?]
    | apply quiet_when
    | apply quiet_each; intros ?
    | case_match ].

Lemma quiet_frame t : quiet (temp_allocate_frame tgt t).
Proof. unfold temp_allocate_frame, set_temp. quiet. Qed.
#[local] Hint Resolve quiet_frame : quiet.
Lemma quiet_sync r : quiet (tcg_reg_sync s tgt r).
Proof. unfold tcg_reg_sync, get_temp, set_temp. quiet. Qed.
#[local] Hint Resolve quiet_sync : quiet.
Lemma quiet_free r : quiet (tcg_reg_free s tgt r).
Proof. unfold tcg_reg_free, set_temp, set_reg_to_temp. quiet. Qed.
#[local] Hint Resolve quiet_free : quiet.
Lemma quiet_alloc a b : quiet (tcg_reg_alloc s tgt a b).
Proof. unfold tcg_reg_alloc. quiet. Qed.
#[local] Hint Resolve quiet_alloc : quiet.
Lemma quiet_dead t : quiet (temp_dead s t).
Proof. unfold temp_dead, get_temp, set_temp, set_reg_to_temp. quiet. Qed.
#[local] Hint Resolve quiet_dead : quiet.
Lemma quiet_temp_sync t a : quiet (temp_sync s tgt t a).
Proof. unfold temp_sync, get_temp, set_temp, set_reg_to_temp. quiet. Qed.
#[local] Hint Resolve quiet_temp_sync : quiet.
Lemma quiet_save t : quiet (temp_save t).
Proof. unfold temp_save, get_temp. quiet. Qed.
#[local] Hint Resolve quiet_save : quiet.
Lemma quiet_forget ts : quiet (forget_reg ts).
Proof. unfold forget_reg, set_reg_to_temp. quiet. Qed.
#[local] Hint Resolve quiet_forget : quiet.
Lemma quiet_globals : quiet (TcgReg.sync_globals s) /\ quiet (save_globals s).
Proof. unfold TcgReg.sync_globals, save_globals, get_temp. split; quiet. Qed.
Lemma quiet_sync_globals : quiet (TcgReg.sync_globals s).
Proof. apply quiet_globals. Qed.
Lemma quiet_save_globals : quiet (save_globals s).
Proof. apply quiet_globals. Qed.
#[local] Hint Resolve quiet_sync_globals quiet_save_globals : quiet.
Lemma quiet_end : quiet (tcg_reg_alloc_bb_end s).
Proof. unfold tcg_reg_alloc_bb_end, get_temp. quiet. Qed.
#[local] Hint Resolve quiet_end : quiet.
Lemma quiet_movi l da sa : quiet (tcg_reg_alloc_movi s tgt l da sa).
Proof. unfold tcg_reg_alloc_movi, get_temp, set_temp. quiet. Qed.
Lemma quiet_mov op l da sa : quiet (tcg_reg_alloc_mov s tgt op l da sa).
Proof. unfold tcg_reg_alloc_mov, mov_load, mov_store, mov_reg, get_temp, set_temp, set_reg_to_temp. quiet. Qed.
Lemma quiet_load t c a b : quiet (load_arg s tgt t c a b).
Proof. unfold load_arg, get_temp, set_temp, set_reg_to_temp. quiet. Qed.
#[local] Hint Resolve quiet_load : quiet.
Lemma quiet_input op l da i pl : quiet (alloc_input s tgt op l da i pl).
Proof. unfold alloc_input, get_temp. quiet. Qed.
Lemma quiet_inputs op l da ks pl : quiet (alloc_inputs s tgt op l da ks pl).
Proof. revert pl. induction ks as [|k ks IH]; intros pl; [apply quiet_ret|]. apply quiet_bind; [apply quiet_input|done]. Qed.
Lemma quiet_output op l i pl : quiet (alloc_output s tgt op l i pl).
Proof. unfold alloc_output, get_temp, set_temp, set_reg_to_temp. quiet. Qed.
Lemma quiet_outputs op l ks pl : quiet (alloc_outputs s tgt op l ks pl).
Proof. revert pl. induction ks as [|k ks IH]; intros pl; [apply quiet_ret|]. apply quiet_bind; [apply quiet_output|done]. Qed.
Lemma quiet_clobbered : quiet (free_clobbered s tgt).
Proof. unfold free_clobbered. quiet. Qed.
Lemma quiet_kill l da js : quiet (kill_dead s l da js).
Proof. unfold kill_dead. quiet. Qed.
Lemma quiet_finish l da sa pl i : quiet (finish_output s tgt l da sa pl i).
Proof. unfold finish_output, get_temp. quiet. Qed.
#[local] Hint Resolve quiet_inputs quiet_outputs quiet_clobbered quiet_kill quiet_finish : quiet.
Lemma quiet_op op l da sa : quiet (tcg_reg_alloc_op s tgt op l da sa).
Proof. unfold tcg_reg_alloc_op. quiet. Qed.
Lemma quiet_stack_args o ts : quiet (stack_args s tgt o ts).
Proof.
  revert o. induction ts as [|t ts IH]; intros o; [apply quiet_ret|]. apply quiet_bind; [|done].
  unfold stack_arg, get_temp. quiet.
Qed.
Lemma quiet_reg_args rs ts a : quiet (reg_args s tgt rs ts a).
Proof.
  revert ts a. induction rs as [|r rs IH]; intros [|t ts] a; try apply quiet_ret. apply quiet_bind; [|done].
  unfold reg_arg, get_temp. quiet.
Qed.
Lemma quiet_func op f a : quiet (func_arg s tgt op f a).
Proof. unfold func_arg, get_temp. quiet. Qed.
Lemma quiet_result l da sa i : quiet (call_output s tgt l da sa i).
Proof. unfold call_output, get_temp, set_temp, set_reg_to_temp. quiet. Qed.
#[local] Hint Resolve quiet_stack_args quiet_reg_args quiet_func quiet_result : quiet.
Lemma quiet_call l da sa : quiet (tcg_reg_alloc_call s tgt l da sa).
Proof. unfold tcg_reg_alloc_call. quiet. Qed.
#[local] Hint Resolve quiet_movi quiet_mov quiet_op quiet_call : quiet.

Lemma quiet_entry e : opc (fst e) <> op_set_label -> quiet (tcg_reg_alloc_entry s tgt e).
Proof. intros Hn. unfold tcg_reg_alloc_entry. destruct (default _ _) as [da sa]. destruct (opc (fst e)); try done; quiet. Qed.
End quiet.

(** ** The list the liveness pass leaves *)
Section code.
Context (s : TCGContext) (tgt : Target) (T : Z -> TCGTemp) (has_high : binop -> width -> bool).
Notation valid := (valid s).
Notation is_global := (is_global s).
Notation carried := (carried s).
Notation fixed := (fixed s T).
Notation fits_block := (fits_block s tgt T).
Notation covered := (covered s).
Notation mem_carried := (mem_carried s).

(** Behind the block memory holds the globals and nothing is read. *)
Definition at_end (st : live_state) : Prop :=
  forall t, valid t -> dead_temps st t = true /\ (mem_temps st t = true <-> is_global t).

Inductive marked : list TCGOp -> list la_entry -> live_state -> Prop :=
| marked_end st : at_end st -> marked [] [] st
| marked_cons i p i' x q after before :
    marked p q after -> left_of s has_high i after before i' x -> mem_carried after -> marked (i :: p) ((i', x) :: q) before.

Lemma marked_renopped p q q' st : marked p q st -> renopped q q' -> marked p q' st.
Proof.
  intros H [->|(j & j' & x & q0 & -> & -> & Ej & Ej')]; [done|].
  inversion H as [|i p0 ? ? ? after ? Hm Hl Hc]; subst. apply (marked_cons _ _ _ _ _ after); [done| |done].
  destruct Hl as [j x Hj Hb Hns E Ho Hw|x Ei|x Ei|x Ei|x Hk|op keep u v x Hn]; try congruence.
  - by apply left_gone.
  - by rewrite Ej in Hk.
  - cbn [opc] in Ej. subst op. inversion Hn.
Qed.

Lemma end_mem st : at_end st -> mem_carried st.
Proof. intros H t Ht Hmt. left. by apply (H t Ht). Qed.

Lemma marked_mem p q st : marked p q st -> mem_carried st.
Proof. destruct 1 as [st H|i p i' x q after before Hm Hl Hc]; [by apply end_mem|by apply (left_mem s has_high i after before i' x)]. Qed.

Lemma marked_covered p q st D K : marked p q st -> Forall (framed s) p -> fits_block D K p = true -> covered D st.
Proof.
  intros H. revert D K. induction H as [st H|i p i' x q after before Hm IH Hl Hc]; intros D K Hf Hfit.
  - intros t Ht [Hd|Hmt]; right; left; [destruct (H t Ht); congruence|by apply (H t Ht)].
  - apply Forall_cons in Hf as [Hf Hfp]. cbn in Hfit. apply andb_true_iff in Hfit as [H1%fit_op_ok H2].
    by apply (covered_before s tgt T has_high D K i after before i' x Hf H1 Hl), (IH _ _ Hfp H2).
Qed.

Section live.
Hypothesis (Hg : 0 <= nb_globals s <= nb_temps s).
Hypothesis (Hm : nb_temps s <= TCG_MAX_TEMPS).

Lemma func_end_at_end st : at_end (tcg_la_func_end s st).
Proof.
  intros t [H0 H1]. unfold TcgShape.is_global. cbn. rewrite memset_in by lia. split; [done|].
  destruct (Z.lt_ge_cases t (nb_globals s)).
  - rewrite memset_out, memset_in by lia. split; [lia|done].
  - rewrite memset_in by lia. split; [done|lia].
Qed.

Lemma fit_call_fits K i : fit_args s tgt K i = true -> opc i = op_call -> call_fits (args i).
Proof.
  unfold fit_args, fit_call. intros H Ei. rewrite Ei in H. rewrite !andb_true_iff, !Nat.leb_le in H. by destruct H as [[[[? ?] ?] ?] ?].
Qed.

Lemma la_loop_marked p st0 D K :
  Forall (framed s) p -> doubles_ok p = true -> fits_block D K p = true ->
  exists q st, la_loop s has_high p (tcg_la_func_end s st0) = Ok (q, st) /\ marked p q st /\
    (option_map opc (head p) = Some op_nop -> nop_next q).
Proof.
  intros Hf. revert D K. induction Hf as [|i p Hi Hf IH]; intros D K Hd Hfit; cbn [la_loop].
  - eexists _, _. split; [done|]. split; [by apply marked_end, func_end_at_end|done].
  - cbn in Hd, Hfit. apply andb_true_iff in Hd as [Hd1 Hd2], Hfit as [H1%fit_op_ok H2].
    destruct (IH _ _ Hd2 H2) as (q & after & -> & Hmk & Hq). cbn [obind fst snd].
    pose proof (marked_covered p q after _ _ Hmk Hf H2) as Hcov.
    assert (doubles (opc i) = true -> nop_next q) as Hnop.
    { intros E. rewrite E in Hd1. by apply bool_decide_eq_true in Hd1; apply Hq. }
    destruct (la_op_left s has_high Hg Hm i q after Hi (ft_nodup _ _ _ _ _ _ H1) Hnop) as (i' & x & q' & before & E & Hr & Hl).
    + intros Eb. by apply (covered_end s i D).
    + by apply (marked_mem p q).
    + intros Ei. by apply (fit_call_fits K i); [apply H1|].
    + intros Ei. by apply (discard_dead s tgt T i D K).
    + exists ((i', x) :: q'), before. split; [done|]. split.
      * apply (marked_cons _ _ _ _ _ after); [by apply (marked_renopped p q)|done|by apply (marked_mem p q)].
      * cbn. intros [= Ei]. rewrite la_op_nop in E by done. injection E as <- _ _ _. by exists (mkOp op_nop (args i)), x, q'.
Qed.
End live.

(** ** The loop *)
Section loop.
Notation inv := (inv s tgt T).
Notation wf := (wf s tgt T).
Notation extends := (extends s T).
Hypothesis (HL : layout_ok s tgt T).
Hypothesis (Hm : nb_temps s <= TCG_MAX_TEMPS).
Context {W : Type} (host : Host W) (junk : hstate W -> hstate W).
Hypothesis (Hh : host_fits s T host).
Notation placed_entry := (placed_entry s tgt T host junk).

(** The consistency check passes. *)
Lemma check_regs_ok A : wf A -> check_regs s tgt A = Ok (tt, A, []).
Proof.
  intros HA. unfold check_regs, bind, gets. rewrite !each_same; [done| |].
  - intros t [H0 H1]%elem_of_seqZ. assert (valid t) as Vt by (unfold TcgRing.valid; lia). unfold id.
    destruct (is_val TEMP_VAL_REG (temps A t)) eqn:Er; [|done]. rewrite (wf_fixed _ _ _ A HA t Vt).
    destruct (fixed t) eqn:Ft; [done|]. cbn [andb negb]. destruct (wf_reg _ _ _ A HA t Vt Ft Er) as [-> _]. by rewrite Z.eqb_refl.
  - intros r _. destruct (Z.leb_spec 0 (reg_to_temp (id A) r)) as [Hk|]; [|done]. cbn [when].
    destruct (wf_map _ _ _ A HA r) as (Vt & Ft & Rt & Er); [unfold id in Hk; lia|]. unfold in_reg in Rt. unfold id. rewrite Rt, Er. by rewrite Z.eqb_refl.
Qed.

(** The code, an entry at a time, and the tables in front of each; [E]: the
    tables at the end. *)
Inductive placed_code (E : alloc_state) : list TCGOp -> list (list hinsn) -> live_state -> list Z -> list Z -> alloc_state -> Prop :=
| placed_end st D K : inv st D K E -> at_end st -> placed_code E [] [] st D K E
| placed_cons i p es code before after D K D' K' A A' :
    placed_entry i before after D K D' K' A A' es -> (opc i <> op_set_label -> Forall no_label es) ->
    placed_code E p code after D' K' A' -> placed_code E (i :: p) (es :: code) before D K A.

Lemma code_extends E p code st D K A : placed_code E p code st D K A -> extends A E /\ wf E.
Proof.
  induction 1 as [st D K HI _|i p es code before after D K D' K' A A' [He _] _ _ [IH HE]]; [split; [apply extends_refl|apply HI]|].
  split; [|done]. by apply (extends_trans s T A A'); [apply He|].
Qed.

Lemma loop_run p q st D K A :
  marked p q st -> Forall (framed s) p -> Forall (fun i => ready tgt has_high (opc i)) p -> fits_block D K p = true -> inv st D K A ->
  runs (tcg_gen_code_loop s tgt q) A
    (fun _ E es => exists code, es = concat code /\ placed_code E (map fst q) code st D K A).
Proof.
  intros H. revert D K A. induction H as [st H|i p i' x q after before Hmk IH Hl Hc]; intros D K A Hf Hr Hfit HI; unfold tcg_gen_code_loop; cbn [each].
  - apply runs_ret. exists []. split; [done|]. by apply placed_end.
  - apply Forall_cons in Hf as [Hf Hfp], Hr as [Hr Hrp]. cbn in Hfit. apply andb_true_iff in Hfit as [H1%fit_op_ok H2].
    pose proof (marked_covered p q after _ _ Hmk Hfp H2) as Hcov.
    apply runs_bind. apply runs_bind.
    pose proof (entry_run s tgt T has_high HL Hm host junk Hh i i' x after before D K A Hf H1 Hr Hl HI Hc Hcov) as (a & A1 & es & Ee & HP).
    exists a, A1, es. split; [done|]. pose proof (eo_inv _ _ _ _ _ _ _ _ _ _ _ _ _ _ _ (pe_entry _ _ _ _ _ _ _ _ _ _ _ _ _ _ _ HP)) as HI1.
    exists tt, A1, []. split; [by apply check_regs_ok, HI1|].
    refine (runs_mono _ _ _ _ (IH _ _ A1 Hfp Hrp H2 HI1) _). intros _ E es2 (code & -> & Hp). exists (es :: code).
    split; [by rewrite app_nil_r|]. apply (placed_cons _ _ _ _ _ _ after _ _ (written s i D) (constants s i K) _ A1); [done| |done].
    intros Hn. by apply (quiet_entry s tgt (i', x) Hn A a A1).
Qed.

(** *** Running the code *)
Notation hexecs := (hexecs s tgt T host junk).
Notation hrun := (hrun s tgt T host junk).
Notation bases_apart := (bases_apart s tgt T).
Notation rel := (TcgPlace.rel (W := W) s tgt T).

Lemma nth_mid (pre post : list hinsn) i : nth_error (pre ++ i :: post) (length pre) = Some i.
Proof. rewrite nth_error_app2 by lia. by rewrite Nat.sub_diag. Qed.

(** The instructions of an entry in their place. *)
Lemma hrun_chunk es : forall pre post h,
  let code := pre ++ es ++ post in
  match hexecs es h with
  | HFall h' => forall f, hrun (length es + f) code (length pre) h = hrun f code (length pre + length es) h'
  | HJump l h' => exists n, forall f, hrun (S n + f) code (length pre) h =
      match hlabel_pos code l with Some pc => hrun f code pc h' | None => HUndefined end
  | HLeave h' => exists n, hrun n code (length pre) h = HLeft h'
  | HUndef => True
  end.
Proof.
  induction es as [|i es IH]; intros pre post h code.
  - cbn. intros f. by rewrite Nat.add_0_r.
  - specialize (IH (pre ++ [i]) post). rewrite length_app, <- app_assoc in IH. cbn [length app] in IH.
    assert (forall f, hrun (S f) code (length pre) h = match hexec s tgt T host junk i h with
      | HFall h' => hrun f code (length pre + 1) h'
      | HJump l h' => match hlabel_pos code l with Some pc => hrun f code pc h' | None => HUndefined end
      | HLeave h' => HLeft h' | HUndef => HUndefined end) as Hstep.
    { intros f. cbn [TcgHost.hrun]. unfold code. cbn [app]. rewrite nth_mid. by rewrite Nat.add_1_r. }
    cbn [TcgHost.hexecs]. destruct (hexec s tgt T host junk i h) as [h1|l h1|h1|]; [| | |done].
    + specialize (IH h1). cbn zeta in IH. destruct (hexecs es h1) as [h2|l h2|h2|].
      * intros f. cbn [length plus]. rewrite Hstep. unfold code. cbn [app]. rewrite IH. f_equal. lia.
      * destruct IH as [n IH]. exists (S n). intros f. cbn [plus]. rewrite Hstep. apply IH.
      * destruct IH as [n IH]. exists (S n). rewrite Hstep. apply IH.
      * done.
    + exists 0%nat. intros f. apply Hstep.
    + exists 1%nat. apply Hstep.
Qed.

(** Where the code of the operation [n] begins. *)
Definition code_pos (code : list (list hinsn)) (n : nat) : nat := length (concat (take n code)).

Lemma hlabel_pos_app es code label : Forall no_label es ->
  hlabel_pos (es ++ code) label = option_map (fun pc => (length es + pc)%nat) (hlabel_pos code label).
Proof.
  induction 1 as [|i es Hi _ IH]; cbn; [by destruct (hlabel_pos code label)|]. destruct i; try done; rewrite IH; by destruct (hlabel_pos code label).
Qed.

(** Labels are where they were, and behind one only memory counts. *)
Record at_label (E : alloc_state) (p : list TCGOp) (code : list (list hinsn)) : Prop := {
  al_placed : exists st D K A, placed_code E p code st D K A /\
    (forall t, valid t -> fixed t = false -> val_type (temps A t) = dead_type s t) /\
    forall t, valid t -> live st t -> carried t;
}.

Lemma placed_label E p code st D K A label : placed_code E p code st D K A ->
  hlabel_pos (concat code) label = option_map (code_pos code) (label_pos p label) /\
  forall n, label_pos p label = Some n -> (n <= length p)%nat /\ at_label E (drop n p) (drop n code).
Proof.
  induction 1 as [st D K HI _|i p es code before after D K D' K' A A' [He Hlab] Hq Hp [IH IHl]]; [done|]. cbn [concat label_pos].
  destruct (decide (opc i = op_set_label /\ arg (args i) 0 = label)) as [[E1 E2]|Hn].
  - destruct (Hlab E1) as (-> & Hv & Hl). cbn. rewrite E2, Z.eqb_refl. split; [done|]. intros n [= <-]. split; [lia|].
    split. by exists after, D', K', A'.
  - assert (hlabel_pos (es ++ concat code) label = option_map (fun pc => (length es + pc)%nat) (hlabel_pos (concat code) label)) as ->.
    { destruct (decide (opc i = op_set_label)) as [E1|E1]; [|by apply hlabel_pos_app, Hq].
      destruct (Hlab E1) as [-> _]. cbn. destruct (Z.eqb_spec (arg (args i) 0) label); [by destruct Hn|done]. }
    rewrite IH. destruct (label_pos p label) as [n|]; [|done]. split.
    + cbn. unfold code_pos. cbn. by rewrite length_app.
    + intros n' [= <-]. destruct (IHl n eq_refl). split; [cbn; lia|done].
Qed.

Lemma placed_length E p code st D K A : placed_code E p code st D K A -> length code = length p.
Proof. induction 1; cbn; lia. Qed.

(** *** The simulation *)
Section simulation.
Context (E : alloc_state) (p : list TCGOp) (code : list (list hinsn)) (B : Z -> Z).
Context (HE : wf E) (HB : bases_apart B).
Context (Hlen : length code = length p).
Context (Hlabel : forall label, hlabel_pos (concat code) label = option_map (code_pos code) (label_pos p label) /\
  forall n, label_pos p label = Some n -> (n <= length p)%nat /\ at_label E (drop n p) (drop n code)).

Definition at_pos (n : nat) (m : mstate W) (h : hstate W) : Prop :=
  exists st D K A, placed_code E (drop n p) (drop n code) st D K A /\ rel E B [] st A (regs m) h /\ world m = hworld h.

(** What the block does, the code does: the fuel of the block is bounded by the
    steps of the code, so that the code cannot stop while the block runs. *)
Definition hbehaves (fuel n : nat) (b : behaviour (W := W)) (run : nat -> hbehaviour (W := W)) : Prop :=
  match b with
  | Undefined => True
  | Left m => exists f h, run f = HLeft h /\ left_agree s T m h
  | FellOff m => exists f h, run f = HFellOff h /\ left_agree s T m h
  | Running => exists f pc h, run f = HRunning pc h /\ (fuel <= f * S (length p) + (length p - n))%nat
  end.

Lemma end_agree n m h : at_pos n m h -> drop n p = [] -> left_agree s T m h.
Proof.
  intros (st & D & K & A & Hp & Hr & Hw) En. rewrite En in Hp. inversion Hp as [? ? ? HI Hend|]; subst.
  apply (globals_agree s tgt T HL A B); [apply HI|done|apply Hr|apply Hr|].
  intros t Gt Ft. assert (valid t) as Vt by (by apply (global_valid s tgt T HL)).
  apply (mem_in_slot s tgt T A B [] st D K A); try done; [apply not_elem_of_nil|]. by apply Hend.
Qed.

Lemma code_split n i es : drop n p = i :: drop (S n) p -> drop n code = es :: drop (S n) code ->
  concat code = concat (take n code) ++ es ++ concat (drop (S n) code) /\ code_pos code (S n) = (code_pos code n + length es)%nat.
Proof.
  intros _ Ec. assert (code !! n = Some es) as Hn by (rewrite <- (Nat.add_0_r n), <- lookup_drop, Ec; done).
  split.
  - rewrite <- (take_drop n code) at 1. rewrite concat_app, Ec. done.
  - unfold code_pos. rewrite (take_S_r _ _ es) by done. rewrite concat_app, length_app. cbn. by rewrite app_nil_r.
Qed.

(** A step from the start of an entry. *)
Lemma hbehaves_later fuel n n' d b (run1 run2 : nat -> hbehaviour (W := W)) :
  (forall f, run1 (d + f)%nat = run2 f) -> (n < length p)%nat -> (n' = S n \/ (0 < d /\ n' <= length p)%nat) ->
  hbehaves fuel n' b run2 -> hbehaves (S fuel) n b run1.
Proof.
  intros Hd Hn Hn' Hb. destruct b as [m|m| |]; cbn in *; [| | |done].
  - destruct Hb as (f & h & E1 & ?). exists (d + f)%nat, h. by rewrite Hd.
  - destruct Hb as (f & h & E1 & ?). exists (d + f)%nat, h. by rewrite Hd.
  - destruct Hb as (f & pc & h & E1 & ?). exists (d + f)%nat, pc, h. rewrite Hd. split; [done|]. nia.
Qed.

Lemma label_rel n m h : at_label E (drop n p) (drop n code) -> home s tgt T E B (regs m) h -> world m = hworld h -> at_pos n m h.
Proof.
  intros [(st & D & K & A & Hp & Hv & Hl)] Hh' Hw. exists st, D, K, A. split; [done|]. split; [|done]. by apply home_rel.
Qed.

Lemma code_runs fuel k : forall n m h, at_pos n m h -> (n <= length p)%nat ->
  hbehaves fuel n (run s host fuel k p n m) (fun f => hrun f (concat code) (code_pos code n) h).
Proof.
  induction fuel as [|fuel IH]; intros n m h Hat Hn.
  { exists 0%nat, (code_pos code n), h. split; [done|lia]. }
  rewrite run_nth. destruct (drop n p) as [|i p1] eqn:Ep.
  { exists 1%nat, h. split; [|by apply (end_agree n)]. assert (n = length p) as -> by (pose proof (length_drop p n) as El; rewrite Ep in El; cbn in El; lia).
    cbn. unfold code_pos. rewrite <- Hlen, take_ge by lia. by rewrite (proj2 (nth_error_None _ _)) by lia. }
  assert (n < length p)%nat as Hlt by (assert (length (drop n p) = S (length p1)) as El by (by rewrite Ep); rewrite length_drop in El; lia).
  pose proof Hat as (st & D & K & A & Hp & Hr & Hw). rewrite Ep in Hp.
  inversion Hp as [|? ? es code1 ? after ? ? D' K' ? A' [He Hlab] Hq Hp']; subst. pose proof (drop_cons _ _ _ _ Ep) as Ep1.
  match goal with H : _ :: _ = drop n code |- _ => symmetry in H; pose proof (drop_cons _ _ _ _ H) as Ec1; rename H into Ec end.
  rewrite <- Ep1, <- Ec1 in Hp'. destruct (code_split n i es) as [Ecode Epos]; [by rewrite Ep, Ep1|by rewrite Ec, Ec1|].
  destruct (code_extends E _ _ _ _ _ _ Hp') as [HX _].
  pose proof (eo_sim _ _ _ _ _ _ _ _ _ _ _ _ _ _ _ He E B (k n) m h HE HX HB Hr Hw) as Ho.
  pose proof (hrun_chunk es (concat (take n code)) (concat (drop (S n) code)) h) as Hc. cbn zeta in Hc. rewrite <- Ecode in Hc.
  fold (code_pos code n) in Hc. rewrite <- Epos in Hc.
  destruct (exec_op s host (k n) i m) as [m1|lb m1|m1|], (hexecs es h) as [h1|lb' h1|h1|]; try done; cbn in Ho.
  - apply (hbehaves_later fuel n (S n) (length es) _ _ _ Hc); [done|by left|]. apply IH; [|lia].
    destruct Ho as [W1 R1]. by exists after, D', K', A'.
  - destruct Ho as (<- & W1 & Hhome), Hc as [d Hc]. destruct (Hlabel lb) as [El Hl]. rewrite El in Hc.
    destruct (label_pos p lb) as [n'|]; [|done]. destruct (Hl n' eq_refl) as [Hn' Hal]. cbn [option_map] in Hc.
    apply (hbehaves_later fuel n n' (S d) _ _ _ Hc); [done|right; lia|]. apply IH; [by apply label_rel|done].
  - destruct Hc as [d Hc]. exists d, h1. done.
Qed.
End simulation.

(** *** The start *)
Notation start := (tcg_reg_alloc_start s T (frame_start tgt)).

Lemma start_global t : is_global t ->
  temps start t = T t <| val_type := if fixed_reg (T t) then TEMP_VAL_REG else TEMP_VAL_MEM |>.
Proof. intros [_ H]. cbn. by rewrite (proj2 (Z.ltb_lt _ _)). Qed.

Lemma start_other t : valid t -> nb_globals s <= t ->
  temps start t = T t <| val_type := if temp_local s t then TEMP_VAL_MEM else TEMP_VAL_DEAD |> <| mem_allocated := false |> <| fixed_reg := false |>.
Proof. intros [_ H1] H2. cbn. by rewrite (proj2 (Z.ltb_ge _ _)), (proj2 (Z.ltb_lt _ _)). Qed.

Lemma start_cases t : valid t -> is_global t /\ fixed t = fixed_reg (T t) \/ nb_globals s <= t /\ fixed t = false.
Proof.
  intros [H0 H1]. unfold TcgShape.is_global, TcgHost.fixed. destruct (Z.ltb_spec t (nb_globals s)); [left|right]; split; try lia; done.
Qed.

Lemma start_type t : valid t -> fixed t = false -> val_type (temps start t) = dead_type s t.
Proof.
  intros Vt Ft. unfold dead_type. destruct (start_cases t Vt) as [[Gt E]|[Gt _]].
  - rewrite (start_global t Gt), <- E, Ft. by rewrite (proj2 (Z.ltb_lt _ _)) by apply Gt.
  - rewrite (start_other t Vt Gt). cbn. rewrite (proj2 (Z.ltb_ge _ _)) by done. by destruct (temp_local s t).
Qed.

Lemma start_wf : wf start.
Proof.
  assert (forall t, valid t -> fixed t = false -> in_reg (temps start t) = false) as Hnr.
  { intros t Vt Ft. unfold in_reg, is_val. apply bool_decide_eq_false. rewrite (start_type t Vt Ft). apply dead_type_not_reg. }
  assert (forall t, valid t -> nb_globals s <= t -> slot start t = None) as Hs.
  { intros t Vt Gt. unfold slot. by rewrite (start_other t Vt Gt). }
  split.
  - by intros r.
  - intros t Vt Ft Rt. by rewrite Hnr in Rt.
  - intros t Vt. destruct (start_cases t Vt) as [[Gt ->]|[Gt ->]]; [by rewrite (start_global t Gt)|by rewrite (start_other t Vt Gt)].
  - intros t Vt Ft. destruct (start_cases t Vt) as [[Gt E]|[_ E]]; [|congruence]. rewrite (start_global t Gt), <- E, Ft. done.
  - intros t Gt Ft. unfold slot. rewrite (start_global t Gt). cbn. by rewrite (ly_allocated _ _ _ HL t Gt Ft).
  - intros t b o Vt Gt Es. by rewrite Hs in Es.
  - intros t u b o Vt _ Gt _ Es. by rewrite Hs in Es.
  - split; [done|]. cbn [current_frame_offset tcg_reg_alloc_start]. pose proof (ly_room _ _ _ HL). unfold unallocated.
    pose proof (length_filter (fun t => mem_allocated (temps start t) = false) (others s)) as Hle.
    assert (length (others s) = Z.to_nat (nb_temps s - nb_globals s)) as El by (unfold others; by rewrite length_seqZ).
    pose proof (ly_globals _ _ _ HL). rewrite El in Hle. lia.
  - intros t Vt Ft Rt. by rewrite Hnr in Rt.
Qed.

Lemma start_inv st : covered [] st -> mem_carried st -> inv st [] [] start.
Proof.
  intros Hc Hmc. split; [apply start_wf|]. intros t Vt Ft. pose proof (start_type t Vt Ft) as Et. split.
  - done.
  - intros Ed. destruct (dead_temps st t) eqn:E; [done|]. destruct (Hc t Vt) as [?%elem_of_nil|Ct]; [by left|done|].
    rewrite Et, (dead_type_carried s t Vt Ct) in Ed. done.
  - intros Hmt. left. rewrite Et. apply dead_type_carried; auto.
  - by intros _ _ ?%elem_of_nil.
  - rewrite Et. intros E. unfold dead_type in E. by destruct (_ || _).
Qed.

(** The state of the block that a state of the host stands for: globals in
    their registers and memory, local temporaries in the slots [E] gave them. *)
Definition state_of (E : alloc_state) (h : hstate W) : mstate W :=
  mkState (fun t => u64 (if fixed t then hreg h (reg (T t))
                         else match slot E t with Some (b, o) => cell h (hreg h b) o | None => 0 end)) (hworld h).

Lemma veq_u64 t x : veq s t (u64 x) x.
Proof. unfold veq. apply uwrap_min. destruct (type s t); cbn; lia. Qed.

Lemma state_of_rel E st h : rel E (hreg h) [] st start (regs (state_of E h)) h.
Proof.
  split.
  - done.
  - intros t Vt Ft. cbn. rewrite Ft. apply veq_u64.
  - intros t Vt Ft _. unfold holds. rewrite (start_type t Vt Ft). unfold dead_type.
    destruct (_ || _); [|done]. intros _ b o Es. cbn. rewrite Ft, Es. apply veq_u64.
Qed.

(** *** The block and its code *)
(** A block the allocator can place on the back end. *)
Record placeable (p : list TCGOp) : Prop := {
  pb_ops : Forall (framed s) p;
  pb_doubles : doubles_ok p = true;
  pb_fits : fits_block [] [] p = true;
  pb_ready : Forall (fun i => ready tgt has_high (opc i)) p;
}.

Lemma fits_scoped p D K D' : (forall t, t ∈ D -> visible s D' t = true) -> fits_block D K p = true -> scoped s D' p = true.
Proof.
  revert D K D'. induction p as [|i p IH]; intros D K D' HD Hf; [done|]. cbn in Hf |- *.
  apply andb_true_iff in Hf as [[Hk _ _ _]%fit_op_ok H2]. apply andb_true_iff. split.
  - apply forallb_forall. intros t Ht%list_elem_of_In. destruct (Hk t Ht) as [?|?]; [apply visible_spec; right; by left|by apply HD].
  - apply (IH _ _ _) with (2 := H2). intros t Ht. destruct (bb_end i) eqn:Eb.
    + unfold written in Ht. rewrite Eb in Ht. apply visible_spec. right; right.
      destruct i as [op l]. unfold bb_end in Eb. cbn [opc] in *.
      destruct op; try done; try (by destruct b); by apply list_elem_of_filter in Ht as [? _].
    + apply written_from, elem_of_app in Ht as [?|?]; [by apply visible_in|by apply visible_app, HD].
Qed.

Lemma hbehaves_live p fuel n (b1 b2 : behaviour (W := W)) run :
  behaves_live s b1 b2 -> hbehaves p fuel n b2 run -> hbehaves p fuel n b1 run.
Proof.
  assert (forall (m1 m2 : mstate W) (h : hstate W), agree_on s is_global m1 m2 -> left_agree s T m2 h -> left_agree s T m1 h) as Ha.
  { intros m1 m2 h [W1 R1] [W2 R2]. split; [congruence|]. intros t Gt. rewrite <- R2 by done. f_equal. apply R1; [|done].
    pose proof (ly_globals _ _ _ HL). unfold TcgRing.valid, TcgShape.is_global in *. lia. }
  intros Hb Hh2. destruct b1, b2; try done; cbn in *; destruct Hh2 as (f & h & E & ?); exists f, h; eauto.
Qed.

(** The globals stay in the CPU state. *)
Definition globals_home (E : alloc_state) : Prop :=
  forall t, is_global t -> fixed t = false -> slot E t = Some (mem_reg (T t), mem_offset (T t)).

(** From the list of the liveness pass to code that runs like the block. *)
Lemma block_code p st0 :
  placeable p ->
  exists q, tcg_liveness_analysis s has_high st0 p = Ok q /\
    runs (tcg_gen_code_loop s tgt q) start (fun _ E code => globals_home E /\ forall h fuel k, bases_apart (hreg h) ->
      hbehaves p fuel 0 (run s host fuel k p 0 (state_of E h)) (fun f => hrun f code 0 h)).
Proof.
  intros [Hf Hd Hfit Hr]. pose proof (ly_globals _ _ _ HL) as HT.
  destruct (la_loop_marked HT Hm p st0 [] [] Hf Hd Hfit) as (q & st & El & Hmk & _).
  exists q. unfold tcg_liveness_analysis. rewrite El. split; [done|].
  pose proof (marked_covered p q st [] [] Hmk Hf Hfit) as Hcov.
  pose proof (start_inv st Hcov (marked_mem p q st Hmk)) as HI.
  refine (runs_mono _ _ _ _ (loop_run p q st [] [] start Hmk Hf Hr Hfit HI) _). intros _ E es (code & -> & Hp).
  destruct (la_loop_ok s host has_high HT Hm (hf_ok _ _ _ Hh) p st0 [] Hf Hd (fits_scoped p [] [] [] (fun t H => False_ind _ (not_elem_of_nil t H)) Hfit))
    as (q' & st' & El' & Hl' & _). rewrite El in El'. injection El' as <- <-.
  pose proof (placed_length E _ _ _ _ _ _ Hp) as Hlen. destruct (code_extends E _ _ _ _ _ _ Hp) as [_ HE].
  split; [exact (wf_global _ _ _ E HE)|]. intros h fuel k HB.
  assert (length p = length (map fst q)) as Epq by (rewrite length_map; symmetry; exact (lives_length s host p q st Hl')).
  apply (hbehaves_live p fuel 0 _ (run s host fuel k (map fst q) 0 (state_of E h))).
  { apply (run_lives s host p q st Hl' fuel k 0 st); [done|]. by split. }
  pose proof (code_runs E (map fst q) code (hreg h) HE HB Hlen (fun label => placed_label E _ _ _ _ _ _ label Hp) fuel k 0 (state_of E h) h) as H.
  unfold hbehaves in *. rewrite Epq. apply H; [|lia]. exists st, [], [], start. split; [done|]. split; [by apply state_of_rel|done].
Qed.
End loop.
End code.
End TcgCode.
