(* ===== verification/TcgTarget.v ===== *)
(** Tables of a back end (tcg/tcg.c, [tcg_add_target_add_op_defs]): constraint
    strings into register sets and aliases; and a decision procedure for what
    the register allocator asks of the table: that there is always a register
    left for the next operand. *)
From Stdlib Require Import ZArith Lia Bool Ascii String.
From stdpp Require Import base numbers list sets.
From S2P Require Import Prelude HostUtils TcgOp TcgOpt TcgRing TcgArith TcgSem TcgBits TcgSound TcgStep TcgProg TcgShape TcgLive TcgReg TcgHost TcgMeaning TcgPlace TcgMove TcgAlloc TcgSim TcgSimOp TcgSimMov TcgSimCall.
Local Open Scope Z_scope.

Module TcgTarget.
Import HostUtils.HostUtils Tcg TcgOpt TcgRing TcgArith TcgSem TcgBits TcgSound TcgStep TcgProg TcgShape TcgLive TcgReg TcgHost TcgMeaning TcgPlace TcgMove TcgAlloc TcgSim TcgSimOp TcgSimMov TcgSimCall.

Definition TCG_CT_CONST : Z := 0x02.

(** ** Constraint strings *)
Section parse.
(** The letters of the back end. *)
Context (target_parse_constraint : TCGArgConstraint -> ascii -> option TCGArgConstraint).

Definition no_constraint : TCGArgConstraint := mkConstraint 0 0 0.
Definition add_ct (c : TCGArgConstraint) (f : Z) : TCGArgConstraint := mkConstraint (Z.lor (ct c) f) (alias_index c) (ct_regs c).
Definition add_regs (c : TCGArgConstraint) (R : Z) : TCGArgConstraint := mkConstraint (ct c) (alias_index c) (Z.lor (ct_regs c) R).

Fixpoint parse_letters (c : TCGArgConstraint) (str : string) : option TCGArgConstraint :=
  match str with
  | EmptyString => Some c
  | String "i" str => parse_letters (add_ct c TCG_CT_CONST) str
  | String x str => match target_parse_constraint c x with Some c => parse_letters c str | None => None end
  end.

Definition digit (x : ascii) : option nat :=
  let n := nat_of_ascii x in if (48 <=? n)%nat && (n <=? 57)%nat then Some (n - 48)%nat else None.

(** The argument [i], behind those of [cs]: a digit names the output the input
    shares its register with. *)
Definition parse_arg (nb_oargs : nat) (cs : list TCGArgConstraint) (str : string) : outcome (list TCGArgConstraint) :=
  let i := List.length cs in
  match match str with String x _ => digit x | EmptyString => None end with
  | Some oarg =>
      if (oarg <? nb_oargs)%nat && nz (Z.land (ct (nth oarg cs no_constraint)) TCG_CT_REG)
      then
        let c := nth oarg cs no_constraint in
        Ok (<[oarg := mkConstraint TCG_CT_ALIAS i (ct_regs c)]> cs ++ [mkConstraint (Z.lor (ct c) TCG_CT_IALIAS) oarg (ct_regs c)])
      else Fault AssertFailed
  | None => match parse_letters no_constraint str with Some c => Ok (cs ++ [c]) | None => Fault TcgAbort end
  end.

Fixpoint parse_args (nb_oargs : nat) (cs : list TCGArgConstraint) (strs : list string) : outcome (list TCGArgConstraint) :=
  match strs with
  | [] => Ok cs
  | str :: strs => cs <~ parse_arg nb_oargs cs str ;; parse_args nb_oargs cs strs
  end.

(** One entry of the table of a back end; every operand has a string. *)
Definition tcg_add_target_add_op_def (def : TCGOpDef) (strs : list string) : outcome (list TCGArgConstraint) :=
  if (List.length strs =? nb_iargs def + nb_oargs def)%nat then parse_args (nb_oargs def) [] strs else Fault AssertFailed.
End parse.

(** ** Registers left over *)
Section check.
Context (tgt : Target).
Notation room_in := (room_in tgt).
Notation rooms := (rooms tgt).
Notation order := (tcg_target_reg_alloc_order tgt).

Hypothesis (Hnd : NoDup order).

Definition free_in (S R : Z) : list Z := filter (fun r => Z.testbit S r && negb (Z.testbit R r) = true) order.

(** [R'] is [R] and at most [k] registers more. *)
Definition grown (R : Z) (k : nat) (R' : Z) : Prop :=
  exists xs, (length xs <= k)%nat /\ forall r, in_set R' r -> in_set R r \/ r ∈ xs.

Lemma grown_refl R : grown R 0 R.
Proof. exists []. split; [done|]. by left. Qed.

Lemma grown_set R k R' r : 0 <= r -> grown R k R' -> grown R (S k) (tcg_regset_set_reg R' r).
Proof.
  intros Hr (xs & Hl & H). exists (r :: xs). split; [cbn; lia|]. intros x [Hx| ->]%set_reg_spec; [|right; by left|done].
  destruct (H x Hx); [by left|right; by right].
Qed.

Lemma grown_exact R k R' r : 0 <= r -> grown R k R' -> grown (tcg_regset_set_reg R r) k (tcg_regset_set_reg R' r).
Proof.
  intros Hr (xs & Hl & H). exists xs. split; [done|]. intros x [Hx| ->]%set_reg_spec; [| |done].
  - destruct (H x Hx); [left|by right]. apply set_reg_spec; [done|by left].
  - left. apply set_reg_spec; [done|by right].
Qed.

Lemma free_room S R k R' : grown R k R' -> (k < length (free_in S R))%nat -> room_in S R'.
Proof.
  intros (xs & Hl & H) Hk.
  destruct (decide (Exists (fun r => Z.testbit R' r = false) (free_in S R))) as [He|Hn].
  - apply Exists_exists in He as (r & [Hr Ho]%list_elem_of_filter & Hf). apply andb_true_iff in Hr as [Hr _]. by exists r.
  - exfalso. assert (free_in S R ⊆+ xs) as Hs%submseteq_length; [|lia].
    apply NoDup_submseteq; [by apply NoDup_filter|]. intros r Hr.
    assert (in_set R' r) as Hin.
    { unfold in_set. destruct (Z.testbit R' r) eqn:E; [done|]. destruct Hn. apply Exists_exists. by exists r. }
    apply list_elem_of_filter in Hr as [[_ Hr]%andb_true_iff _]. destruct (H r Hin) as [E|]; [|done]. unfold in_set in E. by rewrite E in Hr.
Qed.

Definition single (S : Z) : bool := (0 <? S) && (S =? bit (Z.log2 S)).

Lemma single_spec S r : single S = true -> in_set S r -> r = Z.log2 S.
Proof.
  intros [Hp%Z.ltb_lt E%Z.eqb_eq]%andb_true_iff Hr. unfold in_set in Hr. rewrite E in Hr.
  destruct (Z.lt_ge_cases r 0); [by rewrite Z.testbit_neg_r in Hr|].
  rewrite bit_spec in Hr by (try apply Z.log2_nonneg; lia). symmetry. by apply Z.eqb_eq.
Qed.

(** Sets of one register are followed exactly, others counted. *)
Fixpoint rooms_b (cs : list Z) (R : Z) (k : nat) : bool :=
  match cs with
  | [] => true
  | c :: cs =>
      (k <? length (free_in c R))%nat &&
      (if single c then rooms_b cs R k && rooms_b cs (tcg_regset_set_reg R (Z.log2 c)) k else rooms_b cs R (S k))
  end.

Lemma grown_more R k R' : grown R k R' -> grown R (S k) R'.
Proof. intros (xs & Hl & H). exists xs. split; [lia|done]. Qed.

Lemma rooms_b_ok cs R k R' : grown R k R' -> rooms_b cs R k = true -> rooms cs R'.
Proof.
  revert R k R'. induction cs as [|c cs IH]; intros R k R' Hg Hb; [done|]. cbn in Hb |- *.
  apply andb_true_iff in Hb as [Hk%Nat.ltb_lt Hb]. split; [by apply (free_room c R k)|].
  destruct (single c) eqn:Es.
  - apply andb_true_iff in Hb as [H1 H2]. split; [by apply (IH R k)|]. intros r Hr Hin.
    rewrite (single_spec c r Es Hin) in *. apply (IH (tcg_regset_set_reg R (Z.log2 c)) k); [by apply grown_exact|done].
  - split; [by apply (IH R (S k)); [apply grown_more|]|]. intros r Hr _. apply (IH R (S k)); [by apply grown_set|done].
Qed.

Fixpoint out_rooms_b (op : TCGOpcode) (ks : list nat) (R : Z) (k : nat) : bool :=
  match ks with
  | [] => true
  | i :: ks =>
      let c := in_regs tgt op (if alias_out tgt op i then alias_of tgt op i else i) in
      (alias_out tgt op i || (k <? length (free_in c R))%nat && forallb (fun j => negb (alias_out tgt op j)) ks) &&
      (if single c then out_rooms_b op ks (tcg_regset_set_reg R (Z.log2 c)) k else out_rooms_b op ks R (S k))
  end.

Lemma out_rooms_b_ok op ks R k R' : grown R k R' -> out_rooms_b op ks R k = true -> out_rooms tgt op ks R'.
Proof.
  revert R k R'. induction ks as [|i ks IH]; intros R k R' Hg Hb; [done|]. cbn in Hb |- *.
  apply andb_true_iff in Hb as [H1 H2]. split.
  - intros Ea. rewrite Ea in H1. cbn in H1. apply andb_true_iff in H1 as [Hk%Nat.ltb_lt Hf].
    split; [by apply (free_room _ R k)|]. intros j Hj. by apply negb_true_iff, (proj1 (forallb_forall _ _) Hf), list_elem_of_In.
  - set (c := in_regs tgt op _) in *. intros r Hr Hin. destruct (single c) eqn:Es.
    + rewrite (single_spec c r Es Hin) in *. apply (IH (tcg_regset_set_reg R (Z.log2 c)) k); [by apply grown_exact|done].
    + apply (IH R (S k)); [by apply grown_set|done].
Qed.

(** ** The table *)
Context (takes_const : TCGArgConstraint -> bool).
Hypothesis (Hconst : forall c v, takes_const c = false -> tcg_target_const_match tgt v c = false).

Definition is_input_b (op : TCGOpcode) (i : nat) : bool := (oargs op <=? i)%nat && (i <? operands op)%nat.

Definition op_ready_b (op : TCGOpcode) : bool :=
  negb (TCG_OPF_NOT_PRESENT tgt op) &&
  rooms_b (map (in_regs tgt op) (sort_constraints tgt op (oargs op) (iargs op))) (reserved_regs tgt) 0 &&
  out_rooms_b op (sort_constraints tgt op 0 (oargs op)) (reserved_regs tgt) 0 &&
  forallb (fun i => implb (alias_in tgt op i)
    (negb (takes_const (args_ct tgt op i)) && (alias_of tgt op i <? oargs op)%nat)) (seq (oargs op) (iargs op)) &&
  forallb (fun i => implb (alias_out tgt op i)
    (is_input_b op (alias_of tgt op i) && alias_in tgt op (alias_of tgt op i) &&
     (alias_of tgt op (alias_of tgt op i) =? i)%nat)) (seq 0 (oargs op)).

Lemma op_ready_b_ok op : op_ready_b op = true -> op_ready tgt op.
Proof.
  unfold op_ready_b. rewrite !andb_true_iff, negb_true_iff. intros [[[[H1 H2] H3] H4] H5].
  split; [done|by apply (rooms_b_ok _ _ 0 _ (grown_refl _))|by apply (out_rooms_b_ok _ _ _ 0 _ (grown_refl _))| |].
  - intros i Hi Ea. pose proof (proj1 (forallb_forall _ _) H4 i) as H. cbv beta in H. rewrite Ea in H. cbn [implb] in H.
    rewrite andb_true_iff, negb_true_iff, Nat.ltb_lt in H. destruct H as [Hc Hl]; [apply in_seq; unfold is_input in Hi; lia|].
    split; [|done]. intros v. by apply Hconst.
  - intros i Hi Ea. pose proof (proj1 (forallb_forall _ _) H5 i) as H. cbv beta in H. rewrite Ea in H. cbn [implb] in H.
    unfold is_input_b in H. rewrite !andb_true_iff, Nat.leb_le, Nat.ltb_lt, Nat.eqb_eq in H.
    destruct H as [[[Hl Hu] Hc] Hs]; [apply in_seq; lia|]. split; [unfold is_input, operands in *; lia|done].
Qed.

Definition mov_ready_b (w : width) : bool :=
  (0 <? length (free_in (ct_regs (args_ct tgt (op_mov w) 1)) (reserved_regs tgt)))%nat &&
  (1 <? length (free_in (ct_regs (args_ct tgt (op_mov w) 0)) (reserved_regs tgt)))%nat.

Lemma mov_ready_b_ok w : mov_ready_b w = true -> mov_ready tgt w.
Proof.
  intros [H1%Nat.ltb_lt H2%Nat.ltb_lt]%andb_true_iff. split; [by apply (free_room _ _ 0 _ (grown_refl _))|].
  intros r Hr. by apply (free_room _ (reserved_regs tgt) 1); [apply grown_set, grown_refl|].
Qed.

Definition movi_ready_b (w : width) : bool := (0 <? length (free_in (tcg_target_available_regs tgt w) (reserved_regs tgt)))%nat.
Lemma movi_ready_b_ok w : movi_ready_b w = true -> room_in (tcg_target_available_regs tgt w) (reserved_regs tgt).
Proof. intros H%Nat.ltb_lt. by apply (free_room _ _ 0 _ (grown_refl _)). Qed.

Definition call_ready_b : bool :=
  let ia := tcg_target_call_iarg_regs tgt in
  let oa := tcg_target_call_oarg_regs tgt in
  bool_decide (NoDup ia) && forallb (fun r => (0 <=? r) && negb (tcg_regset_test_reg (reserved_regs tgt) r)) ia &&
  bool_decide (NoDup oa) && forallb (tcg_regset_test_reg (tcg_target_call_clobber_regs tgt)) oa &&
  movi_ready_b W32 && movi_ready_b W64 &&
  (length ia <? length (free_in (ct_regs (args_ct tgt op_call 0)) (reserved_regs tgt)))%nat &&
  (1 <=? TCG_TARGET_STACK_ALIGN tgt).

Lemma set_regs_grown R rs : (forall r, r ∈ rs -> 0 <= r) -> grown R (length rs) (set_regs R rs).
Proof.
  intros Hr. exists rs. split; [done|]. intros r Hin. by apply (set_regs_spec R rs r Hr) in Hin.
Qed.

Lemma call_ready_b_ok : call_ready_b = true -> call_ready tgt.
Proof.
  unfold call_ready_b. rewrite !andb_true_iff, !bool_decide_eq_true. intros [[[[[[[H1 H2] H3] H4] H5] H6] H7%Nat.ltb_lt] H8%Z.leb_le].
  assert (forall r, r ∈ tcg_target_call_iarg_regs tgt -> room_reg tgt r) as Hi.
  { intros r Hr%list_elem_of_In. pose proof (proj1 (forallb_forall _ _) H2 r Hr) as H.
    rewrite andb_true_iff, Z.leb_le, negb_true_iff in H. done. }
  split; [done| | | |done].
  - split; [done|]. intros r Hr%list_elem_of_In. by apply (proj1 (forallb_forall _ _) H4).
  - intros [|]; by apply movi_ready_b_ok.
  - intros n. apply (free_room _ (reserved_regs tgt) (length (take n (tcg_target_call_iarg_regs tgt)))).
    + apply set_regs_grown. intros r Hr. apply Hi. by apply elem_of_take in Hr as (j & Hr%list_elem_of_lookup_2 & _).
    + rewrite length_take. lia.
Qed.
End check.
End TcgTarget.
