(* ===== verification/TcgX86.v ===== *)
(** The x86-64 back end as the register allocator sees it
    (tcg/i386/tcg-target.c): registers, calling convention, the constraint
    letters and the table of operations; and that it has a register for every
    operand.  System V, softmmu; [have_bmi2]: what the host CPU has. *)
From Stdlib Require Import ZArith Lia Bool Ascii String.
From stdpp Require Import base numbers list sets.
From S2P Require Import Prelude HostUtils TcgOp TcgOpt TcgRing TcgArith TcgSem TcgBits TcgSound TcgStep TcgProg TcgShape TcgLive TcgReg TcgHost TcgMeaning TcgPlace TcgMove TcgAlloc TcgSim TcgSimOp TcgSimMov TcgSimCall TcgMarks TcgFit TcgTarget.
Local Open Scope Z_scope.

Module TcgX86.
Import HostUtils.HostUtils Tcg TcgOpt TcgRing TcgArith TcgSem TcgBits TcgSound TcgStep TcgProg TcgShape TcgLive TcgReg TcgHost TcgMeaning TcgPlace TcgMove TcgAlloc TcgSim TcgSimOp TcgSimMov TcgSimCall TcgMarks TcgFit TcgTarget.

Definition TCG_REG_EAX : Z := 0.
Definition TCG_REG_ECX : Z := 1.
Definition TCG_REG_EDX : Z := 2.
Definition TCG_REG_EBX : Z := 3.
Definition TCG_REG_ESP : Z := 4.
Definition TCG_REG_EBP : Z := 5.
Definition TCG_REG_ESI : Z := 6.
Definition TCG_REG_EDI : Z := 7.
Definition TCG_REG_R8 : Z := 8.
Definition TCG_REG_R9 : Z := 9.
Definition TCG_REG_R10 : Z := 10.
Definition TCG_REG_R11 : Z := 11.
Definition TCG_REG_R12 : Z := 12.
Definition TCG_REG_R13 : Z := 13.
Definition TCG_REG_R14 : Z := 14.
Definition TCG_REG_R15 : Z := 15.
Definition TCG_AREG0 : Z := TCG_REG_R14.

Definition x86_reg_alloc_order : list Z :=
  [TCG_REG_EBP; TCG_REG_EBX; TCG_REG_R12; TCG_REG_R13; TCG_REG_R14; TCG_REG_R15; TCG_REG_R10; TCG_REG_R11;
   TCG_REG_R9; TCG_REG_R8; TCG_REG_ECX; TCG_REG_EDX; TCG_REG_ESI; TCG_REG_EDI; TCG_REG_EAX].
Definition x86_call_iarg_regs : list Z := [TCG_REG_EDI; TCG_REG_ESI; TCG_REG_EDX; TCG_REG_ECX; TCG_REG_R8; TCG_REG_R9].
Definition x86_call_oarg_regs : list Z := [TCG_REG_EAX].
Definition TCG_REG_L0 : Z := nth 0 x86_call_iarg_regs 0.
Definition TCG_REG_L1 : Z := nth 1 x86_call_iarg_regs 0.

(** ** Constraints *)
Definition TCG_CT_CONST_S32 : Z := 0x100.
Definition TCG_CT_CONST_U32 : Z := 0x200.
Definition TCG_CT_CONST_I32 : Z := 0x400.

Section constraints.
Context (have_bmi2 : bool).

Definition in_regs_ct (c : TCGArgConstraint) (R : Z) : option TCGArgConstraint := Some (add_regs (add_ct c TCG_CT_REG) R).

Definition target_parse_constraint (c : TCGArgConstraint) (x : ascii) : option TCGArgConstraint :=
  match x with
  | "a" => in_regs_ct c (bit TCG_REG_EAX)
  | "b" => in_regs_ct c (bit TCG_REG_EBX)
  | "c" => in_regs_ct c (bit TCG_REG_ECX)
  | "d" => in_regs_ct c (bit TCG_REG_EDX)
  | "S" => in_regs_ct c (bit TCG_REG_ESI)
  | "D" => in_regs_ct c (bit TCG_REG_EDI)
  | "q" => in_regs_ct c 0xffff
  | "Q" => in_regs_ct c 0xf
  | "r" => in_regs_ct c 0xffff
  | "C" => in_regs_ct c (if have_bmi2 then 0xffff else bit TCG_REG_ECX)
  | "L" =>
      let c := add_regs (add_ct c TCG_CT_REG) 0xffff in
      Some (mkConstraint (ct c) (alias_index c) (tcg_regset_andnot (tcg_regset_andnot (ct_regs c) (bit TCG_REG_L0)) (bit TCG_REG_L1)))
  | "e" => Some (add_ct c TCG_CT_CONST_S32)
  | "Z" => Some (add_ct c TCG_CT_CONST_U32)
  | "I" => Some (add_ct c TCG_CT_CONST_I32)
  | _ => None
  end%char.
End constraints.

Definition x86_const_match (val : Z) (c : TCGArgConstraint) : bool :=
  let v := s64 val in
  nz (Z.land (ct c) TCG_CT_CONST) ||
  nz (Z.land (ct c) TCG_CT_CONST_S32) && (v =? s32 v) ||
  nz (Z.land (ct c) TCG_CT_CONST_U32) && (v =? u32 v) ||
  nz (Z.land (ct c) TCG_CT_CONST_I32) && (Z.lnot v =? s32 (Z.lnot v)).

(** ** The table

    [None]: the table has no entry, or [tcg-opc.h] no such operation. *)
Definition x86_op_defs (op : TCGOpcode) : option (list string) :=
  match op with
  | op_exit_tb | op_goto_tb | op_br => Some []
  | op_call => Some ["ri"]
  | op_mov _ => Some ["r"; "r"]
  | op_movi _ => Some ["r"]
  | op_ld (M32u | M32s) W32 => None
  | op_ld _ _ => Some ["r"; "r"]
  | op_st M8u W32 => Some ["qi"; "r"]
  | op_st (M16u | Mfull) W32 => Some ["ri"; "r"]
  | op_st (M8u | M16u | M32u) W64 => Some ["ri"; "r"]
  | op_st Mfull W64 => Some ["re"; "r"]
  | op_st _ _ => None
  | op_bin Badd W32 => Some ["r"; "r"; "ri"]
  | op_bin (Bsub | Bmul | Band | Bor | Bxor) W32 => Some ["r"; "0"; "ri"]
  | op_bin Bandc W32 => Some ["r"; "r"; "ri"]
  | op_bin Badd W64 => Some ["r"; "r"; "re"]
  | op_bin (Bmul | Bsub | Bor | Bxor) W64 => Some ["r"; "0"; "re"]
  | op_bin Band W64 => Some ["r"; "0"; "reZ"]
  | op_bin Bandc W64 => Some ["r"; "r"; "rI"]
  | op_bin (Bshl | Bshr | Bsar) _ => Some ["r"; "0"; "Ci"]
  | op_bin (Brotl | Brotr) _ => Some ["r"; "0"; "ci"]
  | op_bin _ _ => None
  | op_div2 _ | op_divu2 _ => Some ["a"; "d"; "0"; "1"; "r"]
  | op_brcond W32 => Some ["r"; "ri"]
  | op_brcond W64 => Some ["r"; "re"]
  | op_un Ubswap64 W32 => None
  | op_un (Ubswap16 | Ubswap32 | Ubswap64 | Uneg | Unot) _ => Some ["r"; "0"]
  | op_un (Uext8s | Uext8u) W32 => Some ["r"; "q"]
  | op_un (Uext16s | Uext16u) W32 => Some ["r"; "r"]
  | op_un (Uext32s | Uext32u) W32 => None
  | op_un (Uext8s | Uext16s | Uext32s | Uext8u | Uext16u | Uext32u) W64 => Some ["r"; "r"]
  | op_setcond W32 => Some ["q"; "r"; "ri"]
  | op_setcond W64 => Some ["r"; "r"; "re"]
  | op_deposit _ => Some ["Q"; "0"; "Q"]
  | op_movcond W32 => Some ["r"; "r"; "ri"; "r"; "0"]
  | op_movcond W64 => Some ["r"; "r"; "re"; "r"; "0"]
  | op_mulu2 _ | op_muls2 _ => Some ["a"; "d"; "a"; "r"]
  | op_add2 W32 | op_sub2 W32 => Some ["r"; "r"; "0"; "1"; "ri"; "ri"]
  | op_add2 W64 | op_sub2 W64 => Some ["r"; "r"; "0"; "1"; "re"; "re"]
  | op_qemu_ld _ => Some ["r"; "L"]
  | op_qemu_st _ => Some ["L"; "L"]
  | op_brcond2 | op_setcond2 => None
  | op_nop | op_nopn | op_discard | op_set_label | op_debug_insn_start => None
  end%string.

(** [TCG_OPF_NOT_PRESENT]: [TCG_TARGET_HAS_div_i32] and the like are 0, or
    [tcg-opc.h] sets the flag. *)
Definition x86_not_present (op : TCGOpcode) : bool :=
  match op with
  | op_nop | op_nopn | op_discard | op_set_label | op_debug_insn_start => true
  | op_bin (Bdiv | Bdivu | Brem | Bremu | Borc | Beqv | Bnand | Bnor | Bmuluh | Bmulsh) _ => true
  | op_brcond2 | op_setcond2 => true
  | op_ld (M32u | M32s) W32 | op_st (M8s | M16s | M32s) _ | op_st M32u W32 => true
  | op_un (Uext32s | Uext32u | Ubswap64) W32 => true
  | _ => false
  end.

Definition x86_args_ct (have_bmi2 : bool) (op : TCGOpcode) : list TCGArgConstraint :=
  match x86_op_defs op with
  | Some strs =>
      match tcg_add_target_add_op_def (target_parse_constraint have_bmi2) (tcg_op_defs op) strs with Ok cs => cs | Fault _ => [] end
  | None => []
  end.

Definition x86_call_clobber_regs : list Z :=
  [TCG_REG_EAX; TCG_REG_EDX; TCG_REG_ECX; TCG_REG_EDI; TCG_REG_ESI; TCG_REG_R8; TCG_REG_R9; TCG_REG_R10; TCG_REG_R11].

Definition TCG_STATIC_CALL_ARGS : Z := 128.
Definition CPU_TEMP_BUF_NLONGS : Z := 128.

(** [tcg_target_init], [tcg_set_frame] of the prologue, and the register of the
    CPU state that the front ends reserve. *)
Definition x86_target (have_bmi2 : bool) : Target := {|
  TCG_TARGET_NB_REGS := 16;
  tcg_target_reg_alloc_order := x86_reg_alloc_order;
  tcg_target_available_regs := fun _ => 0xffff;
  tcg_target_call_clobber_regs := set_regs 0 x86_call_clobber_regs;
  tcg_target_call_iarg_regs := x86_call_iarg_regs;
  tcg_target_call_oarg_regs := x86_call_oarg_regs;
  reserved_regs := set_regs 0 [TCG_REG_ESP; TCG_AREG0];
  frame_reg := TCG_REG_ESP;
  frame_start := TCG_STATIC_CALL_ARGS;
  frame_end := TCG_STATIC_CALL_ARGS + CPU_TEMP_BUF_NLONGS * 8;
  TCG_REG_CALL_STACK := TCG_REG_ESP;
  TCG_TARGET_CALL_STACK_OFFSET := 0;
  TCG_TARGET_STACK_ALIGN := 16;
  TCG_STATIC_CALL_ARGS_SIZE := TCG_STATIC_CALL_ARGS;
  args_ct := fun op i => nth i (x86_args_ct have_bmi2 op) no_constraint;
  tcg_target_const_match := x86_const_match;
  TCG_OPF_NOT_PRESENT := x86_not_present;
|}.

(** ** A register for every operand *)
Definition takes_const (c : TCGArgConstraint) : bool :=
  nz (Z.land (ct c) (Z.lor TCG_CT_CONST (Z.lor TCG_CT_CONST_S32 (Z.lor TCG_CT_CONST_U32 TCG_CT_CONST_I32)))).

Lemma lor_nz a b c : nz (Z.land a (Z.lor b c)) = false -> nz (Z.land a b) = false /\ nz (Z.land a c) = false.
Proof.
  unfold nz. rewrite !negb_false_iff, !Z.eqb_eq, Z.land_lor_distr_r. by intros [? ?]%Z.lor_eq_0_iff.
Qed.

Lemma takes_const_ok bmi2 c v : takes_const c = false -> tcg_target_const_match (x86_target bmi2) v c = false.
Proof.
  unfold takes_const. intros [H1 [H2 [H3 H4]%lor_nz]%lor_nz]%lor_nz. cbn. unfold x86_const_match. by rewrite H1, H2, H3, H4.
Qed.

Lemma x86_order : NoDup x86_reg_alloc_order.
Proof. apply (bool_decide_unpack _). by vm_compute. Qed.

Definition no_high (b : binop) (w : width) : bool := false.

Definition x86_ready_b (bmi2 : bool) (op : TCGOpcode) : bool :=
  match op with
  | op_nop | op_nopn | op_debug_insn_start | op_set_label | op_discard => true
  | op_movi w => movi_ready_b (x86_target bmi2) w
  | op_mov w => mov_ready_b (x86_target bmi2) w
  | op_call => call_ready_b (x86_target bmi2)
  | op => op_ready_b (x86_target bmi2) takes_const op
  end.

Lemma x86_all bmi2 op : x86_not_present op = false -> by_constraints op = true -> op_ready_b (x86_target bmi2) takes_const op = true.
Proof.
  intros Hp Hc. destruct bmi2, op as [| | | | | |w|w|w|w|m w|m w|b w|u w|w|w| | |w|w|w|w|w|w| | | |w|w]; try discriminate Hc; try discriminate Hp;
    try (destruct w); try (destruct m); try (destruct b); try (destruct u); try discriminate Hp; vm_compute; reflexivity.
Qed.

Lemma x86_narrow op op' : narrowed no_high op op' -> x86_not_present op' = false /\ by_constraints op' = true.
Proof. intros H. by destruct H. Qed.

Lemma x86_ready_all bmi2 op : by_constraints op = false \/ x86_not_present op = false -> ready (x86_target bmi2) no_high op.
Proof.
  intros Ho. pose proof (x86_order : NoDup (tcg_target_reg_alloc_order (x86_target bmi2))) as Hord. pose proof (takes_const_ok bmi2) as Hc. destruct (by_constraints op) eqn:E.
  - destruct Ho as [?|Hp]; [done|].
    assert (op_ready (x86_target bmi2) op /\ forall op', narrowed no_high op op' -> op_ready (x86_target bmi2) op') as H.
    { split; [by apply (op_ready_b_ok _ Hord takes_const Hc), x86_all|].
      intros op' [Hp' Hc']%x86_narrow. by apply (op_ready_b_ok _ Hord takes_const Hc), x86_all. }
    by destruct op.
  - destruct op as [| | | | | |w|w|w|w|m w|m w|b w|u w|w|w| | |w|w|w|w|w|w| | | |w|w]; try discriminate E; try exact I.
    + apply (call_ready_b_ok _ Hord). by destruct bmi2.
    + apply (mov_ready_b_ok _ Hord). by destruct bmi2, w.
    + apply (movi_ready_b_ok _ Hord). by destruct bmi2, w.
Qed.

(** ** The place of the globals

    One global in a register, the pointer to the CPU state; the others are in
    that structure. *)
Record env_globals (s : TCGContext) (T : Z -> TCGTemp) : Prop := {
  eg_globals : 0 <= nb_globals s <= nb_temps s;
  eg_others : nb_temps s - nb_globals s <= CPU_TEMP_BUF_NLONGS;
  eg_fixed : forall t, is_global s t -> fixed_reg (T t) = true -> reg (T t) = TCG_AREG0;
  eg_mem : forall t, is_global s t -> fixed_reg (T t) = false -> mem_allocated (T t) = true /\ mem_reg (T t) = TCG_AREG0;
  eg_apart : forall t u, is_global s t -> is_global s u -> fixed_reg (T t) = false -> fixed_reg (T u) = false ->
    mem_offset (T t) = mem_offset (T u) -> t = u;
}.

Lemma x86_clobber r : in_set (set_regs 0 x86_call_clobber_regs) r -> r ∈ x86_call_clobber_regs.
Proof.
  intros H. apply set_regs_spec in H; [|apply Forall_forall; by repeat constructor].
  destruct H as [E|]; [|done]. unfold in_set in E. by rewrite Z.bits_0 in E.
Qed.

Lemma x86_layout s T bmi2 : env_globals s T -> layout_ok s (x86_target bmi2) T.
Proof.
  intros [Hg Ho Hf Hmem Ha].
  assert (forall t, is_global s t -> fixed s T t = fixed_reg (T t)) as Hfix.
  { intros t [_ Ht]. unfold fixed. by rewrite (proj2 (Z.ltb_lt _ _)). }
  assert (forall t, is_global s t -> fixed s T t = false -> mem_allocated (T t) = true /\ mem_reg (T t) = TCG_AREG0) as Hmem'
    by (intros t Ht Ft; apply Hmem; [done|by rewrite <- Hfix]).
  split; try done.
  - apply Forall_forall. by repeat constructor.
  - intros b [-> | [-> | (t & Ht & Ft & ->)]]; [done..|]. by destruct (Hmem' t Ht Ft) as [_ ->].
  - intros t Ht Ft. rewrite (Hf t Ht); [done|by rewrite <- Hfix].
  - intros t Ht Ft. by apply Hmem'.
  - intros t u Ht Hu Ft Fu _ Eo. apply (Ha t u); try done; by rewrite <- Hfix.
  - intros t Ht Ft. destruct (Hmem' t Ht Ft) as [_ ->]. done.
  - intros t Ht Ft. destruct (Hmem' t Ht Ft) as [_ ->]. done.
  - intros o _ [H1 _]. cbn in H1. unfold in_call_area. cbn. apply andb_false_iff. right. by apply Z.ltb_ge.
  - intros r Hr%x86_clobber. repeat (apply elem_of_cons in Hr as [->|Hr]; [done|]). by apply elem_of_nil in Hr.
  - cbn. unfold TCG_STATIC_CALL_ARGS, CPU_TEMP_BUF_NLONGS in *. change (align8 128) with 128. lia.
Qed.
End TcgX86.
