(* ===== verification/TcgMain.v ===== *)
(** From a translated block to host code (tcg/tcg.c, [tcg_gen_code_common]):
    the optimiser, the liveness pass and the register allocator composed, over
    any back end and for x86-64. *)
From Stdlib Require Import ZArith Lia Bool Ascii String.
From stdpp Require Import base numbers list sets.
From S2P Require Import Prelude HostUtils TcgOp TcgOpt TcgRing TcgArith TcgSem TcgBits TcgSound TcgStep TcgProg TcgShape TcgLive TcgGen TcgReg TcgHost TcgMeaning TcgPlace TcgMove TcgAlloc TcgSim TcgSimOp TcgSimMov TcgSimCall TcgMarks TcgFit TcgKeep TcgCode TcgTarget TcgX86.
Local Open Scope Z_scope.

Module TcgMain.
Import HostUtils.HostUtils Tcg TcgOpt TcgRing TcgArith TcgSem TcgBits TcgSound TcgStep TcgProg TcgShape TcgLive TcgGen TcgReg TcgHost TcgMeaning TcgPlace TcgMove TcgAlloc TcgSim TcgSimOp TcgSimMov TcgSimCall TcgMarks TcgFit TcgKeep TcgCode TcgTarget TcgX86.

Section main.
Context (s : TCGContext) (tgt : Target) (T : Z -> TCGTemp) (has_high : binop -> width -> bool).

Definition start : alloc_state := tcg_reg_alloc_start s T (frame_start tgt).

(** The allocator over the list of the liveness pass. *)
Definition tcg_gen_code (T0 : temps_t) (st0 : live_state) (p : list TCGOp) : outcome (unit * alloc_state * list hinsn) :=
  q <~ tcg_gen_code_passes s has_high T0 st0 p ;; tcg_gen_code_loop s tgt q start.

(** The code [code], from a state of the host, does what the block does from the
    state that one stands for. *)
Definition code_behaves (p : list TCGOp) (E : alloc_state) (code : list hinsn) : Prop :=
  globals_home s T E /\
  forall W (host : Host W) (junk : hstate W -> hstate W) h fuel k, host_fits s T host -> bases_apart s tgt T (hreg h) ->
    hbehaves s T p fuel 0 (run s host fuel k p 0 (state_of s T E h)) (fun f => hrun s tgt T host junk f code 0 h).

(** Helpers that do nothing. *)
Definition idle_host : Host unit := mkHost (fun _ _ _ w => OContinue [] w) (fun _ _ seen w => CReturn [] seen w).
Lemma idle_host_fits : host_fits s T idle_host.
Proof. split; [split; intros; eexists; eauto|by intros flags ins seen w _ t|done]. Qed.

Lemma block_code_behaves p st0 :
  layout_ok s tgt T -> nb_temps s <= TCG_MAX_TEMPS -> placeable s tgt T has_high p ->
  exists q E code, tcg_liveness_analysis s has_high st0 p = Ok q /\ tcg_gen_code_loop s tgt q start = Ok (tt, E, code) /\ code_behaves p E code.
Proof.
  intros HL Hm Hp.
  destruct (block_code s tgt T has_high HL Hm idle_host id idle_host_fits p st0 Hp) as (q & Eq & [] & E & code & Ec & HE & _).
  exists q, E, code. split; [done|]. split; [done|]. split; [exact HE|]. intros W host junk h fuel k Hh HB.
  destruct (block_code s tgt T has_high HL Hm host junk Hh p st0 Hp) as (q' & Eq' & [] & E' & code' & Ec' & _ & H).
  rewrite Eq in Eq'. injection Eq' as <-. unfold start in Ec. rewrite Ec in Ec'. injection Ec' as <- <-. by apply H.
Qed.

Lemma hbehaves_agree {W} p p' fuel n (b1 b2 : behaviour (W := W)) run :
  0 <= nb_globals s <= nb_temps s -> length p' = length p ->
  behaves s b1 b2 -> hbehaves s T p' fuel n b2 run -> hbehaves s T p fuel n b1 run.
Proof.
  intros Hg El. assert (forall (m1 m2 : mstate W) (h : hstate W), agree s m1 m2 -> left_agree s T m2 h -> left_agree s T m1 h) as Ha.
  { intros m1 m2 h [W1 R1] [W2 R2]. split; [congruence|]. intros t Gt. rewrite <- R2 by done. apply R1. unfold valid, is_global in *. lia. }
  intros Hb Hh. unfold hbehaves in *. rewrite El in Hh. destruct b1, b2; try done; destruct Hh as (f & h & E & ?); exists f, h; eauto.
Qed.

Lemma state_of_fits {W} E (h : hstate W) t : fits 64 (regs (state_of s T E h) t).
Proof. apply uwrap_fits. lia. Qed.

(** What is asked of a block and of the back end: the check of the operands, and
    a register for the operands of what the optimiser can make of it. *)
Record acceptable (p : list TCGOp) : Prop := {
  ac_source : source_block s tgt T [] p = true;
  ac_ready : forall i op, i ∈ p -> rewritten (opc i) op -> ready tgt has_high op;
}.

Lemma optimized_placeable T0 p p' :
  gen_ok s p -> acceptable p -> tcg_optimize s T0 p = Ok p' -> placeable s tgt T has_high p'.
Proof.
  intros Hok [Hs Hr] E. destruct (kept_live s _ _ Hok (optimize_keeps s T0 _ _ Hok E)) as [_ _ Hf Hd _].
  destruct (fold_ops_fits s tgt T (reset_all_temps (nb_temps s) T0) [] [] [] p p') as [H1 H2]; try done; try apply Hok.
  - by apply (s_wf _ _ (fun _ => 0)), sound_reset_all.
  - split; [by intros t ?%elem_of_nil|]. intros t Ht Hc. by rewrite all_copy in Hc.
  - by intros t ?%elem_of_nil.
  - split; [done..|]. apply (Forall_impl _ _ _ H2). intros i' (i & Hi & Hri). by apply (Hr i).
Qed.

(** The optimiser in front. *)
Lemma optimized_code T0 st0 p :
  gen_ok s p -> layout_ok s tgt T -> acceptable p ->
  (tcg_gen_code T0 st0 p = Fault DivOverflow /\ Exists (fun i => signed_div (opc i) = true) p) \/
  exists E code, tcg_gen_code T0 st0 p = Ok (tt, E, code) /\ code_behaves p E code.
Proof.
  intros Hok HL Ha. pose proof (fun p' => optimized_placeable T0 p p' Hok Ha) as Hpl. pose proof (go_block _ _ Hok) as Hb. pose proof (lo_globals _ _ (go_live _ _ Hok)) as Hg.
  pose proof (lo_temps _ _ (go_live _ _ Hok)) as Hm. unfold tcg_gen_code, tcg_gen_code_passes.
  set (T1 := reset_all_temps (nb_temps s) T0).
  assert (TcgRing.wf s T1) as HT by (by apply (s_wf _ _ (fun _ => 0)), sound_reset_all).
  assert (tcg_optimize s T0 p = fold_ops s T1 p) as E0 by done. rewrite E0 in *.
  destruct (fold_ops_total s T1 p Hb HT) as [[p' E]|[E Hd]]; [right|left; split; [by rewrite E|done]].
  destruct (block_code_behaves p' st0 HL Hm (Hpl p' E)) as (q & E1 & code & Eq & Ec & Hc).
  exists E1, code. rewrite E. cbn [obind]. rewrite Eq. cbn [obind]. split; [done|].
  destruct Hc as [HE Hc]. split; [exact HE|]. intros W host junk h fuel k Hh HB.
  apply (hbehaves_agree p p' fuel 0 _ (run s host fuel k p' 0 (state_of s T E1 h))); [done|by apply (fold_ops_length s T1)| |by apply Hc].
  apply (run_simulates s host p p' k k Hb (fun label => fold_ops_labels s T1 p p' label Hb HT E) fuel 0 T1);
    [apply agree_refl|apply sound_reset_all; intros t; apply state_of_fits|done].
Qed.
End main.

(** ** x86-64 *)

(** The operations of the block are in the table. *)
Definition x86_block (s : TCGContext) (T : Z -> TCGTemp) (bmi2 : bool) (p : list TCGOp) : bool :=
  fits_block s (x86_target bmi2) T [] [] p && forallb (fun i => negb (by_constraints (opc i)) || negb (x86_not_present (opc i))) p.

Lemma x86_placeable s T bmi2 p :
  Forall (framed s) p -> doubles_ok p = true -> x86_block s T bmi2 p = true -> placeable s (x86_target bmi2) T no_high p.
Proof.
  intros Hf Hd [Hfit Hp]%andb_true_iff. split; [done..|]. apply Forall_forall. intros i Hi%list_elem_of_In.
  pose proof (proj1 (forallb_forall _ _) Hp i Hi) as H. cbv beta in H. apply x86_ready_all.
  destruct (by_constraints (opc i)); [right|by left]. by apply negb_true_iff.
Qed.

(** The same in front of the optimiser. *)
Definition x86_source (s : TCGContext) (T : Z -> TCGTemp) (bmi2 : bool) (p : list TCGOp) : bool :=
  source_block s (x86_target bmi2) T [] p && forallb (fun i => negb (by_constraints (opc i)) || negb (x86_not_present (opc i))) p.

Lemma x86_rewritten op op' :
  rewritten op op' -> by_constraints op = false \/ x86_not_present op = false -> by_constraints op' = false \/ x86_not_present op' = false.
Proof. intros H. destruct H as [op|op|op w|op w|b u w [-> | ->]| |op|]; auto; by intros [|]. Qed.

Lemma x86_acceptable s T bmi2 p : x86_source s T bmi2 p = true -> acceptable s (x86_target bmi2) T no_high p.
Proof.
  intros [Hs Hp]%andb_true_iff. split; [done|]. intros i op Hi%list_elem_of_In Hr.
  pose proof (proj1 (forallb_forall _ _) Hp i Hi) as H. cbv beta in H. apply x86_ready_all, (x86_rewritten (opc i)); [done|].
  destruct (by_constraints (opc i)); [right|by left]. by apply negb_true_iff.
Qed.

(** ** An example

    The CPU state in a register, two guest registers, a local temporary; a guest
    load, a branch over a call. *)
Definition ex_ctx : TCGContext := mkContext 3 9 (fun t => if (t =? 0) || (t =? 6) then W64 else W32) (fun t => t =? 8).
Definition ex_temps (t : Z) : TCGTemp := mkTemp TEMP_VAL_DEAD TCG_AREG0 0 TCG_AREG0 (8 * t) false true (t =? 0).
Definition ex_block : list TCGOp :=
  [mkOp (op_movi W32) [3; 5]; mkOp (op_bin Badd W32) [4; 1; 3]; mkOp (op_mov W32) [8; 4];
   mkOp (op_qemu_ld W32) [5; 4; 0; 0];
   mkOp (op_brcond W32) [5; 1; 8; 0];
   mkOp (op_movi W64) [6; 4096]; mkOp op_call [0x10002; 7; 1; 6; 0]; mkOp (op_bin Bxor W32) [8; 7; 1];
   mkOp op_set_label [0];
   mkOp (op_mov W32) [2; 8]; mkOp op_exit_tb [0]].
Definition ex_infos : temps_t := fun _ => mkInfo TCG_TEMP_COPY 9 9 9 9.
Definition ex_live0 : live_state := mkLive (fun _ => false) (fun _ => true).

(** Its code: the sum in [ebx] is stored to the frame for the local temporary,
    used by the guest load in place, and reloaded behind the label. *)
Definition ex_code : list hinsn :=
  [HLd W32 TCG_REG_EBP TCG_REG_R14 8;
   HOp (op_bin Badd W32) [W32; W32; W32] [TCG_REG_EBX; TCG_REG_EBP; 5] [false; false; true] [];
   HSt W32 TCG_REG_EBX TCG_REG_ESP 128;
   HOp (op_qemu_ld W32) [W32; W32] [TCG_REG_EBX; TCG_REG_EBX] [false; false] [0; 0];
   HOp (op_brcond W32) [W32; W32] [TCG_REG_EBX; TCG_REG_EBP] [false; false] [8; 0];
   HLd W32 TCG_REG_EDI TCG_REG_R14 8; HCall 0 [W32; W64] 1 1 4096 true;
   HLd W32 TCG_REG_EBP TCG_REG_R14 8;
   HOp (op_bin Bxor W32) [W32; W32; W32] [TCG_REG_EAX; TCG_REG_EAX; TCG_REG_EBP] [false; false; false] [];
   HSt W32 TCG_REG_EAX TCG_REG_ESP 128;
   HLabel 0; HLd W32 TCG_REG_EBP TCG_REG_ESP 128; HSt W32 TCG_REG_EBP TCG_REG_R14 16;
   HOp op_exit_tb [] [] [] [0]].

Lemma ex_ok : gen_ok ex_ctx ex_block.
Proof.
  split; [apply block_okb_ok; by vm_compute|]. split; [by vm_compute|by vm_compute| |by vm_compute|by vm_compute].
  assert (forallb (framed_b ex_ctx) ex_block = true) as H by (by vm_compute).
  apply Forall_forall. intros i Hi%list_elem_of_In. by apply framed_b_ok, (proj1 (forallb_forall _ _) H).
Qed.

Lemma ex_env : env_globals ex_ctx ex_temps.
Proof.
  split; [by vm_compute|by vm_compute|done| |].
  - intros t _ _. done.
  - intros t u _ _ _ _ E. cbn in E. lia.
Qed.

Lemma ex_source : x86_source ex_ctx ex_temps false ex_block = true.
Proof. by vm_compute. Qed.

(** ** Spilling *)
Section spill.
Context (s : TCGContext) (tgt : Target) (T : Z -> TCGTemp).
Context (HL : layout_ok s tgt T).

(** Storing a register: one store to the slot, unless memory is current. *)
Definition store_of (A A' : alloc_state) (r t : Z) : list hinsn :=
  if mem_coherent (temps A t) then [] else [HSt (type s t) r (mem_reg (temps A' t)) (mem_offset (temps A' t))].

Lemma sync_emits L D K A r :
  inv s tgt T L D K A -> reg_to_temp A r <> -1 ->
  runs (tcg_reg_sync s tgt r) A (fun _ A' es => es = store_of A A' r (reg_to_temp A r) /\ slot A' (reg_to_temp A r) <> None).
Proof.
  intros HI Hn. pose proof (inv_wf _ _ _ _ _ _ _ HI) as HA. destruct (wf_map _ _ _ A HA r Hn) as (Vt & Ft & Hr & Er).
  set (t := reg_to_temp A r) in *. unfold tcg_reg_sync, store_of. go. fold t. rewrite (proj2 (Z.eqb_neq t (-1))) by done. cbn [when].
  unfold get_temp. go. assert (assert_ (bool_decide (val_type (temps A t) = TEMP_VAL_REG)) = ret tt) as ->
    by (unfold assert_; unfold in_reg, is_val in Hr; by rewrite Hr). go.
  rewrite (wf_fixed _ _ _ A HA t Vt), Ft, andb_true_r. apply runs_bind, runs_when; intros Hc.
  - apply negb_true_iff in Hc. rewrite Hc. apply runs_bind.
    refine (runs_mono _ _ _ _ (ensure_slot s tgt T idle_host id L D K A t HI Vt Ft) _).
    intros _ A1 es (-> & HM & Hs & _). go. unfold slot in *. cbn. rewrite Z.eqb_refl. split; [done|exact Hs].
  - apply negb_false_iff in Hc. rewrite Hc. go. split; [done|]. pose proof (wf_coherent _ _ _ A HA t Vt Ft Hr Hc) as Hs.
    unfold slot in *. cbn. rewrite Z.eqb_refl. exact Hs.
Qed.

Lemma free_emits L D K A r :
  inv s tgt T L D K A -> reg_to_temp A r <> -1 ->
  runs (tcg_reg_free s tgt r) A (fun _ A' es => es = store_of A A' r (reg_to_temp A r) /\ slot A' (reg_to_temp A r) <> None).
Proof.
  intros HI Hn. unfold tcg_reg_free. go. rewrite (proj2 (Z.eqb_neq _ _)) by done. cbn [negb when]. apply runs_bind.
  refine (runs_mono _ _ _ _ (sync_emits L D K A r HI Hn) _). intros _ A1 es [-> Hs]. go. unfold store_of, slot in *. cbn. rewrite Z.eqb_refl.
  rewrite app_nil_r. split; [done|exact Hs].
Qed.
End spill.

(** ** A copy of a constant

    The optimiser turns it into a [movi]; from any other front end the allocator
    gives the copy the constant and forgets that the source dies, which the
    assertion at the end of the basic block notices. *)
Definition ex_constant : list TCGOp :=
  [mkOp (op_movi W32) [3; 5]; mkOp (op_mov W32) [4; 3]; mkOp (op_bin Badd W32) [1; 4; 2]; mkOp op_exit_tb [0]].

Lemma mov_of_constant_aborts :
  forallb (framed_b ex_ctx) ex_constant = true /\ scoped ex_ctx [] ex_constant = true /\
  match tcg_liveness_analysis ex_ctx no_high ex_live0 ex_constant with
  | Ok q =>
    match tcg_gen_code_loop ex_ctx (x86_target false) q (start ex_ctx (x86_target false) ex_temps) with
    | Ok _ => None
    | Fault e => Some e
    end
  | Fault _ => None
  end = Some AssertFailed.
Proof. split_and!; vm_compute; reflexivity. Qed.

(** ** A word widened

    [deposit_i32] of a byte is a byte move into the register of its operand.  The
    operand here is the low word of a global of 64 bits, copied by renaming the
    register; the result is extended to 64 bits.  The optimiser finds that no
    operation of 32 bits leaves a bit above the word and makes the extension a
    copy, which stores the upper half of the global. *)
Definition ex_wide_ctx : TCGContext :=
  mkContext 4 9 (fun t => if bool_decide (t ∈ [0; 1; 3]) then W64 else W32) (fun _ => false).
Definition ex_widened : list TCGOp :=
  [mkOp (op_bin Badd W32) [6; 2; 2]; mkOp (op_mov W32) [4; 1]; mkOp (op_movi W32) [5; 7];
   mkOp (op_deposit W32) [8; 4; 5; 0; 8]; mkOp (op_un Uext32u W64) [3; 8];
   mkOp (op_bin Badd W32) [2; 6; 6]; mkOp (op_movi W64) [1; 0]; mkOp op_exit_tb [0]].
(** The global 1 holds 2^32 + 1. *)
Definition ex_wide_host : hstate unit := mkHState (fun _ => 0) (fun _ o => if o =? 8 then 2 ^ 32 + 1 else 0) tt.

Lemma widened_word_diverges :
  block_okb ex_wide_ctx ex_widened = true /\ scoped ex_wide_ctx [] ex_widened = true /\
  match tcg_gen_code ex_wide_ctx (x86_target false) ex_temps no_high ex_infos ex_live0 ex_widened with
  | Ok (_, E, code) =>
      match run ex_wide_ctx idle_host 20 (fun _ => true) ex_widened 0 (state_of ex_wide_ctx ex_temps E ex_wide_host),
            hrun ex_wide_ctx (x86_target false) ex_temps idle_host id 20 code 0 ex_wide_host with
      | FellOff m, HFellOff h => Some (regs m 3, hglobal ex_wide_ctx ex_temps h 3, take 6 code)
      | _, _ => None
      end
  | Fault _ => None
  end =
  Some (7, 2 ^ 32 + 7,
    [HLd W32 TCG_REG_EBP TCG_REG_R14 16; HOp (op_bin Badd W32) [W32; W32; W32] [TCG_REG_EBP; TCG_REG_EBP; TCG_REG_EBP] [false; false; false] [];
     HLd W64 TCG_REG_EBX TCG_REG_R14 8; HMovi W32 TCG_REG_ECX 7;
     HOp (op_deposit W32) [W32; W32; W32] [TCG_REG_EBX; TCG_REG_EBX; TCG_REG_ECX] [false; false; false] [0; 8];
     HSt W64 TCG_REG_EBX TCG_REG_R14 24]).
Proof. split_and!; vm_compute; reflexivity. Qed.

(** ** The theorems *)

(** C1: The translator's back half is correct over any back end whose table
    leaves a register for every operand: for a well-formed block that passes
    the check of its operands ([acceptable]: the back end takes the operations,
    none writes a global that lives in a fixed register, and no operation of 64 bits
    reads a temporary of 32 bits, so that no word is widened by
    [ext32u_i64] or [ext32s_i64]; see [widened_word_diverges]), the optimiser, the liveness pass and the
    register allocator return (but for the folding of a signed division), and
    the host code they emit runs as the block does, from every state of the host
    and the state of the block it stands for: it leaves, falls off or keeps
    running when the block does, with the same world and the same value in every
    global.  Helpers, the guest's memory and what calls destroy are arbitrary,
    as far as they keep the promises of the flags. *)
Theorem tcg_gen_code_correct (s : TCGContext) tgt T has_high T0 st0 p :
  gen_ok s p -> layout_ok s tgt T -> acceptable s tgt T has_high p ->
  (tcg_gen_code s tgt T has_high T0 st0 p = Fault DivOverflow /\ Exists (fun i => signed_div (opc i) = true) p) \/
  exists E code, tcg_gen_code s tgt T has_high T0 st0 p = Ok (tt, E, code) /\ code_behaves s tgt T p E code.
Proof. apply optimized_code. Qed.

Lemma tcg_gen_code_correct_witness :
  option_map snd (match tcg_gen_code ex_ctx (x86_target false) ex_temps no_high ex_infos ex_live0 ex_block with Ok r => Some r | Fault _ => None end)
    = Some ex_code /\
  ((tcg_gen_code ex_ctx (x86_target false) ex_temps no_high ex_infos ex_live0 ex_block = Fault DivOverflow /\
      Exists (fun i => signed_div (opc i) = true) ex_block) \/
   exists E code, tcg_gen_code ex_ctx (x86_target false) ex_temps no_high ex_infos ex_live0 ex_block = Ok (tt, E, code) /\
     code_behaves ex_ctx (x86_target false) ex_temps ex_block E code).
Proof.
  split; [by vm_compute|]. apply tcg_gen_code_correct; [apply ex_ok|apply x86_layout, ex_env|apply x86_acceptable, ex_source].
Defined.

(** C3: The register allocator takes every block it can place through the
    liveness pass to code that runs as the block does: every operand finds a
    register, no slot is missing in the frame, no assertion and no consistency
    check fails, and what is spilled, renamed, kept as a constant or left in a
    register across the operations is where the code expects it. *)
Theorem tcg_reg_alloc_correct (s : TCGContext) tgt T has_high st0 p :
  layout_ok s tgt T -> nb_temps s <= TCG_MAX_TEMPS -> placeable s tgt T has_high p ->
  exists q E code, tcg_liveness_analysis s has_high st0 p = Ok q /\
    tcg_gen_code_loop s tgt q (start s tgt T) = Ok (tt, E, code) /\ code_behaves s tgt T p E code.
Proof. apply block_code_behaves. Qed.

(** A loop with a double-word sum. *)
Definition ex_spill : list TCGOp :=
  [mkOp (op_movi W32) [8; 1]; mkOp op_set_label [0]; mkOp (op_add2 W32) [3; 4; 8; 1; 2; 8]; mkOp op_nop [];
   mkOp (op_bin Bshl W32) [5; 3; 4]; mkOp (op_mov W32) [8; 5]; mkOp (op_brcond W32) [8; 1; 8; 0];
   mkOp op_exit_tb [7]].

Lemma tcg_reg_alloc_correct_witness :
  layout_ok ex_ctx (x86_target true) ex_temps /\
  exists q E code, tcg_liveness_analysis ex_ctx no_high ex_live0 ex_spill = Ok q /\
    tcg_gen_code_loop ex_ctx (x86_target true) q (start ex_ctx (x86_target true) ex_temps) = Ok (tt, E, code) /\
    code_behaves ex_ctx (x86_target true) ex_temps ex_spill E code.
Proof.
  split; [apply x86_layout, ex_env|]. apply tcg_reg_alloc_correct; [apply x86_layout, ex_env|by vm_compute|].
  apply x86_placeable; [|by vm_compute|by vm_compute].
  assert (forallb (framed_b ex_ctx) ex_spill = true) as H by (by vm_compute).
  apply Forall_forall. intros i Hi%list_elem_of_In. by apply framed_b_ok, (proj1 (forallb_forall _ _) H).
Defined.

(** C27: Asked for a register of [S] outside [R] while there is one, the
    allocator gives a register of [S] outside [R] that then holds no temporary.
    It spills only when none of them is free: the temporary goes to memory, into
    a slot it has or is given, by one store, or by none when memory is current;
    every other temporary stays where it is, and the tables stay consistent. *)
Theorem tcg_reg_alloc_spec (s : TCGContext) tgt T L D K A S R :
  layout_ok s tgt T -> inv s tgt T L D K A -> room_in tgt S R ->
  exists r A' es, tcg_reg_alloc s tgt S R A = Ok (r, A', es) /\
    chosen S R r /\ reg_to_temp A' r = -1 /\ inv s tgt T L D K A' /\
    (reg_to_temp A r = -1 -> A' = A /\ es = []) /\
    (let t := reg_to_temp A r in t <> -1 ->
      (forall r', r' ∈ tcg_target_reg_alloc_order tgt -> chosen S R r' -> reg_to_temp A r' <> -1) /\
      val_type (temps A' t) = TEMP_VAL_MEM /\ slot A' t <> None /\ es = store_of s A A' r t) /\
    forall u, u <> reg_to_temp A r -> temps A' u = temps A u.
Proof.
  intros HL HI Hroom.
  pose proof (tcg_reg_alloc_ok s tgt T HL idle_host id L D K A S R HI Hroom) as H1.
  assert (runs (tcg_reg_alloc s tgt S R) A (fun r A' es => (reg_to_temp A r = -1 -> A' = A /\ es = []) /\
    (reg_to_temp A r <> -1 -> (forall r', r' ∈ tcg_target_reg_alloc_order tgt -> chosen S R r' -> reg_to_temp A r' <> -1) /\
       slot A' (reg_to_temp A r) <> None /\ es = store_of s A A' r (reg_to_temp A r)))) as H2.
  { unfold tcg_reg_alloc. go. destruct (find _ _) as [r|] eqn:E1.
    { apply find_some in E1 as [_ [_ He%Z.eqb_eq]%andb_true_iff]. go. done. }
    assert (forall r', r' ∈ tcg_target_reg_alloc_order tgt -> chosen S R r' -> reg_to_temp A r' <> -1) as Hbusy.
    { intros r' Hr'%list_elem_of_In (H0 & HS & HR) E. pose proof (find_none _ _ E1 r' Hr') as Hf. cbv beta in Hf.
      by rewrite andnot_spec, HS, HR, E in Hf. }
    destruct Hroom as (r0 & H0 & S0 & R0). pose proof (ly_order _ _ _ HL r0 H0) as P0.
    destruct (find (tcg_regset_test_reg (tcg_regset_andnot S R)) _) as [r|] eqn:E2.
    - apply find_some in E2 as [Hin%list_elem_of_In Ht]. apply runs_bind. pose proof (ly_order _ _ _ HL r Hin) as Hp.
      rewrite andnot_spec in Ht by done. apply andb_true_iff in Ht as [HS HR%negb_true_iff].
      assert (reg_to_temp A r <> -1) as Hn by (by apply Hbusy).
      refine (runs_mono _ _ _ _ (free_emits s tgt T L D K A r HI Hn) _). intros _ A' es [-> Hs]. go. rewrite app_nil_r. done.
    - pose proof (find_none _ _ E2 r0 (proj1 (list_elem_of_In _ _) H0)) as Hf. by rewrite andnot_spec, S0, R0 in Hf. }
  destruct (runs_and _ _ _ _ H1 H2) as (r & A' & es & E & (HM & HF & Hc) & Hfree & Hbusy). exists r, A', es.
  split; [done|]. split; [done|]. split; [by rewrite (fr_map _ _ _ HF), Z.eqb_refl|]. split; [apply HM|]. split; [done|]. split.
  - intros t Hn. destruct (Hbusy Hn) as (? & ? & ?). split; [done|]. split; [by apply (fr_temp _ _ _ HF t)|done].
  - intros u Hu. by apply (fr_other _ _ _ HF).
Qed.

(** Two temporaries in the two registers there is a choice of; the one in
    [ebp] is spilled. *)
Definition ex_tables : alloc_state :=
  upd_map TCG_REG_EBX 2 (upd_temp 2 (fun ts => ts <| val_type := TEMP_VAL_REG |> <| reg := TCG_REG_EBX |>)
    (upd_map TCG_REG_EBP 1 (upd_temp 1 (fun ts => ts <| val_type := TEMP_VAL_REG |> <| reg := TCG_REG_EBP |>)
      (start ex_ctx (x86_target true) ex_temps)))).

Definition ex_reading : live_state := mkLive (fun t => negb ((t =? 1) || (t =? 2))) (fun _ => false).

Lemma ex_loaded A t r :
  inv ex_ctx (x86_target true) ex_temps ex_reading [] [] A -> t = 1 \/ t = 2 -> in_reg (temps A t) = false ->
  room_reg (x86_target true) r -> reg_to_temp A r = -1 -> mem_coherent (temps A t) = false ->
  inv ex_ctx (x86_target true) ex_temps ex_reading [] []
    (upd_map r t (upd_temp t (fun ts => ts <| val_type := TEMP_VAL_REG |> <| reg := r |>) A)).
Proof.
  intros HI Ht Hr Hroom Hfree Hc.
  apply (inv_replaced ex_ctx (x86_target true) ex_temps ex_reading [] [] A t (temps A t <| val_type := TEMP_VAL_REG |> <| reg := r |>)); try done.
  - destruct Ht as [-> | ->]; by split.
  - by destruct Ht as [-> | ->].
  - split; [|intros r'|done]; [intros u; cbn; by destruct (Z.eqb_spec u t) as [->|]|]. rewrite Hr. done.
  - intros _. split; [done|]. split; [by left|]. cbn. rewrite Hc. done.
  - split; cbn; try done. intros Hd. by destruct Ht as [-> | ->].
Qed.

Lemma ex_tables_inv : inv ex_ctx (x86_target true) ex_temps ex_reading [] [] ex_tables.
Proof.
  assert (inv ex_ctx (x86_target true) ex_temps ex_reading [] [] (start ex_ctx (x86_target true) ex_temps)) as HI.
  { apply (start_inv ex_ctx (x86_target true) ex_temps); [apply x86_layout, ex_env| |done].
    intros t Ht Hl. right; left. destruct Hl as [E|E]; [|done]. cbn in E. apply negb_false_iff, orb_true_iff in E.
    unfold is_global. cbn. lia. }
  apply ex_loaded; [apply ex_loaded; [done|by left|by vm_compute..]|by right|by vm_compute..].
Qed.

Lemma tcg_reg_alloc_spec_witness :
  let S := Z.lor (bit TCG_REG_EBP) (bit TCG_REG_EBX) in
  exists r A' es, tcg_reg_alloc ex_ctx (x86_target true) S 0 ex_tables = Ok (r, A', es) /\
    r = TCG_REG_EBP /\ es = [HSt W32 TCG_REG_EBP TCG_REG_R14 8] /\
    inv ex_ctx (x86_target true) ex_temps ex_reading [] [] A' /\ val_type (temps A' 1) = TEMP_VAL_MEM.
Proof.
  intros S.
  destruct (tcg_reg_alloc_spec ex_ctx (x86_target true) ex_temps ex_reading [] [] ex_tables S 0) as (r & A' & es & E & _ & _ & HI & _ & Hs & _).
  - apply x86_layout, ex_env.
  - apply ex_tables_inv.
  - exists TCG_REG_EBP. split; [by left|by vm_compute].
  - pose proof (f_equal (fun x => match x with Ok (r, _, es) => Some (r, es) | Fault _ => None end) E) as Er.
    assert (Some (TCG_REG_EBP, [HSt W32 TCG_REG_EBP TCG_REG_R14 8]) = Some (r, es)) as Er' by (rewrite <- Er; by vm_compute).
    clear Er. injection Er' as <- <-. exists TCG_REG_EBP, A', [HSt W32 TCG_REG_EBP TCG_REG_R14 8].
    do 3 (split; [done|]). split; [exact HI|]. by apply Hs.
Defined.

(** C26: The x86-64 table has an entry for exactly the operations that are
    present; every entry parses, with a constraint for each operand; and with
    what the table leaves free no operand of any operation goes without a
    register, whatever registers the operands before it have taken, no alias
    points at an operand that may be a constant, and calls find scratch registers
    besides their arguments. *)
Theorem x86_table_complete bmi2 op :
  (x86_not_present op = false <-> exists strs, x86_op_defs op = Some strs) /\
  (forall strs, x86_op_defs op = Some strs -> exists cs,
     tcg_add_target_add_op_def (target_parse_constraint bmi2) (tcg_op_defs op) strs = Ok cs /\
     List.length cs = (nb_oargs (tcg_op_defs op) + nb_iargs (tcg_op_defs op))%nat) /\
  (x86_not_present op = false -> ready (x86_target bmi2) no_high op).
Proof.
  split; [|split; [|intros Hp; apply x86_ready_all; by right]].
  - destruct op as [| | | | | |w|w|w|w|m w|m w|b w|u w|w|w| | |w|w|w|w|w|w| | | |w|w];
      try (destruct w); try (destruct m); try (destruct b); try (destruct u); split; try done; try (by intros [strs [=]]); intros _; by eexists.
  - destruct bmi2, op as [| | | | | |w|w|w|w|m w|m w|b w|u w|w|w| | |w|w|w|w|w|w| | | |w|w];
      try (destruct w); try (destruct m); try (destruct b); try (destruct u); intros strs [= <-]; eexists; (split; [by vm_compute|done]).
Qed.

Lemma x86_table_complete_witness :
  x86_op_defs (op_add2 W64) = Some ["r"; "r"; "0"; "1"; "re"; "re"]%string /\
  x86_args_ct true (op_add2 W64) =
    [mkConstraint TCG_CT_ALIAS 2 0xffff; mkConstraint TCG_CT_ALIAS 3 0xffff;
     mkConstraint (Z.lor TCG_CT_REG TCG_CT_IALIAS) 0 0xffff; mkConstraint (Z.lor TCG_CT_REG TCG_CT_IALIAS) 1 0xffff;
     mkConstraint (Z.lor TCG_CT_REG TCG_CT_CONST_S32) 0 0xffff; mkConstraint (Z.lor TCG_CT_REG TCG_CT_CONST_S32) 0 0xffff] /\
  ready (x86_target true) no_high (op_add2 W64).
Proof. split; [done|]. split; [by vm_compute|]. apply (x86_table_complete true (op_add2 W64)). by vm_compute. Defined.

(** C4: For x86-64: a well-formed block over one register that points to the
    CPU state, with no more than 128 temporaries besides the globals, that
    passes the decidable check of its operations and operands becomes code that
    runs as the block does. *)
Theorem x86_gen_code_correct (s : TCGContext) T bmi2 T0 st0 p :
  gen_ok s p -> env_globals s T -> x86_source s T bmi2 p = true ->
  (tcg_gen_code s (x86_target bmi2) T no_high T0 st0 p = Fault DivOverflow /\ Exists (fun i => signed_div (opc i) = true) p) \/
  exists E code, tcg_gen_code s (x86_target bmi2) T no_high T0 st0 p = Ok (tt, E, code) /\ code_behaves s (x86_target bmi2) T p E code.
Proof.
  intros Hok HE Hx. apply optimized_code; [done|by apply x86_layout|by apply x86_acceptable].
Qed.

Lemma x86_gen_code_correct_witness :
  (tcg_gen_code ex_ctx (x86_target false) ex_temps no_high ex_infos ex_live0 ex_block = Fault DivOverflow /\
     Exists (fun i => signed_div (opc i) = true) ex_block) \/
  exists E code, tcg_gen_code ex_ctx (x86_target false) ex_temps no_high ex_infos ex_live0 ex_block = Ok (tt, E, code) /\
    code_behaves ex_ctx (x86_target false) ex_temps ex_block E code.
Proof. apply x86_gen_code_correct; [apply ex_ok|apply ex_env|apply ex_source]. Defined.
End TcgMain.
