(* ===== verification/TcgTemp.v ===== *)
(** The translation context while a block is translated (tcg/tcg.c): globals,
    temporaries with their free lists, labels, and calls of helpers.

    A generator runs in the monad of [Prelude]; its trace is what it appends to
    [gen_opc_buf] and [gen_opparam_buf].  Hosts of 64 bits whose calling
    convention takes words as they are ([TCG_TARGET_EXTEND_ARGS] undefined).
    The counters of [CONFIG_DEBUG_TCG] and the names of globals are left out. *)
From Stdlib Require Import ZArith Lia Bool.
From stdpp Require Import base numbers list.
From S2P Require Import Prelude HostUtils TcgOp TcgLive TcgReg.
Local Open Scope Z_scope.
Local Open Scope prog_scope.

Module TcgTemp.
Import Tcg TcgLive TcgReg.

(** ** Globals

    Made once, before any block is translated. *)
Record global_state := mkGlobals {
  gl_nb : Z;
  gl_type : Z -> width;
  gl_temps : Z -> TCGTemp;
  gl_reserved : Z;
}.
#[export] Instance global_state_eta : Settable global_state := fun G =>
  mkGlobals (gl_nb G) (gl_type G) (gl_temps G) (gl_reserved G).

Definition tcg_temp_alloc {S E} (n : Z) : prog S E unit := when (TCG_MAX_TEMPS <? n) (abort TcgAbort).

Definition new_global (ty : width) (f : TCGTemp -> TCGTemp) (G : global_state) : global_state :=
  let idx := gl_nb G in
  G <| gl_type ::= fun T i => if i =? idx then ty else T i |>
    <| gl_temps ::= fun T i => if i =? idx then f (T i) else T i |>
    <| gl_nb := idx + 1 |>.

Definition tcg_global_reg_new_internal (ty : width) (r : Z) : prog global_state Empty_set Z :=
  reserved <- gets gl_reserved ;;
  when (tcg_regset_test_reg reserved r) (abort TcgAbort) ;;;
  idx <- gets gl_nb ;;
  tcg_temp_alloc (idx + 1) ;;;
  modify (new_global ty (fun ts => ts <| fixed_reg := true |> <| reg := r |>)) ;;;
  modify (fun G => G <| gl_reserved ::= fun d => tcg_regset_set_reg d r |>) ;;;
  ret idx.

Definition tcg_global_mem_new_internal (ty : width) (r offset : Z) : prog global_state Empty_set Z :=
  idx <- gets gl_nb ;;
  tcg_temp_alloc (idx + 1) ;;;
  modify (new_global ty (fun ts =>
    ts <| fixed_reg := false |> <| mem_allocated := true |> <| mem_reg := r |> <| mem_offset := offset |>)) ;;;
  ret idx.

(** ** Temporaries of a block

    [free_temps]: the temporaries to be used again, by type and locality
    ([free_temps[k]] with [k = type + (temp_local ? TCG_TYPE_COUNT : 0)]).  The
    types and localities are in the context of [Tcg]. *)
Record gen_state := mkGen {
  ctx : TCGContext;
  temp_allocated : Z -> bool;
  free_temps : width -> bool -> Z -> bool;
  nb_labels : Z;
}.
#[export] Instance gen_state_eta : Settable gen_state := fun G =>
  mkGen (ctx G) (temp_allocated G) (free_temps G) (nb_labels G).

Notation gen := (prog gen_state TCGOp).

Definition TCG_MAX_LABELS : Z := 512.

(** The counts, types and locality of the temporaries of the last block stay. *)
Definition tcg_func_start (G : gen_state) : gen_state :=
  let s := ctx G in
  G <| ctx := mkContext (nb_globals s) (nb_globals s) (type s) (temp_local s) |>
    <| free_temps := fun _ _ _ => false |>
    <| nb_labels := 0 |>.

Definition set_free (ty : width) (loc : bool) (idx : Z) (v : bool) (G : gen_state) : gen_state :=
  G <| free_temps ::= fun F ty' loc' i =>
    if bool_decide (ty' = ty) && bool_decide (loc' = loc) && (i =? idx) then v else F ty' loc' i |>.
Definition set_allocated (idx : Z) (v : bool) (G : gen_state) : gen_state :=
  G <| temp_allocated ::= fun A i => if i =? idx then v else A i |>.

(** [ts->base_type = ts->type = type; ts->temp_local = temp_local; nb_temps++]. *)
Definition extend (s : TCGContext) (ty : width) (loc : bool) : TCGContext :=
  let idx := nb_temps s in
  mkContext (nb_globals s) (idx + 1) (fun i => if i =? idx then ty else type s i)
    (fun i => if i =? idx then loc else temp_local s i).

Definition assert_ (b : bool) : gen unit := if b then ret tt else abort AssertFailed.

Definition find_first_bit (l : Z -> bool) (size : Z) : Z :=
  match find l (seqZ 0 size) with Some i => i | None => size end.

Definition tcg_temp_new_internal (ty : width) (loc : bool) : gen Z :=
  free <- gets (fun G => free_temps G ty loc) ;;
  let idx := find_first_bit free TCG_MAX_TEMPS in
  if idx <? TCG_MAX_TEMPS then
    modify (set_free ty loc idx false) ;;;
    modify (set_allocated idx true) ;;;
    s <- gets ctx ;;
    assert_ (bool_decide (type s idx = ty)) ;;;
    assert_ (bool_decide (temp_local s idx = loc)) ;;;
    ret idx
  else
    s <- gets ctx ;;
    let idx := nb_temps s in
    tcg_temp_alloc (idx + 1) ;;;
    modify (fun G => G <| ctx := extend s ty loc |>) ;;;
    modify (set_allocated idx true) ;;;
    ret idx.

Definition tcg_temp_new (ty : width) : gen Z := tcg_temp_new_internal ty false.
Definition tcg_temp_local_new (ty : width) : gen Z := tcg_temp_new_internal ty true.

Definition tcg_temp_free (idx : Z) : gen unit :=
  s <- gets ctx ;;
  assert_ ((nb_globals s <=? idx) && (idx <? nb_temps s)) ;;;
  allocated <- gets temp_allocated ;;
  assert_ (allocated idx) ;;;
  modify (set_allocated idx false) ;;;
  modify (set_free (type s idx) (temp_local s idx) idx true).

(** ** Labels *)
Definition gen_new_label : gen Z :=
  idx <- gets nb_labels ;;
  when (TCG_MAX_LABELS <=? idx) (abort TcgAbort) ;;;
  modify (fun G => G <| nb_labels := idx + 1 |>) ;;;
  ret idx.

(** ** Operations *)
Definition tcg_gen_op (op : TCGOpcode) (l : list Z) : gen unit := emit (mkOp op l).

(** An [int32_t] or [int64_t] constant. *)
Definition tcg_gen_movi (w : width) (r v : Z) : gen unit := tcg_gen_op (op_movi w) [r; u64 (swrap (bits w) v)].
Definition tcg_const (w : width) (v : Z) : gen Z := t0 <- tcg_temp_new w ;; tcg_gen_movi w t0 v ;;; ret t0.
Definition tcg_const_local (w : width) (v : Z) : gen Z := t0 <- tcg_temp_local_new w ;; tcg_gen_movi w t0 v ;;; ret t0.

(** [ret] is [None] for [TCG_CALL_DUMMY_ARG]; the size mask is not used on a
    64-bit host. *)
Definition tcg_gen_callN (func flags : Z) (r : option Z) (args : list Z) : gen unit :=
  let outs := match r with Some t => [t] | None => [] end in
  let nb_rets := Z.of_nat (length outs) in
  let real_args := Z.of_nat (length args) in
  tcg_gen_op op_call
    ([Z.lor (Z.shiftl nb_rets 16) (real_args + 1)] ++ outs ++ args ++ [func; flags; 1 + nb_rets + real_args + 3]).
End TcgTemp.
