(* ===== verification/TcgFront.v ===== *)
(** The generators of intermediate code (tcg/tcg-op.h, and the guest accesses of
    tcg/tcg.c) on a 64-bit host: what the front ends call, instruction by
    instruction, with the shortcuts for constants and the sequences that stand
    in for operations the host does not have.

    A generator of the source comes in an [_i32] and an [_i64] version; here it
    takes the width.  [TCG_TARGET_HAS_neg_i32] is [TCG_TARGET_HAS_un Uneg W32],
    and so on. *)
From Stdlib Require Import ZArith Lia Bool.
From stdpp Require Import base numbers list.
From S2P Require Import Prelude HostUtils TcgOp TcgTemp.
Local Open Scope Z_scope.
Local Open Scope prog_scope.

Module TcgFront.
Import HostUtils.HostUtils Tcg TcgTemp.

(** ** The optional operations of the host *)
Record TargetHas := mkHas {
  TCG_TARGET_HAS_un : unop -> width -> bool;
  TCG_TARGET_HAS_bin : binop -> width -> bool;
  TCG_TARGET_HAS_div : width -> bool;
  TCG_TARGET_HAS_rem : width -> bool;
  TCG_TARGET_HAS_div2 : width -> bool;
  TCG_TARGET_HAS_rot : width -> bool;
  TCG_TARGET_HAS_deposit : width -> bool;
  TCG_TARGET_deposit_valid : width -> Z -> Z -> bool;
  TCG_TARGET_HAS_movcond : width -> bool;
  TCG_TARGET_HAS_add2 : width -> bool;
  TCG_TARGET_HAS_sub2 : width -> bool;
  TCG_TARGET_HAS_mulu2 : width -> bool;
  TCG_TARGET_HAS_muls2 : width -> bool;
}.

(** The functions of tcg-runtime.c that generators call. *)
Inductive runtime_helper :=
| tcg_helper_div (w : width) | tcg_helper_rem (w : width) | tcg_helper_divu (w : width) | tcg_helper_remu (w : width)
| tcg_helper_muluh_i64 | tcg_helper_mulsh_i64.

(** The functions themselves, on the bits of their arguments; [None]: a division
    the host traps on. *)
Definition runtime (f : runtime_helper) (x y : Z) : option Z :=
  let signed (w : width) (op : Z -> Z -> Z) :=
    let sx := swrap (bits w) x in
    let sy := swrap (bits w) y in
    if (sy =? 0) || ((sx =? - 2 ^ (bits w - 1)) && (sy =? -1)) then None else Some (uwrap (bits w) (op sx sy)) in
  match f with
  | tcg_helper_div w => signed w Z.quot
  | tcg_helper_rem w => signed w Z.rem
  | tcg_helper_divu _ => if y =? 0 then None else Some (x / y)
  | tcg_helper_remu _ => if y =? 0 then None else Some (x mod y)
  | tcg_helper_muluh_i64 => Some (snd (mulu64 x y))
  | tcg_helper_mulsh_i64 => Some (snd (muls64 (s64 x) (s64 y)))
  end.

Section front.
Context (has : TargetHas) (address : runtime_helper -> Z).
Notation has_un := (TCG_TARGET_HAS_un has).
Notation has_bin := (TCG_TARGET_HAS_bin has).

(** ** Labels, moves, constants *)
Definition gen_set_label (n : Z) : gen unit := tcg_gen_op op_set_label [n].
Definition tcg_gen_br (label : Z) : gen unit := tcg_gen_op op_br [label].
Definition tcg_gen_mov (w : width) (r a : Z) : gen unit := when (negb (r =? a)) (tcg_gen_op (op_mov w) [r; a]).

(** [tcg_gen_helper32] and [tcg_gen_helper64]. *)
Definition tcg_gen_helper (func : runtime_helper) (r a b : Z) : gen unit :=
  fn <- tcg_const W64 (address func) ;;
  tcg_gen_callN fn (Z.lor TCG_CALL_NO_READ_GLOBALS TCG_CALL_NO_SIDE_EFFECTS) (Some r) [a; b] ;;;
  tcg_temp_free fn.

(** ** Host memory *)
Definition tcg_gen_ld (m : memsize) (w : width) (r base offset : Z) : gen unit :=
  tcg_gen_op (op_ld m w) [r; base; u64 offset].
Definition tcg_gen_st (m : memsize) (w : width) (a base offset : Z) : gen unit :=
  tcg_gen_op (op_st m w) [a; base; u64 offset].

(** ** Arithmetic *)
Definition tcg_gen_add (w : width) (r a b : Z) : gen unit := tcg_gen_op (op_bin Badd w) [r; a; b].
Definition tcg_gen_addi (w : width) (r a v : Z) : gen unit :=
  if v =? 0 then tcg_gen_mov w r a
  else t0 <- tcg_const w v ;; tcg_gen_add w r a t0 ;;; tcg_temp_free t0.

Definition tcg_gen_sub (w : width) (r a b : Z) : gen unit := tcg_gen_op (op_bin Bsub w) [r; a; b].
Definition tcg_gen_subfi (w : width) (r v b : Z) : gen unit :=
  t0 <- tcg_const w v ;; tcg_gen_sub w r t0 b ;;; tcg_temp_free t0.
Definition tcg_gen_subi (w : width) (r a v : Z) : gen unit :=
  if v =? 0 then tcg_gen_mov w r a
  else t0 <- tcg_const w v ;; tcg_gen_sub w r a t0 ;;; tcg_temp_free t0.

Definition tcg_gen_and (w : width) (r a b : Z) : gen unit :=
  if a =? b then tcg_gen_mov w r a else tcg_gen_op (op_bin Band w) [r; a; b].

(** [v] is unsigned. *)
Definition tcg_gen_andi (w : width) (r a v : Z) : gen unit :=
  if v =? 0 then tcg_gen_movi w r 0
  else if v =? 2 ^ bits w - 1 then tcg_gen_mov w r a
  else if (v =? 0xff) && has_un Uext8u w then tcg_gen_op (op_un Uext8u w) [r; a]
  else if (v =? 0xffff) && has_un Uext16u w then tcg_gen_op (op_un Uext16u w) [r; a]
  else if (v =? 0xffffffff) && has_un Uext32u w then tcg_gen_op (op_un Uext32u w) [r; a]
  else t0 <- tcg_const w v ;; tcg_gen_and w r a t0 ;;; tcg_temp_free t0.

Definition tcg_gen_or (w : width) (r a b : Z) : gen unit :=
  if a =? b then tcg_gen_mov w r a else tcg_gen_op (op_bin Bor w) [r; a; b].
Definition tcg_gen_ori (w : width) (r a v : Z) : gen unit :=
  if v =? -1 then tcg_gen_movi w r (-1)
  else if v =? 0 then tcg_gen_mov w r a
  else t0 <- tcg_const w v ;; tcg_gen_or w r a t0 ;;; tcg_temp_free t0.

Definition tcg_gen_xor (w : width) (r a b : Z) : gen unit :=
  if a =? b then tcg_gen_movi w r 0 else tcg_gen_op (op_bin Bxor w) [r; a; b].
Definition tcg_gen_xori (w : width) (r a v : Z) : gen unit :=
  if v =? 0 then tcg_gen_mov w r a
  else if (v =? -1) && has_un Unot w then tcg_gen_op (op_un Unot w) [r; a]
  else t0 <- tcg_const w v ;; tcg_gen_xor w r a t0 ;;; tcg_temp_free t0.

Definition tcg_gen_shl (w : width) (r a b : Z) : gen unit := tcg_gen_op (op_bin Bshl w) [r; a; b].
Definition tcg_gen_shr (w : width) (r a b : Z) : gen unit := tcg_gen_op (op_bin Bshr w) [r; a; b].
Definition tcg_gen_sar (w : width) (r a b : Z) : gen unit := tcg_gen_op (op_bin Bsar w) [r; a; b].
Definition tcg_gen_shli (w : width) (r a v : Z) : gen unit :=
  if v =? 0 then tcg_gen_mov w r a
  else t0 <- tcg_const w v ;; tcg_gen_shl w r a t0 ;;; tcg_temp_free t0.
Definition tcg_gen_shri (w : width) (r a v : Z) : gen unit :=
  if v =? 0 then tcg_gen_mov w r a
  else t0 <- tcg_const w v ;; tcg_gen_shr w r a t0 ;;; tcg_temp_free t0.
Definition tcg_gen_sari (w : width) (r a v : Z) : gen unit :=
  if v =? 0 then tcg_gen_mov w r a
  else t0 <- tcg_const w v ;; tcg_gen_sar w r a t0 ;;; tcg_temp_free t0.

(** ** Comparisons *)
Definition tcg_gen_brcond (w : width) (cond a b label : Z) : gen unit :=
  if cond =? TCG_COND_ALWAYS then tcg_gen_br label
  else when (negb (cond =? TCG_COND_NEVER)) (tcg_gen_op (op_brcond w) [a; b; cond; label]).
Definition tcg_gen_brcondi (w : width) (cond a v label : Z) : gen unit :=
  if cond =? TCG_COND_ALWAYS then tcg_gen_br label
  else when (negb (cond =? TCG_COND_NEVER))
    (t0 <- tcg_const w v ;; tcg_gen_brcond w cond a t0 label ;;; tcg_temp_free t0).

Definition tcg_gen_setcond (w : width) (cond r a b : Z) : gen unit :=
  if cond =? TCG_COND_ALWAYS then tcg_gen_movi w r 1
  else if cond =? TCG_COND_NEVER then tcg_gen_movi w r 0
  else tcg_gen_op (op_setcond w) [r; a; b; cond].
(** The 64-bit version makes the constant whatever the condition. *)
Definition tcg_gen_setcondi (w : width) (cond r a v : Z) : gen unit :=
  let compare := t0 <- tcg_const w v ;; tcg_gen_setcond w cond r a t0 ;;; tcg_temp_free t0 in
  match w with
  | W32 =>
      if cond =? TCG_COND_ALWAYS then tcg_gen_movi w r 1
      else if cond =? TCG_COND_NEVER then tcg_gen_movi w r 0
      else compare
  | W64 => compare
  end.

(** ** Products, quotients, remainders *)
Definition tcg_gen_mul (w : width) (r a b : Z) : gen unit := tcg_gen_op (op_bin Bmul w) [r; a; b].
Definition tcg_gen_muli (w : width) (r a v : Z) : gen unit :=
  t0 <- tcg_const w v ;; tcg_gen_mul w r a t0 ;;; tcg_temp_free t0.

Definition tcg_gen_div (w : width) (r a b : Z) : gen unit :=
  if TCG_TARGET_HAS_div has w then tcg_gen_op (op_bin Bdiv w) [r; a; b]
  else if TCG_TARGET_HAS_div2 has w then
    t0 <- tcg_temp_new w ;;
    tcg_gen_sari w t0 a (bits w - 1) ;;;
    tcg_gen_op (op_div2 w) [r; t0; a; t0; b] ;;;
    tcg_temp_free t0
  else tcg_gen_helper (tcg_helper_div w) r a b.

Definition tcg_gen_rem (w : width) (r a b : Z) : gen unit :=
  if TCG_TARGET_HAS_rem has w then tcg_gen_op (op_bin Brem w) [r; a; b]
  else if TCG_TARGET_HAS_div has w then
    t0 <- tcg_temp_new w ;;
    tcg_gen_op (op_bin Bdiv w) [t0; a; b] ;;;
    tcg_gen_mul w t0 t0 b ;;;
    tcg_gen_sub w r a t0 ;;;
    tcg_temp_free t0
  else if TCG_TARGET_HAS_div2 has w then
    t0 <- tcg_temp_new w ;;
    tcg_gen_sari w t0 a (bits w - 1) ;;;
    tcg_gen_op (op_div2 w) [t0; r; a; t0; b] ;;;
    tcg_temp_free t0
  else tcg_gen_helper (tcg_helper_rem w) r a b.

Definition tcg_gen_divu (w : width) (r a b : Z) : gen unit :=
  if TCG_TARGET_HAS_div has w then tcg_gen_op (op_bin Bdivu w) [r; a; b]
  else if TCG_TARGET_HAS_div2 has w then
    t0 <- tcg_temp_new w ;;
    tcg_gen_movi w t0 0 ;;;
    tcg_gen_op (op_divu2 w) [r; t0; a; t0; b] ;;;
    tcg_temp_free t0
  else tcg_gen_helper (tcg_helper_divu w) r a b.

Definition tcg_gen_remu (w : width) (r a b : Z) : gen unit :=
  if TCG_TARGET_HAS_rem has w then tcg_gen_op (op_bin Bremu w) [r; a; b]
  else if TCG_TARGET_HAS_div has w then
    t0 <- tcg_temp_new w ;;
    tcg_gen_op (op_bin Bdivu w) [t0; a; b] ;;;
    tcg_gen_mul w t0 t0 b ;;;
    tcg_gen_sub w r a t0 ;;;
    tcg_temp_free t0
  else if TCG_TARGET_HAS_div2 has w then
    t0 <- tcg_temp_new w ;;
    tcg_gen_movi w t0 0 ;;;
    tcg_gen_op (op_divu2 w) [t0; r; a; t0; b] ;;;
    tcg_temp_free t0
  else tcg_gen_helper (tcg_helper_remu w) r a b.

(** ** Extensions *)
Definition tcg_gen_ext8s (w : width) (r a : Z) : gen unit :=
  if has_un Uext8s w then tcg_gen_op (op_un Uext8s w) [r; a]
  else tcg_gen_shli w r a (bits w - 8) ;;; tcg_gen_sari w r r (bits w - 8).
Definition tcg_gen_ext16s (w : width) (r a : Z) : gen unit :=
  if has_un Uext16s w then tcg_gen_op (op_un Uext16s w) [r; a]
  else tcg_gen_shli w r a (bits w - 16) ;;; tcg_gen_sari w r r (bits w - 16).
Definition tcg_gen_ext8u (w : width) (r a : Z) : gen unit :=
  if has_un Uext8u w then tcg_gen_op (op_un Uext8u w) [r; a] else tcg_gen_andi w r a 0xff.
Definition tcg_gen_ext16u (w : width) (r a : Z) : gen unit :=
  if has_un Uext16u w then tcg_gen_op (op_un Uext16u w) [r; a] else tcg_gen_andi w r a 0xffff.
Definition tcg_gen_ext32s_i64 (r a : Z) : gen unit :=
  if has_un Uext32s W64 then tcg_gen_op (op_un Uext32s W64) [r; a]
  else tcg_gen_shli W64 r a 32 ;;; tcg_gen_sari W64 r r 32.
Definition tcg_gen_ext32u_i64 (r a : Z) : gen unit :=
  if has_un Uext32u W64 then tcg_gen_op (op_un Uext32u W64) [r; a] else tcg_gen_andi W64 r a 0xffffffff.
Definition tcg_gen_trunc_i64_i32 (r a : Z) : gen unit := tcg_gen_mov W32 r a.
Definition tcg_gen_extu_i32_i64 (r a : Z) : gen unit := tcg_gen_ext32u_i64 r a.
Definition tcg_gen_ext_i32_i64 (r a : Z) : gen unit := tcg_gen_ext32s_i64 r a.
(** ** Byte order *)
Definition tcg_gen_bswap16 (w : width) (r a : Z) : gen unit :=
  if has_un Ubswap16 w then tcg_gen_op (op_un Ubswap16 w) [r; a]
  else
    t0 <- tcg_temp_new w ;;
    tcg_gen_ext8u w t0 a ;;;
    tcg_gen_shli w t0 t0 8 ;;;
    tcg_gen_shri w r a 8 ;;;
    tcg_gen_or w r r t0 ;;;
    tcg_temp_free t0.

(** The 64-bit version cuts the highest byte to its place. *)
Definition tcg_gen_bswap32 (w : width) (r a : Z) : gen unit :=
  if has_un Ubswap32 w then tcg_gen_op (op_un Ubswap32 w) [r; a]
  else
    t0 <- tcg_temp_new w ;;
    t1 <- tcg_temp_new w ;;
    tcg_gen_shli w t0 a 24 ;;;
    when (is64 w) (tcg_gen_ext32u_i64 t0 t0) ;;;
    tcg_gen_andi w t1 a 0x0000ff00 ;;;
    tcg_gen_shli w t1 t1 8 ;;;
    tcg_gen_or w t0 t0 t1 ;;;
    tcg_gen_shri w t1 a 8 ;;;
    tcg_gen_andi w t1 t1 0x0000ff00 ;;;
    tcg_gen_or w t0 t0 t1 ;;;
    tcg_gen_shri w t1 a 24 ;;;
    tcg_gen_or w r t0 t1 ;;;
    tcg_temp_free t0 ;;;
    tcg_temp_free t1.

Definition tcg_gen_bswap64_i64 (r a : Z) : gen unit :=
  if has_un Ubswap64 W64 then tcg_gen_op (op_un Ubswap64 W64) [r; a]
  else
    t0 <- tcg_temp_new W64 ;;
    t1 <- tcg_temp_new W64 ;;
    tcg_gen_shli W64 t0 a 56 ;;;
    tcg_gen_andi W64 t1 a 0x0000ff00 ;;;
    tcg_gen_shli W64 t1 t1 40 ;;;
    tcg_gen_or W64 t0 t0 t1 ;;;
    tcg_gen_andi W64 t1 a 0x00ff0000 ;;;
    tcg_gen_shli W64 t1 t1 24 ;;;
    tcg_gen_or W64 t0 t0 t1 ;;;
    tcg_gen_andi W64 t1 a 0xff000000 ;;;
    tcg_gen_shli W64 t1 t1 8 ;;;
    tcg_gen_or W64 t0 t0 t1 ;;;
    tcg_gen_shri W64 t1 a 8 ;;;
    tcg_gen_andi W64 t1 t1 0xff000000 ;;;
    tcg_gen_or W64 t0 t0 t1 ;;;
    tcg_gen_shri W64 t1 a 24 ;;;
    tcg_gen_andi W64 t1 t1 0x00ff0000 ;;;
    tcg_gen_or W64 t0 t0 t1 ;;;
    tcg_gen_shri W64 t1 a 40 ;;;
    tcg_gen_andi W64 t1 t1 0x0000ff00 ;;;
    tcg_gen_or W64 t0 t0 t1 ;;;
    tcg_gen_shri W64 t1 a 56 ;;;
    tcg_gen_or W64 r t0 t1 ;;;
    tcg_temp_free t0 ;;;
    tcg_temp_free t1.

(** ** Optional operations *)
Definition tcg_gen_neg (w : width) (r a : Z) : gen unit :=
  if has_un Uneg w then tcg_gen_op (op_un Uneg w) [r; a]
  else t0 <- tcg_const w 0 ;; tcg_gen_sub w r t0 a ;;; tcg_temp_free t0.
Definition tcg_gen_not (w : width) (r a : Z) : gen unit :=
  if has_un Unot w then tcg_gen_op (op_un Unot w) [r; a] else tcg_gen_xori w r a (-1).
Definition tcg_gen_discard (a : Z) : gen unit := tcg_gen_op op_discard [a].

Definition tcg_gen_andc (w : width) (r a b : Z) : gen unit :=
  if has_bin Bandc w then tcg_gen_op (op_bin Bandc w) [r; a; b]
  else t0 <- tcg_temp_new w ;; tcg_gen_not w t0 b ;;; tcg_gen_and w r a t0 ;;; tcg_temp_free t0.
Definition tcg_gen_eqv (w : width) (r a b : Z) : gen unit :=
  if has_bin Beqv w then tcg_gen_op (op_bin Beqv w) [r; a; b]
  else tcg_gen_xor w r a b ;;; tcg_gen_not w r r.
Definition tcg_gen_nand (w : width) (r a b : Z) : gen unit :=
  if has_bin Bnand w then tcg_gen_op (op_bin Bnand w) [r; a; b]
  else tcg_gen_and w r a b ;;; tcg_gen_not w r r.
Definition tcg_gen_nor (w : width) (r a b : Z) : gen unit :=
  if has_bin Bnor w then tcg_gen_op (op_bin Bnor w) [r; a; b]
  else tcg_gen_or w r a b ;;; tcg_gen_not w r r.
Definition tcg_gen_orc (w : width) (r a b : Z) : gen unit :=
  if has_bin Borc w then tcg_gen_op (op_bin Borc w) [r; a; b]
  else t0 <- tcg_temp_new w ;; tcg_gen_not w t0 b ;;; tcg_gen_or w r a t0 ;;; tcg_temp_free t0.

(** ** Rotations *)
Definition tcg_gen_rotl (w : width) (r a b : Z) : gen unit :=
  if TCG_TARGET_HAS_rot has w then tcg_gen_op (op_bin Brotl w) [r; a; b]
  else
    t0 <- tcg_temp_new w ;;
    t1 <- tcg_temp_new w ;;
    tcg_gen_shl w t0 a b ;;;
    tcg_gen_subfi w t1 (bits w) b ;;;
    tcg_gen_shr w t1 a t1 ;;;
    tcg_gen_or w r t0 t1 ;;;
    tcg_temp_free t0 ;;;
    tcg_temp_free t1.
Definition tcg_gen_rotli (w : width) (r a v : Z) : gen unit :=
  if v =? 0 then tcg_gen_mov w r a
  else if TCG_TARGET_HAS_rot has w then t0 <- tcg_const w v ;; tcg_gen_rotl w r a t0 ;;; tcg_temp_free t0
  else
    t0 <- tcg_temp_new w ;;
    t1 <- tcg_temp_new w ;;
    tcg_gen_shli w t0 a v ;;;
    tcg_gen_shri w t1 a (bits w - v) ;;;
    tcg_gen_or w r t0 t1 ;;;
    tcg_temp_free t0 ;;;
    tcg_temp_free t1.
Definition tcg_gen_rotr (w : width) (r a b : Z) : gen unit :=
  if TCG_TARGET_HAS_rot has w then tcg_gen_op (op_bin Brotr w) [r; a; b]
  else
    t0 <- tcg_temp_new w ;;
    t1 <- tcg_temp_new w ;;
    tcg_gen_shr w t0 a b ;;;
    tcg_gen_subfi w t1 (bits w) b ;;;
    tcg_gen_shl w t1 a t1 ;;;
    tcg_gen_or w r t0 t1 ;;;
    tcg_temp_free t0 ;;;
    tcg_temp_free t1.
Definition tcg_gen_rotri (w : width) (r a v : Z) : gen unit :=
  if v =? 0 then tcg_gen_mov w r a else tcg_gen_rotli w r a (bits w - v).

(** ** Bit fields, halves *)

(** [tcg_debug_assert] tells the compiler that its condition holds: a violation
    is a fault. *)
Definition tcg_gen_deposit (w : width) (r a b ofs len : Z) : gen unit :=
  assert_ ((0 <=? ofs) && (ofs <? bits w)) ;;;
  assert_ ((0 <=? len) && (len <=? bits w)) ;;;
  assert_ (ofs + len <=? bits w) ;;;
  if (ofs =? 0) && (len =? bits w) then tcg_gen_mov w r b
  else if TCG_TARGET_HAS_deposit has w && TCG_TARGET_deposit_valid has w ofs len then
    tcg_gen_op (op_deposit w) [r; a; b; ofs; len]
  else
    let mask := uwrap (bits w) (Z.shiftl 1 len - 1) in
    t1 <- tcg_temp_new w ;;
    (if ofs + len <? bits w then tcg_gen_andi w t1 b mask ;;; tcg_gen_shli w t1 t1 ofs
     else tcg_gen_shli w t1 b ofs) ;;;
    tcg_gen_andi w r a (uwrap (bits w) (Z.lnot (Z.shiftl mask ofs))) ;;;
    tcg_gen_or w r r t1 ;;;
    tcg_temp_free t1.

Definition tcg_gen_concat_i32_i64 (dest low high : Z) : gen unit :=
  tmp <- tcg_temp_new W64 ;;
  tcg_gen_extu_i32_i64 tmp high ;;;
  tcg_gen_extu_i32_i64 dest low ;;;
  (if TCG_TARGET_HAS_deposit has W64 && TCG_TARGET_deposit_valid has W64 32 32 then
     tcg_gen_deposit W64 dest dest tmp 32 32
   else tcg_gen_shli W64 tmp tmp 32 ;;; tcg_gen_or W64 dest dest tmp) ;;;
  tcg_temp_free tmp.
Definition tcg_gen_concat32_i64 (dest low high : Z) : gen unit := tcg_gen_deposit W64 dest low high 32 32.
Definition tcg_gen_extr_i64_i32 (lo hi a : Z) : gen unit :=
  t0 <- tcg_temp_new W64 ;;
  tcg_gen_trunc_i64_i32 lo a ;;;
  tcg_gen_shri W64 t0 a 32 ;;;
  tcg_gen_trunc_i64_i32 hi t0 ;;;
  tcg_temp_free t0.
Definition tcg_gen_extr32_i64 (lo hi a : Z) : gen unit :=
  tcg_gen_ext32u_i64 lo a ;;; tcg_gen_shri W64 hi a 32.

Definition tcg_gen_movcond (w : width) (cond r c1 c2 v1 v2 : Z) : gen unit :=
  if TCG_TARGET_HAS_movcond has w then tcg_gen_op (op_movcond w) [r; c1; c2; v1; v2; cond]
  else
    t0 <- tcg_temp_new w ;;
    t1 <- tcg_temp_new w ;;
    tcg_gen_setcond w cond t0 c1 c2 ;;;
    tcg_gen_neg w t0 t0 ;;;
    tcg_gen_and w t1 v1 t0 ;;;
    tcg_gen_andc w r v2 t0 ;;;
    tcg_gen_or w r r t1 ;;;
    tcg_temp_free t0 ;;;
    tcg_temp_free t1.

(** ** Double words

    The [nop] leaves the optimiser room for two moves. *)
Definition tcg_gen_op_nop (op : TCGOpcode) (l : list Z) : gen unit := tcg_gen_op op l ;;; tcg_gen_op op_nop [].

Definition tcg_gen_add2_i32 (rl rh al ah bl bh : Z) : gen unit :=
  if TCG_TARGET_HAS_add2 has W32 then tcg_gen_op_nop (op_add2 W32) [rl; rh; al; ah; bl; bh]
  else
    t0 <- tcg_temp_new W64 ;;
    t1 <- tcg_temp_new W64 ;;
    tcg_gen_concat_i32_i64 t0 al ah ;;;
    tcg_gen_concat_i32_i64 t1 bl bh ;;;
    tcg_gen_add W64 t0 t0 t1 ;;;
    tcg_gen_extr_i64_i32 rl rh t0 ;;;
    tcg_temp_free t0 ;;;
    tcg_temp_free t1.
Definition tcg_gen_sub2_i32 (rl rh al ah bl bh : Z) : gen unit :=
  if TCG_TARGET_HAS_sub2 has W32 then tcg_gen_op_nop (op_sub2 W32) [rl; rh; al; ah; bl; bh]
  else
    t0 <- tcg_temp_new W64 ;;
    t1 <- tcg_temp_new W64 ;;
    tcg_gen_concat_i32_i64 t0 al ah ;;;
    tcg_gen_concat_i32_i64 t1 bl bh ;;;
    tcg_gen_sub W64 t0 t0 t1 ;;;
    tcg_gen_extr_i64_i32 rl rh t0 ;;;
    tcg_temp_free t0 ;;;
    tcg_temp_free t1.
Definition tcg_gen_mulu2_i32 (rl rh a b : Z) : gen unit :=
  if TCG_TARGET_HAS_mulu2 has W32 then tcg_gen_op_nop (op_mulu2 W32) [rl; rh; a; b]
  else if has_bin Bmuluh W32 then
    t <- tcg_temp_new W32 ;;
    tcg_gen_op (op_bin Bmul W32) [t; a; b] ;;;
    tcg_gen_op (op_bin Bmuluh W32) [rh; a; b] ;;;
    tcg_gen_mov W32 rl t ;;;
    tcg_temp_free t
  else
    t0 <- tcg_temp_new W64 ;;
    t1 <- tcg_temp_new W64 ;;
    tcg_gen_extu_i32_i64 t0 a ;;;
    tcg_gen_extu_i32_i64 t1 b ;;;
    tcg_gen_mul W64 t0 t0 t1 ;;;
    tcg_gen_extr_i64_i32 rl rh t0 ;;;
    tcg_temp_free t0 ;;;
    tcg_temp_free t1.
Definition tcg_gen_muls2_i32 (rl rh a b : Z) : gen unit :=
  if TCG_TARGET_HAS_muls2 has W32 then tcg_gen_op_nop (op_muls2 W32) [rl; rh; a; b]
  else if has_bin Bmulsh W32 then
    t <- tcg_temp_new W32 ;;
    tcg_gen_op (op_bin Bmul W32) [t; a; b] ;;;
    tcg_gen_op (op_bin Bmulsh W32) [rh; a; b] ;;;
    tcg_gen_mov W32 rl t ;;;
    tcg_temp_free t
  else
    t0 <- tcg_temp_new W64 ;;
    t1 <- tcg_temp_new W64 ;;
    tcg_gen_ext_i32_i64 t0 a ;;;
    tcg_gen_ext_i32_i64 t1 b ;;;
    tcg_gen_mul W64 t0 t0 t1 ;;;
    tcg_gen_extr_i64_i32 rl rh t0 ;;;
    tcg_temp_free t0 ;;;
    tcg_temp_free t1.

Definition tcg_gen_add2_i64 (rl rh al ah bl bh : Z) : gen unit :=
  if TCG_TARGET_HAS_add2 has W64 then tcg_gen_op_nop (op_add2 W64) [rl; rh; al; ah; bl; bh]
  else
    t0 <- tcg_temp_new W64 ;;
    t1 <- tcg_temp_new W64 ;;
    tcg_gen_add W64 t0 al bl ;;;
    tcg_gen_setcond W64 TCG_COND_LTU t1 t0 al ;;;
    tcg_gen_add W64 rh ah bh ;;;
    tcg_gen_add W64 rh rh t1 ;;;
    tcg_gen_mov W64 rl t0 ;;;
    tcg_temp_free t0 ;;;
    tcg_temp_free t1.
Definition tcg_gen_sub2_i64 (rl rh al ah bl bh : Z) : gen unit :=
  if TCG_TARGET_HAS_sub2 has W64 then tcg_gen_op_nop (op_sub2 W64) [rl; rh; al; ah; bl; bh]
  else
    t0 <- tcg_temp_new W64 ;;
    t1 <- tcg_temp_new W64 ;;
    tcg_gen_sub W64 t0 al bl ;;;
    tcg_gen_setcond W64 TCG_COND_LTU t1 al bl ;;;
    tcg_gen_sub W64 rh ah bh ;;;
    tcg_gen_sub W64 rh rh t1 ;;;
    tcg_gen_mov W64 rl t0 ;;;
    tcg_temp_free t0 ;;;
    tcg_temp_free t1.
(** The third case repeats the condition of the first. *)
Definition tcg_gen_mulu2_i64 (rl rh a b : Z) : gen unit :=
  if TCG_TARGET_HAS_mulu2 has W64 then tcg_gen_op_nop (op_mulu2 W64) [rl; rh; a; b]
  else if has_bin Bmuluh W64 then
    t <- tcg_temp_new W64 ;;
    tcg_gen_op (op_bin Bmul W64) [t; a; b] ;;;
    tcg_gen_op (op_bin Bmuluh W64) [rh; a; b] ;;;
    tcg_gen_mov W64 rl t ;;;
    tcg_temp_free t
  else if TCG_TARGET_HAS_mulu2 has W64 then
    t0 <- tcg_temp_new W64 ;;
    t1 <- tcg_temp_new W64 ;;
    t2 <- tcg_temp_new W64 ;;
    t3 <- tcg_temp_new W64 ;;
    tcg_gen_op_nop (op_mulu2 W64) [t0; t1; a; b] ;;;
    tcg_gen_sari W64 t2 a 63 ;;;
    tcg_gen_sari W64 t3 b 63 ;;;
    tcg_gen_and W64 t2 t2 b ;;;
    tcg_gen_and W64 t3 t3 a ;;;
    tcg_gen_sub W64 rh t1 t2 ;;;
    tcg_gen_sub W64 rh rh t3 ;;;
    tcg_gen_mov W64 rl t0 ;;;
    tcg_temp_free t0 ;;;
    tcg_temp_free t1 ;;;
    tcg_temp_free t2 ;;;
    tcg_temp_free t3
  else
    t0 <- tcg_temp_new W64 ;;
    tcg_gen_mul W64 t0 a b ;;;
    tcg_gen_helper tcg_helper_muluh_i64 rh a b ;;;
    tcg_gen_mov W64 rl t0 ;;;
    tcg_temp_free t0.
Definition tcg_gen_muls2_i64 (rl rh a b : Z) : gen unit :=
  if TCG_TARGET_HAS_muls2 has W64 then tcg_gen_op_nop (op_muls2 W64) [rl; rh; a; b]
  else if has_bin Bmulsh W64 then
    t <- tcg_temp_new W64 ;;
    tcg_gen_op (op_bin Bmul W64) [t; a; b] ;;;
    tcg_gen_op (op_bin Bmulsh W64) [rh; a; b] ;;;
    tcg_gen_mov W64 rl t ;;;
    tcg_temp_free t
  else
    t0 <- tcg_temp_new W64 ;;
    tcg_gen_mul W64 t0 a b ;;;
    tcg_gen_helper tcg_helper_mulsh_i64 rh a b ;;;
    tcg_gen_mov W64 rl t0 ;;;
    tcg_temp_free t0.

(** ** Guest memory, ends of blocks

    Hosts with [TCG_TARGET_HAS_new_ldst]. *)
Definition MO_BSWAP : Z := 8.

Definition tcg_canonicalize_memop (op : Z) (w64 st : bool) : outcome Z :=
  let size := Z.land op MO_SIZE in
  obind
    (if size =? 0 then Ok (Z.land op (Z.lnot MO_BSWAP))
     else if (size =? 2) && negb w64 then Ok (Z.land op (Z.lnot MO_SIGN))
     else if (size =? 3) && negb w64 then Fault TcgAbort
     else Ok op)
    (fun op => Ok (if st then Z.land op (Z.lnot MO_SIGN) else op)).

Definition tcg_gen_qemu_ld (w : width) (v addr idx memop : Z) : gen unit :=
  memop <- of_outcome (tcg_canonicalize_memop memop (is64 w) false) ;;
  tcg_gen_op (op_qemu_ld w) [v; addr; memop; idx].
Definition tcg_gen_qemu_st (w : width) (v addr idx memop : Z) : gen unit :=
  memop <- of_outcome (tcg_canonicalize_memop memop (is64 w) true) ;;
  tcg_gen_op (op_qemu_st w) [v; addr; memop; idx].

Definition tcg_gen_debug_insn_start (pc : Z) : gen unit := tcg_gen_op op_debug_insn_start [pc].
Definition tcg_gen_exit_tb (v : Z) : gen unit := tcg_gen_op op_exit_tb [v].
Definition tcg_gen_goto_tb (idx : Z) : gen unit :=
  assert_ (idx <=? 1) ;;; tcg_gen_op op_goto_tb [idx].
End front.
End TcgFront.
