(* ===== verification/TcgEmit.v ===== *)
(** What a generator promises: from a typed environment it emits operations that
    pass the checks of the later passes and do what a denotation says.

    [denotes E g E' den]: in every translation state that [E] describes the
    generator [g] returns, the state after it is one that [E'] describes, and the
    emitted operations take every machine whose temporaries hold the values of an
    abstract machine to one that holds the values [den] computes. *)
From Stdlib Require Import ZArith Lia Bool.
From stdpp Require Import base numbers list sets.
From S2P Require Import Prelude HostUtils TcgOp TcgOpt TcgRing TcgArith TcgSem TcgBits TcgSound TcgStep TcgProg TcgShape TcgLive TcgReg TcgHost TcgFit TcgKeep TcgTemp.
Local Open Scope Z_scope.

Module TcgEmit.
Import Tcg TcgRing TcgSem TcgStep TcgProg TcgShape TcgLive TcgReg TcgHost TcgFit TcgKeep TcgTemp.

(** ** Environments

    What the generators know of the temporaries they use: the type; [c_pinned]:
    a global in a register, which is not written; [c_carried]: a global or local
    temporary; [c_known]: it has a value.  [credit w]: how many more temporaries
    of type [w] there is room for. *)
Record cell := mkCell { c_w : width; c_pinned : bool; c_carried : bool; c_known : bool }.
Record env := mkEnv { cells : Z -> option cell; credit : width -> Z }.

Definition know (k : bool) (c : cell) : cell := mkCell (c_w c) (c_pinned c) (c_carried c) k.
Definition put_env (E : env) (t : Z) : env :=
  mkEnv (fun u => if u =? t then option_map (know true) (cells E u) else cells E u) (credit E).
Definition puts_env (E : env) (ts : list Z) : env := foldr (fun t E => put_env E t) E ts.
Definition new_env (E : env) (t : Z) (w : width) : env :=
  mkEnv (fun u => if u =? t then Some (mkCell w false false false) else cells E u)
    (fun w' => if Bool.eqb (is64 w') (is64 w) then credit E w' - 1 else credit E w').
Definition free_env (E : env) (t : Z) (w : width) : env :=
  mkEnv (fun u => if u =? t then None else cells E u)
    (fun w' => if Bool.eqb (is64 w') (is64 w) then credit E w' + 1 else credit E w').
(** Behind the end of a basic block. *)
Definition end_env (E : env) : env :=
  mkEnv (fun u => option_map (fun c => know (c_known c && c_carried c) c) (cells E u)) (credit E).
Definition drop_env (E : env) (t : Z) : env :=
  mkEnv (fun u => if u =? t then option_map (know false) (cells E u) else cells E u) (credit E).

Definition readable (E : env) (t : Z) (w : width) : Prop := exists c, cells E t = Some c /\ c_w c = w /\ c_known c = true.
Definition writable (E : env) (t : Z) (w : width) : Prop := exists c, cells E t = Some c /\ c_w c = w /\ c_pinned c = false.

(** [E2] says no more than [E1], and claims no more room. *)
Definition tells (E1 E2 : env) : Prop := forall t c, cells E2 t = Some c ->
  exists k, cells E1 t = Some (know k c) /\ (c_known c = true -> k = true).
Definition weaker (E1 E2 : env) : Prop := tells E1 E2 /\ forall w, credit E2 w <= credit E1 w.

Lemma know_id c : know (c_known c) c = c.
Proof. by destruct c. Qed.

Lemma tells_refl E : tells E E.
Proof. intros t c H. exists (c_known c). by rewrite know_id. Qed.
Lemma weaker_refl E : weaker E E.
Proof. split; [apply tells_refl|done]. Qed.

Lemma tells_trans E1 E2 E3 : tells E1 E2 -> tells E2 E3 -> tells E1 E3.
Proof. intros H1 H2 t c (k & E & Hk)%H2. destruct (H1 _ _ E) as (k' & E' & Hk'). exists k'. split; [by rewrite E'|]. auto. Qed.

Lemma readable_tells E1 E2 t w : tells E1 E2 -> readable E2 t w -> readable E1 t w.
Proof. intros H (c & E & <- & Hk). destruct (H _ _ E) as (k & E1' & Hk'). exists (know k c). rewrite E1'. auto. Qed.

(** ** Contexts that grow *)
Record grows (s s' : TCGContext) : Prop := {
  gr_globals : nb_globals s' = nb_globals s;
  gr_temps : nb_temps s <= nb_temps s';
  gr_type : forall t, 0 <= t < nb_temps s -> type s' t = type s t;
  gr_local : forall t, 0 <= t < nb_temps s -> temp_local s' t = temp_local s t;
}.

Lemma grows_refl s : grows s s.
Proof. by split. Qed.
Lemma grows_trans s1 s2 s3 : grows s1 s2 -> grows s2 s3 -> grows s1 s3.
Proof.
  intros [A1 A2 A3 A4] [B1 B2 B3 B4]. split; [congruence|lia|..]; intros t Ht; [rewrite B3, A3|rewrite B4, A4]; lia || done.
Qed.

Section emit.
Context {W : Type} (host : Host W) (strict : bool) (tgt : Target) (T : Z -> TCGTemp) (avail : TCGOpcode -> Prop) (most : Z).

(** The cells are those of temporaries of [s]. *)
Definition typed_cell (s : TCGContext) (t : Z) (c : cell) : Prop :=
  0 <= t < nb_temps s /\ type s t = c_w c /\ (c_pinned c = false -> fixed s T t = false) /\ c_carried c = is_carried s t.

Record typed_env (s : TCGContext) (E : env) : Prop := {
  te_globals : 0 <= nb_globals s <= nb_temps s;
  te_cell : forall t c, cells E t = Some c -> typed_cell s t c;
}.

Lemma typed_grows s s' E : grows s s' -> typed_env s E -> typed_env s' E.
Proof.
  intros [G1 G2 G3 G4] [Hg Hc]. split; [lia|]. intros t c Ht. destruct (Hc t c Ht) as (V & Ty & Hf & Hl).
  split; [lia|]. split; [by rewrite G3|]. split.
  - intros Hp. specialize (Hf Hp). unfold fixed in *. by rewrite G1.
  - rewrite Hl. unfold is_carried. by rewrite G1, G4.
Qed.

(** *** The states of the translation that [E] describes *)
Definition live_temp (G : gen_state) (t : Z) : Prop := t < nb_globals (ctx G) \/ temp_allocated G t = true.
Definition nfree (G : gen_state) (w : width) : Z :=
  Z.of_nat (length (filter (fun i => free_temps G w false i = true) (seqZ 0 TCG_MAX_TEMPS))).

Record gen_wf (G : gen_state) : Prop := {
  gw_globals : 0 <= nb_globals (ctx G) <= nb_temps (ctx G);
  gw_free : forall w loc i, free_temps G w loc i = true ->
    nb_globals (ctx G) <= i < nb_temps (ctx G) /\ temp_allocated G i = false /\ type (ctx G) i = w /\ temp_local (ctx G) i = loc;
}.

Record models (G : gen_state) (E : env) : Prop := {
  md_wf : gen_wf G;
  md_typed : typed_env (ctx G) E;
  md_live : forall t c, cells E t = Some c -> live_temp G t;
  md_credit : Z.max 0 (credit E W32 - nfree G W32) + Z.max 0 (credit E W64 - nfree G W64) <= most - nb_temps (ctx G);
  md_most : nb_temps (ctx G) <= most <= TCG_MAX_TEMPS;
}.

Lemma tells_typed s E1 E2 : tells E1 E2 -> typed_env s E1 -> typed_env s E2.
Proof. intros H [Hg Hc]. split; [done|]. intros t c (k & E & _)%H. by apply (Hc _ _ E). Qed.

Lemma weaker_models G E1 E2 : weaker E1 E2 -> models G E1 -> models G E2.
Proof.
  intros [HW HC] [H1 H2 H3 H4 H5]. split; [done|by apply (tells_typed _ E1)| | |done].
  - intros t c (k & E & _)%HW. by apply (H3 _ _ E).
  - pose proof (HC W32). pose proof (HC W64). lia.
Qed.

(** *** The checks of the later passes *)
Record fits_op (s : TCGContext) (E : env) (i : TCGOp) : Prop := {
  fo_ok : op_ok s i;
  fo_framed : framed s i;
  fo_in : forall t, t ∈ inputs i -> exists w, readable E t w;
  fo_nodup : NoDup (outputs i);
  fo_out : forall t, t ∈ outputs i -> exists w, writable E t w;
  fo_args : source_args s tgt i = true;
  fo_avail : avail (opc i);
}.

(** What is known behind an operation. *)
Definition after (i : TCGOp) (E : env) : env :=
  match opc i with
  | op_discard => drop_env E (arg (args i) 0)
  | _ => if bb_end i then end_env E else puts_env E (outputs i)
  end.

Inductive passes (s : TCGContext) : env -> list TCGOp -> env -> Prop :=
| passes_nil E E' : tells E E' -> passes s E [] E'
| passes_new E t w es E' :
    typed_cell s t (mkCell w false false false) -> passes s (new_env E t w) es E' -> passes s E es E'
| passes_cons E i es E' : fits_op s E i -> passes s (after i E) es E' -> passes s E (i :: es) E'.

Lemma fits_op_tells s E1 E2 i : tells E1 E2 -> fits_op s E2 i -> fits_op s E1 i.
Proof.
  intros HW [H1 H2 H3 H4 H5 H6 H7]. split; try done.
  - intros t (w & H)%H3. exists w. by apply (readable_tells _ E2).
  - intros t (w & c & E & <- & Hp)%H5. destruct (HW _ _ E) as (k & Ek & _). exists (c_w c), (know k c). auto.
Qed.

Lemma tells_map E1 E2 (f : Z -> bool -> bool -> bool) :
  (forall t l k1 k2, (k2 = true -> k1 = true) -> f t l k2 = true -> f t l k1 = true) -> tells E1 E2 ->
  tells (mkEnv (fun u => option_map (fun c => know (f u (c_carried c) (c_known c)) c) (cells E1 u)) (credit E1))
         (mkEnv (fun u => option_map (fun c => know (f u (c_carried c) (c_known c)) c) (cells E2 u)) (credit E2)).
Proof.
  intros Hf H t c. cbn. destruct (cells E2 t) as [c2|] eqn:E; [|done]. cbn. intros [= <-].
  destruct (H _ _ E) as (k & -> & Hk). exists (f t (c_carried c2) k). split; [done|]. by apply Hf.
Qed.

Lemma put_env_eq E t u :
  cells (put_env E t) u = option_map (fun c => know ((u =? t) || c_known c) c) (cells E u).
Proof. cbn. destruct (u =? t); cbn; destruct (cells E u) as [[]|]; done. Qed.

Lemma tells_put E1 E2 t : tells E1 E2 -> tells (put_env E1 t) (put_env E2 t).
Proof.
  intros HW u c. rewrite !put_env_eq. apply (tells_map E1 E2 (fun u _ k => (u =? t) || k)); [|done].
  intros v _ k1 k2 Hk. destruct (v =? t); auto.
Qed.

Lemma tells_puts E1 E2 ts : tells E1 E2 -> tells (puts_env E1 ts) (puts_env E2 ts).
Proof. intros HW. induction ts as [|t ts IH]; [done|]. by apply tells_put. Qed.

Lemma tells_end E1 E2 : tells E1 E2 -> tells (end_env E1) (end_env E2).
Proof. intros HW. apply (tells_map E1 E2 (fun _ l k => k && l)); [|done]. intros _ l k1 k2 Hk [H2 ->]%andb_true_iff. by rewrite (Hk H2). Qed.

Lemma tells_drop E1 E2 t : tells E1 E2 -> tells (drop_env E1 t) (drop_env E2 t).
Proof.
  intros HW u c Hu. assert (tells (mkEnv (fun u => option_map (fun c => know (negb (u =? t) && c_known c) c) (cells E1 u)) (credit E1))
    (mkEnv (fun u => option_map (fun c => know (negb (u =? t) && c_known c) c) (cells E2 u)) (credit E2))) as H.
  { apply (tells_map E1 E2 (fun u _ k => negb (u =? t) && k)); [|done]. intros v _ k1 k2 Hk. destruct (v =? t); cbn; auto. }
  specialize (H u c). cbn in H, Hu |- *.
  destruct (u =? t); cbn in H; [by apply H|]. destruct (cells E1 u) as [[]|], (cells E2 u) as [[]|]; apply H; by simplify_eq/=.
Qed.

Lemma tells_after i E1 E2 : tells E1 E2 -> tells (after i E1) (after i E2).
Proof.
  intros HW. unfold after. destruct (opc i); try (destruct (bb_end i); [by apply tells_end|by apply tells_puts]).
  by apply tells_drop.
Qed.

Lemma tells_new E1 E2 t w : tells E1 E2 -> tells (new_env E1 t w) (new_env E2 t w).
Proof.
  intros H u c. cbn. destruct (u =? t); [|apply H]. intros [= <-]. by exists false.
Qed.

Lemma passes_tells s E1 E2 E3 E4 es : tells E1 E2 -> tells E3 E4 -> passes s E2 es E3 -> passes s E1 es E4.
Proof.
  intros HW HW' H. revert E1 HW. induction H as [E E' H|E t w es E' Ht _ IH|E i es E' Hi _ IH]; intros E1 HW.
  - constructor. eauto using tells_trans.
  - apply (passes_new s E1 t w); [done|]. by apply IH, tells_new.
  - constructor; [by apply (fits_op_tells _ _ E)|]. by apply IH, tells_after.
Qed.

Lemma passes_app s E1 E2 E3 es1 es2 : passes s E1 es1 E2 -> passes s E2 es2 E3 -> passes s E1 (es1 ++ es2) E3.
Proof.
  intros H1 H2. induction H1 as [E E' H|E t w es E' Ht _ IH|E i es E' Hi _ IH].
  - by apply (passes_tells _ _ E' E3); [|apply tells_refl|].
  - apply (passes_new s E t w); auto.
  - constructor; auto.
Qed.
(** ** Denotations

    An abstract machine is a state of the intermediate code whose registers are
    the values of the temporaries; [Undef] promises nothing. *)
Definition shows (E : env) (a m : mstate W) : Prop :=
  world a = world m /\ forall t c, cells E t = Some c -> regs a t = opnd (c_w c) m t.

Definition next_shows (E : env) (na nm : next W) : Prop :=
  match na, nm with
  | Undef, _ => True
  | Fall a, Fall m | Leave a, Leave m => shows E a m
  | Jump l a, Jump l' m => l = l' /\ shows E a m
  | _, _ => False
  end.

Definition nbind (n : next W) (f : mstate W -> next W) : next W := match n with Fall a => f a | n => n end.

(** [n] promises no more than [n'], as far as the cells of [E] go. *)
Definition same_values (E : env) (a b : mstate W) : Prop :=
  world a = world b /\ forall t, cells E t <> None -> regs a t = regs b t.
Definition next_refines (E : env) (n n' : next W) : Prop :=
  match n, n' with
  | Undef, _ => True
  | Fall a, Fall b | Leave a, Leave b => same_values E a b
  | Jump l a, Jump l' b => l = l' /\ same_values E a b
  | _, _ => False
  end.
Definition in_range (E : env) (a : mstate W) : Prop := forall t c, cells E t = Some c -> fits (bits (c_w c)) (regs a t).

Lemma shows_range E a m : shows E a m -> in_range E a.
Proof. intros [_ H] t c Ht. rewrite (H t c Ht). apply opnd_fits. Qed.

Lemma refines_shows E n n' nm : next_refines E n n' -> next_shows E n' nm -> next_shows E n nm.
Proof.
  assert (forall a b m, same_values E a b -> shows E b m -> shows E a m) as H.
  { intros a b m [W1 V1] [W2 V2]. split; [congruence|]. intros t c Ht. rewrite <- (V2 t c Ht). apply V1. congruence. }
  destruct n, n', nm; try done; cbn; eauto. intros [-> ?] [-> ?]. eauto.
Qed.

Fixpoint execs (s : TCGContext) (keep : nat -> bool) (n : nat) (es : list TCGOp) (m : mstate W) : next W :=
  match es with [] => Fall m | i :: es => nbind (exec_op s host (keep n) i m) (execs s keep (S n) es) end.

Lemma execs_app s keep n es1 es2 m :
  execs s keep n (es1 ++ es2) m = nbind (execs s keep n es1 m) (execs s keep (n + length es1) es2).
Proof.
  revert n m. induction es1 as [|i es1 IH]; intros n m; cbn; [by rewrite Nat.add_0_r|].
  destruct (exec_op s host (keep n) i m); cbn; try done. rewrite IH. by rewrite Nat.add_succ_r.
Qed.

Lemma doubles_ok_app p q : doubles_ok p = true -> doubles_ok q = true -> doubles_ok (p ++ q) = true.
Proof.
  induction p as [|i p IH]; [done|]. cbn. intros [H1 H2]%andb_true_iff Hq. rewrite IH by done. rewrite andb_true_r.
  destruct p as [|j p]; [|done]. by destruct (doubles (opc i)).
Qed.

(** A generator frees what it allocates. *)
Definition shrinks (E E' : env) : Prop := forall t c, cells E' t = Some c -> exists k, cells E t = Some (know k c).

Definition denotes (E : env) (g : gen unit) (E' : env) (den : mstate W -> next W) : Prop :=
  shrinks E E' /\ forall G, models G E -> exists G' es, g G = Ok (tt, G', es) /\ grows (ctx G) (ctx G') /\ models G' E' /\ doubles_ok es = true /\
    forall s, grows (ctx G') s -> (strict = true -> passes s E es E') /\
      forall keep n a m, shows E a m -> next_shows E' (den a) (execs s keep n es m).

Lemma denotes_ext E g g' E' den : (forall G, g' G = g G) -> denotes E g E' den -> denotes E g' E' den.
Proof. intros He [Hsh H]. split; [done|]. intros G HG. rewrite He. by apply H. Qed.

Lemma know_know k k' c : know k (know k' c) = know k c.
Proof. done. Qed.

Lemma shrinks_trans E1 E2 E3 : shrinks E1 E2 -> shrinks E2 E3 -> shrinks E1 E3.
Proof. intros H1 H2 t c (k & E)%H2. destruct (H1 _ _ E) as (k' & E'). by exists k'. Qed.

Lemma tells_shrinks E1 E2 : tells E1 E2 -> shrinks E1 E2.
Proof. intros H t c (k & E & _)%H. by exists k. Qed.

Lemma shrinks_shows E E' a m : shrinks E E' -> shows E a m -> shows E' a m.
Proof. intros H [Hw Hs]. split; [done|]. intros t c (k & E1)%H. by rewrite (Hs _ _ E1). Qed.

Lemma next_shrinks E E' n nm : shrinks E E' -> next_shows E n nm -> next_shows E' n nm.
Proof.
  intros HW. destruct n, nm; try done; cbn; try by apply shrinks_shows.
  intros [? ?]. split; [done|]. by apply (shrinks_shows E).
Qed.

Lemma denotes_weaken E1 E1' E2 E2' g d d' :
  denotes E1 g E2 d -> weaker E1' E1 -> weaker E2 E2' ->
  (forall a, in_range E1' a -> next_refines E2' (d' a) (d a)) -> denotes E1' g E2' d'.
Proof.
  intros [Hsh H] W1 W2 Hd. split.
  { eapply shrinks_trans; [apply tells_shrinks, W1|]. eapply shrinks_trans; [done|apply tells_shrinks, W2]. }
  intros G HG. destruct (H G (weaker_models G E1' E1 W1 HG)) as (G' & es & E & Hgr & HG' & Hdb & Hs).
  exists G', es. split; [done|]. split; [done|]. split; [by apply (weaker_models G' E2)|]. split; [done|].
  intros s Gs. destruct (Hs s Gs) as [Hf Hx]. split.
  - intros Hst. apply (passes_tells s E1' E1 E2 E2'); [apply W1|apply W2|auto].
  - intros keep n a m Ham. apply (refines_shows E2' _ (d a)); [by apply Hd, (shows_range _ _ m)|].
    apply (next_shrinks E2); [apply tells_shrinks, W2|]. apply Hx, (shrinks_shows E1'); [apply tells_shrinks, W1|done].
Qed.

Lemma denotes_seq E g1 E1 d1 g2 E2 d2 :
  denotes E g1 E1 d1 -> denotes E1 g2 E2 d2 -> denotes E (g1 ;;; g2)%prog E2 (fun a => nbind (d1 a) d2).
Proof.
  intros [S1 H1] [S2 H2]. split; [by apply (shrinks_trans E E1)|]. intros G HG.
  destruct (H1 G HG) as (G1 & es1 & X1 & Gr1 & HG1 & D1 & P1).
  destruct (H2 G1 HG1) as (G2 & es2 & X2 & Gr2 & HG2 & D2 & P2).
  exists G2, (es1 ++ es2). split; [by apply (bind_ok _ _ G tt G1)|]. split; [by apply (grows_trans _ (ctx G1))|].
  split; [done|]. split; [by apply doubles_ok_app|]. intros s Gs.
  destruct (P1 s (grows_trans _ _ _ Gr2 Gs)) as [F1 Y1]. destruct (P2 s Gs) as [F2 Y2]. split.
  - intros Hst. apply (passes_app s E E1 E2); auto.
  - intros keep n a m Ham. rewrite execs_app. specialize (Y1 keep n a m Ham).
    destruct (d1 a) as [b|l b|b|], (execs s keep n es1 m) as [m1|l' m1|m1|]; try done; cbn [nbind].
    + by apply Y2.
    + by apply (next_shrinks E1 E2 (Jump l b) (Jump l' m1)).
    + by apply (next_shrinks E1 E2 (Leave b) (Leave m1)).
Qed.
(** ** Temporaries *)
Lemma count_same (f g : Z -> bool) (l : list Z) :
  (forall j, j ∈ l -> g j = f j) -> filter (fun j => f j = true) l = filter (fun j => g j = true) l.
Proof.
  induction l as [|j l IH]; intros H; [done|]. rewrite !filter_cons, (H j) by apply list_elem_of_here.
  rewrite IH by (intros k Hk; by apply H, list_elem_of_further). done.
Qed.

Lemma count_flip (f g : Z -> bool) i (l : list Z) :
  NoDup l -> i ∈ l -> f i = true -> g i = false -> (forall j, j <> i -> g j = f j) ->
  length (filter (fun j => f j = true) l) = S (length (filter (fun j => g j = true) l)).
Proof.
  intros Hn Hi Hf Hg Hj. induction l as [|j l IH]; [by apply elem_of_nil in Hi|].
  apply NoDup_cons in Hn as [Hj' Hn]. rewrite !filter_cons. destruct (decide (j = i)) as [->|Hne].
  - rewrite Hf, Hg. rewrite decide_True, decide_False by done. cbn [length].
    rewrite (count_same f g); [done|]. intros k Hk. apply Hj. by intros ->.
  - apply elem_of_cons in Hi as [->|Hi]; [done|]. rewrite (Hj j Hne). destruct (decide (f j = true)); cbn [length]; by rewrite IH.
Qed.

Lemma in_temps i : i ∈ seqZ 0 TCG_MAX_TEMPS <-> 0 <= i < TCG_MAX_TEMPS.
Proof. rewrite elem_of_seqZ. lia. Qed.

Lemma nfree_flip G G' w i :
  0 <= i < TCG_MAX_TEMPS -> free_temps G w false i = true -> free_temps G' w false i = false ->
  (forall j, j <> i -> free_temps G' w false j = free_temps G w false j) -> nfree G w = nfree G' w + 1.
Proof.
  intros Hi Hf Hg Hj. unfold nfree.
  rewrite (count_flip (free_temps G w false) (free_temps G' w false) i); try done; [lia|apply NoDup_seqZ|by apply in_temps].
Qed.

Lemma nfree_same G G' w : (forall j, free_temps G' w false j = free_temps G w false j) -> nfree G w = nfree G' w.
Proof. intros H. unfold nfree. by rewrite (count_same (free_temps G w false) (free_temps G' w false)). Qed.

Lemma free_not_cell G E w loc i : models G E -> free_temps G w loc i = true -> cells E i = None.
Proof.
  intros HG Hf. destruct (cells E i) as [c|] eqn:Ec; [|done]. destruct (gw_free _ (md_wf _ _ HG) _ _ _ Hf) as (R & Ha & _).
  destruct (md_live _ _ HG _ _ Ec) as [?|?]; [lia|congruence].
Qed.

(** A temporary of the free list. *)
Lemma reuse_models G E w i :
  models G E -> 0 <= i < TCG_MAX_TEMPS -> free_temps G w false i = true ->
  models (set_allocated i true (set_free w false i false G)) (new_env E i w).
Proof.
  intros HG Hi Hf. pose proof (md_wf _ _ HG) as [Wg Wf]. pose proof (md_credit _ _ HG) as Hcr. destruct (Wf _ _ _ Hf) as (Ri & Ai & Ti & Li).
  set (G' := set_allocated i true (set_free w false i false G)).
  assert (forall w' loc j, free_temps G' w' loc j = if bool_decide (w' = w) && bool_decide (loc = false) && (j =? i) then false else free_temps G w' loc j) as Ef' by done.
  split; [split| | | |by destruct HG].
  - done.
  - intros w' loc j. rewrite Ef'. intros H. destruct (_ && _) eqn:Eb in H; [done|].
    destruct (Wf _ _ _ H) as (R1 & R2 & R3 & R4). split; [done|]. split; [|by split]. cbn.
    destruct (Z.eqb_spec j i) as [Ej|]; [|done]. exfalso.
    rewrite Ej, Ti in R3. rewrite Ej, Li in R4. by rewrite !bool_decide_eq_true_2 in Eb.
  - destruct (md_typed _ _ HG) as [Tg Tc]. split; [done|]. intros t c. cbn. destruct (Z.eqb_spec t i) as [->|]; [|apply Tc].
    intros [= <-]. cbn. split; [lia|]. split; [done|]. split.
    + intros _. unfold fixed. by rewrite (proj2 (Z.ltb_ge i _)) by lia.
    + unfold is_carried. rewrite Li, (proj2 (Z.ltb_ge i _)) by lia. by rewrite andb_false_r.
  - intros t c. cbn. unfold live_temp. cbn. destruct (Z.eqb_spec t i) as [->|]; [by right|]. intros H.
    by apply (md_live _ _ HG t c).
  - cbn. assert (nfree G w = nfree G' w + 1) as H1.
    { apply (nfree_flip G G' w i Hi Hf); [by rewrite Ef', !bool_decide_eq_true_2, Z.eqb_refl by done|].
      intros j Hj. rewrite Ef'. by rewrite (proj2 (Z.eqb_neq j i)), andb_false_r by done. }
    assert (forall w', w' <> w -> nfree G w' = nfree G' w') as H2.
    { intros w' Hw. apply nfree_same. intros j. rewrite Ef'. by rewrite bool_decide_eq_false_2. }
    destruct w; [specialize (H2 W64 ltac:(done))|specialize (H2 W32 ltac:(done))]; cbn; lia.
Qed.

(** The next temporary of the context. *)
Lemma extend_models G E w :
  let t := nb_temps (ctx G) in
  models G E -> 1 <= credit E w -> nfree G w = 0 ->
  t + 1 <= TCG_MAX_TEMPS /\ cells E t = None /\ grows (ctx G) (extend (ctx G) w false) /\
  models (set_allocated t true (G <| ctx := extend (ctx G) w false |>)) (new_env E t w).
Proof.
  intros t HG Hc H0. pose proof (md_wf _ _ HG) as [Wg Wf]. pose proof (md_credit _ _ HG) as Hcr. pose proof (md_most _ _ HG) as Hm.
  assert (grows (ctx G) (extend (ctx G) w false)) as Hgr.
  { split; cbn; [done|lia|..]; intros u Hu; by rewrite (proj2 (Z.eqb_neq u _)) by lia. }
  split; [unfold t; destruct w; lia|]. split; [|split; [done|]].
  { destruct (cells E t) as [c|] eqn:Ec; [|done]. destruct (te_cell _ _ (md_typed _ _ HG) _ _ Ec) as [? _]. lia. }
  split; [split| | | |].
  - cbn. lia.
  - cbn. intros w' loc j H. destruct (Wf _ _ _ H) as (R1 & R2 & R3 & R4).
    fold t. split; [unfold t; lia|]. assert (j <> t) as Ht by (unfold t; lia). apply Z.eqb_neq in Ht. by rewrite Ht.
  - destruct (typed_grows _ _ _ Hgr (md_typed _ _ HG)) as [Tg Tc]. split; [done|]. intros u c. cbn.
    destruct (Z.eqb_spec u t) as [->|Hu]; [|apply Tc]. intros [= <-]. unfold typed_cell. cbn. fold t. rewrite Z.eqb_refl. split; [lia|]. split; [done|]. split.
    + intros _. unfold fixed. cbn. by rewrite (proj2 (Z.ltb_ge t (nb_globals (ctx G)))) by (unfold t; lia).
    + unfold is_carried. cbn. fold t. rewrite Z.eqb_refl, (proj2 (Z.ltb_ge t (nb_globals (ctx G)))) by (unfold t; lia). by rewrite andb_false_r.
  - intros u c. cbn. unfold live_temp. cbn. fold t. destruct (Z.eqb_spec u t) as [->|]; [by right|]. intros H.
    by apply (md_live _ _ HG u c).
  - cbn. fold t in Hcr |- *. change (nfree _ W32) with (nfree G W32). change (nfree _ W64) with (nfree G W64).
    destruct w; cbn; lia.
  - cbn. fold t in Hcr, Hm |- *. destruct w; lia.
Qed.

Lemma tcg_temp_new_ok G E w :
  models G E -> 1 <= credit E w ->
  exists t G', tcg_temp_new w G = Ok (t, G', []) /\ cells E t = None /\ grows (ctx G) (ctx G') /\ models G' (new_env E t w).
Proof.
  intros HG Hc. unfold tcg_temp_new, tcg_temp_new_internal, bind, gets, find_first_bit. cbv beta iota zeta.
  destruct (find (free_temps G w false) (seqZ 0 TCG_MAX_TEMPS)) as [i|] eqn:Ef.
  - apply find_some in Ef as [Hi%list_elem_of_In%in_temps Hf]. rewrite (proj2 (Z.ltb_lt i TCG_MAX_TEMPS)) by lia.
    destruct (gw_free _ (md_wf _ _ HG) _ _ _ Hf) as (Ri & Ai & Ti & Li). cbn. rewrite !bool_decide_eq_true_2 by done. cbn.
    exists i. eexists. split; [done|]. split; [by apply (free_not_cell G E w false)|]. split; [apply grows_refl|]. by apply reuse_models.
  - assert (nfree G w = 0) as H0.
    { unfold nfree. destruct (filter _ _) as [|j l] eqn:El; [done|]. pose proof (list_elem_of_here j l) as Hj.
      rewrite <- El in Hj. apply list_elem_of_filter in Hj as [Hj Hin%list_elem_of_In]. by rewrite (find_none _ _ Ef j Hin) in Hj. }
    destruct (extend_models G E w HG Hc H0) as (Hmax & Hnone & Hgr & HM). rewrite Z.ltb_irrefl. cbn.
    unfold tcg_temp_alloc. rewrite (proj2 (Z.ltb_ge _ _)) by lia. cbn.
    exists (nb_temps (ctx G)). eexists. split; [done|]. split; [done|]. split; [done|exact HM].
Qed.

(** A sequence of allocations, each of a temporary that is not in sight. *)
Fixpoint new_temps (ws : list width) (body : list Z -> gen unit) : gen unit :=
  match ws with
  | [] => body []
  | w :: ws => t <- tcg_temp_new w ;; new_temps ws (fun ts => body (t :: ts))
  end%prog.

Fixpoint news_env (E : env) (ts : list Z) (ws : list width) : env :=
  match ts, ws with t :: ts, w :: ws => news_env (new_env E t w) ts ws | _, _ => E end.
Fixpoint fresh (E : env) (ts : list Z) (ws : list width) : Prop :=
  match ts, ws with
  | t :: ts, w :: ws => cells E t = None /\ fresh (new_env E t w) ts ws
  | [], [] => True
  | _, _ => False
  end.
Fixpoint room (E : env) (ws : list width) : Prop :=
  match ws with [] => True | w :: ws => 1 <= credit E w /\ forall t, room (new_env E t w) ws end.

(** [a] with any values in the new temporaries. *)
Fixpoint with_values (a : mstate W) (ts : list Z) (vs : list Z) : mstate W :=
  match ts, vs with t :: ts, v :: vs => with_values (put a t v) ts vs | _, _ => a end.

Lemma new_temps_ok ws body E G :
  room E ws -> models G E ->
  exists ts G1, new_temps ws body G = body ts G1 /\ fresh E ts ws /\ grows (ctx G) (ctx G1) /\ models G1 (news_env E ts ws).
Proof.
  revert body E G. induction ws as [|w ws IH]; intros body E G Hr HG; cbn.
  { exists [], G. split; [done|split; [done|split; [apply grows_refl|done]]]. }
  destruct Hr as [Hc Hr]. destruct (tcg_temp_new_ok G E w HG Hc) as (t & G1 & Et & Hn & Gr1 & HG1).
  destruct (IH (fun ts => body (t :: ts)) (new_env E t w) G1 (Hr t) HG1) as (ts & G2 & E2 & Hf & Gr2 & HG2).
  exists (t :: ts), G2. split; [|split; [done|split; [by apply (grows_trans _ (ctx G1))|done]]].
  rewrite <- E2. unfold bind. rewrite Et. cbn. by destruct (new_temps ws _ G1) as [[[x G3] es]|].
Qed.

Lemma news_cells E ts ws t c :
  fresh E ts ws -> cells E t = Some c -> cells (news_env E ts ws) t = Some c.
Proof.
  revert E ws. induction ts as [|u ts IH]; intros E [|w ws]; try done. cbn. intros [Hn Hf] Hc. apply IH; [done|].
  cbn. destruct (Z.eqb_spec t u) as [->|]; [congruence|done].
Qed.

Fixpoint news_typed (s : TCGContext) (ts : list Z) (ws : list width) : Prop :=
  match ts, ws with t :: ts, w :: ws => typed_cell s t (mkCell w false false false) /\ news_typed s ts ws | _, _ => True end.

Lemma fresh_typed s E ts ws : fresh E ts ws -> typed_env s (news_env E ts ws) -> news_typed s ts ws.
Proof.
  revert E ws. induction ts as [|t ts IH]; intros E [|w ws]; try done. cbn. intros [Hn Hf] Ht. split; [|by apply (IH (new_env E t w))].
  apply (te_cell s _ Ht). apply news_cells; [done|]. cbn. by rewrite Z.eqb_refl.
Qed.

Lemma passes_news s E ts ws es E' : news_typed s ts ws -> passes s (news_env E ts ws) es E' -> passes s E es E'.
Proof.
  revert E ws. induction ts as [|t ts IH]; intros E [|w ws]; try done. cbn. intros [Ht Hts] H.
  apply (passes_new s E t w); [done|]. by apply (IH _ ws).
Qed.

Fixpoint fits_all (ws : list width) (vs : list Z) : Prop :=
  match ws, vs with w :: ws, v :: vs => fits (bits w) v /\ fits_all ws vs | [], [] => True | _, _ => False end.

Lemma shows_news E ts ws a m :
  fresh E ts ws -> shows E a m -> exists vs, fits_all ws vs /\ shows (news_env E ts ws) (with_values a ts vs) m.
Proof.
  revert E ws a. induction ts as [|t ts IH]; intros E [|w ws] a; try done; cbn.
  - intros _ H. by exists [].
  - intros [Hn Hf] Ham. destruct (IH (new_env E t w) ws (put a t (opnd w m t)) Hf) as (vs & Hv & H).
    { destruct Ham as [Hw Ha]. split; [done|]. intros u c. cbn. unfold rset.
      destruct (Z.eqb_spec u t) as [->|]; [by intros [= <-]|apply Ha]. }
    exists (opnd w m t :: vs). split; [|done]. split; [apply opnd_fits|done].
Qed.

Lemma denotes_news E ws body E' den :
  room E ws -> shrinks E E' ->
  (forall ts, fresh E ts ws -> exists d E1, denotes (news_env E ts ws) (body ts) E1 d /\ weaker E1 E' /\
     forall a vs, in_range E a -> fits_all ws vs -> next_refines E' (den a) (d (with_values a ts vs))) ->
  denotes E (new_temps ws body) E' den.
Proof.
  intros Hc Hsh Hb. split; [done|]. intros G HG. destruct (new_temps_ok ws body E G Hc HG) as (ts & G1 & Et & Hf & Gr1 & HG1).
  destruct (Hb ts Hf) as (d & E1 & [_ Hd] & HW & Hr). destruct (Hd G1 HG1) as (G' & es & Eb & Gr & HG' & Hdb & Hs).
  exists G', es. split; [by rewrite Et|]. split; [by apply (grows_trans _ (ctx G1))|].
  split; [by apply (weaker_models G' E1)|]. split; [done|]. intros s Gs. destruct (Hs s Gs) as [Hp Hx].
  split.
  - intros Hst. apply (passes_news s E ts ws).
    + apply (fresh_typed s E); [done|]. apply (typed_grows (ctx G1)); [by apply (grows_trans _ (ctx G'))|apply HG1].
    + apply (passes_tells s (news_env E ts ws) (news_env E ts ws) E1); [apply tells_refl|apply HW|auto].
  - intros keep n a m Ham. destruct (shows_news E ts ws a m Hf Ham) as (vs & Hvs & Hm).
    apply (refines_shows E' _ (d (with_values a ts vs))); [apply Hr; [by apply (shows_range _ _ m)|done]|].
    apply (next_shrinks E1); [apply tells_shrinks, HW|]. by apply Hx.
Qed.

Lemma denotes_new E w body E' den :
  1 <= credit E w -> shrinks E E' ->
  (forall t, cells E t = None -> exists d E1, denotes (new_env E t w) (body t) E1 d /\ weaker E1 E' /\
     forall a v, in_range E a -> fits (bits w) v -> next_refines E' (den a) (d (put a t v))) ->
  denotes E (t <- tcg_temp_new w ;; body t)%prog E' den.
Proof.
  intros Hc Hsh Hb. apply (denotes_news E [w] (fun ts => match ts with [t] => body t | _ => ret tt end)); [done..|].
  intros [|t [|]] Hf; try (by destruct Hf). destruct (Hb t (proj1 Hf)) as (d & E1 & Hd & HW & Hr). exists d, E1.
  split; [done|]. split; [done|]. intros a [|v [|]] Hin Hv; try (by destruct Hv). by apply Hr, Hv.
Qed.

Lemma denotes_new2 E w0 w1 body E' den :
  room E [w0; w1] -> shrinks E E' ->
  (forall t0 t1, cells E t0 = None -> cells (new_env E t0 w0) t1 = None ->
     exists d E1, denotes (new_env (new_env E t0 w0) t1 w1) (body t0 t1) E1 d /\ weaker E1 E' /\
     forall a v0 v1, in_range E a -> fits (bits w0) v0 -> fits (bits w1) v1 ->
       next_refines E' (den a) (d (put (put a t0 v0) t1 v1))) ->
  denotes E (t0 <- tcg_temp_new w0 ;; t1 <- tcg_temp_new w1 ;; body t0 t1)%prog E' den.
Proof.
  intros Hc Hsh Hb. apply (denotes_news E [w0; w1] (fun ts => match ts with [t0; t1] => body t0 t1 | _ => ret tt end)); [done..|].
  intros [|t0 [|t1 [|]]] Hf; try (cbn in Hf; tauto).
  destruct Hf as (F0 & F1 & _). destruct (Hb t0 t1 F0 F1) as (d & E1 & Hd & HW & Hr). exists d, E1.
  split; [done|]. split; [done|]. intros a [|v0 [|v1 [|]]] Hin Hv; try (cbn in Hv; tauto).
  destruct Hv as (V0 & V1 & _). by apply Hr.
Qed.

(** The temporary goes to the free list. *)
Lemma free_models G E t w :
  models G E -> (exists k, cells E t = Some (mkCell w false false k)) -> nb_globals (ctx G) <= t < nb_temps (ctx G) -> temp_allocated G t = true ->
  type (ctx G) t = w -> temp_local (ctx G) t = false ->
  models (set_free w false t true (set_allocated t false G)) (free_env E t w).
Proof.
  intros HG (k & Ec) Ht Ha Ty Hloc. pose proof (md_wf _ _ HG) as [Wg Wf]. pose proof (md_most _ _ HG) as Hm.
  set (G' := set_free w false t true (set_allocated t false G)).
  assert (forall w' loc j, free_temps G' w' loc j = if bool_decide (w' = w) && bool_decide (loc = false) && (j =? t) then true else free_temps G w' loc j) as Ef' by done.
  split; [split| | | |done].
  - done.
  - intros w' loc j. rewrite Ef'. cbn [ctx].
    destruct (bool_decide (w' = w) && bool_decide (loc = false) && (j =? t)) eqn:Eb; cbn.
    + intros _. apply andb_true_iff in Eb as [[Ew%bool_decide_eq_true_1 El%bool_decide_eq_true_1]%andb_true_iff Ej%Z.eqb_eq].
      subst w' loc j. rewrite Z.eqb_refl. split; [lia|]. by split.
    + intros (R1 & R2 & R3)%Wf. split; [done|]. split; [|done]. by destruct (j =? t).
  - destruct (md_typed _ _ HG) as [Tg Tc]. split; [done|]. intros u c. cbn. destruct (u =? t); [done|]. apply Tc.
  - intros u c. cbn. unfold live_temp. cbn. destruct (u =? t); [done|]. apply (md_live _ _ HG).
  - pose proof (md_credit _ _ HG) as Hcr. assert (free_temps G w false t = false) as Hnf.
    { apply not_true_is_false. intros (_ & ? & _)%Wf. congruence. }
    assert (nfree G' w = nfree G w + 1) as H1.
    { apply (nfree_flip G' G w t); [lia| |done|]; [by rewrite Ef', !bool_decide_eq_true_2, Z.eqb_refl by done|].
      intros j Hj. rewrite Ef'. by rewrite (proj2 (Z.eqb_neq j t)), andb_false_r by done. }
    assert (forall w', w' <> w -> nfree G' w' = nfree G w') as H2.
    { intros w' Hw. apply nfree_same. intros j. rewrite Ef'. by rewrite bool_decide_eq_false_2. }
    destruct w; [specialize (H2 W64 ltac:(done))|specialize (H2 W32 ltac:(done))]; cbn; lia.
Qed.

Lemma denotes_free E t w k :
  cells E t = Some (mkCell w false false k) -> denotes E (tcg_temp_free t) (free_env E t w) (fun a => Fall a).
Proof.
  intros Ec. assert (shrinks E (free_env E t w)) as Hsh.
  { intros u c. cbn. destruct (u =? t); [done|]. intros Hu. exists (c_known c). by rewrite know_id. }
  split; [done|]. intros G HG.
  destruct (te_cell _ _ (md_typed _ _ HG) _ _ Ec) as (Rt & Ty & _ & Hca). cbn in Ty, Hca.
  symmetry in Hca. unfold is_carried in Hca. apply orb_false_iff in Hca as [Hng Hloc].
  assert (nb_globals (ctx G) <= t) as Hge by (rewrite (proj2 (Z.leb_le 0 t)) in Hng by lia; by apply Z.ltb_ge in Hng).
  assert (temp_allocated G t = true) as Ha by (destruct (md_live _ _ HG _ _ Ec) as [?|?]; [lia|done]).
  exists (set_free w false t true (set_allocated t false G)), []. split.
  { unfold tcg_temp_free, bind, gets, assert_. rewrite (proj2 (Z.leb_le _ _)), (proj2 (Z.ltb_lt _ _)) by lia. cbn.
    rewrite Ha. cbn. by rewrite Ty, Hloc. }
  split; [apply grows_refl|]. split; [apply free_models; eauto; lia|]. split; [done|]. intros s Gs. split.
  - intros _. constructor. intros u c. cbn. destruct (u =? t); [done|]. intros Hu. exists (c_known c). by rewrite know_id.
  - intros keep n a m Ham. cbn. by apply (shrinks_shows E).
Qed.

(** ** Operations *)
Definition alike (E E' : env) : Prop :=
  (forall w, credit E' w = credit E w) /\ forall t, exists k, cells E' t = option_map (know k) (cells E t).

Lemma alike_put E t : alike E (put_env E t).
Proof.
  split; [done|]. intros u. rewrite put_env_eq. destruct (cells E u) as [c|]; [|by exists true]. by exists ((u =? t) || c_known c).
Qed.

Lemma alike_trans E1 E2 E3 : alike E1 E2 -> alike E2 E3 -> alike E1 E3.
Proof.
  intros [C1 H1] [C2 H2]. split; [congruence|]. intros t. destruct (H1 t) as (k1 & E1'), (H2 t) as (k2 & E2').
  exists k2. rewrite E2', E1'. by destruct (cells E1 t).
Qed.

Lemma alike_refl E : alike E E.
Proof. split; [done|]. intros t. destruct (cells E t) as [c|] eqn:Ec; [|by exists true]. exists (c_known c). cbn. by rewrite know_id. Qed.

Lemma alike_puts E ts : alike E (puts_env E ts).
Proof. induction ts as [|t ts IH]; [apply alike_refl|]. apply (alike_trans E (puts_env E ts)); [done|apply alike_put]. Qed.

Lemma alike_after i E : alike E (after i E).
Proof.
  unfold after.
  assert (alike E (end_env E)) as H1.
  { split; [done|]. intros t. cbn. destruct (cells E t) as [c|]; [|by exists true]. by exists (c_known c && c_carried c). }
  assert (forall t, alike E (drop_env E t)) as H2.
  { intros t. split; [done|]. intros u. cbn. destruct (u =? t); [by exists false|]. apply alike_refl. }
  destruct (opc i); auto; destruct (bb_end i); auto using alike_puts.
Qed.

Lemma alike_shrinks E E' : alike E E' -> shrinks E E'.
Proof.
  intros [_ H] t c Hc. destruct (H t) as (k & Ek). rewrite Hc in Ek. destruct (cells E t) as [c'|] eqn:Et; [|done].
  injection Ek as ->. exists (c_known c'). cbn. by rewrite know_know, know_id.
Qed.

Lemma alike_models G E E' : alike E E' -> models G E -> models G E'.
Proof.
  intros HA [H1 H2 H3 H4 H5]. pose proof (alike_shrinks _ _ HA) as Hs. destruct HA as [HC _]. split; [done| | |by rewrite !HC|done].
  - destruct H2 as [Tg Tc]. split; [done|]. intros t c (k & E1)%Hs. by apply (Tc t (know k c)).
  - intros t c (k & E1)%Hs. by apply (H3 _ _ E1).
Qed.

Lemma denotes_emit E op l den :
  doubles op = false ->
  (forall s, strict = true -> typed_env s E -> fits_op s E (mkOp op l)) ->
  (forall s keep a m, typed_env s E -> shows E a m -> next_shows E (den a) (exec_op s host keep (mkOp op l) m)) ->
  denotes E (tcg_gen_op op l) (after (mkOp op l) E) den.
Proof.
  intros Hdb Hf Hx. pose proof (alike_after (mkOp op l) E) as Ha. pose proof (alike_shrinks _ _ Ha) as Hsh.
  split; [done|]. intros G HG. exists G, [mkOp op l]. split; [done|]. split; [apply grows_refl|].
  split; [by apply (alike_models G E)|]. split; [cbn; by rewrite Hdb|]. intros s Gs.
  assert (typed_env s E) as Ht by (apply (typed_grows (ctx G)); [done|apply HG]). split.
  - intros Hst. constructor; [by apply Hf|]. constructor. apply tells_refl.
  - intros keep n a m Ham. cbn. specialize (Hx s (keep n) a m Ht Ham). apply (next_shrinks E); [done|].
    by destruct (exec_op s host (keep n) (mkOp op l) m).
Qed.

Lemma denotes_ret E : denotes E (ret tt) E (fun a => Fall a).
Proof.
  assert (shrinks E E) as Hsh by (apply tells_shrinks, tells_refl). split; [done|].
  intros G HG. exists G, []. split; [done|]. split; [apply grows_refl|]. split; [done|]. split; [done|]. intros s Gs. split; [|done].
  intros _. constructor. apply tells_refl.
Qed.

Lemma bind_assoc {S X A B C} (m : prog S X A) (k : A -> prog S X B) (k' : B -> prog S X C) G :
  bind (bind m k) k' G = bind m (fun x => bind (k x) k') G.
Proof.
  unfold bind. destruct (m G) as [[[a G1] es1]|]; [|done]. destruct (k a G1) as [[[b G2] es2]|]; [|done].
  destruct (k' b G2) as [[[c G3] es3]|]; [|done]. by rewrite app_assoc.
Qed.
Lemma bind_ret {S X A B} (x : A) (k : A -> prog S X B) G : bind (ret x) k G = k x G.
Proof. unfold bind, ret. by destruct (k x G) as [[[b G2] es2]|]. Qed.
Lemma bind_ext {S X A B} (m : prog S X A) (k k' : A -> prog S X B) G :
  (forall x G, k x G = k' x G) -> bind m k G = bind m k' G.
Proof. intros H. unfold bind. destruct (m G) as [[[a G1] es1]|]; [|done]. by rewrite H. Qed.
End emit.
End TcgEmit.
