(* ===== verification/TcgDenote.v ===== *)
(** What the operations the generators emit denote, and the rules by which the
    denotation of a generator is put together. *)
From Stdlib Require Import ZArith Lia Bool.
From stdpp Require Import base numbers list sets.
From S2P Require Import Prelude HostUtils TcgOp TcgOpt TcgRing TcgArith TcgSem TcgBits TcgSound TcgStep TcgProg TcgShape TcgLive TcgReg TcgHost TcgFit TcgKeep TcgTemp TcgFront TcgEmit.
Local Open Scope Z_scope.

Module TcgDenote.
Import Tcg TcgOpt TcgRing TcgArith TcgSem TcgBits TcgStep TcgProg TcgShape TcgLive TcgReg TcgHost TcgFit TcgKeep TcgTemp TcgFront TcgEmit.

(** ** The operations a host must have, and those it may have *)
Definition core (op : TCGOpcode) : bool :=
  match op with
  | op_nop | op_discard | op_set_label | op_call | op_br | op_mov _ | op_movi _ | op_setcond _ | op_brcond _
  | op_bin (Badd | Bsub | Bmul | Band | Bor | Bxor | Bshl | Bshr | Bsar) _
  | op_debug_insn_start | op_exit_tb | op_goto_tb | op_qemu_ld _ | op_qemu_st _
  | op_ld (M8u | M8s | M16u | M16s | Mfull) _ | op_ld (M32u | M32s) W64
  | op_st (M8u | M16u | Mfull) _ | op_st M32u W64 => true
  | _ => false
  end.

(** [ok op]: the optimiser and the back end take the operation. *)
Record serves (has : TargetHas) (ok : TCGOpcode -> Prop) : Prop := {
  sv_core : forall op, core op = true -> ok op;
  sv_un : forall u w, TCG_TARGET_HAS_un has u w = true -> ok (op_un u w);
  sv_bin : forall b w, TCG_TARGET_HAS_bin has b w = true -> ok (op_bin b w);
  sv_div : forall w, TCG_TARGET_HAS_div has w = true -> ok (op_bin Bdiv w) /\ ok (op_bin Bdivu w);
  sv_rem : forall w, TCG_TARGET_HAS_rem has w = true -> ok (op_bin Brem w) /\ ok (op_bin Bremu w);
  sv_div2 : forall w, TCG_TARGET_HAS_div2 has w = true -> ok (op_div2 w) /\ ok (op_divu2 w);
  sv_rot : forall w, TCG_TARGET_HAS_rot has w = true -> ok (op_bin Brotl w) /\ ok (op_bin Brotr w);
  sv_deposit : forall w, TCG_TARGET_HAS_deposit has w = true -> ok (op_deposit w);
  sv_movcond : forall w, TCG_TARGET_HAS_movcond has w = true -> ok (op_movcond w);
  sv_add2 : forall w, TCG_TARGET_HAS_add2 has w = true -> ok (op_add2 w);
  sv_sub2 : forall w, TCG_TARGET_HAS_sub2 has w = true -> ok (op_sub2 w);
  sv_mulu2 : forall w, TCG_TARGET_HAS_mulu2 has w = true -> ok (op_mulu2 w);
  sv_muls2 : forall w, TCG_TARGET_HAS_muls2 has w = true -> ok (op_muls2 w);
}.

Section denote.
Context {W : Type} (host : Host W) (strict : bool) (tgt : Target) (T : Z -> TCGTemp) (avail : TCGOpcode -> Prop) (most : Z).
Notation denotes := (denotes host strict tgt T avail most).
Notation fits_op := (fits_op tgt avail).
Notation typed_env := (typed_env T).
Definition takes (op : TCGOpcode) : Prop := avail op /\ present op = true.

(** *** Static checks *)
Definition as_type (o : option width) (w : width) : Prop := match o with Some w' => w = w' | None => True end.
Definition reads (E : env) (o : option width) (t : Z) : Prop := exists w, readable E t w /\ as_type o w.
Definition writes (E : env) (o : option width) (t : Z) : Prop := exists w, writable E t w /\ as_type o w.

Lemma reads_of_type s E o t : typed_env s E -> reads E o t -> of_type s o t.
Proof.
  intros [_ Hc] (w & (c & Et & <- & _) & Ha). destruct (Hc t c Et) as (V & Ty & _). split; [done|].
  destruct o; [|done]. cbn in Ha. congruence.
Qed.

Lemma writes_of_type s E o t : typed_env s E -> writes E o t -> of_type s o t.
Proof.
  intros [_ Hc] (w & (c & Et & <- & _) & Ha). destruct (Hc t c Et) as (V & Ty & _). split; [done|].
  destruct o; [|done]. cbn in Ha. congruence.
Qed.

(** An operation other than a call, by its outputs, inputs and constants. *)
Record plain (E : env) (op : TCGOpcode) (outs ins cs : list Z) : Prop := {
  pl_outs : length outs = oargs op;
  pl_ins : length ins = iargs op;
  pl_cs : length cs = nb_cargs (tcg_op_defs op);
  pl_writes : Forall (writes E (out_type op)) outs;
  pl_reads : Forall (reads E (in_type op)) ins;
  pl_nodup : NoDup outs;
  pl_cargs : cargs_ok op (outs ++ ins ++ cs);
  pl_or : forall w, op = op_bin Bor w -> arg (outs ++ ins ++ cs) 1 <> arg (outs ++ ins ++ cs) 2;
  pl_ext : forall u, op = op_un u W64 -> u = Uext32s \/ u = Uext32u -> readable E (arg (outs ++ ins ++ cs) 1) W64;
  pl_takes : takes op;
}.

Lemma plain_length E op outs ins cs : plain E op outs ins cs -> length (outs ++ ins ++ cs) = nb_args (tcg_op_defs op).
Proof.
  intros [H1 H2 H3 _ _ _ _ _ _ _]. rewrite !length_app, H1, H2, H3. unfold nb_args, oargs, iargs. lia.
Qed.

Lemma arg_app_l l1 l2 j : (j < length l1)%nat -> arg (l1 ++ l2) j = arg l1 j.
Proof. intros. unfold arg. by rewrite app_nth1. Qed.
Lemma arg_app_r l1 l2 j : arg (l1 ++ l2) (length l1 + j) = arg l2 j.
Proof. unfold arg. rewrite app_nth2 by lia. f_equal. lia. Qed.
Lemma Forall_arg (P : Z -> Prop) l j : Forall P l -> (j < length l)%nat -> P (arg l j).
Proof. intros H Hj. apply (proj1 (Forall_forall P l) H), list_elem_of_In, nth_In, Hj. Qed.

Lemma plain_outputs E op outs ins cs :
  op <> op_call -> plain E op outs ins cs ->
  outputs (mkOp op (outs ++ ins ++ cs)) = outs /\ inputs (mkOp op (outs ++ ins ++ cs)) = ins.
Proof.
  intros Hop Hp. rewrite outputs_eq, inputs_eq by done. rewrite <- (pl_outs _ _ _ _ _ Hp), <- (pl_ins _ _ _ _ _ Hp).
  by rewrite take_app_length, drop_app_length, take_app_length.
Qed.

Lemma plain_shaped s E op outs ins cs :
  op <> op_call -> typed_env s E -> plain E op outs ins cs -> shaped s op (outs ++ ins ++ cs).
Proof.
  intros Hop Ht Hp. pose proof (plain_length _ _ _ _ _ Hp) as Hl. destruct Hp as [H1 H2 H3 H4 H5 H6 H7 H8 H9 [_ H10]].
  split; try done.
  - intros j Hj. rewrite arg_app_l by lia. apply (writes_of_type _ E); [done|]. apply Forall_arg; [done|lia].
  - intros j Hj. unfold is_input in Hj. replace j with (length outs + (j - length outs))%nat by lia.
    rewrite arg_app_r, arg_app_l by lia. apply (reads_of_type _ E); [done|]. apply Forall_arg; [done|lia].
Qed.

Lemma plain_fits s E op outs ins cs :
  op <> op_call -> op <> op_discard -> typed_env s E -> plain E op outs ins cs -> fits_op s E (mkOp op (outs ++ ins ++ cs)).
Proof.
  intros Hop Hd Ht Hp. destruct (plain_outputs E op outs ins cs Hop Hp) as [Eo Ei].
  pose proof (plain_shaped s E op outs ins cs Hop Ht Hp) as Hsh. split.
  - unfold op_ok. cbn [opc args]. assert (forall w, op = op_bin Bor w -> arg (outs ++ ins ++ cs) 1 <> arg (outs ++ ins ++ cs) 2) as Ho by apply Hp.
    by destruct op.
  - apply framed_eq; [done|]. split; [apply Hsh|]. rewrite Eo, Ei. apply Forall_app. split.
    + refine (Forall_impl _ _ _ (pl_reads _ _ _ _ _ Hp) _). intros t H. apply (reads_of_type s E _ _ Ht H).
    + refine (Forall_impl _ _ _ (pl_writes _ _ _ _ _ Hp) _). intros t H. apply (writes_of_type s E _ _ Ht H).
  - rewrite Ei. intros t Hin. destruct (proj1 (Forall_forall _ _) (pl_reads _ _ _ _ _ Hp) t Hin) as (w & H & _). by exists w.
  - rewrite Eo. apply Hp.
  - rewrite Eo. intros t Hin. destruct (proj1 (Forall_forall _ _) (pl_writes _ _ _ _ _ Hp) t Hin) as (w & H & _). by exists w.
  - unfold source_args. cbn [opc args]. destruct op; try done.
    destruct u, w; try done; apply bool_decide_eq_true; destruct (pl_ext _ _ _ _ _ Hp _ eq_refl) as (c & Et & Ec & _); auto;
      rewrite <- Ec; by apply (te_cell _ _ _ Ht).
  - apply Hp.
Qed.

(** *** What they do *)
Lemma shows_put E (a m : mstate W) r w v : shows E a m -> writable E r w -> fits (bits w) v -> shows E (put a r v) (put m r v).
Proof.
  intros [Hw Hs] (cr & Er & Ew & _) Hv. split; [done|]. intros t c Ht. unfold opnd, put. cbn. unfold rset.
  destruct (Z.eqb_spec t r) as [->|]; [|by apply Hs]. rewrite Er in Ht. injection Ht as <-. rewrite Ew. by rewrite uwrap_id.
Qed.

Lemma shows_value s E (a m : mstate W) t w : typed_env s E -> shows E a m -> readable E t w -> value s m t = regs a t.
Proof.
  intros Ht [_ Hs] (c & Et & <- & _). unfold value. destruct (te_cell _ _ _ Ht _ _ Et) as (_ & -> & _). by rewrite (Hs _ _ Et).
Qed.

Lemma shows_opnd E (a m : mstate W) t w : shows E a m -> readable E t w -> opnd w m t = regs a t.
Proof. intros [_ Hs] (c & Et & <- & _). by rewrite (Hs _ _ Et). Qed.

Lemma after_outputs E op l : op <> op_discard -> bb_end (mkOp op l) = false -> after (mkOp op l) E = puts_env E (outputs (mkOp op l)).
Proof. intros Hd Hb. unfold after. cbn [opc]. destruct op; by rewrite ?Hb. Qed.

(** A computing operation, where [f] knows what it yields. *)
Lemma denotes_partial E op r ins cs w (f : mstate W -> option Z) :
  pure op = true -> (forall w', op <> op_mov w') -> oargs op = 1%nat -> bb_end (mkOp op []) = false ->
  writable E r w -> (strict = true -> plain E op [r] ins cs) ->
  (forall a m v, shows E a m -> f a = Some v -> pure_value op m ([r] ++ ins ++ cs) = Some v) ->
  (forall a v, in_range E a -> f a = Some v -> fits (bits w) v) ->
  denotes E (tcg_gen_op op ([r] ++ ins ++ cs)) (put_env E r) (fun a => result w a r (f a)).
Proof.
  intros Hp Hm Ho Hb Hr Hs Hf Hfit. assert (op <> op_call /\ op <> op_discard /\ doubles op = false) as (Hc & Hd & Hdb) by (by destruct op).
  assert (put_env E r = after (mkOp op ([r] ++ ins ++ cs)) E) as ->.
  { rewrite after_outputs by done. by rewrite outputs_eq, Ho by done. }
  apply denotes_emit; [done|..].
  - intros s Hst Ht. apply plain_fits; auto.
  - intros s keep a m Ht Ham. rewrite exec_pure by done. destruct (f a) as [v|] eqn:Ef; [|done].
    rewrite (Hf a m v Ham Ef). cbn. apply (shows_put E a m r w v Ham Hr).
    by apply (Hfit a v (shows_range E a m Ham)).
Qed.

Lemma denotes_pure E op r ins cs w (f : mstate W -> option Z) :
  pure op = true -> (forall w', op <> op_mov w') -> oargs op = 1%nat -> bb_end (mkOp op []) = false ->
  writable E r w -> (strict = true -> plain E op [r] ins cs) ->
  (forall a m, shows E a m -> pure_value op m ([r] ++ ins ++ cs) = f a) ->
  (forall a v, in_range E a -> f a = Some v -> fits (bits w) v) ->
  denotes E (tcg_gen_op op ([r] ++ ins ++ cs)) (put_env E r) (fun a => result w a r (f a)).
Proof. intros H1 H2 H3 H4 H5 H6 H7 H8. apply denotes_partial; [done..| |done]. intros a m v Ham <-. by apply H7. Qed.

Lemma readable_range E (a : mstate W) t w : in_range E a -> readable E t w -> fits (bits w) (regs a t).
Proof. intros H (c & Et & <- & _). by apply (H t c). Qed.

(** A move, as the register allocator may do it. *)
Lemma denotes_move E w r x wx :
  writable E r w -> readable E x wx -> wx = w \/ w = W32 -> (strict = true -> takes (op_mov w)) ->
  denotes E (tcg_gen_op (op_mov w) [r; x]) (put_env E r) (fun a => Fall (put a r (uwrap (bits w) (regs a x)))).
Proof.
  intros Hr Hx Hw Ht. pose proof (W_pos w) as Hpos. change (put_env E r) with (after (mkOp (op_mov w) [r; x]) E). apply denotes_emit; [done|..].
  - intros s Hst Hty. apply (plain_fits s E (op_mov w) [r] [x] []); [done..|]. split; try done; auto.
    + repeat constructor. exists w. by split.
    + repeat constructor. exists wx. split; [done|]. destruct w; [done|]. destruct Hw as [->|?]; done.
    + apply NoDup_singleton.
  - intros s keep a m Hty Ham. cbn. pose proof (shows_opnd E a m x wx Ham Hx) as Ex.
    assert (uwrap (bits w) (regs m x) = uwrap (bits w) (regs a x)) as Ev.
    { rewrite <- Ex. unfold opnd. symmetry. apply uwrap_min. destruct Hw as [->| ->]; [|destruct wx; cbn]; lia. }
    destruct Ham as [Hwo Hs]. split; [done|]. intros t c Et. unfold opnd, put. cbn. unfold rset.
    destruct (Z.eqb_spec t r) as [->|]; [|by apply Hs]. destruct Hr as (cr & Er & <- & _). rewrite Er in Et. injection Et as <-.
    destruct keep; [done|]. unfold opnd. by rewrite uwrap_idem, Ev by lia.
Qed.

(** An operation with effects. *)
Definition opaque_den (op : TCGOpcode) (outs ins cs : list Z) (a : mstate W) : next W :=
  match h_op host op cs (map (regs a) ins) (world a) with
  | OContinue vs w => Fall (puts (mkState (regs a) w) outs (map (loaded op cs) (take (length outs) vs)))
  | OLeave w => Leave (mkState (regs a) w)
  end.

Lemma shows_world E (a m : mstate W) (w : W) : shows E a m -> shows E (mkState (regs a) w) (mkState (regs m) w).
Proof. intros [_ Hs]. by split. Qed.

Lemma shows_puts E (a m : mstate W) ts vs :
  shows E a m -> Forall (fun t => exists w, writable E t w /\ Forall (fits (bits w)) vs) ts -> shows E (puts a ts vs) (puts m ts vs).
Proof.
  revert a m vs. induction ts as [|t ts IH]; intros a m vs Ham Hf; [done|]. apply Forall_cons in Hf as [(w & Hw & Hv) Hf].
  pose proof (W_pos w). destruct vs as [|v vs]; cbn.
  - apply IH; [|done]. apply (shows_put E a m t w); [done..|]. split; [done|apply pow2_pos; lia].
  - apply Forall_cons in Hv as [Hv Hvs]. apply IH; [by apply (shows_put E a m t w)|].
    refine (Forall_impl _ _ _ Hf _). intros u (wu & Hu & Hvu). exists wu. split; [done|]. by apply Forall_cons in Hvu as [_ ?].
Qed.

(** The width a load is cut to. *)
Definition load_type (op : TCGOpcode) : width :=
  match op with op_ld _ w | op_qemu_ld w | op_div2 w | op_divu2 w => w | _ => W32 end.

Lemma loaded_fits op cs raw : fits (bits (load_type op)) (loaded op cs raw).
Proof.
  assert (forall k w, 0 <= k <= bits w -> fits (bits w) (uwrap k raw)) as Hk
    by (intros; apply (fits_weaken k); [lia|apply uwrap_fits; lia]).
  assert (forall w, 32 <= bits w) as Hb by (intros []; cbn; lia).
  assert (forall w z, fits (bits w) (uwrap (bits w) z)) as Hu by (intros w z; apply uwrap_fits; specialize (Hb w); lia).
  destruct op; cbn [load_type loaded]; try (apply (Hk 32 W32); cbn; lia); try apply Hu.
  specialize (Hb w). destruct m; try apply Hu; apply Hk; lia.
Qed.

Lemma denotes_effect E op outs ins cs :
  opaque op = true ->
  length outs = oargs op -> length ins = iargs op ->
  Forall (fun t => writable E t (load_type op)) outs -> Forall (fun t => exists w, readable E t w) ins ->
  (strict = true -> plain E op outs ins cs) ->
  denotes E (tcg_gen_op op (outs ++ ins ++ cs)) (after (mkOp op (outs ++ ins ++ cs)) E) (opaque_den op outs ins cs).
Proof.
  intros Hop Ho Hi Hr Hin Hs. assert (op <> op_call /\ op <> op_discard /\ doubles op = false) as (Hc & Hd & Hdb) by (by destruct op).
  assert (take (oargs op) (outs ++ ins ++ cs) = outs) as Eo by (rewrite <- Ho; apply take_app_length).
  assert (drop (oargs op) (outs ++ ins ++ cs) = ins ++ cs) as Ed by (rewrite <- Ho; apply drop_app_length).
  apply denotes_emit; [done|..].
  - intros s Hst Ht. apply plain_fits; auto.
  - intros s keep a m Ht Ham. rewrite exec_opaque_eq by done. unfold exec_opaque, opaque_den. cbn [opc args].
    fold (oargs op) (iargs op). rewrite <- drop_drop, Eo, Ed, <- Hi, take_app_length, drop_app_length.
    assert (map (value s m) ins = map (regs a) ins) as ->.
    { apply map_ext_in. intros t Hin'%list_elem_of_In. destruct (proj1 (Forall_forall _ _) Hin t Hin') as (w & Hw).
      by apply (shows_value s E a m t w). }
    destruct Ham as [Hw Hs']. rewrite Hw. destruct (h_op host op cs _ _) as [vs w|w]; cbn; [|by split].
    apply shows_puts; [by split|]. refine (Forall_impl _ _ _ Hr _). intros t Hwt. exists (load_type op). split; [done|].
    apply Forall_forall. intros v (raw & <- & _)%list_elem_of_In%in_map_iff. by apply loaded_fits.
Qed.

Lemma denotes_opaque E op outs ins cs :
  opaque op = true -> bb_end (mkOp op []) = false ->
  length outs = oargs op -> length ins = iargs op ->
  Forall (fun t => writable E t (load_type op)) outs -> Forall (fun t => exists w, readable E t w) ins ->
  (strict = true -> plain E op outs ins cs) ->
  denotes E (tcg_gen_op op (outs ++ ins ++ cs)) (puts_env E outs) (opaque_den op outs ins cs).
Proof.
  intros Hop Hb Ho Hi Hr Hin Hs. assert (op <> op_call /\ op <> op_discard) as (Hc & Hd) by (by destruct op).
  assert (puts_env E outs = after (mkOp op (outs ++ ins ++ cs)) E) as ->; [|by apply denotes_effect].
  rewrite after_outputs by done. rewrite outputs_eq by done. by rewrite <- Ho, take_app_length.
Qed.

(** *** Calls of the functions of tcg-runtime.c *)
Definition helper_flags : Z := Z.lor TCG_CALL_NO_READ_GLOBALS TCG_CALL_NO_SIDE_EFFECTS.
Definition helper_args (r a b fn : Z) : list Z := [0x10003; r; a; b; fn; helper_flags; 7].

Definition call_den (w : width) (r a b fn : Z) (x : mstate W) : next W :=
  match h_call host helper_flags [regs x a; regs x b; regs x fn] [] (world x) with
  | CReturn vs _ wo => Fall (put (mkState (regs x) wo) r (uwrap (bits w) (nth 0 vs 0)))
  | CLeave _ wo => Leave (mkState (regs x) wo)
  end.

Lemma helper_parts r a b fn :
  call_outs (helper_args r a b fn) = [r] /\ call_ins (helper_args r a b fn) = [a; b; fn] /\
  call_flags (helper_args r a b fn) = helper_flags.
Proof. done. Qed.

Lemma denotes_call E r a b fn w wa wb :
  writable E r w -> readable E a wa -> readable E b wb -> readable E fn W64 ->
  (strict = true -> avail op_call /\ fit_call tgt (helper_args r a b fn) = true) ->
  denotes E (tcg_gen_op op_call (helper_args r a b fn)) (put_env E r) (call_den w r a b fn).
Proof.
  intros Hr Ha Hb Hf Hs. destruct (helper_parts r a b fn) as (Eo & Ei & Ef).
  assert (Forall (fun t => exists w, readable E t w) [a; b; fn]) as Hin by (repeat constructor; by eexists).
  change (put_env E r) with (after (mkOp op_call (helper_args r a b fn)) E). apply denotes_emit; [done|..].
  - intros s Hst Ht. destruct (Hs Hst) as [Hav Hfit].
    assert (call_ok s (helper_args r a b fn)) as Hok.
    { unfold call_ok. change (call_args _) with (1, 3)%nat.
      split; [cbn; lia|]. intros j Hj. destruct Ht as [_ Hc]. cbn in Hj.
      assert (forall t w, readable E t w -> valid s t) as Hrd by (intros t w' (c & Et & _); apply (Hc _ _ Et)).
      assert (valid s r) as Hwr by (destruct Hr as (c & Et & _); apply (Hc _ _ Et)).
      destruct j as [|[|[|[|[|j]]]]]; cbn; eauto; lia. }
    split; try done.
    + unfold inputs. cbn [opc args]. rewrite Ei. by apply Forall_forall.
    + apply NoDup_singleton.
    + unfold outputs. cbn [opc args]. rewrite Eo. intros t ->%list_elem_of_singleton. by exists w.
  - intros s keep x m Ht Hxm. cbn [exec_op opc args]. unfold exec_call. rewrite Eo, Ei, Ef. cbn [map].
    rewrite (shows_value s E x m a wa), (shows_value s E x m b wb), (shows_value s E x m fn W64) by done.
    change (reads_globals helper_flags) with false. change (writes_globals helper_flags) with false. cbn [map].
    unfold call_den. destruct Hxm as [Hw Hxm]. rewrite <- Hw.
    destruct (h_call host helper_flags _ [] (world x)) as [vs g wo|g wo] eqn:Eh; cbn; [|by split].
    pose proof (W_pos w) as Hw'. destruct Hr as (c & Et & Ew & Hp). destruct (te_cell _ _ _ Ht _ _ Et) as (_ & Ety & _).
    assert (writable E r w) as Hwr by (by exists c). clear Eh.
    destruct vs as [|v vs]; cbn; [apply (shows_put E _ _ r w); [done..|]; apply fits_0; lia|].
    unfold typed. rewrite Ety, Ew. apply (shows_put E _ _ r w); [done..|]. apply uwrap_fits. lia.
Qed.

(** A double word. *)
Definition put_pair (w : width) (rl rh : Z) (v : Z) (a : mstate W) : mstate W :=
  put (put a rl (uwrap (bits w) v)) rh (uwrap (bits w) (v / 2 ^ bits w)).

Definition pair_value (op : TCGOpcode) (vs : list Z) : Z :=
  let v := arg vs in
  match op with
  | op_add2 w => pair_of w (v 0%nat) (v 1%nat) + pair_of w (v 2%nat) (v 3%nat)
  | op_sub2 w => pair_of w (v 0%nat) (v 1%nat) - pair_of w (v 2%nat) (v 3%nat)
  | op_mulu2 w => v 0%nat * v 1%nat
  | op_muls2 w => swrap (bits w) (v 0%nat) * swrap (bits w) (v 1%nat)
  | _ => 0
  end.

Definition double_type (op : TCGOpcode) : option width :=
  match op with op_add2 w | op_sub2 w | op_mulu2 w | op_muls2 w => Some w | _ => None end.

Lemma length_two (l : list Z) : length l = 2%nat -> exists x y, l = [x; y].
Proof. intros H. destruct l as [|x [|y [|]]]; try done. by exists x, y. Qed.
Lemma length_four (l : list Z) : length l = 4%nat -> exists x y z u, l = [x; y; z; u].
Proof. intros H. destruct l as [|x [|y [|z [|u [|]]]]]; try done. by exists x, y, z, u. Qed.

Lemma denotes_double E op rl rh ins w :
  double_type op = Some w -> length ins = iargs op ->
  writable E rl w -> writable E rh w -> Forall (fun t => readable E t w) ins ->
  (strict = true -> rl <> rh /\ takes op /\ takes op_nop) ->
  denotes E (tcg_gen_op_nop op (rl :: rh :: ins)) (put_env (put_env E rh) rl)
    (fun a => Fall (put_pair w rl rh (pair_value op (map (regs a) ins)) a)).
Proof.
  intros Hop Hi Hl Hh Hin Hs. pose proof (W_pos w) as Hpos.
  assert (op <> op_call /\ op <> op_discard /\ oargs op = 2%nat /\ doubles op = true /\ bb_end (mkOp op []) = false /\
    out_type op = Some w /\ in_type op = Some w /\ nb_cargs (tcg_op_defs op) = 0%nat) as (Hc & Hd & Ho & Hdb & Hb & Eo & Ei & En)
    by (destruct op; try done; injection Hop as ->; done).
  set (E' := put_env (put_env E rh) rl).
  assert (alike E E') as Ha by (apply (alike_trans E (put_env E rh)); apply alike_put).
  pose proof (alike_shrinks _ _ Ha) as Hsh. split; [done|]. intros G HG.
  exists G, [mkOp op (rl :: rh :: ins); mkOp op_nop []].
  split; [done|]. split; [apply grows_refl|]. split; [by apply (alike_models T most G E)|]. split; [cbn; by rewrite Hdb|].
  intros s Gs. assert (typed_env s E) as Ht by (apply (typed_grows T (ctx G)); [done|apply HG]). split.
  - intros Hst. destruct (Hs Hst) as (Hne & Htk & Htn).
    assert (plain E op [rl; rh] ins []) as Hp.
    { split; try done.
      - rewrite Eo. repeat constructor; by exists w.
      - rewrite Ei. refine (Forall_impl _ _ _ Hin _). intros t H. by exists w.
      - apply NoDup_cons. split; [|apply NoDup_singleton]. by intros ?%list_elem_of_singleton.
      - by destruct op.
      - by intros u' ->.
      - intros u ->. done. }
    constructor.
    + pose proof (plain_fits s E op [rl; rh] ins [] Hc Hd Ht Hp) as H. cbn [app] in H. by rewrite app_nil_r in H.
    + assert (after (mkOp op (rl :: rh :: ins)) E = E') as ->.
      { rewrite after_outputs by done. rewrite outputs_eq, Ho by done. done. }
      constructor; [|constructor; apply tells_refl]. apply (plain_fits s E' op_nop [] [] []); [done..| |].
      * apply (typed_grows T s); [apply grows_refl|]. destruct Ht as [Tg Tc]. split; [done|]. intros t c (k & Et)%Hsh. by apply (Tc t (know k c)).
      * split; try done. constructor.
  - intros keep n a m Ham. cbn [execs].
    assert (exec_op s host (keep n) (mkOp op (rl :: rh :: ins)) m =
      Fall (put_pair w rl rh (pair_value op (map (regs a) ins)) m)) as ->.
    { assert (forall l, Forall (fun t => readable E t w) l -> map (opnd w m) l = map (regs a) l) as Hmap.
      { intros l Hl'. apply map_ext_in. intros t Hin'%list_elem_of_In. apply (shows_opnd E); [done|]. by apply (proj1 (Forall_forall _ _) Hl'). }
      specialize (Hmap ins Hin). rewrite <- Hmap. unfold iargs in Hi.
      destruct op; try discriminate Hop; injection Hop as ->;
        first [destruct (length_four ins Hi) as (x & y & z & u & ->) | destruct (length_two ins Hi) as (x & y & ->)]; reflexivity. }
    generalize (pair_value op (map (regs a) ins)). intros v. cbn [nbind next_shows exec_op opc].
    apply (shrinks_shows E); [done|]. unfold put_pair.
    apply (shows_put E _ _ rh w); [|done|apply uwrap_fits; lia].
    apply (shows_put E _ _ rl w); [done..|apply uwrap_fits; lia].
Qed.
End denote.
End TcgDenote.
