(* ===== verification/TcgFrontOk.v ===== *)
(** The generators that emit one operation, or one and a constant, compute what
    their names say, whichever of their arguments coincide; and the automation
    by which the denotation of a sequence is put together. *)
From Stdlib Require Import ZArith Lia Bool.
From stdpp Require Import base numbers list sets.
From S2P Require Import Prelude HostUtils TcgOp TcgOpt TcgRing TcgArith TcgSem TcgBits TcgSound TcgStep TcgProg TcgShape TcgLive TcgReg TcgHost TcgFit TcgKeep TcgTemp TcgFront TcgEmit TcgDenote.
Local Open Scope Z_scope.

Module TcgFrontOk.
Import HostUtils.HostUtils Tcg TcgArith TcgSem TcgBits TcgStep TcgShape TcgReg TcgHost TcgFit TcgKeep TcgTemp TcgFront TcgEmit TcgDenote.

(** ** Environments *)
Create HintDb gen discriminated.
Create HintDb den discriminated.

Lemma readable_put_same E r w : writable E r w -> readable (put_env E r) r w.
Proof. intros (c & Ec & <- & _). exists (know true c). rewrite put_env_eq, Ec, Z.eqb_refl. done. Qed.
Lemma readable_put E u t w : readable E t w -> readable (put_env E u) t w.
Proof. intros (c & Ec & <- & Hk). exists (know true c). rewrite put_env_eq, Ec. cbn. by rewrite Hk, orb_true_r. Qed.
Lemma writable_put E u t w : writable E t w -> writable (put_env E u) t w.
Proof. intros (c & Ec & <- & Hp). eexists. rewrite put_env_eq, Ec. by split. Qed.
Lemma readable_new E u t w wu : cells E u = None -> readable E t w -> readable (new_env E u wu) t w.
Proof.
  intros Hu (c & Ec & <- & Hk). exists c. cbn. destruct (Z.eqb_spec t u) as [->|]; [congruence|done].
Qed.
Lemma writable_new E u t w wu : cells E u = None -> writable E t w -> writable (new_env E u wu) t w.
Proof.
  intros Hu (c & Ec & <- & Hk). exists c. cbn. destruct (Z.eqb_spec t u) as [->|]; [congruence|done].
Qed.
Lemma writable_fresh E u w : writable (new_env E u w) u w.
Proof. eexists. cbn. by rewrite Z.eqb_refl. Qed.
(** A temporary the generator has allocated. *)
Definition owned (E : env) (t : Z) (w : width) : Prop := exists k, cells E t = Some (mkCell w false false k).

Lemma owned_fresh E u w : owned (new_env E u w) u w.
Proof. exists false. cbn. by rewrite Z.eqb_refl. Qed.
Lemma owned_new E u t w wu : cells E u = None -> owned E t w -> owned (new_env E u wu) t w.
Proof. intros Hu (k & Ec). exists k. cbn. destruct (Z.eqb_spec t u) as [->|]; [congruence|done]. Qed.
Lemma owned_put E u t w : owned E t w -> owned (put_env E u) t w.
Proof. intros (k & Ec). eexists. by rewrite put_env_eq, Ec. Qed.
Lemma owned_free E u t w wu : t <> u -> owned E t w -> owned (free_env E u wu) t w.
Proof. intros Hu (k & Ec). exists k. cbn. by rewrite (proj2 (Z.eqb_neq t u)). Qed.

Ltac env_fact :=
  lazymatch goal with
  | |- readable (put_env _ ?t) ?t _ => apply readable_put_same; env_fact
  | |- readable (put_env _ _) _ _ => apply readable_put; env_fact
  | |- readable (new_env _ _ _) _ _ => apply readable_new; [assumption|env_fact]
  | |- writable (put_env _ _) _ _ => apply writable_put; env_fact
  | |- writable (new_env _ ?u _) ?u _ => apply writable_fresh
  | |- writable (new_env _ _ _) _ _ => apply writable_new; [assumption|env_fact]
  | |- owned (put_env _ _) _ _ => apply owned_put; env_fact
  | |- owned (new_env _ ?u _) ?u _ => apply owned_fresh
  | |- owned (new_env _ _ _) _ _ => apply owned_new; [assumption|env_fact]
  | |- owned (free_env _ _ _) _ _ => apply owned_free; [assumption|env_fact]
  | _ => eassumption
  end.
#[export] Hint Extern 0 (readable _ _ _) => solve [env_fact] : gen.
#[export] Hint Extern 0 (writable _ _ _) => solve [env_fact] : gen.
#[export] Hint Extern 0 (owned _ _ _) => solve [env_fact] : gen.

Lemma readable_ne E t u w : cells E u = None -> readable E t w -> t <> u.
Proof. intros Hu (c & Ec & _) ->. congruence. Qed.
Lemma writable_ne E t u w : cells E u = None -> writable E t w -> t <> u.
Proof. intros Hu (c & Ec & _) ->. congruence. Qed.
Lemma fresh_new E u wu t : cells (new_env E u wu) t = None -> t <> u /\ cells E t = None.
Proof. cbn. by destruct (Z.eqb_spec t u). Qed.
Lemma fresh_put E u t : cells (put_env E u) t = None -> cells E t = None.
Proof. rewrite put_env_eq. by destruct (cells E t). Qed.

Lemma readable_cell E t w : readable E t w -> cells E t <> None.
Proof. intros (c & Ec & _). congruence. Qed.

Lemma weaker_put E r : weaker (put_env E r) E.
Proof.
  split; [|done]. intros t c Hc. exists ((t =? r) || c_known c). rewrite put_env_eq, Hc. split; [done|].
  intros ->. by rewrite orb_true_r.
Qed.

Lemma regs_state {W} (f : Z -> Z) (w : W) : regs (mkState f w) = f.
Proof. done. Qed.
Lemma regs_put_same {W} (a : mstate W) t v : regs (put a t v) t = v.
Proof. cbn. unfold rset. by rewrite Z.eqb_refl. Qed.
Lemma regs_put_ne {W} (a : mstate W) t v u : u <> t -> regs (put a t v) u = regs a u.
Proof. intros. cbn. unfold rset. by rewrite (proj2 (Z.eqb_neq u t)). Qed.

Lemma nbind_result {W} w (a : mstate W) r v k : nbind (result w a r (Some v)) k = k (put a r v).
Proof. done. Qed.
Lemma nbind_fall {W} (a : mstate W) k : nbind (Fall a) k = k a.
Proof. done. Qed.

(** Every two temporaries in sight that differ. *)
Ltac note P := lazymatch goal with H : P |- _ => fail | _ => idtac end.
Ltac distinct :=
  repeat match goal with
  | H : cells (new_env _ _ _) _ = None |- _ => apply fresh_new in H as [? H]
  | H : cells (put_env _ _) _ = None |- _ => apply fresh_put in H
  end;
  repeat match goal with
  | H : cells ?E ?u = None, R : readable ?E ?t _ |- _ =>
      lazymatch goal with _ : t <> u |- _ => fail | _ => pose proof (readable_ne E t u _ H R) end
  | H : cells ?E ?u = None, R : writable ?E ?t _ |- _ =>
      lazymatch goal with _ : t <> u |- _ => fail | _ => pose proof (writable_ne E t u _ H R) end
  end.

Ltac regs := repeat first [rewrite regs_put_same | rewrite regs_put_ne by (done || congruence) | rewrite regs_state].

(** [weaker] of the environment at the end of a generator, when what it
    allocated is free again. *)
Ltac cell_cases u :=
  repeat match goal with
  | |- context [u =? ?x] => destruct (Z.eqb_spec u x)
  | H : context [u =? ?x] |- _ => destruct (Z.eqb_spec u x)
  end.
Ltac room := cbn; rewrite ?Bool.eqb_reflx; repeat match goal with |- context [Bool.eqb ?x ?y] => destruct (Bool.eqb x y) end; lia.
Ltac env_end :=
  distinct;
  let u := fresh "u" in let c := fresh "c" in let Hc := fresh "Hc" in let w' := fresh "w'" in
  split; [intros u c Hc; cbn in Hc |- *; cell_cases u; try congruence;
          match type of Hc with context [cells ?E u] => let cu := fresh "c" in
            destruct (cells E u) as [cu|] eqn:?; cbn in Hc |- *; [|congruence]; try congruence;
            injection Hc as <-; first [exists true; by split | exists (c_known cu); rewrite ?know_know, know_id; by split | eexists; split; [reflexivity|cbn; done]] end
         |intros w'; room].

Section front.
Context {W : Type} (host : Host W) (strict : bool) (tgt : Target) (T : Z -> TCGTemp) (avail : TCGOpcode -> Prop) (most : Z).
Context (has : TargetHas) (address : runtime_helper -> Z).
Notation denotes := (denotes host strict tgt T avail most).
Notation takes := (takes avail).
Hypothesis (Hserves : strict = true -> serves has takes).

Lemma core_takes op : core op = true -> strict = true -> takes op.
Proof. intros Hc Hs. by apply (sv_core _ _ (Hserves Hs)). Qed.
#[local] Hint Resolve core_takes : gen.

(** ** Single operations *)
Lemma op_bin_ok E b w r x y :
  writable E r w -> readable E x w -> readable E y w -> (strict = true -> takes (op_bin b w)) -> (b = Bor -> x <> y) ->
  denotes E (tcg_gen_op (op_bin b w) [r; x; y]) (put_env E r) (fun a => result w a r (bin_sem b (bits w) (regs a x) (regs a y))).
Proof.
  intros Hr Hx Hy Ht Ho. destruct (arity_bin b w) as (E1 & E2 & E3 & E4 & E5).
  apply (denotes_pure host strict tgt T avail most E (op_bin b w) r [x; y] [] w); try done.
  - intros Hst. split; try done.
    + assert (nb_args (tcg_op_defs (op_bin b w)) = 3%nat) as E3' by done. unfold nb_args in E3'. unfold oargs, iargs in *. cbn [length]. lia.
    + repeat constructor. by exists w.
    + repeat constructor; by exists w.
    + apply NoDup_singleton.
    + intros w' [= -> ->]. by apply Ho.
    + by apply Ht.
  - intros a m Ham. cbn [pure_value app arg nth]. by rewrite (shows_opnd E a m x w), (shows_opnd E a m y w).
  - intros a v Hin. apply bin_sem_fits; by apply (readable_range E).
Qed.

Lemma op_un_ok E u w r x :
  writable E r w -> readable E x w -> (strict = true -> takes (op_un u w)) -> present (op_un u w) = true ->
  denotes E (tcg_gen_op (op_un u w) [r; x]) (put_env E r) (fun a => result w a r (un_sem u (bits w) (regs a x))).
Proof.
  intros Hr Hx Ht Hp. apply (denotes_pure host strict tgt T avail most E (op_un u w) r [x] [] w); try done.
  - intros Hst. split; try done.
    + repeat constructor. by exists w.
    + repeat constructor. exists w. split; [done|]. by destruct u.
    + apply NoDup_singleton.
    + by intros u' [= -> ->].
    + by apply Ht.
  - intros a m Ham. cbn [pure_value app arg nth]. by rewrite (shows_opnd E a m x w).
  - intros a v Hin. apply un_sem_fits; [by apply (readable_range E)|done].
Qed.

Lemma op_setcond_ok E w r x y c :
  writable E r w -> readable E x w -> readable E y w -> c ∈ tcg_conds ->
  denotes E (tcg_gen_op (op_setcond w) [r; x; y; c]) (put_env E r)
    (fun a => result w a r (option_map cbool (cond_sem c (bits w) (regs a x) (regs a y)))).
Proof.
  intros Hr Hx Hy Hc. apply (denotes_pure host strict tgt T avail most E (op_setcond w) r [x; y] [c] w); try done.
  - intros Hst. split; try done; try (repeat constructor; by exists w); auto with gen. apply NoDup_singleton.
  - intros a m Ham. cbn [pure_value app arg nth]. by rewrite (shows_opnd E a m x w), (shows_opnd E a m y w).
  - intros a v Hin. destruct (cond_sem _ _ _ _); [|done]. intros [= <-]. apply cbool_fits, W_pos.
Qed.

Lemma op_movcond_ok E w r x y u v c :
  writable E r w -> readable E x w -> readable E y w -> readable E u w -> readable E v w -> c ∈ tcg_conds ->
  (strict = true -> takes (op_movcond w)) ->
  denotes E (tcg_gen_op (op_movcond w) [r; x; y; u; v; c]) (put_env E r)
    (fun a => result w a r (option_map (fun b : bool => if b then regs a u else regs a v) (cond_sem c (bits w) (regs a x) (regs a y)))).
Proof.
  intros Hr Hx Hy Hu Hv Hc Ht. apply (denotes_pure host strict tgt T avail most E (op_movcond w) r [x; y; u; v] [c] w); try done.
  - intros Hst. split; try done; try (repeat constructor; by exists w); auto with gen. apply NoDup_singleton.
  - intros a m Ham. cbn [pure_value app arg nth].
    by rewrite (shows_opnd E a m x w), (shows_opnd E a m y w), (shows_opnd E a m u w), (shows_opnd E a m v w).
  - intros a z Hin. destruct (cond_sem _ _ _ _) as [[]|]; [..|done]; intros [= <-]; by apply (readable_range E).
Qed.

Lemma op_deposit_ok E w r x y ofs len :
  len < 64 -> writable E r w -> readable E x w -> readable E y w -> (strict = true -> takes (op_deposit w)) ->
  denotes E (tcg_gen_op (op_deposit w) [r; x; y; ofs; len]) (put_env E r)
    (fun a => result w a r (deposit_sem (bits w) (regs a x) (regs a y) ofs len)).
Proof.
  intros Hlen Hr Hx Hy Ht. apply (denotes_pure host strict tgt T avail most E (op_deposit w) r [x; y] [ofs; len] w); try done.
  - intros Hst. split; try done; try (repeat constructor; by exists w); auto with gen. apply NoDup_singleton.
  - intros a m Ham. cbn [pure_value app arg nth]. by rewrite (shows_opnd E a m x w), (shows_opnd E a m y w).
  - intros a z Hin. apply deposit_sem_fits. by apply (readable_range E).
Qed.

Lemma tcg_gen_movi_ok E w r v :
  writable E r w -> denotes E (tcg_gen_movi w r v) (put_env E r) (fun a => Fall (put a r (uwrap (bits w) v))).
Proof.
  intros Hr. pose proof (W_pos w).
  apply (denotes_pure host strict tgt T avail most E (op_movi w) r [] [u64 (swrap (bits w) v)] w (fun _ => Some (uwrap (bits w) v))); try done.
  - intros Hst. split; try done; try (repeat constructor; by exists w); auto with gen; [apply NoDup_singleton|]. cbn. apply uwrap_fits. lia.
  - intros a m _. cbn. f_equal. rewrite uwrap_min by (destruct w; cbn; lia). apply uwrap_swrap. lia.
  - intros a x _ [= <-]. apply uwrap_fits. lia.
Qed.

Lemma tcg_gen_mov_ok E w r x wx :
  writable E r w -> readable E x wx -> wx = w \/ w = W32 ->
  denotes E (tcg_gen_mov w r x) (put_env E r) (fun a => Fall (put a r (uwrap (bits w) (regs a x)))).
Proof.
  intros Hr Hx Hw. unfold tcg_gen_mov. destruct (Z.eqb_spec r x) as [->|]; cbn [when negb].
  - eapply denotes_weaken; [apply denotes_ret|apply weaker_refl|..].
    + destruct Hx as (c & Ec & _ & Hk). split; [|done]. intros t ct. rewrite put_env_eq. destruct (Z.eqb_spec t x) as [->|].
      * rewrite Ec. intros [= <-]. exists (c_known c). by rewrite know_know, know_id.
      * cbn. intros Et. destruct (cells E t) as [c'|]; [|done]. injection Et as <-. exists (c_known c'). by rewrite know_know, know_id.
    + intros a Hin. split; [done|]. intros t _. cbn. unfold rset. destruct (Z.eqb_spec t x) as [->|]; [|done].
      apply uwrap_id. destruct Hr as (c & Ec & <- & _). by apply (Hin x c).
  - apply (denotes_move host strict tgt T avail most E w r x wx); auto with gen.
Qed.

(** ** Constants and temporaries *)
Lemma denotes_skip E g E' den : denotes E g E' den -> denotes E (ret tt ;;; g)%prog E' den.
Proof. apply denotes_ext. intros G. by rewrite bind_ret. Qed.

Lemma denotes_const E w v body E' den :
  1 <= credit E w -> shrinks E E' ->
  (forall t, cells E t = None -> exists d E1, denotes (put_env (new_env E t w) t) (body t) E1 d /\ weaker E1 E' /\
     forall a v0, in_range E a -> next_refines E' (den a) (d (put (put a t v0) t (uwrap (bits w) v)))) ->
  denotes E (t0 <- tcg_const w v ;; body t0)%prog E' den.
Proof.
  intros Hc Hsh Hb. apply (denotes_ext host strict tgt T avail most E
    (t <- tcg_temp_new w ;; tcg_gen_movi w t v ;;; body t)%prog); [|apply denotes_new; [done..|]].
  - intros G. unfold tcg_const. rewrite bind_assoc. apply bind_ext. intros t G1. rewrite bind_assoc. apply bind_ext.
    intros u G2. by rewrite bind_ret.
  - intros t Ht. destruct (Hb t Ht) as (d & E1 & Hd & HW & Hr).
    exists (fun a => nbind (Fall (put a t (uwrap (bits w) v))) d), E1. split; [|split; [done|]].
    + eapply denotes_seq; [apply tcg_gen_movi_ok; auto with gen|done].
    + intros a v0 Hin _. by apply Hr.
Qed.

Lemma shrinks_put E r : shrinks E (put_env E r).
Proof. apply alike_shrinks, alike_put. Qed.

(** A temporary that is written again: what is known stays the same. *)
Lemma denotes_stay E g r w d : denotes E g (put_env E r) d -> readable E r w -> denotes E g E d.
Proof.
  intros H _. eapply denotes_weaken; [exact H|apply weaker_refl|apply weaker_put|]. intros a _.
  assert (forall b : mstate W, same_values E b b) by done. by destruct (d a).
Qed.

(** An operation with a constant operand. *)
Lemma denotes_imm E w v wr r g f :
  1 <= credit E w -> writable E r wr ->
  (forall t, cells E t = None -> t <> r ->
     denotes (put_env (new_env E t w) t) (g t) (put_env (put_env (new_env E t w) t) r) (fun a => result wr a r (f (regs a t) a))) ->
  (forall x a b, same_values E a b -> f x a = f x b) ->
  denotes E (t0 <- tcg_const w v ;; g t0 ;;; tcg_temp_free t0)%prog (put_env E r)
    (fun a => result wr a r (f (uwrap (bits w) v) a)).
Proof.
  intros Hc Hr Hg Hf. apply denotes_const; [done|apply shrinks_put|]. intros t Ht.
  assert (t <> r) as Hne by (pose proof (writable_ne _ _ _ _ Ht Hr); congruence).
  eexists _, _. split; [eapply denotes_seq; [by apply Hg|]|split].
  - apply (denotes_free host strict tgt T avail most _ t w true). rewrite !put_env_eq. cbn. rewrite !Z.eqb_refl. cbn. by rewrite orb_true_r.
  - env_end.
  - intros a v0 Hin. cbn [nbind]. regs. assert (same_values E a (put (put a t v0) t (uwrap (bits w) v))) as Hs.
    { split; [done|]. intros u Hu. assert (u <> t) by congruence. by regs. }
    rewrite <- (Hf _ a _ Hs). destruct (f _ a); [|done]. cbn. split; [done|]. intros u Hu. destruct (decide (u = r)) as [->|]; regs; [done|].
    apply Hs. rewrite put_env_eq in Hu. by destruct (cells E u).
Qed.

Notation computes E g r w f := (denotes E g (put_env E r) (fun a => result w a r (f a))).

(** A generator with another name for its value. *)
Lemma computes_eq E g r w f f' :
  computes E g r w f -> (forall a, in_range E a -> f' a = f a \/ f' a = None) -> computes E g r w f'.
Proof.
  intros H Hf. eapply denotes_weaken; [exact H|apply weaker_refl..|]. intros a Hin. destruct (Hf a Hin) as [-> | ->]; [|done].
  by destruct (f a).
Qed.

Lemma same_regs E (a b : mstate W) t w : readable E t w -> same_values E a b -> regs a t = regs b t.
Proof. intros Ht [_ H]. by apply H, (readable_cell E t w). Qed.

(** ** Arithmetic and logic *)
Definition simple (b : binop) : bool := match b with Badd | Bsub | Bmul | Band | Bxor | Bshl | Bshr | Bsar => true | _ => false end.

Lemma simple_ok E b w r x y :
  simple b = true -> writable E r w -> readable E x w -> readable E y w ->
  computes E (tcg_gen_op (op_bin b w) [r; x; y]) r w (fun a => bin_sem b (bits w) (regs a x) (regs a y)).
Proof. intros Hb Hr Hx Hy. apply op_bin_ok; [done..| |by intros ->]. apply core_takes. by destruct b. Qed.

Lemma copied_value E w r x : writable E r w -> readable E x w -> computes E (tcg_gen_mov w r x) r w (fun a => Some (regs a x)).
Proof.
  intros Hr Hx. eapply denotes_weaken; [apply (tcg_gen_mov_ok E w r x w); auto|apply weaker_refl..|].
  intros a Hin. cbv beta. by rewrite uwrap_id by by apply (readable_range E).
Qed.

Lemma movi_value E w r v : writable E r w -> computes E (tcg_gen_movi w r v) r w (fun _ => Some (uwrap (bits w) v)).
Proof. apply tcg_gen_movi_ok. Qed.

Lemma tcg_gen_and_ok E w r x y :
  writable E r w -> readable E x w -> readable E y w ->
  computes E (tcg_gen_and w r x y) r w (fun a => bin_sem Band (bits w) (regs a x) (regs a y)).
Proof.
  intros Hr Hx Hy. unfold tcg_gen_and. destruct (Z.eqb_spec x y) as [->|]; [|by apply simple_ok].
  apply (computes_eq _ _ _ _ _ _ (copied_value E w r y Hr Hx)). intros a _. cbn. rewrite Z.land_diag. by left.
Qed.

Lemma tcg_gen_or_ok E w r x y :
  writable E r w -> readable E x w -> readable E y w ->
  computes E (tcg_gen_or w r x y) r w (fun a => bin_sem Bor (bits w) (regs a x) (regs a y)).
Proof.
  intros Hr Hx Hy. unfold tcg_gen_or. destruct (Z.eqb_spec x y) as [->|]; [|apply op_bin_ok; auto with gen].
  apply (computes_eq _ _ _ _ _ _ (copied_value E w r y Hr Hx)). intros a _. cbn. rewrite Z.lor_diag. by left.
Qed.

Lemma tcg_gen_xor_ok E w r x y :
  writable E r w -> readable E x w -> readable E y w ->
  computes E (tcg_gen_xor w r x y) r w (fun a => bin_sem Bxor (bits w) (regs a x) (regs a y)).
Proof.
  intros Hr Hx Hy. unfold tcg_gen_xor. destruct (Z.eqb_spec x y) as [->|]; [|by apply simple_ok].
  apply (computes_eq _ _ _ _ _ _ (movi_value E w r 0 Hr)). intros a _. cbn. rewrite Z.lxor_nilpotent. by left.
Qed.

(** The constant is the right operand. *)
Lemma imm_ok E b w r x v g :
  1 <= credit E w -> writable E r w -> readable E x w ->
  (forall E' t, writable E' r w -> readable E' x w -> readable E' t w -> t <> x ->
     computes E' (g t) r w (fun a => bin_sem b (bits w) (regs a x) (regs a t))) ->
  computes E (t0 <- tcg_const w v ;; g t0 ;;; tcg_temp_free t0)%prog r w
    (fun a => bin_sem b (bits w) (regs a x) (uwrap (bits w) v)).
Proof.
  intros Hc Hr Hx Hg. apply (denotes_imm E w v w r g (fun y a => bin_sem b (bits w) (regs a x) y)); [done..| |].
  - intros t Ht Hne. apply Hg; auto 8 with gen. pose proof (readable_ne E x t w Ht Hx). congruence.
  - intros y a a' H. by rewrite (same_regs E a a' x w Hx H).
Qed.

(** A zero that changes nothing. *)
Lemma imm_zero_ok E b w r x v g :
  1 <= credit E w -> writable E r w -> readable E x w ->
  (forall y, fits (bits w) y -> bin_sem b (bits w) y 0 = Some y) ->
  (forall E' t, writable E' r w -> readable E' x w -> readable E' t w -> t <> x ->
     computes E' (g t) r w (fun a => bin_sem b (bits w) (regs a x) (regs a t))) ->
  computes E (if v =? 0 then tcg_gen_mov w r x else t0 <- tcg_const w v ;; g t0 ;;; tcg_temp_free t0)%prog r w
    (fun a => bin_sem b (bits w) (regs a x) (uwrap (bits w) v)).
Proof.
  intros Hc Hr Hx Hz Hg. destruct (Z.eqb_spec v 0) as [->|]; [|by apply imm_ok].
  apply (computes_eq _ _ _ _ _ _ (copied_value E w r x Hr Hx)). intros a Hin. left.
  rewrite (uwrap_id _ 0) by (apply fits_0; pose proof (W_pos w); lia). apply Hz. by apply (readable_range E).
Qed.

Lemma zero_shift b w y : (b = Bshl \/ b = Bshr \/ b = Bsar) -> fits (bits w) y -> bin_sem b (bits w) y 0 = Some y.
Proof.
  intros Hb Hy. pose proof (W_pos w). destruct Hb as [-> | [-> | ->]]; cbn -[Z.shiftl Z.shiftr];
    rewrite (proj2 (Z.ltb_lt _ _)), ?Z.shiftl_0_r, ?Z.shiftr_0_r, ?uwrap_swrap, ?uwrap_id by (done || lia); done.
Qed.

Lemma tcg_gen_addi_ok E w r x v :
  1 <= credit E w -> writable E r w -> readable E x w ->
  computes E (tcg_gen_addi w r x v) r w (fun a => bin_sem Badd (bits w) (regs a x) (uwrap (bits w) v)).
Proof.
  intros. apply imm_zero_ok; [done..| |].
  - intros y Hy. cbn. by rewrite Z.add_0_r, uwrap_id.
  - intros E' t Hr Hx Ht _. by apply simple_ok.
Qed.

Lemma tcg_gen_subi_ok E w r x v :
  1 <= credit E w -> writable E r w -> readable E x w ->
  computes E (tcg_gen_subi w r x v) r w (fun a => bin_sem Bsub (bits w) (regs a x) (uwrap (bits w) v)).
Proof.
  intros. apply imm_zero_ok; [done..| |].
  - intros y Hy. cbn. by rewrite Z.sub_0_r, uwrap_id.
  - intros E' t Hr Hx Ht _. by apply simple_ok.
Qed.

Lemma tcg_gen_subfi_ok E w r v x :
  1 <= credit E w -> writable E r w -> readable E x w ->
  computes E (tcg_gen_subfi w r v x) r w (fun a => bin_sem Bsub (bits w) (uwrap (bits w) v) (regs a x)).
Proof.
  intros Hc Hr Hx. apply (denotes_imm E w v w r _ (fun y a => bin_sem Bsub (bits w) y (regs a x))); [done..| |].
  - intros t Ht Hne. apply simple_ok; auto 8 with gen.
  - intros y a a' H. by rewrite (same_regs E a a' x w Hx H).
Qed.

Lemma tcg_gen_muli_ok E w r x v :
  1 <= credit E w -> writable E r w -> readable E x w ->
  computes E (tcg_gen_muli w r x v) r w (fun a => bin_sem Bmul (bits w) (regs a x) (uwrap (bits w) v)).
Proof. intros. apply imm_ok; [done..|]. intros E' t Hr Hx Ht _. by apply simple_ok. Qed.

Lemma tcg_gen_shli_ok E w r x v :
  1 <= credit E w -> writable E r w -> readable E x w ->
  computes E (tcg_gen_shli w r x v) r w (fun a => bin_sem Bshl (bits w) (regs a x) (uwrap (bits w) v)).
Proof.
  intros. apply imm_zero_ok; [done..|auto using zero_shift|]. intros E' t Hr Hx Ht _. by apply simple_ok.
Qed.

Lemma tcg_gen_shri_ok E w r x v :
  1 <= credit E w -> writable E r w -> readable E x w ->
  computes E (tcg_gen_shri w r x v) r w (fun a => bin_sem Bshr (bits w) (regs a x) (uwrap (bits w) v)).
Proof.
  intros. apply imm_zero_ok; [done..|auto using zero_shift|]. intros E' t Hr Hx Ht _. by apply simple_ok.
Qed.

Lemma tcg_gen_sari_ok E w r x v :
  1 <= credit E w -> writable E r w -> readable E x w ->
  computes E (tcg_gen_sari w r x v) r w (fun a => bin_sem Bsar (bits w) (regs a x) (uwrap (bits w) v)).
Proof.
  intros. apply imm_zero_ok; [done..|auto using zero_shift|]. intros E' t Hr Hx Ht _. by apply simple_ok.
Qed.

(** An optional operation. *)
Lemma has_un_ok E u w r x :
  TCG_TARGET_HAS_un has u w = true -> present (op_un u w) = true -> writable E r w -> readable E x w ->
  computes E (tcg_gen_op (op_un u w) [r; x]) r w (fun a => un_sem u (bits w) (regs a x)).
Proof. intros Hh Hp Hr Hx. apply op_un_ok; [done..| |done]. intros Hs. by apply (sv_un _ _ (Hserves Hs)). Qed.

Lemma ones_sub k : 0 <= k -> 2 ^ k - 1 = Z.ones k.
Proof. intros. rewrite Z.ones_equiv. lia. Qed.

(** The mask of an [andi] is unsigned. *)
Lemma tcg_gen_andi_ok E w r x v :
  1 <= credit E w -> writable E r w -> readable E x w -> fits (bits w) v ->
  computes E (tcg_gen_andi has w r x v) r w (fun a => Some (Z.land (regs a x) v)).
Proof.
  intros Hc Hr Hx Hv. pose proof (W_pos w) as Hw. unfold tcg_gen_andi.
  destruct (Z.eqb_spec v 0) as [->|].
  { apply (computes_eq _ _ _ _ _ _ (movi_value E w r 0 Hr)). intros a _. left. by rewrite Z.land_0_r. }
  destruct (Z.eqb_spec v (2 ^ bits w - 1)) as [->|Hones].
  { apply (computes_eq _ _ _ _ _ _ (copied_value E w r x Hr Hx)). intros a Hin. left.
    rewrite ones_sub, Z.land_ones by lia. f_equal. apply uwrap_id. by apply (readable_range E). }
  assert (forall u k c, un_sem u (bits w) = (fun x => Some (uwrap k x)) -> 0 <= k -> c = Z.ones k -> present (op_un u w) = true ->
    v = c -> TCG_TARGET_HAS_un has u w = true ->
    computes E (tcg_gen_op (op_un u w) [r; x]) r w (fun a => Some (Z.land (regs a x) v))) as Hext.
  { intros u k c Hu Hk -> Hp -> Hh. apply (computes_eq _ _ _ _ _ _ (has_un_ok E u w r x Hh Hp Hr Hx)). intros a _. left.
    by rewrite Hu, Z.land_ones by lia. }
  destruct ((v =? 0xff) && _) eqn:E8; [apply andb_true_iff in E8 as [E8%Z.eqb_eq Hh]; by apply (Hext Uext8u 8 0xff)|].
  destruct ((v =? 0xffff) && _) eqn:E16; [apply andb_true_iff in E16 as [E16%Z.eqb_eq Hh]; by apply (Hext Uext16u 16 0xffff)|].
  destruct ((v =? 0xffffffff) && _) eqn:E32.
  { apply andb_true_iff in E32 as [E32%Z.eqb_eq Hh]. destruct w; [by rewrite E32 in Hones|]. by apply (Hext Uext32u 32 0xffffffff). }
  eapply computes_eq; [apply (imm_ok E Band w r x v); [done..|]|].
  - intros E' t Hr' Hx' Ht _. by apply tcg_gen_and_ok.
  - intros a _. left. cbn. by rewrite uwrap_id.
Qed.

Lemma minus_one k : 0 <= k -> uwrap k (-1) = Z.ones k.
Proof. intros. apply Z.bits_inj'. intros i Hi. rewrite uwrap_spec, Z.bits_m1, andb_true_r by lia. rewrite Z.testbit_ones_nonneg by lia. done. Qed.

Lemma land_all k x : fits k x -> 0 <= k -> Z.land x (Z.ones k) = x.
Proof. intros Hx Hk. rewrite Z.land_ones by done. by apply uwrap_id. Qed.
Lemma lor_all k x : fits k x -> 0 <= k -> Z.lor x (Z.ones k) = Z.ones k.
Proof.
  intros Hx Hk. apply Z.bits_inj'. intros i Hi. rewrite Z.lor_spec, Z.testbit_ones_nonneg by lia.
  destruct (Z.ltb_spec i k); [apply orb_true_r|]. by rewrite (fits_testbit k).
Qed.

Lemma tcg_gen_ori_ok E w r x v :
  1 <= credit E w -> writable E r w -> readable E x w ->
  computes E (tcg_gen_ori w r x v) r w (fun a => bin_sem Bor (bits w) (regs a x) (uwrap (bits w) v)).
Proof.
  intros Hc Hr Hx. pose proof (W_pos w) as Hw. unfold tcg_gen_ori. destruct (Z.eqb_spec v (-1)) as [->|].
  - apply (computes_eq _ _ _ _ _ _ (movi_value E w r (-1) Hr)). intros a Hin. left. cbn [bin_sem].
    rewrite minus_one, lor_all by (by apply (readable_range E) || lia). done.
  - apply imm_zero_ok; [done..| |].
    + intros y Hy. cbn. by rewrite Z.lor_0_r.
    + intros E' t Hr' Hx' Ht _. by apply tcg_gen_or_ok.
Qed.

Lemma lnot_lxor k x : fits k x -> 0 <= k -> uwrap k (Z.lnot x) = Z.lxor x (uwrap k (-1)).
Proof.
  intros Hx Hk. rewrite minus_one by done. apply Z.bits_inj'. intros i Hi.
  rewrite uwrap_spec, Z.lnot_spec, Z.lxor_spec, Z.testbit_ones_nonneg by lia. destruct (Z.ltb_spec i k); cbn.
  - by destruct (Z.testbit x i).
  - by rewrite (fits_testbit k).
Qed.

Lemma tcg_gen_xori_ok E w r x v :
  1 <= credit E w -> writable E r w -> readable E x w ->
  computes E (tcg_gen_xori has w r x v) r w (fun a => bin_sem Bxor (bits w) (regs a x) (uwrap (bits w) v)).
Proof.
  intros Hc Hr Hx. pose proof (W_pos w) as Hw. unfold tcg_gen_xori. destruct (Z.eqb_spec v 0) as [->|].
  { apply (computes_eq _ _ _ _ _ _ (copied_value E w r x Hr Hx)). intros a Hin. left. cbn [bin_sem].
    by rewrite (uwrap_id _ 0), Z.lxor_0_r by (apply fits_0; lia). }
  destruct ((v =? -1) && _) eqn:Em.
  - apply andb_true_iff in Em as [->%Z.eqb_eq Hh]. eapply computes_eq; [by apply (has_un_ok E Unot w r x)|].
    intros a Hin. left. cbn [bin_sem un_sem]. by rewrite lnot_lxor by (by apply (readable_range E) || lia).
  - apply imm_ok; [done..|]. intros E' t Hr' Hx' Ht _. by apply tcg_gen_xor_ok.
Qed.

(** ** Sequences *)
Lemma free_ok E t w : owned E t w -> denotes E (tcg_temp_free t) (free_env E t w) (fun a => Fall a).
Proof. intros (k & Ec). by apply (denotes_free host strict tgt T avail most E t w k). Qed.

Lemma add_ok E w r x y : writable E r w -> readable E x w -> readable E y w ->
  computes E (tcg_gen_add w r x y) r w (fun a => Some (uwrap (bits w) (regs a x + regs a y))).
Proof. by apply (simple_ok E Badd). Qed.
Lemma sub_ok E w r x y : writable E r w -> readable E x w -> readable E y w ->
  computes E (tcg_gen_sub w r x y) r w (fun a => Some (uwrap (bits w) (regs a x - regs a y))).
Proof. by apply (simple_ok E Bsub). Qed.
Lemma mul_ok E w r x y : writable E r w -> readable E x w -> readable E y w ->
  computes E (tcg_gen_mul w r x y) r w (fun a => Some (uwrap (bits w) (regs a x * regs a y))).
Proof. by apply (simple_ok E Bmul). Qed.
Lemma and_ok E w r x y : writable E r w -> readable E x w -> readable E y w ->
  computes E (tcg_gen_and w r x y) r w (fun a => Some (Z.land (regs a x) (regs a y))).
Proof. apply tcg_gen_and_ok. Qed.
Lemma or_ok E w r x y : writable E r w -> readable E x w -> readable E y w ->
  computes E (tcg_gen_or w r x y) r w (fun a => Some (Z.lor (regs a x) (regs a y))).
Proof. apply tcg_gen_or_ok. Qed.
Lemma xor_ok E w r x y : writable E r w -> readable E x w -> readable E y w ->
  computes E (tcg_gen_xor w r x y) r w (fun a => Some (Z.lxor (regs a x) (regs a y))).
Proof. apply tcg_gen_xor_ok. Qed.

Definition count_in (w : width) (v : Z) : Prop := 0 <= v < bits w.
Lemma count_id w v : count_in w v -> uwrap (bits w) v = v.
Proof. intros H. unfold count_in in H. apply uwrap_id. pose proof (Z.pow_gt_lin_r 2 (bits w)). split; lia. Qed.

Lemma shl_ok E w r x y : writable E r w -> readable E x w -> readable E y w ->
  computes E (tcg_gen_shl w r x y) r w (fun a => bin_sem Bshl (bits w) (regs a x) (regs a y)).
Proof. by apply (simple_ok E Bshl). Qed.
Lemma shr_ok E w r x y : writable E r w -> readable E x w -> readable E y w ->
  computes E (tcg_gen_shr w r x y) r w (fun a => bin_sem Bshr (bits w) (regs a x) (regs a y)).
Proof. by apply (simple_ok E Bshr). Qed.
Lemma shli_ok E w r x v : 1 <= credit E w -> writable E r w -> readable E x w -> count_in w v ->
  computes E (tcg_gen_shli w r x v) r w (fun a => Some (uwrap (bits w) (Z.shiftl (regs a x) v))).
Proof.
  intros Hc Hr Hx Hv. apply (computes_eq _ _ _ _ _ _ (tcg_gen_shli_ok E w r x v Hc Hr Hx)). intros a _. left.
  cbn -[Z.shiftl]. rewrite (count_id w v) by done. by rewrite (proj2 (Z.ltb_lt _ _)) by apply Hv.
Qed.
Lemma shri_ok E w r x v : 1 <= credit E w -> writable E r w -> readable E x w -> count_in w v ->
  computes E (tcg_gen_shri w r x v) r w (fun a => Some (Z.shiftr (regs a x) v)).
Proof.
  intros Hc Hr Hx Hv. apply (computes_eq _ _ _ _ _ _ (tcg_gen_shri_ok E w r x v Hc Hr Hx)). intros a _. left.
  cbn -[Z.shiftr]. rewrite (count_id w v) by done. by rewrite (proj2 (Z.ltb_lt _ _)) by apply Hv.
Qed.
Lemma sari_ok E w r x v : 1 <= credit E w -> writable E r w -> readable E x w -> count_in w v ->
  computes E (tcg_gen_sari w r x v) r w (fun a => Some (uwrap (bits w) (Z.shiftr (swrap (bits w) (regs a x)) v))).
Proof.
  intros Hc Hr Hx Hv. apply (computes_eq _ _ _ _ _ _ (tcg_gen_sari_ok E w r x v Hc Hr Hx)). intros a _. left.
  cbn -[Z.shiftr]. rewrite (count_id w v) by done. by rewrite (proj2 (Z.ltb_lt _ _)) by apply Hv.
Qed.
End front.

#[export] Hint Resolve denotes_ret free_ok add_ok sub_ok mul_ok and_ok or_ok xor_ok shl_ok shr_ok shli_ok shri_ok sari_ok copied_value movi_value
  tcg_gen_subfi_ok tcg_gen_andi_ok tcg_gen_xori_ok : den.
#[export] Hint Extern 2 (_ <= credit _ _) => solve [room] : gen.
#[export] Hint Extern 2 (count_in ?w _) => solve [unfold count_in; cbn; lia | unfold count_in; destruct w; cbn; lia | unfold count_in in *; lia] : gen.
#[export] Hint Extern 2 (fits (bits ?w) _) => solve [split; cbn; lia | destruct w; split; cbn; lia] : gen.

Ltac leaf := solve [eauto 14 with den gen nocore].
Ltac step := first [eapply denotes_seq; [eapply denotes_stay; [leaf|solve [eauto 10 with gen nocore]]|] | eapply denotes_seq; [leaf|]].
Ltac steps := repeat step; leaf.
(** A sequence within a sequence. *)
Ltac nested_steps := eapply denotes_seq; [steps|]; steps.
Ltac new1 t := apply denotes_new; [room|apply shrinks_put|]; intros t ?.
Ltac new2 t0 t1 :=
  apply denotes_new2; [split; [room|intros ?; split; [room|done]]|apply shrinks_put|];
  let F0 := fresh "F" in let F1 := fresh "F" in intros t0 t1 F0 F1; pose proof (proj1 (fresh_new _ _ _ _ F1)).
(** The values are simplified before the next operation takes them. *)
Ltac chain := repeat first [progress cbv beta | progress regs | rewrite nbind_result | rewrite nbind_fall].
Ltac reduce := repeat (progress (regs; cbn [nbind result bin_sem orb negb andb])).
(** The values at the end. *)
Ltac same_end r :=
  distinct; chain; cbn [result next_refines]; split; [done|];
  let u := fresh "u" in let Hu := fresh "Hu" in intros u Hu; rewrite put_env_eq in Hu;
  match goal with Hu : option_map _ (cells ?E u) <> None |- _ =>
    repeat match goal with H : cells E ?t = None |- _ => lazymatch goal with _ : u <> t |- _ => fail | _ =>
      assert (u <> t) by (intros ->; rewrite H in Hu; by apply Hu) end end end;
  destruct (decide (u = r)) as [->|]; regs; [|done].
End TcgFrontOk.
