(* ===== verification/TcgFrontSeq.v ===== *)
(** The sequences that stand in for operations a host does not have compute what
    the operation would: extensions, byte order, logic, rotations, bit fields,
    conditional moves, quotients, double words. *)
From Stdlib Require Import ZArith Lia Bool.
From stdpp Require Import base numbers list sets.
From S2P Require Import Prelude HostUtils TcgOp TcgOpt TcgRing TcgArith TcgSem TcgBits TcgSound TcgStep TcgProg TcgShape TcgLive TcgReg TcgHost TcgFit TcgKeep TcgTemp TcgFront TcgEmit TcgDenote TcgFrontOk.
Local Open Scope Z_scope.

Module TcgFrontSeq.
Import HostUtils.HostUtils Tcg TcgArith TcgSem TcgBits TcgStep TcgShape TcgReg TcgHost TcgFit TcgKeep TcgTemp TcgFront TcgEmit TcgDenote TcgFrontOk.

(** ** Words *)
Lemma ext_by_shifts k n x :
  0 < n <= k -> uwrap k (swrap n x) = uwrap k (Z.shiftr (swrap k (uwrap k (Z.shiftl x (k - n)))) (k - n)).
Proof.
  intros Hn. apply Z.bits_inj'. intros i Hi. rewrite !uwrap_spec by lia. destruct (Z.ltb_spec i k); [|done]. cbn.
  rewrite swrap_spec, Z.shiftr_spec, swrap_spec, uwrap_spec, Z.shiftl_spec by lia. rewrite (proj2 (Z.ltb_lt _ k)) by lia.
  cbn. f_equal. lia.
Qed.

Lemma back_count w y : 0 < y < bits w -> uwrap (bits w) (uwrap (bits w) (bits w) - y) = bits w - y.
Proof.
  intros Hy. pose proof (Z.pow_gt_lin_r 2 (bits w)).
  rewrite (uwrap_id _ (bits w)) by (split; lia). apply uwrap_id. split; lia.
Qed.

Lemma rot_zero w x : fits (bits w) x -> bin_sem Brotl (bits w) x 0 = Some x.
Proof.
  intros Hx. pose proof (W_pos w). cbn -[Z.shiftl Z.shiftr]. rewrite (proj2 (Z.ltb_lt _ _)), Z.shiftl_0_r, uwrap_id by (done || lia).
  rewrite Z.sub_0_r, (Z.shiftr_div_pow2 _ (bits w)), Z.div_small, Z.lor_0_r by (done || lia). done.
Qed.
Lemma rotr_zero w x : fits (bits w) x -> bin_sem Brotr (bits w) x 0 = Some x.
Proof.
  intros Hx. pose proof (W_pos w). cbn -[Z.shiftl Z.shiftr]. rewrite (proj2 (Z.ltb_lt _ _)), Z.shiftr_0_r by lia.
  rewrite Z.sub_0_r. assert (uwrap (bits w) (Z.shiftl x (bits w)) = 0) as ->; [|by rewrite Z.lor_0_r].
  rewrite Z.shiftl_mul_pow2 by lia. unfold uwrap. apply Z.mod_mul. pose proof (pow2_pos (bits w)). lia.
Qed.

Ltac lors :=
  apply Z.bits_inj; intros ?; rewrite !Z.lor_spec, ?Z.bits_0;
  repeat match goal with |- context [Z.testbit ?a ?b] => destruct (Z.testbit a b) end; reflexivity.

(** A byte moved to another place, as a mask and a shift do it. *)
Lemma byte_left k j x : 0 <= k <= j -> Z.shiftl (Z.land x (Z.shiftl 255 (8 * k))) (8 * (j - k)) = Z.shiftl (byte_of k x) (8 * j).
Proof.
  intros Hk. change 255 with (Z.ones 8). apply Z.bits_inj. intros i. destruct (Z.ltb_spec i 0); [by rewrite !Z.testbit_neg_r|]. unfold byte_of.
  rewrite Z.shiftl_spec, Z.land_spec, (Z.shiftl_spec _ (8 * j)) by lia. destruct (Z.ltb_spec i (8 * j)).
  - rewrite (Z.testbit_neg_r (u8 _)) by lia. destruct (Z.ltb_spec (i - 8 * (j - k)) 0); [by rewrite (Z.testbit_neg_r x)|].
    rewrite Z.shiftl_spec, (Z.testbit_neg_r (Z.ones 8)) by lia. apply andb_false_r.
  - rewrite Z.shiftl_spec, uwrap_spec, Z.shiftr_spec, Z.testbit_ones_nonneg by lia. rewrite andb_comm. f_equal; f_equal; lia.
Qed.

Lemma byte_right k j x : 0 <= j <= k -> Z.land (Z.shiftr x (8 * (k - j))) (Z.shiftl 255 (8 * j)) = Z.shiftl (byte_of k x) (8 * j).
Proof.
  intros Hk. change 255 with (Z.ones 8). apply Z.bits_inj. intros i. destruct (Z.ltb_spec i 0); [by rewrite !Z.testbit_neg_r|]. unfold byte_of.
  rewrite Z.land_spec, Z.shiftr_spec, !Z.shiftl_spec by lia. destruct (Z.ltb_spec i (8 * j)).
  - rewrite (Z.testbit_neg_r (u8 _)) by lia. rewrite (Z.testbit_neg_r (Z.ones 8)) by lia. apply andb_false_r.
  - rewrite uwrap_spec, Z.shiftr_spec, Z.testbit_ones_nonneg by lia. rewrite andb_comm. f_equal; f_equal; lia.
Qed.

Lemma byte_top j x : 0 <= j -> uwrap (8 * (j + 1)) (Z.shiftl x (8 * j)) = Z.shiftl (byte_of 0 x) (8 * j).
Proof.
  intros Hj. unfold byte_of. rewrite Z.mul_0_r, Z.shiftr_0_r. apply Z.bits_inj'. intros i Hi.
  rewrite uwrap_spec, !Z.shiftl_spec by lia. destruct (Z.ltb_spec i (8 * j)).
  - rewrite !Z.testbit_neg_r by lia. apply andb_false_r.
  - rewrite uwrap_spec by lia. f_equal. zbool.
Qed.

Lemma byte_bottom k x : 0 <= k -> fits (8 * (k + 1)) x -> Z.shiftr x (8 * k) = Z.shiftl (byte_of k x) 0.
Proof.
  intros Hk Hx. rewrite Z.shiftl_0_r. unfold byte_of. symmetry. apply uwrap_id. rewrite Z.shiftr_div_pow2 by lia.
  split; [apply Z.div_pos; [apply Hx|apply pow2_pos; lia]|]. apply Z.div_lt_upper_bound; [apply pow2_pos; lia|].
  rewrite <- Z.pow_add_r by lia. replace (8 * k + 8) with (8 * (k + 1)) by lia. apply Hx.
Qed.

Lemma byte_in w k j x : 0 <= j -> 8 * (j + 1) <= w -> uwrap w (Z.shiftl (byte_of k x) (8 * j)) = Z.shiftl (byte_of k x) (8 * j).
Proof.
  intros Hj Hw. apply uwrap_id, (fits_weaken (8 + 8 * j)); [lia|]. apply fits_shiftl; [lia|lia|]. apply uwrap_fits. lia.
Qed.

Lemma bswap16_value k x :
  16 <= k -> fits 16 x -> bswap 2 x = Z.lor (Z.shiftr x 8) (uwrap k (Z.shiftl (u8 x) 8)).
Proof.
  intros Hk Hx. assert (Z.shiftr x 8 = Z.shiftl (byte_of 1 x) 0) as -> by (by apply (byte_bottom 1)). assert (u8 x = byte_of 0 x) as -> by (unfold byte_of; by rewrite Z.shiftr_0_r).
  assert (uwrap k (Z.shiftl (byte_of 0 x) 8) = Z.shiftl (byte_of 0 x) 8) as -> by (apply (byte_in k 0 1); lia).
  change (bswap 2 x) with (Z.lor (Z.lor 0 (Z.shiftl (byte_of 1 x) 0)) (Z.shiftl (byte_of 0 x) 8)).
  lors.
Qed.

Lemma bswap32_value k x :
  32 <= k -> fits 32 x ->
  bswap 4 x = Z.lor (Z.lor (Z.lor (u32 (Z.shiftl x 24)) (uwrap k (Z.shiftl (Z.land x 0xff00) 8)))
                       (Z.land (Z.shiftr x 8) 0xff00)) (Z.shiftr x 24).
Proof.
  intros Hk Hx. assert (uwrap 32 (Z.shiftl x 24) = Z.shiftl (byte_of 0 x) 24) as -> by (by apply (byte_top 3)).
  assert (Z.shiftr x 24 = Z.shiftl (byte_of 3 x) 0) as -> by (by apply (byte_bottom 3)).
  assert (Z.land (Z.shiftr x 8) 0xff00 = Z.shiftl (byte_of 2 x) 8) as -> by by apply (byte_right 2 1).
  assert (Z.shiftl (Z.land x 0xff00) 8 = Z.shiftl (byte_of 1 x) 16) as -> by by apply (byte_left 1 2).
  assert (uwrap k (Z.shiftl (byte_of 1 x) 16) = Z.shiftl (byte_of 1 x) 16) as -> by (apply (byte_in k 1 2); lia).

  change (bswap 4 x) with (Z.lor (Z.lor (Z.lor (Z.lor 0 (Z.shiftl (byte_of 3 x) 0)) (Z.shiftl (byte_of 2 x) 8)) (Z.shiftl (byte_of 1 x) 16)) (Z.shiftl (byte_of 0 x) 24)).
  lors.
Qed.

Lemma bswap64_value x :
  fits 64 x ->
  bswap 8 x = Z.lor (Z.lor (Z.lor (Z.lor (Z.lor (Z.lor (Z.lor (u64 (Z.shiftl x 56))
    (u64 (Z.shiftl (Z.land x 0xff00) 40))) (u64 (Z.shiftl (Z.land x 0xff0000) 24))) (u64 (Z.shiftl (Z.land x 0xff000000) 8)))
    (Z.land (Z.shiftr x 8) 0xff000000)) (Z.land (Z.shiftr x 24) 0xff0000)) (Z.land (Z.shiftr x 40) 0xff00)) (Z.shiftr x 56).
Proof.
  intros Hx. assert (uwrap 64 (Z.shiftl x 56) = Z.shiftl (byte_of 0 x) 56) as -> by (by apply (byte_top 7)).
  assert (Z.shiftr x 56 = Z.shiftl (byte_of 7 x) 0) as -> by (by apply (byte_bottom 7)).
  assert (Z.land (Z.shiftr x 40) 0xff00 = Z.shiftl (byte_of 6 x) 8) as -> by by apply (byte_right 6 1).
  assert (Z.land (Z.shiftr x 24) 0xff0000 = Z.shiftl (byte_of 5 x) 16) as -> by by apply (byte_right 5 2).
  assert (Z.land (Z.shiftr x 8) 0xff000000 = Z.shiftl (byte_of 4 x) 24) as -> by by apply (byte_right 4 3).
  assert (Z.shiftl (Z.land x 0xff000000) 8 = Z.shiftl (byte_of 3 x) 32) as -> by by apply (byte_left 3 4).
  assert (Z.shiftl (Z.land x 0xff0000) 24 = Z.shiftl (byte_of 2 x) 40) as -> by by apply (byte_left 2 5).
  assert (Z.shiftl (Z.land x 0xff00) 40 = Z.shiftl (byte_of 1 x) 48) as -> by by apply (byte_left 1 6).
  assert (forall k j, 0 <= j <= 7 -> u64 (Z.shiftl (byte_of k x) (8 * j)) = Z.shiftl (byte_of k x) (8 * j)) as Hin by (intros; apply byte_in; lia).
  rewrite (Hin 1 6 ltac:(lia) : u64 (Z.shiftl (byte_of 1 x) 48) = Z.shiftl (byte_of 1 x) 48), (Hin 2 5 ltac:(lia) : u64 (Z.shiftl (byte_of 2 x) 40) = Z.shiftl (byte_of 2 x) 40),
    (Hin 3 4 ltac:(lia) : u64 (Z.shiftl (byte_of 3 x) 32) = Z.shiftl (byte_of 3 x) 32).
  change (bswap 8 x) with (Z.lor (Z.lor (Z.lor (Z.lor (Z.lor (Z.lor (Z.lor (Z.lor 0 (Z.shiftl (byte_of 7 x) 0)) (Z.shiftl (byte_of 6 x) 8)) (Z.shiftl (byte_of 5 x) 16))
    (Z.shiftl (byte_of 4 x) 24)) (Z.shiftl (byte_of 3 x) 32)) (Z.shiftl (byte_of 2 x) 40))
    (Z.shiftl (byte_of 1 x) 48)) (Z.shiftl (byte_of 0 x) 56)).
  lors.
Qed.

(** A field of a word replaced. *)
Definition deposit_value (x y ofs len : Z) : Z :=
  let m := Z.shiftl (Z.ones len) ofs in Z.lor (Z.land x (Z.lnot m)) (Z.land (Z.shiftl y ofs) m).

Lemma deposit_all w x y : fits (bits w) x -> fits (bits w) y -> deposit_value x y 0 (bits w) = y.
Proof.
  intros Hx Hy. pose proof (W_pos w). unfold deposit_value. rewrite !Z.shiftl_0_r, land_all by (done || lia).
  assert (Z.land x (Z.lnot (Z.ones (bits w))) = 0) as ->; [|done].
  apply Z.bits_inj'. intros i Hi. rewrite Z.land_spec, Z.lnot_spec, Z.testbit_ones_nonneg, Z.bits_0 by lia.
  destruct (Z.ltb_spec i (bits w)); [apply andb_false_r|]. by rewrite (fits_testbit (bits w)) by (done || lia).
Qed.

Lemma deposit_by_shifts w x y ofs len :
  fits (bits w) x -> 0 <= ofs -> 0 < len -> ofs + len <= bits w ->
  deposit_value x y ofs len =
    Z.lor (Z.land x (uwrap (bits w) (Z.lnot (Z.shiftl (Z.ones len) ofs)))) (uwrap (bits w) (Z.shiftl (Z.land y (Z.ones len)) ofs)).
Proof.
  intros Hx Ho Hl Hs. unfold deposit_value. apply Z.bits_inj'. intros i Hi.
  rewrite !Z.lor_spec, !Z.land_spec, !uwrap_spec, Z.lnot_spec, !Z.shiftl_spec, Z.land_spec by lia.
  destruct (Z.ltb_spec i (bits w)); cbn; [done|]. rewrite (fits_testbit (bits w)), andb_false_l by (done || lia). cbn.
  destruct (Z.ltb_spec (i - ofs) len); [lia|]. rewrite (Z.testbit_ones_nonneg len) by lia. rewrite (proj2 (Z.ltb_ge _ _)) by lia. apply andb_false_r.
Qed.

Lemma deposit_top w y ofs len : 0 <= ofs -> ofs + len = bits w -> 0 < len ->
  uwrap (bits w) (Z.shiftl y ofs) = uwrap (bits w) (Z.shiftl (Z.land y (Z.ones len)) ofs).
Proof.
  intros Ho Hs Hl. apply Z.bits_inj'. intros i Hi. rewrite !uwrap_spec, !Z.shiftl_spec, Z.land_spec by lia.
  destruct (Z.ltb_spec i (bits w)); [|done]. cbn. destruct (Z.ltb_spec (i - ofs) 0); [by rewrite !Z.testbit_neg_r by lia|].
  rewrite (Z.testbit_ones_nonneg len) by lia. by rewrite (proj2 (Z.ltb_lt _ _)), andb_true_r by lia.
Qed.

Lemma field_mask w len : 0 < len -> len <= bits w -> uwrap (bits w) (Z.shiftl 1 len - 1) = Z.ones len.
Proof.
  intros Hl Hs. rewrite Z.shiftl_1_l, ones_sub by lia. apply uwrap_id. rewrite Z.ones_equiv.
  pose proof (pow2_pos len). assert (2 ^ len <= 2 ^ bits w) by (apply Z.pow_le_mono_r; lia). unfold fits. lia.
Qed.

Section seq.
Context {W : Type} (host : Host W) (strict : bool) (tgt : Target) (T : Z -> TCGTemp) (avail : TCGOpcode -> Prop) (most : Z).
Context (has : TargetHas) (address : runtime_helper -> Z).
Notation denotes := (denotes host strict tgt T avail most).
Notation takes := (takes avail).
Notation computes E g r w f := (denotes E g (put_env E r) (fun a => result w a r (f a))).
Hypothesis (Hserves : strict = true -> serves has takes).

(** ** Extensions *)
Lemma tcg_gen_ext8s_ok E w r x :
  1 <= credit E w -> writable E r w -> readable E x w ->
  computes E (tcg_gen_ext8s has w r x) r w (fun a => un_sem Uext8s (bits w) (regs a x)).
Proof.
  intros Hc Hr Hx. unfold tcg_gen_ext8s. destruct (TCG_TARGET_HAS_un _ _ _) eqn:Hh; [by eapply has_un_ok|].
  eapply denotes_weaken; [steps|apply weaker_refl|env_end|]. intros a Hin. same_end r. apply ext_by_shifts. destruct w; cbn; lia.
Qed.

Lemma tcg_gen_ext16s_ok E w r x :
  1 <= credit E w -> writable E r w -> readable E x w ->
  computes E (tcg_gen_ext16s has w r x) r w (fun a => un_sem Uext16s (bits w) (regs a x)).
Proof.
  intros Hc Hr Hx. unfold tcg_gen_ext16s. destruct (TCG_TARGET_HAS_un _ _ _) eqn:Hh; [by eapply has_un_ok|].
  eapply denotes_weaken; [steps|apply weaker_refl|env_end|]. intros a Hin. same_end r. apply ext_by_shifts. destruct w; cbn; lia.
Qed.

Lemma tcg_gen_ext8u_ok E w r x :
  1 <= credit E w -> writable E r w -> readable E x w ->
  computes E (tcg_gen_ext8u has w r x) r w (fun a => Some (u8 (regs a x))).
Proof.
  intros Hc Hr Hx. unfold tcg_gen_ext8u. destruct (TCG_TARGET_HAS_un _ _ _) eqn:Hh; [by apply (has_un_ok host strict tgt T avail most has Hserves E Uext8u)|].
  eapply denotes_weaken; [leaf|apply weaker_refl..|]. intros a Hin. same_end r. by rewrite (Z.land_ones _ 8).
Qed.

Lemma tcg_gen_ext16u_ok E w r x :
  1 <= credit E w -> writable E r w -> readable E x w ->
  computes E (tcg_gen_ext16u has w r x) r w (fun a => Some (u16 (regs a x))).
Proof.
  intros Hc Hr Hx. unfold tcg_gen_ext16u. destruct (TCG_TARGET_HAS_un _ _ _) eqn:Hh; [by apply (has_un_ok host strict tgt T avail most has Hserves E Uext16u)|].
  eapply denotes_weaken; [leaf|apply weaker_refl..|]. intros a Hin. same_end r. by rewrite (Z.land_ones _ 16).
Qed.

Lemma tcg_gen_ext32s_i64_ok E r x :
  1 <= credit E W64 -> writable E r W64 -> readable E x W64 ->
  computes E (tcg_gen_ext32s_i64 has r x) r W64 (fun a => Some (u64 (s32 (regs a x)))).
Proof.
  intros Hc Hr Hx. unfold tcg_gen_ext32s_i64. destruct (TCG_TARGET_HAS_un _ _ _) eqn:Hh; [by apply (has_un_ok host strict tgt T avail most has Hserves E Uext32s)|].
  eapply denotes_weaken; [steps|apply weaker_refl|env_end|]. intros a Hin. same_end r. by apply (ext_by_shifts 64).
Qed.

Lemma tcg_gen_ext32u_i64_ok E r x :
  1 <= credit E W64 -> writable E r W64 -> readable E x W64 ->
  computes E (tcg_gen_ext32u_i64 has r x) r W64 (fun a => Some (u32 (regs a x))).
Proof.
  intros Hc Hr Hx. unfold tcg_gen_ext32u_i64. destruct (TCG_TARGET_HAS_un _ _ _) eqn:Hh; [by apply (has_un_ok host strict tgt T avail most has Hserves E Uext32u)|].
  eapply denotes_weaken; [leaf|apply weaker_refl..|]. intros a Hin. same_end r. by rewrite (Z.land_ones _ 32).
Qed.

Lemma tcg_gen_trunc_i64_i32_ok E r x :
  writable E r W32 -> readable E x W64 -> computes E (tcg_gen_trunc_i64_i32 r x) r W32 (fun a => Some (u32 (regs a x))).
Proof. intros Hr Hx. eapply tcg_gen_mov_ok; [done..|by right]. Qed.

(** ** Logic *)
Lemma tcg_gen_neg_ok E w r x :
  1 <= credit E w -> writable E r w -> readable E x w ->
  computes E (tcg_gen_neg has w r x) r w (fun a => Some (uwrap (bits w) (- regs a x))).
Proof.
  intros Hc Hr Hx. unfold tcg_gen_neg. destruct (TCG_TARGET_HAS_un _ _ _) eqn:Hh; [by apply (has_un_ok host strict tgt T avail most has Hserves E Uneg)|].
  eapply computes_eq; [eapply tcg_gen_subfi_ok; eauto|]. intros a _. by left.
Qed.

Lemma tcg_gen_not_ok E w r x :
  1 <= credit E w -> writable E r w -> readable E x w ->
  computes E (tcg_gen_not has w r x) r w (fun a => Some (uwrap (bits w) (Z.lnot (regs a x)))).
Proof.
  intros Hc Hr Hx. unfold tcg_gen_not. destruct (TCG_TARGET_HAS_un _ _ _) eqn:Hh; [by apply (has_un_ok host strict tgt T avail most has Hserves E Unot)|].
  eapply denotes_weaken; [leaf|apply weaker_refl..|]. intros a Hin. pose proof (W_pos w). cbn [bin_sem]. same_end r.
  rewrite lnot_lxor; [done|by apply (readable_range E)|lia].
Qed.
#[local] Hint Resolve tcg_gen_ext8u_ok tcg_gen_ext32u_i64_ok tcg_gen_trunc_i64_i32_ok tcg_gen_neg_ok tcg_gen_not_ok : den.

Lemma has_bin_ok E b w r x y :
  TCG_TARGET_HAS_bin has b w = true -> b <> Bor -> writable E r w -> readable E x w -> readable E y w ->
  computes E (tcg_gen_op (op_bin b w) [r; x; y]) r w (fun a => bin_sem b (bits w) (regs a x) (regs a y)).
Proof. intros Hh Hb Hr Hx Hy. apply op_bin_ok; [done..| |done]. intros Hs. by apply (sv_bin _ _ (Hserves Hs)). Qed.

Lemma tcg_gen_andc_ok E w r x y :
  2 <= credit E w -> writable E r w -> readable E x w -> readable E y w ->
  computes E (tcg_gen_andc has w r x y) r w (fun a => bin_sem Bandc (bits w) (regs a x) (regs a y)).
Proof.
  intros Hc Hr Hx Hy. unfold tcg_gen_andc. destruct (TCG_TARGET_HAS_bin _ _ _) eqn:Hh; [by apply has_bin_ok|].
  new1 t0. eexists _, _. split; [steps|split; [env_end|]]. intros a v Hin _. same_end r. done.
Qed.

Lemma tcg_gen_orc_ok E w r x y :
  2 <= credit E w -> writable E r w -> readable E x w -> readable E y w ->
  computes E (tcg_gen_orc has w r x y) r w (fun a => bin_sem Borc (bits w) (regs a x) (regs a y)).
Proof.
  intros Hc Hr Hx Hy. unfold tcg_gen_orc. destruct (TCG_TARGET_HAS_bin _ _ _) eqn:Hh; [by apply has_bin_ok|].
  new1 t0. eexists _, _. split; [steps|split; [env_end|]]. intros a v Hin _. same_end r. done.
Qed.

Lemma tcg_gen_eqv_ok E w r x y :
  1 <= credit E w -> writable E r w -> readable E x w -> readable E y w ->
  computes E (tcg_gen_eqv has w r x y) r w (fun a => bin_sem Beqv (bits w) (regs a x) (regs a y)).
Proof.
  intros Hc Hr Hx Hy. unfold tcg_gen_eqv. destruct (TCG_TARGET_HAS_bin _ _ _) eqn:Hh; [by apply has_bin_ok|].
  eapply denotes_weaken; [steps|apply weaker_refl|env_end|]. intros a Hin. same_end r. done.
Qed.

Lemma tcg_gen_nand_ok E w r x y :
  1 <= credit E w -> writable E r w -> readable E x w -> readable E y w ->
  computes E (tcg_gen_nand has w r x y) r w (fun a => bin_sem Bnand (bits w) (regs a x) (regs a y)).
Proof.
  intros Hc Hr Hx Hy. unfold tcg_gen_nand. destruct (TCG_TARGET_HAS_bin _ _ _) eqn:Hh; [by apply has_bin_ok|].
  eapply denotes_weaken; [steps|apply weaker_refl|env_end|]. intros a Hin. same_end r. done.
Qed.

Lemma tcg_gen_nor_ok E w r x y :
  1 <= credit E w -> writable E r w -> readable E x w -> readable E y w ->
  computes E (tcg_gen_nor has w r x y) r w (fun a => bin_sem Bnor (bits w) (regs a x) (regs a y)).
Proof.
  intros Hc Hr Hx Hy. unfold tcg_gen_nor. destruct (TCG_TARGET_HAS_bin _ _ _) eqn:Hh; [by apply has_bin_ok|].
  eapply denotes_weaken; [steps|apply weaker_refl|env_end|]. intros a Hin. same_end r. done.
Qed.

(** ** Rotations

    Without a rotation of the host a count of zero shifts by the width. *)
Lemma tcg_gen_rotl_ok E w r x y :
  3 <= credit E w -> writable E r w -> readable E x w -> readable E y w ->
  computes E (tcg_gen_rotl has w r x y) r w (fun a =>
    if TCG_TARGET_HAS_rot has w || negb (regs a y =? 0) then bin_sem Brotl (bits w) (regs a x) (regs a y) else None).
Proof.
  intros Hc Hr Hx Hy. unfold tcg_gen_rotl. destruct (TCG_TARGET_HAS_rot has w) eqn:Hh; cbn [orb].
  { apply op_bin_ok; [done..| |done]. intros Hs. by apply (sv_rot _ _ (Hserves Hs)). }
  new2 t0 t1. eexists _, _. split; [steps|split; [env_end|]].
  intros a v0 v1 Hin V0 V1. pose proof (readable_range _ _ _ _ Hin Hx) as Rx. pose proof (readable_range _ _ _ _ Hin Hy) as Ry.
  distinct. cbn [bin_sem]. destruct (Z.eqb_spec (regs a y) 0) as [|Hz]; [done|]. destruct (Z.ltb_spec (regs a y) (bits w)) as [Hlt|]; [|done].
  reduce. rewrite (proj2 (Z.ltb_lt (regs a y) _)) by done. reduce.
  rewrite back_count by (split; [unfold fits in Ry; lia|done]). rewrite (proj2 (Z.ltb_lt (_ - _) _)) by (unfold fits in Ry; lia).
  same_end r. done.
Qed.

Lemma tcg_gen_rotr_ok E w r x y :
  3 <= credit E w -> writable E r w -> readable E x w -> readable E y w ->
  computes E (tcg_gen_rotr has w r x y) r w (fun a =>
    if TCG_TARGET_HAS_rot has w || negb (regs a y =? 0) then bin_sem Brotr (bits w) (regs a x) (regs a y) else None).
Proof.
  intros Hc Hr Hx Hy. unfold tcg_gen_rotr. destruct (TCG_TARGET_HAS_rot has w) eqn:Hh; cbn [orb].
  { apply op_bin_ok; [done..| |done]. intros Hs. by apply (sv_rot _ _ (Hserves Hs)). }
  new2 t0 t1. eexists _, _. split; [steps|split; [env_end|]].
  intros a v0 v1 Hin V0 V1. pose proof (readable_range _ _ _ _ Hin Hx) as Rx. pose proof (readable_range _ _ _ _ Hin Hy) as Ry.
  distinct. cbn [bin_sem]. destruct (Z.eqb_spec (regs a y) 0) as [|Hz]; [done|]. destruct (Z.ltb_spec (regs a y) (bits w)) as [Hlt|]; [|done].
  reduce. rewrite (proj2 (Z.ltb_lt (regs a y) _)) by done. reduce.
  rewrite back_count by (split; [unfold fits in Ry; lia|done]). rewrite (proj2 (Z.ltb_lt (_ - _) _)) by (unfold fits in Ry; lia).
  same_end r. done.
Qed.

Lemma tcg_gen_rotli_ok E w r x v :
  3 <= credit E w -> writable E r w -> readable E x w -> count_in w v ->
  computes E (tcg_gen_rotli has w r x v) r w (fun a => bin_sem Brotl (bits w) (regs a x) v).
Proof.
  intros Hc Hr Hx Hv. unfold tcg_gen_rotli. assert (0 <= v < bits w) as Hv' by apply Hv. destruct (Z.eqb_spec v 0) as [->|Hz].
  { eapply denotes_weaken; [leaf|apply weaker_refl..|]. intros a Hin. rewrite rot_zero by (by apply (readable_range E)). same_end r. done. }
  destruct (TCG_TARGET_HAS_rot has w) eqn:Hh.
  - eapply computes_eq; [apply (imm_ok host strict tgt T avail most has Hserves E Brotl w r x v); [lia|done..|]|].
    + intros E' t Hr' Hx' Ht _. unfold tcg_gen_rotl. rewrite Hh. apply op_bin_ok; [done..| |done].
      intros Hs. by apply (sv_rot _ _ (Hserves Hs)).
    + intros a _. left. by rewrite (count_id w v).
  - new2 t0 t1. assert (count_in w (bits w - v)) by (unfold count_in; lia).
    eexists _, _. split; [steps|split; [env_end|]]. intros a v0 v1 Hin _ _.
    cbn [bin_sem]. rewrite (proj2 (Z.ltb_lt v _)) by lia. same_end r. done.
Qed.

Lemma tcg_gen_rotri_ok E w r x v :
  3 <= credit E w -> writable E r w -> readable E x w -> count_in w v ->
  computes E (tcg_gen_rotri has w r x v) r w (fun a => bin_sem Brotr (bits w) (regs a x) v).
Proof.
  intros Hc Hr Hx Hv. unfold tcg_gen_rotri. assert (0 <= v < bits w) as Hv' by apply Hv. destruct (Z.eqb_spec v 0) as [->|Hz].
  { eapply denotes_weaken; [leaf|apply weaker_refl..|]. intros a Hin. rewrite rotr_zero by (by apply (readable_range E)). same_end r. done. }
  eapply computes_eq; [apply tcg_gen_rotli_ok; [done..|unfold count_in; lia]|]. intros a _. left. cbn -[Z.shiftl Z.shiftr].
  rewrite !(proj2 (Z.ltb_lt _ _)) by lia. rewrite Z.lor_comm. do 2 f_equal. f_equal. lia.
Qed.

(** ** Byte order *)
Lemma tcg_gen_bswap16_ok E w r x :
  2 <= credit E w -> writable E r w -> readable E x w ->
  computes E (tcg_gen_bswap16 has w r x) r w (fun a => un_sem Ubswap16 (bits w) (regs a x)).
Proof.
  intros Hc Hr Hx. unfold tcg_gen_bswap16. destruct (TCG_TARGET_HAS_un _ _ _) eqn:Hh; [by apply (has_un_ok host strict tgt T avail most has Hserves E Ubswap16)|].
  new1 t0. eexists _, _. split; [steps|split; [env_end|]]. intros a v Hin _.
  unfold un_sem. destruct (Z.ltb_spec (regs a x) (2 ^ 16)) as [Hlt|]; [|done]. pose proof (readable_range _ _ _ _ Hin Hx) as Rx.
  same_end r. apply bswap16_value; [destruct w; cbn; lia|split; [apply Rx|done]].
Qed.

Lemma tcg_gen_bswap32_ok E w r x :
  3 <= credit E w -> writable E r w -> readable E x w ->
  computes E (tcg_gen_bswap32 has w r x) r w (fun a => un_sem Ubswap32 (bits w) (regs a x)).
Proof.
  intros Hc Hr Hx. unfold tcg_gen_bswap32. destruct (TCG_TARGET_HAS_un _ _ _) eqn:Hh; [by apply (has_un_ok host strict tgt T avail most has Hserves E Ubswap32)|].
  new2 t0 t1. destruct w; cbn [when is64].
  all: eexists _, _; split; [steps|split; [env_end|]]; intros a v v1 Hin _ _;
    unfold un_sem; destruct (Z.ltb_spec (regs a x) (2 ^ 32)) as [Hlt|]; [|done]; pose proof (readable_range _ _ _ _ Hin Hx) as Rx;
    assert (fits 32 (regs a x)) by (split; [apply Rx|done]); same_end r.
  - by apply bswap32_value.
  - change (bits W64) with 64. rewrite (uwrap_min 32 64) by lia. by apply bswap32_value.
Qed.

Lemma tcg_gen_bswap64_i64_ok E r x :
  3 <= credit E W64 -> writable E r W64 -> readable E x W64 ->
  computes E (tcg_gen_bswap64_i64 has r x) r W64 (fun a => un_sem Ubswap64 64 (regs a x)).
Proof.
  intros Hc Hr Hx. unfold tcg_gen_bswap64_i64. destruct (TCG_TARGET_HAS_un _ _ _) eqn:Hh; [by apply (has_un_ok host strict tgt T avail most has Hserves E Ubswap64)|].
  new2 t0 t1. eexists _, _. split; [steps|split; [env_end|]]. intros a v v1 Hin _ _.
  unfold un_sem. pose proof (readable_range _ _ _ _ Hin Hx) as Rx. same_end r. by apply bswap64_value.
Qed.

(** ** Bit fields, halves *)
Lemma tcg_gen_deposit_ok E w r x y ofs len :
  2 <= credit E w -> writable E r w -> readable E x w -> readable E y w ->
  0 <= ofs -> 0 < len -> ofs + len <= bits w ->
  computes E (tcg_gen_deposit has w r x y ofs len) r w (fun a => Some (deposit_value (regs a x) (regs a y) ofs len)).
Proof.
  intros Hc Hr Hx Hy Ho Hl Hs. unfold tcg_gen_deposit.
  rewrite !(proj2 (Z.leb_le _ _)), (proj2 (Z.ltb_lt ofs _)) by lia. cbn [andb assert_]. do 3 apply denotes_skip.
  destruct ((ofs =? 0) && _) eqn:Eall.
  { apply andb_true_iff in Eall as [->%Z.eqb_eq ->%Z.eqb_eq]. eapply denotes_weaken; [leaf|apply weaker_refl..|]. intros a Hin.
    same_end r. apply deposit_all; by apply (readable_range E). }
  destruct (TCG_TARGET_HAS_deposit has w && _) eqn:Edep.
  { apply andb_true_iff in Edep as [Hh _]. eapply computes_eq; [apply op_deposit_ok; [|done..|]|].
    - apply andb_false_iff in Eall as [E0%Z.eqb_neq|E0%Z.eqb_neq]; destruct w; cbn in *; lia.
    - intros Hst. by apply (sv_deposit _ _ (Hserves Hst)).
    - intros a Hin. left. unfold deposit_sem. 
      rewrite !(proj2 (Z.leb_le _ _)), (proj2 (Z.ltb_lt 0 _)) by lia. done. }
  rewrite field_mask by lia. set (mask := Z.ones len). 
  assert (fits (bits w) mask) as Hm by (unfold mask; rewrite <- (field_mask w) by lia; apply uwrap_fits; lia).
  assert (fits (bits w) (uwrap (bits w) (Z.lnot (Z.shiftl mask ofs)))) as Hm2 by (apply uwrap_fits; lia).
  assert (count_in w ofs) by (unfold count_in; lia).
  new1 t1. destruct (Z.ltb_spec (ofs + len) (bits w)).
  all: eexists _, _; split; [first [steps|nested_steps]|split; [env_end|]]; intros a v Hin _; same_end r;
    rewrite (deposit_by_shifts w) by (done || by apply (readable_range E)); try done.
  by rewrite (deposit_top w (regs a y) ofs len) by lia.
Qed.
End seq.
#[export] Hint Resolve tcg_gen_ext8u_ok tcg_gen_ext32u_i64_ok tcg_gen_trunc_i64_i32_ok tcg_gen_neg_ok tcg_gen_not_ok tcg_gen_andc_ok
  tcg_gen_deposit_ok : den.
End TcgFrontSeq.
