(* ===== verification/TcgFrontWide.v ===== *)
(** Comparisons, conditional moves, quotients and double words of the generators
    (tcg/tcg-op.h), with the host's division and the helpers of tcg-runtime.c. *)
From Stdlib Require Import ZArith Lia Bool.
From stdpp Require Import base numbers list sets.
From S2P Require Import Prelude HostUtils TcgOp TcgOpt TcgRing TcgArith TcgSem TcgBits TcgSound TcgStep TcgProg TcgShape TcgLive TcgReg TcgHost TcgFit TcgKeep TcgTemp TcgFront TcgEmit TcgDenote TcgFrontOk TcgFrontSeq.
Local Open Scope Z_scope.

Module TcgFrontWide.
Import HostUtils.HostUtils Tcg TcgArith TcgSem TcgBits TcgStep TcgShape TcgReg TcgHost TcgFit TcgKeep TcgTemp TcgFront TcgEmit TcgDenote TcgFrontOk TcgFrontSeq.

(** ** Conditions *)
Definition cond_value (c w x y : Z) : option bool :=
  if c =? TCG_COND_ALWAYS then Some true else if c =? TCG_COND_NEVER then Some false else cond_sem c w x y.
Definition cond_ok (c : Z) : Prop := c = TCG_COND_ALWAYS \/ c = TCG_COND_NEVER \/ c ∈ tcg_conds.

Lemma cond_value_sem c w x y : c ∈ tcg_conds -> cond_value c w x y = cond_sem c w x y.
Proof.
  intros Hc. unfold cond_value. assert (c <> TCG_COND_ALWAYS /\ c <> TCG_COND_NEVER) as [H1 H2].
  { split; intros ->; by vm_compute in Hc; repeat (apply elem_of_cons in Hc as [Hc|Hc]; [done|]); apply elem_of_nil in Hc. }
  by rewrite !(proj2 (Z.eqb_neq _ _)).
Qed.

(** ** The host's division and the functions of tcg-runtime.c

    [div2] and [divu2] take a double word, low half first, and a divisor; the
    generators pass the sign extension, or zero, as the high half. *)
Definition sign_word (w : width) (x : Z) : Z := uwrap (bits w) (Z.shiftr (swrap (bits w) x) (bits w - 1)).

Record runtime_host {W : Type} (host : Host W) (address : runtime_helper -> Z) : Prop := {
  rh_div2 : forall w x y wo q r, bin_sem Bdiv (bits w) x y = Some q -> bin_sem Brem (bits w) x y = Some r ->
    h_op host (op_div2 w) [] [x; sign_word w x; y] wo = OContinue [q; r] wo;
  rh_divu2 : forall w x y wo q r, bin_sem Bdivu (bits w) x y = Some q -> bin_sem Bremu (bits w) x y = Some r ->
    h_op host (op_divu2 w) [] [x; 0; y] wo = OContinue [q; r] wo;
  rh_call : forall f x y v wo, runtime f x y = Some v ->
    h_call host helper_flags [x; y; u64 (address f)] [] wo = CReturn [v] [] wo;
}.

Lemma quot_rem w x y q : bin_sem Bdiv (bits w) x y = Some q ->
  exists r, bin_sem Brem (bits w) x y = Some r /\ r = uwrap (bits w) (x - q * y).
Proof.
  cbn [bin_sem]. destruct (_ || _) eqn:E; [done|]. intros [= <-]. eexists. split; [done|].
  apply orb_false_iff in E as [Hy%Z.eqb_neq _]. pose proof (W_pos w).
  pose proof (Z.quot_rem (swrap (bits w) x) (swrap (bits w) y) Hy) as Hqr.
  rewrite <- (uwrap_sub _ x), <- (uwrap_mul _ _ y), uwrap_idem by lia.
  rewrite <- (uwrap_swrap _ x), <- (uwrap_swrap _ y), uwrap_mul, uwrap_sub by lia. f_equal. lia.
Qed.

Lemma rem_quot w x y r : bin_sem Brem (bits w) x y = Some r -> exists q, bin_sem Bdiv (bits w) x y = Some q.
Proof. cbn [bin_sem]. destruct (_ || _); [done|]. intros _. by eexists. Qed.

Lemma quot_rem_u w x y q : fits (bits w) x -> fits (bits w) y -> bin_sem Bdivu (bits w) x y = Some q ->
  exists r, bin_sem Bremu (bits w) x y = Some r /\ r = uwrap (bits w) (x - q * y).
Proof.
  intros Hx Hy. cbn [bin_sem]. destruct (Z.eqb_spec y 0) as [|Hy0]; [done|]. intros [= <-]. eexists. split; [done|].
  unfold fits in *. symmetry. rewrite Z.mul_comm. replace (x - y * (x / y)) with (x mod y) by (rewrite Z.mod_eq by lia; lia).
  apply uwrap_id. pose proof (Z.mod_pos_bound x y). split; lia.
Qed.

Lemma rem_quot_u w x y r : bin_sem Bremu (bits w) x y = Some r -> exists q, bin_sem Bdivu (bits w) x y = Some q.
Proof. cbn [bin_sem]. destruct (_ =? _); [done|]. intros _. by eexists. Qed.

(** ** Double words *)
Lemma add_carry w al ah bl bh :
  fits (bits w) al -> fits (bits w) bl ->
  uwrap (bits w) (pair_of w al ah + pair_of w bl bh) = uwrap (bits w) (al + bl) /\
  uwrap (bits w) ((pair_of w al ah + pair_of w bl bh) / 2 ^ bits w) =
    uwrap (bits w) (uwrap (bits w) (ah + bh) + cbool (uwrap (bits w) (al + bl) <? al)).
Proof.
  intros Ha Hb. pose proof (W_pos w). unfold pair_of. pose proof (pow2_pos (bits w)) as Hp.
  replace (ah * 2 ^ bits w + al + (bh * 2 ^ bits w + bl)) with ((ah + bh) * 2 ^ bits w + (al + bl)) by lia.
  unfold fits in *. unfold uwrap. split.
  - rewrite Z.add_comm. apply Z_mod_plus_full.
  - rewrite Z.div_add_l, Zplus_mod_idemp_l by lia. do 2 f_equal. destruct (Z.lt_ge_cases (al + bl) (2 ^ bits w)).
    + rewrite Z.mod_small, Z.div_small by lia. by rewrite (proj2 (Z.ltb_ge _ _)) by lia.
    + rewrite <- (Z.mod_unique (al + bl) (2 ^ bits w) 1 (al + bl - 2 ^ bits w)) by lia.
      rewrite <- (Z.div_unique (al + bl) (2 ^ bits w) 1 (al + bl - 2 ^ bits w)) by lia.
      by rewrite (proj2 (Z.ltb_lt _ _)) by lia.
Qed.

Lemma sub_borrow w al ah bl bh :
  fits (bits w) al -> fits (bits w) bl ->
  uwrap (bits w) (pair_of w al ah - pair_of w bl bh) = uwrap (bits w) (al - bl) /\
  uwrap (bits w) ((pair_of w al ah - pair_of w bl bh) / 2 ^ bits w) =
    uwrap (bits w) (uwrap (bits w) (ah - bh) - cbool (al <? bl)).
Proof.
  intros Ha Hb. pose proof (W_pos w). unfold pair_of. pose proof (pow2_pos (bits w)) as Hp.
  replace (ah * 2 ^ bits w + al - (bh * 2 ^ bits w + bl)) with ((ah - bh) * 2 ^ bits w + (al - bl)) by lia.
  unfold fits in *. unfold uwrap. split.
  - rewrite Z.add_comm. apply Z_mod_plus_full.
  - rewrite Z.div_add_l, Zminus_mod_idemp_l by lia. rewrite <- Z.add_opp_r. do 2 f_equal. destruct (Z.ltb_spec al bl); cbn [cbool].
    + rewrite <- (Z.div_unique (al - bl) (2 ^ bits w) (-1) (al - bl + 2 ^ bits w)) by lia. done.
    + rewrite Z.div_small by lia. done.
Qed.

Lemma mul_high w x y : fits (bits w) x -> fits (bits w) y -> uwrap (bits w) (x * y / 2 ^ bits w) = x * y / 2 ^ bits w.
Proof.
  intros Hx Hy. pose proof (W_pos w). pose proof (pow2_pos (bits w)). unfold fits in *. apply uwrap_id.
  split; [apply Z.div_pos; nia|apply Z.div_lt_upper_bound; nia].
Qed.

Lemma mul_low_signed w x y : uwrap (bits w) (swrap (bits w) x * swrap (bits w) y) = uwrap (bits w) (x * y).
Proof. pose proof (W_pos w). rewrite <- uwrap_mul, !uwrap_swrap, uwrap_mul by lia. done. Qed.

Lemma shrinks_pair E rl rh : shrinks E (put_env (put_env E rh) rl).
Proof. apply (shrinks_trans _ (put_env E rh)); apply shrinks_put. Qed.

(** The states agree on the cells of [E]. *)
Ltac pair_end rl rh :=
  distinct; chain; cbn [result next_refines put_pair]; unfold put_pair; split; [done|];
  let u := fresh "u" in let Hu := fresh "Hu" in intros u Hu; rewrite !put_env_eq in Hu;
  match goal with Hu : option_map _ (option_map _ (cells ?E u)) <> None |- _ =>
    repeat match goal with H : cells E ?t = None |- _ => lazymatch goal with _ : u <> t |- _ => fail | _ =>
      assert (u <> t) by (intros ->; rewrite H in Hu; by apply Hu) end end end;
  destruct (decide (u = rl)) as [->|]; [|destruct (decide (u = rh)) as [->|]]; regs; try done.

Ltac new_pair t0 t1 :=
  apply denotes_new2; [split; [room|intros ?; split; [room|done]]|apply shrinks_pair|];
  let F0 := fresh "F" in let F1 := fresh "F" in intros t0 t1 F0 F1; pose proof (proj1 (fresh_new _ _ _ _ F1));
  assert (cond_ok TCG_COND_LTU) by (right; right; by repeat constructor).
Ltac new1_pair t := apply denotes_new; [room|apply shrinks_pair|]; intros t ?.

Section wide.
Context {W : Type} (host : Host W) (strict : bool) (tgt : Target) (T : Z -> TCGTemp) (avail : TCGOpcode -> Prop) (most : Z).
Context (has : TargetHas) (address : runtime_helper -> Z).
Notation denotes := (denotes host strict tgt T avail most).
Notation takes := (takes avail).
Notation computes E g r w f := (denotes E g (put_env E r) (fun a => result w a r (f a))).
Hypothesis (Hserves : strict = true -> serves has takes).

Lemma tcg_gen_setcond_ok E w c r x y :
  writable E r w -> readable E x w -> readable E y w -> cond_ok c ->
  computes E (tcg_gen_setcond w c r x y) r w (fun a => option_map cbool (cond_value c (bits w) (regs a x) (regs a y))).
Proof.
  intros Hr Hx Hy Hc. pose proof (W_pos w). unfold tcg_gen_setcond, cond_value.
  assert (forall b : bool, uwrap (bits w) (cbool b) = cbool b) as Hb by (intros b; apply uwrap_id, cbool_fits; lia).
  destruct (Z.eqb_spec c TCG_COND_ALWAYS) as [|H1].
  { eapply denotes_weaken; [apply (movi_value host strict tgt T avail most has Hserves E w r 1 Hr)|apply weaker_refl..|].
    intros a _. same_end r. exact (eq_sym (Hb true)). }
  destruct (Z.eqb_spec c TCG_COND_NEVER) as [|H2].
  { eapply denotes_weaken; [apply (movi_value host strict tgt T avail most has Hserves E w r 0 Hr)|apply weaker_refl..|].
    intros a _. same_end r. exact (eq_sym (Hb false)). }
  destruct Hc as [?|[?|Hc]]; [done..|]. by apply (op_setcond_ok host strict tgt T avail most has Hserves).
Qed.
#[local] Hint Resolve tcg_gen_setcond_ok : den.

Lemma tcg_gen_setcondi_ok E w c r x v :
  1 <= credit E w -> writable E r w -> readable E x w -> cond_ok c ->
  computes E (tcg_gen_setcondi w c r x v) r w (fun a => option_map cbool (cond_value c (bits w) (regs a x) (uwrap (bits w) v))).
Proof.
  intros Hc Hr Hx Hco.
  assert (computes E (t0 <- tcg_const w v ;; tcg_gen_setcond w c r x t0 ;;; tcg_temp_free t0)%prog r w
    (fun a => option_map cbool (cond_value c (bits w) (regs a x) (uwrap (bits w) v)))) as Hcmp.
  { apply (denotes_imm host strict tgt T avail most has Hserves E w v w r _ (fun y a => option_map cbool (cond_value c (bits w) (regs a x) y))); [done..| |].
    - intros t Ht Hne. apply tcg_gen_setcond_ok; auto 8 with gen.
    - intros y a a' H. by rewrite (same_regs E a a' x w Hx H). }
  unfold tcg_gen_setcondi. destruct w; [|done].
  assert (forall b : bool, uwrap 32 (cbool b) = cbool b) as Hb by (intros b; apply uwrap_id, cbool_fits; lia).
  destruct (Z.eqb_spec c TCG_COND_ALWAYS) as [->|H1].
  { eapply denotes_weaken; [apply (movi_value host strict tgt T avail most has Hserves E W32 r 1 Hr)|apply weaker_refl..|].
    intros a _. unfold cond_value. rewrite Z.eqb_refl. cbn [option_map]. same_end r. done. }
  destruct (Z.eqb_spec c TCG_COND_NEVER) as [->|H2]; [|done].
  eapply denotes_weaken; [apply (movi_value host strict tgt T avail most has Hserves E W32 r 0 Hr)|apply weaker_refl..|].
  intros a _. unfold cond_value. rewrite Z.eqb_refl, (proj2 (Z.eqb_neq _ _)) by done. cbn [option_map]. same_end r. done.
Qed.

Lemma uwrap_lnot_0 k : 0 <= k -> uwrap k (Z.lnot 0) = Z.ones k.
Proof. apply minus_one. Qed.
Lemma uwrap_lnot_ones k : 0 <= k -> uwrap k (Z.lnot (Z.ones k)) = 0.
Proof.
  intros Hk. apply Z.bits_inj'. intros i Hi. rewrite uwrap_spec, Z.lnot_spec, Z.testbit_ones_nonneg, Z.bits_0 by lia.
  by destruct (Z.ltb_spec i k).
Qed.

Lemma tcg_gen_movcond_ok E w c r x y u v :
  4 <= credit E w -> writable E r w -> readable E x w -> readable E y w -> readable E u w -> readable E v w -> c ∈ tcg_conds ->
  computes E (tcg_gen_movcond has w c r x y u v) r w
    (fun a => option_map (fun b : bool => if b then regs a u else regs a v) (cond_sem c (bits w) (regs a x) (regs a y))).
Proof.
  intros Hcr Hr Hx Hy Hu Hv Hc. unfold tcg_gen_movcond. destruct (TCG_TARGET_HAS_movcond has w) eqn:Hh.
  { apply op_movcond_ok; [done..|]. intros Hst. by apply (sv_movcond _ _ (Hserves Hst)). }
  assert (cond_ok c) as Hco by (by right; right). pose proof (W_pos w).
  new2 t0 t1. eexists _, _. split; [steps|split; [env_end|]]. intros a v0 v1 Hin _ _.
  destruct (cond_sem_total c (bits w) (regs a x) (regs a y) Hc) as (b & Eb). rewrite Eb. cbn [option_map].
  distinct. chain. rewrite cond_value_sem, Eb by done. cbn [option_map]. chain. cbn [bin_sem]. 
  assert (fits (bits w) (regs a u) /\ fits (bits w) (regs a v)) as [Fu Fv] by (split; by apply (readable_range E)).
  same_end r. destruct b; cbn [cbool].
  - rewrite minus_one, uwrap_lnot_ones, land_all, Z.land_0_r by (done || lia). done.
  - rewrite (uwrap_id _ (- 0)), uwrap_lnot_0, land_all, Z.land_0_r, Z.lor_0_r by (done || lia || (apply fits_0; lia)). done.
Qed.

(** ** Quotients and remainders *)
Hypothesis (Hrt : runtime_host host address).
Hypothesis (Hcall : strict = true -> forall r x y fn, fit_call tgt (helper_args r x y fn) = true).

Lemma helper_ok E f w r x y :
  1 <= credit E W64 -> writable E r w -> readable E x w -> readable E y w ->
  (forall (a : mstate W) v, in_range E a -> runtime f (regs a x) (regs a y) = Some v -> fits (bits w) v) ->
  computes E (tcg_gen_helper address f r x y) r w (fun a => runtime f (regs a x) (regs a y)).
Proof.
  intros Hc Hr Hx Hy Hv. unfold tcg_gen_helper. eapply denotes_const; [exact Hserves|done|apply shrinks_put|]. intros t Ht.
  eexists _, _. split; [|split].
  - eapply denotes_seq.
    + eapply (denotes_call host strict tgt T avail most _ r x y t w w w); [env_fact..|].
      intros Hst. split; [by apply (sv_core _ _ (Hserves Hst))|by apply Hcall].
    + leaf.
  - env_end.
  - intros a v0 Hin. distinct. destruct (runtime f (regs a x) (regs a y)) as [v|] eqn:Ev; [|done].
    unfold call_den. regs. rewrite (rh_call _ _ Hrt f _ _ v) by done. cbn [nbind nth]. rewrite (uwrap_id (bits w) v) by by apply (Hv a).
    same_end r. done.
Qed.

Lemma runtime_div w x y : runtime (tcg_helper_div w) x y = bin_sem Bdiv (bits w) x y /\ runtime (tcg_helper_rem w) x y = bin_sem Brem (bits w) x y /\
  runtime (tcg_helper_divu w) x y = bin_sem Bdivu (bits w) x y /\ runtime (tcg_helper_remu w) x y = bin_sem Bremu (bits w) x y.
Proof. done. Qed.

(** The quotient and the remainder of a double word. *)
Lemma op_div2_ok E op q rm lo hi d :
  (exists w, (op = op_div2 w \/ op = op_divu2 w) /\ writable E q w /\ writable E rm w /\ readable E lo w /\ readable E hi w /\ readable E d w) ->
  (strict = true -> takes op) -> q <> rm ->
  denotes E (tcg_gen_op op [q; rm; lo; hi; d]) (put_env (put_env E rm) q) (opaque_den host op [q; rm] [lo; hi; d] []).
Proof.
  intros (w & Hop & Hq & Hrm & Hlo & Hhi & Hd) Ht Hne.
  assert (opaque op = true /\ bb_end (mkOp op []) = false /\ oargs op = 2%nat /\ iargs op = 3%nat /\ load_type op = w /\
    out_type op = None /\ in_type op = None /\ op <> op_call /\ cargs_ok op [q; rm; lo; hi; d] /\ nb_cargs (tcg_op_defs op) = 0%nat)
    as (H1 & H2 & H3 & H4 & H5 & H6 & H7 & H8 & H9 & H10) by (by destruct Hop as [-> | ->]).
  apply (denotes_opaque host strict tgt T avail most E op [q; rm] [lo; hi; d] []); try done.
  - rewrite H5. by repeat constructor.
  - repeat constructor; by exists w.
  - intros Hst. split; try done; auto.
    + rewrite H6. repeat constructor; by exists w.
    + rewrite H7. repeat constructor; by exists w.
    + apply NoDup_cons. split; [by intros ?%list_elem_of_singleton|apply NoDup_singleton].
    + intros w' ->. by destruct Hop.
    + intros u ->. by destruct Hop.
Qed.

Lemma sari_sign_ok E w r x :
  1 <= credit E w -> writable E r w -> readable E x w ->
  computes E (tcg_gen_sari w r x (bits w - 1)) r w (fun a => Some (sign_word w (regs a x))).
Proof. intros. apply (sari_ok host strict tgt T avail most has Hserves); [done..|]. unfold count_in. pose proof (W_pos w). lia. Qed.

Lemma has_div_ok E b w r x y :
  (strict = true -> takes (op_bin b w)) -> b <> Bor -> writable E r w -> readable E x w -> readable E y w ->
  computes E (tcg_gen_op (op_bin b w) [r; x; y]) r w (fun a => bin_sem b (bits w) (regs a x) (regs a y)).
Proof. intros Ht Hb Hr Hx Hy. by apply op_bin_ok. Qed.

(** The quotient or the remainder of a double word whose high half [prep] makes. *)
Definition division (op : TCGOpcode) (h : Z -> Z) (fq fr : Z -> Z -> option Z) (w : width) : Prop := forall x y, fits (bits w) x -> fits (bits w) y ->
  (fq x y = None /\ fr x y = None) \/
  exists q r, fq x y = Some q /\ fr x y = Some r /\ fits (bits w) q /\ fits (bits w) r /\
    forall wo, h_op host op [] [x; h x; y] wo = OContinue [q; r] wo.

Lemma by_double_ok E op w r x y prep h fq fr (first : bool) :
  1 <= credit E w -> writable E r w -> readable E x w -> readable E y w ->
  op = op_div2 w \/ op = op_divu2 w -> (strict = true -> takes op) -> division op h fq fr w ->
  (forall t, cells E t = None -> computes (new_env E t w) (prep t) t w (fun a => Some (h (regs a x)))) ->
  computes E (t0 <- tcg_temp_new w ;; prep t0 ;;; tcg_gen_op op (if first then [r; t0; x; t0; y] else [t0; r; x; t0; y]) ;;; tcg_temp_free t0)%prog
    r w (fun a => (if first then fq else fr) (regs a x) (regs a y)).
Proof.
  intros Hc Hr Hx Hy Hop Ht Hdiv Hprep. pose proof (W_pos w). assert (forall raw, loaded op [] raw = uwrap (bits w) raw) as Hl by (by destruct Hop as [-> | ->]).
  new1 t0. assert (r <> t0 /\ t0 <> r) as [Hne Hne'] by (pose proof (writable_ne E r t0 w); split; [auto|intros ->; by eapply (writable_ne E r r w)]).
  destruct first; (eexists _, _; split; [|split]).
  all: lazymatch goal with
  | |- denotes _ _ _ _ => 
    eapply denotes_seq; [by apply Hprep|]; eapply denotes_seq; [apply op_div2_ok; [exists w; split; [done|]; split_and!; env_fact|done|done]|];
    apply free_ok; env_fact
  | |- weaker _ _ => env_end
  | |- _ => intros a v Hin Hv; pose proof (readable_range _ _ _ _ Hin Hx) as Rx; pose proof (readable_range _ _ _ _ Hin Hy) as Ry;
    distinct; destruct (Hdiv _ _ Rx Ry) as [[Eq Er]|(vq & vr & Eq & Er & Fq & Fr & Ho)]; rewrite ?Eq, ?Er; [done|];
    chain; unfold opaque_den; cbn [map]; regs; rewrite Ho; cbn [length take map puts]; rewrite !Hl, !uwrap_id by done; by same_end r
  end.
Qed.

Lemma signed_division w : division (op_div2 w) (sign_word w) (bin_sem Bdiv (bits w)) (bin_sem Brem (bits w)) w.
Proof.
  intros x y Hx Hy. destruct (bin_sem Bdiv (bits w) x y) as [q|] eqn:Eq.
  - destruct (quot_rem w _ _ _ Eq) as (r & Er & _). right. exists q, r. split; [done|]. split; [done|].
    split; [by apply (bin_sem_fits Bdiv w x y)|]. split; [by apply (bin_sem_fits Brem w x y)|]. intros wo. by apply (rh_div2 _ _ Hrt).
  - left. split; [done|]. destruct (bin_sem Brem _ _ _) eqn:Er; [|done]. destruct (rem_quot _ _ _ _ Er). congruence.
Qed.

Lemma unsigned_division w : division (op_divu2 w) (fun _ => 0) (bin_sem Bdivu (bits w)) (bin_sem Bremu (bits w)) w.
Proof.
  intros x y Hx Hy. destruct (bin_sem Bdivu (bits w) x y) as [q|] eqn:Eq.
  - destruct (quot_rem_u w _ _ _ Hx Hy Eq) as (r & Er & _). right. exists q, r. split; [done|]. split; [done|].
    split; [by apply (bin_sem_fits Bdivu w x y)|]. split; [by apply (bin_sem_fits Bremu w x y)|]. intros wo. by apply (rh_divu2 _ _ Hrt).
  - left. split; [done|]. destruct (bin_sem Bremu _ _ _) eqn:Er; [|done]. destruct (rem_quot_u _ _ _ _ Er). congruence.
Qed.

(** A remainder by way of the quotient. *)
Lemma by_quotient_ok E b w r x y (f : Z -> Z -> option Z) :
  1 <= credit E w -> writable E r w -> readable E x w -> readable E y w ->
  (strict = true -> takes (op_bin b w)) -> b <> Bor ->
  (forall vx vy, fits (bits w) vx -> fits (bits w) vy -> f vx vy = None \/
    exists q, bin_sem b (bits w) vx vy = Some q /\ f vx vy = Some (uwrap (bits w) (vx - q * vy))) ->
  computes E (t0 <- tcg_temp_new w ;; tcg_gen_op (op_bin b w) [t0; x; y] ;;; tcg_gen_mul w t0 t0 y ;;; tcg_gen_sub w r x t0 ;;; tcg_temp_free t0)%prog
    r w (fun a => f (regs a x) (regs a y)).
Proof.
  intros Hc Hr Hx Hy Ht Hb Hf. pose proof (W_pos w). new1 t0. eexists _, _. split; [|split].
  - eapply denotes_seq; [apply op_bin_ok; [env_fact..|done|done]|]. steps.
  - env_end.
  - intros a v Hin Hv. pose proof (readable_range _ _ _ _ Hin Hx) as Rx. pose proof (readable_range _ _ _ _ Hin Hy) as Ry.
    destruct (Hf _ _ Rx Ry) as [-> |(q & Eq & ->)]; [done|]. distinct. chain. rewrite Eq. chain. same_end r.
    rewrite <- (uwrap_sub _ (regs a x) (uwrap _ (q * regs a y))), uwrap_idem, uwrap_sub by lia. done.
Qed.

Ltac by_helper b w x y :=
  apply helper_ok; [done..|]; intros a v Hin Hv; apply (bin_sem_fits b w (regs a x) (regs a y) v); [by eapply readable_range..|done].

Lemma tcg_gen_div_ok E w r x y :
  2 <= credit E w -> 1 <= credit E W64 -> writable E r w -> readable E x w -> readable E y w ->
  computes E (tcg_gen_div has address w r x y) r w (fun a => bin_sem Bdiv (bits w) (regs a x) (regs a y)).
Proof.
  intros Hc Hc' Hr Hx Hy. unfold tcg_gen_div. destruct (TCG_TARGET_HAS_div has w) eqn:Hh.
  { apply has_div_ok; [|done..]. intros Hst. by apply (sv_div _ _ (Hserves Hst)). }
  destruct (TCG_TARGET_HAS_div2 has w) eqn:Hh2; [|by_helper Bdiv w x y].
  apply (by_double_ok E (op_div2 w) w r x y (fun t => tcg_gen_sari w t x (bits w - 1)) (sign_word w) (bin_sem Bdiv (bits w)) (bin_sem Brem (bits w)) true); [lia|done..|by left| |apply signed_division|].
  - intros Hst. by apply (sv_div2 _ _ (Hserves Hst)).
  - intros t Ht. apply sari_sign_ok; [room|env_fact..].
Qed.

Lemma tcg_gen_rem_ok E w r x y :
  2 <= credit E w -> 1 <= credit E W64 -> writable E r w -> readable E x w -> readable E y w ->
  computes E (tcg_gen_rem has address w r x y) r w (fun a => bin_sem Brem (bits w) (regs a x) (regs a y)).
Proof.
  intros Hc Hc' Hr Hx Hy. unfold tcg_gen_rem. destruct (TCG_TARGET_HAS_rem has w) eqn:Hh.
  { apply has_div_ok; [|done..]. intros Hst. by apply (sv_rem _ _ (Hserves Hst)). }
  destruct (TCG_TARGET_HAS_div has w) eqn:Hh1.
  { apply (by_quotient_ok E Bdiv w r x y (bin_sem Brem (bits w))); [lia|done..| |done|].
    - intros Hst. by apply (sv_div _ _ (Hserves Hst)).
    - intros vx vy _ _. destruct (bin_sem Brem _ _ _) eqn:Er; [|by left]. destruct (rem_quot _ _ _ _ Er) as (q & Eq).
      destruct (quot_rem _ _ _ _ Eq) as (r' & Er' & ->). right. exists q. split; [done|]. congruence. }
  destruct (TCG_TARGET_HAS_div2 has w) eqn:Hh2; [|by_helper Brem w x y].
  apply (by_double_ok E (op_div2 w) w r x y (fun t => tcg_gen_sari w t x (bits w - 1)) (sign_word w) (bin_sem Bdiv (bits w)) (bin_sem Brem (bits w)) false); [lia|done..|by left| |apply signed_division|].
  - intros Hst. by apply (sv_div2 _ _ (Hserves Hst)).
  - intros t Ht. apply sari_sign_ok; [room|env_fact..].
Qed.

Lemma movi_zero_ok E w r x : writable E r w -> computes E (tcg_gen_movi w r 0) r w (fun a => Some ((fun _ => 0) (regs a x))).
Proof. intros Hr. eapply denotes_weaken; [apply (movi_value host strict tgt T avail most has Hserves E w r 0 Hr)|apply weaker_refl..|]. done. Qed.

Lemma tcg_gen_divu_ok E w r x y :
  2 <= credit E w -> 1 <= credit E W64 -> writable E r w -> readable E x w -> readable E y w ->
  computes E (tcg_gen_divu has address w r x y) r w (fun a => bin_sem Bdivu (bits w) (regs a x) (regs a y)).
Proof.
  intros Hc Hc' Hr Hx Hy. unfold tcg_gen_divu. destruct (TCG_TARGET_HAS_div has w) eqn:Hh.
  { apply has_div_ok; [|done..]. intros Hst. by apply (sv_div _ _ (Hserves Hst)). }
  destruct (TCG_TARGET_HAS_div2 has w) eqn:Hh2; [|by_helper Bdivu w x y].
  apply (by_double_ok E (op_divu2 w) w r x y (fun t => tcg_gen_movi w t 0) (fun _ => 0) (bin_sem Bdivu (bits w)) (bin_sem Bremu (bits w)) true); [lia|done..|by right| |apply unsigned_division|].
  - intros Hst. by apply (sv_div2 _ _ (Hserves Hst)).
  - intros t Ht. apply (movi_zero_ok _ w t x). env_fact.
Qed.

Lemma tcg_gen_remu_ok E w r x y :
  2 <= credit E w -> 1 <= credit E W64 -> writable E r w -> readable E x w -> readable E y w ->
  computes E (tcg_gen_remu has address w r x y) r w (fun a => bin_sem Bremu (bits w) (regs a x) (regs a y)).
Proof.
  intros Hc Hc' Hr Hx Hy. unfold tcg_gen_remu. destruct (TCG_TARGET_HAS_rem has w) eqn:Hh.
  { apply has_div_ok; [|done..]. intros Hst. by apply (sv_rem _ _ (Hserves Hst)). }
  destruct (TCG_TARGET_HAS_div has w) eqn:Hh1.
  { apply (by_quotient_ok E Bdivu w r x y (bin_sem Bremu (bits w))); [lia|done..| |done|].
    - intros Hst. by apply (sv_div _ _ (Hserves Hst)).
    - intros vx vy Fx Fy. destruct (bin_sem Bremu _ _ _) eqn:Er; [|by left]. destruct (rem_quot_u _ _ _ _ Er) as (q & Eq).
      destruct (quot_rem_u _ _ _ _ Fx Fy Eq) as (r' & Er' & ->). right. exists q. split; [done|]. congruence. }
  destruct (TCG_TARGET_HAS_div2 has w) eqn:Hh2; [|by_helper Bremu w x y].
  apply (by_double_ok E (op_divu2 w) w r x y (fun t => tcg_gen_movi w t 0) (fun _ => 0) (bin_sem Bdivu (bits w)) (bin_sem Bremu (bits w)) false); [lia|done..|by right| |apply unsigned_division|].
  - intros Hst. by apply (sv_div2 _ _ (Hserves Hst)).
  - intros t Ht. apply (movi_zero_ok _ w t x). env_fact.
Qed.

Definition double_ok (E : env) (g : gen unit) (op : TCGOpcode) (w : width) (rl rh : Z) (ins : list Z) : Prop :=
  denotes E g (put_env (put_env E rh) rl) (fun a => Fall (put_pair w rl rh (pair_value op (map (regs a) ins)) a)).

Lemma has_double_ok E op rl rh ins w :
  double_type op = Some w -> length ins = iargs op ->
  writable E rl w -> writable E rh w -> Forall (fun t => readable E t w) ins -> rl <> rh -> (strict = true -> takes op) ->
  double_ok E (tcg_gen_op_nop op (rl :: rh :: ins)) op w rl rh ins.
Proof.
  intros Hop Hl Hrl Hrh Hin Hne Ht. apply denotes_double; [done..|]. intros Hst. split; [done|]. split; [by apply Ht|].
  by apply (sv_core _ _ (Hserves Hst)).
Qed.

Lemma tcg_gen_add2_i64_ok E rl rh al ah bl bh :
  2 <= credit E W64 -> writable E rl W64 -> writable E rh W64 -> rl <> rh ->
  readable E al W64 -> readable E ah W64 -> readable E bl W64 -> readable E bh W64 ->
  double_ok E (tcg_gen_add2_i64 has rl rh al ah bl bh) (op_add2 W64) W64 rl rh [al; ah; bl; bh].
Proof.
  intros Hc Hl Hh Hne Hal Hah Hbl Hbh. unfold tcg_gen_add2_i64. destruct (TCG_TARGET_HAS_add2 has W64) eqn:Hhas.
  { apply has_double_ok; try done; [by repeat constructor|]. intros Hst. by apply (sv_add2 _ _ (Hserves Hst)). }
  new_pair t0 t1. eexists _, _. split; [steps|split; [env_end|]]. intros a v0 v1 Hin _ _.
  pose proof (readable_range _ _ _ _ Hin Hal) as Ra. pose proof (readable_range _ _ _ _ Hin Hbl) as Rb.
  destruct (add_carry W64 (regs a al) (regs a ah) (regs a bl) (regs a bh) Ra Rb) as [Elow Ehigh].
  distinct. chain. change (cond_value TCG_COND_LTU (bits W64) ?x ?y) with (Some (x <? y)). cbn [option_map].
  pair_end rl rh; cbn [pair_value map arg nth]; by rewrite ?Elow, ?Ehigh.
Qed.

Lemma tcg_gen_sub2_i64_ok E rl rh al ah bl bh :
  2 <= credit E W64 -> writable E rl W64 -> writable E rh W64 -> rl <> rh ->
  readable E al W64 -> readable E ah W64 -> readable E bl W64 -> readable E bh W64 ->
  double_ok E (tcg_gen_sub2_i64 has rl rh al ah bl bh) (op_sub2 W64) W64 rl rh [al; ah; bl; bh].
Proof.
  intros Hc Hl Hh Hne Hal Hah Hbl Hbh. unfold tcg_gen_sub2_i64. destruct (TCG_TARGET_HAS_sub2 has W64) eqn:Hhas.
  { apply has_double_ok; try done; [by repeat constructor|]. intros Hst. by apply (sv_sub2 _ _ (Hserves Hst)). }
  new_pair t0 t1. eexists _, _. split; [steps|split; [env_end|]]. intros a v0 v1 Hin _ _.
  pose proof (readable_range _ _ _ _ Hin Hal) as Ra. pose proof (readable_range _ _ _ _ Hin Hbl) as Rb.
  destruct (sub_borrow W64 (regs a al) (regs a ah) (regs a bl) (regs a bh) Ra Rb) as [Elow Ehigh].
  distinct. chain. change (cond_value TCG_COND_LTU (bits W64) ?x ?y) with (Some (x <? y)). cbn [option_map].
  pair_end rl rh; cbn [pair_value map arg nth]; by rewrite ?Elow, ?Ehigh.
Qed.

(** A product by its halves. *)
Lemma has_high_ok E b w rl rh x y op :
  1 <= credit E w -> writable E rl w -> writable E rh w -> rl <> rh -> readable E x w -> readable E y w ->
  (strict = true -> takes (op_bin b w)) -> (b = Bmuluh /\ op = op_mulu2 w) \/ (b = Bmulsh /\ op = op_muls2 w) ->
  double_ok E (t <- tcg_temp_new w ;; tcg_gen_op (op_bin Bmul w) [t; x; y] ;;; tcg_gen_op (op_bin b w) [rh; x; y] ;;; tcg_gen_mov w rl t ;;; tcg_temp_free t)%prog
    op w rl rh [x; y].
Proof.
  intros Hc Hl Hh Hne Hx Hy Ht Hb. pose proof (W_pos w). new1_pair t. eexists _, _. split; [|split].
  - eapply denotes_seq; [apply (simple_ok host strict tgt T avail most has Hserves _ Bmul); [done|env_fact..]|].
    eapply denotes_seq; [apply op_bin_ok; [env_fact..|done|by destruct Hb as [[-> _]|[-> _]]]|]. steps.
  - env_end.
  - intros a v Hin _. pose proof (readable_range _ _ _ _ Hin Hx) as Rx. pose proof (readable_range _ _ _ _ Hin Hy) as Ry.
    destruct Hb as [[-> ->]|[-> ->]]; cbn [bin_sem pair_value map arg nth]; pair_end rl rh.
    + by apply mul_high.
    + apply mul_low_signed.
Qed.

Lemma runtime_high f b x y v :
  (f = tcg_helper_muluh_i64 /\ b = Bmuluh) \/ (f = tcg_helper_mulsh_i64 /\ b = Bmulsh) -> fits 64 x -> fits 64 y ->
  runtime f x y = Some v -> bin_sem b 64 x y = Some v /\ fits 64 v.
Proof.
  intros Hf Hx Hy. destruct Hf as [[-> ->]|[-> ->]]; intros Hv;
    [assert (v = snd (mulu64 x y)) as -> by (unfold runtime in Hv; congruence)
    |assert (v = snd (muls64 (s64 x) (s64 y))) as -> by (unfold runtime in Hv; congruence)].
  - unfold mulu64. rewrite mul64_div by done. cbn [snd]. split; [done|]. rewrite <- (mul_high W64) by done. apply uwrap_fits. done.
  - rewrite muls64_div by (apply (swrap_range 64); lia). cbn [snd]. split; [done|]. apply uwrap_fits. lia.
Qed.

Lemma by_high_helper_ok E f b rl rh x y op :
  2 <= credit E W64 -> writable E rl W64 -> writable E rh W64 -> rl <> rh -> readable E x W64 -> readable E y W64 ->
  (f = tcg_helper_muluh_i64 /\ b = Bmuluh) \/ (f = tcg_helper_mulsh_i64 /\ b = Bmulsh) ->
  (b = Bmuluh /\ op = op_mulu2 W64) \/ (b = Bmulsh /\ op = op_muls2 W64) ->
  double_ok E (t0 <- tcg_temp_new W64 ;; tcg_gen_mul W64 t0 x y ;;; tcg_gen_helper address f rh x y ;;; tcg_gen_mov W64 rl t0 ;;; tcg_temp_free t0)%prog
    op W64 rl rh [x; y].
Proof.
  intros Hc Hl Hh Hne Hx Hy Hf Hb. new1_pair t0. eexists _, _. split; [|split].
  - eapply denotes_seq; [leaf|]. eapply denotes_seq; [apply (helper_ok _ f W64 rh x y); [room|env_fact..|]|steps].
    intros a v Hin Hv. eapply (runtime_high f b); [done|..|exact Hv]; eapply (readable_range _ a _ W64 Hin); env_fact.
  - env_end.
  - intros a v Hin _. pose proof (readable_range _ _ _ _ Hin Hx) as Rx. pose proof (readable_range _ _ _ _ Hin Hy) as Ry.
    distinct. chain. destruct (runtime f (regs a x) (regs a y)) as [r|] eqn:Er; [|by destruct Hf as [[-> _]|[-> _]]].
    apply (runtime_high f b) in Er as [Er _]; [|done..]. 
    destruct Hb as [[-> ->]|[-> ->]]; cbn [bin_sem pair_value map arg nth] in Er |- *; injection Er as <-; pair_end rl rh.
    + by apply (mul_high W64).
    + apply (mul_low_signed W64).
Qed.

Lemma tcg_gen_mulu2_i64_ok E rl rh x y :
  2 <= credit E W64 -> writable E rl W64 -> writable E rh W64 -> rl <> rh -> readable E x W64 -> readable E y W64 ->
  double_ok E (tcg_gen_mulu2_i64 has address rl rh x y) (op_mulu2 W64) W64 rl rh [x; y].
Proof.
  intros Hc Hl Hh Hne Hx Hy. unfold tcg_gen_mulu2_i64. destruct (TCG_TARGET_HAS_mulu2 has W64) eqn:Hhas.
  { apply has_double_ok; try done; [by repeat constructor|]. intros Hst. by apply (sv_mulu2 _ _ (Hserves Hst)). }
  destruct (TCG_TARGET_HAS_bin has Bmuluh W64) eqn:Hhas2.
  - apply has_high_ok; try done; [lia|..|by left]. intros Hst. by apply (sv_bin _ _ (Hserves Hst)).
  - apply (by_high_helper_ok E _ Bmuluh); try done; by left.
Qed.

Lemma tcg_gen_muls2_i64_ok E rl rh x y :
  2 <= credit E W64 -> writable E rl W64 -> writable E rh W64 -> rl <> rh -> readable E x W64 -> readable E y W64 ->
  double_ok E (tcg_gen_muls2_i64 has address rl rh x y) (op_muls2 W64) W64 rl rh [x; y].
Proof.
  intros Hc Hl Hh Hne Hx Hy. unfold tcg_gen_muls2_i64. destruct (TCG_TARGET_HAS_muls2 has W64) eqn:Hhas.
  { apply has_double_ok; try done; [by repeat constructor|]. intros Hst. by apply (sv_muls2 _ _ (Hserves Hst)). }
  destruct (TCG_TARGET_HAS_bin has Bmulsh W64) eqn:Hhas2.
  - apply has_high_ok; try done; [lia|..|by right]. intros Hst. by apply (sv_bin _ _ (Hserves Hst)).
  - apply (by_high_helper_ok E _ Bmulsh); try done; by right.
Qed.
End wide.
#[export] Hint Resolve tcg_gen_setcond_ok : den.
End TcgFrontWide.
