(* ===== verification/TcgFrontMixed.v ===== *)
(** Generators that take words of both widths, and those with effects: halves and
    concatenations, 32-bit double words by way of 64-bit ones, host and guest
    memory, branches and the ends of blocks. *)
From Stdlib Require Import ZArith Lia Bool.
From stdpp Require Import base numbers list sets.
From S2P Require Import Prelude HostUtils TcgOp TcgOpt TcgRing TcgArith TcgSem TcgBits TcgSound TcgStep TcgProg TcgShape TcgLive TcgReg TcgHost TcgFit TcgKeep TcgTemp TcgFront TcgEmit TcgDenote TcgFrontOk TcgFrontSeq TcgFrontWide.
Local Open Scope Z_scope.

Module TcgFrontMixed.
Import HostUtils.HostUtils Tcg TcgArith TcgSem TcgBits TcgStep TcgShape TcgReg TcgHost TcgFit TcgKeep TcgTemp TcgFront TcgEmit TcgDenote TcgFrontOk TcgFrontSeq TcgFrontWide.

Section mixed.
Context {W : Type} (host : Host W) (strict : bool) (tgt : Target) (T : Z -> TCGTemp) (avail : TCGOpcode -> Prop) (most : Z).
Context (has : TargetHas) (address : runtime_helper -> Z).
Notation denotes := (denotes host strict tgt T avail most).
Notation takes := (takes avail).
Notation computes E g r w f := (denotes E g (put_env E r) (fun a => result w a r (f a))).
Notation double_ok := (double_ok host strict tgt T avail most).
Hypothesis (Hserves : strict = true -> serves has takes).

(** ** Halves of a 64-bit word *)
Lemma deposit_high x y : fits 32 x -> deposit_value x y 32 32 = Z.lor x (Z.shiftl (u32 y) 32).
Proof.
  intros Hx. unfold deposit_value. apply Z.bits_inj'. intros i Hi.
  rewrite !Z.lor_spec, !Z.land_spec, Z.lnot_spec, !Z.shiftl_spec by lia.
  destruct (Z.ltb_spec i 32).
  - rewrite (Z.testbit_neg_r (Z.ones 32)), (Z.testbit_neg_r y), (Z.testbit_neg_r (u32 y)) by lia. cbn. by rewrite andb_true_r.
  - rewrite (fits_testbit 32 x), uwrap_spec, Z.testbit_ones_nonneg by (done || lia). cbn. by rewrite andb_comm.
Qed.

Lemma tcg_gen_concat32_i64_ok E r lo hi :
  2 <= credit E W64 -> writable E r W64 -> readable E lo W64 -> readable E hi W64 ->
  computes E (tcg_gen_concat32_i64 has r lo hi) r W64 (fun a => Some (deposit_value (regs a lo) (regs a hi) 32 32)).
Proof. intros. by apply tcg_gen_deposit_ok. Qed.

Lemma tcg_gen_extr_i64_i32_ok E lo hi x :
  2 <= credit E W64 -> writable E lo W32 -> writable E hi W32 -> lo <> hi -> readable E x W64 ->
  denotes E (tcg_gen_extr_i64_i32 lo hi x) (put_env (put_env E hi) lo) (fun a => Fall (put_pair W32 lo hi (regs a x) a)).
Proof.
  intros Hc Hl Hh Hne Hx. unfold tcg_gen_extr_i64_i32. assert (x <> lo) as Hxl.
  { intros ->. destruct Hx as (c & Ec & Hw & _), Hl as (c' & Ec' & Hw' & _). congruence. }
  apply denotes_new; [room|apply shrinks_pair|]. intros t0 Ht. eexists _, _. split; [steps|split; [env_end|]].
  intros a v Hin _. pair_end lo hi. change (bits W32) with 32. by rewrite Z.shiftr_div_pow2.
Qed.

(** [lo] is written first. *)
Lemma tcg_gen_extr32_i64_ok E lo hi x :
  1 <= credit E W64 -> writable E lo W64 -> writable E hi W64 -> lo <> hi -> lo <> x -> readable E x W64 ->
  denotes E (tcg_gen_extr32_i64 has lo hi x) (put_env (put_env E hi) lo)
    (fun a => Fall (put (put a lo (u32 (regs a x))) hi (Z.shiftr (regs a x) 32))).
Proof.
  intros Hc Hl Hh Hne Hx' Hx. unfold tcg_gen_extr32_i64. eapply denotes_weaken; [steps|apply weaker_refl|env_end|].
  intros a Hin. pair_end lo hi.
Qed.

(** *** Widening

    The operations that widen read a 32-bit temporary as a 64-bit one, which the
    checks of the later passes do not take. *)
Section widening.
Hypothesis (Hloose : strict = false).

Lemma widening_op_ok E u r x f :
  (u = Uext32u \/ u = Uext32s) -> writable E r W64 -> readable E x W32 ->
  (forall v, un_sem u 64 (u64 v) = Some (f (u32 v))) ->
  computes E (tcg_gen_op (op_un u W64) [r; x]) r W64 (fun a => Some (f (regs a x))).
Proof.
  intros Hu Hr Hx Hf. apply (denotes_pure host strict tgt T avail most E (op_un u W64) r [x] [] W64); try done; try (by destruct Hu as [-> | ->]).
  - intros Hst. by rewrite Hst in Hloose.
  - intros a m Ham. cbn [pure_value app arg nth]. rewrite <- (shows_opnd E a m x W32 Ham Hx). unfold opnd. rewrite <- Hf. done.
  - intros a v Hin [= <-]. pose proof (readable_range E a x W32 Hin Hx) as Rx. specialize (Hf (regs a x)).
    rewrite (uwrap_id 32) in Hf by done. apply (un_sem_fits u W64 (u64 (regs a x))); [by apply uwrap_fits|by destruct Hu as [-> | ->]|done].
Qed.

(** The other operand is a constant. *)
Lemma narrow_op_ok E b r x t c f :
  writable E r W64 -> readable E x W32 -> readable E t W64 ->
  (forall v, bin_sem b 64 (u64 v) c = Some (f (u32 v))) ->
  computes E (tcg_gen_op (op_bin b W64) [r; x; t]) r W64 (fun a => if regs a t =? c then Some (f (regs a x)) else None).
Proof.
  intros Hr Hx Ht Hf. destruct (arity_bin b W64) as (E1 & E2 & E3 & E4 & E5).
  apply (denotes_partial host strict tgt T avail most E (op_bin b W64) r [x; t] [] W64); try done.
  - intros Hst. by rewrite Hst in Hloose.
  - intros a m v Ham. cbn [pure_value app arg nth]. rewrite (shows_opnd E a m t W64 Ham Ht).
    rewrite <- (shows_opnd E a m x W32 Ham Hx). destruct (Z.eqb_spec (regs a t) c) as [->|]; [|done].
    unfold opnd. intros <-. apply Hf.
  - intros a v Hin. destruct (Z.eqb_spec (regs a t) c) as [<-|]; [|done]. intros [= <-].
    pose proof (readable_range E a x W32 Hin Hx) as Rx. specialize (Hf (regs a x)). rewrite (uwrap_id 32) in Hf by done.
    apply (bin_sem_fits b W64 (u64 (regs a x)) (regs a t)); [by apply uwrap_fits|by apply (readable_range E)|done].
Qed.

Lemma tcg_gen_extu_i32_i64_ok E r x :
  1 <= credit E W64 -> writable E r W64 -> readable E x W32 ->
  computes E (tcg_gen_extu_i32_i64 has r x) r W64 (fun a => Some (regs a x)).
Proof.
  intros Hc Hr Hx. unfold tcg_gen_extu_i32_i64, tcg_gen_ext32u_i64. destruct (TCG_TARGET_HAS_un has Uext32u W64) eqn:Hh.
  { apply (widening_op_ok E Uext32u r x (fun v => v)); [by left|done..|]. intros v. cbn [un_sem]. by rewrite uwrap_min. }
  unfold tcg_gen_andi. cbn [Z.eqb Pos.eqb andb]. change (0xffffffff =? 2 ^ bits W64 - 1) with false. rewrite Hh. cbn [andb].
  eapply denotes_weaken; [|apply weaker_refl..|].
  - apply (denotes_imm host strict tgt T avail most has Hserves E W64 0xffffffff W64 r _ (fun y a => if y =? 0xffffffff then Some (regs a x) else None)); [done..| |].
    + intros t Ht Hne. pose proof (readable_ne E x t W32 Ht Hx) as Hxt. unfold tcg_gen_and. rewrite (proj2 (Z.eqb_neq x t) Hxt).
      apply (narrow_op_ok _ Band r x t 0xffffffff (fun v => v)); [env_fact..|]. intros v. cbn [bin_sem].
      by rewrite land_mask32, uwrap_min.
    + intros y a b Hs. by rewrite (same_regs E a b x W32 Hx Hs).
  - intros a Hin. same_end r. done.
Qed.

Lemma tcg_gen_ext_i32_i64_ok E r x :
  1 <= credit E W64 -> writable E r W64 -> readable E x W32 ->
  computes E (tcg_gen_ext_i32_i64 has r x) r W64 (fun a => Some (u64 (s32 (regs a x)))).
Proof.
  intros Hc Hr Hx. unfold tcg_gen_ext_i32_i64, tcg_gen_ext32s_i64. destruct (TCG_TARGET_HAS_un has Uext32s W64) eqn:Hh.
  { apply (widening_op_ok E Uext32s r x (fun v => u64 (s32 v))); [by right|done..|]. intros v. cbn [un_sem].
    rewrite swrap_uwrap by lia. by rewrite <- (swrap_uwrap 32 (u64 v)), uwrap_min, swrap_uwrap by lia. }
  eapply denotes_weaken; [eapply denotes_seq; [|]|apply weaker_refl|..].
  - unfold tcg_gen_shli. cbn [Z.eqb].
    apply (denotes_imm host strict tgt T avail most has Hserves E W64 32 W64 r _ (fun y a => if y =? 32 then Some (u64 (Z.shiftl (regs a x) 32)) else None)); [done..| |].
    + intros t Ht Hne. apply (narrow_op_ok _ Bshl r x t 32 (fun v => u64 (Z.shiftl v 32))); [env_fact..|].
      intros v. cbn [bin_sem]. cbn [Z.ltb Z.compare Pos.compare Pos.compare_cont]. f_equal. 
      apply Z.bits_inj'. intros i Hi. rewrite !uwrap_spec, !Z.shiftl_spec by lia. destruct (Z.ltb_spec i 64); [|done]. cbn.
      destruct (Z.ltb_spec (i - 32) 0); [by rewrite !Z.testbit_neg_r by lia|]. rewrite !uwrap_spec by lia.
      rewrite !(proj2 (Z.ltb_lt _ _)) by lia. done.
    + intros y a b Hs. by rewrite (same_regs E a b x W32 Hx Hs).
  - leaf.
  - env_end.
  - intros a Hin. same_end r. by apply (ext_by_shifts 64).
Qed.
#[local] Hint Resolve tcg_gen_extu_i32_i64_ok tcg_gen_ext_i32_i64_ok : den.

Lemma halves_lor lo hi : fits 32 lo -> Z.lor lo (Z.shiftl hi 32) = pair_of W32 lo hi.
Proof. intros Hl. by apply (lor_shiftl_add 32). Qed.

Lemma pair_fits lo hi : fits 32 lo -> fits 32 hi -> fits 64 (pair_of W32 lo hi).
Proof. unfold fits, pair_of. cbn [bits]. lia. Qed.

Lemma tcg_gen_concat_i32_i64_ok E r lo hi :
  3 <= credit E W64 -> writable E r W64 -> readable E lo W32 -> readable E hi W32 ->
  computes E (tcg_gen_concat_i32_i64 has r lo hi) r W64 (fun a => Some (pair_of W32 (regs a lo) (regs a hi))).
Proof.
  intros Hc Hr Hlo Hhi. unfold tcg_gen_concat_i32_i64. assert (lo <> r /\ hi <> r) as [Hn1 Hn2].
  { split; intros ->; destruct Hr as (c & Ec & Hw & _); [destruct Hlo as (c' & Ec' & Hw' & _)|destruct Hhi as (c' & Ec' & Hw' & _)]; congruence. }
  new1 tmp. destruct (TCG_TARGET_HAS_deposit has W64 && TCG_TARGET_deposit_valid has W64 32 32).
  - eexists _, _. split; [|split].
    + eapply denotes_seq; [leaf|]. eapply denotes_seq; [leaf|]. eapply denotes_seq; [apply tcg_gen_deposit_ok; [done|room|env_fact..|done|done|done]|leaf].
    + env_end.
    + intros a v Hin _. pose proof (readable_range _ _ _ _ Hin Hlo : fits 32 _) as Rl. pose proof (readable_range _ _ _ _ Hin Hhi : fits 32 _) as Rh.
      same_end r. rewrite deposit_high, uwrap_id by done. symmetry. by apply halves_lor.
  - eexists _, _. split; [do 2 step; nested_steps|split; [env_end|]].
    intros a v Hin _. pose proof (readable_range _ _ _ _ Hin Hlo : fits 32 _) as Rl. pose proof (readable_range _ _ _ _ Hin Hhi : fits 32 _) as Rh.
    same_end r. rewrite uwrap_id; [symmetry; by apply halves_lor|].
    apply (fits_shiftl 32 32); [lia|lia|done].
Qed.
#[local] Hint Resolve tcg_gen_concat_i32_i64_ok tcg_gen_extr_i64_i32_ok : den.

Lemma cut_low a : uwrap 32 a = uwrap 32 (u64 a).
Proof. by rewrite uwrap_min. Qed.
Lemma cut_high a : uwrap 32 (a / 2 ^ 32) = uwrap 32 (u64 a / 2 ^ 32).
Proof.
  rewrite <- !Z.shiftr_div_pow2 by lia. apply Z.bits_inj'. intros i Hi.
  rewrite !uwrap_spec, !Z.shiftr_spec, uwrap_spec by lia. destruct (Z.ltb_spec i 32); [|done]. by rewrite (proj2 (Z.ltb_lt _ 64)) by lia.
Qed.

Lemma tcg_gen_add2_wide_ok E rl rh al ah bl bh :
  TCG_TARGET_HAS_add2 has W32 = false -> 5 <= credit E W64 -> writable E rl W32 -> writable E rh W32 -> rl <> rh ->
  readable E al W32 -> readable E ah W32 -> readable E bl W32 -> readable E bh W32 ->
  double_ok E (tcg_gen_add2_i32 has rl rh al ah bl bh) (op_add2 W32) W32 rl rh [al; ah; bl; bh].
Proof.
  intros Hhas Hc Hl Hh Hne Hal Hah Hbl Hbh. unfold tcg_gen_add2_i32. rewrite Hhas.
  new_pair t0 t1. eexists _, _. split; [steps|split; [env_end|]]. intros a v0 v1 Hin _ _.
  pair_end rl rh; cbn [pair_value map arg nth];
    first [apply cut_low | apply cut_high].
Qed.

Lemma tcg_gen_sub2_wide_ok E rl rh al ah bl bh :
  TCG_TARGET_HAS_sub2 has W32 = false -> 5 <= credit E W64 -> writable E rl W32 -> writable E rh W32 -> rl <> rh ->
  readable E al W32 -> readable E ah W32 -> readable E bl W32 -> readable E bh W32 ->
  double_ok E (tcg_gen_sub2_i32 has rl rh al ah bl bh) (op_sub2 W32) W32 rl rh [al; ah; bl; bh].
Proof.
  intros Hhas Hc Hl Hh Hne Hal Hah Hbl Hbh. unfold tcg_gen_sub2_i32. rewrite Hhas.
  new_pair t0 t1. eexists _, _. split; [steps|split; [env_end|]]. intros a v0 v1 Hin _ _.
  pair_end rl rh; cbn [pair_value map arg nth];
    first [apply cut_low | apply cut_high].
Qed.

Lemma by_product_ok E op rl rh x y (ext : Z -> Z -> gen unit) (f : Z -> Z) :
  (op = op_mulu2 W32 /\ f = (fun v => v) \/ op = op_muls2 W32 /\ f = (fun v => u64 (s32 v))) ->
  (forall E r x, 1 <= credit E W64 -> writable E r W64 -> readable E x W32 -> computes E (ext r x) r W64 (fun a => Some (f (regs a x)))) ->
  4 <= credit E W64 -> writable E rl W32 -> writable E rh W32 -> rl <> rh -> readable E x W32 -> readable E y W32 ->
  double_ok E (t0 <- tcg_temp_new W64 ;; t1 <- tcg_temp_new W64 ;; ext t0 x ;;; ext t1 y ;;; tcg_gen_mul W64 t0 t0 t1 ;;;
    tcg_gen_extr_i64_i32 rl rh t0 ;;; tcg_temp_free t0 ;;; tcg_temp_free t1)%prog op W32 rl rh [x; y].
Proof.
  intros Hop Hext Hc Hl Hh Hne Hx Hy. new_pair t0 t1. eexists _, _. split; [|split].
  - eapply denotes_seq; [apply Hext; [room|env_fact..]|]. eapply denotes_seq; [apply Hext; [room|env_fact..]|]. steps.
  - env_end.
  - intros a v0 v1 Hin _ _. destruct Hop as [[-> ->]|[-> ->]]; cbn [pair_value map arg nth bits]; pair_end rl rh; rewrite ?uwrap_mul; first [apply cut_low | apply cut_high].
Qed.
End widening.

Lemma not_strict : strict = false \/ strict = true.
Proof. destruct strict; auto. Qed.

Lemma tcg_gen_add2_i32_ok E rl rh al ah bl bh :
  (strict = true -> TCG_TARGET_HAS_add2 has W32 = true) -> 5 <= credit E W64 -> writable E rl W32 -> writable E rh W32 -> rl <> rh ->
  readable E al W32 -> readable E ah W32 -> readable E bl W32 -> readable E bh W32 ->
  double_ok E (tcg_gen_add2_i32 has rl rh al ah bl bh) (op_add2 W32) W32 rl rh [al; ah; bl; bh].
Proof.
  intros Hst Hc Hl Hh Hne Hal Hah Hbl Hbh. destruct (TCG_TARGET_HAS_add2 has W32) eqn:Hhas.
  - unfold tcg_gen_add2_i32. rewrite Hhas. eapply has_double_ok; try done; [by repeat constructor|]. intros Hs. by apply (sv_add2 _ _ (Hserves Hs)).
  - apply tcg_gen_add2_wide_ok; try done. destruct not_strict as [?|H]; [done|]. by apply Hst in H.
Qed.

Lemma tcg_gen_sub2_i32_ok E rl rh al ah bl bh :
  (strict = true -> TCG_TARGET_HAS_sub2 has W32 = true) -> 5 <= credit E W64 -> writable E rl W32 -> writable E rh W32 -> rl <> rh ->
  readable E al W32 -> readable E ah W32 -> readable E bl W32 -> readable E bh W32 ->
  double_ok E (tcg_gen_sub2_i32 has rl rh al ah bl bh) (op_sub2 W32) W32 rl rh [al; ah; bl; bh].
Proof.
  intros Hst Hc Hl Hh Hne Hal Hah Hbl Hbh. destruct (TCG_TARGET_HAS_sub2 has W32) eqn:Hhas.
  - unfold tcg_gen_sub2_i32. rewrite Hhas. eapply has_double_ok; try done; [by repeat constructor|]. intros Hs. by apply (sv_sub2 _ _ (Hserves Hs)).
  - apply tcg_gen_sub2_wide_ok; try done. destruct not_strict as [?|H]; [done|]. by apply Hst in H.
Qed.

Lemma tcg_gen_mulu2_i32_ok E rl rh x y :
  (strict = true -> TCG_TARGET_HAS_mulu2 has W32 || TCG_TARGET_HAS_bin has Bmuluh W32 = true) ->
  1 <= credit E W32 -> 4 <= credit E W64 -> writable E rl W32 -> writable E rh W32 -> rl <> rh -> readable E x W32 -> readable E y W32 ->
  double_ok E (tcg_gen_mulu2_i32 has rl rh x y) (op_mulu2 W32) W32 rl rh [x; y].
Proof.
  intros Hst Hc Hc' Hl Hh Hne Hx Hy. unfold tcg_gen_mulu2_i32. destruct (TCG_TARGET_HAS_mulu2 has W32) eqn:Hhas.
  { eapply has_double_ok; try done; [by repeat constructor|]. intros Hs. by apply (sv_mulu2 _ _ (Hserves Hs)). }
  destruct (TCG_TARGET_HAS_bin has Bmuluh W32) eqn:Hhas2.
  - eapply has_high_ok; try done; [|by left]. intros Hs. by apply (sv_bin _ _ (Hserves Hs)).
  - assert (strict = false) as Hloose by (destruct not_strict as [?|H]; [done|by apply Hst in H]).
    apply (by_product_ok E (op_mulu2 W32) rl rh x y (tcg_gen_extu_i32_i64 has) (fun v => v)); try done; [by left|].
    intros E' r' x' H1 H2 H3. by apply tcg_gen_extu_i32_i64_ok.
Qed.

Lemma tcg_gen_muls2_i32_ok E rl rh x y :
  (strict = true -> TCG_TARGET_HAS_muls2 has W32 || TCG_TARGET_HAS_bin has Bmulsh W32 = true) ->
  1 <= credit E W32 -> 4 <= credit E W64 -> writable E rl W32 -> writable E rh W32 -> rl <> rh -> readable E x W32 -> readable E y W32 ->
  double_ok E (tcg_gen_muls2_i32 has rl rh x y) (op_muls2 W32) W32 rl rh [x; y].
Proof.
  intros Hst Hc Hc' Hl Hh Hne Hx Hy. unfold tcg_gen_muls2_i32. destruct (TCG_TARGET_HAS_muls2 has W32) eqn:Hhas.
  { eapply has_double_ok; try done; [by repeat constructor|]. intros Hs. by apply (sv_muls2 _ _ (Hserves Hs)). }
  destruct (TCG_TARGET_HAS_bin has Bmulsh W32) eqn:Hhas2.
  - eapply has_high_ok; try done; [|by right]. intros Hs. by apply (sv_bin _ _ (Hserves Hs)).
  - assert (strict = false) as Hloose by (destruct not_strict as [?|H]; [done|by apply Hst in H]).
    apply (by_product_ok E (op_muls2 W32) rl rh x y (tcg_gen_ext_i32_i64 has) (fun v => u64 (s32 v))); try done; [by right|].
    intros E' r' x' H1 H2 H3. by apply tcg_gen_ext_i32_i64_ok.
Qed.

(** ** Branches and the ends of blocks *)
Lemma weaker_end E : weaker E (end_env E).
Proof.
  split; [|done]. intros t c. cbn. destruct (cells E t) as [c0|]; [|done]. cbn. intros [= <-]. exists (c_known c0).
  rewrite know_know, know_id. split; [done|]. cbn. by intros [? _]%andb_true_iff.
Qed.

Lemma core_plain E op outs ins cs :
  core op = true -> length outs = oargs op -> length ins = iargs op -> length cs = nb_cargs (tcg_op_defs op) ->
  Forall (writes E (out_type op)) outs -> Forall (reads E (in_type op)) ins -> NoDup outs -> cargs_ok op (outs ++ ins ++ cs) ->
  (forall w, op <> op_bin Bor w) -> (forall u w, op <> op_un u w) -> strict = true -> plain avail E op outs ins cs.
Proof.
  intros Hc H1 H2 H3 H4 H5 H6 H7 H8 H9 Hs. split; try done.
  - intros w ->. by destruct (H8 w).
  - intros u ->. by destruct (H9 u W64).
  - by apply (sv_core _ _ (Hserves Hs)).
Qed.

Lemma gen_set_label_ok E n : denotes E (gen_set_label n) (end_env E) (fun a => Fall a).
Proof.
  change (end_env E) with (after (mkOp op_set_label [n]) E). apply denotes_emit; [done|..].
  - intros s Hs Ht. apply (plain_fits tgt T avail s E op_set_label [] [] [n]); [done..|]. apply core_plain; try done; constructor.
  - done.
Qed.

Lemma tcg_gen_br_ok E l : denotes E (tcg_gen_br l) (end_env E) (fun a => Jump l a).
Proof.
  change (end_env E) with (after (mkOp op_br [l]) E). apply denotes_emit; [done|..].
  - intros s Hs Ht. apply (plain_fits tgt T avail s E op_br [] [] [l]); [done..|]. apply core_plain; try done; constructor.
  - done.
Qed.

Definition branch (o : option bool) (l : Z) (a : mstate W) : next W :=
  match o with Some true => Jump l a | Some false => Fall a | None => Undef end.

Lemma tcg_gen_brcond_ok E w c x y l :
  readable E x w -> readable E y w -> cond_ok c ->
  denotes E (tcg_gen_brcond w c x y l) (end_env E) (fun a => branch (cond_value c (bits w) (regs a x) (regs a y)) l a).
Proof.
  intros Hx Hy Hc. unfold tcg_gen_brcond, cond_value. destruct (Z.eqb_spec c TCG_COND_ALWAYS) as [|H1]; [apply tcg_gen_br_ok|].
  destruct (Z.eqb_spec c TCG_COND_NEVER) as [|H2]; cbn [when negb].
  { eapply denotes_weaken; [apply denotes_ret|apply weaker_refl|apply weaker_end|]. by intros a _. }
  destruct Hc as [?|[?|Hc]]; [done..|]. change (end_env E) with (after (mkOp (op_brcond w) [x; y; c; l]) E). apply denotes_emit; [done|..].
  - intros s Hs Ht. apply (plain_fits tgt T avail s E (op_brcond w) [] [x; y] [c; l]); [done..|].
    apply core_plain; try done; repeat constructor; by exists w.
  - intros s keep a m Ht Ham. cbn [exec_op opc args arg nth]. rewrite (shows_opnd E a m x w), (shows_opnd E a m y w) by done.
    destruct (cond_sem _ _ _ _) as [[]|]; cbn; [by split|done|done].
Qed.

Lemma owned_end E t w : owned E t w -> owned (end_env E) t w.
Proof. intros (k & Ec). exists (k && false). cbn. rewrite Ec. done. Qed.

Lemma tcg_gen_brcondi_ok E w c x v l :
  1 <= credit E w -> readable E x w -> cond_ok c ->
  denotes E (tcg_gen_brcondi w c x v l) (end_env E) (fun a => branch (cond_value c (bits w) (regs a x) (uwrap (bits w) v)) l a).
Proof.
  intros Hcr Hx Hc. unfold tcg_gen_brcondi.
  assert (denotes E (t0 <- tcg_const w v ;; tcg_gen_brcond w c x t0 l ;;; tcg_temp_free t0)%prog (end_env E)
    (fun a => branch (cond_value c (bits w) (regs a x) (uwrap (bits w) v)) l a)) as Hcmp.
  { eapply denotes_const; [exact Hserves|done|apply alike_shrinks, (alike_after (mkOp op_br [0]))|]. intros t Ht. eexists _, _. split; [|split].
    - eapply denotes_seq; [apply tcg_gen_brcond_ok; [env_fact..|done]|]. apply free_ok, owned_end. env_fact.
    - env_end.
    - intros a v0 Hin. distinct. chain. destruct (cond_value _ _ _ _) as [[]|]; cbn [branch nbind next_refines]; [split; [done|]| |done];
        (split; [done|]; intros u Hu; cbn in Hu; assert (u <> t) by (intros ->; rewrite Ht in Hu; by apply Hu); by regs). }
  unfold cond_value in *. destruct (Z.eqb_spec c TCG_COND_ALWAYS) as [->|H1]; [apply tcg_gen_br_ok|].
  destruct (Z.eqb_spec c TCG_COND_NEVER) as [->|H2]; cbn [when negb]; [|done].
  eapply denotes_weaken; [apply denotes_ret|apply weaker_refl|apply weaker_end|]. by intros a _.
Qed.

(** The end of a block leaves nothing but globals and local temporaries. *)
Lemma tcg_gen_exit_tb_ok E v : denotes E (tcg_gen_exit_tb v) (end_env E) (opaque_den host op_exit_tb [] [] [v]).
Proof.
  apply (denotes_effect host strict tgt T avail most E op_exit_tb [] [] [v]); try done. intros Hs. apply core_plain; try done; constructor.
Qed.

Lemma tcg_gen_goto_tb_ok E idx : idx <= 1 -> denotes E (tcg_gen_goto_tb idx) (end_env E) (opaque_den host op_goto_tb [] [] [idx]).
Proof.
  intros Hi. unfold tcg_gen_goto_tb. rewrite (proj2 (Z.leb_le _ _)) by done. cbn [assert_]. apply denotes_skip.
  apply (denotes_effect host strict tgt T avail most E op_goto_tb [] [] [idx]); try done. intros Hs. apply core_plain; try done; constructor.
Qed.

Lemma tcg_gen_debug_insn_start_ok E pc : denotes E (tcg_gen_debug_insn_start pc) E (opaque_den host op_debug_insn_start [] [] [pc]).
Proof.
  apply (denotes_opaque host strict tgt T avail most E op_debug_insn_start [] [] [pc]); try done. intros Hs. apply core_plain; try done; constructor.
Qed.

Lemma tcg_gen_discard_ok E t w : owned E t w ->
  denotes E (tcg_gen_discard t) (drop_env E t) (fun a => Fall (put a t 0)).
Proof.
  intros (k & Ec). pose proof (W_pos w). change (drop_env E t) with (after (mkOp op_discard [t]) E).
  assert (writable E t w) as Hw by (eexists; by split). apply denotes_emit; [done|..].
  - intros s Hs Ht. destruct (te_cell _ _ _ Ht _ _ Ec) as (V & Ty & _ & Hca).
    assert (of_type s None t) as Hty by (split; [done|done]). split; try done.
    + unfold op_ok. cbn [opc args]. split; [|done]. split; try done.
      * intros j Hj. assert (j = 0%nat) as -> by (cbn in Hj; lia). done.
      * intros j Hj. unfold is_input in Hj. cbn in Hj. lia.
    + apply framed_eq; [done|]. split; [done|]. apply (proj2 (Forall_singleton _ _)). exact V.
    + cbn. intros u Hu. by apply elem_of_nil in Hu.
    + apply NoDup_singleton.
    + cbn. intros u ->%list_elem_of_singleton. by exists w.
    + unfold source_args. cbn [opc args arg nth]. rewrite <- Hca. done.
    + by apply (sv_core _ _ (Hserves Hs)).
  - intros s keep a m Ht Ham. cbn. apply (shows_put E a m t w); [done..|]. apply fits_0. lia.
Qed.

(** ** Memory *)
Lemma tcg_gen_ld_ok E m w r base ofs wb :
  core (op_ld m w) = true -> writable E r w -> readable E base wb ->
  denotes E (tcg_gen_ld m w r base ofs) (put_env E r) (opaque_den host (op_ld m w) [r] [base] [u64 ofs]).
Proof.
  intros Hc Hr Hb. apply (denotes_opaque host strict tgt T avail most E (op_ld m w) [r] [base] [u64 ofs]); try done.
  - by repeat constructor.
  - repeat constructor. by exists wb.
  - intros Hs. apply core_plain; try done; [repeat constructor; by exists w|repeat constructor; by exists wb|apply NoDup_singleton].
Qed.

Lemma tcg_gen_st_ok E m w x base ofs wx wb :
  core (op_st m w) = true -> readable E x wx -> readable E base wb ->
  denotes E (tcg_gen_st m w x base ofs) E (opaque_den host (op_st m w) [] [x; base] [u64 ofs]).
Proof.
  intros Hc Hx Hb. apply (denotes_opaque host strict tgt T avail most E (op_st m w) [] [x; base] [u64 ofs]); try done.
  - constructor; [by exists wx|]. constructor; [by exists wb|constructor].
  - intros Hs. apply core_plain; try done; [constructor; [by exists wx|constructor; [by exists wb|constructor]]|constructor].
Qed.

Lemma of_outcome_ok {S X A B} (o : outcome A) (v : A) (k : A -> prog S X B) G : o = Ok v -> bind (of_outcome o) k G = k v G.
Proof. intros ->. unfold bind, of_outcome. cbn. by destruct (k v G) as [[[b G2] es2]|]. Qed.

Lemma tcg_gen_qemu_ld_ok E w v addr idx memop memop' wa :
  tcg_canonicalize_memop memop (is64 w) false = Ok memop' -> writable E v w -> readable E addr wa ->
  denotes E (tcg_gen_qemu_ld w v addr idx memop) (put_env E v) (opaque_den host (op_qemu_ld w) [v] [addr] [memop'; idx]).
Proof.
  intros Hm Hv Ha. eapply denotes_ext; [intros G; unfold tcg_gen_qemu_ld; by rewrite (of_outcome_ok _ _ _ _ Hm)|].
  apply (denotes_opaque host strict tgt T avail most E (op_qemu_ld w) [v] [addr] [memop'; idx]); try done.
  - by repeat constructor.
  - repeat constructor. by exists wa.
  - intros Hs. apply core_plain; try done; [repeat constructor; by exists w|repeat constructor; by exists wa|apply NoDup_singleton].
Qed.

Lemma tcg_gen_qemu_st_ok E w v addr idx memop memop' wv wa :
  tcg_canonicalize_memop memop (is64 w) true = Ok memop' -> readable E v wv -> readable E addr wa ->
  denotes E (tcg_gen_qemu_st w v addr idx memop) E (opaque_den host (op_qemu_st w) [] [v; addr] [memop'; idx]).
Proof.
  intros Hm Hv Ha. eapply denotes_ext; [intros G; unfold tcg_gen_qemu_st; by rewrite (of_outcome_ok _ _ _ _ Hm)|].
  apply (denotes_opaque host strict tgt T avail most E (op_qemu_st w) [] [v; addr] [memop'; idx]); try done.
  - constructor; [by exists wv|]. constructor; [by exists wa|constructor].
  - intros Hs. apply core_plain; try done; [constructor; [by exists wv|constructor; [by exists wa|constructor]]|constructor].
Qed.
End mixed.
End TcgFrontMixed.
