(* ===== verification/TcgFrontMain.v ===== *)
(** From the calls of a front end to host code: what the generators emit passes
    the checks of the later passes, so that the code of a translated guest
    instruction does what the denotations of its generators say; and the
    theorems on the generators. *)
From Stdlib Require Import ZArith Lia Bool.
From stdpp Require Import base numbers list sets.
From S2P Require Import Prelude HostUtils TcgOp TcgOpt TcgRing TcgArith TcgSem TcgBits TcgSound TcgStep TcgProg TcgShape TcgLive TcgGen TcgReg TcgHost TcgMeaning TcgPlace TcgAlloc TcgSim TcgSimOp TcgFit TcgKeep TcgCode TcgTarget TcgX86 TcgMain TcgTemp TcgFront TcgEmit TcgDenote TcgFrontOk TcgFrontSeq TcgFrontWide TcgFrontMixed.
Local Open Scope Z_scope.

Module TcgFrontMain.
Import HostUtils.HostUtils Tcg TcgOpt TcgRing TcgArith TcgSem TcgBits TcgSound TcgStep TcgProg TcgShape TcgLive TcgGen TcgReg TcgHost TcgMeaning TcgPlace TcgAlloc TcgSim TcgSimOp TcgFit TcgKeep TcgCode TcgTarget TcgX86 TcgMain TcgTemp TcgFront TcgEmit TcgDenote TcgFrontOk TcgFrontSeq TcgFrontWide TcgFrontMixed.

(** ** The checks of the later passes *)
Section checks.
Context (s : TCGContext) (tgt : Target) (T : Z -> TCGTemp) (avail : TCGOpcode -> Prop).
Notation passes := (passes tgt T avail s).
Notation typed_env := (typed_env T s).

Lemma vis D t : visible s D t = true <-> t ∈ D \/ carried s t.
Proof. apply visible_spec. Qed.
Lemma kn K t : TcgFit.known s K t = true <-> is_global s t \/ t ∈ K.
Proof. apply (known_spec s T). Qed.

Lemma typed_new E t w : typed_env E -> typed_cell T s t (mkCell w false false false) -> typed_env (new_env E t w).
Proof. intros [Hg Hc] Ht. split; [done|]. intros u c. cbn. destruct (Z.eqb_spec u t) as [->|]; [by intros [= <-]|apply Hc]. Qed.

Lemma typed_alike E E' : alike E E' -> typed_env E -> typed_env E'.
Proof. intros Ha [Hg Hc]. split; [done|]. intros t c (k & E1)%(alike_shrinks _ _ Ha). by apply (Hc t (know k c)). Qed.

(** [D] holds what has been written, [K] that and what is known of locals. *)
Definition seen (E : env) (D K : list Z) : Prop := forall t c, cells E t = Some c -> c_known c = true ->
  visible s D t = true /\ TcgFit.known s K t = true.

Lemma seen_tells E E' D K : tells E E' -> seen E D K -> seen E' D K.
Proof. intros H HS t c Ec Hk. destruct (H t c Ec) as (k & E1 & Hk'). apply (HS t (know k c)); [done|]. cbn. auto. Qed.

Lemma seen_after E i D K :
  typed_env E -> seen E D K -> seen (after i E) (if bb_end i then [] else outputs i ++ D) (written s i K).
Proof.
  intros Ht HS t c Ec Hk. unfold after in Ec. assert (forall ts c, cells (puts_env E ts) t = Some c -> c_known c = true ->
    visible s (ts ++ D) t = true /\ TcgFit.known s (ts ++ K) t = true) as Hput.
  { clear Ec Hk. intros ts. induction ts as [|u ts IH]; intros c'; [apply HS|]. cbn [puts_env foldr].
    rewrite put_env_eq. destruct (cells (foldr _ E ts) t) as [c0|] eqn:E0; [|done]. cbn. intros [= <-] Hk'. cbn in Hk'.
    apply orb_true_iff in Hk' as [->%Z.eqb_eq|Hk'].
    - split; [apply (proj2 (vis _ _)); left|apply (proj2 (kn _ _)); right]; by left.
    - destruct (IH c0 E0 Hk') as [[H1|H1]%vis [H2|H2]%kn]; (split; [apply (proj2 (vis _ _))|apply (proj2 (kn _ _))]);
        first [by right|by left|left; by right|right; by right]. }
  assert (forall c, cells (end_env E) t = Some c -> c_known c = true -> visible s [] t = true /\
    TcgFit.known s (filter (fun t => temp_local s t = true) K) t = true) as Hend.
  { clear Ec Hk. intros c'. cbn. destruct (cells E t) as [c0|] eqn:E0; [|done]. cbn. intros [= <-] [Hk' Hca]%andb_true_iff.
    destruct (te_cell _ _ _ Ht t c0 E0) as (V & _ & _ & Hc0). rewrite Hca in Hc0. symmetry in Hc0. unfold is_carried in Hc0.
    destruct (HS t c0 E0 Hk') as [_ [Hg|Hin]%kn].
    - split; [apply (proj2 (vis _ _)); right; by left|apply (proj2 (kn _ _)); by left].
    - apply orb_true_iff in Hc0 as [[H0%Z.leb_le H1%Z.ltb_lt]%andb_true_iff|Hl].
      + split; [apply (proj2 (vis _ _)); right; by left|apply (proj2 (kn _ _)); by left].
      + split; [apply (proj2 (vis _ _)); right; by right|apply (proj2 (kn _ _)); right; by apply list_elem_of_filter]. }
  unfold written. destruct (opc i) eqn:Eop.
  all: try (destruct (bb_end i); [exact (Hend c Ec Hk)|exact (Hput _ c Ec Hk)]).
  assert (bb_end i = false) as -> by (unfold bb_end; by rewrite Eop).
  cbn in Ec. destruct (Z.eqb_spec t (arg (args i) 0)) as [->|Hne].
  { destruct (cells E _); [|done]. injection Ec as <-. done. }
  destruct (HS t c Ec Hk) as [[H1|H1]%vis [H2|H2]%kn]; (split; [apply (proj2 (vis _ _))|apply (proj2 (kn _ _))]);
    first [by right|by left|left; apply elem_of_app; by right|right; by apply list_elem_of_filter].
Qed.

Lemma passes_checks E es E' : passes E es E' -> typed_env E -> forall D K, seen E D K ->
  scoped s D es = true /\ source_block s tgt T K es = true.
Proof.
  induction 1 as [E E' H|E t w es E' Ht _ IH|E i es E' Hi _ IH]; intros HT D K HS; [done| |].
  - apply IH; [by apply typed_new|]. intros u c. cbn. destruct (Z.eqb_spec u t) as [->|]; [by intros [= <-]|apply HS].
  - pose proof (typed_alike _ _ (alike_after i E) HT) as HT'. destruct (IH HT' _ _ (seen_after E i D K HT HS)) as [H1 H2].
    assert (forall t, t ∈ inputs i -> visible s D t = true /\ TcgFit.known s K t = true) as Hin.
    { intros t (w & c & Ec & _ & Hk)%(fo_in _ _ _ _ _ Hi). by apply (HS t c). }
    cbn [scoped source_block]. rewrite H1, H2, !andb_true_r. split.
    + apply forallb_forall. intros t Ht%list_elem_of_In. by apply Hin.
    + unfold source_op. rewrite (fo_args _ _ _ _ _ Hi), bool_decide_eq_true_2, !andb_true_r by apply Hi. apply andb_true_iff. split.
      * apply forallb_forall. intros t Ht%list_elem_of_In. by apply Hin.
      * apply forallb_forall. intros t Ht%list_elem_of_In. destruct (fo_out _ _ _ _ _ Hi t Ht) as (w & c & Ec & _ & Hp).
        destruct (te_cell _ _ _ HT t c Ec) as (_ & _ & Hf & _). by rewrite (Hf Hp).
Qed.

Lemma passes_ops E es E' : passes E es E' -> Forall (fun i => op_ok s i /\ framed s i /\ avail (opc i)) es.
Proof. induction 1 as [E E' H|E t w es E' Ht _ IH|E i es E' Hi _ IH]; [done|done|]. constructor; [|done]. split_and!; apply Hi. Qed.

Lemma doubles_pairs p : doubles_ok p = true -> pairs_ok p = true.
Proof.
  induction p as [|i p IH]; [done|]. cbn. intros [H1 H2]%andb_true_iff. rewrite IH, andb_true_r by done.
  destruct (needs_nop (opc i)) eqn:En; [|done]. destruct (doubles (opc i)) eqn:Ed; [done|]. by destruct (opc i) as [| | | | | |w|w|w|w|m w|m w|b w|u w|w|w| | |w|w|w|w|w|w| | | |w|w].
Qed.

(** The block is well formed. *)
Lemma passes_gen_ok E es E' :
  passes E es E' -> typed_env E -> seen E [] [] -> doubles_ok es = true -> nb_temps s <= TCG_MAX_TEMPS ->
  gen_ok s es /\ source_block s tgt T [] es = true.
Proof.
  intros Hp HT HS Hd Hm. destruct (passes_checks E es E' Hp HT [] [] HS) as [H1 H2]. pose proof (passes_ops E es E' Hp) as Ho.
  split; [|done]. split; split; try done; try apply HT.
  - refine (Forall_impl _ _ _ Ho _). by intros i (? & _).
  - by apply doubles_pairs.
  - refine (Forall_impl _ _ _ Ho _). by intros i (_ & ? & _).
Qed.
End checks.

(** ** The start of a block *)
Definition start_env (s : TCGContext) (T : Z -> TCGTemp) (c32 c64 : Z) : env :=
  mkEnv (fun t => if (0 <=? t) && (t <? nb_globals s) then Some (mkCell (type s t) (fixed_reg (T t)) true true) else None)
    (fun w => match w with W32 => c32 | W64 => c64 end).

Lemma start_cell s T c32 c64 t c :
  cells (start_env s T c32 c64) t = Some c -> is_global s t /\ c = mkCell (type s t) (fixed_reg (T t)) true true.
Proof.
  cbn. destruct (_ && _) eqn:E; [|done]. intros [= <-]. apply andb_true_iff in E as [H1%Z.leb_le H2%Z.ltb_lt]. by split.
Qed.

Lemma start_models T most G c32 c64 :
  0 <= nb_globals (ctx G) -> 0 <= c32 -> 0 <= c64 -> nb_globals (ctx G) + c32 + c64 <= most -> most <= TCG_MAX_TEMPS ->
  models T most (tcg_func_start G) (start_env (ctx (tcg_func_start G)) T c32 c64).
Proof.
  intros Hg H1 H2 Hc Hm. assert (forall w, nfree (tcg_func_start G) w = 0) as Hf.
  { intros w. unfold nfree. destruct (filter _ _) as [|j l] eqn:El; [done|]. pose proof (list_elem_of_here j l) as Hj.
    rewrite <- El in Hj. by apply list_elem_of_filter in Hj as [? _]. }
  split.
  - split; [cbn; lia|done].
  - split; [cbn; lia|]. intros t c [[Ht1 Ht2] ->]%start_cell. unfold typed_cell. cbn in *. split; [lia|]. split; [done|].
    unfold fixed, is_carried. cbn. rewrite (proj2 (Z.leb_le 0 t)), (proj2 (Z.ltb_lt t _)) by lia. split; [|done]. by intros ->.
  - intros t c [[_ Ht] _]%start_cell. by left.
  - rewrite !Hf. cbn. lia.
  - cbn. lia.
Qed.

Lemma start_seen s s' T c32 c64 : nb_globals s = nb_globals s' -> seen s' (start_env s T c32 c64) [] [].
Proof.
  intros Eg t c [Ht _]%start_cell _. assert (is_global s' t) as Ht' by (unfold is_global in *; lia).
  split; [apply vis; right; by left|apply (kn s' T); by left].
Qed.

(** ** Straight-line blocks *)
Lemma execs_run {W} s (host : Host W) keep p n es m m' :
  drop n p = es -> execs host s keep n es m = Leave m' ->
  forall fuel, (length es <= fuel)%nat -> run s host fuel keep p n m = Left m'.
Proof.
  revert n m. induction es as [|i es IH]; intros n m Hd He fuel Hf; [done|]. destruct fuel as [|fuel]; [cbn in Hf; lia|]. cbn [run].
  assert (nth_error p n = Some i) as ->.
  { rewrite <- (Nat.add_0_r n), <- nth_error_skipn. change (skipn n p) with (drop n p). by rewrite Hd. }
  cbn [execs] in He. destruct (exec_op s host (keep n) i m) as [m1|l m1|m1|]; cbn [nbind] in He; try done.
  - apply IH; [|done|cbn in Hf; lia]. rewrite <- Nat.add_1_r, <- drop_drop, Hd. done.
  - by injection He as ->.
Qed.

(** What the front end sees of a state of the host. *)
Definition guest_state {W} (s : TCGContext) (T : Z -> TCGTemp) (h : hstate W) : mstate W :=
  mkState (fun t => if (0 <=? t) && (t <? nb_globals s) then hglobal s T h t else 0) (hworld h).

Lemma guest_shows {W} s s' T E (h : hstate W) c32 c64 :
  grows s s' -> nb_temps s = nb_globals s -> globals_home s' T E ->
  shows (start_env s T c32 c64) (guest_state s T h) (state_of s' T E h).
Proof.
  intros [Gg Gt Gty Gl] Hn HE. split; [done|]. intros t c [Ht ->]%start_cell. cbn. pose proof Ht as [H1 H2].
  rewrite (proj2 (Z.leb_le 0 t)), (proj2 (Z.ltb_lt t _)) by lia. cbn. unfold opnd, hglobal. cbn.
  assert (fixed s' T t = fixed s T t) as Ef by (unfold fixed; by rewrite Gg). rewrite Ef.
  rewrite uwrap_min by (destruct (type s t); cbn; lia). destruct (fixed s T t) eqn:Eft; [done|].
  rewrite (HE t); [done| |by rewrite Ef]. unfold is_global. by rewrite Gg.
Qed.

Lemma hglobal_grows {W} s s' T (h : hstate W) t : grows s s' -> nb_temps s = nb_globals s -> is_global s t -> hglobal s' T h t = hglobal s T h t.
Proof.
  intros [Gg Gt Gty Gl] Hn [H1 H2]. unfold hglobal, fixed. by rewrite Gg, Gty by lia.
Qed.

(** ** x86-64

    tcg/i386/tcg-target.h; [have_bmi1] is found out when the translator starts. *)
Definition x86_has (have_bmi1 : bool) : TargetHas := {|
  TCG_TARGET_HAS_un := fun u w =>
    match u, w with Uext32s, W32 | Uext32u, W32 | Ubswap64, W32 => false | _, _ => true end;
  TCG_TARGET_HAS_bin := fun b _ => match b with Bandc => have_bmi1 | _ => false end;
  TCG_TARGET_HAS_div := fun _ => false;
  TCG_TARGET_HAS_rem := fun _ => false;
  TCG_TARGET_HAS_div2 := fun _ => true;
  TCG_TARGET_HAS_rot := fun _ => true;
  TCG_TARGET_HAS_deposit := fun _ => true;
  TCG_TARGET_deposit_valid := fun _ ofs len =>
    ((ofs =? 0) && (len =? 8)) || ((ofs =? 8) && (len =? 8)) || ((ofs =? 0) && (len =? 16));
  TCG_TARGET_HAS_movcond := fun _ => true;
  TCG_TARGET_HAS_add2 := fun _ => true;
  TCG_TARGET_HAS_sub2 := fun _ => true;
  TCG_TARGET_HAS_mulu2 := fun _ => true;
  TCG_TARGET_HAS_muls2 := fun _ => true;
|}.

Definition x86_avail (op : TCGOpcode) : Prop := by_constraints op = false \/ x86_not_present op = false.

Lemma x86_serves bmi1 : serves (x86_has bmi1) (takes x86_avail).
Proof.
  unfold takes, x86_avail. split.
  - intros op H. destruct op as [| | | | | |w|w|w|w|m w|m w|b w|u w|w|w| | |w|w|w|w|w|w| | | |w|w]; try done;
      try (destruct m); try (destruct w); try (destruct b); try done; split; auto; by (left + right).
  - intros u w H. destruct u, w; try done; split; auto; by right.
  - intros b w H. destruct b; try done. destruct w; split; auto; by right.
  - done.
  - done.
  - intros w _. destruct w; split; split; auto; by right.
  - intros w _. destruct w; split; split; auto; by right.
  - intros w _. destruct w; split; auto; by right.
  - intros w _. destruct w; split; auto; by right.
  - intros w _. destruct w; split; auto; by right.
  - intros w _. destruct w; split; auto; by right.
  - intros w _. destruct w; split; auto; by right.
  - intros w _. destruct w; split; auto; by right.
Qed.

Lemma x86_avail_ready bmi2 op op' : x86_avail op -> rewritten op op' -> ready (x86_target bmi2) no_high op'.
Proof. intros Ha Hr. by apply x86_ready_all, (x86_rewritten op). Qed.

Lemma x86_no_division op : x86_avail op -> signed_div op = false.
Proof. intros Ha. destruct op as [| | | | | |w|w|w|w|m w|m w|b w|u w|w|w| | |w|w|w|w|w|w| | | |w|w]; try done. destruct b; try done; by destruct Ha. Qed.

(** Room for 128 temporaries, as many as the frame has. *)
Definition front_start (G : gen_state) (T : Z -> TCGTemp) (c32 c64 : Z) : env := start_env (ctx (tcg_func_start G)) T c32 c64.
Definition x86_denotes {W} (host : Host W) (bmi2 : bool) (T : Z -> TCGTemp) (G : gen_state) (c32 c64 : Z) (g : gen unit) (E' : env) (den : mstate W -> next W) : Prop :=
  denotes host true (x86_target bmi2) T x86_avail (nb_globals (ctx G) + CPU_TEMP_BUF_NLONGS) (front_start G T c32 c64) g E' den.

Section adequacy.
Context {W : Type} (host : Host W) (bmi2 : bool) (T : Z -> TCGTemp) (G : gen_state) (c32 c64 : Z).
Notation s0 := (ctx (tcg_func_start G)).
Hypothesis (HT : env_globals s0 T).
Hypothesis (Hroom : 0 <= c32 /\ 0 <= c64 /\ c32 + c64 <= CPU_TEMP_BUF_NLONGS /\ nb_globals (ctx G) + CPU_TEMP_BUF_NLONGS <= TCG_MAX_TEMPS).

Lemma grown_globals s : grows s0 s -> nb_temps s <= nb_globals (ctx G) + CPU_TEMP_BUF_NLONGS -> env_globals s T.
Proof.
  intros [Gg Gt Gty Gl] Hm. destruct HT as [E1 E2 E3 E4 E5]. unfold is_global in *. split; unfold is_global; rewrite ?Gg; try done; cbn in *; lia.
Qed.

Lemma x86_front_block g E' den :
  x86_denotes host bmi2 T G c32 c64 g E' den ->
  exists G' es, g (tcg_func_start G) = Ok (tt, G', es) /\ grows s0 (ctx G') /\ models T (nb_globals (ctx G) + CPU_TEMP_BUF_NLONGS) G' E' /\
    gen_ok (ctx G') es /\ env_globals (ctx G') T /\ acceptable (ctx G') (x86_target bmi2) T no_high es /\ Forall (fun i => x86_avail (opc i)) es /\
    forall keep a m, shows (front_start G T c32 c64) a m -> next_shows E' (den a) (execs host (ctx G') keep 0 es m).
Proof.
  intros [_ Hd]. destruct HT as [[Hg _] _ _ _ _]. cbn in Hg.
  assert (models T (nb_globals (ctx G) + CPU_TEMP_BUF_NLONGS) (tcg_func_start G) (front_start G T c32 c64)) as HM by (apply start_models; lia).
  destruct (Hd _ HM) as (G' & es & Eg & Hgr & HM' & Hdb & Hs). exists G', es. destruct (Hs (ctx G') (grows_refl _)) as [Hp Hx].
  specialize (Hp eq_refl). pose proof (typed_grows T _ _ _ Hgr (md_typed _ _ _ _ HM)) as Hty. pose proof (md_most _ _ _ _ HM') as Hm.
  destruct (passes_gen_ok (ctx G') (x86_target bmi2) T x86_avail _ _ _ Hp Hty) as [Hok Hsrc]; [apply start_seen; symmetry; apply Hgr|done|lia|].
  pose proof (passes_ops _ _ _ _ _ _ _ Hp) as Ho.
  assert (Forall (fun i => x86_avail (opc i)) es) as Hav by (refine (Forall_impl _ _ _ Ho _); by intros i (_ & _ & ?)).
  split_and!; try done.
  - apply grown_globals; [done|lia].
  - split; [done|]. intros i op Hi Hr. apply (x86_avail_ready bmi2 (opc i)); [|done]. by apply (proj1 (Forall_forall _ _) Hav).
  - intros keep a m Ham. by apply Hx.
Qed.

Lemma front_end_code g E' den T0 st0 :
  x86_denotes host bmi2 T G c32 c64 g E' den ->
  exists G' es E code, g (tcg_func_start G) = Ok (tt, G', es) /\
    tcg_gen_code (ctx G') (x86_target bmi2) T no_high T0 st0 es = Ok (tt, E, code) /\
    forall junk h b, host_fits (ctx G') T host -> bases_apart (ctx G') (x86_target bmi2) T (hreg h) ->
      den (guest_state s0 T h) = Leave b ->
      exists f h', hrun (ctx G') (x86_target bmi2) T host junk f code 0 h = HLeft h' /\ world b = hworld h' /\
        forall t, is_global s0 t -> cells E' t <> None -> regs b t = hglobal s0 T h' t.
Proof.
  intros Hd. destruct (x86_front_block g E' den Hd) as (G' & es & Eg & Hgr & HM' & Hok & HTs & Hac & Hav & Hx).
  destruct (optimized_code (ctx G') (x86_target bmi2) T no_high T0 st0 es Hok (x86_layout _ _ bmi2 HTs) Hac) as [[_ Hdiv]|(E & code & Ec & HE & Hc)].
  { apply Exists_exists in Hdiv as (i & Hi & Hs). pose proof (proj1 (Forall_forall _ _) Hav i Hi) as Ha. by rewrite (x86_no_division _ Ha) in Hs. }
  exists G', es, E, code. split; [done|]. split; [done|]. intros junk h b Hh HB Eb.
  assert (nb_temps s0 = nb_globals s0) as Hn by done.
  specialize (Hx (fun _ => false) _ _ (guest_shows s0 (ctx G') T E h c32 c64 Hgr Hn HE)). rewrite Eb in Hx.
  destruct (execs host (ctx G') (fun _ => false) 0 es (state_of (ctx G') T E h)) as [|m|m|] eqn:Ex; try done.
  pose proof (Hc W host junk h (length es) (fun _ => false) Hh HB) as Hb. unfold hbehaves in Hb.
  rewrite (execs_run (ctx G') host (fun _ => false) es 0 es _ m (drop_0 es) Ex (length es) (le_n _)) in Hb.
  destruct Hb as (f & h' & Ef & Hw & Hl). exists f, h'. split; [done|]. destruct Hx as [Hw' Hs]. split; [congruence|].
  intros t Ht Hne. destruct (cells E' t) as [c|] eqn:Et; [|done]. rewrite (Hs t c Et).
  destruct (te_cell _ _ _ (md_typed _ _ _ _ HM') t c Et) as (_ & Ety & _). rewrite <- (hglobal_grows s0 (ctx G') T h' t Hgr Hn Ht).
  rewrite <- (Hl t) by (unfold is_global in *; by rewrite (gr_globals _ _ Hgr)). unfold opnd. by rewrite Ety.
Qed.
End adequacy.
End TcgFrontMain.
