(* ===== verification/TcgGuest.v ===== *)
(** The theorems on the generators: what each family computes on any host, and
    a guest instruction from the calls of its front end to host code. *)
From Stdlib Require Import ZArith Lia Bool.
From stdpp Require Import base numbers list sets.
From S2P Require Import Prelude HostUtils TcgOp TcgOpt TcgRing TcgArith TcgSem TcgBits TcgSound TcgStep TcgProg TcgShape TcgLive TcgGen TcgReg TcgHost TcgMeaning TcgPlace TcgAlloc TcgSim TcgSimOp TcgFit TcgKeep TcgCode TcgTarget TcgX86 TcgMain TcgTemp TcgFront TcgEmit TcgDenote TcgFrontOk TcgFrontSeq TcgFrontWide TcgFrontMixed TcgFrontMain.
Local Open Scope Z_scope.
Local Open Scope prog_scope.

Module TcgGuest.
Import HostUtils.HostUtils Tcg TcgOpt TcgRing TcgArith TcgSem TcgBits TcgSound TcgStep TcgProg TcgShape TcgLive TcgGen TcgReg TcgHost TcgMeaning TcgPlace TcgAlloc TcgSim TcgSimOp TcgFit TcgKeep TcgCode TcgTarget TcgX86 TcgMain TcgTemp TcgFront TcgEmit TcgDenote TcgFrontOk TcgFrontSeq TcgFrontWide TcgFrontMixed TcgFrontMain.

(** ** Examples *)

(** Two registers of the guest, 1 and 2, behind the pointer in global 0. *)
Definition ex_gen : gen_state := mkGen ex_ctx (fun _ => false) (fun _ _ _ => false) 0.
(** The back end's own operations: a division is right, the end of a block leaves. *)
Definition leaving_host : Host unit := mkHost
  (fun op cs ins w => match op with op_exit_tb => OLeave w | _ => OContinue [] w end)
  (fun _ _ seen w => CReturn [] seen w).
Definition guest_insn (has : TargetHas) : gen unit :=
  tcg_gen_debug_insn_start 0x8000 ;;;
  (t0 <- tcg_temp_new W32 ;;
   tcg_gen_rotli has W32 t0 1 8 ;;;
   tcg_gen_addi W32 2 t0 5 ;;;
   tcg_temp_free t0) ;;;
  tcg_gen_exit_tb 0.
Definition guest_den (a : mstate unit) : next unit :=
  Leave (put a 2 (uwrap 32 (Z.lor (uwrap 32 (Z.shiftl (regs a 1) 8)) (Z.shiftr (regs a 1) 24) + 5))).

Lemma ex_start_env : env_globals (ctx (tcg_func_start ex_gen)) ex_temps.
Proof.
  destruct ex_env as [_ _ E3 E4 E5]. split; try done.
Qed.
Lemma guest_body_ok {W} (host : Host W) bmi1 bmi2 T most E r x n v :
  4 <= credit E W32 -> writable E r W32 -> readable E x W32 -> count_in W32 n ->
  denotes host true (x86_target bmi2) T x86_avail most E
    (t0 <- tcg_temp_new W32 ;; tcg_gen_rotli (x86_has bmi1) W32 t0 x n ;;; tcg_gen_addi W32 r t0 v ;;; tcg_temp_free t0)
    (put_env E r)
    (fun a => result W32 a r (option_map (fun y => uwrap 32 (y + uwrap 32 v)) (bin_sem Brotl 32 (regs a x) n))).
Proof.
  intros Hc Hr Hx Hn. assert (true = true -> serves (x86_has bmi1) (takes x86_avail)) as Hserves by (intros _; apply x86_serves).
  new1 t0. eexists _, _. split.
  - eapply denotes_seq; [eapply tcg_gen_rotli_ok; eauto with gen|]. eapply denotes_seq; [eapply tcg_gen_addi_ok; eauto with gen|]. leaf.
  - split; [env_end|]. intros a y Hin _. destruct (bin_sem Brotl 32 (regs a x) n) as [q|] eqn:Eq; [|done].
    distinct. change (bits W32) with 32. chain. rewrite Eq. cbn [option_map bin_sem]. same_end r. done.
Qed.

Lemma start_readable G T c32 c64 t : is_global (ctx G) t -> readable (front_start G T c32 c64) t (type (ctx G) t).
Proof.
  intros [H1 H2]. exists (mkCell (type (ctx G) t) (fixed_reg (T t)) true true). split; [|done]. unfold front_start, start_env. cbn.
  by rewrite (proj2 (Z.leb_le 0 t)), (proj2 (Z.ltb_lt t _)) by lia.
Qed.
Lemma start_writable G T c32 c64 t : is_global (ctx G) t -> fixed_reg (T t) = false -> writable (front_start G T c32 c64) t (type (ctx G) t).
Proof.
  intros [H1 H2] Hf. exists (mkCell (type (ctx G) t) (fixed_reg (T t)) true true). split; [|done]. unfold front_start, start_env. cbn.
  by rewrite (proj2 (Z.leb_le 0 t)), (proj2 (Z.ltb_lt t _)) by lia.
Qed.

Lemma guest_insn_denotes bmi1 bmi2 :
  exists E', x86_denotes leaving_host bmi2 ex_temps ex_gen 4 4 (guest_insn (x86_has bmi1)) E' guest_den /\ cells E' 2 <> None.
Proof.
  eexists. split.
  - unfold x86_denotes, guest_insn.
    assert (true = true -> serves (x86_has bmi1) (takes x86_avail)) as Hserves by (intros _; apply x86_serves).
    eapply denotes_weaken; [|apply weaker_refl|apply weaker_refl|].
    + eapply denotes_seq; [eapply tcg_gen_debug_insn_start_ok; done|].
      eapply denotes_seq; [apply guest_body_ok; [done|apply (start_writable ex_gen ex_temps 4 4 2); by vm_compute|apply (start_readable ex_gen ex_temps 4 4 1); by vm_compute|done]|].
      eapply tcg_gen_exit_tb_ok; done.
    + intros a Hin. split; [done|]. intros u _. reflexivity.
  - by vm_compute.
Qed.

(** The register 1 of the guest holds 0x12345678. *)
Definition guest_host : hstate unit := mkHState (fun r => r) (fun _ o => if o =? 8 then 0x12345678 else 0) tt.

(** Globals of 64 bits, 1 and 3, and one of 32, 2, on a host without any optional
    operation. *)
Definition ex_gen_wide : gen_state := mkGen ex_wide_ctx (fun _ => false) (fun _ _ _ => false) 0.
Definition bare_has : TargetHas := {|
  TCG_TARGET_HAS_un _ _ := false; TCG_TARGET_HAS_bin _ _ := false; TCG_TARGET_HAS_div _ := false; TCG_TARGET_HAS_rem _ := false;
  TCG_TARGET_HAS_div2 _ := false; TCG_TARGET_HAS_rot _ := false; TCG_TARGET_HAS_deposit _ := false;
  TCG_TARGET_deposit_valid _ _ _ := true; TCG_TARGET_HAS_movcond _ := false; TCG_TARGET_HAS_add2 _ := false;
  TCG_TARGET_HAS_sub2 _ := false; TCG_TARGET_HAS_mulu2 _ := false; TCG_TARGET_HAS_muls2 _ := false |}.

(** The functions of tcg-runtime.c at some addresses. *)
Definition runtime_address (f : runtime_helper) : Z :=
  match f with
  | tcg_helper_div W32 => 1 | tcg_helper_rem W32 => 2 | tcg_helper_divu W32 => 3 | tcg_helper_remu W32 => 4
  | tcg_helper_div W64 => 5 | tcg_helper_rem W64 => 6 | tcg_helper_divu W64 => 7 | tcg_helper_remu W64 => 8
  | tcg_helper_muluh_i64 => 9 | tcg_helper_mulsh_i64 => 10
  end.
Definition runtime_at (fn : Z) : option runtime_helper :=
  find (fun f => runtime_address f =? fn)
    (flat_map (fun w => [tcg_helper_div w; tcg_helper_rem w; tcg_helper_divu w; tcg_helper_remu w]) [W32; W64] ++
     [tcg_helper_muluh_i64; tcg_helper_mulsh_i64]).
Definition dividing_host : Host unit := mkHost
  (fun op cs ins w =>
    let x := arg ins 0 in
    let y := arg ins 2 in
    let both wd f g := OContinue [default 0 (bin_sem f (bits wd) x y); default 0 (bin_sem g (bits wd) x y)] w in
    match op with
    | op_div2 wd => both wd Bdiv Brem
    | op_divu2 wd => both wd Bdivu Bremu
    | _ => OContinue [] w
    end)
  (fun _ ins seen w =>
    match runtime_at (arg ins 2) with
    | Some f => CReturn [default 0 (runtime f (arg ins 0) (arg ins 1))] [] w
    | None => CReturn [] seen w
    end).
Lemma dividing_host_ok : runtime_host dividing_host runtime_address.
Proof.
  split.
  - intros w x y wo q r Eq Er. cbn [h_op dividing_host]. unfold arg. cbn [nth]. by rewrite Eq, Er.
  - intros w x y wo q r Eq Er. cbn [h_op dividing_host]. unfold arg. cbn [nth]. by rewrite Eq, Er.
  - intros f x y v wo E. cbn [h_call dividing_host]. unfold arg. cbn [nth].
    assert (runtime_at (u64 (runtime_address f)) = Some f) as -> by (by destruct f as [[]|[]|[]|[]| |]). by rewrite E.
Qed.

(** What a denotation says of the operations emitted, from the globals. *)
Lemma denotes_start {W} (host : Host W) strict tgt T avail G g E' den :
  0 <= nb_globals (ctx G) <= TCG_MAX_TEMPS - 8 ->
  denotes host strict tgt T avail (nb_globals (ctx G) + 8) (front_start G T 4 4) g E' den ->
  exists G' es, g (tcg_func_start G) = Ok (tt, G', es) /\
    forall a, in_range (front_start G T 4 4) a -> next_shows E' (den a) (execs host (ctx G') (fun _ => false) 0 es a).
Proof.
  intros Hg [_ Hd]. destruct (Hd (tcg_func_start G)) as (G' & es & Eg & _ & _ & _ & Hs); [apply start_models; cbn in *; lia|].
  exists G', es. split; [done|]. intros a Ha. apply (Hs (ctx G') (grows_refl _)). split; [done|]. intros t c Hc.
  unfold opnd. specialize (Ha t c Hc). symmetry. by apply uwrap_id.
Qed.

(** The value a generator leaves in a temporary. *)
Definition left_in {W} (n : next W) (w : width) (t : Z) : option Z := match n with Fall m => Some (opnd w m t) | _ => None end.
Lemma computed_at {W} (host : Host W) strict tgt T avail G g r w f a v :
  0 <= nb_globals (ctx G) <= TCG_MAX_TEMPS - 8 ->
  denotes host strict tgt T avail (nb_globals (ctx G) + 8) (front_start G T 4 4) g (put_env (front_start G T 4 4) r)
    (fun a => result w a r (f a)) ->
  is_global (ctx G) r -> type (ctx G) r = w -> in_range (front_start G T 4 4) a -> f a = Some v ->
  exists G' es, g (tcg_func_start G) = Ok (tt, G', es) /\ left_in (execs host (ctx G') (fun _ => false) 0 es a) w r = Some v.
Proof.
  intros Hg Hd Hr Hw Ha Hf. destruct (denotes_start _ _ _ _ _ _ _ _ _ Hg Hd) as (G' & es & Eg & Hs). exists G', es. split; [done|].
  specialize (Hs a Ha). rewrite Hf in Hs. cbn [result] in Hs. destruct (execs _ _ _ _ _ _) as [m| | |]; try done. destruct Hs as [_ Hs].
  destruct (start_readable G T 4 4 r Hr) as (c & Ec & Ety & Hk). rewrite Hw in Ety.
  specialize (Hs r (know true c)). rewrite put_env_eq, Ec, Z.eqb_refl in Hs. cbn [option_map orb] in Hs. specialize (Hs eq_refl).
  rewrite regs_put_same in Hs. cbn [left_in]. f_equal. cbn [know c_w] in Hs. by rewrite <- Ety.
Qed.

Definition wide_state : mstate unit := mkState (fun t => if t =? 1 then 0xf123456789abcdef else if t =? 3 then 2 ^ 64 - 10 else 0x12345678) tt.
Lemma wide_range : in_range (front_start ex_gen_wide ex_temps 4 4) wide_state.
Proof.
  intros t c [Ht ->]%start_cell. cbn [c_w]. assert (t = 0 \/ t = 1 \/ t = 2 \/ t = 3) as H by (unfold is_global in Ht; cbn in Ht; lia).
  by destruct H as [->|[->|[->| ->]]].
Qed.

(** A generator on [wide_state], by its denotation. *)
Ltac wide_value H := eapply computed_at; [by vm_compute|apply H|by vm_compute|reflexivity|apply wide_range|vm_compute; reflexivity].
Ltac wide_fact := first [apply (start_readable ex_gen_wide ex_temps 4 4); by vm_compute | apply (start_writable ex_gen_wide ex_temps 4 4); by vm_compute | done].

Lemma leaving_host_fits s T : host_fits s T leaving_host.
Proof.
  split; [split|by intros flags ins seen w _ t|done].
  - intros op cs ins w H. destruct op; try done; by eexists.
  - intros op cs ins w H. destruct op; try done; by eexists _, _.
  - intros flags ins seen w _. by eexists _, _, _.
  - intros flags ins seen w _. by eexists _, _.
Qed.

(** ** Temporaries *)
Definition in_use (G : gen_state) (t : Z) : Prop := nb_globals (ctx G) <= t < nb_temps (ctx G) /\ temp_allocated G t = true.
(** [t] is new in [G'], everything else as in [G]. *)
Record allocates (G G' : gen_state) (ty : width) (loc : bool) (t : Z) : Prop := {
  al_wf : gen_wf G';
  al_max : nb_temps (ctx G') <= TCG_MAX_TEMPS;
  al_idle : ~ in_use G t;
  al_used : in_use G' t;
  al_type : type (ctx G') t = ty /\ temp_local (ctx G') t = loc;
  al_grows : grows (ctx G) (ctx G');
  al_rest : forall u, u <> t -> (in_use G' u <-> in_use G u);
}.

Lemma reused G ty loc i : gen_wf G -> nb_temps (ctx G) <= TCG_MAX_TEMPS -> free_temps G ty loc i = true ->
  allocates G (set_allocated i true (set_free ty loc i false G)) ty loc i.
Proof.
  intros [Wg Wf] Hm Hf. destruct (Wf _ _ _ Hf) as (R & A & Ty & L). split; try done.
  - split; [done|]. intros w l j. cbn. destruct (bool_decide (w = ty) && bool_decide (l = loc) && (j =? i)) eqn:Eb; [done|]. intros H.
    destruct (Wf _ _ _ H) as (R1 & R2 & R3 & R4). split; [done|]. split; [|by split]. destruct (Z.eqb_spec j i) as [Ej|]; [|done].
    exfalso. subst j. rewrite Ty in R3. rewrite L in R4. by rewrite !bool_decide_eq_true_2 in Eb.
  - intros [_ H]. congruence.
  - split; [done|]. cbn. by rewrite Z.eqb_refl.
  - intros u Hu. unfold in_use. cbn. by rewrite (proj2 (Z.eqb_neq u i)).
Qed.

Lemma extended G ty loc : gen_wf G -> nb_temps (ctx G) < TCG_MAX_TEMPS ->
  allocates G (set_allocated (nb_temps (ctx G)) true (G <| ctx := extend (ctx G) ty loc |>)) ty loc (nb_temps (ctx G)).
Proof.
  intros [Wg Wf] Hm. set (t := nb_temps (ctx G)). split.
  - split; [cbn; lia|]. intros w l j H. destruct (Wf w l j H) as (R1 & R2 & R3 & R4). cbn. fold t.
    rewrite (proj2 (Z.eqb_neq j t)) by lia. split; [lia|done].
  - cbn. fold t. lia.
  - intros [[_ H] _]. lia.
  - split; cbn; fold t; [lia|]. by rewrite Z.eqb_refl.
  - cbn. by rewrite Z.eqb_refl.
  - split; cbn; [done|lia|..]; intros u Hu; by rewrite (proj2 (Z.eqb_neq u _)) by lia.
  - intros u Hu. unfold in_use. cbn. fold t. rewrite (proj2 (Z.eqb_neq u t)) by done. split; (intros [? ?]; split; [lia|done]).
Qed.

Lemma freed G t : gen_wf G -> in_use G t -> exists G', tcg_temp_free t G = Ok (tt, G', []) /\ gen_wf G' /\ ctx G' = ctx G /\
  free_temps G' (type (ctx G) t) (temp_local (ctx G) t) t = true /\
  forall u, temp_allocated G' u = if u =? t then false else temp_allocated G u.
Proof.
  intros [Wg Wf] [Hr Ha]. unfold tcg_temp_free, bind, gets, assert_. cbv beta iota zeta.
  rewrite (proj2 (Z.leb_le _ _)), (proj2 (Z.ltb_lt _ _)) by lia. cbn. rewrite Ha. cbn. eexists. split; [reflexivity|]. split; [split|split; [done|split; [|done]]].
  - done.
  - intros w l j. cbn. destruct (bool_decide (w = type (ctx G) t) && bool_decide (l = temp_local (ctx G) t) && (j =? t)) eqn:Eb.
    + apply andb_true_iff in Eb as [[Ew%bool_decide_eq_true_1 El%bool_decide_eq_true_1]%andb_true_iff ->%Z.eqb_eq]. rewrite Z.eqb_refl. subst. auto.
    + intros H. destruct (Wf _ _ _ H) as (R1 & R2 & R3). split; [done|]. split; [|done]. by destruct (j =? t).
  - cbn. by rewrite !bool_decide_eq_true_2, Z.eqb_refl.
Qed.

(** ** The theorems *)

(** C13: Temporaries: asked for one, [tcg_temp_new_internal] aborts when there is
    none to be used again of that type and locality and the table is full;
    otherwise it gives a temporary that is not in use, of the type and locality
    asked for, and changes no other; and given back, that temporary is on the list of its
    type and locality again.  Every list holds only temporaries that are not in
    use, of its own type and locality. *)
Theorem temporaries_correct G ty loc :
  gen_wf G -> nb_temps (ctx G) <= TCG_MAX_TEMPS ->
  (tcg_temp_new_internal ty loc G = Fault TcgAbort /\ nb_temps (ctx G) = TCG_MAX_TEMPS /\ forall i, free_temps G ty loc i = false) \/
  exists t G', tcg_temp_new_internal ty loc G = Ok (t, G', []) /\ allocates G G' ty loc t /\
    exists G'', tcg_temp_free t G' = Ok (tt, G'', []) /\ gen_wf G'' /\ ctx G'' = ctx G' /\ free_temps G'' ty loc t = true /\
      forall u, in_use G'' u <-> in_use G u.
Proof.
  intros HG Hm.
  assert (forall t G', tcg_temp_new_internal ty loc G = Ok (t, G', []) -> allocates G G' ty loc t ->
    exists t G', tcg_temp_new_internal ty loc G = Ok (t, G', []) /\ allocates G G' ty loc t /\
      exists G'', tcg_temp_free t G' = Ok (tt, G'', []) /\ gen_wf G'' /\ ctx G'' = ctx G' /\ free_temps G'' ty loc t = true /\
        forall u, in_use G'' u <-> in_use G u) as Hok.
  { intros t G' E Ha. exists t, G'. split; [done|]. split; [done|]. destruct Ha as [Hwf _ Hi Hu [Hty Hl] [Gg Gt _ _] Hrest].
    destruct (freed G' t Hwf Hu) as (G'' & Ef & Hwf' & Ec & Hf & Hall). exists G''. rewrite Hty, Hl in Hf. split_and!; try done.
    intros u. unfold in_use at 1. rewrite Ec, Hall. destruct (Z.eqb_spec u t) as [->|Hne]; [split; [by intros [_ ?]|done]|].
    apply (Hrest u Hne). }
  unfold tcg_temp_new_internal, bind, gets, find_first_bit in *. cbv beta iota zeta in *.
  destruct (find (free_temps G ty loc) (seqZ 0 TCG_MAX_TEMPS)) as [i|] eqn:Ef.
  - right. apply find_some in Ef as [Hi%list_elem_of_In%in_temps Hf]. rewrite (proj2 (Z.ltb_lt i TCG_MAX_TEMPS)) in * by lia.
    destruct (gw_free _ HG _ _ _ Hf) as (_ & _ & Ti & Li). cbn in *. rewrite !bool_decide_eq_true_2 in * by done.
    eapply Hok; [reflexivity|]. by apply reused.
  - rewrite Z.ltb_irrefl in *. cbn in *. unfold tcg_temp_alloc in *. destruct (Z.ltb_spec TCG_MAX_TEMPS (nb_temps (ctx G) + 1)); cbn in *.
    + left. split; [done|]. split; [lia|]. intros i. apply not_true_is_false. intros Hf. destruct (gw_free _ HG _ _ _ Hf) as (Hi & _).
      destruct (gw_globals _ HG). assert (i ∈ seqZ 0 TCG_MAX_TEMPS) as Hin by (apply elem_of_seqZ; lia).
      rewrite (find_none _ _ Ef i (proj1 (list_elem_of_In _ _) Hin)) in Hf. done.
    + right. eapply Hok; [reflexivity|]. apply extended; [done|lia].
Qed.

Lemma temporaries_correct_witness :
  exists t G', tcg_temp_new_internal W32 true (tcg_func_start ex_gen) = Ok (t, G', []) /\ allocates (tcg_func_start ex_gen) G' W32 true t /\ t = 3.
Proof.
  destruct (temporaries_correct (tcg_func_start ex_gen) W32 true) as [(_ & H & _)|(t & G' & E & Ha & _)];
    [by split|by vm_compute|discriminate H|].
  exists t, G'. split; [exact E|]. split; [exact Ha|].
  pose proof (f_equal (fun x => match x with Ok (t, _, _) => Some t | Fault _ => None end) E) as Et. cbn in Et. by injection Et.
Defined.

(** C14: The flags of a guest access: for every combination, an access of 64 bits
    to a 32-bit temporary aborts, and any other has a canonical form of the same
    size that is its own canonical form: no byte order for bytes, the byte order
    kept otherwise, no sign for stores; and what a load makes of the bits it reads
    is the same. *)
Theorem canonicalize_memop_correct op w st :
  0 <= op < 16 ->
  (Z.land op MO_SIZE = 3 /\ w = W32 -> tcg_canonicalize_memop op (is64 w) st = Fault TcgAbort) /\
  (~ (Z.land op MO_SIZE = 3 /\ w = W32) -> exists op', tcg_canonicalize_memop op (is64 w) st = Ok op' /\
    tcg_canonicalize_memop op' (is64 w) st = Ok op' /\ Z.land op' MO_SIZE = Z.land op MO_SIZE /\
    Z.land op' MO_BSWAP = (if Z.land op MO_SIZE =? 0 then 0 else Z.land op MO_BSWAP) /\
    (st = true -> Z.land op' MO_SIGN = 0) /\
    (st = false -> forall idx raw, loaded (op_qemu_ld w) [op'; idx] raw = loaded (op_qemu_ld w) [op; idx] raw)).
Proof.
  intros Hop. assert (op ∈ seqZ 0 16) as Hin by (apply elem_of_seqZ; lia). clear Hop.
  change (seqZ 0 16) with [0; 1; 2; 3; 4; 5; 6; 7; 8; 9; 10; 11; 12; 13; 14; 15] in Hin.
  assert (forall x, uwrap 32 (swrap 32 x) = uwrap 32 (uwrap 32 x)) as Hs by (intros x; rewrite uwrap_swrap by lia; by rewrite uwrap_min by lia).
  repeat (apply elem_of_cons in Hin as [->|Hin]; [destruct w, st; split; intros Hn; first [discriminate (proj2 Hn)|discriminate (proj1 Hn)|reflexivity|by destruct Hn|eexists;
    split; [reflexivity|]; split; [reflexivity|]; split; [reflexivity|]; split; [reflexivity|]; split; [done|]; intros ?;
    first [discriminate | intros idx raw; first [reflexivity | exact (eq_sym (Hs raw))]]]|]).
  by apply elem_of_nil in Hin.
Qed.

(** A signed byte in the other byte order, to be stored. *)
Lemma canonicalize_memop_correct_witness :
  exists op', tcg_canonicalize_memop 12 false true = Ok op' /\ op' = 0.
Proof.
  destruct (proj2 (canonicalize_memop_correct 12 W32 true ltac:(done)) ltac:(by intros [? _])) as (op' & E & _).
  exists op'. split; [exact E|]. by injection E as <-.
Defined.

(** A rotation by a variable that is zero, on a host without rotations: the
    sequence shifts by the width, which the intermediate code leaves undefined. *)
Lemma rotl_by_zero_undefined :
  let s := mkState (fun t => if t =? 1 then 5 else 0) tt in
  bin_sem Brotl 64 5 0 = Some 5 /\
  exists G' es, tcg_gen_rotl bare_has W64 3 1 3 (tcg_func_start ex_gen_wide) = Ok (tt, G', es) /\
    execs idle_host (ctx G') (fun _ => false) 0 es s = Undef /\
    map opc es = [op_bin Bshl W64; op_movi W64; op_bin Bsub W64; op_bin Bshr W64; op_bin Bor W64].
Proof. split; [done|]. eexists _, _. split; [reflexivity|]. split; vm_compute; reflexivity. Qed.

(** C2: A translated guest instruction is correct on x86-64, end to end.  When a
    sequence of generator calls denotes [den], from the globals and any room for
    temporaries that fits the frame, then: the generators return; the optimiser,
    the liveness pass and the register allocator take what they emit without a
    fault; and whenever [den], run on the globals as the host holds them, leaves
    the block, the host code leaves too, with the world and the globals that
    [den] computes - whatever registers, slots, dead results and renamed copies
    the passes chose. *)
Theorem front_end_correct {W} (host : Host W) bmi2 T G c32 c64 g E' den T0 st0 :
  let s0 := ctx (tcg_func_start G) in
  env_globals s0 T ->
  0 <= c32 /\ 0 <= c64 /\ c32 + c64 <= CPU_TEMP_BUF_NLONGS /\ nb_globals (ctx G) + CPU_TEMP_BUF_NLONGS <= TCG_MAX_TEMPS ->
  x86_denotes host bmi2 T G c32 c64 g E' den ->
  exists G' es E code, g (tcg_func_start G) = Ok (tt, G', es) /\
    tcg_gen_code (ctx G') (x86_target bmi2) T no_high T0 st0 es = Ok (tt, E, code) /\
    forall junk h b, host_fits (ctx G') T host -> bases_apart (ctx G') (x86_target bmi2) T (hreg h) ->
      den (guest_state s0 T h) = Leave b ->
      exists f h', hrun (ctx G') (x86_target bmi2) T host junk f code 0 h = HLeft h' /\ world b = hworld h' /\
        forall t, is_global s0 t -> cells E' t <> None -> regs b t = hglobal s0 T h' t.
Proof. intros s0 HT Hroom. by apply front_end_code. Qed.

(** The guest's [r2 := rotl r1 8 + 5]. *)
Lemma front_end_correct_witness :
  exists G' es E code, guest_insn (x86_has false) (tcg_func_start ex_gen) = Ok (tt, G', es) /\
    tcg_gen_code (ctx G') (x86_target false) ex_temps no_high ex_infos ex_live0 es = Ok (tt, E, code) /\
    exists f h', hrun (ctx G') (x86_target false) ex_temps leaving_host id f code 0 guest_host = HLeft h' /\
      hglobal (ctx (tcg_func_start ex_gen)) ex_temps h' 2 = 0x34567817.
Proof.
  destruct (guest_insn_denotes false false) as (E' & Hd & H2).
  destruct (front_end_correct leaving_host false ex_temps ex_gen 4 4 (guest_insn (x86_has false)) E' guest_den ex_infos ex_live0 ex_start_env) as (G' & es & E & code & Eg & Ec & Hrun);
    [by vm_compute|exact Hd|].
  exists G', es, E, code. split; [exact Eg|]. split; [exact Ec|].
  destruct (Hrun id guest_host (put (guest_state (ctx (tcg_func_start ex_gen)) ex_temps guest_host) 2 0x34567817)) as (f & h' & Ef & _ & Hv).
  - apply leaving_host_fits.
  - by intros b b' _ _ E1.
  - reflexivity.
  - exists f, h'. split; [exact Ef|]. rewrite <- (Hv 2); [reflexivity|by vm_compute|exact H2].
Defined.

(** A host of any kind: [has] tells which optional operations the generators may
    use, [address] where the functions of tcg-runtime.c are.  With [strict] what
    they emit passes the checks of the later passes, if these take what [has]
    promises. *)
Section families.
Context {W : Type} (host : Host W) (strict : bool) (tgt : Target) (T : Z -> TCGTemp) (avail : TCGOpcode -> Prop) (most : Z).
Context (has : TargetHas) (address : runtime_helper -> Z).
Notation denotes := (denotes host strict tgt T avail most).
Notation double_ok := (double_ok host strict tgt T avail most).
Notation computes E g r w f := (denotes E g (put_env E r) (fun a => result w a r (f a))).
Hypothesis (Hserves : strict = true -> serves has (takes avail)).

(** C12: The generators with a constant operand compute on the constant cut to
    the width, whatever shortcut they take (a copy, a zero, all ones, an
    extension, an inversion) and whether or not the result is the operand. *)
Theorem immediate_generators_correct E w r x v :
  1 <= credit E w -> writable E r w -> readable E x w ->
  let c := uwrap (bits w) v in
  computes E (tcg_gen_addi w r x v) r w (fun a => bin_sem Badd (bits w) (regs a x) c) /\
  computes E (tcg_gen_subi w r x v) r w (fun a => bin_sem Bsub (bits w) (regs a x) c) /\
  computes E (tcg_gen_subfi w r v x) r w (fun a => bin_sem Bsub (bits w) c (regs a x)) /\
  computes E (tcg_gen_muli w r x v) r w (fun a => bin_sem Bmul (bits w) (regs a x) c) /\
  computes E (tcg_gen_andi has w r x c) r w (fun a => bin_sem Band (bits w) (regs a x) c) /\
  computes E (tcg_gen_ori w r x v) r w (fun a => bin_sem Bor (bits w) (regs a x) c) /\
  computes E (tcg_gen_xori has w r x v) r w (fun a => bin_sem Bxor (bits w) (regs a x) c) /\
  computes E (tcg_gen_shli w r x v) r w (fun a => bin_sem Bshl (bits w) (regs a x) c) /\
  computes E (tcg_gen_shri w r x v) r w (fun a => bin_sem Bshr (bits w) (regs a x) c) /\
  computes E (tcg_gen_sari w r x v) r w (fun a => bin_sem Bsar (bits w) (regs a x) c).
Proof.
  intros Hc Hr Hx c. assert (fits (bits w) c) as Hf by (apply uwrap_fits; pose proof (W_pos w); lia).
  split_and!; eauto using tcg_gen_addi_ok, tcg_gen_subi_ok, tcg_gen_subfi_ok, tcg_gen_muli_ok, tcg_gen_ori_ok, tcg_gen_xori_ok,
    tcg_gen_shli_ok, tcg_gen_shri_ok, tcg_gen_sari_ok.
  by apply tcg_gen_andi_ok.
Qed.

(** C8: The generators of extensions, negations, combined logic, byte swaps,
    rotations and bit fields compute the same on a host that has the operation
    and on one where a sequence stands in for it: a rotation by a variable of
    zero excepted, for which the sequence shifts by the width. *)
Theorem word_generators_correct E w r x y :
  3 <= credit E w -> writable E r w -> readable E x w -> readable E y w ->
  computes E (tcg_gen_ext8s has w r x) r w (fun a => un_sem Uext8s (bits w) (regs a x)) /\
  computes E (tcg_gen_ext16s has w r x) r w (fun a => un_sem Uext16s (bits w) (regs a x)) /\
  computes E (tcg_gen_ext8u has w r x) r w (fun a => Some (u8 (regs a x))) /\
  computes E (tcg_gen_ext16u has w r x) r w (fun a => Some (u16 (regs a x))) /\
  computes E (tcg_gen_neg has w r x) r w (fun a => Some (uwrap (bits w) (- regs a x))) /\
  computes E (tcg_gen_not has w r x) r w (fun a => Some (uwrap (bits w) (Z.lnot (regs a x)))) /\
  computes E (tcg_gen_andc has w r x y) r w (fun a => bin_sem Bandc (bits w) (regs a x) (regs a y)) /\
  computes E (tcg_gen_orc has w r x y) r w (fun a => bin_sem Borc (bits w) (regs a x) (regs a y)) /\
  computes E (tcg_gen_eqv has w r x y) r w (fun a => bin_sem Beqv (bits w) (regs a x) (regs a y)) /\
  computes E (tcg_gen_nand has w r x y) r w (fun a => bin_sem Bnand (bits w) (regs a x) (regs a y)) /\
  computes E (tcg_gen_nor has w r x y) r w (fun a => bin_sem Bnor (bits w) (regs a x) (regs a y)) /\
  computes E (tcg_gen_bswap16 has w r x) r w (fun a => un_sem Ubswap16 (bits w) (regs a x)) /\
  computes E (tcg_gen_bswap32 has w r x) r w (fun a => un_sem Ubswap32 (bits w) (regs a x)) /\
  (w = W64 -> computes E (tcg_gen_bswap64_i64 has r x) r W64 (fun a => un_sem Ubswap64 64 (regs a x))) /\
  computes E (tcg_gen_rotl has w r x y) r w (fun a =>
    if TCG_TARGET_HAS_rot has w || negb (regs a y =? 0) then bin_sem Brotl (bits w) (regs a x) (regs a y) else None) /\
  computes E (tcg_gen_rotr has w r x y) r w (fun a =>
    if TCG_TARGET_HAS_rot has w || negb (regs a y =? 0) then bin_sem Brotr (bits w) (regs a x) (regs a y) else None) /\
  (forall v, count_in w v ->
    computes E (tcg_gen_rotli has w r x v) r w (fun a => bin_sem Brotl (bits w) (regs a x) v) /\
    computes E (tcg_gen_rotri has w r x v) r w (fun a => bin_sem Brotr (bits w) (regs a x) v)) /\
  (forall ofs len, 0 <= ofs -> 0 < len -> ofs + len <= bits w ->
    computes E (tcg_gen_deposit has w r x y ofs len) r w (fun a => Some (deposit_value (regs a x) (regs a y) ofs len))).
Proof.
  intros Hc Hr Hx Hy. assert (1 <= credit E w) as H1 by lia. assert (2 <= credit E w) as H2 by lia.
  split_and!; eauto using tcg_gen_ext8s_ok, tcg_gen_ext16s_ok, tcg_gen_ext8u_ok, tcg_gen_ext16u_ok, tcg_gen_neg_ok, tcg_gen_not_ok,
    tcg_gen_andc_ok, tcg_gen_orc_ok, tcg_gen_eqv_ok, tcg_gen_nand_ok, tcg_gen_nor_ok, tcg_gen_bswap16_ok, tcg_gen_bswap32_ok,
    tcg_gen_rotl_ok, tcg_gen_rotr_ok, tcg_gen_rotli_ok, tcg_gen_rotri_ok, tcg_gen_deposit_ok.
  intros ->. by apply tcg_gen_bswap64_i64_ok.
Qed.

(** C11: Comparisons: the generators of a comparison as a value, as a choice and
    as a branch, with a register and with a constant, agree with the condition -
    "always" and "never" included - on a host with a conditional move and on one
    that chooses by masks. *)
Theorem comparison_generators_correct E w c r x y :
  4 <= credit E w -> writable E r w -> readable E x w -> readable E y w -> cond_ok c ->
  computes E (tcg_gen_setcond w c r x y) r w (fun a => option_map cbool (cond_value c (bits w) (regs a x) (regs a y))) /\
  (forall u v, c ∈ tcg_conds -> readable E u w -> readable E v w ->
    computes E (tcg_gen_movcond has w c r x y u v) r w
      (fun a => option_map (fun b : bool => if b then regs a u else regs a v) (cond_sem c (bits w) (regs a x) (regs a y)))) /\
  (forall l, denotes E (tcg_gen_brcond w c x y l) (end_env E) (fun a => branch (cond_value c (bits w) (regs a x) (regs a y)) l a)) /\
  (forall v, computes E (tcg_gen_setcondi w c r x v) r w (fun a => option_map cbool (cond_value c (bits w) (regs a x) (uwrap (bits w) v)))) /\
  (forall v l, denotes E (tcg_gen_brcondi w c x v l) (end_env E)
    (fun a => branch (cond_value c (bits w) (regs a x) (uwrap (bits w) v)) l a)).
Proof.
  intros Hcr Hr Hx Hy Hc. assert (1 <= credit E w) as H1 by lia.
  split_and!; eauto using tcg_gen_setcond_ok, tcg_gen_setcondi_ok, tcg_gen_movcond_ok, tcg_gen_brcond_ok, tcg_gen_brcondi_ok.
Qed.

(** C9: Divisions: with an instruction for the quotient, with one for quotient
    and remainder of a double word, or with the functions of tcg-runtime.c, the
    generators compute the quotient and the remainder, signed and unsigned,
    where the division is defined. *)
Theorem division_generators_correct E w r x y :
  runtime_host host address -> (strict = true -> forall r x y fn, fit_call tgt (helper_args r x y fn) = true) ->
  2 <= credit E w -> 1 <= credit E W64 -> writable E r w -> readable E x w -> readable E y w ->
  computes E (tcg_gen_div has address w r x y) r w (fun a => bin_sem Bdiv (bits w) (regs a x) (regs a y)) /\
  computes E (tcg_gen_rem has address w r x y) r w (fun a => bin_sem Brem (bits w) (regs a x) (regs a y)) /\
  computes E (tcg_gen_divu has address w r x y) r w (fun a => bin_sem Bdivu (bits w) (regs a x) (regs a y)) /\
  computes E (tcg_gen_remu has address w r x y) r w (fun a => bin_sem Bremu (bits w) (regs a x) (regs a y)).
Proof. intros Hrt Hcall Hc Hc' Hr Hx Hy. split_and!; eauto using tcg_gen_div_ok, tcg_gen_rem_ok, tcg_gen_divu_ok, tcg_gen_remu_ok. Qed.

(** C10: Double words of 64-bit halves: sums with their carry, differences with
    their borrow and the two products, on a host with the operation, with the
    high product only, or with neither, give both halves of the exact result;
    a result register may be an operand. *)
Theorem double_word_generators_correct E rl rh x y :
  runtime_host host address -> (strict = true -> forall r x y fn, fit_call tgt (helper_args r x y fn) = true) ->
  2 <= credit E W64 -> writable E rl W64 -> writable E rh W64 -> rl <> rh -> readable E x W64 -> readable E y W64 ->
  (forall u v, readable E u W64 -> readable E v W64 ->
    double_ok E (tcg_gen_add2_i64 has rl rh x u y v) (op_add2 W64) W64 rl rh [x; u; y; v] /\
    double_ok E (tcg_gen_sub2_i64 has rl rh x u y v) (op_sub2 W64) W64 rl rh [x; u; y; v]) /\
  double_ok E (tcg_gen_mulu2_i64 has address rl rh x y) (op_mulu2 W64) W64 rl rh [x; y] /\
  double_ok E (tcg_gen_muls2_i64 has address rl rh x y) (op_muls2 W64) W64 rl rh [x; y].
Proof.
  intros Hrt Hcall Hc Hl Hh Hne Hx Hy. split_and!; eauto using tcg_gen_mulu2_i64_ok, tcg_gen_muls2_i64_ok.
  intros u v Hu Hv. split; eauto using tcg_gen_add2_i64_ok, tcg_gen_sub2_i64_ok.
Qed.
End families.

(** Masks and negative constants on x86-64. *)
Lemma immediate_generators_correct_witness :
  exists G' es, tcg_gen_addi W64 3 1 (-1) (tcg_func_start ex_gen_wide) = Ok (tt, G', es) /\
    left_in (execs idle_host (ctx G') (fun _ => false) 0 es wide_state) W64 3 = Some 0xf123456789abcdee.
Proof.
  destruct (immediate_generators_correct idle_host true (x86_target false) ex_temps x86_avail (4 + 8) (x86_has false) (fun _ => x86_serves false)
    (front_start ex_gen_wide ex_temps 4 4) W64 3 1 (-1)) as (H & _); [wide_fact..|]. wide_value H.
Defined.

(** The bytes of a word, swapped by shifts and masks. *)
Lemma word_generators_correct_witness :
  exists G' es, tcg_gen_bswap64_i64 bare_has 3 1 (tcg_func_start ex_gen_wide) = Ok (tt, G', es) /\
    left_in (execs idle_host (ctx G') (fun _ => false) 0 es wide_state) W64 3 = Some 0xefcdab89674523f1.
Proof.
  destruct (word_generators_correct idle_host false (x86_target false) ex_temps x86_avail (4 + 8) bare_has ltac:(done)
    (front_start ex_gen_wide ex_temps 4 4) W64 3 1 3) as (_ & _ & _ & _ & _ & _ & _ & _ & _ & _ & _ & _ & _ & Hb & _); [wide_fact..|].
  pose proof (Hb eq_refl) as H. wide_value H.
Defined.

(** The lesser of two, in place of one of them, by masks. *)
Lemma comparison_generators_correct_witness :
  exists G' es, tcg_gen_movcond bare_has W64 TCG_COND_LT 3 1 3 1 3 (tcg_func_start ex_gen_wide) = Ok (tt, G', es) /\
    left_in (execs idle_host (ctx G') (fun _ => false) 0 es wide_state) W64 3 = Some 0xf123456789abcdef.
Proof.
  destruct (comparison_generators_correct idle_host false (x86_target false) ex_temps x86_avail (4 + 8) bare_has ltac:(done)
    (front_start ex_gen_wide ex_temps 4 4) W64 TCG_COND_LT 3 1 3) as (_ & Hm & _); [wide_fact..|right; right; by right; right; left|].
  pose proof (Hm 1 3) as H. specialize (H ltac:(by right; right; left) ltac:(wide_fact) ltac:(wide_fact)). wide_value H.
Defined.

(** A negative number by minus ten, with the function of tcg-runtime.c. *)
Lemma division_generators_correct_witness :
  exists G' es, tcg_gen_rem bare_has runtime_address W64 3 1 3 (tcg_func_start ex_gen_wide) = Ok (tt, G', es) /\
    left_in (execs dividing_host (ctx G') (fun _ => false) 0 es wide_state) W64 3 = Some (2 ^ 64 - 1).
Proof.
  destruct (division_generators_correct dividing_host false (x86_target false) ex_temps x86_avail (4 + 8) bare_has runtime_address ltac:(done)
    (front_start ex_gen_wide ex_temps 4 4) W64 3 1 3 dividing_host_ok) as (_ & H & _); [wide_fact..|]. wide_value H.
Defined.

(** The high half of a product, over its operand. *)
Lemma double_word_generators_correct_witness :
  exists G' es, tcg_gen_mulu2_i64 bare_has runtime_address 1 3 1 3 (tcg_func_start ex_gen_wide) = Ok (tt, G', es) /\
    left_in (execs dividing_host (ctx G') (fun _ => false) 0 es wide_state) W64 3 = Some 0xf123456789abcde5.
Proof.
  destruct (double_word_generators_correct dividing_host false (x86_target false) ex_temps x86_avail (4 + 8) bare_has runtime_address ltac:(done)
    (front_start ex_gen_wide ex_temps 4 4) 1 3 1 3 dividing_host_ok) as (_ & H & _); [wide_fact..|].
  destruct (denotes_start dividing_host false (x86_target false) ex_temps x86_avail ex_gen_wide _ _ _ ltac:(by vm_compute) H) as (G' & es & Eg & Hs). exists G', es. split; [exact Eg|].
  specialize (Hs wide_state wide_range). cbn [next_shows] in Hs. destruct (execs _ _ _ _ _ _) as [m| | |]; try done.
  destruct Hs as [_ Hs]. specialize (Hs 3 (mkCell W64 false true true) eq_refl). cbn [left_in c_w] in Hs |- *. rewrite <- Hs. by vm_compute.
Defined.
End TcgGuest.
