(* ===== verification/ArmCpu.v ===== *)
(** The state of the ARM processor (target-arm/cpu.h) and its status register:
    reading and writing CPSR, whose flags are kept in words of their own, and
    the registers each processor mode has for itself (target-arm/helper.c). *)
From Stdlib Require Import ZArith Lia Bool Btauto.
From stdpp Require Import base numbers list.
From S2P Require Import Prelude.
Local Open Scope Z_scope.

Module ArmCpu.

(** ** The state

    The members that integer code uses.  N is bit 31 of [NF], Z is set if [ZF]
    is zero, C is [CF], V is bit 31 of [VF]. *)
Record CPUARMState := mkCPU {
  regs : Z -> Z;
  uncached_cpsr : Z;
  spsr : Z;
  banked_spsr : Z -> Z;
  banked_r13 : Z -> Z;
  banked_r14 : Z -> Z;
  usr_regs : Z -> Z;
  fiq_regs : Z -> Z;
  CF : Z;
  VF : Z;
  NF : Z;
  ZF : Z;
  QF : Z;
  GE : Z;
  thumb : Z;
  condexec_bits : Z;
}.
#[export] Instance CPUARMState_eta : Settable CPUARMState := fun env =>
  mkCPU (regs env) (uncached_cpsr env) (spsr env) (banked_spsr env) (banked_r13 env) (banked_r14 env) (usr_regs env)
    (fiq_regs env) (CF env) (VF env) (NF env) (ZF env) (QF env) (GE env) (thumb env) (condexec_bits env).

Definition CPSR_M : Z := 0x1f.
Definition CPSR_T : Z := bit 5.
Definition CPSR_IT_2_7 : Z := 0xfc00.
Definition CPSR_GE : Z := Z.shiftl 0xf 16.
Definition CPSR_IT_0_1 : Z := Z.shiftl 3 25.
Definition CPSR_Q : Z := bit 27.
Definition CPSR_V : Z := bit 28.
Definition CPSR_C : Z := bit 29.
Definition CPSR_Z : Z := bit 30.
Definition CPSR_N : Z := bit 31.
Definition CPSR_NZCV : Z := Z.lor (Z.lor (Z.lor CPSR_N CPSR_Z) CPSR_C) CPSR_V.
Definition CPSR_IT : Z := Z.lor CPSR_IT_0_1 CPSR_IT_2_7.
Definition CACHED_CPSR_BITS : Z := Z.lor (Z.lor (Z.lor (Z.lor CPSR_T CPSR_GE) CPSR_IT) CPSR_Q) CPSR_NZCV.

Definition ARM_CPU_MODE_USR : Z := 0x10.
Definition ARM_CPU_MODE_FIQ : Z := 0x11.
Definition ARM_CPU_MODE_IRQ : Z := 0x12.
Definition ARM_CPU_MODE_SVC : Z := 0x13.
Definition ARM_CPU_MODE_SMC : Z := 0x16.
Definition ARM_CPU_MODE_ABT : Z := 0x17.
Definition ARM_CPU_MODE_UND : Z := 0x1b.
Definition ARM_CPU_MODE_SYS : Z := 0x1f.

(** ** Modes *)
Definition bank_number (mode : Z) : outcome Z :=
  if (mode =? ARM_CPU_MODE_USR) || (mode =? ARM_CPU_MODE_SYS) then Ok 0
  else if mode =? ARM_CPU_MODE_SVC then Ok 1
  else if mode =? ARM_CPU_MODE_ABT then Ok 2
  else if mode =? ARM_CPU_MODE_UND then Ok 3
  else if mode =? ARM_CPU_MODE_IRQ then Ok 4
  else if mode =? ARM_CPU_MODE_FIQ then Ok 5
  else if mode =? ARM_CPU_MODE_SMC then Ok 6
  else Fault (CpuAbort mode).

(** [memcpy(dst + d, src + s, n * sizeof(uint32_t))]. *)
Definition copy_words (dst : Z -> Z) (d : Z) (src : Z -> Z) (s n : Z) : Z -> Z :=
  fun i => if (d <=? i) && (i <? d + n) then src (i - d + s) else dst i.
Definition store (a : Z -> Z) (i v : Z) : Z -> Z := fun j => if j =? i then v else a j.

Definition switch_mode (env : CPUARMState) (mode : Z) : outcome CPUARMState :=
  let old_mode := Z.land (uncached_cpsr env) CPSR_M in
  if mode =? old_mode then Ok env
  else
    let env :=
      if old_mode =? ARM_CPU_MODE_FIQ then
        let env := env <| fiq_regs := copy_words (fiq_regs env) 0 (regs env) 8 5 |> in
        env <| regs := copy_words (regs env) 8 (usr_regs env) 0 5 |>
      else if mode =? ARM_CPU_MODE_FIQ then
        let env := env <| usr_regs := copy_words (usr_regs env) 0 (regs env) 8 5 |> in
        env <| regs := copy_words (regs env) 8 (fiq_regs env) 0 5 |>
      else env in
    obind (bank_number old_mode) (fun i =>
    let env := env <| banked_r13 := store (banked_r13 env) i (regs env 13) |>
                   <| banked_r14 := store (banked_r14 env) i (regs env 14) |>
                   <| banked_spsr := store (banked_spsr env) i (spsr env) |> in
    obind (bank_number mode) (fun i =>
    Ok (env <| regs := store (store (regs env) 13 (banked_r13 env i)) 14 (banked_r14 env i) |>
            <| spsr := banked_spsr env i |>))).

(** ** CPSR *)
Definition cpsr_read (env : CPUARMState) : Z :=
  let zf := cbool (ZF env =? 0) in
  Z.lor (Z.lor (Z.lor (Z.lor (Z.lor (Z.lor (Z.lor (Z.lor (Z.lor
    (uncached_cpsr env) (Z.land (NF env) 0x80000000)) (Z.shiftl zf 30))
    (u32 (Z.shiftl (CF env) 29))) (Z.shiftr (Z.land (VF env) 0x80000000) 3)) (u32 (Z.shiftl (QF env) 27)))
    (u32 (Z.shiftl (thumb env) 5))) (u32 (Z.shiftl (Z.land (condexec_bits env) 3) 25)))
    (Z.shiftl (Z.land (condexec_bits env) 0xfc) 8)) (u32 (Z.shiftl (GE env) 16)).

(** The part of [cpsr_write] before the mode is looked at. *)
Definition write_flags (env : CPUARMState) (val mask : Z) : CPUARMState :=
  let env :=
    if nz (Z.land mask CPSR_NZCV) then
      env <| ZF := Z.land (u32 (Z.lnot val)) CPSR_Z |> <| NF := val |>
          <| CF := Z.land (Z.shiftr val 29) 1 |> <| VF := Z.land (u32 (Z.shiftl val 3)) 0x80000000 |>
    else env in
  let env := if nz (Z.land mask CPSR_Q) then env <| QF := cbool (nz (Z.land val CPSR_Q)) |> else env in
  let env := if nz (Z.land mask CPSR_T) then env <| thumb := cbool (nz (Z.land val CPSR_T)) |> else env in
  let env :=
    if nz (Z.land mask CPSR_IT_0_1) then
      let env := env <| condexec_bits ::= fun b => Z.land b (u32 (Z.lnot 3)) |> in
      env <| condexec_bits ::= fun b => Z.lor b (Z.land (Z.shiftr val 25) 3) |>
    else env in
  let env :=
    if nz (Z.land mask CPSR_IT_2_7) then
      let env := env <| condexec_bits ::= fun b => Z.land b 3 |> in
      env <| condexec_bits ::= fun b => Z.lor b (Z.land (Z.shiftr val 8) 0xfc) |>
    else env in
  if nz (Z.land mask CPSR_GE) then env <| GE := Z.land (Z.shiftr val 16) 0xf |> else env.

Definition cpsr_write (env : CPUARMState) (val mask : Z) : outcome CPUARMState :=
  let env := write_flags env val mask in
  obind
    (if nz (Z.land (Z.land (Z.lxor (uncached_cpsr env) val) mask) CPSR_M) then switch_mode env (Z.land val CPSR_M)
     else Ok env) (fun env =>
  let mask := Z.land mask (u32 (Z.lnot CACHED_CPSR_BITS)) in
  Ok (env <| uncached_cpsr := Z.lor (Z.land (uncached_cpsr env) (u32 (Z.lnot mask))) (Z.land val mask) |>)).

(** ** Modes: no register is lost *)

(** Register [r], or with [r = 16] the saved status, as mode [m] has it, when the
    processor is in mode [cur]. *)
Definition bank (m : Z) : Z := match bank_number m with Ok i => i | Fault _ => -1 end.
Definition has_bank (m : Z) : Prop := is_ok (bank_number m) = true.
Definition mode_reg (env : CPUARMState) (cur m r : Z) : Z :=
  if (8 <=? r) && (r <? 13) then
    if Bool.eqb (m =? ARM_CPU_MODE_FIQ) (cur =? ARM_CPU_MODE_FIQ) then regs env r
    else if m =? ARM_CPU_MODE_FIQ then fiq_regs env (r - 8) else usr_regs env (r - 8)
  else if r =? 13 then if bank m =? bank cur then regs env 13 else banked_r13 env (bank m)
  else if r =? 14 then if bank m =? bank cur then regs env 14 else banked_r14 env (bank m)
  else if r =? 16 then if bank m =? bank cur then spsr env else banked_spsr env (bank m)
  else regs env r.

Lemma bank_ok m : has_bank m -> bank_number m = Ok (bank m).
Proof. unfold has_bank, bank. by destruct (bank_number m). Qed.

Lemma bank_fiq m : has_bank m -> bank m = bank ARM_CPU_MODE_FIQ -> m = ARM_CPU_MODE_FIQ.
Proof.
  change (bank ARM_CPU_MODE_FIQ) with 5. unfold has_bank, bank, bank_number. intros _ E.
  repeat (case_cond_in E; [try done; by apply Z.eqb_eq|]). done.
Qed.

Lemma bank_eqb m m' : has_bank m -> has_bank m' -> (m =? ARM_CPU_MODE_FIQ) <> (m' =? ARM_CPU_MODE_FIQ) -> bank m =? bank m' = false.
Proof.
  intros Hm Hm' Hne. apply Z.eqb_neq. intros E. destruct (Z.eqb_spec m ARM_CPU_MODE_FIQ) as [->|N1], (Z.eqb_spec m' ARM_CPU_MODE_FIQ) as [->|N2]; try done.
  - by apply N2, bank_fiq.
  - by apply N1, bank_fiq.
Qed.

(** Switching modes loses no register: from a known mode to a known mode
    [switch_mode] does not abort, and every mode's registers and saved status
    are then what they were, though the registers 8 to 14 are kept in one array
    for the current mode and in banks for the others. *)
Lemma switch_mode_keeps_registers env mode :
  let old := Z.land (uncached_cpsr env) CPSR_M in
  has_bank old -> has_bank mode ->
  exists env', switch_mode env mode = Ok env' /\
    (forall m r, has_bank m -> 0 <= r <= 16 -> mode_reg env' mode m r = mode_reg env old m r) /\
    uncached_cpsr env' = uncached_cpsr env /\ CF env' = CF env /\ VF env' = VF env /\ NF env' = NF env /\ ZF env' = ZF env /\
    QF env' = QF env /\ GE env' = GE env /\ thumb env' = thumb env /\ condexec_bits env' = condexec_bits env.
Proof.
  intros old Ho Hm. unfold switch_mode. fold old. destruct (Z.eqb_spec mode old) as [->|Hne]; [exists env; by split_and!|].
  rewrite (bank_ok old Ho), (bank_ok mode Hm). cbn [obind]. eexists. split; [reflexivity|].
  split; [|by destruct (old =? ARM_CPU_MODE_FIQ), (mode =? ARM_CPU_MODE_FIQ)].
  intros m r Hb Hr. unfold mode_reg.
  assert (forall f g h b, 8 <= r < 13 -> store (store (copy_words f 8 g 0 5) 13 h) 14 b r = g (r - 8) /\ store (store f 13 h) 14 b r = f r) as Hlow.
  { intros f g h b Hr'. unfold store, copy_words. rewrite (proj2 (Z.eqb_neq r 14)), (proj2 (Z.eqb_neq r 13)) by lia.
    rewrite (proj2 (Z.leb_le 8 r)), (proj2 (Z.ltb_lt r (8 + 5))) by lia. split; [f_equal; lia|done]. }
  assert (forall f g, 8 <= r < 13 -> copy_words f 0 g 8 5 (r - 8) = g r) as Hsave.
  { intros f g Hr'. unfold copy_words. rewrite (proj2 (Z.leb_le 0 _)), (proj2 (Z.ltb_lt _ _)) by lia. f_equal; lia. }
  destruct ((8 <=? r) && (r <? 13)) eqn:Er.
  - apply andb_true_iff in Er as [H1%Z.leb_le H2%Z.ltb_lt].
    destruct (Z.eqb_spec old ARM_CPU_MODE_FIQ) as [E1|], (Z.eqb_spec mode ARM_CPU_MODE_FIQ) as [E2|], (m =? ARM_CPU_MODE_FIQ); try congruence; cbn;
      first [rewrite (proj1 (Hlow _ _ _ _ ltac:(lia)))|rewrite (proj2 (Hlow (regs env) (regs env) _ _ ltac:(lia)))|idtac]; rewrite ?Hsave by lia; try done.
  - assert (forall f g h b i, ~ 8 <= i < 13 -> copy_words f 8 g 0 5 i = f i /\ store (store f 13 h) 14 b i = if i =? 14 then b else if i =? 13 then h else f i) as Hother.
    { intros f g h b i Hi. unfold store, copy_words. split; [|by destruct (i =? 14), (i =? 13)]. destruct (Z.leb_spec 8 i), (Z.ltb_spec i (8 + 5)); cbn; lia || done. }
    assert (~ 8 <= r < 13) as Hr' by (intros [H1 H2]; by rewrite (proj2 (Z.leb_le _ _)), (proj2 (Z.ltb_lt _ _)) in Er).
    set (e1 := if old =? _ then _ else _).
    assert (forall i, ~ 8 <= i < 13 -> ArmCpu.regs e1 i = regs env i) as Hregs.
    { intros i Hi. unfold e1. destruct (old =? _); [|destruct (mode =? _)]; cbn; try done; by rewrite (proj1 (Hother _ _ 0 0 i Hi)). }
    assert (banked_r13 e1 = banked_r13 env /\ banked_r14 e1 = banked_r14 env /\ banked_spsr e1 = banked_spsr env /\ spsr e1 = spsr env) as (B1 & B2 & B3 & B4)
      by (unfold e1; by destruct (old =? _); [|destruct (mode =? _)]).
    cbn. rewrite (proj2 (Hother (regs e1) (regs env) _ _ r Hr')), !Hregs, B1, B2, B3, B4 by lia.
    unfold store. destruct (Z.eqb_spec r 13) as [->|]; [|destruct (Z.eqb_spec r 14) as [->|]; [|destruct (Z.eqb_spec r 16) as [->|]; [|done]]]; cbn;
      destruct (Z.eqb_spec (bank m) (bank mode)), (Z.eqb_spec (bank mode) (bank old)), (Z.eqb_spec (bank m) (bank old)); congruence.
Qed.

(** ** CPSR: reading what was written *)

(** What keeps [cpsr_read] from mixing its parts: the flags have the width the
    comments of the structure give them, and [uncached_cpsr] no cached bit. *)
Record cpsr_ok (env : CPUARMState) : Prop := mkCpsrOk {
  ok_uncached : fits 32 (uncached_cpsr env);
  ok_cached : Z.land (uncached_cpsr env) CACHED_CPSR_BITS = 0;
  ok_CF : fits 1 (CF env);
  ok_QF : fits 1 (QF env);
  ok_thumb : fits 1 (thumb env);
  ok_GE : fits 4 (GE env);
  ok_IT : fits 8 (condexec_bits env);
}.

(** Bit [i] of the status register, where the state keeps it. *)
Definition cpsr_bit (env : CPUARMState) (i : Z) : bool :=
  if i =? 31 then Z.testbit (NF env) 31
  else if i =? 30 then ZF env =? 0
  else if i =? 29 then Z.testbit (CF env) 0
  else if i =? 28 then Z.testbit (VF env) 31
  else if i =? 27 then Z.testbit (QF env) 0
  else if i =? 5 then Z.testbit (thumb env) 0
  else if (25 <=? i) && (i <? 27) then Z.testbit (condexec_bits env) (i - 25)
  else if (10 <=? i) && (i <? 16) then Z.testbit (condexec_bits env) (i - 8)
  else if (16 <=? i) && (i <? 20) then Z.testbit (GE env) (i - 16)
  else Z.testbit (uncached_cpsr env) i.

(** The bits of a word one by one, and the evaluation of what is then closed. *)
Lemma word_bits (P : Z -> Prop) : Forall P (seqZ 0 32) -> forall i, 0 <= i < 32 -> P i.
Proof. rewrite Forall_forall. intros HP i Hi. apply HP, elem_of_seqZ. lia. Qed.

Ltac is_numeral v := match v with Z0 => idtac | Zpos _ => idtac | Zneg _ => idtac end.
Ltac closed_bits :=
  repeat match goal with
  | |- context [Z.testbit CACHED_CPSR_BITS ?k] =>
      let v := eval vm_compute in (Z.testbit CACHED_CPSR_BITS k) in change (Z.testbit CACHED_CPSR_BITS k) with v
  | |- context [Z.testbit (Zpos ?c) ?k] =>
      let v := eval vm_compute in (Z.testbit (Zpos c) k) in change (Z.testbit (Zpos c) k) with v
  | |- context [?a - Zpos ?b] => is_numeral a; let v := eval vm_compute in (a - Zpos b) in change (a - Zpos b) with v
  | |- context [?a + Zpos ?b] => is_numeral a; let v := eval vm_compute in (a + Zpos b) in change (a + Zpos b) with v
  | |- context [?a <? Zpos ?b] => is_numeral a; let v := eval vm_compute in (a <? Zpos b) in change (a <? Zpos b) with v
  end.

(** A bit beyond a field's width, below it, or kept elsewhere is clear. *)
Ltac clear_bits :=
  repeat match goal with
  | |- context [Z.testbit ?x (Zneg ?k)] => rewrite (Z.testbit_neg_r x (Zneg k)) by lia
  | H : fits ?w ?x |- context [Z.testbit ?x ?k] => rewrite (fits_testbit w x k ltac:(lia) H) by lia
  | Hc : forall j, _ -> Z.testbit ?x j = false |- context [Z.testbit ?x ?k] => rewrite (Hc k eq_refl)
  end.

Lemma cached_bit env i : cpsr_ok env -> Z.testbit CACHED_CPSR_BITS i = true -> Z.testbit (uncached_cpsr env) i = false.
Proof.
  intros Hok Hi. assert (Z.testbit (Z.land (uncached_cpsr env) CACHED_CPSR_BITS) i = false) as H by by rewrite (ok_cached _ Hok), Z.bits_0.
  by rewrite Z.land_spec, Hi, andb_true_r in H.
Qed.

Lemma cpsr_read_bit env i : cpsr_ok env -> 0 <= i < 32 -> Z.testbit (cpsr_read env) i = cpsr_bit env i.
Proof.
  intros Hok Hi. pose proof (fun j => cached_bit env j Hok) as Hc. destruct Hok as [Hu _ HC HQ HT HG HI].
  revert i Hi. apply word_bits. unfold cpsr_read. change (seqZ 0 32) with ltac:(let l := eval vm_compute in (seqZ 0 32) in exact l).
  repeat (apply Forall_cons; split); [..|by apply Forall_nil]; cbv beta; autorewrite with bits; closed_bits; clear_bits; cbn; rewrite ?orb_false_r, ?andb_true_r; try done;
    destruct (ZF env =? 0); cbn; by rewrite ?orb_false_r.
Qed.

Lemma cpsr_read_fits env : cpsr_ok env -> fits 32 (cpsr_read env).
Proof.
  intros []. unfold cpsr_read. repeat apply fits_lor; try done; try (by apply uwrap_fits).
  - by apply fits_land_r.
  - apply (fits_weaken (1 + 30)); [lia|]. apply fits_shiftl; [lia..|]. by destruct (ZF env =? 0).
  - apply fits_shiftr; [by apply fits_land_r|lia].
  - apply (fits_weaken (8 + 8)); [lia|]. apply fits_shiftl; [lia..|]. by apply fits_land_r.
Qed.

(** "Some bits of mask must be all-set or all-clear" (cpu.h): the groups. *)
Definition whole (mask G : Z) : Prop := Z.land mask G = 0 \/ Z.land mask G = G.
Definition mask_ok (mask : Z) : Prop := Forall (whole mask) [CPSR_NZCV; CPSR_IT_0_1; CPSR_IT_2_7; CPSR_GE; CPSR_M].

Lemma whole_bit mask G i : whole mask G -> Z.testbit G i = true -> nz (Z.land mask G) = Z.testbit mask i.
Proof.
  intros Hw Hi. assert (Z.testbit (Z.land mask G) i = Z.testbit mask i) as <- by by rewrite Z.land_spec, Hi, andb_true_r.
  destruct Hw as [->| ->]; [by rewrite Z.bits_0|]. rewrite Hi. unfold nz. destruct (Z.eqb_spec G 0) as [->|]; [by rewrite Z.bits_0 in Hi|done].
Qed.

Lemma write_flags_fields env val mask :
  let env' := write_flags env val mask in
  let c G (a b : Z) := if nz (Z.land mask G) then a else b in
  uncached_cpsr env' = uncached_cpsr env /\
  ZF env' = c CPSR_NZCV (Z.land (u32 (Z.lnot val)) CPSR_Z) (ZF env) /\
  NF env' = c CPSR_NZCV val (NF env) /\
  CF env' = c CPSR_NZCV (Z.land (Z.shiftr val 29) 1) (CF env) /\
  VF env' = c CPSR_NZCV (Z.land (u32 (Z.shiftl val 3)) 0x80000000) (VF env) /\
  QF env' = c CPSR_Q (cbool (nz (Z.land val CPSR_Q))) (QF env) /\
  thumb env' = c CPSR_T (cbool (nz (Z.land val CPSR_T))) (thumb env) /\
  GE env' = c CPSR_GE (Z.land (Z.shiftr val 16) 0xf) (GE env) /\
  condexec_bits env' =
    let b := c CPSR_IT_0_1 (Z.lor (Z.land (condexec_bits env) (u32 (Z.lnot 3))) (Z.land (Z.shiftr val 25) 3)) (condexec_bits env) in
    c CPSR_IT_2_7 (Z.lor (Z.land b 3) (Z.land (Z.shiftr val 8) 0xfc)) b.
Proof.
  cbn zeta. unfold write_flags.
  destruct (nz (Z.land mask CPSR_NZCV)), (nz (Z.land mask CPSR_Q)), (nz (Z.land mask CPSR_T)), (nz (Z.land mask CPSR_IT_0_1)),
    (nz (Z.land mask CPSR_IT_2_7)), (nz (Z.land mask CPSR_GE)); repeat split.
Qed.


Lemma fits_flag x : fits 1 (cbool x).
Proof. by destruct x. Qed.

Lemma write_flags_ok env val mask : cpsr_ok env -> cpsr_ok (write_flags env val mask).
Proof.
  intros Hok. destruct (write_flags_fields env val mask) as (Eu & _ & _ & EC & _ & EQ & ET & EG & EI). destruct Hok.
  constructor; rewrite ?Eu, ?EC, ?EQ, ?ET, ?EG, ?EI; try done;
    repeat (case_cond; try done); auto using fits_flag, fits_land_r; repeat first [apply fits_lor|done|by apply fits_land_r|by apply fits_land_l]; lia || done. 
Qed.

Lemma write_flags_bit env val mask i :
  cpsr_ok env -> mask_ok mask -> 0 <= i < 32 ->
  cpsr_bit (write_flags env val mask) i =
    if Z.testbit CACHED_CPSR_BITS i then if Z.testbit mask i then Z.testbit val i else cpsr_bit env i
    else Z.testbit (uncached_cpsr env) i.
Proof.
  intros Hok Hm Hi. destruct (write_flags_fields env val mask) as (Eu & EZ & EN & EC & EV & EQ & ET & EG & EI). 
  unfold mask_ok in Hm. rewrite !Forall_cons in Hm. destruct Hm as (Hn & H0 & H2 & HG & HM & _).
  pose proof (fun j => whole_bit mask _ j Hn) as Bn. pose proof (fun j => whole_bit mask _ j H0) as B0.
  pose proof (fun j => whole_bit mask _ j H2) as B2. pose proof (fun j => whole_bit mask _ j HG) as BG.
  pose proof (nz_land_bit mask 27 ltac:(lia)) as BQ. pose proof (nz_land_bit mask 5 ltac:(lia)) as BT.
  assert ((Z.land (u32 (Z.lnot val)) CPSR_Z =? 0) = Z.testbit val 30) as HZ.
  { rewrite <- (negb_involutive (_ =? 0)). change (negb (nz (Z.land (u32 (Z.lnot val)) (bit 30))) = Z.testbit val 30). rewrite nz_land_bit by lia. autorewrite with bits. apply negb_involutive. }
  revert Eu EZ EN EC EV EQ ET EG EI. generalize (write_flags env val mask). intros env' Eu EZ EN EC EV EQ ET EG EI.
  unfold CPSR_Q, CPSR_T in EQ, ET. rewrite nz_land_bit in EQ, ET by lia.
  clear - Eu EZ EN EC EV EQ ET EG EI Bn B0 B2 BG BQ BT HZ Hi.
  revert i Hi. apply word_bits. change (seqZ 0 32) with ltac:(let l := eval vm_compute in (seqZ 0 32) in exact l).
  repeat (apply Forall_cons; split); [..|by apply Forall_nil]; cbv beta; unfold cpsr_bit;
    cbn -[Z.testbit CACHED_CPSR_BITS]; closed_bits; try (by rewrite Eu);
    rewrite ?EZ, ?EN, ?EC, ?EV, ?EQ, ?ET, ?EG, ?EI; rewrite ?BQ, ?BT;
    match goal with |- _ = if Z.testbit mask ?j then _ else _ =>
      try rewrite (Bn j eq_refl); try rewrite (B0 j eq_refl); try rewrite (B2 j eq_refl); try rewrite (BG j eq_refl); destruct (Z.testbit mask j)
    end;
    rewrite ?HZ; cbv zeta; try reflexivity; repeat case_cond;
    autorewrite with bits; closed_bits; autorewrite with bits; try done.
  all: rewrite nz_land_bit by lia; match goal with |- _ = ?b => by destruct b end.
Qed.

(** The mode the processor is in. *)
Definition cpu_mode (env : CPUARMState) : Z := Z.land (uncached_cpsr env) CPSR_M.

Lemma cpsr_bit_split env i : 0 <= i < 32 -> Z.testbit CACHED_CPSR_BITS i = false -> cpsr_bit env i = Z.testbit (uncached_cpsr env) i.
Proof.
  intros Hi. revert i Hi. refine (word_bits (fun i => _ -> _) _). change (seqZ 0 32) with ltac:(let l := eval vm_compute in (seqZ 0 32) in exact l).
  repeat (apply Forall_cons; split); [..|by apply Forall_nil]; cbv beta; closed_bits; try discriminate; reflexivity.
Qed.

Lemma cpsr_bit_frame env u i : 0 <= i < 32 -> Z.testbit CACHED_CPSR_BITS i = true -> cpsr_bit (env <| uncached_cpsr := u |>) i = cpsr_bit env i.
Proof.
  intros Hi. revert i Hi. refine (word_bits (fun i => _ -> _) _). change (seqZ 0 32) with ltac:(let l := eval vm_compute in (seqZ 0 32) in exact l).
  repeat (apply Forall_cons; split); [..|by apply Forall_nil]; cbv beta; closed_bits; try discriminate; reflexivity.
Qed.

(** The last step of [cpsr_write], on a state [env'] with the flags written. *)
Lemma write_uncached env env' val mask :
  cpsr_ok env -> cpsr_ok env' -> mask_ok mask -> fits 32 val -> fits 32 mask ->
  uncached_cpsr env' = uncached_cpsr env -> (forall i, 0 <= i < 32 -> cpsr_bit env' i = cpsr_bit (write_flags env val mask) i) ->
  let m := Z.land mask (u32 (Z.lnot CACHED_CPSR_BITS)) in
  let env'' := env' <| uncached_cpsr := Z.lor (Z.land (uncached_cpsr env') (u32 (Z.lnot m))) (Z.land val m) |> in
  cpsr_ok env'' /\ cpsr_read env'' = Z.lor (Z.land (cpsr_read env) (u32 (Z.lnot mask))) (Z.land val mask).
Proof.
  intros Hok Hok' Hm Hv Hk Eu Hb m env''.
  assert (uncached_cpsr env'' = Z.lor (Z.land (uncached_cpsr env) (u32 (Z.lnot m))) (Z.land val m)) as Eu'' by by rewrite <- Eu.
  assert (cpsr_ok env'') as Hok''.
  { destruct Hok'. constructor; try done; rewrite Eu''.
    - apply fits_lor; [lia|apply fits_land_l; [lia|apply Hok]|by apply fits_land_l].
    - apply Z.bits_inj'. intros i Hi. pose proof (cached_bit env i Hok) as Hc. unfold m. autorewrite with bits.
      destruct (Z.testbit CACHED_CPSR_BITS i); [rewrite Hc by done|]; cbn; by rewrite ?andb_false_r. }
  split; [done|]. apply (fits_bits_inj 32); [lia|by apply cpsr_read_fits| |].
  { apply fits_lor; [lia| |by apply fits_land_l]. apply fits_land_l; [lia|by apply cpsr_read_fits]. }
  intros i Hi. rewrite (cpsr_read_bit env'' i Hok'' Hi). autorewrite with bits. rewrite (cpsr_read_bit env i Hok Hi).
  destruct (Z.testbit CACHED_CPSR_BITS i) eqn:Ec.
  - unfold env''. rewrite cpsr_bit_frame, Hb, write_flags_bit, Ec by done. by destruct (Z.testbit mask i), (cpsr_bit env i), (Z.testbit val i), (Z.ltb_spec i 32); try lia.
  - rewrite !cpsr_bit_split by done. rewrite Eu''. unfold m. autorewrite with bits. rewrite Ec.
    by destruct (Z.testbit mask i), (Z.testbit (uncached_cpsr env) i), (Z.testbit val i), (Z.ltb_spec i 32); try lia.
Qed.

Lemma mode_reg_flags env val mask cur m r : mode_reg (write_flags env val mask) cur m r = mode_reg env cur m r.
Proof.
  unfold write_flags.
  by destruct (nz (Z.land mask CPSR_NZCV)), (nz (Z.land mask CPSR_Q)), (nz (Z.land mask CPSR_T)), (nz (Z.land mask CPSR_IT_0_1)),
    (nz (Z.land mask CPSR_IT_2_7)), (nz (Z.land mask CPSR_GE)).
Qed.

(** The mode the status register has after a write. *)
Definition new_mode (env : CPUARMState) (val mask : Z) : Z :=
  if nz (Z.land mask CPSR_M) then Z.land val CPSR_M else cpu_mode env.

Lemma mode_part old val mask m :
  whole mask CPSR_M -> m = Z.land mask (u32 (Z.lnot CACHED_CPSR_BITS)) ->
  Z.land (Z.lor (Z.land old (u32 (Z.lnot m))) (Z.land val m)) CPSR_M =
    if nz (Z.land mask CPSR_M) then Z.land val CPSR_M else Z.land old CPSR_M.
Proof.
  intros Hw ->. apply Z.bits_inj'. intros i Hi. autorewrite with bits. destruct (Z.testbit CPSR_M i) eqn:E.
  - rewrite (whole_bit mask CPSR_M i Hw E).
    assert (Z.testbit CACHED_CPSR_BITS i = false /\ i < 32) as [-> Hlt].
    { change CPSR_M with (Z.ones 5) in E. destruct (Z.lt_ge_cases i 5); [|by rewrite Z.ones_spec_high in E by lia].
      split; [|lia]. clear E. assert (i = 0 \/ i = 1 \/ i = 2 \/ i = 3 \/ i = 4) as [->|[->|[->|[->| ->]]]] by lia; done. }
    rewrite (proj2 (Z.ltb_lt i 32)) by lia. destruct (Z.testbit mask i); autorewrite with bits; rewrite E; btauto.
  - rewrite andb_false_r. case_cond; autorewrite with bits; rewrite E; btauto.
Qed.

Lemma switch_part env val mask :
  whole mask CPSR_M -> has_bank (cpu_mode env) -> (nz (Z.land mask CPSR_M) = true -> has_bank (Z.land val CPSR_M)) ->
  exists env',
    (if nz (Z.land (Z.land (Z.lxor (uncached_cpsr env) val) mask) CPSR_M) then switch_mode env (Z.land val CPSR_M) else Ok env) = Ok env' /\
    uncached_cpsr env' = uncached_cpsr env /\ (cpsr_ok env -> cpsr_ok env') /\ (forall i, cpsr_bit env' i = cpsr_bit env i) /\
    (forall m r, has_bank m -> 0 <= r <= 16 -> mode_reg env' (new_mode env val mask) m r = mode_reg env (cpu_mode env) m r).
Proof.
  intros Hw Hb Hb'. unfold new_mode.
  assert (Z.land (Z.land (Z.lxor (uncached_cpsr env) val) mask) CPSR_M = if nz (Z.land mask CPSR_M) then Z.lxor (cpu_mode env) (Z.land val CPSR_M) else 0) as E.
  { unfold cpu_mode. apply Z.bits_inj'. intros i Hi. autorewrite with bits. destruct (Z.testbit CPSR_M i) eqn:E.
    - rewrite (whole_bit mask CPSR_M i Hw E). destruct (Z.testbit mask i); autorewrite with bits; rewrite ?E; btauto.
    - rewrite andb_false_r. case_cond; autorewrite with bits; rewrite ?E; btauto. }
  rewrite E. destruct (nz (Z.land mask CPSR_M)); [|by exists env].
  destruct (nz (Z.lxor _ _)) eqn:Ex.
  - destruct (switch_mode_keeps_registers env (Z.land val CPSR_M) Hb (Hb' eq_refl)) as (env' & -> & Hr & Eu & EC & EV & EN & EZ & EQ & EG & ET & EI).
    exists env'. split; [done|]. split; [done|]. split; [|split; [|exact Hr]].
    + intros []. constructor; congruence.
    + intros i. unfold cpsr_bit. by rewrite Eu, EC, EV, EN, EZ, EQ, EG, ET, EI.
  - apply nz_false, Z.lxor_eq in Ex. rewrite <- Ex. by exists env.
Qed.

(** C40: [cpsr_write] replaces exactly the bits of the status register that are
    in the mask, so that [cpsr_read] then delivers them and the others
    unchanged, provided the mask splits none of the groups the comment of
    cpu.h speaks of; and when that changes the mode, no mode loses a register.
    It does not abort if the processor is in a known mode and is not put
    into an unknown one. *)
Theorem cpsr_write_correct env val mask :
  cpsr_ok env -> mask_ok mask -> fits 32 val -> fits 32 mask ->
  has_bank (cpu_mode env) -> (nz (Z.land mask CPSR_M) = true -> has_bank (Z.land val CPSR_M)) ->
  exists env', cpsr_write env val mask = Ok env' /\ cpsr_ok env' /\
    cpsr_read env' = Z.lor (Z.land (cpsr_read env) (u32 (Z.lnot mask))) (Z.land val mask) /\
    has_bank (cpu_mode env') /\
    (forall m r, has_bank m -> 0 <= r <= 16 -> mode_reg env' (cpu_mode env') m r = mode_reg env (cpu_mode env) m r).
Proof.
  intros Hok Hm Hv Hk Hb Hb'. unfold cpsr_write. cbv zeta.
  destruct (write_flags_fields env val mask) as (Eu & _).
  assert (whole mask CPSR_M) as HM by (unfold mask_ok in Hm; rewrite !Forall_cons in Hm; tauto).
  destruct (switch_part (write_flags env val mask) val mask) as (env' & Hs & Eu' & Hok' & Hbit & Hr).
  { exact HM. }
  { unfold cpu_mode. by rewrite Eu. }
  { done. }
  rewrite Hs. cbn [obind].
  destruct (write_uncached env env' val mask) as [H1 H2]; [done|by apply Hok', write_flags_ok|done..|by rewrite Eu'|done|].
  eexists. split; [reflexivity|]. split; [exact H1|]. split; [exact H2|].
  set (env2 := env' <| uncached_cpsr := _ |>).
  assert (cpu_mode env2 = new_mode (write_flags env val mask) val mask) as ->.
  { unfold new_mode, cpu_mode, env2. cbn -[write_flags CPSR_M]. rewrite Eu'. by apply mode_part; [apply HM|]. }
  split.
  - unfold new_mode. case_cond; [by apply Hb'|]. unfold cpu_mode. by rewrite Eu.
  - intros m r Hbm Hrr. change (mode_reg env' (new_mode (write_flags env val mask) val mask) m r = mode_reg env (cpu_mode env) m r).
    rewrite Hr by done. rewrite mode_reg_flags. unfold cpu_mode. by rewrite Eu.
Qed.

Definition svc_env : CPUARMState :=
  mkCPU (fun r => 100 + r) 0x13 5 (fun i => i) (fun i => 10 * i) (fun i => 20 * i) (fun i => i) (fun i => 200 + i) 0 0 0 1 0 0 0 0.

Lemma cpsr_write_correct_witness :
  exists env', cpsr_write svc_env 0x80000011 0xf000001f = Ok env' /\ cpsr_read env' = 0x80000011 /\
    mode_reg env' (cpu_mode env') ARM_CPU_MODE_FIQ 8 = 200 /\ mode_reg env' (cpu_mode env') ARM_CPU_MODE_SVC 8 = 108.
Proof.
  destruct (cpsr_write_correct svc_env 0x80000011 0xf000001f) as (env' & H & _ & Hr & _ & Hm).
  - constructor; done.
  - unfold mask_ok. repeat (apply Forall_cons; split); [..|by apply Forall_nil]; first [left; reflexivity|right; reflexivity].
  - done.
  - done.
  - done.
  - done.
  - exists env'. split; [exact H|]. split; [rewrite Hr; reflexivity|].
    split; (rewrite Hm; [reflexivity|done|lia]).
Defined.
End ArmCpu.
