(* ===== verification/Stream.v ===== *)
(** Snapshot streams: the byte-level interface of a migration file, the
    big-endian and struct encoders of savevm.c written against it, and the
    laws that make a snapshot readable again.

    [Sink] and [Source] are what savevm.c promises to the devices that save
    and load their state; [QemuFile] discharges them.  A device's save
    function is a [wr F], its load function an [rd F]; [writes] and [reads]
    say which bytes they produce and consume. *)
From Stdlib Require Import ZArith Lia Bool.
From stdpp Require Import base numbers list.
From S2P Require Import Prelude.
Local Open Scope Z_scope.

Notation is_byte := (fits 8).

Class Sink (F : Type) := {
  put_byte : F -> Z -> F;
  put_buffer : F -> list Z -> F;
  set_error : F -> Z -> F;
  sink_ok : F -> Prop;
  sink_bytes : F -> list Z;
  put_byte_spec f v :
    sink_ok f -> sink_ok (put_byte f v) /\ sink_bytes (put_byte f v) = sink_bytes f ++ [u8 v];
  put_buffer_spec f bs :
    sink_ok f -> sink_ok (put_buffer f bs) /\ sink_bytes (put_buffer f bs) = sink_bytes f ++ bs;
}.

Class Source (F : Type) := {
  get_byte : F -> Z * F;
  get_buffer : F -> Z -> list Z * F;
  src_ok : F -> Prop;
  src_rest : F -> list Z;
  get_byte_spec f b r :
    src_ok f -> src_rest f = b :: r ->
    fst (get_byte f) = b /\ src_ok (snd (get_byte f)) /\ src_rest (snd (get_byte f)) = r;
  get_buffer_spec f n bs r :
    src_ok f -> src_rest f = bs ++ r -> Z.of_nat (length bs) = n ->
    fst (get_buffer f n) = bs /\ src_ok (snd (get_buffer f n)) /\
    src_rest (snd (get_buffer f n)) = r;
}.

(** Writers and readers over a stream. *)
Definition wr (F : Type) : Type := F -> F.
Definition rd (F A : Type) : Type := F -> A * F.

Definition wskip {F} : wr F := fun f => f.
Definition wseq {F} (w1 w2 : wr F) : wr F := fun f => w2 (w1 f).
Definition wwhen {F} (c : bool) (w : wr F) : wr F := if c then w else wskip.
Fixpoint wall {F A} (w : A -> wr F) (l : list A) : wr F :=
  match l with [] => wskip | a :: l' => wseq (w a) (wall w l') end.

Definition rret {F A} (a : A) : rd F A := fun f => (a, f).
Definition rbind {F A B} (m : rd F A) (k : A -> rd F B) : rd F B :=
  fun f => k (fst (m f)) (snd (m f)).
Fixpoint rlist {F A} (n : nat) (m : rd F A) : rd F (list A) :=
  match n with
  | O => rret []
  | S n' => rbind m (fun a => rbind (rlist n' m) (fun l => rret (a :: l)))
  end.

Declare Scope stream_scope.
Delimit Scope stream_scope with stream.
Notation "w1 ;>> w2" := (wseq w1 w2) (at level 63, right associativity) : stream_scope.
Notation "x <<- m ;; k" := (rbind m (fun x => k))
  (at level 100, m at next level, right associativity) : stream_scope.
Local Open Scope stream_scope.

(** ** The encoders of savevm.c *)

Section encoders.
Context {F : Type} `{Sink F}.

Definition qemu_put_byte (v : Z) : wr F := fun f => put_byte f v.
Definition qemu_put_buffer (bs : list Z) : wr F := fun f => put_buffer f bs.
(** [qemu_file_set_error]: a device reports that it cannot be saved. *)
Definition put_error (e : Z) : wr F := fun f => set_error f e.
Definition qemu_put_be16 (v : Z) : wr F :=
  qemu_put_byte (Z.shiftr (u32 v) 8) ;>> qemu_put_byte (u32 v).
Definition qemu_put_be32 (v : Z) : wr F :=
  qemu_put_byte (Z.shiftr (u32 v) 24) ;>> qemu_put_byte (Z.shiftr (u32 v) 16) ;>>
  qemu_put_byte (Z.shiftr (u32 v) 8) ;>> qemu_put_byte (u32 v).
Definition qemu_put_be64 (v : Z) : wr F :=
  qemu_put_be32 (Z.shiftr (u64 v) 32) ;>> qemu_put_be32 (u64 v).
End encoders.

Section decoders.
Context {F : Type} `{Source F}.

Definition qemu_get_byte : rd F Z := get_byte.
Definition qemu_get_buffer (n : Z) : rd F (list Z) := fun f => get_buffer f n.
Definition qemu_get_be16 : rd F Z :=
  v1 <<- qemu_get_byte ;; v0 <<- qemu_get_byte ;;
  rret (Z.lor (Z.shiftl v1 8) v0).
Definition qemu_get_be32 : rd F Z :=
  v3 <<- qemu_get_byte ;; v2 <<- qemu_get_byte ;;
  v1 <<- qemu_get_byte ;; v0 <<- qemu_get_byte ;;
  rret (Z.lor (Z.lor (Z.lor (u32 (Z.shiftl v3 24)) (Z.shiftl v2 16)) (Z.shiftl v1 8)) v0).
Definition qemu_get_be64 : rd F Z :=
  hi <<- qemu_get_be32 ;; lo <<- qemu_get_be32 ;;
  rret (Z.lor (u64 (Z.shiftl hi 32)) lo).
End decoders.

(** ** Struct fields

    A [QField] names a member of the device's struct by type and offset;
    here the offset is the member's projection and update. *)

Inductive qfield (S : Type) :=
| QField_Byte (get : S -> Z) (set : Z -> S -> S)
| QField_Int16 (get : S -> Z) (set : Z -> S -> S)
| QField_Int32 (get : S -> Z) (set : Z -> S -> S)
| QField_Int64 (get : S -> Z) (set : Z -> S -> S)
| QField_Buffer (size : Z) (get : S -> list Z) (set : list Z -> S -> S).
Arguments QField_Byte {S}.
Arguments QField_Int16 {S}.
Arguments QField_Int32 {S}.
Arguments QField_Int64 {S}.
Arguments QField_Buffer {S}.

Definition put_field {F S} `{Sink F} (qf : qfield S) (st : S) : wr F :=
  match qf with
  | QField_Byte get _ => qemu_put_byte (get st)
  | QField_Int16 get _ => qemu_put_be16 (u16 (get st))
  | QField_Int32 get _ => qemu_put_be32 (get st)
  | QField_Int64 get _ => qemu_put_be64 (get st)
  | QField_Buffer size get _ => qemu_put_buffer (take (Z.to_nat size) (get st))
  end.

Definition qemu_put_struct {F S} `{Sink F} (fields : list (qfield S)) (st : S) : wr F :=
  wall (fun qf => put_field qf st) fields.

(** Returns 0, or -1 when a buffer is short; the bytes that did arrive have
    been stored over the front of the member by then. *)
Fixpoint qemu_get_struct {F S} `{Source F} (fields : list (qfield S)) (st : S)
  : rd F (Z * S) :=
  match fields with
  | [] => rret (0, st)
  | QField_Byte _ set :: fs => v <<- qemu_get_byte ;; qemu_get_struct fs (set v st)
  | QField_Int16 _ set :: fs => v <<- qemu_get_be16 ;; qemu_get_struct fs (set v st)
  | QField_Int32 _ set :: fs => v <<- qemu_get_be32 ;; qemu_get_struct fs (set v st)
  | QField_Int64 _ set :: fs => v <<- qemu_get_be64 ;; qemu_get_struct fs (set v st)
  | QField_Buffer size get set :: fs =>
      bs <<- qemu_get_buffer size ;;
      let st' := set (bs ++ drop (length bs) (get st)) st in
      if Z.of_nat (length bs) =? size then qemu_get_struct fs st' else rret (-1, st')
  end.

(** ** Specifications of writers and readers *)

Definition writes {F} `{Sink F} (w : wr F) (bs : list Z) : Prop :=
  forall f, sink_ok f -> sink_ok (w f) /\ sink_bytes (w f) = sink_bytes f ++ bs.

Definition reads {F A} `{Source F} (m : rd F A) (bs : list Z) (a : A) : Prop :=
  forall f r, src_ok f -> src_rest f = bs ++ r ->
    fst (m f) = a /\ src_ok (snd (m f)) /\ src_rest (snd (m f)) = r.

(** The big-endian bytes of a value. *)
Definition be16 (v : Z) : list Z := [u8 (Z.shiftr v 8); u8 v].
Definition be32 (v : Z) : list Z :=
  [u8 (Z.shiftr v 24); u8 (Z.shiftr v 16); u8 (Z.shiftr v 8); u8 v].
Definition be64 (v : Z) : list Z := be32 (Z.shiftr v 32) ++ be32 v.

#[global] Arguments be16 : simpl never.
#[global] Arguments be32 : simpl never.
#[global] Arguments be64 : simpl never.
#[global] Arguments qemu_put_byte : simpl never.
#[global] Arguments qemu_put_buffer : simpl never.
#[global] Arguments qemu_put_be16 : simpl never.
#[global] Arguments qemu_put_be32 : simpl never.
#[global] Arguments qemu_put_be64 : simpl never.
#[global] Arguments qemu_get_byte : simpl never.
#[global] Arguments qemu_get_buffer : simpl never.
#[global] Arguments qemu_get_be16 : simpl never.
#[global] Arguments qemu_get_be32 : simpl never.
#[global] Arguments qemu_get_be64 : simpl never.
#[global] Arguments wseq : simpl never.
#[global] Arguments rbind : simpl never.

Create HintDb stream discriminated.

Section writer_laws.
Context {F : Type} `{Sink F}.

Lemma writes_skip : writes (wskip : wr F) [].
Proof. intros f Hf. split; [done|]. by rewrite app_nil_r. Qed.

Lemma writes_seq (w1 w2 : wr F) bs1 bs2 :
  writes w1 bs1 -> writes w2 bs2 -> writes (w1 ;>> w2) (bs1 ++ bs2).
Proof.
  intros H1 H2 f Hf. destruct (H1 f Hf) as [O1 E1].
  destruct (H2 _ O1) as [O2 E2]. split; [done|].
  unfold wseq. by rewrite E2, E1, app_assoc.
Qed.

Lemma writes_when c (w : wr F) bs :
  writes w bs -> writes (wwhen c w) (if c then bs else []).
Proof. destruct c; [done|]. intros _. apply writes_skip. Qed.

Lemma writes_all {A} (w : A -> wr F) (enc : A -> list Z) l :
  (forall a, a ∈ l -> writes (w a) (enc a)) -> writes (wall w l) (concat (map enc l)).
Proof.
  induction l as [|a l IH]; intros Hl; [apply writes_skip|].
  cbn [wall map concat]. apply writes_seq; [apply Hl; left|].
  apply IH. intros. apply Hl. by right.
Qed.

Lemma writes_byte v : writes (qemu_put_byte v : wr F) [u8 v].
Proof. intros f Hf. by apply put_byte_spec. Qed.

Lemma writes_buffer bs : writes (qemu_put_buffer bs : wr F) bs.
Proof. intros f Hf. by apply put_buffer_spec. Qed.

Lemma u8_shiftr_uwrap w v i :
  0 <= i -> i + 8 <= w -> u8 (Z.shiftr (uwrap w v) i) = u8 (Z.shiftr v i).
Proof.
  intros. bitwise.
  destruct (Z.ltb_spec i0 8); [|done].
  destruct (Z.ltb_spec (i0 + i) w); [done|lia].
Qed.

Lemma u8_uwrap w v : 8 <= w -> u8 (uwrap w v) = u8 v.
Proof. intros. by apply (u8_shiftr_uwrap w v 0). Qed.

Lemma writes_be16 v : writes (qemu_put_be16 v : wr F) (be16 v).
Proof.
  unfold be16. rewrite <- (u8_shiftr_uwrap 32 v 8), <- (u8_uwrap 32 v) by lia.
  apply (writes_seq _ _ [_] [_]); apply writes_byte.
Qed.

Lemma writes_be32 v : writes (qemu_put_be32 v : wr F) (be32 v).
Proof.
  unfold be32.
  rewrite <- (u8_shiftr_uwrap 32 v 24), <- (u8_shiftr_uwrap 32 v 16),
    <- (u8_shiftr_uwrap 32 v 8), <- (u8_uwrap 32 v) by lia.
  repeat apply (writes_seq _ _ [_]); apply writes_byte.
Qed.

Lemma be32_uwrap w v : 32 <= w -> be32 (uwrap w v) = be32 v.
Proof. intros. unfold be32. by rewrite !u8_shiftr_uwrap, u8_uwrap by lia. Qed.

Lemma be32_shiftr v : be32 (Z.shiftr (u64 v) 32) = be32 (Z.shiftr v 32).
Proof.
  unfold be32. rewrite !Z.shiftr_shiftr by lia.
  by rewrite !u8_shiftr_uwrap by lia.
Qed.

Lemma writes_be64 v : writes (qemu_put_be64 v : wr F) (be64 v).
Proof.
  unfold be64. rewrite <- be32_shiftr, <- (be32_uwrap 64 v) by lia.
  apply writes_seq; apply writes_be32.
Qed.
End writer_laws.

Section reader_laws.
Context {F : Type} `{Source F}.

Lemma reads_ret {A} (a : A) : reads (rret a : rd F A) [] a.
Proof. intros f r Hf E. done. Qed.

Lemma reads_bind {A B} (m : rd F A) (k : A -> rd F B) bs1 bs2 a b :
  reads m bs1 a -> reads (k a) bs2 b -> reads (rbind m k) (bs1 ++ bs2) b.
Proof.
  intros H1 H2 f r Hf E. rewrite <- app_assoc in E.
  destruct (H1 f _ Hf E) as (Ea & O1 & R1). unfold rbind. rewrite Ea.
  by apply H2.
Qed.

(** The last reader of a sequence. *)
Lemma reads_last {A B} (m : rd F A) (k : A -> rd F B) bs a b :
  reads m bs a -> reads (k a) [] b -> reads (rbind m k) bs b.
Proof. intros. rewrite <- (app_nil_r bs). by eapply reads_bind. Qed.

Lemma reads_byte b : reads (qemu_get_byte : rd F Z) [b] b.
Proof. intros f r Hf E. by apply get_byte_spec. Qed.

Lemma reads_buffer n bs :
  Z.of_nat (length bs) = n -> reads (qemu_get_buffer n : rd F (list Z)) bs bs.
Proof. intros Hn f r Hf E. by apply get_buffer_spec. Qed.

Lemma reads_list {A} (m : rd F A) (enc : A -> list Z) l :
  (forall a, a ∈ l -> reads m (enc a) a) ->
  reads (rlist (length l) m) (concat (map enc l)) l.
Proof.
  induction l as [|a l IH]; intros Hl; [apply reads_ret|].
  cbn [rlist length map concat].
  eapply reads_bind; [apply Hl; left|].
  eapply reads_last; [apply IH; intros; apply Hl; by right|apply reads_ret].
Qed.

(** Byte [k / 8] of [v] sits at bits [k .. k + 7]. *)
Lemma u8_piece v k i : 0 <= k ->
  Z.testbit (u8 (Z.shiftr v k)) (i - k) = (k <=? i) && (i <? k + 8) && Z.testbit v i.
Proof.
  intros Hk. destruct (Z.leb_spec k i); [|by rewrite Z.testbit_neg_r by lia].
  rewrite uwrap_spec, Z.shiftr_spec by lia. replace (i - k + k) with i by lia.
  f_equal. lia.
Qed.

Lemma be16_join v : Z.lor (Z.shiftl (u8 (Z.shiftr v 8)) 8) (u8 v) = u16 v.
Proof. bitwise. rewrite u8_piece by lia. autorewrite with bits. destruct (Z.testbit v i); lia. Qed.

Lemma reads_be16 v : reads (qemu_get_be16 : rd F Z) (be16 v) (u16 v).
Proof.
  rewrite <- be16_join.
  apply (reads_bind _ _ [_] [_] (u8 (Z.shiftr v 8))); [apply reads_byte|].
  apply (reads_last _ _ [_] (u8 v)); [apply reads_byte|apply reads_ret].
Qed.

Lemma be32_join v :
  Z.lor (Z.lor (Z.lor (u32 (Z.shiftl (u8 (Z.shiftr v 24)) 24))
    (Z.shiftl (u8 (Z.shiftr v 16)) 16)) (Z.shiftl (u8 (Z.shiftr v 8)) 8)) (u8 v) = u32 v.
Proof.
  bitwise. rewrite !u8_piece by lia. autorewrite with bits. destruct (Z.testbit v i); lia.
Qed.

Lemma reads_be32 v : reads (qemu_get_be32 : rd F Z) (be32 v) (u32 v).
Proof.
  rewrite <- be32_join.
  apply (reads_bind _ _ [_] [_;_;_] (u8 (Z.shiftr v 24))); [apply reads_byte|].
  apply (reads_bind _ _ [_] [_;_] (u8 (Z.shiftr v 16))); [apply reads_byte|].
  apply (reads_bind _ _ [_] [_] (u8 (Z.shiftr v 8))); [apply reads_byte|].
  apply (reads_last _ _ [_] (u8 v)); [apply reads_byte|apply reads_ret].
Qed.

Lemma be64_join v :
  Z.lor (u64 (Z.shiftl (u32 (Z.shiftr v 32)) 32)) (u32 v) = u64 v.
Proof.
  bitwise. destruct (Z.leb_spec 32 i).
  - rewrite uwrap_spec, Z.shiftr_spec by lia. replace (i - 32 + 32) with i by lia.
    destruct (Z.testbit v i); lia.
  - rewrite Z.testbit_neg_r by lia. destruct (Z.testbit v i); lia.
Qed.

Lemma reads_be64 v : reads (qemu_get_be64 : rd F Z) (be64 v) (u64 v).
Proof.
  rewrite <- be64_join. unfold be64.
  eapply reads_bind; [apply reads_be32|].
  eapply reads_last; [apply reads_be32|apply reads_ret].
Qed.
End reader_laws.

#[export] Hint Resolve writes_skip writes_byte writes_buffer writes_be16 writes_be32
  writes_be64 writes_when writes_all : stream.
#[export] Hint Resolve reads_ret reads_byte reads_buffer reads_be16 reads_be32
  reads_be64 reads_list : stream.

(** Run a writer or a reader through its sequence, leaving the value read. *)
Ltac stream_writes :=
  repeat (apply writes_seq; [solve [eauto with stream]|]); try solve [eauto with stream].
Ltac stream_reads :=
  repeat first
    [ eapply reads_bind; [solve [eauto with stream]|]; cbv beta
    | eapply reads_last; [solve [eauto with stream]|]; cbv beta ];
  try solve [eauto with stream].

(** ** Bytes in memory

    The simplest sink and source: what was written, what is left to read.
    Nothing can go wrong here, and an error a device reports is forgotten. *)
#[export, program] Instance list_Sink : Sink (list Z) := {|
  put_byte f v := f ++ [u8 v]; put_buffer f bs := f ++ bs; set_error f _ := f;
  sink_ok _ := True; sink_bytes f := f |}.
Next Obligation. done. Qed.
Next Obligation. done. Qed.
#[export, program] Instance list_Source : Source (list Z) := {|
  get_byte f := match f with [] => (0, []) | b :: r => (b, r) end;
  get_buffer f n := (take (Z.to_nat n) f, drop (Z.to_nat n) f);
  src_ok _ := True; src_rest f := f |}.
Next Obligation. by intros ? b r _ ->. Qed.
Next Obligation.
  intros ? n bs r _ -> <-. rewrite Nat2Z.id. cbn. by rewrite take_app_length, drop_app_length.
Qed.

(** ** Snapshots

    What a device promises to savevm.c: the state a load gives back is
    [restored] from the one that was saved (members outside the snapshot
    keep the value they had in the loading instance [st0]).  [saveable] is
    the range condition on the saved members, [version] the version the
    device registers with its snapshot. *)
Class Snapshot (D : Type) := {
  version : Z;
  save : forall {F} `{Sink F}, D -> wr F;
  load : forall {F} `{Source F}, Z -> D -> rd F (Z * D);
  encode : D -> list Z;
  saveable : D -> Prop;
  restored : D -> D -> D;
  save_encodes : forall {F} `{Sink F} d, writes (save (F := F) d) (encode d);
  load_decodes : forall {F} `{Source F} d d0, saveable d ->
    reads (load (F := F) version d0) (encode d) (0, restored d d0);
}.

(** A saved device is restored from the bytes it wrote, whatever sink wrote
    them and whatever source reads them back. *)
Lemma snapshot_roundtrip_gen {D F G} `{Snapshot D, Sink F, Source G} (d d0 : D) f g r :
  sink_ok f -> sink_bytes f = [] -> src_ok g ->
  src_rest g = sink_bytes (save d f) ++ r -> saveable d ->
  fst (load version d0 g) = (0, restored d d0) /\ src_rest (snd (load version d0 g)) = r.
Proof.
  intros Hf He Hg Hr Hd. destruct (save_encodes (F := F) d f Hf) as [_ Hb].
  rewrite Hb, He in Hr. cbn [app] in Hr.
  destruct (load_decodes (F := G) d d0 Hd g r Hg Hr) as (E & _ & R). done.
Qed.
