(* ===== verification/QemuFile.v ===== *)
(** The buffered migration file of savevm.c, and the proof that it is a
    [Sink] when written and a [Source] when read.

    A [QEMUFile] keeps a 32768-byte buffer in front of a back end reached
    through [QEMUFileOps].  [wbuf] holds the valid part of [buf] of a file
    opened for writing (its length is [buf_index]); [rbuf] the valid part of
    one opened for reading (its length is [buf_size]).  The back end (a
    stdio stream, a socket, the vmstate area of a disk image) is a
    parameter; files with a [writev_buffer] operation are not modelled. *)
From Stdlib Require Import ZArith Lia Bool.
From stdpp Require Import base numbers list.
From S2P Require Import Prelude Stream.
Local Open Scope Z_scope.

Definition IO_BUF_SIZE : Z := 32768.
Definition EIO : Z := 5.
Definition EAGAIN : Z := 11.

(** ** Writing *)
Section writing.
(** [put_buffer opaque buf pos] is the back end's [ops->put_buffer]. *)
Context {B : Type} (ops_put_buffer : B -> list Z -> Z -> Z * B).

Record wfile := WFile {
  wopaque : B;
  wbytes_xfer : Z;
  wpos : Z;
  wbuf : list Z;
  wlast_error : Z;
}.

Definition wbuf_index (f : wfile) : Z := Z.of_nat (length (wbuf f)).

Definition qemu_file_set_error (e ret : Z) : Z := if e =? 0 then ret else e.

Definition qemu_fflush (f : wfile) : wfile :=
  let '(ret, op) :=
    if 0 <? wbuf_index f then ops_put_buffer (wopaque f) (wbuf f) (wpos f)
    else (0, wopaque f) in
  {| wopaque := op;
     wbytes_xfer := wbytes_xfer f;
     wpos := if 0 <=? ret then wpos f + ret else wpos f;
     wbuf := [];
     wlast_error := if ret <? 0 then qemu_file_set_error (wlast_error f) ret
                    else wlast_error f |}.

(** Append [bs] to [buf], count it, and flush a full buffer. *)
Definition wappend (bs : list Z) (f : wfile) : wfile :=
  let f' := {| wopaque := wopaque f;
               wbytes_xfer := wbytes_xfer f + Z.of_nat (length bs);
               wpos := wpos f; wbuf := wbuf f ++ bs;
               wlast_error := wlast_error f |} in
  if wbuf_index f' =? IO_BUF_SIZE then qemu_fflush f' else f'.

Definition qemu_put_byte (f : wfile) (v : Z) : wfile :=
  if nz (wlast_error f) then f else wappend [u8 v] f.

Fixpoint put_loop (fuel : nat) (f : wfile) (bs : list Z) : wfile :=
  match fuel with
  | O => f
  | S fuel' =>
      if 0 <? Z.of_nat (length bs) then
        let l := Z.min (IO_BUF_SIZE - wbuf_index f) (Z.of_nat (length bs)) in
        let f' := wappend (take (Z.to_nat l) bs) f in
        if nz (wlast_error f') then f'
        else put_loop fuel' f' (drop (Z.to_nat l) bs)
      else f
  end.

(** Every round stores at least one byte, so [size] rounds are enough. *)
Definition qemu_put_buffer (f : wfile) (bs : list Z) : wfile :=
  if nz (wlast_error f) then f else put_loop (length bs) f bs.

(** *** A back end that stores what it is given

    Asked to write at the end of what it holds, it appends: nothing is assumed of
    other positions, so that a back end may use the position or ignore it. *)
Context (stored : B -> list Z).
Context (ops_put_buffer_ok : forall op bs,
  let r := ops_put_buffer op bs (Z.of_nat (length (stored op))) in
  fst r = Z.of_nat (length bs) /\ stored (snd r) = stored op ++ bs).

Definition wfile_ok (f : wfile) : Prop :=
  wlast_error f = 0 /\ wbuf_index f < IO_BUF_SIZE /\ wpos f = Z.of_nat (length (stored (wopaque f))).
Definition wfile_bytes (f : wfile) : list Z := stored (wopaque f) ++ wbuf f.

Lemma qemu_fflush_spec f :
  wlast_error f = 0 -> wpos f = Z.of_nat (length (stored (wopaque f))) ->
  wfile_ok (qemu_fflush f) /\ wfile_bytes (qemu_fflush f) = wfile_bytes f.
Proof.
  intros He Hp. unfold qemu_fflush, wfile_ok, wfile_bytes, wbuf_index. rewrite Hp.
  destruct (Z.ltb_spec 0 (Z.of_nat (length (wbuf f)))) as [Hl|Hl].
  - destruct (ops_put_buffer_ok (wopaque f) (wbuf f)) as [E1 E2].
    destruct (ops_put_buffer _ _ _) as [ret op]. cbn in *. subst ret.
    rewrite E2, app_nil_r. destruct (Z.ltb_spec (Z.of_nat (length (wbuf f))) 0); [lia|].
    rewrite (proj2 (Z.leb_le 0 _)), length_app by lia. repeat split; first [done|lia|by rewrite He].
  - cbn. assert (wbuf f = []) as -> by (apply length_zero_iff_nil; lia).
    repeat split; first [done|cbn; lia].
Qed.

Lemma wappend_spec f bs :
  wfile_ok f -> Z.of_nat (length bs) <= IO_BUF_SIZE - wbuf_index f ->
  wfile_ok (wappend bs f) /\ wfile_bytes (wappend bs f) = wfile_bytes f ++ bs.
Proof.
  intros (He & Hi & Hp) Hb. unfold wappend.
  set (f' := {| wopaque := wopaque f; wbytes_xfer := _; wpos := _; wbuf := _;
                wlast_error := _ |}).
  assert (wfile_bytes f' = wfile_bytes f ++ bs) as Eb
    by (unfold wfile_bytes; cbn; by rewrite app_assoc).
  assert (wbuf_index f' = wbuf_index f + Z.of_nat (length bs)) as Ei
    by (unfold wbuf_index; cbn; rewrite length_app; lia).
  destruct (Z.eqb_spec (wbuf_index f') IO_BUF_SIZE).
  - destruct (qemu_fflush_spec f' He Hp) as [O E]. by rewrite E.
  - split; [|done]. split; [done|]. split; [lia|done].
Qed.

Lemma put_loop_spec fuel f bs :
  (length bs <= fuel)%nat -> wfile_ok f ->
  wfile_ok (put_loop fuel f bs) /\ wfile_bytes (put_loop fuel f bs) = wfile_bytes f ++ bs.
Proof.
  revert f bs. induction fuel as [|fuel IH]; intros f bs Hl Hf; cbn [put_loop].
  { destruct bs; [|cbn in Hl; lia]. by rewrite app_nil_r. }
  destruct (Z.ltb_spec 0 (Z.of_nat (length bs))) as [Hb|Hb].
  2:{ assert (bs = []) as -> by (apply length_zero_iff_nil; lia). by rewrite app_nil_r. }
  set (l := Z.min _ _). pose proof Hf as (He & Hi & Hp).
  destruct (wappend_spec f (take (Z.to_nat l) bs)) as [Hf' E].
  { done. }
  { rewrite length_take. lia. }
  unfold nz. rewrite (proj1 Hf'). cbn [Z.eqb negb].
  destruct (IH (wappend (take (Z.to_nat l) bs) f) (drop (Z.to_nat l) bs)) as [O E'].
  { rewrite length_drop. lia. }
  { done. }
  rewrite E', E, <- app_assoc, take_drop. done.
Qed.

Definition wset_error (f : wfile) (ret : Z) : wfile :=
  {| wopaque := wopaque f; wbytes_xfer := wbytes_xfer f; wpos := wpos f; wbuf := wbuf f;
     wlast_error := qemu_file_set_error (wlast_error f) ret |}.

#[program] Definition wfile_Sink : Sink wfile := {|
  put_byte := qemu_put_byte;
  put_buffer := qemu_put_buffer;
  set_error := wset_error;
  sink_ok := wfile_ok;
  sink_bytes := wfile_bytes;
|}.
Next Obligation.
  intros f v Hf. unfold qemu_put_byte, nz. pose proof Hf as (-> & Hi & _). cbn [Z.eqb negb].
  apply wappend_spec; [done|]. cbn. lia.
Qed.
Next Obligation.
  intros f bs Hf. unfold qemu_put_buffer, nz. pose proof Hf as [-> Hi]. cbn [Z.eqb negb].
  by apply put_loop_spec.
Qed.
End writing.
Arguments wfile B : clear implicits.

(** ** Reading *)
Section reading.
(** [get_buffer opaque pos size] is the back end's [ops->get_buffer]: the
    bytes read, or a negative errno. *)
Context {B : Type} (ops_get_buffer : B -> Z -> Z -> (list Z + Z) * B).

Record rfile := RFile {
  ropaque : B;
  rpos : Z;
  rbuf : list Z;
  rbuf_index : Z;
  rlast_error : Z;
}.

Definition rbuf_size (f : rfile) : Z := Z.of_nat (length (rbuf f)).

Definition qemu_fill_buffer (f : rfile) : rfile :=
  let pending := rbuf_size f - rbuf_index f in
  let buf := drop (Z.to_nat (rbuf_index f)) (rbuf f) in
  let '(res, op) := ops_get_buffer (ropaque f) (rpos f) (IO_BUF_SIZE - pending) in
  match res with
  | inl bs =>
      {| ropaque := op; rpos := rpos f + Z.of_nat (length bs); rbuf := buf ++ bs;
         rbuf_index := 0;
         rlast_error := if Z.of_nat (length bs) =? 0
                        then qemu_file_set_error (rlast_error f) (- EIO)
                        else rlast_error f |}
  | inr e =>
      {| ropaque := op; rpos := rpos f; rbuf := buf; rbuf_index := 0;
         rlast_error := if e =? - EAGAIN then rlast_error f
                        else qemu_file_set_error (rlast_error f) e |}
  end.

Definition qemu_file_skip (f : rfile) (size : Z) : rfile :=
  if rbuf_index f + size <=? rbuf_size f then
    {| ropaque := ropaque f; rpos := rpos f; rbuf := rbuf f;
       rbuf_index := rbuf_index f + size; rlast_error := rlast_error f |}
  else f.

Definition qemu_peek_buffer (f : rfile) (size offset : Z) : list Z * rfile :=
  let f := if rbuf_size f - (rbuf_index f + offset) <? size
           then qemu_fill_buffer f else f in
  let index := rbuf_index f + offset in
  let pending := rbuf_size f - index in
  if pending <=? 0 then ([], f)
  else (take (Z.to_nat (Z.min size pending)) (drop (Z.to_nat index) (rbuf f)), f).

Fixpoint get_loop (fuel : nat) (f : rfile) (pending : Z) : list Z * rfile :=
  match fuel with
  | O => ([], f)
  | S fuel' =>
      if 0 <? pending then
        let '(bs, f1) := qemu_peek_buffer f pending 0 in
        let res := Z.of_nat (length bs) in
        if res =? 0 then ([], f1)
        else
          let '(bs', f2) := get_loop fuel' (qemu_file_skip f1 res) (pending - res) in
          (bs ++ bs', f2)
      else ([], f)
  end.

(** Every round yields at least one byte or ends the loop. *)
Definition qemu_get_buffer (f : rfile) (size : Z) : list Z * rfile :=
  get_loop (Z.to_nat size) f size.

Definition qemu_peek_byte (f : rfile) (offset : Z) : Z * rfile :=
  let f := if rbuf_size f <=? rbuf_index f + offset then qemu_fill_buffer f else f in
  let index := rbuf_index f + offset in
  if rbuf_size f <=? index then (0, f)
  else (nth (Z.to_nat index) (rbuf f) 0, f).

Definition qemu_get_byte (f : rfile) : Z * rfile :=
  let '(result, f) := qemu_peek_byte f 0 in (result, qemu_file_skip f 1).

(** *** A back end that delivers a given byte sequence

    It may deliver less than was asked for, but nothing only at the end. *)
Context (rest : B -> list Z).
Context (ops_get_buffer_ok : forall op pos size, 0 <= size ->
  exists bs, fst (ops_get_buffer op pos size) = inl bs /\
    rest op = bs ++ rest (snd (ops_get_buffer op pos size)) /\
    Z.of_nat (length bs) <= size /\ (0 < size -> rest op <> [] -> bs <> [])).

Definition rfile_ok (f : rfile) : Prop :=
  0 <= rbuf_index f <= rbuf_size f /\ rbuf_size f <= IO_BUF_SIZE.
Definition rfile_rest (f : rfile) : list Z :=
  drop (Z.to_nat (rbuf_index f)) (rbuf f) ++ rest (ropaque f).

Lemma qemu_fill_buffer_spec f :
  rfile_ok f -> let f' := qemu_fill_buffer f in
  rfile_ok f' /\ rfile_rest f' = rfile_rest f /\ rbuf_index f' = 0 /\
  (rbuf_size f - rbuf_index f < IO_BUF_SIZE -> rfile_rest f <> [] -> 0 < rbuf_size f').
Proof.
  intros [Hi Hs]. unfold qemu_fill_buffer, rfile_ok, rfile_rest, rbuf_size in *. cbv zeta.
  destruct (ops_get_buffer_ok (ropaque f) (rpos f)
    (IO_BUF_SIZE - (Z.of_nat (length (rbuf f)) - rbuf_index f))) as (bs & E & R & L & N);
    [lia|].
  destruct (ops_get_buffer _ _ _) as [res op]. cbn [fst snd] in *. subst res. cbn.
  rewrite length_app, length_drop. rewrite R, app_assoc. repeat split; try lia.
  intros Hp Hne. rewrite R in N.
  destruct (decide (bs = [])) as [->|Hbs].
  - cbn in *. rewrite app_nil_r in Hne.
    destruct (rest op) eqn:Er; [|naive_solver lia].
    rewrite app_nil_r in Hne. apply (f_equal (@length Z)) in R.
    assert (length (drop (Z.to_nat (rbuf_index f)) (rbuf f)) <> 0%nat) as Hd
      by (by rewrite length_zero_iff_nil).
    rewrite length_drop in Hd. lia.
  - destruct bs; [done|]. cbn. lia.
Qed.

Lemma drop_cons_nth (l : list Z) i :
  (i < length l)%nat -> drop i l = nth i l 0 :: drop (S i) l.
Proof.
  revert l. induction i as [|i IH]; intros [|x l] Hi; cbn in *; try lia; [done|].
  by rewrite IH by lia.
Qed.

Lemma qemu_file_skip_spec f n bs r :
  rfile_ok f -> 0 <= n -> rbuf_index f + n <= rbuf_size f ->
  rfile_rest f = bs ++ r -> Z.of_nat (length bs) = n ->
  rfile_ok (qemu_file_skip f n) /\ rfile_rest (qemu_file_skip f n) = r.
Proof.
  intros [Hi Hs] Hn Hle Hr Hb. unfold qemu_file_skip.
  destruct (Z.leb_spec (rbuf_index f + n) (rbuf_size f)); [|lia].
  unfold rfile_ok, rfile_rest, rbuf_size in *. cbn. split; [lia|].
  rewrite Z2Nat.inj_add, <- drop_drop by lia.
  assert (drop (Z.to_nat n) (bs ++ r) = r) as <- by (by rewrite drop_app_length' by lia).
  rewrite <- Hr, drop_app_le; [done|]. rewrite length_drop. lia.
Qed.

Lemma qemu_get_byte_spec f b r :
  rfile_ok f -> rfile_rest f = b :: r ->
  fst (qemu_get_byte f) = b /\ rfile_ok (snd (qemu_get_byte f)) /\
  rfile_rest (snd (qemu_get_byte f)) = r.
Proof.
  intros Hf Hr. unfold qemu_get_byte, qemu_peek_byte.
  set (f1 := if rbuf_size f <=? rbuf_index f + 0 then qemu_fill_buffer f else f).
  assert (rfile_ok f1 /\ rfile_rest f1 = b :: r /\ rbuf_index f1 < rbuf_size f1)
    as (Hf1 & Hr1 & Hi1).
  { unfold f1. destruct (Z.leb_spec (rbuf_size f) (rbuf_index f + 0)).
    - destruct (qemu_fill_buffer_spec f Hf) as (O & E & I & P).
      rewrite I, E. split; [done|]. split; [done|].
      apply P; [unfold IO_BUF_SIZE; lia|by rewrite Hr].
    - split; [done|]. split; [done|lia]. }
  destruct (Z.leb_spec (rbuf_size f1) (rbuf_index f1 + 0)); [lia|]. cbn [fst snd].
  assert (Hfst : nth (Z.to_nat (rbuf_index f1 + 0)) (rbuf f1) 0 = b).
  { rewrite Z.add_0_r. unfold rfile_rest in Hr1. destruct Hf1 as [? ?].
    unfold rbuf_size in *. rewrite drop_cons_nth in Hr1 by lia.
    cbn in Hr1. by injection Hr1. }
  split; [done|].
  apply (qemu_file_skip_spec f1 1 [b] r); by (done || lia).
Qed.

Lemma qemu_peek_buffer_spec f size bs r :
  rfile_ok f -> 0 < size -> rfile_rest f = bs ++ r -> Z.of_nat (length bs) = size ->
  let '(out, f') := qemu_peek_buffer f size 0 in
  rfile_ok f' /\ rfile_rest f' = bs ++ r /\ out `prefix_of` bs /\ out <> [] /\
  rbuf_index f' + Z.of_nat (length out) <= rbuf_size f'.
Proof.
  intros Hf Hsz Hr Hb. unfold qemu_peek_buffer.
  set (f1 := if rbuf_size f - (rbuf_index f + 0) <? size then qemu_fill_buffer f else f).
  assert (rfile_rest f <> []) as Hne.
  { rewrite Hr. destruct bs; [cbn in Hb; lia|done]. }
  assert (rfile_ok f1 /\ rfile_rest f1 = bs ++ r /\ rbuf_index f1 < rbuf_size f1)
    as (Hf1 & Hr1 & Hi1).
  { unfold f1. destruct (Z.ltb_spec (rbuf_size f - (rbuf_index f + 0)) size).
    - destruct (qemu_fill_buffer_spec f Hf) as (O & E & I & P).
      rewrite I, E. split; [done|]. split; [done|].
      destruct (decide (rbuf_size f - rbuf_index f < IO_BUF_SIZE)); [by apply P|].
      destruct Hf as [? ?].
      assert (rbuf_index f = 0 /\ rbuf_size f = IO_BUF_SIZE) as [E0 Es] by lia.
      unfold qemu_fill_buffer, rbuf_size in *.
      destruct (ops_get_buffer _ _ _) as [[bs'|e] op]; cbn;
        rewrite ?length_app, length_drop; unfold IO_BUF_SIZE in *; lia.
    - split; [done|]. split; [done|lia]. }
  rewrite Z.add_0_r.
  destruct (Z.leb_spec (rbuf_size f1 - rbuf_index f1) 0); [lia|].
  destruct Hf1 as [? ?].
  assert (length (drop (Z.to_nat (rbuf_index f1)) (rbuf f1))
    = Z.to_nat (rbuf_size f1 - rbuf_index f1)) as Hd
    by (rewrite length_drop; unfold rbuf_size; lia).
  split; [done|]. split; [done|]. rewrite length_take, Hd. repeat split; try lia.
  - exists (drop (Z.to_nat (Z.min size (rbuf_size f1 - rbuf_index f1))) bs).
    unfold rfile_rest in Hr1.
    apply (f_equal (take (Z.to_nat (Z.min size (rbuf_size f1 - rbuf_index f1))))) in Hr1.
    rewrite !take_app_le in Hr1 by lia. by rewrite Hr1, take_drop.
  - intros Hnil. apply (f_equal (@length Z)) in Hnil.
    rewrite length_take, Hd in Hnil. cbn in Hnil. lia.
Qed.

Lemma get_loop_spec fuel f size bs r :
  (Z.to_nat size <= fuel)%nat -> rfile_ok f -> rfile_rest f = bs ++ r ->
  Z.of_nat (length bs) = size ->
  fst (get_loop fuel f size) = bs /\ rfile_ok (snd (get_loop fuel f size)) /\
  rfile_rest (snd (get_loop fuel f size)) = r.
Proof.
  revert f size bs. induction fuel as [|fuel IH]; intros f size bs Hfu Hf Hr Hb;
    cbn [get_loop].
  { assert (bs = []) as -> by (apply length_zero_iff_nil; lia). done. }
  destruct (Z.ltb_spec 0 size) as [Hs|Hs].
  2:{ assert (bs = []) as -> by (apply length_zero_iff_nil; lia). done. }
  pose proof (qemu_peek_buffer_spec f size bs r Hf Hs Hr Hb) as Hp.
  destruct (qemu_peek_buffer f size 0) as [out f1].
  destruct Hp as (Hf1 & Hr1 & [bs' ->] & Hne & Hle).
  destruct (Z.eqb_spec (Z.of_nat (length out)) 0) as [H0|H0].
  { destruct out; [done|cbn in H0; lia]. }
  rewrite <- app_assoc in Hr1.
  destruct (qemu_file_skip_spec f1 (Z.of_nat (length out)) out (bs' ++ r)) as [O E];
    try (done || lia).
  rewrite length_app in Hb.
  destruct (IH _ (size - Z.of_nat (length out)) bs' ltac:(lia) O E ltac:(lia))
    as (E1 & O1 & R1).
  destruct (get_loop fuel _ _) as [bs2 f2]. cbn [fst snd] in *. by subst.
Qed.

#[program] Definition rfile_Source : Source rfile := {|
  get_byte := qemu_get_byte;
  get_buffer := qemu_get_buffer;
  src_ok := rfile_ok;
  src_rest := rfile_rest;
|}.
Next Obligation. exact qemu_get_byte_spec. Qed.
Next Obligation. intros f n bs r Hf Hr Hb. by apply get_loop_spec. Qed.
End reading.
Arguments rfile B : clear implicits.

(** ** Theorems *)

Definition fresh_wfile {B} (op : B) : wfile B :=
  {| wopaque := op; wbytes_xfer := 0; wpos := 0; wbuf := []; wlast_error := 0 |}.
Definition fresh_rfile {B} (op : B) : rfile B :=
  {| ropaque := op; rpos := 0; rbuf := []; rbuf_index := 0; rlast_error := 0 |}.

(** A back end in memory: it stores what it is given where it is told to, and
    hands out what it holds at most seven bytes at a time. *)
Definition mem_put (store bs : list Z) (pos : Z) : Z * list Z :=
  (Z.of_nat (length bs), take (Z.to_nat pos) store ++ bs ++ drop (Z.to_nat pos + length bs) store).
Definition mem_get (store : list Z) (pos size : Z) : (list Z + Z) * list Z :=
  let n := Z.to_nat (Z.min 7 size) in (inl (take n store), drop n store).

Lemma mem_put_ok store bs :
  let r := mem_put store bs (Z.of_nat (length (id store))) in
  fst r = Z.of_nat (length bs) /\ id (snd r) = id store ++ bs.
Proof.
  split; [done|]. cbn. unfold id. by rewrite Nat2Z.id, firstn_all, drop_ge, app_nil_r by lia.
Qed.

Lemma mem_get_ok store pos size : 0 <= size ->
  exists bs, fst (mem_get store pos size) = inl bs /\
    id store = bs ++ id (snd (mem_get store pos size)) /\
    Z.of_nat (length bs) <= size /\ (0 < size -> id store <> [] -> bs <> []).
Proof.
  intros Hs. exists (take (Z.to_nat (Z.min 7 size)) store). cbn. unfold id.
  split; [done|]. split; [by rewrite take_drop|].
  split; [rewrite length_take; lia|]. intros Hpos Hne Hnil.
  apply (f_equal (@length Z)) in Hnil. rewrite length_take in Hnil. cbn in Hnil.
  destruct store; [done|]. cbn in Hnil. lia.
Qed.

(** Buffered writes.  With a back end that stores what it is given, a
    [qemu_put_buffer] of any length (shorter than the buffer, filling it, or
    many times its size) appends exactly its bytes to what has been stored or
    is still buffered, and leaves room in the buffer; [qemu_fflush] then
    moves everything to the back end. *)
Theorem qemu_put_buffer_appends {B} (put : B -> list Z -> Z -> Z * B) (stored : B -> list Z)
    (Hput : forall op bs, let r := put op bs (Z.of_nat (length (stored op))) in
      fst r = Z.of_nat (length bs) /\ stored (snd r) = stored op ++ bs)
    (f : wfile B) bs
    (Hf : wlast_error f = 0 /\ wbuf_index f < IO_BUF_SIZE /\ wpos f = Z.of_nat (length (stored (wopaque f)))) :
  let f' := qemu_put_buffer put f bs in
  wlast_error f' = 0 /\ wbuf_index f' < IO_BUF_SIZE /\
  stored (wopaque f') ++ wbuf f' = (stored (wopaque f) ++ wbuf f) ++ bs /\
  stored (wopaque (qemu_fflush put f')) = (stored (wopaque f) ++ wbuf f) ++ bs.
Proof.
  assert (wfile_ok stored (qemu_put_buffer put f bs) /\
    wfile_bytes stored (qemu_put_buffer put f bs) = wfile_bytes stored f ++ bs) as [O E].
  { unfold qemu_put_buffer, nz. pose proof Hf as [-> _]. by apply put_loop_spec. }
  pose proof O as (He & Hi & Hp). destruct (qemu_fflush_spec put stored Hput _ He Hp) as [_ Ef].
  split; [done|]. split; [done|]. split; [done|].
  rewrite E in Ef. unfold wfile_bytes in Ef. rewrite <- Ef.
  assert (wbuf (qemu_fflush put (qemu_put_buffer put f bs)) = []) as ->; [|by rewrite app_nil_r].
  unfold qemu_fflush. by destruct (if _ <? _ then _ else _).
Qed.

Lemma qemu_put_buffer_appends_witness :
  let f := qemu_put_buffer mem_put (fresh_wfile []) [1; 2; 3] in
  wlast_error f = 0 /\ wbuf_index f < IO_BUF_SIZE /\
  id (wopaque f) ++ wbuf f = (id [] ++ []) ++ [1; 2; 3] /\
  id (wopaque (qemu_fflush mem_put f)) = (id [] ++ []) ++ [1; 2; 3].
Proof.
  exact (qemu_put_buffer_appends mem_put id mem_put_ok (fresh_wfile []) [1; 2; 3]
    (conj eq_refl (conj eq_refl eq_refl))).
Defined.

(** Buffered reads.  Over a back end that delivers a byte sequence in
    pieces of its choosing, [qemu_get_buffer] of [n] bytes, [n] of them being
    left, returns exactly the next [n] bytes and leaves the rest. *)
Theorem qemu_get_buffer_delivers {B} (get : B -> Z -> Z -> (list Z + Z) * B)
    (rest : B -> list Z)
    (Hget : forall op pos size, 0 <= size ->
      exists bs, fst (get op pos size) = inl bs /\
        rest op = bs ++ rest (snd (get op pos size)) /\
        Z.of_nat (length bs) <= size /\ (0 < size -> rest op <> [] -> bs <> []))
    (f : rfile B) n bs r
    (Hf : 0 <= rbuf_index f <= rbuf_size f /\ rbuf_size f <= IO_BUF_SIZE)
    (Hr : drop (Z.to_nat (rbuf_index f)) (rbuf f) ++ rest (ropaque f) = bs ++ r)
    (Hn : Z.of_nat (length bs) = n) :
  let f' := snd (qemu_get_buffer get f n) in
  fst (qemu_get_buffer get f n) = bs /\
  drop (Z.to_nat (rbuf_index f')) (rbuf f') ++ rest (ropaque f') = r.
Proof.
  destruct (get_loop_spec get rest Hget (Z.to_nat n) f n bs r (le_n _) Hf Hr Hn) as (E & _ & R).
  done.
Qed.

Lemma qemu_get_buffer_delivers_witness :
  let store := [1; 2; 3; 4; 5; 6; 7; 8; 9; 10] in
  let f' := snd (qemu_get_buffer mem_get (fresh_rfile store) 9) in
  fst (qemu_get_buffer mem_get (fresh_rfile store) 9) = [1; 2; 3; 4; 5; 6; 7; 8; 9] /\
  drop (Z.to_nat (rbuf_index f')) (rbuf f') ++ id (ropaque f') = [10].
Proof.
  refine (qemu_get_buffer_delivers mem_get id mem_get_ok
    (fresh_rfile [1; 2; 3; 4; 5; 6; 7; 8; 9; 10]) 9 [1; 2; 3; 4; 5; 6; 7; 8; 9] [10] _ eq_refl eq_refl).
  vm_compute; repeat split; discriminate.
Defined.

(** C16: Snapshots survive the file.  Whatever device is saved into a fresh
    [QEMUFile], flushed, and loaded from a [QEMUFile] over the bytes the back
    end then holds, the load reports success and restores the device. *)
Theorem qemu_file_snapshot_roundtrip {D} `{Snapshot D} {B C}
    (put : B -> list Z -> Z -> Z * B) (stored : B -> list Z)
    (get : C -> Z -> Z -> (list Z + Z) * C) (rest : C -> list Z)
    (Hput : forall op bs, let r := put op bs (Z.of_nat (length (stored op))) in
      fst r = Z.of_nat (length bs) /\ stored (snd r) = stored op ++ bs)
    (Hget : forall op pos size, 0 <= size ->
      exists bs, fst (get op pos size) = inl bs /\
        rest op = bs ++ rest (snd (get op pos size)) /\
        Z.of_nat (length bs) <= size /\ (0 < size -> rest op <> [] -> bs <> []))
    (d d0 : D) (opw : B) (opr : C) :
  let Sk := wfile_Sink put stored Hput in
  let Sr := rfile_Source get rest Hget in
  saveable d -> stored opw = [] ->
  rest opr = stored (wopaque (qemu_fflush put (save d (fresh_wfile opw)))) ->
  fst (load version d0 (fresh_rfile opr)) = (0, restored d d0).
Proof.
  intros Sk Sr Hd Hw Hr.
  assert (wfile_ok stored (fresh_wfile opw)) as Hok by (split; [done|]; split; [done|by cbn; rewrite Hw]).
  destruct (@save_encodes D _ (wfile B) Sk d (fresh_wfile opw) Hok) as [(He & Hi & Hp) Hb].
  cbn [sink_bytes Sk wfile_Sink] in Hb.
  unfold wfile_bytes at 2 in Hb. cbn [wopaque wbuf fresh_wfile] in Hb.
  rewrite Hw in Hb. cbn [app] in Hb.
  destruct (qemu_fflush_spec put stored Hput _ He Hp) as [_ Ef].
  assert (rest opr = encode d) as Er.
  { rewrite Hr, <- Hb, <- Ef. unfold wfile_bytes.
    assert (forall f, wbuf (qemu_fflush put f) = []) as ->; [|by rewrite app_nil_r].
    intros f. unfold qemu_fflush. by destruct (if _ <? _ then _ else _). }
  destruct (@load_decodes D _ (rfile C) Sr d d0 Hd (fresh_rfile opr) []) as (E & _ & _); [done| |done].
  cbn. unfold rfile_rest. cbn. by rewrite app_nil_r.
Qed.
