(* ===== verification/Interrupt.v ===== *)
(** The Goldfish interrupt controller (hw/android/goldfish/interrupt.c): 32
    level-triggered input lines, an enable mask for each of the CPU's IRQ and
    FIQ pins, and a counter of pending interrupts kept by hand.

    The controller is the machine's interrupt sink; [IrqController] is what
    it promises to the devices, which are verified against that interface. *)
From Stdlib Require Import ZArith Lia Bool.
From stdpp Require Import base numbers list gmap.
From S2P Require Import Prelude Stream QemuFile.
Local Open Scope Z_scope.
Local Open Scope prog_scope.
Local Open Scope stream_scope.

(** ** The interface: lines that hold the level they were last set to. *)
Class IrqController (C : Type) := {
  nr_lines : Z;
  set_line : C -> Z -> Z -> C;
  line : C -> Z -> bool;
  ctrl_ok : C -> Prop;
  set_line_ok c n level : 0 <= n < nr_lines -> ctrl_ok c -> ctrl_ok (set_line c n level);
  line_set_line c n level :
    0 <= n < nr_lines -> ctrl_ok c -> line (set_line c n level) n = nz level;
  line_set_line_ne c n m level :
    0 <= n < nr_lines -> 0 <= m < nr_lines -> n <> m -> ctrl_ok c ->
    line (set_line c n level) m = line c m;
}.

Module GoldfishInt.

Definition GFD_MAX_IRQ : Z := 32.
Definition INTERRUPT_STATUS : Z := 0x00.
Definition INTERRUPT_NUMBER : Z := 0x04.
Definition INTERRUPT_DISABLE_ALL : Z := 0x08.
Definition INTERRUPT_DISABLE : Z := 0x0c.
Definition INTERRUPT_ENABLE : Z := 0x10.

Record goldfish_int_state := mk_int_state {
  level : Z;
  pending_count : Z;
  irq_enabled : Z;
  fiq_enabled : Z;
}.

Definition set_level v st := mk_int_state v (pending_count st) (irq_enabled st) (fiq_enabled st).
Definition set_pending v st := mk_int_state (level st) v (irq_enabled st) (fiq_enabled st).
Definition set_irq_enabled v st := mk_int_state (level st) (pending_count st) v (fiq_enabled st).
Definition set_fiq_enabled v st := mk_int_state (level st) (pending_count st) (irq_enabled st) v.

(** Drives of the CPU pins, [qemu_set_irq(s->parent_irq, b)] and
    [qemu_set_irq(s->parent_fiq, b)]. *)
Inductive pin_event :=
| ParentIrq (b : Z)
| ParentFiq (b : Z).

Definition M := prog goldfish_int_state pin_event.

Definition goldfish_int_update : M unit :=
  st <- gets id ;;
  emit (ParentIrq (cbool (nz (Z.land (level st) (irq_enabled st))))) ;;;
  emit (ParentFiq (cbool (nz (Z.land (level st) (fiq_enabled st))))).

Definition goldfish_int_set_irq (irq lvl : Z) : M unit :=
  let mask := u32 (bit irq) in
  st <- gets id ;;
  (if nz lvl then
     when (negb (nz (Z.land (level st) mask)))
       (when (nz (Z.land (irq_enabled st) mask))
          (modify (fun st => set_pending (u32 (pending_count st + 1)) st)) ;;;
        modify (fun st => set_level (Z.lor (level st) mask) st))
   else
     when (nz (Z.land (level st) mask))
       (when (nz (Z.land (irq_enabled st) mask))
          (modify (fun st => set_pending (u32 (pending_count st - 1)) st)) ;;;
        modify (fun st => set_level (Z.land (level st) (Z.lnot mask)) st))) ;;;
  goldfish_int_update.

(** The scan of [INTERRUPT_NUMBER]: the first [i] from [i], [n] bits to go. *)
Fixpoint first_pending (n : nat) (i pending : Z) : Z :=
  match n with
  | O => 0
  | S n' => if nz (Z.land pending (bit i)) then i else first_pending n' (i + 1) pending
  end.

Definition goldfish_int_read (offset : Z) : M Z :=
  if offset =? INTERRUPT_STATUS then gets pending_count
  else if offset =? INTERRUPT_NUMBER then
    gets (fun st => first_pending 32 0 (Z.land (level st) (irq_enabled st)))
  else abort (CpuAbort offset).

Definition goldfish_int_write (offset value : Z) : M unit :=
  let mask := u32 (bit value) in
  st <- gets id ;;
  (if offset =? INTERRUPT_DISABLE_ALL then
     modify (set_pending 0) ;;; modify (set_level 0)
   else if offset =? INTERRUPT_DISABLE then
     when (nz (Z.land (irq_enabled st) mask))
       (when (nz (Z.land (level st) mask))
          (modify (fun st => set_pending (u32 (pending_count st - 1)) st)) ;;;
        modify (fun st => set_irq_enabled (Z.land (irq_enabled st) (Z.lnot mask)) st))
   else if offset =? INTERRUPT_ENABLE then
     when (negb (nz (Z.land (irq_enabled st) mask)))
       (modify (fun st => set_irq_enabled (Z.lor (irq_enabled st) mask) st) ;;;
        when (nz (Z.land (level st) mask))
          (modify (fun st => set_pending (u32 (pending_count st + 1)) st)))
   else abort (CpuAbort offset)) ;;;
  goldfish_int_update.

(** [goldfish_interrupt_init]: the state is [g_malloc0]ed. *)
Definition goldfish_interrupt_init : goldfish_int_state := mk_int_state 0 0 0 0.

(** ** Snapshots *)
Definition GOLDFISH_INT_SAVE_VERSION : Z := 1.
Definition goldfish_int_fields : list (qfield goldfish_int_state) :=
  [QField_Int32 level set_level; QField_Int32 pending_count set_pending;
   QField_Int32 irq_enabled set_irq_enabled; QField_Int32 fiq_enabled set_fiq_enabled].

Definition goldfish_int_save {F} `{Sink F} (st : goldfish_int_state) : wr F :=
  qemu_put_struct goldfish_int_fields st.
Definition goldfish_int_load {F} `{Source F} (version_id : Z) (st : goldfish_int_state)
  : rd F (Z * goldfish_int_state) :=
  if negb (version_id =? GOLDFISH_INT_SAVE_VERSION) then rret (-1, st)
  else qemu_get_struct goldfish_int_fields st.

Definition pending (st : goldfish_int_state) : Z := Z.land (level st) (irq_enabled st).

(** The representation invariant: 32-bit members, and the hand-kept counter
    counts the lines that are both asserted and enabled. *)
Record wf (st : goldfish_int_state) : Prop := {
  wf_level : fits 32 (level st);
  wf_irq : fits 32 (irq_enabled st);
  wf_fiq : fits 32 (fiq_enabled st);
  wf_count : pending_count st = popcount 32 (pending st);
}.

(** The requests the rest of the machine makes of the controller. *)
Inductive op :=
| OpSetIrq (irq lvl : Z)
| OpRead (offset : Z)
| OpWrite (offset value : Z).

Definition run_op (o : op) : M unit :=
  match o with
  | OpSetIrq irq lvl => goldfish_int_set_irq irq lvl
  | OpRead offset => goldfish_int_read offset ;;; ret tt
  | OpWrite offset value => goldfish_int_write offset value
  end.

(** Lines are numbered below [GFD_MAX_IRQ] ([1U << irq] is defined). *)
Definition op_ok (o : op) : Prop :=
  match o with
  | OpSetIrq irq _ => 0 <= irq < GFD_MAX_IRQ
  | OpRead _ => True
  | OpWrite offset value => offset <> INTERRUPT_DISABLE_ALL -> 0 <= value < GFD_MAX_IRQ
  end.

(** [reachable st tr]: from power-on, with every drive of the CPU pins in [tr]. *)
Inductive reachable : goldfish_int_state -> list pin_event -> Prop :=
| reach_init : reachable goldfish_interrupt_init []
| reach_step st tr o st' es :
    reachable st tr -> op_ok o -> run_op o st = Ok (tt, st', es) ->
    reachable st' (tr ++ es).

(** The last drive of each pin in a trace. *)
Fixpoint last_irq (d : Z) (es : list pin_event) : Z :=
  match es with
  | [] => d
  | ParentIrq b :: es' => last_irq b es'
  | ParentFiq _ :: es' => last_irq d es'
  end.
Fixpoint last_fiq (d : Z) (es : list pin_event) : Z :=
  match es with
  | [] => d
  | ParentIrq _ :: es' => last_fiq d es'
  | ParentFiq b :: es' => last_fiq b es'
  end.

(** ** Closed forms of the operations on well-formed states *)

Definition pins (st : goldfish_int_state) : list pin_event :=
  [ParentIrq (cbool (nz (pending st)));
   ParentFiq (cbool (nz (Z.land (level st) (fiq_enabled st))))].

(** The state with its counter recomputed. *)
Definition recount (l e f : Z) : goldfish_int_state :=
  mk_int_state l (popcount 32 (Z.land l e)) e f.

Lemma recount_wf l e f : fits 32 l -> fits 32 e -> fits 32 f -> wf (recount l e f).
Proof. by constructor. Qed.

Lemma wf_recount st : wf st -> st = recount (level st) (irq_enabled st) (fiq_enabled st).
Proof.
  destruct st as [l c e f]. intros [_ _ _ Hc]. unfold pending in Hc. cbn in *.
  unfold recount. by rewrite Hc.
Qed.

(** The hand-kept count after one bit of either mask changed. *)
Lemma count_step b i l e :
  0 <= i < 32 -> Z.testbit l i = negb b ->
  popcount 32 (Z.land (upd_bit b i l) e) =
    if Z.testbit e i then u32 (popcount 32 (Z.land l e) + (if b then 1 else -1))
    else popcount 32 (Z.land l e).
Proof.
  intros Hi Hl. pose proof (popcount_range 32 (Z.land (upd_bit b i l) e)) as Hr.
  rewrite upd_bit_land, popcount_upd_bit, Z.land_spec, Hl in * by lia.
  destruct (Z.testbit e i), b; cbn [negb andb Z.b2z] in *; try lia.
  all: unfold uwrap; rewrite Z.mod_small; lia.
Qed.

Lemma count_step_r b i l e :
  0 <= i < 32 -> Z.testbit e i = negb b ->
  popcount 32 (Z.land l (upd_bit b i e)) =
    if Z.testbit l i then u32 (popcount 32 (Z.land l e) + (if b then 1 else -1))
    else popcount 32 (Z.land l e).
Proof. intros. rewrite !(Z.land_comm l). by apply count_step. Qed.

Lemma goldfish_int_set_irq_eq st irq lvl :
  wf st -> 0 <= irq < 32 ->
  let st' := recount (upd_bit (nz lvl) irq (level st)) (irq_enabled st) (fiq_enabled st) in
  goldfish_int_set_irq irq lvl st = Ok (tt, st', pins st').
Proof.
  intros Hwf Hi. destruct st as [l c e f], Hwf as [_ _ _ Hc]. cbv zeta.
  unfold pending in Hc. cbn [level irq_enabled pending_count] in Hc. subst c.
  unfold goldfish_int_set_irq, goldfish_int_update. rewrite uwrap_bit by lia.
  run_prog. cbn [level irq_enabled fiq_enabled pending_count].
  rewrite !nz_land_bit by lia.
  destruct (nz lvl), (Z.testbit l irq) eqn:El; cbn [negb];
    try (rewrite upd_bit_same by (done || lia); reflexivity).
  all: unfold recount, pins, pending; cbn [level irq_enabled fiq_enabled].
  all: rewrite count_step by (done || lia).
  all: destruct (Z.testbit e irq) eqn:Ee; reflexivity.
Qed.
Lemma goldfish_int_write_eq st offset value :
  wf st -> (offset <> INTERRUPT_DISABLE_ALL -> 0 <= value < 32) ->
  goldfish_int_write offset value st =
    if offset =? INTERRUPT_DISABLE_ALL then
      let st' := recount 0 (irq_enabled st) (fiq_enabled st) in Ok (tt, st', pins st')
    else if (offset =? INTERRUPT_DISABLE) || (offset =? INTERRUPT_ENABLE) then
      let st' := recount (level st) (upd_bit (offset =? INTERRUPT_ENABLE) value (irq_enabled st))
                   (fiq_enabled st) in Ok (tt, st', pins st')
    else Fault (CpuAbort offset).
Proof.
  intros Hwf Hv. destruct st as [l c e f], Hwf as [_ _ _ Hc]. cbv zeta.
  unfold pending in Hc. cbn [level irq_enabled pending_count] in Hc. subst c.
  unfold goldfish_int_write, goldfish_int_update.
  destruct (Z.eqb_spec offset INTERRUPT_DISABLE_ALL) as [|Hne]; [reflexivity|].
  specialize (Hv Hne). rewrite uwrap_bit by lia.
  run_prog. cbn [level irq_enabled fiq_enabled pending_count].
  rewrite !nz_land_bit by lia.
  destruct (Z.eqb_spec offset INTERRUPT_DISABLE) as [->|Hnd]; cbn [orb];
    [change (INTERRUPT_DISABLE =? INTERRUPT_ENABLE) with false
    |destruct (Z.eqb_spec offset INTERRUPT_ENABLE) as [->|Hnn]; [|reflexivity]].
  all: destruct (Z.testbit e value) eqn:Ee; cbn [negb];
    try (rewrite upd_bit_same by (done || lia); reflexivity).
  all: unfold recount, pins, pending; cbn [level irq_enabled fiq_enabled].
  all: rewrite count_step_r by (done || lia).
  all: destruct (Z.testbit l value) eqn:El; reflexivity.
Qed.

Lemma goldfish_int_read_eq st offset r st' es :
  goldfish_int_read offset st = Ok (r, st', es) -> st' = st /\ es = [].
Proof.
  unfold goldfish_int_read. repeat case_cond; run_prog; naive_solver.
Qed.

Lemma first_pending_spec n i x :
  0 <= i ->
  let r := first_pending n i x in
  (forall j, i <= j < i + Z.of_nat n -> Z.testbit x j = false) /\ r = 0 \/
  i <= r < i + Z.of_nat n /\ Z.testbit x r = true /\
    forall j, i <= j < r -> Z.testbit x j = false.
Proof.
  revert i. induction n as [|n IH]; intros i Hi; cbn [first_pending].
  { left. split; [lia|done]. }
  rewrite nz_land_bit by lia. destruct (Z.testbit x i) eqn:E.
  { right. split; [lia|]. split; [done|lia]. }
  destruct (IH (i + 1) ltac:(lia)) as [[H Hr]|(Hr & Hb & H)].
  - left. split; [|done]. intros j Hj. destruct (decide (j = i)) as [->|]; [done|]. apply H. lia.
  - right. split; [lia|]. split; [done|]. intros j Hj.
    destruct (decide (j = i)) as [->|]; [done|]. apply H. lia.
Qed.

Lemma last_irq_app d es es' : last_irq d (es ++ es') = last_irq (last_irq d es) es'.
Proof. revert d. induction es as [|[b|b] es IH]; intros d; cbn; auto. Qed.
Lemma last_fiq_app d es es' : last_fiq d (es ++ es') = last_fiq (last_fiq d es) es'.
Proof. revert d. induction es as [|[b|b] es IH]; intros d; cbn; auto. Qed.

(** One operation: the counter stays right, and the pins are left at the
    levels of the state it ends in (a read leaves both alone). *)
Lemma interrupt_run_op_step st o st' es :
  wf st -> op_ok o -> run_op o st = Ok (tt, st', es) ->
  wf st' /\ ((st' = st /\ es = []) \/ es = pins st').
Proof.
  intros Hwf Ho H. pose proof Hwf as [Hl He Hf _]. destruct o as [irq lvl|offset|offset value].
  - cbn [run_op] in H. rewrite goldfish_int_set_irq_eq in H by done. simplify_eq.
    split; [|by right]. apply recount_wf; auto using upd_bit_fits.
  - cbn [run_op] in H. unfold bind in H. destruct (goldfish_int_read offset st) as [[[r st1] es1]|] eqn:E;
      [|done]. apply goldfish_int_read_eq in E as [-> ->]. unfold ret in H. simplify_eq.
    split; [done|by left].
  - cbn [run_op] in H. rewrite goldfish_int_write_eq in H by done. cbv zeta in H.
    destruct (Z.eqb_spec offset INTERRUPT_DISABLE_ALL) as [|Hne].
    { simplify_eq. split; [|by right]. apply recount_wf; [apply fits_0; lia|done..]. }
    case_cond_in H; simplify_eq. split; [|by right].
    apply recount_wf; [done| |done]. apply upd_bit_fits; [by apply Ho|done].
Qed.

(** The set of lines set in a mask. *)
Definition lines (x : Z) : gset Z :=
  list_to_set (filter (fun i => Z.testbit x i = true) (seqZ 0 32)).

Lemma elem_of_lines x i : i ∈ lines x <-> 0 <= i < 32 /\ Z.testbit x i = true.
Proof.
  unfold lines. rewrite elem_of_list_to_set, list_elem_of_filter, elem_of_seqZ. naive_solver lia.
Qed.

Lemma lines_upd b i x :
  0 <= i < 32 -> lines (upd_bit b i x) = if b then {[i]} ∪ lines x else lines x ∖ {[i]}.
Proof.
  intros Hi. apply set_eq. intros j.
  destruct b; rewrite ?elem_of_union, ?elem_of_difference, !elem_of_singleton, !elem_of_lines;
    (destruct (decide (0 <= j)); [|naive_solver lia]);
    rewrite upd_bit_spec by lia; destruct (Z.eqb_spec i j); naive_solver lia.
Qed.

(** ** The abstract controller: two sets of lines *)
Record abs_state := mk_abs { asserted : gset Z; enabled : gset Z }.
Definition abstraction (st : goldfish_int_state) : abs_state :=
  mk_abs (lines (level st)) (lines (irq_enabled st)).
Definition abs_step (o : op) (a : abs_state) : abs_state :=
  match o with
  | OpSetIrq irq lvl =>
      mk_abs (if nz lvl then {[irq]} ∪ asserted a else asserted a ∖ {[irq]}) (enabled a)
  | OpRead _ => a
  | OpWrite offset value =>
      if offset =? INTERRUPT_DISABLE_ALL then mk_abs ∅ (enabled a)
      else if offset =? INTERRUPT_DISABLE then mk_abs (asserted a) (enabled a ∖ {[value]})
      else mk_abs (asserted a) ({[value]} ∪ enabled a)
  end.

(** C15: Reachable controllers.  In every state reached from power-on by any
    sequence of line changes and register accesses, the hand-kept
    [pending_count] is the number of lines both asserted and enabled, and the
    CPU's IRQ and FIQ pins were last driven to "some enabled line is asserted". *)
Theorem goldfish_int_reachable_inv st tr :
  reachable st tr ->
  pending_count st = popcount 32 (Z.land (level st) (irq_enabled st)) /\
  last_irq 0 tr = cbool (nz (Z.land (level st) (irq_enabled st))) /\
  last_fiq 0 tr = cbool (nz (Z.land (level st) (fiq_enabled st))).
Proof.
  intros H. enough (wf st /\ last_irq 0 tr = cbool (nz (pending st)) /\
    last_fiq 0 tr = cbool (nz (Z.land (level st) (fiq_enabled st)))) as ([] & ? & ?) by done.
  induction H as [|st tr o st' es _ (Hwf & Hi & Hf) Ho Hr].
  { split; [by constructor; vm_compute|done]. }
  destruct (interrupt_run_op_step st o st' es Hwf Ho Hr) as [Hwf' [[-> ->] | ->]];
    rewrite last_irq_app, last_fiq_app; done.
Qed.

(** Line 3 enabled, then asserted. *)
Definition demo_state : goldfish_int_state := mk_int_state 8 1 8 0.
Lemma demo_reachable :
  reachable demo_state [ParentIrq 0; ParentFiq 0; ParentIrq 1; ParentFiq 0].
Proof.
  apply (reach_step (mk_int_state 0 0 8 0) [ParentIrq 0; ParentFiq 0] (OpSetIrq 3 1)
    demo_state [ParentIrq 1; ParentFiq 0]); [|split; [discriminate|reflexivity]|reflexivity].
  apply (reach_step goldfish_interrupt_init [] (OpWrite INTERRUPT_ENABLE 3)
    (mk_int_state 0 0 8 0) [ParentIrq 0; ParentFiq 0]); [constructor| |reflexivity].
  intros _. split; [discriminate|reflexivity].
Qed.

Lemma goldfish_int_reachable_inv_witness :
  pending_count demo_state = popcount 32 (Z.land 8 8) /\
  last_irq 0 [ParentIrq 0; ParentFiq 0; ParentIrq 1; ParentFiq 0] = cbool (nz (Z.land 8 8)) /\
  last_fiq 0 [ParentIrq 0; ParentFiq 0; ParentIrq 1; ParentFiq 0] = cbool (nz (Z.land 8 0)).
Proof. exact (goldfish_int_reachable_inv demo_state _ demo_reachable). Defined.

Lemma demo_wf : wf demo_state.
Proof. constructor; vm_compute; by repeat split. Qed.

(** C37: Refinement.  Every operation on a well-formed controller acts on the
    sets of asserted and enabled lines as the abstract controller does. *)
Theorem goldfish_int_refines st o st' es :
  wf st -> op_ok o -> run_op o st = Ok (tt, st', es) ->
  abstraction st' = abs_step o (abstraction st).
Proof.
  intros Hwf Ho H. unfold abstraction. destruct o as [irq lvl|offset|offset value]; cbn [run_op] in H.
  - rewrite goldfish_int_set_irq_eq in H by done. simplify_eq. cbn.
    by rewrite lines_upd.
  - unfold bind in H. destruct (goldfish_int_read offset st) as [[[r st1] es1]|] eqn:E; [|done].
    apply goldfish_int_read_eq in E as [-> ->]. unfold ret in H. by simplify_eq.
  - rewrite goldfish_int_write_eq in H by done. cbv zeta in H. cbn.
    destruct (Z.eqb_spec offset INTERRUPT_DISABLE_ALL) as [|Hne]; [by simplify_eq|].
    specialize (Ho Hne). unfold GFD_MAX_IRQ in Ho.
    destruct (Z.eqb_spec offset INTERRUPT_DISABLE) as [->|].
    + change (INTERRUPT_DISABLE =? INTERRUPT_ENABLE) with false in H. cbn [orb] in H.
      simplify_eq. cbn. by rewrite lines_upd.
    + destruct (Z.eqb_spec offset INTERRUPT_ENABLE); [|done]. cbn [orb] in H.
      simplify_eq. cbn. by rewrite lines_upd.
Qed.

Lemma goldfish_int_refines_witness :
  abstraction (mk_int_state 0 0 8 0) = abs_step (OpSetIrq 3 0) (abstraction demo_state).
Proof.
  apply (goldfish_int_refines demo_state (OpSetIrq 3 0) (mk_int_state 0 0 8 0)
    [ParentIrq 0; ParentFiq 0] demo_wf); [split; [discriminate|reflexivity]|reflexivity].
Defined.

(** What the CPU reads.  On a well-formed controller with a pending line,
    INTERRUPT_NUMBER returns the lowest-numbered line that is asserted and
    enabled, INTERRUPT_STATUS the number of them, and neither read changes
    the state or drives a pin; with none pending the status is 0. *)
Theorem goldfish_int_read_spec st :
  wf st ->
  (exists n, goldfish_int_read INTERRUPT_NUMBER st = Ok (n, st, []) /\
    (pending st <> 0 ->
      n ∈ lines (level st) ∩ lines (irq_enabled st) /\
      forall m, m ∈ lines (level st) ∩ lines (irq_enabled st) -> n <= m)) /\
  (exists k, goldfish_int_read INTERRUPT_STATUS st = Ok (k, st, []) /\
    k = popcount 32 (pending st) /\ (k = 0 <-> pending st = 0)).
Proof.
  intros [Hl He _ Hc]. assert (fits 32 (pending st)) as Hp by (apply fits_land_l; [lia|done]). split.
  - exists (first_pending 32 0 (pending st)). split; [done|]. intros Hne.
    destruct (first_pending_spec 32 0 (pending st) ltac:(lia)) as [[H _]|(Hr & Hb & H)].
    + destruct Hne. apply (fits_bits_inj 32); [lia|done|apply fits_0; lia|].
      intros i Hi. rewrite Z.bits_0. by apply H.
    + set (n := first_pending 32 0 (pending st)) in *. unfold pending in Hb, H.
      rewrite Z.land_spec in Hb. apply andb_true_iff in Hb as [Hb1 Hb2].
      assert (0 <= n < 32) by lia.
      split; [by rewrite elem_of_intersection, !elem_of_lines|].
      intros m. rewrite elem_of_intersection, !elem_of_lines. intros [[? Hm1] [_ Hm2]].
      destruct (Z.le_gt_cases n m); [done|]. exfalso.
      specialize (H m ltac:(lia)). by rewrite Z.land_spec, Hm1, Hm2 in H.
  - exists (pending_count st). split; [done|]. split; [done|]. rewrite Hc.
    by apply (popcount_zero_iff 32).
Qed.

Lemma goldfish_int_read_spec_witness :
  (exists n, goldfish_int_read INTERRUPT_NUMBER demo_state = Ok (n, demo_state, []) /\
    (pending demo_state <> 0 ->
      n ∈ lines (level demo_state) ∩ lines (irq_enabled demo_state) /\
      forall m, m ∈ lines (level demo_state) ∩ lines (irq_enabled demo_state) -> n <= m)) /\
  (exists k, goldfish_int_read INTERRUPT_STATUS demo_state = Ok (k, demo_state, []) /\
    k = popcount 32 (pending demo_state) /\ (k = 0 <-> pending demo_state = 0)).
Proof. exact (goldfish_int_read_spec demo_state demo_wf). Defined.

(** The controller as the machine's interrupt sink. *)
#[export, program] Instance goldfish_IrqController : IrqController goldfish_int_state := {|
  nr_lines := GFD_MAX_IRQ;
  set_line st n lvl :=
    match goldfish_int_set_irq n lvl st with Ok (_, st', _) => st' | Fault _ => st end;
  line st n := Z.testbit (level st) n;
  ctrl_ok := wf;
|}.
Next Obligation.
  intros st n lvl Hn Hwf. cbn beta. rewrite goldfish_int_set_irq_eq by done.
  destruct Hwf. apply recount_wf; auto using upd_bit_fits.
Qed.
Next Obligation.
  intros st n lvl Hn Hwf. cbn beta. rewrite goldfish_int_set_irq_eq by done. cbn.
  unfold GFD_MAX_IRQ in Hn. by rewrite upd_bit_spec, Z.eqb_refl by lia.
Qed.
Next Obligation.
  intros st n m lvl Hn Hm Hne Hwf. cbn beta. rewrite goldfish_int_set_irq_eq by done. cbn.
  unfold GFD_MAX_IRQ in *. rewrite upd_bit_spec by lia. by destruct (Z.eqb_spec n m).
Qed.

(** *** Snapshots *)
#[export, program] Instance goldfish_int_Snapshot : Snapshot goldfish_int_state := {|
  version := GOLDFISH_INT_SAVE_VERSION;
  save F _ := goldfish_int_save;
  load F _ := goldfish_int_load;
  encode st := be32 (level st) ++ be32 (pending_count st) ++ be32 (irq_enabled st) ++
               be32 (fiq_enabled st);
  saveable st := fits 32 (level st) /\ fits 32 (pending_count st) /\
                 fits 32 (irq_enabled st) /\ fits 32 (fiq_enabled st);
  restored st _ := st;
|}.
Next Obligation. intros F ? st. cbn. rewrite <- (app_nil_r (be32 (fiq_enabled st))). stream_writes. Qed.
Next Obligation.
  intros F ? [l c e f] st0 (Hl & Hc & He & Hf). cbn in *.
  rewrite <- (uwrap_id 32 l Hl) at 2. rewrite <- (uwrap_id 32 c Hc) at 2.
  rewrite <- (uwrap_id 32 e He) at 2. rewrite <- (uwrap_id 32 f Hf) at 2.
  unfold goldfish_int_load. cbn. stream_reads.
Qed.

Lemma qemu_file_snapshot_roundtrip_witness :
  let f := save (H := wfile_Sink mem_put id mem_put_ok) demo_state (fresh_wfile []) in
  fst (load (H := rfile_Source mem_get id mem_get_ok) version goldfish_interrupt_init
    (fresh_rfile (wopaque (qemu_fflush mem_put f)))) = (0, restored demo_state goldfish_interrupt_init).
Proof.
  apply (qemu_file_snapshot_roundtrip mem_put id mem_get id mem_put_ok mem_get_ok
    demo_state goldfish_interrupt_init []); [|reflexivity|reflexivity].
  vm_compute; repeat split; discriminate.
Defined.

End GoldfishInt.
