(* ===== verification/Pic8259.v ===== *)
(** The 8259 interrupt controller pair (hw/intc/i8259.c): priority resolution
    with rotation, special mask and special fully nested modes, the edge and
    level triggered request latches, the four-word initialisation sequence,
    the end-of-interrupt commands, acknowledgement and polling.

    [PicState] is one controller, [PicState2] the cascaded pair; a handler
    that the code reaches through a [PicState *] takes the index of that
    controller in the pair, because it may go on to change the other one. *)
From Stdlib Require Import ZArith Lia Bool Btauto.
From stdpp Require Import base numbers list.
From S2P Require Import Prelude Stream.
Local Open Scope Z_scope.
Local Open Scope prog_scope.
Local Open Scope stream_scope.

Module Pic.

(** A closed number is in range. *)
Ltac closed_fits := split; [discriminate|reflexivity].

Record PicState := mkPic {
  last_irr : Z;
  irr : Z;
  imr : Z;
  isr : Z;
  priority_add : Z;
  irq_base : Z;
  read_reg_select : Z;
  poll : Z;
  special_mask : Z;
  init_state : Z;
  auto_eoi : Z;
  rotate_on_auto_eoi : Z;
  special_fully_nested_mode : Z;
  init4 : Z;
  single_mode : Z;
  elcr : Z;
  elcr_mask : Z;
}.
#[export] Instance PicState_eta : Settable PicState := fun s =>
  mkPic (last_irr s) (irr s) (imr s) (isr s) (priority_add s) (irq_base s)
    (read_reg_select s) (poll s) (special_mask s) (init_state s) (auto_eoi s)
    (rotate_on_auto_eoi s) (special_fully_nested_mode s) (init4 s) (single_mode s)
    (elcr s) (elcr_mask s).

(** [alt_irq_func] is the IOAPIC's callback, when one is installed. *)
Record PicState2 := mkPics {
  pics0 : PicState;
  pics1 : PicState;
  alt_irq_func : bool;
}.
#[export] Instance PicState2_eta : Settable PicState2 := fun s =>
  mkPics (pics0 s) (pics1 s) (alt_irq_func s).

(** [&s->pics[0]] and [&s->pics[1]]. *)
Inductive which := Master | Slave.
Definition pics (w : which) (s : PicState2) : PicState :=
  match w with Master => pics0 s | Slave => pics1 s end.
Definition upd_pics (w : which) (f : PicState -> PicState) (s : PicState2) : PicState2 :=
  match w with Master => s <| pics0 ::= f |> | Slave => s <| pics1 ::= f |> end.

Inductive pic_event :=
| ParentRaise
| ParentLower
| AltIrq (irq level : Z).

Definition M := prog PicState2 pic_event.

(** ** Requests and priorities *)

(** set irq level. If an edge is detected, then the IRR is set to 1 *)
Definition pic_set_irq1 (irq level : Z) (s : PicState) : PicState :=
  let mask := bit irq in
  if nz (Z.land (elcr s) mask) then
    if nz level then
      s <| irr ::= fun x => u8 (Z.lor x mask) |> <| last_irr ::= fun x => u8 (Z.lor x mask) |>
    else
      s <| irr ::= fun x => Z.land x (Z.lnot mask) |>
        <| last_irr ::= fun x => Z.land x (Z.lnot mask) |>
  else
    if nz level then
      (if Z.land (last_irr s) mask =? 0 then s <| irr ::= fun x => u8 (Z.lor x mask) |> else s)
        <| last_irr ::= fun x => u8 (Z.lor x mask) |>
    else s <| last_irr ::= fun x => Z.land x (Z.lnot mask) |>.

(** The search of [get_priority], [fuel] levels to go; the masks it is
    called with have a bit below 8, so 8 levels are enough. *)
Fixpoint priority_loop (fuel : nat) (add mask priority : Z) : outcome Z :=
  match fuel with
  | O => Fault FuelExhausted
  | S n =>
      if Z.land mask (bit (Z.land (priority + add) 7)) =? 0
      then priority_loop n add mask (priority + 1) else Ok priority
  end.

Definition get_priority (s : PicState) (mask : Z) : outcome Z :=
  if mask =? 0 then Ok 8 else priority_loop 8 (priority_add s) mask 0.

(** The mask of in-service interrupts that hold requests back. *)
Definition service_mask (w : which) (s : PicState) : Z :=
  let mask := isr s in
  let mask := if nz (special_mask s) then Z.land mask (Z.lnot (imr s)) else mask in
  match w with
  | Master => if nz (special_fully_nested_mode s) then Z.land mask (Z.lnot (bit 2)) else mask
  | Slave => mask
  end.

Definition pic_get_irq (w : which) (s : PicState) : outcome Z :=
  obind (get_priority s (Z.land (irr s) (Z.lnot (imr s)))) (fun priority =>
  if priority =? 8 then Ok (-1) else
  obind (get_priority s (service_mask w s)) (fun cur_priority =>
  if priority <? cur_priority then Ok (Z.land (priority + priority_add s) 7) else Ok (-1))).

Definition get_irq (w : which) : M Z :=
  st <- gets id ;; of_outcome (pic_get_irq w (pics w st)).

Section pair.
(** [TARGET_MIPS], [TARGET_PPC] or [TARGET_ALPHA] is defined: the parent line
    is lowered when there is nothing to grant; elsewhere the CPU does it. *)
Context (target_lowers : bool).

Definition pic_update_irq : M unit :=
  irq2 <- get_irq Slave ;;
  when (0 <=? irq2)
    (modify (upd_pics Master (pic_set_irq1 2 1)) ;;;
     modify (upd_pics Master (pic_set_irq1 2 0))) ;;;
  irq <- get_irq Master ;;
  if 0 <=? irq then emit ParentRaise else when target_lowers (emit ParentLower).

Definition i8259_set_irq (irq level : Z) : M unit :=
  (if Z.shiftr irq 3 =? 0 then modify (upd_pics Master (pic_set_irq1 (Z.land irq 7) level))
   else if Z.shiftr irq 3 =? 1 then modify (upd_pics Slave (pic_set_irq1 (Z.land irq 7) level))
   else abort OutOfBounds) ;;;
  st <- gets id ;;
  when (alt_irq_func st) (emit (AltIrq irq level)) ;;;
  pic_update_irq.

(** acknowledge interrupt 'irq' *)
Definition pic_intack (irq : Z) (s : PicState) : PicState :=
  let s :=
    if nz (auto_eoi s) then
      if nz (rotate_on_auto_eoi s) then s <| priority_add := Z.land (irq + 1) 7 |> else s
    else s <| isr ::= fun x => u8 (Z.lor x (bit irq)) |> in
  if negb (nz (Z.land (elcr s) (bit irq)))
  then s <| irr ::= fun x => Z.land x (Z.lnot (bit irq)) |> else s.

(** The part of [pic_read_irq] that picks and acknowledges the interrupt. *)
Definition acknowledge : M Z :=
  irq <- get_irq Master ;;
  if 0 <=? irq then
    modify (upd_pics Master (pic_intack irq)) ;;;
    if irq =? 2 then
      irq2 <- get_irq Slave ;;
      irq2 <- (if 0 <=? irq2 then modify (upd_pics Slave (pic_intack irq2)) ;;; ret irq2
               else ret 7) ;;
      gets (fun st => irq_base (pics1 st) + irq2)
    else gets (fun st => irq_base (pics0 st) + irq)
  else gets (fun st => irq_base (pics0 st) + 7).

Definition pic_read_irq : M Z :=
  intno <- acknowledge ;;
  pic_update_irq ;;;
  ret intno.

(** ** The registers *)

Definition pic_reset (s : PicState) : PicState :=
  mkPic 0 0 0 0 0 0 0 0 0 0 0 0 0 0 0 (elcr s) (elcr_mask s).

(** ICW1, addressed by bit 4 of a write to the command port. *)
Definition write_icw1 (w : which) (val : Z) : M unit :=
  modify (upd_pics w pic_reset) ;;;
  emit ParentLower ;;;
  modify (upd_pics w (fun s =>
    s <| init_state := 1 |> <| init4 := Z.land val 1 |> <| single_mode := Z.land val 2 |>)) ;;;
  when (nz (Z.land val 0x08)) (abort HwError).

(** OCW3. *)
Definition write_ocw3 (w : which) (val : Z) : M unit :=
  when (nz (Z.land val 0x04)) (modify (upd_pics w (fun s => s <| poll := 1 |>))) ;;;
  when (nz (Z.land val 0x02))
    (modify (upd_pics w (fun s => s <| read_reg_select := Z.land val 1 |>))) ;;;
  when (nz (Z.land val 0x40))
    (modify (upd_pics w (fun s => s <| special_mask := Z.land (Z.shiftr val 5) 1 |>))).

Definition clear_isr (irq : Z) (s : PicState) : PicState :=
  s <| isr ::= fun x => Z.land x (Z.lnot (bit irq)) |>.

(** OCW2, by the command in the top bits. *)
Definition write_ocw2 (w : which) (val : Z) : M unit :=
  let cmd := Z.shiftr val 5 in
  if (cmd =? 0) || (cmd =? 4) then
    modify (upd_pics w (fun s => s <| rotate_on_auto_eoi := Z.shiftr cmd 2 |>))
  else if (cmd =? 1) || (cmd =? 5) then
    st <- gets id ;;
    priority <- of_outcome (get_priority (pics w st) (isr (pics w st))) ;;
    when (negb (priority =? 8))
      (let irq := Z.land (priority + priority_add (pics w st)) 7 in
       modify (upd_pics w (clear_isr irq)) ;;;
       when (cmd =? 5)
         (modify (upd_pics w (fun s => s <| priority_add := Z.land (irq + 1) 7 |>))) ;;;
       pic_update_irq)
  else if cmd =? 3 then
    modify (upd_pics w (clear_isr (Z.land val 7))) ;;;
    pic_update_irq
  else if cmd =? 6 then
    modify (upd_pics w (fun s => s <| priority_add := Z.land (val + 1) 7 |>)) ;;;
    pic_update_irq
  else if cmd =? 7 then
    let irq := Z.land val 7 in
    modify (upd_pics w (clear_isr irq)) ;;;
    modify (upd_pics w (fun s => s <| priority_add := Z.land (irq + 1) 7 |>)) ;;;
    pic_update_irq
  else ret tt.

(** The data port: the mask register, or the next initialisation word. *)
Definition write_data (w : which) (val : Z) : M unit :=
  st <- gets id ;;
  let state := init_state (pics w st) in
  if state =? 0 then
    modify (upd_pics w (fun s => s <| imr := u8 val |>)) ;;;
    pic_update_irq
  else if state =? 1 then
    modify (upd_pics w (fun s =>
      s <| irq_base := Z.land val 0xf8 |>
        <| init_state := if nz (single_mode s) then (if nz (init4 s) then 3 else 0) else 2 |>))
  else if state =? 2 then
    modify (upd_pics w (fun s => s <| init_state := if nz (init4 s) then 3 else 0 |>))
  else if state =? 3 then
    modify (upd_pics w (fun s =>
      s <| special_fully_nested_mode := Z.land (Z.shiftr val 4) 1 |>
        <| auto_eoi := Z.land (Z.shiftr val 1) 1 |> <| init_state := 0 |>))
  else ret tt.

Definition pic_ioport_write (w : which) (addr val : Z) : M unit :=
  if Z.land addr 1 =? 0 then
    if nz (Z.land val 0x10) then write_icw1 w val
    else if nz (Z.land val 0x08) then write_ocw3 w val
    else write_ocw2 w val
  else write_data w val.

Definition pic_poll_read (w : which) (addr1 : Z) : M Z :=
  r <- get_irq w ;;
  if 0 <=? r then
    when (nz (Z.shiftr addr1 7))
      (modify (upd_pics Master (fun s =>
         s <| isr ::= fun x => Z.land x (Z.lnot (bit 2)) |>
           <| irr ::= fun x => Z.land x (Z.lnot (bit 2)) |>))) ;;;
    modify (upd_pics w (fun s =>
      s <| irr ::= fun x => Z.land x (Z.lnot (bit r)) |>
        <| isr ::= fun x => Z.land x (Z.lnot (bit r)) |>)) ;;;
    when (nz (Z.shiftr addr1 7) || negb (r =? 2)) pic_update_irq ;;;
    ret r
  else
    pic_update_irq ;;;
    ret 0x07.

Definition pic_ioport_read (w : which) (addr1 : Z) : M Z :=
  st <- gets id ;;
  if nz (poll (pics w st)) then
    r <- pic_poll_read w addr1 ;;
    modify (upd_pics w (fun s => s <| poll := 0 |>)) ;;;
    ret r
  else if Z.land addr1 1 =? 0 then
    gets (fun st => if nz (read_reg_select (pics w st)) then isr (pics w st) else irr (pics w st))
  else gets (fun st => imr (pics w st)).

Definition pic_intack_read : M Z :=
  r <- pic_poll_read Master 0x00 ;;
  r <- (if r =? 2 then r2 <- pic_poll_read Slave 0x80 ;; ret (r2 + 8) else ret r) ;;
  modify (upd_pics Master (fun s => s <| read_reg_select := 1 |>)) ;;;
  ret r.

Definition elcr_ioport_write (val : Z) (s : PicState) : PicState :=
  s <| elcr := u8 (Z.land val (elcr_mask s)) |>.
Definition elcr_ioport_read (s : PicState) : Z := elcr s.

Definition i8259_init (alt : bool) : PicState2 :=
  let s := mkPic 0 0 0 0 0 0 0 0 0 0 0 0 0 0 0 0 0 in
  mkPics (s <| elcr_mask := 0xf8 |>) (s <| elcr_mask := 0xde |>) alt.

(** ** Snapshots: one section per controller *)
Definition pic_fields : list (qfield PicState) :=
  [QField_Byte last_irr (fun v s => s <| last_irr := v |>);
   QField_Byte irr (fun v s => s <| irr := v |>);
   QField_Byte imr (fun v s => s <| imr := v |>);
   QField_Byte isr (fun v s => s <| isr := v |>);
   QField_Byte priority_add (fun v s => s <| priority_add := v |>);
   QField_Byte irq_base (fun v s => s <| irq_base := v |>);
   QField_Byte read_reg_select (fun v s => s <| read_reg_select := v |>);
   QField_Byte poll (fun v s => s <| poll := v |>);
   QField_Byte special_mask (fun v s => s <| special_mask := v |>);
   QField_Byte init_state (fun v s => s <| init_state := v |>);
   QField_Byte auto_eoi (fun v s => s <| auto_eoi := v |>);
   QField_Byte rotate_on_auto_eoi (fun v s => s <| rotate_on_auto_eoi := v |>);
   QField_Byte special_fully_nested_mode (fun v s => s <| special_fully_nested_mode := v |>);
   QField_Byte init4 (fun v s => s <| init4 := v |>);
   QField_Byte single_mode (fun v s => s <| single_mode := v |>);
   QField_Byte elcr (fun v s => s <| elcr := v |>)].

Definition EINVAL : Z := 22.
Definition pic_save {F} `{Sink F} (s : PicState) : wr F := qemu_put_struct pic_fields s.
Definition pic_load {F} `{Source F} (version_id : Z) (s : PicState) : rd F (Z * PicState) :=
  if negb (version_id =? 1) then rret (- EINVAL, s) else qemu_get_struct pic_fields s.

(** ** Priority order

    Inputs are ranked from [priority_add] upwards, rank 0 first. *)
Definition rank (s : PicState) (i : Z) : Z := (i - priority_add s) mod 8.
Definition slot (s : PicState) (p : Z) : Z := (p + priority_add s) mod 8.

Lemma land_7 x : Z.land x 7 = x mod 8.
Proof. change 7 with (Z.ones 3). by rewrite Z.land_ones by lia. Qed.

Lemma slot_rank s i : 0 <= i < 8 -> slot s (rank s i) = i.
Proof.
  intros. unfold slot, rank. rewrite Zplus_mod_idemp_l.
  replace (i - priority_add s + priority_add s) with i by lia. by apply Z.mod_small.
Qed.

Lemma rank_slot s p : 0 <= p < 8 -> rank s (slot s p) = p.
Proof.
  intros. unfold slot, rank. rewrite Zminus_mod_idemp_l.
  replace (p + priority_add s - priority_add s) with p by lia. by apply Z.mod_small.
Qed.

Lemma slot_range s p : 0 <= slot s p < 8.
Proof. by apply Z.mod_pos_bound. Qed.
Lemma rank_range s p : 0 <= rank s p < 8.
Proof. by apply Z.mod_pos_bound. Qed.

Lemma priority_loop_spec fuel add mask p q :
  0 <= p -> p <= q < p + Z.of_nat fuel -> Z.testbit mask ((q + add) mod 8) = true ->
  exists r, priority_loop fuel add mask p = Ok r /\ p <= r <= q /\
    Z.testbit mask ((r + add) mod 8) = true /\
    forall j, p <= j < r -> Z.testbit mask ((j + add) mod 8) = false.
Proof.
  revert p. induction fuel as [|n IH]; intros p Hp Hq Hb; [lia|]. cbn [priority_loop].
  rewrite land_7. pose proof (Z.mod_pos_bound (p + add) 8 ltac:(lia)).
  destruct (Z.testbit mask ((p + add) mod 8)) eqn:E.
  - pose proof (nz_land_bit mask ((p + add) mod 8) ltac:(lia)) as Hnz. rewrite E in Hnz.
    apply negb_true_iff in Hnz. rewrite Hnz. exists p. repeat split; (done || lia).
  - pose proof (nz_land_bit mask ((p + add) mod 8) ltac:(lia)) as Hnz. rewrite E in Hnz.
    apply negb_false_iff in Hnz. rewrite Hnz.
    destruct (decide (q = p)) as [->|]; [congruence|].
    destruct (IH (p + 1)) as (r & Er & Hr & Hbr & Hlt); [lia|lia|done|].
    exists r. repeat split; try (done || lia). intros j Hj.
    destruct (decide (j = p)) as [->|]; [done|]. apply Hlt. lia.
Qed.

(** [top s mask p]: [p] is the best rank in [mask], 8 when it is empty. *)
Definition top (s : PicState) (mask p : Z) : Prop :=
  (mask = 0 /\ p = 8) \/
  (0 <= p < 8 /\ Z.testbit mask (slot s p) = true /\
   forall i, 0 <= i < 8 -> Z.testbit mask i = true -> p <= rank s i).

Lemma get_priority_spec s mask :
  fits 8 mask -> exists p, get_priority s mask = Ok p /\ top s mask p.
Proof.
  intros Hm. unfold get_priority. destruct (Z.eqb_spec mask 0) as [->|Hne].
  { exists 8. split; [done|]. by left. }
  assert (exists i, 0 <= i < 8 /\ Z.testbit mask i = true) as (i & Hi & Hb).
  { apply nz_true in Hne. apply nz_exists_bit in Hne as (i & Hi & Hb); [|apply Hm].
    exists i. split; [|done]. destruct (Z.ltb_spec i 8); [lia|].
    by rewrite (fits_testbit 8) in Hb by (done || lia). }
  pose proof (rank_range s i). rewrite <- (slot_rank s i Hi) in Hb.
  destruct (priority_loop_spec 8 (priority_add s) mask 0 (rank s i)) as (r & Er & Hr & Hbr & Hlt);
    [lia|lia|exact Hb|].
  exists r. split; [done|]. right. split; [lia|]. split; [done|].
  intros j Hj Hbj. destruct (Z.le_gt_cases r (rank s j)); [done|].
  pose proof (rank_range s j). specialize (Hlt (rank s j) ltac:(lia)).
  fold (slot s (rank s j)) in Hlt. rewrite slot_rank in Hlt by done. congruence.
Qed.

Lemma top_range s mask p : top s mask p -> 0 <= p <= 8.
Proof. intros [[_ ->]|[? _]]; lia. Qed.

(** ** The representation invariant *)
Record wf (s : PicState) : Prop := {
  wf_last_irr : fits 8 (last_irr s);
  wf_irr : fits 8 (irr s);
  wf_imr : fits 8 (imr s);
  wf_isr : fits 8 (isr s);
  wf_add : 0 <= priority_add s < 8;
  wf_base : fits 8 (irq_base s) /\ irq_base s mod 8 = 0;
  wf_sel : fits 8 (read_reg_select s);
  wf_poll : fits 8 (poll s);
  wf_smm : fits 8 (special_mask s);
  wf_init : 0 <= init_state s <= 3;
  wf_aeoi : fits 8 (auto_eoi s);
  wf_rot : fits 8 (rotate_on_auto_eoi s);
  wf_sfnm : fits 8 (special_fully_nested_mode s);
  wf_init4 : fits 8 (init4 s);
  wf_single : fits 8 (single_mode s);
  wf_elcr : fits 8 (elcr s);
  wf_mask : fits 8 (elcr_mask s);
}.
Definition wf2 (st : PicState2) : Prop := wf (pics0 st) /\ wf (pics1 st).

Lemma wf2_pics w st : wf2 st -> wf (pics w st).
Proof. intros []. by destruct w. Qed.

Lemma wf2_upd w f st : (forall s, wf s -> wf (f s)) -> wf2 st -> wf2 (upd_pics w f st).
Proof. intros Hf []. destruct w; split; cbn; auto. Qed.

Lemma land_7_range x : 0 <= Z.land x 7 < 8.
Proof. rewrite land_7. by apply Z.mod_pos_bound. Qed.

Ltac wf_solve :=
  intros; match goal with H : wf _ |- _ => destruct H end; constructor; cbn;
  auto using land_7_range with words;
  try (apply uwrap_fits; lia); try (apply fits_land_r; [lia|closed_fits]);
  try (apply fits_0; lia); try closed_fits; try lia; try done.

Lemma pic_set_irq1_wf irq level s : wf s -> wf (pic_set_irq1 irq level s).
Proof. intros. unfold pic_set_irq1. repeat case_cond; wf_solve. Qed.

Lemma pic_intack_wf irq s : 0 <= irq < 8 -> wf s -> wf (pic_intack irq s).
Proof. intros ? Hs. unfold pic_intack. repeat case_cond; wf_solve. Qed.

Lemma pic_reset_wf s : wf s -> wf (pic_reset s).
Proof. wf_solve. Qed.

Lemma clear_isr_wf irq s : wf s -> wf (clear_isr irq s).
Proof. wf_solve. Qed.

Lemma service_mask_fits w s : wf s -> fits 8 (service_mask w s).
Proof.
  intros []. unfold service_mask. destruct w; repeat case_cond; auto with words.
Qed.

(** ** Which request is granted

    Input [i] is requested and not masked; [grants w s r]: the controller
    asks for service of [r], or of nothing when [r] is -1. *)
Definition requested (s : PicState) (i : Z) : Prop :=
  0 <= i < 8 /\ Z.testbit (irr s) i = true /\ Z.testbit (imr s) i = false.
Definition served (w : which) (s : PicState) (i : Z) : Prop :=
  0 <= i < 8 /\ Z.testbit (service_mask w s) i = true.

Definition grantable (w : which) (s : PicState) (r : Z) : Prop :=
  requested s r /\ (forall i, requested s i -> rank s r <= rank s i) /\
  (forall j, served w s j -> rank s r < rank s j).
Definition grants (w : which) (s : PicState) (r : Z) : Prop :=
  grantable w s r \/ (r = -1 /\ forall i, ~ grantable w s i).

Lemma rank_inj s i j : 0 <= i < 8 -> 0 <= j < 8 -> rank s i = rank s j -> i = j.
Proof. intros Hi Hj E. rewrite <- (slot_rank s i Hi), <- (slot_rank s j Hj). by rewrite E. Qed.

Lemma grantable_unique w s r r' : grantable w s r -> grantable w s r' -> r = r'.
Proof.
  intros (H1 & H2 & _) (H1' & H2' & _). specialize (H2 r' H1'). specialize (H2' r H1).
  apply (rank_inj s); [apply H1|apply H1'|lia].
Qed.

Lemma grants_unique w s r r' : grants w s r -> grants w s r' -> r = r'.
Proof.
  intros [H|[-> H]] [H'|[-> H']].
  - by eapply grantable_unique.
  - by destruct (H' r).
  - by destruct (H r').
  - done.
Qed.

Lemma grants_range w s r : grants w s r -> r = -1 \/ 0 <= r < 8.
Proof. intros [[[? _] _]|[-> _]]; auto. Qed.

Lemma requested_bit s i :
  0 <= i < 8 -> requested s i <-> Z.testbit (Z.land (irr s) (Z.lnot (imr s))) i = true.
Proof.
  intros. rewrite Z.land_spec, Z.lnot_spec, andb_true_iff, negb_true_iff by lia.
  unfold requested. naive_solver.
Qed.

Lemma pic_get_irq_grants w s : wf s -> exists r, pic_get_irq w s = Ok r /\ grants w s r.
Proof.
  intros Hs. pose proof Hs as []. unfold pic_get_irq.
  destruct (get_priority_spec s (Z.land (irr s) (Z.lnot (imr s)))) as (p & -> & Hp);
    [auto with words|]. cbn [obind].
  destruct (get_priority_spec s (service_mask w s)) as (c & Ec & Hc);
    [by apply service_mask_fits|]. rewrite Ec. cbn [obind].
  destruct Hp as [[H0 ->]|(Hp & Hb & Hlow)].
  { exists (-1). split; [done|]. right. split; [done|]. intros i [Hr _].
    pose proof Hr as [Hi _]. apply requested_bit in Hr; [|done]. by rewrite H0, Z.bits_0 in Hr. }
  destruct (Z.eqb_spec p 8); [lia|]. rewrite land_7. fold (slot s p).
  pose proof (slot_range s p).
  assert (forall i, requested s i -> p <= rank s i) as Hmin.
  { intros i Hr. pose proof Hr as [Hi _]. apply requested_bit in Hr; auto. }
  assert (requested s (slot s p)) as Hreq by (by apply requested_bit).
  destruct (Z.ltb_spec p c).
  - exists (slot s p). split; [done|]. left. unfold grantable. rewrite rank_slot by done.
    split; [done|]. split; [done|]. intros j [Hj Hs'].
    destruct Hc as [[Hc ->]|(_ & _ & Hc)]; [by rewrite Hc, Z.bits_0 in Hs'|].
    specialize (Hc j Hj Hs'). lia.
  - exists (-1). split; [done|]. right. split; [done|]. intros i (Hi & _ & Hsv).
    destruct Hc as [[_ ->]|(Hc & Hcb & _)]; [lia|].
    specialize (Hsv (slot s c)). rewrite rank_slot in Hsv by done.
    specialize (Hsv (conj (slot_range s c) Hcb)). specialize (Hmin i Hi). lia.
Qed.

Lemma get_irq_eq w st r :
  wf2 st -> grants w (pics w st) r -> get_irq w st = Ok (r, st, []).
Proof.
  intros Hwf Hr. unfold get_irq, bind, gets.
  destruct (pic_get_irq_grants w (pics w st)) as (r' & E & Hr'); [by apply wf2_pics|].
  cbn. rewrite E. by rewrite (grants_unique _ _ _ _ Hr' Hr).
Qed.

(** *** Handlers keep the invariant and do not fault *)
Lemma keeps_get_irq w : keeps (E := pic_event) wf2 (fun r => r = -1 \/ 0 <= r < 8) (get_irq w).
Proof.
  intros st Hwf. destruct (pic_get_irq_grants w (pics w st)) as (r & E & Hr); [by apply wf2_pics|].
  exists r, st, []. split; [by apply get_irq_eq|]. split; [by eapply grants_range|done].
Qed.

Lemma keeps_upd w f :
  (forall s, wf s -> wf (f s)) ->
  keeps (E := pic_event) wf2 (fun _ => True) (modify (upd_pics w f)).
Proof. intros. apply keeps_modify. intros. by apply wf2_upd. Qed.

Ltac pic_keeps :=
  repeat first
    [ apply keeps_upd; first
        [ intros; apply pic_set_irq1_wf; assumption | intros; apply pic_reset_wf; assumption
        | intros; apply clear_isr_wf; assumption | intros; apply pic_intack_wf; [lia|assumption]
        | solve [wf_solve] ]
    | match goal with
      | |- keeps ?I _ (bind (get_irq ?w) _) =>
          apply (keeps_bind I (fun r => r = -1 \/ 0 <= r < 8)); [apply keeps_get_irq|intros ? ?]
      end
    | lazymatch goal with |- keeps _ _ (modify _) => fail | _ => keeps_step end ];
  try exact I.

Lemma keeps_pic_update_irq : keeps wf2 (fun _ => True) pic_update_irq.
Proof. unfold pic_update_irq. pic_keeps. Qed.

(** The accesses the machine makes to the pair. *)
Inductive op :=
| OpSetIrq (irq level : Z)
| OpWrite (w : which) (addr val : Z)
| OpRead (w : which) (addr : Z)
| OpReadIrq
| OpIntackRead
| OpElcrWrite (w : which) (val : Z).

Definition run_op (o : op) : M Z :=
  match o with
  | OpSetIrq irq level => i8259_set_irq irq level ;;; ret 0
  | OpWrite w addr val => pic_ioport_write w addr val ;;; ret 0
  | OpRead w addr => pic_ioport_read w addr
  | OpReadIrq => pic_read_irq
  | OpIntackRead => pic_intack_read
  | OpElcrWrite w val => modify (upd_pics w (elcr_ioport_write val)) ;;; ret 0
  end.

Fixpoint run_ops (os : list op) : M (list Z) :=
  match os with
  | [] => ret []
  | o :: os' => r <- run_op o ;; rs <- run_ops os' ;; ret (r :: rs)
  end.

(** An ICW1 that asks for level-triggered mode, which [hw_error]s. *)
Definition level_icw1 (addr val : Z) : bool :=
  (Z.land addr 1 =? 0) && nz (Z.land val 0x10) && nz (Z.land val 0x08).
Definition op_valid (o : op) : Prop :=
  match o with
  | OpSetIrq irq _ => 0 <= irq < 16
  | OpWrite _ _ val => fits 8 val
  | _ => True
  end.
Definition refused (o : op) : bool :=
  match o with OpWrite _ addr val => level_icw1 addr val | _ => false end.

Lemma keeps_i8259_set_irq irq level :
  0 <= irq < 16 -> keeps wf2 (fun _ => True) (i8259_set_irq irq level).
Proof.
  intros Hi. unfold i8259_set_irq.
  pic_keeps; [|apply keeps_pic_update_irq].
  exfalso. assert (Z.shiftr irq 3 = 0 \/ Z.shiftr irq 3 = 1); [|lia].
  rewrite Z.shiftr_div_pow2 by lia. change (2 ^ 3) with 8.
  pose proof (Z.div_lt_upper_bound irq 8 2 ltac:(lia) ltac:(lia)).
  pose proof (Z.div_pos irq 8 ltac:(lia) ltac:(lia)). lia.
Qed.

(** The vectors handed to the CPU are bytes. *)
Lemma keeps_pic_read_irq : keeps wf2 (fits 8) pic_read_irq.
Proof.
  assert (forall w k, 0 <= k < 8 -> keeps (E := pic_event) wf2 (fits 8)
            (gets (fun st => irq_base (pics w st) + k))) as Hv.
  { intros w k Hk. apply keeps_gets. intros st Hwf. apply (wf2_pics w) in Hwf.
    destruct (wf_base _ Hwf) as [[? Hb] Hm]. change (2 ^ 8) with 256 in *. unfold fits.
    pose proof (Z.div_mod (irq_base (pics w st)) 8 ltac:(lia)). lia. }
  apply (keeps_bind _ (fits 8)).
  - unfold acknowledge. apply (keeps_bind _ (fun r => r = -1 \/ 0 <= r < 8));
      [apply keeps_get_irq|]. intros r Hr.
    apply keeps_if; intros ?; [|by apply (Hv Master)].
    apply (keeps_bind _ (fun _ => True)); [pic_keeps|intros _ _].
    apply keeps_if; intros _; [|apply (Hv Master); lia].
    apply (keeps_bind _ (fun r => r = -1 \/ 0 <= r < 8)); [apply keeps_get_irq|intros r2 Hr2].
    apply (keeps_bind _ (fun r => 0 <= r < 8)); [pic_keeps; lia|intros; by apply (Hv Slave)].
  - intros v Hfv. apply (keeps_bind _ (fun _ => True)); [apply keeps_pic_update_irq|].
    intros _ _. by apply keeps_ret.
Qed.

Lemma keeps_write_icw1 w val :
  nz (Z.land val 0x08) = false -> keeps wf2 (fun _ => True) (write_icw1 w val).
Proof. intros H. unfold write_icw1. rewrite H. pic_keeps. Qed.

Lemma keeps_write_ocw3 w val : keeps wf2 (fun _ => True) (write_ocw3 w val).
Proof. unfold write_ocw3. pic_keeps. Qed.

Lemma keeps_write_ocw2 w val : keeps wf2 (fun _ => True) (write_ocw2 w val).
Proof.
  unfold write_ocw2. cbv zeta.
  pic_keeps; try apply keeps_pic_update_irq.
  - apply keeps_upd. intros s Hs.
    apply orb_true_iff in H as [->%Z.eqb_eq | ->%Z.eqb_eq]; wf_solve.
  - apply (keeps_bind _ (fun p => 0 <= p <= 8)).
    + apply keeps_of_outcome. destruct (get_priority_spec (pics w a) (isr (pics w a))) as (p & E & Hp);
        [apply (wf2_pics w) in H1; by destruct H1|]. exists p. split; [done|]. by eapply top_range.
    + intros p Hp. pic_keeps. apply keeps_pic_update_irq.
Qed.

Lemma keeps_write_data w val : keeps wf2 (fun _ => True) (write_data w val).
Proof.
  unfold write_data. cbv zeta. pic_keeps; try apply keeps_pic_update_irq.
  all: apply keeps_upd; intros s Hs; destruct Hs; constructor; cbn; auto; try (repeat case_cond; lia).
  split.
  - apply fits_land_r; [lia|closed_fits].
  - change 8 with (2 ^ 3). apply Z.bits_inj'. intros i Hi.
    destruct (Z.ltb_spec i 3); [|by rewrite Z.mod_pow2_bits_high, Z.bits_0 by lia].
    rewrite Z.mod_pow2_bits_low, Z.land_spec, Z.bits_0 by lia.
    assert (i = 0 \/ i = 1 \/ i = 2) as [-> | [-> | ->]] by lia; apply andb_false_r.
Qed.

Lemma keeps_pic_poll_read w addr :
  keeps wf2 (fun r => 0 <= r < 8) (pic_poll_read w addr).
Proof. unfold pic_poll_read. pic_keeps; try apply keeps_pic_update_irq; lia. Qed.

Lemma keeps_run_op o : op_valid o /\ refused o = false -> keeps wf2 (fun _ => True) (run_op o).
Proof.
  assert (forall m : M unit, keeps wf2 (fun _ => True) m ->
    keeps wf2 (fun _ => True) (m ;;; ret 0)) as Hret.
  { intros m Hm. apply (keeps_bind _ (fun _ => True)); [done|]. intros. by apply keeps_ret. }
  destruct o as [irq level|w addr val|w addr| | |w val]; intros Ho; cbn [run_op].
  - apply Hret. destruct Ho. by apply keeps_i8259_set_irq.
  - apply Hret. destruct Ho as [_ Ho]. unfold refused, level_icw1 in Ho. unfold pic_ioport_write.
    destruct (Z.land addr 1 =? 0); [|apply keeps_write_data].
    destruct (nz (Z.land val 0x10)); [by apply keeps_write_icw1|].
    apply keeps_if; intros _; [apply keeps_write_ocw3|apply keeps_write_ocw2].
  - unfold pic_ioport_read. pic_keeps; try (apply keeps_gets; auto).
    eapply keeps_weaken; [apply keeps_pic_poll_read|done].
  - eapply keeps_weaken; [apply keeps_pic_read_irq|done].
  - unfold pic_intack_read. pic_keeps; eapply keeps_weaken; try apply keeps_pic_poll_read; done.
  - apply Hret. pic_keeps.
Qed.

Lemma i8259_init_wf alt : wf2 (i8259_init alt).
Proof. split; constructor; cbn; try closed_fits; try lia; try (split; [closed_fits|done]). Qed.

(** *** What the operations leave alone *)

(** [pic_update_irq] touches nothing but the master's request latches. *)
Definition same_but_requests (s s' : PicState) : Prop :=
  s' = s <| irr := irr s' |> <| last_irr := last_irr s' |>.

Lemma pic_set_irq1_same irq level s : same_but_requests s (pic_set_irq1 irq level s).
Proof. unfold same_but_requests, pic_set_irq1. repeat case_cond; destruct s; reflexivity. Qed.

Lemma same_but_requests_trans s1 s2 s3 :
  same_but_requests s1 s2 -> same_but_requests s2 s3 -> same_but_requests s1 s3.
Proof. unfold same_but_requests. intros -> ->. destruct s1. reflexivity. Qed.

Definition parent_line (r : Z) : list pic_event :=
  if 0 <=? r then [ParentRaise] else if target_lowers then [ParentLower] else [].

Lemma pic_update_irq_spec st :
  wf2 st ->
  exists st' es, pic_update_irq st = Ok (tt, st', es) /\ wf2 st' /\
    pics1 st' = pics1 st /\ same_but_requests (pics0 st) (pics0 st') /\
    (forall r, grants Master (pics0 st') r -> es = parent_line r) /\
    (forall r, grants Slave (pics1 st) r -> 0 <= r -> st' =
       upd_pics Master (pic_set_irq1 2 0) (upd_pics Master (pic_set_irq1 2 1) st)).
Proof.
  intros Hwf. destruct (pic_get_irq_grants Slave (pics1 st)) as (k & _ & Hk); [apply Hwf|].
  set (st' := if 0 <=? k then
    upd_pics Master (pic_set_irq1 2 0) (upd_pics Master (pic_set_irq1 2 1) st) else st).
  assert (wf2 st') as Hwf'.
  { unfold st'. case_cond; [|done]. repeat (apply wf2_upd; [by apply pic_set_irq1_wf|]). done. }
  destruct (pic_get_irq_grants Master (pics0 st')) as (r & _ & Hr); [apply Hwf'|].
  exists st', (parent_line r).
  assert (pic_update_irq st = Ok (tt, st', parent_line r)) as E.
  { unfold pic_update_irq, bind. rewrite (get_irq_eq Slave st k) by done.
    unfold st' in *. destruct (0 <=? k); cbn [when modify ret];
      rewrite (get_irq_eq Master _ r) by done; unfold parent_line; by destruct (0 <=? r), target_lowers. }
  split; [done|]. split; [done|]. split; [|split; [|split]].
  - unfold st'. by destruct (0 <=? k).
  - unfold st'. destruct (0 <=? k); cbn; [|by destruct (pics0 st)].
    eapply same_but_requests_trans; apply pic_set_irq1_same.
  - intros r' Hr'. by rewrite (grants_unique _ _ _ _ Hr' Hr).
  - intros k' Hk' Hpos. rewrite (grants_unique _ _ _ _ Hk' Hk) in Hpos. unfold st'.
    destruct (Z.leb_spec 0 k); [done|lia].
Qed.

Lemma same_but_requests_isr s s' : same_but_requests s s' -> isr s' = isr s.
Proof. by intros ->. Qed.
Lemma same_but_requests_add s s' : same_but_requests s s' -> priority_add s' = priority_add s.
Proof. by intros ->. Qed.

(** A controller that nests interrupts fully: no automatic end of interrupt,
    no special mask, no special fully nested mode. *)
Definition fully_nested (s : PicState) : Prop :=
  auto_eoi s = 0 /\ special_mask s = 0 /\ special_fully_nested_mode s = 0.

Lemma service_mask_nested w s : fully_nested s -> service_mask w s = isr s.
Proof. intros (_ & Hm & Hn). unfold service_mask. rewrite Hm, Hn. by destruct w. Qed.

Lemma same_but_requests_nested s s' :
  same_but_requests s s' -> fully_nested s -> fully_nested s'.
Proof. by intros ->. Qed.

Lemma pic_intack_nested irq s :
  wf s -> 0 <= irq < 8 -> fully_nested s ->
  isr (pic_intack irq s) = upd_bit true irq (isr s) /\
  priority_add (pic_intack irq s) = priority_add s /\ fully_nested (pic_intack irq s).
Proof.
  intros Hs Hi (Ha & Hm & Hn). pose proof (wf_isr _ Hs) as Hisr. unfold pic_intack. rewrite Ha. cbn.
  assert (u8 (Z.lor (isr s) (bit irq)) = upd_bit true irq (isr s)) as <-.
  { apply uwrap_id, fits_lor; [lia|done|by apply fits_bit]. }
  unfold fully_nested. case_cond; cbn; auto.
Qed.

(** The vector of a grant: the slave's when the master grants the cascade,
    input 7 of the controller that turns out to have no request. *)
Definition vector (st : PicState2) (m k : Z) : Z :=
  if m =? 2 then irq_base (pics1 st) + (if 0 <=? k then k else 7)
  else irq_base (pics0 st) + (if 0 <=? m then m else 7).

Lemma pic_intack_base irq s : irq_base (pic_intack irq s) = irq_base s.
Proof. unfold pic_intack. by repeat case_cond. Qed.

Lemma acknowledge_spec st m k :
  wf2 st -> grants Master (pics0 st) m -> grants Slave (pics1 st) k ->
  exists st1, acknowledge st = Ok (vector st m k, st1, []) /\ wf2 st1 /\
    pics0 st1 = (if 0 <=? m then pic_intack m (pics0 st) else pics0 st) /\
    pics1 st1 = (if (m =? 2) && (0 <=? k) then pic_intack k (pics1 st) else pics1 st).
Proof.
  intros Hwf Hm Hk. unfold acknowledge, vector.
  destruct (grants_range _ _ _ Hm) as [->|Hr].
  { exists st. unfold bind. by rewrite (get_irq_eq Master st (-1)). }
  set (st1 := upd_pics Master (pic_intack m) st).
  assert (wf2 st1) as Hwf1 by (apply wf2_upd; [intros; by apply pic_intack_wf|done]).
  unfold bind at 1. rewrite (get_irq_eq Master st m) by done.
  destruct (Z.leb_spec 0 m); [|lia]. unfold bind at 1. cbn [modify].
  change (upd_pics Master (pic_intack m) st) with st1.
  destruct (Z.eqb_spec m 2).
  - unfold bind at 1. rewrite (get_irq_eq Slave st1 k) by done.
    destruct (Z.leb_spec 0 k); cbn; rewrite ?pic_intack_base; eexists; split; try reflexivity.
    + destruct (grants_range _ _ _ Hk); [lia|]. split; [|done].
      apply (wf2_upd Slave (pic_intack k)); [by intros; apply pic_intack_wf|done].
    + done.
  - cbn. rewrite pic_intack_base. by exists st1.
Qed.

Lemma pic_read_irq_spec st m k :
  wf2 st -> grants Master (pics0 st) m -> grants Slave (pics1 st) k ->
  exists st1 es1, pic_read_irq st = Ok (vector st m k, st1, es1) /\ wf2 st1 /\
    same_but_requests (if 0 <=? m then pic_intack m (pics0 st) else pics0 st) (pics0 st1) /\
    pics1 st1 = (if (m =? 2) && (0 <=? k) then pic_intack k (pics1 st) else pics1 st).
Proof.
  intros Hwf Hm Hk. destruct (acknowledge_spec st m k Hwf Hm Hk) as (st1 & E & Hwf1 & E0 & E1).
  destruct (pic_update_irq_spec st1 Hwf1) as (st2 & es2 & E2 & Hwf2 & H1 & H0 & _).
  exists st2, es2. split; [|split; [done|]].
  - rewrite <- (app_nil_r es2). eapply (bind_ok _ _ _ _ _ []); [exact E|].
    eapply bind_ok; [exact E2|reflexivity].
  - by rewrite <- E0, H1, E1.
Qed.

(** *** The cascade

    The slave is wired to input 2 of the master, edge triggered, and the code
    pulses it; no device drives that input itself. *)
Definition cascade_ok (st : PicState2) : Prop :=
  Z.testbit (elcr (pics0 st)) 2 = false /\ Z.testbit (last_irr (pics0 st)) 2 = false.

Lemma pic_set_irq1_bits irq level s i :
  wf s -> 0 <= irq < 8 -> 0 <= i < 8 ->
  let s' := pic_set_irq1 irq level s in
  elcr s' = elcr s /\
  Z.testbit (last_irr s') i = (if irq =? i then nz level else Z.testbit (last_irr s) i) /\
  Z.testbit (irr s') i =
    (if irq =? i then
       if Z.testbit (elcr s) i then nz level
       else Z.testbit (irr s) i || (nz level && negb (Z.testbit (last_irr s) i))
     else Z.testbit (irr s) i).
Proof.
  intros Hs Hirq Hi. cbv zeta. unfold pic_set_irq1.
  assert (forall x, fits 8 x -> u8 (Z.lor x (bit irq)) = Z.lor x (bit irq)) as Hu.
  { intros x Hx. apply uwrap_id, fits_lor; [lia|done|by apply fits_bit]. }
  assert (Z.land (last_irr s) (bit irq) =? 0 = negb (Z.testbit (last_irr s) irq)) as ->.
  { rewrite <- nz_land_bit by lia. unfold nz. by rewrite negb_involutive. }
  rewrite nz_land_bit by lia. destruct Hs.
  destruct (Z.testbit (elcr s) irq) eqn:E, (nz level), (Z.testbit (last_irr s) irq) eqn:El;
    cbn; (split; [done|]); rewrite ?Hu by done;
    rewrite ?lor_bit_spec, ?clear_bit_spec by lia;
    destruct (Z.eqb_spec irq i) as [<-|]; rewrite ?E, ?El; split; btauto.
Qed.

Lemma pulse_cascade s :
  wf s -> Z.testbit (elcr s) 2 = false -> Z.testbit (last_irr s) 2 = false ->
  let s' := pic_set_irq1 2 0 (pic_set_irq1 2 1 s) in
  Z.testbit (irr s') 2 = true /\ Z.testbit (last_irr s') 2 = false.
Proof.
  intros Hs He Hl. cbv zeta. assert (0 <= 2 < 8) as H2 by lia.
  destruct (pic_set_irq1_bits 2 1 s 2 Hs H2 H2) as (Ee & _ & Ei).
  destruct (pic_set_irq1_bits 2 0 (pic_set_irq1 2 1 s) 2) as (_ & -> & ->);
    [by apply pic_set_irq1_wf|done..|].
  rewrite Ee, He, Ei, He, Hl. by rewrite orb_true_r.
Qed.

Lemma pic_update_irq_cascade st st' es :
  wf2 st -> cascade_ok st -> pic_update_irq st = Ok (tt, st', es) ->
  cascade_ok st' /\
  (forall k, 0 <= k -> grants Slave (pics1 st') k -> Z.testbit (irr (pics0 st')) 2 = true).
Proof.
  intros Hwf [He Hl] E.
  destruct (pic_update_irq_spec st Hwf) as (st1 & es1 & E1 & _ & Hs & Hsame & _ & Hc).
  rewrite E in E1. injection E1 as <- <-. rewrite Hs.
  destruct (pic_get_irq_grants Slave (pics1 st)) as (k & Ek & Hk); [apply Hwf|].
  destruct (Z.leb_spec 0 k) as [Hpos|Hneg].
  - rewrite (Hc k Hk Hpos). destruct (pulse_cascade (pics0 st)) as [Hi Hl']; [apply Hwf|done..|].
    split; [|by intros]. split; [|exact Hl']. rewrite <- He. cbn.
    unfold pic_set_irq1. by repeat case_cond.
  - split; [|intros k' Hk' Hg; rewrite (grants_unique _ _ _ _ Hg Hk) in Hk'; lia].
    unfold pic_update_irq, bind in E. rewrite (get_irq_eq Slave st k) in E by done.
    destruct (Z.leb_spec 0 k); [lia|]. cbn [when ret] in E.
    destruct (pic_get_irq_grants Master (pics0 st)) as (m & Em & Hm); [apply Hwf|].
    rewrite (get_irq_eq Master st m) in E by done. unfold cascade_ok.
    destruct (0 <=? m), target_lowers; cbn in E; by simplify_eq.
Qed.

Lemma refused_faults o st : refused o = true -> run_op o st = Fault HwError.
Proof.
  destruct o as [|w addr val| | | |]; try done. cbn [refused run_op]. unfold level_icw1.
  rewrite !andb_true_iff. intros [[H1 H2] H3]. unfold pic_ioport_write, write_icw1, bind. by rewrite H1, H2, H3.
Qed.

Lemma run_ops_cons o os st r st1 es1 rs st2 es2 :
  run_op o st = Ok (r, st1, es1) -> run_ops os st1 = Ok (rs, st2, es2) ->
  run_ops (o :: os) st = Ok (r :: rs, st2, es1 ++ es2).
Proof.
  intros E1 E2. cbn [run_ops]. eapply bind_ok; [exact E1|].
  rewrite <- (app_nil_r es2). eapply bind_ok; [exact E2|reflexivity].
Qed.

Lemma run_ops_total os st : Forall op_valid os -> wf2 st ->
  if existsb refused os then run_ops os st = Fault HwError
  else exists rs st' es, run_ops os st = Ok (rs, st', es) /\ length rs = length os /\ wf2 st'.
Proof.
  intros Hos. revert st. induction Hos as [|o os Ho Hos IH]; intros st Hwf; cbn [existsb run_ops]; [by exists [], st, []|].
  destruct (refused o) eqn:Er; cbn [orb].
  { unfold bind. by rewrite refused_faults. }
  destruct (keeps_run_op o (conj Ho Er) st Hwf) as (r & st1 & es1 & E1 & _ & Hwf1). specialize (IH st1 Hwf1).
  destruct (existsb refused os).
  - unfold bind. rewrite E1. by rewrite IH.
  - destruct IH as (rs & st2 & es2 & E2 & Hlen & Hwf2).
    exists (r :: rs), st2, (es1 ++ es2). split; [by eapply (run_ops_cons o os)|]. cbn. by rewrite Hlen.
Qed.

(** C17: Total operation.  From power-on, every sequence of line changes, port
    accesses and acknowledgements runs to the end without a fault (no
    priority search that fails to stop, no access outside the pair) and
    leaves both controllers well formed: registers 8 bits wide, the rotation
    below 8, the vector base a multiple of 8, the initialisation state among
    its four values.  The one exception is exact: a sequence in which the guest
    asks for level-triggered mode in an ICW1 ends in [hw_error]. *)
Theorem pic_run_ops_total alt os :
  Forall op_valid os ->
  (existsb refused os = false ->
   exists rs st es, run_ops os (i8259_init alt) = Ok (rs, st, es) /\
     length rs = length os /\ wf2 st) /\
  (existsb refused os = true -> run_ops os (i8259_init alt) = Fault HwError).
Proof.
  intros Hos. pose proof (run_ops_total os _ Hos (i8259_init_wf alt)) as H.
  by destruct (existsb refused os).
Qed.

(** C18: Priority resolution.  The controller asks for input [r] exactly when
    [r] is requested and unmasked, no requested input has a better rank, and
    every interrupt in service that counts (all of them, less the masked ones
    in special mask mode, less the cascade in the master's special fully
    nested mode) has a strictly worse one; it answers -1 exactly when there
    is no such input. *)
Theorem pic_get_irq_correct w s r :
  wf s -> pic_get_irq w s = Ok r <-> grants w s r.
Proof.
  intros Hs. destruct (pic_get_irq_grants w s Hs) as (r' & E & Hr'). split.
  - rewrite E. by intros [= <-].
  - intros Hr. by rewrite E, (grants_unique _ _ _ _ Hr Hr').
Qed.

Definition demo_pic : PicState :=
  mkPic 0 0x28 0x08 0x40 2 8 0 0 0 0 0 0 0 1 0 0 0xf8.
Lemma demo_pic_wf : wf demo_pic.
Proof. constructor; cbn; try closed_fits; try lia; try (split; [closed_fits|done]). Qed.
Lemma pic_get_irq_correct_witness : wf demo_pic /\ grants Master demo_pic 5.
Proof.
  split; [exact demo_pic_wf|]. by apply (pic_get_irq_correct Master demo_pic 5 demo_pic_wf).
Defined.

(** The non-specific end of interrupt of a controller without rotation. *)
Lemma nonspecific_eoi st p :
  wf2 st -> get_priority (pics0 st) (isr (pics0 st)) = Ok p -> 0 <= p < 8 ->
  exists st2 es2, pic_ioport_write Master 0x20 0x20 st = Ok (tt, st2, es2) /\
    isr (pics0 st2) = upd_bit false (slot (pics0 st) p) (isr (pics0 st)).
Proof.
  intros Hwf Ep Hp8. pose proof (slot_range (pics0 st) p) as Hr.
  unfold pic_ioport_write. change (Z.land 0x20 1 =? 0) with true. cbn iota.
  change (nz (Z.land 0x20 0x10)) with false. change (nz (Z.land 0x20 0x08)) with false. cbn iota.
  unfold write_ocw2. change (Z.shiftr 0x20 5) with 1. cbn -[pic_update_irq get_priority].
  unfold bind. cbn -[pic_update_irq get_priority]. rewrite Ep. cbn [of_outcome ret].
  destruct (Z.eqb_spec p 8); [lia|]. cbn -[pic_update_irq].
  rewrite land_7. fold (slot (pics0 st) p).
  destruct (pic_update_irq_spec (st <| pics0 ::= clear_isr (slot (pics0 st) p) |>)) as (st2 & es2 & E2 & _ & _ & Hs2 & _).
  { apply (wf2_upd Master (clear_isr (slot (pics0 st) p))); [by intros; apply clear_isr_wf|done]. }
  cbn in E2. rewrite E2. do 2 eexists. split; [done|]. by rewrite (same_but_requests_isr _ _ Hs2).
Qed.

(** Acknowledge and end of interrupt.  On a fully nested master that
    grants input [m], acknowledging marks exactly [m] in service on top of
    what was; until the end of interrupt only requests of strictly better
    rank are granted; and the non-specific EOI that follows clears [m] and
    nothing else, whatever was being served below it. *)
Theorem pic_ack_then_eoi st m :
  wf2 st -> fully_nested (pics0 st) -> grants Master (pics0 st) m -> 0 <= m ->
  exists v st1 es1, pic_read_irq st = Ok (v, st1, es1) /\
    isr (pics0 st1) = upd_bit true m (isr (pics0 st)) /\
    (forall r, grantable Master (pics0 st1) r -> rank (pics0 st1) r < rank (pics0 st1) m) /\
    exists st2 es2, pic_ioport_write Master 0x20 0x20 st1 = Ok (tt, st2, es2) /\
      isr (pics0 st2) = isr (pics0 st).
Proof.
  intros Hwf Hn Hm Hpos. destruct (grants_range _ _ _ Hm) as [|Hr]; [lia|].
  destruct (pic_get_irq_grants Slave (pics1 st)) as (k & _ & Hk); [apply Hwf|].
  destruct (pic_read_irq_spec st m k Hwf Hm Hk) as (st1 & es1 & E & Hwf1 & Hs & _).
  destruct (Z.leb_spec 0 m); [|lia].
  destruct (pic_intack_nested m (pics0 st)) as (Hi & Ha & Hn1); [apply Hwf|done..|].
  pose proof (same_but_requests_isr _ _ Hs) as Hi1. rewrite Hi in Hi1.
  pose proof (same_but_requests_add _ _ Hs) as Ha1. rewrite Ha in Ha1.
  apply (same_but_requests_nested _ _ Hs) in Hn1.
  assert (forall j, rank (pics0 st1) j = rank (pics0 st) j) as Hrk
    by (intros j; unfold rank; by rewrite Ha1).
  exists (vector st m k), st1, es1. split; [done|]. split; [done|].
  assert (served Master (pics0 st1) m) as Hsv.
  { split; [lia|]. rewrite service_mask_nested, Hi1, upd_bit_spec by (done || lia).
    by rewrite Z.eqb_refl. }
  split; [intros r (_ & _ & Hs2); by apply Hs2|].
  destruct Hm as [(_ & _ & Hbest)|[-> _]]; [|lia].
  assert (forall j, 0 <= j < 8 -> Z.testbit (isr (pics0 st)) j = true ->
    rank (pics0 st) m < rank (pics0 st) j) as Hlow.
  { intros j Hj Hb. apply Hbest. split; [done|]. by rewrite service_mask_nested. }
  destruct (get_priority_spec (pics0 st1) (isr (pics0 st1))) as (p & Ep & Hp); [apply Hwf1|].
  assert (0 <= p < 8 /\ slot (pics0 st1) p = m) as [Hp8 Hslot].
  { destruct Hp as [[H0 _]|(Hp & Hb & Hmin)].
    - destruct Hsv as [_ Hsv]. rewrite service_mask_nested, H0, Z.bits_0 in Hsv by done. done.
    - split; [done|]. pose proof (slot_range (pics0 st1) p).
      rewrite Hi1, upd_bit_spec in Hb by lia. destruct (Z.eqb_spec m (slot (pics0 st1) p)); [done|].
      apply Hlow in Hb; [|done]. rewrite <- !Hrk, rank_slot in Hb by done.
      specialize (Hmin m Hr). destruct Hsv as [_ Hsv]. rewrite service_mask_nested in Hsv by done.
      specialize (Hmin Hsv). lia. }
  destruct (nonspecific_eoi st1 p Hwf1 Ep Hp8) as (st2 & es2 & E2 & Hs2). exists st2, es2. split; [done|].
  rewrite Hs2, Hslot, Hi1.
  apply Z.bits_inj'. intros j Hj. rewrite !upd_bit_spec by lia.
  destruct (Z.eqb_spec m j) as [<-|]; [|done].
  destruct (Z.testbit (isr (pics0 st)) m) eqn:Eb; [|done]. apply Hlow in Eb; [lia|done].
Qed.

(** Initialisation words, one at a time. *)
Lemma upd_pics_const w s f st :
  upd_pics w f (upd_pics w (fun _ => s) st) = upd_pics w (fun _ => f s) st.
Proof. by destruct w. Qed.

Lemma pics_upd_const w s st : pics w (upd_pics w (fun _ => s) st) = s.
Proof. by destruct w. Qed.

Lemma icw1_spec w st val :
  nz (Z.land val 0x10) = true -> nz (Z.land val 0x08) = false ->
  run_op (OpWrite w (if w is Master then 0x20 else 0xa0) val) st =
    Ok (0, upd_pics w (fun _ => pic_reset (pics w st) <| init_state := 1 |>
                    <| init4 := Z.land val 1 |> <| single_mode := Z.land val 2 |>) st, [ParentLower]).
Proof.
  intros H1 H2. cbn [run_op]. unfold pic_ioport_write.
  assert (Z.land (if w is Master then 0x20 else 0xa0) 1 =? 0 = true) as -> by (by destruct w).
  rewrite H1. unfold write_icw1. rewrite H2. by destruct w.
Qed.

(** A word for a controller in initialisation state [k] of 1, 2 or 3. *)
Definition icw (s : PicState) (val : Z) : PicState :=
  if init_state s =? 1 then
    s <| irq_base := Z.land val 0xf8 |>
      <| init_state := if nz (single_mode s) then (if nz (init4 s) then 3 else 0) else 2 |>
  else if init_state s =? 2 then s <| init_state := if nz (init4 s) then 3 else 0 |>
  else s <| special_fully_nested_mode := Z.land (Z.shiftr val 4) 1 |>
         <| auto_eoi := Z.land (Z.shiftr val 1) 1 |> <| init_state := 0 |>.

Lemma icw_spec w st s val :
  1 <= init_state s <= 3 ->
  run_op (OpWrite w ((if w is Master then 0x20 else 0xa0) + 1) val) (upd_pics w (fun _ => s) st) =
    Ok (0, upd_pics w (fun _ => icw s val) st, []).
Proof.
  intros Hi. cbn [run_op]. unfold pic_ioport_write.
  assert (Z.land ((if w is Master then 0x20 else 0xa0) + 1) 1 =? 0 = false) as -> by (by destruct w).
  unfold write_data, icw. eapply (bind_ok _ _ _ tt _ [] _ _ []); [|reflexivity].
  eapply (bind_ok _ _ _ _ _ [] _ _ []); [reflexivity|]. cbv zeta. unfold id. rewrite pics_upd_const.
  assert (init_state s = 1 \/ init_state s = 2 \/ init_state s = 3) as [-> | [-> | ->]] by lia;
    cbn [Z.eqb Pos.eqb]; unfold modify; by rewrite upd_pics_const.
Qed.

(** Initialisation.  The words ICW1, ICW2, then ICW3 unless the
    controller is single, then ICW4 when ICW1 announced it, in any state of
    the controller, leave it reset, unmasked, with the vector base of ICW2
    and the modes of ICW4, and back in normal mode; the other controller is
    untouched, and the only effect outside is the parent line lowered. *)
Theorem pic_initialisation w st v1 v2 v3 v4 :
  nz (Z.land v1 0x10) = true -> nz (Z.land v1 0x08) = false ->
  let cmd := if w is Master then 0x20 else 0xa0 in
  let words :=
    [OpWrite w cmd v1; OpWrite w (cmd + 1) v2] ++
    (if nz (Z.land v1 2) then [] else [OpWrite w (cmd + 1) v3]) ++
    (if nz (Z.land v1 1) then [OpWrite w (cmd + 1) v4] else []) in
  let ic4 := nz (Z.land v1 1) in
  let s' := mkPic 0 0 0 0 0 (Z.land v2 0xf8) 0 0 0 0
    (if ic4 then Z.land (Z.shiftr v4 1) 1 else 0) 0
    (if ic4 then Z.land (Z.shiftr v4 4) 1 else 0)
    (Z.land v1 1) (Z.land v1 2) (elcr (pics w st)) (elcr_mask (pics w st)) in
  exists rs, run_ops words st = Ok (rs, upd_pics w (fun _ => s') st, [ParentLower]).
Proof.
  intros H1 H2. cbv zeta.
  destruct (nz (Z.land v1 2)) eqn:E2, (nz (Z.land v1 1)) eqn:E1; cbn [app]; eexists;
    eapply (run_ops_cons _ _ _ _ _ [_] _ _ []); try (by apply icw1_spec);
    repeat (eapply (run_ops_cons _ _ _ _ _ [] _ _ []);
            [apply icw_spec; unfold icw; cbn; rewrite ?E1, ?E2; cbn; rewrite ?E1, ?E2; cbn; lia|]);
    unfold icw; cbn; rewrite ?E1, ?E2; cbn; rewrite ?E1, ?E2; reflexivity.
Qed.

(** Signalling.  Whatever line changes, when [i8259_set_irq] returns the
    CPU line has been raised exactly when the master has a request to grant,
    and a request the slave would grant stands in the master as input 2, so
    that no request of either controller is left waiting unannounced. *)
Theorem i8259_set_irq_signals st irq level :
  wf2 st -> cascade_ok st -> 0 <= irq < 16 -> irq <> 2 ->
  exists st' es, i8259_set_irq irq level st = Ok (tt, st', es) /\ cascade_ok st' /\
    (forall k, 0 <= k -> grants Slave (pics1 st') k -> Z.testbit (irr (pics0 st')) 2 = true) /\
    (forall m, grants Master (pics0 st') m -> ParentRaise ∈ es <-> 0 <= m).
Proof.
  intros Hwf [He Hl] Hi Hne.
  set (w := if Z.shiftr irq 3 =? 0 then Master else Slave).
  set (st0 := upd_pics w (pic_set_irq1 (Z.land irq 7) level) st).
  assert (wf2 st0) as Hwf0 by (apply wf2_upd; [intros; by apply pic_set_irq1_wf|done]).
  assert (Z.shiftr irq 3 = irq / 8) as Hsh by (by rewrite Z.shiftr_div_pow2 by lia).
  pose proof (Z.div_mod irq 8 ltac:(lia)) as Hdm. rewrite <- Hsh in Hdm.
  pose proof (Z.mod_pos_bound irq 8 ltac:(lia)) as Hmod.
  assert (cascade_ok st0) as Hc0.
  { unfold st0, w. destruct (Z.eqb_spec (Z.shiftr irq 3) 0); [|done]. unfold cascade_ok.
    change (pics0 (upd_pics Master ?f st)) with (f (pics0 st)).
    pose proof (land_7_range irq). destruct (pic_set_irq1_bits (Z.land irq 7) level (pics0 st) 2)
      as (-> & -> & _); [apply Hwf|done..|].
    rewrite land_7. destruct (Z.eqb_spec (irq mod 8) 2); [lia|done]. }
  destruct (pic_update_irq_spec st0 Hwf0) as (st1 & es1 & E & _ & _ & _ & Hes & _).
  destruct (pic_update_irq_cascade st0 st1 es1 Hwf0 Hc0 E) as [Hc1 Hk].
  exists st1, ((if alt_irq_func st0 then [AltIrq irq level] else []) ++ es1).
  split; [|split; [done|]; split; [done|]].
  - unfold i8259_set_irq. apply (bind_ok _ _ _ tt st0 []).
    + unfold st0, w. destruct (Z.eqb_spec (Z.shiftr irq 3) 0); [done|].
      destruct (Z.eqb_spec (Z.shiftr irq 3) 1); [done|]. lia.
    + apply (bind_ok _ _ _ st0 st0 []); [done|].
      eapply bind_ok; [|exact E]. unfold id. by destruct (alt_irq_func st0).
  - intros m Hm. rewrite (Hes m Hm). unfold parent_line. destruct (Z.leb_spec 0 m).
    + split; [done|]. intros _. apply elem_of_app. right. by left.
    + split; [|lia]. intros [Hin|Hin]%elem_of_app; exfalso.
      * destruct (alt_irq_func st0); [by apply list_elem_of_singleton in Hin|by apply elem_of_nil in Hin].
      * destruct target_lowers; [by apply list_elem_of_singleton in Hin|by apply elem_of_nil in Hin].
Qed.

End pair.

(** *** Concrete instances *)
Definition demo_ops : list op :=
  [OpWrite Master 0x20 0x11; OpWrite Master 0x21 0x08; OpWrite Master 0x21 4;
   OpWrite Master 0x21 1; OpSetIrq 3 1; OpReadIrq; OpWrite Master 0x20 0x20].
Lemma pic_run_ops_total_witness :
  (exists rs st es, run_ops false demo_ops (i8259_init false) = Ok (rs, st, es) /\
    length rs = length demo_ops /\ wf2 st) /\
  run_ops true (demo_ops ++ [OpWrite Slave 0xa0 0x18; OpReadIrq]) (i8259_init false) = Fault HwError.
Proof.
  split.
  - apply (pic_run_ops_total false false demo_ops); [repeat constructor; cbn; try discriminate; done|reflexivity].
  - apply (pic_run_ops_total true false (demo_ops ++ _)); [repeat constructor; cbn; try discriminate; done|reflexivity].
Defined.

Lemma pic_initialisation_witness :
  exists rs, run_ops false [OpWrite Slave 0xa0 0x11; OpWrite Slave 0xa1 0x70; OpWrite Slave 0xa1 2;
      OpWrite Slave 0xa1 1] (i8259_init false) =
    Ok (rs, upd_pics Slave (fun _ => mkPic 0 0 0 0 0 0x70 0 0 0 0 0 0 0 1 0 0 0xde)
              (i8259_init false), [ParentLower]).
Proof.
  apply (pic_initialisation false Slave (i8259_init false) 0x11 0x70 2 1); reflexivity.
Defined.

Definition demo_pics : PicState2 :=
  i8259_init false <| pics0 ::= fun s => s <| irr := 0x12 |> <| isr := 0x40 |> <| irq_base := 8 |> |>.
Lemma demo_pics_wf : wf2 demo_pics.
Proof. split; constructor; cbn; try closed_fits; try lia; try (split; [closed_fits|done]). Qed.

Lemma pic_ack_then_eoi_witness :
  exists v st1 es1, pic_read_irq false demo_pics = Ok (v, st1, es1) /\
    isr (pics0 st1) = upd_bit true 1 (isr (pics0 demo_pics)) /\
    (forall r, grantable Master (pics0 st1) r -> rank (pics0 st1) r < rank (pics0 st1) 1) /\
    exists st2 es2, pic_ioport_write false Master 0x20 0x20 st1 = Ok (tt, st2, es2) /\
      isr (pics0 st2) = isr (pics0 demo_pics).
Proof.
  apply (pic_ack_then_eoi false demo_pics 1); [exact demo_pics_wf|by repeat split| |lia].
  destruct (pic_get_irq_grants Master (pics0 demo_pics)) as (r & E & Hr);
    [apply demo_pics_wf|].
  vm_compute in E. injection E as <-. exact Hr.
Defined.

Lemma i8259_set_irq_signals_witness :
  exists st' es, i8259_set_irq true 12 1 demo_pics = Ok (tt, st', es) /\ cascade_ok st' /\
    (forall k, 0 <= k -> grants Slave (pics1 st') k -> Z.testbit (irr (pics0 st')) 2 = true) /\
    (forall m, grants Master (pics0 st') m -> ParentRaise ∈ es <-> 0 <= m).
Proof.
  apply (i8259_set_irq_signals true demo_pics 12 1 demo_pics_wf); [by split|lia|discriminate].
Defined.

(** *** Snapshots *)
#[export, program] Instance pic_Snapshot : Snapshot PicState := {|
  version := 1;
  save F _ := pic_save;
  load F _ := pic_load;
  encode s := [u8 (last_irr s); u8 (irr s); u8 (imr s); u8 (isr s); u8 (priority_add s);
    u8 (irq_base s); u8 (read_reg_select s); u8 (poll s); u8 (special_mask s);
    u8 (init_state s); u8 (auto_eoi s); u8 (rotate_on_auto_eoi s);
    u8 (special_fully_nested_mode s); u8 (init4 s); u8 (single_mode s); u8 (elcr s)];
  saveable := wf;
  restored s s0 := s <| elcr_mask := elcr_mask s0 |>;
|}.
Next Obligation.
  intros F ? s. unfold pic_save, qemu_put_struct. cbn.
  repeat apply (writes_seq _ _ [_]); apply writes_byte || apply writes_skip.
Qed.
Next Obligation.
  intros F ? s s0 []. cbn. unfold pic_load. cbn.
  rewrite !uwrap_id by (done || (unfold fits; change (2 ^ 8) with 256; lia) || tauto).
  repeat (eapply (reads_bind _ _ [_]); [apply reads_byte|]; cbv beta).
  apply reads_ret.
Qed.

End Pic.
