(* ===== verification/QemuTimer.v ===== *)
(** Timer lists (qemu-timer.c): the list of active timers kept sorted by
    expiry, arming, anticipating and deleting a timer, running the expired
    ones, and the deadlines the main loop sleeps on.

    The [QEMUTimer] objects are numbered; the list of a clock is the sequence
    of its [next] links, and [expire_time] of each object is kept beside it
    because a timer that is on no list still has one (-1).  [AlarmClock] is
    what a single timer promises to the device that owns it. *)
From Stdlib Require Import ZArith Lia Bool.
From stdpp Require Import base numbers list sorting functions sets.
From S2P Require Import Prelude.
Local Open Scope Z_scope.

(** ** The interface: a timer as its owner sees it *)
Class AlarmClock (C : Type) := {
  alarm_mod : C -> Z -> C;
  alarm_del : C -> C;
  alarm_due : C -> option Z;
  alarm_ok : C -> Prop;
  alarm_mod_ok c t : alarm_ok c -> alarm_ok (alarm_mod c t);
  alarm_del_ok c : alarm_ok c -> alarm_ok (alarm_del c);
  alarm_due_mod c t : alarm_ok c -> alarm_due (alarm_mod c t) = Some (Z.max t 0);
  alarm_due_del c : alarm_ok c -> alarm_due (alarm_del c) = None;
}.

Module TimerList.

Definition SCALE_MS : Z := 1000000.
Definition SCALE_NS : Z := 1.
Definition INT32_MAX : Z := 2147483647.

Record timerlist := mkTimerList {
  active_timers : list nat;
  expire_time : nat -> Z;
  enabled : bool;  (* timer_list->clock->enabled *)
}.
#[export] Instance timerlist_eta : Settable timerlist := fun tl =>
  mkTimerList (active_timers tl) (expire_time tl) (enabled tl).

Definition timerlist_new : timerlist := mkTimerList [] (fun _ => -1) true.

Definition timerlist_has_timers (tl : timerlist) : bool :=
  match active_timers tl with [] => false | _ => true end.

(** Unlink the first object equal to [ts]. *)
Fixpoint unlink (ts : nat) (l : list nat) : list nat :=
  match l with
  | [] => []
  | t :: l' => if decide (t = ts) then l' else t :: unlink ts l'
  end.

Definition timer_del_locked (tl : timerlist) (ts : nat) : timerlist :=
  tl <| expire_time := <[ts := -1]> (expire_time tl) |>
     <| active_timers := unlink ts (active_timers tl) |>.

(** Link [ts] in front of the first timer that expires after [e]; also
    whether that is the front of the list. *)
Fixpoint link (exp : nat -> Z) (ts : nat) (e : Z) (l : list nat) : list nat :=
  match l with
  | [] => [ts]
  | t :: l' => if exp t <=? e then t :: link exp ts e l' else ts :: t :: l'
  end.
Definition links_first (exp : nat -> Z) (e : Z) (l : list nat) : bool :=
  match l with [] => true | t :: _ => negb (exp t <=? e) end.

Definition timer_mod_ns_locked (tl : timerlist) (ts : nat) (e : Z) : bool * timerlist :=
  (links_first (expire_time tl) e (active_timers tl),
   tl <| active_timers := link (expire_time tl) ts e (active_timers tl) |>
      <| expire_time := <[ts := Z.max e 0]> (expire_time tl) |>).

(** The boolean is the [rearm] that makes the caller notify the main loop. *)
Definition timer_mod_ns (tl : timerlist) (ts : nat) (e : Z) : bool * timerlist :=
  timer_mod_ns_locked (timer_del_locked tl ts) ts e.

Definition timer_mod_anticipate_ns (tl : timerlist) (ts : nat) (e : Z) : bool * timerlist :=
  if (expire_time tl ts =? -1) || (e <? expire_time tl ts) then
    let tl := if negb (expire_time tl ts =? -1) then timer_del_locked tl ts else tl in
    timer_mod_ns_locked tl ts e
  else (false, tl).

Definition timer_del (tl : timerlist) (ts : nat) : timerlist := timer_del_locked tl ts.
Definition timer_mod (scale : Z) (tl : timerlist) (ts : nat) (e : Z) : bool * timerlist :=
  timer_mod_ns tl ts (s64 (e * scale)).
Definition timer_pending (tl : timerlist) (ts : nat) : bool := 0 <=? expire_time tl ts.
Definition timer_expire_time_ns (tl : timerlist) (ts : nat) : Z :=
  if timer_pending tl ts then expire_time tl ts else u64 (-1).

Definition timerlist_expired (tl : timerlist) (now : Z) : bool :=
  match active_timers tl with [] => false | t :: _ => expire_time tl t <? now end.

Definition timerlist_deadline_ns (tl : timerlist) (now : Z) : Z :=
  if negb (enabled tl) then -1
  else match active_timers tl with
       | [] => -1
       | t :: _ => let delta := expire_time tl t - now in if delta <=? 0 then 0 else delta
       end.

(** The casts make -1, no deadline, later than any other. *)
Definition qemu_soonest_timeout (t1 t2 : Z) : Z := if u64 t1 <? u64 t2 then t1 else t2.

(** The lists of a group with the current time of their clocks, and whether
    the clock counts ([qemu_clock_use_for_deadline]). *)
Definition timerlistgroup_deadline_ns (tls : list (timerlist * Z * bool)) : Z :=
  foldl (fun deadline '(tl, now, use) =>
    if use : bool then qemu_soonest_timeout deadline (timerlist_deadline_ns tl now) else deadline)
    (-1) tls.

Definition qemu_timeout_ns_to_ms (ns : Z) : Z :=
  if ns <? 0 then -1
  else if ns =? 0 then 0
  else let ms := Z.quot (ns + SCALE_MS - 1) SCALE_MS in
       if INT32_MAX <? ms then INT32_MAX else ms.

(** The loop of [timerlist_run_timers]; [cb] runs the callback of a timer,
    which may change the list.  The timers fired are collected in order. *)
Fixpoint run_loop (fuel : nat) (cb : nat -> timerlist -> timerlist) (now : Z) (tl : timerlist)
  : outcome (list nat * timerlist) :=
  match active_timers tl with
  | [] => Ok ([], tl)
  | ts :: next =>
      if negb (expire_time tl ts <=? now) then Ok ([], tl)
      else match fuel with
           | O => Fault FuelExhausted
           | S n =>
               let tl := tl <| active_timers := next |>
                            <| expire_time := <[ts := -1]> (expire_time tl) |> in
               obind (run_loop n cb now (cb ts tl)) (fun '(fired, tl) => Ok (ts :: fired, tl))
           end
  end.

(** [progress] is whether a callback was run. *)
Definition timerlist_run_timers (fuel : nat) (cb : nat -> timerlist -> timerlist) (now : Z)
  (tl : timerlist) : outcome (bool * list nat * timerlist) :=
  if negb (enabled tl) then Ok (false, [], tl)
  else obind (run_loop fuel cb now tl) (fun '(fired, tl) =>
         Ok (negb (bool_decide (fired = [])), fired, tl)).

(** ** The invariant *)
Definition before (exp : nat -> Z) (t1 t2 : nat) : Prop := exp t1 <= exp t2.

Record wf (tl : timerlist) : Prop := {
  wf_nodup : NoDup (active_timers tl);
  wf_sorted : StronglySorted (before (expire_time tl)) (active_timers tl);
  wf_active t : t ∈ active_timers tl -> 0 <= expire_time tl t;
  wf_idle t : t ∉ active_timers tl -> expire_time tl t = -1;
}.

Lemma timerlist_new_wf : wf timerlist_new.
Proof. split; cbn; [constructor|constructor|set_solver|done]. Qed.

Lemma wf_pending tl t : wf tl -> timer_pending tl t = true <-> t ∈ active_timers tl.
Proof.
  intros [_ _ Ha Hi]. unfold timer_pending. rewrite Z.leb_le.
  destruct (decide (t ∈ active_timers tl)) as [H|H].
  - specialize (Ha t H). naive_solver.
  - specialize (Hi t H). split; [lia|done].
Qed.

Lemma elem_of_unlink ts l t : NoDup l -> t ∈ unlink ts l <-> t ∈ l /\ t <> ts.
Proof.
  induction 1 as [|x l Hx Hl IH]; cbn [unlink]; [set_solver|].
  destruct (decide (x = ts)) as [->|]; set_solver.
Qed.

Lemma unlink_sublist ts l : unlink ts l `sublist_of` l.
Proof.
  induction l as [|x l IH]; cbn [unlink]; [done|].
  destruct (decide (x = ts)); [by apply sublist_cons|by apply sublist_skip].
Qed.

Lemma StronglySorted_sublist {A} (R : A -> A -> Prop) l k :
  l `sublist_of` k -> StronglySorted R k -> StronglySorted R l.
Proof.
  induction 1 as [|x l k Hlk IH|x l k Hlk IH]; intros Hk; [constructor|..]; inversion_clear Hk.
  - constructor; [auto|]. rewrite Forall_forall in *. intros y Hy. apply H0.
    by eapply sublist_subseteq.
  - auto.
Qed.

Lemma StronglySorted_ext {A} (R R' : A -> A -> Prop) l :
  (forall x y, x ∈ l -> y ∈ l -> R x y -> R' x y) -> StronglySorted R l -> StronglySorted R' l.
Proof.
  intros HR. induction 1 as [|x l Hl IH Hx]; constructor.
  - apply IH. set_solver.
  - rewrite Forall_forall in *. set_solver.
Qed.

Lemma elem_of_link exp ts e l t : t ∈ link exp ts e l <-> t = ts \/ t ∈ l.
Proof.
  induction l as [|x l IH]; cbn [link]; [set_solver|]. case_cond; set_solver.
Qed.

Lemma link_nodup exp ts e l : NoDup l -> ts ∉ l -> NoDup (link exp ts e l).
Proof.
  induction 1 as [|x l Hx Hl IH]; intros Hts; cbn [link]; [by apply NoDup_singleton|].
  case_cond; repeat apply NoDup_cons_2; try set_solver.
  rewrite elem_of_link. set_solver.
Qed.

(** The order is kept because the newcomer goes behind everything that
    expires no later; its clamped time is not below that of any of them. *)
Lemma link_sorted exp ts e l :
  (forall t, t ∈ l -> 0 <= exp t) -> ts ∉ l -> StronglySorted (before exp) l ->
  StronglySorted (before (<[ts := Z.max e 0]> exp)) (link exp ts e l).
Proof.
  intros Hpos Hts. induction 1 as [|x l Hl IH Hx]; cbn [link].
  { constructor; [constructor|done]. }
  assert (forall t, t ∈ x :: l -> <[ts := Z.max e 0]> exp t = exp t) as Hne.
  { intros t Ht. apply fn_lookup_insert_ne. set_solver. }
  rewrite Forall_forall in Hx. destruct (Z.leb_spec (exp x) e) as [Hle|Hgt].
  - constructor; [apply IH; set_solver|]. apply Forall_forall. intros y Hy.
    apply elem_of_link in Hy as [->|Hy]; unfold before; rewrite (Hne x) by left.
    + rewrite fn_lookup_insert. lia.
    + rewrite Hne by (by right). by apply Hx.
  - constructor.
    + apply (StronglySorted_ext (before exp)); [|constructor; [done|by rewrite Forall_forall]].
      intros y z Hy Hz. unfold before. by rewrite !Hne.
    + apply Forall_forall. intros y Hy. unfold before. rewrite fn_lookup_insert, Hne by done.
      specialize (Hpos y Hy). apply elem_of_cons in Hy as [->|Hy]; [lia|].
      specialize (Hx y Hy). unfold before in Hx. lia.
Qed.

Lemma timer_del_wf tl ts : wf tl -> wf (timer_del_locked tl ts).
Proof.
  intros [Hn Hs Ha Hi]. unfold timer_del_locked. split; cbn.
  - eapply sublist_NoDup; [done|apply unlink_sublist].
  - apply (StronglySorted_ext (before (expire_time tl))).
    + intros x y Hx Hy. apply elem_of_unlink in Hx as [_ ?]; [|done].
      apply elem_of_unlink in Hy as [_ ?]; [|done]. unfold before.
      by rewrite !fn_lookup_insert_ne.
    + eapply StronglySorted_sublist; [apply unlink_sublist|done].
  - intros t Ht. apply elem_of_unlink in Ht as [Ht ?]; [|done].
    rewrite fn_lookup_insert_ne by done. by apply Ha.
  - intros t Ht. rewrite elem_of_unlink in Ht by done.
    destruct (decide (t = ts)) as [->|]; [by rewrite fn_lookup_insert|].
    rewrite fn_lookup_insert_ne by done. apply Hi. naive_solver.
Qed.

Lemma timer_mod_locked_wf tl ts e :
  wf tl -> ts ∉ active_timers tl -> wf (snd (timer_mod_ns_locked tl ts e)).
Proof.
  intros [Hn Hs Ha Hi] Hts. split; cbn.
  - by apply link_nodup.
  - by apply link_sorted.
  - intros t Ht. apply elem_of_link in Ht as [->|Ht]; [rewrite fn_lookup_insert; lia|].
    rewrite fn_lookup_insert_ne by set_solver. by apply Ha.
  - intros t Ht. rewrite elem_of_link in Ht. rewrite fn_lookup_insert_ne by naive_solver.
    apply Hi. naive_solver.
Qed.

Lemma deleted_not_active tl ts : wf tl -> ts ∉ active_timers (timer_del_locked tl ts).
Proof. intros [Hn _ _ _] H. cbn in H. apply elem_of_unlink in H; naive_solver. Qed.

Lemma timer_mod_ns_wf tl ts e : wf tl -> wf (snd (timer_mod_ns tl ts e)).
Proof.
  intros Hwf. apply timer_mod_locked_wf; [by apply timer_del_wf|by apply deleted_not_active].
Qed.

Lemma timer_mod_anticipate_wf tl ts e : wf tl -> wf (snd (timer_mod_anticipate_ns tl ts e)).
Proof.
  intros Hwf. unfold timer_mod_anticipate_ns. case_cond; [|done].
  destruct (Z.eqb_spec (expire_time tl ts) (-1)) as [E|E]; cbn [negb].
  - apply timer_mod_locked_wf; [done|]. intros H. apply (wf_active _ Hwf) in H. lia.
  - by apply timer_mod_ns_wf.
Qed.

Lemma pop_wf tl ts next :
  wf tl -> active_timers tl = ts :: next ->
  wf (tl <| active_timers := next |> <| expire_time := <[ts := -1]> (expire_time tl) |>).
Proof.
  intros Hwf E. pose proof (timer_del_wf tl ts Hwf) as H. unfold timer_del_locked in H.
  rewrite E in H. cbn in H. rewrite decide_True in H by done. exact H.
Qed.

Lemma link_split exp ts e l :
  StronglySorted (before exp) l ->
  exists l1 l2, l = l1 ++ l2 /\ link exp ts e l = l1 ++ ts :: l2 /\
    (forall t, t ∈ l1 -> exp t <= e) /\ (forall t, t ∈ l2 -> e < exp t) /\
    links_first exp e l = bool_decide (l1 = []).
Proof.
  induction 1 as [|x l Hl IH Hx]; cbn [link links_first].
  { exists [], []. repeat split; set_solver. }
  destruct (Z.leb_spec (exp x) e) as [Hle|Hgt].
  - destruct IH as (l1 & l2 & -> & -> & H1 & H2 & _).
    exists (x :: l1), l2. repeat split; [|done]. set_solver.
  - exists [], (x :: l). rewrite Forall_forall in Hx. unfold before in Hx.
    repeat split; [set_solver|]. intros t Ht. apply elem_of_cons in Ht as [->|Ht]; [done|].
    specialize (Hx t Ht). lia.
Qed.

(** ** What the owner of one timer relies on *)
#[export, program] Instance timer_alarm (ts : nat) : AlarmClock timerlist := {|
  alarm_mod tl e := snd (timer_mod_ns tl ts e);
  alarm_del tl := timer_del tl ts;
  alarm_due tl := if timer_pending tl ts then Some (expire_time tl ts) else None;
  alarm_ok := wf;
|}.
Next Obligation. intros. by apply timer_mod_ns_wf. Qed.
Next Obligation. intros. by apply timer_del_wf. Qed.
Next Obligation.
  intros ts tl e Hwf. unfold timer_pending. cbn. rewrite fn_lookup_insert.
  by destruct (Z.leb_spec 0 (Z.max e 0)); [|lia].
Qed.
Next Obligation. intros ts tl Hwf. unfold timer_pending. cbn. by rewrite fn_lookup_insert. Qed.

(** C20: Arming.  [timer_mod_ns] leaves a well-formed list in which the timer
    is pending at the time asked for (0 if that was negative), every other
    timer keeps its time and its place among the others, the timer stands
    behind exactly those that expire no later, and the main loop is told to
    recompute its deadline exactly when the timer has become the first. *)
Theorem timer_mod_ns_spec tl ts e :
  wf tl ->
  exists l1 l2 rearm tl', timer_mod_ns tl ts e = (rearm, tl') /\ wf tl' /\
    active_timers tl' = l1 ++ ts :: l2 /\ l1 ++ l2 = unlink ts (active_timers tl) /\
    expire_time tl' ts = Z.max e 0 /\
    (forall t, t <> ts -> expire_time tl' t = expire_time tl t) /\
    (forall t, t ∈ l1 -> expire_time tl t <= e) /\ (forall t, t ∈ l2 -> e < expire_time tl t) /\
    (rearm = true <-> head (active_timers tl') = Some ts).
Proof.
  intros Hwf. pose proof (timer_del_wf tl ts Hwf) as Hd.
  destruct (link_split (expire_time (timer_del_locked tl ts)) ts e
    (active_timers (timer_del_locked tl ts)) (wf_sorted _ Hd)) as (l1 & l2 & E & El & H1 & H2 & Hf).
  pose proof (deleted_not_active tl ts Hwf) as Hts. rewrite E in Hts.
  exists l1, l2, (bool_decide (l1 = [])), (snd (timer_mod_ns tl ts e)).
  assert (forall t, t <> ts -> expire_time (timer_del_locked tl ts) t = expire_time tl t) as Hne
    by (intros; cbn; by apply fn_lookup_insert_ne).
  split; [by rewrite <- Hf|]. split; [by apply timer_mod_ns_wf|].
  split; [exact El|]. split; [symmetry; exact E|].
  split; [cbn; apply fn_lookup_insert|].
  split; [intros t Ht; cbn; by rewrite !fn_lookup_insert_ne|].
  split; [intros t Ht; rewrite <- Hne by set_solver; auto|].
  split; [intros t Ht; rewrite <- Hne by set_solver; auto|].
  rewrite bool_decide_eq_true. change (active_timers (snd (timer_mod_ns tl ts e))) with
    (link (expire_time (timer_del_locked tl ts)) ts e (active_timers (timer_del_locked tl ts))).
  rewrite El. destruct l1 as [|x l1]; cbn; [done|]. split; [done|]. intros [= ->]. set_solver.
Qed.

Definition demo_list : timerlist := snd (timer_mod_ns (snd (timer_mod_ns timerlist_new 0 30)) 1 10).
Lemma demo_list_wf : wf demo_list.
Proof. unfold demo_list. do 2 apply timer_mod_ns_wf. exact timerlist_new_wf. Qed.
Lemma timer_mod_ns_spec_witness :
  exists l1 l2 rearm tl', timer_mod_ns demo_list 2 20 = (rearm, tl') /\ wf tl' /\
    active_timers tl' = l1 ++ 2%nat :: l2 /\ l1 ++ l2 = unlink 2 (active_timers demo_list) /\
    expire_time tl' 2%nat = 20 /\
    (forall t, t <> 2%nat -> expire_time tl' t = expire_time demo_list t) /\
    (forall t, t ∈ l1 -> expire_time demo_list t <= 20) /\
    (forall t, t ∈ l2 -> 20 < expire_time demo_list t) /\
    (rearm = true <-> head (active_timers tl') = Some 2%nat).
Proof. exact (timer_mod_ns_spec demo_list 2 20 demo_list_wf). Defined.

(** *** Running the expired timers *)

Definition due (now : Z) (tl : timerlist) : list nat :=
  filter (fun t => expire_time tl t <= now) (active_timers tl).

(** A callback that arms timers for the future only, and deletes none of
    those that are about to be run. *)
Definition callback_ok (now : Z) (cb : nat -> timerlist -> timerlist) : Prop :=
  forall t tl, wf tl -> wf (cb t tl) /\ due now (cb t tl) = due now tl.

Lemma due_pop now tl ts next :
  wf tl -> active_timers tl = ts :: next -> expire_time tl ts <= now ->
  due now tl = ts :: due now
    (tl <| active_timers := next |> <| expire_time := <[ts := -1]> (expire_time tl) |>).
Proof.
  intros Hwf E Hle. unfold due. rewrite E, filter_cons_True by done. cbn. f_equal.
  pose proof (wf_nodup _ Hwf) as Hn. rewrite E in Hn. apply NoDup_cons in Hn as [Hn _].
  apply filter_ext_elem. intros t Ht. by rewrite fn_lookup_insert_ne by set_solver.
Qed.

Lemma due_head now tl : wf tl ->
  match active_timers tl with [] => True | t :: _ => now < expire_time tl t end ->
  due now tl = [].
Proof.
  intros Hwf Hh. unfold due. pose proof (wf_sorted _ Hwf) as Hs.
  destruct (active_timers tl) as [|t l]; [done|]. inversion_clear Hs as [|? ? _ Hl].
  rewrite Forall_forall in Hl.
  apply filter_none. intros x [->|Hx]%elem_of_cons; [lia|].
  specialize (Hl x Hx). unfold before in Hl. lia.
Qed.

Lemma run_loop_spec fuel cb now tl :
  callback_ok now cb -> wf tl -> (length (due now tl) <= fuel)%nat ->
  exists tl', run_loop fuel cb now tl = Ok (due now tl, tl') /\ wf tl' /\ due now tl' = [].
Proof.
  intros Hcb. revert tl. induction fuel as [|n IH]; intros tl Hwf Hlen.
  - assert (due now tl = []) as Hd by (destruct (due now tl); [done|cbn in Hlen; lia]).
    rewrite Hd. exists tl. split; [|done]. cbn [run_loop].
    destruct (active_timers tl) as [|ts next] eqn:E; [done|].
    destruct (Z.leb_spec (expire_time tl ts) now) as [Hle|]; [|done].
    by rewrite (due_pop now tl ts next) in Hd.
  - cbn [run_loop]. destruct (active_timers tl) as [|ts next] eqn:E.
    { rewrite due_head by (done || by rewrite E). exists tl. split; [done|].
      split; [done|]. apply due_head; [done|by rewrite E]. }
    destruct (Z.leb_spec (expire_time tl ts) now) as [Hle|Hgt]; cbn [negb].
    + rewrite (due_pop now tl ts next) in * by done. cbn [length] in Hlen.
      set (tl1 := tl <| active_timers := next |> <| expire_time := <[ts := -1]> (expire_time tl) |>) in *.
      destruct (Hcb ts tl1) as [Hwf2 Hd2]; [by apply pop_wf|].
      destruct (IH (cb ts tl1) Hwf2) as (tl' & -> & Hwf' & Hd'); [rewrite Hd2; lia|].
      exists tl'. rewrite Hd2. done.
    + assert (due now tl = []) as -> by (apply due_head; [done|by rewrite E]).
      exists tl. split; [done|]. split; [done|]. apply due_head; [done|by rewrite E].
Qed.

(** C19: Running.  With callbacks that arm only for the future, one pass over
    an enabled list ends after as many rounds as timers have expired, fires
    exactly those, the earliest first and each once, reports progress exactly
    when there was one, and leaves no expired timer behind.  Other callbacks may
    keep a pass from ending ([rearming_pass_never_ends]). *)
Theorem timerlist_run_timers_spec fuel cb now tl :
  callback_ok now cb -> wf tl -> enabled tl = true -> (length (due now tl) <= fuel)%nat ->
  exists tl', timerlist_run_timers fuel cb now tl =
      Ok (negb (bool_decide (due now tl = [])), due now tl, tl') /\
    wf tl' /\ due now tl' = [] /\
    StronglySorted (before (expire_time tl)) (due now tl) /\ NoDup (due now tl).
Proof.
  intros Hcb Hwf He Hf. destruct (run_loop_spec fuel cb now tl Hcb Hwf Hf) as (tl' & E & Hwf' & Hd).
  exists tl'. unfold timerlist_run_timers. rewrite He, E. cbn. split; [done|].
  split; [done|]. split; [done|]. destruct Hwf. unfold due. split.
  - eapply StronglySorted_sublist; [apply sublist_filter|done].
  - by apply NoDup_filter.
Qed.

(** Callbacks that leave the list alone. *)
Definition demo_cb (t : nat) (tl : timerlist) : timerlist := tl.
Lemma demo_cb_ok now : callback_ok now demo_cb.
Proof. by intros t tl. Qed.
Lemma timerlist_run_timers_spec_witness :
  exists tl', timerlist_run_timers 2 demo_cb 30 demo_list = Ok (true, [1; 0]%nat, tl') /\
    wf tl' /\ due 30 tl' = [] /\
    StronglySorted (before (expire_time demo_list)) [1; 0]%nat /\ NoDup [1; 0]%nat.
Proof.
  exact (timerlist_run_timers_spec 2 demo_cb 30 demo_list (demo_cb_ok 30) demo_list_wf
    eq_refl (le_n 2)).
Defined.

(** That callbacks arm only for the future is needed: if each leaves a timer due,
    the pass never ends, whatever the number of rounds. *)
Theorem rearming_pass_never_ends cb now tl fuel :
  (forall t tl, wf tl -> wf (cb t tl) /\ due now (cb t tl) <> []) -> wf tl -> due now tl <> [] ->
  run_loop fuel cb now tl = Fault FuelExhausted.
Proof.
  intros Hcb. revert tl. induction fuel as [|n IH]; intros tl Hwf Hd; cbn [run_loop];
    destruct (active_timers tl) as [|ts next] eqn:E; try (destruct Hd; apply due_head; [done|by rewrite E]);
    destruct (Z.leb_spec (expire_time tl ts) now) as [Hle|Hgt]; cbn [negb];
    try (destruct Hd; apply due_head; [done|by rewrite E]); [done|].
  set (tl1 := tl <| active_timers := next |> <| expire_time := _ |>).
  destruct (Hcb ts tl1) as [Hwf2 Hd2]; [by apply pop_wf|]. by rewrite IH.
Qed.

Definition rearm_cb (t : nat) (tl : timerlist) : timerlist := snd (timer_mod_ns tl t 30).
Lemma rearming_pass_never_ends_witness : run_loop 1000 rearm_cb 30 demo_list = Fault FuelExhausted.
Proof.
  apply rearming_pass_never_ends; [|apply demo_list_wf|done].
  intros t tl Hwf. split; [by apply timer_mod_ns_wf|]. intros Hd.
  assert (t ∈ due 30 (rearm_cb t tl)) as Hin; [|by rewrite Hd in Hin; apply elem_of_nil in Hin].
  unfold due. apply list_elem_of_filter. cbn. split; [by rewrite fn_lookup_insert|]. apply elem_of_link. by left.
Defined.

(** *** Deadlines *)

Definition no_deadline : Z := -1.

Lemma soonest_spec a b :
  -1 <= a < 2 ^ 63 -> -1 <= b < 2 ^ 63 ->
  qemu_soonest_timeout a b =
    if a =? -1 then b else if b =? -1 then a else Z.min a b.
Proof.
  intros Ha Hb. unfold qemu_soonest_timeout, uwrap.
  assert (forall x, 0 <= x < 2 ^ 63 -> x mod 2 ^ 64 = x) as Hid by (intros; apply Z.mod_small; lia).
  destruct (Z.eqb_spec a (-1)) as [->|], (Z.eqb_spec b (-1)) as [->|].
  - done.
  - rewrite (Hid b) by lia. change (-1 mod 2 ^ 64) with (2 ^ 64 - 1).
    destruct (Z.ltb_spec (2 ^ 64 - 1) b); lia.
  - rewrite (Hid a) by lia. change (-1 mod 2 ^ 64) with (2 ^ 64 - 1).
    destruct (Z.ltb_spec a (2 ^ 64 - 1)); lia.
  - rewrite !Hid by lia. destruct (Z.ltb_spec a b); lia.
Qed.

(** The time left to each timer that the group waits for. *)
Definition waits (tls : list (timerlist * Z * bool)) (d : Z) : Prop :=
  exists tl now t, (tl, now, true) ∈ tls /\ enabled tl = true /\ t ∈ active_timers tl /\
    d = Z.max 0 (expire_time tl t - now).
Definition soonest (P : Z -> Prop) (d : Z) : Prop :=
  (d = no_deadline /\ forall x, ~ P x) \/ (0 <= d /\ P d /\ forall x, P x -> d <= x).

Lemma waits_one tl now use d :
  waits [(tl, now, use)] d <-> use = true /\ enabled tl = true /\
    exists t, t ∈ active_timers tl /\ d = Z.max 0 (expire_time tl t - now).
Proof.
  unfold waits. split.
  - intros (tl' & now' & t & Hin & He & Ht & ->). apply list_elem_of_singleton in Hin.
    simplify_eq. eauto.
  - intros (-> & He & t & Ht & ->). exists tl, now, t. split; [by left|done].
Qed.

Lemma waits_app tls1 tls2 d : waits (tls1 ++ tls2) d <-> waits tls1 d \/ waits tls2 d.
Proof. unfold waits. setoid_rewrite elem_of_app. naive_solver. Qed.

Lemma timerlist_deadline_soonest tl now :
  wf tl -> soonest (waits [(tl, now, true)]) (timerlist_deadline_ns tl now).
Proof.
  intros Hwf. unfold timerlist_deadline_ns, soonest. setoid_rewrite waits_one.
  destruct (enabled tl) eqn:He; cbn [negb]; [|left; split; [done|naive_solver]].
  pose proof (wf_sorted _ Hwf) as Hs.
  destruct (active_timers tl) as [|t l] eqn:E.
  { left. split; [done|]. intros x (_ & _ & t & Ht & _). by apply elem_of_nil in Ht. }
  right. inversion_clear Hs as [|? ? _ Hl]. rewrite Forall_forall in Hl.
  assert ((if expire_time tl t - now <=? 0 then 0 else expire_time tl t - now) =
    Z.max 0 (expire_time tl t - now)) as ->
    by (destruct (Z.leb_spec (expire_time tl t - now) 0); lia).
  split; [lia|]. split.
  - repeat split. exists t. split; [by left|done].
  - intros x (_ & _ & t' & Ht & ->). apply elem_of_cons in Ht as [->|Ht]; [done|].
    specialize (Hl t' Ht). unfold before in Hl. lia.
Qed.

(** The members of a group: well formed, with times that leave the
    differences in the range of the code's 64-bit arithmetic. *)
Definition group_ok (tls : list (timerlist * Z * bool)) : Prop :=
  forall tl now use, (tl, now, use) ∈ tls -> wf tl /\ 0 <= now /\
    forall t, expire_time tl t < 2 ^ 63.

Lemma soonest_range tls d : group_ok tls -> soonest (waits tls) d -> -1 <= d < 2 ^ 63.
Proof.
  intros Hok [[-> _]|(H0 & (tl & now & t & Hin & _ & _ & ->) & _)]; [unfold no_deadline; lia|].
  destruct (Hok _ _ _ Hin) as (_ & Hn & Ht). specialize (Ht t). lia.
Qed.

Lemma soonest_union P Q R a b :
  (forall x, R x <-> P x \/ Q x) -> -1 <= a < 2 ^ 63 -> -1 <= b < 2 ^ 63 ->
  soonest P a -> soonest Q b -> soonest R (qemu_soonest_timeout a b).
Proof.
  intros HR Ha Hb HP HQ. rewrite soonest_spec by done. unfold soonest, no_deadline in *.
  assert (forall d (P' Q' : Z -> Prop), (forall x, ~ P' x) -> (forall x, R x <-> P' x \/ Q' x) ->
    (d = -1 /\ (forall x, ~ Q' x) \/ 0 <= d /\ Q' d /\ (forall x, Q' x -> d <= x)) ->
    (d = -1 /\ (forall x, ~ R x) \/ 0 <= d /\ R d /\ (forall x, R x -> d <= x))) as Hone.
  { intros d P' Q' Hn HR' [[-> Hd]|(H0 & Hd & Hmin)]; [left|right]; setoid_rewrite HR'; naive_solver. }
  destruct HP as [[-> HP]|(Ha0 & Pa & Hpa)]; cbn; [by apply (Hone b P Q)|].
  destruct (Z.eqb_spec a (-1)); [lia|].
  destruct HQ as [[-> HQ]|(Hb0 & Qb & Hqb)]; cbn.
  { apply (Hone a Q P); [done|naive_solver|by right]. }
  destruct (Z.eqb_spec b (-1)); [lia|]. right. setoid_rewrite HR.
  split; [lia|]. split; [destruct (Z.min_spec a b) as [[_ ->]|[_ ->]]; auto|].
  intros x [Hx|Hx]; [specialize (Hpa x Hx)|specialize (Hqb x Hx)]; lia.
Qed.

(** The main loop never oversleeps.  The group's deadline is the time
    left to the earliest active timer of the enabled lists that count, 0 when
    one has already expired, and -1 exactly when there is no such timer. *)
Theorem timerlistgroup_deadline_spec tls :
  group_ok tls -> soonest (waits tls) (timerlistgroup_deadline_ns tls).
Proof.
  intros Hok. unfold timerlistgroup_deadline_ns.
  enough (forall tls d pre, group_ok (pre ++ tls) -> soonest (waits pre) d ->
    soonest (waits (pre ++ tls)) (foldl (fun deadline '(tl, now, use) =>
      if use : bool then qemu_soonest_timeout deadline (timerlist_deadline_ns tl now) else deadline)
      d tls)) as H.
  { apply (H tls (-1) []); [done|]. left. split; [done|].
    intros x (? & ? & ? & Hin & _). by apply elem_of_nil in Hin. }
  clear tls Hok. induction tls as [|[[tl now] use] tls IH]; intros d pre Hok Hd; cbn [foldl].
  { by rewrite app_nil_r. }
  rewrite (cons_middle (tl, now, use)), app_assoc in *.
  assert (group_ok (pre ++ [(tl, now, use)])) as Hok'.
  { intros ? ? ? Hin. eapply Hok. apply elem_of_app. by left. }
  apply IH; [done|].
  assert (group_ok pre) as Hpre by (intros ? ? ? Hin; eapply Hok'; apply elem_of_app; by left).
  assert (group_ok [(tl, now, use)]) as Hone
    by (intros ? ? ? Hin; eapply Hok'; apply elem_of_app; by right).
  destruct use.
  - pose proof (timerlist_deadline_soonest tl now (proj1 (Hone tl now true (list_elem_of_here _ _)))) as Hs.
    apply (soonest_union _ _ _ _ _ (waits_app pre [(tl, now, true)])); eauto using soonest_range.
  - unfold soonest in *. setoid_rewrite waits_app. setoid_rewrite waits_one. naive_solver.
Qed.

Lemma timerlistgroup_deadline_spec_witness :
  soonest (waits [(demo_list, 4, true); (timerlist_new, 9, true)])
    (timerlistgroup_deadline_ns [(demo_list, 4, true); (timerlist_new, 9, true)]).
Proof.
  apply timerlistgroup_deadline_spec. intros tl now use Hin.
  apply elem_of_cons in Hin as [E|Hin]; [|apply list_elem_of_singleton in Hin as E]; simplify_eq.
  - split; [exact demo_list_wf|]. split; [lia|]. intros [|[|t]]; vm_compute; done.
  - split; [exact timerlist_new_wf|]. split; [lia|]. intros t; vm_compute; done.
Defined.

End TimerList.
