(* ===== verification/Bus.v ===== *)
(** The Goldfish device table and its enumeration bus
    (hw/android/goldfish/device.c): the allocation of register windows and
    interrupt lines to the devices that are added, the protocol by which the
    guest lists them, and the routing of a device's interrupt to the
    controller.

    The linked list of devices is a list, a [struct goldfish_device *] into
    it an index. *)
From Stdlib Require Import ZArith Lia Bool.
From stdpp Require Import base numbers list sorting.
From S2P Require Import Prelude Interrupt.
Local Open Scope Z_scope.
Local Open Scope prog_scope.

(** What a Goldfish device does to its interrupt lines:
    [goldfish_device_set_irq(dev, irq, level)]. *)
Inductive dev_irq := SetIrq (irq level : Z).

Module GoldfishBus.

Definition PDEV_BUS_OP_DONE : Z := 0x00.
Definition PDEV_BUS_OP_ADD_DEV : Z := 0x08.
Definition PDEV_BUS_OP_INIT : Z := 0x00.
Definition PDEV_BUS_OP : Z := 0x00.
Definition PDEV_BUS_GET_NAME : Z := 0x04.
Definition PDEV_BUS_NAME_LEN : Z := 0x08.
Definition PDEV_BUS_ID : Z := 0x0c.
Definition PDEV_BUS_IO_BASE : Z := 0x10.
Definition PDEV_BUS_IO_SIZE : Z := 0x14.
Definition PDEV_BUS_IRQ : Z := 0x18.
Definition PDEV_BUS_IRQ_COUNT : Z := 0x1c.
Definition PDEV_BUS_NAME_ADDR_HIGH : Z := 0x20.

Record goldfish_device := mkDevice {
  reported_state : Z;
  name : list Z;
  id : Z;
  base : Z;
  size : Z;
  irq : Z;
  irq_count : Z;
}.
#[export] Instance goldfish_device_eta : Settable goldfish_device := fun d =>
  mkDevice (reported_state d) (name d) (id d) (base d) (size d) (irq d) (irq_count d).

(** [bus_state] with the globals of the file; [dev] is the bus's own entry. *)
Record bus_state := mkBus {
  dev : goldfish_device;
  current : option nat;
  name_addr_high : Z;
  devices : list goldfish_device;  (* first_device .. last_device *)
  goldfish_free_base : Z;
  goldfish_free_irq : Z;
  goldfish_64bit_guest : Z;
}.
#[export] Instance bus_state_eta : Settable bus_state := fun s =>
  mkBus (dev s) (current s) (name_addr_high s) (devices s) (goldfish_free_base s)
    (goldfish_free_irq s) (goldfish_64bit_guest s).

(** [PicSet n l] is [qemu_set_irq(goldfish_pic[n], l)], [WriteName a bs] the
    copy of a device's name into guest memory. *)
Inductive bus_event :=
| PicSet (n level : Z)
| WriteName (addr : Z) (bytes : list Z).

Definition M := prog bus_state bus_event.

(** The line and level driven for a device's interrupt. *)
Definition goldfish_device_set_irq (d : goldfish_device) (i level : Z) : outcome (Z * Z) :=
  if irq_count d <=? u32 i then Fault (CpuAbort i) else Ok (u32 (irq d + i), level).

Definition goldfish_guest_is_64bit (s : bus_state) : Z := goldfish_64bit_guest s.

Section target.
(** [GFD_MAX_IRQ], and the interrupts the x86 target reserves. *)
Context (max_irq : Z) (reserved : list Z).

(** Pass by the reserved interrupts; they are distinct, so there are no
    more steps than reserved numbers. *)
Fixpoint skip_reserved (fuel : nat) (i : Z) : Z :=
  match fuel with
  | O => i
  | S n => if bool_decide (i ∈ reserved) then skip_reserved n (u32 (i + 1)) else i
  end.

Definition goldfish_add_device_no_io (d : goldfish_device) : M unit :=
  s <- gets (fun s => s) ;;
  let '(d, s) :=
    if base d =? 0 then
      (d <| base := goldfish_free_base s |>,
       s <| goldfish_free_base := u32 (goldfish_free_base s + size d) |>)
    else (d, s) in
  if (irq d =? 0) && (0 <? irq_count d) then
    let d := d <| irq := goldfish_free_irq s |> in
    let s := s <| goldfish_free_irq :=
      skip_reserved (length reserved) (u32 (goldfish_free_irq s + irq_count d)) |> in
    if max_irq <=? goldfish_free_irq s then abort ProcessExit
    else modify (fun _ => s <| devices := devices s ++ [d] |>)
  else modify (fun _ => s <| devices := devices s ++ [d] |>).

Fixpoint add_devices (ds : list goldfish_device) : M unit :=
  match ds with
  | [] => ret tt
  | d :: ds' => goldfish_add_device_no_io d ;;; add_devices ds'
  end.
End target.

Definition goldfish_device_init (b i : Z) (s : bus_state) : bus_state :=
  s <| goldfish_free_base := b |> <| goldfish_free_irq := i |>.

(** The first device from [i] on that is not reported, [l] the rest of the list. *)
Fixpoint skip_reported (i : nat) (l : list goldfish_device) : option nat :=
  match l with
  | [] => None
  | d :: l' => if reported_state d =? 1 then skip_reported (S i) l' else Some i
  end.

Definition next_unreported (i : nat) (s : bus_state) : option nat :=
  skip_reported i (drop i (devices s)).

Definition current_dev (s : bus_state) : option goldfish_device :=
  match current s with Some i => devices s !! i | None => None end.

Definition set_bus_irq (level : Z) : M unit :=
  s <- gets (fun s => s) ;;
  r <- of_outcome (goldfish_device_set_irq (dev s) 0 level) ;;
  emit (PicSet (fst r) (snd r)).

Definition read_current (f : goldfish_device -> Z) : M Z :=
  gets (fun s => match current_dev s with Some d => f d | None => 0 end).

Definition goldfish_bus_read (offset : Z) : M Z :=
  if offset =? PDEV_BUS_OP then
    s <- gets (fun s => s) ;;
    modify (fun s =>
      match current s with
      | Some i =>
          let s := s <| devices ::= alter (fun d => d <| reported_state := 1 |>) i |> in
          s <| current := next_unreported (S i) s |>
      | None => s <| current := next_unreported 0 s |>
      end) ;;;
    s <- gets (fun s => s) ;;
    match current s with
    | Some _ => ret PDEV_BUS_OP_ADD_DEV
    | None => set_bus_irq 0 ;;; ret PDEV_BUS_OP_DONE
    end
  else if offset =? PDEV_BUS_NAME_LEN then read_current (fun d => u32 (Z.of_nat (length (name d))))
  else if offset =? PDEV_BUS_ID then read_current id
  else if offset =? PDEV_BUS_IO_BASE then read_current base
  else if offset =? PDEV_BUS_IO_SIZE then read_current size
  else if offset =? PDEV_BUS_IRQ then read_current irq
  else if offset =? PDEV_BUS_IRQ_COUNT then read_current irq_count
  else abort (CpuAbort offset).

Definition goldfish_bus_op_init : M unit :=
  modify (fun s => s <| devices ::= map (fun d => d <| reported_state := 0 |>) |>
                     <| current := None |>) ;;;
  s <- gets (fun s => s) ;;
  set_bus_irq (cbool (negb (bool_decide (devices s = [])))).

(** [target_bits] is the width of [target_ulong]. *)
Definition goldfish_bus_write (target_bits offset value : Z) : M unit :=
  if offset =? PDEV_BUS_OP then
    if value =? PDEV_BUS_OP_INIT then goldfish_bus_op_init else abort (CpuAbort value)
  else if offset =? PDEV_BUS_GET_NAME then
    s <- gets (fun s => s) ;;
    match current_dev s with
    | Some d => emit (WriteName (uwrap target_bits (Z.lor (name_addr_high s) value)) (name d))
    | None => ret tt
    end
  else if offset =? PDEV_BUS_NAME_ADDR_HIGH then
    modify (fun s => s <| name_addr_high := u64 (Z.shiftl value 32) |>
                       <| goldfish_64bit_guest := 1 |>)
  else abort (CpuAbort offset).

(** ** Allocation *)

Section allocation.
Context (max_irq : Z) (reserved : list Z).
Hypothesis max_irq_small : 0 <= max_irq < 2 ^ 16.
Hypothesis reserved_small : Z.of_nat (length reserved) < 2 ^ 16.

Lemma skip_reserved_ge fuel i :
  0 <= i -> i + Z.of_nat fuel < 2 ^ 32 ->
  i <= skip_reserved reserved fuel i <= i + Z.of_nat fuel /\
  (forall j, i <= j < skip_reserved reserved fuel i -> j ∈ reserved) /\
  (skip_reserved reserved fuel i < i + Z.of_nat fuel ->
   skip_reserved reserved fuel i ∉ reserved).
Proof.
  revert i. induction fuel as [|n IH]; intros i Hi Hf; cbn [skip_reserved].
  { repeat split; lia. }
  case_bool_decide as E; [|repeat split; (lia || done)].
  unfold uwrap. rewrite Z.mod_small by lia.
  destruct (IH (i + 1) ltac:(lia) ltac:(lia)) as (H1 & H2 & H3). split; [lia|]. split; [|naive_solver lia].
  intros j Hj. destruct (decide (j = i)) as [->|]; [done|]. apply H2. lia.
Qed.

(** The fuel is enough: the search ends on a number that is not reserved. *)
Lemma skip_reserved_free i :
  0 <= i < 2 ^ 31 -> skip_reserved reserved (length reserved) i ∉ reserved.
Proof.
  intros Hi Hin. destruct (skip_reserved_ge (length reserved) i) as (H1 & H2 & H3); [lia|lia|].
  set (r := skip_reserved reserved (length reserved) i) in *.
  destruct (Z.lt_ge_cases r (i + Z.of_nat (length reserved))); [by apply H3|].
  assert (seqZ i (Z.of_nat (length reserved) + 1) ⊆+ reserved) as Hsub.
  { apply NoDup_submseteq; [apply NoDup_seqZ|]. intros j Hj. apply elem_of_seqZ in Hj.
    destruct (decide (j = r)) as [->|]; [done|]. apply H2. lia. }
  apply submseteq_length in Hsub. rewrite length_seqZ in Hsub. lia.
Qed.

(** A device whose window and interrupt are left to the bus. *)
Definition dynamic (d : goldfish_device) : Prop :=
  base d = 0 /\ irq d = 0 /\ 0 <= size d /\ 0 <= irq_count d < 2 ^ 16.

Definition total_size (ds : list goldfish_device) : Z := foldr (fun d n => size d + n) 0 ds.

(** [d] was placed before [e], apart from it. *)
Definition apart (d e : goldfish_device) : Prop :=
  base d + size d <= base e /\
  (0 < irq_count d -> 0 < irq_count e -> irq d + irq_count d <= irq e).
Definition placed (lo_base hi_base lo_irq : Z) (d : goldfish_device) : Prop :=
  lo_base <= base d /\ base d + size d <= hi_base /\
  (0 < irq_count d -> lo_irq <= irq d /\ irq d + irq_count d < max_irq /\ irq d ∉ reserved).

Lemma total_size_nonneg ds : Forall dynamic ds -> 0 <= total_size ds.
Proof.
  induction 1 as [|d ds (_ & _ & Hs & _) _ IH]; [done|]. cbn. unfold total_size in IH. lia.
Qed.

(** Adding one dynamic device. *)
Lemma add_device_step d s s1 es :
  dynamic d -> 0 <= goldfish_free_base s -> goldfish_free_base s + size d < 2 ^ 32 ->
  0 <= goldfish_free_irq s < max_irq -> goldfish_free_irq s ∉ reserved ->
  goldfish_add_device_no_io max_irq reserved d s = Ok (tt, s1, es) ->
  exists d', devices s1 = devices s ++ [d'] /\ name d' = name d /\ size d' = size d /\
    irq_count d' = irq_count d /\ base d' = goldfish_free_base s /\
    goldfish_free_base s1 = goldfish_free_base s + size d /\
    goldfish_free_irq s <= goldfish_free_irq s1 < max_irq /\ goldfish_free_irq s1 ∉ reserved /\
    (0 < irq_count d -> irq d' = goldfish_free_irq s /\
       irq d' + irq_count d <= goldfish_free_irq s1).
Proof.
  intros (Hb & Hi & Hs & Hc) Hfb Hsum Hfi Hnr H. unfold goldfish_add_device_no_io in H.
  rewrite Hb in H. unfold bind, gets in H. cbn in H. rewrite Hi in H. cbn in H.
  assert (forall x, 0 <= x < 2 ^ 32 -> u32 x = x) as Hu by (intros; by apply uwrap_id).
  destruct (Z.ltb_spec 0 (irq_count d)).
  - pose proof (skip_reserved_ge (length reserved) (goldfish_free_irq s + irq_count d)
      ltac:(lia) ltac:(lia)) as (Hge & _ & _).
    pose proof (skip_reserved_free (goldfish_free_irq s + irq_count d) ltac:(lia)) as Hfree.
    rewrite (Hu (goldfish_free_irq s + irq_count d)) in H by lia.
    case_cond_in H; [done|]. unfold modify in H. simplify_eq.
    eexists. split; [reflexivity|]. cbn. rewrite (Hu (goldfish_free_base s + size d)) by lia.
    repeat split; (done || lia).
  - rewrite Hu in H by lia. unfold modify in H. simplify_eq.
    eexists. split; [reflexivity|]. cbn. repeat split; (done || lia).
Qed.

Lemma add_devices_spec ds s s' es lo_base lo_irq :
  Forall dynamic ds -> lo_base <= goldfish_free_base s -> 0 <= goldfish_free_base s ->
  goldfish_free_base s + total_size ds < 2 ^ 32 ->
  0 <= goldfish_free_irq s < max_irq -> lo_irq <= goldfish_free_irq s ->
  goldfish_free_irq s ∉ reserved ->
  add_devices max_irq reserved ds s = Ok (tt, s', es) ->
  exists ds', devices s' = devices s ++ ds' /\ map name ds' = map name ds /\
    StronglySorted apart ds' /\
    Forall (placed (goldfish_free_base s) (goldfish_free_base s + total_size ds)
              (goldfish_free_irq s)) ds'.
Proof.
  intros Hds. revert s s' es lo_base lo_irq.
  induction Hds as [|d ds Hd Hds IH]; intros s s' es lo_base lo_irq Hlb Hb Hsum Hi Hli Hnr H.
  { cbn in H. unfold ret in H. simplify_eq. exists []. rewrite app_nil_r. repeat constructor. }
  cbn [add_devices] in H. unfold bind in H.
  destruct (goldfish_add_device_no_io max_irq reserved d s) as [[[[] s1] es1]|] eqn:E1; [|done].
  destruct (add_devices max_irq reserved ds s1) as [[[[] s2] es2]|] eqn:E2; [|done].
  simplify_eq. cbn [total_size foldr] in Hsum. fold (total_size ds) in Hsum.
  pose proof (total_size_nonneg ds Hds) as Ht. pose proof Hd as (_ & _ & Hs & Hc).
  destruct (add_device_step d s s1 es1) as (d' & Ed & En & Es & Ec & Eb & Efb & Efi & Hn1 & Hirq);
    [done|lia|lia|done|done|done|].
  destruct (IH s1 s' es2 (goldfish_free_base s1) (goldfish_free_irq s1))
    as (ds' & E' & Hnames & Hsorted & Hplaced); try (done || lia).
  exists (d' :: ds'). rewrite E', Ed, <- app_assoc. split; [done|].
  split; [cbn; by rewrite En, Hnames|].
  rewrite Forall_forall in Hplaced.
  change (total_size (d :: ds)) with (size d + total_size ds).
  split; [|constructor].
  - constructor; [done|]. apply Forall_forall. intros e He.
    destruct (Hplaced e He) as (? & ? & Hir). unfold apart. rewrite Eb, Es, Ec. split; [lia|].
    intros Hcd Hce. destruct (Hirq Hcd). specialize (Hir Hce). lia.
  - unfold placed. rewrite Eb, Es, Ec. split; [lia|]. split; [lia|].
    intros Hcd. destruct (Hirq Hcd) as [-> ?]. split; [lia|]. split; [lia|done].
  - apply Forall_forall. intros e He. destruct (Hplaced e He) as (? & ? & Hir).
    unfold placed. split; [lia|]. split; [lia|]. intros Hce. specialize (Hir Hce).
    naive_solver lia.
Qed.

(** C36: Allocation.  When the devices that leave their placement to the bus
    have all been added, they stand in the table in the order they were
    added, their register windows follow each other from the first free
    address without overlap, and their interrupt ranges do not overlap
    either, stay below [GFD_MAX_IRQ] and start on no reserved number (the
    search past the reserved ones ends). *)
Theorem add_devices_disjoint ds s s' es :
  Forall dynamic ds -> devices s = [] -> 0 <= goldfish_free_base s ->
  goldfish_free_base s + total_size ds < 2 ^ 32 ->
  0 <= goldfish_free_irq s < max_irq -> goldfish_free_irq s ∉ reserved ->
  add_devices max_irq reserved ds s = Ok (tt, s', es) ->
  map name (devices s') = map name ds /\ StronglySorted apart (devices s') /\
  Forall (placed (goldfish_free_base s) (goldfish_free_base s + total_size ds)
            (goldfish_free_irq s)) (devices s').
Proof.
  intros Hds He Hb Hsum Hi Hnr H.
  destruct (add_devices_spec ds s s' es (goldfish_free_base s) (goldfish_free_irq s))
    as (ds' & -> & ?); try (done || lia). by rewrite He.
Qed.
End allocation.

Definition demo_bus_dev : goldfish_device := mkDevice 0 [] (-1) 0xff001000 0x1000 1 1.
Definition demo_bus : bus_state := mkBus demo_bus_dev None 0 [] 0xff010000 7 0.
Definition demo_devices : list goldfish_device :=
  [mkDevice 0 [98] 0 0 0x1000 0 1; mkDevice 0 [97] 0 0 0x2000 0 1; mkDevice 0 [99; 99] 1 0 0x1000 0 0].
Definition x86_reserved : list Z := [1; 8; 12; 13].
Definition demo_added : bus_state :=
  match run_state (add_devices 16 x86_reserved demo_devices) demo_bus with
  | Some s => s | None => demo_bus end.

Lemma add_devices_disjoint_witness :
  map name (devices demo_added) = map name demo_devices /\
  StronglySorted apart (devices demo_added) /\
  Forall (placed 16 x86_reserved 0xff010000 (0xff010000 + total_size demo_devices) 7)
    (devices demo_added).
Proof.
  apply (add_devices_disjoint 16 x86_reserved ltac:(lia) ltac:(reflexivity) demo_devices demo_bus
    demo_added []); try reflexivity.
  - repeat constructor; vm_compute; congruence.
  - vm_compute; congruence.
  - split; [vm_compute; congruence|reflexivity].
  - vm_compute. intros H. repeat (apply elem_of_cons in H as [H|H]; [discriminate|]).
    by apply elem_of_nil in H.
Defined.

(** ** Enumeration *)

Definition with_reported (n : nat) (ds : list goldfish_device) : list goldfish_device :=
  map (fun d => d <| reported_state := 1 |>) (take n ds) ++
  map (fun d => d <| reported_state := 0 |>) (drop n ds).

Lemma bus_irq_eq s level :
  0 < irq_count (dev s) -> set_bus_irq level s = Ok (tt, s, [PicSet (u32 (irq (dev s) + 0)) level]).
Proof.
  intros Hc. unfold set_bus_irq, bind, gets, goldfish_device_set_irq.
  destruct (Z.leb_spec (irq_count (dev s)) (u32 0)) as [H|]; [|done].
  change (u32 0) with 0 in H. lia.
Qed.

Lemma with_reported_length n ds : length (with_reported n ds) = length ds.
Proof. unfold with_reported. rewrite length_app, !length_map, <- length_app. by rewrite take_drop. Qed.

Lemma skip_reported_fresh i ds :
  skip_reported i (map (fun d => d <| reported_state := 0 |>) ds) =
    match ds with [] => None | _ => Some i end.
Proof. by destruct ds. Qed.

Lemma with_reported_drop n ds :
  (n <= length ds)%nat ->
  drop n (with_reported n ds) = map (fun d => d <| reported_state := 0 |>) (drop n ds).
Proof. intros. unfold with_reported. apply drop_app_length'. rewrite length_map, length_take. lia. Qed.

Lemma with_reported_step n ds :
  (n < length ds)%nat ->
  alter (fun d => d <| reported_state := 1 |>) n (with_reported n ds) = with_reported (S n) ds.
Proof.
  intros Hn. destruct (lookup_lt_is_Some_2 ds n Hn) as [d Hd]. unfold with_reported.
  rewrite (take_S_r _ _ d Hd), (drop_S ds d n Hd), map_app. cbn [map].
  rewrite alter_app_r_alt by (rewrite length_map, length_take; lia).
  rewrite length_map, length_take. replace (n - min n (length ds))%nat with 0%nat by lia.
  cbn. by rewrite <- app_assoc.
Qed.

#[global] Arguments with_reported : simpl never.

(** [n] reads of the operation register. *)
Fixpoint read_ops (n : nat) : M (list Z) :=
  match n with
  | O => ret []
  | S n => r <- goldfish_bus_read PDEV_BUS_OP ;; rs <- read_ops n ;; ret (r :: rs)
  end.

(** The bus after [n] devices have been handed out since the last INIT. *)
Definition enumerating (n : nat) (s : bus_state) (ds : list goldfish_device) : bus_state :=
  s <| devices := with_reported (n - 1) ds |>
    <| current := match n with O => None | S i => Some i end |>.

Lemma bus_read_step n s ds :
  (n < length ds)%nat ->
  goldfish_bus_read PDEV_BUS_OP (enumerating n s ds) =
    Ok (PDEV_BUS_OP_ADD_DEV, enumerating (S n) s ds, []).
Proof.
  intros Hn. unfold goldfish_bus_read. change (PDEV_BUS_OP =? PDEV_BUS_OP) with true.
  cbn iota. unfold bind, gets, modify. cbn beta iota.
  assert (forall k, (k < length ds)%nat -> skip_reported k (drop k (with_reported k ds)) = Some k) as Hsk.
  { intros k Hk. rewrite with_reported_drop, skip_reported_fresh by lia.
    destruct (drop k ds) eqn:E; [|done]. apply (f_equal length) in E. rewrite length_drop in E. cbn in E. lia. }
  destruct n as [|i].
  - cbn. unfold next_unreported. cbn. specialize (Hsk 0%nat Hn). rewrite drop_0 in Hsk.
    change (with_reported (0 - 1) ds) with (with_reported 0 ds). rewrite drop_0, Hsk. reflexivity.
  - cbn. replace (i - 0)%nat with i by lia. unfold next_unreported. cbn.
    rewrite with_reported_step, Hsk by lia. unfold enumerating, setter, ret. cbn.
    replace (i - 0)%nat with i by lia. by rewrite with_reported_step by lia.
Qed.

Lemma bus_read_last s ds :
  ds <> [] -> 0 < irq_count (dev s) ->
  goldfish_bus_read PDEV_BUS_OP (enumerating (length ds) s ds) =
    Ok (PDEV_BUS_OP_DONE, s <| devices := with_reported (length ds) ds |> <| current := None |>,
        [PicSet (u32 (irq (dev s) + 0)) 0]).
Proof.
  intros Hne Hc. unfold goldfish_bus_read. change (PDEV_BUS_OP =? PDEV_BUS_OP) with true.
  cbn iota. unfold bind, gets, modify. cbn beta iota.
  destruct (length ds) as [|i] eqn:E; [by destruct ds|].
  cbn -[set_bus_irq]. replace (i - 0)%nat with i by lia. unfold next_unreported. cbn -[set_bus_irq].
  rewrite with_reported_step by lia. rewrite (drop_ge (with_reported (S i) ds)).
  2: { rewrite with_reported_length. lia. }
  cbn -[set_bus_irq]. rewrite bus_irq_eq by done. unfold enumerating, setter, ret. cbn.
  replace (i - 0)%nat with i by lia. by rewrite with_reported_step by lia.
Qed.

Lemma read_ops_spec s ds n k :
  ds <> [] -> 0 < irq_count (dev s) -> (k + n = length ds)%nat ->
  read_ops (S n) (enumerating k s ds) =
    Ok (replicate n PDEV_BUS_OP_ADD_DEV ++ [PDEV_BUS_OP_DONE],
        s <| devices := with_reported (length ds) ds |> <| current := None |>,
        [PicSet (u32 (irq (dev s) + 0)) 0]).
Proof.
  intros Hne Hc. revert k. induction n as [|n IH]; intros k Hk.
  - replace k with (length ds) by lia. cbn [read_ops].
    eapply (bind_ok _ _ _ _ _ [_] _ _ []); [by apply bus_read_last|].
    by eapply (bind_ok _ _ _ _ _ [] _ _ []).
  - change (read_ops (S (S n))) with
      (bind (goldfish_bus_read PDEV_BUS_OP) (fun r => rs <- read_ops (S n) ;; ret (r :: rs))).
    eapply (bind_ok _ _ _ _ _ [] _ _ [_]); [apply bus_read_step; lia|].
    eapply (bind_ok _ _ _ _ _ [_] _ _ []); [apply IH; lia|]. reflexivity.
Qed.

(** Enumeration.  Whatever the guest did to the bus before, INIT raises
    the bus interrupt (there are devices), and the reads of the operation
    register that follow present every device of the table once, in order,
    the [k]-th read leaving device [k] current for the other registers; the
    read after the last device answers DONE and lowers the interrupt. *)
Theorem bus_enumeration s :
  devices s <> [] -> 0 < irq_count (dev s) ->
  let n := length (devices s) in
  exists s0 s1, goldfish_bus_write 32 PDEV_BUS_OP PDEV_BUS_OP_INIT s =
      Ok (tt, s0, [PicSet (u32 (irq (dev s) + 0)) 1]) /\
    read_ops (S n) s0 = Ok (replicate n PDEV_BUS_OP_ADD_DEV ++ [PDEV_BUS_OP_DONE], s1,
      [PicSet (u32 (irq (dev s) + 0)) 0]) /\
    forall k, (k < n)%nat -> exists sk, read_ops (S k) s0 =
      Ok (replicate (S k) PDEV_BUS_OP_ADD_DEV, sk, []) /\ current sk = Some k /\
      option_map name (current_dev sk) = option_map name (devices s !! k).
Proof.
  intros Hne Hc n. set (ds := devices s).
  assert (goldfish_bus_write 32 PDEV_BUS_OP PDEV_BUS_OP_INIT s =
    Ok (tt, enumerating 0 s ds, [PicSet (u32 (irq (dev s) + 0)) 1])) as E0.
  { unfold goldfish_bus_write, goldfish_bus_op_init.
    change (PDEV_BUS_OP =? PDEV_BUS_OP) with true. change (PDEV_BUS_OP_INIT =? PDEV_BUS_OP_INIT) with true.
    cbn iota. eapply (bind_ok _ _ _ _ _ [] _ _ [_]); [reflexivity|].
    eapply (bind_ok _ _ _ _ _ [] _ _ [_]); [reflexivity|].
    rewrite bus_irq_eq by exact Hc. rewrite bool_decide_eq_false_2; [done|].
    cbn. intros H. by apply map_eq_nil in H. }
  exists (enumerating 0 s ds), (s <| devices := with_reported n ds |> <| current := None |>).
  split; [exact E0|]. split; [by apply read_ops_spec|].
  intros k Hk. change (k < length ds)%nat in Hk. enough (forall j i, (i + j = k)%nat ->
    read_ops (S j) (enumerating i s ds) =
      Ok (replicate (S j) PDEV_BUS_OP_ADD_DEV, enumerating (S k) s ds, [])) as H.
  { exists (enumerating (S k) s ds). split; [by apply H|]. split; [done|].
    unfold current_dev. cbn. replace (k - 0)%nat with k by lia. unfold with_reported.
    rewrite lookup_app_r by (rewrite length_map, length_take; lia).
    rewrite length_map, length_take, list_lookup_fmap, lookup_drop.
    replace (k + (k - k `min` length ds))%nat with k by lia.
    fold ds. by destruct (ds !! k). }
  induction j as [|j IH]; intros i Hij.
  - replace i with k by lia. eapply (bind_ok _ _ _ _ _ [] _ _ []); [by apply bus_read_step|].
    by eapply (bind_ok _ _ _ _ _ [] _ _ []).
  - change (read_ops (S (S j))) with
      (bind (goldfish_bus_read PDEV_BUS_OP) (fun r => rs <- read_ops (S j) ;; ret (r :: rs))).
    eapply (bind_ok _ _ _ _ _ [] _ _ []); [apply bus_read_step; lia|].
    eapply (bind_ok _ _ _ _ _ [] _ _ []); [apply IH; lia|]. reflexivity.
Qed.

Lemma bus_enumeration_witness :
  exists s0 s1, goldfish_bus_write 32 PDEV_BUS_OP PDEV_BUS_OP_INIT demo_added =
      Ok (tt, s0, [PicSet 1 1]) /\
    read_ops 4 s0 = Ok ([8; 8; 8; 0], s1, [PicSet 1 0]) /\
    forall k, (k < 3)%nat -> exists sk, read_ops (S k) s0 =
      Ok (replicate (S k) PDEV_BUS_OP_ADD_DEV, sk, []) /\ current sk = Some k /\
      option_map name (current_dev sk) = option_map name (devices demo_added !! k).
Proof. apply (bus_enumeration demo_added); [discriminate|reflexivity]. Defined.

(** ** Routing a device's interrupt to the controller *)

Section routing.
Context {C : Type} `{IrqController C}.

Definition route1 (d : goldfish_device) (e : dev_irq) (c : C) : C :=
  let '(SetIrq i level) := e in
  match goldfish_device_set_irq d i level with
  | Ok (n, l) => set_line c n l
  | Fault _ => c
  end.
Definition route (d : goldfish_device) (es : list dev_irq) (c : C) : C :=
  foldl (fun c e => route1 d e c) c es.

(** A device with one interrupt, on line [irq d] of the controller. *)
Definition one_line (d : goldfish_device) : Prop :=
  irq_count d = 1 /\ 0 <= irq d < nr_lines /\ nr_lines <= 2 ^ 32.

(** The level a device's line is left at: its last drive, or what it was. *)
Definition last_level (es : list dev_irq) (l : bool) : bool :=
  foldl (fun _ '(SetIrq _ level) => nz level) l es.

Lemma route_line d es c :
  one_line d -> ctrl_ok c -> Forall (fun '(SetIrq i _) => i = 0) es ->
  ctrl_ok (route d es c) /\ line (route d es c) (irq d) = last_level es (line c (irq d)) /\
  forall n, 0 <= n < nr_lines -> n <> irq d -> line (route d es c) n = line c n.
Proof.
  intros (H1 & H2 & H3) Hc Hes. revert c Hc.
  induction Hes as [|[i level] es -> _ IH]; intros c Hc; [done|].
  assert (route1 d (SetIrq 0 level) c = set_line c (irq d) level) as E.
  { unfold route1, goldfish_device_set_irq. rewrite H1, Z.add_0_r.
    rewrite (uwrap_id 32 (irq d)) by (unfold fits; lia). done. }
  cbn [route foldl last_level]. fold (route d es (route1 d (SetIrq 0 level) c)). rewrite E.
  destruct (IH (set_line c (irq d) level)) as (Hok & Hl & Hn); [by apply set_line_ok|].
  split; [done|]. split.
  - rewrite Hl, line_set_line by done. reflexivity.
  - intros n Hn' Hne. rewrite Hn by done. by apply line_set_line_ne.
Qed.
End routing.

End GoldfishBus.
