(* ===== verification/Timer.v ===== *)
(** The Goldfish timer and real-time clock (hw/android/goldfish/timer.c).

    The timer's QEMUTimer is any [AlarmClock]; the functions that read the
    clock take its value as an argument. *)
From Stdlib Require Import ZArith Lia Bool.
From stdpp Require Import base numbers list.
From S2P Require Import Prelude Stream Interrupt QemuTimer Bus.
Local Open Scope Z_scope.
Local Open Scope prog_scope.
Local Open Scope stream_scope.

Module GoldfishTimer.

Definition TIMER_TIME_LOW : Z := 0x00.
Definition TIMER_TIME_HIGH : Z := 0x04.
Definition TIMER_ALARM_LOW : Z := 0x08.
Definition TIMER_ALARM_HIGH : Z := 0x0c.
Definition TIMER_CLEAR_INTERRUPT : Z := 0x10.
Definition TIMER_CLEAR_ALARM : Z := 0x14.
Definition GOLDFISH_TIMER_SAVE_VERSION : Z := 1.
Definition GOLDFISH_RTC_SAVE_VERSION : Z := 1.

Record timer_state (C : Type) := mkTimer {
  alarm_low_ns : Z;
  alarm_high_ns : Z;
  now_ns : Z;
  armed : Z;
  timer : C;
}.
Arguments mkTimer {C}.
Arguments alarm_low_ns {C}.
Arguments alarm_high_ns {C}.
Arguments now_ns {C}.
Arguments armed {C}.
Arguments timer {C}.
#[export] Instance timer_state_eta C : Settable (timer_state C) := fun s =>
  mkTimer (alarm_low_ns s) (alarm_high_ns s) (now_ns s) (armed s) (timer s).

Section timer.
Context {C : Type} `{AlarmClock C}.
Definition M := prog (timer_state C) dev_irq.

(** [s->alarm_low_ns | (int64_t)s->alarm_high_ns << 32]. *)
Definition alarm_ns (s : timer_state C) : Z :=
  s64 (Z.lor (alarm_low_ns s) (Z.shiftl (alarm_high_ns s) 32)).

Definition goldfish_timer_read (now offset : Z) : M Z :=
  if offset =? TIMER_TIME_LOW then
    modify (fun s => s <| now_ns := now |>) ;;;
    gets (fun s => u32 (now_ns s))
  else if offset =? TIMER_TIME_HIGH then gets (fun s => u32 (Z.shiftr (now_ns s) 32))
  else abort (CpuAbort offset).

Definition goldfish_timer_write (now offset value_ns : Z) : M unit :=
  if offset =? TIMER_ALARM_LOW then
    modify (fun s => s <| alarm_low_ns := value_ns |>) ;;;
    a <- gets alarm_ns ;;
    if a <=? now then emit (SetIrq 0 1)
    else modify (fun s => s <| timer ::= fun c => alarm_mod c a |>) ;;;
         modify (fun s => s <| armed := 1 |>)
  else if offset =? TIMER_ALARM_HIGH then
    modify (fun s => s <| alarm_high_ns := s32 value_ns |>)
  else if offset =? TIMER_CLEAR_ALARM then
    modify (fun s => s <| timer ::= alarm_del |>) ;;;
    modify (fun s => s <| armed := 0 |>) ;;;
    emit (SetIrq 0 0)
  else if offset =? TIMER_CLEAR_INTERRUPT then emit (SetIrq 0 0)
  else abort (CpuAbort offset).

Definition goldfish_timer_tick : M unit :=
  modify (fun s => s <| armed := 0 |>) ;;;
  emit (SetIrq 0 1).

Definition goldfish_timer_save {F} `{Sink F} (now : Z) (s : timer_state C) : wr F :=
  qemu_put_be64 (now_ns s) ;>>
  qemu_put_byte (armed s) ;>>
  wwhen (nz (armed s)) (qemu_put_be64 (s64 (alarm_ns s - now))).

(** Also the interrupts the load drives. *)
Definition goldfish_timer_load {F} `{Source F} (now version_id : Z) (s : timer_state C)
  : rd F (Z * timer_state C * list dev_irq) :=
  if negb (version_id =? GOLDFISH_TIMER_SAVE_VERSION) then rret (-1, s, [])
  else
    n <<- qemu_get_be64 ;;
    a <<- qemu_get_byte ;;
    let s := s <| now_ns := s64 n |> <| armed := a |> in
    if nz (armed s) then
      d <<- qemu_get_be64 ;;
      let diff_tks := s64 d in
      let alarm_tks := s64 (now + diff_tks) in
      if alarm_tks <=? now then rret (0, s <| armed := 0 |>, [SetIrq 0 1])
      else rret (0, s <| timer ::= fun c => alarm_mod c alarm_tks |>, [])
    else rret (0, s, []).
End timer.

(** *** The real-time clock *)
Record rtc_state := mkRtc {
  alarm_low : Z;
  alarm_high : Z;
  now : Z;
}.
#[export] Instance rtc_state_eta : Settable rtc_state := fun s =>
  mkRtc (alarm_low s) (alarm_high s) (now s).

(** [time] is the value of [time(NULL)], in seconds. *)
Definition goldfish_rtc_read (time offset : Z) : prog rtc_state dev_irq Z :=
  if offset =? 0x0 then
    modify (fun s => s <| now := s64 (time * 1000000000) |>) ;;;
    gets (fun s => u32 (now s))
  else if offset =? 0x4 then gets (fun s => u32 (Z.shiftr (now s) 32))
  else abort (CpuAbort offset).

Definition goldfish_rtc_write (offset value : Z) : prog rtc_state dev_irq unit :=
  if offset =? 0x8 then modify (fun s => s <| alarm_low := value |>)
  else if offset =? 0xc then modify (fun s => s <| alarm_high := s32 value |>)
  else if offset =? 0x10 then emit (SetIrq 0 0)
  else abort (CpuAbort offset).

Definition goldfish_rtc_save {F} `{Sink F} (s : rtc_state) : wr F := qemu_put_be64 (now s).
Definition goldfish_rtc_load {F} `{Source F} (version_id : Z) (s : rtc_state)
  : rd F (Z * rtc_state) :=
  if negb (version_id =? GOLDFISH_RTC_SAVE_VERSION) then rret (-1, s)
  else v <<- qemu_get_be64 ;; rret (0, s <| now := s64 v |>).

(** ** 64-bit time in two 32-bit reads *)

Lemma halves_join t :
  - 2 ^ 63 <= t < 2 ^ 63 ->
  s64 (Z.lor (Z.shiftl (u32 (Z.shiftr t 32)) 32) (u32 t)) = t.
Proof.
  intros Ht. rewrite <- (s64_id t) at 3 by lia.
  rewrite <- (swrap_uwrap 64 t), <- (swrap_uwrap 64) by lia. f_equal.
  apply Z.bits_inj'. intros i Hi.
  rewrite !(uwrap_spec 64), Z.lor_spec, Z.shiftl_spec, (uwrap_spec 32 t) by lia.
  destruct (Z.leb_spec 32 i).
  - rewrite uwrap_spec, Z.shiftr_spec by lia. replace (i - 32 + 32) with i by lia.
    destruct (Z.testbit t i); lia.
  - rewrite Z.testbit_neg_r by lia. destruct (Z.testbit t i); lia.
Qed.

Section timer_theorems.
Context {C : Type} `{AlarmClock C}.
Implicit Types s : timer_state C.

(** The flag follows the alarm clock. *)
Definition wf s : Prop :=
  alarm_ok (timer s) /\ fits 32 (alarm_low_ns s) /\ - 2 ^ 31 <= alarm_high_ns s < 2 ^ 31 /\
  ((armed s = 1 /\ alarm_due (timer s) <> None) \/ (armed s = 0 /\ alarm_due (timer s) = None)).

(** The guest's timer, the clock and the interrupt line, between two guest
    writes: time passes, the guest reads, and an alarm whose time has come
    is taken off the clock and its callback run. *)
Definition config : Type := timer_state C * Z * bool.
Inductive idle : config -> config -> Prop :=
| idle_refl c : idle c c
| idle_time s now now' l c : now <= now' -> idle (s, now', l) c -> idle (s, now, l) c
| idle_read s now l offset v s' es c :
    goldfish_timer_read now offset s = Ok (v, s', es) ->
    idle (s', now, GoldfishBus.last_level es l) c -> idle (s, now, l) c
| idle_tick s now l t s' es c :
    alarm_due (timer s) = Some t -> t <= now ->
    goldfish_timer_tick (s <| timer ::= alarm_del |>) = Ok (tt, s', es) ->
    idle (s', now, GoldfishBus.last_level es l) c -> idle (s, now, l) c.

(** No alarm whose time has come is waiting to be run. *)
Definition settled (c : config) : Prop :=
  let '(s, now, _) := c in
  match alarm_due (timer s) with Some t => now < t | None => True end.

Lemma timer_write_wf s now offset v s' es :
  wf s -> fits 32 v -> goldfish_timer_write now offset v s = Ok (tt, s', es) -> wf s'.
Proof.
  intros (Hok & Hl & Hh & Ha) Hv. unfold goldfish_timer_write. run_prog.
  case_cond; [case_cond; intros; simplify_eq; unfold wf; cbn|].
  { auto. }
  { rewrite alarm_due_mod by done. split; [by apply alarm_mod_ok|].
    split; [done|]. split; [done|]. by left. }
  pose proof (swrap_range 32 v ltac:(lia)).
  repeat case_cond; intros; simplify_eq; unfold wf; cbn; auto.
  rewrite alarm_due_del by done. split; [by apply alarm_del_ok|]. auto.
Qed.

Lemma alarm_range s : - 2 ^ 63 <= alarm_ns s < 2 ^ 63.
Proof. apply (swrap_range 64). lia. Qed.

(** What an idle period preserves, for an alarm set to [a]: either it is
    still to come and has driven nothing, or the line is up. *)
Definition waiting (a : Z) (l0 : bool) (c : config) : Prop :=
  let '(s, now, l) := c in
  alarm_ok (timer s) /\
  ((alarm_due (timer s) = Some a /\ l = l0) \/
   (alarm_due (timer s) = None /\ a <= now /\ l = true)).

Lemma waiting_idle a l0 c c' : waiting a l0 c -> idle c c' -> waiting a l0 c'.
Proof.
  intros Hw Hi. revert Hw.
  induction Hi as [c|s now now' l c Hle Hi IH|s now l offset v s' es c Hr Hi IH
    |s now l t s' es c Hd Ht Htick Hi IH]; intros Hw; [done|..]; apply IH.
  - destruct Hw as [Hok [?|(? & ? & ?)]]; split; auto. right. split; [done|]. split; [lia|done].
  - unfold goldfish_timer_read in Hr. revert Hr. run_prog.
    repeat case_cond; intros; simplify_eq; exact Hw.
  - revert Htick. unfold goldfish_timer_tick. run_prog. intros. simplify_eq.
    destruct Hw as [Hok Hw]. unfold waiting. cbn. rewrite alarm_due_del by done.
    split; [by apply alarm_del_ok|]. right. split; [done|]. split; [|done].
    destruct Hw as [[Hd' _]|[Hd' _]]; rewrite Hd' in Hd; simplify_eq; lia.
Qed.

Lemma idle_later c c' : idle c c' -> snd (fst c) <= snd (fst c').
Proof. induction 1; cbn in *; lia. Qed.

(** C35: Alarms.  Program the alarm for the 64-bit time [a] (high word, then
    low word) on a timer with no alarm pending, let any amount of time pass
    with any guest reads and the expired alarm run: when no due alarm is
    left waiting, the interrupt has been raised exactly if [a] has been
    reached, an [a] already past included. *)
Theorem alarm_fires_exactly s now0 hi lo l0 s1 s2 es1 es2 s3 now1 l1 :
  wf s -> armed s = 0 -> fits 32 lo -> - 2 ^ 31 <= hi < 2 ^ 31 ->
  goldfish_timer_write now0 TIMER_ALARM_HIGH (u32 hi) s = Ok (tt, s1, es1) ->
  goldfish_timer_write now0 TIMER_ALARM_LOW lo s1 = Ok (tt, s2, es2) ->
  idle (s2, now0, GoldfishBus.last_level es2 l0) (s3, now1, l1) ->
  settled (s3, now1, l1) -> 0 <= now0 ->
  let a := hi * 2 ^ 32 + lo in
  l1 = if a <=? now1 then true else l0.
Proof.
  intros Hwf Harm Hlo Hhi E1 E2 Hidle Hset Hnow a.
  pose proof (timer_write_wf s now0 _ _ _ _ Hwf (uwrap_fits 32 hi ltac:(lia)) E1) as Hwf1.
  assert (s1 = s <| alarm_high_ns := s32 (u32 hi) |>) as ->
    by (revert E1; unfold goldfish_timer_write; run_prog; cbn; by intros; simplify_eq).
  clear E1. revert E2. unfold goldfish_timer_write. run_prog. cbn.
  set (s1 := s <| alarm_high_ns := s32 (u32 hi) |>) in *.
  assert (alarm_ns (s1 <| alarm_low_ns := lo |>) = a) as Ea.
  { unfold alarm_ns. cbn. rewrite swrap_uwrap, s32_id, lor_shiftl_add by (done || lia).
    apply s64_id. unfold fits in Hlo. lia. }
  change (TIMER_ALARM_LOW =? TIMER_ALARM_LOW) with true. cbn iota. rewrite Ea. intros E2. destruct Hwf1 as (Hok & _ & _ & Hdue). cbn in Hok, Hdue.
  assert (alarm_due (timer s) = None) as Hnone by (destruct Hdue as [[? _]|[_ ?]]; [lia|done]).
  assert (waiting (Z.max a 0) (if a <=? now0 then true else l0)
    (s2, now0, GoldfishBus.last_level es2 l0)) as Hw.
  { revert E2. destruct (Z.leb_spec a now0); intros; simplify_eq; cbn.
    - split; [done|]. right. rewrite Hnone. split; [done|]. split; [lia|done].
    - rewrite alarm_due_mod by done. split; [by apply alarm_mod_ok|]. by left. }
  pose proof (idle_later _ _ Hidle) as Hlater. cbn in Hlater.
  destruct (waiting_idle _ _ _ _ Hw Hidle) as [_ [[Hd ->]|(_ & Hle & ->)]].
  - cbn in Hset. rewrite Hd in Hset. destruct (Z.leb_spec a now0), (Z.leb_spec a now1); (done || lia).
  - destruct (Z.leb_spec a now1); [done|lia].
Qed.

(** *** Snapshots *)

(** The bytes of a snapshot taken at [now]. *)
Definition encode (now : Z) s : list Z :=
  be64 (now_ns s) ++ [u8 (armed s)] ++
  (if nz (armed s) then be64 (s64 (alarm_ns s - now)) else []).

Lemma save_encodes {F} `{Sink F} now s :
  writes (goldfish_timer_save now s : wr F) (encode now s).
Proof.
  unfold goldfish_timer_save, encode. apply writes_seq; [apply writes_be64|].
  apply writes_seq; [apply writes_byte|]. apply writes_when, writes_be64.
Qed.

(** What a load at [now] makes of a snapshot, in the instance [s0]. *)
Definition loaded (now : Z) (d : Z) s s0 : timer_state C * list dev_irq :=
  let s1 := s0 <| now_ns := now_ns s |> <| armed := armed s |> in
  if nz (armed s) then
    if s64 (now + d) <=? now then (s1 <| armed := 0 |>, [SetIrq 0 1])
    else (s1 <| timer ::= fun c => alarm_mod c (s64 (now + d)) |>, [])
  else (s1, []).

Lemma load_decodes {F} `{Source F} now0 now s s0 :
  - 2 ^ 63 <= now_ns s < 2 ^ 63 -> fits 8 (armed s) ->
  let d := s64 (alarm_ns s - now0) in
  reads (goldfish_timer_load now GOLDFISH_TIMER_SAVE_VERSION s0 :
           rd F (Z * timer_state C * list dev_irq))
    (encode now0 s) (0, fst (loaded now d s s0), snd (loaded now d s s0)).
Proof.
  intros Hn Ha. cbv zeta. unfold goldfish_timer_load, encode, loaded. cbn [negb Z.eqb].
  eapply reads_bind; [apply reads_be64|]. cbv beta.
  rewrite (uwrap_id 8) by done.
  assert (s64 (u64 (now_ns s)) = now_ns s) as -> by (rewrite swrap_uwrap, s64_id by lia; done).
  change (?a :: ?l) with ([a] ++ l). eapply reads_bind; [apply reads_byte|]. cbv beta. cbn.
  destruct (nz (armed s)); [|apply reads_ret].
  eapply reads_last; [apply reads_be64|]. cbv beta.
  rewrite swrap_uwrap by lia.
  assert (s64 (s64 (alarm_ns s - now0)) = s64 (alarm_ns s - now0)) as ->
    by (apply s64_id, (swrap_range 64); lia).
  case_cond; apply reads_ret.
Qed.

(** Timer snapshots.  A timer saved at [now0] and loaded at [now1] in
    another instance answers the time reads in progress as before, and has
    the same time left to its alarm: the alarm is pending, at [now1] plus
    what was left at [now0]. *)
Theorem goldfish_timer_snapshot {F G} `{Sink F, Source G} now0 now1 s s0 :
  wf s -> - 2 ^ 63 <= now_ns s < 2 ^ 63 -> 0 <= now0 -> 0 <= now1 ->
  (armed s = 1 -> now0 < alarm_ns s /\ now1 + (alarm_ns s - now0) < 2 ^ 63) ->
  alarm_ok (timer s0) -> alarm_due (timer s0) = None ->
  exists bs s1, writes (goldfish_timer_save now0 s : wr F) bs /\
    reads (goldfish_timer_load now1 GOLDFISH_TIMER_SAVE_VERSION s0 :
             rd G (Z * timer_state C * list dev_irq)) bs (0, s1, []) /\
    now_ns s1 = now_ns s /\ armed s1 = armed s /\
    alarm_due (timer s1) =
      if armed s =? 1 then Some (now1 + (alarm_ns s - now0)) else None.
Proof.
  intros (Hok & Hl & Hh & Ha) Hn Hp0 Hp1 Hdue Hok0 Hd0.
  assert (fits 8 (armed s)) as Hf by (destruct Ha as [[-> _]|[-> _]]; by split).
  exists (encode now0 s), (fst (loaded now1 (s64 (alarm_ns s - now0)) s s0)).
  split; [apply save_encodes|]. pose proof (alarm_range s) as Har.
  pose proof (load_decodes (F := G) now0 now1 s s0 Hn Hf) as Hr. cbv zeta in Hr.
  revert Hr. unfold loaded. destruct Ha as [[E _]|[E _]]; rewrite E; cbn -[Z.pow swrap];
    [|intros Hr; by rewrite Hd0].
  destruct (Hdue E). rewrite (s64_id (alarm_ns s - now0)), s64_id by lia.
  destruct (Z.leb_spec (now1 + (alarm_ns s - now0)) now1); [lia|].
  intros Hr. split; [exact Hr|]. cbn. rewrite alarm_due_mod by done.
  split; [done|]. split; [done|]. f_equal. lia.
Qed.

(** A second snapshot loses the alarm.  The alarm registers are not
    part of a snapshot, and the next save computes the time left from them:
    a timer that was loaded into a fresh instance and is saved again before
    the guest reprograms it comes back, at the next load, with no alarm
    pending and its interrupt raised at once, however far the alarm was. *)
Theorem goldfish_timer_second_snapshot {F G} `{Sink F, Source G} now1 now2 now3 s s0 s1 :
  wf s -> armed s = 1 -> - 2 ^ 63 <= now_ns s < 2 ^ 63 ->
  0 <= now1 < 2 ^ 62 -> 0 <= now2 < 2 ^ 62 -> 0 <= now3 < 2 ^ 62 ->
  alarm_low_ns s0 = 0 -> alarm_high_ns s0 = 0 -> alarm_ok (timer s0) ->
  0 < alarm_ns s - now1 < 2 ^ 62 ->
  s1 = fst (loaded now2 (alarm_ns s - now1) s s0) ->
  reads (goldfish_timer_load now2 GOLDFISH_TIMER_SAVE_VERSION s0 :
           rd G (Z * timer_state C * list dev_irq)) (encode now1 s) (0, s1, []) /\
  alarm_due (timer s1) = Some (now2 + (alarm_ns s - now1)) /\
  exists bs, writes (goldfish_timer_save now2 s1 : wr F) bs /\
    reads (goldfish_timer_load now3 GOLDFISH_TIMER_SAVE_VERSION s0 :
             rd G (Z * timer_state C * list dev_irq)) bs
      (0, s0 <| now_ns := now_ns s |> <| armed := 0 |>, [SetIrq 0 1]).
Proof.
  intros Hwf Harm Hn Hp1 Hp2 Hp3 Hlo Hhi Hok Hleft ->.
  assert (forall t : timer_state C, armed t = 1 -> fits 8 (armed t)) as Hf by (intros t ->; by split).
  pose proof (load_decodes (F := G) now1 now2 s s0 Hn (Hf s Harm)) as Hr. cbv zeta in Hr.
  rewrite (s64_id (alarm_ns s - now1)) in Hr by lia.
  set (l := loaded now2 (alarm_ns s - now1) s s0) in *.
  assert (l = (s0 <| now_ns := now_ns s |> <| armed := 1 |>
    <| timer ::= fun c => alarm_mod c (now2 + (alarm_ns s - now1)) |>, [])) as El.
  { unfold l, loaded. rewrite Harm. cbn -[Z.pow swrap]. rewrite s64_id by lia.
    by destruct (Z.leb_spec (now2 + (alarm_ns s - now1)) now2); [lia|]. }
  rewrite El in *. cbn in Hr |- *. split; [done|].
  split; [rewrite alarm_due_mod by done; f_equal; lia|].
  set (s1 := s0 <| now_ns := now_ns s |> <| armed := 1 |>
    <| timer ::= fun c => alarm_mod c (now2 + (alarm_ns s - now1)) |>).
  exists (encode now2 s1). split; [apply save_encodes|].
  pose proof (load_decodes (F := G) now2 now3 s1 s0 Hn (Hf s1 eq_refl)) as Hr2. cbv zeta in Hr2.
  assert (alarm_ns s1 = 0) as Ea by (unfold alarm_ns, s1; cbn; by rewrite Hlo, Hhi).
  rewrite Ea in Hr2. unfold loaded in Hr2. cbn -[Z.pow swrap] in Hr2.
  rewrite (s64_id (0 - now2)), s64_id in Hr2 by lia.
  destruct (Z.leb_spec (now3 + (0 - now2)) now3); [exact Hr2|lia].
Qed.

(** Consistent time.  TIME_LOW read at [now] and TIME_HIGH read at any
    later moment together are [now], a 64-bit time that was current at the
    first read, on the timer and on the real-time clock (whose time is in
    seconds); the reads raise no interrupt. *)
Theorem time_reads_consistent s r now later secs :
  - 2 ^ 63 <= now < 2 ^ 63 -> 0 <= secs * 1000000000 < 2 ^ 63 ->
  (exists lo hi s', goldfish_timer_read now TIMER_TIME_LOW s = Ok (lo, s', []) /\
     goldfish_timer_read later TIMER_TIME_HIGH s' = Ok (hi, s', []) /\
     fits 32 lo /\ fits 32 hi /\ s64 (Z.lor (Z.shiftl hi 32) lo) = now) /\
  (exists lo hi r', goldfish_rtc_read secs 0x0 r = Ok (lo, r', []) /\
     goldfish_rtc_read later 0x4 r' = Ok (hi, r', []) /\
     fits 32 lo /\ fits 32 hi /\ s64 (Z.lor (Z.shiftl hi 32) lo) = secs * 1000000000).
Proof.
  intros Hn Hs. split; do 3 eexists; (split; [reflexivity|]); (split; [reflexivity|]);
    (split; [apply uwrap_fits; lia|]); (split; [apply uwrap_fits; lia|]).
  - by apply halves_join.
  - set (t := secs * 1000000000) in *.
    change (s64 (Z.lor (Z.shiftl (u32 (Z.shiftr (s64 t) 32)) 32) (u32 (s64 t))) = t).
    rewrite (s64_id t) by lia. apply halves_join. lia.
Qed.
End timer_theorems.

(** *** Witnesses, on a QEMU timer list *)
Definition demo_timer : timer_state TimerList.timerlist :=
  mkTimer 0 0 0 0 TimerList.timerlist_new.
Definition demo_alarm := TimerList.timer_alarm 0.
#[local] Existing Instance demo_alarm.
Lemma demo_timer_wf : wf demo_timer.
Proof.
  split; [exact TimerList.timerlist_new_wf|]. split; [by split|]. split; [cbn; lia|]. by right.
Qed.

Definition demo_high : timer_state TimerList.timerlist := demo_timer <| alarm_high_ns := 1 |>.
Definition demo_armed : timer_state TimerList.timerlist :=
  demo_high <| alarm_low_ns := 5 |> <| timer ::= fun c => alarm_mod c (2 ^ 32 + 5) |> <| armed := 1 |>.
Definition demo_fired : timer_state TimerList.timerlist :=
  demo_armed <| timer ::= alarm_del |> <| armed := 0 |>.

(** An alarm 4294967301 ns after power-on, five seconds later. *)
Lemma alarm_fires_exactly_witness :
  true = if 1 * 2 ^ 32 + 5 <=? 5000000000 then true else false.
Proof.
  apply (alarm_fires_exactly demo_timer 7 1 5 false demo_high demo_armed [] [] demo_fired
    5000000000 true demo_timer_wf eq_refl); [by split|lia|reflexivity|reflexivity| |exact I|lia].
  apply (idle_time _ _ 5000000000); [lia|].
  apply (idle_tick _ _ _ (2 ^ 32 + 5) demo_fired [SetIrq 0 1]); [reflexivity|lia|reflexivity|].
  apply idle_refl.
Defined.

Lemma demo_armed_wf : wf demo_armed.
Proof.
  split; [exact (TimerList.timer_mod_ns_wf _ _ _ TimerList.timerlist_new_wf)|].
  split; [by split|]. split; [cbn; lia|]. by left.
Qed.

Lemma goldfish_timer_snapshot_witness :
  exists bs s1, writes (goldfish_timer_save 7 demo_armed : wr (list Z)) bs /\
    reads (goldfish_timer_load 100 GOLDFISH_TIMER_SAVE_VERSION demo_timer : rd (list Z) _) bs
      (0, s1, []) /\
    now_ns s1 = 0 /\ armed s1 = 1 /\ alarm_due (timer s1) = Some (100 + (2 ^ 32 + 5 - 7)).
Proof.
  apply (goldfish_timer_snapshot 7 100 demo_armed demo_timer demo_armed_wf);
    [cbn; lia|lia|lia|by intros|exact TimerList.timerlist_new_wf|reflexivity].
Defined.

Lemma goldfish_timer_second_snapshot_witness :
  let s1 := fst (loaded 100 (2 ^ 32 - 2) demo_armed demo_timer) in
  reads (goldfish_timer_load 100 GOLDFISH_TIMER_SAVE_VERSION demo_timer : rd (list Z) _)
    (encode 7 demo_armed) (0, s1, []) /\
  alarm_due (timer s1) = Some (100 + (2 ^ 32 - 2)) /\
  exists bs, writes (goldfish_timer_save 100 s1 : wr (list Z)) bs /\
    reads (goldfish_timer_load 200 GOLDFISH_TIMER_SAVE_VERSION demo_timer : rd (list Z) _) bs
      (0, demo_timer <| now_ns := 0 |> <| armed := 0 |>, [SetIrq 0 1]).
Proof.
  apply (goldfish_timer_second_snapshot 7 100 200 demo_armed demo_timer _ demo_armed_wf eq_refl);
    try lia; try reflexivity; try (cbn; lia); try (exact TimerList.timerlist_new_wf).
  split; reflexivity.
Defined.

Lemma time_reads_consistent_witness :
  (exists lo hi s', goldfish_timer_read 5000000000 TIMER_TIME_LOW demo_timer = Ok (lo, s', []) /\
     goldfish_timer_read 9 TIMER_TIME_HIGH s' = Ok (hi, s', []) /\
     fits 32 lo /\ fits 32 hi /\ s64 (Z.lor (Z.shiftl hi 32) lo) = 5000000000) /\
  (exists lo hi r', goldfish_rtc_read 1400000000 0x0 (mkRtc 0 0 0) = Ok (lo, r', []) /\
     goldfish_rtc_read 9 0x4 r' = Ok (hi, r', []) /\
     fits 32 lo /\ fits 32 hi /\ s64 (Z.lor (Z.shiftl hi 32) lo) = 1400000000 * 1000000000).
Proof. apply (time_reads_consistent demo_timer (mkRtc 0 0 0) 5000000000 9 1400000000); lia. Defined.

End GoldfishTimer.
