(* ===== verification/Tty.v ===== *)
(** The Goldfish serial port (hw/android/goldfish/tty.c): a 128-byte receive
    buffer between the host's character device and the guest, the commands
    that move bytes between it and guest memory, and the interrupt that says
    bytes are ready.

    Guest memory as the debug accessors see it is a map from virtual
    addresses to bytes; writes to it, output to the character device and
    interrupt drives are the trace of effects. *)
From Stdlib Require Import ZArith Lia Bool.
From stdpp Require Import base numbers list.
From S2P Require Import Prelude Stream Interrupt Bus.
Local Open Scope Z_scope.
Local Open Scope prog_scope.
Local Open Scope stream_scope.

Module GoldfishTty.

Definition TTY_PUT_CHAR : Z := 0x00.
Definition TTY_BYTES_READY : Z := 0x04.
Definition TTY_CMD : Z := 0x08.
Definition TTY_DATA_PTR : Z := 0x10.
Definition TTY_DATA_LEN : Z := 0x14.
Definition TTY_DATA_PTR_HIGH : Z := 0x18.
Definition TTY_VERSION : Z := 0x20.
Definition TTY_CMD_INT_DISABLE : Z := 0.
Definition TTY_CMD_INT_ENABLE : Z := 1.
Definition TTY_CMD_WRITE_BUFFER : Z := 2.
Definition TTY_CMD_READ_BUFFER : Z := 3.
Definition TTY_DEVICE_VERSION : Z := 0.
Definition GOLDFISH_TTY_SAVE_VERSION : Z := 2.

(** [sizeof(s->data)] and [sizeof(temp)]. *)
Definition DATA_SIZE : Z := 128.
Definition TEMP_SIZE : Z := 64.

Record tty_state := mkTty {
  cs : bool;  (* a character device is attached *)
  ptr : Z;
  ptr_len : Z;
  ready : Z;
  data : list Z;
  data_count : Z;
}.
#[export] Instance tty_state_eta : Settable tty_state := fun s =>
  mkTty (cs s) (ptr s) (ptr_len s) (ready s) (data s) (data_count s).

Inductive tty_event :=
| TtyIrq (level : Z)
| ChrWrite (bytes : list Z)
| ChrWriteNegative (len : Z)
| MemWrite (addr : Z) (bytes : list Z).

Definition M := prog tty_state tty_event.

Section memory.
(** The width of [target_ulong] and the guest's memory. *)
Context (target_bits : Z) (mem : Z -> Z).

(** The loop of TTY_CMD_WRITE_BUFFER over an [int] length; a negative one
    is one call each of the accessors with that length. *)
Fixpoint write_loop (fuel : nat) (buf len : Z) : M unit :=
  if len =? 0 then ret tt
  else match fuel with
       | O => abort FuelExhausted
       | S n =>
           let to_write := if len <? TEMP_SIZE then len else TEMP_SIZE in
           (if to_write <? 0 then emit (ChrWriteNegative to_write)
            else emit (ChrWrite (guest_read target_bits mem buf to_write))) ;;;
           write_loop n (uwrap target_bits (buf + to_write)) (len - to_write)
       end.

Definition write_buffer : M unit :=
  s <- gets id ;;
  when (cs s)
    (write_loop (S (Z.to_nat (ptr_len s))) (uwrap target_bits (ptr s)) (s32 (ptr_len s))).

Definition read_buffer : M unit :=
  s <- gets id ;;
  if data_count s <? ptr_len s then abort (CpuAbort (ptr_len s))
  else
    emit (MemWrite (uwrap target_bits (ptr s)) (take (Z.to_nat (ptr_len s)) (data s))) ;;;
    when (ptr_len s <? data_count s)
      (modify (fun s =>
         let rest := Z.to_nat (data_count s - ptr_len s) in
         s <| data := take rest (drop (Z.to_nat (ptr_len s)) (data s)) ++ drop rest (data s) |>)) ;;;
    modify (fun s => s <| data_count := u32 (data_count s - ptr_len s) |>) ;;;
    s <- gets id ;;
    when ((data_count s =? 0) && nz (ready s)) (emit (TtyIrq 0)).

Definition goldfish_tty_cmd (value : Z) : M unit :=
  s <- gets id ;;
  if value =? TTY_CMD_INT_DISABLE then
    when (nz (ready s))
      (when (0 <? data_count s) (emit (TtyIrq 0)) ;;;
       modify (fun s => s <| ready := 0 |>))
  else if value =? TTY_CMD_INT_ENABLE then
    when (negb (nz (ready s)))
      (when (0 <? data_count s) (emit (TtyIrq 1)) ;;;
       modify (fun s => s <| ready := 1 |>))
  else if value =? TTY_CMD_WRITE_BUFFER then write_buffer
  else if value =? TTY_CMD_READ_BUFFER then read_buffer
  else abort (CpuAbort value).

Definition goldfish_tty_write (offset value : Z) : M unit :=
  s <- gets id ;;
  if offset =? TTY_PUT_CHAR then when (cs s) (emit (ChrWrite [u8 value]))
  else if offset =? TTY_CMD then goldfish_tty_cmd value
  else if offset =? TTY_DATA_PTR then
    modify (fun s => s <| ptr ::= fun p => uint64_set_low p value |>)
  else if offset =? TTY_DATA_PTR_HIGH then
    modify (fun s => s <| ptr ::= fun p => uint64_set_high p value |>)
  else if offset =? TTY_DATA_LEN then modify (fun s => s <| ptr_len := value |>)
  else abort (CpuAbort offset).
End memory.

Definition goldfish_tty_read (offset : Z) : M Z :=
  if offset =? TTY_BYTES_READY then gets data_count
  else if offset =? TTY_VERSION then ret TTY_DEVICE_VERSION
  else abort (CpuAbort offset).

Definition tty_can_receive (s : tty_state) : Z := u32 (DATA_SIZE - data_count s).

Definition tty_receive (buf : list Z) : M unit :=
  s <- gets id ;;
  when (DATA_SIZE <? data_count s + Z.of_nat (length buf)) (abort OutOfBounds) ;;;
  modify (fun s =>
    let n := Z.to_nat (data_count s) in
    s <| data := take n (data s) ++ buf ++ drop (n + length buf) (data s) |>
      <| data_count := u32 (data_count s + Z.of_nat (length buf)) |>) ;;;
  s <- gets id ;;
  when ((0 <? data_count s) && nz (ready s)) (emit (TtyIrq 1)).

Definition goldfish_tty_add (c : bool) : tty_state :=
  mkTty c 0 0 0 (replicate (Z.to_nat DATA_SIZE) 0) 0.

Definition goldfish_tty_save {F} `{Sink F} (s : tty_state) : wr F :=
  qemu_put_be64 (ptr s) ;>> qemu_put_be32 (ptr_len s) ;>> qemu_put_byte (ready s) ;>>
  qemu_put_byte (data_count s) ;>>
  qemu_put_buffer (take (Z.to_nat (data_count s)) (data s)).

(** The byte count of the stream is used as it is: more than the buffer
    holds is a write past its end. *)
Definition goldfish_tty_load {F} `{Source F} (version_id : Z) (s : tty_state)
  : rd F (outcome (Z * tty_state)) :=
  if negb (version_id =? GOLDFISH_TTY_SAVE_VERSION) &&
     negb (version_id =? GOLDFISH_TTY_SAVE_VERSION - 1) then rret (Ok (-1, s))
  else
    p <<- (if version_id =? GOLDFISH_TTY_SAVE_VERSION - 1 then qemu_get_be32 else qemu_get_be64) ;;
    l <<- qemu_get_be32 ;;
    r <<- qemu_get_byte ;;
    c <<- qemu_get_byte ;;
    if DATA_SIZE <? c then rret (Fault OutOfBounds)
    else
      bs <<- qemu_get_buffer c ;;
      rret (Ok (0, s <| ptr := p |> <| ptr_len := l |> <| ready := r |> <| data_count := c |>
                     <| data := bs ++ drop (length bs) (data s) |>)).

(** ** The abstract port: a queue of received bytes *)

Definition queue (s : tty_state) : list Z := take (Z.to_nat (data_count s)) (data s).

Record wf (s : tty_state) : Prop := {
  wf_size : length (data s) = Z.to_nat DATA_SIZE;
  wf_count : 0 <= data_count s <= DATA_SIZE;
  wf_len : fits 32 (ptr_len s);
}.

Lemma tty_queue_length s : wf s -> Z.of_nat (length (queue s)) = data_count s.
Proof. intros [Hs Hc _]. unfold queue. rewrite length_take, Hs. lia. Qed.

(** The line as the last drive in a trace leaves it. *)
Fixpoint irq_level (l : bool) (es : list tty_event) : bool :=
  match es with
  | [] => l
  | TtyIrq v :: es' => irq_level (nz v) es'
  | _ :: es' => irq_level l es'
  end.

(** The interrupt is up exactly when the guest wants it and bytes are there. *)
Definition irq_ok (s : tty_state) (l : bool) : Prop := l = nz (ready s) && (0 <? data_count s).

Definition sent (es : list tty_event) : list Z :=
  flat_map (fun e => match e with ChrWrite bs => bs | _ => [] end) es.
Definition delivered (es : list tty_event) : list Z :=
  flat_map (fun e => match e with MemWrite _ bs => bs | _ => [] end) es.

Lemma tty_irq_level_app l es es' : irq_level l (es ++ es') = irq_level (irq_level l es) es'.
Proof. revert l. induction es as [|[] es IH]; intros l; cbn; auto. Qed.

Lemma take_drop_ge {A} (n : nat) (l : list A) : (length l <= n)%nat -> take n l = l.
Proof. apply take_ge. Qed.

(** *** The operations on the queue *)
Lemma tty_receive_spec s buf :
  wf s -> Z.of_nat (length buf) <= tty_can_receive s ->
  exists s', tty_receive buf s =
      Ok (tt, s', if (0 <? data_count s') && nz (ready s) then [TtyIrq 1] else []) /\
    wf s' /\ queue s' = queue s ++ buf /\ ready s' = ready s /\
    data_count s' = data_count s + Z.of_nat (length buf).
Proof.
  intros Hwf Hroom. pose proof Hwf as [Hs Hc Hl]. unfold tty_can_receive, DATA_SIZE in *.
  rewrite (uwrap_id 32) in Hroom by (unfold fits; lia).
  assert (u32 (data_count s + Z.of_nat (length buf)) = data_count s + Z.of_nat (length buf)) as Hu
    by (apply uwrap_id; unfold fits; lia).
  exists (s <| data := take (Z.to_nat (data_count s)) (data s) ++ buf ++
                    drop (Z.to_nat (data_count s) + length buf) (data s) |>
         <| data_count := u32 (data_count s + Z.of_nat (length buf)) |>).
  split; [|split; [constructor|split; [|split]]].
  - unfold tty_receive, DATA_SIZE.
    eapply (bind_ok _ _ _ _ _ []); [reflexivity|]. cbn beta.
    destruct (Z.ltb_spec 128 (data_count (id s) + Z.of_nat (length buf))) as [Hlt|]; [cbn in Hlt; lia|].
    eapply (bind_ok _ _ _ _ _ []); [reflexivity|].
    eapply (bind_ok _ _ _ _ _ []); [reflexivity|].
    eapply (bind_ok _ _ _ _ _ []); [reflexivity|]. unfold when, id. cbn. by case_cond.
  - cbn. rewrite !length_app, length_take, length_drop, Hs. unfold DATA_SIZE. lia.
  - cbn. rewrite Hu. unfold DATA_SIZE. lia.
  - done.
  - unfold queue. cbn. rewrite Hu.
    rewrite Z2Nat.inj_add, Nat2Z.id by lia. rewrite app_assoc, take_app_le.
    + apply take_ge. rewrite length_app, length_take. lia.
    + rewrite length_app, length_take, Hs. lia.
  - done.
  - cbn. by rewrite Hu.
Qed.

Lemma read_buffer_spec tb s :
  wf s -> ptr_len s <= data_count s ->
  let n := Z.to_nat (ptr_len s) in
  exists s', read_buffer tb s =
      Ok (tt, s', MemWrite (uwrap tb (ptr s)) (take n (queue s)) ::
                  (if (data_count s' =? 0) && nz (ready s) then [TtyIrq 0] else [])) /\
    wf s' /\ queue s' = drop n (queue s) /\ ready s' = ready s /\
    data_count s' = data_count s - ptr_len s.
Proof.
  intros Hwf Hle. pose proof Hwf as [Hs Hc Hl]. cbv zeta. unfold DATA_SIZE, fits in *.
  assert (u32 (data_count s - ptr_len s) = data_count s - ptr_len s) as Hu
    by (apply uwrap_id; unfold fits; lia).
  set (moved := let rest := Z.to_nat (data_count s - ptr_len s) in
    take rest (drop (Z.to_nat (ptr_len s)) (data s)) ++ drop rest (data s)).
  assert (length moved = 128%nat) as Hmoved.
  { unfold moved. rewrite length_app, length_take, !length_drop, Hs. lia. }
  set (s1 := if ptr_len s <? data_count s then s <| data := moved |> else s).
  assert (length (data s1) = 128%nat /\
    take (Z.to_nat (data_count s - ptr_len s)) (data s1) = drop (Z.to_nat (ptr_len s)) (queue s)) as [Hlen Hq].
  { unfold s1, queue. destruct (Z.ltb_spec (ptr_len s) (data_count s)); cbn.
    - split; [done|]. unfold moved. rewrite take_app_le by
        (rewrite length_take, length_drop, Hs; lia).
      rewrite take_take, Nat.min_id, skipn_firstn_comm. f_equal. lia.
    - split; [done|]. replace (data_count s - ptr_len s) with 0 by lia. symmetry.
      apply drop_ge. rewrite length_take. lia. }
  exists (s1 <| data_count := data_count s - ptr_len s |>).
  assert (ready s1 = ready s /\ ptr_len s1 = ptr_len s) as [Hr Hpl]
    by (unfold s1; by destruct (ptr_len s <? data_count s)).
  split; [|split; [constructor; cbn; rewrite ?Hpl; unfold DATA_SIZE; (done || lia)|done]].
  unfold read_buffer.
  eapply (bind_ok _ _ _ _ _ []); [reflexivity|]. cbn beta.
  destruct (Z.ltb_spec (data_count (id s)) (ptr_len (id s))) as [Hlt|]; [cbn in Hlt; lia|].
  assert (take (Z.to_nat (ptr_len s)) (queue s) = take (Z.to_nat (ptr_len s)) (data s)) as ->
    by (unfold queue; rewrite take_take; f_equal; lia).
  eapply (bind_ok _ _ _ _ _ [_]); [reflexivity|].
  eapply (bind_ok _ _ _ tt s1 []).
  { unfold s1, id. by destruct (ptr_len s <? data_count s). }
  eapply (bind_ok _ _ _ tt (s1 <| data_count := data_count s - ptr_len s |>) []).
  { unfold modify. rewrite Hpl.
    replace (data_count s1) with (data_count s) by (unfold s1; by destruct (ptr_len s <? data_count s)).
    by rewrite Hu. }
  eapply (bind_ok _ _ _ _ _ []); [reflexivity|]. unfold when, id. cbn. rewrite Hr. by case_cond.
Qed.

(** *** Output to the character device *)

Lemma write_loop_quiet tb mem fuel buf len s s' es :
  write_loop tb mem fuel buf len s = Ok (tt, s', es) ->
  s' = s /\ delivered es = [] /\ forall l, irq_level l es = l.
Proof.
  revert buf len s s' es. induction fuel as [|n IH]; intros buf len s s' es; cbn [write_loop];
    (case_cond; [by intros [= <- <-]|]); [done|].
  unfold bind. set (tw := if len <? TEMP_SIZE then len else TEMP_SIZE).
  destruct (write_loop tb mem n (uwrap tb (buf + tw)) (len - tw) s) as [[[[] s2] es2]|] eqn:E;
    [|by destruct (tw <? 0); cbn; rewrite E].
  apply IH in E as E'. destruct E' as (-> & Hd & Hl).
  destruct (tw <? 0); cbn; rewrite E; intros [= <- <-]; cbn; auto.
Qed.

Lemma write_loop_spec tb mem fuel buf len s :
  0 <= tb -> 0 <= len <= Z.of_nat fuel ->
  exists chunks, write_loop tb mem fuel buf len s = Ok (tt, s, map ChrWrite chunks) /\
    concat chunks = guest_read tb mem buf len /\
    Forall (fun c => 0 < Z.of_nat (length c) <= TEMP_SIZE) chunks.
Proof.
  intros Htb. revert buf len. induction fuel as [|n IH]; intros buf len Hlen; cbn [write_loop].
  - destruct (Z.eqb_spec len 0) as [->|]; [|lia]. by exists [].
  - destruct (Z.eqb_spec len 0) as [->|Hne]; [by exists []|].
    set (tw := if len <? TEMP_SIZE then len else TEMP_SIZE).
    assert (0 < tw <= TEMP_SIZE /\ tw <= len) as [Htw Hle].
    { unfold tw, TEMP_SIZE. destruct (Z.ltb_spec len 64); lia. }
    destruct (IH (uwrap tb (buf + tw)) (len - tw)) as (cs & E & Hc & Hf); [lia|].
    exists (guest_read tb mem buf tw :: cs). split; [|split].
    + destruct (Z.ltb_spec tw 0); [lia|]. unfold bind. cbn [emit]. by rewrite E.
    + cbn [concat]. rewrite Hc, <- guest_read_split by lia. f_equal. lia.
    + constructor; [|done]. rewrite guest_read_length; lia.
Qed.

(** ** The port over time *)

Inductive op :=
| OpReceive (bs : list Z)
| OpWrite (offset value : Z)
| OpRead (offset : Z).
Definition run_op (tb : Z) (mem : Z -> Z) (o : op) : M unit :=
  match o with
  | OpReceive bs => tty_receive bs
  | OpWrite offset value => goldfish_tty_write tb mem offset value
  | OpRead offset => goldfish_tty_read offset ;;; ret tt
  end.
(** The character device asks [tty_can_receive] first. *)
Definition op_ok (s : tty_state) (o : op) : Prop :=
  match o with
  | OpReceive bs => Z.of_nat (length bs) <= tty_can_receive s
  | OpWrite _ value => fits 32 value
  | OpRead _ => True
  end.
Definition received (o : op) : list Z :=
  match o with OpReceive bs => bs | _ => [] end.

(** [reachable c s rcv tr]: from power-on, with the bytes the character
    device handed over and everything the port did. *)
Inductive reachable (tb : Z) (mem : Z -> Z) (c : bool) :
    tty_state -> list Z -> list tty_event -> Prop :=
| reach_init : reachable tb mem c (goldfish_tty_add c) [] []
| reach_step s rcv tr o s' es :
    reachable tb mem c s rcv tr -> op_ok s o -> run_op tb mem o s = Ok (tt, s', es) ->
    reachable tb mem c s' (rcv ++ received o) (tr ++ es).

(** One step on the queue, the bytes handed to the guest and the line. *)
Definition step_ok (s s' : tty_state) (rcv : list Z) (es : list tty_event) : Prop :=
  wf s' /\ queue s ++ rcv = delivered es ++ queue s' /\
  forall l, irq_ok s l -> irq_ok s' (irq_level l es).

Lemma step_ok_quiet s s' es :
  wf s' -> queue s' = queue s -> ready s' = ready s -> data_count s' = data_count s ->
  delivered es = [] -> (forall l, irq_level l es = l) -> step_ok s s' [] es.
Proof.
  intros Hwf Hq Hr Hc Hd Hl. split; [done|]. rewrite Hq, Hd, app_nil_r. split; [done|].
  intros l. unfold irq_ok. by rewrite Hl, Hr, Hc.
Qed.

Lemma cmd_step tb mem value s s' es :
  wf s -> goldfish_tty_cmd tb mem value s = Ok (tt, s', es) -> step_ok s s' [] es.
Proof.
  intros Hwf. pose proof Hwf as [Hs Hc Hl]. unfold goldfish_tty_cmd. unfold bind at 1. cbn beta iota.
  destruct (Z.eqb_spec value TTY_CMD_INT_DISABLE).
  { unfold when, id. cbn. destruct (nz (ready s)) eqn:Er; cbn; intros; simplify_eq;
      [|by apply step_ok_quiet].
    destruct (0 <? data_count s) eqn:E; cbn in *; simplify_eq; split; try done; cbn;
      rewrite app_nil_r; (split; [done|]); intros l ->; cbn; by rewrite ?E, ?andb_false_r. }
  destruct (Z.eqb_spec value TTY_CMD_INT_ENABLE).
  { unfold when, id. cbn. destruct (nz (ready s)) eqn:Er; cbn; intros; simplify_eq;
      [by apply step_ok_quiet|].
    destruct (0 <? data_count s) eqn:E; cbn in *; simplify_eq; split; try done; cbn;
      rewrite app_nil_r; (split; [done|]); intros l ->; unfold irq_ok; cbn; by rewrite ?E, ?Er. }
  destruct (Z.eqb_spec value TTY_CMD_WRITE_BUFFER).
  { unfold write_buffer, when, bind at 1, gets, id. cbn -[write_loop]. destruct (cs s).
    - match goal with |- context [write_loop ?tb ?m ?f ?b ?n s] =>
        destruct (write_loop tb m f b n s) as [[[[] s2] es2]|] eqn:E end; intros; simplify_eq.
      apply write_loop_quiet in E as (-> & ? & ?). by apply step_ok_quiet.
    - cbn. intros [= <- <-]. by apply step_ok_quiet. }
  destruct (Z.eqb_spec value TTY_CMD_READ_BUFFER); [|done].
  unfold id. destruct (Z.ltb_spec (data_count s) (ptr_len s)) as [Hlt|Hge].
  { unfold read_buffer, bind, gets, id. cbn. by destruct (Z.ltb_spec (data_count s) (ptr_len s)); [|lia]. }
  destruct (read_buffer_spec tb s Hwf Hge) as (s1 & E & Hwf1 & Hq & Hr & Hn).
  cbn [gets]. change (id s) with s. rewrite E.
  intros; simplify_eq. split; [done|]. cbn [delivered flat_map]. split.
  - rewrite app_nil_r, Hq. case_cond; cbn; rewrite app_nil_r; symmetry; apply take_drop.
  - intros l ->. unfold irq_ok. rewrite Hr. pose proof (wf_count _ Hwf1). cbn [irq_level].
    destruct (Z.eqb_spec (data_count s') 0) as [E0|E0]; cbn.
    + rewrite E0. destruct (nz (ready s)); done.
    + destruct (Z.ltb_spec 0 (data_count s')); [|lia]. destruct (Z.ltb_spec 0 (data_count s)); [done|].
      pose proof (wf_len _ Hwf) as [? _]. lia.
Qed.

Lemma tty_run_op_step tb mem s o s' es :
  wf s -> op_ok s o -> run_op tb mem o s = Ok (tt, s', es) -> step_ok s s' (received o) es.
Proof.
  intros Hwf Ho. destruct o as [bs|offset value|offset]; cbn [run_op received].
  - destruct (tty_receive_spec s bs Hwf Ho) as (s1 & E & Hwf1 & Hq & Hr & Hn). rewrite E.
    intros; simplify_eq. split; [done|]. split; [by case_cond; rewrite Hq|].
    intros l ->. unfold irq_ok. rewrite Hr, andb_comm.
    destruct ((0 <? data_count s') && nz (ready s)) eqn:E2; cbn [irq_level].
    + by rewrite andb_comm, E2.
    + destruct (nz (ready s)), (Z.ltb_spec 0 (data_count s)), (Z.ltb_spec 0 (data_count s')); cbn in *; (done || lia).
  - unfold goldfish_tty_write. unfold bind at 1. cbn beta iota. unfold gets, id.
    destruct (offset =? TTY_PUT_CHAR).
    { unfold when. destruct (cs s); cbn; intros; simplify_eq; by apply step_ok_quiet. }
    destruct (offset =? TTY_CMD).
    { destruct (goldfish_tty_cmd tb mem value s) as [[[[] s1] es1]|] eqn:E; [|done].
      intros; simplify_eq. by eapply cmd_step. }
    destruct Hwf as [Hs Hc Hl].
    repeat case_cond; cbn; intros; simplify_eq; apply step_ok_quiet; try done; by constructor.
  - unfold goldfish_tty_read. run_prog. repeat case_cond; cbn; intros; simplify_eq;
      by apply step_ok_quiet.
Qed.

(** C31: The receive path.  After any sequence of bytes handed over by the
    character device (never more than the port said it could take) and guest
    register writes that did not abort, the bytes copied to guest memory
    followed by those still in the buffer are exactly the bytes received, in
    order, none lost and none twice; the buffer holds at most 128 of them;
    and the interrupt stands exactly when it is enabled and a byte is
    waiting. *)
Theorem tty_receive_fifo tb mem c s rcv tr :
  reachable tb mem c s rcv tr ->
  rcv = delivered tr ++ queue s /\ Z.of_nat (length (queue s)) <= DATA_SIZE /\
  irq_level false tr = nz (ready s) && (0 <? data_count s).
Proof.
  intros H. enough (wf s /\ rcv = delivered tr ++ queue s /\ irq_ok s (irq_level false tr))
    as (Hwf & ? & ?).
  { split; [done|]. split; [|done]. rewrite tty_queue_length by done. apply Hwf. }
  induction H as [|s rcv tr o s' es _ (Hwf & Hq & Hi) Ho Hr].
  { split; [|done]. split; [reflexivity|unfold DATA_SIZE; cbn; lia|by split]. }
  destruct (tty_run_op_step tb mem s o s' es Hwf Ho Hr) as (Hwf' & Hq' & Hi').
  split; [done|]. split.
  - unfold delivered. rewrite flat_map_app, <- app_assoc.
    fold (delivered tr). fold (delivered es). by rewrite <- Hq', app_assoc, <- Hq.
  - rewrite tty_irq_level_app. by apply Hi'.
Qed.

Definition demo_mem (a : Z) : Z := u8 a.
Lemma tty_receive_fifo_witness :
  exists s tr, reachable 32 demo_mem true s [1; 2; 3] tr /\
    [1; 2; 3] = delivered tr ++ queue s /\ Z.of_nat (length (queue s)) <= DATA_SIZE /\
    irq_level false tr = nz (ready s) && (0 <? data_count s).
Proof.
  set (s0 := goldfish_tty_add true).
  set (s1 := match run_state (run_op 32 demo_mem (OpReceive [1; 2; 3])) s0 with
             | Some s => s | None => s0 end).
  set (s2 := match run_state (run_op 32 demo_mem (OpWrite TTY_CMD TTY_CMD_INT_ENABLE)) s1 with
             | Some s => s | None => s1 end).
  assert (reachable 32 demo_mem true s2 [1; 2; 3] [TtyIrq 1]) as H.
  { apply (reach_step 32 demo_mem true s1 [1; 2; 3] [] (OpWrite TTY_CMD TTY_CMD_INT_ENABLE) s2 [TtyIrq 1]);
      [|by split|reflexivity].
    apply (reach_step 32 demo_mem true s0 [] [] (OpReceive [1; 2; 3]) s1 []);
      [apply reach_init|vm_compute; congruence|reflexivity]. }
  exists s2, [TtyIrq 1]. split; [exact H|].
  exact (tty_receive_fifo 32 demo_mem true s2 [1; 2; 3] [TtyIrq 1] H).
Defined.

(** The transmit path.  TTY_CMD_WRITE_BUFFER on an attached port ends,
    and hands the character device the guest bytes at the data pointer, all
    of them in order and nothing else, in pieces of 1 to 64 bytes (for
    lengths that are not negative as an [int]). *)
Theorem tty_write_buffer_sends tb mem s :
  0 <= tb -> cs s = true -> 0 <= ptr_len s < 2 ^ 31 ->
  exists chunks, goldfish_tty_write tb mem TTY_CMD TTY_CMD_WRITE_BUFFER s =
      Ok (tt, s, map ChrWrite chunks) /\
    concat chunks = guest_read tb mem (uwrap tb (ptr s)) (ptr_len s) /\
    Forall (fun c => 0 < Z.of_nat (length c) <= TEMP_SIZE) chunks.
Proof.
  intros Htb Hc Hl.
  destruct (write_loop_spec tb mem (S (Z.to_nat (ptr_len s))) (uwrap tb (ptr s)) (ptr_len s) s)
    as (chunks & E & ?); [done|lia|].
  exists chunks. split; [|done].
  do 2 (eapply (bind_ok _ _ _ _ _ []); [reflexivity|]; cbn beta iota).
  change (write_buffer tb mem (id s) = Ok (tt, s, map ChrWrite chunks)).
  eapply (bind_ok _ _ _ _ _ []); [reflexivity|]. unfold id.
  rewrite Hc, s32_id by lia. exact E.
Qed.

Definition demo_sending : tty_state := goldfish_tty_add true <| ptr := 7 |> <| ptr_len := 100 |>.
Lemma tty_write_buffer_sends_witness :
  exists chunks, goldfish_tty_write 32 demo_mem TTY_CMD TTY_CMD_WRITE_BUFFER demo_sending =
      Ok (tt, demo_sending, map ChrWrite chunks) /\
    concat chunks = guest_read 32 demo_mem (u32 (ptr demo_sending)) (ptr_len demo_sending) /\
    Forall (fun c => 0 < Z.of_nat (length c) <= TEMP_SIZE) chunks.
Proof.
  apply (tty_write_buffer_sends 32 demo_mem demo_sending); [lia|reflexivity|cbn; lia].
Defined.

(** Snapshots of the port.  A well-formed port is restored from its
    snapshot with the same queue, pointer, length and interrupt enable; but a
    stream whose byte count exceeds the buffer makes the load write past it. *)
Theorem tty_snapshot {F G} `{Sink F, Source G} s s0 :
  wf s -> fits 64 (ptr s) -> fits 8 (ready s) -> wf s0 ->
  (exists bs s1, writes (goldfish_tty_save s : wr F) bs /\
     reads (goldfish_tty_load GOLDFISH_TTY_SAVE_VERSION s0 : rd G (outcome (Z * tty_state))) bs
       (Ok (0, s1)) /\
     queue s1 = queue s /\ ptr s1 = ptr s /\ ptr_len s1 = ptr_len s /\ ready s1 = ready s /\ wf s1) /\
  (forall p l r c, DATA_SIZE < c < 2 ^ 8 ->
     reads (goldfish_tty_load GOLDFISH_TTY_SAVE_VERSION s0 : rd G (outcome (Z * tty_state)))
       (be64 p ++ be32 l ++ [u8 r] ++ [c]) (Fault OutOfBounds)).
Proof.
  intros [Hs Hc Hl] Hp Hr [Hs0 Hc0 Hl0]. unfold goldfish_tty_load.
  change (negb (GOLDFISH_TTY_SAVE_VERSION =? GOLDFISH_TTY_SAVE_VERSION)) with false.
  change (GOLDFISH_TTY_SAVE_VERSION =? GOLDFISH_TTY_SAVE_VERSION - 1) with false. cbn [andb negb].
  split.
  - exists (be64 (ptr s) ++ be32 (ptr_len s) ++ [u8 (ready s)] ++ [u8 (data_count s)] ++ queue s).
    assert (fits 8 (data_count s)) as Hc8 by (unfold fits, DATA_SIZE in *; change (2 ^ 8) with 256; lia).
    exists (s0 <| ptr := ptr s |> <| ptr_len := ptr_len s |> <| ready := ready s |>
               <| data_count := data_count s |>
               <| data := queue s ++ drop (length (queue s)) (data s0) |>).
    split; [|split; [|split; [|split; [done|split; [done|split; [done|]]]]]].
    + unfold goldfish_tty_save.
      apply writes_seq; [apply writes_be64|]. apply writes_seq; [apply writes_be32|].
      apply writes_seq; [apply writes_byte|]. apply writes_seq; [apply writes_byte|].
      apply writes_buffer.
    + eapply reads_bind; [apply reads_be64|]. cbv beta. rewrite (uwrap_id 64) by done.
      eapply reads_bind; [apply reads_be32|]. cbv beta. rewrite (uwrap_id 32) by done.
      eapply reads_bind; [apply reads_byte|]. cbv beta. rewrite (uwrap_id 8) by done.
      eapply reads_bind; [apply reads_byte|]. cbv beta. rewrite (uwrap_id 8) by done.
      destruct (Z.ltb_spec DATA_SIZE (data_count s)); [lia|].
      eapply reads_last; [apply reads_buffer; by rewrite tty_queue_length|]. apply reads_ret.
    + unfold queue at 1. cbn. rewrite take_app_le.
      * apply take_ge. unfold queue. rewrite length_take. lia.
      * unfold queue. rewrite length_take, Hs. unfold DATA_SIZE in *. lia.
    + constructor; [|done|done]. cbn. unfold queue.
      rewrite length_app, length_drop, length_take, Hs, Hs0. unfold DATA_SIZE in *. lia.
  - intros p l r c Hcs.
    eapply reads_bind; [apply reads_be64|]. eapply reads_bind; [apply reads_be32|].
    eapply reads_bind; [apply reads_byte|]. eapply reads_last; [apply reads_byte|]. cbv beta.
    destruct (Z.ltb_spec DATA_SIZE c); [apply reads_ret|lia].
Qed.

Lemma goldfish_tty_add_wf c : wf (goldfish_tty_add c).
Proof. split; [reflexivity|unfold DATA_SIZE; cbn; lia|by split]. Qed.
Lemma tty_snapshot_witness :
  (exists bs s1, writes (goldfish_tty_save (goldfish_tty_add true) : wr (list Z)) bs /\
     reads (goldfish_tty_load GOLDFISH_TTY_SAVE_VERSION (goldfish_tty_add true)
       : rd (list Z) (outcome (Z * tty_state))) bs (Ok (0, s1)) /\
     queue s1 = [] /\ ptr s1 = 0 /\ ptr_len s1 = 0 /\ ready s1 = 0 /\ wf s1) /\
  (forall p l r c, DATA_SIZE < c < 2 ^ 8 ->
     reads (goldfish_tty_load GOLDFISH_TTY_SAVE_VERSION (goldfish_tty_add true)
       : rd (list Z) (outcome (Z * tty_state)))
       (be64 p ++ be32 l ++ [u8 r] ++ [c]) (Fault OutOfBounds)).
Proof.
  apply (tty_snapshot (goldfish_tty_add true) (goldfish_tty_add true));
    [apply goldfish_tty_add_wf|by split|by split|apply goldfish_tty_add_wf].
Defined.

End GoldfishTty.
