(* ===== verification/Events.v ===== *)
(** The Goldfish input device (hw/android/goldfish/events_device.c): the ring
    of input events the guest driver drains word by word, the start-up states
    that keep the interrupt down until the driver is ready, and the capability
    bits of the event pages.

    The window system's calls (key, mouse and generic events) and the guest's
    register accesses are the operations; interrupts and calls to the
    multi-touch screen are the effects. *)
From Stdlib Require Import ZArith Lia Bool.
From stdpp Require Import base numbers list.
From S2P Require Import Prelude Stream.
Local Open Scope Z_scope.
Local Open Scope prog_scope.
Local Open Scope stream_scope.

Module EventsDevice.

Definition MAX_EVENTS : Z := 256 * 4.
Definition REG_READ : Z := 0x00.
Definition REG_SET_PAGE : Z := 0x00.
Definition REG_LEN : Z := 0x04.
Definition REG_DATA : Z := 0x08.
Definition EV_SYN : Z := 0x00.
Definition EV_KEY : Z := 0x01.
Definition EV_REL : Z := 0x02.
Definition EV_ABS : Z := 0x03.
Definition EV_MAX : Z := 0x1f.
Definition ABS_X : Z := 0x00.
Definition ABS_Y : Z := 0x01.
Definition ABS_Z : Z := 0x02.
Definition REL_X : Z := 0x00.
Definition REL_Y : Z := 0x01.
Definition BTN_TOUCH : Z := 0x14a.
Definition PAGE_NAME : Z := 0x00000.
Definition PAGE_EVBITS : Z := 0x10000.
Definition PAGE_ABSDATA : Z := Z.lor 0x20000 EV_ABS.
Definition STATE_INIT : Z := 0.
Definition STATE_BUFFERED : Z := 1.
Definition STATE_LIVE : Z := 2.
Definition EVENTS_STATE_SAVE_VERSION : Z := 2.

Record events_state := mkEvents {
  pending : Z;
  page : Z;
  events : list Z;
  first : Z;
  last : Z;
  state : Z;
  name : list Z;  (* without the terminating 0 *)
  ev_bits : list (list Z);  (* the len bytes of each type *)
  abs_info : list Z;
}.
#[export] Instance events_state_eta : Settable events_state := fun s =>
  mkEvents (pending s) (page s) (events s) (first s) (last s) (state s) (name s) (ev_bits s)
    (abs_info s).

Inductive ev_event :=
| IrqRaise
| IrqLower
| MultiTouch (slot x y pressure : Z).

Definition M := prog events_state ev_event.

(** [s->last = (s->last + 1) & (MAX_EVENTS-1)] after the store at [last]. *)
Definition put_word (v : Z) : M unit :=
  s <- gets id ;;
  if Z.of_nat (length (events s)) <=? last s then abort OutOfBounds
  else modify (fun s => s <| events ::= <[Z.to_nat (last s) := u32 v]> |>
                         <| last := Z.land (last s + 1) (MAX_EVENTS - 1) |>).

(** The words in the ring as the code counts them, before wrapping [enqueued]
    into range. *)
Definition enqueued (s : events_state) : Z :=
  let n := s32 (u32 (last s - first s)) in if n <? 0 then n + MAX_EVENTS else n.

Definition enqueue_event (type code value : Z) : M unit :=
  s <- gets id ;;
  if MAX_EVENTS <? enqueued s + 3 then ret tt
  else
    when (first s =? last s)
      (if state s =? STATE_LIVE then emit IrqRaise
       else modify (fun s => s <| state := STATE_BUFFERED |>)) ;;;
    put_word type ;;; put_word code ;;; put_word value.

Section target.
(** Whether the target has edge-triggered interrupts (TARGET_I386). *)
Context (target_i386 : bool).

Definition dequeue_event : M Z :=
  s <- gets id ;;
  if first s =? last s then ret 0
  else
    n <- of_option OutOfBounds (events s !! Z.to_nat (first s)) ;;
    modify (fun s => s <| first := Z.land (first s + 1) (MAX_EVENTS - 1) |>) ;;;
    s <- gets id ;;
    (if first s =? last s then emit IrqLower
     else when (target_i386 &&
                ((Z.land (u32 (first s + 2)) (MAX_EVENTS - 1) <? last s) ||
                 (last s <? Z.land (first s) (MAX_EVENTS - 1))))
            (emit IrqLower ;;; emit IrqRaise)) ;;;
    ret n.

(** An event page: its length, and the byte or word at an offset. *)
Definition is_evbits (p : Z) : bool := (PAGE_EVBITS <=? p) && (p <=? PAGE_EVBITS + EV_MAX).

Definition bits_of (s : events_state) (type : Z) : list Z := nth (Z.to_nat type) (ev_bits s) [].

Definition get_page_len (s : events_state) : Z :=
  if page s =? PAGE_NAME then Z.of_nat (length (name s))
  else if is_evbits (page s) then Z.of_nat (length (bits_of s (page s - PAGE_EVBITS)))
  else if page s =? PAGE_ABSDATA then Z.of_nat (length (abs_info s)) * 4
  else 0.

(** The name is read with its terminating 0. *)
Definition get_page_data (s : events_state) (offset : Z) : outcome Z :=
  let at_ (l : list Z) i :=
    match l !! Z.to_nat i with Some v => Ok v | None => Fault OutOfBounds end in
  if get_page_len s <? offset then Ok 0
  else if page s =? PAGE_NAME then at_ (name s ++ [0]) offset
  else if is_evbits (page s) then at_ (bits_of s (page s - PAGE_EVBITS)) offset
  else if page s =? PAGE_ABSDATA then at_ (abs_info s) (Z.quot offset 4)
  else Ok 0.

Definition events_read (off : Z) : M Z :=
  let offset := s32 off in
  s <- gets id ;;
  when ((offset =? REG_LEN) && (page s =? PAGE_ABSDATA))
    (when (state s =? STATE_BUFFERED) (emit IrqRaise) ;;;
     modify (fun s => s <| state := STATE_LIVE |>)) ;;;
  if offset =? REG_READ then dequeue_event
  else if offset =? REG_LEN then gets (fun s => u32 (get_page_len s))
  else if REG_DATA <=? offset then
    s <- gets id ;; of_outcome (get_page_data s (offset - REG_DATA))
  else ret 0.
End target.

Definition events_write (off val : Z) : M unit :=
  when (s32 off =? REG_SET_PAGE) (modify (fun s => s <| page := s32 val |>)).

Definition events_put_keycode (keycode : Z) : M unit :=
  enqueue_event EV_KEY (Z.land keycode 0x3ff) (if nz (Z.land keycode 0x400) then 1 else 0).

(** The two booleans are the screen type of the hardware configuration. *)
Definition events_put_mouse (multi_touch touch : bool) (dx dy dz buttons_state : Z) : M unit :=
  if dz =? 0 then
    if multi_touch then
      emit (MultiTouch (if nz (Z.land buttons_state 2) then 1 else 0) dx dy
             (if nz (Z.land buttons_state 1) then 0x81 else 0))
    else when touch
      (enqueue_event EV_ABS ABS_X dx ;;; enqueue_event EV_ABS ABS_Y dy ;;;
       enqueue_event EV_ABS ABS_Z dz ;;;
       enqueue_event EV_KEY BTN_TOUCH (Z.land buttons_state 1) ;;;
       enqueue_event EV_SYN 0 0)
  else
    enqueue_event EV_REL REL_X dx ;;; enqueue_event EV_REL REL_Y dy ;;;
    enqueue_event EV_SYN 0 0.

Definition events_put_generic (type code value : Z) : M unit := enqueue_event type code value.

(** ** Capability bits *)

(** [while (++il < ih) bits[il] = 0xff]. *)
Fixpoint fill_ff (n : nat) (i : nat) (bits : list Z) : list Z :=
  match n with O => bits | S n => fill_ff n (S i) (<[i := 0xff]> bits) end.

(** The array of one type after [events_set_bits(s, type, bitl, bith)]. *)
Definition set_bits (bits : list Z) (bitl bith : Z) : list Z :=
  let il := bitl / 8 in
  let ih := bith / 8 in
  let bits := if Z.of_nat (length bits) <=? ih
              then bits ++ replicate (Z.to_nat (ih + 1) - length bits) 0 else bits in
  let maskl := u8 (Z.shiftl 0xff (Z.land bitl 7)) in
  let maskh := u8 (Z.shiftr 0xff (7 - Z.land bith 7)) in
  if ih <=? il then
    alter (fun b => u8 (Z.lor b (Z.land maskh maskl))) (Z.to_nat ih) bits
  else
    let bits := alter (fun b => u8 (Z.lor b maskl)) (Z.to_nat il) bits in
    let bits := fill_ff (Z.to_nat (ih - il - 1)) (Z.to_nat (il + 1)) bits in
    alter (fun b => u8 (Z.lor b maskh)) (Z.to_nat ih) bits.

Definition clr_bit (bits : list Z) (bit : Z) : list Z :=
  let ii := bit / 8 in
  if ii <? Z.of_nat (length bits)
  then alter (fun b => Z.land b (Z.lnot (u8 (Z.shiftl 1 (Z.land bit 7))))) (Z.to_nat ii) bits
  else bits.

Definition events_set_bits (type bitl bith : Z) (s : events_state) : events_state :=
  s <| ev_bits ::= alter (fun bits => set_bits bits bitl bith) (Z.to_nat type) |>.
Definition events_set_bit (type bit : Z) (s : events_state) : events_state :=
  events_set_bits type bit bit s.
Definition events_clr_bit (type bit : Z) (s : events_state) : events_state :=
  s <| ev_bits ::= alter (fun bits => clr_bit bits bit) (Z.to_nat type) |>.

(** ** Snapshots.  The words go out in the host's byte order; [enc] and
    [dec] are that order's two directions. *)
Section snapshot.
Context (enc : list Z -> list Z) (dec : list Z -> list Z).

Definition events_state_fields : list (qfield events_state) :=
  [QField_Int32 pending (fun v s => s <| pending := s32 v |>);
   QField_Int32 page (fun v s => s <| page := s32 v |>);
   QField_Buffer (MAX_EVENTS * 4) (fun s => enc (events s)) (fun bs s => s <| events := dec bs |>);
   QField_Int32 first (fun v s => s <| first := v |>);
   QField_Int32 last (fun v s => s <| last := v |>);
   QField_Int32 state (fun v s => s <| state := v |>)].

Definition events_state_save {F} `{Sink F} (s : events_state) : wr F :=
  qemu_put_struct events_state_fields s.
Definition events_state_load {F} `{Source F} (version_id : Z) (s : events_state)
  : rd F (Z * events_state) :=
  if negb (version_id =? EVENTS_STATE_SAVE_VERSION) then rret (-1, s)
  else qemu_get_struct events_state_fields s.
End snapshot.

(** ** The ring as a queue *)

Definition count (s : events_state) : Z := (last s - first s) mod MAX_EVENTS.
Definition word (s : events_state) (i : Z) : Z :=
  nth (Z.to_nat ((first s + i) mod MAX_EVENTS)) (events s) 0.
Definition queue (s : events_state) : list Z := map (word s) (seqZ 0 (count s)).

Record wf (s : events_state) : Prop := {
  wf_events : length (events s) = Z.to_nat MAX_EVENTS;
  wf_first : 0 <= first s < MAX_EVENTS;
  wf_last : 0 <= last s < MAX_EVENTS;
}.

Lemma land_mask x : Z.land x (MAX_EVENTS - 1) = x mod MAX_EVENTS.
Proof. change (MAX_EVENTS - 1) with (Z.ones 10). by rewrite Z.land_ones. Qed.

Lemma events_queue_length s : Z.of_nat (length (queue s)) = count s.
Proof.
  unfold queue. rewrite length_map, length_seqZ.
  pose proof (Z.mod_pos_bound (last s - first s) MAX_EVENTS ltac:(done)). unfold count. lia.
Qed.

Lemma enqueued_count s : wf s -> enqueued s = count s.
Proof.
  intros [_ Hf Hl]. unfold enqueued, count, MAX_EVENTS in *.
  rewrite swrap_uwrap, s32_id by lia.
  destruct (Z.ltb_spec (last s - first s) 0).
  - rewrite <- (Z_mod_plus_full (last s - first s) 1), Z.mod_small by lia. lia.
  - by rewrite Z.mod_small by lia.
Qed.

Lemma count_zero s : wf s -> (first s =? last s) = (count s =? 0).
Proof.
  intros Hwf. rewrite <- enqueued_count by done. destruct Hwf as [_ Hf Hl].
  unfold enqueued, MAX_EVENTS in *. rewrite swrap_uwrap, s32_id by lia.
  destruct (Z.eqb_spec (first s) (last s)), (Z.ltb_spec (last s - first s) 0);
    symmetry; rewrite ?Z.eqb_eq, ?Z.eqb_neq; lia.
Qed.

(** Storing at [last] appends to the queue, as long as the ring is not full. *)
Definition pushed (v : Z) (s : events_state) : events_state :=
  s <| events ::= <[Z.to_nat (last s) := u32 v]> |>
    <| last := Z.land (last s + 1) (MAX_EVENTS - 1) |>.

Lemma put_word_eq v s : wf s -> put_word v s = Ok (tt, pushed v s, []).
Proof.
  intros [He _ Hl]. unfold put_word, bind, gets, id. rewrite He.
  destruct (Z.leb_spec (Z.of_nat (Z.to_nat MAX_EVENTS)) (last s)); [|done].
  unfold MAX_EVENTS in *. lia.
Qed.

Lemma pushed_wf v s : wf s -> wf (pushed v s).
Proof.
  intros [He Hf Hl]. constructor; cbn -[Z.sub MAX_EVENTS]; [by rewrite length_insert|done|].
  rewrite land_mask. by apply Z.mod_pos_bound.
Qed.

Lemma last_is_slot s : wf s -> last s = (first s + count s) mod MAX_EVENTS.
Proof.
  intros [_ Hf Hl]. unfold count. rewrite Zplus_mod_idemp_r.
  replace (first s + (last s - first s)) with (last s) by lia. symmetry. by apply Z.mod_small.
Qed.

Lemma pushed_count v s :
  wf s -> count (pushed v s) = (count s + 1) mod MAX_EVENTS.
Proof.
  intros Hwf. unfold count at 1. cbn -[Z.sub MAX_EVENTS]. rewrite land_mask.
  rewrite Zminus_mod_idemp_l. unfold count. rewrite Zplus_mod_idemp_l. f_equal. lia.
Qed.

Lemma pushed_queue v s :
  wf s -> count s < MAX_EVENTS - 1 -> queue (pushed v s) = queue s ++ [u32 v].
Proof.
  intros Hwf Hc. pose proof (Z.mod_pos_bound (last s - first s) MAX_EVENTS ltac:(done)) as Hp.
  fold (count s) in Hp.
  unfold queue. rewrite pushed_count by done. rewrite Z.mod_small by lia.
  rewrite seqZ_app, map_app by lia. pose proof Hwf as [He Hf Hl].
  pose proof (last_is_slot s Hwf) as Hslot. f_equal.
  - apply list_fmap_ext. intros k x Hx. apply lookup_seqZ in Hx as [-> Hk].
    unfold word. cbn -[Z.sub MAX_EVENTS].
    rewrite !nth_lookup, list_lookup_insert_ne; [done|]. intros Heq.
    assert (last s = (first s + (0 + Z.of_nat k)) mod MAX_EVENTS) as Hx
      by (apply Z2Nat.inj; [lia|by apply Z.mod_pos_bound|exact Heq]).
    rewrite Hslot in Hx. apply (f_equal (fun y => (y - first s) mod MAX_EVENTS)) in Hx.
    rewrite !Zminus_mod_idemp_l in Hx.
    replace (first s + count s - first s) with (count s) in Hx by lia.
    replace (first s + (0 + Z.of_nat k) - first s) with (Z.of_nat k) in Hx by lia.
    rewrite !Z.mod_small in Hx by lia. lia.
  - replace (seqZ (0 + count s) 1) with [count s]
      by (unfold seqZ; change (Z.to_nat 1) with 1%nat; cbn; f_equal; lia).
    cbn [map]. f_equal. unfold word. cbn -[Z.sub MAX_EVENTS].
    rewrite <- Hslot, nth_lookup, list_lookup_insert_eq; [done|]. rewrite He. lia.
Qed.

(** Taking the word at [first] off the queue. *)
Definition popped (s : events_state) : events_state :=
  s <| first := Z.land (first s + 1) (MAX_EVENTS - 1) |>.

Lemma popped_wf s : wf s -> wf (popped s).
Proof.
  intros [He Hf Hl]. constructor; cbn -[Z.sub MAX_EVENTS]; [done| |done].
  rewrite land_mask. by apply Z.mod_pos_bound.
Qed.

Lemma count_range s : 0 <= count s < MAX_EVENTS.
Proof. by apply Z.mod_pos_bound. Qed.

Lemma popped_count s : wf s -> 0 < count s -> count (popped s) = count s - 1.
Proof.
  intros Hwf Hc. pose proof (count_range s). unfold count at 1. cbn -[Z.sub MAX_EVENTS].
  rewrite land_mask, Zminus_mod_idemp_r. unfold count in *.
  replace (last s - (first s + 1)) with ((last s - first s) - 1) by lia.
  rewrite <- Zminus_mod_idemp_l. apply Z.mod_small. lia.
Qed.

Lemma popped_queue s :
  wf s -> 0 < count s -> queue s = word s 0 :: queue (popped s).
Proof.
  intros Hwf Hc. unfold queue. rewrite popped_count by done.
  replace (seqZ 0 (count s)) with (0 :: seqZ 1 (count s - 1)) by (by rewrite (seqZ_cons 0 (count s)) by lia).
  cbn [map]. f_equal. change (seqZ 1) with (seqZ (1 + 0)). rewrite <- (fmap_add_seqZ 1 0 (count s - 1)).
  change (map ?f ?l) with (f <$> l). rewrite <- list_fmap_compose. apply list_fmap_ext.
  intros k x _. unfold word. cbn -[Z.sub Z.add MAX_EVENTS]. f_equal. f_equal.
  rewrite land_mask, Zplus_mod_idemp_l. f_equal. lia.
Qed.

(** The interrupt line as a trace leaves it. *)
Fixpoint irq_level (l : bool) (es : list ev_event) : bool :=
  match es with
  | [] => l
  | IrqRaise :: es' => irq_level true es'
  | IrqLower :: es' => irq_level false es'
  | MultiTouch _ _ _ _ :: es' => irq_level l es'
  end.
Lemma events_irq_level_app l es es' : irq_level l (es ++ es') = irq_level (irq_level l es) es'.
Proof. revert l. induction es as [|[] es IH]; intros l; cbn; auto. Qed.

Lemma enqueue_event_eq s type code value :
  wf s ->
  enqueue_event type code value s =
    if MAX_EVENTS <? count s + 3 then Ok (tt, s, [])
    else
      let s0 := if (count s =? 0) && negb (state s =? STATE_LIVE)
                then s <| state := STATE_BUFFERED |> else s in
      Ok (tt, pushed value (pushed code (pushed type s0)),
          if (count s =? 0) && (state s =? STATE_LIVE) then [IrqRaise] else []).
Proof.
  intros Hwf. unfold enqueue_event. unfold bind at 1. cbn beta iota delta [gets].
  change (id s) with s. rewrite enqueued_count, count_zero by done.
  destruct (MAX_EVENTS <? count s + 3); [done|]. cbv zeta.
  set (s0 := if (count s =? 0) && negb (state s =? STATE_LIVE)
             then s <| state := STATE_BUFFERED |> else s).
  assert (wf s0) as Hwf0 by (unfold s0; case_cond; [by destruct Hwf; constructor|done]).
  assert (when (count s =? 0) (if state s =? STATE_LIVE then emit IrqRaise
      else modify (fun s => s <| state := STATE_BUFFERED |>)) s =
    Ok (tt, s0, if (count s =? 0) && (state s =? STATE_LIVE) then [IrqRaise] else [])) as E0.
  { unfold s0, when. by destruct (count s =? 0), (state s =? STATE_LIVE). }
  unfold bind at 1. rewrite E0.
  unfold bind at 1. rewrite put_word_eq by done.
  unfold bind at 1. rewrite put_word_eq by by apply pushed_wf.
  rewrite put_word_eq by by apply pushed_wf, pushed_wf. cbn [app]. by rewrite app_nil_r.
Qed.

Lemma dequeue_event_eq i386 s :
  wf s -> 0 < count s ->
  exists es, dequeue_event i386 s = Ok (word s 0, popped s, es) /\
    (count s = 1 -> es = [IrqLower]) /\ (1 < count s -> es = [] \/ es = [IrqLower; IrqRaise]).
Proof.
  intros Hwf Hc. pose proof Hwf as [He Hf Hl]. unfold dequeue_event.
  assert ((first s =? last s) = false) as E0 by (rewrite count_zero by done; lia).
  assert (events s !! Z.to_nat (first s) = Some (word s 0)) as Ew.
  { unfold word. rewrite Z.add_0_r, Z.mod_small by done.
    destruct (lookup_lt_is_Some_2 (events s) (Z.to_nat (first s))) as [v Hv]; [rewrite He; lia|].
    by rewrite Hv, (nth_lookup_Some _ _ _ _ Hv). }
  unfold bind at 1. cbn beta iota delta [gets]. change (id s) with s. rewrite E0.
  unfold bind at 1. rewrite Ew. cbn [of_option ret].
  unfold bind at 1. cbn [modify]. fold (popped s).
  unfold bind at 1. cbn beta iota delta [gets]. change (id (popped s)) with (popped s).
  pose proof (popped_count s Hwf Hc) as Hpc.
  rewrite count_zero, Hpc by by apply popped_wf.
  destruct (Z.eqb_spec (count s - 1) 0) as [E1|E1].
  - eexists. split; [reflexivity|]. split; [done|lia].
  - unfold when. destruct (i386 && _); (eexists; split; [reflexivity|]); split; (lia || by auto).
Qed.

(** ** The device over time *)

Inductive op :=
| OpEnqueue (type code value : Z)
| OpRead (off : Z)
| OpWrite (off val : Z).

Definition run_op (i386 : bool) (o : op) : M Z :=
  match o with
  | OpEnqueue type code value => enqueue_event type code value ;;; ret 0
  | OpRead off => events_read i386 off
  | OpWrite off val => events_write off val ;;; ret 0
  end.

(** The words an enqueue adds, and those a read hands out. *)
Definition accepted (s : events_state) (o : op) : list Z :=
  match o with
  | OpEnqueue type code value =>
      if count s + 3 <=? MAX_EVENTS then [u32 type; u32 code; u32 value] else []
  | _ => []
  end.
Definition handed_out (s : events_state) (o : op) (v : Z) : list Z :=
  match o with
  | OpRead off => if (s32 off =? REG_READ) && (0 <? count s) then [v] else []
  | _ => []
  end.

(** Offsets are those of the register window; no event arrives while the
    guest is two words into one with the ring that full. *)
Definition op_ok (s : events_state) (o : op) : Prop :=
  match o with
  | OpEnqueue _ _ _ => count s <> MAX_EVENTS - 3
  | OpRead off => 0 <= off < 2 ^ 31
  | OpWrite off _ => 0 <= off < 2 ^ 31
  end.

Definition events_dev_init (nm : list Z) (bits : list (list Z)) (abs : list Z) : events_state :=
  mkEvents 0 0 (replicate (Z.to_nat MAX_EVENTS) 0) 0 0 STATE_INIT nm bits abs.

Inductive reachable (i386 : bool) (init : events_state) :
    events_state -> list Z -> list Z -> list ev_event -> Prop :=
| reach_init : reachable i386 init init [] [] []
| reach_step s acc out tr o v s' es :
    reachable i386 init s acc out tr -> op_ok s o -> run_op i386 o s = Ok (v, s', es) ->
    reachable i386 init s' (acc ++ accepted s o) (out ++ handed_out s o v) (tr ++ es).

(** What every step maintains: nothing lost, and a live driver is woken. *)
Definition awake (s : events_state) (l : bool) : Prop :=
  (state s = STATE_LIVE -> 0 < count s -> l = true) /\
  (state s = STATE_INIT -> count s = 0) /\ 0 <= state s <= 2.

Lemma set_state_wf s v : wf s -> wf (s <| state := v |>).
Proof. by intros []. Qed.

Lemma enqueue_step s type code value s' es l :
  wf s -> awake s l -> count s <> MAX_EVENTS - 3 ->
  enqueue_event type code value s = Ok (tt, s', es) ->
  wf s' /\ queue s ++ accepted s (OpEnqueue type code value) = queue s' /\ awake s' (irq_level l es).
Proof.
  intros Hwf (Hlive & Hinit & Hst) Hne. rewrite enqueue_event_eq by done. cbn [accepted].
  pose proof (count_range s) as Hc. unfold MAX_EVENTS in Hc, Hne.
  destruct (Z.ltb_spec MAX_EVENTS (count s + 3)) as [Hfull|Hroom]; cbv zeta; intros [= <- <-].
  { destruct (Z.leb_spec (count s + 3) MAX_EVENTS); [lia|]. by rewrite app_nil_r. }
  destruct (Z.leb_spec (count s + 3) MAX_EVENTS); [|lia]. unfold MAX_EVENTS in Hroom.
  set (s0 := if (count s =? 0) && negb (state s =? STATE_LIVE)
             then s <| state := STATE_BUFFERED |> else s).
  assert (wf s0 /\ queue s0 = queue s /\ count s0 = count s) as (Hwf0 & Hq0 & Hc0).
  { unfold s0. case_cond; [|done]. split; [by apply set_state_wf|done]. }
  pose proof (pushed_wf type s0 Hwf0) as Hwf1. pose proof (pushed_wf code _ Hwf1) as Hwf2.
  pose proof (pushed_wf value _ Hwf2) as Hwf3.
  assert (count (pushed type s0) = count s + 1) as Hc1
    by (rewrite pushed_count, Hc0 by done; apply Z.mod_small; unfold MAX_EVENTS; lia).
  assert (count (pushed code (pushed type s0)) = count s + 2) as Hc2
    by (rewrite pushed_count, Hc1 by done; rewrite Z.mod_small; unfold MAX_EVENTS; lia).
  assert (count (pushed value (pushed code (pushed type s0))) = count s + 3) as Hc3
    by (rewrite pushed_count, Hc2 by done; rewrite Z.mod_small; unfold MAX_EVENTS; lia).
  split; [done|]. split.
  { rewrite !pushed_queue by (done || unfold MAX_EVENTS; lia). rewrite Hq0, <- !app_assoc. done. }
  assert (state (pushed value (pushed code (pushed type s0))) =
    if (count s =? 0) && negb (state s =? STATE_LIVE) then STATE_BUFFERED else state s) as Es
    by (unfold s0; by case_cond).
  unfold awake. rewrite Es, Hc3.
  destruct (Z.eqb_spec (count s) 0) as [E0|E0], (Z.eqb_spec (state s) STATE_LIVE) as [E1|E1];
    cbn [andb negb irq_level]; unfold STATE_LIVE, STATE_BUFFERED, STATE_INIT in *.
  - split; [done|]. split; [lia|lia].
  - split; [lia|]. split; [lia|lia].
  - split; [intros _ _; apply Hlive; lia|]. split; [lia|lia].
  - split; [lia|]. split; [intros; lia|lia].
Qed.

Lemma dequeue_step i386 s v s' es l :
  wf s -> awake s l -> dequeue_event i386 s = Ok (v, s', es) ->
  wf s' /\ queue s = (if 0 <? count s then [v] else []) ++ queue s' /\ awake s' (irq_level l es).
Proof.
  intros Hwf (Hlive & Hinit & Hst). pose proof (count_range s) as Hc.
  destruct (Z.ltb_spec 0 (count s)) as [Hpos|Hzero].
  - destruct (dequeue_event_eq i386 s Hwf Hpos) as (es' & -> & H1 & H2). intros [= <- <- <-].
    split; [by apply popped_wf|]. split; [by apply popped_queue|].
    unfold awake. rewrite popped_count by done. change (state (popped s)) with (state s).
    split; [|split; [intros Hi; rewrite (Hinit Hi) in Hpos; lia|done]].
    intros Hs Hgt. destruct (H2 ltac:(lia)) as [-> | ->]; [|done]. cbn. by apply Hlive.
  - unfold dequeue_event, bind at 1, gets. change (id s) with s.
    assert ((first s =? last s) = true) as -> by (rewrite count_zero by done; lia).
    intros [= <- <- <-]. split; [done|]. split; [done|]. by split.
Qed.

Lemma events_run_op_step i386 s o v s' es l :
  wf s -> awake s l -> op_ok s o -> run_op i386 o s = Ok (v, s', es) ->
  wf s' /\ queue s ++ accepted s o = handed_out s o v ++ queue s' /\ awake s' (irq_level l es).
Proof.
  intros Hwf Ha Ho. destruct o as [type code value|off|off val]; cbn [run_op handed_out].
  - unfold bind. destruct (enqueue_event type code value s) as [[[[] s1] es1]|] eqn:E; [|done].
    intros [= <- <- <-]. rewrite app_nil_r. by apply enqueue_step.
  - cbn [op_ok] in Ho. unfold events_read. rewrite s32_id by lia. cbn [accepted]. rewrite app_nil_r.
    unfold bind at 1. cbn beta iota delta [gets]. change (id s) with s.
    destruct (Z.eqb_spec off REG_READ) as [->|Hne].
    { change (REG_READ =? REG_LEN) with false. cbn [andb when]. unfold bind at 1. cbn [ret].
      change (REG_READ =? REG_READ) with true. cbn iota.
      destruct (dequeue_event i386 s) as [[[v' s1] es1]|] eqn:E; [|done].
      cbn. intros [= <- <- <-]. destruct (dequeue_step _ _ _ _ _ l Hwf Ha E) as (? & -> & ?). done. }
    cbn [andb app]. pose proof Ha as (Hlive & Hinit & Hst).
    destruct (Z.eqb_spec off REG_LEN) as [->|Hnl]; cbn [andb].
    + destruct (page s =? PAGE_ABSDATA); cbn -[get_page_len].
      * destruct (Z.eqb_spec (state s) STATE_BUFFERED) as [Eb|Eb]; cbn -[get_page_len];
          intros [= <- <- <-]; (split; [by apply set_state_wf|]); (split; [done|]);
          unfold awake; cbn -[Z.sub count]; (split; [|split; [discriminate|unfold STATE_LIVE; lia]]);
          intros _ Hc; [done|].
        change (0 < count s) in Hc. apply Hlive; [|done].
        unfold STATE_LIVE, STATE_BUFFERED, STATE_INIT in *.
        destruct (Z.eq_dec (state s) 0) as [E|]; [specialize (Hinit E)|]; lia.
      * intros [= <- <- <-]. split; [done|]. by split.
    + cbn -[get_page_data]. destruct (REG_DATA <=? off); cbn -[get_page_data].
      * unfold id. destruct (get_page_data s (off - REG_DATA)); cbn; [|done].
        intros [= <- <- <-]. split; [done|]. by split.
      * intros [= <- <- <-]. split; [done|]. by split.
  - unfold events_write, bind, when. cbn [accepted]. rewrite app_nil_r.
    destruct (s32 off =? REG_SET_PAGE); cbn; intros [= <- <- <-]; split; try done; by destruct Hwf.
Qed.

(** C30: The input queue.  After any sequence of events from the window system
    and register accesses by the guest, the words the guest has read
    followed by the words in the ring are exactly those of the accepted
    events, in order (an event is refused whole, and only when the ring has
    no room for three words); and once the driver has said it is ready, the
    interrupt is up whenever a word is waiting.  The events must not arrive
    at the one fill level that [events_ring_overflow] is about. *)
Theorem events_fifo i386 nm bits abs s acc out tr :
  reachable i386 (events_dev_init nm bits abs) s acc out tr ->
  acc = out ++ queue s /\ Z.of_nat (length (queue s)) < MAX_EVENTS /\
  (state s = STATE_LIVE -> queue s <> [] -> irq_level false tr = true).
Proof.
  intros H. enough (wf s /\ acc = out ++ queue s /\ awake s (irq_level false tr)) as (Hwf & Hq & Ha & _).
  { split; [done|]. rewrite events_queue_length. split; [apply count_range|]. intros Hl Hne. apply Ha; [done|].
    pose proof (events_queue_length s). destruct (queue s); [done|]. cbn in *. lia. }
  induction H as [|s acc out tr o v s' es _ (Hwf & Hq & Ha) Ho Hr].
  { split; [|done]. by constructor. }
  destruct (events_run_op_step _ _ _ _ _ _ _ Hwf Ha Ho Hr) as (Hwf' & Hq' & Ha').
  split; [done|]. split; [|by rewrite events_irq_level_app].
  by rewrite <- app_assoc, <- Hq', app_assoc, <- Hq.
Qed.

Definition demo_init : events_state := events_dev_init [107] [] [].
Definition demo_put : events_state :=
  match run_state (run_op false (OpEnqueue EV_KEY 30 1)) demo_init with Some s => s | None => demo_init end.
Definition demo_got : events_state :=
  match run_state (run_op false (OpRead REG_READ)) demo_put with Some s => s | None => demo_put end.
Lemma events_fifo_witness :
  [1; 30; 1] = [1] ++ queue demo_got /\ Z.of_nat (length (queue demo_got)) < MAX_EVENTS /\
  (state demo_got = STATE_LIVE -> queue demo_got <> [] -> irq_level false [] = true).
Proof.
  apply (events_fifo false [107] [] [] demo_got [1; 30; 1] [1] []).
  apply (reach_step false demo_init demo_put [1; 30; 1] [] [] (OpRead REG_READ) 1 demo_got []);
    [|split; [discriminate|reflexivity]|vm_compute; reflexivity].
  apply (reach_step false demo_init demo_init [] [] [] (OpEnqueue EV_KEY 30 1) 0 demo_put []);
    [apply reach_init|discriminate|vm_compute; reflexivity].
Defined.

(** The ring overflows.  The test for a full ring lets an event in when
    exactly 1021 words are waiting (the guest is two words into an event of a
    ring that was full); its third word makes [last] meet [first], the ring
    counts as empty, and all the words waiting in it are lost. *)
Theorem events_ring_overflow s type code value :
  wf s -> count s = MAX_EVENTS - 3 ->
  exists s' es, enqueue_event type code value s = Ok (tt, s', es) /\
    Z.of_nat (length (queue s)) = 1021 /\ queue s' = [] /\ first s' = last s'.
Proof.
  intros Hwf Hc. rewrite enqueue_event_eq, Hc by done.
  change (MAX_EVENTS <? MAX_EVENTS - 3 + 3) with false. cbv zeta.
  change ((MAX_EVENTS - 3 =? 0)) with false. cbn [andb].
  pose proof (pushed_wf type s Hwf) as Hwf1. pose proof (pushed_wf code _ Hwf1) as Hwf2.
  pose proof (pushed_wf value _ Hwf2) as Hwf3.
  eexists _, _. split; [reflexivity|]. split; [by rewrite events_queue_length, Hc|].
  assert (count (pushed value (pushed code (pushed type s))) = 0) as E
    by (rewrite !pushed_count, Hc by done; reflexivity).
  split.
  - unfold queue. by rewrite E.
  - apply Z.eqb_eq. rewrite count_zero by done. by rewrite E.
Qed.

Definition demo_full : events_state := demo_init <| first := 2 |> <| last := 1023 |>.
Lemma events_ring_overflow_witness :
  exists s' es, enqueue_event EV_KEY 30 1 demo_full = Ok (tt, s', es) /\
    Z.of_nat (length (queue demo_full)) = 1021 /\ queue s' = [] /\ first s' = last s'.
Proof.
  apply (events_ring_overflow demo_full EV_KEY 30 1); [constructor; [reflexivity|by split..]|reflexivity].
Defined.

(** Event pages.  Below the length it reports, a page returns the byte
    (or, for the axis ranges, the 32-bit word) at the offset; past the length
    it returns 0.  At the length itself the test lets the access through: the
    capability and axis pages read one element past their array. *)
Theorem events_page_data s offset :
  0 <= offset ->
  (offset < get_page_len s ->
     get_page_data s offset = Ok (
       if page s =? PAGE_NAME then nth (Z.to_nat offset) (name s) 0
       else if is_evbits (page s) then nth (Z.to_nat offset) (bits_of s (page s - PAGE_EVBITS)) 0
       else nth (Z.to_nat (offset / 4)) (abs_info s) 0)) /\
  (get_page_len s < offset -> get_page_data s offset = Ok 0) /\
  (offset = get_page_len s -> is_evbits (page s) = true \/ page s = PAGE_ABSDATA ->
     get_page_data s offset = Fault OutOfBounds).
Proof.
  intros Ho. unfold get_page_data.
  assert (forall l i, 0 <= i < Z.of_nat (length l) ->
    l !! Z.to_nat i = Some (nth (Z.to_nat i) l 0)) as Hat.
  { intros l i Hi. destruct (lookup_lt_is_Some_2 l (Z.to_nat i)) as [v Hv]; [lia|].
    by rewrite Hv, (nth_lookup_Some _ _ _ _ Hv). }
  split; [|split].
  - intros Hlt. destruct (Z.ltb_spec (get_page_len s) offset); [lia|].
    revert Hlt. unfold get_page_len.
    destruct (Z.eqb_spec (page s) PAGE_NAME) as [E|]; [intros Hlt|].
    { rewrite lookup_app_l by lia. by rewrite Hat. }
    destruct (is_evbits (page s)); [intros; by rewrite Hat|].
    destruct (Z.eqb_spec (page s) PAGE_ABSDATA) as [E|]; [intros Hlt|lia].
    rewrite Z.quot_div_nonneg by lia. rewrite Hat; [done|].
    split; [apply Z.div_pos; lia|]. apply Z.div_lt_upper_bound; lia.
  - intros Hgt. by destruct (Z.ltb_spec (get_page_len s) offset); [|lia].
  - intros -> Hp. rewrite Z.ltb_irrefl. unfold get_page_len.
    assert (forall l : list Z, l !! Z.to_nat (Z.of_nat (length l)) = None) as Hend
      by (intros l; apply lookup_ge_None_2; lia).
    destruct (Z.eqb_spec (page s) PAGE_NAME) as [E|]; [rewrite E in Hp; by destruct Hp|].
    destruct (is_evbits (page s)) eqn:Eb; [by rewrite Hend|].
    destruct Hp as [|E]; [done|]. rewrite E, Z.eqb_refl.
    rewrite Z.quot_div_nonneg, Z.div_mul by lia. by rewrite Hend.
Qed.

Definition demo_page : events_state := demo_init <| page := PAGE_ABSDATA |> <| abs_info := [0; 479] |>.
Lemma events_page_data_witness :
  (4 < 8 -> get_page_data demo_page 4 = Ok 479) /\
  (get_page_len demo_page < 8 -> get_page_data demo_page 8 = Ok 0) /\
  get_page_data demo_page 8 = Fault OutOfBounds.
Proof.
  split; [intros H; exact (proj1 (events_page_data demo_page 4 ltac:(lia)) H)|].
  split; [exact (proj1 (proj2 (events_page_data demo_page 8 ltac:(lia))))|].
  apply (events_page_data demo_page 8 ltac:(lia)); [reflexivity|by right].
Defined.

(** *** Capability bits *)

(** Bit [j] of a byte array, the kernel's numbering. *)
Definition bitmap_bit (bits : list Z) (j : Z) : bool :=
  Z.testbit (nth (Z.to_nat (j / 8)) bits 0) (j mod 8).

Lemma testbit_ff i : 0 <= i -> Z.testbit 0xff i = (i <? 8).
Proof.
  intros Hi. change 0xff with (Z.ones 8). destruct (Z.ltb_spec i 8).
  - by apply Z.ones_spec_low.
  - by apply Z.ones_spec_high.
Qed.

Lemma maskl_bit a i : 0 <= a < 8 -> 0 <= i < 8 -> Z.testbit (u8 (Z.shiftl 0xff a)) i = (a <=? i).
Proof.
  intros Ha Hi. rewrite uwrap_spec, Z.shiftl_spec by lia.
  destruct (Z.leb_spec a i); [rewrite testbit_ff by lia|rewrite Z.testbit_neg_r by lia]; lia.
Qed.

Lemma maskh_bit b i : 0 <= b < 8 -> 0 <= i < 8 -> Z.testbit (u8 (Z.shiftr 0xff (7 - b))) i = (i <=? b).
Proof.
  intros Hb Hi. rewrite uwrap_spec, Z.shiftr_spec, testbit_ff by lia. zbool.
Qed.

Lemma alter_lor_bit bits m k j :
  0 <= j -> 0 <= k < Z.of_nat (length bits) ->
  bitmap_bit (alter (fun b => u8 (Z.lor b m)) (Z.to_nat k) bits) j =
    bitmap_bit bits j || ((j / 8 =? k) && Z.testbit m (j mod 8)).
Proof.
  intros Hj Hk. unfold bitmap_bit. pose proof (Z.mod_pos_bound j 8 ltac:(lia)).
  pose proof (Z.div_pos j 8 Hj ltac:(lia)).
  rewrite !nth_lookup. destruct (Z.eqb_spec (j / 8) k) as [->|Hne].
  - rewrite list_lookup_alter_eq.
    destruct (lookup_lt_is_Some_2 bits (Z.to_nat k)) as [b ->]; [lia|]. cbn.
    rewrite uwrap_spec, Z.lor_spec by lia. by destruct (Z.ltb_spec (j mod 8) 8); [|lia].
  - rewrite list_lookup_alter_ne by lia. by rewrite orb_false_r.
Qed.

Lemma fill_ff_bit n i bits j :
  0 <= j -> (i + n <= length bits)%nat ->
  length (fill_ff n i bits) = length bits /\
  bitmap_bit (fill_ff n i bits) j =
    bitmap_bit bits j || ((Z.of_nat i <=? j / 8) && (j / 8 <? Z.of_nat (i + n))).
Proof.
  intros Hj. revert i bits. induction n as [|n IH]; intros i bits Hlen; cbn [fill_ff].
  { split; [done|]. destruct (bitmap_bit bits j); [done|]. cbn [orb]. zbool. }
  destruct (IH (S i) (<[i := 0xff]> bits)) as [El ->]; [rewrite length_insert; lia|].
  split; [by rewrite El, length_insert|]. pose proof (Z.div_pos j 8 Hj ltac:(lia)).
  pose proof (Z.mod_pos_bound j 8 ltac:(lia)).
  unfold bitmap_bit. rewrite !nth_lookup. destruct (decide (Z.to_nat (j / 8) = i)) as [E|E].
  - rewrite E, list_lookup_insert_eq by lia. cbn [from_option default].
    rewrite testbit_ff by lia. destruct (Z.ltb_spec (j mod 8) 8); [|lia]. symmetry.
    apply orb_true_iff. right. zbool.
  - rewrite list_lookup_insert_ne by congruence. f_equal.
    assert (j / 8 <> Z.of_nat i) by (intros E'; apply E; by rewrite E', Nat2Z.id).
    zbool.
Qed.

Lemma extend_bit bits n j : bitmap_bit (bits ++ replicate n 0) j = bitmap_bit bits j.
Proof.
  unfold bitmap_bit. f_equal. rewrite !nth_lookup.
  destruct (decide (Z.to_nat (j / 8) < length bits)%nat).
  - by rewrite lookup_app_l.
  - rewrite lookup_app_r, (lookup_ge_None_2 bits) by lia.
    destruct (replicate n 0 !! _) eqn:E; [|done]. apply lookup_replicate in E. naive_solver.
Qed.

(** Capability bits.  [events_set_bits] sets bits [bitl] to [bith] of the
    type's array, all of them, and leaves every other bit, growing the array
    when [bith] is past its end; [events_clr_bit] then clears one bit and no
    other. *)
Theorem events_set_bits_spec bits bitl bith j :
  0 <= bitl <= bith -> 0 <= j ->
  bitmap_bit (set_bits bits bitl bith) j = bitmap_bit bits j || ((bitl <=? j) && (j <=? bith)) /\
  (forall b, 0 <= b -> bitmap_bit (clr_bit bits b) j = bitmap_bit bits j && negb (j =? b)).
Proof.
  intros Hlh Hj. pose proof (Z.mod_pos_bound j 8 ltac:(lia)) as Hjm.
  pose proof (Z.div_mod j 8 ltac:(lia)) as Hjd. pose proof (Z.div_pos j 8 Hj ltac:(lia)) as Hjp.
  assert (forall x, 0 <= x -> Z.land x 7 = x mod 8) as H7.
  { intros x _. change 7 with (Z.ones 3). by rewrite Z.land_ones. }
  split.
  - unfold set_bits. rewrite !H7 by lia.
    set (bits0 := if Z.of_nat (length bits) <=? bith / 8
      then bits ++ replicate (Z.to_nat (bith / 8 + 1) - length bits) 0 else bits).
    pose proof (Z.div_le_mono bitl bith 8 ltac:(lia) ltac:(lia)) as Hle.
    pose proof (Z.div_pos bitl 8 ltac:(lia) ltac:(lia)) as Hil.
    pose proof (Z.mod_pos_bound bitl 8 ltac:(lia)) as Hlm. pose proof (Z.div_mod bitl 8 ltac:(lia)) as Hld.
    pose proof (Z.mod_pos_bound bith 8 ltac:(lia)) as Hhm. pose proof (Z.div_mod bith 8 ltac:(lia)) as Hhd.
    assert (bith / 8 < Z.of_nat (length bits0) /\ bitmap_bit bits0 j = bitmap_bit bits j) as [Hlen <-].
    { unfold bits0. destruct (Z.leb_spec (Z.of_nat (length bits)) (bith / 8)); [|by split; [lia|]].
      split; [rewrite length_app, length_replicate; lia|apply extend_bit]. }
    destruct (Z.leb_spec (bith / 8) (bitl / 8)).
    + rewrite alter_lor_bit, Z.land_spec, maskl_bit, maskh_bit by lia.
      destruct (bitmap_bit bits0 j); [done|]. cbn [orb]. zbool.
    + set (bits1 := alter _ (Z.to_nat (bitl / 8)) bits0).
      assert (length bits1 = length bits0) as El1 by apply length_alter.
      destruct (fill_ff_bit (Z.to_nat (bith / 8 - bitl / 8 - 1)) (Z.to_nat (bitl / 8 + 1)) bits1 j Hj)
        as [El2 Eb2]; [lia|].
      rewrite alter_lor_bit, Eb2 by lia. unfold bits1. rewrite alter_lor_bit, maskl_bit, maskh_bit by lia.
      destruct (bitmap_bit bits0 j); [done|]. cbn [orb]. zbool.
  - intros b Hb. unfold clr_bit. rewrite H7 by lia.
    pose proof (Z.mod_pos_bound b 8 ltac:(lia)) as Hbm. pose proof (Z.div_mod b 8 ltac:(lia)) as Hbd.
    pose proof (Z.div_pos b 8 Hb ltac:(lia)) as Hbp.
    unfold bitmap_bit. rewrite !nth_lookup.
    destruct (Z.ltb_spec (b / 8) (Z.of_nat (length bits))).
    + destruct (Z.eq_dec (j / 8) (b / 8)) as [E|E].
      * rewrite E, list_lookup_alter_eq.
        destruct (lookup_lt_is_Some_2 bits (Z.to_nat (b / 8))) as [v ->]; [lia|]. cbn.
        rewrite Z.land_spec, Z.lnot_spec, uwrap_spec, Z.shiftl_1_l, Z.pow2_bits_eqb by lia.
        destruct (Z.testbit v (j mod 8)); [|done]. cbn. lia.
      * rewrite list_lookup_alter_ne by lia. destruct (Z.testbit _ _); [|done]. cbn. lia.
    + destruct (bits !! Z.to_nat (j / 8)) as [v|] eqn:E; cbn [default from_option];
        [|by rewrite Z.bits_0].
      apply lookup_lt_Some in E. destruct (Z.testbit _ _); [|done]. cbn. lia.
Qed.

Lemma events_set_bits_spec_witness :
  bitmap_bit (set_bits [1] 3 20) 9 = bitmap_bit [1] 9 || ((3 <=? 9) && (9 <=? 20)) /\
  (forall b, 0 <= b -> bitmap_bit (clr_bit [1] b) 9 = bitmap_bit [1] 9 && negb (9 =? b)).
Proof. apply (events_set_bits_spec [1] 3 20 9); lia. Defined.

End EventsDevice.
