(* ===== verification/Battery.v ===== *)
(** The Goldfish battery (hw/android/goldfish/battery.c): the properties the
    console sets, the status register that tells the guest which kind of
    property changed, and its interrupt. *)
From Stdlib Require Import ZArith Lia Bool.
From stdpp Require Import base numbers list.
From S2P Require Import Prelude Stream Interrupt Bus.
Local Open Scope Z_scope.
Local Open Scope prog_scope.

Module GoldfishBattery.

Definition BATTERY_INT_STATUS : Z := 0x00.
Definition BATTERY_INT_ENABLE : Z := 0x04.
Definition BATTERY_AC_ONLINE : Z := 0x08.
Definition BATTERY_STATUS : Z := 0x0C.
Definition BATTERY_HEALTH : Z := 0x10.
Definition BATTERY_PRESENT : Z := 0x14.
Definition BATTERY_CAPACITY : Z := 0x18.
Definition BATTERY_STATUS_CHANGED : Z := 1.
Definition AC_STATUS_CHANGED : Z := 2.
Definition BATTERY_STATE_SAVE_VERSION : Z := 1.

Definition POWER_SUPPLY_STATUS_CHARGING : Z := 1.
Definition POWER_SUPPLY_STATUS_NOT_CHARGING : Z := 3.
Definition POWER_SUPPLY_HEALTH_GOOD : Z := 1.
Definition POWER_SUPPLY_HEALTH_DEAD : Z := 3.
Definition POWER_SUPPLY_PROP_STATUS : Z := 0.
Definition POWER_SUPPLY_PROP_HEALTH : Z := 1.
Definition POWER_SUPPLY_PROP_PRESENT : Z := 2.
Definition POWER_SUPPLY_PROP_ONLINE : Z := 3.
Definition POWER_SUPPLY_PROP_CAPACITY : Z := 23.

Record goldfish_battery_state := mkBattery {
  int_status : Z;
  int_enable : Z;
  ac_online : Z;
  status : Z;
  health : Z;
  present : Z;
  capacity : Z;
  hw_has_battery : bool;
}.
#[export] Instance goldfish_battery_state_eta : Settable goldfish_battery_state := fun s =>
  mkBattery (int_status s) (int_enable s) (ac_online s) (status s) (health s) (present s)
    (capacity s) (hw_has_battery s).

Definition M := prog goldfish_battery_state dev_irq.

Definition goldfish_battery_read (offset : Z) : M Z :=
  if offset =? BATTERY_INT_STATUS then
    ret_ <- gets (fun s => Z.land (int_status s) (int_enable s)) ;;
    when (nz ret_)
      (emit (SetIrq 0 0) ;;; modify (fun s => s <| int_status := 0 |>)) ;;;
    ret ret_
  else if offset =? BATTERY_INT_ENABLE then gets int_enable
  else if offset =? BATTERY_AC_ONLINE then gets (fun s => u32 (ac_online s))
  else if offset =? BATTERY_STATUS then gets (fun s => u32 (status s))
  else if offset =? BATTERY_HEALTH then gets (fun s => u32 (health s))
  else if offset =? BATTERY_PRESENT then gets (fun s => u32 (present s))
  else if offset =? BATTERY_CAPACITY then gets (fun s => u32 (capacity s))
  else abort (CpuAbort offset).

Definition goldfish_battery_write (offset val : Z) : M unit :=
  if offset =? BATTERY_INT_ENABLE then modify (fun s => s <| int_enable := val |>)
  else abort (CpuAbort offset).

Definition goldfish_battery_init (has_battery : bool) : goldfish_battery_state :=
  if has_battery
  then mkBattery 0 0 1 POWER_SUPPLY_STATUS_CHARGING POWER_SUPPLY_HEALTH_GOOD 1 50 true
  else mkBattery 0 0 1 POWER_SUPPLY_STATUS_NOT_CHARGING POWER_SUPPLY_HEALTH_DEAD 0 0 false.

(** [battery_state] is the static pointer: [None] before the device exists. *)
Definition goldfish_battery_read_prop (battery_state : option goldfish_battery_state)
  (property : Z) : Z :=
  match battery_state with
  | None => 0
  | Some s =>
      if negb (hw_has_battery s) then 0
      else if property =? POWER_SUPPLY_PROP_ONLINE then ac_online s
      else if property =? POWER_SUPPLY_PROP_STATUS then status s
      else if property =? POWER_SUPPLY_PROP_HEALTH then health s
      else if property =? POWER_SUPPLY_PROP_PRESENT then present s
      else if property =? POWER_SUPPLY_PROP_CAPACITY then capacity s
      else 0
  end.

Definition set_property (ac : bool) (property value : Z) (s : goldfish_battery_state)
  : goldfish_battery_state :=
  if ac then
    if property =? POWER_SUPPLY_PROP_ONLINE then s <| ac_online := value |> else s
  else if property =? POWER_SUPPLY_PROP_STATUS then s <| status := value |>
  else if property =? POWER_SUPPLY_PROP_HEALTH then s <| health := value |>
  else if property =? POWER_SUPPLY_PROP_PRESENT then s <| present := value |>
  else if property =? POWER_SUPPLY_PROP_CAPACITY then s <| capacity := value |>
  else s.

Definition new_status (ac : bool) : Z := if ac then AC_STATUS_CHANGED else BATTERY_STATUS_CHANGED.

Definition goldfish_battery_set_prop (ac : bool) (property value : Z) : M unit :=
  s <- gets (fun s => s) ;;
  if negb (hw_has_battery s) then ret tt
  else
    modify (set_property ac property value) ;;;
    s <- gets (fun s => s) ;;
    when (negb (new_status ac =? int_status s))
      (modify (fun s => s <| int_status ::= fun x => Z.lor x (new_status ac) |>) ;;;
       s <- gets (fun s => s) ;;
       emit (SetIrq 0 (Z.land (int_status s) (int_enable s)))).

Definition goldfish_battery_fields : list (qfield goldfish_battery_state) :=
  [QField_Int32 int_status (fun v s => s <| int_status := v |>);
   QField_Int32 int_enable (fun v s => s <| int_enable := v |>);
   QField_Int32 ac_online (fun v s => s <| ac_online := s32 v |>);
   QField_Int32 status (fun v s => s <| status := s32 v |>);
   QField_Int32 health (fun v s => s <| health := s32 v |>);
   QField_Int32 present (fun v s => s <| present := s32 v |>);
   QField_Int32 capacity (fun v s => s <| capacity := s32 v |>)].

Definition goldfish_battery_save {F} `{Sink F} (s : goldfish_battery_state) : wr F :=
  qemu_put_struct goldfish_battery_fields s.
Definition goldfish_battery_load {F} `{Source F} (version_id : Z) (s : goldfish_battery_state)
  : rd F (Z * goldfish_battery_state) :=
  if negb (version_id =? BATTERY_STATE_SAVE_VERSION) then rret (-1, s)
  else qemu_get_struct goldfish_battery_fields s.

(** ** A burst of changes *)

Definition change : Type := bool * Z * Z.
Fixpoint set_props (cs : list change) : M unit :=
  match cs with
  | [] => ret tt
  | (ac, property, value) :: cs' => goldfish_battery_set_prop ac property value ;;; set_props cs'
  end.

(** The kinds of property that changed. *)
Definition kinds (cs : list change) : Z :=
  foldr (fun '(ac, _, _) k => Z.lor (new_status ac) k) 0 cs.

Lemma set_property_frame ac property value s :
  int_status (set_property ac property value s) = int_status s /\
  int_enable (set_property ac property value s) = int_enable s /\
  hw_has_battery (set_property ac property value s) = hw_has_battery s.
Proof. unfold set_property. by repeat case_cond. Qed.

Lemma set_prop_step ac property value s l :
  hw_has_battery s = true -> l = nz (Z.land (int_status s) (int_enable s)) ->
  exists s' es, goldfish_battery_set_prop ac property value s = Ok (tt, s', es) /\
    hw_has_battery s' = true /\ int_enable s' = int_enable s /\
    int_status s' = Z.lor (int_status s) (new_status ac) /\
    GoldfishBus.last_level es l = nz (Z.land (int_status s') (int_enable s')).
Proof.
  intros Hb ->. destruct (set_property_frame ac property value s) as (Hs & He & Hh).
  unfold goldfish_battery_set_prop. run_prog. rewrite Hb. cbn [negb].
  set (s1 := set_property ac property value s) in *.
  unfold when. destruct (Z.eqb_spec (new_status ac) (int_status s1)) as [E|E]; cbn [negb].
  - eexists _, _. split; [reflexivity|]. rewrite Hh, He, Hs. split; [done|]. split; [done|].
    split; [|done]. rewrite <- Hs, E, Z.lor_diag. done.
  - eexists _, _. split; [reflexivity|]. cbn. rewrite Hh, He, Hs. done.
Qed.

Lemma set_props_spec cs s l :
  hw_has_battery s = true -> l = nz (Z.land (int_status s) (int_enable s)) ->
  exists s' es, set_props cs s = Ok (tt, s', es) /\
    hw_has_battery s' = true /\ int_enable s' = int_enable s /\
    int_status s' = Z.lor (int_status s) (kinds cs) /\
    GoldfishBus.last_level es l = nz (Z.land (int_status s') (int_enable s')).
Proof.
  revert s l. induction cs as [|[[ac property] value] cs IH]; intros s l Hb Hl; cbn [set_props kinds foldr].
  { exists s, []. rewrite Z.lor_0_r. done. }
  destruct (set_prop_step ac property value s l Hb Hl) as (s1 & es1 & E1 & Hb1 & He1 & Hs1 & Hl1).
  destruct (IH s1 _ Hb1 Hl1) as (s2 & es2 & E2 & Hb2 & He2 & Hs2 & Hl2).
  exists s2, (es1 ++ es2). split; [by eapply bind_ok|]. split; [done|]. split; [congruence|].
  split; [by rewrite Hs2, Hs1, Z.lor_assoc|].
  unfold GoldfishBus.last_level in *. by rewrite foldl_app.
Qed.

(** C38: Change notification.  From a state with nothing reported and the
    line down, after any burst of property changes the interrupt line stands
    exactly when a kind that changed is enabled; INT_STATUS then returns
    exactly the enabled kinds that changed, and if there are any, lowers the
    line and leaves nothing reported. *)
Theorem battery_change_notification cs s :
  hw_has_battery s = true -> int_status s = 0 ->
  exists s1 es1, set_props cs s = Ok (tt, s1, es1) /\
    GoldfishBus.last_level es1 false = nz (Z.land (kinds cs) (int_enable s)) /\
    exists s2 es2, goldfish_battery_read BATTERY_INT_STATUS s1 =
        Ok (Z.land (kinds cs) (int_enable s), s2, es2) /\
      GoldfishBus.last_level (es1 ++ es2) false = false /\
      (Z.land (kinds cs) (int_enable s) <> 0 -> int_status s2 = 0).
Proof.
  intros Hb H0. destruct (set_props_spec cs s false Hb) as (s1 & es1 & E1 & Hb1 & He1 & Hs1 & Hl1);
    [by rewrite H0|].
  rewrite H0, Z.lor_0_l in Hs1. rewrite Hs1, He1 in Hl1.
  exists s1, es1. split; [done|]. split; [done|].
  unfold goldfish_battery_read. change (BATTERY_INT_STATUS =? BATTERY_INT_STATUS) with true.
  run_prog. rewrite Hs1, He1. unfold when.
  destruct (nz (Z.land (kinds cs) (int_enable s))) eqn:E; do 2 eexists; (split; [reflexivity|]);
    unfold GoldfishBus.last_level in *; rewrite foldl_app, Hl1; cbn; (split; [done|]); [done|].
  apply nz_false in E. done.
Qed.

Definition demo_battery : goldfish_battery_state := goldfish_battery_init true <| int_enable := 3 |>.
Definition demo_changes : list change :=
  [(false, POWER_SUPPLY_PROP_CAPACITY, 49); (true, POWER_SUPPLY_PROP_ONLINE, 0)].
Lemma battery_change_notification_witness :
  exists s1 es1, set_props demo_changes demo_battery = Ok (tt, s1, es1) /\
    GoldfishBus.last_level es1 false = true /\
    exists s2 es2, goldfish_battery_read BATTERY_INT_STATUS s1 = Ok (3, s2, es2) /\
      GoldfishBus.last_level (es1 ++ es2) false = false /\ (3 <> 0 -> int_status s2 = 0).
Proof. exact (battery_change_notification demo_changes demo_battery eq_refl eq_refl). Defined.

(** A change before the interrupt is enabled silences the later ones.
    The status is recorded even while its interrupt is disabled, enabling
    raises nothing, and the next change of the same kind is taken for one
    already signalled: however many follow, no interrupt comes until the
    guest happens to read INT_STATUS. *)
Theorem battery_lost_interrupt ac property value cs s :
  hw_has_battery s = true -> int_status s = 0 -> int_enable s = 0 ->
  Forall (fun c => fst (fst c) = ac) cs ->
  exists s1 s2 s3, goldfish_battery_set_prop ac property value s = Ok (tt, s1, [SetIrq 0 0]) /\
    goldfish_battery_write BATTERY_INT_ENABLE 3 s1 = Ok (tt, s2, []) /\
    set_props cs s2 = Ok (tt, s3, []) /\ Z.land (int_status s3) (int_enable s3) = new_status ac.
Proof.
  intros Hb H0 He Hcs. destruct (set_property_frame ac property value s) as (Hs & Hen & Hh).
  set (s1 := set_property ac property value s <| int_status ::= fun x => Z.lor x (new_status ac) |>).
  exists s1, (s1 <| int_enable := 3 |>).
  assert (forall t, hw_has_battery t = true -> int_status t = new_status ac -> int_enable t = 3 ->
    exists t', set_props cs t = Ok (tt, t', []) /\ Z.land (int_status t') (int_enable t') = new_status ac)
    as Hquiet.
  { induction Hcs as [|[[ac' p] v] cs E Hcs IH]; intros t Htb Hts Hte; cbn [set_props].
    - exists t. split; [done|]. rewrite Hts, Hte. by destruct ac.
    - cbn in E. subst ac'. destruct (set_property_frame ac p v t) as (Ht1 & Ht2 & Ht3).
      destruct (IH (set_property ac p v t)) as (t' & E' & ?); [congruence..|].
      exists t'. split; [|done]. eapply (bind_ok _ _ _ _ _ [] _ _ []); [|exact E'].
      unfold goldfish_battery_set_prop. run_prog. rewrite Htb. cbn [negb].
      rewrite Ht1, Hts, Z.eqb_refl. reflexivity. }
  destruct (Hquiet (s1 <| int_enable := 3 |>)) as (s3 & E3 & ?).
  - cbn. congruence.
  - cbn. by rewrite Hs, H0.
  - done.
  - exists s3. split; [|done]. unfold goldfish_battery_set_prop. run_prog. rewrite Hb. cbn [negb].
    rewrite Hs, H0. unfold when. assert ((new_status ac =? 0) = false) as -> by (by destruct ac).
    cbn [negb]. run_prog. cbn. rewrite Hen, He, Z.land_0_r. done.
Qed.

Lemma battery_lost_interrupt_witness :
  exists s1 s2 s3, goldfish_battery_set_prop false POWER_SUPPLY_PROP_CAPACITY 10
      (goldfish_battery_init true) = Ok (tt, s1, [SetIrq 0 0]) /\
    goldfish_battery_write BATTERY_INT_ENABLE 3 s1 = Ok (tt, s2, []) /\
    set_props [(false, POWER_SUPPLY_PROP_HEALTH, 2)] s2 = Ok (tt, s3, []) /\
    Z.land (int_status s3) (int_enable s3) = BATTERY_STATUS_CHANGED.
Proof.
  apply (battery_lost_interrupt false POWER_SUPPLY_PROP_CAPACITY 10
    [(false, POWER_SUPPLY_PROP_HEALTH, 2)] (goldfish_battery_init true)); try reflexivity.
  by repeat constructor.
Defined.

(** *** Snapshots *)
Definition s32_ok (v : Z) : Prop := - 2 ^ 31 <= v < 2 ^ 31.
#[export, program] Instance battery_Snapshot : Snapshot goldfish_battery_state := {|
  version := BATTERY_STATE_SAVE_VERSION;
  save F _ := goldfish_battery_save;
  load F _ := goldfish_battery_load;
  encode s := be32 (int_status s) ++ be32 (int_enable s) ++ be32 (ac_online s) ++
    be32 (status s) ++ be32 (health s) ++ be32 (present s) ++ be32 (capacity s);
  saveable s := fits 32 (int_status s) /\ fits 32 (int_enable s) /\ s32_ok (ac_online s) /\
    s32_ok (status s) /\ s32_ok (health s) /\ s32_ok (present s) /\ s32_ok (capacity s);
  restored s s0 := s <| hw_has_battery := hw_has_battery s0 |>;
|}.
Next Obligation.
  intros F ? s. cbn. rewrite <- (app_nil_r (be32 (capacity s))).
  repeat (apply writes_seq; [apply writes_be32|]). apply writes_skip.
Qed.
Next Obligation.
  intros F ? s s0 (H1 & H2 & H3 & H4 & H5 & H6 & H7). cbn. unfold goldfish_battery_load. cbn.
  rewrite <- (app_nil_r (be32 (capacity s))).
  repeat (eapply reads_bind; [apply reads_be32|]; cbv beta).
  rewrite !swrap_uwrap, !(s32_id (_ s)) by done.
  rewrite (uwrap_id 32 (int_status s)), (uwrap_id 32 (int_enable s)) by done.
  apply reads_ret.
Qed.

End GoldfishBattery.
