(* ===== verification/Pipe.v ===== *)
(** The Goldfish pipe device (hw/android/goldfish/pipe.c): the table of open
    pipes, the list of pipes with something to tell the guest, the command
    register and the interrupt.

    The host side of a pipe ([android_pipe_new], [_poll], [_recv], [_send],
    [_wake_on], implemented in C++ under android/) is any [PipeService]; its
    upcalls [goldfish_pipe_wake] and [goldfish_pipe_close] are operations of
    their own, so an upcall the service makes from within one of its functions
    is taken to come after the register access that called it.  The memory a
    batched access reads is the same throughout a run.  An [HwPipe *] is the identity the device gave the pipe. *)
From Stdlib Require Import ZArith Lia Bool.
From stdpp Require Import base numbers list sets.
From S2P Require Import Prelude Stream Interrupt Bus.
Local Open Scope Z_scope.
Local Open Scope prog_scope.

(** What the device asks of the host side of a pipe: each call returns the
    service's new state and its result; a receive also the bytes it put in
    the guest's buffer. *)
Class PipeService (P : Type) := {
  android_pipe_new : nat -> P;
  android_pipe_poll : P -> Z;
  android_pipe_recv : P -> Z -> P * Z * list Z;
  android_pipe_send : P -> list Z -> P * Z;
  android_pipe_wake_on : P -> Z -> P;
}.

Module GoldfishPipe.

Definition PIPE_REG_COMMAND : Z := 0x00.
Definition PIPE_REG_STATUS : Z := 0x04.
Definition PIPE_REG_CHANNEL : Z := 0x08.
Definition PIPE_REG_SIZE : Z := 0x0c.
Definition PIPE_REG_ADDRESS : Z := 0x10.
Definition PIPE_REG_WAKES : Z := 0x14.
Definition PIPE_REG_PARAMS_ADDR_LOW : Z := 0x18.
Definition PIPE_REG_PARAMS_ADDR_HIGH : Z := 0x1c.
Definition PIPE_REG_ACCESS_PARAMS : Z := 0x20.
Definition PIPE_REG_VERSION : Z := 0x24.
Definition PIPE_REG_CHANNEL_HIGH : Z := 0x30.
Definition PIPE_REG_ADDRESS_HIGH : Z := 0x34.
Definition PIPE_CMD_OPEN : Z := 1.
Definition PIPE_CMD_CLOSE : Z := 2.
Definition PIPE_CMD_POLL : Z := 3.
Definition PIPE_CMD_WRITE_BUFFER : Z := 4.
Definition PIPE_CMD_WAKE_ON_WRITE : Z := 5.
Definition PIPE_CMD_READ_BUFFER : Z := 6.
Definition PIPE_CMD_WAKE_ON_READ : Z := 7.
Definition PIPE_ERROR_INVAL : Z := -1.
Definition PIPE_ERROR_IO : Z := -4.
Definition PIPE_WAKE_CLOSED : Z := 1.
Definition PIPE_WAKE_READ : Z := 2.
Definition PIPE_WAKE_WRITE : Z := 4.
Definition PIPE_DEVICE_VERSION : Z := 1.

Inductive pipe_event :=
| PipeIrq (level : Z)
| GuestWrite (addr : Z) (bytes : list Z)
| ParamResult (addr result : Z).

(** An [HwPipe]; [hid] is its identity, which its pointer is in the code. *)
Record HwPipe (P : Type) := mkHwPipe {
  hid : nat;
  channel : Z;
  wakes : Z;
  closed : Z;
  pipe : P;
}.
Arguments mkHwPipe {P}.
Arguments hid {P}.
Arguments channel {P}.
Arguments wakes {P}.
Arguments closed {P}.
Arguments pipe {P}.
#[export] Instance HwPipe_eta P : Settable (HwPipe P) := fun p =>
  mkHwPipe (hid p) (channel p) (wakes p) (closed p) (pipe p).

Record PipeDevice (P : Type) := mkPipeDevice {
  pipes : list (HwPipe P);
  signaled_pipes : list nat;  (* linked by next_waked *)
  next_hid : nat;
  dev_address : Z;
  dev_size : Z;
  dev_status : Z;
  dev_channel : Z;
  dev_wakes : Z;
  params_addr : Z;
  use_pa : bool;  (* deviceMode *)
}.
Arguments mkPipeDevice {P}.
Arguments pipes {P}.
Arguments signaled_pipes {P}.
Arguments next_hid {P}.
Arguments dev_address {P}.
Arguments dev_size {P}.
Arguments dev_status {P}.
Arguments dev_channel {P}.
Arguments dev_wakes {P}.
Arguments params_addr {P}.
Arguments use_pa {P}.
#[export] Instance PipeDevice_eta P : Settable (PipeDevice P) := fun d =>
  mkPipeDevice (pipes d) (signaled_pipes d) (next_hid d) (dev_address d) (dev_size d)
    (dev_status d) (dev_channel d) (dev_wakes d) (params_addr d) (use_pa d).

Section device.
Context {P : Type} `{PipeService P}.

(** Whether [map_guest_buffer] finds RAM behind a guest buffer, its bytes,
    the parameter block of a batched access (channel, size, address,
    command), and the width of the guest. *)
Context (map_guest_buffer : bool -> Z -> Z -> bool).
Context (guest_bytes : bool -> Z -> Z -> list Z).
Context (access_params : Z -> Z * Z * Z * Z).

Definition M := prog (PipeDevice P) pipe_event.

(** [hwpipe_findp_by_channel]: the pipe of a channel. *)
Fixpoint find_by_channel (l : list (HwPipe P)) (ch : Z) : option (HwPipe P) :=
  match l with
  | [] => None
  | p :: l' => if channel p =? ch then Some p else find_by_channel l' ch
  end.

(** [*lookup = pipe->next]. *)
Fixpoint remove_by_channel (l : list (HwPipe P)) (ch : Z) : list (HwPipe P) :=
  match l with
  | [] => []
  | p :: l' => if channel p =? ch then l' else p :: remove_by_channel l' ch
  end.

(** [hwpipe_remove_signaled], with [hwpipe_findp_signaled]'s search. *)
Fixpoint hwpipe_remove_signaled (l : list nat) (h : nat) : list nat :=
  match l with
  | [] => []
  | x :: l' => if decide (x = h) then l' else x :: hwpipe_remove_signaled l' h
  end.

Definition on_pipe (h : nat) (f : HwPipe P -> HwPipe P) (d : PipeDevice P) : PipeDevice P :=
  d <| pipes ::= map (fun p => if decide (hid p = h) then f p else p) |>.

Definition set_status (v : Z) : M unit := modify (fun d => d <| dev_status := u32 v |>).

Definition wake_on (p : HwPipe P) (flag : Z) : M unit :=
  when (Z.land (wakes p) flag =? 0)
    (modify (on_pipe (hid p) (fun p =>
       let w := u8 (Z.lor (wakes p) flag) in
       p <| wakes := w |> <| pipe := android_pipe_wake_on (pipe p) w |>))) ;;;
  set_status 0.

Definition pipeDevice_doCommand (command : Z) : M unit :=
  d <- gets (fun d => d) ;;
  match find_by_channel (pipes d) (dev_channel d) with
  | None =>
      if command =? PIPE_CMD_OPEN then
        modify (fun d =>
          d <| pipes := mkHwPipe (next_hid d) (dev_channel d) 0 0 (android_pipe_new (next_hid d)) :: pipes d |>
            <| next_hid ::= S |>) ;;;
        set_status 0
      else set_status PIPE_ERROR_INVAL
  | Some p =>
      if nz (closed p) && negb (command =? PIPE_CMD_CLOSE) then set_status PIPE_ERROR_IO
      else if command =? PIPE_CMD_OPEN then set_status PIPE_ERROR_INVAL
      else if command =? PIPE_CMD_CLOSE then
        modify (fun d => d <| pipes ::= fun l => remove_by_channel l (dev_channel d) |>
                           <| signaled_pipes ::= fun l => hwpipe_remove_signaled l (hid p) |>)
      else if command =? PIPE_CMD_POLL then set_status (android_pipe_poll (pipe p))
      else if command =? PIPE_CMD_READ_BUFFER then
        if map_guest_buffer (use_pa d) (dev_address d) (dev_size d) then
          let '(p', status, bytes) := android_pipe_recv (pipe p) (dev_size d) in
          modify (on_pipe (hid p) (fun q => q <| pipe := p' |>)) ;;;
          emit (GuestWrite (dev_address d) bytes) ;;;
          set_status status
        else set_status PIPE_ERROR_INVAL
      else if command =? PIPE_CMD_WRITE_BUFFER then
        if map_guest_buffer (use_pa d) (dev_address d) (dev_size d) then
          let '(p', status) :=
            android_pipe_send (pipe p) (guest_bytes (use_pa d) (dev_address d) (dev_size d)) in
          modify (on_pipe (hid p) (fun q => q <| pipe := p' |>)) ;;;
          set_status status
        else set_status PIPE_ERROR_INVAL
      else if command =? PIPE_CMD_WAKE_ON_READ then wake_on p PIPE_WAKE_READ
      else if command =? PIPE_CMD_WAKE_ON_WRITE then wake_on p PIPE_WAKE_WRITE
      else ret tt
  end.

Definition access_batch : M unit :=
  d <- gets (fun d => d) ;;
  if params_addr d =? 0 then ret tt
  else
    let '(ch, size, address, cmd) := access_params (params_addr d) in
    modify (fun d => d <| dev_channel := ch |> <| dev_size := size |> <| dev_address := address |>) ;;;
    when ((cmd =? PIPE_CMD_READ_BUFFER) || (cmd =? PIPE_CMD_WRITE_BUFFER))
      (pipeDevice_doCommand cmd ;;;
       d <- gets (fun d => d) ;;
       emit (ParamResult (params_addr d) (dev_status d))).

Definition pipe_dev_write (offset value : Z) : M unit :=
  if offset =? PIPE_REG_COMMAND then pipeDevice_doCommand value
  else if offset =? PIPE_REG_SIZE then modify (fun d => d <| dev_size := value |>)
  else if offset =? PIPE_REG_ADDRESS then
    modify (fun d => d <| dev_address ::= fun a => uint64_set_low a value |>)
  else if offset =? PIPE_REG_ADDRESS_HIGH then
    modify (fun d => d <| dev_address ::= fun a => uint64_set_high a value |>)
  else if offset =? PIPE_REG_CHANNEL then
    modify (fun d => d <| dev_channel ::= fun a => uint64_set_low a value |>)
  else if offset =? PIPE_REG_CHANNEL_HIGH then
    modify (fun d => d <| dev_channel ::= fun a => uint64_set_high a value |>)
  else if offset =? PIPE_REG_PARAMS_ADDR_HIGH then
    modify (fun d => d <| params_addr ::= fun a => uint64_set_high a value |>)
  else if offset =? PIPE_REG_PARAMS_ADDR_LOW then
    modify (fun d => d <| params_addr ::= fun a => uint64_set_low a value |>)
  else if offset =? PIPE_REG_ACCESS_PARAMS then access_batch
  else ret tt.

Definition find_by_hid (l : list (HwPipe P)) (h : nat) : option (HwPipe P) :=
  list_find (fun p => hid p = h) l ≫= fun x => Some (snd x).

Definition pipe_dev_read (offset : Z) : M Z :=
  d <- gets (fun d => d) ;;
  if offset =? PIPE_REG_STATUS then ret (dev_status d)
  else if offset =? PIPE_REG_CHANNEL then
    match signaled_pipes d with
    | [] => ret 0
    | h :: next =>
        p <- of_option NullDeref (find_by_hid (pipes d) h) ;;
        modify (fun d => on_pipe h (fun p => p <| wakes := 0 |>) (d <| dev_wakes := wakes p |>)
                           <| signaled_pipes := next |>) ;;;
        when (bool_decide (next = [])) (emit (PipeIrq 0)) ;;;
        ret (Z.land (channel p) 0xFFFFFFFF)
    end
  else if offset =? PIPE_REG_CHANNEL_HIGH then
    match signaled_pipes d with
    | [] => ret 0
    | h :: _ =>
        p <- of_option NullDeref (find_by_hid (pipes d) h) ;;
        ret (u32 (Z.shiftr (channel p) 32))
    end
  else if offset =? PIPE_REG_WAKES then ret (dev_wakes d)
  else if offset =? PIPE_REG_PARAMS_ADDR_HIGH then ret (u32 (Z.shiftr (params_addr d) 32))
  else if offset =? PIPE_REG_PARAMS_ADDR_LOW then ret (Z.land (params_addr d) 0xFFFFFFFF)
  else if offset =? PIPE_REG_VERSION then
    modify (fun d => d <| use_pa := true |>) ;;; ret PIPE_DEVICE_VERSION
  else ret 0.

(** *** Upcalls of the host side *)
Definition goldfish_pipe_wake (h : nat) (flags : Z) : M unit :=
  modify (fun d =>
    on_pipe h (fun p => p <| wakes := u8 (Z.lor (wakes p) flags) |>)
      (if bool_decide (h ∈ signaled_pipes d) then d
       else d <| signaled_pipes := h :: signaled_pipes d |>)) ;;;
  emit (PipeIrq 1).

Definition goldfish_pipe_close (h : nat) : M unit :=
  d <- gets (fun d => d) ;;
  p <- of_option NullDeref (find_by_hid (pipes d) h) ;;
  when (closed p =? 0)
    (modify (on_pipe h (fun p => p <| closed := 1 |>)) ;;;
     goldfish_pipe_wake h PIPE_WAKE_CLOSED).

Definition pipe_dev_init : PipeDevice P := mkPipeDevice [] [] 0 0 0 0 0 0 0 false.

(** ** The device over time *)

Inductive op :=
| OpWrite (offset value : Z)
| OpRead (offset : Z)
| OpWake (h : nat) (flags : Z)
| OpClose (h : nat).
Definition run_op (o : op) : M unit :=
  match o with
  | OpWrite offset value => pipe_dev_write offset value
  | OpRead offset => pipe_dev_read offset ;;; ret tt
  | OpWake h flags => goldfish_pipe_wake h flags
  | OpClose h => goldfish_pipe_close h
  end.

(** The host calls up on pipes it has. *)
Definition op_ok (d : PipeDevice P) (o : op) : Prop :=
  match o with
  | OpWake h _ | OpClose h => h ∈ map hid (pipes d)
  | _ => True
  end.

Inductive reachable : PipeDevice P -> list pipe_event -> Prop :=
| reach_init : reachable pipe_dev_init []
| reach_step d tr o d' es :
    reachable d tr -> op_ok d o -> run_op o d = Ok (tt, d', es) -> reachable d' (tr ++ es).

Fixpoint irq_level (l : bool) (es : list pipe_event) : bool :=
  match es with
  | [] => l
  | PipeIrq v :: es' => irq_level (nz v) es'
  | _ :: es' => irq_level l es'
  end.
Lemma pipe_irq_level_app l es es' : irq_level l (es ++ es') = irq_level (irq_level l es) es'.
Proof. revert l. induction es as [|[] es IH]; intros l; cbn; auto. Qed.

(** ** The invariant *)
Record wf (d : PipeDevice P) : Prop := {
  wf_channels : NoDup (map channel (pipes d));
  wf_hids : NoDup (map hid (pipes d));
  wf_fresh : Forall (fun h => (h < next_hid d)%nat) (map hid (pipes d));
  wf_signaled : NoDup (signaled_pipes d);
  wf_known : forall h, h ∈ signaled_pipes d -> h ∈ map hid (pipes d);
}.

Lemma find_by_channel_spec l ch p :
  find_by_channel l ch = Some p -> p ∈ l /\ channel p = ch.
Proof.
  induction l as [|q l IH]; cbn [find_by_channel]; [done|].
  destruct (Z.eqb_spec (channel q) ch) as [E|E].
  - intros [= <-]. split; [by left|done].
  - intros Hf. destruct (IH Hf). split; [by right|done].
Qed.

Lemma find_by_channel_none l ch : find_by_channel l ch = None -> ch ∉ map channel l.
Proof.
  induction l as [|q l IH]; cbn [find_by_channel map]; [set_solver|].
  destruct (Z.eqb_spec (channel q) ch); [done|]. set_solver.
Qed.

Lemma find_by_hid_Some l h p : find_by_hid l h = Some p -> p ∈ l /\ hid p = h.
Proof.
  unfold find_by_hid. destruct (list_find _ l) as [[i q]|] eqn:E; cbn; [|done].
  intros [= ->]. apply list_find_Some in E as (Hi & Hh & _).
  split; [by apply list_elem_of_lookup_2 in Hi|done].
Qed.

Lemma find_by_hid_is_Some l h : h ∈ map hid l -> is_Some (find_by_hid l h).
Proof.
  intros Hh. apply list_elem_of_fmap in Hh as (p & -> & Hp). unfold find_by_hid.
  destruct (list_find_elem_of (fun q => hid q = hid p) l p Hp eq_refl) as [[i q] ->].
  by eexists.
Qed.

Lemma remove_by_channel_sublist l ch : remove_by_channel l ch `sublist_of` l.
Proof.
  induction l as [|p l IH]; cbn [remove_by_channel]; [done|].
  case_cond; [by apply sublist_cons|by apply sublist_skip].
Qed.

Lemma remove_by_channel_elem l p q :
  NoDup (map channel l) -> p ∈ l -> q ∈ remove_by_channel l (channel p) <-> q ∈ l /\ q <> p.
Proof.
  induction l as [|x l IH]; cbn [remove_by_channel map]; [set_solver|].
  intros Hn Hp. apply NoDup_cons in Hn as [Hx Hn].
  assert (forall y, y ∈ l -> channel y <> channel x) as Hne.
  { intros y Hy E. apply Hx. rewrite <- E. by apply list_elem_of_fmap_2. }
  destruct (Z.eqb_spec (channel x) (channel p)) as [E|E].
  - assert (p = x) as -> by (apply elem_of_cons in Hp as [|Hp]; [done|]; by destruct (Hne p Hp)).
    split; [intros Hq; split; [by right|intros ->; by apply (Hne x)]|].
    intros [Hq Hqp]. by apply elem_of_cons in Hq as [->|].
  - apply elem_of_cons in Hp as [->|Hp]; [done|]. rewrite !elem_of_cons, IH by done.
    split; [intros [->|[? ?]]; split; auto; by intros ->|intros [[->|] ?]; auto].
Qed.

Lemma remove_signaled_sublist l h : hwpipe_remove_signaled l h `sublist_of` l.
Proof.
  induction l as [|x l IH]; cbn [hwpipe_remove_signaled]; [done|].
  case_decide; [by apply sublist_cons|by apply sublist_skip].
Qed.

Lemma remove_signaled_elem l h x :
  NoDup l -> x ∈ hwpipe_remove_signaled l h <-> x ∈ l /\ x <> h.
Proof.
  induction 1 as [|y l Hy Hl IH]; cbn [hwpipe_remove_signaled]; [set_solver|].
  destruct (decide (y = h)) as [->|]; set_solver.
Qed.

Lemma NoDup_map_sublist {A B} (f : A -> B) l k :
  l `sublist_of` k -> NoDup (map f k) -> NoDup (map f l).
Proof. intros Hs Hn. eapply sublist_NoDup; [exact Hn|by apply fmap_sublist]. Qed.

(** Operations that change no list. *)
Definition same_shape (d d' : PipeDevice P) : Prop :=
  map channel (pipes d') = map channel (pipes d) /\ map hid (pipes d') = map hid (pipes d) /\
  signaled_pipes d' = signaled_pipes d /\ next_hid d' = next_hid d.

Lemma same_shape_wf d d' : same_shape d d' -> wf d -> wf d'.
Proof.
  intros (E1 & E2 & E3 & E4) [H1 H2 H3 H4 H5]. constructor; rewrite ?E1, ?E2, ?E3, ?E4; done.
Qed.

Lemma on_pipe_shape h f d :
  (forall p, hid (f p) = hid p /\ channel (f p) = channel p) -> same_shape d (on_pipe h f d).
Proof.
  intros Hf. unfold same_shape, on_pipe. cbn. rewrite !map_map. split; [|split; [|done]];
    apply map_ext; intros p; case_decide; try done; apply Hf.
Qed.

Lemma same_shape_trans d1 d2 d3 : same_shape d1 d2 -> same_shape d2 d3 -> same_shape d1 d3.
Proof. unfold same_shape. intros (-> & -> & -> & ->) (-> & -> & -> & ->). done. Qed.

(** A step that keeps the invariant, drives no interrupt and signals
    nothing new. *)
Definition quiet (d d' : PipeDevice P) (es : list pipe_event) : Prop :=
  wf d' /\ (forall l, irq_level l es = l) /\ (signaled_pipes d = [] -> signaled_pipes d' = []).

Lemma shape_quiet d d' es :
  wf d -> same_shape d d' -> (forall l, irq_level l es = l) -> quiet d d' es.
Proof.
  intros Hwf Hs Hl. split; [by eapply same_shape_wf|]. split; [done|].
  destruct Hs as (_ & _ & -> & _). done.
Qed.

Lemma close_wf d p :
  wf d -> find_by_channel (pipes d) (dev_channel d) = Some p ->
  wf (d <| pipes ::= fun l => remove_by_channel l (dev_channel d) |>
        <| signaled_pipes ::= fun l => hwpipe_remove_signaled l (hid p) |>).
Proof.
  intros [H1 H2 H3 H4 H5] Hp. apply find_by_channel_spec in Hp as [Hin <-].
  pose proof (remove_by_channel_sublist (pipes d) (channel p)) as Hsub.
  constructor; cbn.
  - by eapply NoDup_map_sublist.
  - by eapply NoDup_map_sublist.
  - apply Forall_forall. intros h Hh. rewrite Forall_forall in H3. apply H3.
    by eapply sublist_subseteq; [apply fmap_sublist|].
  - eapply sublist_NoDup; [done|apply remove_signaled_sublist].
  - intros h Hh. apply remove_signaled_elem in Hh as [Hh Hne]; [|done].
    apply H5, list_elem_of_fmap in Hh as (q & -> & Hq). apply list_elem_of_fmap_2.
    apply remove_by_channel_elem; [done..|]. split; [done|]. by intros ->.
Qed.

Lemma open_wf d p :
  wf d -> hid p = next_hid d -> channel p ∉ map channel (pipes d) ->
  wf (d <| pipes := p :: pipes d |> <| next_hid ::= S |>).
Proof.
  intros [H1 H2 H3 H4 H5] Hh Hc. constructor; cbn; rewrite ?Hh.
  - by apply NoDup_cons.
  - apply NoDup_cons. split; [|done]. intros Hin. rewrite Forall_forall in H3.
    specialize (H3 _ Hin). lia.
  - constructor; [lia|]. eapply Forall_impl; [exact H3|]. intros h Hlt. cbn in Hlt. lia.
  - done.
  - intros h Hin. right. by apply H5.
Qed.

Lemma doCommand_step cmd d d' es :
  wf d -> pipeDevice_doCommand cmd d = Ok (tt, d', es) -> quiet d d' es.
Proof.
  intros Hwf. unfold pipeDevice_doCommand, set_status. run_prog.
  destruct (find_by_channel (pipes d) (dev_channel d)) as [p|] eqn:Ep.
  - repeat match goal with
    | |- context [if ?b then _ else _] => destruct b eqn:?
    end; cbn; try (by intros [= <- <-]; apply shape_quiet).
    + intros [= <- <-]. split; [by apply close_wf|]. split; [done|]. cbn. by intros ->.
    + destruct (android_pipe_recv _ _) as [[p' v] bytes]. run_prog. intros [= <- <-].
      apply shape_quiet; [done| |done]. eapply same_shape_trans; [|done]. by apply on_pipe_shape.
    + destruct (android_pipe_send _ _) as [p' v]. run_prog. intros [= <- <-].
      apply shape_quiet; [done| |done]. eapply same_shape_trans; [|done]. by apply on_pipe_shape.
    + unfold wake_on, when, set_status. case_cond; run_prog; intros [= <- <-];
        (apply shape_quiet; [done| |done]); [|done].
      eapply same_shape_trans; [|done]. by apply on_pipe_shape.
    + unfold wake_on, when, set_status. case_cond; run_prog; intros [= <- <-];
        (apply shape_quiet; [done| |done]); [|done].
      eapply same_shape_trans; [|done]. by apply on_pipe_shape.
  - destruct (cmd =? PIPE_CMD_OPEN); cbn; intros [= <- <-]; [|by apply shape_quiet].
    split; [|by split]. apply find_by_channel_none in Ep.
    apply (same_shape_wf (d <| pipes := mkHwPipe (next_hid d) (dev_channel d) 0 0
      (android_pipe_new (next_hid d)) :: pipes d |> <| next_hid ::= S |>)); [done|].
    by apply open_wf.
Qed.

Lemma wake_step h flags d :
  wf d -> h ∈ map hid (pipes d) ->
  exists d', goldfish_pipe_wake h flags d = Ok (tt, d', [PipeIrq 1]) /\ wf d'.
Proof.
  intros Hwf Hh. eexists. split; [reflexivity|].
  set (d1 := if bool_decide (h ∈ signaled_pipes d) then d
             else d <| signaled_pipes := h :: signaled_pipes d |>).
  assert (wf d1) as Hwf1.
  { unfold d1. case_bool_decide as E; [done|]. destruct Hwf as [H1 H2 H3 H4 H5].
    constructor; cbn; try done; [by apply NoDup_cons|set_solver]. }
  eapply same_shape_wf; [|exact Hwf1]. by apply on_pipe_shape.
Qed.

(** The line is up while a pipe is signaled. *)
Definition announced (d : PipeDevice P) (l : bool) : Prop := signaled_pipes d <> [] -> l = true.

Lemma quiet_announced d d' es l :
  quiet d d' es -> announced d l -> wf d' /\ announced d' (irq_level l es).
Proof.
  intros (Hwf & Hl & Hs) Ha. split; [done|]. rewrite Hl. intros Hne. apply Ha. naive_solver.
Qed.

Lemma read_step offset v d d' es l :
  wf d -> announced d l -> pipe_dev_read offset d = Ok (v, d', es) ->
  wf d' /\ announced d' (irq_level l es).
Proof.
  intros Hwf Ha. unfold pipe_dev_read. run_prog.
  case_cond; [by intros [= <- <- <-]|]. case_cond.
  - destruct (signaled_pipes d) as [|h next] eqn:E; [by intros [= <- <- <-]|].
    destruct (find_by_hid (pipes d) h) as [p|] eqn:Ep; [|done]. run_prog.
    assert (wf (on_pipe h (fun p => p <| wakes := 0 |>) (d <| dev_wakes := wakes p |>)
      <| signaled_pipes := next |>)) as Hwf'.
    { apply (same_shape_wf (d <| signaled_pipes := next |>)).
      - destruct (on_pipe_shape h (fun p => p <| wakes := 0 |>) d) as (H1 & H2 & _ & _); [done|].
        by repeat split.
      - destruct Hwf as [H1 H2 H3 H4 H5]. rewrite E in *. apply NoDup_cons in H4 as [_ H4].
        constructor; try done. cbn. intros x Hx. apply H5. by right. }
    unfold when. case_bool_decide as En; cbn; intros [= <- <- <-]; (split; [done|]); intros Hne.
    + by rewrite En in Hne.
    + apply Ha. by rewrite E.
  - case_cond.
    + destruct (signaled_pipes d) as [|h next] eqn:E; [by intros [= <- <- <-]|].
      destruct (find_by_hid (pipes d) h) as [p|] eqn:Ep; [|done]. by intros [= <- <- <-].
    + repeat case_cond; intros [= <- <- <-]; try done.
      split; [|done]. by apply (same_shape_wf d).
Qed.

Lemma pipe_run_op_step o d d' es l :
  wf d -> announced d l -> op_ok d o -> run_op o d = Ok (tt, d', es) ->
  wf d' /\ announced d' (irq_level l es).
Proof.
  intros Hwf Ha Ho. destruct o as [offset value|offset|h flags|h]; cbn [run_op].
  - intros Hr. eapply quiet_announced; [|done]. revert Hr. unfold pipe_dev_write.
    case_cond; [by apply doCommand_step|].
    repeat (case_cond; [intros [= <- <-]; by apply shape_quiet|]).
    case_cond; [|intros [= <- <-]; by apply shape_quiet].
    unfold access_batch, bind at 1, gets. case_cond; [intros [= <- <-]; by apply shape_quiet|].
    destruct (access_params (params_addr d)) as [[[ch size] address] cmd].
    unfold bind at 1, modify, when.
    set (d1 := d <| dev_channel := ch |> <| dev_size := size |> <| dev_address := address |>).
    assert (wf d1) as Hwf1 by (by apply (same_shape_wf d)).
    case_cond; [|intros [= <- <-]; by apply shape_quiet].
    unfold bind. destruct (pipeDevice_doCommand cmd d1) as [[[[] d2] es2]|] eqn:E; [|done].
    cbn. intros [= <- <-]. destruct (doCommand_step _ _ _ _ Hwf1 E) as (? & Hl & ?).
    split; [done|]. split; [|done]. intros b. rewrite pipe_irq_level_app, Hl. done.
  - unfold bind, ret. destruct (pipe_dev_read offset d) as [[[v d1] es1]|] eqn:E; [|done].
    intros [= <- <-]. rewrite app_nil_r. by eapply read_step.
  - destruct (wake_step h flags d Hwf Ho) as (d1 & -> & Hwf1). intros [= <- <-]. by split.
  - cbn [op_ok] in Ho. unfold goldfish_pipe_close, bind at 1, gets.
    destruct (find_by_hid_is_Some (pipes d) h Ho) as [p Ep]. rewrite Ep. cbn [of_option].
    unfold bind, ret, when. case_cond; [|by intros [= <- <-]].
    set (d1 := on_pipe h (fun p => p <| closed := 1 |>) d).
    destruct (on_pipe_shape h (fun p => p <| closed := 1 |>) d) as (E1 & E2 & E3 & E4); [done|].
    destruct (wake_step h PIPE_WAKE_CLOSED d1) as (d2 & E & Hwf2).
    + by apply (same_shape_wf d).
    + unfold d1. by rewrite E2.
    + cbn [modify]. fold d1. rewrite E. intros [= <- <-]. by split.
Qed.

(** C29: Pipe table.  In every state reached by guest accesses and host
    upcalls, no two open pipes share a channel, the list of signaled pipes
    names each pipe at most once and only pipes that are open, and the
    interrupt is up whenever that list is not empty: no wake is lost. *)
Theorem pipe_invariant d tr :
  reachable d tr ->
  NoDup (map channel (pipes d)) /\ NoDup (signaled_pipes d) /\
  (forall h, h ∈ signaled_pipes d -> exists p, find_by_hid (pipes d) h = Some p) /\
  (signaled_pipes d <> [] -> irq_level false tr = true).
Proof.
  intros Hr. enough (wf d /\ announced d (irq_level false tr)) as [[H1 H2 H3 H4 H5] Ha].
  { split; [done|]. split; [done|]. split; [|done]. intros h Hh. apply find_by_hid_is_Some. auto. }
  induction Hr as [|d tr o d' es _ [Hwf Ha] Ho Hs].
  { split; [|intros Hne; by destruct Hne]. constructor; cbn; try constructor. intros h Hh. by apply elem_of_nil in Hh. }
  rewrite pipe_irq_level_app. by eapply pipe_run_op_step.
Qed.

(** Delivery of a wake.  When the host wakes an open pipe, the guest's
    next reads of the channel registers return the two halves of its
    channel and leave in WAKES the flags just raised on top of those
    pending for it; the pipe is off the list, and the interrupt goes down
    exactly when no other pipe is signaled. *)
Theorem pipe_wake_delivered h flags d p :
  wf d -> find_by_hid (pipes d) h = Some p -> h ∉ signaled_pipes d ->
  exists d1 d2, goldfish_pipe_wake h flags d = Ok (tt, d1, [PipeIrq 1]) /\
    pipe_dev_read PIPE_REG_CHANNEL_HIGH d1 = Ok (u32 (Z.shiftr (channel p) 32), d1, []) /\
    pipe_dev_read PIPE_REG_CHANNEL d1 = Ok (Z.land (channel p) 0xFFFFFFFF, d2,
      if bool_decide (signaled_pipes d = []) then [PipeIrq 0] else []) /\
    pipe_dev_read PIPE_REG_WAKES d2 = Ok (u8 (Z.lor (wakes p) flags), d2, []) /\
    signaled_pipes d2 = signaled_pipes d.
Proof.
  intros Hwf Hp Hh.
  set (f := fun p : HwPipe P => p <| wakes := u8 (Z.lor (wakes p) flags) |>).
  set (d1 := on_pipe h f (d <| signaled_pipes := h :: signaled_pipes d |>)).
  assert (find_by_hid (pipes d1) h = Some (f p)) as Hp1.
  { revert Hp. unfold find_by_hid, d1, on_pipe. cbn. generalize (pipes d).
    induction l as [|q l IH]; cbn; [done|]. destruct (decide (hid q = h)) as [E|E].
    - rewrite decide_True by (by unfold f). cbn. by intros [= ->].
    - rewrite decide_False by done.
      destruct (list_find (fun p => hid p = h) l) as [[i x]|] eqn:El; cbn; [|done].
      intros [= ->]. cbn in IH. specialize (IH eq_refl).
      by destruct (list_find (fun p => hid p = h) (map _ l)) as [[j y]|]. }
  assert (goldfish_pipe_wake h flags d = Ok (tt, d1, [PipeIrq 1])) as E1.
  { unfold goldfish_pipe_wake. run_prog. by rewrite bool_decide_eq_false_2. }
  assert (signaled_pipes d1 = h :: signaled_pipes d) as Hsig by done. clearbody d1.
  eexists d1, _. split; [exact E1|]. split; [|split; [|split]].
  - unfold pipe_dev_read. run_prog. rewrite Hsig, Hp1. reflexivity.
  - unfold pipe_dev_read. run_prog. rewrite Hsig, Hp1. unfold when.
    case_bool_decide; reflexivity.
  - reflexivity.
  - reflexivity.
Qed.

(** A close leaves the interrupt up.  When the guest closes the only
    signaled pipe, the pipe leaves the list but the interrupt is not
    lowered; reading the channel registers returns 0 and drives nothing
    either, so the interrupt stays asserted with nothing to report. *)
Theorem pipe_close_leaves_irq d p :
  wf d -> find_by_channel (pipes d) (dev_channel d) = Some p -> signaled_pipes d = [hid p] ->
  exists d', pipe_dev_write PIPE_REG_COMMAND PIPE_CMD_CLOSE d = Ok (tt, d', []) /\
    signaled_pipes d' = [] /\ p ∉ pipes d' /\
    forall offset, exists v d'', pipe_dev_read offset d' = Ok (v, d'', []) /\
      (offset = PIPE_REG_CHANNEL \/ offset = PIPE_REG_CHANNEL_HIGH -> v = 0).
Proof.
  intros Hwf Hp Hs.
  set (d' := d <| pipes ::= fun l => remove_by_channel l (dev_channel d) |>
               <| signaled_pipes ::= fun l => hwpipe_remove_signaled l (hid p) |>).
  assert (signaled_pipes d' = []) as Hs'
    by (unfold d'; cbn; rewrite Hs; cbn; by rewrite decide_True).
  exists d'. split; [|split; [done|split]].
  - change (pipeDevice_doCommand PIPE_CMD_CLOSE d = Ok (tt, d', [])). unfold pipeDevice_doCommand. run_prog. rewrite Hp.
    rewrite andb_false_r. reflexivity.
  - unfold d'. cbn. pose proof (find_by_channel_spec _ _ _ Hp) as [Hin <-]. intros H'.
    apply remove_by_channel_elem in H' as [_ H']; [done|apply Hwf|done].
  - intros offset. unfold pipe_dev_read. run_prog. rewrite Hs'.
    repeat case_cond; do 2 eexists; (split; [reflexivity|]); try (by intros _);
      intros [-> | ->]; done.
Qed.
End device.

(** *** Witnesses, with a service that has no data *)
#[local] Instance null_service : PipeService unit := {|
  android_pipe_new _ := tt;
  android_pipe_poll _ := 0;
  android_pipe_recv _ _ := (tt, -2, []);
  android_pipe_send _ _ := (tt, -2);
  android_pipe_wake_on _ _ := tt;
|}.
Definition demo_map (pa : bool) (addr size : Z) : bool := true.
Definition demo_bytes (pa : bool) (addr size : Z) : list Z := [].
Definition demo_params (addr : Z) : Z * Z * Z * Z := (0, 0, 0, 0).
Definition demo_open : PipeDevice unit :=
  mkPipeDevice [mkHwPipe 0 7 0 0 tt] [] 1 0 0 0 7 0 0 false.
Definition demo_woken : PipeDevice unit :=
  mkPipeDevice [mkHwPipe 0 7 2 0 tt] [0%nat] 1 0 0 0 7 0 0 false.

Lemma demo_open_wf : wf demo_open.
Proof.
  constructor; cbn; repeat constructor; set_solver.
Qed.
Lemma demo_woken_wf : wf demo_woken.
Proof. constructor; cbn; try (repeat constructor; set_solver). intros h Hh. exact Hh. Qed.

Lemma pipe_invariant_witness :
  NoDup (map channel (pipes demo_woken)) /\ NoDup (signaled_pipes demo_woken) /\
  (forall h, h ∈ signaled_pipes demo_woken -> exists p, find_by_hid (pipes demo_woken) h = Some p) /\
  (signaled_pipes demo_woken <> [] -> irq_level false [PipeIrq 1] = true).
Proof.
  apply (pipe_invariant demo_map demo_bytes demo_params demo_woken [PipeIrq 1]).
  apply (reach_step demo_map demo_bytes demo_params demo_open [] (OpWake 0 2) demo_woken [PipeIrq 1]);
    [|by left|reflexivity].
  apply (reach_step demo_map demo_bytes demo_params (pipe_dev_init <| dev_channel := 7 |>) []
    (OpWrite PIPE_REG_COMMAND PIPE_CMD_OPEN) demo_open []); [|done|reflexivity].
  apply (reach_step demo_map demo_bytes demo_params pipe_dev_init []
    (OpWrite PIPE_REG_CHANNEL 7) (pipe_dev_init <| dev_channel := 7 |>) []); [|done|reflexivity].
  apply reach_init.
Defined.

Lemma pipe_wake_delivered_witness :
  exists d1 d2, goldfish_pipe_wake 0 PIPE_WAKE_READ demo_open = Ok (tt, d1, [PipeIrq 1]) /\
    pipe_dev_read PIPE_REG_CHANNEL_HIGH d1 = Ok (0, d1, []) /\
    pipe_dev_read PIPE_REG_CHANNEL d1 = Ok (7, d2, [PipeIrq 0]) /\
    pipe_dev_read PIPE_REG_WAKES d2 = Ok (2, d2, []) /\
    signaled_pipes d2 = [].
Proof.
  apply (pipe_wake_delivered 0 PIPE_WAKE_READ demo_open (mkHwPipe 0 7 0 0 tt) demo_open_wf);
    [reflexivity|set_solver].
Defined.

Lemma pipe_close_leaves_irq_witness :
  exists d', pipe_dev_write demo_map demo_bytes demo_params PIPE_REG_COMMAND PIPE_CMD_CLOSE demo_woken =
      Ok (tt, d', []) /\
    signaled_pipes d' = [] /\ mkHwPipe 0 7 2 0 tt ∉ pipes d' /\
    forall offset, exists v d'', pipe_dev_read offset d' = Ok (v, d'', []) /\
      (offset = PIPE_REG_CHANNEL \/ offset = PIPE_REG_CHANNEL_HIGH -> v = 0).
Proof.
  apply (pipe_close_leaves_irq demo_map demo_bytes demo_params demo_woken (mkHwPipe 0 7 2 0 tt)
    demo_woken_wf); reflexivity.
Defined.

End GoldfishPipe.
