(* ===== verification/Nand.v ===== *)
(** The Goldfish NAND controller (hw/android/goldfish/nand.c): reading,
    writing and erasing pages of disk images through the guest's registers or
    a batch block, and the copy of the images a snapshot carries.

    An image is a regular file: its bytes, and how the host treats it: [read]
    returns what the file has, up to the count asked for, or fails; [write]
    stores the first bytes of the buffer, as many as the host takes at that
    place, or fails, and past the end fills the gap with zeros; [ftruncate]
    cuts or extends the file, or fails.  A file position is an
    argument, because every operation seeks first.  Guest memory is a map. *)
From Stdlib Require Import ZArith Lia Bool.
From stdpp Require Import base numbers list.
From S2P Require Import Prelude Stream.
Local Open Scope Z_scope.
Local Open Scope prog_scope.
Local Open Scope stream_scope.

Module Nand.

Definition NAND_CMD_GET_DEV_NAME : Z := 0.
Definition NAND_CMD_READ : Z := 1.
Definition NAND_CMD_WRITE : Z := 2.
Definition NAND_CMD_ERASE : Z := 3.
Definition NAND_CMD_BLOCK_BAD_GET : Z := 4.
Definition NAND_CMD_BLOCK_BAD_SET : Z := 5.
Definition NAND_CMD_READ_BATCH : Z := 6.
Definition NAND_CMD_WRITE_BATCH : Z := 7.
Definition NAND_CMD_ERASE_BATCH : Z := 8.
Definition NAND_DEV_FLAG_READ_ONLY : Z := 1.
Definition NAND_VERSION_CURRENT : Z := 1.
Definition NAND_VERSION : Z := 0x000.
Definition NAND_NUM_DEV : Z := 0x004.
Definition NAND_DEV : Z := 0x008.
Definition NAND_DEV_FLAGS : Z := 0x010.
Definition NAND_DEV_NAME_LEN : Z := 0x014.
Definition NAND_DEV_PAGE_SIZE : Z := 0x018.
Definition NAND_DEV_EXTRA_SIZE : Z := 0x01c.
Definition NAND_DEV_ERASE_SIZE : Z := 0x020.
Definition NAND_DEV_SIZE_LOW : Z := 0x028.
Definition NAND_DEV_SIZE_HIGH : Z := 0x02c.
Definition NAND_RESULT : Z := 0x040.
Definition NAND_COMMAND : Z := 0x044.
Definition NAND_DATA : Z := 0x048.
Definition NAND_TRANSFER_SIZE : Z := 0x04c.
Definition NAND_ADDR_LOW : Z := 0x050.
Definition NAND_ADDR_HIGH : Z := 0x054.
Definition NAND_BATCH_ADDR_LOW : Z := 0x058.
Definition NAND_BATCH_ADDR_HIGH : Z := 0x05c.
Definition NAND_DATA_HIGH : Z := 0x100.
Definition NAND_DEV_SAVE_DISK_BUF_SIZE : Z := 2048.
Definition EIO : Z := 5.
Definition EBADF : Z := 9.

(** ** Files *)
Record file := mkFile {
  content : list Z;
  read_fails : bool;
  write_result : Z -> Z -> Z;  (* what [write] returns at a position for a count *)
  truncate_fails : bool;
}.
#[export] Instance file_eta : Settable file := fun f =>
  mkFile (content f) (read_fails f) (write_result f) (truncate_fails f).

Definition file_len (f : file) : Z := Z.of_nat (length (content f)).

(** The bytes from [pos] on, at most [n]. *)
Definition read_bytes (f : file) (pos n : Z) : list Z :=
  take (Z.to_nat n) (drop (Z.to_nat pos) (content f)).

Definition do_read (f : file) (pos n : Z) : Z * list Z :=
  if read_fails f then (-1, [])
  else (Z.of_nat (length (read_bytes f pos n)), read_bytes f pos n).

(** The bytes [bs] written over [l] at [pos]. *)
Definition splice (l : list Z) (pos : Z) (bs : list Z) : list Z :=
  let p := Z.to_nat pos in
  take p (l ++ replicate (p - length l) 0) ++ bs ++ drop (p + length bs) l.

Definition do_write (f : file) (pos : Z) (bs : list Z) : Z * file :=
  let k := Z.min (write_result f pos (Z.of_nat (length bs))) (Z.of_nat (length bs)) in
  if k <? 0 then (-1, f)
  else if k =? 0 then (0, f)
  else (k, f <| content := splice (content f) pos (take (Z.to_nat k) bs) |>).

Definition do_ftruncate (f : file) (n : Z) : Z * file :=
  if truncate_fails f then (-1, f)
  else (0, f <| content := take (Z.to_nat n) (content f ++ replicate (Z.to_nat n - length (content f)) 0) |>).

(** ** The devices and the controller *)
Record nand_dev := mkNandDev {
  devname : list Z;
  data_buf : list Z;  (* the image itself when there is no file *)
  fd : option file;
  flags : Z;
  page_size : Z;
  extra_size : Z;
  erase_size : Z;
  max_size : Z;
}.
#[export] Instance nand_dev_eta : Settable nand_dev := fun d =>
  mkNandDev (devname d) (data_buf d) (fd d) (flags d) (page_size d) (extra_size d)
    (erase_size d) (max_size d).

Record controller := mkController {
  dev : Z;
  addr_low : Z;
  addr_high : Z;
  transfer_size : Z;
  data : Z;
  batch_addr_low : Z;
  batch_addr_high : Z;
  result : Z;
  nand_devs : list nand_dev;  (* nand_dev_count of them *)
}.
#[export] Instance controller_eta : Settable controller := fun s =>
  mkController (dev s) (addr_low s) (addr_high s) (transfer_size s) (data s) (batch_addr_low s)
    (batch_addr_high s) (result s) (nand_devs s).

Inductive nand_event :=
| GuestWrite (addr : Z) (bytes : list Z)
| BatchResult (addr result : Z).

Definition M := prog controller nand_event.

(** A batch block: device, address, size and guest buffer. *)
Record batch_data := mkBatch {
  bd_dev : Z; bd_addr_low : Z; bd_addr_high : Z; bd_transfer_size : Z; bd_data : Z
}.

Section controller.
(** [target_ulong]'s width, guest virtual memory, and batch blocks. *)
Context (tb : Z) (mem : Z -> Z) (read_batch : Z -> batch_data).

(** The loop of [nand_dev_read_file]: the trace of copies to the guest.  The
    result of [do_read] becomes a [size_t]; the copy to the guest takes an
    [int] and copies nothing when that is negative. *)
Fixpoint read_loop (fuel : nat) (f : file) (erase pos gaddr len read_len : Z) (eof : bool)
  : outcome (list nand_event) :=
  if len <=? 0 then Ok []
  else match fuel with
       | O => Fault FuelExhausted
       | S n =>
           let '(read_len, eof) := if read_len <? erase then (erase, true) else (read_len, eof) in
           let read_len := if len <? read_len then len else read_len in
           let '(k, chunk) := if eof then (read_len, replicate (Z.to_nat read_len) 0xff)
                              else do_read f pos read_len in
           obind (read_loop n f erase (pos + Z.of_nat (length chunk)) (uwrap tb (gaddr + k))
                    (u32 (len - k)) (u64 k) eof)
             (fun es => Ok (GuestWrite gaddr chunk :: es))
       end.

(** Enough rounds: each copies a byte at least or finds the end of the file.
    When [read] fails the loop counts [len] up until it wraps. *)
Definition read_rounds (f : file) (total_len : Z) : Z :=
  if read_fails f then 2 ^ 32 else total_len + 1.

Definition nand_dev_read_file (d : nand_dev) (f : file) (gaddr addr total_len : Z)
  : outcome (Z * list nand_event) :=
  obind (read_loop (Z.to_nat (read_rounds f total_len)) f (erase_size d) addr gaddr total_len (erase_size d) false)
    (fun es => Ok (total_len, es)).

(** The loop of [nand_dev_write_file]; [ret < write_len] compares the
    [int] result as an unsigned 64-bit number.  The length left over. *)
Fixpoint write_loop (fuel : nat) (f : file) (pos gaddr len write_len : Z) : outcome (Z * file) :=
  if len <=? 0 then Ok (len, f)
  else match fuel with
       | O => Fault FuelExhausted
       | S n =>
           let write_len := if len <? write_len then len else write_len in
           let '(ret, f) := do_write f pos (guest_read tb mem gaddr write_len) in
           if u64 ret <? write_len then Ok (len, f)
           else write_loop n f (pos + write_len) (uwrap tb (gaddr + write_len))
                  (len - write_len) write_len
       end.

Definition nand_dev_write_file (d : nand_dev) (f : file) (gaddr addr total_len : Z)
  : outcome (Z * file) :=
  obind (write_loop (Z.to_nat total_len) f addr gaddr total_len (erase_size d))
    (fun '(len, f) => Ok (total_len - len, f)).

Fixpoint erase_loop (fuel : nat) (f : file) (pos len write_len : Z) : outcome (Z * file) :=
  if len <=? 0 then Ok (len, f)
  else match fuel with
       | O => Fault FuelExhausted
       | S n =>
           let write_len := if len <? write_len then len else write_len in
           let '(ret, f) := do_write f pos (replicate (Z.to_nat write_len) 0xff) in
           if u64 ret <? write_len then Ok (len, f)
           else erase_loop n f (pos + write_len) (len - write_len) write_len
       end.

Definition nand_dev_erase_file (d : nand_dev) (f : file) (addr total_len : Z)
  : outcome (Z * file) :=
  obind (erase_loop (Z.to_nat total_len) f addr total_len (erase_size d))
    (fun '(len, f) => Ok (total_len - len, f)).

Definition is_batch (cmd : Z) : bool :=
  (cmd =? NAND_CMD_WRITE_BATCH) || (cmd =? NAND_CMD_READ_BATCH) || (cmd =? NAND_CMD_ERASE_BATCH).

Definition bd_addr (s : controller) : Z :=
  Z.lor (Z.shiftl (batch_addr_high s) 32) (batch_addr_low s).

Definition load_batch (s : controller) : controller :=
  let bd := read_batch (bd_addr s) in
  s <| dev := bd_dev bd |> <| addr_low := bd_addr_low bd |> <| addr_high := bd_addr_high bd |>
    <| transfer_size := bd_transfer_size bd |> <| data := bd_data bd |>.

Definition put_dev (d : nand_dev) : M unit :=
  modify (fun s => s <| nand_devs ::= <[Z.to_nat (dev s) := d]> |>).

(** The part of [size] that lies below the capacity. *)
Definition clip (d : nand_dev) (addr size : Z) : Z :=
  if max_size d - addr <? size then u32 (max_size d - addr) else size.

Definition read_only (d : nand_dev) : bool := nz (Z.land (flags d) NAND_DEV_FLAG_READ_ONLY).

Definition cmd_read (d : nand_dev) (addr size gaddr : Z) : M Z :=
  if max_size d <=? addr then ret 0
  else
    let size := clip d addr size in
    match fd d with
    | Some f =>
        r <- of_outcome (nand_dev_read_file d f gaddr addr size) ;;
        (fun s => Ok (tt, s, snd r)) ;;;
        ret (fst r)
    | None =>
        when (Z.of_nat (length (data_buf d)) <? addr + size) (abort OutOfBounds) ;;;
        emit (GuestWrite gaddr (take (Z.to_nat size) (drop (Z.to_nat addr) (data_buf d)))) ;;;
        ret size
    end.

Definition cmd_write (d : nand_dev) (addr size gaddr : Z) : M Z :=
  if read_only d then ret 0
  else if max_size d <=? addr then ret 0
  else
    let size := clip d addr size in
    match fd d with
    | Some f =>
        r <- of_outcome (nand_dev_write_file d f gaddr addr size) ;;
        put_dev (d <| fd := Some (snd r) |>) ;;;
        ret (fst r)
    | None =>
        when (Z.of_nat (length (data_buf d)) <? addr + size) (abort OutOfBounds) ;;;
        put_dev (d <| data_buf := splice (data_buf d) addr (guest_read tb mem gaddr size) |>) ;;;
        ret size
    end.

Definition cmd_erase (d : nand_dev) (addr size : Z) : M Z :=
  if read_only d then ret 0
  else if max_size d <=? addr then ret 0
  else
    let size := clip d addr size in
    match fd d with
    | Some f =>
        r <- of_outcome (nand_dev_erase_file d f addr size) ;;
        put_dev (d <| fd := Some (snd r) |>) ;;;
        ret (fst r)
    | None =>
        when (Z.of_nat (length (data_buf d)) <? addr + size) (abort OutOfBounds) ;;;
        put_dev (d <| data_buf := splice (data_buf d) addr (replicate (Z.to_nat size) 0xff) |>) ;;;
        ret size
    end.

Definition nand_dev_do_cmd (cmd : Z) : M Z :=
  when (is_batch cmd) (modify load_batch) ;;;
  s <- gets (fun s => s) ;;
  let addr := Z.lor (addr_low s) (Z.shiftl (addr_high s) 32) in
  let size := transfer_size s in
  let gaddr := uwrap tb (data s) in
  match nand_devs s !! Z.to_nat (dev s) with
  | None => ret 0
  | Some d =>
      if cmd =? NAND_CMD_GET_DEV_NAME then
        let n := Z.min size (Z.of_nat (length (devname d))) in
        emit (GuestWrite gaddr (take (Z.to_nat n) (devname d))) ;;;
        ret n
      else if (cmd =? NAND_CMD_READ_BATCH) || (cmd =? NAND_CMD_READ) then cmd_read d addr size gaddr
      else if (cmd =? NAND_CMD_WRITE_BATCH) || (cmd =? NAND_CMD_WRITE) then cmd_write d addr size gaddr
      else if (cmd =? NAND_CMD_ERASE_BATCH) || (cmd =? NAND_CMD_ERASE) then cmd_erase d addr size
      else if (cmd =? NAND_CMD_BLOCK_BAD_GET) || (cmd =? NAND_CMD_BLOCK_BAD_SET) then ret 0
      else abort (CpuAbort cmd)
  end.

Definition nand_dev_write (offset value : Z) : M unit :=
  if offset =? NAND_DEV then
    modify (fun s => s <| dev := value |>) ;;;
    s <- gets (fun s => s) ;;
    when (Z.of_nat (length (nand_devs s)) <=? dev s) (abort (CpuAbort value))
  else if offset =? NAND_ADDR_HIGH then modify (fun s => s <| addr_high := value |>)
  else if offset =? NAND_ADDR_LOW then modify (fun s => s <| addr_low := value |>)
  else if offset =? NAND_BATCH_ADDR_LOW then modify (fun s => s <| batch_addr_low := value |>)
  else if offset =? NAND_BATCH_ADDR_HIGH then modify (fun s => s <| batch_addr_high := value |>)
  else if offset =? NAND_TRANSFER_SIZE then modify (fun s => s <| transfer_size := value |>)
  else if offset =? NAND_DATA then modify (fun s => s <| data ::= fun a => uint64_set_low a value |>)
  else if offset =? NAND_DATA_HIGH then
    modify (fun s => s <| data ::= fun a => uint64_set_high a value |>)
  else if offset =? NAND_COMMAND then
    r <- nand_dev_do_cmd value ;;
    modify (fun s => s <| result := r |>) ;;;
    when (is_batch value)
      (s <- gets (fun s => s) ;; emit (BatchResult (bd_addr s) (result s)))
  else abort (CpuAbort offset).

Definition nand_dev_read (offset : Z) : M Z :=
  s <- gets (fun s => s) ;;
  if offset =? NAND_VERSION then ret NAND_VERSION_CURRENT
  else if offset =? NAND_NUM_DEV then ret (u32 (Z.of_nat (length (nand_devs s))))
  else if offset =? NAND_RESULT then ret (result s)
  else match nand_devs s !! Z.to_nat (dev s) with
       | None => ret 0
       | Some d =>
           if offset =? NAND_DEV_FLAGS then ret (flags d)
           else if offset =? NAND_DEV_NAME_LEN then ret (u32 (Z.of_nat (length (devname d))))
           else if offset =? NAND_DEV_PAGE_SIZE then ret (page_size d)
           else if offset =? NAND_DEV_EXTRA_SIZE then ret (extra_size d)
           else if offset =? NAND_DEV_ERASE_SIZE then
             ret (if extra_size d =? 0 then 0 else erase_size d)
           else if offset =? NAND_DEV_SIZE_LOW then ret (u32 (max_size d))
           else if offset =? NAND_DEV_SIZE_HIGH then ret (u32 (Z.shiftr (max_size d) 32))
           else abort (CpuAbort offset)
       end.
End controller.

(** ** Snapshots *)

(** The copy loop of [nand_dev_save_disk_state], from [pos]. *)
Fixpoint save_loop {F} `{Sink F} (fuel : nat) (f : file) (max pos : Z) : wr F :=
  match fuel with
  | O => wskip
  | S n =>
      let '(k, bs) := do_read f pos NAND_DEV_SAVE_DISK_BUF_SIZE in
      if k <? 0 then put_error (- EIO)
      else
        qemu_put_buffer bs ;>>
        wwhen ((k =? NAND_DEV_SAVE_DISK_BUF_SIZE) && (pos + k <? max))
          (save_loop n f max (pos + k))
  end.

(** One round per block of the file, and the one that finds its end.  The
    seek fails on a device without a file: an error on the stream, which takes
    no more bytes then. *)
Definition nand_dev_save_disk_state {F} `{Sink F} (d : nand_dev) : wr F :=
  match fd d with
  | None => put_error (- EBADF)
  | Some f =>
      qemu_put_be64 (file_len f) ;>>
      save_loop (S (Z.to_nat (file_len f / NAND_DEV_SAVE_DISK_BUF_SIZE))) f (max_size d) 0
  end.

Definition nand_dev_save_disks {F} `{Sink F} (ds : list nand_dev) : wr F :=
  wall nand_dev_save_disk_state ds.

Fixpoint load_loop {G} `{Source G} (fuel : nat) (f : file) (total next buf : Z) : rd G (Z * file) :=
  if next <? total then
    match fuel with
    | O => rret (- EIO, f)
    | S n =>
        let buf := if total - next <? buf then total - next else buf in
        bs <<- qemu_get_buffer buf ;;
        if negb (Z.of_nat (length bs) =? buf) then rret (- EIO, f)
        else
          let '(r, f) := do_write f next bs in
          if negb (r =? buf) then rret (- EIO, f) else load_loop n f total (next + buf) buf
    end
  else
    let '(r, f) := do_ftruncate f total in
    rret (if r <? 0 then - EIO else 0, f).

Definition nand_dev_load_disk_state {G} `{Source G} (d : nand_dev) : rd G (Z * nand_dev) :=
  total <<- qemu_get_be64 ;;
  if max_size d <? total then rret (- EIO, d)
  else match fd d with
       | None => rret (- EIO, d)
       | Some f =>
           r <<- load_loop (S (Z.to_nat (total / NAND_DEV_SAVE_DISK_BUF_SIZE))) f total 0
                   NAND_DEV_SAVE_DISK_BUF_SIZE ;;
           rret (fst r, d <| fd := Some (snd r) |>)
       end.

Fixpoint nand_dev_load_disks {G} `{Source G} (ds : list nand_dev) : rd G (Z * list nand_dev) :=
  match ds with
  | [] => rret (0, [])
  | d :: ds =>
      r <<- nand_dev_load_disk_state d ;;
      if nz (fst r) then rret (fst r, snd r :: ds)
      else
        rs <<- nand_dev_load_disks ds ;;
        rret (fst rs, snd r :: snd rs)
  end.

Definition nand_dev_controller_state_legacy_1_fields : list (qfield controller) :=
  [QField_Int32 dev (fun v s => s <| dev := v |>);
   QField_Int32 addr_low (fun v s => s <| addr_low := v |>);
   QField_Int32 addr_high (fun v s => s <| addr_high := v |>);
   QField_Int32 transfer_size (fun v s => s <| transfer_size := v |>)].

Definition nand_dev_controller_state_legacy_2_fields : list (qfield controller) :=
  [QField_Int32 batch_addr_low (fun v s => s <| batch_addr_low := v |>);
   QField_Int32 batch_addr_high (fun v s => s <| batch_addr_high := v |>);
   QField_Int32 result (fun v s => s <| result := v |>)].

Definition nand_dev_controller_state_fields : list (qfield controller) :=
  nand_dev_controller_state_legacy_1_fields ++
  QField_Int64 data (fun v s => s <| data := v |>) :: nand_dev_controller_state_legacy_2_fields.

Definition NAND_DEV_STATE_SAVE_VERSION : Z := 5.
Definition NAND_DEV_STATE_SAVE_VERSION_LEGACY : Z := 4.

Definition nand_dev_controller_state_save {F} `{Sink F} (s : controller) : wr F :=
  qemu_put_struct nand_dev_controller_state_fields s ;>>
  nand_dev_save_disks (nand_devs s).

(** [return ret ? ret : nand_dev_load_disks(f)]. *)
Definition load_rest {G} `{Source G} (r : Z * controller) : rd G (Z * controller) :=
  if nz (fst r) then rret r
  else
    rs <<- nand_dev_load_disks (nand_devs (snd r)) ;;
    rret (fst rs, snd r <| nand_devs := snd rs |>).

Definition nand_dev_controller_state_load {G} `{Source G} (version_id : Z) (s : controller)
  : rd G (Z * controller) :=
  if version_id =? NAND_DEV_STATE_SAVE_VERSION then
    r <<- qemu_get_struct nand_dev_controller_state_fields s ;; load_rest r
  else if version_id =? NAND_DEV_STATE_SAVE_VERSION_LEGACY then
    r <<- qemu_get_struct nand_dev_controller_state_legacy_1_fields s ;;
    if nz (fst r) then load_rest r
    else
      v <<- qemu_get_be32 ;;
      r <<- qemu_get_struct nand_dev_controller_state_legacy_2_fields (snd r <| data := v |>) ;;
      load_rest r
  else load_rest (-1, s).

(** ** Writing over a part of a file *)

Lemma splice_length l p bs :
  0 <= p ->
  length (splice l p bs) = (Nat.max (length l) (Z.to_nat p + length bs))%nat.
Proof.
  intros Hp. unfold splice.
  rewrite !length_app, length_take, length_app, length_replicate, length_drop. lia.
Qed.

Lemma splice_lookup l p bs i :
  splice l p bs !! i =
    if decide (i < Z.to_nat p)%nat then (l ++ replicate (Z.to_nat p - length l) 0) !! i
    else if decide (i < Z.to_nat p + length bs)%nat then bs !! (i - Z.to_nat p)%nat
    else l !! i.
Proof.
  unfold splice. set (q := Z.to_nat p).
  assert (length (take q (l ++ replicate (q - length l) 0)) = q) as Hl.
  { rewrite length_take, length_app, length_replicate. lia. }
  repeat case_decide.
  - rewrite lookup_app_l by lia. by rewrite lookup_take_lt by lia.
  - rewrite lookup_app_r, Hl by lia. by rewrite lookup_app_l by lia.
  - rewrite lookup_app_r, Hl by lia. rewrite lookup_app_r by lia.
    rewrite lookup_drop. f_equal. lia.
Qed.

(** Two writes one after the other are one write of both. *)
Lemma splice_splice l p a b :
  0 <= p -> splice (splice l p a) (p + Z.of_nat (length a)) b = splice l p (a ++ b).
Proof.
  intros Hp. apply list_eq. intros i. rewrite splice_lookup.
  assert (Z.to_nat (p + Z.of_nat (length a)) = Z.to_nat p + length a)%nat as -> by lia.
  pose proof (splice_length l p a Hp) as Hlen.
  rewrite (splice_lookup l p (a ++ b)), length_app.
  repeat case_decide; try lia.
  - rewrite lookup_app_l by lia. rewrite splice_lookup. by rewrite decide_True by lia.
  - rewrite !lookup_app_l by lia. rewrite splice_lookup.
    by rewrite decide_False, decide_True by lia.
  - rewrite lookup_app_r by lia. f_equal. lia.
  - rewrite splice_lookup. by rewrite !decide_False by lia.
Qed.

Lemma take_drop_splice l p bs :
  0 <= p -> take (length bs) (drop (Z.to_nat p) (splice l p bs)) = bs.
Proof.
  intros Hp. unfold splice. rewrite drop_app_length', take_app_length; [done|].
  rewrite length_take, length_app, length_replicate. lia.
Qed.

(** ** The data a command moves *)

(** The bytes of the image at [pos], 0xff past its end. *)
Definition padded (f : file) (pos len : Z) : list Z :=
  map (fun i => default 0xff (content f !! Z.to_nat (pos + i))) (seqZ 0 len).

Lemma padded_split f pos n m :
  0 <= n -> 0 <= m -> padded f pos (n + m) = padded f pos n ++ padded f (pos + n) m.
Proof.
  intros. unfold padded. rewrite seqZ_app, map_app by lia. f_equal.
  replace (0 + n) with (n + 0) by lia. rewrite <- fmap_add_seqZ, <- list_fmap_compose.
  apply list_fmap_ext. intros i x _. cbn. do 3 f_equal. lia.
Qed.

Lemma padded_length f pos n : 0 <= n -> Z.of_nat (length (padded f pos n)) = n.
Proof. intros. unfold padded. rewrite length_map, length_seqZ. lia. Qed.

(** A short read stops at the end of the file. *)
Lemma read_bytes_spec f pos n :
  0 <= pos -> 0 <= n ->
  let k := Z.of_nat (length (read_bytes f pos n)) in
  read_bytes f pos n = padded f pos k /\ k <= n /\ (k < n -> file_len f <= pos + k).
Proof.
  intros Hp Hn. unfold read_bytes, file_len. rewrite length_take, length_drop. cbv zeta.
  split; [|lia]. apply list_eq. intros i. unfold padded.
  set (m := (Z.to_nat n `min` (length (content f) - Z.to_nat pos))%nat).
  destruct (decide (i < m)%nat).
  - rewrite lookup_take_lt, lookup_drop by lia.
    change (map ?g ?l) with (g <$> l). rewrite list_lookup_fmap, lookup_seqZ_lt by lia. cbn.
    assert (Z.to_nat (pos + (0 + Z.of_nat i)) = Z.to_nat pos + i)%nat as -> by lia.
    destruct (lookup_lt_is_Some_2 (content f) (Z.to_nat pos + i) ltac:(lia)) as [b ->]. done.
  - rewrite !lookup_ge_None_2; [done| |].
    + rewrite length_map, length_seqZ. lia.
    + rewrite length_take, length_drop. lia.
Qed.

Lemma padded_eof f pos n : 0 <= pos -> 0 <= n -> file_len f <= pos ->
  padded f pos n = replicate (Z.to_nat n) 0xff.
Proof.
  intros Hp Hn Hl. unfold file_len in Hl. apply list_eq. intros i.
  unfold padded. change (map ?g ?l) with (g <$> l). rewrite list_lookup_fmap.
  destruct (decide (i < Z.to_nat n)%nat).
  - rewrite lookup_replicate_2, lookup_seqZ_lt by lia. cbn. by rewrite lookup_ge_None_2 by lia.
  - rewrite lookup_seqZ_ge by lia. symmetry. apply lookup_replicate_None. lia.
Qed.

(** A host that stores everything, and one that stores nothing. *)
Definition takes_all (f : file) : Prop := forall pos n, 0 <= n -> write_result f pos n = n.
Definition takes_none (f : file) : Prop := forall pos n, write_result f pos n < 0.

Lemma do_write_all f pos bs : takes_all f -> 0 < Z.of_nat (length bs) ->
  do_write f pos bs = (Z.of_nat (length bs), f <| content := splice (content f) pos bs |>).
Proof.
  intros Hw Hn. unfold do_write. rewrite Hw, Z.min_id by lia.
  destruct (Z.ltb_spec (Z.of_nat (length bs)) 0); [lia|]. destruct (Z.eqb_spec (Z.of_nat (length bs)) 0); [lia|].
  by rewrite Nat2Z.id, firstn_all.
Qed.

Lemma do_write_none f pos bs : takes_none f -> do_write f pos bs = (-1, f).
Proof. intros Hw. unfold do_write. specialize (Hw pos (Z.of_nat (length bs))). by rewrite (proj2 (Z.ltb_lt _ 0)) by lia. Qed.

Section transfers.
Context (tb : Z) (Htb : 32 <= tb).

(** Guest memory after [bs] is stored at [a], and after a trace. *)
Definition guest_store (a : Z) (bs : list Z) (mem : Z -> Z) : Z -> Z :=
  fun x => default (mem x) (bs !! Z.to_nat (uwrap tb (x - a))).

Definition deliver (es : list nand_event) (mem : Z -> Z) : Z -> Z :=
  foldl (fun mem e => match e with GuestWrite a bs => guest_store a bs mem | _ => mem end) mem es.

Lemma guest_store_app a c bs mem x :
  Z.of_nat (length c) + Z.of_nat (length bs) <= 2 ^ tb ->
  guest_store (uwrap tb (a + Z.of_nat (length c))) bs (guest_store a c mem) x
  = guest_store a (c ++ bs) mem x.
Proof.
  intros Hl. unfold guest_store. pose proof (pow2_pos tb ltac:(lia)).
  pose proof (uwrap_range tb (x - a) ltac:(lia)) as Hr.
  assert (uwrap tb (x - uwrap tb (a + Z.of_nat (length c))) =
    uwrap tb (uwrap tb (x - a) - Z.of_nat (length c))) as ->.
  { unfold uwrap. rewrite Zminus_mod_idemp_r, Zminus_mod_idemp_l. f_equal. lia. }
  set (k := uwrap tb (x - a)) in *. set (n := Z.of_nat (length c)) in *.
  destruct (Z.ltb_spec k n).
  - rewrite (lookup_app_l c) by lia.
    assert (uwrap tb (k - n) = k - n + 2 ^ tb) as ->.
    { unfold uwrap. rewrite <- (Z_mod_plus_full _ 1), Z.mod_small by lia. lia. }
    by rewrite (lookup_ge_None_2 bs) by lia.
  - rewrite (lookup_app_r c), uwrap_id by (unfold fits; lia).
    rewrite (lookup_ge_None_2 c) by lia. cbn. do 2 f_equal. lia.
Qed.

Lemma read_loop_spec f erase : read_fails f = false -> 0 < erase -> forall fuel pos g len rl eof,
  0 <= pos -> 0 <= len < 2 ^ 32 -> 0 <= rl <= erase ->
  ((eof = true \/ rl < erase) -> len = 0 \/ file_len f <= pos) ->
  len + cbool (negb (eof || (rl <? erase))) <= Z.of_nat fuel ->
  exists es, read_loop tb fuel f erase pos g len rl eof = Ok es /\
    forall mem x, deliver es mem x = guest_store g (padded f pos len) mem x.
Proof.
  intros Hrd He. assert (2 ^ 32 <= 2 ^ tb) as Hw by (apply Z.pow_le_mono_r; lia).
  induction fuel as [|fuel IH]; intros pos g len rl eof Hp Hlen Hrl Heof Hf.
  all: cbn [read_loop]; destruct (Z.leb_spec len 0);
    [exists []; split; [done|]; intros; by assert (len = 0) as -> by lia|].
  { destruct (negb _); cbn in Hf; lia. }
  set (rl' := if rl <? erase then (erase, true) else (rl, eof)).
  assert (rl' = (erase, eof || (rl <? erase))) as ->.
  { subst rl'. destruct (Z.ltb_spec rl erase); [by rewrite orb_true_r|].
    rewrite orb_false_r. f_equal. lia. }
  set (eof' := eof || (rl <? erase)) in *.
  assert (eof' = true -> file_len f <= pos) as Hend.
  { intros E. destruct Heof; [|lia|done]. apply orb_true_iff in E as [|?%Z.ltb_lt]; auto. }
  clearbody eof'. clear Heof.
  set (n := if len <? erase then len else erase).
  assert (0 < n /\ n <= len /\ n <= erase) as (Hn & Hn1 & Hn2)
    by (subst n; destruct (Z.ltb_spec len erase); lia).
  set (chunk := if eof' then replicate (Z.to_nat n) 0xff else read_bytes f pos n).
  set (k := Z.of_nat (length chunk)).
  assert ((if eof' then (n, replicate (Z.to_nat n) 0xff) else do_read f pos n) = (k, chunk)) as ->.
  { subst k chunk. unfold do_read. rewrite Hrd. destruct eof'; [|done]. by rewrite length_replicate, Z2Nat.id by lia. }
  assert (chunk = padded f pos k /\ k <= n /\ (k < n -> file_len f <= pos + k) /\
    (eof' = true -> k = n)) as (Hc & Hk & Hshort & Hk').
  { subst k chunk. destruct eof'.
    - rewrite length_replicate, padded_eof by auto with lia.
      rewrite Nat2Z.id. split; [done|lia].
    - destruct (read_bytes_spec f pos n) as (? & ? & ?); [lia..|]. done. }
  destruct (IH (pos + k) (uwrap tb (g + k)) (len - k) k eof') as (es & E & Hes).
  { lia. } { lia. } { lia. }
  { intros [E|Hlt].
    - right. specialize (Hend E). lia.
    - destruct (Z.eqb_spec k n) as [E|]; [|right; lia].
      left. subst n. destruct (Z.ltb_spec len erase); lia. }
  { destruct (Z.eqb_spec k n) as [->|].
    - clear -Hf Hn. clearbody n. destruct eof', (_ <? _); cbn in *; lia.
    - assert (eof' = false) as -> by (destruct eof'; [lia|done]).
      assert (k < erase) as ->%Z.ltb_lt by lia. cbn in Hf |- *. lia. }
  exists (GuestWrite g chunk :: es). split.
  { fold k. rewrite (uwrap_id 32), (uwrap_id 64) by (unfold fits; lia). rewrite E. done. }
  intros mem x. cbn [deliver foldl]. fold (deliver es (guest_store g chunk mem)).
  rewrite Hes, Hc. rewrite <- (padded_length f pos k) at 1 by lia.
  replace len with (k + (len - k)) at 2 by lia. rewrite padded_split by lia.
  apply guest_store_app. rewrite !padded_length by lia. lia.
Qed.

Context (mem : Z -> Z) (read_batch : Z -> batch_data).

Lemma write_loop_ok f : takes_all f -> forall fuel pos g len wl,
  0 <= pos -> 0 < wl -> 0 < len < 2 ^ 32 -> len <= Z.of_nat fuel ->
  write_loop tb mem fuel f pos g len wl
  = Ok (0, f <| content := splice (content f) pos (guest_read tb mem g len) |>).
Proof.
  intros Hw fuel. revert f Hw. induction fuel as [|fuel IH]; intros f Hw pos g len wl Hp Hwl Hlen Hf;
    [lia|].
  cbn [write_loop]. destruct (Z.leb_spec len 0); [lia|].
  set (n := if len <? wl then len else wl).
  assert (0 < n <= len) as Hn by (subst n; destruct (Z.ltb_spec len wl); lia).
  rewrite do_write_all by (rewrite ?guest_read_length; done || lia). cbv beta iota zeta.
  rewrite guest_read_length by lia. rewrite uwrap_id, Z.ltb_irrefl by (unfold fits; lia).
  destruct (Z.eqb_spec n len) as [->|].
  - replace (len - len) with 0 by lia. by destruct fuel.
  - rewrite IH by (done || lia). do 2 f_equal. cbn.
    replace (guest_read tb mem g len) with (guest_read tb mem g (n + (len - n)))
      by (f_equal; lia).
    rewrite guest_read_split by lia. rewrite <- splice_splice by lia.
    by rewrite guest_read_length by lia.
Qed.

Lemma erase_loop_ok f : takes_all f -> forall fuel pos len wl,
  0 <= pos -> 0 < wl -> 0 < len < 2 ^ 32 -> len <= Z.of_nat fuel ->
  erase_loop fuel f pos len wl
  = Ok (0, f <| content := splice (content f) pos (replicate (Z.to_nat len) 0xff) |>).
Proof.
  intros Hw fuel. revert f Hw. induction fuel as [|fuel IH]; intros f Hw pos len wl Hp Hwl Hlen Hf;
    [lia|].
  cbn [erase_loop]. destruct (Z.leb_spec len 0); [lia|].
  set (n := if len <? wl then len else wl).
  assert (0 < n <= len) as Hn by (subst n; destruct (Z.ltb_spec len wl); lia).
  rewrite do_write_all by (rewrite ?length_replicate; done || lia). cbv beta iota zeta.
  rewrite length_replicate, Z2Nat.id by lia.
  rewrite uwrap_id, Z.ltb_irrefl by (unfold fits; lia).
  destruct (Z.eqb_spec n len) as [->|].
  - replace (len - len) with 0 by lia. by destruct fuel.
  - rewrite IH by (done || lia). do 2 f_equal. cbn.
    replace (Z.to_nat len) with (Z.to_nat n + Z.to_nat (len - n))%nat by lia.
    rewrite replicate_add. rewrite <- splice_splice by lia.
    by rewrite length_replicate, Z2Nat.id by lia.
Qed.

(** On a full disk every [write] of the loops "succeeds". *)
Lemma write_loop_full f : takes_none f -> forall fuel pos g len wl,
  0 < wl -> 0 <= len < 2 ^ 32 -> len <= Z.of_nat fuel ->
  write_loop tb mem fuel f pos g len wl = Ok (0, f) /\ erase_loop fuel f pos len wl = Ok (0, f).
Proof.
  intros Hw. induction fuel as [|fuel IH]; intros pos g len wl Hwl Hlen Hf;
    cbn [write_loop erase_loop]; destruct (Z.leb_spec len 0);
    try (assert (len = 0) as -> by lia; done).
  set (n := if len <? wl then len else wl).
  assert (0 < n <= len) as Hn by (subst n; destruct (Z.ltb_spec len wl); lia).
  rewrite !do_write_none by done. cbv beta iota zeta.
  change (u64 (-1)) with (2 ^ 64 - 1).
  assert ((2 ^ 64 - 1 <? n) = false) as -> by (apply Z.ltb_ge; lia). apply IH; lia.
Qed.

(** The selected device is [d], its image the file [f]; the address is [a],
    inside the capacity, and [n] the part of the size that fits. *)
Record addressed (s : controller) (d : nand_dev) (f : file) (a n : Z) : Prop := {
  addressed_dev : nand_devs s !! Z.to_nat (dev s) = Some d;
  addressed_fd : fd d = Some f;
  addressed_erase : 0 < erase_size d;
  addressed_addr : Z.lor (addr_low s) (Z.shiftl (addr_high s) 32) = a;
  addressed_range : 0 <= a < max_size d;
  addressed_size : 0 < transfer_size s < 2 ^ 32;
  addressed_clip : n = Z.min (transfer_size s) (max_size d - a);
}.

Lemma addressed_spec s d f a n : addressed s d f a n ->
  0 < n < 2 ^ 32 /\ clip d a (transfer_size s) = n /\ (max_size d <=? a) = false.
Proof.
  intros []. split; [lia|]. split; [|lia]. unfold clip.
  destruct (Z.ltb_spec (max_size d - a) (transfer_size s)); [|lia].
  rewrite uwrap_id by (unfold fits; lia). lia.
Qed.

Definition set_image (s : controller) (d : nand_dev) (f : file) : controller :=
  s <| nand_devs ::= <[Z.to_nat (dev s) := d <| fd := Some f |>]> |>.

Lemma do_cmd_read s d f a n : addressed s d f a n -> read_fails f = false ->
  exists es, nand_dev_do_cmd tb mem read_batch NAND_CMD_READ s = Ok (n, s, es) /\
    forall m x, deliver es m x = guest_store (uwrap tb (data s)) (padded f a n) m x.
Proof.
  intros Ha Hrd. destruct (addressed_spec _ _ _ _ _ Ha) as (Hn & Hclip & Hmax). destruct Ha.
  destruct (read_loop_spec f (erase_size d) Hrd addressed_erase0 (Z.to_nat (n + 1)) a
    (uwrap tb (data s)) n (erase_size d) false) as (es & E & Hes); [lia..| | |].
  { intros [|]; [done|lia]. }
  { rewrite Z.ltb_irrefl. cbn. lia. }
  exists es. split; [|done]. unfold nand_dev_do_cmd, cmd_read.
  cbn [is_batch orb Z.eqb NAND_CMD_READ NAND_CMD_WRITE_BATCH NAND_CMD_READ_BATCH
    NAND_CMD_ERASE_BATCH NAND_CMD_GET_DEV_NAME Pos.eqb].
  run_prog. rewrite addressed_dev0, addressed_addr0, Hmax, addressed_fd0, Hclip.
  unfold nand_dev_read_file, read_rounds, obind. rewrite Hrd, E. cbn. by rewrite app_nil_r.
Qed.

(** A loop whose reads fail copies nothing, and ends when its count has wrapped. *)
Lemma read_loop_fails f erase : read_fails f = true -> 0 < erase < 2 ^ 32 -> forall fuel pos g len rl,
  0 <= len < 2 ^ 32 -> erase <= rl < 2 ^ 64 -> 2 ^ 32 - len <= Z.of_nat fuel ->
  exists es, read_loop tb fuel f erase pos g len rl false = Ok es /\ forall mem x, deliver es mem x = mem x.
Proof.
  intros Hrd He. induction fuel as [|fuel IH]; intros pos g len rl Hlen Hrl Hf; [lia|].
  cbn [read_loop]. destruct (Z.leb_spec len 0); [by exists []|].
  rewrite (proj2 (Z.ltb_ge rl erase)) by lia. unfold do_read. rewrite Hrd.
  assert (exists es, read_loop tb fuel f erase (pos + Z.of_nat (length (@nil Z))) (uwrap tb (g + -1)) (u32 (len - -1)) (u64 (-1)) false = Ok es /\
    forall mem x, deliver es mem x = mem x) as (es & E & Hes).
  { destruct (Z.eqb_spec len (2 ^ 32 - 1)) as [->|].
    - exists []. split; [by destruct fuel|done].
    - rewrite (uwrap_id 32) by (unfold fits; lia). apply IH; [lia|change (u64 (-1)) with (2 ^ 64 - 1); lia|lia]. }
  rewrite E. eexists. split; [reflexivity|]. intros m x. cbn [deliver foldl]. apply Hes.
Qed.

(** A batch read is a read with the parameters of the block. *)
Lemma read_batch_loads s :
  nand_dev_do_cmd tb mem read_batch NAND_CMD_READ_BATCH s
  = nand_dev_do_cmd tb mem read_batch NAND_CMD_READ (load_batch read_batch s).
Proof.
  unfold nand_dev_do_cmd.
  cbn [is_batch orb Z.eqb NAND_CMD_READ NAND_CMD_WRITE_BATCH NAND_CMD_READ_BATCH
    NAND_CMD_ERASE_BATCH NAND_CMD_GET_DEV_NAME Pos.eqb]. run_prog.
  destruct (_ !! _); [|done]. by destruct (cmd_read _ _ _ _ _ _) as [[[? ?] ?]|].
Qed.

(** The two commands that change an image, and the bytes they put there. *)
Definition stores (cmd : Z) (s : controller) (n : Z) (bs : list Z) : Prop :=
  cmd = NAND_CMD_WRITE /\ bs = guest_read tb mem (uwrap tb (data s)) n \/
  cmd = NAND_CMD_ERASE /\ bs = replicate (Z.to_nat n) 0xff.

Lemma stores_length cmd s n bs : 0 <= n -> stores cmd s n bs -> Z.of_nat (length bs) = n.
Proof.
  intros Hn [[_ ->]|[_ ->]]; [by apply guest_read_length|]. rewrite length_replicate. lia.
Qed.

Lemma do_cmd_stores cmd s d f a n bs :
  addressed s d f a n -> read_only d = false -> stores cmd s n bs ->
  (takes_all f -> nand_dev_do_cmd tb mem read_batch cmd s
    = Ok (n, set_image s d (f <| content := splice (content f) a bs |>), [])) /\
  (takes_none f -> nand_dev_do_cmd tb mem read_batch cmd s = Ok (n, set_image s d f, [])).
Proof.
  intros Ha Hro Hst. destruct (addressed_spec _ _ _ _ _ Ha) as (Hn & Hclip & Hmax). destruct Ha.
  destruct Hst as [[-> ->]|[-> ->]]; unfold nand_dev_do_cmd, cmd_write, cmd_erase;
    cbn [is_batch orb Z.eqb NAND_CMD_READ NAND_CMD_WRITE_BATCH NAND_CMD_READ_BATCH NAND_CMD_ERASE
      NAND_CMD_WRITE NAND_CMD_ERASE_BATCH NAND_CMD_GET_DEV_NAME Pos.eqb]; run_prog;
    rewrite addressed_dev0, addressed_addr0, Hro, Hmax, addressed_fd0, Hclip;
    unfold nand_dev_write_file, nand_dev_erase_file, obind.
  - split; intros Hw.
    + rewrite (write_loop_ok f Hw) by lia. cbn. by rewrite Z.sub_0_r.
    + rewrite (proj1 (write_loop_full f Hw (Z.to_nat n) a (uwrap tb (data s)) n (erase_size d)
        ltac:(lia) ltac:(lia) ltac:(lia))). cbn. by rewrite Z.sub_0_r.
  - split; intros Hw.
    + rewrite (erase_loop_ok f Hw) by lia. cbn. by rewrite Z.sub_0_r.
    + rewrite (proj2 (write_loop_full f Hw (Z.to_nat n) a (uwrap tb (data s)) n (erase_size d)
        ltac:(lia) ltac:(lia) ltac:(lia))). cbn. by rewrite Z.sub_0_r.
Qed.

Lemma set_image_same s d f a n : addressed s d f a n -> set_image s d f = s.
Proof.
  intros []. unfold set_image. assert (d <| fd := Some f |> = d) as ->.
  { destruct d. cbn in *. by rewrite addressed_fd0. }
  destruct s as [? ? ? ? ? ? ? ? devs]. cbn in *. unfold set_image, setter. cbn.
  by rewrite (list_insert_id devs).
Qed.

Lemma set_image_addressed s d f f' a n v :
  addressed s d f a n ->
  addressed (set_image s d f' <| data := v |>) (d <| fd := Some f' |>) f' a n.
Proof.
  intros []. constructor; try done. cbn.
  apply list_lookup_insert_eq. by eapply lookup_lt_Some.
Qed.

Lemma padded_splice f pos bs : 0 <= pos ->
  padded (f <| content := splice (content f) pos bs |>) pos (Z.of_nat (length bs)) = bs.
Proof.
  intros Hp. set (f' := f <| content := splice (content f) pos bs |>).
  assert (read_bytes f' pos (Z.of_nat (length bs)) = bs) as E.
  { unfold read_bytes. rewrite Nat2Z.id. by apply take_drop_splice. }
  destruct (read_bytes_spec f' pos (Z.of_nat (length bs))) as (E' & _); [lia..|].
  by rewrite E in E'.
Qed.

(** A read command, with its parameters in the registers or in a batch
    block, delivers to the guest's buffer the bytes of the image from the
    address on, 0xff where the file is shorter than the disk, clipped to the
    capacity; the number of bytes is left in the result register and, for a
    batch, written back to the block.  No disk changes, and the copy loop
    ends wherever the file does. *)
Theorem nand_read_returns_image (batch : bool) s d f a n :
  let s1 := if batch then load_batch read_batch s else s in
  addressed s1 d f a n -> read_fails f = false ->
  exists es,
    nand_dev_write tb mem read_batch NAND_COMMAND
      (if batch then NAND_CMD_READ_BATCH else NAND_CMD_READ) s
    = Ok (tt, s1 <| result := n |>, es ++ (if batch then [BatchResult (bd_addr s) n] else [])) /\
    forall m x, deliver es m x = guest_store (uwrap tb (data s1)) (padded f a n) m x.
Proof.
  intros s1 Ha Hrd. destruct (do_cmd_read _ _ _ _ _ Ha Hrd) as (es & E & Hes).
  exists es. split; [|done].
  change (nand_dev_write tb mem read_batch NAND_COMMAND) with (fun value : Z =>
    r <- nand_dev_do_cmd tb mem read_batch value ;; modify (fun s => s <| result := r |>) ;;;
    when (is_batch value) (s <- gets (fun s => s) ;; emit (BatchResult (bd_addr s) (result s)))).
  assert (nand_dev_do_cmd tb mem read_batch
    (if batch then NAND_CMD_READ_BATCH else NAND_CMD_READ) s = Ok (n, s1, es)) as E'.
  { subst s1. destruct batch; [by rewrite read_batch_loads|done]. }
  cbv beta. unfold bind at 1. rewrite E'. destruct batch; cbn; by rewrite ?app_nil_r.
Qed.

(** C28: A write (an erase) of the guest on a writable image stores the bytes
    of the guest's buffer (0xff) in the range addressed and nowhere else, and a
    later read of the range, into any buffer, delivers exactly those bytes,
    if the device has a file and the host neither fails to write nor to read it. *)
Theorem nand_write_read_back cmd s d f a n bs g :
  addressed s d f a n -> read_only d = false -> takes_all f -> read_fails f = false -> stores cmd s n bs ->
  exists s1 es,
    nand_dev_do_cmd tb mem read_batch cmd s = Ok (n, s1, []) /\
    s1 = set_image s d (f <| content := splice (content f) a bs |>) /\
    nand_dev_do_cmd tb mem read_batch NAND_CMD_READ (s1 <| data := g |>)
      = Ok (n, s1 <| data := g |>, es) /\
    forall m x, deliver es m x = guest_store (uwrap tb g) bs m x.
Proof.
  intros Ha Hro Hw Hrd Hst. pose proof (proj1 (do_cmd_stores _ _ _ _ _ _ _ Ha Hro Hst) Hw) as E.
  set (f' := f <| content := splice (content f) a bs |>) in *.
  destruct (do_cmd_read _ _ _ _ _ (set_image_addressed s d f f' a n g Ha) Hrd) as (es & E' & Hes).
  exists (set_image s d f'), es. repeat split; [done..|].
  intros m x. rewrite Hes. cbn. destruct (addressed_spec _ _ _ _ _ Ha) as [Hn _].
  rewrite <- (stores_length cmd s n bs) by (done || lia).
  subst f'. rewrite padded_splice; [done|]. destruct Ha. lia.
Qed.

(** When the host cannot store the data (the image's file system is
    full), a write or an erase changes nothing and still returns the full
    count: the guest is told that it succeeded. *)
Theorem nand_failed_write_reported cmd s d f a n bs :
  addressed s d f a n -> read_only d = false -> takes_none f -> stores cmd s n bs ->
  nand_dev_do_cmd tb mem read_batch cmd s = Ok (n, s, []).
Proof.
  intros Ha Hro Hw Hst. rewrite (proj2 (do_cmd_stores _ _ _ _ _ _ _ Ha Hro Hst) Hw).
  by rewrite (set_image_same _ _ _ _ _ Ha).
Qed.

(** A read the host fails is not noticed either: the result -1 becomes the
    largest count, the loop goes on until its own count has wrapped, and the
    guest is told that the whole range was read, while its buffer holds what it
    did before. *)
Theorem nand_failed_read_reported s d f a n :
  addressed s d f a n -> erase_size d < 2 ^ 32 -> read_fails f = true ->
  exists es, nand_dev_do_cmd tb mem read_batch NAND_CMD_READ s = Ok (n, s, es) /\ forall m x, deliver es m x = m x.
Proof.
  intros Ha He Hrd. destruct (addressed_spec _ _ _ _ _ Ha) as (Hn & Hclip & Hmax). destruct Ha.
  destruct (read_loop_fails f (erase_size d) Hrd ltac:(lia) (Z.to_nat (2 ^ 32)) a (uwrap tb (data s)) n (erase_size d))
    as (es & E & Hes); [lia..|].
  exists es. split; [|done]. unfold nand_dev_do_cmd, cmd_read.
  cbn [is_batch orb Z.eqb NAND_CMD_READ NAND_CMD_WRITE_BATCH NAND_CMD_READ_BATCH
    NAND_CMD_ERASE_BATCH NAND_CMD_GET_DEV_NAME Pos.eqb].
  run_prog. rewrite addressed_dev0, addressed_addr0, Hmax, addressed_fd0, Hclip.
  unfold nand_dev_read_file, read_rounds, obind. rewrite Hrd, E. cbn. by rewrite app_nil_r.
Qed.
End transfers.

(** ** Snapshots carry the images *)
Section snapshot.
Context {F G : Type} `{Sink F, Source G}.

Lemma save_loop_writes f max : read_fails f = false -> file_len f <= max -> forall fuel pos,
  0 <= pos <= file_len f -> file_len f - pos < NAND_DEV_SAVE_DISK_BUF_SIZE * Z.of_nat fuel ->
  writes (F := F) (save_loop fuel f max pos) (drop (Z.to_nat pos) (content f)).
Proof.
  intros Hrd Hmax. unfold NAND_DEV_SAVE_DISK_BUF_SIZE.
  induction fuel as [|fuel IH]; intros pos Hp Hf.
  { lia. }
  cbn [save_loop]. unfold NAND_DEV_SAVE_DISK_BUF_SIZE, do_read, read_bytes. rewrite Hrd.
  set (l := drop (Z.to_nat pos) (content f)).
  assert (Z.of_nat (length l) = file_len f - pos) as Hl
    by (unfold l, file_len in *; rewrite length_drop; lia).
  rewrite length_take. set (k := Z.of_nat (Z.to_nat 2048 `min` length l)).
  rewrite (proj2 (Z.ltb_ge k 0)) by lia. rewrite <- (take_drop (Z.to_nat 2048) l) at 2.
  apply writes_seq; [apply writes_buffer|].
  destruct (decide (k = 2048 /\ pos + k < max)) as [[Hk Hlt]|Hno].
  - rewrite Hk, Z.eqb_refl. rewrite (proj2 (Z.ltb_lt _ _)) by lia. cbn [andb wwhen].
    subst l. rewrite drop_drop. replace (Z.to_nat pos + Z.to_nat 2048)%nat with (Z.to_nat (pos + 2048)) by lia.
    apply IH; lia.
  - rewrite drop_ge by lia.
    assert ((k =? 2048) && (pos + k <? max) = false) as ->; [|apply writes_skip].
    apply andb_false_iff. destruct (Z.eqb_spec k 2048); [right|by left]. apply Z.ltb_ge. lia.
Qed.

Lemma load_end c f next :
  truncate_fails f = false -> next <= Z.of_nat (length c) <= next ->
  next <= file_len f -> take (Z.to_nat next) (content f) = take (Z.to_nat next) c ->
  reads (F := G) (let '(r, f) := do_ftruncate f (Z.of_nat (length c)) in rret (if r <? 0 then - EIO else 0, f))
    (drop (Z.to_nat next) c) (0, f <| content := c |>).
Proof.
  unfold file_len. intros Hw Hn Hlen Hc. assert (next = Z.of_nat (length c)) as -> by lia.
  rewrite Nat2Z.id in *. rewrite drop_all.
  unfold do_ftruncate. rewrite Hw, Nat2Z.id, take_app_le, Hc, firstn_all by lia. apply reads_ret.
Qed.

Lemma load_loop_reads c : forall fuel f next buf,
  takes_all f -> truncate_fails f = false -> 0 <= next <= Z.of_nat (length c) ->
  (next < Z.of_nat (length c) -> buf = NAND_DEV_SAVE_DISK_BUF_SIZE) ->
  next <= file_len f -> take (Z.to_nat next) (content f) = take (Z.to_nat next) c ->
  Z.of_nat (length c) - next <= NAND_DEV_SAVE_DISK_BUF_SIZE * Z.of_nat fuel ->
  reads (F := G) (load_loop fuel f (Z.of_nat (length c)) next buf) (drop (Z.to_nat next) c)
    (0, f <| content := c |>).
Proof.
  unfold NAND_DEV_SAVE_DISK_BUF_SIZE, file_len.
  induction fuel as [|fuel IH]; intros f next buf Hw Ht Hn Hb Hlen Hc Hf;
    cbn [load_loop]; destruct (Z.ltb_spec next (Z.of_nat (length c))) as [Hlt|];
    try (apply load_end; unfold file_len; done || lia).
  - lia.
  - rewrite (Hb Hlt). clear Hb buf.
    set (k := if Z.of_nat (length c) - next <? 2048 then _ else 2048).
    assert (0 < k <= 2048 /\ next + k <= Z.of_nat (length c) /\
      (next + k < Z.of_nat (length c) -> k = 2048)) as (Hk & Hk1 & Hk2)
      by (subst k; destruct (Z.ltb_spec (Z.of_nat (length c) - next) 2048); lia).
    clearbody k. set (l := drop (Z.to_nat next) c).
    rewrite <- (take_drop (Z.to_nat k) l).
    assert (Z.of_nat (length (take (Z.to_nat k) l)) = k) as Htk
      by (subst l; rewrite length_take, length_drop; lia).
    eapply reads_bind; [apply reads_buffer, Htk|]. cbv beta.
    rewrite Htk, Z.eqb_refl. cbn [negb]. rewrite do_write_all by (done || lia). cbv beta iota.
    rewrite Htk, Z.eqb_refl. cbn [negb].
    subst l. rewrite drop_drop.
    replace (Z.to_nat next + Z.to_nat k)%nat with (Z.to_nat (next + k)) by lia.
    set (f' := f <| content := splice _ _ _ |>).
    change (f <| content := c |>) with (f' <| content := c |>). apply IH; [done|done|lia|auto| | |lia].
    + cbn. rewrite splice_length by lia. lia.
    + cbn. unfold splice. rewrite app_assoc.
      assert (take (Z.to_nat next) (content f ++ replicate (Z.to_nat next - length (content f)) 0)
        = take (Z.to_nat next) c) as -> by (rewrite take_app_le by lia; done).
      rewrite take_app_length' by (rewrite length_app, length_take; lia).
      rewrite take_take_drop. f_equal. lia.
Qed.

(** A disk that can be saved, and one it can be restored into. *)
Definition restorable (d d0 : nand_dev) : Prop :=
  exists f f0, fd d = Some f /\ fd d0 = Some f0 /\ read_fails f = false /\ takes_all f0 /\ truncate_fails f0 = false /\
    file_len f <= max_size d /\ file_len f <= max_size d0 /\ file_len f < 2 ^ 64.

Definition image (d : nand_dev) : list Z :=
  match fd d with Some f => content f | None => [] end.
Definition disk_bytes (d : nand_dev) : list Z := be64 (Z.of_nat (length (image d))) ++ image d.
Definition restored_disk (d d0 : nand_dev) : nand_dev :=
  d0 <| fd ::= fmap (fun f0 => f0 <| content := image d |>) |>.

Lemma disk_writes d d0 : restorable d d0 -> writes (F := F) (nand_dev_save_disk_state d) (disk_bytes d).
Proof.
  intros (f & f0 & Hd & Hd0 & Hrd & Hw & Ht & Hmax & Hmax0 & Hlen).
  unfold nand_dev_save_disk_state, disk_bytes, image. rewrite Hd.
  apply writes_seq; [apply writes_be64|].
  apply (save_loop_writes f (max_size d) Hrd Hmax _ 0); unfold file_len in *; [lia|].
  unfold NAND_DEV_SAVE_DISK_BUF_SIZE.
  pose proof (Z.mul_succ_div_gt (Z.of_nat (length (content f))) 2048 ltac:(lia)). lia.
Qed.

Lemma disk_reads d d0 : restorable d d0 ->
  reads (F := G) (nand_dev_load_disk_state d0) (disk_bytes d) (0, restored_disk d d0).
Proof.
  intros (f & f0 & Hd & Hd0 & Hrd & Hw & Ht & Hmax & Hmax0 & Hlen). unfold file_len in *.
  unfold nand_dev_load_disk_state, disk_bytes, restored_disk, image. rewrite Hd.
  replace (d0 <| fd ::= _ |>) with (d0 <| fd := Some (f0 <| content := content f |>) |>)
    by (unfold setter; cbn; by rewrite Hd0).
  rewrite Hd0.
  eapply reads_bind; [apply reads_be64|]. cbv beta. rewrite uwrap_id by (unfold fits; lia).
  rewrite (proj2 (Z.ltb_ge _ _)) by lia.
  apply (reads_last _ _ _ (0, f0 <| content := content f |>)); [|apply reads_ret].
  apply (load_loop_reads (content f) _ f0 0); unfold file_len; try done; [lia..|].
  unfold NAND_DEV_SAVE_DISK_BUF_SIZE.
  pose proof (Z.mul_succ_div_gt (Z.of_nat (length (content f))) 2048 ltac:(lia)). lia.
Qed.

Lemma disks_writes ds ds0 : Forall2 restorable ds ds0 ->
  writes (F := F) (nand_dev_save_disks ds) (concat (map disk_bytes ds)).
Proof.
  intros Hds. apply writes_all. intros d Hd.
  apply list_elem_of_lookup in Hd as [i Hi].
  destruct (Forall2_lookup_l _ _ _ _ _ Hds Hi) as (d0 & _ & Hr). by eapply disk_writes.
Qed.

Lemma disks_reads ds ds0 : Forall2 restorable ds ds0 ->
  reads (F := G) (nand_dev_load_disks ds0) (concat (map disk_bytes ds))
    (0, zip_with restored_disk ds ds0).
Proof.
  induction 1 as [|d d0 ds ds0 Hd Hds IH]; [apply reads_ret|].
  cbn [nand_dev_load_disks map concat].
  eapply reads_bind; [by apply disk_reads|]. cbn [fst snd nz Z.eqb negb].
  eapply reads_last; [apply IH|]. apply reads_ret.
Qed.

Definition registers_fit (s : controller) : Prop :=
  fits 32 (dev s) /\ fits 32 (addr_low s) /\ fits 32 (addr_high s) /\ fits 32 (transfer_size s) /\
  fits 64 (data s) /\ fits 32 (batch_addr_low s) /\ fits 32 (batch_addr_high s) /\
  fits 32 (result s).

(** The stream of a snapshot; [wide] is false in the older format, where the
    data register has 32 bits. *)
Definition register_bytes (wide : bool) (s : controller) : list Z :=
  (be32 (dev s) ++ be32 (addr_low s) ++ be32 (addr_high s) ++ be32 (transfer_size s) ++ []) ++
  (if wide then be64 (data s) else be32 (data s)) ++
  (be32 (batch_addr_low s) ++ be32 (batch_addr_high s) ++ be32 (result s) ++ []).
Definition snapshot_bytes (wide : bool) (s : controller) : list Z :=
  register_bytes wide s ++ concat (map disk_bytes (nand_devs s)).

Lemma legacy_1_reads s s0 : registers_fit s ->
  reads (F := G) (qemu_get_struct nand_dev_controller_state_legacy_1_fields s0)
    (be32 (dev s) ++ be32 (addr_low s) ++ be32 (addr_high s) ++ be32 (transfer_size s) ++ [])
    (0, s0 <| dev := dev s |> <| addr_low := addr_low s |> <| addr_high := addr_high s |>
           <| transfer_size := transfer_size s |>).
Proof.
  intros (? & ? & ? & ? & _). cbn [nand_dev_controller_state_legacy_1_fields qemu_get_struct].
  repeat (eapply reads_bind; [apply reads_be32|]; cbv beta).
  rewrite !uwrap_id by done. apply reads_ret.
Qed.

Lemma legacy_2_reads s s0 : registers_fit s ->
  reads (F := G) (qemu_get_struct nand_dev_controller_state_legacy_2_fields s0)
    (be32 (batch_addr_low s) ++ be32 (batch_addr_high s) ++ be32 (result s) ++ [])
    (0, s0 <| batch_addr_low := batch_addr_low s |> <| batch_addr_high := batch_addr_high s |>
           <| result := result s |>).
Proof.
  intros (_ & _ & _ & _ & _ & ? & ? & ?).
  cbn [nand_dev_controller_state_legacy_2_fields qemu_get_struct].
  repeat (eapply reads_bind; [apply reads_be32|]; cbv beta).
  rewrite !uwrap_id by done. apply reads_ret.
Qed.

Lemma qemu_get_struct_app {S} (fs1 fs2 : list (qfield S)) st (g : G) :
  qemu_get_struct (fs1 ++ fs2) st g
  = rbind (qemu_get_struct fs1 st)
      (fun r => if nz (fst r) then rret r else qemu_get_struct fs2 (snd r)) g.
Proof.
  revert st g. induction fs1 as [|[] fs1 IH]; intros st g; [done|..]; cbn [app qemu_get_struct];
    unfold rbind in *; try apply IH.
  cbn. destruct (_ =? _); [apply IH|done].
Qed.

Definition restored_controller (s s0 : controller) : controller :=
  s <| nand_devs := zip_with restored_disk (nand_devs s) (nand_devs s0) |>.

Lemma rest_reads s s0 : Forall2 restorable (nand_devs s) (nand_devs s0) ->
  reads (F := G) (load_rest (0, s <| nand_devs := nand_devs s0 |>))
    (concat (map disk_bytes (nand_devs s))) (0, restored_controller s s0).
Proof.
  intros Hds.
  apply (reads_last _ _ _ (0, zip_with restored_disk (nand_devs s) (nand_devs s0)));
    [by apply disks_reads|]. apply reads_ret.
Qed.

(** C33: A snapshot of the controller carries its registers and the content of
    every disk image, and loading it into a controller with the same disks
    (whatever their images hold, shorter or longer) restores all of them byte
    for byte; a stream of the older version, with a 32-bit data register, is
    restored too.  The copy loops end.  The disks have files, no longer than their
    capacity, on which the host does not fail ([restorable]). *)
Theorem nand_snapshot s s0 :
  registers_fit s -> Forall2 restorable (nand_devs s) (nand_devs s0) ->
  writes (F := F) (nand_dev_controller_state_save s) (snapshot_bytes true s) /\
  reads (F := G) (nand_dev_controller_state_load NAND_DEV_STATE_SAVE_VERSION s0)
    (snapshot_bytes true s) (0, restored_controller s s0) /\
  (fits 32 (data s) ->
   reads (F := G) (nand_dev_controller_state_load NAND_DEV_STATE_SAVE_VERSION_LEGACY s0)
     (snapshot_bytes false s) (0, restored_controller s s0)).
Proof.
  intros Hs Hds. unfold snapshot_bytes. split; [|split].
  - apply writes_seq; [|by eapply disks_writes].
    unfold register_bytes. rewrite <- !app_assoc. cbn [app].
    repeat (apply writes_seq; [apply writes_be32 || apply writes_be64|]). apply writes_skip.
  - apply (reads_bind _ _ _ _ (0, s <| nand_devs := nand_devs s0 |>)); [|by apply rest_reads].
    unfold register_bytes. intros g r Hg Hr.
    unfold nand_dev_controller_state_fields. rewrite qemu_get_struct_app. revert g r Hg Hr.
    eapply reads_bind; [by apply legacy_1_reads|]. cbn [fst snd nz Z.eqb negb qemu_get_struct].
    eapply reads_bind; [apply reads_be64|]. cbv beta. rewrite uwrap_id by apply Hs.
    by apply legacy_2_reads.
  - intros Hd. pose proof (legacy_1_reads s s0 Hs) as H1. pose proof (fun t => legacy_2_reads s t Hs) as H2.
    unfold register_bytes. set (A := be32 (dev s) ++ _) in *.
    set (B := be32 (batch_addr_low s) ++ _) in *. clearbody A B.
    rewrite <- (app_assoc A), <- (app_assoc _ B).
    change (nand_dev_controller_state_load NAND_DEV_STATE_SAVE_VERSION_LEGACY s0) with
      (r <<- qemu_get_struct nand_dev_controller_state_legacy_1_fields s0 ;;
       if nz (fst r) then load_rest (G := G) r
       else v <<- qemu_get_be32 ;;
         r <<- qemu_get_struct nand_dev_controller_state_legacy_2_fields (snd r <| data := v |>) ;;
         load_rest r).
    eapply reads_bind; [exact H1|]. cbn [fst snd nz Z.eqb negb].
    eapply reads_bind; [apply reads_be32|]. cbv beta. rewrite uwrap_id by done.
    eapply reads_bind; [apply H2|]. cbv beta.
    match goal with |- reads (load_rest (0, ?x)) _ _ =>
      replace x with (s <| nand_devs := nand_devs s0 |>) by (by destruct s, s0) end.
    by apply rest_reads.
Qed.
End snapshot.

(** ** Concrete instances *)
Definition demo_file (full : bool) : file := mkFile [1; 2; 3; 4; 5; 6; 7] false (fun _ n => if full then -1 else n) false.
Definition demo_disk (full : bool) : nand_dev :=
  mkNandDev [115; 121; 115] [] (Some (demo_file full)) 0 2 0 4 12.
Definition demo_controller (full : bool) : controller :=
  mkController 0 5 0 100 64 0 0 0 [demo_disk full].
Definition demo_batch (_ : Z) : batch_data := mkBatch 0 5 0 100 64.

Lemma demo_addressed full : addressed (demo_controller full) (demo_disk full) (demo_file full) 5 7.
Proof. by constructor. Defined.

Lemma nand_read_returns_image_witness :
  exists es, nand_dev_write 32 (fun _ => 9) demo_batch NAND_COMMAND NAND_CMD_READ_BATCH
      (demo_controller false <| addr_low := 0 |>)
    = Ok (tt, demo_controller false <| result := 7 |>, es ++ [BatchResult 0 7]) /\
    forall m x, deliver 32 es m x
      = guest_store 32 64 [6; 7; 0xff; 0xff; 0xff; 0xff; 0xff] m x.
Proof.
  destruct (nand_read_returns_image 32 ltac:(lia) (fun _ => 9) demo_batch true
    (demo_controller false <| addr_low := 0 |>) (demo_disk false) (demo_file false) 5 7)
    as (es & E & Hes); [by constructor|done|].
  exists es. split; [exact E|]. intros m x. rewrite Hes. reflexivity.
Defined.

Lemma nand_write_read_back_witness :
  exists s1 es,
    nand_dev_do_cmd 32 (fun a => a) demo_batch NAND_CMD_WRITE (demo_controller false) = Ok (7, s1, []) /\
    s1 = set_image (demo_controller false) (demo_disk false)
           (demo_file false <| content := [1; 2; 3; 4; 5; 64; 65; 66; 67; 68; 69; 70] |>) /\
    nand_dev_do_cmd 32 (fun a => a) demo_batch NAND_CMD_READ (s1 <| data := 1000 |>)
      = Ok (7, s1 <| data := 1000 |>, es) /\
    forall m x, deliver 32 es m x = guest_store 32 1000 [64; 65; 66; 67; 68; 69; 70] m x.
Proof.
  destruct (nand_write_read_back 32 ltac:(lia) (fun a => a) demo_batch NAND_CMD_WRITE
    (demo_controller false) (demo_disk false) (demo_file false) 5 7 [64; 65; 66; 67; 68; 69; 70] 1000
    (demo_addressed false)) as (s1 & es & E1 & -> & E2 & Hes); try done; [by left|].
  eexists _, es. split; [exact E1|]. split; [reflexivity|]. split; [exact E2|].
  intros m x. rewrite Hes. reflexivity.
Defined.

Lemma nand_failed_write_reported_witness :
  nand_dev_do_cmd 32 (fun a => a) demo_batch NAND_CMD_ERASE (demo_controller true)
  = Ok (7, demo_controller true, []).
Proof.
  apply (nand_failed_write_reported 32 ltac:(lia) (fun a => a) demo_batch NAND_CMD_ERASE
    (demo_controller true) (demo_disk true) (demo_file true) 5 7 (replicate 7 0xff)
    (demo_addressed true)); try done.
  by right.
Defined.

Lemma nand_failed_read_reported_witness :
  let s := demo_controller false <| nand_devs := [demo_disk false <| fd := Some (demo_file false <| read_fails := true |>) |>] |> in
  exists es, nand_dev_do_cmd 32 (fun a => a) demo_batch NAND_CMD_READ s = Ok (7, s, es) /\ forall m x, deliver 32 es m x = m x.
Proof.
  intros s. apply (nand_failed_read_reported 32 (fun a => a) demo_batch s
    (demo_disk false <| fd := Some (demo_file false <| read_fails := true |>) |>) (demo_file false <| read_fails := true |>) 5 7);
    [by constructor|reflexivity|reflexivity].
Defined.

Lemma nand_snapshot_witness :
  let s := demo_controller false in
  let s0 := s <| nand_devs := [demo_disk false <| fd := Some (demo_file false <| content := [0; 0] |>) |>] |> in
  writes (F := list Z) (nand_dev_controller_state_save s) (snapshot_bytes true s) /\
  reads (F := list Z) (nand_dev_controller_state_load NAND_DEV_STATE_SAVE_VERSION s0)
    (snapshot_bytes true s) (0, s).
Proof.
  cbv zeta.
  destruct (nand_snapshot (F := list Z) (G := list Z) (demo_controller false)
    (demo_controller false <| nand_devs := [demo_disk false <| fd := Some (demo_file false <| content := [0; 0] |>) |>] |>))
    as (Hw & Hr & _).
  { vm_compute. intuition discriminate. }
  { repeat constructor. exists (demo_file false), (demo_file false <| content := [0; 0] |>).
    repeat split; discriminate. }
  split; [exact Hw|exact Hr].
Defined.

End Nand.
