(* ===== verification/Ps2.v ===== *)
(** The PS/2 keyboard and mouse (hw/input/ps2.c): the byte queue both put
    their replies in, the command interpreters, mouse packets and snapshots.

    The two devices share [PS2State]; [zoom] runs its operations on the
    [common] member.  [update_irq] of the keyboard controller is an event of
    the trace. *)
From Stdlib Require Import ZArith Lia Bool.
From stdpp Require Import base numbers list.
From S2P Require Import Prelude Stream.
Local Open Scope Z_scope.
Local Open Scope prog_scope.
Local Open Scope stream_scope.

Module Ps2.

Definition KBD_CMD_SET_LEDS : Z := 0xED.
Definition KBD_CMD_ECHO : Z := 0xEE.
Definition KBD_CMD_SCANCODE : Z := 0xF0.
Definition KBD_CMD_GET_ID : Z := 0xF2.
Definition KBD_CMD_SET_RATE : Z := 0xF3.
Definition KBD_CMD_ENABLE : Z := 0xF4.
Definition KBD_CMD_RESET_DISABLE : Z := 0xF5.
Definition KBD_CMD_RESET_ENABLE : Z := 0xF6.
Definition KBD_CMD_RESET : Z := 0xFF.
Definition KBD_REPLY_POR : Z := 0xAA.
Definition KBD_REPLY_ID : Z := 0xAB.
Definition KBD_REPLY_ACK : Z := 0xFA.
Definition KBD_REPLY_RESEND : Z := 0xFE.
Definition AUX_SET_SCALE11 : Z := 0xE6.
Definition AUX_SET_SCALE21 : Z := 0xE7.
Definition AUX_SET_RES : Z := 0xE8.
Definition AUX_GET_SCALE : Z := 0xE9.
Definition AUX_SET_STREAM : Z := 0xEA.
Definition AUX_POLL : Z := 0xEB.
Definition AUX_RESET_WRAP : Z := 0xEC.
Definition AUX_SET_WRAP : Z := 0xEE.
Definition AUX_SET_REMOTE : Z := 0xF0.
Definition AUX_GET_TYPE : Z := 0xF2.
Definition AUX_SET_SAMPLE : Z := 0xF3.
Definition AUX_ENABLE_DEV : Z := 0xF4.
Definition AUX_DISABLE_DEV : Z := 0xF5.
Definition AUX_SET_DEFAULT : Z := 0xF6.
Definition AUX_RESET : Z := 0xFF.
Definition AUX_ACK : Z := 0xFA.
Definition MOUSE_STATUS_REMOTE : Z := 0x40.
Definition MOUSE_STATUS_ENABLED : Z := 0x20.
Definition MOUSE_STATUS_SCALE21 : Z := 0x10.
Definition PS2_QUEUE_SIZE : Z := 256.
Definition EINVAL : Z := 22.

Record PS2Queue := mkQueue { data : list Z; rptr : Z; wptr : Z; count : Z }.
#[export] Instance PS2Queue_eta : Settable PS2Queue := fun q =>
  mkQueue (data q) (rptr q) (wptr q) (count q).

Record PS2State := mkPS2 { queue : PS2Queue; write_cmd : Z }.
#[export] Instance PS2State_eta : Settable PS2State := fun s => mkPS2 (queue s) (write_cmd s).

Record PS2KbdState := mkKbd {
  kbd : PS2State;  (* common *)
  scan_enabled : Z;
  translate : Z;
  scancode_set : Z;
}.
#[export] Instance PS2KbdState_eta : Settable PS2KbdState := fun s =>
  mkKbd (kbd s) (scan_enabled s) (translate s) (scancode_set s).

Record PS2MouseState := mkMouse {
  mouse : PS2State;  (* common *)
  mouse_status : Z;
  mouse_resolution : Z;
  mouse_sample_rate : Z;
  mouse_wrap : Z;
  mouse_type : Z;
  mouse_detect_state : Z;
  mouse_dx : Z;
  mouse_dy : Z;
  mouse_dz : Z;
  mouse_buttons : Z;
}.
#[export] Instance PS2MouseState_eta : Settable PS2MouseState := fun s =>
  mkMouse (mouse s) (mouse_status s) (mouse_resolution s) (mouse_sample_rate s) (mouse_wrap s)
    (mouse_type s) (mouse_detect_state s) (mouse_dx s) (mouse_dy s) (mouse_dz s) (mouse_buttons s).

Inductive ps2_event := UpdateIrq (level : Z).

Definition zoom {S T A} (get : S -> T) (put : T -> S -> S) (m : prog T ps2_event A)
  : prog S ps2_event A :=
  fun s => match m (get s) with
           | Ok (a, t, es) => Ok (a, put t s, es)
           | Fault f => Fault f
           end.

Definition in_kbd {A} : prog PS2State ps2_event A -> prog PS2KbdState ps2_event A :=
  zoom kbd (fun c s => s <| kbd := c |>).
Definition in_mouse {A} : prog PS2State ps2_event A -> prog PS2MouseState ps2_event A :=
  zoom mouse (fun c s => s <| mouse := c |>).

(** ** The queue *)

Definition in_array (i : Z) : bool := (0 <=? i) && (i <? PS2_QUEUE_SIZE).
Definition next_ptr (p : Z) : Z := if p + 1 =? PS2_QUEUE_SIZE then 0 else p + 1.

Definition ps2_queue (b : Z) : prog PS2State ps2_event unit :=
  s <- gets (fun s => s) ;;
  let q := queue s in
  if PS2_QUEUE_SIZE <=? count q then ret tt
  else
    when (negb (in_array (wptr q))) (abort OutOfBounds) ;;;
    modify (fun s => s <| queue := mkQueue (<[Z.to_nat (wptr q) := u8 b]> (data q)) (rptr q)
                                     (next_ptr (wptr q)) (count q + 1) |>) ;;;
    emit (UpdateIrq 1).

Definition ps2_read_data : prog PS2State ps2_event Z :=
  s <- gets (fun s => s) ;;
  let q := queue s in
  if count q =? 0 then
    let index := if rptr q - 1 <? 0 then PS2_QUEUE_SIZE - 1 else rptr q - 1 in
    when (negb (in_array index)) (abort OutOfBounds) ;;;
    ret (nth (Z.to_nat index) (data q) 0)
  else
    when (negb (in_array (rptr q))) (abort OutOfBounds) ;;;
    modify (fun s => s <| queue := q <| rptr := next_ptr (rptr q) |> <| count := count q - 1 |> |>) ;;;
    emit (UpdateIrq 0) ;;;
    s <- gets (fun s => s) ;;
    emit (UpdateIrq (cbool (negb (count (queue s) =? 0)))) ;;;
    ret (nth (Z.to_nat (rptr q)) (data q) 0).

Definition ps2_reset : prog PS2State ps2_event unit :=
  modify (fun s => s <| write_cmd := -1 |> <| queue ::= fun q => mkQueue (data q) 0 0 0 |>) ;;;
  emit (UpdateIrq 0).

(** ** The keyboard *)

Definition ps2_raw_keycode : list Z :=
  [  0;118; 22; 30; 38; 37; 46; 54; 61; 62; 70; 69; 78; 85;102; 13;
    21; 29; 36; 45; 44; 53; 60; 67; 68; 77; 84; 91; 90; 20; 28; 27;
    35; 43; 52; 51; 59; 66; 75; 76; 82; 14; 18; 93; 26; 34; 33; 42;
    50; 49; 58; 65; 73; 74; 89;124; 17; 41; 88;  5;  6;  4; 12;  3;
    11;  2; 10;  1;  9;119;126;108;117;125;123;107;115;116;121;105;
   114;122;112;113;127; 96; 97;120;  7; 15; 23; 31; 39; 47; 55; 63;
    71; 79; 86; 94;  8; 16; 24; 32; 40; 48; 56; 64; 72; 80; 87;111;
    19; 25; 57; 81; 83; 92; 95; 98; 99;100;101;103;104;106;109;110].

Definition K := prog PS2KbdState ps2_event.
Definition kq (b : Z) : K unit := in_kbd (ps2_queue b).

Definition ps2_put_keycode (keycode : Z) : K unit :=
  s <- gets (fun s => s) ;;
  if (translate s =? 0) && (keycode <? 0xe0) && (scancode_set s =? 2) then
    when (nz (Z.land keycode 0x80)) (kq 0xf0) ;;;
    kq (nth (Z.to_nat (Z.land keycode 0x7f)) ps2_raw_keycode 0)
  else kq keycode.

Definition ps2_reset_keyboard : K unit :=
  modify (fun s => s <| scan_enabled := 1 |> <| scancode_set := 2 |>).

Definition set_kbd_cmd (v : Z) : K unit := modify (fun s => s <| kbd ::= fun c => c <| write_cmd := v |> |>).

(** A command byte, when no argument is awaited. *)
Definition kbd_command (val : Z) : K unit :=
  if val =? 0x00 then kq KBD_REPLY_ACK
  else if val =? 0x05 then kq KBD_REPLY_RESEND
  else if val =? KBD_CMD_GET_ID then
    kq KBD_REPLY_ACK ;;;
    kq KBD_REPLY_ID ;;;
    s <- gets (fun s => s) ;;
    if nz (translate s) then kq 0x41 else kq 0x83
  else if val =? KBD_CMD_ECHO then kq KBD_CMD_ECHO
  else if val =? KBD_CMD_ENABLE then
    modify (fun s => s <| scan_enabled := 1 |>) ;;;
    kq KBD_REPLY_ACK
  else if (val =? KBD_CMD_SCANCODE) || (val =? KBD_CMD_SET_LEDS) || (val =? KBD_CMD_SET_RATE) then
    set_kbd_cmd val ;;;
    kq KBD_REPLY_ACK
  else if val =? KBD_CMD_RESET_DISABLE then
    ps2_reset_keyboard ;;;
    modify (fun s => s <| scan_enabled := 0 |>) ;;;
    kq KBD_REPLY_ACK
  else if val =? KBD_CMD_RESET_ENABLE then
    ps2_reset_keyboard ;;;
    modify (fun s => s <| scan_enabled := 1 |>) ;;;
    kq KBD_REPLY_ACK
  else if val =? KBD_CMD_RESET then
    ps2_reset_keyboard ;;;
    kq KBD_REPLY_ACK ;;;
    kq KBD_REPLY_POR
  else kq KBD_REPLY_ACK.

Definition ps2_write_keyboard (val : Z) : K unit :=
  s <- gets (fun s => s) ;;
  let cmd := write_cmd (kbd s) in
  if cmd =? KBD_CMD_SCANCODE then
    (if val =? 0 then
       (if scancode_set s =? 1 then ps2_put_keycode 0x43
        else if scancode_set s =? 2 then ps2_put_keycode 0x41
        else if scancode_set s =? 3 then ps2_put_keycode 0x3f
        else ret tt)
     else
       when ((1 <=? val) && (val <=? 3)) (modify (fun s => s <| scancode_set := val |>)) ;;;
       kq KBD_REPLY_ACK) ;;;
    set_kbd_cmd (-1)
  else if (cmd =? KBD_CMD_SET_LEDS) || (cmd =? KBD_CMD_SET_RATE) then
    kq KBD_REPLY_ACK ;;;
    set_kbd_cmd (-1)
  else kbd_command val.

Definition ps2_keyboard_set_translation (mode : Z) : K unit :=
  modify (fun s => s <| translate := mode |>).

Definition ps2_init : PS2State := mkPS2 (mkQueue (replicate (Z.to_nat PS2_QUEUE_SIZE) 0) 0 0 0) 0.
Definition ps2_kbd_init : K unit := modify (fun _ => mkKbd ps2_init 0 0 2) ;;; in_kbd ps2_reset.

(** ** The mouse *)

Definition P := prog PS2MouseState ps2_event.
Definition mq (b : Z) : P unit := in_mouse (ps2_queue b).

Definition clamp (lim v : Z) : Z :=
  if lim <? v then lim else if v <? - lim then - lim else v.

Definition ps2_mouse_send_packet : P unit :=
  s <- gets (fun s => s) ;;
  let dx1 := clamp 127 (mouse_dx s) in
  let dy1 := clamp 127 (mouse_dy s) in
  let b := Z.lor (Z.lor (Z.lor 0x08 (Z.shiftl (cbool (dx1 <? 0)) 4)) (Z.shiftl (cbool (dy1 <? 0)) 5))
             (Z.land (mouse_buttons s) 0x07) in
  mq b ;;;
  mq (Z.land dx1 0xff) ;;;
  mq (Z.land dy1 0xff) ;;;
  dz1 <- (if mouse_type s =? 3 then
            let dz1 := clamp 127 (mouse_dz s) in
            mq (Z.land dz1 0xff) ;;; ret dz1
          else if mouse_type s =? 4 then
            let dz1 := clamp 7 (mouse_dz s) in
            mq (Z.lor (Z.land dz1 0x0f) (Z.shiftl (Z.land (mouse_buttons s) 0x18) 1)) ;;; ret dz1
          else ret (mouse_dz s)) ;;
  modify (fun s => s <| mouse_dx ::= fun d => d - dx1 |> <| mouse_dy ::= fun d => d - dy1 |>
                     <| mouse_dz ::= fun d => d - dz1 |>).

Definition at_rest (s : PS2MouseState) : bool :=
  (mouse_dx s =? 0) && (mouse_dy s =? 0) && (mouse_dz s =? 0).

(** The [for(;;)] of [ps2_mouse_event]. *)
Fixpoint send_loop (fuel : nat) : P unit :=
  match fuel with
  | O => abort FuelExhausted
  | S n =>
      ps2_mouse_send_packet ;;;
      s <- gets (fun s => s) ;;
      if at_rest s then ret tt else send_loop n
  end.

(** Every packet brings each distance closer to zero. *)
Definition send_fuel (s : PS2MouseState) : nat :=
  S (Z.to_nat (Z.abs (mouse_dx s) + Z.abs (mouse_dy s) + Z.abs (mouse_dz s))).

Definition ps2_mouse_event (dx dy dz buttons_state : Z) : P unit :=
  s <- gets (fun s => s) ;;
  if negb (nz (Z.land (mouse_status s) MOUSE_STATUS_ENABLED)) then ret tt
  else
    modify (fun s => s <| mouse_dx ::= fun d => s32 (d + dx) |> <| mouse_dy ::= fun d => s32 (d - dy) |>
                       <| mouse_dz ::= fun d => s32 (d + dz) |>) ;;;
    s <- gets (fun s => s) ;;
    if at_rest s && (mouse_buttons s =? buttons_state) then ret tt
    else
      modify (fun s => s <| mouse_buttons := u8 buttons_state |>) ;;;
      when (negb (nz (Z.land (mouse_status s) MOUSE_STATUS_REMOTE)) &&
            (count (queue (mouse s)) <? PS2_QUEUE_SIZE - 16))
        (send_loop (send_fuel s)).

Definition ps2_mouse_fake_event : P unit := ps2_mouse_event 1 0 0 0.

Definition set_mouse_cmd (v : Z) : P unit := modify (fun s => s <| mouse ::= fun c => c <| write_cmd := v |> |>).

Definition mouse_default (s : PS2MouseState) : PS2MouseState :=
  s <| mouse_sample_rate := 100 |> <| mouse_resolution := 2 |> <| mouse_status := 0 |>.

(** A command byte outside wrap mode. *)
Definition mouse_command (val : Z) : P unit :=
  if val =? AUX_SET_SCALE11 then
    modify (fun s => s <| mouse_status ::= fun m => Z.land m (Z.lnot MOUSE_STATUS_SCALE21) |>) ;;;
    mq AUX_ACK
  else if val =? AUX_SET_SCALE21 then
    modify (fun s => s <| mouse_status ::= fun m => Z.lor m MOUSE_STATUS_SCALE21 |>) ;;;
    mq AUX_ACK
  else if val =? AUX_SET_STREAM then
    modify (fun s => s <| mouse_status ::= fun m => Z.land m (Z.lnot MOUSE_STATUS_REMOTE) |>) ;;;
    mq AUX_ACK
  else if val =? AUX_SET_WRAP then modify (fun s => s <| mouse_wrap := 1 |>) ;;; mq AUX_ACK
  else if val =? AUX_SET_REMOTE then
    modify (fun s => s <| mouse_status ::= fun m => Z.lor m MOUSE_STATUS_REMOTE |>) ;;;
    mq AUX_ACK
  else if val =? AUX_GET_TYPE then
    mq AUX_ACK ;;;
    s <- gets (fun s => s) ;;
    mq (mouse_type s)
  else if (val =? AUX_SET_RES) || (val =? AUX_SET_SAMPLE) then
    set_mouse_cmd val ;;;
    mq AUX_ACK
  else if val =? AUX_GET_SCALE then
    s <- gets (fun s => s) ;;
    mq AUX_ACK ;;;
    mq (mouse_status s) ;;;
    mq (mouse_resolution s) ;;;
    mq (mouse_sample_rate s)
  else if val =? AUX_POLL then mq AUX_ACK ;;; ps2_mouse_send_packet
  else if val =? AUX_ENABLE_DEV then
    modify (fun s => s <| mouse_status ::= fun m => Z.lor m MOUSE_STATUS_ENABLED |>) ;;;
    mq AUX_ACK
  else if val =? AUX_DISABLE_DEV then
    modify (fun s => s <| mouse_status ::= fun m => Z.land m (Z.lnot MOUSE_STATUS_ENABLED) |>) ;;;
    mq AUX_ACK
  else if val =? AUX_SET_DEFAULT then modify mouse_default ;;; mq AUX_ACK
  else if val =? AUX_RESET then
    modify (fun s => mouse_default s <| mouse_type := 0 |>) ;;;
    mq AUX_ACK ;;;
    mq 0xaa ;;;
    mq 0
  else ret tt.

(** The sample rates 200, 100, 80 and 200, 200, 80 select the wheel protocols. *)
Definition detect (val : Z) (s : PS2MouseState) : PS2MouseState :=
  if mouse_detect_state s =? 1 then
    s <| mouse_detect_state := if val =? 100 then 2 else if val =? 200 then 3 else 0 |>
  else if mouse_detect_state s =? 2 then
    (if val =? 80 then s <| mouse_type := 3 |> else s) <| mouse_detect_state := 0 |>
  else if mouse_detect_state s =? 3 then
    (if val =? 80 then s <| mouse_type := 4 |> else s) <| mouse_detect_state := 0 |>
  else if val =? 200 then s <| mouse_detect_state := 1 |> else s.

Definition ps2_write_mouse (val : Z) : P unit :=
  s <- gets (fun s => s) ;;
  let cmd := write_cmd (mouse s) in
  if cmd =? AUX_SET_SAMPLE then
    modify (fun s => detect val (s <| mouse_sample_rate := u8 val |>)) ;;;
    mq AUX_ACK ;;;
    set_mouse_cmd (-1)
  else if cmd =? AUX_SET_RES then
    modify (fun s => s <| mouse_resolution := u8 val |>) ;;;
    mq AUX_ACK ;;;
    set_mouse_cmd (-1)
  else if nz (mouse_wrap s) && (val =? AUX_RESET_WRAP) then
    modify (fun s => s <| mouse_wrap := 0 |>) ;;;
    mq AUX_ACK
  else if nz (mouse_wrap s) && negb (val =? AUX_RESET) then mq val
  else mouse_command val.

Definition ps2_mouse_init : P unit :=
  modify (fun _ => mkMouse ps2_init 0 0 0 0 0 0 0 0 0 0) ;;; in_mouse ps2_reset.

(** ** Snapshots *)

Definition ps2_common_save {F} `{Sink F} (s : PS2State) : wr F :=
  qemu_put_be32 (write_cmd s) ;>>
  qemu_put_be32 (rptr (queue s)) ;>> qemu_put_be32 (wptr (queue s)) ;>>
  qemu_put_be32 (count (queue s)) ;>>
  qemu_put_buffer (take (Z.to_nat PS2_QUEUE_SIZE) (data (queue s))).

Definition ps2_common_load {G} `{Source G} (s : PS2State) : rd G PS2State :=
  cmd <<- qemu_get_be32 ;;
  r <<- qemu_get_be32 ;;
  w <<- qemu_get_be32 ;;
  c <<- qemu_get_be32 ;;
  bs <<- qemu_get_buffer PS2_QUEUE_SIZE ;;
  rret (mkPS2 (mkQueue (bs ++ drop (length bs) (data (queue s))) (s32 r) (s32 w) (s32 c)) (s32 cmd)).

Definition ps2_kbd_save {F} `{Sink F} (s : PS2KbdState) : wr F :=
  ps2_common_save (kbd s) ;>>
  qemu_put_be32 (scan_enabled s) ;>> qemu_put_be32 (translate s) ;>> qemu_put_be32 (scancode_set s).

Definition ps2_kbd_load {G} `{Source G} (version_id : Z) (s : PS2KbdState) : rd G (Z * PS2KbdState) :=
  if negb (version_id =? 2) && negb (version_id =? 3) then rret (- EINVAL, s)
  else
    c <<- ps2_common_load (kbd s) ;;
    e <<- qemu_get_be32 ;;
    t <<- qemu_get_be32 ;;
    if version_id =? 3 then
      n <<- qemu_get_be32 ;;
      rret (0, mkKbd c (s32 e) (s32 t) (s32 n))
    else rret (0, mkKbd c (s32 e) (s32 t) 2).

Definition ps2_mouse_save {F} `{Sink F} (s : PS2MouseState) : wr F :=
  ps2_common_save (mouse s) ;>>
  qemu_put_byte (mouse_status s) ;>> qemu_put_byte (mouse_resolution s) ;>>
  qemu_put_byte (mouse_sample_rate s) ;>> qemu_put_byte (mouse_wrap s) ;>>
  qemu_put_byte (mouse_type s) ;>> qemu_put_byte (mouse_detect_state s) ;>>
  qemu_put_be32 (mouse_dx s) ;>> qemu_put_be32 (mouse_dy s) ;>> qemu_put_be32 (mouse_dz s) ;>>
  qemu_put_byte (mouse_buttons s).

Definition ps2_mouse_load {G} `{Source G} (version_id : Z) (s : PS2MouseState)
  : rd G (Z * PS2MouseState) :=
  if negb (version_id =? 2) then rret (- EINVAL, s)
  else
    c <<- ps2_common_load (mouse s) ;;
    st <<- qemu_get_byte ;;
    re <<- qemu_get_byte ;;
    ra <<- qemu_get_byte ;;
    wp <<- qemu_get_byte ;;
    ty <<- qemu_get_byte ;;
    de <<- qemu_get_byte ;;
    dx <<- qemu_get_be32 ;;
    dy <<- qemu_get_be32 ;;
    dz <<- qemu_get_be32 ;;
    bu <<- qemu_get_byte ;;
    rret (0, mkMouse c st re ra wp ty de (s32 dx) (s32 dy) (s32 dz) bu).

(** ** The queue is a bounded first-in first-out list *)

Definition cell (q : PS2Queue) (i : Z) : Z := nth (Z.to_nat ((rptr q + i) mod PS2_QUEUE_SIZE)) (data q) 0.
Definition contents (q : PS2Queue) : list Z := map (cell q) (seqZ 0 (count q)).

Record qwf (q : PS2Queue) : Prop := {
  qwf_data : length (data q) = 256%nat;
  qwf_rptr : 0 <= rptr q < PS2_QUEUE_SIZE;
  qwf_count : 0 <= count q <= PS2_QUEUE_SIZE;
  qwf_wptr : wptr q = (rptr q + count q) mod PS2_QUEUE_SIZE;
}.

Fixpoint irq_level (l : bool) (es : list ps2_event) : bool :=
  match es with [] => l | UpdateIrq v :: es => irq_level (nz v) es end.

Definition irq_ok (q : PS2Queue) (l : bool) : Prop := l = (0 <? count q).

Lemma ps2_irq_level_app l es1 es2 : irq_level l (es1 ++ es2) = irq_level (irq_level l es1) es2.
Proof. revert l. induction es1 as [|[] es1 IH]; intros l; [done|apply IH]. Qed.

Lemma contents_length q : qwf q -> Z.of_nat (length (contents q)) = count q.
Proof. intros []. unfold contents. rewrite length_map, length_seqZ. lia. Qed.

Lemma next_ptr_mod p : 0 <= p < PS2_QUEUE_SIZE -> next_ptr p = (p + 1) mod PS2_QUEUE_SIZE.
Proof.
  unfold next_ptr, PS2_QUEUE_SIZE. intros Hp. destruct (Z.eqb_spec (p + 1) 256) as [E|].
  - by rewrite E.
  - by rewrite Z.mod_small by lia.
Qed.

Definition push (b : Z) (q : PS2Queue) : PS2Queue :=
  if PS2_QUEUE_SIZE <=? count q then q
  else mkQueue (<[Z.to_nat (wptr q) := u8 b]> (data q)) (rptr q) (next_ptr (wptr q)) (count q + 1).

(** One step of a device: the bytes [bs] were offered to the queue. *)
Definition step (q q' : PS2Queue) (bs : list Z) (es : list ps2_event) : Prop :=
  qwf q' /\ contents q' = take 256 (contents q ++ bs) /\
  forall l, irq_ok q l -> irq_ok q' (irq_level l es).

Lemma push_contents b q : qwf q -> contents (push b q) = take 256 (contents q ++ [u8 b]).
Proof.
  intros Hq. pose proof (contents_length q Hq) as Hlen. destruct Hq. unfold push.
  unfold PS2_QUEUE_SIZE in *. destruct (Z.leb_spec 256 (count q)).
  - by rewrite take_app_length' by lia.
  - rewrite take_ge by (rewrite length_app; cbn; lia).
    unfold contents. cbn [count]. rewrite seqZ_app, map_app by lia. f_equal.
    + apply map_ext_in. intros i Hi%list_elem_of_In%elem_of_seqZ. unfold cell, PS2_QUEUE_SIZE. cbn.
      rewrite !nth_lookup, list_lookup_insert_ne; [done|]. rewrite qwf_wptr0.
      Z.div_mod_to_equations. lia.
    + rewrite Z.add_0_l, seqZ_cons, seqZ_nil by lia. cbn [map]. unfold cell, PS2_QUEUE_SIZE.
      cbn [data rptr]. rewrite nth_lookup, <- qwf_wptr0, list_lookup_insert_eq; [done|].
      Z.div_mod_to_equations. lia.
Qed.

Lemma wptr_range q : qwf q -> in_array (wptr q) = true.
Proof.
  intros []. unfold in_array, PS2_QUEUE_SIZE in *. rewrite qwf_wptr0.
  pose proof (Z.mod_pos_bound (rptr q + count q) 256 ltac:(lia)). zbool.
Qed.

Lemma push_wf b q : qwf q -> qwf (push b q).
Proof.
  intros Hq. pose proof (wptr_range q Hq) as Hw. unfold push.
  destruct (Z.leb_spec PS2_QUEUE_SIZE (count q)); [done|].
  assert (0 <= wptr q < PS2_QUEUE_SIZE) as Hr by (unfold in_array in Hw; lia).
  destruct Hq. constructor; cbn; [by rewrite length_insert|lia..|].
  rewrite next_ptr_mod by done. rewrite qwf_wptr0, Zplus_mod_idemp_l. f_equal. lia.
Qed.

Lemma ps2_queue_run b s : qwf (queue s) ->
  exists es, ps2_queue b s = Ok (tt, s <| queue := push b (queue s) |>, es) /\
    step (queue s) (push b (queue s)) [u8 b] es.
Proof.
  intros Hq. unfold ps2_queue. run_prog. rewrite wptr_range by done.
  pose proof (push_contents b _ Hq) as Hc. pose proof (push_wf b _ Hq) as Hwf.
  unfold push in *. destruct (Z.leb_spec PS2_QUEUE_SIZE (count (queue s))) as [Hfull|Hroom];
    cbn; eexists; (split; [by destruct s|split; [done|split; [done|intros l Hl]]]); [done|].
  cbn. symmetry. apply Z.ltb_lt. cbn. destruct Hq. lia.
Qed.

Lemma step_refl q : qwf q -> step q q [] [].
Proof.
  intros Hq. split; [done|]. split; [|done]. rewrite app_nil_r, take_ge; [done|].
  pose proof (contents_length q Hq). destruct Hq. unfold PS2_QUEUE_SIZE in *. lia.
Qed.

Lemma step_trans q1 q2 q3 bs1 bs2 es1 es2 :
  step q1 q2 bs1 es1 -> step q2 q3 bs2 es2 -> step q1 q3 (bs1 ++ bs2) (es1 ++ es2).
Proof.
  intros (H1 & C1 & I1) (H2 & C2 & I2). split; [done|]. split.
  - rewrite C2, C1, (app_assoc (contents q1)). remember (contents q1 ++ bs1) as l.
    rewrite !take_app, take_take, length_take. f_equal. f_equal. lia.
  - intros l Hl. rewrite ps2_irq_level_app. auto.
Qed.

(** [offers get s m bs Q]: from [s], [m] returns, offers [bs] to the queue and
    leaves a result and state that satisfy [Q]. *)
Section offers.
Context {S : Type} (get : S -> PS2State).

Definition offers {A} (s : S) (m : prog S ps2_event A) (bs : list Z) (Q : A -> S -> Prop) : Prop :=
  qwf (queue (get s)) ->
  exists a s' es, m s = Ok (a, s', es) /\ step (queue (get s)) (queue (get s')) bs es /\ Q a s'.

Lemma offers_ret {A} s (a : A) (Q : A -> S -> Prop) : Q a s -> offers s (ret a) [] Q.
Proof. intros HQ Hq. exists a, s, []. auto using step_refl. Qed.

Lemma offers_bind {A B} s (m : prog S ps2_event A) (k : A -> prog S ps2_event B) bs1 bs2 Q :
  offers s m bs1 (fun a s1 => offers s1 (k a) bs2 Q) -> offers s (bind m k) (bs1 ++ bs2) Q.
Proof.
  intros Hm Hq. destruct (Hm Hq) as (a & s1 & es1 & E1 & S1 & Hk).
  destruct (Hk (proj1 S1)) as (b & s2 & es2 & E2 & S2 & HQ).
  exists b, s2, (es1 ++ es2). split; [by eapply bind_ok|]. split; [by eapply step_trans|done].
Qed.

Lemma offers_gets {B} s (k : S -> prog S ps2_event B) bs Q :
  offers s (k s) bs Q -> offers s (bind (gets (fun s => s)) k) bs Q.
Proof.
  intros Hk. apply (offers_bind s _ _ [] bs). intros Hq.
  exists s, s, []. split; [done|]. split; [by apply step_refl|done].
Qed.

Lemma offers_modify s f Q :
  queue (get (f s)) = queue (get s) -> Q tt (f s) -> offers s (modify f) [] Q.
Proof.
  intros E HQ Hq. exists tt, (f s), []. split; [done|]. split; [|done]. rewrite E. by apply step_refl.
Qed.

Lemma offers_queue (put : PS2State -> S -> S) s b Q :
  (forall c, get (put c s) = c) ->
  (forall q, Q tt (put (get s <| queue := q |>) s)) ->
  offers s (zoom get put (ps2_queue b)) [u8 b] Q.
Proof.
  intros Hput HQ Hq. destruct (ps2_queue_run b (get s) Hq) as (es & E & Hs).
  eexists _, _, es. unfold zoom. rewrite E. split; [done|]. rewrite Hput. done.
Qed.

Lemma offers_weaken {A} s (m : prog S ps2_event A) bs (Q Q' : A -> S -> Prop) :
  offers s m bs Q -> (forall a s', Q a s' -> Q' a s') -> offers s m bs Q'.
Proof.
  intros Hm HQ Hq. destruct (Hm Hq) as (a & s' & es & E & Hs & HQa). exists a, s', es. auto.
Qed.
End offers.

Lemma offers_kq s b (Q : unit -> PS2KbdState -> Prop) :
  (forall q, Q tt (s <| kbd := kbd s <| queue := q |> |>)) -> offers kbd s (kq b) [u8 b] Q.
Proof. intros HQ. by apply offers_queue. Qed.

Lemma offers_mq s b (Q : unit -> PS2MouseState -> Prop) :
  (forall q, Q tt (s <| mouse := mouse s <| queue := q |> |>)) -> offers mouse s (mq b) [u8 b] Q.
Proof. intros HQ. by apply offers_queue. Qed.

(** ** The keyboard's protocol *)

(** What the keyboard answers to a byte from the controller, and the scan
    codes of a key. *)
Definition scancodes (s : PS2KbdState) (k : Z) : list Z :=
  if (translate s =? 0) && (k <? 0xe0) && (scancode_set s =? 2) then
    (if nz (Z.land k 0x80) then [0xf0] else []) ++
    [u8 (nth (Z.to_nat (Z.land k 0x7f)) ps2_raw_keycode 0)]
  else [u8 k].

Definition command_reply (s : PS2KbdState) (v : Z) : list Z :=
  if v =? 0x05 then [KBD_REPLY_RESEND]
  else if v =? KBD_CMD_GET_ID then [KBD_REPLY_ACK; KBD_REPLY_ID; if nz (translate s) then 0x41 else 0x83]
  else if v =? KBD_CMD_ECHO then [KBD_CMD_ECHO]
  else if v =? KBD_CMD_RESET then [KBD_REPLY_ACK; KBD_REPLY_POR]
  else [KBD_REPLY_ACK].

Definition reply (s : PS2KbdState) (v : Z) : list Z :=
  if negb (write_cmd (kbd s) =? KBD_CMD_SCANCODE) then
    (if (write_cmd (kbd s) =? KBD_CMD_SET_LEDS) || (write_cmd (kbd s) =? KBD_CMD_SET_RATE)
     then [KBD_REPLY_ACK] else command_reply s v)
  else if negb (v =? 0) then [KBD_REPLY_ACK]
  else if scancode_set s =? 1 then scancodes s 0x43
  else if scancode_set s =? 2 then scancodes s 0x41
  else if scancode_set s =? 3 then scancodes s 0x3f else [].

Ltac kbd_walk :=
  repeat match goal with
  | |- offers _ _ (bind (gets _) _) _ _ => apply offers_gets
  | |- offers _ _ (bind (kq ?b) _) (_ :: ?bs) _ => apply (offers_bind kbd _ _ _ [_] bs), offers_kq; intros ?
  | |- offers _ _ (bind (modify _) _) ?bs _ => apply (offers_bind kbd _ _ _ [] bs), offers_modify; [done|]
  | |- offers _ _ (kq _) _ _ => apply offers_kq; intros ?
  | |- offers _ _ (modify _) _ _ => apply offers_modify; [done|]
  | |- offers _ _ (ret _) _ _ => apply offers_ret
  end; try done.

Lemma put_keycode_offers s k :
  offers kbd s (ps2_put_keycode k) (scancodes s k) (fun _ _ => True).
Proof.
  unfold ps2_put_keycode, scancodes. apply offers_gets. case_cond; [|kbd_walk].
  destruct (nz (Z.land k 0x80)); cbn [app when].
  - kbd_walk.
  - apply (offers_bind kbd _ _ _ [] [_]), offers_ret. kbd_walk.
Qed.

Lemma kbd_command_offers s v :
  offers kbd s (kbd_command v) (command_reply s v) (fun _ _ => True).
Proof.
  unfold kbd_command, command_reply, ps2_reset_keyboard, set_kbd_cmd.
  destruct (Z.eqb_spec v 0x00) as [->|_]; [kbd_walk|].
  destruct (Z.eqb_spec v 0x05) as [->|_]; [kbd_walk|].
  destruct (Z.eqb_spec v KBD_CMD_GET_ID) as [->|_].
  { kbd_walk. cbn. destruct (nz (translate s)); kbd_walk. }
  destruct (Z.eqb_spec v KBD_CMD_ECHO) as [->|_]; [kbd_walk|].
  destruct (Z.eqb_spec v KBD_CMD_ENABLE) as [->|_]; [kbd_walk|].
  destruct (_ || _) eqn:E.
  { apply orb_true_iff in E as [[E|E]%orb_true_iff|E]; apply Z.eqb_eq in E as ->; kbd_walk. }
  destruct (Z.eqb_spec v KBD_CMD_RESET_DISABLE) as [->|_]; [kbd_walk|].
  destruct (Z.eqb_spec v KBD_CMD_RESET_ENABLE) as [->|_]; [kbd_walk|].
  destruct (Z.eqb_spec v KBD_CMD_RESET) as [->|_]; kbd_walk.
Qed.

Lemma write_keyboard_offers s v :
  offers kbd s (ps2_write_keyboard v) (reply s v) (fun _ _ => True).
Proof.
  unfold ps2_write_keyboard, reply, set_kbd_cmd. apply offers_gets.
  destruct (_ =? KBD_CMD_SCANCODE); cbn [negb].
  - rewrite <- (app_nil_r (if negb (v =? 0) then _ else _)). apply offers_bind.
    apply (offers_weaken kbd _ _ _ (fun _ _ => True)); [|intros; kbd_walk].
    destruct (v =? 0); cbn [negb].
    + repeat case_match; try apply put_keycode_offers. kbd_walk.
    + destruct (_ && _); cbn [when]; [kbd_walk|].
      apply (offers_bind kbd _ _ _ [] [_]), offers_ret. kbd_walk.
  - destruct (_ || _); [|apply kbd_command_offers].
    apply (offers_bind kbd _ _ _ [_] []). kbd_walk.
Qed.

(** A read takes the oldest byte, and repeats the last one when there is none. *)
Lemma ps2_read_data_spec s : qwf (queue s) ->
  exists v s' es, ps2_read_data s = Ok (v, s', es) /\ qwf (queue s') /\
    (forall l, irq_ok (queue s) l -> irq_ok (queue s') (irq_level l es)) /\
    match contents (queue s) with
    | [] => s' = s
    | b :: bs => v = b /\ contents (queue s') = bs
    end.
Proof.
  intros Hq. pose proof (contents_length _ Hq) as Hlen. pose proof Hq as [].
  unfold PS2_QUEUE_SIZE in *. unfold ps2_read_data. run_prog.
  destruct (Z.eqb_spec (count (queue s)) 0) as [E|E].
  - set (i := if rptr (queue s) - 1 <? 0 then _ else _).
    assert (in_array i = true) as ->.
    { assert (0 <= i < 256).
      { subst i. unfold PS2_QUEUE_SIZE. destruct (Z.ltb_spec (rptr (queue s) - 1) 0); lia. }
      unfold in_array, PS2_QUEUE_SIZE. zbool. }
    cbn [negb]. eexists _, s, []. split; [done|]. split; [done|]. split; [done|].
    destruct (contents _); [done|cbn in Hlen; lia].
  - assert (in_array (rptr (queue s)) = true) as -> by (unfold in_array, PS2_QUEUE_SIZE; zbool).
    cbn [negb]. eexists _, _, _. split; [reflexivity|]. split; [|split].
    + constructor; cbn; unfold PS2_QUEUE_SIZE; [done| |lia|].
      * unfold next_ptr, PS2_QUEUE_SIZE. zbool.
      * rewrite next_ptr_mod by (unfold PS2_QUEUE_SIZE; lia). unfold PS2_QUEUE_SIZE.
        rewrite Zplus_mod_idemp_l, qwf_wptr0. f_equal. lia.
    + intros l Hl. cbn. rewrite nz_cbool. unfold irq_ok. cbn. zbool.
    + unfold contents. cbn [count].
      replace (count (queue s)) with (1 + (count (queue s) - 1)) by lia.
      rewrite seqZ_app by lia. cbn [map]. rewrite seqZ_cons, seqZ_nil by lia. cbn [map app].
      split.
      * unfold cell, PS2_QUEUE_SIZE. rewrite Z.add_0_r, Z.mod_small by lia. done.
      * cbn. replace (1 + (count (queue s) - 1) - 1) with (count (queue s) - 1) by lia.
        rewrite (Z.add_comm 0 1), <- fmap_add_seqZ. rewrite <- list_fmap_compose.
        apply list_fmap_ext. intros i x _. cbn. unfold cell, PS2_QUEUE_SIZE. cbn.
        rewrite next_ptr_mod by (unfold PS2_QUEUE_SIZE; lia). unfold PS2_QUEUE_SIZE.
        rewrite Zplus_mod_idemp_l. do 3 f_equal. lia.
Qed.

Inductive kbd_op := KWrite (v : Z) | KKey (keycode : Z) | KTranslate (mode : Z) | KRead.

Definition run_kbd (o : kbd_op) : K Z :=
  match o with
  | KWrite v => ps2_write_keyboard v ;;; ret 0
  | KKey k => ps2_put_keycode k ;;; ret 0
  | KTranslate m => ps2_keyboard_set_translation m ;;; ret 0
  | KRead => in_kbd ps2_read_data
  end.

(** The bytes an operation has for the queue, and the ones it hands out. *)
Definition offered (s : PS2KbdState) (o : kbd_op) : list Z :=
  match o with KWrite v => reply s v | KKey k => scancodes s k | _ => [] end.
Definition handed_out (s : PS2KbdState) (o : kbd_op) (v : Z) : list Z :=
  match o with KRead => if count (queue (kbd s)) =? 0 then [] else [v] | _ => [] end.

(** Runs from power-on; [acc] are the bytes the queue had room for, [out] the
    ones read. *)
Inductive kbd_reachable : PS2KbdState -> list Z -> list Z -> list ps2_event -> Prop :=
| kbd_start s0 s es : ps2_kbd_init s0 = Ok (tt, s, es) -> kbd_reachable s [] [] es
| kbd_step s acc out es o v s' es' :
    kbd_reachable s acc out es -> run_kbd o s = Ok (v, s', es') ->
    kbd_reachable s'
      (acc ++ take (Z.to_nat (PS2_QUEUE_SIZE - count (queue (kbd s)))) (offered s o))
      (out ++ handed_out s o v) (es ++ es').

Lemma offers_ignore s o (m : K unit) bs :
  (run_kbd o = (m ;;; ret 0)) -> offers kbd s m bs (fun _ _ => True) ->
  offers kbd s (run_kbd o) bs (fun _ _ => True).
Proof.
  intros -> Hm. rewrite <- (app_nil_r bs). apply offers_bind.
  apply (offers_weaken kbd _ _ _ _ _ Hm). intros _ s' _. by apply offers_ret.
Qed.

Lemma run_kbd_step o s l out acc :
  qwf (queue (kbd s)) -> irq_ok (queue (kbd s)) l -> acc = out ++ contents (queue (kbd s)) ->
  exists v s' es, run_kbd o s = Ok (v, s', es) /\ qwf (queue (kbd s')) /\
    irq_ok (queue (kbd s')) (irq_level l es) /\
    acc ++ take (Z.to_nat (PS2_QUEUE_SIZE - count (queue (kbd s)))) (offered s o)
      = (out ++ handed_out s o v) ++ contents (queue (kbd s')).
Proof.
  intros Hq Hl ->. pose proof (contents_length _ Hq) as Hlen.
  assert (o = KRead \/ offers kbd s (run_kbd o) (offered s o) (fun _ _ => True)
    /\ forall v, handed_out s o v = []) as [->|[Ho Hh]].
  { destruct o; [right..|by left]; (split; [|done]); eapply offers_ignore; try done.
    - apply write_keyboard_offers.
    - apply put_keycode_offers.
    - unfold ps2_keyboard_set_translation. kbd_walk. }
  - cbn [run_kbd offered handed_out]. unfold in_kbd, zoom.
    destruct (ps2_read_data_spec (kbd s) Hq) as (v & c & es & -> & Hq' & Hirq & Hc).
    exists v, (s <| kbd := c |>), es. split; [done|]. split; [done|]. split; [by apply Hirq|].
    rewrite take_nil, app_nil_r. change (kbd (s <| kbd := c |>)) with c.
    destruct (contents (queue (kbd s))) as [|b bs] eqn:E; cbn in Hlen.
    + rewrite <- Hlen. cbn [Z.eqb]. by rewrite Hc, E, !app_nil_r.
    + destruct Hc as [-> ->]. rewrite (proj2 (Z.eqb_neq _ _)) by lia. by rewrite <- app_assoc.
  - destruct (Ho Hq) as (v & s' & es & E & (Hq' & Hc & Hirq) & _).
    exists v, s', es. split; [done|]. split; [done|]. split; [by apply Hirq|].
    rewrite Hh, Hc, app_nil_r, take_app, (take_ge (contents _)), <- app_assoc.
    + do 3 f_equal. unfold PS2_QUEUE_SIZE. lia.
    + destruct Hq. unfold PS2_QUEUE_SIZE in *. lia.
Qed.

(** C32: The keyboard hands its bytes to the guest in the order in which it
    queued them: after any sequence of commands, key events and reads, the
    bytes read and the bytes still queued are together exactly the replies and
    scan codes that found room, none lost, repeated or invented; the interrupt
    line was last driven to whether the queue is non-empty, and no
    operation faults. *)
Theorem ps2_keyboard_fifo s acc out es :
  kbd_reachable s acc out es ->
  acc = out ++ contents (queue (kbd s)) /\
  irq_level false es = negb (count (queue (kbd s)) =? 0) /\
  forall o, is_ok (run_kbd o s) = true.
Proof.
  intros Hr. assert (qwf (queue (kbd s)) /\ irq_ok (queue (kbd s)) (irq_level false es) /\
    acc = out ++ contents (queue (kbd s))) as (Hq & Hl & Hacc).
  { induction Hr as [s0 s es E|s acc out es o v s' es' Hr (Hq & Hl & Hacc) E].
    - injection E as <- <-. repeat constructor; cbn; unfold PS2_QUEUE_SIZE; lia.
    - destruct (run_kbd_step o s _ out acc Hq Hl Hacc) as (v1 & s1 & es1 & E1 & ? & ? & ?).
      rewrite E in E1. injection E1 as <- <- <-. rewrite ps2_irq_level_app. done. }
  split; [done|]. split.
  - rewrite Hl. destruct Hq. zbool.
  - intros o. destruct (run_kbd_step o s _ out acc Hq Hl Hacc) as (? & ? & ? & -> & _). done.
Qed.

(** ** Mouse packets *)

Definition wheel (s : PS2MouseState) : Z :=
  if mouse_type s =? 3 then clamp 127 (mouse_dz s)
  else if mouse_type s =? 4 then clamp 7 (mouse_dz s) else mouse_dz s.

Definition header (s : PS2MouseState) : Z :=
  Z.lor (Z.lor (Z.lor 0x08 (Z.shiftl (cbool (clamp 127 (mouse_dx s) <? 0)) 4))
    (Z.shiftl (cbool (clamp 127 (mouse_dy s) <? 0)) 5)) (Z.land (mouse_buttons s) 0x07).

(** The bytes of one packet. *)
Definition packet (s : PS2MouseState) : list Z :=
  [u8 (header s); u8 (Z.land (clamp 127 (mouse_dx s)) 0xff); u8 (Z.land (clamp 127 (mouse_dy s)) 0xff)] ++
  (if mouse_type s =? 3 then [u8 (Z.land (wheel s) 0xff)]
   else if mouse_type s =? 4 then
     [u8 (Z.lor (Z.land (wheel s) 0x0f) (Z.shiftl (Z.land (mouse_buttons s) 0x18) 1))]
   else []).

(** How a driver reads a packet: nine-bit two's complement distances, the sign
    bits in the first byte; the wheel has eight bits, or four. *)
Definition decode (type : Z) (p : list Z) : Z * Z * Z :=
  match p with
  | b :: x :: y :: r =>
      (x - 256 * cbool (Z.testbit b 4), y - 256 * cbool (Z.testbit b 5),
       match r with [z] => if type =? 3 then s8 z else swrap 4 z | _ => 0 end)
  | _ => (0, 0, 0)
  end.

Definition has_wheel (s : PS2MouseState) : bool := (mouse_type s =? 3) || (mouse_type s =? 4).

Definition add3 (a b : Z * Z * Z) : Z * Z * Z :=
  (a.1.1 + b.1.1, a.1.2 + b.1.2, a.2 + b.2).
Definition total (type : Z) (ps : list (list Z)) : Z * Z * Z := foldr add3 (0, 0, 0) (map (decode type) ps).

(** The distances still to be reported. *)
Definition motion (s : PS2MouseState) : Z * Z * Z :=
  (mouse_dx s, mouse_dy s, if has_wheel s then mouse_dz s else 0).

Lemma clamp_range lim v : 0 <= lim -> - lim <= clamp lim v <= lim.
Proof. unfold clamp. destruct (Z.ltb_spec lim v); [lia|]. destruct (Z.ltb_spec v (- lim)); lia. Qed.

Lemma clamp_progress lim v :
  0 < lim -> Z.abs (v - clamp lim v) <= Z.abs v /\ (v <> 0 -> Z.abs (v - clamp lim v) < Z.abs v).
Proof. unfold clamp. destruct (Z.ltb_spec lim v); [lia|]. destruct (Z.ltb_spec v (- lim)); lia. Qed.

Lemma byte_value d : -256 < d < 256 -> u8 (Z.land d 0xff) - 256 * cbool (d <? 0) = d.
Proof.
  intros Hd. change 0xff with (Z.ones 8). rewrite Z.land_ones by lia. unfold uwrap.
  change (2 ^ 8) with 256. rewrite Z.mod_mod by lia.
  destruct (Z.ltb_spec d 0); cbn [cbool]; Z.div_mod_to_equations; lia.
Qed.

Lemma header_signs s :
  Z.testbit (u8 (header s)) 4 = (clamp 127 (mouse_dx s) <? 0) /\
  Z.testbit (u8 (header s)) 5 = (clamp 127 (mouse_dy s) <? 0).
Proof.
  unfold header. rewrite !uwrap_spec, !Z.lor_spec, !Z.land_spec, !Z.shiftl_spec by lia. cbn.
  rewrite !andb_false_r. destruct (clamp 127 (mouse_dx s) <? 0), (clamp 127 (mouse_dy s) <? 0); done.
Qed.

Lemma nibble_value d b : -8 <= d < 8 ->
  swrap 4 (u8 (Z.lor (Z.land d 0x0f) (Z.shiftl (Z.land b 0x18) 1))) = d.
Proof.
  intros Hd. rewrite <- (swrap_id 4 d) at 2 by lia.
  rewrite <- swrap_uwrap, <- (swrap_uwrap 4 d) by lia. f_equal. bitwise.
  destruct (Z.ltb_spec i 4); [|done].
  assert (i = 0 \/ i = 1 \/ i = 2 \/ i = 3) as [->|[->|[->| ->]]] by lia; cbn;
    rewrite ?andb_false_r, ?orb_false_r, ?andb_true_r; done.
Qed.

Lemma decode_packet s :
  decode (mouse_type s) (packet s) =
    (clamp 127 (mouse_dx s), clamp 127 (mouse_dy s), if has_wheel s then wheel s else 0).
Proof.
  destruct (header_signs s) as [E4 E5].
  unfold packet, decode, has_wheel, wheel. cbn [app].
  rewrite E4, E5, !byte_value by (pose proof (clamp_range 127 (mouse_dx s));
    pose proof (clamp_range 127 (mouse_dy s)); lia).
  f_equal. destruct (Z.eqb_spec (mouse_type s) 3) as [E|]; cbn [orb].
  - change 0xff with (Z.ones 8). rewrite Z.land_ones by lia.
    change (_ mod 2 ^ 8) with (u8 (clamp 127 (mouse_dz s))).
    rewrite !swrap_uwrap by lia. apply swrap_id; [lia|].
    pose proof (clamp_range 127 (mouse_dz s)). lia.
  - destruct (Z.eqb_spec (mouse_type s) 4); [|done]. apply nibble_value.
    pose proof (clamp_range 7 (mouse_dz s)). lia.
Qed.

Lemma packet_buttons s : Z.land (nth 0 (packet s) 0) 7 = Z.land (mouse_buttons s) 7.
Proof.
  cbn [packet app nth]. unfold header. apply Z.bits_inj'. intros i Hi.
  rewrite !Z.land_spec, uwrap_spec, !Z.lor_spec, !Z.land_spec, !Z.shiftl_spec by lia.
  destruct (Z.ltb_spec i 3).
  - assert (i = 0 \/ i = 1 \/ i = 2) as [->|[->| ->]] by lia; cbn;
      rewrite ?orb_false_r, ?andb_true_r; done.
  - assert (Z.testbit 7 i = false) as -> by (apply (fits_testbit 3); [lia| |lia]; done).
    by rewrite !andb_false_r.
Qed.

(** [s'] is [s] after the motion of one packet. *)
Definition sent (s s' : PS2MouseState) : Prop :=
  mouse_dx s' = mouse_dx s - clamp 127 (mouse_dx s) /\
  mouse_dy s' = mouse_dy s - clamp 127 (mouse_dy s) /\
  mouse_dz s' = mouse_dz s - wheel s /\
  mouse_type s' = mouse_type s /\ mouse_buttons s' = mouse_buttons s.

Lemma send_packet_offers s :
  offers mouse s ps2_mouse_send_packet (packet s) (fun _ s' => sent s s').
Proof.
  unfold ps2_mouse_send_packet, packet, wheel. apply offers_gets.
  apply (offers_bind mouse _ _ _ [_]), offers_mq. intros q1.
  apply (offers_bind mouse _ _ _ [_]), offers_mq. intros q2.
  apply (offers_bind mouse _ _ _ [_]), offers_mq. intros q3.
  rewrite <- (app_nil_r (if mouse_type s =? 3 then _ else _)). apply offers_bind.
  destruct (mouse_type s =? 3) eqn:E3; [|destruct (mouse_type s =? 4) eqn:E4].
  - apply (offers_bind mouse _ _ _ [_] []), offers_mq. intros q4. apply offers_ret.
    apply offers_modify; [done|]. repeat split. cbn. unfold wheel. by rewrite E3.
  - apply (offers_bind mouse _ _ _ [_] []), offers_mq. intros q4. apply offers_ret.
    apply offers_modify; [done|]. repeat split. cbn. unfold wheel. by rewrite E3, E4.
  - apply offers_ret. apply offers_modify; [done|]. repeat split. cbn. unfold wheel.
    by rewrite E3, E4.
Qed.

Definition distance (s : PS2MouseState) : Z :=
  Z.abs (mouse_dx s) + Z.abs (mouse_dy s) + Z.abs (mouse_dz s).

Lemma at_rest_iff s : at_rest s = true <-> distance s = 0.
Proof. unfold at_rest, distance. rewrite !andb_true_iff, !Z.eqb_eq. lia. Qed.

Lemma wheel_progress s :
  Z.abs (mouse_dz s - wheel s) <= Z.abs (mouse_dz s) /\
  (mouse_dz s <> 0 -> Z.abs (mouse_dz s - wheel s) < Z.abs (mouse_dz s)).
Proof.
  unfold wheel. destruct (_ =? 3); [by apply clamp_progress|].
  destruct (_ =? 4); [by apply clamp_progress|lia].
Qed.

Lemma sent_progress s s' : sent s s' -> distance s' <= distance s /\ (distance s <> 0 -> distance s' < distance s).
Proof.
  intros (Ex & Ey & Ez & _). unfold distance. rewrite Ex, Ey, Ez.
  pose proof (clamp_progress 127 (mouse_dx s) ltac:(lia)).
  pose proof (clamp_progress 127 (mouse_dy s) ltac:(lia)). pose proof (wheel_progress s). lia.
Qed.

Lemma sent_motion s s' : sent s s' -> add3 (decode (mouse_type s) (packet s)) (motion s') = motion s.
Proof.
  intros (Ex & Ey & Ez & Et & _). rewrite decode_packet. unfold add3, motion, has_wheel. cbn.
  rewrite Ex, Ey, Ez, Et. destruct (_ || _); do 2 f_equal; lia.
Qed.

(** The length and the buttons of a packet, and its greatest distance. *)
Definition packet_ok (s : PS2MouseState) (p : list Z) : Prop :=
  length p = (if has_wheel s then 4 else 3)%nat /\
  Z.land (nth 0 p 0) 7 = Z.land (mouse_buttons s) 7 /\
  Z.abs (decode (mouse_type s) p).1.1 <= 127.

Lemma packet_packet_ok s : packet_ok s (packet s).
Proof.
  split; [|split; [apply packet_buttons|]].
  - unfold packet, has_wheel. destruct (_ =? 3); [done|]. by destruct (_ =? 4).
  - rewrite decode_packet. cbn. pose proof (clamp_range 127 (mouse_dx s)). lia.
Qed.

Lemma send_loop_run n : forall s, distance s < Z.of_nat n -> qwf (queue (mouse s)) ->
  exists ps s' es, send_loop n s = Ok (tt, s', es) /\
    step (queue (mouse s)) (queue (mouse s')) (concat ps) es /\ at_rest s' = true /\
    total (mouse_type s) ps = motion s /\ Forall (packet_ok s) ps.
Proof.
  induction n as [|n IH]; intros s Hn Hq; [unfold distance in Hn; lia|].
  destruct (send_packet_offers s Hq) as (_u & s1 & es1 & E1 & Hs1 & Hsent). destruct _u.
  destruct (sent_progress s s1 Hsent) as [Hle Hlt]. pose proof (sent_motion s s1 Hsent) as Hm.
  destruct (at_rest s1) eqn:Hr.
  - exists [packet s], s1, es1. split.
    { cbn [send_loop]. rewrite <- (app_nil_r es1). eapply bind_ok; [exact E1|]. run_prog.
      by rewrite Hr. }
    cbn [concat]. rewrite app_nil_r. repeat split; try apply Hs1; [done| |].
    + rewrite <- Hm. apply at_rest_iff in Hr. unfold distance in Hr. unfold motion.
      assert (mouse_dx s1 = 0 /\ mouse_dy s1 = 0 /\ mouse_dz s1 = 0) as (-> & -> & ->) by lia.
      cbn. by destruct (has_wheel s1).
    + constructor; [apply packet_packet_ok|constructor].
  - assert (distance s1 <> 0) by (intros ?%at_rest_iff; congruence).
    destruct (IH s1) as (ps & s2 & es2 & E2 & Hs2 & Hr2 & Ht & Hf);
      [unfold distance in *; lia|apply Hs1|].
    exists (packet s :: ps), s2, (es1 ++ es2). split.
    { cbn [send_loop]. eapply bind_ok; [exact E1|]. run_prog. by rewrite Hr, E2. }
    cbn [concat]. split; [by eapply step_trans|]. split; [done|].
    destruct Hsent as (_ & _ & _ & Et & Eb). split.
    + rewrite <- Hm, <- Ht, Et. done.
    + constructor; [apply packet_packet_ok|]. unfold packet_ok, has_wheel in *. by rewrite <- Et, <- Eb.
Qed.

(** A mouse that reports movement: enabled, not in remote mode, with room. *)
Record streaming (s : PS2MouseState) : Prop := {
  streaming_queue : qwf (queue (mouse s));
  streaming_enabled : Z.land (mouse_status s) MOUSE_STATUS_ENABLED <> 0;
  streaming_remote : Z.land (mouse_status s) MOUSE_STATUS_REMOTE = 0;
  streaming_room : count (queue (mouse s)) < PS2_QUEUE_SIZE - 16;
}.

Definition moved (s : PS2MouseState) (dx dy dz : Z) : PS2MouseState :=
  s <| mouse_dx := mouse_dx s + dx |> <| mouse_dy := mouse_dy s - dy |> <| mouse_dz := mouse_dz s + dz |>.
Definition motion_fits (s : PS2MouseState) : Prop :=
  - 2 ^ 31 <= mouse_dx s < 2 ^ 31 /\ - 2 ^ 31 <= mouse_dy s < 2 ^ 31 /\ - 2 ^ 31 <= mouse_dz s < 2 ^ 31.

Lemma mouse_event_run s dx dy dz b :
  streaming s -> motion_fits (moved s dx dy dz) ->
  at_rest (moved s dx dy dz) = false \/ mouse_buttons s <> b ->
  exists ps s' es, ps2_mouse_event dx dy dz b s = Ok (tt, s', es) /\
    step (queue (mouse s)) (queue (mouse s')) (concat ps) es /\ at_rest s' = true /\
    total (mouse_type s) ps = motion (moved s dx dy dz) /\
    Forall (packet_ok (s <| mouse_buttons := u8 b |>)) ps.
Proof.
  intros [] (Hx & Hy & Hz) Hev. cbn in Hx, Hy, Hz.
  set (s1 := moved s dx dy dz <| mouse_buttons := u8 b |>).
  destruct (send_loop_run (send_fuel s1) s1) as (ps & s' & es & E & Hs & Hr & Ht & Hf).
  { unfold send_fuel, distance. lia. }
  { done. }
  exists ps, s', es. split; [|done].
  assert (setter mouse_dz (fun d => s32 (d + dz)) (setter mouse_dy (fun d => s32 (d - dy))
    (setter mouse_dx (fun d => s32 (d + dx)) s)) = moved s dx dy dz) as Em.
  { unfold moved, setter. cbn. by rewrite !s32_id. }
  apply (bind_ok _ _ s s s [] tt s' es); [done|]. cbv beta.
  rewrite (proj2 (nz_true _) streaming_enabled0). cbn [negb].
  apply (bind_ok _ _ s tt (moved s dx dy dz) [] tt s' es); [unfold modify; by rewrite Em|].
  apply (bind_ok _ _ _ (moved s dx dy dz) (moved s dx dy dz) [] tt s' es); [done|]. cbv beta.
  assert (at_rest (moved s dx dy dz) && (mouse_buttons (moved s dx dy dz) =? b) = false) as ->.
  { apply andb_false_iff. destruct Hev; [by left|right]. by apply Z.eqb_neq. }
  apply (bind_ok _ _ _ tt s1 [] tt s' es); [done|].
  change (mouse_status (moved s dx dy dz)) with (mouse_status s).
  rewrite (proj2 (nz_false _) streaming_remote0).
  change (mouse (moved s dx dy dz)) with (mouse s). rewrite (proj2 (Z.ltb_lt _ _) streaming_room0).
  exact E.
Qed.


Lemma total_bound type ps :
  Forall (fun p => Z.abs (decode type p).1.1 <= 127) ps ->
  Z.abs (total type ps).1.1 <= 127 * Z.of_nat (length ps).
Proof.
  induction 1 as [|p ps Hp Hps IH]; [done|]. unfold total in *. cbn. lia.
Qed.

(** A movement of the pointer is reported completely: the packets queued
    for it end (whatever its size), carry the buttons, and the distances a
    driver decodes from them add up to exactly the movement since the last
    report, wheel included; when the queue has room it receives the packets
    and nothing else. *)
Theorem ps2_mouse_event_packets s dx dy dz b :
  streaming s -> motion_fits (moved s dx dy dz) ->
  at_rest (moved s dx dy dz) = false \/ mouse_buttons s <> b ->
  exists ps s' es, ps2_mouse_event dx dy dz b s = Ok (tt, s', es) /\
    at_rest s' = true /\ total (mouse_type s) ps = motion (moved s dx dy dz) /\
    Forall (packet_ok (s <| mouse_buttons := u8 b |>)) ps /\
    (count (queue (mouse s)) + Z.of_nat (length (concat ps)) <= PS2_QUEUE_SIZE ->
     contents (queue (mouse s')) = contents (queue (mouse s)) ++ concat ps).
Proof.
  intros Hs Hm Hev. destruct (mouse_event_run s dx dy dz b Hs Hm Hev)
    as (ps & s' & es & E & (_ & Hc & _) & Hr & Ht & Hf).
  exists ps, s', es. repeat split; try done. intros Hroom. rewrite Hc, take_ge; [done|].
  rewrite length_app. pose proof (contents_length _ (streaming_queue _ Hs)).
  unfold PS2_QUEUE_SIZE in *. lia.
Qed.

Lemma concat_length_3 (l : list (list Z)) :
  Forall (fun p => length p = 3%nat) l -> length (concat l) = (3 * length l)%nat.
Proof. induction 1 as [|p l Hp Hl IH]; [done|]. cbn [concat length]. rewrite length_app. lia. Qed.

(** A fast movement tears a packet: with 17 bytes of room, the check lets
    a movement of more than 5 * 127 through, the queue takes five packets and
    two bytes of the sixth, the rest is dropped and the movement it stood for
    forgotten. *)
Theorem ps2_mouse_torn_packet s dx dy dz b :
  streaming s -> motion_fits (moved s dx dy dz) -> has_wheel s = false ->
  count (queue (mouse s)) = 239 -> 5 * 127 < Z.abs (mouse_dx s + dx) ->
  exists ps p r s' es, ps2_mouse_event dx dy dz b s = Ok (tt, s', es) /\
    at_rest s' = true /\ total (mouse_type s) (ps ++ p :: r) = motion (moved s dx dy dz) /\
    length ps = 5%nat /\ Forall (packet_ok (s <| mouse_buttons := u8 b |>)) (ps ++ p :: r) /\
    contents (queue (mouse s')) = contents (queue (mouse s)) ++ concat ps ++ take 2 p.
Proof.
  intros Hs Hm Hw Hn Hdx. destruct (mouse_event_run s dx dy dz b Hs Hm)
    as (ps & s' & es & E & (_ & Hc & _) & Hr & Ht & Hf).
  { left. unfold at_rest. cbn. rewrite (proj2 (Z.eqb_neq _ _)) by lia. done. }
  assert (Z.abs (total (mouse_type s) ps).1.1 <= 127 * Z.of_nat (length ps)) as Hb.
  { apply total_bound. eapply Forall_impl; [exact Hf|]. by intros p (_ & _ & ?). }
  rewrite Ht in Hb. cbn in Hb.
  assert (exists p0 p1 p2 p3 p4 p r, ps = [p0; p1; p2; p3; p4] ++ p :: r)
    as (p0 & p1 & p2 & p3 & p4 & p & r & ->).
  { destruct ps as [|p0 [|p1 [|p2 [|p3 [|p4 [|p r]]]]]]; cbn [length] in Hb; try lia.
    by exists p0, p1, p2, p3, p4, p, r. }
  exists [p0; p1; p2; p3; p4], p, r, s', es. repeat split; try done.
  pose proof (contents_length _ (streaming_queue _ Hs)) as Hlen.
  rewrite Hc, take_app, take_ge by lia. f_equal.
  assert (forall q, packet_ok (s <| mouse_buttons := u8 b |>) q -> length q = 3%nat) as H3.
  { intros q (E3 & _). unfold has_wheel in *. cbn in E3. by rewrite Hw in E3. }
  replace (256 - length (contents (queue (mouse s))))%nat with 17%nat by lia.
  apply Forall_app in Hf as [Hf Hf']. inversion_clear Hf' as [|? ? Hp%H3 _].
  pose proof (concat_length_3 _ (Forall_impl _ _ _ Hf H3)) as H15.
  set (l := [p0; p1; p2; p3; p4]) in *. change (length l) with 5%nat in H15.
  rewrite concat_app, take_app, take_ge, H15 by lia. f_equal. cbn [concat].
  rewrite take_app_le by lia. done.
Qed.

(** ** Snapshots *)
Definition s32_ok (v : Z) : Prop := - 2 ^ 31 <= v < 2 ^ 31.

Definition common_bytes (s : PS2State) : list Z :=
  be32 (write_cmd s) ++ be32 (rptr (queue s)) ++ be32 (wptr (queue s)) ++ be32 (count (queue s)) ++
  data (queue s).
Definition common_ok (s : PS2State) : Prop :=
  s32_ok (write_cmd s) /\ s32_ok (rptr (queue s)) /\ s32_ok (wptr (queue s)) /\
  s32_ok (count (queue s)) /\ Z.of_nat (length (data (queue s))) = PS2_QUEUE_SIZE.
Definition common_restored (s s0 : PS2State) : PS2State :=
  s <| queue ::= fun q => q <| data := data q ++ drop (length (data q)) (data (queue s0)) |> |>.

Lemma common_save_writes {F} `{Sink F} s :
  Z.of_nat (length (data (queue s))) = PS2_QUEUE_SIZE ->
  writes (F := F) (ps2_common_save s) (common_bytes s).
Proof.
  intros Hl. unfold ps2_common_save, common_bytes. rewrite take_ge by lia.
  repeat (apply writes_seq; [apply writes_be32|]). apply writes_buffer.
Qed.

Lemma common_load_reads {G} `{Source G} s s0 : common_ok s ->
  reads (F := G) (ps2_common_load s0) (common_bytes s) (common_restored s s0).
Proof.
  intros (H1 & H2 & H3 & H4 & H5). unfold ps2_common_load, common_bytes.
  repeat (eapply reads_bind; [apply reads_be32|]; cbv beta).
  eapply reads_last; [by apply reads_buffer|]. cbv beta. rewrite !swrap_uwrap, !s32_id by done.
  unfold common_restored. destruct s as [[] ?]. apply reads_ret.
Qed.

Definition kbd_bytes (s : PS2KbdState) : list Z :=
  common_bytes (kbd s) ++ be32 (scan_enabled s) ++ be32 (translate s) ++ be32 (scancode_set s).
Definition mouse_bytes (s : PS2MouseState) : list Z :=
  common_bytes (mouse s) ++ [mouse_status s] ++ [mouse_resolution s] ++ [mouse_sample_rate s] ++
  [mouse_wrap s] ++ [mouse_type s] ++ [mouse_detect_state s] ++
  be32 (mouse_dx s) ++ be32 (mouse_dy s) ++ be32 (mouse_dz s) ++ [mouse_buttons s].

Lemma put_byte_writes {F} `{Sink F} v : fits 8 v -> writes (F := F) (qemu_put_byte v) [v].
Proof. intros Hv. rewrite <- (uwrap_id 8 v Hv) at 2. apply writes_byte. Qed.

(** A snapshot taken with input pending restores both devices: the queue
    with its pointers, the command in progress, the modes and the motion not
    yet reported.  (A load stores the queue's pointers as the stream has them;
    the restored queue is in order because the saved one was.) *)
Theorem ps2_snapshot {F G} `{Sink F, Source G} k k0 m m0 :
  common_ok (kbd k) -> s32_ok (scan_enabled k) -> s32_ok (translate k) -> s32_ok (scancode_set k) ->
  common_ok (mouse m) -> motion_fits m ->
  Forall (fits 8) [mouse_status m; mouse_resolution m; mouse_sample_rate m; mouse_wrap m; mouse_type m;
                   mouse_detect_state m; mouse_buttons m] ->
  writes (F := F) (ps2_kbd_save k ;>> ps2_mouse_save m) (kbd_bytes k ++ mouse_bytes m) /\
  reads (F := G) (r <<- ps2_kbd_load 3 k0 ;; r' <<- ps2_mouse_load 2 m0 ;; rret (r, r'))
    (kbd_bytes k ++ mouse_bytes m)
    (0, k <| kbd := common_restored (kbd k) (kbd k0) |>,
     (0, m <| mouse := common_restored (mouse m) (mouse m0) |>)).
Proof.
  intros Hk He Ht Hs Hm (Hx & Hy & Hz) Hb.
  repeat match goal with Hb : Forall _ (_ :: _) |- _ => apply Forall_cons in Hb as [? Hb] end.
  split.
  - apply writes_seq.
    + apply writes_seq; [apply common_save_writes, Hk|].
      repeat (apply writes_seq; [apply writes_be32|]). apply writes_be32.
    + apply writes_seq; [apply common_save_writes, Hm|].
      do 6 (apply writes_seq; [apply put_byte_writes; done|]).
      do 3 (apply writes_seq; [apply writes_be32|]). by apply put_byte_writes.
  - eapply reads_bind; [|eapply reads_last; [|apply reads_ret]].
    + eapply reads_bind; [by apply common_load_reads|]. cbv beta.
      do 2 (eapply reads_bind; [apply reads_be32|]; cbv beta).
      eapply reads_last; [apply reads_be32|]. cbv beta.
      rewrite !swrap_uwrap, !s32_id by done. apply reads_ret.
    + eapply reads_bind; [by apply common_load_reads|]. cbv beta.
      do 6 (eapply reads_bind; [apply reads_byte|]; cbv beta).
      do 3 (eapply reads_bind; [apply reads_be32|]; cbv beta).
      eapply reads_last; [apply reads_byte|]. cbv beta.
      rewrite !swrap_uwrap, !s32_id by done. apply reads_ret.
Qed.

(** ** Concrete instances *)
Definition demo_off : PS2KbdState := mkKbd ps2_init 0 0 0.
Definition demo_kbd : PS2KbdState := default demo_off (run_state ps2_kbd_init demo_off).
Definition demo_id : PS2KbdState := default demo_off (run_state (run_kbd (KWrite KBD_CMD_GET_ID)) demo_kbd).
Definition demo_read : PS2KbdState := default demo_off (run_state (run_kbd KRead) demo_id).

Lemma ps2_keyboard_fifo_witness :
  [0xFA; 0xAB; 0x83] = [0xFA] ++ contents (queue (kbd demo_read)) /\
  irq_level false ([UpdateIrq 0; UpdateIrq 1; UpdateIrq 1; UpdateIrq 1] ++ [UpdateIrq 0; UpdateIrq 1])
    = true /\ is_ok (run_kbd (KWrite KBD_CMD_RESET) demo_read) = true.
Proof.
  destruct (ps2_keyboard_fifo demo_read [0xFA; 0xAB; 0x83] [0xFA]
    ([UpdateIrq 0; UpdateIrq 1; UpdateIrq 1; UpdateIrq 1] ++ [UpdateIrq 0; UpdateIrq 1])) as (H1 & H2 & H3).
  { apply (kbd_step demo_id [0xFA; 0xAB; 0x83] [] _ KRead 0xFA); [|vm_compute; reflexivity].
    apply (kbd_step demo_kbd [] [] [UpdateIrq 0] (KWrite KBD_CMD_GET_ID) 0); [|vm_compute; reflexivity].
    apply (kbd_start demo_off). vm_compute. reflexivity. }
  auto.
Defined.

Definition demo_mouse (n : Z) (type : Z) : PS2MouseState :=
  mkMouse (mkPS2 (mkQueue (replicate 256 0) 0 n n) (-1)) MOUSE_STATUS_ENABLED 2 100 0 type 0 0 0 0 0.

Lemma demo_mouse_streaming n type : 0 <= n < 240 -> streaming (demo_mouse n type).
Proof.
  intros Hn. split; cbn; [|done|done|unfold PS2_QUEUE_SIZE; lia].
  constructor; cbn; unfold PS2_QUEUE_SIZE; [done|lia|lia|]. by rewrite Z.mod_small by lia.
Defined.

Lemma ps2_mouse_event_packets_witness :
  exists ps s' es, ps2_mouse_event 200 (-5) (-9) 1 (demo_mouse 0 4) = Ok (tt, s', es) /\
    at_rest s' = true /\ total 4 ps = (200, 5, -9) /\
    Forall (packet_ok (demo_mouse 0 4 <| mouse_buttons := 1 |>)) ps /\
    (Z.of_nat (length (concat ps)) <= PS2_QUEUE_SIZE -> contents (queue (mouse s')) = concat ps).
Proof.
  destruct (ps2_mouse_event_packets (demo_mouse 0 4) 200 (-5) (-9) 1) as (ps & s' & es & E & Hr & Ht & Hf & Hc).
  - by apply demo_mouse_streaming.
  - vm_compute. intuition discriminate.
  - by left.
  - exists ps, s', es. split; [exact E|]. split; [exact Hr|]. split; [exact Ht|]. split; [exact Hf|]. exact Hc.
Defined.

Lemma ps2_mouse_torn_packet_witness :
  exists ps p r s' es, ps2_mouse_event 700 0 0 0 (demo_mouse 239 0) = Ok (tt, s', es) /\
    at_rest s' = true /\ total 0 (ps ++ p :: r) = (700, 0, 0) /\ length ps = 5%nat /\
    Forall (packet_ok (demo_mouse 239 0 <| mouse_buttons := 0 |>)) (ps ++ p :: r) /\
    contents (queue (mouse s')) = replicate 239 0 ++ concat ps ++ take 2 p.
Proof.
  destruct (ps2_mouse_torn_packet (demo_mouse 239 0) 700 0 0 0)
    as (ps & p & r & s' & es & E & Hr & Ht & Hn & Hf & Hc).
  - by apply demo_mouse_streaming.
  - vm_compute. intuition discriminate.
  - done.
  - done.
  - done.
  - exists ps, p, r, s', es. split; [exact E|]. split; [exact Hr|]. split; [exact Ht|].
    split; [exact Hn|]. split; [exact Hf|].
    assert (contents (queue (mouse (demo_mouse 239 0))) = replicate 239 0) as E' by (by vm_compute).
    rewrite <- E'. exact Hc.
Defined.

Lemma ps2_snapshot_witness :
  writes (F := list Z) (ps2_kbd_save demo_id ;>> ps2_mouse_save (demo_mouse 3 4))
    (kbd_bytes demo_id ++ mouse_bytes (demo_mouse 3 4)) /\
  reads (F := list Z)
    (r <<- ps2_kbd_load 3 demo_off ;; r' <<- ps2_mouse_load 2 (demo_mouse 0 0) ;; rret (r, r'))
    (kbd_bytes demo_id ++ mouse_bytes (demo_mouse 3 4)) (0, demo_id, (0, demo_mouse 3 4)).
Proof.
  destruct (ps2_snapshot (F := list Z) (G := list Z) demo_id demo_off (demo_mouse 3 4) (demo_mouse 0 0))
    as [Hw Hr]; [vm_compute; intuition discriminate..|repeat constructor; vm_compute; intuition discriminate|].
  split; [exact Hw|exact Hr].
Defined.

End Ps2.
