(* ===== verification/Pit.v ===== *)
(** The 8253/8254 interval timer (hw/timer/i8254.c): three counters that tick
    at [PIT_FREQ] on the virtual clock, the ports that program and read them,
    and the timer that drives the interrupt line of counter 0.

    The value of [qemu_clock_get_ns(QEMU_CLOCK_VIRTUAL)] during a handler is
    its argument [now]; the timer is any [AlarmClock]. *)
From Stdlib Require Import ZArith Lia Bool.
From stdpp Require Import base numbers list.
From S2P Require Import Prelude Stream QemuTimer.
Local Open Scope Z_scope.
Local Open Scope prog_scope.
Local Open Scope stream_scope.

Module Pit.

Definition RW_STATE_LSB : Z := 1.
Definition RW_STATE_MSB : Z := 2.
Definition RW_STATE_WORD0 : Z := 3.
Definition RW_STATE_WORD1 : Z := 4.
Definition PIT_FREQ : Z := 1193182.
Definition get_ticks_per_sec : Z := 1000000000.
Definition EINVAL : Z := 22.

(** [a * b / c] in 64-bit arithmetic, by halves. *)
Definition muldiv64 (a b c : Z) : Z :=
  let rl := u64 (u32 a * b) in
  let rh := u64 (Z.shiftr a 32 * b) in
  let rh := u64 (rh + Z.shiftr rl 32) in
  let high := u32 (rh / c) in
  let low := u32 (u64 (u64 (Z.shiftl (rh mod c) 32) + Z.land rl 0xffffffff) / c) in
  Z.lor (Z.shiftl high 32) low.

Record PITChannelState (C : Type) := mkChannel {
  count : Z;
  latched_count : Z;
  count_latched : Z;
  status_latched : Z;
  status : Z;
  read_state : Z;
  write_state : Z;
  write_latch : Z;
  rw_mode : Z;
  mode : Z;
  bcd : Z;
  gate : Z;
  count_load_time : Z;
  next_transition_time : Z;
  irq_timer : option C;
}.
Arguments mkChannel {C}.
Arguments count {C}.
Arguments latched_count {C}.
Arguments count_latched {C}.
Arguments status_latched {C}.
Arguments status {C}.
Arguments read_state {C}.
Arguments write_state {C}.
Arguments write_latch {C}.
Arguments rw_mode {C}.
Arguments mode {C}.
Arguments bcd {C}.
Arguments gate {C}.
Arguments count_load_time {C}.
Arguments next_transition_time {C}.
Arguments irq_timer {C}.
#[export] Instance PITChannelState_eta C : Settable (PITChannelState C) := fun s =>
  mkChannel (count s) (latched_count s) (count_latched s) (status_latched s) (status s)
    (read_state s) (write_state s) (write_latch s) (rw_mode s) (mode s) (bcd s) (gate s)
    (count_load_time s) (next_transition_time s) (irq_timer s).

Record PITState (C : Type) := mkPit { channels : list (PITChannelState C) }.
Arguments mkPit {C}.
Arguments channels {C}.
#[export] Instance PITState_eta C : Settable (PITState C) := fun s => mkPit (channels s).

Inductive pit_event := PitIrq (level : Z).

Section pit.
Context {C : Type} `{AlarmClock C}.
Definition CM := prog (PITChannelState C) pit_event.
Definition M := prog (PITState C) pit_event.

(** The ticks since the count was loaded. *)
Definition elapsed (s : PITChannelState C) (now : Z) : Z :=
  muldiv64 (u64 (now - count_load_time s)) PIT_FREQ get_ticks_per_sec.

Definition by_count (s : PITChannelState C) (v : Z) : outcome Z :=
  if count s =? 0 then Fault DivByZero else Ok v.

Definition pit_get_count (s : PITChannelState C) (now : Z) : outcome Z :=
  let d := elapsed s now in
  let n := u64 (count s) in
  if (mode s =? 0) || (mode s =? 1) || (mode s =? 4) || (mode s =? 5) then
    Ok (Z.land (u64 (n - d)) 0xffff)
  else if mode s =? 3 then by_count s (s32 (u64 (n - u64 (2 * d) mod n)))
  else by_count s (s32 (u64 (n - d mod n))).

Definition pit_get_out1 (s : PITChannelState C) (current_time : Z) : outcome Z :=
  let d := elapsed s current_time in
  let n := u64 (count s) in
  if mode s =? 1 then Ok (cbool (d <? n))
  else if mode s =? 2 then by_count s (cbool ((d mod n =? 0) && negb (d =? 0)))
  else if mode s =? 3 then by_count s (cbool (d mod n <? u64 (Z.shiftr (count s + 1) 1)))
  else if (mode s =? 4) || (mode s =? 5) then Ok (cbool (d =? n))
  else Ok (cbool (n <=? d)).

(** The tick of the next transition after tick [d]; [None] when there is none. *)
Definition next_tick (s : PITChannelState C) (d : Z) : outcome (option Z) :=
  let n := u64 (count s) in
  if mode s =? 2 then
    if count s =? 0 then Fault DivByZero
    else
      let base := u64 (d / n * n) in
      if (u64 (d - base) =? 0) && negb (d =? 0) then Ok (Some (u64 (base + n)))
      else Ok (Some (u64 (base + n + 1)))
  else if mode s =? 3 then
    if count s =? 0 then Fault DivByZero
    else
      let base := u64 (d / n * n) in
      let period2 := u64 (Z.shiftr (count s + 1) 1) in
      if u64 (d - base) <? period2 then Ok (Some (u64 (base + period2)))
      else Ok (Some (u64 (base + n)))
  else if (mode s =? 4) || (mode s =? 5) then
    if d <? n then Ok (Some n) else if d =? n then Ok (Some (u64 (n + 1))) else Ok None
  else if d <? n then Ok (Some n) else Ok None.

Definition pit_get_next_transition_time (s : PITChannelState C) (current_time : Z) : outcome Z :=
  obind (next_tick s (elapsed s current_time)) (fun t =>
    match t with
    | None => Ok (-1)
    | Some t =>
        let next_time := u64 (count_load_time s + muldiv64 t get_ticks_per_sec PIT_FREQ) in
        Ok (s64 (if next_time <=? u64 current_time then u64 (current_time + 1) else next_time))
    end).

Definition pit_irq_timer_update (current_time : Z) : CM unit :=
  s <- gets (fun s => s) ;;
  match irq_timer s with
  | None => ret tt
  | Some c =>
      expire_time <- of_outcome (pit_get_next_transition_time s current_time) ;;
      irq_level <- of_outcome (pit_get_out1 s current_time) ;;
      emit (PitIrq irq_level) ;;;
      modify (fun s => s <| next_transition_time := expire_time |>) ;;;
      modify (fun s => s <| irq_timer := Some (if expire_time =? -1 then alarm_del c
                                               else alarm_mod c expire_time) |>)
  end.

Definition pit_irq_timer : CM unit :=
  s <- gets (fun s => s) ;; pit_irq_timer_update (next_transition_time s).

Definition pit_load_count (now val : Z) : CM unit :=
  let val := if val =? 0 then 0x10000 else val in
  modify (fun s => s <| count_load_time := now |> <| count := val |>) ;;;
  pit_irq_timer_update now.

Definition pit_latch_count (now : Z) : CM unit :=
  s <- gets (fun s => s) ;;
  when (count_latched s =? 0)
    (c <- of_outcome (pit_get_count s now) ;;
     modify (fun s => s <| latched_count := u16 c |> <| count_latched := rw_mode s |>)).

(** A handler on one counter. *)
Definition channel {A} (i : nat) (m : CM A) : M A :=
  fun p => match channels p !! i with
           | None => Fault OutOfBounds
           | Some s =>
               match m s with
               | Ok (a, s', es) => Ok (a, p <| channels ::= <[i := s']> |>, es)
               | Fault f => Fault f
               end
           end.

Definition latch_status (now : Z) : CM unit :=
  s <- gets (fun s => s) ;;
  o <- of_outcome (pit_get_out1 s now) ;;
  modify (fun s => s <| status := u8 (Z.lor (Z.lor (Z.lor (Z.shiftl o 7) (Z.shiftl (rw_mode s) 4))
                                       (Z.shiftl (mode s) 1)) (bcd s)) |>
                     <| status_latched := 1 |>).

(** The read-back command for one counter. *)
Definition read_back (now val : Z) (i : nat) : M unit :=
  when (nz (Z.land val (Z.shiftl 2 (Z.of_nat i))))
    (channel i
      (when (negb (nz (Z.land val 0x20))) (pit_latch_count now) ;;;
       s <- gets (fun s => s) ;;
       when (negb (nz (Z.land val 0x10)) && negb (nz (status_latched s))) (latch_status now))).

Definition write_control (now val : Z) : M unit :=
  let c := Z.shiftr val 6 in
  if c =? 3 then
    read_back now val 0 ;;;
    read_back now val 1 ;;;
    read_back now val 2
  else
    channel (Z.to_nat c)
      (let access := Z.land (Z.shiftr val 4) 3 in
       if access =? 0 then pit_latch_count now
       else modify (fun s => s <| rw_mode := access |> <| read_state := access |>
                               <| write_state := access |> <| mode := Z.land (Z.shiftr val 1) 7 |>
                               <| bcd := Z.land val 1 |>)).

Definition write_counter (now val : Z) : CM unit :=
  s <- gets (fun s => s) ;;
  if write_state s =? RW_STATE_MSB then pit_load_count now (Z.shiftl val 8)
  else if write_state s =? RW_STATE_WORD0 then
    modify (fun s => s <| write_latch := u8 val |> <| write_state := RW_STATE_WORD1 |>)
  else if write_state s =? RW_STATE_WORD1 then
    pit_load_count now (Z.lor (write_latch s) (Z.shiftl val 8)) ;;;
    modify (fun s => s <| write_state := RW_STATE_WORD0 |>)
  else pit_load_count now val.

Definition pit_ioport_write (now addr val : Z) : M unit :=
  let addr := Z.land addr 3 in
  if addr =? 3 then write_control now val else channel (Z.to_nat addr) (write_counter now val).

Definition read_counter (now : Z) : CM Z :=
  s <- gets (fun s => s) ;;
  if nz (status_latched s) then
    modify (fun s => s <| status_latched := 0 |>) ;;;
    ret (status s)
  else if nz (count_latched s) then
    if count_latched s =? RW_STATE_MSB then
      modify (fun s => s <| count_latched := 0 |>) ;;;
      ret (Z.shiftr (latched_count s) 8)
    else if count_latched s =? RW_STATE_WORD0 then
      modify (fun s => s <| count_latched := RW_STATE_MSB |>) ;;;
      ret (Z.land (latched_count s) 0xff)
    else
      modify (fun s => s <| count_latched := 0 |>) ;;;
      ret (Z.land (latched_count s) 0xff)
  else
    c <- of_outcome (pit_get_count s now) ;;
    if read_state s =? RW_STATE_MSB then ret (Z.land (Z.shiftr c 8) 0xff)
    else if read_state s =? RW_STATE_WORD0 then
      modify (fun s => s <| read_state := RW_STATE_WORD1 |>) ;;;
      ret (Z.land c 0xff)
    else if read_state s =? RW_STATE_WORD1 then
      modify (fun s => s <| read_state := RW_STATE_WORD0 |>) ;;;
      ret (Z.land (Z.shiftr c 8) 0xff)
    else ret (Z.land c 0xff).

Definition pit_ioport_read (now addr : Z) : M Z := channel (Z.to_nat (Z.land addr 3)) (read_counter now).

Definition pit_set_gate (now : Z) (i : nat) (val : Z) : M unit :=
  channel i
    (s <- gets (fun s => s) ;;
     when (((mode s =? 1) || (mode s =? 5) || (mode s =? 2) || (mode s =? 3)) && (gate s <? val))
       (modify (fun s => s <| count_load_time := now |>) ;;;
        pit_irq_timer_update now) ;;;
     modify (fun s => s <| gate := u8 val |>)).

Definition pit_get_gate (i : nat) : M Z := channel i (gets gate).
Definition pit_get_initial_count (i : nat) : M Z := channel i (gets count).
Definition pit_get_mode (i : nat) : M Z := channel i (gets mode).
Definition pit_get_out (i : nat) (current_time : Z) : M Z :=
  channel i (s <- gets (fun s => s) ;; of_outcome (pit_get_out1 s current_time)).

Definition reset_channel (now : Z) (i : nat) : M unit :=
  channel i (modify (fun s => s <| mode := 3 |> <| gate := cbool (negb (i =? 2)%nat) |>) ;;;
             pit_load_count now 0).

Definition pit_reset (now : Z) : M unit :=
  reset_channel now 0 ;;; reset_channel now 1 ;;; reset_channel now 2.

Definition hpet_pit_disable : M unit :=
  channel 0 (modify (fun s => s <| irq_timer ::= fmap alarm_del |>)).
Definition hpet_pit_enable (now : Z) : M unit :=
  channel 0 (modify (fun s => s <| mode := 3 |> <| gate := 1 |>) ;;; pit_load_count now 0).

Definition blank (t : option C) : PITChannelState C := mkChannel 0 0 0 0 0 0 0 0 0 0 0 0 0 0 t.
Definition pit_init (now : Z) (timer : C) : M unit :=
  modify (fun _ => mkPit [blank (Some timer); blank None; blank None]) ;;;
  pit_reset now.

(** ** Snapshots *)
Definition save_channel {F} `{Sink F} (s : PITChannelState C) : wr F :=
  qemu_put_be32 (count s) ;>>
  qemu_put_be16 (latched_count s) ;>>
  wall qemu_put_byte [count_latched s; status_latched s; status s; read_state s; write_state s;
                      write_latch s; rw_mode s; mode s; bcd s; gate s] ;>>
  qemu_put_be64 (count_load_time s) ;>>
  match irq_timer s with
  | None => wskip
  | Some c =>
      qemu_put_be64 (next_transition_time s) ;>>
      qemu_put_be64 (default (-1) (alarm_due c))
  end.

Definition pit_save {F} `{Sink F} (p : PITState C) : wr F := wall save_channel (channels p).

Definition load_channel {G} `{Source G} (s0 : PITChannelState C) : rd G (PITChannelState C) :=
  n <<- qemu_get_be32 ;;
  lc <<- qemu_get_be16 ;;
  cl <<- qemu_get_byte ;;
  sl <<- qemu_get_byte ;;
  st <<- qemu_get_byte ;;
  rs <<- qemu_get_byte ;;
  ws <<- qemu_get_byte ;;
  wl <<- qemu_get_byte ;;
  rw <<- qemu_get_byte ;;
  mo <<- qemu_get_byte ;;
  bc <<- qemu_get_byte ;;
  ga <<- qemu_get_byte ;;
  lt <<- qemu_get_be64 ;;
  let s := mkChannel (s32 n) lc cl sl st rs ws wl rw mo bc ga (s64 lt)
             (next_transition_time s0) (irq_timer s0) in
  match irq_timer s0 with
  | None => rret s
  | Some c =>
      nt <<- qemu_get_be64 ;;
      e <<- qemu_get_be64 ;;
      rret (s <| next_transition_time := s64 nt |>
              <| irq_timer := Some (if negb (e =? u64 (-1)) then alarm_mod c (s64 e) else alarm_del c) |>)
  end.

Fixpoint load_channels {G} `{Source G} (l : list (PITChannelState C)) : rd G (list (PITChannelState C)) :=
  match l with
  | [] => rret []
  | s0 :: l => s <<- load_channel s0 ;; r <<- load_channels l ;; rret (s :: r)
  end.

Definition pit_load {G} `{Source G} (version_id : Z) (p : PITState C) : rd G (Z * PITState C) :=
  if negb (version_id =? 1) then rret (- EINVAL, p)
  else l <<- load_channels (channels p) ;; rret (0, mkPit l).
End pit.

(** ** Arithmetic of the tick *)

(** The halves lose nothing: [muldiv64] is exact whenever its result fits. *)
Lemma muldiv64_spec a b c :
  fits 64 a -> fits 32 b -> 0 < c < 2 ^ 32 -> a * b / c < 2 ^ 64 -> muldiv64 a b c = a * b / c.
Proof.
  intros Ha Hb Hc Hr. unfold fits in *. unfold muldiv64.
  rewrite (Z.shiftr_div_pow2 a) by lia.
  set (l := u32 a). set (h := a / 2 ^ 32).
  assert (0 <= l < 2 ^ 32 /\ 0 <= h < 2 ^ 32 /\ a = h * 2 ^ 32 + l) as (Hl & Hh & Ea).
  { subst l h. unfold uwrap. Z.div_mod_to_equations. lia. }
  clearbody l h. subst a.
  rewrite (uwrap_id 64 (l * b)), (uwrap_id 64 (h * b)) by (unfold fits; nia).
  rewrite Z.shiftr_div_pow2 by lia. change 0xffffffff with (Z.ones 32). rewrite Z.land_ones by lia.
  set (q := l * b / 2 ^ 32). set (x := (l * b) mod 2 ^ 32).
  assert (l * b = q * 2 ^ 32 + x /\ 0 <= x < 2 ^ 32 /\ 0 <= q < 2 ^ 32) as (Eq & Hx & Hq).
  { subst q x. pose proof (Z.div_mod (l * b) (2 ^ 32) ltac:(lia)).
    pose proof (Z.mod_pos_bound (l * b) (2 ^ 32) ltac:(lia)).
    split; [lia|]. split; [done|]. split; [apply Z.div_pos; nia|apply Z.div_lt_upper_bound; nia]. }
  clearbody q x. rewrite (uwrap_id 64 (h * b + q)) by (unfold fits; nia).
  set (rh := h * b + q). assert (0 <= rh) as Hrh by (subst rh; nia).
  assert ((h * 2 ^ 32 + l) * b = rh * 2 ^ 32 + x) as E by (subst rh; nia). rewrite E in *.
  clearbody rh. clear E Eq.
  pose proof (Z.div_mod rh c ltac:(lia)) as Erh. pose proof (Z.mod_pos_bound rh c ltac:(lia)) as Hm.
  set (y := rh / c) in *. set (r := rh mod c) in *.
  assert ((rh * 2 ^ 32 + x) / c = y * 2 ^ 32 + (r * 2 ^ 32 + x) / c) as E.
  { rewrite <- Z.div_add_l by lia. f_equal. lia. }
  rewrite E in *. rewrite (Z.shiftl_mul_pow2 r) by lia.
  assert (0 <= (r * 2 ^ 32 + x) / c < 2 ^ 32) as Hlow.
  { split; [apply Z.div_pos; nia|apply Z.div_lt_upper_bound; nia]. }
  assert (0 <= y) by (apply Z.div_pos; lia).
  rewrite (uwrap_id 64 (r * 2 ^ 32)) by (unfold fits; nia).
  rewrite (uwrap_id 64) by (unfold fits; nia).
  rewrite (uwrap_id 32 y), (uwrap_id 32) by (unfold fits; lia).
  rewrite Z.lor_comm. by apply (lor_shiftl_add 32 _ y); [lia|].
Qed.

(** Nanoseconds of tick [k], ticks in [t] nanoseconds. *)
Definition tick_ns (k : Z) : Z := k * get_ticks_per_sec / PIT_FREQ.
Definition ns_tick (t : Z) : Z := t * PIT_FREQ / get_ticks_per_sec.

Lemma tick_ns_spec k : 0 <= k < 2 ^ 53 -> muldiv64 k get_ticks_per_sec PIT_FREQ = tick_ns k.
Proof.
  intros Hk. apply muldiv64_spec; unfold fits, get_ticks_per_sec, PIT_FREQ; [lia..|].
  apply Z.div_lt_upper_bound; lia.
Qed.

Lemma ns_tick_spec t : 0 <= t < 2 ^ 63 -> muldiv64 t PIT_FREQ get_ticks_per_sec = ns_tick t.
Proof.
  intros Ht. apply muldiv64_spec; unfold fits, get_ticks_per_sec, PIT_FREQ; [lia..|].
  apply Z.div_lt_upper_bound; lia.
Qed.

(** The ticks that fall on a whole nanosecond are the multiples of half the
    frequency. *)
Definition exact (k : Z) : bool := k mod 596591 =? 0.

Lemma exact_spec k : exact k = true <-> (k * get_ticks_per_sec) mod PIT_FREQ = 0.
Proof.
  unfold exact, get_ticks_per_sec, PIT_FREQ. rewrite Z.eqb_eq.
  rewrite !Z.mod_divide by lia. split.
  - intros [m ->]. exists (m * 500000000). lia.
  - intros [m E]. apply (Z.gauss 596591 500000000 k); [|done]. exists m. lia.
Qed.

(** Converting a tick to nanoseconds and back gives the tick before it, unless
    it falls on a whole nanosecond. *)
Lemma ns_tick_tick_ns k : 0 <= k -> ns_tick (tick_ns k) = if exact k then k else k - 1.
Proof.
  intros Hk. unfold ns_tick, tick_ns. pose proof (exact_spec k) as He.
  unfold get_ticks_per_sec, PIT_FREQ in *.
  pose proof (Z.div_mod (k * 1000000000) 1193182 ltac:(lia)) as E.
  pose proof (Z.mod_pos_bound (k * 1000000000) 1193182 ltac:(lia)) as Hr.
  set (q := k * 1000000000 / 1193182) in *. set (r := (k * 1000000000) mod 1193182) in *.
  symmetry. apply (Z.div_unique _ _ _ (if exact k then 0 else 1000000000 - r)).
  - destruct (exact k); [lia|]. assert (r <> 0) by (intros ?; naive_solver). lia.
  - destruct (exact k); [|lia]. assert (r = 0) by (by apply He). lia.
Qed.

Lemma tick_ns_mono k m : k < m -> tick_ns k < tick_ns m.
Proof.
  intros Hkm. unfold tick_ns, get_ticks_per_sec, PIT_FREQ. Z.div_mod_to_equations. lia.
Qed.

Lemma tick_ns_pos k : 0 <= k -> 0 <= tick_ns k.
Proof. intros. unfold tick_ns, get_ticks_per_sec, PIT_FREQ. apply Z.div_pos; lia. Qed.

Lemma tick_ns_bound k : 0 <= k < 2 ^ 52 -> tick_ns k < 2 ^ 62.
Proof. intros. unfold tick_ns, get_ticks_per_sec, PIT_FREQ. apply Z.div_lt_upper_bound; lia. Qed.

Section counting.
Context {C : Type} `{AlarmClock C}.

(** Counter 0 with its timer, loaded with a count. *)
Record loaded (s : PITChannelState C) (c : C) : Prop := {
  loaded_timer : irq_timer s = Some c;
  loaded_count : 1 <= count s <= 0x10000;
  loaded_time : 0 <= count_load_time s < 2 ^ 62;
}.

(** The clock time of tick [k] of the counter. *)
Definition at_tick (s : PITChannelState C) (k : Z) : Z := count_load_time s + tick_ns k.

Definition rearmed (s : PITChannelState C) (c : C) (t : Z) : PITChannelState C :=
  s <| next_transition_time := t |> <| irq_timer := Some (if t =? -1 then alarm_del c else alarm_mod c t) |>.

Lemma elapsed_spec (s : PITChannelState C) now :
  0 <= now - count_load_time s < 2 ^ 63 -> elapsed s now = ns_tick (now - count_load_time s).
Proof.
  intros Hn. unfold elapsed. rewrite uwrap_id by (unfold fits; lia). by apply ns_tick_spec.
Qed.

Lemma elapsed_at_tick (s : PITChannelState C) k :
  0 <= k < 2 ^ 52 -> elapsed s (at_tick s k) = if exact k then k else k - 1.
Proof.
  intros Hk. pose proof (tick_ns_pos k). pose proof (tick_ns_bound k).
  unfold at_tick. rewrite elapsed_spec by lia. rewrite Z.add_simpl_l. apply ns_tick_tick_ns. lia.
Qed.

(** One evaluation of the output: the line is driven to it and the timer
    armed for the next transition. *)
Lemma update_run s c now t o :
  loaded s c -> 0 <= now < 2 ^ 63 -> next_tick s (elapsed s now) = Ok (Some t) -> 0 <= t < 2 ^ 52 ->
  pit_get_out1 s now = Ok o ->
  pit_irq_timer_update now s
  = Ok (tt, rearmed s c (if at_tick s t <=? now then s64 (now + 1) else at_tick s t), [PitIrq o]).
Proof.
  intros [Hc _ Hl] Hnow Ht Hr Ho. unfold pit_irq_timer_update. run_prog. rewrite Hc.
  unfold pit_get_next_transition_time. rewrite Ht. cbn [obind].
  rewrite tick_ns_spec by lia. pose proof (tick_ns_pos t). pose proof (tick_ns_bound t).
  fold (at_tick s t). assert (0 <= at_tick s t < 2 ^ 63) by (unfold at_tick; lia).
  rewrite (uwrap_id 64 (at_tick s t)), (uwrap_id 64 now), (uwrap_id 64 (now + 1)) by (unfold fits; lia).
  rewrite Ho. cbn. unfold rearmed. do 2 f_equal.
  destruct (at_tick s t <=? now); [done|]. by rewrite s64_id by lia.
Qed.

Lemma update_stop s c now o :
  loaded s c -> next_tick s (elapsed s now) = Ok None -> pit_get_out1 s now = Ok o ->
  pit_irq_timer_update now s = Ok (tt, rearmed s c (-1), [PitIrq o]).
Proof.
  intros [Hc _ _] Ht Ho. unfold pit_irq_timer_update. run_prog. rewrite Hc.
  unfold pit_get_next_transition_time. rewrite Ht. cbn [obind]. by rewrite Ho.
Qed.

(** *** Mode 2, the rate generator *)

Lemma rate_out (s : PITChannelState C) now :
  mode s = 2 -> 1 <= count s <= 0x10000 ->
  pit_get_out1 s now = Ok (cbool ((elapsed s now mod count s =? 0) && negb (elapsed s now =? 0))).
Proof.
  intros Hm Hn. unfold pit_get_out1, by_count. rewrite Hm. cbn [Z.eqb Pos.eqb].
  rewrite (proj2 (Z.eqb_neq _ _)) by lia. by rewrite uwrap_id by (unfold fits; lia).
Qed.

(** In period [k] after the start of a period: the falling edge; anywhere
    else: the rising edge, one tick late. *)
Lemma rate_next (s : PITChannelState C) d :
  mode s = 2 -> 1 <= count s <= 0x10000 -> 0 <= d < 2 ^ 51 ->
  next_tick s d = Ok (Some ((d / count s + 1) * count s +
    (if (d mod count s =? 0) && negb (d =? 0) then 0 else 1))).
Proof.
  intros Hm Hn Hd. unfold next_tick. rewrite Hm. cbn [Z.eqb Pos.eqb].
  rewrite (proj2 (Z.eqb_neq _ _)) by lia. rewrite (uwrap_id 64 (count s)) by (unfold fits; lia).
  pose proof (Z.div_mod d (count s) ltac:(lia)). pose proof (Z.mod_pos_bound d (count s) ltac:(lia)).
  pose proof (Z.div_pos d (count s) ltac:(lia) ltac:(lia)).
  set (q := d / count s) in *. assert (0 <= q * count s <= d) by nia.
  rewrite (uwrap_id 64 (q * count s)) by (unfold fits; lia).
  replace (d - q * count s) with (d mod count s) by lia.
  rewrite (uwrap_id 64 (d mod count s)) by (unfold fits; lia).
  rewrite !uwrap_id by (unfold fits; lia).
  destruct (_ && _); do 2 f_equal; lia.
Qed.

(** A transition of the line at tick [k] of the counter, seen by the timer. *)
Lemma rate_step s c k :
  loaded s c -> mode s = 2 -> 2 <= count s -> 0 <= k < 2 ^ 51 -> next_transition_time s = at_tick s k ->
  let d := if exact k then k else k - 1 in
  let rise := (d mod count s =? 0) && negb (d =? 0) in
  0 <= d ->
  pit_irq_timer s = Ok (tt,
    rearmed s c (at_tick s ((d / count s + 1) * count s + (if rise then 0 else 1))),
    [PitIrq (cbool rise)]).
Proof.
  intros Hs Hm Hn Hk Hnext d rise Hd. pose proof (loaded_count _ _ Hs) as Hc.
  assert (elapsed s (at_tick s k) = d) as Ed by (by rewrite elapsed_at_tick by lia).
  assert (0 <= d <= k) as Hdk by (subst d; destruct (exact k); lia).
  unfold pit_irq_timer. run_prog. rewrite Hnext.
  pose proof (loaded_time _ _ Hs). pose proof (tick_ns_pos k). pose proof (tick_ns_bound k).
  pose proof (Z.div_mod d (count s) ltac:(lia)) as Hdm.
  pose proof (Z.mod_pos_bound d (count s) ltac:(lia)).
  pose proof (Z.div_pos d (count s) ltac:(lia) ltac:(lia)).
  rewrite (update_run s c (at_tick s k)
    ((d / count s + 1) * count s + (if rise then 0 else 1)) (cbool rise)); [| |unfold at_tick; lia|..].
  - do 4 f_equal. rewrite (proj2 (Z.leb_gt _ _)); [done|]. unfold at_tick. apply Zplus_lt_compat_l.
    apply tick_ns_mono. assert (k <= d + 1) by (subst d; destruct (exact k); lia).
    subst rise. clear Ed. clearbody d. set (q := d / count s) in *.
    destruct (Z.eqb_spec (d mod count s) 0), (Z.eqb_spec d 0); cbn [andb negb]; nia.
  - done.
  - rewrite Ed. apply rate_next; lia.
  - destruct rise; nia.
  - rewrite rate_out, Ed by lia. done.
Qed.

(** *** The timer at work *)

(** What the line of the counter is driven to, and when, over the next [m]
    expirations of its timer; nothing happens once the timer is off. *)
Fixpoint run_timer (m : nat) (s : PITChannelState C) : outcome (list (Z * pit_event)) :=
  match m, irq_timer s with
  | S m, Some c =>
      match alarm_due c with
      | None => Ok []
      | Some t =>
          match pit_irq_timer s with
          | Ok (_, s, es) => obind (run_timer m s) (fun l => Ok (map (pair t) es ++ l))
          | Fault f => Fault f
          end
      end
  | _, _ => Ok []
  end.

Lemma run_timer_step m s c t s1 es :
  irq_timer s = Some c -> alarm_due c = Some t -> pit_irq_timer s = Ok (tt, s1, es) ->
  run_timer (S m) s = obind (run_timer m s1) (fun l => Ok (map (pair t) es ++ l)).
Proof. intros Hc Ht Hs. cbn [run_timer]. by rewrite Hc, Ht, Hs. Qed.

(** A counter whose timer is armed for tick [k]. *)
Record armed (s : PITChannelState C) (t0 n md k : Z) : Prop := {
  armed_timer : exists c, irq_timer s = Some c /\ alarm_ok c /\ alarm_due c = Some (t0 + tick_ns k);
  armed_next : next_transition_time s = t0 + tick_ns k;
  armed_count : count s = n;
  armed_mode : mode s = md;
  armed_time : count_load_time s = t0;
}.

Lemma rearmed_armed s c t0 n md k :
  alarm_ok c -> count s = n -> mode s = md -> count_load_time s = t0 -> 0 <= t0 -> 0 <= k ->
  armed (rearmed s c (at_tick s k)) t0 n md k.
Proof.
  intros Hc Hn Hm Ht H0 Hk. pose proof (tick_ns_pos k Hk). unfold at_tick. rewrite Ht.
  split; try done. unfold rearmed. cbn. rewrite (proj2 (Z.eqb_neq _ _)) by lia.
  exists (alarm_mod c (t0 + tick_ns k)). split; [done|]. split; [by apply alarm_mod_ok|].
  rewrite alarm_due_mod by done. by rewrite Z.max_l by lia.
Qed.

(** At an inexact tick [k] the rate generator sees tick [k - 1]: it raises the
    line after a whole number of periods and lowers it one tick before. *)
Lemma rate_edge s t0 n k :
  armed s t0 n 2 k -> 2 <= n <= 0x10000 -> 0 <= t0 < 2 ^ 62 -> 1 <= k < 2 ^ 51 ->
  let d := if exact k then k else k - 1 in
  let rise := (d mod n =? 0) && negb (d =? 0) in
  exists s1, (forall m, run_timer (S m) s =
      obind (run_timer m s1) (fun l => Ok ((t0 + tick_ns k, PitIrq (cbool rise)) :: l)))
    /\ armed s1 t0 n 2 ((d / n + 1) * n + (if rise then 0 else 1)).
Proof.
  intros [(c & Hc & Hok & Hdue) Hnext Hn Hm Ht] Hnr H0 Hk d rise.
  assert (0 <= d) by (subst d; destruct (exact k); lia).
  assert (loaded s c) by (split; [done|lia..]).
  eexists. split.
  - intros m. rewrite (run_timer_step m s c _ _ _ Hc Hdue (rate_step s c k ltac:(done) Hm ltac:(lia)
      ltac:(lia) ltac:(unfold at_tick; congruence) ltac:(done))).
    fold d. rewrite Hn. reflexivity.
  - fold d. pose proof (Z.div_pos d n ltac:(lia) ltac:(lia)).
    fold rise. apply rearmed_armed; try done; [lia|]. destruct rise; nia.
Qed.

(** The load of a counter in mode 2. *)
Lemma rate_load s c val t0 :
  irq_timer s = Some c -> alarm_ok c -> mode s = 2 -> 0 <= val <= 0xffff -> 0 <= t0 < 2 ^ 62 ->
  let n := if val =? 0 then 0x10000 else val in
  exists s1, pit_load_count t0 val s = Ok (tt, s1, [PitIrq 0]) /\ armed s1 t0 n 2 (n + 1).
Proof.
  intros Hc Hok Hm Hv H0 n. assert (1 <= n <= 0x10000) by (subst n; case_cond; lia).
  unfold pit_load_count. run_prog. fold n.
  set (s0 := s <| count_load_time := t0 |> <| count := n |>).
  assert (elapsed s0 t0 = 0) as He.
  { rewrite elapsed_spec; cbn; rewrite Z.sub_diag; [done|lia]. }
  pose proof (rate_next s0 0 Hm ltac:(done) ltac:(lia)) as Hnext. cbn [count] in Hnext.
  rewrite Z.div_0_l, Z.mod_0_l in Hnext by (cbn; lia). cbn [Z.eqb andb negb] in Hnext.
  change (count s0) with n in Hnext. replace ((0 + 1) * n + 1) with (n + 1) in Hnext by lia.
  pose proof (rate_out s0 t0 Hm ltac:(done)) as Hout. rewrite He in Hout.
  rewrite andb_false_r in Hout.
  assert (t0 < at_tick s0 (n + 1)) as Hlt.
  { unfold at_tick. change (count_load_time s0) with t0. pose proof (tick_ns_mono 0 (n + 1)).
    change (tick_ns 0) with 0 in *. lia. }
  rewrite (update_run s0 c t0 (n + 1) 0); [|by split|lia|by rewrite He|lia|done].
  rewrite (proj2 (Z.leb_gt _ _)) by done.
  eexists. split; [done|]. apply rearmed_armed; try done; lia.
Qed.

(** The pulses of periods [k], [k + 1], ...: the line is high except for the
    last tick of every period. *)
Fixpoint pulse_train (t0 n k : Z) (m : nat) : list (Z * pit_event) :=
  match m with
  | O => []
  | S m => (t0 + tick_ns (k * n + 1), PitIrq 1) :: (t0 + tick_ns ((k + 1) * n), PitIrq 0)
             :: pulse_train t0 n (k + 1) m
  end.

(** No edge of periods [k] up to [k + m] falls on a whole nanosecond. *)
Definition clean (n k : Z) (m : nat) : Prop :=
  forall j, k <= j < k + Z.of_nat m -> exact (j * n + 1) = false /\ exact ((j + 1) * n) = false.

Lemma rate_edge_inexact s t0 n k :
  armed s t0 n 2 k -> 2 <= n <= 0x10000 -> 0 <= t0 < 2 ^ 62 -> 2 <= k < 2 ^ 51 -> exact k = false ->
  let rise := (k - 1) mod n =? 0 in
  exists s1, (forall m, run_timer (S m) s =
      obind (run_timer m s1) (fun l => Ok ((t0 + tick_ns k, PitIrq (cbool rise)) :: l)))
    /\ armed s1 t0 n 2 (((k - 1) / n + 1) * n + (if rise then 0 else 1)).
Proof.
  intros Ha Hn H0 Hk He. pose proof (rate_edge s t0 n k Ha Hn H0 ltac:(lia)) as Hr.
  rewrite He in Hr. cbv zeta iota in Hr.
  rewrite (proj2 (Z.eqb_neq (k - 1) 0)), andb_true_r in Hr by lia. exact Hr.
Qed.

Lemma rate_period s t0 n k :
  armed s t0 n 2 (k * n + 1) -> 2 <= n <= 0x10000 -> 0 <= t0 < 2 ^ 62 -> 1 <= k ->
  (k + 1) * n < 2 ^ 51 -> exact (k * n + 1) = false -> exact ((k + 1) * n) = false ->
  exists s2, (forall m, run_timer (S (S m)) s =
      obind (run_timer m s2) (fun l => Ok (pulse_train t0 n k 1 ++ l)))
    /\ armed s2 t0 n 2 ((k + 1) * n + 1).
Proof.
  intros Ha Hn H0 Hk Hb He1 He2.
  destruct (rate_edge_inexact s t0 n (k * n + 1)) as (s1 & Hr1 & Ha1); [done..|nia|done|].
  rewrite Z.add_simpl_r, Z.mod_mul, Z.div_mul in * by lia. cbn [Z.eqb] in *. rewrite Z.add_0_r in Ha1.
  destruct (rate_edge_inexact s1 t0 n ((k + 1) * n)) as (s2 & Hr2 & Ha2); [done..|nia|done|].
  rewrite <- (Z.div_unique ((k + 1) * n - 1) n k (n - 1)) in * by lia.
  rewrite <- (Z.mod_unique ((k + 1) * n - 1) n k (n - 1)) in * by lia.
  rewrite (proj2 (Z.eqb_neq (n - 1) 0)) in * by lia.
  exists s2. split; [|done]. intros m. rewrite Hr1, Hr2. by destruct (run_timer m s2).
Qed.

Lemma rate_run t0 n m : forall s k,
  armed s t0 n 2 (k * n + 1) -> 2 <= n <= 0x10000 -> 0 <= t0 < 2 ^ 62 -> 1 <= k ->
  (k + Z.of_nat m) * n < 2 ^ 51 -> clean n k m ->
  exists s', (forall m', run_timer (2 * m + m') s =
      obind (run_timer m' s') (fun l => Ok (pulse_train t0 n k m ++ l)))
    /\ armed s' t0 n 2 ((k + Z.of_nat m) * n + 1).
Proof.
  induction m as [|m IH]; intros s k Ha Hn H0 Hk Hb Hc.
  - exists s. split; [|by replace (k + Z.of_nat 0) with k by lia].
    intros m'. cbn. by destruct (run_timer m' s).
  - destruct (Hc k ltac:(lia)) as [He1 He2].
    destruct (rate_period s t0 n k) as (s2 & Hr & Ha2); [done..|nia|done|done|].
    destruct (IH s2 (k + 1) Ha2 Hn H0 ltac:(lia)) as (s' & Hr' & Ha'); [nia| |].
    { intros j Hj. apply Hc. lia. }
    exists s'. split; [|by replace (k + Z.of_nat (S m)) with (k + 1 + Z.of_nat m) by lia].
    intros m'. replace (2 * S m + m')%nat with (S (S (2 * m + m'))) by lia.
    rewrite Hr, Hr'. by destruct (run_timer m' s').
Qed.

(** *** Mode 0, interrupt on terminal count *)

Lemma shot_out (s : PITChannelState C) now :
  mode s = 0 -> 1 <= count s <= 0x10000 ->
  pit_get_out1 s now = Ok (cbool (count s <=? elapsed s now)).
Proof.
  intros Hm Hn. unfold pit_get_out1. rewrite Hm. cbn [Z.eqb Pos.eqb orb].
  by rewrite uwrap_id by (unfold fits; lia).
Qed.

Lemma shot_next (s : PITChannelState C) d :
  mode s = 0 -> 1 <= count s <= 0x10000 ->
  next_tick s d = Ok (if d <? count s then Some (count s) else None).
Proof.
  intros Hm Hn. unfold next_tick. rewrite Hm. cbn [Z.eqb Pos.eqb orb].
  rewrite uwrap_id by (unfold fits; lia). by destruct (_ <? _).
Qed.

(** The first nanosecond at which the counter has counted [n] ticks. *)
Definition first_ns (n : Z) : Z := tick_ns n + (if exact n then 0 else 1).

Lemma first_ns_spec n t : (n <=? ns_tick t) = (first_ns n <=? t).
Proof.
  unfold first_ns, ns_tick, tick_ns. pose proof (exact_spec n) as He.
  unfold get_ticks_per_sec, PIT_FREQ in *. apply eq_true_iff_eq. rewrite !Z.leb_le.
  destruct (exact n).
  - assert ((n * 1000000000) mod 1193182 = 0) by (by apply He). Z.div_mod_to_equations. lia.
  - assert ((n * 1000000000) mod 1193182 <> 0) by (intros ?; naive_solver).
    Z.div_mod_to_equations. lia.
Qed.

(** The handler of the timer at any time at which the counter still runs. *)
Lemma shot_wait s c t0 n now :
  irq_timer s = Some c -> alarm_ok c -> count s = n -> mode s = 0 -> count_load_time s = t0 ->
  1 <= n <= 0x10000 -> 0 <= t0 < 2 ^ 62 -> t0 <= now < t0 + first_ns n ->
  let next := if t0 + tick_ns n <=? now then t0 + first_ns n else t0 + tick_ns n in
  pit_irq_timer_update now s = Ok (tt, rearmed s c next, [PitIrq 0]) /\
  alarm_due (alarm_mod c next) = Some next /\ next <> -1.
Proof.
  intros Hc Hok Hn Hm Ht Hnr H0 Hnow next. pose proof (first_ns_spec n (now - t0)) as Hf.
  assert (tick_ns n <= first_ns n <= tick_ns n + 1) by (unfold first_ns; destruct (exact n); lia).
  rewrite (proj2 (Z.leb_gt (first_ns n) _)) in Hf by lia. pose proof (tick_ns_pos n).
  pose proof (tick_ns_bound n).
  assert (elapsed s now = ns_tick (now - t0)) as He.
  { rewrite elapsed_spec, Ht; [done|]. rewrite Ht. lia. }
  assert (0 <= next) by (subst next; case_cond; lia).
  split; [|split; [rewrite alarm_due_mod by done; f_equal; lia|lia]].
  rewrite (update_run s c now n 0); [|by split; [|rewrite Hn|rewrite Ht]|lia| |lia|].
  - unfold at_tick. rewrite Ht. subst next. destruct (Z.leb_spec (t0 + tick_ns n) now); [|done].
    assert (now + 1 = t0 + first_ns n) as -> by lia. by rewrite s64_id by lia.
  - rewrite shot_next, He, Hn by lia. by apply Z.leb_gt, Z.ltb_lt in Hf as ->.
  - rewrite shot_out, He, Hn by lia. by rewrite Hf.
Qed.

Lemma shot_done s c t0 n now :
  irq_timer s = Some c -> count s = n -> mode s = 0 -> count_load_time s = t0 ->
  1 <= n <= 0x10000 -> 0 <= t0 < 2 ^ 62 -> now = t0 + first_ns n ->
  pit_irq_timer_update now s = Ok (tt, rearmed s c (-1), [PitIrq 1]).
Proof.
  intros Hc Hn Hm Ht Hnr H0 Hnow. pose proof (first_ns_spec n (now - t0)) as Hf.
  assert (tick_ns n <= first_ns n <= tick_ns n + 1) by (unfold first_ns; destruct (exact n); lia).
  rewrite (proj2 (Z.leb_le (first_ns n) _)) in Hf by lia. pose proof (tick_ns_pos n).
  pose proof (tick_ns_bound n).
  assert (elapsed s now = ns_tick (now - t0)) as He.
  { rewrite elapsed_spec, Ht; [done|]. rewrite Ht. lia. }
  apply update_stop; [by split; [|rewrite Hn|rewrite Ht]| |].
  - rewrite shot_next, He, Hn by lia. apply Z.leb_le in Hf. by rewrite (proj2 (Z.ltb_ge _ _)) by lia.
  - rewrite shot_out, He, Hn by lia. by rewrite Hf.
Qed.

Lemma rearmed_timer s c t : t <> -1 -> irq_timer (rearmed s c t) = Some (alarm_mod c t).
Proof. intros Ht. unfold rearmed. cbn. by rewrite (proj2 (Z.eqb_neq _ _)). Qed.

(** A counter in mode 0 whose timer is armed for time [t]. *)
Record shot (s : PITChannelState C) (t0 n t : Z) : Prop := {
  shot_timer : exists c, irq_timer s = Some c /\ alarm_ok c /\ alarm_due c = Some t;
  shot_at : next_transition_time s = t;
  shot_count : count s = n;
  shot_mode : mode s = 0;
  shot_time : count_load_time s = t0;
}.

Lemma shot_rearmed s c t0 n t :
  alarm_ok c -> alarm_due (alarm_mod c t) = Some t -> t <> -1 -> count s = n -> mode s = 0 ->
  count_load_time s = t0 -> shot (rearmed s c t) t0 n t.
Proof.
  intros. split; try done. exists (alarm_mod c t). rewrite rearmed_timer by done.
  auto using alarm_mod_ok.
Qed.

(** The last expiration: the line rises and the timer stays off. *)
Lemma shot_last m s t0 n :
  shot s t0 n (t0 + first_ns n) -> 1 <= n <= 0x10000 -> 0 <= t0 < 2 ^ 62 ->
  run_timer (S m) s = Ok [(t0 + first_ns n, PitIrq 1)].
Proof.
  intros [(c & Hc & Hok & Hd) Hat Hn Hm Ht] Hnr H0.
  rewrite (run_timer_step m s c (t0 + first_ns n) (rearmed s c (-1)) [PitIrq 1]); [|done..|].
  - replace (run_timer m (rearmed s c (-1))) with (@Ok (list (Z * pit_event)) []); [done|].
    destruct m; [done|]. cbn [run_timer]. unfold rearmed at 1. cbn -[pit_irq_timer].
    by rewrite alarm_due_del.
  - unfold pit_irq_timer. run_prog. rewrite Hat. by rewrite (shot_done s c t0 n).
Qed.

(** An expiration before the end of the count. *)
Lemma shot_again m s t0 n t :
  shot s t0 n t -> 1 <= n <= 0x10000 -> 0 <= t0 < 2 ^ 62 -> t0 + tick_ns n <= t < t0 + first_ns n ->
  exists s1, run_timer (S m) s = obind (run_timer m s1) (fun l => Ok ((t, PitIrq 0) :: l)) /\
    shot s1 t0 n (t0 + first_ns n).
Proof.
  intros [(c & Hc & Hok & Hd) Hat Hn Hm Ht] Hnr H0 Hlt. pose proof (tick_ns_pos n).
  destruct (shot_wait s c t0 n t) as (E1 & Hd1 & Hne1); [done..|lia|].
  rewrite (proj2 (Z.leb_le _ _)) in * by lia. eexists. split.
  - apply (run_timer_step m s c t _ [PitIrq 0]); [done..|].
    unfold pit_irq_timer. run_prog. rewrite Hat. by rewrite E1.
  - by apply shot_rearmed.
Qed.
End counting.

(** C34: The rate generator delivers every interrupt, on time and without drift.
    A counter in mode 2 is loaded at [t0] with [n] ([0] means [0x10000]); then
    the first [2 * m] expirations of its timer, however late each is run, drive
    the interrupt line up and down once per period: up at tick [k * n + 1]
    and down at the tick [(k + 1) * n] of the 1193182 Hz clock, each rounded
    down to a nanosecond from [t0].  No edge may fall on a whole nanosecond,
    which happens at the multiples of 596591. *)
Theorem pit_rate_generator (C : Type) (K : AlarmClock C) (s : PITChannelState C) c val t0 (m : nat) :
  irq_timer s = Some c -> alarm_ok c -> mode s = 2 -> 0 <= val <= 0xffff -> val <> 1 ->
  0 <= t0 < 2 ^ 62 ->
  let n := if val =? 0 then 0x10000 else val in
  (1 + Z.of_nat m) * n < 2 ^ 51 -> clean n 1 m ->
  exists s1, pit_load_count t0 val s = Ok (tt, s1, [PitIrq 0])
    /\ run_timer (2 * m) s1 = Ok (pulse_train t0 n 1 m).
Proof.
  intros Hc Hok Hm Hv H1 H0 n Hb Hcl.
  destruct (rate_load s c val t0) as (s1 & Hl & Ha); try done. fold n in Ha.
  exists s1. split; [done|].
  destruct (rate_run t0 n m s1 1) as (s' & Hr & _); try done.
  - by rewrite Z.mul_1_l.
  - subst n. case_cond; lia.
  - specialize (Hr O). rewrite Nat.add_0_r in Hr. rewrite Hr. cbn. by rewrite app_nil_r.
Qed.

(** The rate generator can lose an interrupt.  When the rising edge of
    period [k] falls on a whole nanosecond ([k * n + 1] is a multiple of 596591) the
    conversion back to ticks does not round down, the handler finds the counter
    one tick further and drives the line low again; the next rise is that of
    period [k + 1]: the pulse of period [k] is missing. *)
Theorem pit_lost_tick (C : Type) (K : AlarmClock C) (s : PITChannelState C) c val t0 (m m' : nat) :
  irq_timer s = Some c -> alarm_ok c -> mode s = 2 -> 0 <= val <= 0xffff -> val <> 1 ->
  0 <= t0 < 2 ^ 62 ->
  let n := if val =? 0 then 0x10000 else val in
  let k := 1 + Z.of_nat m in
  (k + 1 + Z.of_nat m') * n < 2 ^ 51 -> clean n 1 m -> exact (k * n + 1) = true -> clean n (k + 1) m' ->
  exists s1, pit_load_count t0 val s = Ok (tt, s1, [PitIrq 0])
    /\ run_timer (2 * m + S (2 * m')) s1
       = Ok (pulse_train t0 n 1 m ++ (t0 + tick_ns (k * n + 1), PitIrq 0) :: pulse_train t0 n (k + 1) m').
Proof.
  intros Hc Hok Hm Hv H1 H0 n k Hb Hcl He Hcl'. assert (2 <= n <= 0x10000) by (subst n; case_cond; lia).
  destruct (rate_load s c val t0) as (s1 & Hl & Ha); try done. fold n in Ha.
  exists s1. split; [done|].
  destruct (rate_run t0 n m s1 1) as (s2 & Hr & Ha2); [by rewrite Z.mul_1_l|done..|nia|done|].
  fold k in Ha2. rewrite Hr.
  destruct (rate_edge s2 t0 n (k * n + 1)) as (s3 & Hr3 & Ha3); [done..|nia|]. rewrite He in *.
  rewrite <- (Z.div_unique (k * n + 1) n k 1) in * by lia.
  rewrite <- (Z.mod_unique (k * n + 1) n k 1) in * by lia. cbn [Z.eqb andb] in *.
  destruct (rate_run t0 n m' s3 (k + 1)) as (s4 & Hr4 & _); [done..|lia|nia|done|].
  specialize (Hr4 O). rewrite Nat.add_0_r in Hr4. rewrite Hr3, Hr4. cbn. by rewrite app_nil_r.
Qed.

(** The one-shot count is exact to the nanosecond and ends.  A counter in
    mode 0 loaded at [t0] with [n] drives its line low at once and up at the first
    nanosecond at which [n] whole ticks of the clock have gone by since [t0],
    neither before nor after; whatever was driven in between was low, and then
    the timer is off for good. *)
Theorem pit_one_shot (C : Type) (K : AlarmClock C) (s : PITChannelState C) c val t0 :
  irq_timer s = Some c -> alarm_ok c -> mode s = 0 -> 0 <= val <= 0xffff -> 0 <= t0 < 2 ^ 62 ->
  let n := if val =? 0 then 0x10000 else val in
  exists s1 l T, pit_load_count t0 val s = Ok (tt, s1, [PitIrq 0])
    /\ (forall m, (2 <= m)%nat -> run_timer m s1 = Ok (l ++ [(T, PitIrq 1)]))
    /\ Forall (fun e => snd e = PitIrq 0 /\ fst e < T) l
    /\ (forall t, (n <=? ns_tick (t - t0)) = (T <=? t)).
Proof.
  intros Hc Hok Hm Hv H0 n. assert (1 <= n <= 0x10000) by (subst n; case_cond; lia).
  unfold pit_load_count. run_prog. fold n.
  set (s0 := s <| count_load_time := t0 |> <| count := n |>).
  assert (0 < tick_ns n) by (apply (tick_ns_mono 0); lia).
  assert (tick_ns n <= first_ns n) by (unfold first_ns; destruct (exact n); lia).
  destruct (shot_wait s0 c t0 n t0) as (E1 & Hd1 & Hne1); [done..|lia|].
  rewrite (proj2 (Z.leb_gt _ _)) in * by lia. rewrite E1.
  set (s1 := rearmed s0 c _). assert (shot s1 t0 n (t0 + tick_ns n)) as Hs1 by (by apply shot_rearmed).
  exists s1, (if exact n then [] else [(t0 + tick_ns n, PitIrq 0)]), (t0 + first_ns n).
  split; [done|]. clearbody s1. split; [|split].
  - intros [|[|m]] Hle; [lia..|]. destruct (exact n) eqn:He.
    + apply shot_last; [|done..]. unfold first_ns. by rewrite He, Z.add_0_r.
    + destruct (shot_again (S m) s1 t0 n (t0 + tick_ns n)) as (s2 & -> & Hs2); [done..| |].
      { unfold first_ns. rewrite He. lia. }
      by rewrite (shot_last m s2 t0 n).
  - unfold first_ns. destruct (exact n); repeat constructor; cbn; lia.
  - intros t. rewrite first_ns_spec. apply eq_true_iff_eq. rewrite !Z.leb_le. lia.
Qed.

(** ** Safety of the ports *)
Section safety.
Context {C : Type} `{AlarmClock C}.

Definition channel_ok (s : PITChannelState C) : Prop :=
  1 <= count s <= 0x10000 /\ fits 8 (write_latch s) /\ (forall c, irq_timer s = Some c -> alarm_ok c).

Definition pit_ok (p : PITState C) : Prop :=
  length (channels p) = 3%nat /\ Forall channel_ok (channels p).

Lemma keeps_channel {A} i (m : CM A) :
  (i < 3)%nat -> keeps channel_ok (fun _ => True) m -> keeps pit_ok (fun _ => True) (channel i m).
Proof.
  intros Hi Hm p [Hl Hp]. destruct (lookup_lt_is_Some_2 (channels p) i) as [s Hs]; [lia|].
  destruct (Hm s) as (a & s' & es & E & _ & Hs'); [by eapply Forall_lookup_1|].
  unfold channel. rewrite Hs, E. do 3 eexists. split; [done|]. split; [done|].
  split; cbn; [by rewrite length_insert|]. by apply Forall_insert.
Qed.

Lemma by_count_ok s v : channel_ok s -> by_count s v = Ok v.
Proof. intros [Hc _]. unfold by_count. by rewrite (proj2 (Z.eqb_neq _ _)) by lia. Qed.

Lemma get_out_ok s now : channel_ok s -> exists o, pit_get_out1 s now = Ok o /\ True.
Proof.
  intros Hs. unfold pit_get_out1. rewrite !by_count_ok by done. repeat case_cond; eauto.
Qed.

Lemma get_count_ok s now : channel_ok s -> exists o, pit_get_count s now = Ok o /\ True.
Proof.
  intros Hs. unfold pit_get_count. rewrite !by_count_ok by done. repeat case_cond; eauto.
Qed.

Lemma next_transition_ok s now :
  channel_ok s -> exists o, pit_get_next_transition_time s now = Ok o /\ True.
Proof.
  intros [Hc _]. unfold pit_get_next_transition_time, next_tick.
  rewrite (proj2 (Z.eqb_neq (count s) 0)) by lia. repeat case_cond; cbn; eauto.
Qed.

Lemma keeps_state {A} (m : PITChannelState C -> CM A) Q :
  (forall s, channel_ok s -> keeps channel_ok Q (m s)) ->
  keeps channel_ok Q (s <- gets (fun s => s) ;; m s).
Proof. intros Hm. apply (keeps_bind channel_ok channel_ok); [by apply keeps_gets|done]. Qed.

Lemma keeps_computed {A} (x : outcome Z) (k : Z -> CM A) Q :
  (exists a, x = Ok a /\ True) -> (forall a, keeps channel_ok Q (k a)) ->
  keeps channel_ok Q (a <- of_outcome x ;; k a).
Proof.
  intros Hx Hk. apply (keeps_bind channel_ok (fun _ => True)); [by apply keeps_of_outcome|auto].
Qed.

Lemma keeps_update now : keeps channel_ok (fun _ => True) (pit_irq_timer_update now).
Proof.
  apply keeps_state. intros s Hs. destruct (irq_timer s) as [c|] eqn:E; [|by apply keeps_ret].
  apply keeps_computed; [by apply next_transition_ok|intros e].
  apply keeps_computed; [by apply get_out_ok|intros l]. destruct Hs as (_ & _ & Ht).
  keeps_walk; unfold channel_ok in *; cbn in *; [done|].
  split; [tauto|split; [tauto|]]. intros c' [= <-]. case_match; [apply alarm_del_ok|apply alarm_mod_ok]; auto.
Qed.

Lemma keeps_load now val :
  0 <= val < 0x10000 -> keeps channel_ok (fun _ => True) (pit_load_count now val).
Proof.
  intros Hv. unfold pit_load_count. keeps_walk; [|apply keeps_update].
  unfold channel_ok in *. cbn. split; [case_cond; lia|tauto].
Qed.

Lemma keeps_latch now : keeps channel_ok (fun _ => True) (pit_latch_count now).
Proof.
  apply keeps_state. intros s Hs. apply keeps_when. intros _.
  apply keeps_computed; [by apply get_count_ok|]. intros. by keeps_walk.
Qed.

Lemma keeps_read_back now val i : (i < 3)%nat -> keeps pit_ok (fun _ => True) (read_back now val i).
Proof.
  intros Hi. unfold read_back. apply keeps_when. intros _. apply keeps_channel; [done|].
  apply (keeps_bind channel_ok (fun _ => True)).
  { apply keeps_when. intros _. apply keeps_latch. }
  intros _ _. apply keeps_state. intros s Hs. apply keeps_when. intros _. unfold latch_status.
  apply keeps_state. intros s' Hs'. apply keeps_computed; [by apply get_out_ok|]. intros. by keeps_walk.
Qed.

Lemma keeps_port_write now addr val :
  fits 8 val -> keeps pit_ok (fun _ => True) (pit_ioport_write now addr val).
Proof.
  intros Hv. unfold pit_ioport_write. change 3 with (Z.ones 2). rewrite Z.land_ones by lia.
  pose proof (Z.mod_pos_bound addr (2 ^ 2) ltac:(lia)).
  change (Z.ones 2) with 3. apply keeps_if; intros E; [|apply keeps_channel; [lia|]].
  - assert (0 <= Z.shiftr val 6 < 4).
    { unfold fits in Hv. rewrite Z.shiftr_div_pow2 by lia. Z.div_mod_to_equations. lia. }
    unfold write_control. apply keeps_if; intros E'; [keeps_walk; apply keeps_read_back; lia|].
    apply keeps_channel; [lia|]. apply keeps_if; intros _; [apply keeps_latch|by keeps_walk].
  - apply keeps_state. intros s Hs. unfold fits in Hv.
    assert (fits 16 (Z.shiftl val 8)) by (unfold fits; rewrite Z.shiftl_mul_pow2; lia).
    repeat (apply keeps_if; intros _).
    + apply keeps_load. done.
    + keeps_walk. unfold channel_ok in *. cbn. split; [tauto|split; [by apply uwrap_fits|tauto]].
    + keeps_walk; [apply keeps_load|done]. apply (fits_lor 16); [lia| |done].
      destruct Hs as (_ & Hl & _). unfold fits in *. lia.
    + apply keeps_load. lia.
Qed.

Lemma keeps_port_read now addr :
  0 <= addr < 3 -> keeps pit_ok (fun _ => True) (pit_ioport_read now addr).
Proof.
  intros Ha. unfold pit_ioport_read. change 3 with (Z.ones 2). rewrite Z.land_ones by lia.
  rewrite Z.mod_small by lia. apply keeps_channel; [lia|].
  apply keeps_state. intros s Hs. repeat (apply keeps_if; intros _); try by keeps_walk.
  apply keeps_computed; [by apply get_count_ok|]. intros c. by keeps_walk.
Qed.

(** What can happen to the timer chip: an access to its four write and three
    read ports, a gate change of the speaker port, an expiration of the
    timer, a reset, and the switch of the HPET to and from legacy mode. *)
Inductive pit_op :=
| PortWrite (port : nat) (val : Z)
| PortRead (port : nat)
| SetGate (i : nat) (val : Z)
| Expire
| SystemReset
| HpetDisable
| HpetEnable.

Definition run_pit_op (now : Z) (o : pit_op) : M unit :=
  match o with
  | PortWrite port val => pit_ioport_write now (Z.of_nat port) val
  | PortRead port => pit_ioport_read now (Z.of_nat port) ;;; ret tt
  | SetGate i val => pit_set_gate now i val
  | Expire => channel 0 pit_irq_timer
  | SystemReset => pit_reset now
  | HpetDisable => hpet_pit_disable
  | HpetEnable => hpet_pit_enable now
  end.

Definition pit_op_ok (o : pit_op) : Prop :=
  match o with
  | PortWrite port val => (port < 4)%nat /\ fits 8 val
  | PortRead port => (port < 3)%nat
  | SetGate i _ => (i < 3)%nat
  | _ => True
  end.

Fixpoint run_pit (ops : list (Z * pit_op)) : M unit :=
  match ops with [] => ret tt | (now, o) :: ops => run_pit_op now o ;;; run_pit ops end.

Lemma keeps_reset now i : (i < 3)%nat -> keeps pit_ok (fun _ => True) (reset_channel now i).
Proof.
  intros Hi. unfold reset_channel. apply keeps_channel; [done|].
  keeps_walk; [done|by apply keeps_load].
Qed.

(** A reset does not need the counts: it makes them. *)
Definition raw_ok (s : PITChannelState C) : Prop :=
  fits 8 (write_latch s) /\ (forall c, irq_timer s = Some c -> alarm_ok c).

Lemma reset_channel_raw now l1 s l2 :
  (length l1 < 3)%nat -> raw_ok s ->
  exists s' es, reset_channel now (length l1) (mkPit (l1 ++ s :: l2)) = Ok (tt, mkPit (l1 ++ s' :: l2), es)
    /\ channel_ok s'.
Proof.
  intros Hl [Hw Ht].
  set (m := modify (fun s => s <| mode := 3 |> <| gate := cbool (negb (length l1 =? 2)%nat) |>) ;;;
            pit_load_count now 0 : CM unit).
  assert (keeps channel_ok (fun _ => True) m) as Hm by (subst m; keeps_walk; [done|by apply keeps_load]).
  destruct (Hm (s <| count := 1 |>)) as ([] & s' & es & E & _ & Hs'); [by split; [cbn; lia|]|].
  change (m (s <| count := 1 |>)) with (m s) in E. exists s', es. split; [|done].
  unfold reset_channel, channel. cbn [channels]. rewrite list_lookup_middle by done. fold m. rewrite E.
  assert (<[length l1 := s']> (l1 ++ s :: l2) = l1 ++ s' :: l2) as <-; [|done].
  by rewrite insert_app_r_alt, Nat.sub_diag by lia.
Qed.

Lemma reset_all now p :
  length (channels p) = 3%nat -> Forall raw_ok (channels p) ->
  exists p' es, pit_reset now p = Ok (tt, p', es) /\ pit_ok p'.
Proof.
  destruct p as [[|a [|b [|c [|]]]]]; cbn; intros Hlen; try done.
  intros H3. inversion_clear H3 as [|? ? Ha H2]. inversion_clear H2 as [|? ? Hb H1].
  inversion_clear H1 as [|? ? Hc _].
  destruct (reset_channel_raw now [] a [b; c]) as (a' & es0 & E0 & Ha'); [cbn; lia|done|].
  destruct (reset_channel_raw now [a'] b [c]) as (b' & es1 & E1 & Hb'); [cbn; lia|done|].
  destruct (reset_channel_raw now [a'; b'] c []) as (c' & es2 & E2 & Hc'); [cbn; lia|done|].
  cbn [app length] in *. unfold pit_reset, bind. rewrite E0, E1, E2.
  do 2 eexists. split; [done|]. split; [done|]. by repeat (apply Forall_cons; split).
Qed.

Lemma keeps_pit_op now o : pit_op_ok o -> keeps pit_ok (fun _ => True) (run_pit_op now o).
Proof.
  destruct o as [port val|port|i val| | | |]; cbn [pit_op_ok run_pit_op]; intros Ho.
  - apply keeps_port_write, Ho.
  - keeps_walk. apply keeps_port_read. lia.
  - apply keeps_channel; [done|]. apply keeps_state. intros s Hs.
    keeps_walk; unfold channel_ok in *; try done; apply keeps_update.
  - apply keeps_channel; [lia|]. apply keeps_state. intros s Hs. apply keeps_update.
  - unfold pit_reset. keeps_walk; apply keeps_reset; lia.
  - apply keeps_channel; [lia|]. keeps_walk. unfold channel_ok in *. cbn. split; [tauto|split; [tauto|]].
    intros c Hc. destruct (irq_timer st) as [c0|] eqn:E; [|done]. injection Hc as <-.
    apply alarm_del_ok. naive_solver.
  - apply keeps_channel; [lia|]. keeps_walk; [done|by apply keeps_load].
Qed.

Lemma keeps_run_pit ops :
  Forall (fun e => pit_op_ok (snd e)) ops -> keeps pit_ok (fun _ => True) (run_pit ops).
Proof.
  induction 1 as [|[now o] ops Ho _ IH]; cbn [run_pit]; [by apply keeps_ret|].
  apply (keeps_bind pit_ok (fun _ => True)); [by apply keeps_pit_op|done].
Qed.
End safety.

(** C39: No access faults.  After [pit_init], any sequence of port accesses (an
    8-bit value each), gate changes, timer expirations, resets and HPET
    switches, whatever the clock does in between, runs without a division by zero or
    an access outside the three channels, and leaves every count between 1
    and [0x10000]. *)
Theorem pit_run_total (C : Type) (K : AlarmClock C) (timer : C) p t0 ops :
  alarm_ok timer -> Forall (fun e => pit_op_ok (snd e)) ops ->
  exists p' es, (pit_init t0 timer ;;; run_pit ops) p = Ok (tt, p', es)
    /\ length (channels p') = 3%nat
    /\ Forall (fun s => 1 <= count s <= 0x10000) (channels p').
Proof.
  intros Ht Hops. unfold pit_init.
  destruct (reset_all t0 (mkPit [blank (Some timer); blank None; blank None])) as (p1 & es1 & E1 & Hp1).
  { done. }
  { repeat constructor; cbn; try lia; intros c [=]; by subst. }
  destruct (keeps_run_pit ops Hops p1 Hp1) as ([] & p2 & es2 & E2 & _ & Hl & Hc).
  exists p2, (es1 ++ es2). unfold bind at 1 2. cbn [modify]. rewrite E1, E2.
  split; [done|]. split; [done|]. eapply Forall_impl; [exact Hc|]. by intros s [].
Qed.

(** A handler on a counter that was just assigned. *)
Lemma channel_insert {C A} `{AlarmClock C} i (m : CM A) p (sa sb : PITChannelState C) a es :
  (i < length (channels p))%nat -> m sa = Ok (a, sb, es) ->
  channel i m (p <| channels ::= <[i := sa]> |>) = Ok (a, p <| channels ::= <[i := sb]> |>, es).
Proof.
  intros Hi E. unfold channel. cbn -[lookup insert].
  rewrite list_lookup_insert_eq, E by done. unfold setter. cbn -[insert]. by rewrite list_insert_insert_eq.
Qed.

(** A latched 16-bit count is read whole.  After a counter-latch command the
    two reads of the counter's port return the low and the high byte of the
    count at the time of the command, however much time passes before each
    of them; the counter runs on undisturbed, nothing stays latched, and the line is not touched. *)
Theorem pit_latched_read (C : Type) (K : AlarmClock C) p i (s : PITChannelState C) now t1 t2 :
  (i < 3)%nat -> channels p !! i = Some s -> count s <> 0 ->
  rw_mode s = RW_STATE_WORD0 -> count_latched s = 0 -> status_latched s = 0 ->
  exists cnt p1 p2 p3 lo hi, pit_get_count s now = Ok cnt
    /\ pit_ioport_write now 3 (Z.shiftl (Z.of_nat i) 6) p = Ok (tt, p1, [])
    /\ pit_ioport_read t1 (Z.of_nat i) p1 = Ok (lo, p2, [])
    /\ pit_ioport_read t2 (Z.of_nat i) p2 = Ok (hi, p3, [])
    /\ fits 8 lo /\ fits 8 hi /\ hi * 256 + lo = u16 cnt
    /\ channels p3 = <[i := s <| latched_count := u16 cnt |>]> (channels p).
Proof.
  intros Hi Hs Hn Hrw Hcl Hsl.
  assert (exists cnt, pit_get_count s now = Ok cnt) as [cnt Hcnt].
  { unfold pit_get_count, by_count. rewrite (proj2 (Z.eqb_neq (count s) 0)) by done. repeat case_cond; eauto. }
  set (s1 := s <| latched_count := u16 cnt |> <| count_latched := RW_STATE_WORD0 |>).
  set (s2 := s1 <| count_latched := RW_STATE_MSB |>).
  set (s3 := s2 <| count_latched := 0 |>).
  assert (i < length (channels p))%nat as Hlen by (by eapply lookup_lt_Some).
  assert (pit_ioport_write now 3 (Z.shiftl (Z.of_nat i) 6) p
          = Ok (tt, p <| channels ::= <[i := s1]> |>, [])) as E1.
  { assert (pit_ioport_write now 3 (Z.shiftl (Z.of_nat i) 6) p = channel i (pit_latch_count now) p) as ->
      by (by destruct i as [|[|[|i]]]; [..|lia]).
    unfold channel. rewrite Hs. unfold pit_latch_count. run_prog. rewrite Hcl. cbn [Z.eqb].
    rewrite Hcnt. cbn. by rewrite Hrw. }
  assert (forall t (p0 : PITState C), pit_ioport_read t (Z.of_nat i) p0 = channel i (read_counter t) p0) as E2
    by (by intros; destruct i as [|[|[|i]]]; [..|lia]).
  exists cnt, (p <| channels ::= <[i := s1]> |>), (p <| channels ::= <[i := s2]> |>),
    (p <| channels ::= <[i := s3]> |>), (Z.land (u16 cnt) 0xff), (Z.shiftr (u16 cnt) 8).
  split; [done|]. split; [done|].
  split; [rewrite E2; apply channel_insert; [done|]; unfold read_counter; run_prog; cbn; by rewrite Hsl|].
  split; [rewrite E2; apply channel_insert; [done|]; unfold read_counter; run_prog; cbn; by rewrite Hsl|].
  pose proof (uwrap_fits 16 cnt ltac:(lia)) as Hf. unfold fits in *.
  change 0xff with (Z.ones 8). rewrite Z.land_ones, Z.shiftr_div_pow2 by lia.
  split; [apply Z.mod_pos_bound; lia|]. split; [split; [apply Z.div_pos; lia|apply Z.div_lt_upper_bound; lia]|].
  split; [rewrite (Z.div_mod (u16 cnt) (2 ^ 8)) at 3; lia|].
  cbn. f_equal. destruct s. cbn in *. by subst.
Qed.

(** ** A concrete chip: its timer is timer 0 of an empty timer list *)
Definition demo_alarm := TimerList.timer_alarm 0.
Definition demo_channel (md rw : Z) : PITChannelState TimerList.timerlist :=
  blank (Some TimerList.timerlist_new) <| mode := md |> <| rw_mode := rw |>.
#[local] Existing Instance demo_alarm.

Lemma pit_rate_generator_witness :
  exists s1, pit_load_count 1000 59659 (demo_channel 2 3) = Ok (tt, s1, [PitIrq 0])
    /\ run_timer (2 * 2) s1 =
       Ok [(50001754, PitIrq 1); (100000832, PitIrq 0); (100001670, PitIrq 1); (150000748, PitIrq 0)].
Proof.
  apply (pit_rate_generator _ demo_alarm (demo_channel 2 3) TimerList.timerlist_new 59659 1000 2);
    [reflexivity|exact TimerList.timerlist_new_wf|reflexivity|lia|lia|lia|reflexivity|].
  intros j Hj. assert (j = 1 \/ j = 2) as [-> | ->] by lia; by split; vm_compute.
Defined.

Lemma pit_lost_tick_witness :
  exists s1, pit_load_count 1000 59659 (demo_channel 2 3) = Ok (tt, s1, [PitIrq 0])
    /\ run_timer (2 * 9 + S (2 * 1)) s1 =
       Ok (pulse_train 1000 59659 1 9 ++ (500001000, PitIrq 0) :: pulse_train 1000 59659 11 1).
Proof.
  apply (pit_lost_tick _ demo_alarm (demo_channel 2 3) TimerList.timerlist_new 59659 1000 9 1);
    [reflexivity|exact TimerList.timerlist_new_wf|reflexivity|lia|lia|lia|reflexivity| |reflexivity|].
  - intros j Hj. unfold exact. split; apply Z.eqb_neq; cbn [Z.eqb Z.of_nat] in *; rewrite Z.mod_small; lia.
  - intros j Hj. assert (j = 11) as -> by lia; by split; vm_compute.
Defined.

Lemma pit_one_shot_witness :
  exists s1 l T, pit_load_count 1000 3 (demo_channel 0 3) = Ok (tt, s1, [PitIrq 0])
    /\ (forall m, (2 <= m)%nat -> run_timer m s1 = Ok (l ++ [(T, PitIrq 1)]))
    /\ Forall (fun e => snd e = PitIrq 0 /\ fst e < T) l
    /\ (forall t, (3 <=? ns_tick (t - 1000)) = (T <=? t)).
Proof.
  apply (pit_one_shot _ demo_alarm (demo_channel 0 3) TimerList.timerlist_new 3 1000);
    [reflexivity|exact TimerList.timerlist_new_wf|reflexivity|lia..].
Defined.

Lemma pit_run_total_witness :
  exists p' es, (pit_init 5 TimerList.timerlist_new ;;;
      run_pit [(6, PortWrite 3 0x34); (7, PortWrite 0 0); (8, PortWrite 0 1); (9, PortRead 0);
               (10, Expire); (11, SetGate 2 1); (12, SystemReset)]) (mkPit []) = Ok (tt, p', es)
    /\ length (channels p') = 3%nat
    /\ Forall (fun s => 1 <= count s <= 0x10000) (channels p').
Proof.
  apply (pit_run_total _ demo_alarm); [exact TimerList.timerlist_new_wf|].
  repeat constructor; cbn; lia.
Defined.

Lemma pit_latched_read_witness :
  let s := demo_channel 2 3 <| count := 1000 |> in
  exists cnt p1 p2 p3 lo hi, pit_get_count s 9999 = Ok cnt
    /\ pit_ioport_write 9999 3 (Z.shiftl 1 6) (mkPit [s; s]) = Ok (tt, p1, [])
    /\ pit_ioport_read 20000 1 p1 = Ok (lo, p2, [])
    /\ pit_ioport_read 30000 1 p2 = Ok (hi, p3, [])
    /\ fits 8 lo /\ fits 8 hi /\ hi * 256 + lo = u16 cnt
    /\ channels p3 = [s; s <| latched_count := u16 cnt |>].
Proof.
  apply (pit_latched_read _ demo_alarm (mkPit [_; _]) 1 _ 9999 20000 30000);
    [lia|reflexivity|discriminate|reflexivity..].
Defined.

End Pit.
